(* ===== verification/_CoqProject ===== *)
-Q . S2P
Prelude.v
MathExtras.v
NyuziTarget.v
NyuziFixups.v
NyuziLinker.v
NyuziFormats.v
NyuziEmitter.v
NyuziDisassembler.v
NyuziCodec.v
NyuziMachine.v
NyuziInstrInfo.v
NyuziBranch.v
NyuziFrame.v
NyuziMCInstLower.v
MCExpressions.v
MCExprParser.v
NyuziAsmParser.v
NyuziPipeline.v
NyuziISelDAG.v
NyuziISelVector.v
NyuziISelFloat.v
NyuziISelLowering.v
NyuziCustomInserter.v
NyuziAtomicProgress.v
NyuziCallingConv.v
NyuziCallLowering.v
SpmdBuilder.v
SpmdMachine.v
SpmdGenerate.v
SpmdSimulation.v
SpmdControl.v
SpmdInvariant.v
SpmdStatements.v
SpmdLoops.v
SpmdCorrect.v
SpmdScanner.v
SpmdParser.v
SpmdGrammar.v
SpmdSource.v
Elf2Hex.v
ClangNyuzi.v
NyuziUnwind.v
NyuziFrameLayout.v
NyuziPEI.v
NyuziPEIPass.v
WordPatches.v
MCAssembler.v
MCStreamer.v
LldLink.v
LldLayout.v
LldWriter.v
LldSections.v
NyuziObject.v
NyuziExecutable.v
