(* ===== verification/Prelude.v ===== *)
(** * Verification of the Nyuzi tool chain

    This repository is a fork of LLVM with a back end for Nyuzi, a processor with
    32-bit scalars, vectors of 16 lanes, 28 general scalar and 32 vector
    registers.  The development models the C++ the fork adds, with the parts of
    the generic code that code is called by or relies on, and proves that the
    parts fit: that what one stage writes is what the next one reads, and that
    the code a stage produces does what its input says.

    ** How the parts interact

    The text of a kernel in the language of tools/spmd-compile becomes tokens, a
    syntax tree and LLVM IR (Spmd*.v).  A C program becomes LLVM IR through clang, whose Nyuzi part is
    the builtins and the names inline assembly may use (ClangNyuzi.v).  The back
    end turns IR into selection DAG nodes that custom lowering rewrites
    (NyuziISel*.v), calls and returns included (NyuziCallingConv.v,
    NyuziCallLowering.v); pseudo instructions become loops and branches
    (NyuziCustomInserter.v); branches are analysed and rewritten
    (NyuziBranch.v); registers are spilled, constants loaded and frames laid out,
    entered and left (NyuziInstrInfo.v, NyuziFrame.v, NyuziFrameLayout.v), by a
    pass that saves and restores the registers of the caller (NyuziPEI.v).
    Machine instructions become MC instructions and text (NyuziMCInstLower.v),
    text becomes MC instructions (NyuziAsmParser.v), MC instructions become bytes
    and fixups (NyuziEmitter.v, NyuziFixups.v).  The object streamer puts bytes,
    fixups and labels into the fragments of sections (MCStreamer.v); the assembler
    lays them out, evaluates the expressions of the fixups (MCExpressions.v) and
    resolves a fixup or records a relocation (MCAssembler.v); the linker resolves
    the symbols of all files (LldLink.v), makes output sections of their sections
    (LldSections.v), places those in memory and in the file (LldLayout.v), applies the
    relocations (LldLink.v, NyuziLinker.v) and writes the executable (LldWriter.v).
    Bytes are read back by the disassembler (NyuziDisassembler.v), the executable
    becomes a memory image (Elf2Hex.v), and the debugger unwinds its frames
    (NyuziUnwind.v).

    ** The files

    - Prelude: the monad [outcome] of functions that can stop (assertion,
      unreachable code, fatal error, undefined behaviour), machine integers
      [u8] to [i64] as Z with their wrap-around, little-endian words, tactics,
      hints and lemmas on lists.
    - MathExtras: include/llvm/Support/MathExtras.h, the bit helpers.
    - NyuziTarget: registers, opcodes, MC expressions, operands, instructions
      and fixups (NyuziRegisterInfo.td, NyuziInstrInfo.td, MCInst.h, MCExpr.h,
      NyuziFixupKinds.h).
    - NyuziFixups: MCTargetDesc/NyuziAsmBackend.cpp, NyuziELFObjectWriter.cpp
      and the loop over fixups of lib/MC/MCAssembler.cpp.
    - NyuziLinker: tools/lld/ELF/Arch/Nyuzi.cpp.
    - NyuziFormats, NyuziEmitter, NyuziDisassembler, NyuziCodec: the formats of
      NyuziInstrFormats.td, MCTargetDesc/NyuziMCCodeEmitter.cpp,
      Disassembler/NyuziDisassembler.cpp, evaluateBranch of
      NyuziMCTargetDesc.cpp; the class [OperandCodec] is the interface between
      the encoder and the decoder of an operand.
    - NyuziMachine: machine instructions, functions, frames, and the state of a
      machine the code of the later files runs on.
    - NyuziInstrInfo, NyuziBranch: NyuziInstrInfo.cpp.
    - NyuziFrame: NyuziFrameLowering.cpp, NyuziRegisterInfo.cpp.
    - NyuziFrameLayout: lib/CodeGen/PrologEpilogInserter.cpp, the slots of saved
      registers and the offsets of all objects; NyuziPEI: the pass of that file
      up to the search for free registers, over a function of several blocks, and the
      machine steps of the code it inserts; NyuziPEIPass: that the registers of the
      caller survive.
    - NyuziMCInstLower: NyuziMCInstLower.cpp, NyuziAsmPrinter.cpp,
      InstPrinter/NyuziInstPrinter.cpp.
    - MCExprParser: the expression parser of lib/MC/MCParser/AsmParser.cpp, and the
      printer of expressions of lib/MC/MCExpr.cpp.
    - NyuziAsmParser: AsmParser/NyuziAsmParser.cpp.
    - NyuziPipeline: properties across parser, emitter, fixups, disassembler.
    - WordPatches: words of a byte buffer that are patched at places apart.
    - MCExpressions: lib/MC/MCExpr.cpp, MCTargetDesc/NyuziMCExpr.cpp, symbols and
      values; what an expression means when its symbols have addresses.
    - MCAssembler: lib/MC/MCAssembler.cpp, MCFragment.cpp, ELFObjectWriter.cpp:
      layout, fixups, relocation entries, the sections and symbols of an object.
    - MCStreamer: lib/MC/MCObjectStreamer.cpp, MCELFStreamer.cpp, with parts of
      MCStreamer.cpp and MCContext.cpp: the operations that fill the fragments.
    - LldLink: tools/lld/ELF SymbolTable.cpp, InputFiles.cpp, Relocations.cpp,
      InputSection.cpp, Symbols.cpp: symbols, the GOT, relocation of sections.
    - LldSections: InputSection.cpp, LinkerScript.cpp, OutputSections.cpp and Writer.cpp of
      tools/lld/ELF, which input sections become which output section; LldLayout:
      Writer.cpp from sortSections to checkSections, order, segments, addresses and file
      offsets; LldWriter: Writer.cpp, headers and contents of the file, and the memory
      of its load segments.
    - NyuziObject: streamer, assembler and linker composed, from the operations on
      several files to the relocated sections; NyuziExecutable: the whole link
      (Driver.cpp and run of Writer.cpp) to the file, and an instruction in its memory.
    - NyuziISelDAG, NyuziISelVector, NyuziISelFloat, NyuziISelLowering:
      NyuziISelLowering.cpp and NyuziISelDAGToDAG.cpp over DAG nodes with an
      evaluator; undefined lanes are asked of an oracle, and lowering refines.
    - NyuziCustomInserter: EmitInstrWithCustomInserter and its functions, on a
      control flow graph run in steps that interleave with other threads;
      NyuziAtomicProgress: how long the loops run.
    - NyuziCallingConv, NyuziCallLowering: NyuziCallingConv.td as
      utils/TableGen/CallingConvEmitter.cpp reads it, CallingConvLower.{h,cpp},
      LowerCall, LowerFormalArguments, LowerReturn.
    - SpmdBuilder: tools/spmd-compile/src/SPMDBuilder.{h,cpp} and
      AstNode.{h,cpp}, with the floating point operations of the host as the
      class [FloatOps]; SpmdMachine: execution of the IR and the scalar meaning
      of a kernel; SpmdGenerate: the builder only appends, and never trips an
      assertion on [scoped] kernels; SpmdSimulation: one lemma per builder
      operation; SpmdControl: branches and returns; SpmdInvariant,
      SpmdStatements, SpmdLoops: masks, lanes and statements; SpmdCorrect: the
      kernel.  SpmdScanner: tools/spmd-compile/src/Scanner.ll; SpmdParser:
      Parser.yy, its actions and the conflicts Bison resolves; SpmdGrammar: the
      grammar without ambiguity as inductive relations, which the parser accepts exactly;
      SpmdSource: the compiler from the text on.
    - Elf2Hex: tools/elf2hex/elf2hex.cpp against a specification of $readmemh.
    - ClangNyuzi: EmitNyuziBuiltinExpr of CGBuiltin.cpp over BuiltinsNyuzi.def
      and IntrinsicsNyuzi.td; Basic/Targets/Nyuzi.{h,cpp} and the lookup of
      register names of TargetInfo.cpp and TargetLowering.cpp.
    - NyuziUnwind: lldb Plugins/ABI/Nyuzi/ABINyuzi.{h,cpp}, the initial frame
      state of NyuziMCTargetDesc.cpp and the directives of the prologue.

    ** What the theorems show

    - Assembler and linker: in the memory of an executable linked from several files
      every symbolic instruction refers to the address of its expression, and loads
      from the GOT to a word that holds it ([executable_instruction]).  Input sections
      are grouped by the names of their output sections ([sections_grouped]), which are
      laid out and written so that a loader finds every byte at its address, except the
      zeros that the padding of the last segment cuts off ([linked_file_loads]).
      Assembler and linker patch the same bits for the same relocation and touch nothing
      else ([assembler_linker_agree], [relocateOne_frame]); the linker's table is the resolution of all symbols of
      all files ([symbol_resolution]); a fixup is resolved or becomes a relocation of
      the same value ([fixups_accounted]), which is what the expression means
      ([expression_value]); the streamer only adds, and a label stays where it was
      put ([emission_extends]).  A subtraction that is left to the linker in a data
      value is recorded with the wrong type ([subtraction_recorded]).
    - Encoding: decoding an encoded instruction gives it back, and the branch or
      the memory operand that comes out is the one meant ([disassemble_encode],
      [masked_offset_disassembled], [branch_to_symbol], [li_loads],
      [lea_sym_address]).
    - Text: the expression parser accepts the grammar of operators and precedences
      and folds constants ([parser_grammar]); what the printer writes for an
      expression is read back ([print_parse_expression]), and so are memory operands
      ([print_parse_mem]); parsing an instruction terminates
      ([ParseInstruction_terminates]), and immediates are in range
      ([ParseImmediate_range]).
    - Machine passes: a function that went through the pass returns with the
      registers of its caller and its stack pointer, whatever its body does within
      its frame; prologue and epilogue restore what they must, objects of a
      frame do not overlap, frame indices become the addresses of their objects,
      spills round-trip, branch analysis is sound ([callee_saved_preserved],
      [prologue_epilogue], [frame_layout], [eliminateFrameIndex_correct], [spill_reload],
      [analyzeBranch_sound], [remove_insert_branch], [loadConstant_correct],
      [call_frame_pair], [determineCalleeSaves_spec]).
    - Concurrency: atomics and compare-and-swap are linearizable for any
      behaviour of the other threads ([atomic_binary_linearizable],
      [cmp_swap_linearizable]), and each is done after a number of steps bounded by
      the stores of the others ([atomic_progress]).
    - Selection: custom lowering computes what the node means, or stops with the
      error it names ([LowerOperation_refines], [LowerVECTOR_SHUFFLE_correct],
      [LowerFDIV_error], [getAddr_correct], [EmitSelectCC_selects]).
    - Calls: argument locations are disjoint, the callee finds what the caller
      passed, results come back ([arguments_separated],
      [call_passes_arguments], [return_passes_results], [va_start_correct]).
    - SPMD compiler: a program laid out as text gives back its tokens
      ([tokens_layout]); the parser ends on every input, and accepts exactly what the
      grammar derives, with the actions' results ([parser_follows_grammar]): operators
      group by the precedences that are declared, which leave comparisons without one,
      and an else belongs to the last if.  A kernel in the modelled scope is
      generated, and computes in each of its lanes what the scalar program computes
      there, from the syntax tree ([kernel_computes_lanes],
      [scoped_kernel_generated]) and from the text ([source_computes_lanes]);
      the scope excludes a return in a loop, which is overwritten in the example
      [return_in_loop_overwritten].
    - Tools: elf2hex writes the image of the segments or stops with the message
      of the case ([main_loads_executable], [oversized_segment_overflows]); the
      frame information unwinds ([unwind_frame]); compiler, back end and debugger
      agree on the registers ([register_numbers_agree]); builtins compute masks
      and mixes lane by lane ([mask_builtins_correct]).

    ** Bounds and fuel

    Machine integers keep their width; a hypothesis such as "the frame is below
    2^23" is a field of the instruction, and outside of it the code stops or the
    theorem says what happens.  Loops over a list recurse on the list.  The
    operand loop of the parser has the number of tokens as fuel, which is enough
    ([ParseInstruction_terminates]); the expression parser has one more than the
    number of tokens, and never runs out ([parser_grammar]).  The scanner takes at
    least one character a step, so the length of its input is enough; the SPMD parser
    has one more than the number of tokens, and never runs out
    ([parser_follows_grammar]).  The execution of a control flow graph or of IR is a
    step relation without fuel; the scalar meaning of a kernel has a bound per loop, and
    the theorem holds for every bound at which the scalar program of every lane ends.
    A link has less than 2^14 output sections, each of less than 2^40 bytes with its
    alignments, so that no sum in 64 bits wraps around ([linked_file_loads]); the frame
    of the prologue and epilogue pass is at most eight megabytes
    ([callee_saved_preserved]).

    ** Not modelled

    What TableGen generates (instruction selection patterns, decoder and matcher
    tables, subtarget features) is a parameter where the code calls it.  The
    generic passes of LLVM, clang, lld and lldb are in the model only where a
    Nyuzi hook needs them.  Registration of targets and factories, the subtarget
    and target machine, the driver of clang and the assembly of compiler-rt carry
    no logic of their own or are not C++.  The messages of the SPMD compiler
    other than which error is reported, and the program that opens its input and
    prints the module, are left out.  In the assembler, symbols set by an
    assignment, common and thread-local symbols, subsections, bundles and relaxed
    instructions, line tables, and the bytes of the object file's headers, symbol and
    string tables are left out; in the linker, linker scripts, archives and shared
    libraries, the symbols the linker defines, input sections without contents,
    mergeable, discarded and exception frame sections, thread-local storage and an
    interpreter, thunks and dynamic relocations; the tables the linker makes other than
    the GOT (symbols, strings, comments) have any contents.  Statements about fixups and
    symbolic instructions are for expressions with one symbol, or several that are not
    weak ([one_or_strong]).  The directives of the assembly language and
    its lexer are generic; the operations they ask for are in the streamer.  Of
    expressions in text, string constants, the symbol for the current address,
    variants after an at sign and assigned symbols are left out.  Liveness of
    saved registers and shrink wrapping are not in the prologue and epilogue pass; it is
    modelled up to the scavenging of virtual registers, which large frames need.  Source locations, debug locations and instruction
    scheduling are left out everywhere.  Floating point is IEEE bit patterns for
    comparisons and moves, and a parameter for arithmetic. *)
From stdpp Require Export base decidable list numbers gmap strings.
From coqutil Require Export Z.bitblast.
From Stdlib Require Export Btauto.
From Stdlib Require Import Sorting.Sorted.

#[global] Open Scope Z_scope.

(** ** Results of the modelled C++ functions

    A C++ function returns, or one of its guards stops the program.  The
    constructors name the guards the sources use: [assert], the macro
    [llvm_unreachable], [report_fatal_error] / lld's [fatal], and an access the
    sources do not guard at all (undefined behaviour). *)
Inductive outcome (A : Type) : Type :=
  | Ret (a : A)
  | AssertFail (msg : string)
  | Unreachable (msg : string)
  | FatalError (msg : string)
  | UndefinedBehaviour (msg : string).
Arguments Ret {A} a.
Arguments AssertFail {A} msg.
Arguments Unreachable {A} msg.
Arguments FatalError {A} msg.
Arguments UndefinedBehaviour {A} msg.

#[global] Instance outcome_ret : MRet outcome := fun A a => Ret a.

#[global] Instance outcome_bind : MBind outcome := fun A B k m =>
  match m with
  | Ret a => k a
  | AssertFail s => AssertFail s
  | Unreachable s => Unreachable s
  | FatalError s => FatalError s
  | UndefinedBehaviour s => UndefinedBehaviour s
  end.

#[global] Instance outcome_fmap : FMap outcome := fun A B f m => a ← m; Ret (f a).

(** [assert(b && msg)] *)
Definition cassert (b : bool) (msg : string) : outcome unit :=
  if b then Ret tt else AssertFail msg.

(** An [ArrayRef] / [SmallVector] access: the index is asserted in range. *)
Definition at_index {A : Type} (l : list A) (i : Z) : outcome A :=
  if i <? 0 then AssertFail "index out of range"
  else match l !! Z.to_nat i with
       | Some a => Ret a
       | None => AssertFail "index out of range"
       end.

Lemma outcome_bind_ret {A B : Type} (a : A) (k : A → outcome B) : (Ret a ≫= k) = k a.
Proof. reflexivity. Qed.

Lemma outcome_bind_Ret_inv {A B : Type} (m : outcome A) (k : A → outcome B) (b : B) :
  (m ≫= k) = Ret b → ∃ a, m = Ret a ∧ k a = Ret b.
Proof. destruct m; cbn; intros H; try discriminate. eauto. Qed.

Lemma cassert_bind_inv {B : Type} (c : bool) (msg : string) (k : outcome B) (b : B) :
  (cassert c msg ≫= λ _, k) = Ret b → c = true ∧ k = Ret b.
Proof. destruct c; cbn; intros H; [auto | discriminate]. Qed.

Lemma at_index_lookup {A : Type} (l : list A) (i : nat) (a : A) :
  l !! i = Some a → at_index l (Z.of_nat i) = Ret a.
Proof.
  intros H. unfold at_index.
  destruct (Z.ltb_spec (Z.of_nat i) 0); [lia |].
  rewrite Nat2Z.id, H. reflexivity.
Qed.

Lemma at_index_Ret {A : Type} (l : list A) (i : Z) (a : A) :
  at_index l i = Ret a → 0 ≤ i ∧ l !! Z.to_nat i = Some a.
Proof.
  unfold at_index. destruct (Z.ltb_spec i 0); [discriminate |].
  destruct (l !! Z.to_nat i) eqn:E; [| discriminate].
  intros [= ->]. auto.
Qed.

(** Inversion of a chain of binds that returned. *)
Ltac inv_ret :=
  repeat match goal with
         | H : (cassert _ _ ≫= _) = Ret _ |- _ => apply cassert_bind_inv in H as [? H]
         | H : (_ ≫= _) = Ret _ |- _ =>
             let a := fresh "r" in let E := fresh "E" in
             apply outcome_bind_Ret_inv in H as (a & E & H)
         | H : Ret _ = Ret _ |- _ => injection H as H; subst
         | H : mret _ = Ret _ |- _ => injection H as H; subst
         | H : AssertFail _ = Ret _ |- _ => discriminate H
         | H : Unreachable _ = Ret _ |- _ => discriminate H
         | H : FatalError _ = Ret _ |- _ => discriminate H
         | H : UndefinedBehaviour _ = Ret _ |- _ => discriminate H
         end.

(** ** Machine integers

    A w-bit unsigned integer is its residue [uint w x]; a w-bit signed integer
    is its two's complement value [sint w x]. *)
Definition uint (w x : Z) : Z := x mod 2 ^ w.

Definition sint (w x : Z) : Z :=
  let y := x mod 2 ^ w in if y <? 2 ^ (w - 1) then y else y - 2 ^ w.

Declare Scope cint_scope.
Delimit Scope cint_scope with cint.
Abbreviation u8 := (uint 8).
Abbreviation u16 := (uint 16).
Abbreviation u32 := (uint 32).
Abbreviation u64 := (uint 64).
Abbreviation i8 := (sint 8).
Abbreviation i16 := (sint 16).
Abbreviation i32 := (sint 32).
Abbreviation i64 := (sint 64).
Infix "&" := Z.land (at level 40, left associativity) : cint_scope.
Infix "|||" := Z.lor (at level 50, left associativity) : cint_scope.
Infix "<<" := Z.shiftl (at level 45, left associativity) : cint_scope.
Infix ">>" := Z.shiftr (at level 45, left associativity) : cint_scope.

Lemma pow2_pos (w : Z) : 0 ≤ w → 0 < 2 ^ w.
Proof. intros. apply Z.pow_pos_nonneg; lia. Qed.

Lemma pow2_half (w : Z) : 0 < w → 2 ^ w = 2 * 2 ^ (w - 1).
Proof. intros. rewrite <- Z.pow_succ_r by lia. f_equal. lia. Qed.

Lemma uint_range (w x : Z) : 0 ≤ w → 0 ≤ uint w x < 2 ^ w.
Proof. intros. apply Z.mod_pos_bound, pow2_pos; lia. Qed.

Lemma uint_small (w x : Z) : 0 ≤ x < 2 ^ w → uint w x = x.
Proof. apply Z.mod_small. Qed.

Lemma uint_uint (w x : Z) : uint w (uint w x) = uint w x.
Proof. apply Zmod_mod. Qed.

Lemma sint_range (w x : Z) : 0 < w → - 2 ^ (w - 1) ≤ sint w x < 2 ^ (w - 1).
Proof.
  intros Hw. unfold sint. pose proof (Z.mod_pos_bound x (2 ^ w) (pow2_pos w ltac:(lia))).
  pose proof (pow2_half w Hw). destruct (Z.ltb_spec (x mod 2 ^ w) (2 ^ (w - 1))); lia.
Qed.

Lemma sint_small (w x : Z) : 0 < w → - 2 ^ (w - 1) ≤ x < 2 ^ (w - 1) → sint w x = x.
Proof.
  intros Hw Hx. unfold sint. pose proof (pow2_half w Hw).
  destruct (Z.le_gt_cases 0 x).
  - rewrite Z.mod_small by lia. destruct (Z.ltb_spec x (2 ^ (w - 1))); lia.
  - replace (x mod 2 ^ w) with (x + 2 ^ w).
    + destruct (Z.ltb_spec (x + 2 ^ w) (2 ^ (w - 1))); lia.
    + symmetry. rewrite <- (Z.mod_small (x + 2 ^ w) (2 ^ w)) by lia.
      rewrite <- Zplus_mod_idemp_r, Z_mod_same_full, Z.add_0_r. reflexivity.
Qed.

Lemma sint_uint (w x : Z) : sint w (uint w x) = sint w x.
Proof. unfold sint, uint. rewrite Zmod_mod. reflexivity. Qed.

Lemma uint_sint (w x : Z) : uint w (sint w x) = uint w x.
Proof.
  unfold sint, uint. destruct (_ <? _); [apply Zmod_mod |].
  rewrite <- (Z.add_0_r (x mod 2 ^ w)) at 1. rewrite Zminus_mod, Z_mod_same_full.
  rewrite Z.sub_0_r, Z.add_0_r, !Zmod_mod. reflexivity.
Qed.

Lemma sint_sint (w x : Z) : sint w (sint w x) = sint w x.
Proof. rewrite <- sint_uint, uint_sint, sint_uint. reflexivity. Qed.

Lemma uint_eq_sint (w x y : Z) : uint w x = uint w y → sint w x = sint w y.
Proof. intros H. rewrite <- (sint_uint w x), H, sint_uint. reflexivity. Qed.

(** Arithmetic modulo 2^w: [uint] may be pushed into sums and products. *)
Lemma uint_add_l (w x y : Z) : uint w (uint w x + y) = uint w (x + y).
Proof. apply Zplus_mod_idemp_l. Qed.

Lemma uint_add_r (w x y : Z) : uint w (x + uint w y) = uint w (x + y).
Proof. apply Zplus_mod_idemp_r. Qed.

Lemma uint_sub_l (w x y : Z) : uint w (uint w x - y) = uint w (x - y).
Proof. apply Zminus_mod_idemp_l. Qed.

Lemma uint_sub_r (w x y : Z) : uint w (x - uint w y) = uint w (x - y).
Proof. apply Zminus_mod_idemp_r. Qed.

Lemma uint_mul_l (w x y : Z) : uint w (uint w x * y) = uint w (x * y).
Proof. apply Zmult_mod_idemp_l. Qed.

Lemma uint_mul_r (w x y : Z) : uint w (x * uint w y) = uint w (x * y).
Proof. apply Zmult_mod_idemp_r. Qed.

Lemma uint_add_sint_r (w x y : Z) : uint w (x + sint w y) = uint w (x + y).
Proof. rewrite <- uint_add_r, uint_sint, uint_add_r. reflexivity. Qed.

Lemma uint_uint_le (w v x : Z) : 0 ≤ w ≤ v → uint w (uint v x) = uint w x.
Proof.
  intros H. unfold uint. apply Z.mod_mod_divide.
  exists (2 ^ (v - w)). rewrite <- Z.pow_add_r by lia. f_equal. lia.
Qed.

Lemma uint_sint_le (w v x : Z) : 0 ≤ w ≤ v → uint w (sint v x) = uint w x.
Proof. intros H. rewrite <- (uint_uint_le w v), uint_sint, uint_uint_le by lia. reflexivity. Qed.

(** Bits of machine integers. *)
Lemma testbit_uint (w x i : Z) : 0 ≤ w → Z.testbit (uint w x) i = (i <? w) && Z.testbit x i.
Proof. intros. apply Z.testbit_mod_pow2. lia. Qed.

Lemma testbit_sint (w x i : Z) :
  0 < w → 0 ≤ i → Z.testbit (sint w x) i = Z.testbit x (if i <? w then i else w - 1).
Proof.
  intros Hw Hi. destruct (Z.ltb_spec i w) as [Hlt | Hge].
  - transitivity (Z.testbit (uint w (sint w x)) i).
    + rewrite testbit_uint by lia. destruct (Z.ltb_spec i w); [reflexivity | lia].
    + rewrite uint_sint, testbit_uint by lia. destruct (Z.ltb_spec i w); [reflexivity | lia].
  - assert (Hs : Z.testbit (sint w x) i = bool_decide (sint w x < 0)).
    { apply (Z.bounded_iff_bits (w - 1)); [lia | apply sint_range; lia | lia]. }
    assert (Hs' : Z.testbit (sint w x) (w - 1) = bool_decide (sint w x < 0)).
    { apply (Z.bounded_iff_bits (w - 1)); [lia | apply sint_range; lia | lia]. }
    rewrite Hs, <- Hs'. transitivity (Z.testbit (uint w (sint w x)) (w - 1)).
    + rewrite testbit_uint by lia. destruct (Z.ltb_spec (w - 1) w); [reflexivity | lia].
    + rewrite uint_sint, testbit_uint by lia.
      destruct (Z.ltb_spec (w - 1) w); [reflexivity | lia].
Qed.

Lemma uint_land_ones (w x : Z) : 0 ≤ w → Z.land x (Z.ones w) = uint w x.
Proof. intros. apply Z.land_ones. lia. Qed.

Lemma uint_bits_high (w x i : Z) : 0 ≤ x < 2 ^ w → w ≤ i → Z.testbit x i = false.
Proof.
  intros Hx Hi. destruct (Z.le_gt_cases 0 w).
  - apply (Z.bounded_iff_bits_nonneg' w); lia.
  - rewrite Z.pow_neg_r in Hx by lia. lia.
Qed.

#[export] Hint Rewrite testbit_uint testbit_sint using solve [auto with zarith] : z_bitwise_with_hyps.

(** [bitwise]: equality of two integers, bit by bit. *)
Ltac bitwise_step :=
  match goal with
  | |- context [if ?a <? ?b then _ else _] =>
      lazymatch a with context [if _ then _ else _] => fail | _ => destruct (Z.ltb_spec a b) end
  | |- context [?a <? ?b] => destruct (Z.ltb_spec a b)
  | |- context [?a <=? ?b] => destruct (Z.leb_spec a b)
  | |- context [?a =? ?b] => destruct (Z.eqb_spec a b)
  end; try (exfalso; lia).

Ltac bitwise_neg :=
  repeat match goal with
         | |- context [Z.testbit ?x ?i] => rewrite (Z.testbit_neg_r x i) by lia
         end.

Ltac bitwise_core :=
  Z.rewrite_bitwise; cbn [negb andb orb xorb];
  repeat (bitwise_step; cbn [negb andb orb xorb]; Z.rewrite_bitwise; bitwise_neg;
          cbn [negb andb orb xorb]);
  bitwise_neg;
  rewrite ?andb_true_r, ?andb_false_r, ?orb_false_r, ?orb_true_r, ?xorb_false_r;
  cbn [negb andb orb xorb];
  repeat match goal with
         | |- context [Z.testbit ?x ?i] =>
             match goal with
             | |- context [Z.testbit x ?j] =>
                 tryif constr_eq i j then fail
                 else (let E := fresh in
                       assert (E : Z.testbit x j = Z.testbit x i) by (f_equal; lia);
                       rewrite E; clear E)
             end
         end;
  try reflexivity; try btauto.

Ltac bitwise := apply Z.bits_inj'; intros ?i ?Hi; bitwise_core.

Lemma shiftl_add_lor (a b n : Z) : 0 ≤ n → 0 ≤ b < 2 ^ n → Z.lor (Z.shiftl a n) b = a * 2 ^ n + b.
Proof.
  intros Hn Hb. rewrite Z.or_to_plus.
  - rewrite Z.shiftl_mul_pow2 by lia. reflexivity.
  - rewrite <- (Z.mod_small b (2 ^ n)) by lia. bitwise.
Qed.

Create HintDb cint.
Create Rewrite HintDb cint.
Create Rewrite HintDb cint_mod.
#[export] Hint Rewrite uint_uint sint_sint uint_sint sint_uint : cint.
#[export] Hint Rewrite uint_add_l uint_add_r uint_sub_l uint_sub_r uint_mul_l uint_mul_r
  uint_add_sint_r : cint_mod.
#[export] Hint Resolve pow2_pos uint_range sint_range : cint.

(** ** Little-endian bytes *)
Fixpoint le_bytes (n : nat) (v : Z) : list Z :=
  match n with
  | O => []
  | S n' => uint 8 v :: le_bytes n' (Z.shiftr v 8)
  end.

Fixpoint le_combine (bs : list Z) : Z :=
  match bs with
  | [] => 0
  | b :: bs' => Z.lor (uint 8 b) (Z.shiftl (le_combine bs') 8)
  end.

Lemma length_le_bytes (n : nat) (v : Z) : length (le_bytes n v) = n.
Proof. revert v. induction n; intros v; cbn; [reflexivity | f_equal; apply IHn]. Qed.

Lemma le_combine_bytes (n : nat) (v : Z) : le_combine (le_bytes n v) = uint (8 * Z.of_nat n) v.
Proof.
  revert v. induction n as [| n IH]; intros v.
  - unfold uint. cbn. rewrite Z.mod_1_r. reflexivity.
  - cbn [le_bytes le_combine]. rewrite IH, Nat2Z.inj_succ. bitwise.
Qed.

Lemma le_bytes_range (n : nat) (v : Z) : Forall (λ b, 0 ≤ b < 256) (le_bytes n v).
Proof.
  revert v. induction n; intros v; cbn; constructor; [| apply IHn].
  apply (uint_range 8). lia.
Qed.

(** ** Lists *)

(** Update of a slice in place: [write_at off new l] overwrites
    [length new] elements from position [off]. *)
Definition write_at {A : Type} (off : nat) (new l : list A) : list A :=
  take off l ++ new ++ drop (off + length new) l.

Lemma length_write_at {A : Type} (off : nat) (new l : list A) :
  (off + length new ≤ length l)%nat → length (write_at off new l) = length l.
Proof. intros H. unfold write_at. rewrite !length_app, length_take, length_drop. lia. Qed.

Lemma write_at_outside {A : Type} (off : nat) (new l : list A) (i : nat) :
  (off + length new ≤ length l)%nat → (i < off ∨ off + length new ≤ i)%nat →
  write_at off new l !! i = l !! i.
Proof.
  intros Hlen [Hi | Hi]; unfold write_at.
  - rewrite lookup_app_l by (rewrite length_take; lia). apply lookup_take_lt. lia.
  - rewrite lookup_app_r by (rewrite length_take; lia).
    rewrite lookup_app_r by (rewrite length_take; lia).
    rewrite lookup_drop. f_equal. rewrite length_take. lia.
Qed.

Lemma forallb_lookup {A : Type} (f : A → bool) (l : list A) (i : nat) (x : A) :
  forallb f l = true → l !! i = Some x → f x = true.
Proof.
  revert i. induction l as [| y l IH]; intros i H Hi; [discriminate |].
  apply andb_true_iff in H as [Hy H]. destruct i as [| i]; [injection Hi as <-; exact Hy | eauto].
Qed.

(** ** Counted loops

    [for_loop i n body a] runs [body] for the indices [i], ..., [i + n - 1]:
    [for (unsigned k = i; k != i + n; ++k) a = body(k, a)]. *)
Fixpoint for_loop {A : Type} (i n : nat) (body : nat → A → outcome A) (a : A) : outcome A :=
  match n with
  | O => Ret a
  | S n' => body i a ≫= for_loop (S i) n' body
  end.

(** Rule for a loop whose body always returns: the loop is the pure fold. *)
Lemma for_loop_pure {A : Type} (body : nat → A → outcome A) (f : nat → A → A) (i n : nat) (a : A) :
  (∀ k b, (i ≤ k < i + n)%nat → body k b = Ret (f k b)) →
  for_loop i n body a = Ret (foldl (λ b k, f k b) a (seq i n)).
Proof.
  revert i a. induction n as [| n IH]; intros i a Hb; cbn; [reflexivity |].
  rewrite Hb by lia. cbn. apply IH. intros k b Hk. apply Hb. lia.
Qed.

(** Invariant rule. *)
Lemma for_loop_inv {A : Type} (I : nat → A → Prop) (body : nat → A → outcome A) (i n : nat) (a b : A) :
  I i a →
  (∀ k x y, (i ≤ k < i + n)%nat → I k x → body k x = Ret y → I (S k) y) →
  for_loop i n body a = Ret b → I (i + n)%nat b.
Proof.
  revert i a. induction n as [| n IH]; intros i a Ha Hs H; cbn in H.
  - injection H as <-. rewrite Nat.add_0_r. exact Ha.
  - apply outcome_bind_Ret_inv in H as (c & Hc & H).
    replace (i + S n)%nat with (S i + n)%nat by lia.
    eapply IH; [| | exact H].
    + apply (Hs i a); [lia | exact Ha | exact Hc].
    + intros k x y Hk. apply Hs. lia.
Qed.

(** Rule for a loop that returns. *)
Lemma for_loop_total {A : Type} (I : nat → A → Prop) (body : nat → A → outcome A) (i n : nat) (a : A) :
  I i a →
  (∀ k x, (i ≤ k < i + n)%nat → I k x → ∃ y, body k x = Ret y ∧ I (S k) y) →
  ∃ b, for_loop i n body a = Ret b ∧ I (i + n)%nat b.
Proof.
  revert i a. induction n as [| n IH]; intros i a Ha Hs; cbn.
  - exists a. rewrite Nat.add_0_r. auto.
  - destruct (Hs i a ltac:(lia) Ha) as (c & Hc & Hc'). rewrite Hc. cbn.
    replace (i + S n)%nat with (S i + n)%nat by lia. apply IH; [exact Hc' |].
    intros k x Hk. apply Hs. lia.
Qed.

(** ** Bit fields of a word *)

(** The field of [size] bits at bit [base]. *)
Definition getfield (base size w : Z) : Z := uint size (Z.shiftr w base).

(** [w] with the field of [size] bits at [base] replaced by the low bits of [v]. *)
Definition setfield (base size v w : Z) : Z :=
  Z.lor (Z.land w (Z.lnot (Z.shiftl (Z.ones size) base))) (Z.shiftl (uint size v) base).

Lemma testbit_setfield (base size v w i : Z) :
  0 ≤ base → 0 ≤ size → 0 ≤ i →
  Z.testbit (setfield base size v w) i =
    if (base <=? i) && (i <? base + size) then Z.testbit v (i - base) else Z.testbit w i.
Proof.
  intros Hb Hs Hi. unfold setfield. bitwise_core.
Qed.

Lemma getfield_setfield (base size v w : Z) :
  0 ≤ base → 0 ≤ size → getfield base size (setfield base size v w) = uint size v.
Proof. intros Hb Hs. unfold getfield, setfield. bitwise. Qed.

Lemma setfield_setfield (base size v v' w : Z) :
  0 ≤ base → 0 ≤ size → setfield base size v (setfield base size v' w) = setfield base size v w.
Proof. intros Hb Hs. unfold setfield. bitwise. Qed.

Lemma getfield_setfield_ne (base size v w base' size' : Z) :
  0 ≤ base → 0 ≤ size → 0 ≤ base' → 0 ≤ size' → base + size ≤ base' ∨ base' + size' ≤ base →
  getfield base' size' (setfield base size v w) = getfield base' size' w.
Proof. intros Hb Hs Hb' Hs' H. unfold getfield, setfield. bitwise. Qed.

Lemma getfield_range (base size w : Z) : 0 ≤ size → 0 ≤ getfield base size w < 2 ^ size.
Proof. intros. apply uint_range. lia. Qed.

(** ORing a value into a field that is zero sets the field. *)
Lemma lor_setfield (base size v w : Z) :
  0 ≤ base → 0 ≤ size → getfield base size w = 0 →
  Z.lor w (Z.land (Z.shiftl v base) (Z.shiftl (Z.ones size) base)) = setfield base size v w.
Proof.
  intros Hb Hs H. apply Z.bits_inj'. intros i Hi. rewrite testbit_setfield by lia.
  assert (Hz : base ≤ i < base + size → Z.testbit w i = false).
  { intros Hi'. transitivity (Z.testbit (getfield base size w) (i - base)).
    - unfold getfield. bitwise_core. 
    - rewrite H. apply Z.testbit_0_l. }
  rewrite Z.lor_spec, Z.land_spec, !Z.shiftl_spec, Z.testbit_ones by lia.
  destruct (Z.leb_spec base i), (Z.ltb_spec i (base + size)),
    (Z.leb_spec 0 (i - base)), (Z.ltb_spec (i - base) size); try lia; cbn [andb];
    rewrite ?Hz, ?andb_true_r, ?andb_false_r, ?orb_false_r by lia; reflexivity.
Qed.

#[export] Hint Rewrite testbit_setfield using solve [auto with zarith] : z_bitwise_with_hyps.

(** ** Stable sorting

    [std::stable_sort]: an element goes before the first one that does not compare less,
    those after it in the input included. *)
Section StableSort.
Context {A : Type} (lt : A → A → bool).

Fixpoint insert_stable (x : A) (l : list A) : list A :=
  match l with
  | [] => [x]
  | y :: l' => if lt y x then y :: insert_stable x l' else x :: l
  end.

Definition stable_sort (l : list A) : list A := foldr insert_stable [] l.

Lemma insert_stable_perm (x : A) (l : list A) : insert_stable x l ≡ₚ x :: l.
Proof. induction l as [| y l IH]; cbn; [reflexivity |]. destruct (lt y x); [| reflexivity]. rewrite IH. constructor. Qed.

Lemma stable_sort_perm (l : list A) : stable_sort l ≡ₚ l.
Proof. induction l as [| x l IH]; cbn; [reflexivity |]. rewrite insert_stable_perm. constructor. exact IH. Qed.

Context (key : A → Z) (lt_key : ∀ x y, lt x y = (key x <? key y)%Z).

Lemma insert_stable_sorted (x : A) (l : list A) :
  StronglySorted (λ a b, key a ≤ key b) l → StronglySorted (λ a b, key a ≤ key b) (insert_stable x l).
Proof.
  induction 1 as [| y l HS IH HB]; cbn; [repeat constructor |]. rewrite lt_key. destruct (Z.ltb_spec (key y) (key x)) as [Hlt | Hge].
  - constructor; [exact IH |]. rewrite insert_stable_perm. constructor; [lia | exact HB].
  - constructor; [constructor; assumption |]. constructor; [exact Hge |]. eapply Forall_impl; [exact HB |]. cbn. intros z Hz. lia.
Qed.

Lemma stable_sort_sorted (l : list A) : StronglySorted (λ a b, key a ≤ key b) (stable_sort l).
Proof. induction l as [| x l IH]; cbn; [constructor | apply insert_stable_sorted, IH]. Qed.
End StableSort.
