(* ===== verification/MathExtras.v ===== *)
(** * MathExtras: the bit helpers of include/llvm/Support/MathExtras.h

    The predicates and functions on machine integers the Nyuzi code calls:
    [isInt<N>], [alignTo], [SignExtend32<B>], [minIntN]/[maxIntN], the test
    [APInt(64, V).isSignedIntN(N)] of include/llvm/ADT/APInt.h, and the
    [fieldFromInstruction] helper TableGen writes into every disassembler.
    Arguments are the already converted C++ values (an [int64_t] argument is a
    Z in the signed 64-bit range); results are wrapped as the return type says. *)
From S2P Require Import Prelude.

(** [template <unsigned N> bool isInt(int64_t x)], with the specialisations for
    8, 16 and 32 bits that compare with a narrowing cast. *)
Definition isInt (N x : Z) : bool :=
  if N =? 8 then i8 x =? x
  else if N =? 16 then i16 x =? x
  else if N =? 32 then i32 x =? x
  else (64 <=? N) || ((- Z.shiftl 1 (N - 1) <=? x) && (x <? Z.shiftl 1 (N - 1))).

Definition isUInt (N X : Z) : bool :=
  if N =? 8 then u8 X =? X
  else if N =? 16 then u16 X =? X
  else if N =? 32 then u32 X =? X
  else (64 <=? N) || (X <? Z.shiftl 1 N).

(** [uint64_t alignTo(uint64_t Value, uint64_t Align, uint64_t Skew = 0)] *)
Definition alignTo (Value Align Skew : Z) : outcome Z :=
  cassert (negb (Align =? 0)) "Align can't be 0." ≫= λ _,
  let Skew := Skew mod Align in
  Ret (u64 (u64 (u64 (Value + Align - 1 - Skew) / Align * Align) + Skew)).

Definition minIntN (N : Z) : outcome Z :=
  cassert ((0 <? N) && (N <=? 64)) "integer width out of range" ≫= λ _,
  Ret (i64 (- u64 (Z.shiftl 1 (N - 1)))).

Definition maxIntN (N : Z) : outcome Z :=
  cassert ((0 <? N) && (N <=? 64)) "integer width out of range" ≫= λ _,
  Ret (i64 (u64 (Z.shiftl 1 (N - 1)) - 1)).

(** [SignExtend32<B>(X)]: the left shift is on [uint32_t], the right shift on
    the [int32_t] it is cast to. *)
Definition SignExtend32 (B X : Z) : Z :=
  Z.shiftr (i32 (u32 (Z.shiftl (u32 X) (32 - B)))) (32 - B).

(** [SignExtend64(X, B)] *)
Definition SignExtend64 (X B : Z) : outcome Z :=
  cassert (0 <? B) "Bit width can't be 0." ≫= λ _,
  cassert (B <=? 64) "Bit width out of range." ≫= λ _,
  Ret (Z.shiftr (i64 (u64 (Z.shiftl (u64 X) (64 - B)))) (64 - B)).

(** The single-word queries of APInt at width 64 that [isSignedIntN] uses. *)
Definition countLeadingZeros64 (v : Z) : Z :=
  if v =? 0 then 64 else 63 - Z.log2 v.

Definition countLeadingOnes64 (v : Z) : Z :=
  countLeadingZeros64 (u64 (Z.lnot v)).

Definition getActiveBits64 (v : Z) : Z := 64 - countLeadingZeros64 v.

Definition getMinSignedBits64 (v : Z) : Z :=
  if Z.testbit v 63 then 64 - countLeadingOnes64 v + 1
  else getActiveBits64 v + 1.

(** [APInt(64, V).isSignedIntN(N)] *)
Definition isSignedIntN64 (N v : Z) : outcome bool :=
  cassert (negb (N =? 0)) "N == 0 ???" ≫= λ _, Ret (getMinSignedBits64 (u64 v) <=? N).

(** [fieldFromInstruction(insn, startBit, numBits)] on a 32-bit word. *)
Definition fieldFromInstruction (insn startBit numBits : Z) : outcome Z :=
  cassert (startBit + numBits <=? 32) "Instruction field out of bounds!" ≫= λ _,
  let fieldMask :=
    if numBits =? 32 then u32 (-1)
    else u32 (Z.shiftl (u32 (Z.shiftl 1 numBits - 1)) startBit) in
  Ret (Z.shiftr (Z.land (u32 insn) fieldMask) startBit).

(** ** Lemmas *)

Lemma isInt_spec (N x : Z) :
  0 < N → - 2 ^ 63 ≤ x < 2 ^ 63 → isInt N x = true ↔ - 2 ^ (N - 1) ≤ x < 2 ^ (N - 1).
Proof.
  intros HN Hx. unfold isInt.
  assert (Hs : ∀ w, 0 < w → (sint w x =? x) = true ↔ - 2 ^ (w - 1) ≤ x < 2 ^ (w - 1)).
  { intros w Hw. rewrite Z.eqb_eq. split.
    - intros <-. apply sint_range. lia.
    - apply sint_small. lia. }
  destruct (Z.eqb_spec N 8) as [-> |]; [apply (Hs 8); lia |].
  destruct (Z.eqb_spec N 16) as [-> |]; [apply (Hs 16); lia |].
  destruct (Z.eqb_spec N 32) as [-> |]; [apply (Hs 32); lia |].
  rewrite Z.shiftl_1_l, orb_true_iff, andb_true_iff, !Z.leb_le, Z.ltb_lt.
  split; [| auto]. intros [H |]; [| auto].
  pose proof (Z.pow_le_mono_r 2 63 (N - 1) ltac:(lia) ltac:(lia)). lia.
Qed.

Lemma isInt_range (N x : Z) :
  N ≠ 8 → N ≠ 16 → N ≠ 32 → 0 < N < 64 → isInt N x = true ↔ - 2 ^ (N - 1) ≤ x < 2 ^ (N - 1).
Proof.
  intros H8 H16 H32 HN. unfold isInt.
  destruct (Z.eqb_spec N 8); [lia |]. destruct (Z.eqb_spec N 16); [lia |].
  destruct (Z.eqb_spec N 32); [lia |]. destruct (Z.leb_spec 64 N); [lia |]. cbn [orb].
  rewrite Z.shiftl_1_l, andb_true_iff, Z.leb_le, Z.ltb_lt. reflexivity.
Qed.

Lemma isUInt_spec (N X : Z) :
  0 < N → 0 ≤ X < 2 ^ 64 → isUInt N X = true ↔ X < 2 ^ N.
Proof.
  intros HN HX. unfold isUInt.
  assert (Hu : ∀ w, 0 < w → (uint w X =? X) = true ↔ X < 2 ^ w).
  { intros w Hw. rewrite Z.eqb_eq. split.
    - intros <-. apply uint_range. lia.
    - intros ?. apply uint_small. lia. }
  destruct (Z.eqb_spec N 8) as [-> |]; [apply (Hu 8); lia |].
  destruct (Z.eqb_spec N 16) as [-> |]; [apply (Hu 16); lia |].
  destruct (Z.eqb_spec N 32) as [-> |]; [apply (Hu 32); lia |].
  rewrite Z.shiftl_1_l, orb_true_iff, Z.leb_le, Z.ltb_lt.
  split; [| auto]. intros [H |]; [| auto].
  pose proof (Z.pow_le_mono_r 2 64 N ltac:(lia) ltac:(lia)). lia.
Qed.

Lemma SignExtend32_sint (B X : Z) : 0 < B ≤ 32 → SignExtend32 B X = sint B X.
Proof.
  intros HB. unfold SignExtend32. bitwise.
Qed.

Lemma SignExtend64_sint (X B : Z) : 0 < B ≤ 64 → SignExtend64 X B = Ret (sint B X).
Proof.
  intros HB. unfold SignExtend64.
  destruct (Z.ltb_spec 0 B); [| lia]. destruct (Z.leb_spec B 64); [| lia]. cbn -[sint uint].
  f_equal. bitwise.
Qed.

Lemma fieldFromInstruction_uint (insn s n : Z) :
  0 ≤ s → 0 ≤ n → s + n ≤ 32 →
  fieldFromInstruction insn s n = Ret (uint n (Z.shiftr (u32 insn) s)).
Proof.
  intros Hs Hn Hsn. unfold fieldFromInstruction.
  destruct (Z.leb_spec (s + n) 32); [| lia]. cbn -[sint uint]. f_equal.
  destruct (Z.eqb_spec n 32) as [-> |].
  - assert (s = 0) as -> by lia. bitwise.
  - rewrite (Z.shiftl_1_l n), Z.sub_1_r, <- Z.ones_equiv. bitwise.
Qed.

Lemma alignTo_spec (V A : Z) :
  0 < A → 0 ≤ V → V + A ≤ 2 ^ 64 →
  ∃ r, alignTo V A 0 = Ret r ∧ V ≤ r < V + A ∧ (A | r).
Proof.
  intros HA HV Hb. unfold alignTo.
  destruct (Z.eqb_spec A 0); [lia |]. cbn -[uint].
  rewrite Z.mod_0_l, Z.sub_0_r, Z.add_0_r by lia.
  assert (HV1 : 0 ≤ V + A - 1 < 2 ^ 64) by lia.
  rewrite (uint_small 64 (V + A - 1)) by lia.
  pose proof (Z.div_mod (V + A - 1) A ltac:(lia)) as Hdm.
  pose proof (Z.mod_pos_bound (V + A - 1) A HA) as Hm.
  set (q := (V + A - 1) / A) in *.
  assert (Hq : q * A = V + A - 1 - (V + A - 1) mod A) by lia.
  rewrite (uint_small 64 (q * A)) by lia. rewrite uint_small by lia.
  exists (q * A). repeat split; try lia. exists q. lia.
Qed.

Lemma countLeadingZeros64_le (v k : Z) :
  0 ≤ v → 0 ≤ k → 64 - k ≤ countLeadingZeros64 v ↔ v < 2 ^ k.
Proof.
  intros Hv Hk. unfold countLeadingZeros64. destruct (Z.eqb_spec v 0) as [-> |].
  - pose proof (pow2_pos k Hk). lia.
  - rewrite (Z.log2_lt_pow2 v k) by lia. lia.
Qed.

Lemma isSignedIntN64_spec (N v : Z) :
  1 ≤ N ≤ 64 → isSignedIntN64 N v = Ret (bool_decide (- 2 ^ (N - 1) ≤ i64 v < 2 ^ (N - 1))).
Proof.
  intros HN. unfold isSignedIntN64. destruct (Z.eqb_spec N 0); [lia |].
  cbn -[sint uint getMinSignedBits64 Z.pow]. f_equal. apply eq_bool_prop_intro.
  rewrite bool_decide_spec, Is_true_true, Z.leb_le. unfold getMinSignedBits64.
  pose proof (sint_range 64 v ltac:(lia)) as Hr.
  pose proof (uint_range 64 v ltac:(lia)) as Hu.
  pose proof (pow2_half 64 ltac:(lia)) as H64. change (64 - 1) with 63 in *.
  pose proof (Z.pow_le_mono_r 2 (N - 1) 63 ltac:(lia) ltac:(lia)) as Hp.
  assert (Hb : Z.testbit (u64 v) 63 = bool_decide (i64 v < 0)).
  { assert (Z.testbit (i64 v) 63 = bool_decide (i64 v < 0)) as <-.
    { apply (Z.bounded_iff_bits 63); lia. }
    rewrite testbit_uint, testbit_sint by lia. reflexivity. }
  assert (Hc : u64 v = i64 v ∧ 0 ≤ i64 v ∨ u64 v = i64 v + 2 ^ 64 ∧ i64 v < 0).
  { unfold sint, uint in *. change (64 - 1) with 63 in *.
    destruct (Z.ltb_spec (v mod 2 ^ 64) (2 ^ 63)); lia. }
  rewrite Hb. destruct Hc as [[Hc H0] | [Hc H0]].
  - rewrite bool_decide_false by lia. unfold getActiveBits64.
    pose proof (countLeadingZeros64_le (u64 v) (N - 1) ltac:(lia) ltac:(lia)). lia.
  - rewrite bool_decide_true by lia. unfold countLeadingOnes64.
    assert (u64 (Z.lnot (u64 v)) = - i64 v - 1) as ->.
    { rewrite <- (uint_small 64 (- i64 v - 1)) by lia. rewrite Hc.
      replace (Z.lnot (i64 v + 2 ^ 64)) with (- i64 v - 1 + (-1) * 2 ^ 64)
        by (unfold Z.lnot; lia).
      unfold uint. apply Z_mod_plus_full. }
    pose proof (countLeadingZeros64_le (- i64 v - 1) (N - 1) ltac:(lia) ltac:(lia)). lia.
Qed.
