(* ===== verification/NyuziTarget.v ===== *)
(** * NyuziTarget: registers, opcodes and the MC data types

    The register file and register classes of lib/Target/Nyuzi/NyuziRegisterInfo.td,
    the opcodes of NyuziInstrInfo.td the modelled C++ code names, and the data
    the MC layer passes around: expressions, operands, instructions and fixups
    (include/llvm/MC/MCExpr.h, MCInst.h, MCFixup.h with the Nyuzi extensions of
    MCTargetDesc/NyuziMCExpr.h and MCTargetDesc/NyuziFixupKinds.h). *)
From S2P Require Import Prelude.

(** ** Names of the namespace [Nyuzi] *)
Module Nyuzi.

(** Registers: [S0]..[S27], the four named scalar registers and [V0]..[V31];
    [VirtReg] stands for the virtual registers of the code generator. *)
Inductive reg : Type :=
  | NoRegister
  | S (i : nat)
  | GP_REG
  | FP_REG
  | SP_REG
  | RA_REG
  | V (i : nat)
  | VirtReg (n : nat).

(** Opcodes; [OtherOpcode n] stands for the instructions no modelled function
    tests for. *)
Inductive opcode : Type :=
  | ADDISSS | ADDISSI | SUBISSS | SUBISSI | ANDSSS | ANDSSI | ORSSS | ORSSI
  | XORSSS | XORSSI | SNESISS | MOVESS | MOVESimm | MOVEVSI | MOVEVV | MOVEHI
  | LW | SW | BLOCK_LOADI | BLOCK_STOREI | LOAD_SYNC | STORE_SYNC
  | INT_BLOCK_LOADI_MASKED | INT_BLOCK_STOREI_MASKED
  | B | BREG | BZ | BNZ | RET | ERET | CALLSYM | CALLREG
  | LI | LEA_MEM | LEA_SYM | ADJCALLSTACKDOWN | ADJCALLSTACKUP
  | SELECTI | SELECTF | SELECTVI | SELECTVF | SELECTMASK
  | ATOMIC_LOAD_ADDR | ATOMIC_LOAD_ADDI | ATOMIC_LOAD_SUBR | ATOMIC_LOAD_SUBI
  | ATOMIC_LOAD_ANDR | ATOMIC_LOAD_ANDI | ATOMIC_LOAD_ORR | ATOMIC_LOAD_ORI
  | ATOMIC_LOAD_XORR | ATOMIC_LOAD_XORI | ATOMIC_LOAD_NANDR | ATOMIC_LOAD_NANDI
  | ATOMIC_SWAP | ATOMIC_CMP_SWAP
  | PHI | CFI_INSTRUCTION | DBG_VALUE | INLINEASM
  | OtherOpcode (n : nat).

#[global] Instance reg_eq_dec : EqDecision reg.
Proof. solve_decision. Defined.

#[global] Instance opcode_eq_dec : EqDecision opcode.
Proof. solve_decision. Defined.

(** [RegisterClass GPR32] and [RegisterClass VR512]: the member lists, in
    encoding order. *)
Definition GPR32 : list reg := map S (seq 0 28) ++ [GP_REG; FP_REG; SP_REG; RA_REG].

Definition VR512 : list reg := map V (seq 0 32).

Inductive regclass : Type := GPR32RegClass | VR512RegClass.

#[global] Instance regclass_eq_dec : EqDecision regclass.
Proof. solve_decision. Defined.

Definition getRegClass (rc : regclass) : list reg :=
  match rc with GPR32RegClass => GPR32 | VR512RegClass => VR512 end.

Definition contains (rc : regclass) (r : reg) : bool :=
  bool_decide (r ∈ getRegClass rc).

(** [field bits<16> HWEncoding] *)
Definition getEncodingValue (r : reg) : outcome Z :=
  match r with
  | NoRegister => Ret 0
  | S i => Ret (Z.of_nat i)
  | GP_REG => Ret 28
  | FP_REG => Ret 29
  | SP_REG => Ret 30
  | RA_REG => Ret 31
  | V i => Ret (Z.of_nat i)
  | VirtReg _ => AssertFail "Attempting to get encoding for invalid register number!"
  end.

(** [DwarfRegNum] *)
Definition getDwarfRegNum (r : reg) : option Z :=
  match r with
  | S i => Some (Z.of_nat i)
  | GP_REG => Some 28
  | FP_REG => Some 29
  | SP_REG => Some 30
  | RA_REG => Some 31
  | V i => Some (Z.of_nat i + 32)
  | NoRegister | VirtReg _ => None
  end.

(** [def NyuziCSR : CalleeSavedRegs<...>] of NyuziCallingConv.td *)
Definition NyuziCSR_SaveList : list reg :=
  map S (seq 24 4) ++ [GP_REG; FP_REG; RA_REG] ++ map V (seq 26 6).

(** [enum VariantKind] of NyuziMCExpr *)
Inductive VariantKind : Type :=
  | VK_Nyuzi_NONE
  | VK_Nyuzi_ABS_HI
  | VK_Nyuzi_ABS_LO
  | VK_Nyuzi_GOT.

#[global] Instance VariantKind_eq_dec : EqDecision VariantKind.
Proof. solve_decision. Defined.

(** [enum TOF] of NyuziBaseInfo.h *)
Inductive TOF : Type := MO_NO_FLAG | MO_ABS_HI | MO_ABS_LO | MO_GOT.

#[global] Instance TOF_eq_dec : EqDecision TOF.
Proof. solve_decision. Defined.

(** [enum Fixups]: the target fixups are numbered from [FirstTargetFixupKind]. *)
Definition FirstTargetFixupKind : Z := 128.
Definition fixup_Nyuzi_Branch20 : Z := FirstTargetFixupKind.
Definition fixup_Nyuzi_Branch25 : Z := fixup_Nyuzi_Branch20 + 1.
Definition fixup_Nyuzi_HI19 : Z := fixup_Nyuzi_Branch25 + 1.
Definition fixup_Nyuzi_IMM_LO13 : Z := fixup_Nyuzi_HI19 + 1.
Definition fixup_Nyuzi_GOT : Z := fixup_Nyuzi_IMM_LO13 + 1.
Definition LastTargetFixupKind : Z := fixup_Nyuzi_GOT + 1.
Definition NumTargetFixupKinds : Z := LastTargetFixupKind - FirstTargetFixupKind.

End Nyuzi.

(** The generic kind [FK_Data_4] of MCFixup.h, and the number of generic kinds. *)
Definition FK_Data_4 : Z := 2.

(** ** MC expressions, operands, instructions *)

(** [MCUnaryExpr::Opcode] *)
Module MCUnary.
Inductive Opcode : Type := LNot | Minus | Not | Plus.
End MCUnary.

(** [MCBinaryExpr::Opcode] *)
Module MCBinary.
Inductive Opcode : Type :=
  | Add | And | Div | EQ | GT | GTE | LAnd | LOr | LT | LTE | Mod | Mul | NE | Or | Shl | AShr | LShr | Sub | Xor.
End MCBinary.

#[global] Instance MCUnary_eq_dec : EqDecision MCUnary.Opcode.
Proof. solve_decision. Defined.
#[global] Instance MCBinary_eq_dec : EqDecision MCBinary.Opcode.
Proof. solve_decision. Defined.

(** References to symbols have the kind [VK_None]: the parser and the code
    generator of this target make no other. *)
Inductive MCExpr : Type :=
  | MCConstantExpr (v : Z)
  | MCSymbolRefExpr (sym : string)
  | MCUnaryExpr (op : MCUnary.Opcode) (e : MCExpr)
  | MCBinaryExpr (op : MCBinary.Opcode) (l r : MCExpr)
  | NyuziMCExpr (k : Nyuzi.VariantKind) (e : MCExpr).

#[global] Instance MCExpr_eq_dec : EqDecision MCExpr.
Proof. solve_decision. Defined.

Inductive MCOperand : Type :=
  | kInvalid
  | kRegister (r : Nyuzi.reg)
  | kImmediate (v : Z)
  | kExpr (e : MCExpr).

#[global] Instance MCOperand_eq_dec : EqDecision MCOperand.
Proof. solve_decision. Defined.

Record MCInst : Type := mkMCInst {
  Opcode : Nyuzi.opcode;
  Operands : list MCOperand
}.

(** [MCFixup::create(Offset, Value, Kind, Loc)]; source locations are not
    modelled. *)
Record MCFixup : Type := mkMCFixup {
  fixup_offset : Z;
  fixup_value : MCExpr;
  fixup_kind : Z
}.

(** [MO.getReg()] and [MO.getImm()], which assert the kind of the operand. *)
Definition getReg (MO : MCOperand) : outcome Nyuzi.reg :=
  match MO with kRegister r => Ret r | _ => AssertFail "This is not a register operand!" end.

Definition getImm (MO : MCOperand) : outcome Z :=
  match MO with kImmediate v => Ret v | _ => AssertFail "This is not an immediate" end.

Definition getExpr (MO : MCOperand) : outcome MCExpr :=
  match MO with kExpr e => Ret e | _ => AssertFail "This is not an expression" end.

Definition isReg (MO : MCOperand) : bool := match MO with kRegister _ => true | _ => false end.
Definition isImm (MO : MCOperand) : bool := match MO with kImmediate _ => true | _ => false end.
Definition isExpr (MO : MCOperand) : bool := match MO with kExpr _ => true | _ => false end.

Definition getOperand (MI : MCInst) (i : Z) : outcome MCOperand := at_index (Operands MI) i.

(** [MI.addOperand(Op)] *)
Definition addOperand (MI : MCInst) (Op : MCOperand) : MCInst :=
  mkMCInst (Opcode MI) (Operands MI ++ [Op]).

(** ** Lemmas *)

(** A register of a class is the class member its hardware encoding selects. *)
Lemma getRegClass_encoding (rc : Nyuzi.regclass) (i : nat) (r : Nyuzi.reg) :
  Nyuzi.getRegClass rc !! i = Some r → Nyuzi.getEncodingValue r = Ret (Z.of_nat i).
Proof.
  intros H. assert (Hi : (i < 32)%nat).
  { apply lookup_lt_Some in H. destruct rc; exact H. }
  do 32 (destruct i as [| i]; [destruct rc; injection H as <-; reflexivity |]). lia.
Qed.

Lemma getRegClass_length (rc : Nyuzi.regclass) : length (Nyuzi.getRegClass rc) = 32%nat.
Proof. destruct rc; reflexivity. Qed.

Lemma contains_lookup (rc : Nyuzi.regclass) (r : Nyuzi.reg) :
  Nyuzi.contains rc r = true → ∃ i, (i < 32)%nat ∧ Nyuzi.getRegClass rc !! i = Some r.
Proof.
  unfold Nyuzi.contains. intros H. apply bool_decide_eq_true in H.
  apply list_elem_of_lookup in H as [i Hi]. exists i. split; [| exact Hi].
  apply lookup_lt_Some in Hi. rewrite getRegClass_length in Hi. exact Hi.
Qed.

(** The scalar and vector classes share no register. *)
Lemma regclass_disjoint (r : Nyuzi.reg) :
  Nyuzi.contains Nyuzi.GPR32RegClass r = true → Nyuzi.contains Nyuzi.VR512RegClass r = false.
Proof.
  intros H. apply contains_lookup in H as (i & Hi & H).
  do 32 (destruct i as [| i]; [injection H as <-; reflexivity |]). lia.
Qed.
