(* ===== verification/NyuziFixups.v ===== *)
(** * NyuziFixups: the assembler back end

    MCTargetDesc/NyuziAsmBackend.cpp (fixup table, [adjustFixupValue],
    [applyFixup]), the generic table of lib/MC/MCAsmBackend.cpp it falls back
    to, and the choice of relocation of MCTargetDesc/NyuziELFObjectWriter.cpp.
    A section's contents are the list of its bytes (0..255); diagnostics given
    to [MCContext::reportError] are the list of messages returned beside the
    result. *)
From S2P Require Import Prelude MathExtras NyuziTarget.

(** [struct MCFixupKindInfo]; of the flags only [FKF_IsPCRel] is ever set. *)
Record MCFixupKindInfo : Type := mkInfo {
  Name : string;
  TargetOffset : Z;
  TargetSize : Z;
  IsPCRelFlag : bool
}.

(** The table [Builtins] of [MCAsmBackend::getFixupKindInfo]. *)
Definition Builtins : list MCFixupKindInfo :=
  [mkInfo "FK_Data_1" 0 8 false; mkInfo "FK_Data_2" 0 16 false;
   mkInfo "FK_Data_4" 0 32 false; mkInfo "FK_Data_8" 0 64 false;
   mkInfo "FK_PCRel_1" 0 8 true; mkInfo "FK_PCRel_2" 0 16 true;
   mkInfo "FK_PCRel_4" 0 32 true; mkInfo "FK_PCRel_8" 0 64 true;
   mkInfo "FK_GPRel_1" 0 8 false; mkInfo "FK_GPRel_2" 0 16 false;
   mkInfo "FK_GPRel_4" 0 32 false; mkInfo "FK_GPRel_8" 0 64 false;
   mkInfo "FK_DTPRel_4" 0 32 false; mkInfo "FK_DTPRel_8" 0 64 false;
   mkInfo "FK_TPRel_4" 0 32 false; mkInfo "FK_TPRel_8" 0 64 false;
   mkInfo "FK_SecRel_1" 0 8 false; mkInfo "FK_SecRel_2" 0 16 false;
   mkInfo "FK_SecRel_4" 0 32 false; mkInfo "FK_SecRel_8" 0 64 false].

(** [MCAsmBackend::getFixupKindInfo]: the assertion admits an index equal to
    the length of the table, which the access then leaves. *)
Definition MCAsmBackend_getFixupKindInfo (Kind : Z) : outcome MCFixupKindInfo :=
  cassert (Kind <=? Z.of_nat (length Builtins)) "Unknown fixup kind" ≫= λ _,
  match Builtins !! Z.to_nat Kind with
  | Some i => Ret i
  | None => UndefinedBehaviour "Builtins[Kind]"
  end.

(** The table [Infos] of [NyuziAsmBackend::getFixupKindInfo]. *)
Definition Infos : list MCFixupKindInfo :=
  [mkInfo "fixup_Nyuzi_Branch20" 5 20 true;
   mkInfo "fixup_Nyuzi_Branch25" 0 25 true;
   mkInfo "fixup_Nyuzi_HI19" 0 32 false;
   mkInfo "fixup_Nyuzi_IMM_LO13" 10 13 false;
   mkInfo "fixup_Nyuzi_GOT" 10 15 false].

Definition getNumFixupKinds : Z := Nyuzi.NumTargetFixupKinds.

Definition getFixupKindInfo (Kind : Z) : outcome MCFixupKindInfo :=
  if Kind <? Nyuzi.FirstTargetFixupKind then MCAsmBackend_getFixupKindInfo Kind
  else
    cassert (Kind - Nyuzi.FirstTargetFixupKind <? getNumFixupKinds) "Invalid kind!" ≫= λ _,
    match Infos !! Z.to_nat (Kind - Nyuzi.FirstTargetFixupKind) with
    | Some i => Ret i
    | None => UndefinedBehaviour "Infos[Kind - FirstTargetFixupKind]"
    end.

(** [unsigned adjustFixupValue(const MCFixup &Fixup, uint64_t Value, MCContext *Ctx)] *)
Definition adjustFixupValue (Kind Value : Z) : outcome (Z * list string) :=
  getFixupKindInfo Kind ≫= λ Info,
  if (Kind =? Nyuzi.fixup_Nyuzi_Branch20) || (Kind =? Nyuzi.fixup_Nyuzi_Branch25) then
    let Value := u64 (Z.quot (i64 Value) 4) in
    isSignedIntN64 (TargetSize Info) Value ≫= λ fits,
    if negb fits then Ret (0, ["fixup out of range"%string]) else Ret (u32 Value, [])
  else if Kind =? Nyuzi.fixup_Nyuzi_HI19 then
    Ret (u32 (Z.lor (Z.land (Z.shiftr Value 13) 31)
                    (u64 (Z.shiftl (Z.land (Z.shiftr Value 18) 16383) 10))), [])
  else Ret (u32 Value, []).

(** [for (i = 0; i != NumBytes; ++i) CurVal |= (uint64_t)((uint8_t)Data[Offset + i]) << (i * 8)] *)
Definition readFixupBytes (Data : list Z) (Offset : Z) (NumBytes : nat) : outcome Z :=
  for_loop 0 NumBytes (λ i CurVal,
    at_index Data (Offset + Z.of_nat i) ≫= λ b,
    Ret (Z.lor CurVal (u64 (Z.shiftl (u8 b) (Z.of_nat i * 8))))) 0.

(** [for (i = 0; i != NumBytes; ++i) Data[Offset + i] = (uint8_t)((CurVal >> (i * 8)) & 0xff)] *)
Definition writeFixupBytes (Data : list Z) (Offset CurVal : Z) (NumBytes : nat) : outcome (list Z) :=
  for_loop 0 NumBytes (λ i Data,
    at_index Data (Offset + Z.of_nat i) ≫= λ _,
    Ret (<[Z.to_nat (Offset + Z.of_nat i) :=
           u8 (Z.land (Z.shiftr CurVal (Z.of_nat i * 8)) 255)]> Data)) Data.

(** [NyuziAsmBackend::applyFixup] *)
Definition applyFixup (Kind Offset : Z) (Data : list Z) (Value : Z) : outcome (list Z * list string) :=
  getFixupKindInfo Kind ≫= λ Info,
  adjustFixupValue Kind Value ≫= λ '(Value, Errs),
  readFixupBytes Data Offset 4 ≫= λ CurVal,
  let Mask := Z.shiftr (u64 (-1)) (64 - TargetSize Info) in
  let Value := u64 (Z.shiftl Value (TargetOffset Info)) in
  let Mask := u64 (Z.shiftl Mask (TargetOffset Info)) in
  let CurVal := Z.lor CurVal (Z.land Value Mask) in
  writeFixupBytes Data Offset CurVal 4 ≫= λ Data,
  Ret (Data, Errs).

(** [writeNopData]: padding is zero bytes. *)
Definition writeNopData (Count : nat) (OW : list Z) : list Z * bool :=
  (OW ++ replicate Count 0, true).

(** Relocation types of include/llvm/BinaryFormat/ELFRelocs/Nyuzi.def. *)
Definition R_NYUZI_NONE : Z := 0.
Definition R_NYUZI_ABS32 : Z := 1.
Definition R_NYUZI_BRANCH20 : Z := 2.
Definition R_NYUZI_BRANCH25 : Z := 3.
Definition R_NYUZI_HI19 : Z := 4.
Definition R_NYUZI_IMM_LO13 : Z := 5.
Definition R_NYUZI_GOT : Z := 6.

(** [NyuziELFObjectWriter::getRelocType] *)
Definition getRelocType (Kind : Z) (IsPCRel : bool) : outcome Z :=
  if Kind =? FK_Data_4 then Ret R_NYUZI_ABS32
  else if Kind =? Nyuzi.fixup_Nyuzi_Branch20 then
    cassert IsPCRel "IsPCRel" ≫= λ _, Ret R_NYUZI_BRANCH20
  else if Kind =? Nyuzi.fixup_Nyuzi_Branch25 then
    cassert IsPCRel "IsPCRel" ≫= λ _, Ret R_NYUZI_BRANCH25
  else if Kind =? Nyuzi.fixup_Nyuzi_HI19 then
    cassert (negb IsPCRel) "!IsPCRel" ≫= λ _, Ret R_NYUZI_HI19
  else if Kind =? Nyuzi.fixup_Nyuzi_IMM_LO13 then
    cassert (negb IsPCRel) "!IsPCRel" ≫= λ _, Ret R_NYUZI_IMM_LO13
  else if Kind =? Nyuzi.fixup_Nyuzi_GOT then
    cassert (negb IsPCRel) "!IsPCRel" ≫= λ _, Ret R_NYUZI_GOT
  else Unreachable "Invalid fixup kind!".

(** [NyuziELFObjectWriter::needsRelocateWithSymbol] *)
Definition needsRelocateWithSymbol (Type_ : Z) : bool := Type_ =? R_NYUZI_GOT.

(** ** Lemmas: the byte loops read and write the little-endian word *)

(** The 32-bit little-endian word of [Data] at byte offset [off]. *)
Definition word_at (Data : list Z) (off : nat) : Z := le_combine (take 4 (drop off Data)).

Lemma split_word (Data : list Z) (off : nat) :
  (off + 4 ≤ length Data)%nat →
  ∃ pre b0 b1 b2 b3 post, Data = pre ++ [b0; b1; b2; b3] ++ post ∧ length pre = off.
Proof.
  intros H. exists (take off Data).
  assert (Hd : length (drop off Data) = (length Data - off)%nat) by apply length_drop.
  pose proof (take_drop off Data) as Ht.
  destruct (drop off Data) as [| b0 [| b1 [| b2 [| b3 post]]]]; cbn in Hd; try lia.
  exists b0, b1, b2, b3, post. split; [symmetry; exact Ht |]. rewrite length_take. lia.
Qed.

Lemma at_index_app (pre post : list Z) (k : nat) (off : Z) (b : Z) :
  off = Z.of_nat (length pre) → post !! k = Some b →
  at_index (pre ++ post) (off + Z.of_nat k) = Ret b.
Proof.
  intros -> Hk. rewrite <- Nat2Z.inj_add. apply at_index_lookup.
  rewrite lookup_app_r by lia. replace (length pre + k - length pre)%nat with k by lia. exact Hk.
Qed.

Lemma word_at_app (pre post : list Z) (b0 b1 b2 b3 : Z) :
  word_at (pre ++ [b0; b1; b2; b3] ++ post) (length pre) = le_combine [b0; b1; b2; b3].
Proof. unfold word_at. rewrite drop_app_length. reflexivity. Qed.

Lemma write_at_app (pre post : list Z) (b0 b1 b2 b3 : Z) (new : list Z) :
  length new = 4%nat →
  write_at (length pre) new (pre ++ [b0; b1; b2; b3] ++ post) = pre ++ new ++ post.
Proof.
  intros H. unfold write_at. rewrite take_app_length, H. f_equal. f_equal.
  rewrite drop_app_ge by lia. replace (length pre + 4 - length pre)%nat with 4%nat by lia.
  reflexivity.
Qed.

Lemma readFixupBytes_word (Data : list Z) (off : nat) :
  (off + 4 ≤ length Data)%nat →
  readFixupBytes Data (Z.of_nat off) 4 = Ret (word_at Data off).
Proof.
  intros H. destruct (split_word Data off H) as (pre & b0 & b1 & b2 & b3 & post & -> & <-).
  rewrite word_at_app. unfold readFixupBytes. cbn [for_loop].
  do 4 (erewrite at_index_app by reflexivity). rewrite !outcome_bind_ret.
  cbn [le_combine]. f_equal. change (Z.of_nat 0) with 0. change (Z.of_nat 1) with 1.
  change (Z.of_nat 2) with 2. change (Z.of_nat 3) with 3. bitwise.
Qed.

Lemma insert_app_at (pre post : list Z) (k : nat) (off : Z) (x : Z) :
  off = Z.of_nat (length pre) →
  <[Z.to_nat (off + Z.of_nat k) := x]> (pre ++ post) = pre ++ <[k := x]> post.
Proof.
  intros ->. rewrite <- Nat2Z.inj_add, Nat2Z.id. apply insert_app_r.
Qed.

Lemma writeFixupBytes_word (Data : list Z) (off : nat) (v : Z) :
  (off + 4 ≤ length Data)%nat →
  writeFixupBytes Data (Z.of_nat off) v 4 = Ret (write_at off (le_bytes 4 v) Data).
Proof.
  intros H. destruct (split_word Data off H) as (pre & b0 & b1 & b2 & b3 & post & -> & <-).
  rewrite write_at_app by reflexivity. unfold writeFixupBytes. cbn [for_loop].
  do 4 (erewrite at_index_app by reflexivity; rewrite !outcome_bind_ret;
        rewrite insert_app_at by reflexivity; cbn [insert list_insert app]).
  do 2 f_equal. cbn [le_bytes app]. change 255 with (Z.ones 8).
  repeat (apply (f_equal2 cons); [change (Z.of_nat 0) with 0; bitwise |]). reflexivity.
Qed.

(** The fields a fixup patches: the bits [applyFixup] may set in the word. *)
Definition field_mask (Info : MCFixupKindInfo) : Z :=
  Z.shiftl (Z.ones (TargetSize Info)) (TargetOffset Info).

(** [applyFixup] on an in-range offset: the word is ORed with the adjusted value
    shifted into the field, and nothing else of the section changes. *)
Lemma applyFixup_word (Kind : Z) (off : nat) (Data : list Z) (Value v : Z)
    (Info : MCFixupKindInfo) (Errs : list string) :
  getFixupKindInfo Kind = Ret Info →
  0 < TargetSize Info → 0 ≤ TargetOffset Info → TargetOffset Info + TargetSize Info ≤ 64 →
  adjustFixupValue Kind Value = Ret (v, Errs) →
  (off + 4 ≤ length Data)%nat →
  applyFixup Kind (Z.of_nat off) Data Value =
    Ret (write_at off (le_bytes 4
           (Z.lor (word_at Data off)
                  (Z.land (Z.shiftl v (TargetOffset Info)) (field_mask Info)))) Data, Errs).
Proof.
  intros HI H1 H2 H3 Ha Hoff. unfold applyFixup. rewrite HI, outcome_bind_ret, Ha, outcome_bind_ret.
  rewrite readFixupBytes_word, outcome_bind_ret by exact Hoff.
  rewrite writeFixupBytes_word, outcome_bind_ret by exact Hoff.
  unfold field_mask. do 5 f_equal. bitwise.
Qed.

(** The Nyuzi fixups and their table rows. *)
Lemma getFixupKindInfo_nyuzi (k : nat) (Info : MCFixupKindInfo) :
  Infos !! k = Some Info → getFixupKindInfo (Nyuzi.FirstTargetFixupKind + Z.of_nat k) = Ret Info.
Proof.
  intros H. assert (Hk : (k < 5)%nat) by (apply lookup_lt_Some in H; exact H).
  do 5 (destruct k as [| k]; [injection H as <-; reflexivity |]). lia.
Qed.

Lemma le_bytes_4_mod (a b : Z) : u32 a = u32 b → le_bytes 4 a = le_bytes 4 b.
Proof.
  intros H. assert (Hg : ∀ x, le_bytes 4 x = le_bytes 4 (u32 x)).
  { intros x. cbn [le_bytes]. repeat (apply (f_equal2 cons); [bitwise |]). reflexivity. }
  rewrite (Hg a), (Hg b), H. reflexivity.
Qed.

Lemma word_at_range (Data : list Z) (off : nat) : (off + 4 ≤ length Data)%nat → 0 ≤ word_at Data off < 2 ^ 32.
Proof.
  intros H. destruct (split_word Data off H) as (pre & b0 & b1 & b2 & b3 & post & -> & <-).
  rewrite word_at_app. cbn [le_combine].
  match goal with |- 0 ≤ ?x < _ => replace x with (u32 x); [apply uint_range; lia | bitwise] end.
Qed.

Lemma word_at_write_at (Data : list Z) (off : nat) (v : Z) :
  (off + 4 ≤ length Data)%nat → word_at (write_at off (le_bytes 4 v) Data) off = u32 v.
Proof.
  intros H. destruct (split_word Data off H) as (pre & b0 & b1 & b2 & b3 & post & -> & <-).
  rewrite write_at_app by reflexivity. cbn [le_bytes]. rewrite word_at_app.
  change (le_combine (le_bytes 4 v) = u32 v). apply (le_combine_bytes 4).
Qed.
