(* ===== verification/NyuziLinker.v ===== *)
(** * NyuziLinker: relocation processing of tools/lld/ELF/Arch/Nyuzi.cpp

    The linker patches instructions in the output buffer; [Loc] is an offset
    into the list of its bytes.  The range check [checkInt] is that of
    tools/lld/ELF/Target.h: it reports an error and goes on.  [read32le] and
    [write32le] are those of include/llvm/Support/Endian.h: unchecked accesses,
    so a location outside the buffer is undefined behaviour. *)
From S2P Require Import Prelude MathExtras NyuziTarget NyuziFixups.

Definition read32le (Buf : list Z) (Loc : nat) : outcome Z :=
  if decide (Loc + 4 ≤ length Buf)%nat then Ret (word_at Buf Loc)
  else UndefinedBehaviour "read32le".

Definition write32le (Buf : list Z) (Loc : nat) (V : Z) : outcome (list Z) :=
  if decide (Loc + 4 ≤ length Buf)%nat then Ret (write_at Loc (le_bytes 4 (u32 V)) Buf)
  else UndefinedBehaviour "write32le".

(** [int64_t signExtend(uint64_t V, int N)] *)
Definition signExtend (V N : Z) : Z :=
  Z.shiftr (i64 (u64 (Z.shiftl (u64 V) (64 - N)))) (64 - N).

(** [checkInt(Loc, V, N, Type)] *)
Definition checkInt (V N : Z) : list string :=
  if negb (V =? signExtend V N) then ["out of range"%string] else [].

(** [applyNyuziReloc<SIZE, BASE>(Loc, Type, V)] *)
Definition applyNyuziReloc (SIZE BASE : Z) (Buf : list Z) (Loc : nat) (V : Z) : outcome (list Z) :=
  let Mask := u32 (Z.shiftl (Z.shiftr (u32 (-1)) (32 - SIZE)) BASE) in
  read32le Buf Loc ≫= λ w,
  write32le Buf Loc
    (Z.lor (Z.land w (u32 (Z.lnot Mask))) (Z.land (u64 (Z.shiftl V BASE)) Mask)).

(** [Nyuzi::relocateOne(Loc, Type, Val)] *)
Definition relocateOne (Buf : list Z) (Loc : nat) (Type_ Val : Z) : outcome (list Z * list string) :=
  if Type_ =? R_NYUZI_ABS32 then
    write32le Buf Loc Val ≫= λ Buf, Ret (Buf, [])
  else if Type_ =? R_NYUZI_BRANCH20 then
    let Offset := Z.quot (i64 Val) 4 in
    let Errs := checkInt Offset 20 in
    applyNyuziReloc 20 5 Buf Loc (u64 Offset) ≫= λ Buf, Ret (Buf, Errs)
  else if Type_ =? R_NYUZI_BRANCH25 then
    let Offset := Z.quot (i64 Val) 4 in
    let Errs := checkInt Offset 25 in
    applyNyuziReloc 25 0 Buf Loc (u64 Offset) ≫= λ Buf, Ret (Buf, Errs)
  else if Type_ =? R_NYUZI_HI19 then
    applyNyuziReloc 5 0 Buf Loc (Z.land (Z.shiftr Val 13) 31) ≫= λ Buf,
    applyNyuziReloc 14 10 Buf Loc (Z.land (Z.shiftr Val 18) 16383) ≫= λ Buf,
    Ret (Buf, [])
  else if Type_ =? R_NYUZI_IMM_LO13 then
    applyNyuziReloc 13 10 Buf Loc (Z.land Val 8191) ≫= λ Buf, Ret (Buf, [])
  else if Type_ =? R_NYUZI_GOT then
    let Errs := checkInt (i64 Val) 15 in
    applyNyuziReloc 15 10 Buf Loc (Z.land Val 32767) ≫= λ Buf, Ret (Buf, Errs)
  else FatalError "unrecognized reloc ".

(** [enum RelExpr]: the three expressions Nyuzi relocations ask for. *)
Inductive RelExpr : Type := R_ABS | R_PC | R_GOT_OFF.

(** [Nyuzi::getRelExpr(Type, S, Loc)] *)
Definition getRelExpr (Type_ : Z) : outcome RelExpr :=
  if (Type_ =? R_NYUZI_ABS32) || (Type_ =? R_NYUZI_IMM_LO13) || (Type_ =? R_NYUZI_HI19)
  then Ret R_ABS
  else if (Type_ =? R_NYUZI_BRANCH20) || (Type_ =? R_NYUZI_BRANCH25) then Ret R_PC
  else if Type_ =? R_NYUZI_GOT then Ret R_GOT_OFF
  else FatalError "unrecognized reloc ".

(** [Nyuzi::getDynRel(Type)] *)
Definition getDynRel (Type_ : Z) : Z :=
  if Type_ =? R_NYUZI_ABS32 then Type_ else R_NYUZI_NONE.

(** The target parameters the constructor [Nyuzi::Nyuzi()] sets. *)
Record TargetInfo : Type := mkTargetInfo {
  PageSize : Z; DefaultImageBase : Z; GotBaseSymInGotPlt : bool; GotRel : Z;
  PltRel : Z; TlsDescRel : Z; TlsGotRel : Z; GotEntrySize : Z; GotPltEntrySize : Z;
  PltEntrySize : Z; PltHeaderSize : Z
}.

Definition Nyuzi_TargetInfo : TargetInfo :=
  mkTargetInfo 4096 0 false R_NYUZI_ABS32 (u32 (-1)) (u32 (-1)) (u32 (-1)) 4 4 16 32.

(** ** Lemmas *)

(** The bit fields, as (base, size), a relocation type patches. *)
Definition reloc_fields (Type_ : Z) : list (Z * Z) :=
  if Type_ =? R_NYUZI_ABS32 then [(0, 32)]
  else if Type_ =? R_NYUZI_BRANCH20 then [(5, 20)]
  else if Type_ =? R_NYUZI_BRANCH25 then [(0, 25)]
  else if Type_ =? R_NYUZI_HI19 then [(0, 5); (10, 14)]
  else if Type_ =? R_NYUZI_IMM_LO13 then [(10, 13)]
  else if Type_ =? R_NYUZI_GOT then [(10, 15)]
  else [].

(** The word a relocation leaves: each field set to its slice of the value. *)
Definition reloc_word (Type_ Val w : Z) : Z :=
  if Type_ =? R_NYUZI_ABS32 then setfield 0 32 Val w
  else if Type_ =? R_NYUZI_BRANCH20 then setfield 5 20 (Z.quot (i64 Val) 4) w
  else if Type_ =? R_NYUZI_BRANCH25 then setfield 0 25 (Z.quot (i64 Val) 4) w
  else if Type_ =? R_NYUZI_HI19 then setfield 10 14 (Z.shiftr Val 18) (setfield 0 5 (Z.shiftr Val 13) w)
  else if Type_ =? R_NYUZI_IMM_LO13 then setfield 10 13 Val w
  else setfield 10 15 Val w.

(** The diagnostics of a relocation. *)
Definition reloc_errors (Type_ Val : Z) : list string :=
  if Type_ =? R_NYUZI_BRANCH20 then checkInt (Z.quot (i64 Val) 4) 20
  else if Type_ =? R_NYUZI_BRANCH25 then checkInt (Z.quot (i64 Val) 4) 25
  else if Type_ =? R_NYUZI_GOT then checkInt (i64 Val) 15
  else [].

Definition known_reloc (Type_ : Z) : bool := (1 <=? Type_) && (Type_ <=? 6).

Lemma known_reloc_cases (Type_ : Z) :
  known_reloc Type_ = true →
  Type_ = 1 ∨ Type_ = 2 ∨ Type_ = 3 ∨ Type_ = 4 ∨ Type_ = 5 ∨ Type_ = 6.
Proof. unfold known_reloc. rewrite andb_true_iff. lia. Qed.

(** One goal per relocation type, the type replaced by its number. *)
Ltac reloc_cases Hk :=
  destruct (known_reloc_cases _ Hk) as [-> | [-> | [-> | [-> | [-> | ->]]]]].

(** Resolves the tests on the relocation type in the definitions of this file. *)
Ltac reloc_simpl :=
  cbn [Z.eqb Pos.eqb orb R_NYUZI_ABS32 R_NYUZI_BRANCH20 R_NYUZI_BRANCH25 R_NYUZI_HI19
       R_NYUZI_IMM_LO13 R_NYUZI_GOT].

Lemma checkInt_nil (V N : Z) : 0 < N ≤ 64 → checkInt V N = [] ↔ - 2 ^ (N - 1) ≤ V < 2 ^ (N - 1).
Proof.
  intros HN. unfold checkInt, signExtend.
  assert (Z.shiftr (i64 (u64 (Z.shiftl (u64 V) (64 - N)))) (64 - N) = sint N V) as -> by bitwise.
  destruct (Z.eqb_spec V (sint N V)) as [E | E]; cbn [negb].
  - split; [| reflexivity]. intros _. rewrite E. apply sint_range. lia.
  - split; [discriminate |]. intros H. rewrite sint_small in E by lia. congruence.
Qed.

Lemma applyNyuziReloc_word (SIZE BASE : Z) (Buf : list Z) (Loc : nat) (V : Z) :
  0 < SIZE → 0 ≤ BASE → SIZE + BASE ≤ 32 → (Loc + 4 ≤ length Buf)%nat →
  applyNyuziReloc SIZE BASE Buf Loc V =
    Ret (write_at Loc (le_bytes 4 (setfield BASE SIZE V (word_at Buf Loc))) Buf).
Proof.
  intros H1 H2 H3 HL. unfold applyNyuziReloc, read32le, write32le.
  destruct (decide _); [| lia]. rewrite outcome_bind_ret.
  do 2 f_equal. apply le_bytes_4_mod. unfold setfield. bitwise.
Qed.

Lemma write_at_write_at {A : Type} (off : nat) (new new' l : list A) :
  length new = length new' → (off + length new ≤ length l)%nat →
  write_at off new (write_at off new' l) = write_at off new l.
Proof.
  intros Hl Hlen. unfold write_at.
  rewrite take_app_le by (rewrite length_take; lia). rewrite take_take, Nat.min_id.
  f_equal. f_equal. rewrite drop_app_ge by (rewrite length_take; lia).
  rewrite length_take, Nat.min_l by lia.
  replace (off + length new - off)%nat with (length new') by lia.
  rewrite drop_app_length, Hl. reflexivity.
Qed.

(** The linker's patch as one word update. *)
Lemma relocateOne_word (Buf : list Z) (Loc : nat) (Type_ Val : Z) :
  known_reloc Type_ = true → 0 ≤ Val → (Loc + 4 ≤ length Buf)%nat →
  relocateOne Buf Loc Type_ Val =
    Ret (write_at Loc (le_bytes 4 (reloc_word Type_ Val (word_at Buf Loc))) Buf,
         reloc_errors Type_ Val).
Proof.
  intros Hk HV HL. reloc_cases Hk;
  unfold relocateOne, reloc_word, reloc_errors;
  reloc_simpl.
  - unfold write32le. destruct (decide _); [| lia]. rewrite outcome_bind_ret.
    do 3 f_equal. apply le_bytes_4_mod. unfold setfield. bitwise.
  - rewrite applyNyuziReloc_word, outcome_bind_ret by lia.
    do 3 f_equal. apply le_bytes_4_mod. unfold setfield. bitwise.
  - rewrite applyNyuziReloc_word, outcome_bind_ret by lia.
    do 3 f_equal. apply le_bytes_4_mod. unfold setfield. bitwise.
  - rewrite applyNyuziReloc_word, outcome_bind_ret by lia.
    assert (Hl : length (write_at Loc (le_bytes 4 (setfield 0 5 (Z.land (Z.shiftr Val 13) 31)
                   (word_at Buf Loc))) Buf) = length Buf).
    { apply length_write_at. rewrite length_le_bytes. lia. }
    rewrite applyNyuziReloc_word, outcome_bind_ret by (rewrite ?Hl; lia).
    rewrite write_at_write_at, word_at_write_at by (rewrite ?length_le_bytes; lia).
    do 3 f_equal. apply le_bytes_4_mod. change 31 with (Z.ones 5). change 16383 with (Z.ones 14).
    unfold setfield. bitwise.
  - rewrite applyNyuziReloc_word, outcome_bind_ret by lia.
    do 3 f_equal. apply le_bytes_4_mod. change 8191 with (Z.ones 13). unfold setfield. bitwise.
  - rewrite applyNyuziReloc_word, outcome_bind_ret by lia.
    do 3 f_equal. apply le_bytes_4_mod. change 32767 with (Z.ones 15). unfold setfield. bitwise.
Qed.

(** The fixup kinds with a relocation, and the row of the table they use. *)
Definition kind_of_reloc (Type_ : Z) : Z :=
  if Type_ =? R_NYUZI_ABS32 then FK_Data_4 else Nyuzi.FirstTargetFixupKind + (Type_ - 2).

Lemma getRelocType_inv (Kind Type_ : Z) (Info : MCFixupKindInfo) :
  getFixupKindInfo Kind = Ret Info → getRelocType Kind (IsPCRelFlag Info) = Ret Type_ →
  known_reloc Type_ = true ∧ Kind = kind_of_reloc Type_.
Proof.
  intros _ H. unfold getRelocType in H.
  repeat (match type of H with (if ?a =? ?b then _ else _) = _ => destruct (Z.eqb_spec a b) end;
          [inv_ret; subst; split; reflexivity |]).
  discriminate.
Qed.

(** Every fixup kind with a relocation passes the assertions on [IsPCRel]. *)
Lemma getRelocType_total (Type_ : Z) :
  known_reloc Type_ = true →
  ∃ Info, getFixupKindInfo (kind_of_reloc Type_) = Ret Info ∧
          getRelocType (kind_of_reloc Type_) (IsPCRelFlag Info) = Ret Type_.
Proof.
  intros Hk. reloc_cases Hk; eexists; split; reflexivity.
Qed.

Lemma adjust_branch (Kind Value N : Z) (Info : MCFixupKindInfo) :
  Kind = Nyuzi.fixup_Nyuzi_Branch20 ∨ Kind = Nyuzi.fixup_Nyuzi_Branch25 →
  getFixupKindInfo Kind = Ret Info → TargetSize Info = N → 1 ≤ N ≤ 32 →
  adjustFixupValue Kind Value =
    Ret (match checkInt (Z.quot (i64 Value) 4) N with
         | [] => (u32 (Z.quot (i64 Value) 4), [])
         | _ => (0, ["fixup out of range"%string])
         end).
Proof.
  intros HK HI HN HN'. unfold adjustFixupValue. rewrite HI, outcome_bind_ret.
  replace ((Kind =? Nyuzi.fixup_Nyuzi_Branch20) || (Kind =? Nyuzi.fixup_Nyuzi_Branch25)) with true
    by (destruct HK as [-> | ->]; reflexivity).
  rewrite HN, isSignedIntN64_spec, outcome_bind_ret by lia.
  rewrite sint_uint, sint_small; [| lia |].
  2: { pose proof (sint_range 64 Value ltac:(lia)) as Hr. change (64 - 1) with 63 in *.
       set (x := i64 Value) in *. clearbody x. Z.to_euclidean_division_equations; lia. }
  pose proof (checkInt_nil (Z.quot (i64 Value) 4) N ltac:(lia)) as Hc.
  destruct (checkInt _ N) as [| e l].
  - rewrite bool_decide_true by (apply Hc; reflexivity). cbn [negb].
    rewrite uint_uint_le by lia. reflexivity.
  - rewrite bool_decide_false; [reflexivity |]. intros H. apply Hc in H. discriminate.
Qed.

(** The value the assembler ORs into the word for each relocation type, when it
    reports nothing. *)
Definition asm_value (Type_ Val : Z) : Z :=
  if Type_ =? R_NYUZI_ABS32 then u32 Val
  else if (Type_ =? R_NYUZI_BRANCH20) || (Type_ =? R_NYUZI_BRANCH25)
  then u32 (Z.quot (i64 Val) 4)
  else if Type_ =? R_NYUZI_HI19
  then u32 (Z.lor (Z.land (Z.shiftr Val 13) 31)
             (u64 (Z.shiftl (Z.land (Z.shiftr Val 18) 16383) 10)))
  else u32 Val.

Lemma asm_or_is_reloc_word (Type_ Val w : Z) (Info : MCFixupKindInfo) :
  known_reloc Type_ = true → getFixupKindInfo (kind_of_reloc Type_) = Ret Info →
  0 ≤ w < 2 ^ 32 → Forall (λ '(b, s), getfield b s w = 0) (reloc_fields Type_) →
  Z.lor w (Z.land (Z.shiftl (asm_value Type_ Val) (TargetOffset Info)) (field_mask Info)) =
  u32 (reloc_word Type_ Val w).
Proof.
  intros Hk HI Hw Hz.
  assert (Hu : ∀ x, 0 ≤ x < 2 ^ 32 → u32 x = x) by (intros; apply uint_small; lia).
  rewrite <- (Hu w Hw).
  reloc_cases Hk;
  injection HI as <-; cbn [TargetOffset TargetSize field_mask asm_value reloc_word orb Z.eqb Pos.eqb
    reloc_fields R_NYUZI_ABS32 R_NYUZI_BRANCH20 R_NYUZI_BRANCH25 R_NYUZI_HI19
    R_NYUZI_IMM_LO13 R_NYUZI_GOT] in *; unfold field_mask; cbn [TargetOffset TargetSize];
  rewrite <- (Hu w Hw) in Hz; repeat apply Forall_cons in Hz as [? Hz].
  4: { (* HI19: two slices, patched together *)
    change 31 with (Z.ones 5). change 16383 with (Z.ones 14).
    transitivity (setfield 10 14 (Z.shiftr Val 18) (setfield 0 5 (Z.shiftr Val 13) (u32 w))).
    - rewrite <- (lor_setfield 10 14) by (rewrite ?getfield_setfield_ne; lia).
      rewrite <- (lor_setfield 0 5) by lia. bitwise.
    - unfold setfield. bitwise. }
  all: rewrite (lor_setfield _ _ _ (u32 w)) by lia; unfold setfield; bitwise.
Qed.

Lemma adjust_reloc (Type_ Val : Z) :
  known_reloc Type_ = true →
  ∃ v E, adjustFixupValue (kind_of_reloc Type_) Val = Ret (v, E) ∧
    (E = [] → v = asm_value Type_ Val) ∧
    (E = [] ↔ Type_ = R_NYUZI_GOT ∨ reloc_errors Type_ Val = []).
Proof.
  intros Hk. reloc_cases Hk.
  2: rewrite (adjust_branch _ Val 20 (mkInfo "fixup_Nyuzi_Branch20" 5 20 true)) by (auto; lia).
  3: rewrite (adjust_branch _ Val 25 (mkInfo "fixup_Nyuzi_Branch25" 0 25 true)) by (auto; lia).
  2, 3: unfold reloc_errors, asm_value; reloc_simpl; destruct (checkInt _ _) eqn:Ec; cbn iota beta;
    (eexists _, _; split; [reflexivity | split; [first [reflexivity | discriminate] |]]);
    (split; [intros He; first [discriminate He | auto] | intros [H | H]; first [reflexivity | discriminate H]]).
  all: eexists _, []; split; [reflexivity | split; [reflexivity | split; auto]].
Qed.

(** ** Properties *)

(** C4. Assembler and linker agree.  For every fixup kind the object writer has
    a relocation for, if the bits of the field are still zero in the instruction
    (as the code emitter leaves them), the assembler's [applyFixup] and lld's
    [relocateOne] both return, and whenever the assembler reports no range error
    the two leave the same section contents.  The assembler reports no error
    exactly on the values on which the linker reports none, and on every value of
    the GOT fixup, whose range only the linker checks. *)
Theorem assembler_linker_agree (Kind Type_ Value : Z) (Info : MCFixupKindInfo)
    (off : nat) (Data : list Z) :
  getFixupKindInfo Kind = Ret Info →
  getRelocType Kind (IsPCRelFlag Info) = Ret Type_ →
  (off + 4 ≤ length Data)%nat → 0 ≤ Value < 2 ^ 64 →
  Forall (λ '(b, s), getfield b s (word_at Data off) = 0) (reloc_fields Type_) →
  ∃ D1 E1 D2 E2,
    applyFixup Kind (Z.of_nat off) Data Value = Ret (D1, E1) ∧
    relocateOne Data off Type_ Value = Ret (D2, E2) ∧
    (E1 = [] → D1 = D2) ∧
    (E1 = [] ↔ Kind = Nyuzi.fixup_Nyuzi_GOT ∨ E2 = []).
Proof.
  intros HI HR Hoff HV Hz. destruct (getRelocType_inv _ _ _ HI HR) as [Hk ->].
  destruct (adjust_reloc Type_ Value Hk) as (v & E & Ha & Hv & HE).
  pose proof (relocateOne_word Data off Type_ Value Hk ltac:(lia) Hoff) as HL.
  assert (Hs : 0 < TargetSize Info ∧ 0 ≤ TargetOffset Info ∧ TargetOffset Info + TargetSize Info ≤ 64).
  { reloc_cases Hk; injection HI as <-; cbn; lia. }
  destruct Hs as (Hs1 & Hs2 & Hs3).
  pose proof (applyFixup_word _ off Data Value v Info E HI Hs1 Hs2 Hs3 Ha Hoff) as HA.
  eexists _, _, _, _. split; [exact HA |]. split; [exact HL |]. split.
  - intros HE1.
    rewrite (Hv HE1). f_equal. apply le_bytes_4_mod.
    rewrite (asm_or_is_reloc_word _ _ _ _ Hk HI (word_at_range _ _ Hoff) Hz). apply uint_uint.
  - rewrite HE. enough (kind_of_reloc Type_ = Nyuzi.fixup_Nyuzi_GOT ↔ Type_ = R_NYUZI_GOT) by tauto.
    clear -Hk. reloc_cases Hk; split; intros H; first [reflexivity | discriminate H].
Qed.

Example assembler_linker_agree_witness :
  ∃ D1 E1 D2 E2,
    applyFixup Nyuzi.fixup_Nyuzi_HI19 0 [32; 0; 0; 79] 305419896 = Ret (D1, E1) ∧
    relocateOne [32; 0; 0; 79] 0 R_NYUZI_HI19 305419896 = Ret (D2, E2) ∧
    (E1 = [] → D1 = D2) ∧
    (E1 = [] ↔ Nyuzi.fixup_Nyuzi_HI19 = Nyuzi.fixup_Nyuzi_GOT ∨ E2 = []).
Proof.
  apply (assembler_linker_agree Nyuzi.fixup_Nyuzi_HI19 R_NYUZI_HI19 305419896
           (mkInfo "fixup_Nyuzi_HI19" 0 32 false) 0 [32; 0; 0; 79]).
  - reflexivity.
  - reflexivity.
  - cbn. lia.
  - lia.
  - repeat constructor.
Defined.

(** C5. A relocation overwrites its field: what the field held before has no
    influence (so relocating twice is relocating once), it changes no byte
    outside the four it patches and no bit outside the fields of its type, and
    the length of the buffer stays. *)
Theorem relocateOne_frame (Buf Buf' : list Z) (Loc : nat) (Type_ Val Val' : Z) (E : list string) :
  known_reloc Type_ = true → 0 ≤ Val → 0 ≤ Val' → (Loc + 4 ≤ length Buf)%nat →
  relocateOne Buf Loc Type_ Val = Ret (Buf', E) →
  length Buf' = length Buf ∧
  (∀ i, (i < Loc ∨ Loc + 4 ≤ i)%nat → Buf' !! i = Buf !! i) ∧
  (∀ b s, 0 ≤ b → 0 ≤ s → b + s ≤ 32 →
     Forall (λ '(b', s'), b' + s' ≤ b ∨ b + s ≤ b') (reloc_fields Type_) →
     getfield b s (word_at Buf' Loc) = getfield b s (word_at Buf Loc)) ∧
  relocateOne Buf' Loc Type_ Val' = relocateOne Buf Loc Type_ Val'.
Proof.
  intros Hk HV HV' HL H. rewrite relocateOne_word in H by assumption.
  assert (write_at Loc (le_bytes 4 (reloc_word Type_ Val (word_at Buf Loc))) Buf = Buf') as <-
    by congruence. clear H E.
  assert (Hlen : length (write_at Loc (le_bytes 4 (reloc_word Type_ Val (word_at Buf Loc))) Buf)
                 = length Buf) by (apply length_write_at; rewrite length_le_bytes; lia).
  split; [exact Hlen |]. split; [| split].
  - intros i Hi. apply write_at_outside; cbn [length le_bytes]; lia.
  - intros b s Hb Hs Hbs HF. rewrite word_at_write_at by lia.
    transitivity (getfield b s (reloc_word Type_ Val (word_at Buf Loc))).
    { unfold getfield. bitwise. }
    reloc_cases Hk;
    cbn in HF; repeat apply Forall_cons in HF as [? HF];
    unfold reloc_word; reloc_simpl;
    rewrite !getfield_setfield_ne by lia; reflexivity.
  - rewrite !relocateOne_word by (rewrite ?Hlen; assumption).
    rewrite write_at_write_at, word_at_write_at by (rewrite ?length_le_bytes; lia).
    do 3 f_equal. apply le_bytes_4_mod.
    reloc_cases Hk;
    unfold reloc_word; reloc_simpl; unfold setfield; bitwise.
Qed.

Example relocateOne_frame_witness :
  ∃ Buf' E, relocateOne [1; 2; 3; 4; 5] 1 R_NYUZI_BRANCH20 64 = Ret (Buf', E) ∧
    length Buf' = 5%nat ∧
    relocateOne Buf' 1 R_NYUZI_BRANCH20 128 = relocateOne [1; 2; 3; 4; 5] 1 R_NYUZI_BRANCH20 128.
Proof.
  eexists _, _. split; [vm_compute; reflexivity |].
  pose proof (relocateOne_frame [1; 2; 3; 4; 5] _ 1 R_NYUZI_BRANCH20 64 128 _
    ltac:(reflexivity) ltac:(lia) ltac:(lia) ltac:(cbn; lia) ltac:(vm_compute; reflexivity))
    as (H1 & _ & _ & H2).
  split; [exact H1 | exact H2].
Defined.
