(* ===== verification/NyuziFormats.v ===== *)
(** * NyuziFormats: the instruction formats of the TableGen description

    lib/Target/Nyuzi/NyuziInstrFormats.td and NyuziInstrInfo.td describe an
    instruction by its fixed bits and by the slices of [Inst] each operand
    fills.  A slice [(Base, Width, Offset)] says that bits
    [Offset .. Offset + Width - 1] of the operand stand at bit [Base] of the
    word (the [EncodingField] of utils/TableGen/FixedLenDecoderEmitter.cpp).
    [insertOperand] and [extractOperand] are the two directions the generated
    encoder and decoder apply; the operand methods in between are those of
    NyuziEmitter.v and NyuziDisassembler.v. *)
From S2P Require Import Prelude MathExtras NyuziTarget.

(** [struct EncodingField { unsigned Base, Width, Offset; }] *)
Record EncodingField : Type := mkField { Base : Z; Width : Z; Offset : Z }.

(** [Inst{Base+Width-1 - Base} = op{Offset+Width-1 - Offset}] for every slice *)
Definition insertOperand (fields : list EncodingField) (v w : Z) : Z :=
  foldl (λ w f, setfield (Base f) (Width f) (Z.shiftr v (Offset f)) w) w fields.

(** The code [emitBinaryParser] writes for an operand: one field is assigned to
    [tmp], several are ORed into it. *)
Definition extractOperand (fields : list EncodingField) (insn : Z) : outcome Z :=
  foldl (λ acc f, acc ≫= λ tmp,
           fieldFromInstruction insn (Base f) (Width f) ≫= λ x,
           Ret (u32 (Z.lor tmp (Z.shiftl x (Offset f)))))
        (Ret 0) fields.

(** The operand methods a td operand class names, and the register class of a
    register operand. *)
Inductive OperandKind : Type :=
  | OpReg (rc : Nyuzi.regclass)
  | OpMem (rc : Nyuzi.regclass)
  | OpSimm9 | OpSimm14 | OpSimm19
  | OpBranch20 | OpBranch25.

Record OperandInfo : Type := mkOperandInfo { Kind : OperandKind; Fields : list EncodingField }.

(** An instruction: its fixed bits [(Base, Width, Value)] and its operands in
    the order of the MC operands. *)
Record InstFormat : Type := mkFormat {
  Fixed : list (Z * Z * Z);
  OperandList : list OperandInfo
}.

(** Slices the formats share. *)
Definition F_dest : list EncodingField := [mkField 5 5 0].
Definition F_src1 : list EncodingField := [mkField 0 5 0].
Definition F_src2 : list EncodingField := [mkField 15 5 0].
Definition F_mask : list EncodingField := [mkField 10 5 0].
Definition F_imm14 : list EncodingField := [mkField 10 14 0].
Definition F_imm9 : list EncodingField := [mkField 15 9 0].
Definition F_imm19 : list EncodingField := [mkField 10 14 5; mkField 0 5 0].
Definition F_addr : list EncodingField := [mkField 10 15 5; mkField 0 5 0].
Definition F_addr_masked : list EncodingField := [mkField 15 10 5; mkField 0 5 0].
Definition F_dest20 : list EncodingField := [mkField 5 20 0].
Definition F_dest25 : list EncodingField := [mkField 0 25 0].

Definition GPR (f : list EncodingField) : OperandInfo := mkOperandInfo (OpReg Nyuzi.GPR32RegClass) f.
Definition VR (f : list EncodingField) : OperandInfo := mkOperandInfo (OpReg Nyuzi.VR512RegClass) f.

(** [class FormatRInst], [FormatRUnmaskedTwoOpInst], [FormatRUnmaskedOneOpInst] *)
Definition FormatRInst (opcode fmt : Z) : list (Z * Z * Z) :=
  [(29, 3, 6); (26, 3, fmt); (20, 6, opcode)].
Definition FormatRUnmaskedTwoOpInst (opcode fmt : Z) (dest src1 src2 : list EncodingField → OperandInfo)
    : InstFormat :=
  mkFormat (FormatRInst opcode fmt) [dest F_dest; src1 F_src1; src2 F_src2].
Definition FormatRUnmaskedOneOpInst (opcode fmt : Z) (dest src2 : list EncodingField → OperandInfo)
    : InstFormat :=
  mkFormat (FormatRInst opcode fmt ++ [(0, 5, 0)]) [dest F_dest; src2 F_src2].

(** [class FormatIInst], [FormatIUnmaskedInst]; fixed value 0 in bit 31 *)
Definition FormatIInst (opcode fmt : Z) : list (Z * Z * Z) := [(31, 1, 0); (29, 2, fmt); (24, 5, opcode)].
Definition FormatIUnmaskedInst (opcode fmt : Z) (dest src1 : list EncodingField → OperandInfo) : InstFormat :=
  mkFormat (FormatIInst opcode fmt) [dest F_dest; src1 F_src1; mkOperandInfo OpSimm14 F_imm14].

(** [class FormatMInst] (bit 30 is not assigned), [FormatMUnmaskedInst],
    [FormatMMaskedInst] *)
Definition FormatMInst (fmt isLoad : Z) : list (Z * Z * Z) := [(31, 1, 1); (29, 1, isLoad); (25, 4, fmt)].
Definition FormatMUnmaskedInst (fmt isLoad : Z) (srcDest : list EncodingField → OperandInfo)
    (rc : Nyuzi.regclass) : InstFormat :=
  mkFormat (FormatMInst fmt isLoad) [srcDest F_dest; mkOperandInfo (OpMem rc) F_addr].
Definition FormatMMaskedInst (fmt isLoad : Z) (srcDest : list EncodingField → OperandInfo)
    (rc : Nyuzi.regclass) : InstFormat :=
  mkFormat (FormatMInst fmt isLoad) [srcDest F_dest; mkOperandInfo (OpMem rc) F_addr_masked; GPR F_mask].

(** [class BranchInst], [RegisterBranchInst], [NonRegisterBranchInst] *)
Definition BranchInst (type : Z) : list (Z * Z * Z) := [(28, 4, 15); (25, 3, type)].
Definition RegisterBranchInst (type : Z) : InstFormat :=
  mkFormat (BranchInst type) [GPR F_src1; mkOperandInfo OpBranch20 F_dest20].
Definition NonRegisterBranchInst (type : Z) : InstFormat :=
  mkFormat (BranchInst type) [mkOperandInfo OpBranch25 F_dest25].

Definition FmtR_SSS : Z := 0.
Definition FmtR_VVS : Z := 1.
Definition FmtR_VVV : Z := 4.
Definition FmtI_S : Z := 0.
Definition FmtI_EXT : Z := 2.
Definition FmtM_Word : Z := 4.
Definition FmtM_Sync : Z := 5.
Definition FmtM_Block : Z := 7.
Definition FmtM_BlockMasked : Z := 8.
Definition BT_IfZero : Z := 1.
Definition BT_IfNotZero : Z := 2.
Definition BT_Uncond : Z := 3.
Definition BT_Call : Z := 4.

(** The instructions of NyuziInstrInfo.td the C++ code of the target builds
    itself.  [STORE_SYNC] ties its result to its source and is left to the
    generated code, as are the instructions no modelled function names. *)
Definition InstrFormats (opc : Nyuzi.opcode) : option InstFormat :=
  match opc with
  | Nyuzi.ORSSS => Some (FormatRUnmaskedTwoOpInst 0 FmtR_SSS GPR GPR GPR)
  | Nyuzi.ANDSSS => Some (FormatRUnmaskedTwoOpInst 1 FmtR_SSS GPR GPR GPR)
  | Nyuzi.XORSSS => Some (FormatRUnmaskedTwoOpInst 3 FmtR_SSS GPR GPR GPR)
  | Nyuzi.ADDISSS => Some (FormatRUnmaskedTwoOpInst 5 FmtR_SSS GPR GPR GPR)
  | Nyuzi.SUBISSS => Some (FormatRUnmaskedTwoOpInst 6 FmtR_SSS GPR GPR GPR)
  | Nyuzi.ORSSI => Some (FormatIUnmaskedInst 0 FmtI_S GPR GPR)
  | Nyuzi.ANDSSI => Some (FormatIUnmaskedInst 1 FmtI_S GPR GPR)
  | Nyuzi.XORSSI => Some (FormatIUnmaskedInst 3 FmtI_S GPR GPR)
  | Nyuzi.ADDISSI => Some (FormatIUnmaskedInst 5 FmtI_S GPR GPR)
  | Nyuzi.SUBISSI => Some (FormatIUnmaskedInst 6 FmtI_S GPR GPR)
  | Nyuzi.MOVESS => Some (FormatRUnmaskedOneOpInst 15 FmtR_SSS GPR GPR)
  | Nyuzi.MOVEVSI => Some (FormatRUnmaskedOneOpInst 15 FmtR_VVS VR GPR)
  | Nyuzi.MOVEVV => Some (FormatRUnmaskedOneOpInst 15 FmtR_VVV VR VR)
  | Nyuzi.MOVESimm =>
      Some (mkFormat [(29, 2, FmtI_S); (24, 5, 15)] [GPR F_dest; mkOperandInfo OpSimm14 F_imm14])
  | Nyuzi.MOVEHI =>
      Some (mkFormat (FormatIInst 15 FmtI_EXT) [GPR F_dest; mkOperandInfo OpSimm19 F_imm19])
  | Nyuzi.LW => Some (FormatMUnmaskedInst FmtM_Word 1 GPR Nyuzi.GPR32RegClass)
  | Nyuzi.LOAD_SYNC => Some (FormatMUnmaskedInst FmtM_Sync 1 GPR Nyuzi.GPR32RegClass)
  | Nyuzi.BLOCK_LOADI => Some (FormatMUnmaskedInst FmtM_Block 1 VR Nyuzi.GPR32RegClass)
  | Nyuzi.INT_BLOCK_LOADI_MASKED => Some (FormatMMaskedInst FmtM_BlockMasked 1 VR Nyuzi.GPR32RegClass)
  | Nyuzi.SW => Some (FormatMUnmaskedInst FmtM_Word 0 GPR Nyuzi.GPR32RegClass)
  | Nyuzi.BLOCK_STOREI => Some (FormatMUnmaskedInst FmtM_Block 0 VR Nyuzi.GPR32RegClass)
  | Nyuzi.INT_BLOCK_STOREI_MASKED => Some (FormatMMaskedInst FmtM_BlockMasked 0 VR Nyuzi.GPR32RegClass)
  | Nyuzi.B => Some (NonRegisterBranchInst BT_Uncond)
  | Nyuzi.CALLSYM => Some (NonRegisterBranchInst BT_Call)
  | Nyuzi.BZ => Some (RegisterBranchInst BT_IfZero)
  | Nyuzi.BNZ => Some (RegisterBranchInst BT_IfNotZero)
  | _ => None
  end.

(** [Value] before the operands are put in. *)
Definition fixedBits (fixed : list (Z * Z * Z)) : Z :=
  foldl (λ w '(b, s, v), setfield b s v w) 0 fixed.

(** ** Lemmas *)

Definition field_ok (f : EncodingField) : Prop :=
  0 ≤ Base f ∧ 0 < Width f ∧ Base f + Width f ≤ 32 ∧ 0 ≤ Offset f ∧ Offset f + Width f ≤ 32.

Definition fields_disjoint (f g : EncodingField) : Prop :=
  Base f + Width f ≤ Base g ∨ Base g + Width g ≤ Base f.

(** Putting one operand in leaves the slices of another alone. *)
Lemma fieldFromInstruction_getfield (insn b s : Z) :
  0 ≤ b → 0 < s → b + s ≤ 32 → 0 ≤ insn < 2 ^ 32 →
  fieldFromInstruction insn b s = Ret (getfield b s insn).
Proof.
  intros. rewrite fieldFromInstruction_uint, (uint_small 32) by lia. reflexivity.
Qed.

Lemma getfield_insertOperand_ne (fs : list EncodingField) (v w b s : Z) :
  0 ≤ b → 0 < s → Forall (λ f, field_ok f ∧ fields_disjoint f (mkField b s 0)) fs →
  getfield b s (insertOperand fs v w) = getfield b s w.
Proof.
  intros Hb Hs HF. revert w. induction HF as [| f fs [Hf Hd] HF IH]; intros w; [reflexivity |].
  unfold insertOperand in *. cbn [foldl]. rewrite IH.
  destruct Hf as (?&?&?&?&?). unfold fields_disjoint in Hd. cbn in Hd.
  apply getfield_setfield_ne; lia.
Qed.

Lemma setfield_range (b s v w : Z) :
  0 ≤ b → 0 ≤ s → b + s ≤ 32 → 0 ≤ w < 2 ^ 32 → 0 ≤ setfield b s v w < 2 ^ 32.
Proof.
  intros Hb Hs Hbs Hw.
  replace (setfield b s v w) with (u32 (setfield b s v w)); [apply uint_range; lia |].
  rewrite <- (uint_small 32 w) by exact Hw. unfold setfield. bitwise.
Qed.

Lemma insertOperand_range (fs : list EncodingField) (v w : Z) :
  Forall field_ok fs → 0 ≤ w < 2 ^ 32 → 0 ≤ insertOperand fs v w < 2 ^ 32.
Proof.
  intros HF. revert w. induction HF as [| f fs Hf HF IH]; intros w Hw; [exact Hw |].
  apply IH. destruct Hf as (?&?&?&?&?). apply setfield_range; lia.
Qed.

(** Reading back an operand of one slice, and of the two slices of a memory
    operand or of a [movehi] immediate. *)
Lemma extract_one (b s w : Z) :
  0 ≤ b → 0 < s → b + s ≤ 32 → 0 ≤ w < 2 ^ 32 →
  extractOperand [mkField b s 0] w = Ret (getfield b s w).
Proof.
  intros. unfold extractOperand. cbn. rewrite fieldFromInstruction_getfield by lia. cbn.
  f_equal. unfold getfield. bitwise.
Qed.

Lemma extract_two (b s w : Z) :
  5 ≤ b → 0 < s → b + s ≤ 32 → s ≤ 27 → 0 ≤ w < 2 ^ 32 →
  extractOperand [mkField b s 5; mkField 0 5 0] w =
    Ret (Z.lor (Z.shiftl (getfield b s w) 5) (getfield 0 5 w)).
Proof.
  intros. unfold extractOperand. cbn. rewrite !fieldFromInstruction_getfield by lia. cbn.
  f_equal. unfold getfield. bitwise.
Qed.
