(* ===== verification/NyuziEmitter.v ===== *)
(** * NyuziEmitter: the machine code emitter

    lib/Target/Nyuzi/MCTargetDesc/NyuziMCCodeEmitter.cpp.  The operand methods
    return the bits of an operand and append a fixup when the operand is an
    expression; [getBinaryCodeForInstr] is what TableGen generates from the
    formats of NyuziFormats.v; [encodeInstruction] writes the word in little
    endian. *)
From S2P Require Import Prelude MathExtras NyuziTarget NyuziFormats.

Definition Fixups_t : Type := list MCFixup.

(** [unsigned getMachineOpValue(MI, MO, Fixups, STI)] *)
Definition getMachineOpValue (MO : MCOperand) (Fixups : Fixups_t) : outcome (Z * Fixups_t) :=
  if isReg MO then
    getReg MO ≫= λ r, Nyuzi.getEncodingValue r ≫= λ e, Ret (e, Fixups)
  else if isImm MO then
    getImm MO ≫= λ v, Ret (u32 v, Fixups)
  else
    cassert (isExpr MO) "MO.isExpr()" ≫= λ _,
    getExpr MO ≫= λ Expr,
    match Expr with
    | NyuziMCExpr k _ =>
        match k with
        | Nyuzi.VK_Nyuzi_ABS_HI => Ret (0, Fixups ++ [mkMCFixup 0 Expr Nyuzi.fixup_Nyuzi_HI19])
        | Nyuzi.VK_Nyuzi_ABS_LO => Ret (0, Fixups ++ [mkMCFixup 0 Expr Nyuzi.fixup_Nyuzi_IMM_LO13])
        | _ => Unreachable "Unknown fixup type"
        end
    | _ => Ret (0, Fixups)
    end.

Definition encodeBranchTargetOpValue20 (MI : MCInst) (OpNo : Z) (Fixups : Fixups_t)
    : outcome (Z * Fixups_t) :=
  getOperand MI OpNo ≫= λ MO,
  if isImm MO then getImm MO ≫= λ v, Ret (u32 v, Fixups)
  else
    cassert (isExpr MO) "encodeBranchTargetOpValue expects only expressions or an immediate" ≫= λ _,
    getExpr MO ≫= λ e,
    Ret (0, Fixups ++ [mkMCFixup 0 e Nyuzi.fixup_Nyuzi_Branch20]).

Definition encodeBranchTargetOpValue25 (MI : MCInst) (OpNo : Z) (Fixups : Fixups_t)
    : outcome (Z * Fixups_t) :=
  getOperand MI OpNo ≫= λ MO,
  if isImm MO then getImm MO ≫= λ v, Ret (u32 v, Fixups)
  else
    cassert (isExpr MO) "encodeBranchTargetOpValue expects only expressions or an immediate" ≫= λ _,
    getExpr MO ≫= λ e,
    Ret (0, Fixups ++ [mkMCFixup 0 e Nyuzi.fixup_Nyuzi_Branch25]).

(** [unsigned encodeMemoryOpValue(MI, Op, Fixups, STI)]: the operand index [Op]
    is not used. *)
Definition encodeMemoryOpValue (MI : MCInst) (Op : Z) (Fixups : Fixups_t) : outcome (Z * Fixups_t) :=
  (if decide (Opcode MI = Nyuzi.STORE_SYNC) then
     getOperand MI 2 ≫= λ baseReg, getOperand MI 3 ≫= λ offsetOp, Ret (baseReg, offsetOp)
   else
     getOperand MI 1 ≫= λ baseReg, getOperand MI 2 ≫= λ offsetOp, Ret (baseReg, offsetOp))
  ≫= λ '(baseReg, offsetOp),
  cassert (isReg baseReg) "First operand is not register." ≫= λ _,
  getReg baseReg ≫= λ r,
  Nyuzi.getEncodingValue r ≫= λ encoding,
  if isImm offsetOp then
    getImm offsetOp ≫= λ v,
    Ret (Z.lor encoding (u32 (Z.shiftl (i16 v) 5)), Fixups)
  else
    getExpr offsetOp ≫= λ e,
    match e with
    | NyuziMCExpr k sub =>
        match k with
        | Nyuzi.VK_Nyuzi_GOT => Ret (encoding, Fixups ++ [mkMCFixup 0 sub Nyuzi.fixup_Nyuzi_GOT])
        | _ => Unreachable "Second operand of memory op is unknown type."
        end
    | _ => Unreachable "Second operand of memory op is unknown type."
    end.

(** [EmitByte] and [EmitLEConstant]; the stream is the list of bytes written. *)
Definition EmitByte (C : Z) (OS : list Z) : list Z := OS ++ [u8 C].

Definition EmitLEConstant (Val Size : Z) (OS : list Z) : outcome (list Z) :=
  cassert (Size <=? 8) "size too big in emit constant" ≫= λ _,
  for_loop 0 (Z.to_nat Size)
    (λ _ '(Val, OS), Ret (Z.shiftr Val 8, EmitByte (Z.land Val 255) OS)) (u64 Val, OS)
  ≫= λ '(_, OS), Ret OS.

(** ** The generated [getBinaryCodeForInstr] on the formats of NyuziFormats.v

    Each operand is encoded by its method, starting at MC operand [i]; a memory
    operand takes two MC operands. *)
Definition operandSize (k : OperandKind) : Z := match k with OpMem _ => 2 | _ => 1 end.

Definition encodeOperand (MI : MCInst) (k : OperandKind) (i : Z) (Fixups : Fixups_t)
    : outcome (Z * Fixups_t) :=
  match k with
  | OpMem _ => encodeMemoryOpValue MI i Fixups
  | OpBranch20 => encodeBranchTargetOpValue20 MI i Fixups
  | OpBranch25 => encodeBranchTargetOpValue25 MI i Fixups
  | OpReg _ | OpSimm9 | OpSimm14 | OpSimm19 => getOperand MI i ≫= λ MO, getMachineOpValue MO Fixups
  end.

Fixpoint encodeOperands (MI : MCInst) (ops : list OperandInfo) (i : Z) (Value : Z) (Fixups : Fixups_t)
    : outcome (Z * Fixups_t) :=
  match ops with
  | [] => Ret (Value, Fixups)
  | op :: ops' =>
      encodeOperand MI (Kind op) i Fixups ≫= λ '(v, Fixups),
      encodeOperands MI ops' (i + operandSize (Kind op)) (insertOperand (Fields op) v Value) Fixups
  end.

Definition formatBinaryCode (MI : MCInst) (Fixups : Fixups_t) : outcome (Z * Fixups_t) :=
  match InstrFormats (Opcode MI) with
  | Some f => encodeOperands MI (OperandList f) 0 (fixedBits (Fixed f)) Fixups
  | None => FatalError "Not supported instr"
  end.

(** [encodeInstruction]; [getBinaryCodeForInstr] is generated code. *)
Section encodeInstruction.
Variable getBinaryCodeForInstr : MCInst → Fixups_t → outcome (Z * Fixups_t).

Definition encodeInstruction (MI : MCInst) (OS : list Z) (Fixups : Fixups_t)
      : outcome (list Z * Fixups_t) :=
    getBinaryCodeForInstr MI Fixups ≫= λ '(Value, Fixups),
    EmitLEConstant (u32 Value) 4 OS ≫= λ OS, Ret (OS, Fixups).
End encodeInstruction.

(** ** Lemmas *)

Lemma EmitLEConstant_bytes (Val : Z) (n : nat) (OS : list Z) :
  (n ≤ 8)%nat → EmitLEConstant Val (Z.of_nat n) OS = Ret (OS ++ le_bytes n (u64 Val)).
Proof.
  intros Hn. unfold EmitLEConstant.
  destruct (Z.leb_spec (Z.of_nat n) 8); [| lia]. cbn [cassert]. rewrite outcome_bind_ret, Nat2Z.id.
  generalize (u64 Val) as v, 0%nat as i. clear H. revert OS.
  induction n as [| n IH]; intros OS v i; cbn [for_loop le_bytes].
  - cbn. rewrite app_nil_r. reflexivity.
  - etransitivity; [exact (IH ltac:(lia) (EmitByte (Z.land v 255) OS) (Z.shiftr v 8) (S i)) |].
    unfold EmitByte. rewrite <- app_assoc. cbn. do 3 f_equal.
    change 255 with (Z.ones 8). rewrite uint_land_ones by lia. apply uint_uint.
Qed.

Lemma encodeInstruction_bytes (gen : MCInst → Fixups_t → outcome (Z * Fixups_t))
    (MI : MCInst) (OS : list Z) (F F' : Fixups_t) (w : Z) :
  gen MI F = Ret (w, F') →
  encodeInstruction gen MI OS F = Ret (OS ++ le_bytes 4 (u32 w), F').
Proof.
  intros H. unfold encodeInstruction. rewrite H, outcome_bind_ret.
  rewrite (EmitLEConstant_bytes (u32 w) 4) by lia. rewrite outcome_bind_ret.
  do 4 f_equal. apply uint_small. pose proof (uint_range 32 w). lia.
Qed.

Lemma getMachineOpValue_reg (rc : Nyuzi.regclass) (n : nat) (r : Nyuzi.reg) (F : Fixups_t) :
  Nyuzi.getRegClass rc !! n = Some r → getMachineOpValue (kRegister r) F = Ret (Z.of_nat n, F).
Proof. intros H. cbn. rewrite (getRegClass_encoding rc n r H). reflexivity. Qed.

Lemma fixedBits_range (l : list (Z * Z * Z)) :
  Forall (λ '(b, s, _), 0 ≤ b ∧ 0 ≤ s ∧ b + s ≤ 32) l → 0 ≤ fixedBits l < 2 ^ 32.
Proof.
  intros H. unfold fixedBits.
  enough (HG : ∀ w, 0 ≤ w < 2 ^ 32 → 0 ≤ foldl (λ w '(b, s, v), setfield b s v w) w l < 2 ^ 32)
    by (apply HG; lia).
  induction H as [| [[b s] v] l (?&?&?) H IH]; intros w Hw; [exact Hw |].
  cbn. apply IH. apply setfield_range; lia.
Qed.
