(* ===== verification/NyuziDisassembler.v ===== *)
(** * NyuziDisassembler: the disassembler and the branch analysis of the MC layer

    lib/Target/Nyuzi/Disassembler/NyuziDisassembler.cpp and the
    [MCInstrAnalysis] of MCTargetDesc/NyuziMCTargetDesc.cpp.  The decoder table
    TableGen generates picks the opcode of a word ([selectOpcode], a parameter);
    the decoding of the operands of that opcode follows [emitDecoder] of
    utils/TableGen/FixedLenDecoderEmitter.cpp over the formats of
    NyuziFormats.v. *)
From S2P Require Import Prelude MathExtras NyuziTarget NyuziFormats NyuziEmitter NyuziFixups NyuziLinker.

Inductive DecodeStatus : Type := Fail_ | SoftFail | Success.

#[global] Instance DecodeStatus_eq_dec : EqDecision DecodeStatus.
Proof. solve_decision. Defined.

(** [readInstruction32]: the new [Size] and the word, or [Fail] with [Size] 0. *)
Definition readInstruction32 (Bytes : list Z) (Size : Z) : outcome (DecodeStatus * Z * Z) :=
  if (length Bytes <? 4)%nat then Ret (Fail_, 0, 0)
  else
    at_index Bytes 0 ≫= λ b0, at_index Bytes 1 ≫= λ b1,
    at_index Bytes 2 ≫= λ b2, at_index Bytes 3 ≫= λ b3,
    Ret (Success, Size,
         u32 (Z.lor (Z.lor (Z.lor (Z.shiftl b0 0) (Z.shiftl b1 8)) (Z.shiftl b2 16)) (Z.shiftl b3 24))).

(** [getReg(D, RC, RegNo)]: [*(getRegClass(RC).begin() + RegNo)] *)
Definition getRegNo (RC : Nyuzi.regclass) (RegNo : Z) : outcome Nyuzi.reg :=
  match Nyuzi.getRegClass RC !! Z.to_nat RegNo with
  | Some r => if RegNo <? 0 then UndefinedBehaviour "getReg" else Ret r
  | None => UndefinedBehaviour "getReg"
  end.

Definition decodeMemoryOpValue (Inst : MCInst) (Insn Address : Z) (RC : Nyuzi.regclass)
    : outcome (DecodeStatus * MCInst) :=
  fieldFromInstruction Insn 5 15 ≫= λ f,
  let Offset := SignExtend32 15 f in
  fieldFromInstruction Insn 0 5 ≫= λ RegisterIndex,
  getRegNo RC RegisterIndex ≫= λ BaseReg,
  let Inst := addOperand Inst (kRegister BaseReg) in
  Ret (Success, addOperand Inst (kImmediate Offset)).

Definition decodeScalarMemoryOpValue (Inst : MCInst) (Insn Address : Z) : outcome (DecodeStatus * MCInst) :=
  decodeMemoryOpValue Inst Insn Address Nyuzi.GPR32RegClass.

Definition decodeVectorMemoryOpValue (Inst : MCInst) (Insn Address : Z) : outcome (DecodeStatus * MCInst) :=
  decodeMemoryOpValue Inst Insn Address Nyuzi.VR512RegClass.

Definition decodeSimm9Value (Inst : MCInst) (Insn Address : Z) : outcome (DecodeStatus * MCInst) :=
  Ret (Success, addOperand Inst (kImmediate (SignExtend32 9 Insn))).

Definition decodeSimm14Value (Inst : MCInst) (Insn Address : Z) : outcome (DecodeStatus * MCInst) :=
  Ret (Success, addOperand Inst (kImmediate (SignExtend32 14 Insn))).

Definition decodeSimm19Value (Inst : MCInst) (Insn Address : Z) : outcome (DecodeStatus * MCInst) :=
  Ret (Success, addOperand Inst (kImmediate Insn)).

Definition DecodeGPR32RegisterClass (Inst : MCInst) (RegNo Address : Z) : outcome (DecodeStatus * MCInst) :=
  if RegNo >? 31 then Ret (Fail_, Inst)
  else getRegNo Nyuzi.GPR32RegClass RegNo ≫= λ r, Ret (Success, addOperand Inst (kRegister r)).

Definition DecodeVR512RegisterClass (Inst : MCInst) (RegNo Address : Z) : outcome (DecodeStatus * MCInst) :=
  if RegNo >? 31 then Ret (Fail_, Inst)
  else getRegNo Nyuzi.VR512RegClass RegNo ≫= λ r, Ret (Success, addOperand Inst (kRegister r)).

(** A symbolizer takes the value, the address, whether it is a branch, the
    offset and the size, and may add an operand to the instruction. *)
Definition Symbolizer_t : Type := MCInst → Z → Z → bool → Z → Z → bool * MCInst.

(** [MCDisassembler::tryAddingSymbolicOperand] *)
Definition tryAddingSymbolicOperand (Symbolizer : option Symbolizer_t)
    (Inst : MCInst) (Value Address : Z) (IsBranch : bool) (Offset InstSize : Z) : bool * MCInst :=
  match Symbolizer with
  | Some f => f Inst Value Address IsBranch Offset InstSize
  | None => (false, Inst)
  end.

Definition decodeBranchTargetOpValue20 (Symbolizer : option Symbolizer_t)
    (Inst : MCInst) (Offset Address : Z) : outcome (DecodeStatus * MCInst) :=
  let AdjustedOffset := i32 (SignExtend32 20 Offset * 4) in
  let '(added, Inst) :=
    tryAddingSymbolicOperand Symbolizer Inst (u64 (Address + AdjustedOffset)) Address true 0 20 in
  Ret (Success, if negb added then addOperand Inst (kImmediate AdjustedOffset) else Inst).

Definition decodeBranchTargetOpValue25 (Symbolizer : option Symbolizer_t)
    (Inst : MCInst) (Offset Address : Z) : outcome (DecodeStatus * MCInst) :=
  let AdjustedOffset := i32 (SignExtend32 25 Offset * 4) in
  let '(added, Inst) :=
    tryAddingSymbolicOperand Symbolizer Inst (u64 (Address + AdjustedOffset)) Address true 0 25 in
  Ret (Success, if negb added then addOperand Inst (kImmediate AdjustedOffset) else Inst).

(** The decoder methods the td operand classes name. *)
Definition decodeOperand (Symbolizer : option Symbolizer_t) (k : OperandKind)
    (Inst : MCInst) (tmp Address : Z) : outcome (DecodeStatus * MCInst) :=
  match k with
  | OpReg Nyuzi.GPR32RegClass => DecodeGPR32RegisterClass Inst tmp Address
  | OpReg Nyuzi.VR512RegClass => DecodeVR512RegisterClass Inst tmp Address
  | OpMem Nyuzi.GPR32RegClass => decodeScalarMemoryOpValue Inst tmp Address
  | OpMem Nyuzi.VR512RegClass => decodeVectorMemoryOpValue Inst tmp Address
  | OpSimm9 => decodeSimm9Value Inst tmp Address
  | OpSimm14 => decodeSimm14Value Inst tmp Address
  | OpSimm19 => decodeSimm19Value Inst tmp Address
  | OpBranch20 => decodeBranchTargetOpValue20 Symbolizer Inst tmp Address
  | OpBranch25 => decodeBranchTargetOpValue25 Symbolizer Inst tmp Address
  end.

(** The code [emitDecoder] writes for an opcode: the operands in order, the
    first failing method fails the instruction. *)
Fixpoint decodeOperands (Symbolizer : option Symbolizer_t) (ops : list OperandInfo)
    (Inst : MCInst) (insn Address : Z) : outcome (DecodeStatus * MCInst) :=
  match ops with
  | [] => Ret (Success, Inst)
  | op :: ops' =>
      extractOperand (Fields op) insn ≫= λ tmp,
      decodeOperand Symbolizer (Kind op) Inst tmp Address ≫= λ '(St, Inst),
      if decide (St = Fail_) then Ret (Fail_, Inst) else decodeOperands Symbolizer ops' Inst insn Address
  end.

Section getInstruction.
(** the walk of the generated [DecoderTable32] *)
Variable selectOpcode : Z → option Nyuzi.opcode.
Variable Symbolizer : option Symbolizer_t.

(** [case MCD::OPC_Decode]: clear the instruction, set the opcode, decode the
      operands; [OPC_Fail] when no entry of the table matches. *)
Definition decodeInstruction (Inst : MCInst) (insn Address : Z) : outcome (DecodeStatus * MCInst) :=
    match selectOpcode insn with
    | None => Ret (Fail_, Inst)
    | Some opc =>
        match InstrFormats opc with
        | None => UndefinedBehaviour "instruction outside the modelled formats"
        | Some f => decodeOperands Symbolizer (OperandList f) (mkMCInst opc []) insn Address
        end
    end.

(** [NyuziDisassembler::getInstruction]: status, [Size] and the instruction *)
Definition getInstruction (instr : MCInst) (Size : Z) (Bytes : list Z) (Address : Z)
      : outcome (DecodeStatus * Z * MCInst) :=
    readInstruction32 Bytes Size ≫= λ '(Result, Size, Insn),
    if decide (Result = Fail_) then Ret (Fail_, Size, instr)
    else
      decodeInstruction instr Insn Address ≫= λ '(Result, instr),
      if decide (Result = Fail_) then Ret (Fail_, Size, instr) else Ret (Result, 4, instr).
End getInstruction.

(** [MCOI::OperandType], as far as [evaluateBranch] tells them apart. *)
Inductive OperandType : Type := OPERAND_UNKNOWN | OPERAND_IMMEDIATE | OPERAND_REGISTER | OPERAND_OTHER.

(** [NyuziMCInstrAnalysis::evaluateBranch]; [OpInfo] is the generated operand
    table.  [None] is the result [false]. *)
Definition evaluateBranch (OpInfo : Nyuzi.opcode → list OperandType) (Inst : MCInst) (Addr Size : Z)
    : outcome (option Z) :=
  let NumOps := Z.of_nat (length (Operands Inst)) in
  if NumOps =? 0 then Ret None
  else
    match OpInfo (Opcode Inst) !! Z.to_nat (NumOps - 1) with
    | Some OPERAND_UNKNOWN | Some OPERAND_IMMEDIATE =>
        getOperand Inst (NumOps - 1) ≫= λ MO, getImm MO ≫= λ v, Ret (Some (u64 (Addr + v)))
    | Some _ => Ret None
    | None => UndefinedBehaviour "OpInfo[NumOps - 1]"
    end.

(** ** Word-level lemmas *)

Lemma readInstruction32_bytes (w Size : Z) (rest : list Z) :
  readInstruction32 (le_bytes 4 w ++ rest) Size = Ret (Success, Size, u32 w).
Proof.
  transitivity (Ret (Success, Size,
    u32 (Z.lor (Z.lor (Z.lor (Z.shiftl (u8 w) 0) (Z.shiftl (u8 (Z.shiftr w 8)) 8))
                      (Z.shiftl (u8 (Z.shiftr (Z.shiftr w 8) 8)) 16))
               (Z.shiftl (u8 (Z.shiftr (Z.shiftr (Z.shiftr w 8) 8) 8)) 24)))); [reflexivity |].
  do 2 f_equal. bitwise.
Qed.

Lemma getRegNo_lookup (rc : Nyuzi.regclass) (n : nat) (r : Nyuzi.reg) :
  Nyuzi.getRegClass rc !! n = Some r → getRegNo rc (Z.of_nat n) = Ret r.
Proof.
  intros H. unfold getRegNo. rewrite Nat2Z.id, H.
  destruct (Z.ltb_spec (Z.of_nat n) 0); [lia | reflexivity].
Qed.

(** The bits of an operand value its slices keep. *)
Definition project (fs : list EncodingField) (v : Z) : Z :=
  foldl (λ tmp f, u32 (Z.lor tmp (Z.shiftl (uint (Width f) (Z.shiftr v (Offset f))) (Offset f)))) 0 fs.

Definition gather (fs : list EncodingField) (w : Z) : Z :=
  foldl (λ tmp f, u32 (Z.lor tmp (Z.shiftl (getfield (Base f) (Width f) w) (Offset f)))) 0 fs.

Lemma extractOperand_gather (fs : list EncodingField) (w : Z) :
  Forall field_ok fs → 0 ≤ w < 2 ^ 32 → extractOperand fs w = Ret (gather fs w).
Proof.
  intros HF Hw. unfold extractOperand, gather. generalize 0 as t.
  induction HF as [| f fs (?&?&?&?&?) HF IH]; intros t; [reflexivity |].
  cbn [foldl]. rewrite outcome_bind_ret, fieldFromInstruction_getfield by lia. apply IH.
Qed.

Lemma gather_ext (fs : list EncodingField) (w w' : Z) :
  Forall (λ f, getfield (Base f) (Width f) w = getfield (Base f) (Width f) w') fs →
  gather fs w = gather fs w'.
Proof.
  intros HF. unfold gather. generalize 0 as t.
  induction HF as [| f fs Hf HF IH]; intros t; [reflexivity |]. cbn [foldl]. rewrite Hf. apply IH.
Qed.

Definition all_disjoint (fs gs : list EncodingField) : Prop :=
  Forall (λ f, Forall (fields_disjoint f) gs) fs.

Lemma gather_insert_ne (fs gs : list EncodingField) (v w : Z) :
  Forall field_ok fs → Forall field_ok gs → all_disjoint gs fs →
  gather fs (insertOperand gs v w) = gather fs w.
Proof.
  intros Hf Hg Hd. apply gather_ext, Forall_forall. intros f Hin.
  rewrite Forall_forall in Hf. destruct (Hf f Hin) as (?&?&?&?&?).
  apply getfield_insertOperand_ne; try lia.
  apply Forall_forall. intros g Hgin. rewrite Forall_forall in Hg. split; [exact (Hg g Hgin) |].
  unfold all_disjoint in Hd. rewrite Forall_forall in Hd.
  specialize (Hd g Hgin). rewrite Forall_forall in Hd. specialize (Hd f Hin).
  unfold fields_disjoint in *. cbn. lia.
Qed.

(** Slices of one operand that do not overlap read back what was put in. *)
Lemma gather_insert (fs : list EncodingField) (v w : Z) :
  Forall field_ok fs → ForallOrdPairs fields_disjoint fs →
  gather fs (insertOperand fs v w) = project fs v.
Proof.
  intros Hf Hd.
  enough (HE : Forall (λ f, getfield (Base f) (Width f) (insertOperand fs v w) =
                            uint (Width f) (Z.shiftr v (Offset f))) fs).
  { unfold gather, project. generalize (insertOperand fs v w) as w', 0 as t, HE. clear.
    intros w' t HE. revert t. induction HE as [| f fs Hf HE IH]; intros t; [reflexivity |].
    cbn [foldl]. rewrite Hf. apply IH. }
  revert w. induction Hd as [| f fs Hd1 Hd IH]; intros w; [constructor |].
  apply Forall_cons in Hf as [(?&?&?&?&?) Hf]. constructor.
  - change (insertOperand (f :: fs) v w)
      with (insertOperand fs v (setfield (Base f) (Width f) (Z.shiftr v (Offset f)) w)).
    rewrite getfield_insertOperand_ne; [apply getfield_setfield; lia | lia | lia |].
    apply Forall_forall. intros g Hg. rewrite Forall_forall in Hf. split; [exact (Hf g Hg) |].
    rewrite List.Forall_forall in Hd1. apply list_elem_of_In, Hd1 in Hg.
    unfold fields_disjoint in *. cbn. lia.
  - apply IH, Hf.
Qed.
