(* ===== verification/NyuziCodec.v ===== *)
(** * NyuziCodec: the emitter and the disassembler agree

    The interface between NyuziEmitter.v and NyuziDisassembler.v is one class,
    [OperandCodec]: the bits the encoder method of an operand kind produces
    decode, through the slices of the format, to the operand the class says the
    disassembler sees.  The instances discharge it for every kind; the
    instruction-level theorems only use the class. *)
From S2P Require Import Prelude MathExtras NyuziTarget NyuziFormats NyuziEmitter.
From S2P Require Import NyuziFixups NyuziLinker NyuziDisassembler.

(** Width of the offset of a memory operand: its first slice. *)
Definition op_width (fs : list EncodingField) : Z := match fs with f :: _ => Width f | [] => 0 end.

(** [v] is a signed (unsigned) [N]-bit value. *)
Definition in_sint (N v : Z) : bool := (- 2 ^ (N - 1) <=? v) && (v <? 2 ^ (N - 1)).
Definition in_uint (N v : Z) : bool := (0 <=? v) && (v <? 2 ^ N).

(** The operands the encoder accepts without a fixup, kind by kind. *)
Definition op_valid (k : OperandKind) (fs : list EncodingField) (group : list MCOperand) : bool :=
  match k, group with
  | OpReg rc, [kRegister r] => Nyuzi.contains rc r
  | OpMem rc, [kRegister r; kImmediate v] => Nyuzi.contains rc r && in_sint (op_width fs) v
  | OpSimm9, [kImmediate v] => in_sint 9 v
  | OpSimm14, [kImmediate v] => in_sint 14 v
  | OpSimm19, [kImmediate v] => in_uint 19 v
  | OpBranch20, [kImmediate v] => in_sint 20 v
  | OpBranch25, [kImmediate v] => in_sint 25 v
  | _, _ => false
  end.

(** What the disassembler reports: a memory offset is sign-extended from 15 bits
    whatever its width, a branch target is scaled by 4. *)
Definition op_seen (k : OperandKind) (fs : list EncodingField) (group : list MCOperand) : list MCOperand :=
  match k, group with
  | OpMem _, [b; kImmediate v] => [b; kImmediate (sint 15 (uint (op_width fs) v))]
  | OpBranch20, [kImmediate v] | OpBranch25, [kImmediate v] => [kImmediate (4 * v)]
  | _, _ => group
  end.

(** [Inst] with operands appended. *)
Definition addOperands (MI : MCInst) (l : list MCOperand) : MCInst := mkMCInst (Opcode MI) (Operands MI ++ l).

(** Where an operand of a kind stands: the memory operand methods read fixed
    indices. *)
Definition kind_pos (opc : Nyuzi.opcode) (k : OperandKind) (i : Z) : bool :=
  match k with OpMem _ => (i =? 1) && bool_decide (opc ≠ Nyuzi.STORE_SYNC) | _ => true end.

Class OperandCodec (k : OperandKind) (fs : list EncodingField) : Prop := {
  codec_fields : Forall field_ok fs ∧ ForallOrdPairs fields_disjoint fs;
  codec_size : ∀ group, op_valid k fs group = true → Z.of_nat (length group) = operandSize k;
  codec_roundtrip : ∀ group, op_valid k fs group = true → ∃ bits,
    (∀ MI pre post F, Operands MI = pre ++ group ++ post →
       kind_pos (Opcode MI) k (Z.of_nat (length pre)) = true →
       encodeOperand MI k (Z.of_nat (length pre)) F = Ret (bits, F)) ∧
    (∀ MI addr, decodeOperand None k MI (project fs bits) addr =
       Ret (Success, addOperands MI (op_seen k fs group)))
}.

Lemma getOperand_app (MI : MCInst) (pre post : list MCOperand) (x : MCOperand) (j : nat) :
  Operands MI = pre ++ x :: post → j = length pre → getOperand MI (Z.of_nat j) = Ret x.
Proof.
  intros H ->. unfold getOperand. rewrite H. apply at_index_lookup.
  rewrite lookup_app_r, Nat.sub_diag by lia. reflexivity.
Qed.

(** A register of a class is decoded from its five bits. *)
Lemma reg_bits (rc : Nyuzi.regclass) (r : Nyuzi.reg) :
  Nyuzi.contains rc r = true →
  ∃ n, (n < 32)%nat ∧ Nyuzi.getRegClass rc !! n = Some r ∧ Nyuzi.getEncodingValue r = Ret (Z.of_nat n).
Proof.
  intros H. apply contains_lookup in H as (n & Hn & Hr). exists n.
  split; [exact Hn |]. split; [exact Hr |]. apply (getRegClass_encoding rc n r Hr).
Qed.

Lemma project_one (b w v : Z) : 0 ≤ w ≤ 32 → project [mkField b w 0] v = uint w v.
Proof. intros H. unfold project. cbn. bitwise. Qed.

Lemma project_two (b w v : Z) :
  0 ≤ w ≤ 27 → project [mkField b w 5; mkField 0 5 0] v = uint (w + 5) v.
Proof. intros H. unfold project. cbn. bitwise. Qed.

Lemma one_field (b w : Z) :
  0 ≤ b → 0 < w → b + w ≤ 32 → Forall field_ok [mkField b w 0] ∧ ForallOrdPairs fields_disjoint [mkField b w 0].
Proof.
  intros. split; [repeat constructor; cbn; lia |]. repeat constructor.
Qed.

Lemma two_fields (b w : Z) :
  5 ≤ b → 0 < w ≤ 27 → b + w ≤ 32 →
  Forall field_ok [mkField b w 5; mkField 0 5 0] ∧ ForallOrdPairs fields_disjoint [mkField b w 5; mkField 0 5 0].
Proof.
  intros. split; [repeat constructor; cbn; lia |].
  constructor; [constructor; [right; cbn; lia | constructor] | repeat constructor].
Qed.

(** Case analysis on a valid group of one or two operands. *)
Ltac valid_group :=
  repeat match goal with
         | g : list MCOperand |- _ => destruct g as [| [] g]; cbn in *; try discriminate
         end.

#[export] Instance codec_reg (rc : Nyuzi.regclass) (b : Z) (Hb : TCEq (bool_decide (0 ≤ b ≤ 27)) true) :
  OperandCodec (OpReg rc) [mkField b 5 0].
Proof.
  apply TCEq_eq, bool_decide_eq_true in Hb. constructor.
  - apply one_field; lia.
  - intros group H. valid_group; try (destruct group; discriminate); reflexivity.
  - intros group H. destruct group as [| [| r | |] []]; try discriminate.
    destruct (reg_bits rc r H) as (n & Hn & Hr & He). exists (Z.of_nat n). split.
    + intros MI pre post F HO _. cbn. rewrite (getOperand_app _ _ _ _ _ HO eq_refl). cbn. rewrite He. reflexivity.
    + intros MI addr. rewrite project_one, uint_small by lia.
      cbn. destruct rc; unfold DecodeGPR32RegisterClass, DecodeVR512RegisterClass;
        (destruct (Z.gtb_spec (Z.of_nat n) 31); [lia |]);
        rewrite (getRegNo_lookup _ _ _ Hr); reflexivity.
Qed.

(** The immediate kinds: one operand [kImmediate v], its low bits in one or two
    slices. *)
Lemma imm_operand (MI : MCInst) (pre post : list MCOperand) (v : Z) (F : Fixups_t) :
  Operands MI = pre ++ [kImmediate v] ++ post →
  (getOperand MI (Z.of_nat (length pre)) ≫= λ MO, getMachineOpValue MO F) = Ret (u32 v, F).
Proof. intros H. rewrite (getOperand_app _ _ _ _ _ H eq_refl). reflexivity. Qed.

Lemma in_sint_spec (N v : Z) : in_sint N v = true ↔ - 2 ^ (N - 1) ≤ v < 2 ^ (N - 1).
Proof. unfold in_sint. rewrite andb_true_iff, Z.leb_le, Z.ltb_lt. reflexivity. Qed.

Lemma in_uint_spec (N v : Z) : in_uint N v = true ↔ 0 ≤ v < 2 ^ N.
Proof. unfold in_uint. rewrite andb_true_iff, Z.leb_le, Z.ltb_lt. reflexivity. Qed.

Lemma SignExtend32_low (N v : Z) :
  0 < N ≤ 32 → in_sint N v = true → SignExtend32 N (uint N (u32 v)) = v.
Proof.
  intros HN Hv. apply in_sint_spec in Hv. rewrite SignExtend32_sint, sint_uint by exact HN.
  transitivity (sint N v); [| apply sint_small; lia].
  apply uint_eq_sint. rewrite uint_uint_le by lia. reflexivity.
Qed.

#[export] Instance codec_simm9 : OperandCodec OpSimm9 F_imm9.
Proof.
  constructor; [apply one_field; lia | intros group H; valid_group; try (destruct group; discriminate); reflexivity |].
  intros group H. destruct group as [| [| | v |] []]; try discriminate. exists (u32 v). split.
  - intros. apply (imm_operand MI pre post). assumption.
  - intros. unfold F_imm9. rewrite project_one by lia. cbn -[SignExtend32 uint].
    unfold decodeSimm9Value. rewrite (SignExtend32_low 9 v) by (lia || exact H). reflexivity.
Qed.

#[export] Instance codec_simm14 : OperandCodec OpSimm14 F_imm14.
Proof.
  constructor; [apply one_field; lia | intros group H; valid_group; try (destruct group; discriminate); reflexivity |].
  intros group H. destruct group as [| [| | v |] []]; try discriminate. exists (u32 v). split.
  - intros. apply (imm_operand MI pre post). assumption.
  - intros. unfold F_imm14. rewrite project_one by lia. cbn -[SignExtend32 uint].
    unfold decodeSimm14Value. rewrite (SignExtend32_low 14 v) by (lia || exact H). reflexivity.
Qed.

#[export] Instance codec_simm19 : OperandCodec OpSimm19 F_imm19.
Proof.
  constructor; [apply two_fields; lia | intros group H; valid_group; try (destruct group; discriminate); reflexivity |].
  intros group H. destruct group as [| [| | v |] []]; try discriminate. exists (u32 v). split.
  - intros. apply (imm_operand MI pre post). assumption.
  - intros. unfold F_imm19. rewrite project_two by lia. cbn -[uint].
    apply in_uint_spec in H. unfold decodeSimm19Value. rewrite (uint_uint_le 19 32), uint_small by lia.
    reflexivity.
Qed.

(** The branch kinds: the immediate is encoded as it is and decoded scaled. *)
Lemma branch_imm (N v : Z) : 0 < N ≤ 25 → in_sint N v = true → i32 (SignExtend32 N (uint N (u32 v)) * 4) = 4 * v.
Proof.
  intros HN Hv. rewrite SignExtend32_low by (lia || exact Hv). apply in_sint_spec in Hv.
  pose proof (Z.pow_le_mono_r 2 (N - 1) 24 ltac:(lia) ltac:(lia)).
  rewrite sint_small; lia.
Qed.

#[export] Instance codec_branch20 : OperandCodec OpBranch20 F_dest20.
Proof.
  constructor; [apply one_field; lia | intros group H; valid_group; try (destruct group; discriminate); reflexivity |].
  intros group H. destruct group as [| [| | v |] []]; try discriminate. exists (u32 v). split.
  - intros MI pre post F HO _. cbn. unfold encodeBranchTargetOpValue20.
    rewrite (getOperand_app _ _ _ _ _ HO eq_refl). reflexivity.
  - intros. unfold F_dest20. rewrite project_one by lia. cbn -[SignExtend32 uint sint op_seen].
    unfold decodeBranchTargetOpValue20. rewrite (branch_imm 20 v) by (lia || exact H). reflexivity.
Qed.

#[export] Instance codec_branch25 : OperandCodec OpBranch25 F_dest25.
Proof.
  constructor; [apply one_field; lia | intros group H; valid_group; try (destruct group; discriminate); reflexivity |].
  intros group H. destruct group as [| [| | v |] []]; try discriminate. exists (u32 v). split.
  - intros MI pre post F HO _. cbn. unfold encodeBranchTargetOpValue25.
    rewrite (getOperand_app _ _ _ _ _ HO eq_refl). reflexivity.
  - intros. unfold F_dest25. rewrite project_one by lia. cbn -[SignExtend32 uint sint op_seen].
    unfold decodeBranchTargetOpValue25. rewrite (branch_imm 25 v) by (lia || exact H). reflexivity.
Qed.

(** The memory kind: the packed register and offset, with an offset of [w] bits. *)
Lemma mem_bits (n : nat) (w v : Z) :
  (n < 32)%nat → 0 < w ≤ 15 → - 2 ^ (w - 1) ≤ v < 2 ^ (w - 1) →
  let m := uint (w + 5) (Z.lor (Z.of_nat n) (u32 (Z.shiftl (i16 v) 5))) in
  uint 5 m = Z.of_nat n ∧ uint 15 (Z.shiftr m 5) = uint w v.
Proof.
  intros Hn Hw Hv m. pose proof (Z.pow_le_mono_r 2 (w - 1) 15 ltac:(lia) ltac:(lia)).
  assert (E : Z.of_nat n = uint 5 (Z.of_nat n)) by (symmetry; apply uint_small; lia).
  unfold m. rewrite (sint_small 16) by lia. split.
  - rewrite E at 2. rewrite E. bitwise.
  - rewrite E. bitwise.
Qed.

#[export] Instance codec_mem (rc : Nyuzi.regclass) (b w : Z)
    (Hb : TCEq (bool_decide (5 ≤ b ∧ b + w ≤ 32 ∧ 0 < w ≤ 15)) true) :
  OperandCodec (OpMem rc) [mkField b w 5; mkField 0 5 0].
Proof.
  apply TCEq_eq, bool_decide_eq_true in Hb. constructor.
  - apply two_fields; lia.
  - intros group H. valid_group; try (destruct group; discriminate); reflexivity.
  - intros group H. destruct group as [| [| r | |] [| [| | v |] []]]; try discriminate.
    apply andb_true_iff in H as [Hr Hv]. apply in_sint_spec in Hv. cbn [op_width Width] in Hv.
    destruct (reg_bits rc r Hr) as (n & Hn & Hl & He).
    destruct (mem_bits n w v Hn ltac:(lia) Hv) as [E1 E2].
    exists (Z.lor (Z.of_nat n) (u32 (Z.shiftl (i16 v) 5))). split.
    + intros MI pre post F HO HP. cbn [kind_pos] in HP. apply andb_true_iff in HP as [Hi Hop].
      apply Z.eqb_eq in Hi. apply bool_decide_eq_true in Hop.
      cbn [encodeOperand]. unfold encodeMemoryOpValue. rewrite decide_False by exact Hop.
      assert (G1 : getOperand MI 1 = Ret (kRegister r))
        by (apply (getOperand_app MI pre _ _ 1 HO); lia).
      assert (G2 : getOperand MI 2 = Ret (kImmediate v)).
      { apply (getOperand_app MI (pre ++ [kRegister r]) post _ 2).
        - rewrite HO, <- app_assoc. reflexivity.
        - rewrite length_app. cbn. lia. }
      rewrite G1, G2. cbn. rewrite He. reflexivity.
    + intros MI addr. rewrite project_two by lia.
      assert (HD : decodeMemoryOpValue MI (uint (w + 5) (Z.lor (Z.of_nat n) (u32 (Z.shiftl (i16 v) 5)))) addr rc =
        Ret (Success, addOperands MI [kRegister r; kImmediate (sint 15 (uint w v))])).
      { unfold decodeMemoryOpValue. rewrite !fieldFromInstruction_uint by lia.
        pose proof (Z.pow_le_mono_r 2 (w + 5) 32 ltac:(lia) ltac:(lia)).
        rewrite (uint_small 32) by (pose proof (uint_range (w + 5) (Z.lor (Z.of_nat n) (u32 (Z.shiftl (i16 v) 5)))); lia).
        rewrite Z.shiftr_0_r, outcome_bind_ret, E1, E2. rewrite outcome_bind_ret.
        rewrite (getRegNo_lookup _ _ _ Hl), outcome_bind_ret, SignExtend32_sint by lia.
        unfold addOperands, addOperand. cbn [Opcode Operands]. rewrite <- app_assoc. reflexivity. }
      destruct rc; exact HD.
Qed.

(** ** Instructions *)

Fixpoint operands_ok (opc : Nyuzi.opcode) (ops : list OperandInfo) (i : Z) (l : list MCOperand) : bool :=
  match ops with
  | [] => bool_decide (l = [])
  | op :: ops' =>
      let n := Z.to_nat (operandSize (Kind op)) in
      op_valid (Kind op) (Fields op) (take n l) && kind_pos opc (Kind op) i
      && operands_ok opc ops' (i + operandSize (Kind op)) (drop n l)
  end.

Fixpoint operands_seen (ops : list OperandInfo) (l : list MCOperand) : list MCOperand :=
  match ops with
  | [] => []
  | op :: ops' =>
      let n := Z.to_nat (operandSize (Kind op)) in
      op_seen (Kind op) (Fields op) (take n l) ++ operands_seen ops' (drop n l)
  end.

(** The instructions the emitter encodes without a fixup: the operands the
    format asks for, each in its range. *)
Definition inst_valid (MI : MCInst) : bool :=
  match InstrFormats (Opcode MI) with
  | Some f => operands_ok (Opcode MI) (OperandList f) 0 (Operands MI)
  | None => false
  end.

Definition inst_seen (MI : MCInst) : MCInst :=
  match InstrFormats (Opcode MI) with
  | Some f => mkMCInst (Opcode MI) (operands_seen (OperandList f) (Operands MI))
  | None => MI
  end.

(** The fixed bits of a format, as the decoder table tests them. *)
Definition matches_fixed (f : InstFormat) (w : Z) : bool :=
  forallb (λ '(b, s, v), getfield b s w =? v) (Fixed f).

(** Opcodes whose operands the disassembler does not print as they were written. *)
Definition branch_or_masked (opc : Nyuzi.opcode) : bool :=
  bool_decide (opc ∈ [Nyuzi.B; Nyuzi.BZ; Nyuzi.BNZ; Nyuzi.CALLSYM;
                      Nyuzi.INT_BLOCK_LOADI_MASKED; Nyuzi.INT_BLOCK_STOREI_MASKED]).

(** What every format of [InstrFormats] satisfies. *)
Definition fixed_field (x : Z * Z * Z) : EncodingField := let '(b, s, _) := x in mkField b s 0.

Record format_ok (f : InstFormat) : Prop := {
  fo_codecs : Forall (λ op, OperandCodec (Kind op) (Fields op)) (OperandList f);
  fo_disjoint : ForallOrdPairs (λ a b, all_disjoint (Fields b) (Fields a)) (OperandList f);
  fo_fixed : Forall (λ op, all_disjoint (Fields op) (map fixed_field (Fixed f))) (OperandList f);
  fo_fixed_ok : Forall (λ x, field_ok (fixed_field x)) (Fixed f);
  fo_base : matches_fixed f (fixedBits (Fixed f)) = true
}.

Ltac solve_disjoint :=
  repeat match goal with
         | |- Forall _ _ => constructor
         | |- List.Forall _ _ => constructor
         | |- ForallOrdPairs _ _ => constructor
         | |- all_disjoint _ _ => unfold all_disjoint; cbn
         end;
  unfold fields_disjoint; cbn; lia.

Ltac solve_codecs :=
  cbn; repeat (constructor; [cbn [Kind Fields GPR VR]; typeclasses eauto |]); constructor.

Lemma InstrFormats_ok (opc : Nyuzi.opcode) (f : InstFormat) : InstrFormats opc = Some f → format_ok f.
Proof.
  intros H. destruct opc; try discriminate; injection H as <-;
    (split; [solve_codecs | cbn; solve_disjoint | cbn; solve_disjoint
            | cbn; repeat constructor; cbn; lia | reflexivity]).
Qed.

Lemma gather_disjoint_fixed (f : InstFormat) (v w : Z) (fs : list EncodingField) :
  Forall field_ok fs → Forall (λ x, field_ok (fixed_field x)) (Fixed f) →
  all_disjoint fs (map fixed_field (Fixed f)) →
  matches_fixed f w = true → matches_fixed f (insertOperand fs v w) = true.
Proof.
  intros Hfs Hok Hd. unfold matches_fixed. rewrite !forallb_forall. intros H [[b s] x] Hin.
  specialize (H _ Hin). cbn in H |- *. rewrite getfield_insertOperand_ne; [exact H | | |].
  1, 2: rewrite Forall_forall in Hok; destruct (Hok _ (proj2 (list_elem_of_In _ _) Hin)) as (?&?&?&?&?); cbn in *; lia.
  apply Forall_forall. intros g Hg. rewrite Forall_forall in Hfs. split; [exact (Hfs g Hg) |].
  unfold all_disjoint in Hd. rewrite Forall_forall in Hd. specialize (Hd g Hg).
  rewrite Forall_forall in Hd. specialize (Hd (mkField b s 0)). apply Hd.
  apply list_elem_of_In. apply (in_map fixed_field) in Hin. exact Hin.
Qed.

(** The operand loop: the word it returns decodes, operand by operand, to the
    operands the codecs promise; slices outside the operands and the fixed bits
    stay as they were. *)
Lemma encodeOperands_decode (f : InstFormat) (MI : MCInst) (F : Fixups_t) (ops : list OperandInfo) :
  Forall (λ op, OperandCodec (Kind op) (Fields op)) ops →
  ForallOrdPairs (λ a b, all_disjoint (Fields b) (Fields a)) ops →
  Forall (λ op, all_disjoint (Fields op) (map fixed_field (Fixed f))) ops →
  Forall (λ x, field_ok (fixed_field x)) (Fixed f) →
  ∀ pre rest W, Operands MI = pre ++ rest → operands_ok (Opcode MI) ops (Z.of_nat (length pre)) rest = true →
  0 ≤ W < 2 ^ 32 → matches_fixed f W = true → ∃ W',
    encodeOperands MI ops (Z.of_nat (length pre)) W F = Ret (W', F) ∧
    0 ≤ W' < 2 ^ 32 ∧ matches_fixed f W' = true ∧
    (∀ fs, Forall field_ok fs → Forall (λ op, all_disjoint (Fields op) fs) ops → gather fs W' = gather fs W) ∧
    (∀ MI0 addr, decodeOperands None ops MI0 W' addr = Ret (Success, addOperands MI0 (operands_seen ops rest))).
Proof.
  intros HC HD HX Hfix. induction ops as [| op ops IH]; intros pre rest W HO Hok HW HM.
  { exists W. split; [reflexivity |]. split; [exact HW |]. split; [exact HM |]. split; [reflexivity |].
    intros MI0 addr. unfold addOperands. cbn. rewrite app_nil_r. destruct MI0. reflexivity. }
  apply Forall_cons in HC as [HC1 HC]. apply Forall_cons in HX as [HX1 HX].
  inversion HD as [| ? ? HD1 HD']; subst. clear HD.
  cbn [operands_ok] in Hok. set (n := Z.to_nat (operandSize (Kind op))) in *.
  apply andb_true_iff in Hok as [Hok Hok']. apply andb_true_iff in Hok as [Hv Hp].
  destruct codec_fields as [Hff Hfd].
  destruct (codec_roundtrip _ Hv) as (bits & Henc & Hdec).
  pose proof (codec_size _ Hv) as Hsz.
  assert (HO' : Operands MI = pre ++ take n rest ++ drop n rest) by (rewrite take_drop; exact HO).
  specialize (Henc MI pre (drop n rest) F HO' Hp).
  destruct (IH HC HD' HX (pre ++ take n rest) (drop n rest) (insertOperand (Fields op) bits W))
    as (W' & HE & HW' & HM' & Hframe & Hd).
  - rewrite <- app_assoc. exact HO'.
  - rewrite length_app, Nat2Z.inj_add, Hsz. exact Hok'.
  - apply insertOperand_range; assumption.
  - apply gather_disjoint_fixed; assumption.
  - rewrite length_app, Nat2Z.inj_add, Hsz in HE.
    exists W'. split; [| split; [exact HW' |]; split; [exact HM' |]; split].
    + cbn [encodeOperands]. rewrite Henc, outcome_bind_ret. exact HE.
    + intros fs Hfs Hds. apply Forall_cons in Hds as [Hds1 Hds].
      rewrite (Hframe fs Hfs Hds). apply gather_insert_ne; assumption.
    + intros MI0 addr. cbn [decodeOperands]. rewrite extractOperand_gather by assumption.
      rewrite Hframe by assumption.
      rewrite outcome_bind_ret, gather_insert, Hdec, outcome_bind_ret by assumption.
      cbn [decide]. rewrite decide_False by discriminate. rewrite Hd.
      unfold addOperands. cbn [Opcode Operands operands_seen]. rewrite <- app_assoc. reflexivity.
Qed.

(** The word the generated encoder returns for a valid instruction. *)
Lemma formatBinaryCode_valid (MI : MCInst) (F : Fixups_t) :
  inst_valid MI = true → ∃ f w,
    InstrFormats (Opcode MI) = Some f ∧ formatBinaryCode MI F = Ret (w, F) ∧
    0 ≤ w < 2 ^ 32 ∧ matches_fixed f w = true ∧
    ∀ addr, decodeOperands None (OperandList f) (mkMCInst (Opcode MI) []) w addr = Ret (Success, inst_seen MI).
Proof.
  unfold inst_valid, inst_seen, formatBinaryCode.
  destruct (InstrFormats (Opcode MI)) as [f |] eqn:Hf; [| discriminate]. intros Hok.
  destruct (InstrFormats_ok _ _ Hf) as [HC HD HX Hfix HM].
  assert (HW : 0 ≤ fixedBits (Fixed f) < 2 ^ 32).
  { apply fixedBits_range. eapply Forall_impl; [exact Hfix |].
    intros [[b s] v] (?&?&?&?&?). cbn in *. lia. }
  destruct (encodeOperands_decode f MI F _ HC HD HX Hfix [] (Operands MI) _ eq_refl Hok HW HM)
    as (w & HE & Hw & HMw & _ & Hd).
  exists f, w. split; [reflexivity |]. split; [exact HE |]. split; [exact Hw |]. split; [exact HMw |].
  intros addr. apply Hd.
Qed.

(** The operand of a plain format is seen as it was written. *)
Definition plain_operand (op : OperandInfo) : bool :=
  match Kind op with
  | OpMem _ => op_width (Fields op) =? 15
  | OpBranch20 | OpBranch25 => false
  | _ => true
  end.

Lemma op_seen_plain (op : OperandInfo) (group : list MCOperand) :
  plain_operand op = true → op_valid (Kind op) (Fields op) group = true →
  op_seen (Kind op) (Fields op) group = group.
Proof.
  unfold plain_operand. destruct (Kind op); try discriminate; try reflexivity.
  intros Hw Hv. apply Z.eqb_eq in Hw.
  destruct group as [| [| r | |] [| [| | v |] []]]; try discriminate Hv.
  cbn [op_valid op_seen] in *. apply andb_true_iff in Hv as [_ Hv]. rewrite Hw in *.
  apply in_sint_spec in Hv. rewrite sint_uint, sint_small by lia. reflexivity.
Qed.

Lemma operands_seen_plain (opc : Nyuzi.opcode) (ops : list OperandInfo) (i : Z) (l : list MCOperand) :
  forallb plain_operand ops = true → operands_ok opc ops i l = true → operands_seen ops l = l.
Proof.
  revert i l. induction ops as [| op ops IH]; intros i l Hp Hok; cbn in *.
  - apply bool_decide_eq_true in Hok. congruence.
  - apply andb_true_iff in Hp as [Hp Hps]. apply andb_true_iff in Hok as [Hok Hok'].
    apply andb_true_iff in Hok as [Hv _].
    rewrite op_seen_plain, (IH _ _ Hps Hok'), take_drop by assumption. reflexivity.
Qed.

Lemma inst_seen_plain (MI : MCInst) :
  branch_or_masked (Opcode MI) = false → inst_valid MI = true → inst_seen MI = MI.
Proof.
  unfold inst_valid, inst_seen. destruct (InstrFormats (Opcode MI)) as [f |] eqn:Hf; [| discriminate].
  intros Hb Hok. rewrite (operands_seen_plain (Opcode MI) (OperandList f) 0); [destruct MI; reflexivity | | exact Hok].
  clear Hok. destruct (Opcode MI); try discriminate; injection Hf as <-; reflexivity.
Qed.

(** ** Branches: emitter, fixup, disassembler *)

(** A direct branch or call with target operand [MO]; the conditional branches
    test register [r]. *)
Definition branch_inst (opc : Nyuzi.opcode) (r : Nyuzi.reg) (MO : MCOperand) : MCInst :=
  mkMCInst opc (match opc with Nyuzi.BZ | Nyuzi.BNZ => [kRegister r; MO] | _ => [MO] end).

Definition is_direct_branch (opc : Nyuzi.opcode) : bool :=
  match opc with Nyuzi.B | Nyuzi.CALLSYM | Nyuzi.BZ | Nyuzi.BNZ => true | _ => false end.

Definition branch_fixup (opc : Nyuzi.opcode) : Z :=
  match opc with Nyuzi.BZ | Nyuzi.BNZ => Nyuzi.fixup_Nyuzi_Branch20 | _ => Nyuzi.fixup_Nyuzi_Branch25 end.

Definition branch_bits (opc : Nyuzi.opcode) : Z := match opc with Nyuzi.BZ | Nyuzi.BNZ => 20 | _ => 25 end.

(** The base of the target field. *)
Definition branch_base (opc : Nyuzi.opcode) : Z := match opc with Nyuzi.BZ | Nyuzi.BNZ => 5 | _ => 0 end.

(** The word of a branch is its field put into the rest; an expression puts in
    zero and records the fixup. *)
Lemma formatBinaryCode_branch (opc : Nyuzi.opcode) (r : Nyuzi.reg) :
  is_direct_branch opc = true → Nyuzi.contains Nyuzi.GPR32RegClass r = true →
  ∃ W, 0 ≤ W < 2 ^ 32 ∧
    (∀ v F, formatBinaryCode (branch_inst opc r (kImmediate v)) F =
       Ret (setfield (branch_base opc) (branch_bits opc) (u32 v) W, F)) ∧
    (∀ e F, formatBinaryCode (branch_inst opc r (kExpr e)) F =
       Ret (setfield (branch_base opc) (branch_bits opc) 0 W, F ++ [mkMCFixup 0 e (branch_fixup opc)])).
Proof.
  intros Hb Hr. destruct (reg_bits _ _ Hr) as (n & Hn & _ & He).
  destruct opc; try discriminate Hb;
    [exists (fixedBits (BranchInst BT_Uncond)) | | | exists (fixedBits (BranchInst BT_Call))].
  1, 4: split; [vm_compute; split; [discriminate | reflexivity] |];
    (split; intros; [rewrite <- (Z.shiftr_0_r (u32 _)) at 1 | ]; reflexivity).
  1: exists (insertOperand F_src1 (Z.of_nat n) (fixedBits (BranchInst BT_IfZero))).
  2: exists (insertOperand F_src1 (Z.of_nat n) (fixedBits (BranchInst BT_IfNotZero))).
  all: (split; [apply insertOperand_range;
        [repeat constructor; cbn; lia | apply fixedBits_range; repeat constructor; lia] |]).
  all: split; intros;
    match goal with |- formatBinaryCode _ _ = Ret (setfield ?b ?s ?v (insertOperand ?fs _ ?w), ?F') =>
      transitivity (Nyuzi.getEncodingValue r ≫= λ e, Ret (setfield b s v (insertOperand fs e w), F'))
    end; try (rewrite He; reflexivity).
  all: unfold formatBinaryCode; cbn -[uint setfield fixedBits Nyuzi.getEncodingValue Z.to_nat].
  all: change (Z.to_nat 0) with 0%nat; cbn -[uint setfield fixedBits Nyuzi.getEncodingValue];
    destruct (Nyuzi.getEncodingValue r); reflexivity.
Qed.

Lemma branch_inst_valid (opc : Nyuzi.opcode) (r : Nyuzi.reg) (v : Z) :
  is_direct_branch opc = true → Nyuzi.contains Nyuzi.GPR32RegClass r = true → in_sint (branch_bits opc) v = true →
  inst_valid (branch_inst opc r (kImmediate v)) = true ∧
  inst_seen (branch_inst opc r (kImmediate v)) = branch_inst opc r (kImmediate (4 * v)).
Proof.
  intros Hb Hr Hv. destruct opc; try discriminate Hb; unfold inst_valid; cbn in Hv |- *;
    change (Z.to_nat 1) with 1%nat; cbn; rewrite ?Hr, ?Hv; split; reflexivity.
Qed.

Lemma Z2Nat_pred_of_nat (n : nat) : Z.to_nat (Z.of_nat n - 1) = (n - 1)%nat.
Proof. lia. Qed.

(** ** Properties *)

(** C15. The disassembler inverts the emitter: an instruction of the modelled
    formats whose operands are in range is encoded without a fixup into a
    four-byte little-endian word that carries the fixed bits of its format, and
    [getInstruction] on these bytes succeeds with size 4 and the operands of
    [inst_seen]: those of the instruction, but for branches, whose targets are
    scaled by 4, and for masked block accesses, whose offsets may be others.  That
    the word has the opcode of the instruction is a hypothesis on the generated
    decoder table, which is given the word. *)
Theorem disassemble_encode (MI : MCInst) (OS rest : list Z) (F : Fixups_t) :
  inst_valid MI = true → ∃ f w,
    InstrFormats (Opcode MI) = Some f ∧
    encodeInstruction formatBinaryCode MI OS F = Ret (OS ++ le_bytes 4 w, F) ∧
    0 ≤ w < 2 ^ 32 ∧ matches_fixed f w = true ∧
    (∀ selectOpcode instr Size Address, selectOpcode w = Some (Opcode MI) →
       getInstruction selectOpcode None instr Size (le_bytes 4 w ++ rest) Address
       = Ret (Success, 4, inst_seen MI)) ∧
    (branch_or_masked (Opcode MI) = false → inst_seen MI = MI).
Proof.
  intros HV. destruct (formatBinaryCode_valid MI F HV) as (f & w & Hf & HE & Hw & HM & Hd).
  exists f, w. split; [exact Hf |]. split.
  { rewrite (encodeInstruction_bytes _ _ _ _ _ _ HE), uint_small by exact Hw. reflexivity. }
  split; [exact Hw |]. split; [exact HM |]. split; [| intros Hb; apply inst_seen_plain; assumption].
  intros sel instr Size Address Hsel. unfold getInstruction.
  rewrite readInstruction32_bytes, outcome_bind_ret, uint_small by exact Hw.
  rewrite decide_False by discriminate. unfold decodeInstruction. rewrite Hsel, Hf, Hd, outcome_bind_ret.
  rewrite decide_False by discriminate. reflexivity.
Qed.

Definition add_sp : MCInst :=
  mkMCInst Nyuzi.ADDISSI [kRegister Nyuzi.SP_REG; kRegister Nyuzi.SP_REG; kImmediate (-64)].

Example disassemble_encode_witness :
  ∃ w, encodeInstruction formatBinaryCode add_sp [] [] = Ret (le_bytes 4 w, []) ∧
    getInstruction (λ _, Some Nyuzi.ADDISSI) None (mkMCInst Nyuzi.B []) 0 (le_bytes 4 w) 0
    = Ret (Success, 4, add_sp).
Proof.
  destruct (disassemble_encode add_sp [] [] [] ltac:(vm_compute; reflexivity))
    as (f & w & _ & HE & _ & _ & Hd & Hs).
  exists w. split; [exact HE |].
  rewrite (Hs ltac:(vm_compute; reflexivity)) in Hd.
  rewrite <- (app_nil_r (le_bytes 4 w)). apply Hd. reflexivity.
Defined.

Definition is_masked_block (opc : Nyuzi.opcode) : bool :=
  match opc with Nyuzi.INT_BLOCK_LOADI_MASKED | Nyuzi.INT_BLOCK_STOREI_MASKED => true | _ => false end.

(** C17. A negative offset of a masked block access does not survive: the encoder
    keeps its ten bits, the disassembler sign-extends fifteen, so [v] is reported
    as [v + 1024]. *)
Theorem masked_offset_disassembled (opc : Nyuzi.opcode) (d b m : Nyuzi.reg) (v : Z) :
  is_masked_block opc = true →
  Nyuzi.contains Nyuzi.VR512RegClass d = true → Nyuzi.contains Nyuzi.GPR32RegClass b = true →
  Nyuzi.contains Nyuzi.GPR32RegClass m = true → - 512 ≤ v < 0 →
  ∃ w, encodeInstruction formatBinaryCode
         (mkMCInst opc [kRegister d; kRegister b; kImmediate v; kRegister m]) [] [] = Ret (le_bytes 4 w, []) ∧
    ∀ selectOpcode instr Size Address, selectOpcode w = Some opc →
      getInstruction selectOpcode None instr Size (le_bytes 4 w) Address =
      Ret (Success, 4, mkMCInst opc [kRegister d; kRegister b; kImmediate (v + 1024); kRegister m]).
Proof.
  intros Ho' Hd Hb Hm Hv. set (MI := mkMCInst opc _).
  assert (Ho : opc = Nyuzi.INT_BLOCK_LOADI_MASKED ∨ opc = Nyuzi.INT_BLOCK_STOREI_MASKED)
    by (destruct opc; try discriminate Ho'; auto).
  assert (HR : in_sint 10 v = true) by (apply in_sint_spec; lia).
  assert (HV : inst_valid MI = true).
  { destruct Ho as [-> | ->]; unfold inst_valid; cbn; change (Z.to_nat 1) with 1%nat;
      change (Z.to_nat 2) with 2%nat; cbn; rewrite Hd, Hb, HR, Hm; reflexivity. }
  assert (HS : inst_seen MI = mkMCInst opc [kRegister d; kRegister b; kImmediate (v + 1024); kRegister m]).
  { assert (E : sint 15 (uint 10 v) = v + 1024).
    { replace (uint 10 v) with (v + 1024); [apply sint_small; lia |].
      rewrite <- (uint_small 10 (v + 1024)) by lia. unfold uint. rewrite <- (Z_mod_plus_full v 1). reflexivity. }
    rewrite <- E. destruct Ho as [-> | ->]; reflexivity. }
  destruct (formatBinaryCode_valid MI [] HV) as (f & w & Hf & HE & Hw & HM & Hdec).
  exists w. split; [rewrite (encodeInstruction_bytes _ _ _ _ _ _ HE), uint_small by exact Hw; reflexivity |].
  intros sel instr Size Address Hsel. unfold getInstruction.
  rewrite <- (app_nil_r (le_bytes 4 w)), readInstruction32_bytes, outcome_bind_ret, uint_small by exact Hw.
  rewrite decide_False by discriminate. unfold decodeInstruction. rewrite Hsel. change opc with (Opcode MI) at 1.
  rewrite Hf. change opc with (Opcode MI) at 1. rewrite Hdec, outcome_bind_ret, HS.
  rewrite decide_False by discriminate. reflexivity.
Qed.

Example masked_offset_disassembled_witness :
  ∃ w, encodeInstruction formatBinaryCode
         (mkMCInst Nyuzi.INT_BLOCK_LOADI_MASKED
            [kRegister (Nyuzi.V 1); kRegister (Nyuzi.S 2); kImmediate (-4); kRegister (Nyuzi.S 3)]) [] []
       = Ret (le_bytes 4 w, []) ∧
    ∀ selectOpcode instr Size Address, selectOpcode w = Some Nyuzi.INT_BLOCK_LOADI_MASKED →
      getInstruction selectOpcode None instr Size (le_bytes 4 w) Address =
      Ret (Success, 4, mkMCInst Nyuzi.INT_BLOCK_LOADI_MASKED
            [kRegister (Nyuzi.V 1); kRegister (Nyuzi.S 2); kImmediate 1020; kRegister (Nyuzi.S 3)]).
Proof.
  apply (masked_offset_disassembled Nyuzi.INT_BLOCK_LOADI_MASKED (Nyuzi.V 1) (Nyuzi.S 2) (Nyuzi.S 3) (-4));
    [vm_compute; reflexivity .. | lia].
Defined.

(** Applying the recorded fixup to an encoded branch gives the branch whose
    immediate is the word distance. *)
Lemma branch_fixup_word (opc : Nyuzi.opcode) (W d : Z) :
  is_direct_branch opc = true → 0 ≤ W < 2 ^ 32 → in_sint (branch_bits opc) d = true →
  applyFixup (branch_fixup opc) 0 (le_bytes 4 (setfield (branch_base opc) (branch_bits opc) 0 W)) (u64 (4 * d))
  = Ret (le_bytes 4 (setfield (branch_base opc) (branch_bits opc) (u32 d) W), []).
Proof.
  intros Hb HW Hd. apply in_sint_spec in Hd.
  assert (Hs : 0 ≤ branch_base opc ∧ 1 ≤ branch_bits opc ≤ 25 ∧ branch_base opc + branch_bits opc ≤ 32)
    by (destruct opc; try discriminate Hb; cbn; lia).
  pose proof (Z.pow_le_mono_r 2 (branch_bits opc - 1) 24 ltac:(lia) ltac:(lia)).
  assert (HI : ∃ Info, getFixupKindInfo (branch_fixup opc) = Ret Info ∧
             TargetSize Info = branch_bits opc ∧ TargetOffset Info = branch_base opc).
  { destruct opc; try discriminate Hb; eexists; (split; [reflexivity |]); split; reflexivity. }
  destruct HI as (Info & HI & Hsz & Hoff).
  assert (HK : branch_fixup opc = Nyuzi.fixup_Nyuzi_Branch20 ∨ branch_fixup opc = Nyuzi.fixup_Nyuzi_Branch25)
    by (destruct opc; auto).
  assert (Hq : Z.quot (i64 (u64 (4 * d))) 4 = d).
  { rewrite sint_uint, sint_small by lia. rewrite Z.mul_comm. apply Z.quot_mul. lia. }
  pose proof (adjust_branch _ (u64 (4 * d)) _ Info HK HI Hsz ltac:(lia)) as HA. rewrite Hq in HA.
  assert (Hc : checkInt d (branch_bits opc) = []) by (apply checkInt_nil; lia). rewrite Hc in HA.
  pose proof (applyFixup_word _ 0 (le_bytes 4 (setfield (branch_base opc) (branch_bits opc) 0 W)) _ _ _ _
    HI ltac:(lia) ltac:(lia) ltac:(lia) HA ltac:(cbn; lia)) as HF.
  etransitivity; [exact HF |]. clear HF HA.
  assert (Hw0 : word_at (le_bytes 4 (setfield (branch_base opc) (branch_bits opc) 0 W)) 0
                = setfield (branch_base opc) (branch_bits opc) 0 W).
  { unfold word_at. rewrite drop_0, take_ge by (cbn; lia). rewrite le_combine_bytes.
    apply uint_small, setfield_range; lia. }
  rewrite Hw0, Hoff. unfold field_mask. rewrite Hsz, Hoff, lor_setfield, setfield_setfield;
    [| lia | lia | lia | lia | rewrite getfield_setfield by lia; reflexivity].
  reflexivity.
Qed.

(** The path of a branch to a symbol: the emitter writes the word with an
    empty target field and records one fixup for the symbol; applying that fixup
    with the distance to the target, then disassembling the bytes at the address
    of the branch, [evaluateBranch] computes the target. *)
Theorem branch_to_symbol (opc : Nyuzi.opcode) (r : Nyuzi.reg) (e : MCExpr) (Address d : Z)
    (OpInfo : Nyuzi.opcode → list OperandType) :
  is_direct_branch opc = true → Nyuzi.contains Nyuzi.GPR32RegClass r = true →
  in_sint (branch_bits opc) d = true →
  OpInfo opc !! (length (Operands (branch_inst opc r (kExpr e))) - 1)%nat = Some OPERAND_UNKNOWN →
  ∃ w w', encodeInstruction formatBinaryCode (branch_inst opc r (kExpr e)) [] []
          = Ret (le_bytes 4 w, [mkMCFixup 0 e (branch_fixup opc)]) ∧
    applyFixup (branch_fixup opc) 0 (le_bytes 4 w) (u64 (4 * d)) = Ret (le_bytes 4 w', []) ∧
    ∀ selectOpcode instr Size, selectOpcode w' = Some opc →
      ∃ MI, getInstruction selectOpcode None instr Size (le_bytes 4 w') Address = Ret (Success, 4, MI) ∧
        evaluateBranch OpInfo MI Address 4 = Ret (Some (u64 (Address + 4 * d))).
Proof.
  intros Hb Hr Hd HO. destruct (formatBinaryCode_branch opc r Hb Hr) as (W & HW & HI & HE).
  set (base := branch_base opc) in *. set (bits := branch_bits opc) in *.
  assert (Hs : 0 ≤ base ∧ 0 < bits ∧ base + bits ≤ 32) by (destruct opc; try discriminate Hb; cbn; lia).
  destruct (branch_inst_valid opc r d Hb Hr Hd) as [HV HS].
  destruct (formatBinaryCode_valid _ [] HV) as (f & w' & Hf & HE' & Hw' & _ & Hdec).
  rewrite HI in HE'. injection HE' as HE'. rewrite <- HE' in *. clear HE' w'.
  exists (setfield base bits 0 W), (setfield base bits (u32 d) W). split; [| split].
  - rewrite (encodeInstruction_bytes _ _ _ _ _ _ (HE e [])), uint_small by (apply setfield_range; lia).
    reflexivity.
  - apply branch_fixup_word; assumption.
  - intros sel instr Size Hsel. eexists. split.
    + unfold getInstruction. rewrite <- (app_nil_r (le_bytes 4 _)), readInstruction32_bytes, outcome_bind_ret.
      rewrite uint_small, decide_False by (exact Hw' || discriminate). unfold decodeInstruction.
      rewrite Hsel. change opc with (Opcode (branch_inst opc r (kImmediate d))) at 1. rewrite Hf.
      change opc with (Opcode (branch_inst opc r (kImmediate d))) at 1.
      rewrite Hdec, outcome_bind_ret, decide_False by discriminate. reflexivity.
    + rewrite HS. unfold evaluateBranch.
      rewrite (Z2Nat_pred_of_nat (length _)).
      destruct opc; try discriminate Hb; cbn in HO |- *; rewrite HO; reflexivity.
Qed.

Example branch_to_symbol_witness :
  ∃ w w', encodeInstruction formatBinaryCode
            (branch_inst Nyuzi.BNZ (Nyuzi.S 3) (kExpr (MCSymbolRefExpr "loop"))) [] []
          = Ret (le_bytes 4 w, [mkMCFixup 0 (MCSymbolRefExpr "loop") Nyuzi.fixup_Nyuzi_Branch20]) ∧
    applyFixup Nyuzi.fixup_Nyuzi_Branch20 0 (le_bytes 4 w) (u64 (4 * -5)) = Ret (le_bytes 4 w', []) ∧
    ∀ selectOpcode instr Size, selectOpcode w' = Some Nyuzi.BNZ →
      ∃ MI, getInstruction selectOpcode None instr Size (le_bytes 4 w') 4096 = Ret (Success, 4, MI) ∧
        evaluateBranch (λ _, [OPERAND_REGISTER; OPERAND_UNKNOWN]) MI 4096 4 = Ret (Some (u64 (4096 + 4 * -5))).
Proof.
  apply (branch_to_symbol Nyuzi.BNZ (Nyuzi.S 3) (MCSymbolRefExpr "loop") 4096 (-5)); reflexivity.
Defined.
