(* ===== verification/NyuziMachine.v ===== *)
(** * NyuziMachine: machine instructions, functions and what they compute

    The data of include/llvm/CodeGen/MachineInstr.h, MachineOperand.h,
    MachineBasicBlock.h and MachineFrameInfo.h the Nyuzi passes work on, and
    the effect of the scalar instructions those passes insert.  A block with an
    insertion point is a zipper: [BuildMI] inserts before the point. *)
From S2P Require Import Prelude MathExtras NyuziTarget.

(** ** Operands and instructions *)
Inductive MachineOperand : Type :=
  | MO_Register (r : Nyuzi.reg) (isDef isKill : bool)
  | MO_ImplicitRegister (r : Nyuzi.reg) (isDef : bool)
  | MO_Immediate (v : Z)
  | MO_MachineBasicBlock (bb : nat)
  | MO_FrameIndex (fi : Z)
  | MO_CFIIndex (i : nat)
  | MO_GlobalAddress (sym : string) (flags : Nyuzi.TOF) (offset : Z)
  | MO_ExternalSymbol (sym : string) (flags : Nyuzi.TOF) (offset : Z)
  | MO_JumpTableIndex (i : nat) (flags : Nyuzi.TOF)
  | MO_ConstantPoolIndex (i : nat) (flags : Nyuzi.TOF) (offset : Z)
  | MO_BlockAddress (bb : nat) (flags : Nyuzi.TOF) (offset : Z)
  | MO_RegisterMask.

#[global] Instance MachineOperand_eq_dec : EqDecision MachineOperand.
Proof. solve_decision. Defined.

Record MachineInstr : Type := mkMI { MIOpcode : Nyuzi.opcode; MIOperands : list MachineOperand }.

#[global] Instance MachineInstr_eq_dec : EqDecision MachineInstr.
Proof. solve_decision. Defined.

Definition MIgetOperand (MI : MachineInstr) (i : Z) : outcome MachineOperand := at_index (MIOperands MI) i.

Definition isFI (MO : MachineOperand) : bool := match MO with MO_FrameIndex _ => true | _ => false end.
Definition MOisImm (MO : MachineOperand) : bool := match MO with MO_Immediate _ => true | _ => false end.

Definition MOgetReg (MO : MachineOperand) : outcome Nyuzi.reg :=
  match MO with
  | MO_Register r _ _ | MO_ImplicitRegister r _ => Ret r
  | _ => AssertFail "This is not a register operand!"
  end.
Definition MOgetImm (MO : MachineOperand) : outcome Z :=
  match MO with MO_Immediate v => Ret v | _ => AssertFail "Wrong MachineOperand accessor" end.
Definition MOgetMBB (MO : MachineOperand) : outcome nat :=
  match MO with MO_MachineBasicBlock b => Ret b | _ => AssertFail "Wrong MachineOperand accessor" end.
Definition MOgetIndex (MO : MachineOperand) : outcome Z :=
  match MO with MO_FrameIndex i => Ret i | _ => AssertFail "Wrong MachineOperand accessor" end.

(** [addReg(r)], [addReg(r, RegState::Define)], [addReg(r, RegState::Kill)] *)
Definition addReg (r : Nyuzi.reg) : MachineOperand := MO_Register r false false.
Definition addDef (r : Nyuzi.reg) : MachineOperand := MO_Register r true false.
Definition addKill (r : Nyuzi.reg) (kill : bool) : MachineOperand := MO_Register r false kill.

(** [MCInstrDesc] flags of the td file *)
Definition isTerminator (MI : MachineInstr) : bool :=
  match MIOpcode MI with
  | Nyuzi.B | Nyuzi.BREG | Nyuzi.BZ | Nyuzi.BNZ | Nyuzi.RET | Nyuzi.ERET => true
  | _ => false
  end.
Definition isReturn (MI : MachineInstr) : bool :=
  match MIOpcode MI with Nyuzi.RET | Nyuzi.ERET => true | _ => false end.
Definition isDebugValue (MI : MachineInstr) : bool := bool_decide (MIOpcode MI = Nyuzi.DBG_VALUE).

(** ** Blocks with an insertion point *)
Record cursor : Type := mkCursor { before : list MachineInstr; after : list MachineInstr }.

Definition block_of (c : cursor) : list MachineInstr := before c ++ after c.

(** [BuildMI(MBB, MBBI, ...)] *)
Definition BuildMI (c : cursor) (MI : MachineInstr) : cursor := mkCursor (before c ++ [MI]) (after c).

(** [++MBBI] and [--MBBI] *)
Definition next (c : cursor) : outcome cursor :=
  match after c with
  | MI :: post => Ret (mkCursor (before c ++ [MI]) post)
  | [] => UndefinedBehaviour "++ past the end"
  end.

Definition prev (c : cursor) : outcome cursor :=
  match rev (before c) with
  | MI :: pre => Ret (mkCursor (rev pre) (MI :: after c))
  | [] => UndefinedBehaviour "-- before the beginning"
  end.

(** [*MBBI]: the end iterator does not designate an instruction. *)
Definition deref (c : cursor) : outcome MachineInstr :=
  match after c with MI :: _ => Ret MI | [] => UndefinedBehaviour "dereference of end()" end.

(** ** Functions *)
Record StackObject : Type := mkStackObject { ObjSize : Z; SPOffset : Z; ObjAlign : Z; isDead : bool }.

Record MachineFrameInfo : Type := mkMFI {
  Objects : list StackObject;
  NumFixedObjects : Z;
  StackSize : Z;
  AdjustsStack : bool;
  HasVarSizedObjects : bool;
  FrameAddressTaken : bool;
  CSInfo : list (Nyuzi.reg * Z);
  MaxAlignment : Z;
  MaxCallFrameSize : option Z
}.

Inductive CFIInst : Type :=
  | DefCfaOffset (o : Z)
  | CfiOffset (dwarf : option Z) (o : Z)
  | DefCfaRegister (dwarf : option Z).

Record MachineFunction : Type := mkMF {
  MFI : MachineFrameInfo;
  DisableFramePointerElim : bool;
  NextVReg : nat;
  FrameInsts : list CFIInst
}.

Definition getObjectIndexBegin (m : MachineFrameInfo) : Z := - NumFixedObjects m.
Definition getObjectIndexEnd (m : MachineFrameInfo) : Z := Z.of_nat (length (Objects m)) - NumFixedObjects m.

Definition getObjectSize (m : MachineFrameInfo) (i : Z) : outcome Z :=
  at_index (Objects m) (i + NumFixedObjects m) ≫= λ o, Ret (ObjSize o).

Definition getObjectOffset (m : MachineFrameInfo) (i : Z) : outcome Z :=
  at_index (Objects m) (i + NumFixedObjects m) ≫= λ o,
  cassert (negb (isDead o)) "Getting frame offset for a dead object?" ≫= λ _, Ret (SPOffset o).

Definition getMaxCallFrameSize (m : MachineFrameInfo) : Z := default 0 (MaxCallFrameSize m).

(** [RegInfo.createVirtualRegister(&Nyuzi::GPR32RegClass)] *)
Definition createVirtualRegister (MF : MachineFunction) : Nyuzi.reg * MachineFunction :=
  (Nyuzi.VirtReg (NextVReg MF), mkMF (MFI MF) (DisableFramePointerElim MF) (S (NextVReg MF)) (FrameInsts MF)).

(** [MF.addFrameInst(...)] returns the index of the new directive. *)
Definition addFrameInst (MF : MachineFunction) (c : CFIInst) : nat * MachineFunction :=
  (length (FrameInsts MF),
   mkMF (MFI MF) (DisableFramePointerElim MF) (NextVReg MF) (FrameInsts MF ++ [c])).

(** ** What the instructions compute

    The scalar instructions the passes insert, on 32-bit registers and a word
    memory: the arithmetic of the patterns of NyuziInstrInfo.td, [MOVEHI] as the
    pattern [(i32 imm) => ORSSI (MOVEHI (HI19 imm)) (LO13 imm)] of that file uses
    it.  A frame index stands for the address [fi_addr] gives it; [None] is an
    instruction outside the modelled ones. *)
Record mstate : Type := mkState {
  regs : Nyuzi.reg → Z;
  vregs : Nyuzi.reg → list Z;
  mem : Z → Z
}.

Definition set_reg (r : Nyuzi.reg) (v : Z) (st : mstate) : mstate :=
  mkState (λ r', if decide (r' = r) then v else regs st r') (vregs st) (mem st).

Definition set_vreg (r : Nyuzi.reg) (v : list Z) (st : mstate) : mstate :=
  mkState (regs st) (λ r', if decide (r' = r) then v else vregs st r') (mem st).

Definition set_mem (a v : Z) (st : mstate) : mstate :=
  mkState (regs st) (vregs st) (λ a', if decide (a' = a) then v else mem st a').

Definition load_block (st : mstate) (a : Z) : list Z := map (λ i, mem st (u32 (a + 4 * Z.of_nat i))) (seq 0 16).

Definition store_block (a : Z) (lanes : list Z) (st : mstate) : mstate :=
  foldl (λ st '(i, v), set_mem (u32 (a + 4 * Z.of_nat i)) v st) st (combine (seq 0 (length lanes)) lanes).

Definition base_value (fi_addr : Z → Z) (st : mstate) (MO : MachineOperand) : option Z :=
  match MO with
  | MO_Register r _ _ => Some (regs st r)
  | MO_FrameIndex i => Some (fi_addr i)
  | _ => None
  end.

Definition exec1 (fi_addr : Z → Z) (MI : MachineInstr) (st : mstate) : option mstate :=
  match MIOpcode MI, MIOperands MI with
  | Nyuzi.ADDISSI, [MO_Register d _ _; b; MO_Immediate i] =>
      base_value fi_addr st b ≫= λ v, Some (set_reg d (u32 (v + i)) st)
  | Nyuzi.ADDISSS, [MO_Register d _ _; b; MO_Register s _ _] =>
      base_value fi_addr st b ≫= λ v, Some (set_reg d (u32 (v + regs st s)) st)
  | Nyuzi.ORSSI, [MO_Register d _ _; MO_Register s _ _; MO_Immediate i] =>
      Some (set_reg d (Z.lor (regs st s) (u32 i)) st)
  | Nyuzi.MOVEHI, [MO_Register d _ _; MO_Immediate i] => Some (set_reg d (u32 (Z.shiftl i 13)) st)
  | Nyuzi.MOVESimm, [MO_Register d _ _; MO_Immediate i] => Some (set_reg d (u32 i) st)
  | Nyuzi.MOVESS, [MO_Register d _ _; MO_Register s _ _] => Some (set_reg d (regs st s) st)
  | Nyuzi.LW, [MO_Register d _ _; b; MO_Immediate i] =>
      base_value fi_addr st b ≫= λ v, Some (set_reg d (mem st (u32 (v + i))) st)
  | Nyuzi.SW, [MO_Register s _ _; b; MO_Immediate i] =>
      base_value fi_addr st b ≫= λ v, Some (set_mem (u32 (v + i)) (regs st s) st)
  | Nyuzi.BLOCK_LOADI, [MO_Register d _ _; b; MO_Immediate i] =>
      base_value fi_addr st b ≫= λ v, Some (set_vreg d (load_block st (u32 (v + i))) st)
  | Nyuzi.BLOCK_STOREI, [MO_Register s _ _; b; MO_Immediate i] =>
      base_value fi_addr st b ≫= λ v, Some (store_block (u32 (v + i)) (vregs st s) st)
  | Nyuzi.CFI_INSTRUCTION, _ | Nyuzi.DBG_VALUE, _ => Some st
  | _, _ => None
  end.

Fixpoint exec (fi_addr : Z → Z) (l : list MachineInstr) (st : mstate) : option mstate :=
  match l with
  | [] => Some st
  | MI :: l' => exec1 fi_addr MI st ≫= exec fi_addr l'
  end.

(** States that agree on everything but the virtual register [VirtReg n]. *)
Record agree_except (n : nat) (s1 s2 : mstate) : Prop := {
  ae_regs : ∀ r, r ≠ Nyuzi.VirtReg n → regs s1 r = regs s2 r;
  ae_vregs : ∀ r, vregs s1 r = vregs s2 r;
  ae_mem : ∀ a, mem s1 a = mem s2 a
}.

#[global] Instance agree_except_equiv (n : nat) : Equivalence (agree_except n).
Proof.
  split.
  - intros s. split; reflexivity.
  - intros s t [? ? ?]. split; intros; symmetry; auto.
  - intros s t u [H1 H2 H3] [K1 K2 K3]. split; intros.
    + rewrite H1 by assumption. auto.
    + rewrite H2. auto.
    + rewrite H3. auto.
Qed.

Lemma exec_app (fi_addr : Z → Z) (l1 l2 : list MachineInstr) (st : mstate) :
  exec fi_addr (l1 ++ l2) st = exec fi_addr l1 st ≫= exec fi_addr l2.
Proof.
  revert st. induction l1 as [| MI l1 IH]; intros st; [reflexivity |].
  cbn. destruct (exec1 fi_addr MI st); [apply IH | reflexivity].
Qed.

Lemma set_reg_eq (r : Nyuzi.reg) (v : Z) (st : mstate) : regs (set_reg r v st) r = v.
Proof. cbn. rewrite decide_True; reflexivity. Qed.

Lemma set_reg_ne (r r' : Nyuzi.reg) (v : Z) (st : mstate) : r' ≠ r → regs (set_reg r v st) r' = regs st r'.
Proof. intros H. cbn. rewrite decide_False by exact H. reflexivity. Qed.

#[export] Instance set_reg_proper (n : nat) (r : Nyuzi.reg) (v : Z) :
  Proper (agree_except n ==> agree_except n) (set_reg r v).
Proof.
  intros s t [H1 H2 H3]. split; cbn; [| exact H2 | exact H3].
  intros r' Hr'. destruct (decide (r' = r)); auto.
Qed.

#[export] Instance set_vreg_proper (n : nat) (r : Nyuzi.reg) (v : list Z) :
  Proper (agree_except n ==> agree_except n) (set_vreg r v).
Proof.
  intros s t [H1 H2 H3]. split; cbn; [exact H1 | | exact H3].
  intros r'. destruct (decide (r' = r)); auto.
Qed.

#[export] Instance set_mem_proper (n : nat) (a v : Z) :
  Proper (agree_except n ==> agree_except n) (set_mem a v).
Proof.
  intros s t [H1 H2 H3]. split; cbn; [exact H1 | exact H2 |].
  intros a'. destruct (decide (a' = a)); auto.
Qed.

#[export] Instance store_block_proper (n : nat) (a : Z) (lanes : list Z) :
  Proper (agree_except n ==> agree_except n) (store_block a lanes).
Proof.
  intros s t H. unfold store_block. revert s t H.
  induction (combine (seq 0 (length lanes)) lanes) as [| [i v] l IH]; intros s t H; [exact H |].
  cbn. apply IH. rewrite H. reflexivity.
Qed.

Lemma load_block_agree (n : nat) (a : Z) (s t : mstate) : agree_except n s t → load_block s a = load_block t a.
Proof. intros [_ _ H]. apply map_ext. intros i. apply H. Qed.

Lemma set_virt_agree (n : nat) (v : Z) (st : mstate) : agree_except n (set_reg (Nyuzi.VirtReg n) v st) st.
Proof.
  split; [| reflexivity | reflexivity]. intros r Hr. apply set_reg_ne. exact Hr.
Qed.
