(* ===== verification/NyuziInstrInfo.v ===== *)
(** * NyuziInstrInfo: stack slots, stack adjustment, constants, copies

    The straight-line part of lib/Target/Nyuzi/NyuziInstrInfo.cpp; the branch
    hooks are in NyuziBranch.v. *)
From S2P Require Import Prelude MathExtras NyuziTarget NyuziMachine.

(** [isLoadFromStackSlot]: the destination register and the frame index, or
    [None] for the result 0. *)
Definition isLoadFromStackSlot (MI : MachineInstr) : outcome (option (Nyuzi.reg * Z)) :=
  if bool_decide (MIOpcode MI = Nyuzi.LW) || bool_decide (MIOpcode MI = Nyuzi.BLOCK_LOADI) then
    MIgetOperand MI 1 ≫= λ o1,
    if isFI o1 then
      MIgetOperand MI 2 ≫= λ o2,
      if MOisImm o2 then
        MOgetImm o2 ≫= λ v,
        if v =? 0 then
          MOgetIndex o1 ≫= λ fi, MIgetOperand MI 0 ≫= λ o0, MOgetReg o0 ≫= λ r, Ret (Some (r, fi))
        else Ret None
      else Ret None
    else Ret None
  else Ret None.

Definition isStoreToStackSlot (MI : MachineInstr) : outcome (option (Nyuzi.reg * Z)) :=
  if bool_decide (MIOpcode MI = Nyuzi.SW) || bool_decide (MIOpcode MI = Nyuzi.BLOCK_STOREI) then
    MIgetOperand MI 1 ≫= λ o1,
    if isFI o1 then
      MIgetOperand MI 2 ≫= λ o2,
      if MOisImm o2 then
        MOgetImm o2 ≫= λ v,
        if v =? 0 then
          MOgetIndex o1 ≫= λ fi, MIgetOperand MI 0 ≫= λ o0, MOgetReg o0 ≫= λ r, Ret (Some (r, fi))
        else Ret None
      else Ret None
    else Ret None
  else Ret None.

(** [getMemOperand]: the memory operand of a stack slot. *)
Record MachineMemOperand : Type := mkMMO { MMO_load : bool; MMO_fi : Z; MMO_size : Z; MMO_align : Z }.

Definition getMemOperand (MF : MachineFunction) (FI : Z) (isLoad : bool) : outcome MachineMemOperand :=
  at_index (Objects (MFI MF)) (FI + NumFixedObjects (MFI MF)) ≫= λ o,
  getObjectSize (MFI MF) FI ≫= λ size,
  Ret (mkMMO isLoad FI size (ObjAlign o)).

(** [RC1.hasSubClassEq(RC2)]: the two classes have no subclasses. *)
Definition hasSubClassEq (RC1 RC2 : Nyuzi.regclass) : bool := bool_decide (RC1 = RC2).

Definition loadRegFromStackSlot (MF : MachineFunction) (c : cursor) (DestReg : Nyuzi.reg)
    (FrameIndex : Z) (RC : Nyuzi.regclass) : outcome (cursor * MachineMemOperand) :=
  getMemOperand MF FrameIndex true ≫= λ MMO,
  (if hasSubClassEq Nyuzi.GPR32RegClass RC then Ret Nyuzi.LW
   else if hasSubClassEq Nyuzi.VR512RegClass RC then Ret Nyuzi.BLOCK_LOADI
   else Unreachable "unknown register class in storeRegToStack") ≫= λ Opc,
  Ret (BuildMI c (mkMI Opc [addDef DestReg; MO_FrameIndex FrameIndex; MO_Immediate 0]), MMO).

Definition storeRegToStackSlot (MF : MachineFunction) (c : cursor) (SrcReg : Nyuzi.reg) (isKill : bool)
    (FrameIndex : Z) (RC : Nyuzi.regclass) : outcome (cursor * MachineMemOperand) :=
  getMemOperand MF FrameIndex false ≫= λ MMO,
  (if hasSubClassEq Nyuzi.GPR32RegClass RC then Ret Nyuzi.SW
   else if hasSubClassEq Nyuzi.VR512RegClass RC then Ret Nyuzi.BLOCK_STOREI
   else Unreachable "unknown register class in storeRegToStack") ≫= λ Opc,
  Ret (BuildMI c (mkMI Opc [addKill SrcReg isKill; MO_FrameIndex FrameIndex; MO_Immediate 0]), MMO).

(** [loadConstant(MBB, MBBI, Value)]: the register and the changed function
    and block. *)
Definition loadConstant (MF : MachineFunction) (c : cursor) (Value : Z)
    : outcome (Nyuzi.reg * MachineFunction * cursor) :=
  deref c ≫= λ _,
  let '(Reg, MF) := createVirtualRegister MF in
  if negb (isInt 24 Value) then FatalError "NyuziInstrInfo::loadConstant: value out of range"
  else
    let c := BuildMI c (mkMI Nyuzi.MOVEHI
               [addDef Reg; MO_Immediate (Z.land (Z.shiftr Value 13) 0x7ffff)]) in
    let c := if negb (Z.land Value 0x1fff =? 0)
             then BuildMI c (mkMI Nyuzi.ORSSI [addDef Reg; addReg Reg; MO_Immediate (Z.land Value 0x1fff)])
             else c in
    Ret (Reg, MF, c).

(** [adjustStackPointer(MBB, MBBI, DL, Amount)]: the result of the second addition is
    added as a plain operand, not as a definition. *)
Definition adjustStackPointer (MF : MachineFunction) (c : cursor) (Amount : Z)
    : outcome (MachineFunction * cursor) :=
  if isInt 14 Amount then
    Ret (MF, BuildMI c (mkMI Nyuzi.ADDISSI [addDef Nyuzi.SP_REG; addReg Nyuzi.SP_REG; MO_Immediate Amount]))
  else
    loadConstant MF c Amount ≫= λ '(OffsetReg, MF, c),
    Ret (MF, BuildMI c (mkMI Nyuzi.ADDISSS
                 [addReg Nyuzi.SP_REG; addReg Nyuzi.SP_REG; addKill OffsetReg true])).

(** [copyPhysReg] *)
Definition copyPhysReg (c : cursor) (DestReg SrcReg : Nyuzi.reg) (KillSrc : bool) : outcome cursor :=
  let destIsScalar := Nyuzi.contains Nyuzi.GPR32RegClass DestReg in
  let srcIsScalar := Nyuzi.contains Nyuzi.GPR32RegClass SrcReg in
  (if destIsScalar && srcIsScalar then Ret Nyuzi.MOVESS
   else if negb destIsScalar && srcIsScalar then Ret Nyuzi.MOVEVSI
   else if negb destIsScalar && negb srcIsScalar then Ret Nyuzi.MOVEVV
   else Unreachable "unsupported physical reg copy type") ≫= λ operation,
  Ret (BuildMI c (mkMI operation [addDef DestReg; addKill SrcReg KillSrc])).

(** ** Lemmas *)

(** What was inserted before the point. *)
Definition inserts (c c' : cursor) (l : list MachineInstr) : Prop :=
  before c' = before c ++ l ∧ after c' = after c.

Lemma hi_lo_value (Value : Z) :
  isInt 24 Value = true →
  Z.lor (u32 (Z.shiftl (Z.land (Z.shiftr Value 13) 0x7ffff) 13)) (Z.land Value 0x1fff) = u32 Value ∧
  0 ≤ Z.land (Z.shiftr Value 13) 0x7ffff < 2 ^ 19 ∧ 0 ≤ Z.land Value 0x1fff < 2 ^ 13.
Proof.
  intros _. change 0x7ffff with (Z.ones 19). change 0x1fff with (Z.ones 13).
  rewrite !uint_land_ones by lia.
  split; [bitwise | split; apply uint_range; lia].
Qed.

(** The instructions [loadConstant] inserts, and what they compute. *)
Definition constantInstrs (r : Nyuzi.reg) (Value : Z) : list MachineInstr :=
  mkMI Nyuzi.MOVEHI [addDef r; MO_Immediate (Z.land (Z.shiftr Value 13) 0x7ffff)] ::
  (if negb (Z.land Value 0x1fff =? 0)
   then [mkMI Nyuzi.ORSSI [addDef r; addReg r; MO_Immediate (Z.land Value 0x1fff)]] else []).

Lemma constantInstrs_immediates (r : Nyuzi.reg) (Value : Z) :
  isInt 24 Value = true →
  Forall (λ mi, ∀ v, MO_Immediate v ∈ MIOperands mi →
            0 ≤ v < 2 ^ (if decide (MIOpcode mi = Nyuzi.MOVEHI) then 19 else 13)) (constantInstrs r Value).
Proof.
  intros HV. destruct (hi_lo_value Value HV) as (_ & Hhi & Hlo). unfold constantInstrs.
  destruct (negb _); rewrite !Forall_cons, Forall_nil; cbn; repeat apply conj; try exact I;
    intros v Hv; set_unfold;
    repeat match goal with H : _ ∨ _ |- _ => destruct H end; try contradiction;
    match goal with H : MO_Immediate _ = _ |- _ => try discriminate H; injection H as -> end;
    assumption.
Qed.

Lemma loadConstant_exec (MF : MachineFunction) (c : cursor) (Value : Z) (MI : MachineInstr) (post : list MachineInstr)
    (fi_addr : Z → Z) (st : mstate) :
  after c = MI :: post → isInt 24 Value = true →
  let r := Nyuzi.VirtReg (NextVReg MF) in
  ∃ c', loadConstant MF c Value = Ret (r, snd (createVirtualRegister MF), c') ∧
    inserts c c' (constantInstrs r Value) ∧
    ∃ st', exec fi_addr (constantInstrs r Value) st = Some st' ∧ agree_except (NextVReg MF) st' st ∧
           regs st' r = u32 Value.
Proof.
  intros Ha HV r. destruct (hi_lo_value Value HV) as (Hv & Hhi & Hlo).
  unfold loadConstant, deref, constantInstrs. rewrite Ha, outcome_bind_ret, HV. cbn [createVirtualRegister negb].
  fold r. set (hi := Z.land (Z.shiftr Value 13) 0x7ffff) in *.
  set (lo := Z.land Value 0x1fff) in *.
  destruct (Z.eqb_spec lo 0) as [E | E]; cbn [negb]; eexists; (split; [reflexivity |]).
  - split; [split; reflexivity |].
    eexists. split; [reflexivity |]. split; [apply set_virt_agree |].
    rewrite set_reg_eq, <- Hv, E, Z.lor_0_r. reflexivity.
  - split; [split; [cbn; rewrite <- app_assoc |]; reflexivity |].
    eexists. split; [reflexivity |]. split.
    + etransitivity; apply set_virt_agree.
    + rewrite set_reg_eq, set_reg_eq, (uint_small 32 lo) by lia. exact Hv.
Qed.

(** The instructions [adjustStackPointer] inserts. *)
Definition adjustInstrs (n : nat) (Amount : Z) : list MachineInstr :=
  if isInt 14 Amount then [mkMI Nyuzi.ADDISSI [addDef Nyuzi.SP_REG; addReg Nyuzi.SP_REG; MO_Immediate Amount]]
  else constantInstrs (Nyuzi.VirtReg n) Amount ++
       [mkMI Nyuzi.ADDISSS [addReg Nyuzi.SP_REG; addReg Nyuzi.SP_REG; addKill (Nyuzi.VirtReg n) true]].

Lemma adjustStackPointer_eq (MF : MachineFunction) (c : cursor) (Amount : Z) (MI : MachineInstr)
    (post : list MachineInstr) :
  after c = MI :: post → isInt 14 Amount = true ∨ isInt 24 Amount = true →
  ∃ MF', adjustStackPointer MF c Amount
         = Ret (MF', mkCursor (before c ++ adjustInstrs (NextVReg MF) Amount) (after c)) ∧
    MFI MF' = MFI MF ∧ FrameInsts MF' = FrameInsts MF ∧
    DisableFramePointerElim MF' = DisableFramePointerElim MF.
Proof.
  intros Ha HA. unfold adjustStackPointer, adjustInstrs. destruct (isInt 14 Amount) eqn:E.
  - eexists. split; [reflexivity |]. auto.
  - destruct HA as [HA | HA]; [discriminate |].
    destruct (loadConstant_exec MF c Amount MI post (λ _, 0) (mkState (λ _, 0) (λ _, []) (λ _, 0)) Ha HA)
      as (c' & HL & [Hb Hp] & _).
    rewrite HL, outcome_bind_ret. unfold BuildMI. rewrite Hb, Hp, <- app_assoc.
    eexists. split; [reflexivity |]. auto.
Qed.

(** [adjustStackPointer] adds to [SP_REG] and changes nothing but it (and the
    scratch register). *)
Lemma adjustInstrs_exec (n : nat) (Amount : Z) (fi_addr : Z → Z) (st : mstate) :
  isInt 14 Amount = true ∨ isInt 24 Amount = true →
  ∃ st', exec fi_addr (adjustInstrs n Amount) st = Some st' ∧
    agree_except n st' (set_reg Nyuzi.SP_REG (u32 (regs st Nyuzi.SP_REG + Amount)) st).
Proof.
  intros HA. unfold adjustInstrs. destruct (isInt 14 Amount) eqn:E.
  - eexists. split; [reflexivity |]. reflexivity.
  - destruct HA as [HA | HA]; [discriminate |].
    destruct (loadConstant_exec (mkMF (mkMFI [] 0 0 false false false [] 0 None) false n []) (mkCursor [] [mkMI Nyuzi.RET []])
      Amount (mkMI Nyuzi.RET []) [] fi_addr st eq_refl HA) as (_ & _ & _ & st' & HE & Hag & Hr).
    cbn [NextVReg] in *. eexists. split; [rewrite exec_app, HE; reflexivity |].
    cbn [addReg addDef addKill]. rewrite Hr.
    rewrite (ae_regs _ _ _ Hag Nyuzi.SP_REG) by discriminate.
    rewrite uint_add_r, Hag. reflexivity.
Qed.

(** A vector stored to a stack slot is read back lane by lane. *)
Lemma store_block_mem (a : Z) (k : nat) (lanes : list Z) (st : mstate) (i : nat) (v : Z) :
  (k + length lanes ≤ 16)%nat → lanes !! i = Some v →
  mem (foldl (λ st '(i, v), set_mem (u32 (a + 4 * Z.of_nat i)) v st) st (combine (seq k (length lanes)) lanes))
    (u32 (a + 4 * Z.of_nat (k + i))) = v.
Proof.
  assert (Hdist : ∀ i j : nat, (i < 16)%nat → (j < 16)%nat → i ≠ j →
            u32 (a + 4 * Z.of_nat i) ≠ u32 (a + 4 * Z.of_nat j)).
  { intros x y Hx Hy Hne E. unfold uint in E. Z.to_euclidean_division_equations. lia. }
  assert (Hframe : ∀ lanes k st j, (k + length lanes ≤ 16)%nat → (j < k)%nat →
     mem (foldl (λ st '(i, v), set_mem (u32 (a + 4 * Z.of_nat i)) v st) st (combine (seq k (length lanes)) lanes))
       (u32 (a + 4 * Z.of_nat j)) = mem st (u32 (a + 4 * Z.of_nat j))).
  { clear lanes k st i v. induction lanes as [| v lanes IH]; intros k st j Hk Hj; [reflexivity |].
    cbn in Hk |- *. rewrite IH by lia. cbn. rewrite decide_False by (apply Hdist; lia). reflexivity. }
  revert k st i. induction lanes as [| x lanes IH]; intros k st i Hk Hi; [discriminate |].
  cbn [length seq combine foldl] in *. destruct i as [| i].
  - injection Hi as ->. rewrite Nat.add_0_r, Hframe by lia. cbn. rewrite decide_True; reflexivity.
  - replace (k + S i)%nat with (S k + i)%nat by lia. apply IH; [lia | exact Hi].
Qed.

Lemma load_store_block (a : Z) (lanes : list Z) (st : mstate) :
  length lanes = 16%nat → load_block (store_block a lanes st) a = lanes.
Proof.
  intros HL. unfold load_block. apply list_eq. intros i.
  rewrite list_lookup_fmap. destruct (decide (i < 16)%nat) as [Hi | Hi].
  - rewrite lookup_seq_lt by exact Hi. cbn.
    destruct (lookup_lt_is_Some_2 lanes i) as [v Hv]; [lia |].
    rewrite Hv. f_equal. unfold store_block. apply (store_block_mem a 0); [lia | exact Hv].
  - rewrite lookup_seq_ge by lia. cbn. symmetry. apply lookup_ge_None_2. lia.
Qed.

(** ** Properties *)

(** [loadConstant] loads the constant: for a value of 24 bits it inserts, in
    front of the point, instructions with encodable immediates after which the
    new virtual register holds the value and nothing else has changed; any other
    value is refused with a fatal error. *)
Theorem loadConstant_correct (MF : MachineFunction) (c : cursor) (Value : Z) (MI : MachineInstr)
    (post : list MachineInstr) (fi_addr : Z → Z) (st : mstate) :
  after c = MI :: post →
  if isInt 24 Value then
    ∃ l c', loadConstant MF c Value
            = Ret (Nyuzi.VirtReg (NextVReg MF), snd (createVirtualRegister MF), c') ∧
      inserts c c' l ∧
      Forall (λ mi, ∀ v, MO_Immediate v ∈ MIOperands mi →
                0 ≤ v < 2 ^ (if decide (MIOpcode mi = Nyuzi.MOVEHI) then 19 else 13)) l ∧
      ∃ st', exec fi_addr l st = Some st' ∧ agree_except (NextVReg MF) st' st ∧
             regs st' (Nyuzi.VirtReg (NextVReg MF)) = u32 Value
  else loadConstant MF c Value = FatalError "NyuziInstrInfo::loadConstant: value out of range".
Proof.
  intros Ha. destruct (isInt 24 Value) eqn:HV; [| unfold loadConstant, deref; rewrite Ha, outcome_bind_ret, HV; reflexivity].
  destruct (loadConstant_exec MF c Value MI post fi_addr st Ha HV) as (c' & HL & Hi & Hst).
  exists (constantInstrs (Nyuzi.VirtReg (NextVReg MF)) Value), c'.
  split; [exact HL |]. split; [exact Hi |]. split; [apply constantInstrs_immediates, HV | exact Hst].
Qed.

Example loadConstant_correct_witness :
  ∃ l c', loadConstant (mkMF (mkMFI [] 0 0 false false false [] 0 None) false 7 [])
            (mkCursor [] [mkMI Nyuzi.RET []]) (-1000000)
          = Ret (Nyuzi.VirtReg 7, mkMF (mkMFI [] 0 0 false false false [] 0 None) false 8 [], c') ∧
    ∃ st', exec (λ _, 0) l (mkState (λ _, 0) (λ _, []) (λ _, 0)) = Some st' ∧
           regs st' (Nyuzi.VirtReg 7) = u32 (-1000000).
Proof.
  destruct (loadConstant_correct (mkMF (mkMFI [] 0 0 false false false [] 0 None) false 7 [])
    (mkCursor [] [mkMI Nyuzi.RET []]) (-1000000) (mkMI Nyuzi.RET []) [] (λ _, 0)
    (mkState (λ _, 0) (λ _, []) (λ _, 0)) ltac:(reflexivity)) as (l & c' & HL & _ & _ & st' & HE & _ & Hr).
  exists l, c'. split; [exact HL |]. exists st'. split; [exact HE | exact Hr].
Defined.

(** Spilling a register to a stack slot and reloading it gives its value
    back, for both register classes, and the two instructions are recognised by
    [isStoreToStackSlot] and [isLoadFromStackSlot] with the same slot (and by the
    other predicate not at all). *)
Theorem spill_reload (MF : MachineFunction) (c : cursor) (Src Dst : Nyuzi.reg) (kill : bool) (FI : Z)
    (RC : Nyuzi.regclass) (o : StackObject) (fi_addr : Z → Z) (st : mstate) :
  at_index (Objects (MFI MF)) (FI + NumFixedObjects (MFI MF)) = Ret o →
  length (vregs st Src) = 16%nat →
  ∃ s l c1 c2 M1 M2,
    storeRegToStackSlot MF c Src kill FI RC = Ret (c1, M1) ∧ inserts c c1 [s] ∧
    loadRegFromStackSlot MF c1 Dst FI RC = Ret (c2, M2) ∧ inserts c1 c2 [l] ∧
    isStoreToStackSlot s = Ret (Some (Src, FI)) ∧ isLoadFromStackSlot s = Ret None ∧
    isLoadFromStackSlot l = Ret (Some (Dst, FI)) ∧ isStoreToStackSlot l = Ret None ∧
    ∃ st', exec fi_addr [s; l] st = Some st' ∧
      match RC with
      | Nyuzi.GPR32RegClass => regs st' Dst = regs st Src
      | Nyuzi.VR512RegClass => vregs st' Dst = vregs st Src
      end.
Proof.
  intros Ho HL. unfold storeRegToStackSlot, loadRegFromStackSlot, getMemOperand, getObjectSize.
  rewrite Ho, !outcome_bind_ret.
  destruct RC; cbn -[exec]; do 6 eexists; (split; [reflexivity |]); (split; [split; reflexivity |]);
    (split; [reflexivity |]); (split; [split; reflexivity |]); do 4 (split; [reflexivity |]);
    eexists; (split; [reflexivity |]).
  - rewrite set_reg_eq. cbn. rewrite decide_True; reflexivity.
  - cbn. rewrite decide_True by reflexivity. apply load_store_block, HL.
Qed.

Example spill_reload_witness :
  ∃ s l st', exec (λ i, 1000 + i) [s; l] (mkState (λ _, 5) (λ _, repeat 9 16) (λ _, 0)) = Some st' ∧
    isLoadFromStackSlot l = Ret (Some (Nyuzi.V 2, 0)) ∧ vregs st' (Nyuzi.V 2) = repeat 9 16.
Proof.
  destruct (spill_reload (mkMF (mkMFI [mkStackObject 64 (-64) 64 false] 0 64 false false false [] 64 None) false 0 [])
      (mkCursor [] []) (Nyuzi.V 1) (Nyuzi.V 2) true 0 Nyuzi.VR512RegClass (mkStackObject 64 (-64) 64 false)
      (λ i, 1000 + i) (mkState (λ _, 5) (λ _, repeat 9 16) (λ _, 0)) ltac:(reflexivity) ltac:(reflexivity))
    as (s & l & c1 & c2 & M1 & M2 & _ & _ & _ & _ & _ & _ & Hl & _ & st' & HE & HV).
  exists s, l, st'. split; [exact HE |]. split; [exact Hl | exact HV].
Defined.
