(* ===== verification/NyuziBranch.v ===== *)
(** * NyuziBranch: branch analysis

    [analyzeBranch], [insertBranch] and [removeBranch] of
    lib/Target/Nyuzi/NyuziInstrInfo.cpp, against the control flow of the
    terminators of a block.  A backward walk over the block is a walk over the
    reversed prefix; [post] is what lies after the iterator. *)
From S2P Require Import Prelude NyuziTarget NyuziMachine.

Definition isUncondBranchOpcode (opc : Nyuzi.opcode) : bool := bool_decide (opc = Nyuzi.B).

Definition isCondBranchOpcode (opc : Nyuzi.opcode) : bool :=
  bool_decide (opc = Nyuzi.BNZ) || bool_decide (opc = Nyuzi.BZ).

(** The elements of [Cond]: the opcode as an immediate, then the register
    operand. *)
Inductive CondElem : Type :=
  | CondOpcode (opc : Nyuzi.opcode)
  | CondOperand (MO : MachineOperand).

Definition Cond_getImm (e : CondElem) : outcome Nyuzi.opcode :=
  match e with CondOpcode o => Ret o | CondOperand _ => AssertFail "Wrong MachineOperand accessor" end.

Definition Cond_operand (e : CondElem) : outcome MachineOperand :=
  match e with CondOperand MO => Ret MO | CondOpcode _ => AssertFail "Cond[1]" end.

(** The result of [analyzeBranch]: whether it failed, the targets, the condition
    and the block, which [AllowModify] lets it cut. *)
Record BranchInfo : Type := mkBranchInfo {
  CantAnalyze : bool;
  TBB : option nat;
  FBB : option nat;
  Cond : list CondElem;
  Block : list MachineInstr
}.

Section analyzeBranch.
Variable AllowModify : bool.

Fixpoint analyze_walk (rev_pre post : list MachineInstr) (TBB FBB : option nat) (Cond : list CondElem)
    : outcome BranchInfo :=
  let result cant TBB FBB Cond post := Ret (mkBranchInfo cant TBB FBB Cond (rev rev_pre ++ post)) in
  match rev_pre with
  | [] => result false TBB FBB Cond post
  | MI :: rest =>
      if isDebugValue MI then analyze_walk rest (MI :: post) TBB FBB Cond
      else if negb (isTerminator MI) then result false TBB FBB Cond post
      else if isUncondBranchOpcode (MIOpcode MI) then
        MIgetOperand MI 0 ≫= λ o, MOgetMBB o ≫= λ target,
        analyze_walk rest (MI :: (if AllowModify then [] else post)) (Some target) None []
      else if isCondBranchOpcode (MIOpcode MI) then
        if negb (bool_decide (Cond = [])) then result true TBB FBB Cond post
        else
          cassert (bool_decide (FBB = None)) "FBB should have been null." ≫= λ _,
          let FBB := TBB in
          MIgetOperand MI 1 ≫= λ o1, MOgetMBB o1 ≫= λ target,
          MIgetOperand MI 0 ≫= λ o0,
          analyze_walk rest (MI :: post) (Some target) FBB [CondOpcode (MIOpcode MI); CondOperand o0]
      else result true TBB FBB Cond post
  end.

(** [analyzeBranch(MBB, TBB, FBB, Cond, AllowModify)] with an empty [Cond]. *)
Definition analyzeBranch (MBB : list MachineInstr) : outcome BranchInfo :=
  analyze_walk (rev MBB) [] None None [].

End analyzeBranch.

(** [insertBranch]: the block and the number of branches added. *)
Definition insertBranch (MBB : list MachineInstr) (TBB FBB : option nat) (Cond : list CondElem)
    (BytesAdded : option Z) : outcome (list MachineInstr * Z) :=
  match TBB with
  | None => AssertFail "TBB"
  | Some T =>
      cassert (bool_decide (BytesAdded = None)) "code size not handled" ≫= λ _,
      match FBB with
      | Some F =>
          at_index Cond 0 ≫= λ c0, Cond_getImm c0 ≫= λ opc,
          at_index Cond 1 ≫= λ c1, Cond_operand c1 ≫= λ r,
          let MBB := MBB ++ [mkMI opc [r; MO_MachineBasicBlock T]] in
          Ret (MBB ++ [mkMI Nyuzi.B [MO_MachineBasicBlock F]], 2)
      | None =>
          if bool_decide (Cond = []) then Ret (MBB ++ [mkMI Nyuzi.B [MO_MachineBasicBlock T]], 1)
          else
            at_index Cond 0 ≫= λ c0, Cond_getImm c0 ≫= λ opc,
            at_index Cond 1 ≫= λ c1, Cond_operand c1 ≫= λ r,
            Ret (MBB ++ [mkMI opc [r; MO_MachineBasicBlock T]], 1)
      end
  end.

(** One pass of the loop of [removeBranch] from [MBB.end()] up to the erased
    branch; [None] when it stops. *)
Fixpoint removeBranch_scan (rev_pre post : list MachineInstr) : option (list MachineInstr) :=
  match rev_pre with
  | [] => None
  | MI :: rest =>
      if isDebugValue MI then removeBranch_scan rest (MI :: post)
      else if negb (isUncondBranchOpcode (MIOpcode MI)) && negb (isCondBranchOpcode (MIOpcode MI)) then None
      else Some (rev rest ++ post)
  end.

(** The loop; [None] is out of fuel. *)
Fixpoint removeBranch_loop (fuel : nat) (MBB : list MachineInstr) (Count : Z) : option (list MachineInstr * Z) :=
  match fuel with
  | O => None
  | S fuel' =>
      match removeBranch_scan (rev MBB) [] with
      | None => Some (MBB, Count)
      | Some MBB' => removeBranch_loop fuel' MBB' (Count + 1)
      end
  end.

Definition removeBranch (MBB : list MachineInstr) (BytesRemoved : option Z) : outcome (list MachineInstr * Z) :=
  cassert (bool_decide (BytesRemoved = None)) "code size not handled" ≫= λ _,
  match removeBranch_loop (S (length MBB)) MBB 0 with
  | Some r => Ret r
  | None => UndefinedBehaviour "removeBranch does not terminate"
  end.

(** ** Control flow *)

(** Whether a conditional branch is taken. *)
Definition taken (opc : Nyuzi.opcode) (r : Z) : bool :=
  if bool_decide (opc = Nyuzi.BZ) then r =? 0 else negb (r =? 0).

(** Where a block goes: [Some (Some b)] to block [b], [Some None] falls through,
    [None] leaves the function or jumps through a register. *)
Fixpoint flow (rf : Nyuzi.reg → Z) (l : list MachineInstr) : option (option nat) :=
  match l with
  | [] => Some None
  | MI :: l' =>
      match MIOpcode MI, MIOperands MI with
      | Nyuzi.B, MO_MachineBasicBlock b :: _ => Some (Some b)
      | Nyuzi.BZ, MO_Register r _ _ :: MO_MachineBasicBlock b :: _
      | Nyuzi.BNZ, MO_Register r _ _ :: MO_MachineBasicBlock b :: _ =>
          if taken (MIOpcode MI) (rf r) then Some (Some b) else flow rf l'
      | _, _ => if isTerminator MI then None else flow rf l'
      end
  end.

(** Where the result of the analysis says the block goes. *)
Definition branch_flow (rf : Nyuzi.reg → Z) (T F : option nat) (C : list CondElem) : option (option nat) :=
  match C with
  | [CondOpcode opc; CondOperand (MO_Register r _ _)] =>
      if taken opc (rf r) then Some T else Some F
  | _ => Some T
  end.

(** A branch has the operands of its format. *)
Definition branch_ok (MI : MachineInstr) : bool :=
  match MIOpcode MI, MIOperands MI with
  | Nyuzi.B, [MO_MachineBasicBlock _] => true
  | Nyuzi.BZ, [MO_Register _ _ _; MO_MachineBasicBlock _] => true
  | Nyuzi.BNZ, [MO_Register _ _ _; MO_MachineBasicBlock _] => true
  | Nyuzi.B, _ | Nyuzi.BZ, _ | Nyuzi.BNZ, _ => false
  | _, _ => true
  end.

(** Terminators end the block: only terminators and debug values follow one. *)
Fixpoint terminators_last (l : list MachineInstr) : bool :=
  match l with
  | [] => true
  | MI :: l' => if isTerminator MI then forallb (λ J, isTerminator J || isDebugValue J) l' else terminators_last l'
  end.

Definition block_ok (l : list MachineInstr) : bool := forallb branch_ok l && terminators_last l.

(** ** Lemmas *)

(** The analysed part [post] of the block flows as [T], [F], [C] say. *)
Definition analysed (post : list MachineInstr) (T F : option nat) (C : list CondElem) : Prop :=
  (∀ rf, flow rf post = branch_flow rf T F C) ∧
  (C = [] → F = None) ∧ (C = [] ∨ ∃ opc r d k, C = [CondOpcode opc; CondOperand (MO_Register r d k)] ∧
     isCondBranchOpcode opc = true ∧ is_Some T).

Definition skips (MI : MachineInstr) : Prop := ∀ rf l, flow rf (MI :: l) = flow rf l.

Lemma non_terminator_skips (MI : MachineInstr) : isTerminator MI = false → skips MI.
Proof. intros H rf l. cbn. destruct MI as [[] os]; try discriminate H; reflexivity. Qed.

Lemma debug_not_terminator (MI : MachineInstr) : isDebugValue MI = true → isTerminator MI = false.
Proof.
  unfold isDebugValue. intros H. apply bool_decide_eq_true in H. destruct MI as [o os]. cbn in H.
  subst o. reflexivity.
Qed.

Lemma flow_skip_prefix (rf : Nyuzi.reg → Z) (pre l : list MachineInstr) :
  Forall (λ MI, isTerminator MI = false) pre → flow rf (pre ++ l) = flow rf l.
Proof.
  induction 1 as [| MI pre HI H IH]; [reflexivity |].
  rewrite <- app_comm_cons, (non_terminator_skips MI HI). exact IH.
Qed.

Lemma uncond_flow (rf : Nyuzi.reg → Z) (MI : MachineInstr) (l : list MachineInstr) (b : nat) :
  MIOpcode MI = Nyuzi.B → MIOperands MI = [MO_MachineBasicBlock b] → flow rf (MI :: l) = Some (Some b).
Proof. destruct MI as [o os]. cbn. intros -> ->. reflexivity. Qed.

Lemma cond_flow (rf : Nyuzi.reg → Z) (MI : MachineInstr) (l : list MachineInstr) (r : Nyuzi.reg) (d k : bool) (b : nat) :
  isCondBranchOpcode (MIOpcode MI) = true → MIOperands MI = [MO_Register r d k; MO_MachineBasicBlock b] →
  flow rf (MI :: l) = if taken (MIOpcode MI) (rf r) then Some (Some b) else flow rf l.
Proof.
  destruct MI as [o os]. cbn [MIOpcode MIOperands]. intros H ->. unfold isCondBranchOpcode in H.
  apply orb_true_iff in H as [H | H]; apply bool_decide_eq_true in H; subst o; reflexivity.
Qed.

Lemma branch_ok_uncond (MI : MachineInstr) :
  branch_ok MI = true → isUncondBranchOpcode (MIOpcode MI) = true →
  ∃ b, MIOpcode MI = Nyuzi.B ∧ MIOperands MI = [MO_MachineBasicBlock b].
Proof.
  unfold isUncondBranchOpcode. intros Hok H. apply bool_decide_eq_true in H. unfold branch_ok in Hok.
  rewrite H in Hok. destruct (MIOperands MI) as [| [] []]; try discriminate. eauto.
Qed.

Lemma branch_ok_cond (MI : MachineInstr) :
  branch_ok MI = true → isCondBranchOpcode (MIOpcode MI) = true →
  ∃ r d k b, MIOperands MI = [MO_Register r d k; MO_MachineBasicBlock b].
Proof.
  unfold isCondBranchOpcode. intros Hok H. unfold branch_ok in Hok.
  apply orb_true_iff in H as [H | H]; apply bool_decide_eq_true in H; rewrite H in Hok;
    (destruct (MIOperands MI) as [| [] [| [] []]]; try discriminate; eauto 6).
Qed.

Lemma terminators_last_app (l : list MachineInstr) (MI : MachineInstr) :
  terminators_last (l ++ [MI]) = true →
  terminators_last l = true ∧
  (isTerminator MI = false → isDebugValue MI = false → Forall (λ J, isTerminator J = false) (l ++ [MI])).
Proof.
  induction l as [| J l IH]; cbn.
  - intros _. split; [reflexivity |]. intros H _. constructor; [exact H | constructor].
  - destruct (isTerminator J) eqn:E.
    + rewrite forallb_app. intros H. apply andb_true_iff in H as [H1 H2]. split; [exact H1 |].
      intros HT HD. cbn in H2. rewrite HT, HD in H2. discriminate.
    + intros H. destruct (IH H) as [H1 H2]. split; [exact H1 |].
      intros HT HD. constructor; [exact E | apply H2; assumption].
Qed.

(** The walk: started on an analysed part it returns; if it succeeds, the whole
    block (as it was, and as it may have been cut) flows as its result says. *)
Lemma analyze_walk_spec (AM : bool) (rp : list MachineInstr) :
  Forall (λ MI, branch_ok MI = true) rp → terminators_last (rev rp) = true →
  ∀ post post0 T F C,
  analysed post T F C → (∀ rf, flow rf post0 = flow rf post) →
  ∃ r, analyze_walk AM rp post T F C = Ret r ∧
    (CantAnalyze r = false →
       analysed (rev rp ++ post0) (TBB r) (FBB r) (Cond r) ∧
       ∀ rf, flow rf (Block r) = flow rf (rev rp ++ post0)).
Proof.
  induction rp as [| MI rest IH]; intros Hok Ht post post0 T F C (Hf & HF & HC) Hp.
  { eexists. split; [reflexivity |]. intros _. cbn. split.
    - split; [intros rf; rewrite Hp; apply Hf | split; assumption].
    - intros rf. symmetry. apply Hp. }
  apply Forall_cons in Hok as [Hok1 Hok]. cbn [rev] in Ht.
  destruct (terminators_last_app _ _ Ht) as [Ht' Hnt].
  assert (Hrw : ∀ l : list MachineInstr, rev (MI :: rest) ++ l = rev rest ++ (MI :: l))
    by (intros l; cbn; rewrite <- app_assoc; reflexivity).
  setoid_rewrite Hrw. cbn [analyze_walk].
  destruct (isDebugValue MI) eqn:HD.
  { pose proof (non_terminator_skips _ (debug_not_terminator _ HD)) as Hs.
    apply (IH Hok Ht' (MI :: post) (MI :: post0)).
    - split; [intros rf; rewrite Hs; apply Hf | split; assumption].
    - intros rf. rewrite !Hs. apply Hp. }
  destruct (isTerminator MI) eqn:HT; cbn [negb].
  2: { eexists. split; [reflexivity |]. intros _. cbn [CantAnalyze TBB FBB Cond Block].
    specialize (Hnt eq_refl eq_refl).
    assert (Hfl : ∀ rf l, flow rf (rev rest ++ MI :: l) = flow rf l).
    { intros rf l. rewrite <- (flow_skip_prefix rf _ l Hnt), <- app_assoc. reflexivity. }
    rewrite Hrw. split; [split; [intros rf; rewrite Hfl, Hp; apply Hf | split; assumption] |].
    intros rf. rewrite !Hfl. symmetry. apply Hp. }
  destruct (isUncondBranchOpcode (MIOpcode MI)) eqn:HU.
  { destruct (branch_ok_uncond MI Hok1 HU) as (b & Hop & Hos).
    unfold MIgetOperand. rewrite Hos. cbn [at_index MOgetMBB mbind outcome_bind].
    apply (IH Hok Ht').
    - split; [| split; [reflexivity | left; reflexivity]].
      intros rf. rewrite (uncond_flow rf MI _ b Hop Hos). reflexivity.
    - intros rf. rewrite !(uncond_flow rf MI _ b Hop Hos). reflexivity. }
  destruct (isCondBranchOpcode (MIOpcode MI)) eqn:HB.
  2: { eexists. split; [reflexivity |]. discriminate. }
  destruct (decide (C = [])) as [-> | HC0].
  2: { rewrite bool_decide_false by exact HC0. eexists. split; [reflexivity |]. discriminate. }
  destruct (branch_ok_cond MI Hok1 HB) as (r & d & k & b & Hos).
  specialize (HF eq_refl). subst F. cbn [bool_decide negb].
  rewrite !bool_decide_true by reflexivity. cbn [negb cassert mbind outcome_bind].
  unfold MIgetOperand. rewrite Hos. cbn [at_index MOgetMBB mbind outcome_bind].
  apply (IH Hok Ht').
  - split; [| split; [discriminate |]].
    + intros rf. rewrite (cond_flow rf MI _ r d k b HB Hos). cbn [branch_flow]. rewrite Hf. reflexivity.
    + right. exists (MIOpcode MI), r, d, k. split; [reflexivity |]. split; [exact HB | eauto].
  - intros rf. rewrite !(cond_flow rf MI _ r d k b HB Hos), Hp. reflexivity.
Qed.

(** What [removeBranch] leaves of a reversed block, and how many branches it
    takes away. *)
Definition is_branch (MI : MachineInstr) : bool :=
  isUncondBranchOpcode (MIOpcode MI) || isCondBranchOpcode (MIOpcode MI).

Fixpoint strip (rp : list MachineInstr) : list MachineInstr * Z :=
  match rp with
  | [] => ([], 0)
  | MI :: rest =>
      if isDebugValue MI then (MI :: fst (strip rest), snd (strip rest))
      else if is_branch MI then (fst (strip rest), snd (strip rest) + 1)
      else (rp, 0)
  end.

Lemma scan_spec (rp post : list MachineInstr) :
  match removeBranch_scan rp post with
  | None => strip rp = (rp, 0)
  | Some M => ∃ d b rest, rp = d ++ b :: rest ∧ Forall (λ MI, isDebugValue MI = true) d ∧
                isDebugValue b = false ∧ is_branch b = true ∧ M = rev rest ++ rev d ++ post
  end.
Proof.
  revert post. induction rp as [| MI rest IH]; intros post; cbn; [reflexivity |].
  destruct (isDebugValue MI) eqn:HD.
  - specialize (IH (MI :: post)). destruct (removeBranch_scan rest (MI :: post)) as [M |].
    + destruct IH as (d & b & rest' & -> & Hd & Hb1 & Hb2 & ->).
      exists (MI :: d), b, rest'. split; [reflexivity |]. split; [constructor; assumption |].
      split; [exact Hb1 |]. split; [exact Hb2 |]. cbn. rewrite <- app_assoc. reflexivity.
    + rewrite IH. reflexivity.
  - unfold is_branch. rewrite <- negb_orb. destruct (_ || _) eqn:HB; cbn [negb]; [| reflexivity].
    exists [], MI, rest. cbn. unfold is_branch. auto.
Qed.

Lemma strip_debug (d rp : list MachineInstr) :
  Forall (λ MI, isDebugValue MI = true) d → strip (d ++ rp) = (d ++ fst (strip rp), snd (strip rp)).
Proof.
  induction 1 as [| MI d HD H IH]; cbn; [destruct (strip rp); reflexivity |].
  rewrite HD, IH. reflexivity.
Qed.

Lemma removeBranch_loop_strip (fuel : nat) (MBB : list MachineInstr) (Count : Z) :
  (length MBB < fuel)%nat →
  removeBranch_loop fuel MBB Count = Some (rev (fst (strip (rev MBB))), Count + snd (strip (rev MBB))).
Proof.
  revert MBB Count. induction fuel as [| fuel IH]; intros MBB Count Hf; [lia |]. cbn [removeBranch_loop].
  pose proof (scan_spec (rev MBB) []) as H. destruct (removeBranch_scan (rev MBB) []) as [M |].
  - destruct H as (d & b & rest & HR & Hd & Hb1 & Hb2 & ->).
    assert (HM : rev (rev rest ++ rev d ++ []) = d ++ rest)
      by (rewrite app_nil_r, rev_app_distr, !rev_involutive; reflexivity).
    rewrite IH, HM, HR, !strip_debug by
      (assumption || (apply (f_equal (@length MachineInstr)) in HR; revert HR;
        rewrite ?length_app, ?length_rev, ?length_app; cbn; lia)).
    cbn. rewrite Hb1, Hb2. cbn. do 2 f_equal. lia.
  - rewrite H. cbn. rewrite rev_involutive, Z.add_0_r. reflexivity.
Qed.

Lemma removeBranch_strip (MBB : list MachineInstr) :
  removeBranch MBB None = Ret (rev (fst (strip (rev MBB))), snd (strip (rev MBB))).
Proof. unfold removeBranch. cbn [bool_decide]. rewrite bool_decide_true by reflexivity.
  cbn [cassert mbind outcome_bind]. rewrite removeBranch_loop_strip by lia. reflexivity.
Qed.

(** A successful walk has only seen branches among the terminators. *)
Lemma analyze_walk_terminators (AM : bool) (rp post : list MachineInstr) (T F : option nat)
    (C : list CondElem) (r : BranchInfo) :
  terminators_last (rev rp) = true → analyze_walk AM rp post T F C = Ret r → CantAnalyze r = false →
  Forall (λ MI, isTerminator MI = false) (fst (strip rp)).
Proof.
  revert post T F C. induction rp as [| MI rest IH]; intros post T F C Ht H Hc; [constructor |].
  cbn [rev] in Ht. destruct (terminators_last_app _ _ Ht) as [Ht' Hnt]. cbn [analyze_walk] in H. cbn [strip].
  destruct (isDebugValue MI) eqn:HD.
  { constructor; [apply debug_not_terminator, HD | eapply IH; eassumption]. }
  destruct (isTerminator MI) eqn:HT; cbn [negb] in H.
  2: { replace (is_branch MI) with false.
    - specialize (Hnt eq_refl eq_refl). apply List.Forall_rev in Hnt.
      rewrite rev_app_distr, rev_involutive in Hnt. exact Hnt.
    - symmetry. unfold is_branch, isUncondBranchOpcode, isCondBranchOpcode. destruct MI as [[] os];
        try discriminate HT; reflexivity. }
  unfold is_branch. destruct (isUncondBranchOpcode (MIOpcode MI)) eqn:HU; cbn [orb fst].
  { inv_ret. eapply IH; eassumption. }
  destruct (isCondBranchOpcode (MIOpcode MI)) eqn:HB; cbn [fst].
  - destruct (negb (bool_decide (C = []))); [injection H as <-; discriminate |].
    inv_ret. eapply IH; eassumption.
  - injection H as <-. discriminate.
Qed.

(** ** Properties *)

(** C26. [analyzeBranch] is total and sound on a well-formed block: it never runs
    into its assertion, and when it does not give up, the block goes, for every
    register contents, where the reported targets and condition say (and a block
    it cut because it was allowed to still goes there). *)
Theorem analyzeBranch_sound (AllowModify : bool) (MBB : list MachineInstr) :
  block_ok MBB = true → ∃ r, analyzeBranch AllowModify MBB = Ret r ∧
    (CantAnalyze r = false → ∀ rf,
       flow rf MBB = branch_flow rf (TBB r) (FBB r) (Cond r) ∧ flow rf (Block r) = flow rf MBB).
Proof.
  intros Hok. apply andb_true_iff in Hok as [Hb Ht].
  destruct (analyze_walk_spec AllowModify (rev MBB)) with (post := @nil MachineInstr) (post0 := @nil MachineInstr)
    (T := @None nat) (F := @None nat) (C := @nil CondElem) as (r & HA & Hr).
  - apply List.Forall_rev, List.Forall_forall, forallb_forall, Hb.
  - rewrite rev_involutive. exact Ht.
  - split; [reflexivity |]. split; [reflexivity | left; reflexivity].
  - reflexivity.
  - exists r. split; [exact HA |]. intros Hc rf. destruct (Hr Hc) as [(Hf & _) HB].
    rewrite rev_involutive, app_nil_r in *. split; [apply Hf | apply HB].
Qed.

Example analyzeBranch_sound_witness :
  let MBB := [mkMI Nyuzi.ADDISSI []; mkMI Nyuzi.BZ [MO_Register (Nyuzi.S 1) false false; MO_MachineBasicBlock 4];
              mkMI Nyuzi.DBG_VALUE []; mkMI Nyuzi.B [MO_MachineBasicBlock 7]] in
  ∃ r, analyzeBranch true MBB = Ret r ∧ TBB r = Some 4%nat ∧ FBB r = Some 7%nat ∧
    ∀ rf, flow rf MBB = branch_flow rf (TBB r) (FBB r) (Cond r).
Proof.
  intros MBB. destruct (analyzeBranch_sound true MBB ltac:(vm_compute; reflexivity)) as (r & HA & Hr).
  exists r. split; [exact HA |]. vm_compute in HA. injection HA as <-.
  split; [reflexivity |]. split; [reflexivity |]. intros rf. apply (Hr eq_refl rf).
Defined.

(** C27. Branch rewriting preserves control flow: after an analysis that found a
    target, [removeBranch] terminates, takes the branches away, and
    [insertBranch] with the analysed targets and condition rebuilds a block that
    goes where the original one went. *)
Theorem remove_insert_branch (MBB : list MachineInstr) (r : BranchInfo) :
  block_ok MBB = true → analyzeBranch false MBB = Ret r → CantAnalyze r = false → is_Some (TBB r) →
  ∃ MBB1 n MBB2 m, removeBranch MBB None = Ret (MBB1, n) ∧
    Forall (λ MI, isTerminator MI = false) MBB1 ∧
    insertBranch MBB1 (TBB r) (FBB r) (Cond r) None = Ret (MBB2, m) ∧
    Z.of_nat (length MBB2) = Z.of_nat (length MBB1) + m ∧
    ∀ rf, flow rf MBB2 = flow rf MBB.
Proof.
  intros Hok HA Hc [T HT]. pose proof Hok as Hok'. apply andb_true_iff in Hok as [Hb Ht].
  destruct (analyze_walk_spec false (rev MBB)) with (post := @nil MachineInstr) (post0 := @nil MachineInstr)
    (T := @None nat) (F := @None nat) (C := @nil CondElem) as (r' & HA' & Hr).
  { apply List.Forall_rev, List.Forall_forall, forallb_forall, Hb. }
  { rewrite rev_involutive. exact Ht. }
  { split; [reflexivity |]. split; [reflexivity | left; reflexivity]. }
  { reflexivity. }
  unfold analyzeBranch in HA. rewrite HA in HA'. injection HA' as <-.
  destruct (Hr Hc) as [(Hf & HF & HC) _]. rewrite rev_involutive, app_nil_r in *.
  assert (HN : Forall (λ MI, isTerminator MI = false) (rev (fst (strip (rev MBB))))).
  { apply List.Forall_rev. eapply analyze_walk_terminators; [| exact HA | exact Hc].
    rewrite rev_involutive. exact Ht. }
  set (MBB1 := rev (fst (strip (rev MBB)))) in *.
  exists MBB1, (snd (strip (rev MBB))). rewrite HT in *.
  assert (Hgoal : ∃ l m, insertBranch MBB1 (Some T) (FBB r) (Cond r) None = Ret (MBB1 ++ l, m) ∧
            Z.of_nat (length l) = m ∧ ∀ rf, flow rf l = branch_flow rf (Some T) (FBB r) (Cond r)).
  { destruct HC as [HC | (opc & x & d & k & HC & Hbr & _)]; rewrite HC.
    - rewrite (HF HC). do 2 eexists. split; [reflexivity |]. split; reflexivity.
    - pose proof (λ rf l, cond_flow rf (mkMI opc [MO_Register x d k; MO_MachineBasicBlock T]) l x d k T Hbr eq_refl) as Hcf.
      destruct (FBB r) as [F |].
      + exists [mkMI opc [MO_Register x d k; MO_MachineBasicBlock T]; mkMI Nyuzi.B [MO_MachineBasicBlock F]], 2.
        split; [| split; [reflexivity |]; intros rf; rewrite Hcf; reflexivity].
        transitivity (Ret ((MBB1 ++ [mkMI opc [MO_Register x d k; MO_MachineBasicBlock T]]) ++
                           [mkMI Nyuzi.B [MO_MachineBasicBlock F]], 2)); [reflexivity |].
        rewrite <- app_assoc. reflexivity.
      + exists [mkMI opc [MO_Register x d k; MO_MachineBasicBlock T]], 1.
        split; [reflexivity |]. split; [reflexivity |]. intros rf. rewrite Hcf. reflexivity. }
  destruct Hgoal as (l & m & HI & Hl & Hfl). exists (MBB1 ++ l), m.
  split; [apply removeBranch_strip |]. split; [exact HN |]. split; [exact HI |].
  split; [rewrite length_app; lia |].
  intros rf. rewrite (flow_skip_prefix rf _ l HN), Hfl, Hf. reflexivity.
Qed.

Example remove_insert_branch_witness :
  let MBB := [mkMI Nyuzi.ADDISSI []; mkMI Nyuzi.BNZ [MO_Register (Nyuzi.S 1) false false; MO_MachineBasicBlock 4];
              mkMI Nyuzi.B [MO_MachineBasicBlock 7]] in
  ∃ MBB1 n MBB2 m, removeBranch MBB None = Ret (MBB1, n) ∧ n = 2 ∧
    insertBranch MBB1 (Some 4%nat) (Some 7%nat)
      [CondOpcode Nyuzi.BNZ; CondOperand (MO_Register (Nyuzi.S 1) false false)] None = Ret (MBB2, m) ∧
    ∀ rf, flow rf MBB2 = flow rf MBB.
Proof.
  intros MBB.
  destruct (remove_insert_branch MBB
    (mkBranchInfo false (Some 4%nat) (Some 7%nat)
       [CondOpcode Nyuzi.BNZ; CondOperand (MO_Register (Nyuzi.S 1) false false)] MBB)
    ltac:(vm_compute; reflexivity) ltac:(vm_compute; reflexivity) ltac:(reflexivity) ltac:(eexists; reflexivity))
    as (MBB1 & n & MBB2 & m & H1 & _ & H2 & _ & H3).
  exists MBB1, n, MBB2, m. split; [exact H1 |]. split; [vm_compute in H1; congruence |]. split; [exact H2 | exact H3].
Defined.
