(* ===== verification/NyuziFrame.v ===== *)
(** * NyuziFrame: stack frames

    lib/Target/Nyuzi/NyuziFrameLowering.cpp and NyuziRegisterInfo.cpp:
    prologue, epilogue, call frame pseudo instructions, callee saves, the
    worst-case frame size and the elimination of frame indices. *)
From S2P Require Import Prelude MathExtras NyuziTarget NyuziMachine NyuziInstrInfo.

(** [TargetFrameLowering(StackGrowsDown, 64, 0, 64)] *)
Definition getStackAlignment : Z := 64.

Definition hasFP (MF : MachineFunction) : bool :=
  DisableFramePointerElim MF || HasVarSizedObjects (MFI MF) || FrameAddressTaken (MFI MF).

Definition hasReservedCallFrame (MF : MachineFunction) : bool := negb (HasVarSizedObjects (MFI MF)).

(** ** NyuziRegisterInfo *)
Definition getCalleeSavedRegs : list Nyuzi.reg := Nyuzi.NyuziCSR_SaveList.

Definition getReservedRegs : list Nyuzi.reg := [Nyuzi.SP_REG; Nyuzi.RA_REG; Nyuzi.FP_REG; Nyuzi.GP_REG].

Definition getPointerRegClass : Nyuzi.regclass := Nyuzi.GPR32RegClass.

Definition getFrameRegister (MF : MachineFunction) : Nyuzi.reg :=
  if hasFP MF then Nyuzi.FP_REG else Nyuzi.SP_REG.

(** [MI.getOperand(i).ChangeTo...]: operand [i] replaced. *)
Definition setOperand (MI : MachineInstr) (i : Z) (MO : MachineOperand) : outcome MachineInstr :=
  at_index (MIOperands MI) i ≫= λ _, Ret (mkMI (MIOpcode MI) (<[Z.to_nat i := MO]> (MIOperands MI))).

Definition set_head (c : cursor) (MI : MachineInstr) : cursor :=
  mkCursor (before c) (match after c with _ :: l => MI :: l | [] => [] end).

(** The register [eliminateFrameIndex] addresses the object from: [SP_REG] for
    the callee-saved slots, as the frame pointer is not set up yet. *)
Definition frameRegFor (MF : MachineFunction) (FrameIndex : Z) : Nyuzi.reg :=
  let CSI := CSInfo (MFI MF) in
  let MinCSFI := match CSI with (_, fi) :: _ => fi | [] => 0 end in
  let MaxCSFI := match last CSI with Some (_, fi) => fi | None => -1 end in
  if (MinCSFI <=? FrameIndex) && (FrameIndex <=? MaxCSFI) then Nyuzi.SP_REG else getFrameRegister MF.

(** [eliminateFrameIndex(MBBI, SPAdj, FIOperandNum, RS)] *)
Definition eliminateFrameIndex (MF : MachineFunction) (c : cursor) (SPAdj FIOperandNum : Z)
    : outcome (MachineFunction * cursor) :=
  cassert (SPAdj =? 0) "Unexpected" ≫= λ _,
  deref c ≫= λ MI,
  MIgetOperand MI FIOperandNum ≫= λ o, MOgetIndex o ≫= λ FrameIndex,
  alignTo (StackSize (MFI MF)) getStackAlignment 0 ≫= λ sz,
  let stackSize := i32 sz in
  getObjectOffset (MFI MF) FrameIndex ≫= λ objOffset,
  MIgetOperand MI (FIOperandNum + 1) ≫= λ o1, MOgetImm o1 ≫= λ imm,
  let Offset := i64 (objOffset + imm + stackSize) in
  let FrameReg := frameRegFor MF FrameIndex in
  if isInt 14 Offset then
    setOperand MI FIOperandNum (addReg FrameReg) ≫= λ MI,
    setOperand MI (FIOperandNum + 1) (MO_Immediate Offset) ≫= λ MI,
    Ret (MF, set_head c MI)
  else if isInt 25 Offset then
    let '(Reg, MF) := createVirtualRegister MF in
    let c := BuildMI c (mkMI Nyuzi.MOVEHI
               [addDef Reg; MO_Immediate (Z.land (Z.shiftr Offset 13) 0x7ffff)]) in
    let c := BuildMI c (mkMI Nyuzi.ADDISSS [addDef Reg; addReg FrameReg; addReg Reg]) in
    setOperand MI FIOperandNum (addKill Reg true) ≫= λ MI,
    setOperand MI (FIOperandNum + 1) (MO_Immediate (Z.land Offset 0x1fff)) ≫= λ MI,
    Ret (MF, set_head c MI)
  else FatalError "frame index out of bounds: frame too large".

(** ** Prologue and epilogue *)

(** [++MBBI] / [--MBBI] in a counted loop *)
Fixpoint advance (n : nat) (c : cursor) : outcome cursor :=
  match n with O => Ret c | S n' => next c ≫= advance n' end.

Fixpoint retreat (n : nat) (c : cursor) : outcome cursor :=
  match n with O => Ret c | S n' => prev c ≫= retreat n' end.

(** [BuildMI(MBB, MBBI, DL, get(CFI_INSTRUCTION)).addCFIIndex(MF.addFrameInst(d))] *)
Definition buildCFI (MF : MachineFunction) (c : cursor) (d : CFIInst) : MachineFunction * cursor :=
  let '(i, MF) := addFrameInst MF d in (MF, BuildMI c (mkMI Nyuzi.CFI_INSTRUCTION [MO_CFIIndex i])).

Fixpoint emitCalleeSavedCFI (CSI : list (Nyuzi.reg * Z)) (MF : MachineFunction) (c : cursor)
    : outcome (MachineFunction * cursor) :=
  match CSI with
  | [] => Ret (MF, c)
  | (Reg, fi) :: CSI' =>
      getObjectOffset (MFI MF) fi ≫= λ Offset,
      let '(MF, c) := buildCFI MF c (CfiOffset (Nyuzi.getDwarfRegNum Reg) Offset) in
      emitCalleeSavedCFI CSI' MF c
  end.

(** [emitPrologue(MF, MBB)]; [is_front] is [&MF.front() == &MBB]. *)
Definition emitPrologue (MF : MachineFunction) (is_front : bool) (MBB : list MachineInstr)
    : outcome (MachineFunction * list MachineInstr) :=
  cassert is_front "&MF.front() == &MBB" ≫= λ _,
  let c := mkCursor [] MBB in
  alignTo (StackSize (MFI MF)) getStackAlignment 0 ≫= λ sz,
  let StackSize := i32 sz in
  if (StackSize =? 0) && negb (AdjustsStack (MFI MF)) then Ret (MF, block_of c)
  else
    adjustStackPointer MF c (i32 (- StackSize)) ≫= λ '(MF, c),
    let '(MF, c) := buildCFI MF c (DefCfaOffset (i32 (- StackSize))) in
    let CSI := CSInfo (MFI MF) in
    (if (0 <? length CSI)%nat then
       advance (length CSI) c ≫= λ c, emitCalleeSavedCFI CSI MF c
     else Ret (MF, c)) ≫= λ '(MF, c),
    if hasFP MF then
      let c := BuildMI c (mkMI Nyuzi.MOVESS [addReg Nyuzi.FP_REG; addReg Nyuzi.SP_REG]) in
      let '(MF, c) := buildCFI MF c (DefCfaRegister (Nyuzi.getDwarfRegNum Nyuzi.FP_REG)) in
      Ret (MF, block_of c)
    else Ret (MF, block_of c).

(** [MBB.getLastNonDebugInstr()]: the cursor at the last instruction that is not
    a debug value, at the end when there is none. *)
Fixpoint lastNonDebug (rev_pre post : list MachineInstr) : option cursor :=
  match rev_pre with
  | [] => None
  | MI :: rest =>
      if isDebugValue MI then lastNonDebug rest (MI :: post) else Some (mkCursor (rev rest) (MI :: post))
  end.

Definition getLastNonDebugInstr (MBB : list MachineInstr) : cursor :=
  default (mkCursor MBB []) (lastNonDebug (rev MBB) []).

Definition emitEpilogue (MF : MachineFunction) (MBB : list MachineInstr)
    : outcome (MachineFunction * list MachineInstr) :=
  let c := getLastNonDebugInstr MBB in
  deref c ≫= λ MI,
  cassert (bool_decide (MIOpcode MI = Nyuzi.RET)) "Can only put epilog before 'retl' instruction!" ≫= λ _,
  (if hasFP MF then
     let n := length (CSInfo (MFI MF)) in
     retreat n c ≫= λ I,
     let I := BuildMI I (mkMI Nyuzi.MOVESS [addReg Nyuzi.SP_REG; addReg Nyuzi.FP_REG]) in
     advance n I
   else Ret c) ≫= λ c,
  alignTo (StackSize (MFI MF)) getStackAlignment 0 ≫= λ StackSize,
  if StackSize =? 0 then Ret (MF, block_of c)
  else adjustStackPointer MF c (i32 StackSize) ≫= λ '(MF, c), Ret (MF, block_of c).

(** [TII.getFrameSize(MI)] of TargetInstrInfo.h *)
Definition isFrameInstr (MI : MachineInstr) : bool :=
  bool_decide (MIOpcode MI = Nyuzi.ADJCALLSTACKDOWN) || bool_decide (MIOpcode MI = Nyuzi.ADJCALLSTACKUP).

Definition getFrameSize (MI : MachineInstr) : outcome Z :=
  cassert (isFrameInstr MI) "Not a frame instruction" ≫= λ _,
  MIgetOperand MI 0 ≫= λ o, MOgetImm o ≫= λ v,
  cassert (0 <=? v) "I.getOperand(0).getImm() >= 0" ≫= λ _, Ret v.

(** [eliminateCallFramePseudoInstr(MF, MBB, MBBI)]; the cursor returned is the
    one after the erased instruction. *)
Definition eliminateCallFramePseudoInstr (MF : MachineFunction) (c : cursor)
    : outcome (MachineFunction * cursor) :=
  deref c ≫= λ MI,
  getFrameSize MI ≫= λ size,
  let Amount := i32 size in
  (if negb (Amount =? 0) && negb (hasReservedCallFrame MF) then
     cassert (hasFP MF) "Cannot adjust stack mid-function without a frame pointer" ≫= λ _,
     let Amount := if bool_decide (MIOpcode MI = Nyuzi.ADJCALLSTACKDOWN) then i32 (- Amount) else Amount in
     adjustStackPointer MF c Amount
   else Ret (MF, c)) ≫= λ '(MF, c),
  Ret (MF, mkCursor (before c) (tail (after c))).

(** ** Callee saves *)

(** What the base class asks of the function. *)
Record FunctionInfo : Type := mkFunctionInfo {
  NoCSROpt : bool;          (* EnableIPRA && isSafeForNoCSROpt *)
  Naked : bool;
  NeverReturns : bool;      (* NoReturn && NoUnwind && !UWTable && enableCalleeSaveSkip *)
  CallsUnwindInit : bool;
  isPhysRegModified : Nyuzi.reg → bool
}.

(** [TargetFrameLowering::determineCalleeSaves] *)
Definition TFL_determineCalleeSaves (F : FunctionInfo) (SavedRegs : list Nyuzi.reg) : list Nyuzi.reg :=
  if NoCSROpt F then SavedRegs
  else if Naked F then SavedRegs
  else if NeverReturns F then SavedRegs
  else SavedRegs ++ List.filter (λ r, CallsUnwindInit F || isPhysRegModified F r) getCalleeSavedRegs.

(** [TRI.getRegSizeInBits] of the minimal class of a physical register *)
Definition getRegSizeInBits (r : Nyuzi.reg) : Z :=
  if Nyuzi.contains Nyuzi.GPR32RegClass r then 32 else 512.

Fixpoint fixedObjectsExtent (m : MachineFrameInfo) (I : Z) (n : nat) (Offset : Z) : outcome Z :=
  match n with
  | O => Ret Offset
  | S n' => getObjectOffset m I ≫= λ o, fixedObjectsExtent m (I + 1) n' (Z.max Offset (- o))
  end.

Fixpoint addCalleeSaved (l : list Nyuzi.reg) (Offset : Z) : outcome Z :=
  match l with
  | [] => Ret Offset
  | r :: l' =>
      let Size := getRegSizeInBits r in
      alignTo (u64 (Offset + Size)) Size 0 ≫= λ o, addCalleeSaved l' (i64 o)
  end.

Fixpoint addObjects (m : MachineFrameInfo) (MaxAlign I : Z) (n : nat) (Offset : Z) : outcome Z :=
  match n with
  | O => Ret Offset
  | S n' =>
      getObjectSize m I ≫= λ s,
      alignTo (u64 (Offset + s)) MaxAlign 0 ≫= λ o, addObjects m MaxAlign (I + 1) n' (i64 o)
  end.

Definition getWorstCaseStackSize (MF : MachineFunction) : outcome Z :=
  let m := MFI MF in
  fixedObjectsExtent m (getObjectIndexBegin m) (Z.to_nat (- getObjectIndexBegin m)) 0 ≫= λ Offset,
  addCalleeSaved getCalleeSavedRegs Offset ≫= λ Offset,
  let MaxAlign := MaxAlignment m in
  cassert ((getObjectIndexEnd m =? 0) || negb (MaxAlign =? 0)) "!MFI.getObjectIndexEnd() || MaxAlign" ≫= λ _,
  addObjects m MaxAlign 0 (Z.to_nat (getObjectIndexEnd m)) Offset ≫= λ Offset,
  (if AdjustsStack m && hasReservedCallFrame MF then
     alignTo (u64 (Offset + getMaxCallFrameSize m)) (Z.max MaxAlign getStackAlignment) 0 ≫= λ o, Ret (i64 o)
   else Ret Offset) ≫= λ Offset,
  alignTo (u64 Offset) getStackAlignment 0.

(** [MFI.CreateStackObject(Size, Alignment, isSpillSlot)] *)
Definition CreateStackObject (m : MachineFrameInfo) (Size Alignment : Z) : outcome (Z * MachineFrameInfo) :=
  cassert (negb (Size =? 0)) "Cannot allocate zero size stack objects!" ≫= λ _,
  let Objs := Objects m ++ [mkStackObject Size 0 Alignment false] in
  let Index := Z.of_nat (length Objs) - NumFixedObjects m - 1 in
  cassert (0 <=? Index) "Bad frame index!" ≫= λ _,
  Ret (Index, mkMFI Objs (NumFixedObjects m) (StackSize m) (AdjustsStack m) (HasVarSizedObjects m)
                (FrameAddressTaken m) (CSInfo m) (Z.max (MaxAlignment m) Alignment) (MaxCallFrameSize m)).

(** [determineCalleeSaves(MF, SavedRegs, RS)]: the saved registers, the scavenging
    frame indices and the frame. *)
Definition determineCalleeSaves (F : FunctionInfo) (MF : MachineFunction) (SavedRegs : list Nyuzi.reg)
    (RS : list Z) : outcome (list Nyuzi.reg * list Z * MachineFunction) :=
  let SavedRegs := TFL_determineCalleeSaves F SavedRegs in
  let SavedRegs := if hasFP MF then SavedRegs ++ [Nyuzi.FP_REG] else SavedRegs in
  getWorstCaseStackSize MF ≫= λ worst,
  if isInt 14 (i64 worst) then Ret (SavedRegs, RS, MF)
  else
    CreateStackObject (MFI MF) 4 4 ≫= λ '(FI, m),
    Ret (SavedRegs, RS ++ [FI], mkMF m (DisableFramePointerElim MF) (NextVReg MF) (FrameInsts MF)).

(** ** Lemmas *)

(** The instructions that may hold a frame index, and their access at an
    address. *)
Definition frame_opcode (opc : Nyuzi.opcode) : bool :=
  match opc with
  | Nyuzi.LW | Nyuzi.SW | Nyuzi.BLOCK_LOADI | Nyuzi.BLOCK_STOREI | Nyuzi.ADDISSI => true
  | _ => false
  end.

Definition access (opc : Nyuzi.opcode) (r : Nyuzi.reg) (a : Z) (st : mstate) : mstate :=
  match opc with
  | Nyuzi.LW => set_reg r (mem st a) st
  | Nyuzi.SW => set_mem a (regs st r) st
  | Nyuzi.BLOCK_LOADI => set_vreg r (load_block st a) st
  | Nyuzi.BLOCK_STOREI => store_block a (vregs st r) st
  | _ => set_reg r a st
  end.

Lemma exec1_access (fi_addr : Z → Z) (opc : Nyuzi.opcode) (r : Nyuzi.reg) (d k : bool) (b : MachineOperand)
    (i : Z) (st : mstate) :
  frame_opcode opc = true →
  exec1 fi_addr (mkMI opc [MO_Register r d k; b; MO_Immediate i]) st =
    base_value fi_addr st b ≫= λ v, Some (access opc r (u32 (v + i)) st).
Proof. destruct opc; try discriminate; reflexivity. Qed.

Lemma access_agree (n : nat) (opc : Nyuzi.opcode) (r : Nyuzi.reg) (a : Z) (s t : mstate) :
  r ≠ Nyuzi.VirtReg n → agree_except n s t → agree_except n (access opc r a s) (access opc r a t).
Proof.
  intros Hr H. destruct opc; cbn [access];
    rewrite ?(ae_mem _ _ _ H), ?(ae_regs _ _ _ H r Hr), ?(load_block_agree n a s t H), ?(ae_vregs _ _ _ H r);
    rewrite H; reflexivity.
Qed.

Lemma frameRegFor_phys (MF : MachineFunction) (fi : Z) (n : nat) : frameRegFor MF fi ≠ Nyuzi.VirtReg n.
Proof. unfold frameRegFor, getFrameRegister. destruct (_ && _); [| destruct (hasFP MF)]; discriminate. Qed.

(** The split of a large offset: the shifted part in the register, the rest in
    the immediate. *)
Lemma split_offset (base Offset : Z) :
  u32 (u32 (base + u32 (Z.shiftl (Z.land (Z.shiftr Offset 13) 0x7ffff) 13)) + Z.land Offset 0x1fff)
  = u32 (base + Offset).
Proof.
  assert (E : Offset = Z.shiftl (Z.shiftr Offset 13) 13 + Z.land Offset 8191).
  { change 0x1fff with (Z.ones 13). rewrite uint_land_ones, <- Z.or_to_plus by first [lia | bitwise]. bitwise. }
  assert (E2 : u32 (Z.shiftl (Z.land (Z.shiftr Offset 13) 524287) 13) = u32 (Z.shiftl (Z.shiftr Offset 13) 13)).
  { change 524287 with (Z.ones 19). rewrite uint_land_ones by lia. bitwise. }
  rewrite E2. autorewrite with cint_mod. rewrite E at 3. f_equal. lia.
Qed.

(** The result of [eliminateFrameIndex] on the operands of an access, case by
    case. *)
Lemma eliminateFrameIndex_eq (MF : MachineFunction) (c : cursor) (post : list MachineInstr)
    (opc : Nyuzi.opcode) (r : Nyuzi.reg) (d k : bool) (fi imm o S : Z) :
  after c = mkMI opc [MO_Register r d k; MO_FrameIndex fi; MO_Immediate imm] :: post →
  getObjectOffset (MFI MF) fi = Ret o → alignTo (StackSize (MFI MF)) getStackAlignment 0 = Ret S →
  let Offset := i64 (o + imm + i32 S) in
  let Reg := Nyuzi.VirtReg (NextVReg MF) in
  let MI b i := mkMI opc [MO_Register r d k; b; MO_Immediate i] in
  eliminateFrameIndex MF c 0 1 =
    if isInt 14 Offset then
      Ret (MF, mkCursor (before c) (MI (addReg (frameRegFor MF fi)) Offset :: post))
    else if isInt 25 Offset then
      Ret (snd (createVirtualRegister MF),
           mkCursor ((before c ++ [mkMI Nyuzi.MOVEHI
                        [addDef Reg; MO_Immediate (Z.land (Z.shiftr Offset 13) 0x7ffff)]])
                     ++ [mkMI Nyuzi.ADDISSS [addDef Reg; addReg (frameRegFor MF fi); addReg Reg]])
             (MI (addKill Reg true) (Z.land Offset 0x1fff) :: post))
    else FatalError "frame index out of bounds: frame too large".
Proof.
  intros Ha Ho HS. unfold eliminateFrameIndex, deref. rewrite Ha.
  etransitivity; [| reflexivity].
  change (cassert (0 =? 0) "Unexpected") with (Ret tt). rewrite !outcome_bind_ret.
  unfold MIgetOperand. cbn [MIOperands].
  change (at_index [MO_Register r d k; MO_FrameIndex fi; MO_Immediate imm] 1) with (Ret (MO_FrameIndex fi)).
  change (at_index [MO_Register r d k; MO_FrameIndex fi; MO_Immediate imm] (1 + 1)) with (Ret (MO_Immediate imm)).
  rewrite outcome_bind_ret. cbn [MOgetIndex]. rewrite outcome_bind_ret, HS, outcome_bind_ret, Ho, outcome_bind_ret.
  rewrite outcome_bind_ret. cbn [MOgetImm]. rewrite outcome_bind_ret.
  set (Off := i64 (o + imm + i32 S)).
  destruct (isInt 14 Off); [unfold set_head; rewrite Ha; reflexivity |].
  destruct (isInt 25 Off); [unfold set_head; cbn [BuildMI after createVirtualRegister]; rewrite Ha |]; reflexivity.
Qed.

(** The instructions that access the object at [Off] from the frame register. *)
Definition frameAccess (n : nat) (opc : Nyuzi.opcode) (r : Nyuzi.reg) (d k : bool) (FR : Nyuzi.reg) (Off : Z)
    : list MachineInstr :=
  let Reg := Nyuzi.VirtReg n in
  if isInt 14 Off then [mkMI opc [MO_Register r d k; addReg FR; MO_Immediate Off]]
  else [mkMI Nyuzi.MOVEHI [addDef Reg; MO_Immediate (Z.land (Z.shiftr Off 13) 0x7ffff)];
        mkMI Nyuzi.ADDISSS [addDef Reg; addReg FR; addReg Reg];
        mkMI opc [MO_Register r d k; addKill Reg true; MO_Immediate (Z.land Off 0x1fff)]].

(** They access that address, whatever a frame index stands for. *)
Lemma frameAccess_exec (n : nat) (opc : Nyuzi.opcode) (r : Nyuzi.reg) (d k : bool) (FR : Nyuzi.reg) (Off : Z)
    (fi_addr : Z → Z) (st : mstate) :
  frame_opcode opc = true → r ≠ Nyuzi.VirtReg n → FR ≠ Nyuzi.VirtReg n →
  ∃ st', exec fi_addr (frameAccess n opc r d k FR Off) st = Some st' ∧
    agree_except n st' (access opc r (u32 (regs st FR + Off)) st).
Proof.
  intros Hopc Hr HFR. unfold frameAccess. destruct (isInt 14 Off).
  - eexists. cbn [exec]. rewrite exec1_access by exact Hopc. split; [reflexivity |]. reflexivity.
  - set (Reg := Nyuzi.VirtReg n) in *. set (hi := Z.land (Z.shiftr Off 13) 0x7ffff).
    set (s1 := set_reg Reg (u32 (Z.shiftl hi 13)) st).
    set (s2 := set_reg Reg (u32 (regs s1 FR + regs s1 Reg)) s1).
    assert (HX : ∀ m, exec fi_addr [mkMI Nyuzi.MOVEHI [addDef Reg; MO_Immediate hi];
                        mkMI Nyuzi.ADDISSS [addDef Reg; addReg FR; addReg Reg]; m] st
                      = exec1 fi_addr m s2 ≫= λ s, Some s) by reflexivity.
    assert (Hag : agree_except n s2 st) by (etransitivity; apply set_virt_agree).
    assert (Hv : regs s2 Reg = u32 (regs st FR + u32 (Z.shiftl hi 13))).
    { unfold s2. rewrite set_reg_eq. unfold s1. rewrite set_reg_eq, set_reg_ne by exact HFR. reflexivity. }
    rewrite HX, exec1_access by exact Hopc. eexists. split; [reflexivity |].
    cbn [addKill]. rewrite Hv. unfold hi. rewrite split_offset.
    apply access_agree; [exact Hr | exact Hag].
Qed.

(** ** Properties of frame indices *)

(** C25. [eliminateFrameIndex] addresses the object: when the frame register holds
    the entry stack pointer less the rounded stack size, the rewritten
    instruction (with the instructions put in front of it) accesses exactly the
    address of the object plus the old immediate, with the same effect as the
    instruction on the frame index, its new immediate fits the 14-bit field, and
    it is refused only when the offset does not fit 25 bits. *)
Theorem eliminateFrameIndex_correct (MF : MachineFunction) (c : cursor) (post : list MachineInstr)
    (opc : Nyuzi.opcode) (r : Nyuzi.reg) (d k : bool) (fi imm o S entrySP : Z)
    (fi_addr : Z → Z) (st : mstate) :
  frame_opcode opc = true → r ≠ Nyuzi.VirtReg (NextVReg MF) →
  after c = mkMI opc [MO_Register r d k; MO_FrameIndex fi; MO_Immediate imm] :: post →
  getObjectOffset (MFI MF) fi = Ret o → alignTo (StackSize (MFI MF)) getStackAlignment 0 = Ret S →
  0 ≤ S < 2 ^ 31 → - 2 ^ 62 ≤ o + imm + S < 2 ^ 62 →
  fi_addr fi = u32 (entrySP + o) →
  regs st (frameRegFor MF fi) = u32 (entrySP - S) →
  if isInt 14 (o + imm + S) || isInt 25 (o + imm + S) then
    ∃ MF' l b i, eliminateFrameIndex MF c 0 1
        = Ret (MF', mkCursor (before c ++ l) (mkMI opc [MO_Register r d k; b; MO_Immediate i] :: post)) ∧
      isFI b = false ∧ - 2 ^ 13 ≤ i < 2 ^ 13 ∧
      ∃ st1 st2, exec fi_addr (l ++ [mkMI opc [MO_Register r d k; b; MO_Immediate i]]) st = Some st1 ∧
        exec1 fi_addr (mkMI opc [MO_Register r d k; MO_FrameIndex fi; MO_Immediate imm]) st = Some st2 ∧
        agree_except (NextVReg MF) st1 st2
  else eliminateFrameIndex MF c 0 1 = FatalError "frame index out of bounds: frame too large".
Proof.
  intros Hopc Hr Ha Ho HS HSr HOr Hfi Hreg. set (Off := o + imm + S) in *.
  assert (HOff : i64 (o + imm + i32 S) = Off) by (rewrite (sint_small 32), sint_small by lia; reflexivity).
  assert (Haddr : u32 (fi_addr fi + imm) = u32 (u32 (entrySP - S) + Off))
    by (rewrite Hfi; autorewrite with cint_mod; f_equal; lia).
  set (FR := frameRegFor MF fi) in *.
  assert (HFR : FR ≠ Nyuzi.VirtReg (NextVReg MF)) by apply frameRegFor_phys.
  destruct (frameAccess_exec (NextVReg MF) opc r d k FR Off fi_addr st Hopc Hr HFR) as (st1 & HE & Hag).
  rewrite Hreg, <- Haddr in Hag. unfold frameAccess in HE.
  rewrite (eliminateFrameIndex_eq MF c post opc r d k fi imm o S Ha Ho HS), HOff. cbv zeta. fold FR.
  destruct (isInt 14 Off) eqn:E14; cbn [orb]; [| destruct (isInt 25 Off) eqn:E25; [| reflexivity]].
  - exists MF, [], (addReg FR), Off. rewrite app_nil_r. split; [reflexivity |]. split; [reflexivity |].
    split; [apply isInt_range in E14; lia |].
    exists st1. eexists. split; [exact HE |]. rewrite exec1_access by exact Hopc. split; [reflexivity | exact Hag].
  - eexists _, [_; _], _, _. rewrite <- app_assoc. split; [reflexivity |]. split; [reflexivity |].
    split; [change 0x1fff with (Z.ones 13); rewrite uint_land_ones by lia; pose proof (uint_range 13 Off); lia |].
    exists st1. eexists. split; [exact HE |]. rewrite exec1_access by exact Hopc. split; [reflexivity | exact Hag].
Qed.

Example eliminateFrameIndex_correct_witness :
  let MF := mkMF (mkMFI [mkStackObject 4 (-8) 4 false] 0 20000 false false false [] 4 None) false 3 [] in
  let MI b i := mkMI Nyuzi.LW [MO_Register (Nyuzi.S 4) true false; b; MO_Immediate i] in
  ∃ MF' l b i, eliminateFrameIndex MF (mkCursor [] [MI (MO_FrameIndex 0) 0]) 0 1
      = Ret (MF', mkCursor l [MI b i]) ∧ length l = 2%nat ∧ - 2 ^ 13 ≤ i < 2 ^ 13.
Proof.
  intros MF MI.
  pose proof (eliminateFrameIndex_correct MF (mkCursor [] [MI (MO_FrameIndex 0) 0]) [] Nyuzi.LW (Nyuzi.S 4) true false
    0 0 (-8) 20032 100000 (λ _, u32 (100000 + -8))
    (mkState (λ _, u32 (100000 - 20032)) (λ _, []) (λ _, 0))
    ltac:(reflexivity) ltac:(discriminate) ltac:(reflexivity) ltac:(reflexivity) ltac:(vm_compute; reflexivity)
    ltac:(lia) ltac:(lia) ltac:(reflexivity) ltac:(reflexivity)) as H.
  change (isInt 14 (-8 + 0 + 20032) || isInt 25 (-8 + 0 + 20032)) with true in H.
  destruct H as (MF' & l & b & i & HE & _ & Hi & _). exists MF', l, b, i.
  split; [exact HE |]. split; [| exact Hi]. vm_compute in HE. injection HE as _ <- _. reflexivity.
Defined.

(** ** Lemmas on the prologue and the epilogue *)

Lemma advance_app (l post pre : list MachineInstr) (n : nat) :
  length l = n → advance n (mkCursor pre (l ++ post)) = Ret (mkCursor (pre ++ l) post).
Proof.
  intros <-. revert pre. induction l as [| MI l IH]; intros pre; cbn; [rewrite app_nil_r; reflexivity |].
  rewrite IH, <- app_assoc. reflexivity.
Qed.

Lemma retreat_app (l pre post : list MachineInstr) (n : nat) :
  length l = n → retreat n (mkCursor (pre ++ l) post) = Ret (mkCursor pre (l ++ post)).
Proof.
  intros <-. revert post. induction l as [| MI l IH] using rev_ind; intros post; cbn; [rewrite app_nil_r; reflexivity |].
  rewrite length_app, Nat.add_1_r. cbn [retreat]. unfold prev. cbn [before].
  rewrite app_assoc, rev_app_distr. cbn [rev app]. rewrite rev_involutive. cbn [mbind outcome_bind after].
  rewrite IH, <- app_assoc. reflexivity.
Qed.

Definition is_cfi (MI : MachineInstr) : Prop := MIOpcode MI = Nyuzi.CFI_INSTRUCTION.

#[global] Instance is_cfi_dec (MI : MachineInstr) : Decision (is_cfi MI).
Proof. unfold is_cfi. apply _. Defined.

Lemma exec_cfi (fi_addr : Z → Z) (l : list MachineInstr) (st : mstate) :
  Forall is_cfi l → exec fi_addr l st = Some st.
Proof.
  induction 1 as [| MI l H _ IH]; [reflexivity |]. cbn [exec]. unfold exec1. rewrite H. exact IH.
Qed.

Lemma exec_app_Some (fi_addr : Z → Z) (l1 l2 : list MachineInstr) (st st1 : mstate) :
  exec fi_addr l1 st = Some st1 → exec fi_addr (l1 ++ l2) st = exec fi_addr l2 st1.
Proof. intros H. rewrite exec_app, H. reflexivity. Qed.

(** Functions with the same frame information. *)
Definition same_frame (MF MF' : MachineFunction) : Prop :=
  MFI MF' = MFI MF ∧ DisableFramePointerElim MF' = DisableFramePointerElim MF.

Lemma same_frame_hasFP (MF MF' : MachineFunction) : same_frame MF MF' → hasFP MF' = hasFP MF.
Proof. intros [H1 H2]. unfold hasFP. rewrite H1, H2. reflexivity. Qed.

(** [n] CFI instructions for the directives from number [k] on. *)
Definition cfiAt (k n : nat) : list MachineInstr :=
  map (λ i, mkMI Nyuzi.CFI_INSTRUCTION [MO_CFIIndex i]) (seq k n).

Lemma cfiAt_is_cfi (k n : nat) : Forall is_cfi (cfiAt k n).
Proof. apply Forall_fmap, Forall_true. reflexivity. Qed.

Lemma cfiAt_app (k n m : nat) : cfiAt k (n + m) = cfiAt k n ++ cfiAt (k + n) m.
Proof. unfold cfiAt. rewrite seq_app, map_app. reflexivity. Qed.

(** The directives for the callee-saved registers [CSI] in slots at [offs]. *)
Definition savedCFI (CSI : list (Nyuzi.reg * Z)) (offs : list Z) : list CFIInst :=
  zip_with (λ x o, CfiOffset (Nyuzi.getDwarfRegNum x.1) o) CSI offs.

(** The slots of the callee-saved registers. *)
Definition savedSlots (m : MachineFrameInfo) (CSI : list (Nyuzi.reg * Z)) (offs : list Z) : Prop :=
  Forall2 (λ x o, getObjectOffset m x.2 = Ret o) CSI offs.

Lemma savedSlots_exist (m : MachineFrameInfo) (CSI : list (Nyuzi.reg * Z)) :
  Forall (λ x, ∃ o, getObjectOffset m x.2 = Ret o) CSI → ∃ offs, savedSlots m CSI offs.
Proof.
  induction 1 as [| x CSI [o Ho] _ [offs IH]]; [exists []; constructor |].
  exists (o :: offs). constructor; assumption.
Qed.

Lemma emitCalleeSavedCFI_eq (CSI : list (Nyuzi.reg * Z)) (MF : MachineFunction) (c : cursor) (offs : list Z) :
  savedSlots (MFI MF) CSI offs →
  ∃ MF', emitCalleeSavedCFI CSI MF c =
      Ret (MF', mkCursor (before c ++ cfiAt (length (FrameInsts MF)) (length CSI)) (after c)) ∧
    FrameInsts MF' = FrameInsts MF ++ savedCFI CSI offs ∧ same_frame MF MF'.
Proof.
  intros H. revert MF c H. generalize dependent offs.
  induction CSI as [| [r fi] CSI IH]; intros offs MF c H.
  - exists MF. cbn. rewrite !app_nil_r. destruct c. repeat split; reflexivity.
  - apply Forall2_cons_inv_l in H as (o & offs' & Ho & H & ->). cbn [emitCalleeSavedCFI snd] in Ho |- *.
    rewrite Ho, outcome_bind_ret. unfold buildCFI, addFrameInst.
    destruct (IH offs' (mkMF (MFI MF) (DisableFramePointerElim MF) (NextVReg MF)
        (FrameInsts MF ++ [CfiOffset (Nyuzi.getDwarfRegNum r) o]))
      (BuildMI c (mkMI Nyuzi.CFI_INSTRUCTION [MO_CFIIndex (length (FrameInsts MF))])) H) as (MF' & HE & HF & Hs).
    exists MF'. rewrite HE, HF. unfold BuildMI. cbn [before after FrameInsts].
    rewrite <- !app_assoc, length_app. cbn [length]. rewrite Nat.add_1_r. split; [reflexivity |].
    split; [reflexivity | exact Hs].
Qed.

Lemma filter_cfiAt (k n : nat) : filter is_cfi (cfiAt k n) = cfiAt k n.
Proof.
  induction (cfiAt_is_cfi k n) as [| MI l HM _ IH]; [reflexivity |].
  rewrite filter_cons_True by exact HM. rewrite IH. reflexivity.
Qed.

Lemma filter_not_cfi (l : list MachineInstr) : Forall (λ MI, ¬ is_cfi MI) l → filter is_cfi l = [].
Proof. intros H. induction H as [| MI l HM _ IH]; [reflexivity |]. rewrite filter_cons_False by exact HM. exact IH. Qed.

Lemma adjustInstrs_not_cfi (n : nat) (Amount : Z) : Forall (λ MI, ¬ is_cfi MI) (adjustInstrs n Amount).
Proof.
  unfold adjustInstrs, constantInstrs. repeat (case_match || rewrite Forall_app || split || constructor); discriminate.
Qed.

Lemma getLastNonDebugInstr_ret (pre : list MachineInstr) (MI : MachineInstr) :
  isDebugValue MI = false → getLastNonDebugInstr (pre ++ [MI]) = mkCursor pre [MI].
Proof.
  intros H. unfold getLastNonDebugInstr. rewrite rev_app_distr. cbn [rev app lastNonDebug].
  rewrite H, rev_involutive. reflexivity.
Qed.

Definition fpMove (dst src : Nyuzi.reg) (MF : MachineFunction) : list MachineInstr :=
  if hasFP MF then [mkMI Nyuzi.MOVESS [addReg dst; addReg src]] else [].

Lemma fpMove_not_cfi (dst src : Nyuzi.reg) (MF : MachineFunction) : Forall (λ MI, ¬ is_cfi MI) (fpMove dst src MF).
Proof. unfold fpMove. destruct (hasFP MF); repeat constructor. discriminate. Qed.

Lemma adjustable (S : Z) : 0 ≤ S < 2 ^ 23 → isInt 24 S = true ∧ isInt 24 (- S) = true.
Proof. intros HS. split; apply isInt_range; lia. Qed.

(** The directives of the prologue of a frame of [S] bytes. *)
Definition prologueCFI (MF : MachineFunction) (S : Z) (offs : list Z) : list CFIInst :=
  DefCfaOffset (- S) :: savedCFI (CSInfo (MFI MF)) offs ++
  (if hasFP MF then [DefCfaRegister (Nyuzi.getDwarfRegNum Nyuzi.FP_REG)] else []).

Lemma emitPrologue_eq (MF : MachineFunction) (saves body : list MachineInstr) (MI : MachineInstr) (S : Z)
    (offs : list Z) :
  alignTo (StackSize (MFI MF)) getStackAlignment 0 = Ret S → 0 ≤ S < 2 ^ 23 →
  (S =? 0) && negb (AdjustsStack (MFI MF)) = false →
  length saves = length (CSInfo (MFI MF)) → savedSlots (MFI MF) (CSInfo (MFI MF)) offs →
  let k := length (FrameInsts MF) in
  let n := length (CSInfo (MFI MF)) in
  ∃ MF', same_frame MF MF' ∧ FrameInsts MF' = FrameInsts MF ++ prologueCFI MF S offs ∧
    emitPrologue MF true (saves ++ MI :: body) =
      Ret (MF', adjustInstrs (NextVReg MF) (- S) ++ cfiAt k 1 ++ saves ++ cfiAt (k + 1) n
                ++ fpMove Nyuzi.FP_REG Nyuzi.SP_REG MF ++ cfiAt (k + 1 + n) (if hasFP MF then 1 else 0) ++ MI :: body).
Proof.
  intros HS HSr Hz Hlen HCS k n. unfold emitPrologue. cbn [cassert]. rewrite outcome_bind_ret, HS, outcome_bind_ret.
  rewrite (sint_small 32 S), Hz, (sint_small 32 (- S)) by lia.
  destruct (saves ++ MI :: body) as [| M0 post] eqn:Hsplit; [destruct saves; discriminate |].
  destruct (adjustStackPointer_eq MF (mkCursor [] (M0 :: post)) (- S) M0 post eq_refl
    (or_intror (proj2 (adjustable S HSr)))) as (MF1 & HA & Hm1 & Hf1 & Hd1).
  rewrite HA, outcome_bind_ret. cbn [before after app]. rewrite <- Hsplit. clear HA Hsplit.
  unfold buildCFI at 1. cbn [addFrameInst].
  set (MF2 := mkMF (MFI MF1) (DisableFramePointerElim MF1) (NextVReg MF1) _).
  set (adj := adjustInstrs (NextVReg MF) (- S)).
  rewrite Hf1. change (BuildMI (mkCursor adj (saves ++ MI :: body)) (mkMI Nyuzi.CFI_INSTRUCTION _))
    with (mkCursor (adj ++ cfiAt k 1) (saves ++ MI :: body)).
  assert (HM2 : same_frame MF MF2) by (split; cbn; assumption).
  assert (HF2 : FrameInsts MF2 = FrameInsts MF ++ [DefCfaOffset (- S)]) by (cbn; rewrite Hf1; reflexivity).
  assert (HL2 : length (FrameInsts MF2) = (k + 1)%nat) by (rewrite HF2, length_app; reflexivity).
  assert (HC : ∃ MF3, same_frame MF MF3 ∧
    FrameInsts MF3 = FrameInsts MF ++ DefCfaOffset (- S) :: savedCFI (CSInfo (MFI MF)) offs ∧
    (if (0 <? length (CSInfo (MFI MF2)))%nat then
       advance (length (CSInfo (MFI MF2))) (mkCursor (adj ++ cfiAt k 1) (saves ++ MI :: body))
         ≫= λ c, emitCalleeSavedCFI (CSInfo (MFI MF2)) MF2 c
     else Ret (MF2, mkCursor (adj ++ cfiAt k 1) (saves ++ MI :: body)))
    = Ret (MF3, mkCursor (adj ++ cfiAt k 1 ++ saves ++ cfiAt (k + 1) n) (MI :: body))).
  { rewrite (proj1 HM2). destruct (Nat.ltb_spec 0 (length (CSInfo (MFI MF)))) as [Hl | Hl].
    - rewrite advance_app, outcome_bind_ret by exact Hlen.
      destruct (emitCalleeSavedCFI_eq (CSInfo (MFI MF)) MF2 (mkCursor ((adj ++ cfiAt k 1) ++ saves) (MI :: body)) offs)
        as (MF3 & HE & HF3 & Hs1 & Hs2); [rewrite (proj1 HM2); exact HCS |].
      exists MF3. split; [destruct HM2 as [Ha Hb]; split; congruence |]. split.
      + rewrite HF3, HF2, <- app_assoc. reflexivity.
      + rewrite HE, HL2. cbn [before after]. rewrite <- !app_assoc. reflexivity.
    - destruct saves; [| cbn in Hlen; lia]. exists MF2. split; [exact HM2 |].
      unfold n. destruct (CSInfo (MFI MF)); [| cbn in Hl; lia]. split; [exact HF2 |]. cbn. rewrite ?app_nil_r. reflexivity. }
  destruct HC as (MF3 & HM3 & HF3 & HC). rewrite HC, outcome_bind_ret. clear HC.
  rewrite (same_frame_hasFP _ _ HM3). unfold fpMove, prologueCFI.
  assert (HL3 : length (FrameInsts MF3) = (k + 1 + n)%nat).
  { rewrite HF3, length_app. cbn [length]. unfold savedCFI.
    rewrite length_zip_with_l_eq by (apply (Forall2_length _ _ _ HCS)). fold k n. lia. }
  destruct (hasFP MF) eqn:HFP.
  - eexists. split; [| split]; [| | unfold block_of, buildCFI, BuildMI; cbn [before after addFrameInst];
      rewrite HL3, <- !app_assoc; reflexivity].
    + destruct HM3; split; assumption.
    + cbn [FrameInsts]. rewrite HF3, <- app_assoc. reflexivity.
  - exists MF3. split; [exact HM3 |]. split; [rewrite app_nil_r; exact HF3 |].
    unfold block_of. cbn [before after app]. rewrite <- !app_assoc. reflexivity.
Qed.

Lemma emitEpilogue_eq (MF : MachineFunction) (pre restores : list MachineInstr) (ops : list MachineOperand)
    (S : Z) :
  alignTo (StackSize (MFI MF)) getStackAlignment 0 = Ret S → 0 ≤ S < 2 ^ 23 →
  length restores = length (CSInfo (MFI MF)) →
  ∃ MF', same_frame MF MF' ∧ emitEpilogue MF (pre ++ restores ++ [mkMI Nyuzi.RET ops]) =
    Ret (MF', pre ++ fpMove Nyuzi.SP_REG Nyuzi.FP_REG MF ++ restores ++
              (if S =? 0 then [] else adjustInstrs (NextVReg MF) S) ++ [mkMI Nyuzi.RET ops]).
Proof.
  intros HS HSr Hlen. unfold emitEpilogue.
  rewrite app_assoc, getLastNonDebugInstr_ret by reflexivity. cbn [deref after]. rewrite outcome_bind_ret.
  cbn [MIOpcode]. rewrite bool_decide_true by reflexivity. cbn [cassert]. rewrite outcome_bind_ret.
  set (ret := mkMI Nyuzi.RET ops).
  assert (HC : (if hasFP MF then
       retreat (length (CSInfo (MFI MF))) (mkCursor (pre ++ restores) [ret]) ≫= λ I,
       advance (length (CSInfo (MFI MF))) (BuildMI I (mkMI Nyuzi.MOVESS [addReg Nyuzi.SP_REG; addReg Nyuzi.FP_REG]))
     else Ret (mkCursor (pre ++ restores) [ret]))
     = Ret (mkCursor (pre ++ fpMove Nyuzi.SP_REG Nyuzi.FP_REG MF ++ restores) [ret])).
  { unfold fpMove. destruct (hasFP MF); [| reflexivity].
    rewrite retreat_app, outcome_bind_ret by exact Hlen. unfold BuildMI. cbn [before after].
    rewrite advance_app, <- app_assoc by exact Hlen. reflexivity. }
  rewrite HC, outcome_bind_ret, HS, outcome_bind_ret. clear HC.
  destruct (S =? 0).
  - exists MF. split; [split; reflexivity |]. unfold block_of. cbn [before after app]. rewrite <- !app_assoc. reflexivity.
  - rewrite (sint_small 32) by lia.
    destruct (adjustStackPointer_eq MF (mkCursor (pre ++ fpMove Nyuzi.SP_REG Nyuzi.FP_REG MF ++ restores) [ret]) S ret []
      eq_refl (or_intror (proj1 (adjustable S HSr)))) as (MF' & HA & Hm & _ & Hd).
    rewrite HA, outcome_bind_ret. exists MF'. split; [split; assumption |]. unfold block_of. cbn [before after]. rewrite <- !app_assoc. reflexivity.
Qed.

(** ** Properties of the frame *)

(** Code that leaves the stack pointer alone. *)
Definition keeps_sp (fi_addr : Z → Z) (l : list MachineInstr) : Prop :=
  ∀ st, ∃ st', exec fi_addr l st = Some st' ∧ regs st' Nyuzi.SP_REG = regs st Nyuzi.SP_REG.

(** What the prologue computes, and the directives it leaves in the code and in
    the function. *)
Lemma prologue_exec (MF : MachineFunction) (saves body : list MachineInstr) (MI : MachineInstr)
    (fi_addr : Z → Z) (st0 : mstate) (S : Z) (offs : list Z) :
  alignTo (StackSize (MFI MF)) getStackAlignment 0 = Ret S → 0 ≤ S < 2 ^ 23 →
  (S = 0 → hasFP MF = false ∧ CSInfo (MFI MF) = []) →
  length saves = length (CSInfo (MFI MF)) →
  savedSlots (MFI MF) (CSInfo (MFI MF)) offs →
  keeps_sp fi_addr saves → 0 ≤ regs st0 Nyuzi.SP_REG < 2 ^ 32 →
  ∃ MF1 pro mid D, same_frame MF MF1 ∧
    emitPrologue MF true (saves ++ MI :: body) = Ret (MF1, pro ++ saves ++ mid ++ MI :: body) ∧
    (D = prologueCFI MF S offs ∨ D = [] ∧ S = 0) ∧ FrameInsts MF1 = FrameInsts MF ++ D ∧
    filter is_cfi pro ++ filter is_cfi mid = cfiAt (length (FrameInsts MF)) (length D) ∧
    ∃ st1, exec fi_addr (pro ++ saves ++ mid) st0 = Some st1 ∧
      regs st1 Nyuzi.SP_REG = u32 (regs st0 Nyuzi.SP_REG - S) ∧
      regs st1 (getFrameRegister MF) = regs st1 Nyuzi.SP_REG.
Proof.
  intros HS HS23 HSu Hls HCS Hsv Hsp.
  destruct ((S =? 0) && negb (AdjustsStack (MFI MF))) eqn:Hz.
  - apply andb_true_iff in Hz as [Hz1 Hz2]. apply Z.eqb_eq in Hz1. destruct (HSu Hz1) as [Hnofp Hnocs].
    rewrite Hnocs in Hls. destruct saves; [| discriminate]. exists MF, [], [], [].
    split; [split; reflexivity |]. split.
    { unfold emitPrologue. cbn [cassert]. rewrite outcome_bind_ret, HS, outcome_bind_ret, Hz1.
      change (i32 0) with 0. rewrite Hz2. reflexivity. }
    split; [right; split; [reflexivity | exact Hz1] |]. split; [rewrite app_nil_r; reflexivity |].
    split; [reflexivity |].
    exists st0. split; [reflexivity |]. unfold getFrameRegister. rewrite Hnofp, Hz1, Z.sub_0_r, uint_small by exact Hsp.
    split; reflexivity.
  - destruct (emitPrologue_eq MF saves body MI S offs HS HS23 Hz Hls HCS) as (MF1 & Hsf & HF & HP).
    set (k := length (FrameInsts MF)) in *. set (n := length (CSInfo (MFI MF))) in *.
    set (fpn := if hasFP MF then 1%nat else 0%nat) in *.
    exists MF1, (adjustInstrs (NextVReg MF) (- S) ++ cfiAt k 1),
      (cfiAt (k + 1) n ++ fpMove Nyuzi.FP_REG Nyuzi.SP_REG MF ++ cfiAt (k + 1 + n) fpn), (prologueCFI MF S offs).
    split; [exact Hsf |]. split; [rewrite HP, <- !app_assoc; reflexivity |]. split; [left; reflexivity |].
    split; [exact HF |]. split.
    { rewrite !filter_app, !(filter_cfiAt), (filter_not_cfi (adjustInstrs _ _)) by apply adjustInstrs_not_cfi.
      rewrite (filter_not_cfi (fpMove _ _ _)) by apply fpMove_not_cfi.
      cbn [app]. rewrite (app_assoc (cfiAt k 1)), <- cfiAt_app.
      replace (k + 1 + n)%nat with (k + (1 + n))%nat by lia. rewrite <- cfiAt_app. f_equal.
      unfold prologueCFI. cbn [length]. rewrite length_app. unfold savedCFI.
      rewrite length_zip_with_l_eq by (apply (Forall2_length _ _ _ HCS)). fold n.
      unfold fpn. destruct (hasFP MF); cbn [length]; lia. }
    destruct (adjustInstrs_exec (NextVReg MF) (- S) fi_addr st0 (or_intror (proj2 (adjustable S HS23)))) as (sa & HEa & Hag).
    destruct (Hsv sa) as (sb & HEb & Hspb).
    assert (Hspa : regs sa Nyuzi.SP_REG = u32 (regs st0 Nyuzi.SP_REG - S))
      by (rewrite (ae_regs _ _ _ Hag) by discriminate; apply set_reg_eq).
    rewrite <- !app_assoc, (exec_app_Some _ _ _ _ _ HEa), (exec_app_Some _ _ _ _ _ (exec_cfi _ _ _ (cfiAt_is_cfi k 1))).
    rewrite (exec_app_Some _ _ _ _ _ HEb), (exec_app_Some _ _ _ _ _ (exec_cfi _ _ _ (cfiAt_is_cfi (k + 1) n))).
    unfold fpMove, getFrameRegister.
    destruct (hasFP MF); cbn [app exec exec1 MIOpcode MIOperands addReg mbind option_bind];
      rewrite exec_cfi by apply cfiAt_is_cfi; eexists; (split; [reflexivity |]).
    + rewrite set_reg_eq, !set_reg_ne, Hspb by discriminate. split; [exact Hspa | reflexivity].
    + rewrite Hspb. split; [exact Hspa | reflexivity].
Qed.

(** C20. Prologue and epilogue are inverse on the stack pointer: the prologue keeps
    the saves and the body, lowers [SP_REG] by the stack size rounded up to the
    alignment and, if the function has a frame pointer, copies it to [FP_REG]
    after the saves; from any later state whose frame register holds that value
    the epilogue, with the restores in between, brings [SP_REG] back to its value
    on entry. *)
Theorem prologue_epilogue (MF : MachineFunction) (saves body pre restores : list MachineInstr) (MI : MachineInstr)
    (fi_addr : Z → Z) (st0 : mstate) :
  0 ≤ StackSize (MFI MF) ≤ 2 ^ 23 - 64 →
  (hasFP MF = true → 0 < StackSize (MFI MF)) →
  length saves = length (CSInfo (MFI MF)) → length restores = length (CSInfo (MFI MF)) →
  (CSInfo (MFI MF) ≠ [] → 0 < StackSize (MFI MF)) →
  Forall (λ x, ∃ o, getObjectOffset (MFI MF) (snd x) = Ret o) (CSInfo (MFI MF)) →
  keeps_sp fi_addr saves → keeps_sp fi_addr restores → 0 ≤ regs st0 Nyuzi.SP_REG < 2 ^ 32 →
  ∃ S MF1 pro mid MF2 fp adj st1,
    (64 | S) ∧ StackSize (MFI MF) ≤ S < StackSize (MFI MF) + 64 ∧
    emitPrologue MF true (saves ++ MI :: body) = Ret (MF1, pro ++ saves ++ mid ++ MI :: body) ∧
    emitEpilogue MF1 (pre ++ restores ++ [mkMI Nyuzi.RET []])
      = Ret (MF2, pre ++ fp ++ restores ++ adj ++ [mkMI Nyuzi.RET []]) ∧
    exec fi_addr (pro ++ saves ++ mid) st0 = Some st1 ∧
    regs st1 Nyuzi.SP_REG = u32 (regs st0 Nyuzi.SP_REG - S) ∧
    regs st1 (getFrameRegister MF) = regs st1 Nyuzi.SP_REG ∧
    ∀ st2, regs st2 (getFrameRegister MF) = regs st1 Nyuzi.SP_REG →
      ∃ st3, exec fi_addr (fp ++ restores ++ adj) st2 = Some st3 ∧
             regs st3 Nyuzi.SP_REG = regs st0 Nyuzi.SP_REG.
Proof.
  intros HSS Hfp Hls Hlr Hcs0 HCS Hsv Hrs Hsp.
  destruct (alignTo_spec (StackSize (MFI MF)) 64) as (S & HS & HSr & Hdiv); [lia .. |].
  change 64 with getStackAlignment in HS.
  assert (HS23 : 0 ≤ S < 2 ^ 23) by (destruct Hdiv as [q ->]; lia).
  assert (HSu : S = 0 → hasFP MF = false ∧ CSInfo (MFI MF) = []).
  { intros ->. split; [destruct (hasFP MF); [specialize (Hfp eq_refl); lia | reflexivity] |].
    destruct (CSInfo (MFI MF)) eqn:E; [reflexivity |]. specialize (Hcs0 ltac:(discriminate)). lia. }
  destruct (savedSlots_exist _ _ HCS) as (offs & HCS').
  pose proof (prologue_exec MF saves body MI fi_addr st0 S offs HS HS23 HSu Hls HCS' Hsv Hsp) as Hpro.
  destruct Hpro as (MF1 & pro & mid & D & Hsf & HP & _ & _ & _ & st1 & HE1 & Hsp1 & Hfr1).
  destruct (emitEpilogue_eq MF1 pre restores [] S) as (MF2 & _ & HEp);
    [rewrite (proj1 Hsf); exact HS | exact HS23 | rewrite (proj1 Hsf); exact Hlr |].
  exists S, MF1, pro, mid, MF2, (fpMove Nyuzi.SP_REG Nyuzi.FP_REG MF1),
    (if S =? 0 then [] else adjustInstrs (NextVReg MF1) S), st1.
  split; [exact Hdiv |]. split; [exact HSr |]. split; [exact HP |]. split; [exact HEp |].
  split; [exact HE1 |]. split; [exact Hsp1 |]. split; [exact Hfr1 |].
  intros st2 Hst2. rewrite Hsp1 in Hst2.
  assert (Hfpm : ∃ sm, exec fi_addr (fpMove Nyuzi.SP_REG Nyuzi.FP_REG MF1) st2 = Some sm ∧
                  regs sm Nyuzi.SP_REG = u32 (regs st0 Nyuzi.SP_REG - S)).
  { unfold fpMove. rewrite (same_frame_hasFP _ _ Hsf). unfold getFrameRegister in Hst2.
    destruct (hasFP MF); eexists; (split; [reflexivity |]); [| exact Hst2].
    cbn [addReg]. rewrite set_reg_eq. exact Hst2. }
  destruct Hfpm as (sm & HEm & Hspm). destruct (Hrs sm) as (sr & HEr & Hspr).
  rewrite (exec_app_Some _ _ _ _ _ HEm), (exec_app_Some _ _ _ _ _ HEr).
  destruct (Z.eqb_spec S 0) as [Hz | Hz].
  - eexists. split; [reflexivity |]. rewrite Hspr, Hspm, Hz, Z.sub_0_r. apply uint_small, Hsp.
  - destruct (adjustInstrs_exec (NextVReg MF1) S fi_addr sr (or_intror (proj1 (adjustable S HS23)))) as (sz & HEz & Hag).
    exists sz. split; [exact HEz |]. rewrite (ae_regs _ _ _ Hag) by discriminate.
    rewrite set_reg_eq, Hspr, Hspm, uint_add_l, Z.sub_add. apply uint_small, Hsp.
Qed.

Definition demo_frame : MachineFunction :=
  mkMF (mkMFI [mkStackObject 4 (-4) 4 false] 0 100 true true false [(Nyuzi.FP_REG, 0)] 4 None) false 0 [].

Lemma sw_keeps_sp (fi_addr : Z → Z) (r : Nyuzi.reg) (i : Z) :
  keeps_sp fi_addr [mkMI Nyuzi.SW [MO_Register r false false; MO_FrameIndex i; MO_Immediate 0]].
Proof. intros st. eexists. split; reflexivity. Qed.

Lemma lw_keeps_sp (fi_addr : Z → Z) (r : Nyuzi.reg) (i : Z) :
  r ≠ Nyuzi.SP_REG → keeps_sp fi_addr [mkMI Nyuzi.LW [MO_Register r true false; MO_FrameIndex i; MO_Immediate 0]].
Proof. intros Hr st. eexists. split; [reflexivity |]. apply set_reg_ne. congruence. Qed.

Example prologue_epilogue_witness :
  let saves := [mkMI Nyuzi.SW [MO_Register Nyuzi.FP_REG false false; MO_FrameIndex 0; MO_Immediate 0]] in
  let restores := [mkMI Nyuzi.LW [MO_Register Nyuzi.FP_REG true false; MO_FrameIndex 0; MO_Immediate 0]] in
  ∃ S MF1 MBB1 MF2 MBB2, (64 | S) ∧ 100 ≤ S < 164 ∧
    emitPrologue demo_frame true (saves ++ mkMI Nyuzi.RET [] :: []) = Ret (MF1, MBB1) ∧
    emitEpilogue MF1 ([] ++ restores ++ [mkMI Nyuzi.RET []]) = Ret (MF2, MBB2).
Proof.
  intros saves restores.
  destruct (prologue_epilogue demo_frame saves [] [] restores (mkMI Nyuzi.RET []) (λ _, 0)
    (mkState (λ _, 4096) (λ _, []) (λ _, 0)))
    as (S & MF1 & pro & mid & MF2 & fp & adj & st1 & H1 & H2 & H3 & H4 & _).
  - cbn. lia.
  - cbn. lia.
  - reflexivity.
  - reflexivity.
  - cbn. lia.
  - constructor; [eexists; reflexivity | constructor].
  - apply sw_keeps_sp.
  - apply lw_keeps_sp. discriminate.
  - cbn. lia.
  - exists S, MF1. eexists. exists MF2. eexists.
    split; [exact H1 |]. split; [exact H2 |]. split; [exact H3 | exact H4].
Defined.

(** The assertion of [eliminateCallFramePseudoInstr] never fires: a function
    without a reserved call frame has a frame pointer. *)
Lemma eliminateCallFrame_eq (MF : MachineFunction) (c : cursor) (post : list MachineInstr)
    (opc : Nyuzi.opcode) (amt z : Z) :
  0 ≤ amt < 2 ^ 23 → after c = mkMI opc [MO_Immediate amt; MO_Immediate z] :: post →
  isFrameInstr (mkMI opc []) = true →
  let A := if bool_decide (opc = Nyuzi.ADJCALLSTACKDOWN) then - amt else amt in
  ∃ MF', same_frame MF MF' ∧ eliminateCallFramePseudoInstr MF c = Ret (MF',
    mkCursor (before c ++ (if negb (amt =? 0) && negb (hasReservedCallFrame MF)
                           then adjustInstrs (NextVReg MF) A else [])) post).
Proof.
  intros Hamt Hc Hop A.
  unfold eliminateCallFramePseudoInstr, deref, getFrameSize. rewrite Hc, outcome_bind_ret.
  unfold isFrameInstr in *. cbn [MIOpcode] in *. rewrite Hop. cbn [cassert]. rewrite outcome_bind_ret.
  change (MIgetOperand _ 0) with (Ret (MO_Immediate amt)). rewrite outcome_bind_ret. cbn [MOgetImm].
  rewrite outcome_bind_ret. destruct (Z.leb_spec 0 amt); [| lia]. cbn [cassert]. rewrite !outcome_bind_ret.
  rewrite (sint_small 32 amt) by lia.
  destruct (negb (amt =? 0) && negb (hasReservedCallFrame MF)) eqn:E.
  - assert (Hfp' : hasFP MF = true).
    { apply andb_true_iff in E as [_ E]. unfold hasReservedCallFrame in E. rewrite negb_involutive in E.
      unfold hasFP. rewrite E, orb_true_r. reflexivity. }
    rewrite Hfp'. cbn [cassert]. rewrite outcome_bind_ret.
    replace (if bool_decide (opc = Nyuzi.ADJCALLSTACKDOWN) then i32 (- amt) else amt) with A
      by (unfold A; rewrite (sint_small 32 (- amt)) by lia; reflexivity).
    destruct (adjustStackPointer_eq MF c A _ post Hc) as (MF' & HA & Hm & _ & Hd).
    { right. unfold A. destruct (bool_decide _); apply (adjustable amt Hamt). }
    rewrite HA, outcome_bind_ret. exists MF'. split; [split; assumption |]. cbn [before after]. rewrite Hc. reflexivity.
  - exists MF. split; [split; reflexivity |]. rewrite outcome_bind_ret, Hc, app_nil_r. reflexivity.
Qed.

(** Call frame pseudo instructions: when the call frame is reserved the pair
    disappears; otherwise [ADJCALLSTACKDOWN] lowers and [ADJCALLSTACKUP] raises the
    stack pointer by the same amount, so a pair restores it. *)
Theorem call_frame_pair (MF : MachineFunction) (c1 c2 : cursor) (post1 post2 : list MachineInstr)
    (amt x y : Z) (fi_addr : Z → Z) (st : mstate) :
  0 ≤ amt < 2 ^ 23 → 0 ≤ regs st Nyuzi.SP_REG < 2 ^ 32 →
  after c1 = mkMI Nyuzi.ADJCALLSTACKDOWN [MO_Immediate amt; MO_Immediate x] :: post1 →
  after c2 = mkMI Nyuzi.ADJCALLSTACKUP [MO_Immediate amt; MO_Immediate y] :: post2 →
  ∃ MF1 MF2 down up,
    eliminateCallFramePseudoInstr MF c1 = Ret (MF1, mkCursor (before c1 ++ down) post1) ∧
    eliminateCallFramePseudoInstr MF1 c2 = Ret (MF2, mkCursor (before c2 ++ up) post2) ∧
    (hasReservedCallFrame MF = true → down = [] ∧ up = []) ∧
    ∃ st1 st2, exec fi_addr down st = Some st1 ∧ exec fi_addr up st1 = Some st2 ∧
      (hasReservedCallFrame MF = false → regs st1 Nyuzi.SP_REG = u32 (regs st Nyuzi.SP_REG - amt)) ∧
      regs st2 Nyuzi.SP_REG = regs st Nyuzi.SP_REG.
Proof.
  intros Hamt Hsp H1 H2.
  destruct (eliminateCallFrame_eq MF c1 post1 _ amt x Hamt H1 eq_refl) as (MF1 & Hs1 & HE1).
  destruct (eliminateCallFrame_eq MF1 c2 post2 _ amt y Hamt H2 eq_refl) as (MF2 & Hs2 & HE2).
  assert (HR : hasReservedCallFrame MF1 = hasReservedCallFrame MF)
    by (unfold hasReservedCallFrame; rewrite (proj1 Hs1); reflexivity).
  rewrite HR in HE2. exists MF1, MF2. do 2 eexists. split; [exact HE1 |]. split; [exact HE2 |].
  change (bool_decide (Nyuzi.ADJCALLSTACKDOWN = Nyuzi.ADJCALLSTACKDOWN)) with true.
  change (bool_decide (Nyuzi.ADJCALLSTACKUP = Nyuzi.ADJCALLSTACKDOWN)) with false. cbv iota.
  split; [intros ->; rewrite andb_false_r; auto |].
  destruct (negb (amt =? 0) && negb (hasReservedCallFrame MF)) eqn:E.
  - destruct (adjustInstrs_exec (NextVReg MF) (- amt) fi_addr st (or_intror (proj2 (adjustable amt Hamt)))) as (s1 & X1 & A1).
    destruct (adjustInstrs_exec (NextVReg MF1) amt fi_addr s1 (or_intror (proj1 (adjustable amt Hamt)))) as (s2 & X2 & A2).
    exists s1, s2. split; [exact X1 |]. split; [exact X2 |].
    assert (R1 : regs s1 Nyuzi.SP_REG = u32 (regs st Nyuzi.SP_REG - amt))
      by (rewrite (ae_regs _ _ _ A1) by discriminate; apply set_reg_eq).
    split; [intros _; exact R1 |].
    rewrite (ae_regs _ _ _ A2) by discriminate. rewrite set_reg_eq, R1, uint_add_l, Z.sub_add. apply uint_small, Hsp.
  - exists st, st. split; [reflexivity |]. split; [reflexivity |]. split; [| reflexivity].
    intros Hres. rewrite Hres, andb_true_r in E. apply negb_false_iff, Z.eqb_eq in E.
    rewrite E, Z.sub_0_r. symmetry. apply uint_small, Hsp.
Qed.

Example call_frame_pair_witness :
  let d := mkMI Nyuzi.ADJCALLSTACKDOWN [MO_Immediate 100000; MO_Immediate 0] in
  let u := mkMI Nyuzi.ADJCALLSTACKUP [MO_Immediate 100000; MO_Immediate 0] in
  ∃ MF1 MF2 down up,
    eliminateCallFramePseudoInstr demo_frame (mkCursor [] [d]) = Ret (MF1, mkCursor down []) ∧
    eliminateCallFramePseudoInstr MF1 (mkCursor [] [u]) = Ret (MF2, mkCursor up []) ∧
    ∃ st1 st2, exec (λ _, 0) down (mkState (λ _, 4096) (λ _, []) (λ _, 0)) = Some st1 ∧
      exec (λ _, 0) up st1 = Some st2 ∧ regs st2 Nyuzi.SP_REG = 4096.
Proof.
  intros d u.
  destruct (call_frame_pair demo_frame (mkCursor [] [d]) (mkCursor [] [u]) [] [] 100000 0 0 (λ _, 0)
    (mkState (λ _, 4096) (λ _, []) (λ _, 0)))
    as (MF1 & MF2 & down & up & H1 & H2 & _ & st1 & st2 & H3 & H4 & _ & H5);
    [lia | cbn; lia | reflexivity | reflexivity |].
  exists MF1, MF2, down, up. split; [exact H1 |]. split; [exact H2 |].
  exists st1, st2. split; [exact H3 |]. split; [exact H4 | exact H5].
Defined.

(** ** The worst-case stack size *)

Lemma alignTo_i64 (V A : Z) :
  0 < A ≤ 2 ^ 32 → 0 ≤ V ≤ 2 ^ 62 → ∃ r, alignTo (u64 V) A 0 = Ret r ∧ i64 r = r ∧ V ≤ r < V + A ∧ (A | r).
Proof.
  intros HA HV. rewrite (uint_small 64 V) by lia.
  destruct (alignTo_spec V A) as (r & Hr & Hb & Hd); [lia .. |].
  exists r. split; [exact Hr |]. split; [apply sint_small; lia | auto].
Qed.

Lemma fixedObjectsExtent_spec (m : MachineFrameInfo) (offs : list Z) (I Off B : Z) :
  (∀ k o, offs !! k = Some o → getObjectOffset m (I + Z.of_nat k) = Ret o) →
  Off ≤ B → Forall (λ o, - o ≤ B) offs →
  ∃ r, fixedObjectsExtent m I (length offs) Off = Ret r ∧ Off ≤ r ≤ B ∧ Forall (λ o, - o ≤ r) offs.
Proof.
  revert I Off. induction offs as [| o offs IH]; intros I Off Hg HB HF.
  - exists Off. repeat split; [lia | lia | constructor].
  - apply Forall_cons in HF as [Ho HF]. cbn [length fixedObjectsExtent].
    pose proof (Hg O o eq_refl) as H0. rewrite Z.add_0_r in H0. rewrite H0, outcome_bind_ret.
    destruct (IH (I + 1) (Z.max Off (- o))) as (r & Hr & Hb & HF'); [| lia | exact HF |].
    + intros k x Hk. rewrite <- (Hg (S k) x Hk). f_equal. lia.
    + exists r. split; [exact Hr |]. split; [lia |]. constructor; [lia | exact HF'].
Qed.

Lemma addObjects_spec (m : MachineFrameInfo) (A : Z) (sizes : list Z) (I Off : Z) :
  0 < A ≤ 2 ^ 32 → (∀ k s, sizes !! k = Some s → getObjectSize m (I + Z.of_nat k) = Ret s) →
  Forall (λ s, 0 ≤ s) sizes → 0 ≤ Off → Off + foldr (λ s t, s + A + t) 0 sizes ≤ 2 ^ 62 →
  ∃ r, addObjects m A I (length sizes) Off = Ret r ∧
    Off + foldr Z.add 0 sizes ≤ r ≤ Off + foldr (λ s t, s + A + t) 0 sizes.
Proof.
  intros HA. revert I Off. induction sizes as [| s sizes IH]; intros I Off Hg HF HO HB.
  - exists Off. cbn. split; [reflexivity | lia].
  - apply Forall_cons in HF as [Hs HF]. cbn [length addObjects foldr] in *.
    pose proof (Hg O s eq_refl) as H0. rewrite Z.add_0_r in H0. rewrite H0, outcome_bind_ret.
    assert (Hpos : 0 ≤ foldr (λ s t, s + A + t) 0 sizes) by (clear - HF HA; induction HF; cbn; lia).
    destruct (alignTo_i64 (Off + s) A) as (r & Hr & Hi & Hb & _); [lia | lia |].
    rewrite Hr, outcome_bind_ret, Hi.
    destruct (IH (I + 1) r) as (r' & Hr' & Hb'); [| exact HF | lia | lia |].
    + intros k x Hk. rewrite <- (Hg (S k) x Hk). f_equal. lia.
    + exists r'. split; [exact Hr' | lia].
Qed.

Lemma addCalleeSaved_spec (l : list Nyuzi.reg) (Off : Z) :
  0 ≤ Off → Off + 1024 * Z.of_nat (length l) ≤ 2 ^ 62 →
  ∃ r, addCalleeSaved l Off = Ret r ∧
    Off + foldr (λ x t, getRegSizeInBits x + t) 0 l ≤ r ≤ Off + 1024 * Z.of_nat (length l).
Proof.
  revert Off. induction l as [| x l IH]; intros Off HO HB; cbn [addCalleeSaved foldr].
  - exists Off. split; [reflexivity | cbn; lia].
  - assert (Hs : 0 < getRegSizeInBits x ≤ 512) by (unfold getRegSizeInBits; destruct (Nyuzi.contains _ _); lia).
    cbn [length] in HB |- *. rewrite Nat2Z.inj_succ in *.
    destruct (alignTo_i64 (Off + getRegSizeInBits x) (getRegSizeInBits x)) as (r & Hr & Hi & Hb & _); [lia | lia |].
    rewrite Hr, outcome_bind_ret, Hi. destruct (IH r) as (r' & Hr' & Hb'); [lia | lia |].
    exists r'. split; [exact Hr' | lia].
Qed.

(** The frame objects an analysis may look at: offsets of the fixed ones, sizes
    of the others. *)
Record frame_objects (m : MachineFrameInfo) (offs sizes : list Z) : Prop := {
  fo_offs : ∀ k o, offs !! k = Some o → getObjectOffset m (getObjectIndexBegin m + Z.of_nat k) = Ret o;
  fo_noffs : getObjectIndexBegin m = - Z.of_nat (length offs);
  fo_sizes : ∀ k s, sizes !! k = Some s → getObjectSize m (Z.of_nat k) = Ret s;
  fo_nsizes : getObjectIndexEnd m = Z.of_nat (length sizes);
  fo_sizes_pos : Forall (λ s, 0 ≤ s) sizes;
  fo_align : 0 ≤ MaxAlignment m ≤ 2 ^ 31 ∧ (sizes = [] ∨ 0 < MaxAlignment m)
}.

Lemma getWorstCaseStackSize_spec (MF : MachineFunction) (offs sizes : list Z) :
  frame_objects (MFI MF) offs sizes →
  Forall (λ o, - o ≤ 2 ^ 60) offs → 0 ≤ getMaxCallFrameSize (MFI MF) < 2 ^ 32 →
  foldr (λ s t, s + MaxAlignment (MFI MF) + t) 0 sizes ≤ 2 ^ 60 →
  ∃ w, getWorstCaseStackSize MF = Ret w ∧ (64 | w) ∧ w < 2 ^ 63 ∧
    Forall (λ o, - o + foldr (λ x t, getRegSizeInBits x + t) 0 getCalleeSavedRegs + foldr Z.add 0 sizes
                 + (if AdjustsStack (MFI MF) && hasReservedCallFrame MF then getMaxCallFrameSize (MFI MF) else 0)
                 ≤ w) (0 :: offs).
Proof.
  intros [H1 H2 H3 H4 H5 [H6 H7]] HB HCF HS. unfold getWorstCaseStackSize.
  set (m := MFI MF) in *. rewrite H2, Z.opp_involutive, Nat2Z.id. rewrite H2 in H1.
  destruct (fixedObjectsExtent_spec m offs _ 0 (2 ^ 60) H1) as (r1 & E1 & B1 & F1); [lia | exact HB |].
  rewrite E1, outcome_bind_ret.
  destruct (addCalleeSaved_spec getCalleeSavedRegs r1) as (r2 & E2 & B2); [lia | change (length _) with 13%nat; lia |].
  change (length getCalleeSavedRegs) with 13%nat in B2. rewrite E2, outcome_bind_ret, H4.
  set (csr := foldr (λ x t, getRegSizeInBits x + t) 0 getCalleeSavedRegs) in *.
  assert (Hcsr : 0 ≤ csr) by (vm_compute; discriminate).
  assert (Hass : (Z.of_nat (length sizes) =? 0) || negb (MaxAlignment m =? 0) = true).
  { destruct H7 as [-> | H7]; [reflexivity |]. apply orb_true_iff. right. apply negb_true_iff, Z.eqb_neq. lia. }
  rewrite Hass. cbn [cassert]. rewrite outcome_bind_ret, Nat2Z.id.
  assert (HO : ∃ r3, addObjects m (MaxAlignment m) 0 (length sizes) r2 = Ret r3 ∧
             r2 + foldr Z.add 0 sizes ≤ r3 ≤ r2 + foldr (λ s t, s + MaxAlignment m + t) 0 sizes).
  { destruct H7 as [-> | H7]; [exists r2; cbn; split; [reflexivity | lia] |].
    apply addObjects_spec; [lia | intros k s Hk; apply (H3 k s Hk) | exact H5 | lia | lia]. }
  destruct HO as (r3 & E3 & B3). rewrite E3, outcome_bind_ret.
  assert (HC : ∃ r4, (if AdjustsStack m && hasReservedCallFrame MF then
      alignTo (u64 (r3 + getMaxCallFrameSize m)) (Z.max (MaxAlignment m) getStackAlignment) 0 ≫= λ o, Ret (i64 o)
    else Ret r3) = Ret r4 ∧
    r3 + (if AdjustsStack m && hasReservedCallFrame MF then getMaxCallFrameSize m else 0) ≤ r4 ≤ 2 ^ 62 - 64).
  { assert (Hpos : 0 ≤ foldr Z.add 0 sizes) by (clear - H5; induction H5; cbn; lia).
    destruct (AdjustsStack m && hasReservedCallFrame MF).
    - destruct (alignTo_i64 (r3 + getMaxCallFrameSize m) (Z.max (MaxAlignment m) getStackAlignment))
        as (r & Hr & Hi & Hb & _); [unfold getStackAlignment; lia | lia |].
      rewrite Hr, outcome_bind_ret, Hi. exists r. split; [reflexivity |].
      cbv iota. unfold getStackAlignment in *. lia.
    - exists r3. split; [reflexivity | lia]. }
  destruct HC as (r4 & E4 & B4). rewrite E4, outcome_bind_ret.
  assert (Hpos : 0 ≤ foldr Z.add 0 sizes) by (clear - H5; induction H5; cbn; lia).
  destruct (AdjustsStack m && hasReservedCallFrame MF); cbv iota in B4 |- *;
    (destruct (alignTo_i64 r4 getStackAlignment) as (w & Hw & _ & Hb & Hd); [unfold getStackAlignment; lia | lia |];
     exists w; split; [exact Hw |]; split; [exact Hd |]; unfold getStackAlignment in Hb; split; [lia |];
     constructor; [lia |]; eapply Forall_impl; [exact F1 |]; cbv beta; intros o Ho; lia).
Qed.

(** C28. [determineCalleeSaves]: the worst-case size is a multiple of the stack
    alignment and covers the deepest fixed object plus the sizes of the
    callee-saved registers, of the other objects and of a reserved call frame; the
    modified callee-saved registers are saved, and the frame pointer when the
    function has one; and a 4-byte scavenging slot is added exactly when the
    worst-case size does not fit the 14-bit immediate. *)
Theorem determineCalleeSaves_spec (F : FunctionInfo) (MF : MachineFunction) (SavedRegs : list Nyuzi.reg)
    (RS offs sizes : list Z) :
  frame_objects (MFI MF) offs sizes →
  Forall (λ o, - o ≤ 2 ^ 60) offs → 0 ≤ getMaxCallFrameSize (MFI MF) < 2 ^ 32 →
  foldr (λ s t, s + MaxAlignment (MFI MF) + t) 0 sizes ≤ 2 ^ 60 →
  ∃ w Saved' RS' MF', getWorstCaseStackSize MF = Ret w ∧ (64 | w) ∧
    Forall (λ o, - o + foldr (λ x t, getRegSizeInBits x + t) 0 getCalleeSavedRegs + foldr Z.add 0 sizes
                 + (if AdjustsStack (MFI MF) && hasReservedCallFrame MF then getMaxCallFrameSize (MFI MF) else 0)
                 ≤ w) (0 :: offs) ∧
    determineCalleeSaves F MF SavedRegs RS = Ret (Saved', RS', MF') ∧
    (hasFP MF = true → Nyuzi.FP_REG ∈ Saved') ∧
    (∀ r, NoCSROpt F = false → Naked F = false → NeverReturns F = false →
          r ∈ getCalleeSavedRegs → isPhysRegModified F r = true → r ∈ Saved') ∧
    (w < 2 ^ 13 → RS' = RS ∧ MF' = MF) ∧
    (2 ^ 13 ≤ w → RS' = RS ++ [getObjectIndexEnd (MFI MF)] ∧
       getObjectSize (MFI MF') (getObjectIndexEnd (MFI MF)) = Ret 4).
Proof.
  intros HF HB HC HS. destruct (getWorstCaseStackSize_spec MF offs sizes HF HB HC HS) as (w & Hw & Hd & Hlt & Hb).
  set (S1 := TFL_determineCalleeSaves F SavedRegs).
  set (S2 := if hasFP MF then S1 ++ [Nyuzi.FP_REG] else S1).
  assert (Hsaved : (hasFP MF = true → Nyuzi.FP_REG ∈ S2) ∧
    (∀ r, NoCSROpt F = false → Naked F = false → NeverReturns F = false →
          r ∈ getCalleeSavedRegs → isPhysRegModified F r = true → r ∈ S2)).
  { unfold S2. split; [intros ->; apply elem_of_app; right; left |]. intros r H1 H2 H3 Hr Hm.
    assert (r ∈ S1).
    { unfold S1, TFL_determineCalleeSaves. rewrite H1, H2, H3. apply elem_of_app. right.
      apply list_elem_of_In, List.filter_In. split; [apply list_elem_of_In, Hr |].
      rewrite Hm. apply orb_true_r. }
    destruct (hasFP MF); [apply elem_of_app; left |]; assumption. }
  assert (Hw0 : 0 ≤ w).
  { apply Forall_cons in Hb as [Hb _]. pose proof (fo_sizes_pos _ _ _ HF) as Hp.
    assert (0 ≤ foldr Z.add 0 sizes) by (clear - Hp; induction Hp; cbn; lia).
    assert (0 ≤ foldr (λ x t, getRegSizeInBits x + t) 0 getCalleeSavedRegs) by (vm_compute; discriminate).
    destruct (AdjustsStack (MFI MF) && hasReservedCallFrame MF); lia. }
  unfold determineCalleeSaves. fold S1. fold S2. rewrite Hw, outcome_bind_ret, (sint_small 64 w) by lia.
  pose proof (isInt_range 14 w ltac:(lia) ltac:(lia) ltac:(lia) ltac:(lia)) as H14.
  exists w, S2. destruct (isInt 14 w).
  - exists RS, MF. do 4 (split; [first [reflexivity | assumption] |]).
    split; [apply Hsaved |]. split; [apply Hsaved |]. split; [auto |].
    destruct (proj1 H14 eq_refl). lia.
  - pose proof (fo_nsizes _ _ _ HF) as Hn. unfold getObjectIndexEnd in Hn.
    unfold CreateStackObject. cbn [Z.eqb negb cassert]. rewrite outcome_bind_ret.
    rewrite length_app. cbn [length]. rewrite Nat2Z.inj_add.
    replace (Z.of_nat (length (Objects (MFI MF))) + Z.of_nat 1 - NumFixedObjects (MFI MF) - 1)
      with (getObjectIndexEnd (MFI MF)) by (unfold getObjectIndexEnd; lia).
    destruct (Z.leb_spec 0 (getObjectIndexEnd (MFI MF))); [| unfold getObjectIndexEnd in *; lia].
    cbn [cassert]. rewrite outcome_bind_ret. do 2 eexists.
    do 3 (split; [first [reflexivity | assumption] |]). split; [reflexivity |].
    split; [apply Hsaved |]. split; [apply Hsaved |].
    split; [intros Hlt'; assert (false = true) by (apply H14; lia); discriminate |].
    intros _. split; [reflexivity |]. unfold getObjectSize. cbn [MFI Objects NumFixedObjects].
    replace (getObjectIndexEnd (MFI MF) + NumFixedObjects (MFI MF)) with (Z.of_nat (length (Objects (MFI MF))))
      by (unfold getObjectIndexEnd; lia).
    rewrite (at_index_lookup _ _ (mkStackObject 4 0 4 false)); [reflexivity |].
    rewrite lookup_app_r, Nat.sub_diag by lia. reflexivity.
Qed.

Definition big_frame : MachineFunction :=
  mkMF (mkMFI [mkStackObject 4 0 4 false; mkStackObject 9000 0 64 false] 1 0 true false false [] 64 (Some 16)) true 0 [].

Lemma big_frame_objects : frame_objects (MFI big_frame) [0] [9000].
Proof.
  split; try reflexivity.
  - intros [| [| k]] o H; [injection H as <-; reflexivity | discriminate | discriminate].
  - intros [| [| k]] o H; [injection H as <-; reflexivity | discriminate | discriminate].
  - constructor; [lia | constructor].
  - cbn. lia.
Qed.

Example determineCalleeSaves_spec_witness :
  ∃ w Saved' RS' MF', getWorstCaseStackSize big_frame = Ret w ∧
    determineCalleeSaves (mkFunctionInfo false false false false (λ _, false)) big_frame [] []
      = Ret (Saved', RS', MF') ∧ RS' = [1] ∧ Nyuzi.FP_REG ∈ Saved'.
Proof.
  destruct (determineCalleeSaves_spec (mkFunctionInfo false false false false (λ _, false)) big_frame [] [] [0] [9000]
    big_frame_objects) as (w & Sv & RS' & MF' & Hw & _ & Hb & HD & Hfp & _ & _ & Hbig).
  - repeat constructor; lia.
  - cbn. lia.
  - cbn. lia.
  - exists w, Sv, RS', MF'. split; [exact Hw |]. split; [exact HD |].
    split; [| apply Hfp; reflexivity].
    apply Hbig. vm_compute in Hw. injection Hw as <-. lia.
Defined.
