(* ===== verification/NyuziMCInstLower.v ===== *)
(** * NyuziMCInstLower: from machine instructions to MC instructions, and to text

    lib/Target/Nyuzi/NyuziMCInstLower.cpp, NyuziAsmPrinter.cpp and
    InstPrinter/NyuziInstPrinter.cpp.  The names of symbols come from the generic
    assembly printer and are parameters.  The printers write to a stream of
    tokens, the ones the assembly lexer reads back. *)
From Stdlib Require Import Ascii.
From S2P Require Import Prelude MathExtras NyuziTarget NyuziMachine.

(** ** Lowering *)
Section MCInstLower.
(** the symbols the generic [AsmPrinter] gives to code generator entities *)
Variable MBBSymbol : nat → string.
Variable GlobalSymbol : string → string.
Variable ExternalSymbolSymbol : string → string.
Variable JTISymbol : nat → string.
Variable CPISymbol : nat → string.
Variable BlockAddressSymbol : nat → string.

(** [LowerSymbolOperand(MO, Sym)]: the flags, whether [MO] is a jump table index
    and the offset are read off the operand. *)
Definition LowerSymbolOperand (flags : Nyuzi.TOF) (isJTI : bool) (offset : Z) (Sym : string) : MCOperand :=
  let Kind :=
    match flags with
    | Nyuzi.MO_NO_FLAG => Nyuzi.VK_Nyuzi_NONE
    | Nyuzi.MO_ABS_HI => Nyuzi.VK_Nyuzi_ABS_HI
    | Nyuzi.MO_ABS_LO => Nyuzi.VK_Nyuzi_ABS_LO
    | Nyuzi.MO_GOT => Nyuzi.VK_Nyuzi_GOT
    end in
  let Expr := MCSymbolRefExpr Sym in
  let Expr := if negb isJTI && negb (offset =? 0) then MCBinaryExpr MCBinary.Add Expr (MCConstantExpr offset) else Expr in
  let Expr := if bool_decide (Kind ≠ Nyuzi.VK_Nyuzi_NONE) then NyuziMCExpr Kind Expr else Expr in
  kExpr Expr.

Definition LowerOperand (MO : MachineOperand) : outcome MCOperand :=
  match MO with
  | MO_Register r _ _ => Ret (kRegister r)
  | MO_ImplicitRegister _ _ => Ret kInvalid
  | MO_Immediate v => Ret (kImmediate v)
  | MO_MachineBasicBlock bb => Ret (kExpr (MCSymbolRefExpr (MBBSymbol bb)))
  | MO_GlobalAddress g flags off => Ret (LowerSymbolOperand flags false off (GlobalSymbol g))
  | MO_ExternalSymbol s flags off => Ret (LowerSymbolOperand flags false off (ExternalSymbolSymbol s))
  | MO_JumpTableIndex i flags => Ret (LowerSymbolOperand flags true 0 (JTISymbol i))
  | MO_ConstantPoolIndex i flags off => Ret (LowerSymbolOperand flags false off (CPISymbol i))
  | MO_BlockAddress b flags off => Ret (LowerSymbolOperand flags false off (BlockAddressSymbol b))
  | MO_RegisterMask => Ret kInvalid
  | MO_FrameIndex _ | MO_CFIIndex _ => Unreachable "unknown operand type"
  end.

Definition isValid (MO : MCOperand) : bool := match MO with kInvalid => false | _ => true end.

Fixpoint LowerOperands (l : list MachineOperand) (OutMI : MCInst) : outcome MCInst :=
  match l with
  | [] => Ret OutMI
  | MO :: l' =>
      LowerOperand MO ≫= λ MCOp,
      LowerOperands l' (if isValid MCOp then addOperand OutMI MCOp else OutMI)
  end.

(** [Lower(MI, OutMI)] *)
Definition Lower (MI : MachineInstr) : outcome MCInst :=
  LowerOperands (MIOperands MI) (mkMCInst (MIOpcode MI) []).

(** [NyuziAsmPrinter::EmitInstruction]: [bundled] says for each instruction that
    follows [MI] in the block whether it is inside its bundle; the loop lowers
    [MI] itself each time. *)
Fixpoint EmitBundle (MI : MachineInstr) (bundled : list bool) (Out : list MCInst) : outcome (list MCInst) :=
  Lower MI ≫= λ TmpInst,
  let Out := Out ++ [TmpInst] in
  match bundled with
  | true :: bundled' => EmitBundle MI bundled' Out
  | _ => Ret Out
  end.
End MCInstLower.

(** ** Tokens and the instruction printer *)
Inductive Token : Type :=
  | Identifier (s : string)
  | Integer (v : Z)
  | Minus | Plus | LParen | RParen | Comma | EndOfStatement
  | Tilde | Slash | Star | Percent | Exclaim | Amp | Pipe | Caret | AmpAmp | PipePipe
  | EqualEqual | ExclaimEqual | Less | LessEqual | LessLess | LessGreater | Greater | GreaterEqual | GreaterGreater
  | OtherToken (s : string).

#[global] Instance Token_eq_dec : EqDecision Token.
Proof. solve_decision. Defined.

(** The assembler names of NyuziRegisterInfo.td. *)
Definition digit (n : nat) : string :=
  nth n ["0"; "1"; "2"; "3"; "4"; "5"; "6"; "7"; "8"; "9"]%string ""%string.

Definition decimal (n : nat) : string :=
  if (n <? 10)%nat then digit n else String.append (digit (n / 10)) (digit (n mod 10)).

Definition getRegisterName (r : Nyuzi.reg) : string :=
  match r with
  | Nyuzi.S i => String.append "s" (decimal i)
  | Nyuzi.GP_REG => "gp"
  | Nyuzi.FP_REG => "fp"
  | Nyuzi.SP_REG => "sp"
  | Nyuzi.RA_REG => "ra"
  | Nyuzi.V i => String.append "v" (decimal i)
  | Nyuzi.NoRegister | Nyuzi.VirtReg _ => ""
  end.

(** The names are lower case already, so [StringRef::lower] is the identity. *)
Definition printRegName (OS : list Token) (r : Nyuzi.reg) : list Token := OS ++ [Identifier (getRegisterName r)].

(** [O << imm]: a negative number is a minus sign and digits. *)
Definition printInt (O : list Token) (v : Z) : list Token :=
  O ++ (if v <? 0 then [Minus; Integer (- v)] else [Integer v]).

(** What [MCExpr::print] writes for an operator. *)
Definition unaryToken (op : MCUnary.Opcode) : Token :=
  match op with MCUnary.LNot => Exclaim | MCUnary.Minus => Minus | MCUnary.Not => Tilde | MCUnary.Plus => Plus end.

Definition binaryToken (op : MCBinary.Opcode) : Token :=
  match op with
  | MCBinary.Add => Plus | MCBinary.AShr => GreaterGreater | MCBinary.And => Amp | MCBinary.Div => Slash
  | MCBinary.EQ => EqualEqual | MCBinary.GT => Greater | MCBinary.GTE => GreaterEqual | MCBinary.LAnd => AmpAmp
  | MCBinary.LOr => PipePipe | MCBinary.LShr => GreaterGreater | MCBinary.LT => Less | MCBinary.LTE => LessEqual
  | MCBinary.Mod => Percent | MCBinary.Mul => Star | MCBinary.NE => ExclaimEqual | MCBinary.Or => Pipe
  | MCBinary.Shl => LessLess | MCBinary.Sub => Minus | MCBinary.Xor => Caret
  end.

(** An operand that needs no parentheses. *)
Definition isTrivial (e : MCExpr) : bool :=
  match e with MCConstantExpr _ | MCSymbolRefExpr _ => true | _ => false end.

Definition isNegativeConstant (e : MCExpr) : bool :=
  match e with MCConstantExpr v => v <? 0 | _ => false end.

(** Names that start with a dollar sign are put in parentheses, unless the caller says
    it writes parentheses itself; the token is the name the parser puts together. *)
Definition printSymbol (InParens : bool) (O : list Token) (s : string) : list Token :=
  if decide (InParens = false ∧ String.get 0 s = Some "$"%char) then O ++ [LParen; Identifier s; RParen] else O ++ [Identifier s].

(** [Expr->print(O, &MAI, InParens)], with [NyuziMCExpr::printImpl]. *)
Fixpoint printExpr (InParens : bool) (O : list Token) (e : MCExpr) : outcome (list Token) :=
  let print := printExpr false in
  let parenthesized O e := print (O ++ [LParen]) e ≫= λ O, Ret (O ++ [RParen]) in
  match e with
  | MCConstantExpr v => Ret (printInt O v)
  | MCSymbolRefExpr s => Ret (printSymbol InParens O s)
  | MCUnaryExpr op e => print (O ++ [unaryToken op]) e
  | MCBinaryExpr op l r =>
      (if isTrivial l then print O l else parenthesized O l) ≫= λ O,
      if bool_decide (op = MCBinary.Add) && isNegativeConstant r then print O r
      else
        let O := O ++ [binaryToken op] in
        if isTrivial r then print O r else parenthesized O r
  | NyuziMCExpr k e =>
      match k with
      | Nyuzi.VK_Nyuzi_GOT => parenthesized (O ++ [Identifier "got"]) e
      | Nyuzi.VK_Nyuzi_ABS_HI => parenthesized (O ++ [Identifier "hi"]) e
      | Nyuzi.VK_Nyuzi_ABS_LO => parenthesized (O ++ [Identifier "lo"]) e
      | Nyuzi.VK_Nyuzi_NONE => Unreachable "Invalid kind!"
      end
  end.

Definition printOperand (MI : MCInst) (OpNo : Z) (O : list Token) : outcome (list Token) :=
  getOperand MI OpNo ≫= λ Op,
  if isReg Op then getReg Op ≫= λ r, Ret (printRegName O r)
  else if isImm Op then getImm Op ≫= λ v, Ret (printInt O v)
  else
    cassert (isExpr Op) "unknown operand kind in printOperand" ≫= λ _,
    getExpr Op ≫= λ e, printExpr true O e.

Definition printMemOperand (MI : MCInst) (opNum : Z) (O : list Token) : outcome (list Token) :=
  getOperand MI (opNum + 1) ≫= λ Op1,
  (if negb (isImm Op1) then printOperand MI (opNum + 1) O
   else getImm Op1 ≫= λ v, if negb (v =? 0) then printOperand MI (opNum + 1) O else Ret O) ≫= λ O,
  printOperand MI opNum (O ++ [LParen]) ≫= λ O,
  Ret (O ++ [RParen]).

(** [printInst]: the printer TableGen generates is [printInstruction]. *)
Definition printInst (printInstruction : MCInst → list Token → outcome (list Token))
    (MI : MCInst) (O : list Token) : outcome (list Token) :=
  let is_s0 (i : Z) :=
    getOperand MI i ≫= λ o, Ret (bool_decide (o = kRegister (Nyuzi.S 0))) in
  (if bool_decide (Opcode MI = Nyuzi.ORSSI) then
     is_s0 0 ≫= λ b0, if negb b0 then Ret false else
     is_s0 1 ≫= λ b1, if negb b1 then Ret false else
     getOperand MI 2 ≫= λ o2, Ret (bool_decide (o2 = kImmediate 0))
   else Ret false) ≫= λ nop,
  if (nop : bool) then Ret (O ++ [Identifier "nop"]) else printInstruction MI O.

(** ** Lemmas *)

(** Register names are those of exactly one register. *)
Definition all_registers : list Nyuzi.reg := Nyuzi.GPR32 ++ Nyuzi.VR512.

Lemma LowerOperands_app (mbb : nat → string) (gs es : string → string) (jt cp ba : nat → string)
    (l : list MachineOperand) (ops : list MCOperand) (OutMI : MCInst) :
  Forall2 (λ MO op, LowerOperand mbb gs es jt cp ba MO = Ret op ∧ isValid op = true) l ops →
  LowerOperands mbb gs es jt cp ba l OutMI = Ret (mkMCInst (Opcode OutMI) (Operands OutMI ++ ops)).
Proof.
  intros H. revert OutMI. induction H as [| MO op l ops [H1 H2] H IH]; intros OutMI; cbn.
  - rewrite app_nil_r. destruct OutMI. reflexivity.
  - rewrite H1, outcome_bind_ret, H2, IH. cbn. rewrite <- app_assoc. reflexivity.
Qed.
