(* ===== verification/MCExpressions.v ===== *)
(** * MCExpressions: the evaluation of assembly expressions

    lib/MC/MCExpr.cpp, with MCTargetDesc/NyuziMCExpr.cpp: an expression becomes
    an [MCValue], [SymA - SymB + Constant], by folding differences of symbols of
    one section.  Symbols set by an assignment (variables) and common symbols
    are not modelled: every symbol is a label or undefined. *)
From Stdlib Require Import Setoid Morphisms.
From S2P Require Import Prelude MathExtras NyuziTarget.

(** ** Symbols *)

(** A fragment is the index of its section and its index in it; [None] is the
    dummy fragment, where a label is until its fragment is made. *)
Definition FragRef : Type := nat * option nat.

(** The bindings a directive can set. *)
Inductive Binding : Type := STB_LOCAL | STB_GLOBAL | STB_WEAK.

#[global] Instance Binding_eq_dec : EqDecision Binding.
Proof. solve_decision. Defined.

Record MCSymbol : Type := mkSymbol {
  getFragment : option FragRef;
  getOffset : Z;
  BindingSet : option Binding
}.

Definition isUndefined (S : MCSymbol) : bool := bool_decide (getFragment S = None).

(** The section of a defined symbol. *)
Definition getSection (S : MCSymbol) : option nat := fst <$> getFragment S.

(** The symbols of the context; a name not seen yet is an undefined symbol. *)
Definition SymbolTable : Type := gmap string MCSymbol.

Definition newMCSymbol : MCSymbol := mkSymbol None 0 None.

Definition getOrCreateSymbol (Syms : SymbolTable) (Name : string) : MCSymbol := default newMCSymbol (Syms !! Name).

(** [MCAsmLayout]: the offset of each fragment in its section. *)
Definition MCAsmLayout : Type := FragRef → outcome Z.

(** [MCAsmLayout::getSymbolOffset(S)], with [getLabelOffset]. *)
Definition getSymbolOffset (Layout : MCAsmLayout) (S : MCSymbol) : outcome Z :=
  match getFragment S with
  | None => FatalError "unable to evaluate offset to undefined symbol"
  | Some F => Layout F ≫= λ o, Ret (u64 (o + getOffset S))
  end.

(** ** Values *)
Record MCValue : Type := mkValue {
  SymA : option string;
  SymB : option string;
  Constant : Z;
  RefKind : Nyuzi.VariantKind
}.

(** [MCValue::get(SymA, SymB, Val)] *)
Definition MCValue_get (A B : option string) (Val : Z) : MCValue := mkValue A B Val Nyuzi.VK_Nyuzi_NONE.

Definition isAbsolute (V : MCValue) : bool := bool_decide (SymA V = None) && bool_decide (SymB V = None).

(** Arithmetic on [int64_t]: leaving the range is undefined. *)
Definition signed64 (v : Z) : outcome Z :=
  if bool_decide (i64 v = v) then Ret v else UndefinedBehaviour "signed overflow".

Definition shift64 (n v : Z) : outcome Z :=
  if (0 <=? n) && (n <? 64) then Ret v else UndefinedBehaviour "shift amount".

(** The operators on constants; [None] for a division by zero. *)
Definition evaluateConstants (op : MCBinary.Opcode) (LHS RHS : Z) : outcome (option Z) :=
  match op with
  | MCBinary.AShr => shift64 RHS (Z.shiftr LHS RHS) ≫= λ v, Ret (Some v)
  | MCBinary.Add => signed64 (LHS + RHS) ≫= λ v, Ret (Some v)
  | MCBinary.And => Ret (Some (Z.land LHS RHS))
  | MCBinary.Div => if RHS =? 0 then Ret None else signed64 (Z.quot LHS RHS) ≫= λ v, Ret (Some v)
  | MCBinary.Mod => if RHS =? 0 then Ret None else signed64 (Z.quot LHS RHS) ≫= λ _, Ret (Some (Z.rem LHS RHS))
  | MCBinary.EQ => Ret (Some (Z.b2z (LHS =? RHS)))
  | MCBinary.GT => Ret (Some (Z.b2z (RHS <? LHS)))
  | MCBinary.GTE => Ret (Some (Z.b2z (RHS <=? LHS)))
  | MCBinary.LAnd => Ret (Some (Z.b2z (negb (LHS =? 0) && negb (RHS =? 0))))
  | MCBinary.LOr => Ret (Some (Z.b2z (negb (LHS =? 0) || negb (RHS =? 0))))
  | MCBinary.LShr => shift64 (u64 RHS) (i64 (Z.shiftr (u64 LHS) RHS)) ≫= λ v, Ret (Some v)
  | MCBinary.LT => Ret (Some (Z.b2z (LHS <? RHS)))
  | MCBinary.LTE => Ret (Some (Z.b2z (LHS <=? RHS)))
  | MCBinary.Mul => signed64 (LHS * RHS) ≫= λ v, Ret (Some v)
  | MCBinary.NE => Ret (Some (Z.b2z (negb (LHS =? RHS))))
  | MCBinary.Or => Ret (Some (Z.lor LHS RHS))
  | MCBinary.Shl => shift64 (u64 RHS) (i64 (Z.shiftl (u64 LHS) RHS)) ≫= λ v, Ret (Some v)
  | MCBinary.Sub => signed64 (LHS - RHS) ≫= λ v, Ret (Some v)
  | MCBinary.Xor => Ret (Some (Z.lxor LHS RHS))
  end.

(** ** Evaluation *)
Section Evaluation.
Variable Syms : SymbolTable.

Definition sym (Name : string) : MCSymbol := getOrCreateSymbol Syms Name.

(** [isSymbolRefDifferenceFullyResolved(Asm, A, B, InSet)] of the ELF writer: both
    in the same section. *)
Definition isSymbolRefDifferenceFullyResolved (A B : string) : bool :=
  match getSection (sym A), getSection (sym B) with
  | Some a, Some b => bool_decide (a = b)
  | _, _ => false
  end.

(** [AttemptToFoldSymbolOffsetDifference]: the references left and the addend. *)
Definition AttemptToFold (Layout : option MCAsmLayout) (A B : option string) (Addend : Z)
    : outcome (option string * option string * Z) :=
  match A, B with
  | Some a, Some b =>
      if isUndefined (sym a) || isUndefined (sym b) || negb (isSymbolRefDifferenceFullyResolved a b) then
        Ret (A, B, Addend)
      else if bool_decide (getFragment (sym a) = getFragment (sym b)) then
        Ret (None, None, i64 (Addend + (getOffset (sym a) - getOffset (sym b))))
      else
        match Layout with
        | None => Ret (A, B, Addend)
        | Some L =>
            getSymbolOffset L (sym a) ≫= λ oa,
            getSymbolOffset L (sym b) ≫= λ ob,
            Ret (None, None, i64 (Addend + (oa - ob)))
        end
  | _, _ => Ret (A, B, Addend)
  end.

Definition is_symbol (o : option string) : bool := bool_decide (is_Some o).

(** [EvaluateSymbolicAdd]; [Asm] says whether an assembler was passed. *)
Definition EvaluateSymbolicAdd (Asm : bool) (Layout : option MCAsmLayout) (LHS : MCValue) (RHS_A RHS_B : option string)
    (RHS_Cst : Z) : outcome (option MCValue) :=
  signed64 (Constant LHS + RHS_Cst) ≫= λ C,
  cassert (bool_decide (Layout = None) || Asm) "Must have an assembler object if layout is given!" ≫= λ _,
  (if Asm then
     AttemptToFold Layout (SymA LHS) (SymB LHS) C ≫= λ '(LA, LB, C),
     AttemptToFold Layout LA RHS_B C ≫= λ '(LA, RB, C),
     AttemptToFold Layout RHS_A LB C ≫= λ '(RA, LB, C),
     AttemptToFold Layout RA RB C ≫= λ '(RA, RB, C),
     Ret (LA, LB, RA, RB, C)
   else Ret (SymA LHS, SymB LHS, RHS_A, RHS_B, C)) ≫= λ '(LA, LB, RA, RB, C),
  if (is_symbol LA && is_symbol RA) || (is_symbol LB && is_symbol RB) then Ret None
  else Ret (Some (MCValue_get (if is_symbol LA then LA else RA) (if is_symbol LB then LB else RB) C)).

(** [evaluateAsRelocatableImpl] without a set of section addresses; [None] when
    it returns false.  A target expression passes on the assembler only with a
    layout. *)
Fixpoint evaluateAsRelocatableImpl (Asm : bool) (Layout : option MCAsmLayout) (e : MCExpr) : outcome (option MCValue) :=
  match e with
  | NyuziMCExpr k e =>
      evaluateAsRelocatableImpl (match Layout with Some _ => true | None => false end) Layout e ≫= λ r,
      match r with
      | None => Ret None
      | Some V => Ret (Some (mkValue (SymA V) (SymB V) (Constant V) k))
      end
  | MCConstantExpr v => Ret (Some (MCValue_get None None v))
  | MCSymbolRefExpr s => Ret (Some (MCValue_get (Some s) None 0))
  | MCUnaryExpr op e =>
      evaluateAsRelocatableImpl Asm Layout e ≫= λ r,
      match r with
      | None => Ret None
      | Some V =>
          match op with
          | MCUnary.LNot => if isAbsolute V then Ret (Some (MCValue_get None None (Z.b2z (Constant V =? 0)))) else Ret None
          | MCUnary.Minus =>
              if is_symbol (SymA V) && negb (is_symbol (SymB V)) then Ret None
              else Ret (Some (MCValue_get (SymB V) (SymA V) (i64 (- Constant V))))
          | MCUnary.Not => if isAbsolute V then Ret (Some (MCValue_get None None (Z.lnot (Constant V)))) else Ret None
          | MCUnary.Plus => Ret (Some V)
          end
      end
  | MCBinaryExpr op l r =>
      evaluateAsRelocatableImpl Asm Layout l ≫= λ rl,
      match rl with
      | None => Ret None
      | Some L =>
          evaluateAsRelocatableImpl Asm Layout r ≫= λ rr,
          match rr with
          | None => Ret None
          | Some R =>
              if negb (isAbsolute L) || negb (isAbsolute R) then
                match op with
                | MCBinary.Sub => EvaluateSymbolicAdd Asm Layout L (SymB R) (SymA R) (i64 (- Constant R))
                | MCBinary.Add => EvaluateSymbolicAdd Asm Layout L (SymA R) (SymB R) (Constant R)
                | _ => Ret None
                end
              else
                evaluateConstants op (Constant L) (Constant R) ≫= λ c,
                match c with
                | None => Ret None
                | Some v => Ret (Some (MCValue_get None None v))
                end
          end
      end
  end.

(** [evaluateAsRelocatable(Res, Layout, Fixup)] *)
Definition evaluateAsRelocatable (Layout : option MCAsmLayout) (e : MCExpr) : outcome (option MCValue) :=
  evaluateAsRelocatableImpl (match Layout with Some _ => true | None => false end) Layout e.

(** [evaluateAsAbsolute(Res, Asm, Layout, nullptr)]; [None] when it returns false. *)
Definition evaluateAsAbsolute (Asm : bool) (Layout : option MCAsmLayout) (e : MCExpr) : outcome (option Z) :=
  match e with
  | MCConstantExpr v => Ret (Some v)
  | _ =>
      evaluateAsRelocatableImpl Asm Layout e ≫= λ r,
      match r with
      | Some V => if isAbsolute V then Ret (Some (Constant V)) else Ret None
      | None => Ret None
      end
  end.
End Evaluation.

(** ** Meaning

    [eqm64] is equality of 64-bit words: what an address computation may ignore. *)
Definition eqm64 (a b : Z) : Prop := u64 a = u64 b.

#[export] Instance eqm64_equiv : Equivalence eqm64.
Proof. split; red; unfold eqm64; congruence. Qed.

#[export] Instance eqm64_add : Proper (eqm64 ==> eqm64 ==> eqm64) Z.add.
Proof.
  intros a a' Ha b b' Hb. unfold eqm64 in *. rewrite <- uint_add_l, <- uint_add_r, Ha, Hb, uint_add_r, uint_add_l. reflexivity.
Qed.

#[export] Instance eqm64_sub : Proper (eqm64 ==> eqm64 ==> eqm64) Z.sub.
Proof.
  intros a a' Ha b b' Hb. unfold eqm64 in *. rewrite <- uint_sub_l, <- uint_sub_r, Ha, Hb, uint_sub_r, uint_sub_l. reflexivity.
Qed.

#[export] Instance eqm64_opp : Proper (eqm64 ==> eqm64) Z.opp.
Proof. intros a a' Ha. rewrite <- !Z.sub_0_l. rewrite Ha. reflexivity. Qed.

#[export] Instance eqm64_i64 : Proper (eqm64 ==> eq) i64.
Proof. intros a b H. exact (uint_eq_sint 64 a b H). Qed.

Lemma eqm64_sint (a : Z) : eqm64 (i64 a) a.
Proof. apply uint_sint. Qed.

Lemma eqm64_uint (a : Z) : eqm64 (u64 a) a.
Proof. apply uint_uint. Qed.

Lemma signed64_Ret (v w : Z) : signed64 v = Ret w → w = v ∧ i64 v = v.
Proof. unfold signed64. case_bool_decide as E; intros H; inv_ret; auto. Qed.

(** What an operator means on 64-bit words. *)
Definition binary_meaning (op : MCBinary.Opcode) (a b : Z) : Z :=
  match op with
  | MCBinary.Add => a + b
  | MCBinary.Sub => a - b
  | _ => match evaluateConstants op (i64 a) (i64 b) with Ret (Some v) => v | _ => 0 end
  end.

Definition unary_meaning (op : MCUnary.Opcode) (a : Z) : Z :=
  match op with
  | MCUnary.LNot => Z.b2z (i64 a =? 0)
  | MCUnary.Minus => - a
  | MCUnary.Not => Z.lnot (i64 a)
  | MCUnary.Plus => a
  end.

(** The value of an expression when the symbols have the addresses [σ]. *)
Fixpoint meaning (σ : string → Z) (e : MCExpr) : Z :=
  match e with
  | MCConstantExpr v => v
  | MCSymbolRefExpr s => σ s
  | MCUnaryExpr op e => unary_meaning op (meaning σ e)
  | MCBinaryExpr op l r => binary_meaning op (meaning σ l) (meaning σ r)
  | NyuziMCExpr _ e => meaning σ e
  end.

Definition address (σ : string → Z) (o : option string) : Z := match o with Some s => σ s | None => 0 end.

Definition value_meaning (σ : string → Z) (V : MCValue) : Z := address σ (SymA V) - address σ (SymB V) + Constant V.

(** The constants of an expression are of type [int64_t]. *)
Fixpoint expr_ok (e : MCExpr) : bool :=
  match e with
  | MCConstantExpr v => bool_decide (i64 v = v)
  | MCSymbolRefExpr _ => true
  | MCUnaryExpr _ e | NyuziMCExpr _ e => expr_ok e
  | MCBinaryExpr _ l r => expr_ok l && expr_ok r
  end.

(** The symbols of an expression are among [N]. *)
Fixpoint expr_in (N : string → Prop) (e : MCExpr) : Prop :=
  match e with
  | MCConstantExpr _ => True
  | MCSymbolRefExpr s => N s
  | MCUnaryExpr _ e | NyuziMCExpr _ e => expr_in N e
  | MCBinaryExpr _ l r => expr_in N l ∧ expr_in N r
  end.

Definition opt_in (N : string → Prop) (o : option string) : Prop := match o with Some s => N s | None => True end.

Definition value_in (N : string → Prop) (V : MCValue) : Prop := opt_in N (SymA V) ∧ opt_in N (SymB V).

(** The addresses [σ] of the symbols [N] keep the distances the evaluation folds:
    within a fragment, and within a section as the layout has it. *)
Definition respects (Syms : SymbolTable) (Layout : option MCAsmLayout) (N : string → Prop) (σ : string → Z) : Prop :=
  ∀ a b, N a → N b → isSymbolRefDifferenceFullyResolved Syms a b = true →
    (getFragment (sym Syms a) = getFragment (sym Syms b) →
     eqm64 (σ a - σ b) (getOffset (sym Syms a) - getOffset (sym Syms b))) ∧
    (∀ L oa ob, Layout = Some L → getSymbolOffset L (sym Syms a) = Ret oa → getSymbolOffset L (sym Syms b) = Ret ob →
     eqm64 (σ a - σ b) (oa - ob)).

(** Linear consequences of congruences. *)
Ltac eqm :=
  unfold eqm64, uint in *; change (2 ^ 64) with 18446744073709551616 in *; Z.to_euclidean_division_equations; lia.

Section Soundness.
Context (Syms : SymbolTable) (Layout : option MCAsmLayout) (N : string → Prop) (σ : string → Z).
Hypothesis Hσ : respects Syms Layout N σ.

Lemma AttemptToFold_sound (A B A' B' : option string) (C C' : Z) :
  AttemptToFold Syms Layout A B C = Ret (A', B', C') → opt_in N A → opt_in N B →
  eqm64 (address σ A' - address σ B' + C') (address σ A - address σ B + C) ∧ (i64 C = C → i64 C' = C') ∧
  opt_in N A' ∧ opt_in N B'.
Proof.
  unfold AttemptToFold. intros H HA HB. destruct A as [a |], B as [b |]; try (inv_ret; split; [reflexivity | auto]).
  destruct (_ || _) eqn:Hu; [inv_ret; split; [reflexivity | auto] |].
  apply orb_false_elim in Hu as [_ Hf]. apply negb_false_iff in Hf. destruct (Hσ a b HA HB Hf) as [H1 H2].
  case_bool_decide as E.
  - inv_ret. cbn [address opt_in]. rewrite sint_sint. split; [| auto]. specialize (H1 E). rewrite eqm64_sint. clear Hσ H2. eqm.
  - destruct Layout as [L |]; [| inv_ret; split; [reflexivity | auto]]. inv_ret. cbn [address opt_in]. rewrite sint_sint.
    split; [| auto]. specialize (H2 L _ _ eq_refl E0 E1). rewrite eqm64_sint. clear Hσ H1 E0 E1. eqm.
Qed.

(** The symbols left and the constant after the four attempts to fold. *)
Lemma folds_sound (Asm : bool) (LA LB RA RB LA' LB' RA' RB' : option string) (C C' : Z) :
  (if Asm then
     AttemptToFold Syms Layout LA LB C ≫= λ '(LA, LB, C),
     AttemptToFold Syms Layout LA RB C ≫= λ '(LA, RB, C),
     AttemptToFold Syms Layout RA LB C ≫= λ '(RA, LB, C),
     AttemptToFold Syms Layout RA RB C ≫= λ '(RA, RB, C),
     Ret (LA, LB, RA, RB, C)
   else Ret (LA, LB, RA, RB, C)) = Ret (LA', LB', RA', RB', C') →
  opt_in N LA → opt_in N LB → opt_in N RA → opt_in N RB →
  eqm64 (address σ LA' + address σ RA' - address σ LB' - address σ RB' + C')
        (address σ LA + address σ RA - address σ LB - address σ RB + C) ∧ (i64 C = C → i64 C' = C') ∧
  opt_in N LA' ∧ opt_in N LB' ∧ opt_in N RA' ∧ opt_in N RB'.
Proof.
  destruct Asm; intros HF HLA HLB HRA HRB; [| inv_ret; split; [reflexivity | tauto]].
  repeat (apply outcome_bind_Ret_inv in HF as ([[? ?] ?] & HA & HF);
          apply AttemptToFold_sound in HA as (? & ? & ? & ?); [| assumption ..]).
  inv_ret. split; [clear Hσ; eqm | tauto].
Qed.

Lemma EvaluateSymbolicAdd_sound (Asm : bool) (L V : MCValue) (A B : option string) (C : Z) :
  EvaluateSymbolicAdd Syms Asm Layout L A B C = Ret (Some V) → value_in N L → opt_in N A → opt_in N B →
  eqm64 (value_meaning σ V) (value_meaning σ L + (address σ A - address σ B + C)) ∧ i64 (Constant V) = Constant V ∧
  value_in N V.
Proof.
  unfold EvaluateSymbolicAdd. intros H [HLA HLB] HA HB. apply outcome_bind_Ret_inv in H as (C0 & HC & H).
  apply signed64_Ret in HC as [-> HC]. apply cassert_bind_inv in H as [_ H].
  apply outcome_bind_Ret_inv in H as ([[[[LA LB] RA] RB] C1] & HF & H).
  apply folds_sound in HF as (HF & Hi & ? & ? & ? & ?); [| assumption ..]. specialize (Hi HC).
  destruct (_ || _) eqn:Hno; [inv_ret; discriminate |]. inv_ret.
  split; [| split; [exact Hi | split; [destruct (is_symbol LA) | destruct (is_symbol LB)]; assumption]]. unfold value_meaning. cbn [SymA SymB Constant MCValue_get].
  replace (address σ (if is_symbol LA then LA else RA)) with (address σ LA + address σ RA).
  2: { destruct LA, RA; try discriminate Hno; cbn; lia. }
  replace (address σ (if is_symbol LB then LB else RB)) with (address σ LB + address σ RB).
  2: { destruct LA, RA, LB, RB; try discriminate Hno; cbn; lia. }
  clear Hσ. eqm.
Qed.

Lemma isAbsolute_meaning (V : MCValue) : isAbsolute V = true → value_meaning σ V = Constant V.
Proof.
  unfold isAbsolute, value_meaning. intros H. apply andb_prop in H as [HA HB].
  apply bool_decide_eq_true in HA, HB. rewrite HA, HB. cbn. lia.
Qed.

Lemma small64 (v : Z) : 0 ≤ v < 2 ^ 63 → i64 v = v.
Proof. intros H. apply sint_small; lia. Qed.

Lemma b2z_int64 (b : bool) : i64 (Z.b2z b) = Z.b2z b.
Proof. apply small64. destruct b; cbn; lia. Qed.

Lemma bits_int64 (v w : Z) : i64 v = v → i64 w = w →
  i64 (Z.land v w) = Z.land v w ∧ i64 (Z.lor v w) = Z.lor v w ∧ i64 (Z.lxor v w) = Z.lxor v w ∧ i64 (Z.lnot v) = Z.lnot v.
Proof. intros Hv Hw. rewrite <- Hv, <- Hw. repeat split; bitwise. Qed.

Lemma evaluateConstants_int64 (op : MCBinary.Opcode) (a b v : Z) :
  i64 a = a → i64 b = b → evaluateConstants op a b = Ret (Some v) → i64 v = v.
Proof.
  intros Ha Hb H. destruct (bits_int64 a b Ha Hb) as (H1 & H2 & H3 & _).
  destruct op; cbn [evaluateConstants] in H; try (inv_ret; first [assumption | apply b2z_int64]);
    try (destruct (b =? 0) eqn:?; [discriminate H |]).
  all: apply outcome_bind_Ret_inv in H as (w & Hs & H); inv_ret.
  all: try (apply signed64_Ret in Hs as [? ?]; subst; try assumption).
  all: try (unfold shift64 in Hs; destruct (_ && _) eqn:Hb'; inv_ret; try apply sint_sint).
  2: { apply andb_prop in Hb' as [Hb1 Hb2]. rewrite <- Ha. bitwise. }
  assert (b ≠ 0) by lia. pose proof (Z.rem_bound_abs a b ltac:(assumption)).
  pose proof (sint_range 64 b ltac:(lia)). rewrite Hb in *. change (64 - 1) with 63 in *. apply sint_small; lia.
Qed.

Lemma evaluate_sound (e : MCExpr) (Asm : bool) (V : MCValue) :
  expr_ok e = true → expr_in N e → evaluateAsRelocatableImpl Syms Asm Layout e = Ret (Some V) →
  eqm64 (value_meaning σ V) (meaning σ e) ∧ i64 (Constant V) = Constant V ∧ value_in N V.
Proof.
  revert Asm V. induction e as [v | s | op e IH | op l IHl r IHr | k e IH]; intros Asm V Hok Hin H;
    cbn [evaluateAsRelocatableImpl] in H; cbn [expr_in] in Hin.
  - inv_ret. unfold value_meaning. cbn. apply bool_decide_eq_true in Hok. split; [reflexivity | split; [exact Hok | split; exact I]].
  - inv_ret. unfold value_meaning. cbn. split; [f_equal; lia | split; [reflexivity | split; [exact Hin | exact I]]].
  - apply outcome_bind_Ret_inv in H as ([V' |] & HE & H); [| inv_ret; discriminate]. destruct (IH _ _ Hok Hin HE) as (Hm & Hi & HVA & HVB).
    cbn [meaning]. destruct op; cbn [unary_meaning].
    + destruct (isAbsolute V') eqn:HA; [| inv_ret; discriminate]. inv_ret. rewrite (isAbsolute_meaning V' HA) in Hm. rewrite <- Hm, Hi.
      unfold value_meaning. cbn. split; [f_equal; lia | split; [apply b2z_int64 | split; exact I]].
    + destruct (_ && _) eqn:HA; [inv_ret; discriminate |]. inv_ret. cbn [Constant MCValue_get]. rewrite sint_sint.
      split; [| split; [reflexivity | split; assumption]].
      unfold value_meaning in *. cbn [SymA SymB Constant MCValue_get]. rewrite eqm64_sint, <- Hm. apply f_equal. lia.
    + destruct (isAbsolute V') eqn:HA; [| inv_ret; discriminate]. inv_ret. rewrite (isAbsolute_meaning V' HA) in Hm. rewrite <- Hm, Hi.
      unfold value_meaning. cbn. split; [f_equal; lia | split; [exact (proj2 (proj2 (proj2 (bits_int64 _ _ Hi Hi)))) | split; exact I]].
    + inv_ret. split; [exact Hm | split; [exact Hi | split; assumption]].
  - cbn [expr_ok] in Hok. apply andb_prop in Hok as [Hl Hr]. destruct Hin as [Nl Nr].
    apply outcome_bind_Ret_inv in H as ([L |] & HL & H); [| inv_ret; discriminate].
    apply outcome_bind_Ret_inv in H as ([R |] & HR & H); [| inv_ret; discriminate].
    destruct (IHl _ _ Hl Nl HL) as (Ml & Il & Vl). destruct (IHr _ _ Hr Nr HR) as (Mr & Ir & Vr & Vr'). cbn [meaning].
    destruct (negb _ || _) eqn:HA.
    + destruct op; try (inv_ret; discriminate); apply EvaluateSymbolicAdd_sound in H as [H Hi]; try assumption; (split; [| exact Hi]);
        cbn [binary_meaning].
      * rewrite H, <- Ml, <- Mr. reflexivity.
      * rewrite H, <- Ml, <- Mr. unfold value_meaning. rewrite eqm64_sint. apply f_equal. lia.
    + apply orb_false_elim in HA as [HA HB]. apply negb_false_iff in HA, HB.
      rewrite (isAbsolute_meaning L HA) in Ml. rewrite (isAbsolute_meaning R HB) in Mr.
      apply outcome_bind_Ret_inv in H as ([v |] & Hc & H); [| inv_ret; discriminate]. inv_ret.
      pose proof (evaluateConstants_int64 _ _ _ _ Il Ir Hc) as Hv. split; [| split; [exact Hv | split; exact I]].
      transitivity v; [unfold value_meaning; cbn; f_equal; lia |].
      assert (Hm : binary_meaning op (meaning σ l) (meaning σ r) = v ∨ op = MCBinary.Add ∨ op = MCBinary.Sub).
      { unfold binary_meaning. rewrite <- (eqm64_i64 _ _ Ml), <- (eqm64_i64 _ _ Mr), Il, Ir, Hc. destruct op; auto. }
      destruct Hm as [-> | [-> | ->]]; [reflexivity | |]; cbn in Hc |- *; inv_ret;
        match goal with HS : signed64 _ = Ret _ |- _ => apply signed64_Ret in HS as [-> _] end; rewrite <- Ml, <- Mr; reflexivity.
  - apply outcome_bind_Ret_inv in H as ([V' |] & HE & H); [| inv_ret; discriminate]. inv_ret.
    exact (IH _ _ Hok Hin HE).
Qed.
End Soundness.

(** The symbols an expression mentions. *)
Fixpoint symbols (e : MCExpr) : list string :=
  match e with
  | MCConstantExpr _ => []
  | MCSymbolRefExpr s => [s]
  | MCUnaryExpr _ e | NyuziMCExpr _ e => symbols e
  | MCBinaryExpr _ l r => symbols l ++ symbols r
  end.

Lemma expr_in_impl (N N' : string → Prop) (e : MCExpr) : (∀ n, N n → N' n) → expr_in N e → expr_in N' e.
Proof. intros H. induction e; cbn; intuition. Qed.

Lemma expr_in_symbols (e : MCExpr) : expr_in (λ n, n ∈ symbols e) e.
Proof.
  induction e as [| | | op l IHl r IHr |]; cbn; auto; [apply list_elem_of_singleton; reflexivity |].
  split; (eapply expr_in_impl; [| eassumption]); cbn; intros n Hn; apply elem_of_app; auto.
Qed.

(** Addresses that agree on the symbols give the same meaning. *)
Lemma meaning_ext (σ σ' : string → Z) (e : MCExpr) :
  expr_in (λ n, σ n = σ' n) e → meaning σ e = meaning σ' e.
Proof.
  induction e as [| s | op e IH | op l IHl r IHr | k e IH]; cbn; intros H; [reflexivity | exact H | | | auto].
  - rewrite IH by exact H. reflexivity.
  - rewrite IHl, IHr by tauto. reflexivity.
Qed.

(** ** Properties *)

(** C8. The value of an expression is what the expression means.  Whenever the
    evaluation gives symbols and a constant, their sum is the value of the expression
    modulo [2^64], whatever addresses the symbols get that keep the distances the
    layout has folded; an absolute value is the signed 64-bit value itself. *)
Theorem expression_value (Syms : SymbolTable) (Layout : option MCAsmLayout) (σ : string → Z) (e : MCExpr) (Asm : bool) :
  expr_ok e = true → respects Syms Layout (λ n, n ∈ symbols e) σ →
  (∀ V, evaluateAsRelocatable Syms Layout e = Ret (Some V) → u64 (value_meaning σ V) = u64 (meaning σ e)) ∧
  (∀ v, evaluateAsAbsolute Syms Asm Layout e = Ret (Some v) → v = i64 (meaning σ e)).
Proof.
  intros Hok Hσ. pose proof (evaluate_sound Syms Layout _ σ Hσ e) as HS. split.
  - intros V HV. exact (proj1 (HS _ V Hok (expr_in_symbols e) HV)).
  - intros v Hv. assert (HA : (∃ c, e = MCConstantExpr c ∧ v = c) ∨ ∃ V, evaluateAsRelocatableImpl Syms Asm Layout e = Ret (Some V) ∧
              isAbsolute V = true ∧ v = Constant V).
    { unfold evaluateAsAbsolute in Hv. destruct e; [injection Hv as <-; left; eauto | right ..];
        apply outcome_bind_Ret_inv in Hv as ([V |] & HE & Hv); try discriminate Hv;
        destruct (isAbsolute V) eqn:HA; try discriminate Hv; injection Hv as <-; eauto. }
    destruct HA as [(c & -> & ->) | (V & HE & HA & ->)].
    + cbn in Hok |- *. apply bool_decide_eq_true in Hok. symmetry. exact Hok.
    + destruct (HS _ V Hok (expr_in_symbols e) HE) as (Hm & Hi & _). rewrite (isAbsolute_meaning σ V HA) in Hm.
      rewrite <- Hi. apply eqm64_i64. exact Hm.
Qed.

(** Two labels eight bytes apart in one fragment. *)
Definition two_labels : SymbolTable :=
  <["a"%string := mkSymbol (Some (0%nat, Some 0%nat)) 4 None]>
  (<["b"%string := mkSymbol (Some (0%nat, Some 0%nat)) 12 None]> ∅).

Definition three_times (n m : string) : MCExpr :=
  MCBinaryExpr MCBinary.Mul (MCBinaryExpr MCBinary.Sub (MCSymbolRefExpr n) (MCSymbolRefExpr m)) (MCConstantExpr (-3)).

Definition placed_at (base : Z) (s : string) : Z := base + getOffset (sym two_labels s).

Example expression_value_witness :
  evaluateAsAbsolute two_labels true None (three_times "b" "a") = Ret (Some (-24)) ∧
  -24 = i64 (meaning (placed_at 0x1000) (three_times "b" "a")).
Proof.
  assert (HE : evaluateAsAbsolute two_labels true None (three_times "b" "a") = Ret (Some (-24))) by (vm_compute; reflexivity).
  assert (HR : respects two_labels None (λ n, n ∈ symbols (three_times "b" "a")) (placed_at 0x1000)).
  { intros x y _ _ _. split; [intros _ | discriminate]. unfold placed_at. apply f_equal. lia. }
  split; [exact HE |]. exact (proj2 (expression_value two_labels None (placed_at 0x1000) (three_times "b" "a") true ltac:(vm_compute; reflexivity) HR) (-24) HE).
Defined.
