(* ===== verification/MCExprParser.v ===== *)
(** * MCExprParser: the parser of assembly expressions

    The expression parser of lib/MC/MCParser/AsmParser.cpp, on the tokens of a
    statement: the operators by their precedence, constants folded where an
    expression or the inside of a pair of parentheses ends.  Strings, the current
    location, the modifiers behind an at sign and symbols set by an assignment are
    not tokens or symbols of the model. *)
From S2P Require Import Prelude NyuziTarget NyuziMCInstLower MCExpressions.

(** ** Results

    A function of the parser succeeds with a result or fails with a message
    ([true] in the code), and leaves the tokens it has not consumed. *)
Inductive parsed (A : Type) : Type :=
  | Parsed (a : A) (rest : list Token)
  | Failed (msg : string) (rest : list Token)
  | OutOfFuel.
Arguments Parsed {A} a rest.
Arguments Failed {A} msg rest.
Arguments OutOfFuel {A}.

Definition ExprM (A : Type) : Type := list Token → outcome (parsed A).

#[global] Instance ExprM_ret : MRet ExprM := λ A a l, Ret (Parsed a l).
#[global] Instance ExprM_bind : MBind ExprM := λ A B k m l,
  m l ≫= λ r, match r with Parsed a l => k a l | Failed msg l => Ret (Failed msg l) | OutOfFuel => Ret OutOfFuel end.

(** [TokError(Msg)] *)
Definition TokError {A : Type} (msg : string) : ExprM A := λ l, Ret (Failed msg l).

(** The kind of the current token and [Lex()]. *)
Definition getKind (l : list Token) : Token := default EndOfStatement (head l).

Definition expectToken (t : Token) (msg : string) : ExprM unit := λ l,
  if decide (getKind l = t) then Ret (Parsed tt (tail l)) else Ret (Failed msg l).

(** [getGNUBinOpPrecedence]; [ShouldUseLogicalShr] is true unless a target says
    otherwise, and this one does not.  Precedence zero: not a binary operator. *)
Definition getBinOpPrecedence (K : Token) : Z * MCBinary.Opcode :=
  match K with
  | AmpAmp => (2, MCBinary.LAnd)
  | PipePipe => (1, MCBinary.LOr)
  | EqualEqual => (3, MCBinary.EQ)
  | ExclaimEqual | LessGreater => (3, MCBinary.NE)
  | Less => (3, MCBinary.LT)
  | LessEqual => (3, MCBinary.LTE)
  | Greater => (3, MCBinary.GT)
  | GreaterEqual => (3, MCBinary.GTE)
  | Plus => (4, MCBinary.Add)
  | Minus => (4, MCBinary.Sub)
  | Pipe => (5, MCBinary.Or)
  | Caret => (5, MCBinary.Xor)
  | Amp => (5, MCBinary.And)
  | Star => (6, MCBinary.Mul)
  | Slash => (6, MCBinary.Div)
  | Percent => (6, MCBinary.Mod)
  | LessLess => (6, MCBinary.Shl)
  | GreaterGreater => (6, MCBinary.LShr)
  | _ => (0, MCBinary.Add)
  end.

Definition liftO {A : Type} (m : outcome A) : ExprM A := λ l, m ≫= λ a, Ret (Parsed a l).

(** The last part of [parseExpression]: [Res->evaluateAsAbsolute(Value)], without an
    assembler. *)
Definition foldConstant (Res : MCExpr) : outcome MCExpr :=
  evaluateAsAbsolute ∅ false None Res ≫= λ r,
  Ret (match r with Some Value => MCConstantExpr Value | None => Res end).

Section ExprParser.
(** The numeric labels of the file: the label [IntVal] before or after this place,
    and whether a symbol is not defined yet. *)
Variable getDirectionalLocalSymbol : Z → bool → string.
Variable isUndefinedSymbol : string → bool.

(** [parseExpression] from the functions it calls. *)
Definition expressionOf (primary : ExprM MCExpr) (rhs : MCExpr → ExprM MCExpr) : ExprM MCExpr :=
  primary ≫= λ Res, rhs Res ≫= λ Res, liftO (foldConstant Res).

(** [parseParenExpr] *)
Definition parenOf (expression : ExprM MCExpr) : ExprM MCExpr :=
  expression ≫= λ Res, expectToken RParen "expected ')' in parentheses expression" ≫= λ _, mret Res.

(** What follows the right operand of an operator of precedence [TokPrec] is part of
    it when it binds more tightly. *)
Definition tighterOf (TokPrec : Z) (rhs : MCExpr → ExprM MCExpr) (RHS : MCExpr) : ExprM MCExpr := λ l,
  if TokPrec <? (getBinOpPrecedence (getKind l)).1 then rhs RHS l else Ret (Parsed RHS l).

(** A number, with the letter of a directional label behind it or not. *)
Definition parseInteger (IntVal : Z) : ExprM MCExpr := λ l,
  match l with
  | Identifier IDVal :: l' =>
      if decide (IDVal = "f"%string ∨ IDVal = "b"%string) then
        let Before := bool_decide (IDVal = "b"%string) in
        let Sym := getDirectionalLocalSymbol IntVal Before in
        if Before && isUndefinedSymbol Sym then Ret (Failed "directional label undefined" l)
        else Ret (Parsed (MCSymbolRefExpr Sym) l')
      else Ret (Parsed (MCConstantExpr IntVal) l)
  | _ => Ret (Parsed (MCConstantExpr IntVal) l)
  end.

Fixpoint parsePrimaryExpr (fuel : nat) : ExprM MCExpr := λ l,
  match fuel with
  | O => Ret OutOfFuel
  | S fuel =>
      let unary op l := (parsePrimaryExpr fuel ≫= λ Res, mret (MCUnaryExpr op Res)) l in
      match l with
      | Exclaim :: l => unary MCUnary.LNot l
      | Minus :: l => unary MCUnary.Minus l
      | Plus :: l => unary MCUnary.Plus l
      | Tilde :: l => unary MCUnary.Not l
      | Identifier n :: l => Ret (Parsed (MCSymbolRefExpr n) l)
      | Integer v :: l => parseInteger v l
      | LParen :: l => parenOf (expressionOf (parsePrimaryExpr fuel) (parseBinOpRHS fuel 1)) l
      | _ => TokError "unknown token in expression" l
      end
  end
with parseBinOpRHS (fuel : nat) (Precedence : Z) (Res : MCExpr) : ExprM MCExpr := λ l,
  match fuel with
  | O => Ret OutOfFuel
  | S fuel =>
      let '(TokPrec, Kind) := getBinOpPrecedence (getKind l) in
      if TokPrec <? Precedence then Ret (Parsed Res l)
      else
        (parsePrimaryExpr fuel ≫= λ RHS, tighterOf TokPrec (parseBinOpRHS fuel (TokPrec + 1)) RHS ≫= λ RHS,
         parseBinOpRHS fuel Precedence (MCBinaryExpr Kind Res RHS)) (tail l)
  end.

(** [parseExpression(Res)]; one unit of fuel a token is enough. *)
Definition parseExpression : ExprM MCExpr := λ l,
  let fuel := S (length l) in expressionOf (parsePrimaryExpr fuel) (parseBinOpRHS fuel 1) l.

(** ** Specification

    The grammar of expressions, with the meaning of each rule.  A number before the
    letter of a directional label is a label. *)
Definition unary_token (t : Token) : option MCUnary.Opcode :=
  match t with
  | Exclaim => Some MCUnary.LNot
  | Minus => Some MCUnary.Minus
  | Plus => Some MCUnary.Plus
  | Tilde => Some MCUnary.Not
  | _ => None
  end.

Inductive primary : list Token → MCExpr → Prop :=
  | PrimSymbol n : primary [Identifier n] (MCSymbolRefExpr n)
  | PrimInteger v : primary [Integer v] (MCConstantExpr v)
  | PrimForward v : primary [Integer v; Identifier "f"] (MCSymbolRefExpr (getDirectionalLocalSymbol v false))
  | PrimBackward v : isUndefinedSymbol (getDirectionalLocalSymbol v true) = false →
      primary [Integer v; Identifier "b"] (MCSymbolRefExpr (getDirectionalLocalSymbol v true))
  | PrimUnary t op l e : unary_token t = Some op → primary l e → primary (t :: l) (MCUnaryExpr op e)
  | PrimParen l e : expression l e → primary (LParen :: l ++ [RParen]) e
(** Operators of precedence [p] and higher; those of one precedence group to the left. *)
with level : Z → list Token → MCExpr → Prop :=
  | LevelPrimary p l e : primary l e → level p l e
  | LevelBinary p q op t l r a b : getBinOpPrecedence t = (q, op) → 0 < p ≤ q → level q l a → level (q + 1) r b →
      level p (l ++ t :: r) (MCBinaryExpr op a b)
with expression : list Token → MCExpr → Prop :=
  | ExpressionFold l e e' : level 1 l e → foldConstant e = Ret e' → expression l e'.

Definition no_identifier (rest : list Token) : Prop := ∀ n, getKind rest ≠ Identifier n.

(** The tokens do not go on with an expression. *)
Definition ends_expression (rest : list Token) : Prop :=
  (getBinOpPrecedence (getKind rest)).1 = 0 ∧ no_identifier rest.

Scheme primary_mut := Minimality for primary Sort Prop
  with level_mut := Minimality for level Sort Prop
  with expression_mut := Minimality for expression Sort Prop.
Combined Scheme grammar_ind from primary_mut, level_mut, expression_mut.

(** ** Lemmas: fuel *)

Lemma ExprM_bind_inv {A B : Type} (m : ExprM A) (k : A → ExprM B) (l r : list Token) (b : B) :
  (m ≫= k) l = Ret (Parsed b r) → ∃ a l1, m l = Ret (Parsed a l1) ∧ k a l1 = Ret (Parsed b r).
Proof.
  intros H. apply outcome_bind_Ret_inv in H as ([a l1 | |] & H1 & H2); try discriminate H2. eauto.
Qed.

Lemma ExprM_bind_ext {A B : Type} (m m' : ExprM A) (k k' : A → ExprM B) (l : list Token) :
  m l = m' l → (∀ a r, m l = Ret (Parsed a r) → k a r = k' a r) → (m ≫= k) l = (m' ≫= k') l.
Proof.
  intros Hm Hk. unfold mbind, ExprM_bind. rewrite <- Hm. destruct (m l) as [[a r | |] | | | |] eqn:E; try reflexivity.
  exact (Hk a r eq_refl).
Qed.

Lemma ExprM_bind_Parsed {A B : Type} (m : ExprM A) (k : A → ExprM B) (l r : list Token) (a : A) :
  m l = Ret (Parsed a r) → (m ≫= k) l = k a r.
Proof. intros H. unfold mbind, ExprM_bind. rewrite H. reflexivity. Qed.

Lemma ExprM_bind_assoc {A B C : Type} (m : ExprM A) (k : A → ExprM B) (h : B → ExprM C) (l : list Token) :
  ((m ≫= k) ≫= h) l = (m ≫= λ a, k a ≫= h) l.
Proof. unfold mbind, ExprM_bind. destruct (m l) as [[] | | | |]; reflexivity. Qed.

Lemma ExprM_bind_total {A B : Type} (m : ExprM A) (k : A → ExprM B) (l : list Token) :
  m l ≠ Ret OutOfFuel → (∀ a r, m l = Ret (Parsed a r) → k a r ≠ Ret OutOfFuel) → (m ≫= k) l ≠ Ret OutOfFuel.
Proof.
  intros Hm Hk. unfold mbind, ExprM_bind. destruct (m l) as [[a r | |] | | | |] eqn:E; try discriminate; [| destruct (Hm eq_refl)].
  exact (Hk a r eq_refl).
Qed.

(** A parser that leaves at least [k] tokens fewer than it got. *)
Definition takes {A : Type} (k : nat) (m : ExprM A) : Prop :=
  ∀ l a r, m l = Ret (Parsed a r) → (length r + k ≤ length l)%nat.

Lemma takes_bind {A B : Type} (i j : nat) (m : ExprM A) (k : A → ExprM B) :
  takes i m → (∀ a, takes j (k a)) → takes (i + j) (m ≫= k).
Proof.
  intros Hm Hk l b r H. apply ExprM_bind_inv in H as (a & l1 & H1 & H2). pose proof (Hm _ _ _ H1). pose proof (Hk _ _ _ _ H2). lia.
Qed.

Lemma takes_liftO {A : Type} (m : outcome A) : takes 0 (liftO m).
Proof. intros l a r H. apply outcome_bind_Ret_inv in H as (x & _ & H). injection H as _ <-. lia. Qed.

Lemma takes_expressionOf (k : nat) (primary : ExprM MCExpr) (rhs : MCExpr → ExprM MCExpr) :
  takes k primary → (∀ e, takes 0 (rhs e)) → takes k (expressionOf primary rhs).
Proof.
  intros Hp Hr. replace k with (k + (0 + 0))%nat by lia. apply takes_bind; [exact Hp |]. intros e.
  apply takes_bind; [apply Hr |]. intros. apply takes_liftO.
Qed.

Lemma takes_tighterOf (q : Z) (rhs : MCExpr → ExprM MCExpr) (e : MCExpr) :
  (∀ e, takes 0 (rhs e)) → takes 0 (tighterOf q rhs e).
Proof. intros Hr l a r H. unfold tighterOf in H. destruct (_ <? _); [exact (Hr e l a r H) | injection H as _ <-; lia]. Qed.

Lemma parse_takes (fuel : nat) :
  takes 1 (parsePrimaryExpr fuel) ∧ ∀ p e, takes 0 (parseBinOpRHS fuel p e).
Proof.
  induction fuel as [| fuel [IHp IHb]]; [split; intros ? **; discriminate |]. split.
  - assert (HU : ∀ op, takes 1 (parsePrimaryExpr fuel ≫= λ Res, mret (MCUnaryExpr op Res))).
    { intros op. replace 1%nat with (1 + 0)%nat by lia. apply takes_bind; [exact IHp |]. intros e l a r H. injection H as _ <-. lia. }
    assert (HI : ∀ v, takes 0 (parseInteger v)).
    { intros v l a r H. unfold parseInteger in H. repeat case_match; subst; try discriminate H; injection H as _ <-; cbn [length]; lia. }
    assert (HP : takes 1 (parenOf (expressionOf (parsePrimaryExpr fuel) (parseBinOpRHS fuel 1)))).
    { intros l a r H. apply ExprM_bind_inv in H as (e & l1 & H1 & H). apply ExprM_bind_inv in H as (u & l2 & H2 & H).
      injection H as _ <-. apply (takes_expressionOf 1 _ _ IHp (IHb 1)) in H1. unfold expectToken in H2.
      destruct (decide _); [| discriminate H2]. injection H2 as _ <-. destruct l1; cbn [tail length] in *; lia. }
    intros l a r H. cbn [parsePrimaryExpr] in H. destruct l as [| [] l]; try discriminate H; cbn [length];
      first [apply HU in H | apply HI in H | apply HP in H | injection H as _ <-]; lia.
  - intros p e l a r H. cbn [parseBinOpRHS] in H. destruct (getBinOpPrecedence (getKind l)) as [q op].
    destruct (q <? p); [injection H as _ <-; lia |].
    apply ExprM_bind_inv in H as (e1 & l1 & H1 & H). apply ExprM_bind_inv in H as (e2 & l2 & H2 & H).
    apply IHp in H1. apply IHb in H. apply (takes_tighterOf _ _ _ (IHb _)) in H2.
    destruct l as [| t l]; cbn [tail length] in *; lia.
Qed.

(** More fuel than tokens: the result does not depend on it, and it does not run out. *)
Lemma parse_fuel (n m : nat) :
  (∀ l, (length l < n)%nat → (length l < m)%nat → parsePrimaryExpr n l = parsePrimaryExpr m l) ∧
  (∀ p e l, 0 < p → (length l < n)%nat → (length l < m)%nat → parseBinOpRHS n p e l = parseBinOpRHS m p e l).
Proof.
  revert m. induction n as [| n IH]; intros m; [split; intros; lia |].
  destruct m as [| m]; [split; intros; lia |]. destruct (IH m) as [IHp IHb]. split.
  - assert (HU : ∀ op l, (length l < n)%nat → (length l < m)%nat →
      (parsePrimaryExpr n ≫= λ Res, mret (MCUnaryExpr op Res)) l = (parsePrimaryExpr m ≫= λ Res, mret (MCUnaryExpr op Res)) l).
    { intros op l Hn Hm. apply ExprM_bind_ext; [apply IHp; assumption | reflexivity]. }
    assert (HP : ∀ l, (length l < n)%nat → (length l < m)%nat →
      parenOf (expressionOf (parsePrimaryExpr n) (parseBinOpRHS n 1)) l = parenOf (expressionOf (parsePrimaryExpr m) (parseBinOpRHS m 1)) l).
    { intros l Hn Hm. apply ExprM_bind_ext; [| reflexivity]. apply ExprM_bind_ext; [apply IHp; assumption |]. intros e r Hr.
      apply parse_takes in Hr. apply ExprM_bind_ext; [apply IHb; lia | reflexivity]. }
    intros l Hn Hm. cbn [parsePrimaryExpr]. destruct l as [| [] l]; try reflexivity; cbn [length] in *; (apply HU || apply HP); lia.
  - intros p e l Hp Hn Hm. cbn [parseBinOpRHS]. destruct (getBinOpPrecedence (getKind l)) as [q op] eqn:Hq.
    destruct (Z.ltb_spec q p) as [| Hpq]; [reflexivity |].
    destruct l as [| t l]; [injection Hq as <- <-; lia | cbn [tail length] in *].
    assert (HT : ∀ e1 l1, (length l1 < n)%nat → (length l1 < m)%nat →
      tighterOf q (parseBinOpRHS n (q + 1)) e1 l1 = tighterOf q (parseBinOpRHS m (q + 1)) e1 l1)
      by (intros; unfold tighterOf; destruct (_ <? _); [apply IHb; lia | reflexivity]).
    apply ExprM_bind_ext; [apply IHp; lia |]. intros e1 l1 H1. apply parse_takes in H1.
    apply ExprM_bind_ext; [apply HT; lia |]. intros e2 l2 H2. apply takes_tighterOf in H2; [| intros; apply parse_takes].
    apply IHb; lia.
Qed.

(** The functions with enough fuel, and their equations. *)
Definition prim : ExprM MCExpr := λ l, parsePrimaryExpr (S (length l)) l.
Definition rhs (p : Z) (e : MCExpr) : ExprM MCExpr := λ l, parseBinOpRHS (S (length l)) p e l.

Lemma prim_fuel (n : nat) (l : list Token) : (length l < n)%nat → parsePrimaryExpr n l = prim l.
Proof. intros H. apply parse_fuel; lia. Qed.

Lemma rhs_fuel (n : nat) (p : Z) (e : MCExpr) (l : list Token) :
  0 < p → (length l < n)%nat → parseBinOpRHS n p e l = rhs p e l.
Proof. intros Hp H. apply parse_fuel; [exact Hp | lia ..]. Qed.

Lemma prim_takes : takes 1 prim.
Proof. intros l a r H. exact (proj1 (parse_takes _) l a r H). Qed.

Lemma rhs_takes (p : Z) (e : MCExpr) : takes 0 (rhs p e).
Proof. intros l a r H. exact (proj2 (parse_takes _) p e l a r H). Qed.

Lemma expressionOf_fuel (n : nat) (l : list Token) :
  (length l < n)%nat → expressionOf (parsePrimaryExpr n) (parseBinOpRHS n 1) l = expressionOf prim (rhs 1) l.
Proof.
  intros H. apply ExprM_bind_ext; [apply prim_fuel, H |]. intros e r Hr. apply parse_takes in Hr.
  apply ExprM_bind_ext; [apply rhs_fuel; lia | reflexivity].
Qed.

Lemma prim_unary (t : Token) (op : MCUnary.Opcode) (l : list Token) :
  unary_token t = Some op → prim (t :: l) = (prim ≫= λ e, mret (MCUnaryExpr op e)) l.
Proof.
  intros H. transitivity ((parsePrimaryExpr (S (length l)) ≫= λ e, mret (MCUnaryExpr op e)) l);
    [destruct t; try discriminate H; injection H as <-; reflexivity |].
  apply ExprM_bind_ext; [apply prim_fuel; lia | reflexivity].
Qed.

Lemma prim_paren (l : list Token) : prim (LParen :: l) = parenOf (expressionOf prim (rhs 1)) l.
Proof.
  change (prim (LParen :: l)) with (parenOf (expressionOf (parsePrimaryExpr (S (length l))) (parseBinOpRHS (S (length l)) 1)) l).
  apply ExprM_bind_ext; [apply expressionOf_fuel; lia | reflexivity].
Qed.

Lemma rhs_stop (p : Z) (e : MCExpr) (l : list Token) :
  (getBinOpPrecedence (getKind l)).1 < p → rhs p e l = Ret (Parsed e l).
Proof.
  intros H. unfold rhs. cbn [parseBinOpRHS]. destruct (getBinOpPrecedence (getKind l)) as [q op]. cbn [fst] in H.
  destruct (Z.ltb_spec q p); [reflexivity | lia].
Qed.

Lemma rhs_eq (p : Z) (e : MCExpr) (l : list Token) :
  0 < p → rhs p e l =
    let '(q, op) := getBinOpPrecedence (getKind l) in
    if q <? p then Ret (Parsed e l)
    else (prim ≫= λ b, rhs (q + 1) b ≫= λ b, rhs p (MCBinaryExpr op e b)) (tail l).
Proof.
  intros Hp. unfold rhs at 1. cbn [parseBinOpRHS]. destruct (getBinOpPrecedence (getKind l)) as [q op] eqn:Hq.
  destruct (Z.ltb_spec q p) as [| Hpq]; [reflexivity |].
  destruct l as [| t l]; [injection Hq as <- <-; lia | cbn [tail length]].
  apply ExprM_bind_ext; [apply prim_fuel; lia |]. intros b r Hr. apply parse_takes in Hr. apply ExprM_bind_ext.
  - unfold tighterOf. destruct (Z.ltb_spec q (getBinOpPrecedence (getKind r)).1) as [| Hle]; [apply rhs_fuel; lia |].
    symmetry. apply rhs_stop. lia.
  - intros b' r' Hr'. apply takes_tighterOf in Hr'; [| intros; apply parse_takes]. apply rhs_fuel; lia.
Qed.

Lemma parseExpression_eq (l : list Token) : parseExpression l = expressionOf prim (rhs 1) l.
Proof. apply expressionOf_fuel. lia. Qed.

(** ** Lemmas: the parser and the grammar *)

Lemma prim_integer (v : Z) (rest : list Token) :
  no_identifier rest → prim (Integer v :: rest) = Ret (Parsed (MCConstantExpr v) rest).
Proof. intros H. destruct rest as [| [] rest]; try reflexivity. destruct (H s eq_refl). Qed.

Lemma precedence_range (t : Token) : 0 ≤ (getBinOpPrecedence t).1 ≤ 6.
Proof. destruct t; cbn; lia. Qed.

Lemma operator_no_identifier (t : Token) (l : list Token) :
  0 < (getBinOpPrecedence t).1 → no_identifier (t :: l).
Proof. intros H n Hn. cbn in Hn. subst t. cbn in H. lia. Qed.

Lemma grammar_complete :
  (∀ l e, primary l e → ∀ rest, no_identifier rest → prim (l ++ rest) = Ret (Parsed e rest)) ∧
  (∀ p l e, level p l e → ∀ q rest, no_identifier rest → 0 < q ≤ p → (getBinOpPrecedence (getKind rest)).1 ≤ p →
     (prim ≫= λ e, rhs q e) (l ++ rest) = rhs q e rest) ∧
  (∀ l e, expression l e → ∀ rest, ends_expression rest → expressionOf prim (rhs 1) (l ++ rest) = Ret (Parsed e rest)).
Proof.
  apply grammar_ind.
  - reflexivity.
  - intros v rest Hr. apply prim_integer, Hr.
  - reflexivity.
  - intros v Hd rest _. change (parseInteger v (Identifier "b" :: rest) = Ret (Parsed (MCSymbolRefExpr (getDirectionalLocalSymbol v true)) rest)).
    unfold parseInteger. rewrite decide_True by auto. rewrite bool_decide_true by reflexivity. cbn [andb]. rewrite Hd. reflexivity.
  - intros t op l e Ht _ IH rest Hr. cbn [app]. rewrite (prim_unary t op _ Ht), (ExprM_bind_Parsed _ _ _ _ _ (IH rest Hr)). reflexivity.
  - intros l e _ IH rest Hr. cbn [app]. rewrite prim_paren, <- app_assoc. unfold parenOf.
    erewrite ExprM_bind_Parsed; [| apply IH; split; [reflexivity | intros n Hn; discriminate Hn]]. reflexivity.
  - intros p l e _ IH q rest Hr Hq Hp. erewrite ExprM_bind_Parsed; [reflexivity | exact (IH rest Hr)].
  - intros p s op t l r a b Ht Hs _ IHa _ IHb q rest Hr Hq Hp. rewrite <- app_assoc. cbn [app].
    assert (Hst : (getBinOpPrecedence t).1 = s) by (rewrite Ht; reflexivity).
    rewrite (IHa q (t :: r ++ rest)); [| apply operator_no_identifier; lia | lia | cbn [getKind head default]; unfold getKind; cbn; lia].
    rewrite rhs_eq by lia. change (getKind (t :: r ++ rest)) with t. rewrite Ht. destruct (Z.ltb_spec s q); [lia |]. cbn [tail].
    transitivity (((prim ≫= λ e, rhs (s + 1) e) ≫= λ b, rhs q (MCBinaryExpr op a b)) (r ++ rest)); [symmetry; apply ExprM_bind_assoc |].
    erewrite ExprM_bind_Parsed; [reflexivity |]. rewrite IHb by (assumption || lia). apply rhs_stop. lia.
  - intros l e e' _ IH Hf rest [H0 Hr]. unfold expressionOf.
    transitivity (((prim ≫= λ e, rhs 1 e) ≫= λ e, liftO (foldConstant e)) (l ++ rest)); [symmetry; apply ExprM_bind_assoc |].
    erewrite ExprM_bind_Parsed; [| rewrite IH by (assumption || lia); apply rhs_stop; lia]. unfold liftO. rewrite Hf. reflexivity.
Qed.

(** Of [l] the tokens before [rest] are an operand, or go on with the expression that
    the tokens [l0] started. *)
Definition prim_sound (l : list Token) : Prop :=
  ∀ e rest, prim l = Ret (Parsed e rest) → ∃ l1, l = l1 ++ rest ∧ primary l1 e.

Definition rhs_sound (l : list Token) : Prop :=
  ∀ p l0 a e rest, 0 < p → level p l0 a → level (Z.max p (getBinOpPrecedence (getKind l)).1) l0 a →
    rhs p a l = Ret (Parsed e rest) →
    ∃ l1, l = l1 ++ rest ∧ level p (l0 ++ l1) e ∧ (getBinOpPrecedence (getKind rest)).1 < p.

Lemma expressionOf_sound (l rest : list Token) (e : MCExpr) :
  prim_sound l → (∀ l', (length l' < length l)%nat → rhs_sound l') → expressionOf prim (rhs 1) l = Ret (Parsed e rest) →
  ∃ l1, l = l1 ++ rest ∧ expression l1 e ∧ (getBinOpPrecedence (getKind rest)).1 < 1.
Proof.
  intros IHp IHr H. apply ExprM_bind_inv in H as (a & r1 & H1 & H). apply ExprM_bind_inv in H as (e0 & r2 & H2 & H).
  apply outcome_bind_Ret_inv in H as (e' & Hf & H). injection H as <- <-. pose proof (prim_takes _ _ _ H1).
  destruct (IHp a r1 H1) as (l1 & -> & Ha).
  destruct (IHr r1 ltac:(lia) 1 l1 a e0 r2 ltac:(lia) (LevelPrimary _ _ _ Ha) (LevelPrimary _ _ _ Ha) H2) as (l2 & -> & He & Hr).
  exists (l1 ++ l2). rewrite <- app_assoc. split; [reflexivity |]. split; [| exact Hr]. econstructor; eassumption.
Qed.

Lemma parseInteger_sound (v : Z) (l rest : list Token) (e : MCExpr) :
  parseInteger v l = Ret (Parsed e rest) → ∃ l1, Integer v :: l = l1 ++ rest ∧ primary l1 e.
Proof.
  intros H. unfold parseInteger in H. assert (HI : ∀ l, ∃ l1, Integer v :: l = l1 ++ l ∧ primary l1 (MCConstantExpr v))
    by (intros l'; exists [Integer v]; split; [reflexivity | constructor]).
  destruct l as [| [] l]; try (injection H as <- <-; apply HI). destruct (decide _) as [Hd |]; [| injection H as <- <-; apply HI].
  destruct (bool_decide (s = "b"%string) && _) eqn:HU; [discriminate H |]. injection H as <- <-.
  exists [Integer v; Identifier s]. split; [reflexivity |]. destruct Hd as [-> | ->]; [apply PrimForward | apply PrimBackward; exact HU].
Qed.

Lemma parse_sound (n : nat) : ∀ l, (length l < n)%nat → prim_sound l ∧ rhs_sound l.
Proof.
  induction n as [| n IH]; intros l Hl; [lia |]. split.
  - intros e rest H. assert (HU : ∀ t op l, unary_token t = Some op → (length l < n)%nat →
      prim (t :: l) = Ret (Parsed e rest) → ∃ l1, t :: l = l1 ++ rest ∧ primary l1 e).
    { intros t op l' Ht Hl' H'. rewrite (prim_unary t op _ Ht) in H'. apply ExprM_bind_inv in H' as (a & r & H1 & H').
      injection H' as <- <-. destruct (proj1 (IH l' Hl') a r H1) as (l1 & -> & Ha). exists (t :: l1).
      split; [reflexivity | econstructor; eassumption]. }
    destruct l as [| t l]; [discriminate H |]. cbn [length] in Hl.
    destruct (unary_token t) as [op |] eqn:Ht; [exact (HU t op l Ht ltac:(lia) H) |].
    destruct t; try discriminate Ht; try discriminate H.
    + injection H as <- <-. exists [Identifier s]. split; [reflexivity | constructor].
    + exact (parseInteger_sound v l rest e H).
    + rewrite prim_paren in H. apply ExprM_bind_inv in H as (a & r & H1 & H). apply ExprM_bind_inv in H as (u & r' & H2 & H).
      injection H as <- <-. unfold expectToken in H2. destruct (decide _) as [Hk |]; [| discriminate H2]. injection H2 as _ <-.
      destruct (expressionOf_sound l r a) as (l1 & -> & Ha & _); [apply IH; lia | intros; apply IH; lia | exact H1 |].
      destruct r as [| t r]; [discriminate Hk |]. cbn in Hk. subst t. exists (LParen :: l1 ++ [RParen]). cbn [tail].
      split; [cbn; rewrite <- app_assoc; reflexivity | constructor; exact Ha].
  - intros p l0 a e rest Hp Ha Hm H. rewrite rhs_eq in H by exact Hp.
    destruct (getBinOpPrecedence (getKind l)) as [q op] eqn:Hq. destruct (Z.ltb_spec q p) as [Hlt | Hle].
    { injection H as <- <-. exists []. rewrite app_nil_r, Hq. auto. }
    destruct l as [| t l]; [injection Hq as <- _; lia |]. cbn [tail length fst] in *. change (getKind (t :: l)) with t in Hq.
    apply ExprM_bind_inv in H as (b & r1 & H1 & H). apply ExprM_bind_inv in H as (b' & r2 & H2 & H).
    pose proof (prim_takes _ _ _ H1). pose proof (rhs_takes _ _ _ _ _ H2).
    destruct (proj1 (IH l ltac:(lia)) b r1 H1) as (l1 & -> & Hb).
    destruct (proj2 (IH r1 ltac:(lia)) (q + 1) l1 b b' r2 ltac:(lia) (LevelPrimary _ _ _ Hb) (LevelPrimary _ _ _ Hb) H2)
      as (l2 & -> & Hb' & Hr2).
    assert (HL : ∀ p', 0 < p' ≤ q → level p' (l0 ++ t :: l1 ++ l2) (MCBinaryExpr op a b')).
    { intros p' Hp'. econstructor; [exact Hq | exact Hp' | | exact Hb']. replace (Z.max p q) with q in Hm by lia. exact Hm. }
    destruct (proj2 (IH r2 ltac:(lia)) p (l0 ++ t :: l1 ++ l2) _ e rest Hp (HL p ltac:(lia)) (HL (Z.max p (getBinOpPrecedence (getKind r2)).1) ltac:(lia)) H)
      as (l3 & -> & He & Hr3).
    exists (t :: l1 ++ l2 ++ l3). split; [cbn; rewrite <- !app_assoc; reflexivity |]. split; [| exact Hr3].
    replace (l0 ++ t :: l1 ++ l2 ++ l3) with ((l0 ++ t :: l1 ++ l2) ++ l3) by (rewrite <- !app_assoc; cbn; rewrite <- !app_assoc; reflexivity).
    exact He.
Qed.

Lemma parse_total (n : nat) : ∀ l, (length l < n)%nat →
  prim l ≠ Ret OutOfFuel ∧ ∀ p e, 0 < p → rhs p e l ≠ Ret OutOfFuel.
Proof.
  induction n as [| n IH]; intros l Hl; [lia |].
  assert (HX : ∀ l', (length l' < n)%nat → expressionOf prim (rhs 1) l' ≠ Ret OutOfFuel).
  { intros l' Hl'. apply ExprM_bind_total; [apply IH, Hl' |]. intros a r Hr. apply prim_takes in Hr.
    apply ExprM_bind_total; [apply IH; lia |]. intros b r' _ H. apply outcome_bind_Ret_inv in H as (? & _ & H). discriminate H. }
  split.
  - destruct l as [| t l]; [discriminate |]. cbn [length] in Hl. destruct (unary_token t) as [op |] eqn:Ht.
    { rewrite (prim_unary t op l Ht). apply ExprM_bind_total; [apply IH; lia | discriminate]. }
    destruct t; try discriminate Ht; try discriminate.
    + intros H. change (parseInteger v l = Ret OutOfFuel) in H. unfold parseInteger in H. repeat case_match; discriminate H.
    + rewrite prim_paren. apply ExprM_bind_total; [apply HX; lia |]. intros a r _. apply ExprM_bind_total; [| discriminate].
      unfold expectToken. destruct (decide _); discriminate.
  - intros p e Hp. rewrite rhs_eq by exact Hp. destruct (getBinOpPrecedence (getKind l)) as [q op] eqn:Hq.
    destruct (Z.ltb_spec q p); [discriminate |]. destruct l as [| t l]; [injection Hq as <- _; lia |]. cbn [tail length] in *.
    apply ExprM_bind_total; [apply IH; lia |]. intros b r Hr. apply prim_takes in Hr.
    apply ExprM_bind_total; [apply IH; lia |]. intros b' r' Hr'. apply rhs_takes in Hr'. apply IH; lia.
Qed.
End ExprParser.

(** ** Lemmas: folded constants *)

Lemma EvaluateSymbolicAdd_absolute (Syms : SymbolTable) (Layout : option MCAsmLayout) (L V : MCValue) (A B : option string) (C : Z) :
  EvaluateSymbolicAdd Syms false Layout L A B C = Ret (Some V) →
  isAbsolute V = isAbsolute L && negb (is_symbol A) && negb (is_symbol B).
Proof.
  intros H. unfold EvaluateSymbolicAdd in H. apply outcome_bind_Ret_inv in H as (c & _ & H). apply cassert_bind_inv in H as [_ H].
  rewrite outcome_bind_ret in H. destruct ((is_symbol (SymA L) && is_symbol A) || _) eqn:HS; [discriminate H |]. injection H as <-.
  unfold isAbsolute, is_symbol in *. cbn [SymA SymB MCValue_get] in *. destruct (SymA L), (SymB L), A, B; try discriminate HS; reflexivity.
Qed.

(** No relocation operator in the expression. *)
Fixpoint plain (e : MCExpr) : bool :=
  match e with
  | MCConstantExpr _ | MCSymbolRefExpr _ => true
  | MCUnaryExpr _ e => plain e
  | MCBinaryExpr _ l r => plain l && plain r
  | NyuziMCExpr _ _ => false
  end.

(** An expression that is a constant without an assembler is this constant everywhere. *)
Lemma constant_everywhere (e : MCExpr) : ∀ V, plain e = true →
  evaluateAsRelocatableImpl ∅ false None e = Ret (Some V) → isAbsolute V = true →
  V = MCValue_get None None (Constant V) ∧ ∀ Syms Asm Layout, evaluateAsRelocatableImpl Syms Asm Layout e = Ret (Some V).
Proof.
  induction e as [v | s | op e IH | op l IHl r IHr | k e IH]; intros V Hp H HV; cbn [plain] in Hp;
    cbn [evaluateAsRelocatableImpl] in H |- *.
  - injection H as <-. auto.
  - injection H as <-. discriminate HV.
  - apply outcome_bind_Ret_inv in H as ([W |] & HW & H); [| discriminate H].
    assert (HA : isAbsolute W = true).
    { destruct op; [destruct (isAbsolute W); [reflexivity | discriminate H] | | destruct (isAbsolute W); [reflexivity | discriminate H] |].
      - destruct (_ && _); [discriminate H |]. injection H as <-. unfold isAbsolute in *. cbn in HV. rewrite andb_comm. exact HV.
      - injection H as <-. exact HV. }
    destruct (IH W Hp HW HA) as [HE Hall]. rewrite HE in H, Hall. split; [| intros; rewrite Hall, outcome_bind_ret; exact H].
    destruct op; injection H as <-; reflexivity.
  - apply andb_true_iff in Hp as [Hpl Hpr]. apply outcome_bind_Ret_inv in H as ([L |] & HL & H); [| discriminate H].
    apply outcome_bind_Ret_inv in H as ([R |] & HR & H); [| discriminate H].
    assert (HA : isAbsolute L = true ∧ isAbsolute R = true).
    { destruct (negb (isAbsolute L) || negb (isAbsolute R)) eqn:HN; [| destruct (isAbsolute L), (isAbsolute R); auto].
      exfalso. destruct op; try discriminate H; apply EvaluateSymbolicAdd_absolute in H; rewrite HV in H;
        unfold isAbsolute, is_symbol in *; destruct (SymA L), (SymB L), (SymA R), (SymB R); discriminate. }
    destruct HA as [HAL HAR]. destruct (IHl L Hpl HL HAL) as [EL Hl]. destruct (IHr R Hpr HR HAR) as [ER Hr].
    rewrite HAL, HAR in H. cbn [negb orb] in H. split.
    + apply outcome_bind_Ret_inv in H as ([v |] & _ & H); [| discriminate H]. injection H as <-. reflexivity.
    + intros. rewrite Hl, outcome_bind_ret, Hr, outcome_bind_ret, HAL, HAR. exact H.
  - discriminate Hp.
Qed.

(** Two expressions the assembler evaluates alike. *)
Definition same (e e' : MCExpr) : Prop :=
  ∀ Syms Asm Layout, evaluateAsRelocatableImpl Syms Asm Layout e = evaluateAsRelocatableImpl Syms Asm Layout e'.

#[export] Instance same_equiv : Equivalence same.
Proof. split; red; unfold same; congruence. Qed.

#[export] Instance same_unary (op : MCUnary.Opcode) : Proper (same ==> same) (MCUnaryExpr op).
Proof. intros e e' H Syms Asm Layout. cbn. rewrite H. reflexivity. Qed.

#[export] Instance same_binary (op : MCBinary.Opcode) : Proper (same ==> same ==> same) (MCBinaryExpr op).
Proof. intros l l' Hl r r' Hr Syms Asm Layout. cbn. rewrite Hl, Hr. reflexivity. Qed.

(** Evaluating the expression without an assembler is defined. *)
Definition defined (e : MCExpr) : bool :=
  match evaluateAsRelocatableImpl ∅ false None e with Ret _ => true | _ => false end.

Lemma evaluateAsAbsolute_eq (Syms : SymbolTable) (Asm : bool) (Layout : option MCAsmLayout) (e : MCExpr) :
  evaluateAsAbsolute Syms Asm Layout e =
  evaluateAsRelocatableImpl Syms Asm Layout e ≫= λ r,
  Ret (match r with Some V => if isAbsolute V then Some (Constant V) else None | None => None end).
Proof.
  destruct e; cbn [evaluateAsAbsolute]; [reflexivity | ..];
    (match goal with |- ?m ≫= _ = _ => destruct m as [[V |] | | | |]; try reflexivity; cbn; destruct (isAbsolute V); reflexivity end).
Qed.

(** Folding keeps the value. *)
Lemma foldConstant_same (e1 e : MCExpr) :
  same e1 e → plain e = true → defined e = true → ∃ e2, foldConstant e1 = Ret e2 ∧ same e2 e.
Proof.
  intros Hs Hp Hd. unfold foldConstant. rewrite evaluateAsAbsolute_eq, Hs. unfold defined in Hd.
  destruct (evaluateAsRelocatableImpl ∅ false None e) as [r | | | |] eqn:E; try discriminate Hd. rewrite !outcome_bind_ret.
  destruct r as [V |]; [| eauto]. destruct (isAbsolute V) eqn:HA; [| eauto].
  eexists. split; [reflexivity |]. intros Syms Asm Layout. destruct (constant_everywhere e V Hp E HA) as [HV Hall].
  rewrite Hall. cbn [evaluateAsRelocatableImpl]. do 2 f_equal. symmetry. exact HV.
Qed.

(** ** Lemmas: printing *)

(** What the printer can write so that it reads as the same expression: the operand of
    a unary operator is written without parentheses, and both right shifts alike. *)
Definition isBinary (e : MCExpr) : bool := match e with MCBinaryExpr _ _ _ => true | _ => false end.

Fixpoint printable (e : MCExpr) : bool :=
  match e with
  | MCConstantExpr v => (- 2 ^ 63 <? v) && (v <? 2 ^ 63)
  | MCSymbolRefExpr _ => true
  | MCUnaryExpr _ e => negb (isBinary e) && printable e
  | MCBinaryExpr op l r => negb (bool_decide (op = MCBinary.AShr)) && printable l && printable r
  | NyuziMCExpr _ _ => false
  end.

(** Every part can be evaluated without undefined behaviour. *)
Fixpoint folds (e : MCExpr) : bool :=
  defined e &&
  match e with
  | MCUnaryExpr _ e => folds e
  | MCBinaryExpr _ l r => folds l && folds r
  | _ => true
  end.

Lemma printable_plain (e : MCExpr) : printable e = true → plain e = true.
Proof.
  induction e as [| | op e IH | op l IHl r IHr |]; cbn; try reflexivity; intros H; try discriminate H.
  - apply andb_true_iff in H as [_ H]. apply IH, H.
  - apply andb_true_iff in H as [H Hr]. apply andb_true_iff in H as [_ H]. rewrite IHl, IHr by assumption. reflexivity.
Qed.

Lemma folds_defined (e : MCExpr) : folds e = true → defined e = true.
Proof. destruct e; intros H; apply andb_true_iff in H as [H _]; exact H. Qed.

Lemma same_minus (v : Z) : - 2 ^ 63 < v < 2 ^ 63 → same (MCUnaryExpr MCUnary.Minus (MCConstantExpr (- v))) (MCConstantExpr v).
Proof.
  intros Hv Syms Asm Layout. cbn [evaluateAsRelocatableImpl]. rewrite outcome_bind_ret. cbn [is_symbol SymA SymB MCValue_get Constant].
  rewrite Z.opp_involutive. change (is_symbol None) with false. cbn [andb]. do 3 f_equal. apply sint_small; [lia |]. cbn. lia.
Qed.

Lemma same_subtract (l : MCExpr) (v : Z) : - 2 ^ 63 < v < 2 ^ 63 →
  same (MCBinaryExpr MCBinary.Sub l (MCConstantExpr (- v))) (MCBinaryExpr MCBinary.Add l (MCConstantExpr v)).
Proof.
  intros Hv Syms Asm Layout. cbn [evaluateAsRelocatableImpl]. destruct (evaluateAsRelocatableImpl Syms Asm Layout l) as [[L |] | | | |]; try reflexivity.
  rewrite !outcome_bind_ret. cbn [SymA SymB Constant MCValue_get].
  change (isAbsolute (MCValue_get None None (- v))) with true. change (isAbsolute (MCValue_get None None v)) with true.
  destruct (negb (isAbsolute L) || negb true).
  - rewrite Z.opp_involutive. f_equal. apply sint_small; [lia |]. cbn. lia.
  - cbn [evaluateConstants]. rewrite Z.sub_opp_r. reflexivity.
Qed.

Section Printing.
Context (getDirectionalLocalSymbol : Z → bool → string) (isUndefinedSymbol : string → bool).
Notation primary := (primary getDirectionalLocalSymbol isUndefinedSymbol).
Notation level := (level getDirectionalLocalSymbol isUndefinedSymbol).

(** The tokens written for [e] are read as an operand, or as the operands and operator
    of a binary expression, with the value of [e]. *)
Definition printed (e : MCExpr) : Prop :=
  ∀ InParens, ∃ toks e1, (∀ O, printExpr InParens O e = Ret (O ++ toks)) ∧ same e1 e ∧
    if isBinary e then level 1 toks e1 else primary toks e1.

(** An operand of a binary operator. *)
Definition printed_operand (e : MCExpr) : Prop :=
  ∃ toks e1, (∀ O, (if isTrivial e then printExpr false O e else printExpr false (O ++ [LParen]) e ≫= λ O, Ret (O ++ [RParen])) = Ret (O ++ toks)) ∧
    same e1 e ∧ primary toks e1.

Lemma printed_int (v : Z) : - 2 ^ 63 < v < 2 ^ 63 → printed (MCConstantExpr v).
Proof.
  intros Hv InParens. cbn [isBinary]. destruct (Z.ltb_spec v 0) as [Hneg | Hpos].
  - exists [Minus; Integer (- v)], (MCUnaryExpr MCUnary.Minus (MCConstantExpr (- v))). split; [| split; [apply same_minus, Hv |]].
    + intros O. cbn [printExpr]. unfold printInt. destruct (Z.ltb_spec v 0); [reflexivity | lia].
    + apply (PrimUnary _ _ Minus); [reflexivity | constructor].
  - exists [Integer v], (MCConstantExpr v). split; [| split; [reflexivity | constructor]].
    intros O. cbn [printExpr]. unfold printInt. destruct (Z.ltb_spec v 0); [lia | reflexivity].
Qed.

Lemma printed_symbol (s : string) : printed (MCSymbolRefExpr s).
Proof.
  intros InParens. cbn [isBinary printExpr printSymbol]. unfold printSymbol. destruct (decide _).
  - exists [LParen; Identifier s; RParen], (MCSymbolRefExpr s). split; [reflexivity |]. split; [reflexivity |].
    apply (PrimParen _ _ [Identifier s]). econstructor; [apply LevelPrimary, PrimSymbol | reflexivity].
  - exists [Identifier s], (MCSymbolRefExpr s). split; [reflexivity |]. split; [reflexivity | constructor].
Qed.

Lemma printed_parens (e : MCExpr) : printed e → plain e = true → defined e = true → printed_operand e.
Proof.
  intros HP Hp Hd. destruct (HP false) as (toks & e1 & Hpr & Hs & Hl). unfold printed_operand. destruct (isTrivial e) eqn:HT.
  - exists toks, e1. split; [exact Hpr |]. split; [exact Hs |]. destruct e; try discriminate HT; exact Hl.
  - destruct (foldConstant_same e1 e Hs Hp Hd) as (e2 & Hf & Hs2). exists (LParen :: toks ++ [RParen]), e2.
    split; [intros O; rewrite Hpr, outcome_bind_ret, <- !app_assoc; reflexivity |]. split; [exact Hs2 |].
    constructor. econstructor; [| exact Hf]. destruct (isBinary e); [exact Hl | constructor; exact Hl].
Qed.

Lemma binary_tokens (op : MCBinary.Opcode) :
  op ≠ MCBinary.AShr → ∃ q, getBinOpPrecedence (binaryToken op) = (q, op) ∧ 0 < q.
Proof. intros H. destruct op; try (eexists; split; [reflexivity | lia]). destruct (H eq_refl). Qed.

Lemma printed_binary (op : MCBinary.Opcode) (l r : MCExpr) :
  op ≠ MCBinary.AShr → printed_operand l → printed_operand r → (isNegativeConstant r = true → printable r = true) →
  printed (MCBinaryExpr op l r).
Proof.
  intros Hop (tl & l1 & Hl & Hsl & Hpl) (tr & r1 & Hr & Hsr & Hpr) Hneg InParens. cbn [isBinary printExpr].
  destruct (bool_decide (op = MCBinary.Add) && isNegativeConstant r) eqn:HN.
  - apply andb_true_iff in HN as [Ho HN]. apply bool_decide_eq_true in Ho as ->. destruct r as [v | | | |]; try discriminate HN.
    specialize (Hneg HN). cbn in HN, Hneg. exists (tl ++ Minus :: [Integer (- v)]), (MCBinaryExpr MCBinary.Sub l1 (MCConstantExpr (- v))).
    split; [| split].
    + intros O. rewrite Hl, outcome_bind_ret. cbn [printExpr]. unfold printInt. rewrite HN, <- app_assoc. reflexivity.
    + rewrite Hsl. apply same_subtract. lia.
    + apply (LevelBinary _ _ 1 4); [reflexivity | lia | constructor; exact Hpl | constructor; constructor].
  - destruct (binary_tokens op Hop) as (q & Hq & Hq0).
    exists (tl ++ binaryToken op :: tr), (MCBinaryExpr op l1 r1). split; [| split].
    + intros O. rewrite Hl, outcome_bind_ret. cbn zeta. specialize (Hr ((O ++ tl) ++ [binaryToken op])).
      rewrite <- !app_assoc in *. exact Hr.
    + rewrite Hsl, Hsr. reflexivity.
    + apply (LevelBinary _ _ 1 q); [exact Hq | lia | constructor; exact Hpl | constructor; exact Hpr].
Qed.

Lemma print_printed (e : MCExpr) : printable e = true → folds e = true → printed e.
Proof.
  induction e as [v | s | op e IH | op l IHl r IHr |]; cbn [printable folds]; intros Hp Hf; try discriminate Hp.
  - apply printed_int. lia.
  - apply printed_symbol.
  - apply andb_true_iff in Hp as [Hb Hp], Hf as [_ Hf]. destruct (IH Hp Hf false) as (toks & e1 & Hpr & Hs & Hl). intros InParens.
    apply negb_true_iff in Hb. rewrite Hb in Hl. exists (unaryToken op :: toks), (MCUnaryExpr op e1). split; [| split].
    + intros O. cbn [printExpr]. rewrite Hpr, <- app_assoc. reflexivity.
    + rewrite Hs. reflexivity.
    + econstructor; [destruct op; reflexivity | exact Hl].
  - apply andb_true_iff in Hp as [Hp Hpr], Hf as [_ Hf]. apply andb_true_iff in Hp as [Ho Hpl], Hf as [Hfl Hfr].
    apply printed_binary; [apply negb_true_iff, bool_decide_eq_false in Ho; exact Ho | | | intros _; exact Hpr];
      apply printed_parens; auto using printable_plain, folds_defined.
Qed.

(** A printed number is read as this number. *)
Lemma parseExpression_int (v : Z) (rest : list Token) : - 2 ^ 63 < v < 2 ^ 63 → ends_expression rest →
  parseExpression getDirectionalLocalSymbol isUndefinedSymbol (printInt [] v ++ rest) = Ret (Parsed (MCConstantExpr v) rest).
Proof.
  intros Hv Hr. rewrite parseExpression_eq. apply grammar_complete; [| exact Hr]. unfold printInt. cbn [app].
  destruct (Z.ltb_spec v 0).
  - econstructor; [constructor; apply (PrimUnary _ _ Minus); [reflexivity | constructor] |].
    unfold foldConstant. rewrite evaluateAsAbsolute_eq, same_minus by exact Hv. reflexivity.
  - econstructor; [constructor; constructor | reflexivity].
Qed.
End Printing.

(** What a parse leaves is a proper rest of the tokens. *)
Lemma parseExpression_takes (getDirectionalLocalSymbol : Z → bool → string) (isUndefinedSymbol : string → bool) :
  takes 1 (parseExpression getDirectionalLocalSymbol isUndefinedSymbol).
Proof.
  intros l e rest H. rewrite parseExpression_eq in H. eapply takes_expressionOf in H; [exact H | |];
    [apply prim_takes | apply rhs_takes].
Qed.

(** ** Properties *)

(** C30. The parser is the grammar.  It ends on every list of tokens; what it returns
    are the tokens of an expression of the grammar, up to a token that is no operator,
    with the meaning its rules give: operators to the left and by the precedences of
    [getBinOpPrecedence] (those of [getGNUBinOpPrecedence], not the ones the comment of
    [parseExpression] lists), constants folded; and it returns every expression of the grammar that a token
    follows with which no expression goes on. *)
Theorem parser_grammar (getDirectionalLocalSymbol : Z → bool → string) (isUndefinedSymbol : string → bool) :
  let parse := parseExpression getDirectionalLocalSymbol isUndefinedSymbol in
  let grammar := expression getDirectionalLocalSymbol isUndefinedSymbol in
  (∀ l, parse l ≠ Ret OutOfFuel) ∧
  (∀ l e rest, parse l = Ret (Parsed e rest) →
     ∃ l1, l = l1 ++ rest ∧ grammar l1 e ∧ (getBinOpPrecedence (getKind rest)).1 = 0) ∧
  (∀ l e rest, ends_expression rest → grammar l e → parse (l ++ rest) = Ret (Parsed e rest)).
Proof.
  intros parse grammar. split; [| split].
  - intros l. unfold parse. rewrite parseExpression_eq. apply ExprM_bind_total; [apply (parse_total _ _ (S (length l))); lia |].
    intros a r _. apply ExprM_bind_total; [apply (parse_total _ _ (S (length r))); lia |].
    intros b r' _ H. apply outcome_bind_Ret_inv in H as (? & _ & H). discriminate H.
  - intros l e rest H. unfold parse in H. rewrite parseExpression_eq in H.
    apply expressionOf_sound in H as (l1 & -> & He & Hr); [| apply (parse_sound _ _ (S (length l))); lia | intros l' _; apply (parse_sound _ _ (S (length l'))); lia].
    exists l1. split; [reflexivity |]. split; [exact He |]. pose proof (precedence_range (getKind rest)). lia.
  - intros l e rest Hr He. unfold parse. rewrite parseExpression_eq. apply grammar_complete; assumption.
Qed.

(** C31. Printing and parsing an expression.  The tokens [MCExpr::print] writes for a
    [printable] expression, inside parentheses or not, are parsed, in front of any token
    with which no expression goes on, to an expression the assembler evaluates in the
    same way wherever it stands.  Not [printable] are a unary operator on a binary
    expression (its parentheses are not written: it is read as something else), an
    arithmetic right shift (written like the logical one), a target expression and the
    constant of least value; the parts of the expression evaluate without undefined
    behaviour ([folds]). *)
Theorem print_parse_expression (getDirectionalLocalSymbol : Z → bool → string) (isUndefinedSymbol : string → bool)
    (e : MCExpr) (InParens : bool) (rest : list Token) :
  printable e = true → folds e = true → ends_expression rest →
  ∃ toks e', (∀ O, printExpr InParens O e = Ret (O ++ toks)) ∧
    parseExpression getDirectionalLocalSymbol isUndefinedSymbol (toks ++ rest) = Ret (Parsed e' rest) ∧
    ∀ Syms Asm Layout, evaluateAsRelocatableImpl Syms Asm Layout e' = evaluateAsRelocatableImpl Syms Asm Layout e.
Proof.
  intros Hp Hf Hr. destruct (print_printed getDirectionalLocalSymbol isUndefinedSymbol e Hp Hf InParens) as (toks & e1 & Hpr & Hs & Hl).
  destruct (foldConstant_same e1 e Hs (printable_plain e Hp) (folds_defined e Hf)) as (e2 & Hfold & Hs2).
  exists toks, e2. split; [exact Hpr |]. split; [| exact Hs2]. rewrite parseExpression_eq. apply grammar_complete; [| exact Hr].
  econstructor; [| exact Hfold]. destruct (isBinary e); [exact Hl | constructor; exact Hl].
Qed.

(** Printed as [(table-(3*-4))-8]: the product is folded in its parentheses. *)
Definition scaled_entry : MCExpr :=
  MCBinaryExpr MCBinary.Add
    (MCBinaryExpr MCBinary.Sub (MCSymbolRefExpr "table") (MCBinaryExpr MCBinary.Mul (MCConstantExpr 3) (MCConstantExpr (-4))))
    (MCConstantExpr (-8)).

Example print_parse_expression_witness :
  ∃ toks e', printExpr true [] scaled_entry = Ret toks ∧ length toks = 12%nat ∧
    parseExpression (λ _ _, EmptyString) (λ _, true) (toks ++ [Comma]) = Ret (Parsed e' [Comma]) ∧
    evaluateAsRelocatableImpl ∅ false None e' = Ret (Some (MCValue_get (Some "table"%string) None 4)).
Proof.
  destruct (print_parse_expression (λ _ _, EmptyString) (λ _, true) scaled_entry true [Comma] ltac:(vm_compute; reflexivity)
    ltac:(vm_compute; reflexivity) ltac:(split; [reflexivity | intros n Hn; discriminate Hn])) as (toks & e' & Hpr & Hpa & He).
  exists toks, e'. specialize (Hpr []). cbn [app] in Hpr. split; [exact Hpr |]. split; [| split; [exact Hpa |]].
  - vm_compute in Hpr. injection Hpr as <-. reflexivity.
  - rewrite He. vm_compute. reflexivity.
Defined.
