(* ===== verification/NyuziAsmParser.v ===== *)
(** * NyuziAsmParser: the assembly parser

    lib/Target/Nyuzi/AsmParser/NyuziAsmParser.cpp.  A parser function works on
    the tokens of the statement, the operands parsed so far and the diagnostics
    reported; source locations are not modelled.  The matchers TableGen generates
    and the numeric labels of the file are parameters. *)
From S2P Require Import Prelude MathExtras NyuziTarget NyuziMachine NyuziMCInstLower NyuziFormats MCExpressions MCExprParser.
From S2P Require Import NyuziEmitter NyuziFixups NyuziLinker NyuziDisassembler NyuziCodec.

(** ** [struct NyuziOperand] *)
Inductive NyuziOperand : Type :=
  | K_Token (s : string)
  | K_Register (r : Nyuzi.reg)
  | K_Immediate (e : MCExpr)
  | K_Memory (base : Nyuzi.reg) (off : option MCExpr).

Definition Op_getReg (o : NyuziOperand) : outcome Nyuzi.reg :=
  match o with K_Register r => Ret r | _ => AssertFail "Invalid type access!" end.
Definition Op_getImm (o : NyuziOperand) : outcome MCExpr :=
  match o with K_Immediate e => Ret e | _ => AssertFail "Invalid type access!" end.
Definition Op_getToken (o : NyuziOperand) : outcome string :=
  match o with K_Token s => Ret s | _ => AssertFail "Invalid type access!" end.
Definition Op_getMemBase (o : NyuziOperand) : outcome Nyuzi.reg :=
  match o with K_Memory b _ => Ret b | _ => AssertFail "Invalid access!" end.
Definition Op_getMemOff (o : NyuziOperand) : outcome (option MCExpr) :=
  match o with K_Memory _ e => Ret e | _ => AssertFail "Invalid access!" end.

Definition Op_isReg (o : NyuziOperand) : bool := match o with K_Register _ => true | _ => false end.
Definition Op_isImm (o : NyuziOperand) : bool := match o with K_Immediate _ => true | _ => false end.
Definition Op_isToken (o : NyuziOperand) : bool := match o with K_Token _ => true | _ => false end.
Definition Op_isMem (o : NyuziOperand) : bool := match o with K_Memory _ _ => true | _ => false end.

(** [addExpr(Inst, Expr)]; the null expression is [None]. *)
Definition addExpr (Inst : MCInst) (Expr : option MCExpr) : MCInst :=
  match Expr with
  | None => addOperand Inst (kImmediate 0)
  | Some (MCConstantExpr v) => addOperand Inst (kImmediate v)
  | Some e => addOperand Inst (kExpr e)
  end.

(** [addRegOperands], [addImmOperands] (the same code for [addSImm9Operands],
    [addSImm14Operands], [addSImm19Operands]) and [addMemS15Operands] (the same
    for the other memory classes). *)
Definition addRegOperands (o : NyuziOperand) (Inst : MCInst) (N : Z) : outcome MCInst :=
  cassert (N =? 1) "Invalid number of operands!" ≫= λ _,
  Op_getReg o ≫= λ r, Ret (addOperand Inst (kRegister r)).

Definition addImmOperands (o : NyuziOperand) (Inst : MCInst) (N : Z) : outcome MCInst :=
  cassert (N =? 1) "Invalid number of operands!" ≫= λ _,
  Op_getImm o ≫= λ e, Ret (addExpr Inst (Some e)).

Definition addMemOperands (o : NyuziOperand) (Inst : MCInst) (N : Z) : outcome MCInst :=
  cassert (N =? 2) "Invalid number of operands!" ≫= λ _,
  Op_getMemBase o ≫= λ b, Op_getMemOff o ≫= λ e, Ret (addExpr (addOperand Inst (kRegister b)) e).

(** ** The parser state and monad *)
Record PState : Type := mkPState {
  Toks : list Token;
  POperands : list NyuziOperand;
  PErrors : list string
}.

Definition P (A : Type) : Type := PState → outcome (A * PState).

#[global] Instance P_ret : MRet P := fun A a st => Ret (a, st).
#[global] Instance P_bind : MBind P := fun A B k m st =>
  match m st with
  | Ret (a, st') => k a st'
  | AssertFail s => AssertFail s
  | Unreachable s => Unreachable s
  | FatalError s => FatalError s
  | UndefinedBehaviour s => UndefinedBehaviour s
  end.

Definition lift {A : Type} (m : outcome A) : P A := λ st, m ≫= λ a, Ret (a, st).

(** [getLexer().getKind()] / [getTok()]: the current token, end of statement when
    the tokens are used up. *)
Definition getTok : P Token := λ st, Ret (match Toks st with t :: _ => t | [] => EndOfStatement end, st).
Definition Lex : P unit := λ st, Ret (tt, mkPState (tail (Toks st)) (POperands st) (PErrors st)).
Definition Error (msg : string) : P unit := λ st, Ret (tt, mkPState (Toks st) (POperands st) (PErrors st ++ [msg])).
Definition push_back (o : NyuziOperand) : P unit :=
  λ st, Ret (tt, mkPState (Toks st) (POperands st ++ [o]) (PErrors st)).

(** [OperandMatchResultTy] *)
Inductive OperandMatchResultTy : Type := MatchOperand_Success | MatchOperand_NoMatch | MatchOperand_ParseFail.

#[global] Instance OperandMatchResultTy_eq_dec : EqDecision OperandMatchResultTy.
Proof. solve_decision. Defined.

(** [MatchRegisterName], generated from the names of the td file: 0 (here
    [NoRegister]) when no register has the name. *)
Definition MatchRegisterName (name : string) : Nyuzi.reg :=
  match List.find (λ r, String.eqb (getRegisterName r) name) all_registers with
  | Some r => r
  | None => Nyuzi.NoRegister
  end.

(** [StringRef::equals_lower] *)
Definition lower_ascii (c : Ascii.ascii) : Ascii.ascii :=
  let n := Ascii.nat_of_ascii c in
  if ((65 <=? n) && (n <=? 90))%nat then Ascii.ascii_of_nat (n + 32) else c.

Fixpoint lower (s : string) : string :=
  match s with
  | EmptyString => EmptyString
  | String c s' => String (lower_ascii c) (lower s')
  end.

Definition equals_lower (s t : string) : bool := String.eqb (lower s) (lower t).

(** [ParseRegister(RegNo, StartLoc, EndLoc)]: [None] is the result [true]. *)
Definition ParseRegister : P (option Nyuzi.reg) :=
  getTok ≫= λ t,
  match t with
  | Identifier name =>
      let RegNo := MatchRegisterName name in
      if bool_decide (RegNo = Nyuzi.NoRegister) then mret None
      else Lex ≫= λ _, mret (Some RegNo)
  | _ => mret None
  end.

(** The bounds of a signed and of an unsigned immediate of [MaxBits] bits, as the
    code computes them in 32 bits. *)
Definition ImmMaxVal (MaxBits : Z) (isSigned : bool) : Z :=
  if isSigned then i32 (Z.shiftr 0xffffffff (33 - MaxBits)) else i32 (Z.shiftr 0xffffffff (32 - MaxBits)).
Definition ImmMinVal (MaxBits : Z) (isSigned : bool) : Z :=
  if isSigned then i32 (u32 (Z.shiftl 0xffffffff (MaxBits - 1))) else 0.

(** [parseIdentifier(Identifier)]; [None] is the result [true]. *)
Definition parseIdentifier : P (option string) :=
  getTok ≫= λ t,
  match t with
  | Identifier n => Lex ≫= λ _, mret (Some n)
  | _ => mret None
  end.

(** [EVal->evaluateAsAbsolute(ans)] leaves in [ans] the constant part of the value,
    zero when there is none, whatever it returns. *)
Definition evaluatedConstant (EVal : MCExpr) : outcome Z :=
  evaluateAsRelocatableImpl ∅ false None EVal ≫= λ r, Ret (from_option Constant 0 r).

Section Parser.
(** The numeric labels, for the expression parser. *)
Variable getDirectionalLocalSymbol : Z → bool → string.
Variable isUndefinedSymbol : string → bool.

(** [Parser.parseExpression(EVal)]; [None] is the result [true]. *)
Definition parseExpr : P (option MCExpr) := λ st,
  parseExpression getDirectionalLocalSymbol isUndefinedSymbol (Toks st) ≫= λ r,
  match r with
  | Parsed e toks => Ret (Some e, mkPState toks (POperands st) (PErrors st))
  | Failed msg toks => Ret (None, mkPState toks (POperands st) (PErrors st ++ [msg]))
  | OutOfFuel => UndefinedBehaviour "fuel"
  end.

Definition ParseImmediate (MaxBits : Z) (isSigned : bool) : P OperandMatchResultTy :=
  getTok ≫= λ t,
  let Kind :=
    match t with
    | Identifier lookahead =>
        if equals_lower lookahead "hi" then Nyuzi.VK_Nyuzi_ABS_HI
        else if equals_lower lookahead "lo" then Nyuzi.VK_Nyuzi_ABS_LO
        else Nyuzi.VK_Nyuzi_NONE
    | _ => Nyuzi.VK_Nyuzi_NONE
    end in
  if negb (bool_decide (Kind = Nyuzi.VK_Nyuzi_NONE)) then
    Lex ≫= λ _,
    getTok ≫= λ t,
    if negb (bool_decide (t = LParen)) then Error "expected '('" ≫= λ _, mret MatchOperand_ParseFail
    else
      Lex ≫= λ _,
      parseIdentifier ≫= λ id,
      match id with
      | None => Error "expected identifier" ≫= λ _, mret MatchOperand_ParseFail
      | Some sym =>
          getTok ≫= λ t,
          if negb (bool_decide (t = RParen)) then Error "expected ')'" ≫= λ _, mret MatchOperand_ParseFail
          else
            Lex ≫= λ _,
            push_back (K_Immediate (NyuziMCExpr Kind (MCSymbolRefExpr sym))) ≫= λ _,
            mret MatchOperand_Success
      end
  else
    if match t with Identifier n => negb (bool_decide (MatchRegisterName n = Nyuzi.NoRegister)) | _ => false end
    then mret MatchOperand_NoMatch
    else
      parseExpr ≫= λ e,
      match e with
      | None => mret MatchOperand_ParseFail
      | Some EVal =>
          lift (evaluatedConstant EVal) ≫= λ ans,
          if (MaxBits <? 32) && ((ans >? ImmMaxVal MaxBits isSigned) || (ans <? ImmMinVal MaxBits isSigned)) then Error "immediate operand out of range" ≫= λ _, mret MatchOperand_ParseFail
          else push_back (K_Immediate EVal) ≫= λ _, mret MatchOperand_Success
      end.

Definition ParseSImm9Value : P OperandMatchResultTy := ParseImmediate 9 true.
Definition ParseSImm14Value : P OperandMatchResultTy := ParseImmediate 14 true.
Definition ParseSImm19Value : P OperandMatchResultTy := ParseImmediate 19 false.

(** The part of [ParseMemoryOperand] from the opening parenthesis on. *)
Definition ParseMemoryBase (OpIsVector : bool) (Offset : option MCExpr) : P OperandMatchResultTy :=
  getTok ≫= λ t,
  if negb (bool_decide (t = LParen)) then Error "expected (" ≫= λ _, mret MatchOperand_ParseFail
  else
    Lex ≫= λ _,
    ParseRegister ≫= λ r,
    match r with
    | None => Error "invalid register" ≫= λ _, mret MatchOperand_ParseFail
    | Some RegNo =>
        let RegIsVector := Nyuzi.contains Nyuzi.VR512RegClass RegNo in
        if negb (Bool.eqb RegIsVector OpIsVector) then
          Error "invalid operand for instruction" ≫= λ _, mret MatchOperand_ParseFail
        else
          getTok ≫= λ t,
          if negb (bool_decide (t = RParen)) then Error "expected )" ≫= λ _, mret MatchOperand_ParseFail
          else
            Lex ≫= λ _,
            push_back (K_Memory RegNo Offset) ≫= λ _, mret MatchOperand_Success
    end.

Definition ParseMemoryOperand (MaxBits : Z) (OpIsVector : bool) : P OperandMatchResultTy :=
  getTok ≫= λ t,
  match t with
  | Identifier lookahead =>
      if negb (equals_lower lookahead "got") then mret MatchOperand_NoMatch
      else if negb (MaxBits =? 15) || OpIsVector then
        Error "cannot use got expression with this type of memory access" ≫= λ _, mret MatchOperand_ParseFail
      else
        Lex ≫= λ _,
        getTok ≫= λ t,
        if negb (bool_decide (t = LParen)) then Error "expected (" ≫= λ _, mret MatchOperand_ParseFail
        else
          Lex ≫= λ _,
          parseIdentifier ≫= λ id,
          match id with
          | None => Error "expected identifier" ≫= λ _, mret MatchOperand_ParseFail
          | Some sym =>
              getTok ≫= λ t,
              if negb (bool_decide (t = RParen)) then Error "expected ')'" ≫= λ _, mret MatchOperand_ParseFail
              else
                Lex ≫= λ _,
                ParseMemoryBase OpIsVector (Some (NyuziMCExpr Nyuzi.VK_Nyuzi_GOT (MCSymbolRefExpr sym)))
          end
  | Integer _ | Minus | Plus =>
      parseExpr ≫= λ e,
      match e with
      | None => mret MatchOperand_ParseFail
      | Some Offset =>
          let MaxVal := ImmMaxVal MaxBits true in
          let MinVal := ImmMinVal MaxBits true in
          if match Offset with
             | MCConstantExpr v => (v >? MaxVal) || (v <? MinVal)
             | _ => true
             end
          then Error "offset out of range" ≫= λ _, mret MatchOperand_ParseFail
          else ParseMemoryBase OpIsVector (Some Offset)
      end
  | _ => ParseMemoryBase OpIsVector None
  end.

Definition ParseMemoryOperandS10 : P OperandMatchResultTy := ParseMemoryOperand 10 false.
Definition ParseMemoryOperandS14 : P OperandMatchResultTy := ParseMemoryOperand 14 false.
Definition ParseMemoryOperandS15 : P OperandMatchResultTy := ParseMemoryOperand 15 false.
Definition ParseMemoryOperandV10 : P OperandMatchResultTy := ParseMemoryOperand 10 true.
Definition ParseMemoryOperandV15 : P OperandMatchResultTy := ParseMemoryOperand 15 true.

(** ** Instructions *)

(** the generated dispatch to the custom operand parsers *)
Variable MatchOperandParserImpl : string → P OperandMatchResultTy.

(** [ParseOperand(Operands, Mnemonic)]: [true] is an error. *)
Definition ParseOperand (Mnemonic : string) : P bool :=
  MatchOperandParserImpl Mnemonic ≫= λ ResTy,
  match ResTy with
  | MatchOperand_Success => mret false
  | MatchOperand_ParseFail => mret true
  | MatchOperand_NoMatch =>
      ParseRegister ≫= λ r,
      match r with
      | Some RegNo => push_back (K_Register RegNo) ≫= λ _, mret false
      | None =>
          parseExpr ≫= λ e,
          match e with
          | Some IdVal => push_back (K_Immediate IdVal) ≫= λ _, mret false
          | None => mret true
          end
      end
  end.

(** The operand loop of [ParseInstruction]; [None] is out of fuel. *)
Fixpoint ParseOperands (fuel : nat) (Mnemonic : string) : P (option bool) :=
  match fuel with
  | O => mret None
  | S fuel' =>
      ParseOperand Mnemonic ≫= λ (err : bool),
      if err then mret (Some true)
      else
        getTok ≫= λ t,
        if negb (bool_decide (t = Comma)) then mret (Some false)
        else Lex ≫= λ _, ParseOperands fuel' Mnemonic
  end.

Definition ParseInstruction (fuel : nat) (Mnemonic : string) : P (option bool) :=
  push_back (K_Token Mnemonic) ≫= λ _,
  getTok ≫= λ t,
  if bool_decide (t = EndOfStatement) then mret (Some false) else ParseOperands fuel Mnemonic.

End Parser.

(** [ProcessInstruction(Inst, Loc, Out)]: the instructions emitted to the
    streamer; the result is always [false]. *)
Definition ProcessInstruction (isPositionIndependent : bool) (Inst : MCInst) (Out : list MCInst)
    : outcome (bool * list MCInst) :=
  match Opcode Inst with
  | Nyuzi.LI =>
      getOperand Inst 1 ≫= λ Value,
      getImm Value ≫= λ IntVal,
      getOperand Inst 0 ≫= λ Dest,
      if isInt 14 IntVal then
        Ret (false, Out ++ [mkMCInst Nyuzi.MOVESimm [Dest; Value]])
      else
        let Out := Out ++ [mkMCInst Nyuzi.MOVEHI [Dest; kImmediate (Z.land (Z.shiftr IntVal 13) 0x7ffff)]] in
        if negb (Z.land IntVal 0x1fff =? 0) then
          Ret (false, Out ++ [mkMCInst Nyuzi.ORSSI [Dest; Dest; kImmediate (Z.land IntVal 0x1fff)]])
        else Ret (false, Out)
  | Nyuzi.LEA_SYM =>
      getOperand Inst 1 ≫= λ o1, getExpr o1 ≫= λ Symbol,
      let GotSym := NyuziMCExpr Nyuzi.VK_Nyuzi_GOT Symbol in
      getOperand Inst 0 ≫= λ Dest,
      if isPositionIndependent then
        Ret (false, Out ++ [mkMCInst Nyuzi.LW [Dest; kRegister Nyuzi.GP_REG; kExpr GotSym]])
      else
        let HighAddr := NyuziMCExpr Nyuzi.VK_Nyuzi_ABS_HI Symbol in
        let LowAddr := NyuziMCExpr Nyuzi.VK_Nyuzi_ABS_LO Symbol in
        Ret (false, (Out ++ [mkMCInst Nyuzi.MOVEHI [Dest; kExpr HighAddr]])
                    ++ [mkMCInst Nyuzi.ORSSI [Dest; Dest; kExpr LowAddr]])
  | _ => Ret (false, Out ++ [Inst])
  end.

(** The result of the generated [MatchInstructionImpl]. *)
Inductive MatchResult : Type :=
  | Match_Success (Inst : MCInst)
  | Match_MissingFeature
  | Match_MnemonicFail
  | Match_InvalidOperand (ErrorInfo : Z)
  | Match_Other.

(** [MatchAndEmitInstruction]: whether it failed, the instructions emitted and the
    diagnostics. *)
Definition MatchAndEmitInstruction (MatchInstructionImpl : list NyuziOperand → MatchResult)
    (SpellCheck : string → string) (isPIC : bool) (Ops : list NyuziOperand) (Out : list MCInst)
    : outcome (bool * list MCInst * list string) :=
  match MatchInstructionImpl Ops with
  | Match_Success Inst => ProcessInstruction isPIC Inst Out ≫= λ '(b, Out), Ret (b, Out, [])
  | Match_MissingFeature => Ret (true, Out, ["instruction use requires option to be enabled"%string])
  | Match_MnemonicFail =>
      at_index Ops 0 ≫= λ o, Op_getToken o ≫= λ tok,
      Ret (true, Out, [String.append "invalid instruction" (SpellCheck tok)])
  | Match_InvalidOperand ErrorInfo =>
      if negb (ErrorInfo =? u32 (-1)) && (Z.of_nat (length Ops) <=? ErrorInfo) then
        Ret (true, Out, ["too few operands for instruction"%string])
      else Ret (true, Out, ["invalid operand for instruction"%string])
  | Match_Other => Unreachable "Unknown match type detected!"
  end.

(** ** Lemmas *)

(** One step of a parser function that returns. *)
Lemma P_bind_eq {A B : Type} (m : P A) (k : A → P B) (st st' : PState) (a : A) :
  m st = Ret (a, st') → (m ≫= k) st = k a st'.
Proof. intros H. unfold mbind, P_bind. rewrite H. reflexivity. Qed.

Ltac pstep := erewrite P_bind_eq; [| reflexivity].

Lemma MatchRegisterName_name (rc : Nyuzi.regclass) (r : Nyuzi.reg) :
  Nyuzi.contains rc r = true → MatchRegisterName (getRegisterName r) = r ∧ r ≠ Nyuzi.NoRegister.
Proof.
  intros H. apply contains_lookup in H as (i & Hi & H).
  do 32 (destruct i as [| i];
    [destruct rc; injection H as <-; (split; [vm_compute; reflexivity | discriminate]) |]). lia.
Qed.

Lemma ParseRegister_name (rc : Nyuzi.regclass) (r : Nyuzi.reg) (rest : list Token) (ops : list NyuziOperand)
    (errs : list string) :
  Nyuzi.contains rc r = true →
  ParseRegister (mkPState (Identifier (getRegisterName r) :: rest) ops errs)
  = Ret (Some r, mkPState rest ops errs).
Proof.
  intros H. destruct (MatchRegisterName_name rc r H) as [HM HN].
  unfold ParseRegister. pstep. cbn [Toks]. cbv zeta. rewrite HM, bool_decide_false by exact HN. reflexivity.
Qed.

(** The classes a signed or unsigned immediate parser is for. *)
Inductive imm_class : Z → bool → OperandKind → list EncodingField → Prop :=
  | ic_simm9 : imm_class 9 true OpSimm9 F_imm9
  | ic_simm14 : imm_class 14 true OpSimm14 F_imm14
  | ic_simm19 : imm_class 19 false OpSimm19 F_imm19.

Lemma imm_range (MaxBits : Z) (isSigned : bool) (k : OperandKind) (fs : list EncodingField) (v : Z) :
  imm_class MaxBits isSigned k fs →
  (v >? ImmMaxVal MaxBits isSigned) || (v <? ImmMinVal MaxBits isSigned) = negb (op_valid k fs [kImmediate v]).
Proof.
  intros H. destruct H; cbn [op_valid]; unfold in_sint, in_uint.
  - change (ImmMaxVal 9 true) with 255. change (ImmMinVal 9 true) with (-256). cbn. lia.
  - change (ImmMaxVal 14 true) with 8191. change (ImmMinVal 14 true) with (-8192). cbn. lia.
  - change (ImmMaxVal 19 false) with 524287. change (ImmMinVal 19 false) with 0. cbn. lia.
Qed.

Lemma mem_range (MaxBits v : Z) :
  MaxBits = 10 ∨ MaxBits = 14 ∨ MaxBits = 15 →
  (v >? ImmMaxVal MaxBits true) || (v <? ImmMinVal MaxBits true) = negb (in_sint MaxBits v).
Proof.
  unfold in_sint. intros [-> | [-> | ->]].
  - change (ImmMaxVal 10 true) with 511. change (ImmMinVal 10 true) with (-512). cbn. lia.
  - change (ImmMaxVal 14 true) with 8191. change (ImmMinVal 14 true) with (-8192). cbn. lia.
  - change (ImmMaxVal 15 true) with 16383. change (ImmMinVal 15 true) with (-16384). cbn. lia.
Qed.

(** [(reg)] after the offset. *)
Lemma ParseMemoryBase_reg (OpIsVector : bool) (Offset : option MCExpr) (r : Nyuzi.reg) (rest : list Token)
    (ops : list NyuziOperand) (errs : list string) :
  Nyuzi.contains (if OpIsVector then Nyuzi.VR512RegClass else Nyuzi.GPR32RegClass) r = true →
  ParseMemoryBase OpIsVector Offset
    (mkPState (LParen :: Identifier (getRegisterName r) :: RParen :: rest) ops errs)
  = Ret (MatchOperand_Success, mkPState rest (ops ++ [K_Memory r Offset]) errs).
Proof.
  intros H. unfold ParseMemoryBase. pstep. cbn [Toks].
  rewrite bool_decide_true by reflexivity. cbn [negb]. pstep. cbn [tail Toks POperands PErrors].
  erewrite P_bind_eq; [| exact (ParseRegister_name _ _ _ _ _ H)].
  assert (HV : Nyuzi.contains Nyuzi.VR512RegClass r = OpIsVector).
  { destruct OpIsVector; [exact H | apply regclass_disjoint, H]. }
  cbv beta iota zeta. rewrite HV, eqb_reflx. cbn [negb]. pstep. cbn [Toks].
  rewrite bool_decide_true by reflexivity. reflexivity.
Qed.

(** Parser functions that do not invent tokens. *)
Definition consumes {A : Type} (m : P A) : Prop :=
  ∀ st a st', m st = Ret (a, st') → (length (Toks st') ≤ length (Toks st))%nat.

Lemma P_bind_Ret_inv {A B : Type} (m : P A) (k : A → P B) (st st' : PState) (b : B) :
  (m ≫= k) st = Ret (b, st') → ∃ a st1, m st = Ret (a, st1) ∧ k a st1 = Ret (b, st').
Proof.
  unfold mbind, P_bind. destruct (m st) as [[a st1] | | | |] eqn:E; try discriminate. eauto.
Qed.

Lemma consumes_bind {A B : Type} (m : P A) (k : A → P B) :
  consumes m → (∀ a, consumes (k a)) → consumes (m ≫= k).
Proof.
  intros Hm Hk st b st' H. apply P_bind_Ret_inv in H as (a & st1 & H1 & H2).
  apply Hm in H1. apply Hk in H2. lia.
Qed.

Lemma consumes_ret {A : Type} (a : A) : consumes (mret a).
Proof. intros st b st' H. injection H as _ <-. lia. Qed.

Lemma consumes_push (o : NyuziOperand) : consumes (push_back o).
Proof. intros st b st' H. injection H as _ <-. cbn. lia. Qed.

Lemma consumes_getTok : consumes getTok.
Proof. intros st b st' H. injection H as _ <-. lia. Qed.

Lemma consumes_Lex : consumes Lex.
Proof. intros st b st' H. injection H as _ <-. cbn. destruct (Toks st); cbn; lia. Qed.

Create HintDb consumes.
#[export] Hint Resolve consumes_ret consumes_push consumes_getTok consumes_Lex : consumes.

Lemma consumes_ParseRegister : consumes ParseRegister.
Proof.
  unfold ParseRegister. apply consumes_bind; [auto with consumes |].
  intros []; auto with consumes. case_match; auto with consumes.
  apply consumes_bind; auto with consumes.
Qed.

#[export] Hint Resolve consumes_ParseRegister : consumes.

Section Termination.
Context (getDirectionalLocalSymbol : Z → bool → string) (isUndefinedSymbol : string → bool).
Notation parseExpr := (parseExpr getDirectionalLocalSymbol isUndefinedSymbol).
Notation ParseOperand := (ParseOperand getDirectionalLocalSymbol isUndefinedSymbol).
Notation ParseOperands := (ParseOperands getDirectionalLocalSymbol isUndefinedSymbol).

Lemma parseExpr_consumes (st st' : PState) (e : MCExpr) :
  parseExpr st = Ret (Some e, st') → (length (Toks st') < length (Toks st))%nat.
Proof.
  intros H. apply outcome_bind_Ret_inv in H as ([a l | |] & H1 & H); try discriminate H. injection H as <- <-.
  apply parseExpression_takes in H1. cbn [Toks]. lia.
Qed.

Lemma ParseOperand_consumes (mo : string → P OperandMatchResultTy) (Mn : string) (st st' : PState) :
  consumes (mo Mn) → ParseOperand mo Mn st = Ret (false, st') → (length (Toks st') ≤ length (Toks st))%nat.
Proof.
  intros Hmo H. apply P_bind_Ret_inv in H as (r & st1 & H1 & H). apply Hmo in H1.
  destruct r; [injection H as <-; exact H1 | | discriminate H].
  apply P_bind_Ret_inv in H as (r & st2 & H2 & H). apply consumes_ParseRegister in H2. destruct r as [r |].
  - apply (consumes_bind _ _ (consumes_push _) (λ _, consumes_ret _)) in H. lia.
  - apply P_bind_Ret_inv in H as ([e |] & st3 & H3 & H); [| discriminate H]. apply parseExpr_consumes in H3.
    apply (consumes_bind _ _ (consumes_push _) (λ _, consumes_ret _)) in H. lia.
Qed.

Lemma ParseOperands_fuel (mo : string → P OperandMatchResultTy) (Mn : string) (fuel : nat) (st : PState) :
  consumes (mo Mn) → (length (Toks st) < fuel)%nat → ∀ st', ParseOperands mo fuel Mn st ≠ Ret (None, st').
Proof.
  intros Hmo. revert st. induction fuel as [| fuel IH]; intros st Hf st' H; [lia |].
  cbn [NyuziAsmParser.ParseOperands] in H. apply P_bind_Ret_inv in H as ([] & st1 & H1 & H); [discriminate H |].
  apply ParseOperand_consumes in H1; [| exact Hmo].
  apply P_bind_Ret_inv in H as (t & st2 & H2 & H). injection H2 as <- <-.
  destruct (bool_decide _) eqn:E; cbn [negb] in H; [| discriminate].
  apply P_bind_Ret_inv in H as (u & st3 & H3 & H). injection H3 as _ <-.
  eapply IH; [| exact H]. cbn. destruct (Toks st1) as [| t l]; cbn in *; [| lia].
  apply bool_decide_eq_true in E. discriminate.
Qed.
End Termination.

(** ** Pseudo instructions: what the emitted instructions compute *)

(** An MC instruction as the machine instruction it encodes (expressions have no
    value before relocation). *)
Definition mi_operand (MO : MCOperand) : MachineOperand :=
  match MO with kRegister r => addReg r | kImmediate v => MO_Immediate v | _ => MO_RegisterMask end.

Definition mi_of (MI : MCInst) : MachineInstr := mkMI (Opcode MI) (map mi_operand (Operands MI)).

Lemma hi_lo_u32 (v : Z) :
  Z.lor (u32 (Z.shiftl (Z.land (Z.shiftr v 13) 0x7ffff) 13)) (u32 (Z.land v 0x1fff)) = u32 v.
Proof.
  change 0x7ffff with (Z.ones 19). change 0x1fff with (Z.ones 13). rewrite !uint_land_ones by lia. bitwise.
Qed.

Lemma reg_gpr (r : Nyuzi.reg) (n : nat) :
  Nyuzi.contains Nyuzi.GPR32RegClass r = true → r ≠ Nyuzi.VirtReg n.
Proof. intros H ->. vm_compute in H. discriminate. Qed.

(** The instructions of [LI] are valid for the emitter. *)
Lemma valid_movehi (r : Nyuzi.reg) (v : Z) :
  Nyuzi.contains Nyuzi.GPR32RegClass r = true → in_uint 19 v = true →
  inst_valid (mkMCInst Nyuzi.MOVEHI [kRegister r; kImmediate v]) = true.
Proof.
  intros Hr Hv. unfold inst_valid. cbn. change (Z.to_nat 1) with 1%nat. cbn. rewrite Hr, Hv. reflexivity.
Qed.

Lemma valid_orssi (r : Nyuzi.reg) (v : Z) :
  Nyuzi.contains Nyuzi.GPR32RegClass r = true → in_sint 14 v = true →
  inst_valid (mkMCInst Nyuzi.ORSSI [kRegister r; kRegister r; kImmediate v]) = true.
Proof.
  intros Hr Hv. unfold inst_valid. cbn. change (Z.to_nat 1) with 1%nat. cbn. rewrite Hr, Hv. reflexivity.
Qed.

Lemma valid_movesimm (r : Nyuzi.reg) (v : Z) :
  Nyuzi.contains Nyuzi.GPR32RegClass r = true → in_sint 14 v = true →
  inst_valid (mkMCInst Nyuzi.MOVESimm [kRegister r; kImmediate v]) = true.
Proof.
  intros Hr Hv. unfold inst_valid. cbn. change (Z.to_nat 1) with 1%nat. cbn. rewrite Hr, Hv. reflexivity.
Qed.

(** ** Properties *)

(** A printed number is parsed as an operand. *)
Lemma parseExpr_int (D : Z → bool → string) (U : string → bool) (v : Z) (rest : list Token) (ops : list NyuziOperand) (errs : list string) :
  - 2 ^ 63 < v < 2 ^ 63 → ends_expression rest →
  parseExpr D U (mkPState (printInt [] v ++ rest) ops errs) = Ret (Some (MCConstantExpr v), mkPState rest ops errs).
Proof. intros Hv Hr. unfold parseExpr. cbn [Toks]. rewrite parseExpression_int by assumption. reflexivity. Qed.

(** An immediate is accepted exactly when it can be encoded: for the three
    immediate operand classes, on the tokens of a number, [ParseImmediate] succeeds
    with that operand if the emitter's operand of the class accepts it, and reports
    "out of range" otherwise. *)
Theorem ParseImmediate_range (D : Z → bool → string) (U : string → bool)
    (MaxBits : Z) (isSigned : bool) (k : OperandKind) (fs : list EncodingField) (v : Z)
    (rest : list Token) (ops : list NyuziOperand) (errs : list string) :
  imm_class MaxBits isSigned k fs → - 2 ^ 63 < v < 2 ^ 63 → ends_expression rest →
  ParseImmediate D U MaxBits isSigned (mkPState (printInt [] v ++ rest) ops errs) =
    Ret (if op_valid k fs [kImmediate v]
         then (MatchOperand_Success, mkPState rest (ops ++ [K_Immediate (MCConstantExpr v)]) errs)
         else (MatchOperand_ParseFail, mkPState rest ops (errs ++ ["immediate operand out of range"%string]))).
Proof.
  intros Hc Hv Hr. assert (Hlt : (MaxBits <? 32) = true) by (destruct Hc; reflexivity).
  assert (HT : ∃ t toks, printInt [] v ++ rest = t :: toks ∧ ∀ s, t ≠ Identifier s)
    by (unfold printInt; destruct (v <? 0); do 2 eexists; (split; [reflexivity | discriminate])).
  pose proof (parseExpr_int D U v rest ops errs Hv Hr) as HE.
  destruct HT as (t & toks & Htoks & Ht). rewrite Htoks in *. unfold ParseImmediate. pstep. cbn [Toks].
  destruct t; try (destruct (Ht _ eq_refl));
    (cbv beta iota zeta; rewrite bool_decide_true by reflexivity; cbn [negb];
     erewrite P_bind_eq; [| exact HE]; cbv beta iota; pstep; cbv beta; cbn [from_option Constant MCValue_get];
     rewrite Hlt, (imm_range _ _ _ _ v Hc); destruct (op_valid k fs [kImmediate v]); reflexivity).
Qed.

Example ParseImmediate_range_witness :
  ParseImmediate (λ _ _, EmptyString) (λ _, true) 14 true (mkPState [Minus; Integer 8193; Comma] [] [])
  = Ret (MatchOperand_ParseFail, mkPState [Comma] [] ["immediate operand out of range"%string]).
Proof.
  exact (ParseImmediate_range (λ _ _, EmptyString) (λ _, true) 14 true OpSimm14 F_imm14 (-8193) [Comma] [] []
    ic_simm14 ltac:(lia) ltac:(split; [reflexivity | intros n Hn; discriminate Hn])).
Defined.

Lemma addMem_two (r : Nyuzi.reg) (Inst : MCInst) (off : option MCExpr) (v : Z) :
  (off = None ∧ v = 0) ∨ off = Some (MCConstantExpr v) →
  addMemOperands (K_Memory r off) Inst 2 = Ret (addOperands Inst [kRegister r; kImmediate v]).
Proof.
  intros H. unfold addMemOperands, addOperands. cbn.
  replace (addExpr (addOperand Inst (kRegister r)) off) with (addOperand (addOperand Inst (kRegister r)) (kImmediate v))
    by (destruct H as [[-> ->] | ->]; reflexivity).
  unfold addOperand. cbn. rewrite <- app_assoc. reflexivity.
Qed.

(** C32. Printing and parsing memory operands: the tokens [printMemOperand] writes
    for a base register and an offset in range are parsed back by
    [ParseMemoryOperand] into an operand whose [addMem...Operands] gives the same
    two MC operands; an offset out of range is rejected. *)
Theorem print_parse_mem (D : Z → bool → string) (U : string → bool) (MaxBits : Z) (OpIsVector : bool) (MI Inst : MCInst) (opNum : Z) (r : Nyuzi.reg) (v : Z)
    (rest : list Token) (ops : list NyuziOperand) (errs : list string) :
  MaxBits = 10 ∨ MaxBits = 14 ∨ MaxBits = 15 →
  Nyuzi.contains (if OpIsVector then Nyuzi.VR512RegClass else Nyuzi.GPR32RegClass) r = true →
  getOperand MI opNum = Ret (kRegister r) → getOperand MI (opNum + 1) = Ret (kImmediate v) →
  - 2 ^ 63 < v < 2 ^ 63 →
  ∃ toks, printMemOperand MI opNum [] = Ret toks ∧
    if in_sint MaxBits v then
      ∃ o, ParseMemoryOperand D U MaxBits OpIsVector (mkPState (toks ++ rest) ops errs)
           = Ret (MatchOperand_Success, mkPState rest (ops ++ [o]) errs) ∧
        addMemOperands o Inst 2 = Ret (addOperands Inst [kRegister r; kImmediate v])
    else ∃ st', ParseMemoryOperand D U MaxBits OpIsVector (mkPState (toks ++ rest) ops errs)
           = Ret (MatchOperand_ParseFail, st') ∧ PErrors st' = errs ++ ["offset out of range"%string].
Proof.
  intros HM Hr H0 H1 Hv64.
  assert (Hprint : printMemOperand MI opNum [] = Ret ((if v =? 0 then [] else printInt [] v) ++
            [LParen; Identifier (getRegisterName r); RParen])).
  { unfold printMemOperand, printOperand. rewrite H1, outcome_bind_ret. cbn [isImm negb getImm].
    rewrite outcome_bind_ret. destruct (v =? 0); cbn [negb].
    - rewrite outcome_bind_ret, H0. reflexivity.
    - rewrite outcome_bind_ret. cbn [isReg isImm getImm]. rewrite !outcome_bind_ret, H0.
      cbn [mbind outcome_bind isReg getReg]. unfold printRegName, printInt. destruct (v <? 0); reflexivity. }
  eexists. split; [exact Hprint |]. rewrite <- app_assoc. cbn [app].
  destruct (Z.eqb_spec v 0) as [-> | Hv].
  - assert (HR : in_sint MaxBits 0 = true) by (destruct HM as [-> | [-> | ->]]; reflexivity). rewrite HR.
    exists (K_Memory r None). split.
    + unfold ParseMemoryOperand. pstep. cbn [app Toks]. cbv beta iota. apply ParseMemoryBase_reg, Hr.
    + apply addMem_two; auto.
  - assert (HE : ParseMemoryOperand D U MaxBits OpIsVector
        (mkPState (printInt [] v ++ LParen :: Identifier (getRegisterName r) :: RParen :: rest) ops errs) =
      if in_sint MaxBits v
      then ParseMemoryBase OpIsVector (Some (MCConstantExpr v))
             (mkPState (LParen :: Identifier (getRegisterName r) :: RParen :: rest) ops errs)
      else Ret (MatchOperand_ParseFail,
                mkPState (LParen :: Identifier (getRegisterName r) :: RParen :: rest) ops
                  (errs ++ ["offset out of range"%string]))).
    { unfold ParseMemoryOperand. pstep. cbn [Toks].
      pose proof (parseExpr_int D U v (LParen :: Identifier (getRegisterName r) :: RParen :: rest) ops errs Hv64
        ltac:(split; [reflexivity | intros n Hn; discriminate Hn])) as Hrun.
      unfold printInt in *. destruct (v <? 0); cbn [app] in *; cbv beta iota;
        (erewrite P_bind_eq; [| exact Hrun]); cbv beta iota zeta; rewrite (mem_range _ v HM);
        destruct (in_sint MaxBits v); reflexivity. }
    rewrite HE. destruct (in_sint MaxBits v).
    + exists (K_Memory r (Some (MCConstantExpr v))). split; [apply ParseMemoryBase_reg, Hr |].
      apply addMem_two; auto.
    + eexists. split; reflexivity.
Qed.

Example print_parse_mem_witness :
  ∃ toks o, printMemOperand (mkMCInst Nyuzi.LW [kRegister (Nyuzi.S 3); kRegister Nyuzi.SP_REG; kImmediate (-12)]) 1 []
      = Ret toks ∧
    ParseMemoryOperand (λ _ _, EmptyString) (λ _, true) 15 false (mkPState toks [] [])
      = Ret (MatchOperand_Success, mkPState [] [o] []) ∧
    addMemOperands o (mkMCInst Nyuzi.LW []) 2 = Ret (mkMCInst Nyuzi.LW [kRegister Nyuzi.SP_REG; kImmediate (-12)]).
Proof.
  destruct (print_parse_mem (λ _ _, EmptyString) (λ _, true) 15 false
    (mkMCInst Nyuzi.LW [kRegister (Nyuzi.S 3); kRegister Nyuzi.SP_REG; kImmediate (-12)]) (mkMCInst Nyuzi.LW []) 1
    Nyuzi.SP_REG (-12) [] [] [] ltac:(auto) ltac:(vm_compute; reflexivity) ltac:(reflexivity) ltac:(reflexivity)
    ltac:(lia)) as (toks & HP & HR).
  change (in_sint 15 (-12)) with true in HR. destruct HR as (o & HR & HA).
  rewrite app_nil_r in HR. exists toks, o. split; [exact HP |]. split; [exact HR | exact HA].
Defined.

(** [li] loads its value: for any 64-bit immediate, [ProcessInstruction]
    replaces the pseudo instruction by instructions the emitter can encode, whose
    execution leaves the low 32 bits of the immediate in the destination and
    everything else as it was. *)
Theorem li_loads (isPIC : bool) (r : Nyuzi.reg) (v : Z) (Out : list MCInst) (fi_addr : Z → Z) (st : mstate) :
  Nyuzi.contains Nyuzi.GPR32RegClass r = true →
  ∃ l st', ProcessInstruction isPIC (mkMCInst Nyuzi.LI [kRegister r; kImmediate v]) Out = Ret (false, Out ++ l) ∧
    Forall (λ MI, inst_valid MI = true) l ∧
    exec fi_addr (map mi_of l) st = Some st' ∧
    regs st' r = u32 v ∧ (∀ x, x ≠ r → regs st' x = regs st x) ∧
    (∀ x, vregs st' x = vregs st x) ∧ (∀ a, mem st' a = mem st a).
Proof.
  intros Hr.
  assert (Hbits : ∀ n, 0 ≤ n → 0 ≤ Z.land v (Z.ones n) < 2 ^ n)
    by (intros n Hn; rewrite uint_land_ones by exact Hn; apply uint_range, Hn).
  assert (Hhi : in_uint 19 (Z.land (Z.shiftr v 13) 0x7ffff) = true).
  { apply in_uint_spec. change 0x7ffff with (Z.ones 19). rewrite uint_land_ones by lia. apply uint_range. lia. }
  assert (Hlo : in_sint 14 (Z.land v 0x1fff) = true).
  { apply in_sint_spec. change 0x1fff with (Z.ones 13). pose proof (Hbits 13 ltac:(lia)). lia. }
  unfold ProcessInstruction. cbn [Opcode].
  change (getOperand (mkMCInst Nyuzi.LI [kRegister r; kImmediate v]) 1) with (Ret (kImmediate v)).
  change (getOperand (mkMCInst Nyuzi.LI [kRegister r; kImmediate v]) 0) with (Ret (kRegister r)).
  cbn [mbind outcome_bind getImm].
  destruct (isInt 14 v) eqn:E14; [| destruct (Z.eqb_spec (Z.land v 0x1fff) 0) as [Ez | Ez]; cbn [negb]].
  - do 2 eexists. split; [reflexivity |].
    split; [constructor; [| constructor]; apply valid_movesimm;
            [exact Hr | apply in_sint_spec; apply isInt_range in E14; lia] |].
    split; [reflexivity |]. cbn [addReg]. split; [apply set_reg_eq |]. split; [| split; reflexivity].
    intros x Hx. apply set_reg_ne, Hx.
  - do 2 eexists. split; [reflexivity |].
    split; [constructor; [| constructor]; apply valid_movehi; assumption |].
    split; [reflexivity |]. split; [| split; [intros x Hx; apply set_reg_ne, Hx | split; reflexivity]].
    rewrite set_reg_eq, <- (hi_lo_u32 v), Ez, Z.lor_0_r. reflexivity.
  - do 2 eexists. split; [rewrite <- app_assoc; reflexivity |].
    split; [constructor; [apply valid_movehi; assumption | constructor; [apply valid_orssi; assumption | constructor]] |].
    split; [reflexivity |]. split; [rewrite !set_reg_eq; apply hi_lo_u32 |]. split; [| split; reflexivity].
    intros x Hx. rewrite !set_reg_ne by exact Hx. reflexivity.
Qed.

Example li_loads_witness :
  ∃ l st', ProcessInstruction false (mkMCInst Nyuzi.LI [kRegister (Nyuzi.S 1); kImmediate (-559038737)]) []
      = Ret (false, [] ++ l) ∧ length l = 2%nat ∧
    exec (λ _, 0) (map mi_of l) (mkState (λ _, 0) (λ _, []) (λ _, 0)) = Some st' ∧
    regs st' (Nyuzi.S 1) = u32 (-559038737).
Proof.
  destruct (li_loads false (Nyuzi.S 1) (-559038737) [] (λ _, 0) (mkState (λ _, 0) (λ _, []) (λ _, 0))
    ltac:(vm_compute; reflexivity)) as (l & st' & HP & _ & HE & Hr & _).
  exists l, st'. split; [exact HP |]. split; [| split; [exact HE | exact Hr]].
  vm_compute in HP. injection HP as <-. reflexivity.
Defined.

(** C33. [ParseInstruction] terminates: with more fuel than there are tokens the
    operand loop never runs out, whatever the generated dispatch does, as long
    as it does not invent tokens. *)
Theorem ParseInstruction_terminates (D : Z → bool → string) (U : string → bool) (MatchOperandParserImpl : string → P OperandMatchResultTy) (Mnemonic : string) (st : PState) (fuel : nat) :
  consumes (MatchOperandParserImpl Mnemonic) → (length (Toks st) < fuel)%nat →
  ∀ st', ParseInstruction D U MatchOperandParserImpl fuel Mnemonic st ≠ Ret (None, st').
Proof.
  intros Hmo Hf st' H. unfold ParseInstruction in H.
  apply P_bind_Ret_inv in H as (u & st1 & H1 & H). injection H1 as _ <-.
  apply P_bind_Ret_inv in H as (t & st2 & H2 & H). injection H2 as _ <-.
  destruct (bool_decide _); [discriminate |].
  eapply ParseOperands_fuel; [exact Hmo | | exact H]. exact Hf.
Qed.

Example ParseInstruction_terminates_witness :
  ∃ st', ParseInstruction (λ _ _, EmptyString) (λ _, true) (λ _, mret MatchOperand_NoMatch) 4 "add_i"
      (mkPState [Identifier "s1"; Comma; Integer 3] [] []) = Ret (Some false, st') ∧
    ParseInstruction (λ _ _, EmptyString) (λ _, true) (λ _, mret MatchOperand_NoMatch) 4 "add_i"
      (mkPState [Identifier "s1"; Comma; Integer 3] [] []) ≠ Ret (None, st').
Proof.
  eexists. split; [vm_compute; reflexivity |].
  apply ParseInstruction_terminates; [apply consumes_ret | cbn; lia].
Defined.
