(* ===== verification/NyuziPipeline.v ===== *)
(** * NyuziPipeline: from an assembly pseudo instruction to a register

    Properties that cross the components: the address of a symbol goes through
    the assembly parser, the emitter, the fixups and the disassembler. *)
From S2P Require Import Prelude MathExtras NyuziTarget NyuziFormats NyuziEmitter NyuziFixups NyuziLinker.
From S2P Require Import NyuziDisassembler NyuziCodec NyuziMachine NyuziMCInstLower NyuziAsmParser NyuziInstrInfo.

(** ** The two instructions of an address *)

Lemma encodeOperands_reg (MI : MCInst) (rc : Nyuzi.regclass) (fs : list EncodingField) (ops : list OperandInfo)
    (i W n : Z) (r : Nyuzi.reg) (F : Fixups_t) :
  getOperand MI i = Ret (kRegister r) → Nyuzi.getEncodingValue r = Ret n →
  encodeOperands MI (mkOperandInfo (OpReg rc) fs :: ops) i W F = encodeOperands MI ops (i + 1) (insertOperand fs n W) F.
Proof.
  intros H He. cbn [encodeOperands Kind Fields encodeOperand operandSize]. rewrite H, outcome_bind_ret.
  cbn [getMachineOpValue isReg getReg]. rewrite outcome_bind_ret, He. reflexivity.
Qed.

Lemma formatBinaryCode_movehi (r : Nyuzi.reg) :
  Nyuzi.contains Nyuzi.GPR32RegClass r = true → ∃ W, 0 ≤ W < 2 ^ 32 ∧
    (∀ v F, formatBinaryCode (mkMCInst Nyuzi.MOVEHI [kRegister r; kImmediate v]) F
            = Ret (insertOperand F_imm19 (u32 v) W, F)) ∧
    (∀ e F, formatBinaryCode (mkMCInst Nyuzi.MOVEHI [kRegister r; kExpr (NyuziMCExpr Nyuzi.VK_Nyuzi_ABS_HI e)]) F
            = Ret (insertOperand F_imm19 0 W,
                   F ++ [mkMCFixup 0 (NyuziMCExpr Nyuzi.VK_Nyuzi_ABS_HI e) Nyuzi.fixup_Nyuzi_HI19])).
Proof.
  intros Hr. destruct (reg_bits _ _ Hr) as (n & _ & _ & He).
  exists (insertOperand F_dest (Z.of_nat n) (fixedBits (FormatIInst 15 FmtI_EXT))). split.
  { apply insertOperand_range; [repeat constructor; cbn; lia | apply fixedBits_range; repeat constructor; lia]. }
  split; intros; unfold formatBinaryCode; cbn [Opcode InstrFormats OperandList Fixed]; unfold GPR;
    (erewrite encodeOperands_reg; [| reflexivity | exact He]); reflexivity.
Qed.

Lemma formatBinaryCode_orssi (r : Nyuzi.reg) :
  Nyuzi.contains Nyuzi.GPR32RegClass r = true → ∃ W, 0 ≤ W < 2 ^ 32 ∧
    (∀ v F, formatBinaryCode (mkMCInst Nyuzi.ORSSI [kRegister r; kRegister r; kImmediate v]) F
            = Ret (insertOperand F_imm14 (u32 v) W, F)) ∧
    (∀ e F, formatBinaryCode (mkMCInst Nyuzi.ORSSI
                                [kRegister r; kRegister r; kExpr (NyuziMCExpr Nyuzi.VK_Nyuzi_ABS_LO e)]) F
            = Ret (insertOperand F_imm14 0 W,
                   F ++ [mkMCFixup 0 (NyuziMCExpr Nyuzi.VK_Nyuzi_ABS_LO e) Nyuzi.fixup_Nyuzi_IMM_LO13])).
Proof.
  intros Hr. destruct (reg_bits _ _ Hr) as (n & _ & _ & He).
  exists (insertOperand F_src1 (Z.of_nat n) (insertOperand F_dest (Z.of_nat n) (fixedBits (FormatIInst 0 FmtI_S)))).
  split.
  { repeat (apply insertOperand_range; [repeat constructor; cbn; lia |]).
    apply fixedBits_range; repeat constructor; lia. }
  split; intros; unfold formatBinaryCode;
    cbn [Opcode InstrFormats FormatIUnmaskedInst OperandList Fixed]; unfold GPR;
    do 2 (erewrite encodeOperands_reg; [| reflexivity | exact He]);
    reflexivity.
Qed.

(** A fixup on a word standing alone. *)
Lemma applyFixup_single (Kind W Value v : Z) (Info : MCFixupKindInfo) :
  getFixupKindInfo Kind = Ret Info → 0 < TargetSize Info → 0 ≤ TargetOffset Info →
  TargetOffset Info + TargetSize Info ≤ 64 → adjustFixupValue Kind Value = Ret (v, []) → 0 ≤ W < 2 ^ 32 →
  applyFixup Kind 0 (le_bytes 4 W) Value =
    Ret (le_bytes 4 (Z.lor W (Z.land (Z.shiftl v (TargetOffset Info)) (field_mask Info))), []).
Proof.
  intros HI H1 H2 H3 Ha HW.
  etransitivity; [exact (applyFixup_word Kind 0 (le_bytes 4 W) Value v Info [] HI H1 H2 H3 Ha ltac:(cbn; lia)) |].
  assert (Hw0 : word_at (le_bytes 4 W) 0 = W).
  { unfold word_at. rewrite drop_0, take_ge by (cbn; lia). rewrite le_combine_bytes. apply uint_small. lia. }
  rewrite Hw0. reflexivity.
Qed.

Lemma fixup_hi (W A : Z) :
  0 ≤ W < 2 ^ 32 → 0 ≤ A < 2 ^ 32 →
  applyFixup Nyuzi.fixup_Nyuzi_HI19 0 (le_bytes 4 (insertOperand F_imm19 0 W)) A =
    Ret (le_bytes 4 (insertOperand F_imm19 (u32 (Z.shiftr A 13)) W), []).
Proof.
  intros HW HA.
  erewrite (applyFixup_single _ _ _ _ (mkInfo "fixup_Nyuzi_HI19" 0 32 false)); cbn [TargetSize TargetOffset];
    [| reflexivity | lia | lia | lia | reflexivity
     | apply insertOperand_range; [repeat constructor; cbn; lia | exact HW]].
  do 2 f_equal. apply le_bytes_4_mod. unfold field_mask, insertOperand, setfield. cbn [foldl F_imm19 Base Width Offset TargetOffset TargetSize].
  change 31 with (Z.ones 5). change 16383 with (Z.ones 14). bitwise.
Qed.

Lemma fixup_lo (W A : Z) :
  0 ≤ W < 2 ^ 32 → 0 ≤ A < 2 ^ 32 →
  applyFixup Nyuzi.fixup_Nyuzi_IMM_LO13 0 (le_bytes 4 (insertOperand F_imm14 0 W)) A =
    Ret (le_bytes 4 (insertOperand F_imm14 (u32 (uint 13 A)) W), []).
Proof.
  intros HW HA.
  erewrite (applyFixup_single _ _ _ _ (mkInfo "fixup_Nyuzi_IMM_LO13" 10 13 false)); cbn [TargetSize TargetOffset];
    [| reflexivity | lia | lia | lia | reflexivity
     | apply insertOperand_range; [repeat constructor; cbn; lia | exact HW]].
  do 2 f_equal. apply le_bytes_4_mod. unfold field_mask, insertOperand, setfield. cbn [foldl F_imm14 Base Width Offset TargetOffset TargetSize].
  bitwise.
Qed.

(** Reading a word whose opcode the table selects. *)
Lemma getInstruction_word (MI : MCInst) (w Size Address : Z) (selectOpcode : Z → option Nyuzi.opcode) (instr : MCInst) :
  inst_valid MI = true → formatBinaryCode MI [] = Ret (w, []) → selectOpcode w = Some (Opcode MI) →
  getInstruction selectOpcode None instr Size (le_bytes 4 w) Address = Ret (Success, 4, inst_seen MI).
Proof.
  intros HV HE Hsel. destruct (formatBinaryCode_valid MI [] HV) as (f & w' & Hf & HE' & Hw & _ & Hd).
  rewrite HE in HE'. injection HE' as <-.
  unfold getInstruction. rewrite <- (app_nil_r (le_bytes 4 w)), readInstruction32_bytes, outcome_bind_ret.
  rewrite uint_small, decide_False by (exact Hw || discriminate). unfold decodeInstruction.
  rewrite Hsel, Hf, Hd, outcome_bind_ret, decide_False by discriminate. reflexivity.
Qed.

(** The assembler's last pass over the bytes of a fragment ([MCAssembler::layout]):
    every fixup is applied at its offset with the value its expression has. *)
Fixpoint applyFixups (value : MCExpr → Z) (F : Fixups_t) (Contents : list Z) : outcome (list Z * list string) :=
  match F with
  | [] => Ret (Contents, [])
  | Fixup :: F =>
      applyFixup (fixup_kind Fixup) (fixup_offset Fixup) Contents (value (fixup_value Fixup)) ≫= λ '(Contents, errs),
      applyFixups value F Contents ≫= λ '(Contents, errs'), Ret (Contents, errs ++ errs')
  end.

(** An instruction through the emitter and the fixups. *)
Definition assemble (value : MCExpr → Z) (MI : MCInst) : outcome (list Z * list string) :=
  encodeInstruction formatBinaryCode MI [] [] ≫= λ '(Contents, F), applyFixups value F Contents.

Lemma assemble_one (value : MCExpr → Z) (MI : MCInst) (Contents Contents' : list Z) (Fixup : MCFixup) :
  encodeInstruction formatBinaryCode MI [] [] = Ret (Contents, [Fixup]) →
  applyFixup (fixup_kind Fixup) (fixup_offset Fixup) Contents (value (fixup_value Fixup)) = Ret (Contents', []) →
  assemble value MI = Ret (Contents', []).
Proof.
  intros HE HA. unfold assemble. rewrite HE, outcome_bind_ret. cbn [applyFixups]. rewrite HA. reflexivity.
Qed.

(** C29. The address of a symbol: [lea] of a symbol in position-dependent code
    becomes two instructions whose words carry one HI19 and one LO13 fixup; once
    both fixups are applied with an address, the words disassemble to
    instructions that leave exactly this address in the destination register
    and change no other. *)
Theorem lea_sym_address (r : Nyuzi.reg) (e : MCExpr) (A : Z) (value : MCExpr → Z) (fi_addr : Z → Z) (st : mstate) :
  Nyuzi.contains Nyuzi.GPR32RegClass r = true → 0 ≤ A < 2 ^ 32 →
  value (NyuziMCExpr Nyuzi.VK_Nyuzi_ABS_HI e) = A → value (NyuziMCExpr Nyuzi.VK_Nyuzi_ABS_LO e) = A →
  ∃ M1 M2 w1 w2 w1' w2',
    ProcessInstruction false (mkMCInst Nyuzi.LEA_SYM [kRegister r; kExpr e]) [] = Ret (false, [M1; M2]) ∧
    encodeInstruction formatBinaryCode M1 [] []
      = Ret (le_bytes 4 w1, [mkMCFixup 0 (NyuziMCExpr Nyuzi.VK_Nyuzi_ABS_HI e) Nyuzi.fixup_Nyuzi_HI19]) ∧
    encodeInstruction formatBinaryCode M2 [] []
      = Ret (le_bytes 4 w2, [mkMCFixup 0 (NyuziMCExpr Nyuzi.VK_Nyuzi_ABS_LO e) Nyuzi.fixup_Nyuzi_IMM_LO13]) ∧
    assemble value M1 = Ret (le_bytes 4 w1', []) ∧ assemble value M2 = Ret (le_bytes 4 w2', []) ∧
    ∀ selectOpcode instr Size Address,
      selectOpcode w1' = Some Nyuzi.MOVEHI → selectOpcode w2' = Some Nyuzi.ORSSI →
      ∃ D1 D2 st', getInstruction selectOpcode None instr Size (le_bytes 4 w1') Address = Ret (Success, 4, D1) ∧
        getInstruction selectOpcode None instr Size (le_bytes 4 w2') (Address + 4) = Ret (Success, 4, D2) ∧
        exec fi_addr [mi_of D1; mi_of D2] st = Some st' ∧
        regs st' r = A ∧ (∀ x, x ≠ r → regs st' x = regs st x).
Proof.
  intros Hr HA Hvh Hvl. destruct (formatBinaryCode_movehi r Hr) as (W1 & HW1 & HI1 & HE1).
  destruct (formatBinaryCode_orssi r Hr) as (W2 & HW2 & HI2 & HE2).
  assert (Hhi : 0 ≤ Z.shiftr A 13 < 2 ^ 19) by (rewrite Z.shiftr_div_pow2 by lia; Z.to_euclidean_division_equations; lia).
  pose proof (uint_range 13 A ltac:(lia)) as Hlo.
  assert (HV1 : inst_valid (mkMCInst Nyuzi.MOVEHI [kRegister r; kImmediate (Z.shiftr A 13)]) = true)
    by (apply valid_movehi; [exact Hr | apply in_uint_spec; lia]).
  assert (HV2 : inst_valid (mkMCInst Nyuzi.ORSSI [kRegister r; kRegister r; kImmediate (uint 13 A)]) = true)
    by (apply valid_orssi; [exact Hr | apply in_sint_spec; lia]).
  do 2 eexists. exists (insertOperand F_imm19 0 W1), (insertOperand F_imm14 0 W2),
    (insertOperand F_imm19 (u32 (Z.shiftr A 13)) W1), (insertOperand F_imm14 (u32 (uint 13 A)) W2).
  assert (Hrange : ∀ fs v W, Forall field_ok fs → 0 ≤ W < 2 ^ 32 → u32 (insertOperand fs v W) = insertOperand fs v W)
    by (intros; apply uint_small, insertOperand_range; assumption).
  assert (Hf19 : Forall field_ok F_imm19) by (repeat constructor; cbn; lia).
  assert (Hf14 : Forall field_ok F_imm14) by (repeat constructor; cbn; lia).
  pose proof (encodeInstruction_bytes _ _ [] _ _ _ (HE1 e [])) as HB1. rewrite Hrange in HB1 by assumption.
  pose proof (encodeInstruction_bytes _ _ [] _ _ _ (HE2 e [])) as HB2. rewrite Hrange in HB2 by assumption.
  split; [reflexivity |]. split; [exact HB1 |]. split; [exact HB2 |].
  split; [eapply assemble_one; [exact HB1 | cbn [fixup_value]; rewrite Hvh; apply fixup_hi; assumption] |].
  split; [eapply assemble_one; [exact HB2 | cbn [fixup_value]; rewrite Hvl; apply fixup_lo; assumption] |].
  intros sel instr Size Address Hs1 Hs2. do 3 eexists.
  split; [apply (getInstruction_word _ _ _ _ sel instr HV1 (HI1 _ _) Hs1) |].
  split; [apply (getInstruction_word _ _ _ _ sel instr HV2 (HI2 _ _) Hs2) |].
  rewrite !inst_seen_plain by (reflexivity || assumption).
  split; [reflexivity |]. split; [rewrite !set_reg_eq |].
  - rewrite (uint_small 32 (uint 13 A)) by lia. transitivity (u32 A); [bitwise | apply uint_small; exact HA].
  - intros x Hx. rewrite !set_reg_ne by exact Hx. reflexivity.
Qed.

Example lea_sym_address_witness :
  ∃ M1 M2 w1',
    ProcessInstruction false (mkMCInst Nyuzi.LEA_SYM [kRegister (Nyuzi.S 3); kExpr (MCSymbolRefExpr "x")]) []
      = Ret (false, [M1; M2]) ∧
    assemble (λ _, 0x12345678) M1 = Ret (le_bytes 4 w1', []).
Proof.
  destruct (lea_sym_address (Nyuzi.S 3) (MCSymbolRefExpr "x") 0x12345678 (λ _, 0x12345678) (λ _, 0)
    (mkState (λ _, 0) (λ _, []) (λ _, 0)) ltac:(vm_compute; reflexivity) ltac:(lia) eq_refl eq_refl)
    as (M1 & M2 & w1 & w2 & w1' & w2' & HP & _ & _ & HF & _).
  exists M1, M2, w1'. split; [exact HP | exact HF].
Defined.

(** The register class of a physical register. *)
Definition class_of (r : Nyuzi.reg) : option Nyuzi.regclass :=
  if Nyuzi.contains Nyuzi.GPR32RegClass r then Some Nyuzi.GPR32RegClass
  else if Nyuzi.contains Nyuzi.VR512RegClass r then Some Nyuzi.VR512RegClass else None.

(** A register copy can always be emitted: [copyPhysReg] between two physical
    registers inserts one instruction, which [NyuziMCInstLower] lowers to an
    instruction the emitter encodes; only a copy from a vector to a scalar
    register is unreachable.  A scalar copy moves the value and nothing else. *)
Theorem copyPhysReg_emits (c : cursor) (Dest Src : Nyuzi.reg) (Kill : bool) (cd cs : Nyuzi.regclass)
    (mbb : nat → string) (gs es : string → string) (jt cp ba : nat → string) :
  class_of Dest = Some cd → class_of Src = Some cs →
  if decide (cd = Nyuzi.GPR32RegClass ∧ cs = Nyuzi.VR512RegClass) then
    copyPhysReg c Dest Src Kill = Unreachable "unsupported physical reg copy type"
  else ∃ MI OutMI, copyPhysReg c Dest Src Kill = Ret (BuildMI c MI) ∧
    Lower mbb gs es jt cp ba MI = Ret OutMI ∧ inst_valid OutMI = true ∧
    (cd = Nyuzi.GPR32RegClass → ∀ fi_addr st, exec fi_addr [MI] st = Some (set_reg Dest (regs st Src) st)).
Proof.
  unfold class_of, copyPhysReg. intros HD HS.
  destruct (Nyuzi.contains Nyuzi.GPR32RegClass Dest) eqn:D1;
    [injection HD as <- | destruct (Nyuzi.contains Nyuzi.VR512RegClass Dest) eqn:D2; [injection HD as <- | discriminate]];
  (destruct (Nyuzi.contains Nyuzi.GPR32RegClass Src) eqn:S1;
    [injection HS as <- | destruct (Nyuzi.contains Nyuzi.VR512RegClass Src) eqn:S2; [injection HS as <- | discriminate]]).
  2: { rewrite decide_True by auto. reflexivity. }
  all: rewrite decide_False by (intros [? ?]; discriminate).
  all: cbn [andb negb]; rewrite outcome_bind_ret; do 2 eexists; (split; [reflexivity |]); (split; [reflexivity |]).
  all: unfold inst_valid; cbn; change (Z.to_nat 1) with 1%nat; cbn; rewrite ?D1, ?D2, ?S1, ?S2;
    (split; [reflexivity |]); try discriminate; intros _ fi_addr st; reflexivity.
Qed.

(** No symbol is printed in the witness. *)
Definition nosym (_ : nat) : string := "none".

Example copyPhysReg_emits_witness :
  ∃ MI OutMI, copyPhysReg (mkCursor [] []) (Nyuzi.V 3) Nyuzi.FP_REG true = Ret (mkCursor [MI] []) ∧
    Lower nosym (λ s, s) (λ s, s) nosym nosym nosym MI = Ret OutMI ∧
    inst_valid OutMI = true.
Proof.
  destruct (copyPhysReg_emits (mkCursor [] []) (Nyuzi.V 3) Nyuzi.FP_REG true Nyuzi.VR512RegClass Nyuzi.GPR32RegClass
    nosym (λ s, s) (λ s, s) nosym nosym nosym eq_refl eq_refl)
    as (MI & OutMI & H1 & H2 & H3 & _).
  exists MI, OutMI. split; [exact H1 |]. split; [exact H2 | exact H3].
Defined.
