(* ===== verification/NyuziISelDAG.v ===== *)
(** * NyuziISelDAG: selection DAG nodes and what they compute

    The nodes of include/llvm/CodeGen/ISDOpcodes.h and the NyuziISD nodes of
    lib/Target/Nyuzi/NyuziISelLowering.h that custom lowering reads and builds,
    as trees: two uses of one node are two equal trees, so the pointer
    comparisons of the source are decidable equality here.  Chains of loads from
    the entry node and debug locations are left out.

    [eval] gives every lane of every node a value.  A lane the semantics of the
    node leaves undefined (an [UNDEF], a lane above a [SCALAR_TO_VECTOR], a shift
    by 32) is asked of an oracle: the oracle that never answers is the meaning of
    the source program, an oracle that always answers is what some machine
    register happens to hold. *)
From S2P Require Import Prelude NyuziTarget.

Module MVT.
Inductive t : Type := i1 | i8 | i16 | i32 | i64 | f32 | v16i1 | v16i8 | v16i16 | v16i32 | v16f32 | Other.

#[global] Instance t_eq_dec : EqDecision t.
Proof. solve_decision. Defined.

Definition isVector (VT : t) : bool :=
  match VT with v16i1 | v16i8 | v16i16 | v16i32 | v16f32 => true | _ => false end.

Definition isFloatingPoint (VT : t) : bool := match VT with f32 | v16f32 => true | _ => false end.

Definition getVectorElementType (VT : t) : t :=
  match VT with v16i1 => i1 | v16i8 => i8 | v16i16 => i16 | v16i32 => i32 | v16f32 => f32 | _ => VT end.

(** The width of a lane: what a register keeps of a value of the type.  [i1]
    is not legal and is promoted, so it never is the type of a value here. *)
Definition lane_bits (VT : t) : Z :=
  match VT with v16i1 => 1 | i64 => 64 | _ => 32 end.

Definition num_lanes (VT : t) : nat := if isVector VT then 16 else 1.
End MVT.

(** [ISD::CondCode] *)
Inductive CondCode : Type :=
  | SETFALSE | SETOEQ | SETOGT | SETOGE | SETOLT | SETOLE | SETONE | SETO
  | SETUO | SETUEQ | SETUGT | SETUGE | SETULT | SETULE | SETUNE | SETTRUE
  | SETFALSE2 | SETEQ | SETGT | SETGE | SETLT | SETLE | SETNE | SETTRUE2.

#[global] Instance CondCode_eq_dec : EqDecision CondCode.
Proof. solve_decision. Defined.

(** What an address node names.  A constant pool entry is its value. *)
Inductive AddrOf : Type :=
  | GlobalSym (sym : string)
  | ExternalSym (sym : string)
  | JumpTableNo (i : nat)
  | ConstantPoolEntry (lanes : list Z)
  | BlockAddressOf (bb : nat).

#[global] Instance AddrOf_eq_dec : EqDecision AddrOf.
Proof. solve_decision. Defined.

Module ISD.
Inductive NodeType : Type :=
  | UNDEF | Constant (v : Z) | ConstantFP (bits : Z) | CONDCODE (cc : CondCode) | Register (r : Nyuzi.reg)
  | CopyFromReg (r : Nyuzi.reg) | FrameIndex (fi : Z) | TargetFrameIndex (fi : Z) | TargetConstant (v : Z)
  | SRCVALUE
  | GlobalAddress (a : AddrOf) (offset : Z) | ConstantPool (a : AddrOf) (offset : Z) | JumpTable (a : AddrOf)
  | BlockAddress (a : AddrOf) | ExternalSymbol (a : AddrOf)
  | TargetAddress (a : AddrOf) (offset : Z) (flags : Nyuzi.TOF)
  | BUILD_VECTOR | VECTOR_SHUFFLE (mask : list Z) | INSERT_VECTOR_ELT | EXTRACT_VECTOR_ELT | SCALAR_TO_VECTOR
  | SELECT_CC | SELECT | VSELECT | SETCC
  | ADD | AND | OR | XOR | SHL | SRL
  | FDIV | FNEG | FABS | FMUL | FSUB
  | CTLZ | CTTZ | CTLZ_ZERO_UNDEF | CTTZ_ZERO_UNDEF
  | UINT_TO_FP | SINT_TO_FP | FP_TO_UINT | FP_TO_SINT
  | SIGN_EXTEND | ZERO_EXTEND | ANY_EXTEND | TRUNCATE | BITCAST
  | LOAD | SEXTLOAD (MemVT : MVT.t) | STORE | INTRINSIC_WO_CHAIN | FRAMEADDR | RETURNADDR | VASTART
  | BR_CC | BRCOND | SIGN_EXTEND_INREG | CTPOP | ROTL | ROTR | UDIVREM | SDIVREM | UMUL_LOHI | SMUL_LOHI
  | DYNAMIC_STACKALLOC | STACKSAVE | STACKRESTORE | BSWAP | ADDC | ADDE | SUBC | SUBE | SRA_PARTS | SRL_PARTS
  | SHL_PARTS | VAARG | VACOPY | VAEND | ATOMIC_LOAD | ATOMIC_STORE | FCOPYSIGN | FFLOOR | BR_JT | FTRUNC
  | UDIV | UREM | SDIV | SREM | FSQRT | FSIN | FCOS | FREM | FSINCOS | TRAP
  (* NyuziISD *)
  | CALL | RET_FLAG | SPLAT | SEL_COND_RESULT | RECIPROCAL_EST | MASK_TO_INT | MASK_FROM_INT
  | MOVEHI | ORLO | GOT_ADDR
  | FGT | FGE | FLT | FLE | FEQ | FNE.

#[global] Instance NodeType_eq_dec : EqDecision NodeType.
Proof. solve_decision. Defined.
End ISD.

Inductive SDValue : Type :=
  | Node (op : ISD.NodeType) (vt : MVT.t) (ops : list SDValue).

#[global] Instance SDValue_eq_dec : EqDecision SDValue.
Proof.
  refine (fix go x y :=
    match x, y with
    | Node o t l, Node o' t' l' =>
        cast_if_and3 (decide (o = o')) (decide (t = t')) (@list_eq_dec _ go l l')
    end); clear go; abstract congruence.
Defined.

Definition getOpcode (N : SDValue) : ISD.NodeType := let 'Node op _ _ := N in op.
Definition getValueType (N : SDValue) : MVT.t := let 'Node _ vt _ := N in vt.
Definition op_values (N : SDValue) : list SDValue := let 'Node _ _ ops := N in ops.
Definition SDgetOperand (N : SDValue) (i : Z) : outcome SDValue := at_index (op_values N) i.

Lemma getOperand0 (op : ISD.NodeType) (vt : MVT.t) (a : SDValue) (l : list SDValue) :
  SDgetOperand (Node op vt (a :: l)) 0 = Ret a.
Proof. reflexivity. Qed.
Lemma getOperand1 (op : ISD.NodeType) (vt : MVT.t) (a b : SDValue) (l : list SDValue) :
  SDgetOperand (Node op vt (a :: b :: l)) 1 = Ret b.
Proof. reflexivity. Qed.
Lemma getOperand2 (op : ISD.NodeType) (vt : MVT.t) (a b c : SDValue) (l : list SDValue) :
  SDgetOperand (Node op vt (a :: b :: c :: l)) 2 = Ret c.
Proof. reflexivity. Qed.

(** Reads the operands of a node that is given. *)
Ltac operands :=
  cbn [getValueType getOpcode op_values];
  repeat (rewrite ?getOperand0, ?getOperand1, ?getOperand2; cbn [mbind outcome_bind getValueType getOpcode op_values]).

(** [DAG.getNode(op, DL, vt, ops)]; the folding [getNode] does returns a node of
    the same value. *)
Definition getNode (op : ISD.NodeType) (vt : MVT.t) (ops : list SDValue) : SDValue := Node op vt ops.
Definition getConstant (v : Z) (vt : MVT.t) : SDValue := Node (ISD.Constant (uint (MVT.lane_bits vt) v)) vt [].
Definition getBitcast (vt : MVT.t) (N : SDValue) : SDValue :=
  if decide (getValueType N = vt) then N else Node ISD.BITCAST vt [N].

(** [cast<ConstantSDNode>(N)] and the unchecked [dyn_cast]. *)
Definition dyn_cast_Constant (N : SDValue) : option Z :=
  match getOpcode N with ISD.Constant v => Some v | _ => None end.
Definition cast_Constant (N : SDValue) : outcome Z :=
  match dyn_cast_Constant N with
  | Some v => Ret v
  | None => AssertFail "cast<Ty>() argument of incompatible type!"
  end.
Definition dyn_cast_ConstantFP (N : SDValue) : option Z :=
  match getOpcode N with ISD.ConstantFP b => Some b | _ => None end.

(** ** 32-bit floats by their bit patterns *)
Definition float_exp (x : Z) : Z := getfield 23 8 x.
Definition float_mant (x : Z) : Z := getfield 0 23 x.
Definition float_mag (x : Z) : Z := getfield 0 31 x.
Definition float_sign (x : Z) : bool := Z.testbit x 31.
Definition isNaN (x : Z) : bool := (float_exp x =? 255) && negb (float_mant x =? 0).

(** The order of the values of two patterns that are not NaN: sign and
    magnitude, both zeros equal. *)
Definition float_key (x : Z) : Z := if float_sign x then - float_mag x else float_mag x.

Definition float_compare (x y : Z) : option comparison :=
  if isNaN x || isNaN y then None else Some (float_key x ?= float_key y).

Definition float_one : Z := 0x3f800000.
Definition float_two : Z := 0x40000000.
Definition float_minus_one : Z := 0xbf800000.

(** The meaning of a condition code on floats; a don't-care code is defined on
    ordered operands only. *)
Definition float_setcc (cc : CondCode) (x y : Z) : option bool :=
  let ordered f d := match float_compare x y with Some c => Some (f c) | None => d end in
  let lt c := bool_decide (c = Lt) in let gt c := bool_decide (c = Gt) in let eq c := bool_decide (c = Eq) in
  match cc with
  | SETFALSE | SETFALSE2 => Some false
  | SETTRUE | SETTRUE2 => Some true
  | SETOEQ => ordered eq (Some false)
  | SETOGT => ordered gt (Some false)
  | SETOGE => ordered (λ c, negb (lt c)) (Some false)
  | SETOLT => ordered lt (Some false)
  | SETOLE => ordered (λ c, negb (gt c)) (Some false)
  | SETONE => ordered (λ c, negb (eq c)) (Some false)
  | SETO => ordered (λ _, true) (Some false)
  | SETUO => ordered (λ _, false) (Some true)
  | SETUEQ => ordered eq (Some true)
  | SETUGT => ordered gt (Some true)
  | SETUGE => ordered (λ c, negb (lt c)) (Some true)
  | SETULT => ordered lt (Some true)
  | SETULE => ordered (λ c, negb (gt c)) (Some true)
  | SETUNE => ordered (λ c, negb (eq c)) (Some true)
  | SETEQ => ordered eq None
  | SETGT => ordered gt None
  | SETGE => ordered (λ c, negb (lt c)) None
  | SETLT => ordered lt None
  | SETLE => ordered (λ c, negb (gt c)) None
  | SETNE => ordered (λ c, negb (eq c)) None
  end.

(** The meaning of a condition code on integers of [w] bits. *)
Definition int_setcc (w : Z) (cc : CondCode) (x y : Z) : option bool :=
  let sx := sint w x in let sy := sint w y in let ux := uint w x in let uy := uint w y in
  match cc with
  | SETEQ => Some (ux =? uy)
  | SETNE => Some (negb (ux =? uy))
  | SETGT => Some (sy <? sx)
  | SETGE => Some (sy <=? sx)
  | SETLT => Some (sx <? sy)
  | SETLE => Some (sx <=? sy)
  | SETUGT => Some (uy <? ux)
  | SETUGE => Some (uy <=? ux)
  | SETULT => Some (ux <? uy)
  | SETULE => Some (ux <=? uy)
  | _ => None
  end.

Definition setcc (VT : MVT.t) (cc : CondCode) (x y : Z) : option bool :=
  if MVT.isFloatingPoint VT then float_setcc cc x y else int_setcc (MVT.lane_bits VT) cc x y.

(** Leading and trailing zeros of a 32-bit word; 32 for zero. *)
Definition ctlz32 (x : Z) : Z := if x =? 0 then 32 else 31 - Z.log2 x.
Definition cttz32 (x : Z) : Z := if x =? 0 then 32 else Z.log2 (Z.land x (- x)).

(** The conversion of a float to a one bit integer: the value towards zero,
    undefined when it does not fit. *)
Definition float_to_i1 (signed : bool) (x : Z) : option Z :=
  let e := float_exp x in
  if e <? 127 then Some 0
  else if (e =? 127) && Bool.eqb (float_sign x) signed then Some 1
  else None.

(** ** Evaluation *)
Definition lanes : Type := nat → option Z.

(** The code [Intrinsic::nyuzi_shufflei] and [Intrinsic::nyuzi_shufflef] give. *)
Definition nyuzi_shufflei : Z := 1.
Definition nyuzi_shufflef : Z := 2.

(** The registers, the memory, the addresses of symbols and of their slots in
    the global offset table, and the floating point units. *)
Record Env : Type := mkEnv {
  reg_lane : Nyuzi.reg → nat → Z;
  word : Z → Z;
  address : AddrOf → Z;
  got_offset : AddrOf → Z;
  frame_address : Z → Z;
  float_mul : Z → Z → Z;
  float_sub : Z → Z → Z;
  float_div : Z → Z → Z;
  float_recip : Z → Z
}.

Definition oracle : Type := SDValue → nat → option Z.

Definition lift1 (f : Z → option Z) (a : lanes) : lanes := λ i, a i ≫= f.
Definition lift2 (f : Z → Z → option Z) (a b : lanes) : lanes := λ i, a i ≫= λ x, b i ≫= f x.
Definition select (c : option Z) (a b : lanes) : lanes := λ i, c ≫= λ c, if c =? 0 then b i else a i.

Definition mask_of (vt : MVT.t) (b : bool) : Z :=
  if MVT.isVector vt then Z.b2z b else if b then 0xffff else 0.

Definition gather_mask (a : lanes) : option Z :=
  foldr (λ i acc, acc ≫= λ m, a i ≫= λ b, Some (Z.lor (Z.shiftl m 1) (uint 1 b))) (Some 0) (seq 0 16).

Definition condcode_at (ops : list SDValue) (i : nat) : option CondCode :=
  N ← ops !! i; match getOpcode N with ISD.CONDCODE cc => Some cc | _ => None end.

Definition type_at (ops : list SDValue) (i : nat) : MVT.t := from_option getValueType MVT.Other (ops !! i).

Definition shuffle_lane (mask : list Z) (a b : lanes) : lanes := λ i,
  m ← mask !! i;
  if m <? 0 then None
  else if m <? 16 then a (Z.to_nat m)
  else if m <? 32 then b (Z.to_nat (m - 16)) else None.

Definition insert_lane (a b c : lanes) : lanes := λ i,
  idx ← c 0%nat;
  if (0 <=? idx) && (idx <? 16) then if Z.of_nat i =? idx then b 0%nat else a i else None.

Definition extract_lane (a c : lanes) : lanes := λ _,
  idx ← c 0%nat;
  if (0 <=? idx) && (idx <? 16) then a (Z.to_nat idx) else None.

Definition shift (f : Z → Z → Z) : Z → Z → option Z :=
  λ x n, if (0 <=? n) && (n <? 32) then Some (f x n) else None.

Section eval.
Context (E : Env).

(** What the operands of a node make of it, for the nodes custom lowering
    reads or builds; [None] is a lane the semantics leaves undefined. *)
Definition eval_op (op : ISD.NodeType) (vt : MVT.t) (ops : list SDValue) (vs : list lanes) : lanes :=
  let sign_bit := 0x80000000 in
  let compare (f : comparison → bool) (x y : Z) :=
    Some (mask_of vt (from_option f false (float_compare x y))) in
  match op, vs with
  | ISD.Constant v, [] | ISD.ConstantFP v, [] | ISD.TargetConstant v, [] => λ _, Some v
  | ISD.Register r, [] | ISD.CopyFromReg r, _ => λ i, Some (reg_lane E r i)
  | ISD.FrameIndex fi, [] | ISD.TargetFrameIndex fi, [] => λ _, Some (frame_address E fi)
  | ISD.GlobalAddress a off, [] | ISD.ConstantPool a off, [] => λ _, Some (address E a + off)
  | ISD.JumpTable a, [] | ISD.BlockAddress a, [] => λ _, Some (address E a)
  | ISD.TargetAddress a off flags, [] => λ _,
      let v := u32 (address E a + off) in
      match flags with
      | Nyuzi.MO_NO_FLAG => Some v
      | Nyuzi.MO_ABS_HI => Some (Z.shiftr v 13)
      | Nyuzi.MO_ABS_LO => Some (Z.land v 0x1fff)
      | Nyuzi.MO_GOT => Some (got_offset E a)
      end
  | ISD.MOVEHI, [a] => lift1 (λ x, Some (Z.shiftl x 13)) a
  | ISD.ORLO, [a; b] => lift2 (λ x y, Some (Z.lor x y)) a b
  | ISD.GOT_ADDR, [a; b] | ISD.ADD, [a; b] => lift2 (λ x y, Some (x + y)) a b
  | ISD.BUILD_VECTOR, _ => λ i, v ← vs !! i; v 0%nat
  | ISD.VECTOR_SHUFFLE mask, [a; b] => shuffle_lane mask a b
  | ISD.INSERT_VECTOR_ELT, [a; b; c] => insert_lane a b c
  | ISD.EXTRACT_VECTOR_ELT, [a; c] => extract_lane a c
  | ISD.SCALAR_TO_VECTOR, [a] => λ i, if decide (i = 0%nat) then a 0%nat else None
  | ISD.SELECT_CC, [a; b; t; f; _] => λ i,
      cc ← condcode_at ops 4; x ← a 0%nat; y ← b 0%nat;
      c ← setcc (type_at ops 0) cc x y; (if c : bool then t else f) i
  | ISD.SELECT, [c; t; f] | ISD.SEL_COND_RESULT, [c; t; f] => select (c 0%nat) t f
  | ISD.VSELECT, [c; t; f] => λ i, select (c i) t f i
  | ISD.SETCC, [a; b; _] => λ i,
      cc ← condcode_at ops 2; x ← a i; y ← b i;
      c ← setcc (type_at ops 0) cc x y; Some (mask_of vt c)
  | ISD.AND, [a; b] => lift2 (λ x y, Some (Z.land x y)) a b
  | ISD.OR, [a; b] => lift2 (λ x y, Some (Z.lor x y)) a b
  | ISD.XOR, [a; b] => lift2 (λ x y, Some (Z.lxor x y)) a b
  | ISD.SHL, [a; b] => lift2 (shift Z.shiftl) a b
  | ISD.SRL, [a; b] => lift2 (shift Z.shiftr) a b
  | ISD.FDIV, [a; b] => lift2 (λ x y, Some (float_div E x y)) a b
  | ISD.FMUL, [a; b] => lift2 (λ x y, Some (float_mul E x y)) a b
  | ISD.FSUB, [a; b] => lift2 (λ x y, Some (float_sub E x y)) a b
  | ISD.RECIPROCAL_EST, [a] => lift1 (λ x, Some (float_recip E x)) a
  | ISD.FNEG, [a] => lift1 (λ x, Some (if float_sign x then x - sign_bit else x + sign_bit)) a
  | ISD.FABS, [a] => lift1 (λ x, Some (float_mag x)) a
  | ISD.CTLZ, [a] => lift1 (λ x, Some (ctlz32 x)) a
  | ISD.CTTZ, [a] => lift1 (λ x, Some (cttz32 x)) a
  | ISD.CTLZ_ZERO_UNDEF, [a] => lift1 (λ x, if x =? 0 then None else Some (ctlz32 x)) a
  | ISD.CTTZ_ZERO_UNDEF, [a] => lift1 (λ x, if x =? 0 then None else Some (cttz32 x)) a
  | ISD.UINT_TO_FP, [a] => lift1 (λ x,
      if decide (type_at ops 0 = MVT.v16i1) then Some (if x =? 0 then 0 else float_one) else None) a
  | ISD.SINT_TO_FP, [a] => lift1 (λ x,
      if decide (type_at ops 0 = MVT.v16i1) then Some (if x =? 0 then 0 else float_minus_one) else None) a
  | ISD.FP_TO_UINT, [a] => lift1 (λ x, if decide (vt = MVT.v16i1) then float_to_i1 false x else None) a
  | ISD.FP_TO_SINT, [a] => lift1 (λ x, if decide (vt = MVT.v16i1) then float_to_i1 true x else None) a
  | ISD.SIGN_EXTEND, [a] => lift1 (λ x, Some (sint (MVT.lane_bits (type_at ops 0)) x)) a
  | ISD.ZERO_EXTEND, [a] | ISD.TRUNCATE, [a] | ISD.BITCAST, [a] => a
  | ISD.LOAD, [p] => λ i,
      a ← p 0%nat;
      match vt with
      | MVT.v16i1 => Some (Z.shiftr (word E a) (Z.of_nat i))
      | _ => Some (word E (u32 (a + 4 * Z.of_nat i)))
      end
  | ISD.INTRINSIC_WO_CHAIN, [id; src; idx] => λ i,
      n ← id 0%nat;
      if (n =? nyuzi_shufflei) || (n =? nyuzi_shufflef) then l ← idx i; src (Z.to_nat (Z.land l 15)) else None
  | ISD.SPLAT, [a] => λ _, a 0%nat
  | ISD.MASK_FROM_INT, [a] => λ i, x ← a 0%nat; Some (Z.b2z (Z.testbit x (Z.of_nat i)))
  | ISD.MASK_TO_INT, [a] => λ _, gather_mask a
  | ISD.FGT, [a; b] => lift2 (compare (λ c, bool_decide (c = Gt))) a b
  | ISD.FGE, [a; b] => lift2 (compare (λ c, negb (bool_decide (c = Lt)))) a b
  | ISD.FLT, [a; b] => lift2 (compare (λ c, bool_decide (c = Lt))) a b
  | ISD.FLE, [a; b] => lift2 (compare (λ c, negb (bool_decide (c = Gt)))) a b
  | ISD.FEQ, [a; b] => lift2 (compare (λ c, bool_decide (c = Eq))) a b
  | ISD.FNE, [a; b] => lift2 (compare (λ c, negb (bool_decide (c = Eq)))) a b
  | _, _ => λ _, None
  end.

Definition fill (u : oracle) (N : SDValue) (l : lanes) : lanes := λ i,
  uint (MVT.lane_bits (getValueType N)) <$> match l i with Some z => Some z | None => u N i end.

Fixpoint eval (u : oracle) (N : SDValue) : lanes :=
  match N with
  | Node op vt ops => fill u N (eval_op op vt ops (map (eval u) ops))
  end.

(** The meaning of a node of the source program. *)
Definition meaning : SDValue → lanes := eval (λ _ _, None).

(** An oracle that answers on every lane. *)
Definition total (u : oracle) : Prop := ∀ N i, is_Some (u N i).

(** [l] is defined at most where [l'] is, and there they agree. *)
Definition refined (l l' : lanes) : Prop := ∀ i z, l i = Some z → l' i = Some z.

(** [N'] computes every lane [N] defines, whatever the undefined lanes hold. *)
Definition implements (N N' : SDValue) : Prop :=
  ∀ u i z, total u → (i < MVT.num_lanes (getValueType N))%nat → meaning N i = Some z → eval u N' i = Some z.

End eval.

(** ** Lemmas *)
#[export] Instance refined_preorder : PreOrder refined.
Proof. split; [intros l i z; auto | intros a b c H1 H2 i z H; auto]. Qed.

Lemma refined_lift1 (f : Z → option Z) (a a' : lanes) : refined a a' → refined (lift1 f a) (lift1 f a').
Proof.
  intros H i z. unfold lift1. destruct (a i) as [x |] eqn:Ea; [| discriminate].
  rewrite (H i x Ea). auto.
Qed.

Lemma refined_lift2 (f : Z → Z → option Z) (a a' b b' : lanes) :
  refined a a' → refined b b' → refined (lift2 f a b) (lift2 f a' b').
Proof.
  intros Ha Hb i z. unfold lift2. destruct (a i) as [x |] eqn:Ea; [| discriminate].
  destruct (b i) as [y |] eqn:Eb; [| discriminate]. rewrite (Ha i x Ea), (Hb i y Eb). auto.
Qed.

Lemma refined_bind {A : Type} (m m' : option A) (f g : A → option Z) (z : Z) :
  (∀ x, m = Some x → m' = Some x) → (∀ x, m = Some x → f x = Some z → g x = Some z) →
  m ≫= f = Some z → m' ≫= g = Some z.
Proof.
  intros Hm Hf. destruct m as [x |] eqn:E; [| discriminate]. rewrite (Hm x eq_refl). cbn. apply Hf. reflexivity.
Qed.

Lemma gather_mask_refined (a a' : lanes) (z : Z) :
  refined a a' → gather_mask a = Some z → gather_mask a' = Some z.
Proof.
  intros H. unfold gather_mask. revert z. induction (seq 0 16) as [| i l IH]; intros z; [auto |].
  cbn [foldr]. apply refined_bind; [exact IH |]. intros x _. apply refined_bind; [apply H | auto].
Qed.

Lemma SDValue_nested_ind (P : SDValue → Prop) :
  (∀ op vt ops, Forall P ops → P (Node op vt ops)) → ∀ N, P N.
Proof.
  intros H. fix go 1. intros [op vt ops]. apply H. induction ops as [| N ops IH]; constructor; [apply go | exact IH].
Qed.

Lemma lookup_refined (vs vs' : list lanes) (i j : nat) (z : Z) :
  Forall2 refined vs vs' → (vs !! i ≫= λ v, v j) = Some z → (vs' !! i ≫= λ v, v j) = Some z.
Proof.
  intros H. unfold lanes in *. destruct (vs !! i) as [v |] eqn:Ei; [| discriminate].
  destruct (Forall2_lookup_l _ _ _ _ _ H Ei) as (v' & E' & Hv). rewrite E'. apply Hv.
Qed.

Lemma shuffle_lane_refined (mask : list Z) (a a' b b' : lanes) :
  refined a a' → refined b b' → refined (shuffle_lane mask a b) (shuffle_lane mask a' b').
Proof.
  intros Ha Hb i z. unfold shuffle_lane. apply refined_bind; [auto |]. intros m _. cbv beta.
  destruct (m <? 0); [discriminate |]. destruct (m <? 16); [apply Ha |]. destruct (m <? 32); [apply Hb | discriminate].
Qed.

Lemma insert_lane_refined (a a' b b' c c' : lanes) :
  refined a a' → refined b b' → refined c c' → refined (insert_lane a b c) (insert_lane a' b' c').
Proof.
  intros Ha Hb Hc i z. unfold insert_lane. apply refined_bind; [apply Hc |]. intros idx _. cbv beta.
  destruct (_ && _); [| discriminate]. destruct (_ =? _); [apply Hb | apply Ha].
Qed.

Lemma extract_lane_refined (a a' c c' : lanes) :
  refined a a' → refined c c' → refined (extract_lane a c) (extract_lane a' c').
Proof.
  intros Ha Hc i z. unfold extract_lane. apply refined_bind; [apply Hc |]. intros idx _. cbv beta.
  destruct (_ && _); [apply Ha | discriminate].
Qed.

Lemma select_refined (c c' : lanes) (a a' b b' : lanes) (j : nat) :
  refined c c' → refined a a' → refined b b' → refined (select (c j) a b) (select (c' j) a' b').
Proof.
  intros Hc Ha Hb i z. unfold select. apply refined_bind; [apply Hc |]. intros x _. cbv beta.
  destruct (x =? 0); [apply Hb | apply Ha].
Qed.

(** One step of the proof that a lane is defined on better defined operands. *)
Ltac refined_step :=
  match goal with
  | |- refined (lift1 _ _) (lift1 _ _) => apply refined_lift1
  | |- refined (lift2 _ _ _) (lift2 _ _ _) => apply refined_lift2
  | |- refined (shuffle_lane _ _ _) _ => apply shuffle_lane_refined
  | |- refined (insert_lane _ _ _) _ => apply insert_lane_refined
  | |- refined (extract_lane _ _) _ => apply extract_lane_refined
  | |- refined (select (_ 0%nat) _ _) _ => apply select_refined
  | |- select _ _ _ _ = Some _ → _ => apply select_refined
  | |- gather_mask _ = Some _ → _ => apply gather_mask_refined
  | |- refined ?l ?l => reflexivity
  | |- refined _ _ => assumption
  | |- refined _ _ => let i := fresh "i" in let z := fresh "z" in intros i z; cbv beta zeta
  | |- (?vs !! _) ≫= _ = Some _ → _ => apply lookup_refined
  | |- ?a ≫= _ = Some _ → ?b ≫= _ = Some _ => apply refined_bind; [| intros ? _; cbv beta]
  | |- ∀ x, _ = Some x → _ => intros ?
  | |- context [if ?c then _ else _] => destruct c
  | H : refined ?a ?b |- ?a _ = Some _ → ?b _ = Some _ => apply H
  | |- ?x → ?x => exact (λ H, H)
  | |- None = Some _ → _ => discriminate
  end.

(** The number of operands the node has. *)
Ltac refined_arity H :=
  cbn [eval_op]; try solve [repeat refined_step];
  lazymatch type of H with
  | Forall2 _ _ _ => let H' := fresh "Hs" in destruct H as [| ? ? ? ? ? H']; [solve [repeat refined_step] | refined_arity H']
  end.

Lemma eval_op_refined (E : Env) (op : ISD.NodeType) (vt : MVT.t) (ops : list SDValue) (vs vs' : list lanes) :
  Forall2 refined vs vs' → refined (eval_op E op vt ops vs) (eval_op E op vt ops vs').
Proof.
  intros H. destruct op; try reflexivity; try (refined_arity H).
  cbn [eval_op]. intros i z. apply lookup_refined, H.
Qed.

Lemma fill_refined (u : oracle) (N : SDValue) (l l' : lanes) :
  refined l l' → refined (fill (λ _ _, None) N l) (fill u N l').
Proof.
  intros H i z. unfold fill. destruct (l i) as [x |] eqn:El; [| discriminate]. rewrite (H i x El). auto.
Qed.

(** An oracle can only add lanes. *)
Lemma eval_refined (E : Env) (u : oracle) (N : SDValue) : refined (meaning E N) (eval E u N).
Proof.
  induction N as [op vt ops IH] using SDValue_nested_ind. apply fill_refined, eval_op_refined.
  apply Forall2_fmap, Forall_Forall2_diag. exact IH.
Qed.

(** The value of a lane fits its type. *)
Lemma eval_range (E : Env) (u : oracle) (N : SDValue) (i : nat) (z : Z) :
  eval E u N i = Some z → 0 ≤ z < 2 ^ MVT.lane_bits (getValueType N).
Proof.
  destruct N as [op vt ops]. cbn [eval fill]. unfold fill. intros H.
  apply fmap_Some in H as (x & _ & ->). apply uint_range. destruct vt; cbn; lia.
Qed.
