(* ===== verification/NyuziISelVector.v ===== *)
(** * NyuziISelVector: custom lowering of vector nodes

    [isSplatVector], [LowerBUILD_VECTOR], [LowerVECTOR_SHUFFLE],
    [LowerINSERT_VECTOR_ELT], [LowerEXTRACT_VECTOR_ELT], [LowerSCALAR_TO_VECTOR],
    [LowerSIGN_EXTEND], [LowerZERO_EXTEND] and [LowerTRUNCATE] of
    lib/Target/Nyuzi/NyuziISelLowering.cpp.  The result is [None] for the null
    [SDValue], which asks the legalizer to expand the node. *)
From S2P Require Import Prelude.
From S2P Require Import NyuziTarget.
From S2P Require Import NyuziISelDAG.

(** [DAG.getSetCC], [DAG.getNOT], [DAG.getVectorShuffle], [DAG.getConstantPool]
    and [DAG.getLoad] from the entry node. *)
Definition getSetCC (VT : MVT.t) (a b : SDValue) (cc : CondCode) : SDValue :=
  getNode ISD.SETCC VT [a; b; getNode (ISD.CONDCODE cc) MVT.Other []].
Definition getNOT (Val : SDValue) (VT : MVT.t) : SDValue := getNode ISD.XOR VT [Val; getConstant (-1) VT].
Definition getVectorShuffle (VT : MVT.t) (a b : SDValue) (mask : list Z) : SDValue :=
  getNode (ISD.VECTOR_SHUFFLE mask) VT [a; b].
Definition getConstantPool (values : list Z) (VT : MVT.t) : SDValue :=
  getNode (ISD.ConstantPool (ConstantPoolEntry values) 0) VT [].
Definition getLoad (VT : MVT.t) (Ptr : SDValue) : SDValue := getNode ISD.LOAD VT [Ptr].

(** ** BUILD_VECTOR *)
Definition isSplatVector (N : SDValue) : outcome bool :=
  SDgetOperand N 0 ≫= λ SplatValue,
  Ret (forallb (λ Lane, bool_decide (Lane = SplatValue)) (op_values N)).

Definition isUNDEF (N : SDValue) : bool := bool_decide (getOpcode N = ISD.UNDEF).

(** [ISD::isBuildVectorOfConstantSDNodes] *)
Definition isBuildVectorOfConstantSDNodes (N : SDValue) : bool :=
  bool_decide (getOpcode N = ISD.BUILD_VECTOR) &&
  forallb (λ Op, isUNDEF Op || bool_decide (is_Some (dyn_cast_Constant Op))) (op_values N).

Fixpoint constant_bits (ops : list SDValue) (Bits LaneIndex : Z) : outcome Z :=
  match ops with
  | [] => Ret Bits
  | Operand :: ops' =>
      match dyn_cast_Constant Operand with
      | Some C => constant_bits ops' (Z.lor Bits (Z.shiftl (Z.land C 1) LaneIndex)) (LaneIndex + 1)
      | None =>
          cassert (isUNDEF Operand) "Operand.getOpcode() == ISD::UNDEF" ≫= λ _,
          constant_bits ops' Bits (LaneIndex + 1)
      end
  end.

(** The insertions of the lanes [n - 1], ..., [0]. *)
Fixpoint insert_bits (Op : SDValue) (n : nat) (Bitmask : SDValue) : outcome SDValue :=
  match n with
  | O => Ret Bitmask
  | S i =>
      SDgetOperand Op (Z.of_nat i) ≫= λ Elt,
      let LaneBit := getNode ISD.AND MVT.i32 [Elt; getConstant 1 MVT.i32] in
      let Bitmask := getNode ISD.SHL MVT.i32 [Bitmask; getConstant 1 MVT.i32] in
      insert_bits Op i (getNode ISD.OR MVT.i32 [Bitmask; LaneBit])
  end.

Definition LowerBUILD_VECTOR (Op : SDValue) : outcome (option SDValue) :=
  let VT := getValueType Op in
  if negb (bool_decide (VT = MVT.v16i1)) then
    isSplatVector Op ≫= λ splat,
    if splat : bool then
      SDgetOperand Op 0 ≫= λ Op0, Ret (Some (getNode ISD.SPLAT VT [Op0]))
    else Ret None
  else if isBuildVectorOfConstantSDNodes Op then
    constant_bits (op_values Op) 0 0 ≫= λ Bits,
    Ret (Some (getNode ISD.MASK_FROM_INT MVT.v16i1 [getConstant Bits MVT.i32]))
  else
    insert_bits Op 16 (getConstant 0 MVT.i32) ≫= λ Bitmask,
    Ret (Some (getNode ISD.MASK_FROM_INT MVT.v16i1 [Bitmask])).

(** ** VECTOR_SHUFFLE *)
Definition getMask (Op : SDValue) : outcome (list Z) :=
  match getOpcode Op with
  | ISD.VECTOR_SHUFFLE mask => Ret mask
  | _ => AssertFail "cast<Ty>() argument of incompatible type!"
  end.

Record ShuffleInfo : Type := mkShuffleInfo {
  Mask : Z;
  IsIdentityShuffle : bool;
  IsSplat : bool;
  SplatIndex : Z;
  ShuffleIndexValues : list Z
}.

Definition analyzeLane (mask : list Z) (SourceLane : nat) (s : ShuffleInfo) : outcome ShuffleInfo :=
  at_index mask (Z.of_nat SourceLane) ≫= λ elt,
  let DestLaneIndex := if elt <? 0 then 0 else elt in
  let M := Z.shiftr (Mask s) 1 in
  Ret {| Mask := if 15 <? DestLaneIndex then Z.lor M 0x8000 else M;
         IsIdentityShuffle := if negb (Z.land DestLaneIndex 15 =? Z.of_nat SourceLane) then false
                              else IsIdentityShuffle s;
         SplatIndex := if (SourceLane =? 0)%nat then DestLaneIndex else SplatIndex s;
         IsSplat := if (SourceLane =? 0)%nat then IsSplat s
                    else if negb (SplatIndex s =? DestLaneIndex) then false else IsSplat s;
         ShuffleIndexValues := ShuffleIndexValues s ++ [Z.land DestLaneIndex 15] |}.

Definition analyzeShuffle (mask : list Z) : outcome ShuffleInfo :=
  for_loop 0 16 (analyzeLane mask) (mkShuffleInfo 0 true true 0 []).

Definition LowerVECTOR_SHUFFLE (Op : SDValue) : outcome (option SDValue) :=
  let VT := getValueType Op in
  getMask Op ≫= λ mask,
  SDgetOperand Op 0 ≫= λ Op0, SDgetOperand Op 1 ≫= λ Op1,
  if bool_decide (VT = MVT.v16i1) then
    let ExtVec0 := getNode ISD.ZERO_EXTEND MVT.v16i32 [Op0] in
    let ExtVec1 := getNode ISD.ZERO_EXTEND MVT.v16i32 [Op1] in
    let ExtShuffle := getVectorShuffle MVT.v16i32 ExtVec0 ExtVec1 mask in
    Ret (Some (getNode ISD.TRUNCATE MVT.v16i1 [ExtShuffle]))
  else
    analyzeShuffle mask ≫= λ s,
    let Mask := if bool_decide (Op0 = Op1) then 0 else Mask s in
    if bool_decide (getOpcode Op0 = ISD.SCALAR_TO_VECTOR) && (Mask =? 0) then
      SDgetOperand Op0 0 ≫= λ x, Ret (Some (getNode ISD.SPLAT VT [x]))
    else if IsSplat s then
      (if bool_decide (getOpcode Op0 = ISD.INSERT_VECTOR_ELT) then
         SDgetOperand Op0 2 ≫= λ c, cast_Constant c ≫= λ k, Ret (SplatIndex s =? i32 k)
       else Ret false) ≫= λ single,
      if single : bool then SDgetOperand Op0 1 ≫= λ x, Ret (Some (getNode ISD.SPLAT VT [x]))
      else
        let SourceVector := if SplatIndex s <? 16 then Op0 else Op1 in
        let LaneIndexValue := getConstant (Z.rem (SplatIndex s) 16) MVT.i32 in
        let LaneValue := getNode ISD.EXTRACT_VECTOR_ELT MVT.i32 [SourceVector; LaneIndexValue] in
        Ret (Some (getNode ISD.SPLAT VT [LaneValue]))
    else
      let ShuffleVectorCP := getConstantPool (ShuffleIndexValues s) MVT.v16i32 in
      let ShuffleVector := getLoad MVT.v16i32 ShuffleVectorCP in
      let NativeShuffleIntr :=
        getConstant (if MVT.isFloatingPoint VT then nyuzi_shufflef else nyuzi_shufflei) MVT.i32 in
      if (Mask =? 0xffff) || (Mask =? 0) then
        let ShuffleSource := if Mask =? 0 then Op0 else Op1 in
        if IsIdentityShuffle s then Ret (Some ShuffleSource)
        else Ret (Some (getNode ISD.INTRINSIC_WO_CHAIN VT [NativeShuffleIntr; ShuffleSource; ShuffleVector]))
      else if IsIdentityShuffle s then
        let MaskVal := getNode ISD.MASK_FROM_INT MVT.v16i1 [getConstant Mask MVT.i32] in
        Ret (Some (getNode ISD.VSELECT VT [MaskVal; Op1; Op0]))
      else
        let Shuffled0 := getNode ISD.INTRINSIC_WO_CHAIN MVT.v16i32 [NativeShuffleIntr; Op0; ShuffleVector] in
        let Shuffled1 := getNode ISD.INTRINSIC_WO_CHAIN MVT.v16i32 [NativeShuffleIntr; Op1; ShuffleVector] in
        let MaskVal := getNode ISD.MASK_FROM_INT MVT.v16i1 [getConstant Mask MVT.i32] in
        Ret (Some (getNode ISD.VSELECT VT [MaskVal; Shuffled1; Shuffled0])).

(** [isShuffleMaskLegal] *)
Definition isShuffleMaskLegal (Mask : list Z) (VT : MVT.t) : bool :=
  if negb (length Mask =? 16)%nat then false else forallb (λ val, negb (31 <? val)) Mask.

(** ** Elements *)
Definition LowerINSERT_VECTOR_ELT (Op : SDValue) : outcome (option SDValue) :=
  SDgetOperand Op 0 ≫= λ Op0, SDgetOperand Op 1 ≫= λ Op1, SDgetOperand Op 2 ≫= λ LaneIndex,
  let LaneMask := getNode ISD.SHL MVT.i32 [getConstant 1 MVT.i32; LaneIndex] in
  let VT := getValueType Op in
  if bool_decide (VT = MVT.v16i1) then
    let ElemBit := getNode ISD.AND MVT.i32 [Op1; getConstant 1 MVT.i32] in
    let SetBit := getNode ISD.SHL MVT.i32 [ElemBit; LaneIndex] in
    let UnsetBit := getNOT LaneMask MVT.i32 in
    let VecAsInt := getNode ISD.MASK_TO_INT MVT.i32 [Op0] in
    let Result := getNode ISD.OR MVT.i32 [SetBit; getNode ISD.AND MVT.i32 [VecAsInt; UnsetBit]] in
    Ret (Some (getNode ISD.MASK_FROM_INT MVT.v16i1 [Result]))
  else
    let Splat := getNode ISD.SPLAT VT [Op1] in
    let MaskVec := getNode ISD.MASK_FROM_INT MVT.v16i1 [LaneMask] in
    Ret (Some (getNode ISD.VSELECT VT [MaskVec; Splat; Op0])).

Definition LowerEXTRACT_VECTOR_ELT (Op : SDValue) : outcome (option SDValue) :=
  SDgetOperand Op 0 ≫= λ Vector, SDgetOperand Op 1 ≫= λ LaneIndex,
  if negb (bool_decide (getValueType Vector = MVT.v16i1)) then Ret (Some Op)
  else
    let MaskBits := getNode ISD.MASK_TO_INT MVT.i32 [Vector] in
    let Elem := getNode ISD.SRL MVT.i32 [MaskBits; LaneIndex] in
    Ret (Some (getNode ISD.AND MVT.i32 [Elem; getConstant 1 MVT.i32])).

Definition LowerSCALAR_TO_VECTOR (Op : SDValue) : outcome (option SDValue) :=
  let VT := getValueType Op in
  SDgetOperand Op 0 ≫= λ Op0,
  if bool_decide (VT = MVT.v16i1) then Ret (Some (getNode ISD.MASK_FROM_INT MVT.i32 [Op0]))
  else Ret (Some (getNode ISD.SPLAT VT [Op0])).

(** ** Extension and truncation of masks *)
Definition LowerSIGN_EXTEND (Op : SDValue) : outcome (option SDValue) :=
  let FalseVal := getNode ISD.SPLAT MVT.v16i32 [getConstant 0 MVT.i32] in
  let TrueVal := getNode ISD.SPLAT MVT.v16i32 [getConstant 0xffffffff MVT.i32] in
  SDgetOperand Op 0 ≫= λ Mask, Ret (Some (getNode ISD.VSELECT MVT.v16i32 [Mask; TrueVal; FalseVal])).

Definition LowerZERO_EXTEND (Op : SDValue) : outcome (option SDValue) :=
  let FalseVal := getNode ISD.SPLAT MVT.v16i32 [getConstant 0 MVT.i32] in
  let TrueVal := getNode ISD.SPLAT MVT.v16i32 [getConstant 1 MVT.i32] in
  SDgetOperand Op 0 ≫= λ Mask, Ret (Some (getNode ISD.VSELECT MVT.v16i32 [Mask; TrueVal; FalseVal])).

Definition LowerTRUNCATE (Op : SDValue) : outcome (option SDValue) :=
  SDgetOperand Op 0 ≫= λ Op0,
  let OnesVec := getNode ISD.SPLAT MVT.v16i32 [getConstant 1 MVT.i32] in
  let LaneBits := getNode ISD.AND MVT.v16i32 [Op0; OnesVec] in
  Ret (Some (getSetCC MVT.v16i1 LaneBits OnesVec SETEQ)).

(** ** Correctness *)
Section correctness.
Context (E : Env).

(** The lane of a node, and the constants. *)
Lemma eval_Node (u : oracle) (op : ISD.NodeType) (vt : MVT.t) (ops : list SDValue) (i : nat) :
  eval E u (Node op vt ops) i =
    uint (MVT.lane_bits vt) <$>
      match eval_op E op vt ops (map (eval E u) ops) i with
      | Some z => Some z
      | None => u (Node op vt ops) i
      end.
Proof. reflexivity. Qed.

Lemma eval_getConstant (u : oracle) (v : Z) (i : nat) : eval E u (getConstant v MVT.i32) i = Some (u32 v).
Proof. unfold getConstant. rewrite eval_Node. cbn. rewrite uint_uint. reflexivity. Qed.

(** The lane of a node that is defined. *)
Lemma eval_Node_Some (u : oracle) (op : ISD.NodeType) (vt : MVT.t) (ops : list SDValue) (i : nat) (z : Z) :
  eval_op E op vt ops (map (eval E u) ops) i = Some z →
  eval E u (Node op vt ops) i = Some (uint (MVT.lane_bits vt) z).
Proof. intros H. rewrite eval_Node, H. reflexivity. Qed.

(** The lane of a source node comes from its operands. *)
Lemma meaning_Node_inv (op : ISD.NodeType) (vt : MVT.t) (ops : list SDValue) (i : nat) (z : Z) :
  meaning E (Node op vt ops) i = Some z →
  ∃ y, eval_op E op vt ops (map (meaning E) ops) i = Some y ∧ z = uint (MVT.lane_bits vt) y.
Proof.
  unfold meaning. rewrite eval_Node. destruct (eval_op _ _ _ _ _ _) as [y |]; cbn; [| discriminate].
  intros [= <-]. eauto.
Qed.

(** A lane of a node of the target, given the lane its semantics has. *)
Lemma implements_lane (u : oracle) (op op' : ISD.NodeType) (vt vt' : MVT.t) (ops ops' : list SDValue) (i : nat) :
  (∀ y, eval_op E op vt ops (map (meaning E) ops) i = Some y →
        ∃ y', eval_op E op' vt' ops' (map (eval E u) ops') i = Some y' ∧
              uint (MVT.lane_bits vt) y = uint (MVT.lane_bits vt') y') →
  ∀ z, meaning E (Node op vt ops) i = Some z → eval E u (Node op' vt' ops') i = Some z.
Proof.
  intros H z Hz. apply meaning_Node_inv in Hz as (y & Hy & ->).
  destruct (H y Hy) as (y' & Hy' & ->). apply eval_Node_Some. exact Hy'.
Qed.

Lemma uint1_b2z (b : bool) : uint 1 (Z.b2z b) = Z.b2z b.
Proof. destruct b; reflexivity. Qed.

Lemma uint1_testbit (x : Z) : uint 1 x = Z.b2z (Z.testbit x 0).
Proof. unfold uint. rewrite Z.bit0_mod. reflexivity. Qed.

Lemma uint32_uint1 (x : Z) : u32 (uint 1 x) = uint 1 x.
Proof. apply uint_small. pose proof (uint_range 1 x). lia. Qed.

Lemma mask_lane_cases (u : oracle) (N : SDValue) (i : nat) (z : Z) :
  getValueType N = MVT.v16i1 → eval E u N i = Some z → z = 0 ∨ z = 1.
Proof. intros Ht H. apply eval_range in H. rewrite Ht in H. cbn in H. lia. Qed.

Lemma uint_lane (u : oracle) (N : SDValue) (i : nat) (z : Z) :
  eval E u N i = Some z → uint (MVT.lane_bits (getValueType N)) z = z.
Proof. intros H. apply uint_small, (eval_range E u N i), H. Qed.

(** An extension of a mask is a select between two splats. *)
Lemma extend_lane (u : oracle) (x : SDValue) (t f : Z) (i : nat) (m : Z) :
  meaning E x i = Some m →
  eval E u (Node ISD.VSELECT MVT.v16i32 [x; Node ISD.SPLAT MVT.v16i32 [getConstant t MVT.i32];
                                            Node ISD.SPLAT MVT.v16i32 [getConstant f MVT.i32]]) i
  = Some (if m =? 0 then u32 f else u32 t).
Proof.
  intros Hm. rewrite eval_Node. cbn [eval_op map]. unfold select.
  rewrite (eval_refined E u x i m Hm), !eval_Node. cbn [eval_op map]. rewrite !eval_getConstant. cbn.
  destruct (m =? 0); cbn; rewrite !uint_uint; reflexivity.
Qed.

Lemma LowerZERO_EXTEND_implements (x N : SDValue) :
  getValueType x = MVT.v16i1 →
  LowerZERO_EXTEND (Node ISD.ZERO_EXTEND MVT.v16i32 [x]) = Ret (Some N) →
  implements E (Node ISD.ZERO_EXTEND MVT.v16i32 [x]) N.
Proof.
  intros Ht [= <-] u i z Hu Hi Hz. apply meaning_Node_inv in Hz as (m & Hm & ->).
  etransitivity; [apply (extend_lane u x 1 0 i m Hm) |].
  destruct (mask_lane_cases _ x i m Ht Hm) as [-> | ->]; reflexivity.
Qed.

Lemma LowerSIGN_EXTEND_implements (x N : SDValue) :
  getValueType x = MVT.v16i1 →
  LowerSIGN_EXTEND (Node ISD.SIGN_EXTEND MVT.v16i32 [x]) = Ret (Some N) →
  implements E (Node ISD.SIGN_EXTEND MVT.v16i32 [x]) N.
Proof.
  intros Ht [= <-] u i z Hu Hi Hz. apply meaning_Node_inv in Hz as (y & Hy & ->).
  cbn [eval_op map] in Hy. unfold lift1, type_at in Hy. cbn in Hy. rewrite Ht in Hy.
  destruct (meaning E x i) as [m |] eqn:Hm; [| discriminate]. injection Hy as <-.
  etransitivity; [apply (extend_lane u x 0xffffffff 0 i m Hm) |].
  destruct (mask_lane_cases _ x i m Ht Hm) as [-> | ->]; reflexivity.
Qed.

Lemma LowerTRUNCATE_implements (x N : SDValue) :
  getValueType x = MVT.v16i32 →
  LowerTRUNCATE (Node ISD.TRUNCATE MVT.v16i1 [x]) = Ret (Some N) →
  implements E (Node ISD.TRUNCATE MVT.v16i1 [x]) N.
Proof.
  intros Ht [= <-] u i z Hu Hi Hz. apply meaning_Node_inv in Hz as (m & Hm & ->). cbn [eval_op map] in Hm.
  unfold getSetCC, getNode. rewrite eval_Node. cbn [eval_op map]. rewrite !eval_Node. cbn [eval_op map].
  unfold lift2. rewrite (eval_refined E u x i m Hm), !eval_Node. cbn [eval_op map]. rewrite !eval_getConstant.
  cbn -[uint Z.land]. f_equal.
  assert (H : u32 (u32 (Z.land m (u32 (u32 1)))) = Z.b2z (Z.testbit m 0)).
  { change (u32 (u32 1)) with (Z.ones 1). rewrite uint_land_ones, uint1_testbit by lia.
    destruct (Z.testbit m 0); reflexivity. }
  rewrite H, (uint1_testbit m). destruct (Z.testbit m 0); reflexivity.
Qed.

Lemma eval_total (u : oracle) (N : SDValue) (i : nat) : total u → ∃ z, eval E u N i = Some z.
Proof.
  intros Hu. destruct N as [op vt ops]. rewrite eval_Node.
  destruct (eval_op _ _ _ _ _ _); [cbn; eauto |]. destruct (Hu (Node op vt ops) i) as [z ->]. cbn. eauto.
Qed.

Lemma lift1_Some (f : Z → option Z) (a : lanes) (i : nat) (x z : Z) :
  a i = Some x → f x = Some z → lift1 f a i = Some z.
Proof. intros Ha Hf. unfold lift1. rewrite Ha. exact Hf. Qed.

Lemma lift2_Some (f : Z → Z → option Z) (a b : lanes) (i : nat) (x y z : Z) :
  a i = Some x → b i = Some y → f x y = Some z → lift2 f a b i = Some z.
Proof. intros Ha Hb Hf. unfold lift2. rewrite Ha. cbn. rewrite Hb. exact Hf. Qed.

Lemma shift_Some (f : Z → Z → Z) (x n : Z) : 0 ≤ n < 32 → shift f x n = Some (f x n).
Proof.
  intros H. unfold shift. destruct (Z.leb_spec 0 n), (Z.ltb_spec n 32); try lia. reflexivity.
Qed.

Lemma select_Some (c : option Z) (a b : lanes) (i : nat) (m z : Z) :
  c = Some m → (if m =? 0 then b i else a i) = Some z → select c a b i = Some z.
Proof. intros -> H. exact H. Qed.

(** Evaluation of a node the lowering built: the value is an evar. *)
Ltac ev :=
  unfold getSetCC, getNOT, getBitcast, getNode; try eassumption;
  lazymatch goal with
  | |- eval _ _ (getConstant _ _) _ = Some _ => apply eval_getConstant
  | |- eval _ _ (Node _ _ _) _ = Some _ => apply eval_Node_Some; cbn [eval_op map]; ev
  | |- lift1 _ _ _ = Some _ => eapply lift1_Some; [ev | try reflexivity]
  | |- lift2 (shift _) _ _ _ = Some _ => eapply lift2_Some; [ev | ev | apply shift_Some; try first [lia | (vm_compute; intuition discriminate)]]
  | |- lift2 _ _ _ _ = Some _ => eapply lift2_Some; [ev | ev | try reflexivity]
  | _ => idtac
  end.

(** The bit of a 32-bit value. *)
Lemma testbit_u32 (x : Z) (i : nat) : (i < 32)%nat → Z.testbit (u32 x) (Z.of_nat i) = Z.testbit x (Z.of_nat i).
Proof. intros H. rewrite testbit_uint by lia. destruct (Z.ltb_spec (Z.of_nat i) 32); [reflexivity | lia]. Qed.

Lemma eval_MASK_FROM_INT (u : oracle) (x : SDValue) (v y : Z) (i : nat) :
  eval E u x 0%nat = Some v → Z.testbit v (Z.of_nat i) = Z.testbit y 0 →
  eval E u (Node ISD.MASK_FROM_INT MVT.v16i1 [x]) i = Some (uint 1 y).
Proof.
  intros H Hb. rewrite (uint1_testbit y), <- Hb, <- uint1_b2z. apply eval_Node_Some. cbn [eval_op map].
  rewrite H. reflexivity.
Qed.

(** The word of a mask. *)
Lemma gather_mask_bits (l : lanes) :
  (∀ i, is_Some (l i)) →
  ∃ m, gather_mask l = Some m ∧
    ∀ i, (i < 16)%nat → ∃ b, l i = Some b ∧ Z.testbit m (Z.of_nat i) = Z.testbit b 0.
Proof.
  intros Hl.
  assert (H : ∀ n k, ∃ m,
    foldr (λ i acc, acc ≫= λ m, l i ≫= λ b, Some (Z.lor (Z.shiftl m 1) (uint 1 b))) (Some 0) (seq k n) = Some m ∧
    ∀ i, (i < n)%nat → ∃ b, l (k + i)%nat = Some b ∧ Z.testbit m (Z.of_nat i) = Z.testbit b 0).
  { induction n as [| n IH]; intros k; [exists 0; split; [reflexivity | lia] |].
    cbn [seq foldr]. destruct (IH (S k)) as (m & -> & Hm). destruct (Hl k) as [b Hb]. cbn [mbind option_bind]. rewrite Hb. cbn [mbind option_bind].
    eexists. split; [reflexivity |]. intros [| i] Hi.
    - exists b. rewrite Nat.add_0_r. split; [exact Hb |]. bitwise_core.
    - destruct (Hm i ltac:(lia)) as (c & Hc & Hc'). exists c. split; [rewrite <- Hc; f_equal; lia |].
      rewrite <- Hc', Nat2Z.inj_succ. bitwise_core. }
  destruct (H 16%nat 0%nat) as (m & Hm & Hm'). exists m. split; [exact Hm |]. exact Hm'.
Qed.

Lemma eval_MASK_TO_INT (u : oracle) (x : SDValue) :
  total u →
  ∃ m, eval E u (Node ISD.MASK_TO_INT MVT.i32 [x]) 0%nat = Some m ∧
    ∀ i, (i < 16)%nat → ∃ b, eval E u x i = Some b ∧ Z.testbit m (Z.of_nat i) = Z.testbit b 0.
Proof.
  intros Hu. destruct (gather_mask_bits (eval E u x)) as (m & Hm & Hb).
  { intros i. destruct (eval_total u x i Hu) as [z ->]. eauto. }
  exists (u32 m). split.
  - apply eval_Node_Some. exact Hm.
  - intros i Hi. destruct (Hb i Hi) as (b & Hb1 & Hb2). exists b. rewrite testbit_u32 by lia. auto.
Qed.

(** *** Elements of masks and vectors *)
Lemma insert_mask_lane (u : oracle) (a b c : SDValue) (n i : nat) (y : Z) :
  total u → (n < 16)%nat → (i < 16)%nat → meaning E c 0%nat = Some (Z.of_nat n) →
  (if Z.of_nat i =? Z.of_nat n then meaning E b 0%nat else meaning E a i) = Some y →
  ∀ N, LowerINSERT_VECTOR_ELT (Node ISD.INSERT_VECTOR_ELT MVT.v16i1 [a; b; c]) = Ret (Some N) →
  eval E u N i = Some (uint 1 y).
Proof.
  intros Hu Hn Hi Hc Hy N [= <-]. apply (eval_refined E u) in Hc.
  destruct (eval_total u b 0%nat Hu) as [e He].
  destruct (eval_MASK_TO_INT u a Hu) as (m & Hm & Hbits). destruct (Hbits i Hi) as (v & Hv & Hmv).
  eapply eval_MASK_FROM_INT; [ev |]. cbn [MVT.lane_bits].
  change (u32 1) with (Z.ones 1). change (u32 (-1)) with (Z.ones 32).
  assert (Hy' : Z.testbit y 0 = if Z.of_nat i =? Z.of_nat n then Z.testbit e 0 else Z.testbit m (Z.of_nat i)).
  { destruct (Z.of_nat i =? Z.of_nat n); apply (eval_refined E u) in Hy; [congruence |].
    rewrite Hmv. congruence. }
  rewrite Hy'. bitwise_core.
Qed.

(** A lane of [insert_lane] and [extract_lane] has a constant index below 16. *)
Lemma insert_lane_inv (a b c : lanes) (i : nat) (y : Z) :
  insert_lane a b c i = Some y →
  ∃ n, (n < 16)%nat ∧ c 0%nat = Some (Z.of_nat n) ∧ (if Z.of_nat i =? Z.of_nat n then b 0%nat else a i) = Some y.
Proof.
  unfold insert_lane. destruct (c 0%nat) as [k |]; [| discriminate]. cbn [mbind option_bind].
  destruct (Z.leb_spec 0 k), (Z.ltb_spec k 16); try discriminate. cbn [andb]. intros H'.
  exists (Z.to_nat k). rewrite Z2Nat.id by lia. split; [lia | auto].
Qed.

Lemma extract_lane_inv (a c : lanes) (i : nat) (y : Z) :
  extract_lane a c i = Some y →
  ∃ n, (n < 16)%nat ∧ c 0%nat = Some (Z.of_nat n) ∧ a n = Some y.
Proof.
  unfold extract_lane. destruct (c 0%nat) as [k |]; [| discriminate]. cbn [mbind option_bind].
  destruct (Z.leb_spec 0 k), (Z.ltb_spec k 16); try discriminate. cbn [andb]. intros H'.
  exists (Z.to_nat k). rewrite Z2Nat.id by lia. split; [lia | auto].
Qed.

(** The lanes of a vector of 32-bit elements. *)
Definition word_vector (VT : MVT.t) : Prop := VT = MVT.v16i32 ∨ VT = MVT.v16f32.

Lemma insert_vector_lane (u : oracle) (VT : MVT.t) (a b c : SDValue) (n i : nat) (y : Z) :
  word_vector VT → (n < 16)%nat → (i < 16)%nat → meaning E c 0%nat = Some (Z.of_nat n) →
  (if Z.of_nat i =? Z.of_nat n then meaning E b 0%nat else meaning E a i) = Some y →
  ∀ N, LowerINSERT_VECTOR_ELT (Node ISD.INSERT_VECTOR_ELT VT [a; b; c]) = Ret (Some N) →
  eval E u N i = Some (u32 y).
Proof.
  intros HVT Hn Hi Hc Hy N. apply (eval_refined E u) in Hc. unfold LowerINSERT_VECTOR_ELT. cbn [getValueType].
  rewrite bool_decide_eq_false_2 by (destruct HVT; congruence). intros [= <-].
  assert (Hm : eval E u (getNode ISD.MASK_FROM_INT MVT.v16i1
                           [getNode ISD.SHL MVT.i32 [getConstant 1 MVT.i32; c]]) i
               = Some (uint 1 (Z.b2z (Z.of_nat i =? Z.of_nat n)))).
  { eapply eval_MASK_FROM_INT; [ev |]. cbn [MVT.lane_bits]. change (u32 1) with (Z.ones 1).
    rewrite <- (uint1_b2z (Z.of_nat i =? Z.of_nat n)). destruct (Z.eqb_spec (Z.of_nat i) (Z.of_nat n)) as [-> | Hne];
      cbn [Z.b2z]; bitwise_core. }
  replace (u32 y) with (uint (MVT.lane_bits VT) y) by (destruct HVT as [-> | ->]; reflexivity).
  assert (Hs : eval E u (getNode ISD.SPLAT VT [b]) i = eval E u (Node ISD.SPLAT VT [b]) i) by reflexivity.
  destruct (Z.of_nat i =? Z.of_nat n); apply (eval_refined E u) in Hy.
  - rewrite <- (uint_uint _ y). apply eval_Node_Some. cbn [eval_op map]. eapply select_Some; [exact Hm |].
    apply eval_Node_Some. exact Hy.
  - apply eval_Node_Some. cbn [eval_op map]. eapply select_Some; [exact Hm | exact Hy].
Qed.

(** [INSERT_VECTOR_ELT], on every type and every index. *)
Lemma INSERT_VECTOR_ELT_implements (VT : MVT.t) (a b c N : SDValue) :
  VT = MVT.v16i1 ∨ word_vector VT →
  LowerINSERT_VECTOR_ELT (Node ISD.INSERT_VECTOR_ELT VT [a; b; c]) = Ret (Some N) →
  implements E (Node ISD.INSERT_VECTOR_ELT VT [a; b; c]) N.
Proof.
  intros HVT HN u i z Hu Hi Hz. apply meaning_Node_inv in Hz as (y & Hy & ->).
  apply insert_lane_inv in Hy as (n & Hn & Hc & Hy).
  destruct HVT as [-> | HVT]; [eapply (insert_mask_lane u a b c n); eassumption |].
  assert (Hi' : (i < 16)%nat) by (destruct HVT as [-> | ->]; exact Hi).
  rewrite (insert_vector_lane u VT a b c n i y) by assumption. destruct HVT as [-> | ->]; reflexivity.
Qed.

Lemma EXTRACT_VECTOR_ELT_implements (a c N : SDValue) :
  LowerEXTRACT_VECTOR_ELT (Node ISD.EXTRACT_VECTOR_ELT MVT.i32 [a; c]) = Ret (Some N) →
  implements E (Node ISD.EXTRACT_VECTOR_ELT MVT.i32 [a; c]) N.
Proof.
  unfold LowerEXTRACT_VECTOR_ELT. operands.
  destruct (bool_decide_reflect (getValueType a = MVT.v16i1)) as [Ha | _]; cbn [negb].
  2: { intros [= <-] u i z Hu _. apply eval_refined. }
  intros [= <-] u i z Hu Hi Hz. apply meaning_Node_inv in Hz as (y & Hy & ->).
  apply (extract_lane_inv _ _ i) in Hy as (n & Hn & Hc & Hy). assert (i = 0%nat) as -> by (cbn in Hi; lia).
  apply (eval_refined E u) in Hc, Hy.
  destruct (eval_MASK_TO_INT u a Hu) as (m & Hm & Hbits). destruct (Hbits n Hn) as (v & Hv & Hmv).
  rewrite Hv in Hy. injection Hy as <-.
  assert (Hv1 : v = uint 1 (Z.shiftr m (Z.of_nat n))).
  { transitivity (uint 1 v); [destruct (mask_lane_cases u a n v Ha Hv) as [-> | ->]; reflexivity |].
    rewrite !uint1_testbit, <- Hmv. f_equal. rewrite Z.shiftr_spec by lia. f_equal. }
  rewrite Hv1. refine (eq_trans (_ : _ = Some _) _); [ev |].
  f_equal. cbn [MVT.lane_bits]. change (u32 1) with (Z.ones 1).
  rewrite uint_land_ones, (uint_uint_le 1 32) by lia. reflexivity.
Qed.

Lemma SCALAR_TO_VECTOR_implements (VT : MVT.t) (a N : SDValue) :
  VT = MVT.v16i1 ∨ word_vector VT →
  LowerSCALAR_TO_VECTOR (Node ISD.SCALAR_TO_VECTOR VT [a]) = Ret (Some N) →
  implements E (Node ISD.SCALAR_TO_VECTOR VT [a]) N.
Proof.
  unfold LowerSCALAR_TO_VECTOR. operands.
  intros HVT HN u i z Hu Hi Hz. apply meaning_Node_inv in Hz as (y & Hy & ->). cbn [eval_op map] in Hy.
  destruct (decide (i = 0%nat)) as [-> |]; [| discriminate]. apply (eval_refined E u) in Hy.
  destruct (bool_decide_reflect (VT = MVT.v16i1)) as [-> | Hne].
  - injection HN as <-. cbn [MVT.lane_bits]. rewrite uint1_testbit, <- uint1_b2z, <- uint32_uint1.
    etransitivity; [apply eval_Node_Some; cbn [eval_op map]; rewrite Hy; reflexivity |].
    rewrite uint1_b2z. reflexivity.
  - injection HN as <-. apply eval_Node_Some. exact Hy.
Qed.

(** *** BUILD_VECTOR *)
Definition constant_bit (N : SDValue) : bool :=
  match dyn_cast_Constant N with Some c => Z.testbit c 0 | None => false end.

Lemma constant_bits_spec (ops : list SDValue) (Bits B : Z) (k i : nat) :
  (∀ j, Z.of_nat k ≤ j → Z.testbit Bits j = false) →
  constant_bits ops Bits (Z.of_nat k) = Ret B →
  Z.testbit B (Z.of_nat i) =
    if (i <? k)%nat then Z.testbit Bits (Z.of_nat i)
    else from_option constant_bit false (ops !! (i - k)%nat).
Proof.
  revert Bits k. induction ops as [| N ops IH]; intros Bits k Hk; cbn [constant_bits].
  - intros [= <-]. destruct (Nat.ltb_spec i k); [reflexivity |]. cbn. apply Hk. lia.
  - replace (Z.of_nat k + 1) with (Z.of_nat (S k)) by lia. unfold constant_bit in *.
    destruct (dyn_cast_Constant N) as [c |] eqn:EN.
    + intros H. apply IH in H as ->.
      2: { intros j Hj. rewrite Z.lor_spec, Hk by lia. change 1 with (Z.ones 1). bitwise_core. }
      destruct (Nat.ltb_spec i (S k)), (Nat.ltb_spec i k); try lia.
      * change 1 with (Z.ones 1). bitwise_core.
      * replace (i - k)%nat with 0%nat by lia. cbn -[Z.testbit]. rewrite EN, Z.lor_spec, Hk by lia.
        replace (Z.of_nat i) with (Z.of_nat k) by lia. change 1 with (Z.ones 1). bitwise_core.
      * replace (i - k)%nat with (S (i - S k)) by lia. reflexivity.
    + intros H. apply outcome_bind_Ret_inv in H as (? & _ & H). apply IH in H as ->; [| intros j Hj; apply Hk; lia].
      destruct (Nat.ltb_spec i (S k)), (Nat.ltb_spec i k); try lia.
      * reflexivity.
      * replace (i - k)%nat with 0%nat by lia. cbn -[Z.testbit]. rewrite EN. apply Hk. lia.
      * replace (i - k)%nat with (S (i - S k)) by lia. reflexivity.
Qed.

Lemma insert_bits_spec (u : oracle) (op : ISD.NodeType) (vt : MVT.t) (ops : list SDValue) (n : nat) (B : SDValue) (b : Z) :
  total u → (n ≤ length ops)%nat → eval E u B 0%nat = Some b →
  ∃ R r, insert_bits (Node op vt ops) n B = Ret R ∧ eval E u R 0%nat = Some r ∧
    (∀ j N e, (j < n < 32)%nat → ops !! j = Some N → eval E u N 0%nat = Some e →
       Z.testbit r (Z.of_nat j) = Z.testbit e 0) ∧
    (∀ j, (n ≤ j < 32)%nat → Z.testbit r (Z.of_nat j) = Z.testbit b (Z.of_nat (j - n))).
Proof.
  intros Hu. revert B b. induction n as [| n IH]; intros B b Hn HB.
  - exists B, b. repeat split; [exact HB | lia |]. intros j _. rewrite Nat.sub_0_r. reflexivity.
  - destruct (lookup_lt_is_Some_2 ops n ltac:(lia)) as [M HM]. destruct (eval_total u M 0%nat Hu) as [e He].
    cbn [insert_bits]. unfold SDgetOperand. cbn [op_values]. rewrite (at_index_lookup ops n M HM).
    cbn [mbind outcome_bind].
    match goal with |- context [insert_bits _ n ?B'] =>
      destruct (IH B' (u32 (Z.lor (u32 (Z.shiftl b 1)) (u32 (Z.land e 1)))) ltac:(lia) ltac:(ev))
        as (R & r & HR & Hr & Hlo & Hhi) end.
    exists R, r. split; [exact HR |]. split; [exact Hr |].
    assert (Hbit : ∀ j, (n ≤ j < 32)%nat → Z.testbit r (Z.of_nat j) =
      if (j =? n)%nat then Z.testbit e 0 else Z.testbit b (Z.of_nat (j - S n))).
    { intros j Hj. rewrite Hhi by lia. change 1 with (Z.ones 1) at 2.
      destruct (Nat.eqb_spec j n) as [-> |]; [rewrite Nat.sub_diag; bitwise_core |].
      replace (Z.of_nat (j - n)) with (Z.of_nat (j - S n) + 1) by lia. bitwise_core. }
    split.
    + intros j N e' Hj HN He'. destruct (decide (j = n)) as [-> |].
      * rewrite Hbit, Nat.eqb_refl by lia. congruence.
      * apply (Hlo j N); [lia | assumption | assumption].
    + intros j Hj. rewrite Hbit by lia. destruct (Nat.eqb_spec j n); [lia | reflexivity].
Qed.

Lemma constant_bit_meaning (M : SDValue) (i : nat) (y : Z) :
  isUNDEF M || bool_decide (is_Some (dyn_cast_Constant M)) = true →
  meaning E M i = Some y → constant_bit M = Z.testbit y 0.
Proof.
  destruct M as [op vt ops]. unfold isUNDEF, constant_bit, dyn_cast_Constant. cbn [getOpcode].
  intros H Hy. apply meaning_Node_inv in Hy as (c & Hc & ->).
  apply orb_true_iff in H as [H | H]; apply bool_decide_eq_true in H.
  - subst op. discriminate Hc.
  - destruct op; try (destruct H; discriminate). destruct ops; [| discriminate Hc]. injection Hc as <-.
    destruct vt; cbn [MVT.lane_bits]; rewrite testbit_uint by lia; reflexivity.
Qed.

Lemma BUILD_VECTOR_implements (VT : MVT.t) (ops : list SDValue) (N : SDValue) :
  VT = MVT.v16i1 ∨ word_vector VT → length ops = 16%nat →
  LowerBUILD_VECTOR (Node ISD.BUILD_VECTOR VT ops) = Ret (Some N) →
  implements E (Node ISD.BUILD_VECTOR VT ops) N.
Proof.
  intros HVT Hlen HN u i z Hu Hi Hz. apply meaning_Node_inv in Hz as (y & Hy & ->). cbn [eval_op] in Hy.
  apply bind_Some in Hy as (l & Hl & Hy). apply list_lookup_fmap_Some in Hl as (M & -> & HM).
  pose proof Hy as Hy0. apply (eval_refined E u) in Hy. unfold LowerBUILD_VECTOR in HN. cbn [getValueType] in HN.
  destruct (bool_decide_reflect (VT = MVT.v16i1)) as [-> | Hne]; cbn [negb] in HN.
  - destruct (isBuildVectorOfConstantSDNodes _) eqn:Hc.
    + apply outcome_bind_Ret_inv in HN as (Bits & HB & [= <-]).
      apply (constant_bits_spec ops 0 Bits 0 i) in HB; [| intros; apply Z.testbit_0_l].
      rewrite Nat.sub_0_r, HM in HB. cbn [Nat.ltb Nat.leb from_option] in HB.
      eapply eval_MASK_FROM_INT; [ev |]. rewrite testbit_u32 by (cbn in Hi; lia). rewrite HB.
      apply andb_true_iff in Hc as [_ Hc]. apply (constant_bit_meaning M 0 y); [| exact Hy0].
      apply (forallb_lookup _ ops i M Hc HM).
    + destruct (insert_bits_spec u ISD.BUILD_VECTOR MVT.v16i1 ops 16 (getConstant 0 MVT.i32) 0 Hu ltac:(lia)
                  ltac:(apply eval_getConstant)) as (R & r & HR & Hr & Hlo & _).
      rewrite HR in HN. injection HN as <-. eapply eval_MASK_FROM_INT; [exact Hr |].
      apply (Hlo i M y); [cbn in Hi; lia | assumption | assumption].
  - apply outcome_bind_Ret_inv in HN as (b & Hb & HN). destruct b; [| discriminate].
    apply outcome_bind_Ret_inv in HN as (x & Hx & [= <-]). apply eval_Node_Some. cbn [eval_op map].
    apply outcome_bind_Ret_inv in Hb as (x' & Hx' & [= Hall]). rewrite Hx in Hx'. injection Hx' as <-.
    apply (forallb_lookup _ ops i M Hall), bool_decide_eq_true in HM. subst M. exact Hy.
Qed.

Lemma constant_bits_returns (l : list SDValue) (Bits k : Z) :
  forallb (λ Op, isUNDEF Op || bool_decide (is_Some (dyn_cast_Constant Op))) l = true →
  ∃ B, constant_bits l Bits k = Ret B.
Proof.
  revert Bits k. induction l as [| N l IH]; intros Bits k; cbn [forallb constant_bits]; [eauto |].
  intros H. apply andb_true_iff in H as [HN H]. unfold bool_decide in HN.
  destruct (dyn_cast_Constant N) as [c |] eqn:EN; [apply IH; exact H |].
  rewrite orb_false_r in HN. rewrite HN. apply IH. exact H.
Qed.

Lemma BUILD_VECTOR_returns (VT : MVT.t) (ops : list SDValue) :
  length ops = 16%nat →
  ∃ r, LowerBUILD_VECTOR (Node ISD.BUILD_VECTOR VT ops) = Ret r ∧
    (r = None → VT ≠ MVT.v16i1 ∧ ∃ x y, x ∈ ops ∧ y ∈ ops ∧ x ≠ y).
Proof.
  intros Hlen. unfold LowerBUILD_VECTOR. cbn [getValueType].
  destruct (bool_decide_reflect (VT = MVT.v16i1)) as [-> | Hne]; cbn [negb].
  - destruct (isBuildVectorOfConstantSDNodes _) eqn:Hc.
    + apply andb_true_iff in Hc as [_ Hc]. destruct (constant_bits_returns ops 0 0 Hc) as [B HB].
      cbn [op_values]. rewrite HB. eexists. split; [reflexivity | discriminate].
    + destruct (insert_bits_spec (λ _ _, Some 0) ISD.BUILD_VECTOR MVT.v16i1 ops 16 (getConstant 0 MVT.i32) 0
                  ltac:(intros ? ?; eauto) ltac:(lia) ltac:(apply eval_getConstant)) as (R & r & HR & _).
      rewrite HR. eexists. split; [reflexivity | discriminate].
  - destruct ops as [| x ops]; [discriminate |]. unfold isSplatVector. operands.
    destruct (forallb _ _) eqn:Hs; operands; eexists; (split; [reflexivity |]); [discriminate |].
    intros _. split; [exact Hne |]. exists x.
    destruct (existsb (λ y, negb (bool_decide (y = x))) (x :: ops)) eqn:He.
    + apply existsb_exists in He as (y & Hy & Hyx). exists y. apply negb_true_iff, bool_decide_eq_false in Hyx.
      split; [left |]. split; [apply list_elem_of_In; exact Hy | congruence].
    + exfalso. clear -Hs He. revert Hs He. induction (x :: ops) as [| y l IH]; cbn; [discriminate |].
      destruct (bool_decide (y = x)); cbn; [exact IH | discriminate].
Qed.

(** *** VECTOR_SHUFFLE *)

(** The lane a mask element selects, 0 for an undefined one. *)
Definition dest_lane (m : Z) : Z := if m <? 0 then 0 else m.

(** What the analysis has found out about the first [k] lanes. *)
Record shuffle_facts (mask : list Z) (k : nat) (s : ShuffleInfo) : Prop := {
  sf_bits : ∀ j, 0 ≤ j → Z.testbit (Mask s) j =
    (16 - Z.of_nat k <=? j) && (j <? 16) &&
    from_option (λ m, 15 <? dest_lane m) false (mask !! Z.to_nat (j - (16 - Z.of_nat k)));
  sf_identity : IsIdentityShuffle s = true → ∀ i m, (i < k)%nat → mask !! i = Some m →
    Z.land (dest_lane m) 15 = Z.of_nat i;
  sf_splat : IsSplat s = true → ∀ i m, (i < k)%nat → mask !! i = Some m → dest_lane m = SplatIndex s;
  sf_indices : ShuffleIndexValues s = map (λ m, Z.land (dest_lane m) 15) (take k mask)
}.

Lemma analyzeLane_facts (mask : list Z) (k : nat) (s : ShuffleInfo) :
  length mask = 16%nat → (k < 16)%nat → shuffle_facts mask k s →
  ∃ s', analyzeLane mask k s = Ret s' ∧ shuffle_facts mask (S k) s'.
Proof.
  intros Hlen Hk [Hbits Hid Hsp Hix].
  destruct (lookup_lt_is_Some_2 mask k ltac:(lia)) as [m Hm].
  unfold analyzeLane. rewrite (at_index_lookup mask k m Hm). cbn [mbind outcome_bind].
  fold (dest_lane m). eexists. split; [reflexivity |]. split; cbn [Mask IsIdentityShuffle IsSplat SplatIndex ShuffleIndexValues].
  - intros j Hj. 
    assert (Hs : Z.testbit (Z.shiftr (Mask s) 1) j =
      (16 - Z.of_nat (S k) <=? j) && (j <? 15) &&
      from_option (λ m, 15 <? dest_lane m) false (mask !! Z.to_nat (j - (16 - Z.of_nat (S k))))).
    { rewrite Z.shiftr_spec, Hbits by lia. f_equal; [f_equal |]; [| | f_equal; f_equal; lia];
        repeat bitwise_step; reflexivity. }
    assert (Hb : Z.testbit (if 15 <? dest_lane m then Z.lor (Z.shiftr (Mask s) 1) 0x8000 else Z.shiftr (Mask s) 1) j
                 = Z.testbit (Z.shiftr (Mask s) 1) j || (j =? 15) && (15 <? dest_lane m)).
    { destruct (15 <? dest_lane m); [| rewrite andb_false_r, orb_false_r; reflexivity].
      change 0x8000 with (2 ^ 15). rewrite Z.lor_spec, Z.pow2_bits_eqb, andb_true_r, (Z.eqb_sym 15 j) by lia.
      reflexivity. }
    rewrite Hb, Hs. destruct (Z.eqb_spec j 15) as [-> |].
    + replace (Z.to_nat (15 - (16 - Z.of_nat (S k)))) with k by lia. rewrite Hm. cbn [from_option].
      repeat bitwise_step; reflexivity.
    + rewrite andb_false_l, orb_false_r. f_equal. repeat bitwise_step; reflexivity.
  - intros H i m' Hi Hm'. destruct (Z.eqb_spec (Z.land (dest_lane m) 15) (Z.of_nat k)) as [E1 |]; [| discriminate].
    destruct (decide (i = k)) as [-> |]; [congruence |]. apply Hid; [exact H | lia | exact Hm'].
  - intros H i m' Hi Hm'. destruct (Nat.eqb_spec k 0) as [-> |].
    + assert (i = 0%nat) as -> by lia. congruence.
    + destruct (Z.eqb_spec (SplatIndex s) (dest_lane m)) as [E1 |]; [| discriminate].
      destruct (decide (i = k)) as [-> |]; [congruence |]. apply (Hsp H i); [lia | exact Hm'].
  - rewrite Hix, (take_S_r _ _ _ Hm), map_app. reflexivity.
Qed.

Lemma analyzeShuffle_facts (mask : list Z) :
  length mask = 16%nat → ∃ s, analyzeShuffle mask = Ret s ∧ shuffle_facts mask 16 s.
Proof.
  intros Hlen. apply (for_loop_total (shuffle_facts mask)).
  - split; cbn; [| lia | lia | reflexivity].
    intros j Hj. rewrite Z.testbit_0_l. repeat bitwise_step; reflexivity.
  - intros k x Hk Hx. apply analyzeLane_facts; [exact Hlen | lia | exact Hx].
Qed.

(** The lane a shuffle selects. *)
Lemma shuffle_lane_Some (mask : list Z) (a b : lanes) (i : nat) (m : Z) :
  mask !! i = Some m → 0 ≤ m < 32 →
  shuffle_lane mask a b i = (if 15 <? m then b else a) (Z.to_nat (Z.land m 15)).
Proof.
  intros Hm Hr. unfold shuffle_lane. rewrite Hm. cbn [mbind option_bind].
  change (Z.land m 15) with (Z.land m (Z.ones 4)). rewrite uint_land_ones by lia. unfold uint.
  destruct (Z.ltb_spec m 0), (Z.ltb_spec m 16), (Z.ltb_spec m 32), (Z.ltb_spec 15 m); try lia.
  - rewrite Z.mod_small by lia. reflexivity.
  - f_equal. f_equal. rewrite <- (Z.mod_small (m - 16) (2 ^ 4)) by lia.
    rewrite <- (Z.mod_add (m - 16) 1) by lia. f_equal. lia.
Qed.

Lemma shuffle_lane_inv (mask : list Z) (a b : lanes) (i : nat) (y : Z) :
  shuffle_lane mask a b i = Some y →
  ∃ m, mask !! i = Some m ∧ 0 ≤ m < 32 ∧ dest_lane m = m ∧
    (if 15 <? m then b else a) (Z.to_nat (Z.land m 15)) = Some y.
Proof.
  intros H. destruct (mask !! i) as [m |] eqn:Hm; [| unfold shuffle_lane in H; rewrite Hm in H; discriminate].
  assert (Hr : 0 ≤ m < 32).
  { unfold shuffle_lane in H. rewrite Hm in H. cbn [mbind option_bind] in H.
    destruct (Z.ltb_spec m 0), (Z.ltb_spec m 16), (Z.ltb_spec m 32); try discriminate; lia. }
  rewrite (shuffle_lane_Some mask a b i m Hm Hr) in H. exists m. unfold dest_lane.
  destruct (Z.ltb_spec m 0); [lia | auto].
Qed.

(** The shuffle instruction, given the lane numbers it reads. *)
Lemma eval_shuffle_intrinsic (u : oracle) (VT : MVT.t) (id : Z) (src idx : SDValue) (i : nat) (l y : Z) :
  id = nyuzi_shufflei ∨ id = nyuzi_shufflef → MVT.lane_bits VT = 32 →
  eval E u idx i = Some l → eval E u src (Z.to_nat (Z.land l 15)) = Some y →
  eval E u (Node ISD.INTRINSIC_WO_CHAIN VT [getConstant id MVT.i32; src; idx]) i = Some (u32 y).
Proof.
  intros Hid HVT Hl Hy. rewrite <- HVT. apply eval_Node_Some. cbn [eval_op map]. rewrite eval_getConstant, Hl.
  destruct Hid as [-> | ->]; exact Hy.
Qed.

(** The constant pool holds the lane numbers of the shuffle. *)
Definition placed (values : list Z) : Prop :=
  ∀ i v, values !! i = Some v → word E (u32 (address E (ConstantPoolEntry values) + 4 * Z.of_nat i)) = v.

Lemma eval_pool_load (u : oracle) (values : list Z) (i : nat) (v : Z) :
  placed values → values !! i = Some v → 0 ≤ v < 2 ^ 32 →
  eval E u (getLoad MVT.v16i32 (getConstantPool values MVT.v16i32)) i = Some v.
Proof.
  intros Hp Hv Hr. transitivity (Some (u32 v)); [| rewrite uint_small by lia; reflexivity].
  apply eval_Node_Some. cbn [eval_op map].
  replace (eval E u (getConstantPool values MVT.v16i32) 0%nat) with (Some (u32 (address E (ConstantPoolEntry values))))
    by (symmetry; rewrite <- (Z.add_0_r (address E _)); apply eval_Node_Some; reflexivity).
  cbn [mbind option_bind]. rewrite uint_add_l, (Hp i v Hv). reflexivity.
Qed.

Definition shuffle_indices (mask : list Z) : list Z := map (λ m, Z.land (dest_lane m) 15) mask.

(** An insertion at a constant index: what [getNode] leaves of the others. *)
Definition insert_index_ok (N : SDValue) : bool :=
  match N with
  | Node ISD.INSERT_VECTOR_ELT _ [_; _; Node (ISD.Constant k) MVT.i32 []] => (0 <=? k) && (k <? 16)
  | Node ISD.INSERT_VECTOR_ELT _ _ => false
  | _ => true
  end.

Lemma insert_index_ok_inv (a : SDValue) :
  getOpcode a = ISD.INSERT_VECTOR_ELT → insert_index_ok a = true →
  ∃ vt v x k, a = Node ISD.INSERT_VECTOR_ELT vt [v; x; Node (ISD.Constant k) MVT.i32 []] ∧ 0 ≤ k < 16.
Proof.
  destruct a as [op vt ops]. cbn [getOpcode]. intros -> Hok.
  destruct ops as [| v [| x' [| [o t l] [|]]]]; try discriminate Hok.
  1: destruct o, t, l; try discriminate Hok. 2: destruct o, t, l; discriminate Hok.
  apply andb_true_iff in Hok as [H1 H2]. apply Z.leb_le in H1. apply Z.ltb_lt in H2. eauto 10.
Qed.

Lemma insert_splat_lane (u : oracle) (VT : MVT.t) (a x : SDValue) (k : Z) (i : nat) (y : Z) :
  getValueType a = VT → getOpcode a = ISD.INSERT_VECTOR_ELT → insert_index_ok a = true →
  SDgetOperand a 1 = Ret x → (SDgetOperand a 2 ≫= cast_Constant) = Ret k →
  meaning E a (Z.to_nat (i32 k)) = Some y → eval E u (getNode ISD.SPLAT VT [x]) i = Some y.
Proof.
  intros Ha Hop Hok Hx Hk Hy. destruct (insert_index_ok_inv a Hop Hok) as (vt & v & x' & k' & -> & Hr).
  cbn [getValueType] in Ha. subst vt. injection Hx as <-. injection Hk as <-.
  apply meaning_Node_inv in Hy as (w & Hw & ->).
  apply insert_lane_inv in Hw as (n & Hn & Hc & Hw).
  assert (Z.of_nat n = k') as En.
  { apply meaning_Node_inv in Hc as (c & [= <-] & Hc). cbn [MVT.lane_bits] in Hc. rewrite uint_small in Hc; lia. }
  rewrite sint_small, Z2Nat.id, <- En, Z.eqb_refl in Hw by lia. apply (eval_refined E u) in Hw.
  apply eval_Node_Some. exact Hw.
Qed.

Lemma scalar_splat_lane (u : oracle) (VT : MVT.t) (a x : SDValue) (i j : nat) (y : Z) :
  getValueType a = VT → getOpcode a = ISD.SCALAR_TO_VECTOR → SDgetOperand a 0 = Ret x →
  meaning E a j = Some y → eval E u (getNode ISD.SPLAT VT [x]) i = Some y.
Proof.
  destruct a as [op vt ops]. cbn [getValueType getOpcode]. intros -> -> Hx Hy.
  apply meaning_Node_inv in Hy as (w & Hw & ->). destruct ops as [| x' []]; try discriminate.
  injection Hx as <-. cbn [eval_op map] in Hw. destruct (decide (j = 0%nat)); [| discriminate].
  apply eval_Node_Some, (eval_refined E u), Hw.
Qed.

(** The word-vector cases after the analysis: what is known about lane [i]. *)
Section shuffle_cases.
Context (u : oracle) (VT : MVT.t) (a b : SDValue) (mask : list Z) (s : ShuffleInfo) (i : nat) (m y : Z).
Hypothesis Hu : total u.
Hypothesis HVT : word_vector VT.
Hypothesis Hi : (i < 16)%nat.
Hypothesis Hs : shuffle_facts mask 16 s.
Hypothesis Hm : mask !! i = Some m.
Hypothesis Hdest : dest_lane m = m.
Hypothesis Hrange : 0 ≤ m < 32.
Hypothesis Hy : meaning E (if 15 <? m then b else a) (Z.to_nat (Z.land m 15)) = Some y.

(** The mask the code goes on with. *)
Definition eff_mask : Z := if bool_decide (a = b) then 0 else Mask s.

Lemma eff_mask_lane :
  meaning E (if Z.testbit eff_mask (Z.of_nat i) then b else a) (Z.to_nat (Z.land m 15)) = Some y.
Proof.
  unfold eff_mask. destruct (bool_decide_reflect (a = b)) as [E1 | _].
  - revert Hy. rewrite <- E1. destruct (15 <? m), (Z.testbit 0 (Z.of_nat i)); auto.
  - rewrite (sf_bits _ _ _ Hs) by lia. replace (Z.to_nat (Z.of_nat i - (16 - Z.of_nat 16))) with i by lia.
    rewrite Hm. cbn [from_option]. rewrite Hdest.
    destruct (Z.leb_spec (16 - Z.of_nat 16) (Z.of_nat i)), (Z.ltb_spec (Z.of_nat i) 16); try lia. exact Hy.
Qed.

Lemma VT_bits : MVT.lane_bits VT = 32.
Proof. destruct HVT as [-> | ->]; reflexivity. Qed.

Lemma y_word : getValueType a = VT → getValueType b = VT → u32 y = y.
Proof.
  intros Ha Hb. pose proof (uint_lane _ _ _ _ Hy) as H. destruct (15 <? m); rewrite ?Ha, ?Hb, VT_bits in H; exact H.
Qed.

Lemma index_lane :
  placed (shuffle_indices mask) →
  eval E u (getLoad MVT.v16i32 (getConstantPool (shuffle_indices mask) MVT.v16i32)) i = Some (Z.land m 15).
Proof.
  intros Hp. apply eval_pool_load; [exact Hp | |].
  - unfold shuffle_indices. rewrite list_lookup_fmap, Hm. cbn. rewrite Hdest. reflexivity.
  - change 15 with (Z.ones 4). rewrite uint_land_ones by lia. pose proof (uint_range 4 m). lia.
Qed.

Lemma land_idemp : Z.land (Z.land m 15) 15 = Z.land m 15.
Proof. rewrite <- Z.land_assoc. reflexivity. Qed.

(** Both vectors through the shuffle instruction. *)
Lemma shuffled_lane (id : Z) (VT' : MVT.t) (src : SDValue) (v : Z) :
  placed (shuffle_indices mask) → id = nyuzi_shufflei ∨ id = nyuzi_shufflef → MVT.lane_bits VT' = 32 →
  meaning E src (Z.to_nat (Z.land m 15)) = Some v →
  eval E u (Node ISD.INTRINSIC_WO_CHAIN VT' [getConstant id MVT.i32; src;
     getLoad MVT.v16i32 (getConstantPool (shuffle_indices mask) MVT.v16i32)]) i = Some (u32 v).
Proof.
  intros Hp Hid HVT' Hv. apply (eval_shuffle_intrinsic u VT' id src _ i (Z.land m 15) v Hid HVT');
    [apply index_lane; exact Hp |]. rewrite land_idemp. apply (eval_refined E u), Hv.
Qed.

(** A mix of two vectors by the mask. *)
Lemma mixed_lane (M : Z) (x0 x1 : SDValue) :
  (if Z.testbit M (Z.of_nat i) then eval E u x1 i else eval E u x0 i) = Some y →
  eval E u (getNode ISD.VSELECT VT [getNode ISD.MASK_FROM_INT MVT.v16i1 [getConstant M MVT.i32]; x1; x0]) i
  = Some (u32 y).
Proof.
  intros H. rewrite <- VT_bits. apply eval_Node_Some. cbn [eval_op map].
  assert (Hc : eval E u (getNode ISD.MASK_FROM_INT MVT.v16i1 [getConstant M MVT.i32]) i
               = Some (uint 1 (Z.b2z (Z.testbit M (Z.of_nat i))))).
  { eapply eval_MASK_FROM_INT; [apply eval_getConstant |]. rewrite testbit_u32 by lia.
    destruct (Z.testbit M (Z.of_nat i)); reflexivity. }
  eapply select_Some; [exact Hc |]. rewrite uint1_b2z. destruct (Z.testbit M (Z.of_nat i)); exact H.
Qed.

Lemma single_insert_case (x c : SDValue) (k : Z) :
  getValueType a = VT → getOpcode a = ISD.INSERT_VECTOR_ELT → insert_index_ok a = true →
  SDgetOperand a 1 = Ret x → SDgetOperand a 2 = Ret c → cast_Constant c = Ret k → m = i32 k →
  eval E u (getNode ISD.SPLAT VT [x]) i = Some y.
Proof.
  intros Ha Hop Hok Hx Hc Hk Hmk.
  assert (Hk' : 0 ≤ k < 16).
  { destruct (insert_index_ok_inv a Hop Hok) as (vt & v & x' & k' & E1 & Hr). rewrite E1 in Hc.
    injection Hc as <-. injection Hk as <-. exact Hr. }
  rewrite sint_small in Hmk by lia. subst k.
  apply (insert_splat_lane u VT a x m); try assumption; [rewrite Hc; exact Hk |].
  rewrite sint_small by lia. revert Hy. change 15 with (Z.ones 4) at 2.
  rewrite uint_land_ones, uint_small by lia. destruct (Z.ltb_spec 15 m); [lia | auto].
Qed.

Lemma broadcast_case :
  getValueType a = VT → getValueType b = VT →
  eval E u (getNode ISD.SPLAT VT [getNode ISD.EXTRACT_VECTOR_ELT MVT.i32
     [if m <? 16 then a else b; getConstant (Z.rem m 16) MVT.i32]]) i = Some y.
Proof.
  intros Ha Hb. rewrite <- (y_word Ha Hb) at 1. rewrite <- VT_bits. apply eval_Node_Some. cbn [eval_op map].
  rewrite <- (y_word Ha Hb). change 32 with (MVT.lane_bits MVT.i32) at 1. apply eval_Node_Some. cbn [eval_op map].
  unfold extract_lane. rewrite eval_getConstant. cbn [mbind option_bind].
  rewrite Z.rem_mod_nonneg by lia. change (m mod 16) with (uint 4 m). rewrite (uint_small 32).
  2: { pose proof (uint_range 4 m). lia. }
  destruct (Z.leb_spec 0 (uint 4 m)), (Z.ltb_spec (uint 4 m) 16); try (pose proof (uint_range 4 m); lia).
  cbn [andb]. apply (eval_refined E u). revert Hy. change 15 with (Z.ones 4) at 2. rewrite uint_land_ones by lia.
  destruct (Z.ltb_spec 15 m), (Z.ltb_spec m 16); try lia; auto.
Qed.

(** Only one of the vectors is read. *)
Lemma one_source_case (id : Z) :
  getValueType a = VT → getValueType b = VT → placed (shuffle_indices mask) →
  id = nyuzi_shufflei ∨ id = nyuzi_shufflef → (eff_mask =? 0xffff) || (eff_mask =? 0) = true →
  let ShuffleSource := if eff_mask =? 0 then a else b in
  (IsIdentityShuffle s = true → eval E u ShuffleSource i = Some y) ∧
  eval E u (getNode ISD.INTRINSIC_WO_CHAIN VT [getConstant id MVT.i32; ShuffleSource;
     getLoad MVT.v16i32 (getConstantPool (shuffle_indices mask) MVT.v16i32)]) i = Some y.
Proof.
  intros Ha Hb Hp Hid HM. cbv zeta. pose proof eff_mask_lane as Hl.
  assert (Hsrc : meaning E (if eff_mask =? 0 then a else b) (Z.to_nat (Z.land m 15)) = Some y).
  { revert Hl. apply orb_true_iff in HM as [HM | HM]; apply Z.eqb_eq in HM; rewrite HM.
    2: { rewrite Z.testbit_0_l. auto. }
    change (0xffff =? 0) with false. change 0xffff with (Z.ones 16). rewrite Z.testbit_ones by lia.
    destruct (Z.leb_spec 0 (Z.of_nat i)), (Z.ltb_spec (Z.of_nat i) 16); try lia; auto. }
  split.
  - intros Hid'. pose proof (sf_identity _ _ _ Hs Hid' i m Hi Hm) as E1. rewrite Hdest in E1.
    rewrite E1, Nat2Z.id in Hsrc. apply (eval_refined E u), Hsrc.
  - rewrite <- (y_word Ha Hb). apply shuffled_lane; [exact Hp | exact Hid | exact VT_bits | exact Hsrc].
Qed.

(** A mix, with or without a shuffle of each vector. *)
Lemma mix_case :
  getValueType a = VT → getValueType b = VT → IsIdentityShuffle s = true →
  eval E u (getNode ISD.VSELECT VT [getNode ISD.MASK_FROM_INT MVT.v16i1 [getConstant eff_mask MVT.i32]; b; a]) i
  = Some y.
Proof.
  intros Ha Hb Hid. rewrite <- (y_word Ha Hb). apply mixed_lane.
  pose proof eff_mask_lane as Hl. pose proof (sf_identity _ _ _ Hs Hid i m Hi Hm) as E1. rewrite Hdest in E1.
  rewrite E1, Nat2Z.id in Hl. destruct (Z.testbit eff_mask (Z.of_nat i)); apply (eval_refined E u), Hl.
Qed.

Lemma shuffle_mix_case (id : Z) :
  getValueType a = VT → getValueType b = VT → placed (shuffle_indices mask) →
  id = nyuzi_shufflei ∨ id = nyuzi_shufflef →
  let shuffled x := getNode ISD.INTRINSIC_WO_CHAIN MVT.v16i32 [getConstant id MVT.i32; x;
     getLoad MVT.v16i32 (getConstantPool (shuffle_indices mask) MVT.v16i32)] in
  eval E u (getNode ISD.VSELECT VT [getNode ISD.MASK_FROM_INT MVT.v16i1 [getConstant eff_mask MVT.i32];
     shuffled b; shuffled a]) i = Some y.
Proof.
  intros Ha Hb Hp Hid. cbv zeta. rewrite <- (y_word Ha Hb). apply mixed_lane. pose proof eff_mask_lane as Hl.
  rewrite <- (y_word Ha Hb).
  destruct (Z.testbit eff_mask (Z.of_nat i)); apply shuffled_lane; auto.
Qed.

Lemma word_shuffle_lane (N : SDValue) :
  getValueType a = VT → getValueType b = VT → length mask = 16%nat → analyzeShuffle mask = Ret s →
  insert_index_ok a = true → placed (shuffle_indices mask) →
  LowerVECTOR_SHUFFLE (Node (ISD.VECTOR_SHUFFLE mask) VT [a; b]) = Ret (Some N) → eval E u N i = Some y.
Proof.
  intros Ha Hb Hlen Hsh Hok Hp. unfold LowerVECTOR_SHUFFLE. operands.
  cbn [getMask getOpcode mbind outcome_bind]. operands.
  rewrite bool_decide_eq_false_2 by (destruct HVT; congruence).
  rewrite Hsh. cbn [mbind outcome_bind]. fold eff_mask.
  assert (Hix : ShuffleIndexValues s = shuffle_indices mask).
  { rewrite (sf_indices _ _ _ Hs), take_ge by lia. reflexivity. }
  assert (Hid : ∀ f : bool, (if f then nyuzi_shufflef else nyuzi_shufflei) = nyuzi_shufflei ∨
                   (if f then nyuzi_shufflef else nyuzi_shufflei) = nyuzi_shufflef) by (intros []; auto).
  destruct (_ && _) eqn:Hsc.
  { apply andb_true_iff in Hsc as [Hsc HM]. apply bool_decide_eq_true in Hsc. apply Z.eqb_eq in HM.
    pose proof eff_mask_lane as Hpick. rewrite HM, Z.testbit_0_l in Hpick.
    intros H. apply outcome_bind_Ret_inv in H as (x & Hx & [= <-]).
    exact (scalar_splat_lane u VT a x i _ y Ha Hsc Hx Hpick). }
  clear Hsc. destruct (IsSplat s) eqn:Hspl.
  { pose proof (sf_splat _ _ _ Hs Hspl i m Hi Hm) as Hsp. rewrite Hdest in Hsp. rewrite <- Hsp.
    intros H. apply outcome_bind_Ret_inv in H as ([] & Hsingle & H); [| injection H as <-; apply broadcast_case; auto].
    apply outcome_bind_Ret_inv in H as (x & Hx & [= <-]).
    destruct (bool_decide_reflect (getOpcode a = ISD.INSERT_VECTOR_ELT)) as [Hins |]; [| discriminate].
    apply outcome_bind_Ret_inv in Hsingle as (c & Hc & Hsingle).
    apply outcome_bind_Ret_inv in Hsingle as (k & Hk & [= Hmk]). apply Z.eqb_eq in Hmk.
    eapply single_insert_case; eassumption. }
  rewrite Hix. destruct ((eff_mask =? 0xffff) || (eff_mask =? 0)) eqn:Hone.
  { destruct (one_source_case _ Ha Hb Hp (Hid (MVT.isFloatingPoint VT)) Hone) as [H1 H2].
    destruct (IsIdentityShuffle s); intros [= <-]; [apply H1; reflexivity | exact H2]. }
  destruct (IsIdentityShuffle s) eqn:Hident; intros [= <-]; [apply mix_case; assumption |].
  apply shuffle_mix_case; auto.
Qed.
End shuffle_cases.

(** Masks are shuffled through integer vectors. *)
Lemma eval_Node_same (u : oracle) (op : ISD.NodeType) (vt : MVT.t) (ops : list SDValue) (i : nat) (z : Z) :
  eval_op E op vt ops (map (eval E u) ops) i = Some z → uint (MVT.lane_bits vt) z = z →
  eval E u (Node op vt ops) i = Some z.
Proof. intros H Hz. apply eval_Node_Some in H. rewrite Hz in H. exact H. Qed.

Lemma mask_shuffle_lane (u : oracle) (a b N : SDValue) (mask : list Z) (i : nat) (m y : Z) :
  getValueType a = MVT.v16i1 → getValueType b = MVT.v16i1 → mask !! i = Some m → 0 ≤ m < 32 →
  meaning E (if 15 <? m then b else a) (Z.to_nat (Z.land m 15)) = Some y →
  LowerVECTOR_SHUFFLE (Node (ISD.VECTOR_SHUFFLE mask) MVT.v16i1 [a; b]) = Ret (Some N) → eval E u N i = Some y.
Proof.
  intros Ha Hb Hm Hr Hy [= <-]. pose proof (uint_lane _ _ _ _ Hy) as Hy1.
  assert (Hy1' : uint 1 y = y) by (destruct (15 <? m); rewrite ?Ha, ?Hb in Hy1; exact Hy1).
  assert (Hy32 : u32 y = y) by (rewrite <- Hy1'; apply uint32_uint1).
  apply eval_Node_same; [cbn [eval_op map] | exact Hy1'].
  apply eval_Node_same; [cbn [eval_op map] | exact Hy32].
  rewrite (shuffle_lane_Some mask _ _ i m Hm Hr). apply (eval_refined E u) in Hy.
  destruct (15 <? m); (apply eval_Node_same; [exact Hy | exact Hy32]).
Qed.

(** The lowering of a shuffle returns. *)
Lemma VECTOR_SHUFFLE_returns (VT : MVT.t) (a b : SDValue) (mask : list Z) :
  length mask = 16%nat → getOpcode a ≠ ISD.SCALAR_TO_VECTOR ∨ op_values a ≠ [] → insert_index_ok a = true →
  ∃ N, LowerVECTOR_SHUFFLE (Node (ISD.VECTOR_SHUFFLE mask) VT [a; b]) = Ret (Some N).
Proof.
  intros Hlen Hsc Hok. unfold LowerVECTOR_SHUFFLE. operands. cbn [getMask getOpcode mbind outcome_bind]. operands.
  destruct (bool_decide (VT = MVT.v16i1)); [eauto |].
  destruct (analyzeShuffle_facts mask Hlen) as (s & -> & _). cbn [mbind outcome_bind]. fold (eff_mask a b s).
  destruct (_ && _) eqn:H1.
  { apply andb_true_iff in H1 as [H1 _]. apply bool_decide_eq_true in H1.
    destruct Hsc as [Hsc | Hsc]; [contradiction |]. destruct a as [op vt [| x ops]]; [contradiction |]. operands. eauto. }
  destruct (IsSplat s).
  { destruct (bool_decide_reflect (getOpcode a = ISD.INSERT_VECTOR_ELT)) as [H2 |]; cbn [mbind outcome_bind]; [| eauto].
    destruct (insert_index_ok_inv a H2 Hok) as (vt & v & x' & k' & -> & _). operands.
    cbn [cast_Constant dyn_cast_Constant getOpcode mbind outcome_bind].
    destruct (SplatIndex s =? _); operands; eauto. }
  destruct (_ || _); [destruct (IsIdentityShuffle s); eauto |]. destruct (IsIdentityShuffle s); eauto.
Qed.

Lemma VECTOR_SHUFFLE_implements (VT : MVT.t) (a b N : SDValue) (mask : list Z) :
  VT = MVT.v16i1 ∨ word_vector VT → getValueType a = VT → getValueType b = VT → length mask = 16%nat →
  insert_index_ok a = true → placed (shuffle_indices mask) →
  LowerVECTOR_SHUFFLE (Node (ISD.VECTOR_SHUFFLE mask) VT [a; b]) = Ret (Some N) →
  implements E (Node (ISD.VECTOR_SHUFFLE mask) VT [a; b]) N.
Proof.
  intros HVT Ha Hb Hlen Hok Hp HN u i z Hu Hi Hz. apply meaning_Node_inv in Hz as (y & Hy & ->).
  cbn [eval_op map] in Hy. apply shuffle_lane_inv in Hy as (m & Hm & Hr & Hd & Hy).
  assert (Hy' : meaning E (if 15 <? m then b else a) (Z.to_nat (Z.land m 15)) = Some y)
    by (destruct (15 <? m); exact Hy).
  assert (Hyr : uint (MVT.lane_bits VT) y = y).
  { pose proof (uint_lane _ _ _ _ Hy') as H. destruct (15 <? m); rewrite ?Ha, ?Hb in H; exact H. }
  rewrite Hyr. destruct HVT as [-> | HVT]; [exact (mask_shuffle_lane u a b N mask i m y Ha Hb Hm Hr Hy' HN) |].
  destruct (analyzeShuffle_facts mask Hlen) as (s & Hs & Hf).
  assert (Hi' : (i < 16)%nat) by (destruct HVT as [-> | ->]; exact Hi).
  eapply (word_shuffle_lane u VT a b mask s i m y); eassumption.
Qed.

End correctness.

(** ** Properties *)

(** C35. A shuffle of two vectors of sixteen lanes whose first operand is not an
    insertion at a variable index lowers: the result is in each lane the lane the
    mask selects, for masks, integers and floats, whether the code finds a copy, a
    broadcast, a single shuffle, a mix or a mix of two shuffles.  An insertion at a
    variable index is cast to a constant and asserts; the constant pool holds the
    lane numbers. *)
Theorem LowerVECTOR_SHUFFLE_correct (E : Env) (VT : MVT.t) (a b : SDValue) (mask : list Z) :
  VT = MVT.v16i1 ∨ word_vector VT → getValueType a = VT → getValueType b = VT → length mask = 16%nat →
  getOpcode a ≠ ISD.SCALAR_TO_VECTOR ∨ op_values a ≠ [] → insert_index_ok a = true →
  placed E (shuffle_indices mask) →
  ∃ N, LowerVECTOR_SHUFFLE (Node (ISD.VECTOR_SHUFFLE mask) VT [a; b]) = Ret (Some N) ∧
       implements E (Node (ISD.VECTOR_SHUFFLE mask) VT [a; b]) N.
Proof.
  intros HVT Ha Hb Hlen Hsc Hok Hp. destruct (VECTOR_SHUFFLE_returns VT a b mask Hlen Hsc Hok) as [N HN].
  exists N. split; [exact HN |]. apply VECTOR_SHUFFLE_implements; assumption.
Qed.

(** The vector register [V n], lane [i] holding [100 n + i], and a memory that
    holds the lane numbers of a reversal at address 64. *)
Definition example_env : Env :=
  mkEnv (λ r i, match r with Nyuzi.V n => 100 * Z.of_nat n + Z.of_nat i | _ => 7 end)
        (λ a, 15 - (a - 64) / 4) (λ _, 64) (λ _, 0) (λ _, 0) (λ x _, x) (λ x _, x) (λ x _, x) (λ x, x).

Definition vreg (n : nat) (VT : MVT.t) : SDValue := Node (ISD.CopyFromReg (Nyuzi.V n)) VT [].

(** A reversal that takes its odd lanes from the second vector. *)
Definition reverse_mix : list Z := map (λ i, 15 - Z.of_nat i + if Nat.even i then 16 else 0) (seq 0 16).

Lemma LowerVECTOR_SHUFFLE_correct_witness :
  ∃ N, LowerVECTOR_SHUFFLE (Node (ISD.VECTOR_SHUFFLE reverse_mix) MVT.v16f32 [vreg 1 MVT.v16f32; vreg 2 MVT.v16f32])
         = Ret (Some N) ∧
       implements example_env
         (Node (ISD.VECTOR_SHUFFLE reverse_mix) MVT.v16f32 [vreg 1 MVT.v16f32; vreg 2 MVT.v16f32]) N.
Proof.
  apply LowerVECTOR_SHUFFLE_correct; try reflexivity.
  - right. right. reflexivity.
  - left. discriminate.
  - intros i v Hv. do 16 (destruct i as [| i]; [vm_compute in Hv; injection Hv as <-; reflexivity |]).
    discriminate Hv.
Defined.

(** The shuffle of the witness, lane by lane. *)
Example reverse_mix_lanes :
  map (meaning example_env (Node (ISD.VECTOR_SHUFFLE reverse_mix) MVT.v16f32
                              [vreg 1 MVT.v16f32; vreg 2 MVT.v16f32])) (seq 0 4)
  = [Some 215; Some 114; Some 213; Some 112].
Proof. vm_compute. reflexivity. Qed.

(** The insertion at a variable index stops the lowering of a broadcast. *)
Lemma variable_insert_asserts (VT : MVT.t) (v x idx b : SDValue) :
  VT ≠ MVT.v16i1 → dyn_cast_Constant idx = None →
  LowerVECTOR_SHUFFLE (Node (ISD.VECTOR_SHUFFLE (repeat 0 16)) VT
    [Node ISD.INSERT_VECTOR_ELT VT [v; x; idx]; b])
  = AssertFail "cast<Ty>() argument of incompatible type!".
Proof.
  intros HVT Hidx. unfold LowerVECTOR_SHUFFLE. operands. cbn [getMask getOpcode mbind outcome_bind]. operands.
  rewrite (bool_decide_eq_false_2 (VT = MVT.v16i1)) by exact HVT.
  change (analyzeShuffle (repeat 0 16)) with (Ret (mkShuffleInfo 0 false true 0 (repeat 0 16))).
  cbn [mbind outcome_bind Mask IsSplat SplatIndex IsIdentityShuffle]. operands.
  rewrite (bool_decide_eq_false_2 (ISD.INSERT_VECTOR_ELT = ISD.SCALAR_TO_VECTOR)) by discriminate.
  rewrite (bool_decide_eq_true_2 (ISD.INSERT_VECTOR_ELT = ISD.INSERT_VECTOR_ELT)) by reflexivity. cbn [andb].
  unfold cast_Constant. rewrite Hidx. reflexivity.
Qed.

(** Lowering a vector that is built of its elements: equal elements of a
    word vector become a splat; a mask is packed into an integer, at compile
    time when its elements are constants or undefined, bit by bit otherwise; and
    nothing else is lowered. *)
Theorem LowerBUILD_VECTOR_correct (E : Env) (VT : MVT.t) (ops : list SDValue) :
  VT = MVT.v16i1 ∨ word_vector VT → length ops = 16%nat →
  ∃ r, LowerBUILD_VECTOR (Node ISD.BUILD_VECTOR VT ops) = Ret r ∧
    match r with
    | Some N => implements E (Node ISD.BUILD_VECTOR VT ops) N
    | None => word_vector VT ∧ ∃ x y, x ∈ ops ∧ y ∈ ops ∧ x ≠ y
    end.
Proof.
  intros HVT Hlen. destruct (BUILD_VECTOR_returns E VT ops Hlen) as (r & Hr & Hnone). exists r. split; [exact Hr |].
  destruct r as [N |]; [apply (BUILD_VECTOR_implements E VT ops N HVT Hlen Hr) |].
  destruct (Hnone eq_refl) as [Hne Hxy]. split; [destruct HVT; [contradiction | assumption] | exact Hxy].
Qed.

Lemma LowerBUILD_VECTOR_correct_witness :
  let Op := Node ISD.BUILD_VECTOR MVT.v16i1
    (getConstant 1 MVT.i32 :: Node ISD.UNDEF MVT.i32 [] :: repeat (getConstant 3 MVT.i32) 14) in
  LowerBUILD_VECTOR Op = Ret (Some (Node ISD.MASK_FROM_INT MVT.v16i1 [getConstant 0xfffd MVT.i32])) ∧
  ∃ r, LowerBUILD_VECTOR Op = Ret r ∧
    match r with
    | Some N => implements example_env Op N
    | None => word_vector MVT.v16i1 ∧ ∃ x y, x ∈ op_values Op ∧ y ∈ op_values Op ∧ x ≠ y
    end.
Proof.
  split; [vm_compute; reflexivity |]. apply LowerBUILD_VECTOR_correct; [left; reflexivity | reflexivity].
Defined.

(** Lowering an insertion, an extraction and a scalar in lane 0: the vector
    the result is has the new element in its lane and the old ones in the
    others, for word vectors by a masked move and for masks by bit operations,
    at a constant or at a variable index. *)
Theorem vector_elements_correct (E : Env) (VT : MVT.t) (a b c : SDValue) :
  VT = MVT.v16i1 ∨ word_vector VT →
  let insert := Node ISD.INSERT_VECTOR_ELT VT [a; b; c] in
  let extract := Node ISD.EXTRACT_VECTOR_ELT MVT.i32 [a; c] in
  let scalar := Node ISD.SCALAR_TO_VECTOR VT [b] in
  (∃ N, LowerINSERT_VECTOR_ELT insert = Ret (Some N) ∧ implements E insert N) ∧
  (∃ N, LowerEXTRACT_VECTOR_ELT extract = Ret (Some N) ∧ implements E extract N) ∧
  (∃ N, LowerSCALAR_TO_VECTOR scalar = Ret (Some N) ∧ implements E scalar N).
Proof.
  intros HVT. cbv zeta. split; [| split].
  - assert (∃ N, LowerINSERT_VECTOR_ELT (Node ISD.INSERT_VECTOR_ELT VT [a; b; c]) = Ret (Some N)) as [N HN]
      by (unfold LowerINSERT_VECTOR_ELT; operands; destruct (bool_decide _); eauto).
    exists N. split; [exact HN |]. apply (INSERT_VECTOR_ELT_implements E VT); assumption.
  - assert (∃ N, LowerEXTRACT_VECTOR_ELT (Node ISD.EXTRACT_VECTOR_ELT MVT.i32 [a; c]) = Ret (Some N)) as [N HN]
      by (unfold LowerEXTRACT_VECTOR_ELT; operands; destruct (negb _); eauto).
    exists N. split; [exact HN |]. apply EXTRACT_VECTOR_ELT_implements; assumption.
  - assert (∃ N, LowerSCALAR_TO_VECTOR (Node ISD.SCALAR_TO_VECTOR VT [b]) = Ret (Some N)) as [N HN]
      by (unfold LowerSCALAR_TO_VECTOR; operands; destruct (bool_decide _); eauto).
    exists N. split; [exact HN |]. apply (SCALAR_TO_VECTOR_implements E VT); assumption.
Qed.

Lemma vector_elements_correct_witness :
  let a := vreg 1 MVT.v16i1 in let b := getConstant 1 MVT.i32 in let c := getConstant 5 MVT.i32 in
  let insert := Node ISD.INSERT_VECTOR_ELT MVT.v16i1 [a; b; c] in
  let extract := Node ISD.EXTRACT_VECTOR_ELT MVT.i32 [a; c] in
  let scalar := Node ISD.SCALAR_TO_VECTOR MVT.v16i1 [b] in
  (∃ N, LowerINSERT_VECTOR_ELT insert = Ret (Some N) ∧ implements example_env insert N) ∧
  (∃ N, LowerEXTRACT_VECTOR_ELT extract = Ret (Some N) ∧ implements example_env extract N) ∧
  (∃ N, LowerSCALAR_TO_VECTOR scalar = Ret (Some N) ∧ implements example_env scalar N).
Proof. apply (vector_elements_correct example_env MVT.v16i1). left. reflexivity. Defined.

(** A mask that is extended, with either sign, and truncated again goes
    through vectors of integers: each of the three nodes is lowered to nodes
    that compute its lanes. *)
Theorem mask_extension_correct (E : Env) (x y : SDValue) :
  getValueType x = MVT.v16i1 → getValueType y = MVT.v16i32 →
  let sext := Node ISD.SIGN_EXTEND MVT.v16i32 [x] in
  let zext := Node ISD.ZERO_EXTEND MVT.v16i32 [x] in
  let trunc := Node ISD.TRUNCATE MVT.v16i1 [y] in
  (∃ N, LowerSIGN_EXTEND sext = Ret (Some N) ∧ implements E sext N) ∧
  (∃ N, LowerZERO_EXTEND zext = Ret (Some N) ∧ implements E zext N) ∧
  (∃ N, LowerTRUNCATE trunc = Ret (Some N) ∧ implements E trunc N).
Proof.
  intros Hx Hy. cbv zeta. split; [| split].
  - eexists. split; [reflexivity |]. apply LowerSIGN_EXTEND_implements; [exact Hx | reflexivity].
  - eexists. split; [reflexivity |]. apply LowerZERO_EXTEND_implements; [exact Hx | reflexivity].
  - eexists. split; [reflexivity |]. apply LowerTRUNCATE_implements; [exact Hy | reflexivity].
Qed.

Lemma mask_extension_correct_witness :
  let x := vreg 1 MVT.v16i1 in let y := vreg 2 MVT.v16i32 in
  let sext := Node ISD.SIGN_EXTEND MVT.v16i32 [x] in
  let zext := Node ISD.ZERO_EXTEND MVT.v16i32 [x] in
  let trunc := Node ISD.TRUNCATE MVT.v16i1 [y] in
  (∃ N, LowerSIGN_EXTEND sext = Ret (Some N) ∧ implements example_env sext N) ∧
  (∃ N, LowerZERO_EXTEND zext = Ret (Some N) ∧ implements example_env zext N) ∧
  (∃ N, LowerTRUNCATE trunc = Ret (Some N) ∧ implements example_env trunc N).
Proof. apply mask_extension_correct; reflexivity. Defined.
