(* ===== verification/NyuziISelFloat.v ===== *)
(** * NyuziISelFloat: custom lowering of comparisons, selections and floats

    [morphSETCCNode], [getSetCCResultType], [LowerSELECT_CC], [LowerSELECT],
    [LowerSETCC], [LowerFDIV], [LowerFNEG], [LowerFABS], [LowerCTLZ_ZERO_UNDEF],
    [LowerCTTZ_ZERO_UNDEF], [LowerUINT_TO_FP], [LowerSINT_TO_FP] and
    [LowerFP_TO_XINT] of lib/Target/Nyuzi/NyuziISelLowering.cpp.  Comparisons
    are proved lane by lane on the IEEE order of bit patterns; the division is
    proved in exact arithmetic, which leaves out the rounding of its steps. *)
From Stdlib Require Import QArith Qabs Qpower Lqa.
From S2P Require Import Prelude.
From S2P Require Import NyuziTarget.
From S2P Require Import NyuziISelDAG.
From S2P Require Import NyuziISelVector.
#[local] Open Scope Z_scope.

Definition morphSETCCNode (Op : SDValue) (Compare : ISD.NodeType) : outcome SDValue :=
  SDgetOperand Op 0 ≫= λ Op0, SDgetOperand Op 1 ≫= λ Op1,
  Ret (getNode Compare (getValueType Op) [Op0; Op1]).

Definition getSetCCResultType (VT : MVT.t) : MVT.t := if MVT.isVector VT then MVT.v16i1 else MVT.i32.

Definition LowerSELECT_CC (Op : SDValue) : outcome (option SDValue) :=
  SDgetOperand Op 0 ≫= λ Op0, SDgetOperand Op 1 ≫= λ Op1, SDgetOperand Op 2 ≫= λ Op2,
  SDgetOperand Op 3 ≫= λ Op3, SDgetOperand Op 4 ≫= λ Op4,
  let Ty := getValueType Op0 in
  let Pred := getNode ISD.SETCC (getSetCCResultType Ty) [Op0; Op1; Op4] in
  Ret (Some (getNode ISD.SEL_COND_RESULT (getValueType Op) [Pred; Op2; Op3])).

Definition LowerSELECT (Op : SDValue) : outcome (option SDValue) :=
  SDgetOperand Op 0 ≫= λ Op0, SDgetOperand Op 1 ≫= λ Op1, SDgetOperand Op 2 ≫= λ Op2,
  let Pred := getSetCC (getSetCCResultType MVT.i1) Op0 (getConstant 0 MVT.i32) SETNE in
  Ret (Some (getNode ISD.SEL_COND_RESULT (getValueType Op) [Pred; Op1; Op2])).

Definition cast_CondCode (N : SDValue) : outcome CondCode :=
  match getOpcode N with
  | ISD.CONDCODE cc => Ret cc
  | _ => AssertFail "cast<Ty>() argument of incompatible type!"
  end.

(** The comparison whose negation a condition code is that holds of unordered
    operands. *)
Definition ComplementCompare (CC : CondCode) : option ISD.NodeType :=
  match CC with
  | SETUEQ => Some ISD.FNE
  | SETUGT => Some ISD.FLE
  | SETUGE => Some ISD.FLT
  | SETULT => Some ISD.FGE
  | SETULE => Some ISD.FGT
  | SETUNE => Some ISD.FEQ
  | _ => None
  end.

Definition LowerSETCC (Op : SDValue) : outcome (option SDValue) :=
  SDgetOperand Op 2 ≫= λ Op2, cast_CondCode Op2 ≫= λ CC,
  SDgetOperand Op 0 ≫= λ Op0, SDgetOperand Op 1 ≫= λ Op1,
  let OperandVT := getValueType Op0 in
  let ResultVT := getValueType Op in
  let Negate :=
    let N := getConstant 0xffff MVT.i32 in
    if MVT.isVector ResultVT then getNode ISD.MASK_FROM_INT MVT.v16i1 [N] else N in
  let Ordered Compare := morphSETCCNode Op Compare ≫= λ N, Ret (Some N) in
  if bool_decide (OperandVT = MVT.v16i1) then
    let SExtOp0 := getNode ISD.SIGN_EXTEND MVT.v16i32 [Op0] in
    let SExtOp1 := getNode ISD.SIGN_EXTEND MVT.v16i32 [Op1] in
    Ret (Some (getSetCC MVT.v16i1 SExtOp0 SExtOp1 CC))
  else if bool_decide (OperandVT = MVT.v16i32) then Ret (Some Op)
  else
    match CC with
    | SETGT | SETOGT => Ordered ISD.FGT
    | SETGE | SETOGE => Ordered ISD.FGE
    | SETLT | SETOLT => Ordered ISD.FLT
    | SETLE | SETOLE => Ordered ISD.FLE
    | SETEQ | SETOEQ => Ordered ISD.FEQ
    | SETNE | SETONE => Ordered ISD.FNE
    | SETO | SETUO =>
        let IsOrdered := getNode ISD.FEQ ResultVT [Op0; Op0] in
        if bool_decide (CC = SETO) then Ret (Some IsOrdered)
        else Ret (Some (getNode ISD.XOR ResultVT [IsOrdered; Negate]))
    | _ =>
        match ComplementCompare CC with
        | None => Unreachable "unhandled float comparison"
        | Some Compare =>
            morphSETCCNode Op Compare ≫= λ Comp2,
            Ret (Some (getNode ISD.XOR ResultVT [Comp2; Negate]))
        end
    end.

(** [DAG.getConstantFP(v, DL, VT)] *)
Definition getConstantFP (bits : Z) (VT : MVT.t) : SDValue :=
  if MVT.isVector VT then Node ISD.BUILD_VECTOR VT (repeat (Node (ISD.ConstantFP bits) (MVT.getVectorElementType VT) []) 16)
  else Node (ISD.ConstantFP bits) VT [].

(** [C && C->isExactlyValue(1.0)] *)
Definition isExactlyOne (N : SDValue) : bool := bool_decide (dyn_cast_ConstantFP N = Some float_one).

Fixpoint refineEstimate (n : nat) (Ty : MVT.t) (Denominator Two Estimate : SDValue) : SDValue :=
  match n with
  | O => Estimate
  | S n' =>
      let Trial := getNode ISD.FMUL Ty [Estimate; Denominator] in
      let Error := getNode ISD.FSUB Ty [Two; Trial] in
      refineEstimate n' Ty Denominator Two (getNode ISD.FMUL Ty [Estimate; Error])
  end.

Definition LowerFDIV (Op : SDValue) : outcome (option SDValue) :=
  SDgetOperand Op 0 ≫= λ Op0, SDgetOperand Op 1 ≫= λ Denominator,
  let Ty := getValueType Denominator in
  let Two := getConstantFP float_two Ty in
  let Estimate := getNode ISD.RECIPROCAL_EST Ty [Denominator] in
  let Estimate := refineEstimate 2 Ty Denominator Two Estimate in
  (if MVT.isVector Ty then
     isSplatVector Op0 ≫= λ splat,
     if splat : bool then SDgetOperand Op0 0 ≫= λ C, Ret (isExactlyOne C) else Ret false
   else Ret (isExactlyOne Op0)) ≫= λ IsOne,
  Ret (Some (if (IsOne : bool) then Estimate else getNode ISD.FMUL Ty [Op0; Estimate])).

(** The integer type the bits of a float are worked on in. *)
Definition IntermediateVT (ResultVT : MVT.t) : MVT.t := if MVT.isVector ResultVT then MVT.v16i32 else MVT.i32.

Definition LowerFNEG (Op : SDValue) : outcome (option SDValue) :=
  let ResultVT := getValueType Op in
  let rhs := getConstant 0x80000000 MVT.i32 in
  let rhs := if MVT.isVector ResultVT then getNode ISD.SPLAT MVT.v16i32 [rhs] else rhs in
  SDgetOperand Op 0 ≫= λ Op0,
  let iconv := getBitcast (IntermediateVT ResultVT) Op0 in
  let flipped := getNode ISD.XOR (IntermediateVT ResultVT) [iconv; rhs] in
  Ret (Some (getBitcast ResultVT flipped)).

Definition LowerFABS (Op : SDValue) : outcome (option SDValue) :=
  let ResultVT := getValueType Op in
  let rhs := getConstant 0x7fffffff MVT.i32 in
  let rhs := if MVT.isVector ResultVT then getNode ISD.SPLAT MVT.v16i32 [rhs] else rhs in
  SDgetOperand Op 0 ≫= λ Op0,
  let iconv := getBitcast (IntermediateVT ResultVT) Op0 in
  let flipped := getNode ISD.AND (IntermediateVT ResultVT) [iconv; rhs] in
  Ret (Some (getBitcast ResultVT flipped)).

Definition LowerCTLZ_ZERO_UNDEF (Op : SDValue) : outcome (option SDValue) :=
  SDgetOperand Op 0 ≫= λ Op0, Ret (Some (getNode ISD.CTLZ (getValueType Op) [Op0])).

Definition LowerCTTZ_ZERO_UNDEF (Op : SDValue) : outcome (option SDValue) :=
  SDgetOperand Op 0 ≫= λ Op0, Ret (Some (getNode ISD.CTTZ (getValueType Op) [Op0])).

Definition LowerUINT_TO_FP (Op : SDValue) : outcome (option SDValue) :=
  SDgetOperand Op 0 ≫= λ Op0,
  cassert (bool_decide (getValueType Op0 = MVT.v16i1)) "getSimpleValueType() == MVT::v16i1" ≫= λ _,
  let ElementType := MVT.getVectorElementType (getValueType Op) in
  let FalseVal := getNode ISD.SPLAT MVT.v16f32 [getConstantFP 0 ElementType] in
  let TrueVal := getNode ISD.SPLAT MVT.v16f32 [getConstantFP float_one ElementType] in
  Ret (Some (getNode ISD.VSELECT MVT.v16f32 [Op0; TrueVal; FalseVal])).

Definition LowerSINT_TO_FP (Op : SDValue) : outcome (option SDValue) :=
  SDgetOperand Op 0 ≫= λ Op0,
  let ElementType := MVT.getVectorElementType (getValueType Op) in
  let FalseVal := getNode ISD.SPLAT MVT.v16f32 [getConstantFP 0 ElementType] in
  let TrueVal := getNode ISD.SPLAT MVT.v16f32 [getConstantFP float_minus_one ElementType] in
  Ret (Some (getNode ISD.VSELECT MVT.v16f32 [Op0; TrueVal; FalseVal])).

Definition LowerFP_TO_XINT (Op : SDValue) : outcome (option SDValue) :=
  let Zero := getNode ISD.SPLAT MVT.v16f32 [getConstantFP 0 MVT.f32] in
  SDgetOperand Op 0 ≫= λ Op0, Ret (Some (getSetCC MVT.v16i1 Op0 Zero SETNE)).

(** ** Comparisons *)
Definition float_type (VT : MVT.t) : Prop := VT = MVT.f32 ∨ VT = MVT.v16f32.

(** The comparison nodes on lanes. *)
Definition compare_test (Compare : ISD.NodeType) : option (comparison → bool) :=
  match Compare with
  | ISD.FGT => Some (λ c, bool_decide (c = Gt))
  | ISD.FGE => Some (λ c, negb (bool_decide (c = Lt)))
  | ISD.FLT => Some (λ c, bool_decide (c = Lt))
  | ISD.FLE => Some (λ c, negb (bool_decide (c = Gt)))
  | ISD.FEQ => Some (λ c, bool_decide (c = Eq))
  | ISD.FNE => Some (λ c, negb (bool_decide (c = Eq)))
  | _ => None
  end.

Section comparisons.
Context (E : Env).

Lemma mask_of_fits (VT : MVT.t) (c : bool) :
  VT = MVT.v16i1 ∨ VT = MVT.i32 → uint (MVT.lane_bits VT) (mask_of VT c) = mask_of VT c.
Proof. intros [-> | ->]; destruct c; reflexivity. Qed.

Lemma eval_compare (u : oracle) (Compare : ISD.NodeType) (f : comparison → bool) (VT : MVT.t) (a b : SDValue)
    (i : nat) (x y : Z) :
  compare_test Compare = Some f → VT = MVT.v16i1 ∨ VT = MVT.i32 →
  eval E u a i = Some x → eval E u b i = Some y →
  eval E u (Node Compare VT [a; b]) i = Some (mask_of VT (from_option f false (float_compare x y))).
Proof.
  intros Hf HVT Hx Hy. apply eval_Node_same; [| apply mask_of_fits, HVT].
  destruct Compare; try discriminate Hf; injection Hf as <-; cbn [eval_op map];
    (eapply lift2_Some; [exact Hx | exact Hy | reflexivity]).
Qed.

(** All sixteen bits are negated, also for scalars. *)
Lemma eval_negate (u : oracle) (VT : MVT.t) (N : SDValue) (i : nat) (c : bool) :
  VT = MVT.v16i1 ∨ VT = MVT.i32 → (i < MVT.num_lanes VT)%nat → eval E u N i = Some (mask_of VT c) →
  eval E u (getNode ISD.XOR VT
    [N; if MVT.isVector VT then getNode ISD.MASK_FROM_INT MVT.v16i1 [getConstant 0xffff MVT.i32]
        else getConstant 0xffff MVT.i32]) i = Some (mask_of VT (negb c)).
Proof.
  intros HVT Hi HN. apply eval_Node_same; [| apply mask_of_fits, HVT]. cbn [eval_op map].
  destruct HVT as [-> | ->]; cbn [MVT.isVector].
  - eapply lift2_Some; [exact HN | apply (eval_MASK_FROM_INT E u _ (u32 0xffff) 1); [apply eval_getConstant |] |].
    + change (u32 0xffff) with (Z.ones 16). cbn in Hi. bitwise_core.
    + destruct c; reflexivity.
  - eapply lift2_Some; [exact HN | apply eval_getConstant |]. destruct c; reflexivity.
Qed.

Definition condcode (cc : CondCode) : SDValue := getNode (ISD.CONDCODE cc) MVT.Other [].

Lemma SETCC_meaning_inv (VT : MVT.t) (cc : CondCode) (a b : SDValue) (i : nat) (z : Z) :
  VT = MVT.v16i1 ∨ VT = MVT.i32 →
  meaning E (Node ISD.SETCC VT [a; b; condcode cc]) i = Some z →
  ∃ x y c, meaning E a i = Some x ∧ meaning E b i = Some y ∧ setcc (getValueType a) cc x y = Some c ∧
           z = mask_of VT c.
Proof.
  intros HVT Hz. apply meaning_Node_inv in Hz as (w & Hw & ->). cbn in Hw.
  destruct (meaning E a i) as [x |]; [| discriminate]. destruct (meaning E b i) as [y |]; [| discriminate].
  cbn in Hw. unfold type_at in Hw. cbn in Hw. destruct (setcc _ _ _ _) as [c |] eqn:Hc; [| discriminate].
  injection Hw as <-. exists x, y, c. rewrite (mask_of_fits VT c HVT). auto.
Qed.

Lemma eval_SETCC (u : oracle) (VT : MVT.t) (cc : CondCode) (a b : SDValue) (i : nat) (x y : Z) (c : bool) :
  VT = MVT.v16i1 ∨ VT = MVT.i32 → eval E u a i = Some x → eval E u b i = Some y →
  setcc (getValueType a) cc x y = Some c →
  eval E u (getSetCC VT a b cc) i = Some (mask_of VT c).
Proof.
  intros HVT Hx Hy Hc. apply eval_Node_same; [| apply mask_of_fits, HVT].
  cbn. rewrite Hx. cbn. rewrite Hy. cbn. unfold type_at. cbn. rewrite Hc. reflexivity.
Qed.

(** Masks are compared as sign-extended integers. *)
Lemma mask_setcc_sext (cc : CondCode) (x y : Z) :
  x = 0 ∨ x = 1 → y = 0 ∨ y = 1 →
  int_setcc 32 cc (u32 (sint 1 x)) (u32 (sint 1 y)) = int_setcc 1 cc x y.
Proof. intros [-> | ->] [-> | ->]; destruct cc; reflexivity. Qed.

Lemma mask_SETCC_lane (u : oracle) (cc : CondCode) (a b : SDValue) (i : nat) (x y : Z) (c : bool) :
  getValueType a = MVT.v16i1 → getValueType b = MVT.v16i1 →
  eval E u a i = Some x → eval E u b i = Some y → setcc MVT.v16i1 cc x y = Some c →
  eval E u (getSetCC MVT.v16i1 (getNode ISD.SIGN_EXTEND MVT.v16i32 [a])
              (getNode ISD.SIGN_EXTEND MVT.v16i32 [b]) cc) i = Some (mask_of MVT.v16i1 c).
Proof.
  intros Ha Hb Hx Hy Hc.
  assert (Hs : ∀ w v, getValueType w = MVT.v16i1 → eval E u w i = Some v →
               eval E u (getNode ISD.SIGN_EXTEND MVT.v16i32 [w]) i = Some (u32 (sint 1 v))).
  { intros w v Hw Hv. apply eval_Node_Some. cbn [eval_op map]. eapply lift1_Some; [exact Hv |].
    unfold type_at. cbn. rewrite Hw. reflexivity. }
  eapply eval_SETCC; [left; reflexivity | apply Hs; eassumption | apply Hs; eassumption |].
  cbn [getValueType getNode]. unfold setcc in *. cbn [MVT.isFloatingPoint MVT.lane_bits] in *.
  rewrite mask_setcc_sext;
    [exact Hc | exact (mask_lane_cases E u a i x Ha Hx) | exact (mask_lane_cases E u b i y Hb Hy)].
Qed.

(** The lanes of the operands for which [SETO] and [SETUO], which look at the
    first operand only, are right. *)
Definition second_ordered (cc : CondCode) (a b : SDValue) : Prop :=
  cc = SETO ∨ cc = SETUO → a = b ∨ ∀ i y, meaning E b i = Some y → isNaN y = false.

Lemma float_compare_refl (x : Z) : float_compare x x = if isNaN x then None else Some Eq.
Proof. unfold float_compare. rewrite orb_diag, Z.compare_refl. reflexivity. Qed.

Lemma ordered_first (cc : CondCode) (a b : SDValue) (i : nat) (x y : Z) (c : bool) :
  cc = SETO ∨ cc = SETUO → second_ordered cc a b → meaning E a i = Some x → meaning E b i = Some y →
  float_setcc cc x y = Some c →
  from_option (λ o, bool_decide (o = Eq)) false (float_compare x x) = (if decide (cc = SETO) then c else negb c).
Proof.
  intros Hcc Hord Hx Hy Hc.
  assert (Hn : float_compare x y = None ↔ isNaN x = true).
  { unfold float_compare. destruct (Hord Hcc) as [-> | Hb].
    - rewrite Hx in Hy. injection Hy as <-. destruct (isNaN x); cbn; split; congruence.
    - rewrite (Hb i y Hy), orb_false_r. destruct (isNaN x); split; congruence. }
  rewrite float_compare_refl. unfold float_setcc in Hc.
  revert Hn Hc. destruct (float_compare x y) as [o |], (isNaN x); intros Hn Hc;
    try (exfalso; destruct Hn as [H1 H2]; (discriminate (H1 eq_refl) || discriminate (H2 eq_refl)));
    destruct Hcc as [-> | ->]; cbn in *; injection Hc as <-; reflexivity.
Qed.

Lemma float_SETCC_lane (u : oracle) (VT : MVT.t) (cc : CondCode) (a b N : SDValue) (i : nat) (x y : Z) (c : bool) :
  float_type (getValueType a) → VT = getSetCCResultType (getValueType a) → (i < MVT.num_lanes VT)%nat →
  meaning E a i = Some x → meaning E b i = Some y → float_setcc cc x y = Some c → second_ordered cc a b →
  LowerSETCC (Node ISD.SETCC VT [a; b; condcode cc]) = Ret (Some N) → eval E u N i = Some (mask_of VT c).
Proof.
  intros Hf HVT Hi Hx Hy Hc Hord. assert (HVT' : VT = MVT.v16i1 ∨ VT = MVT.i32) by (destruct Hf as [E1 | E1]; rewrite E1 in HVT; auto).
  pose proof (eval_refined E u a i x Hx) as Hx'. pose proof (eval_refined E u b i y Hy) as Hy'.
  unfold LowerSETCC. operands. cbn [cast_CondCode condcode getNode getOpcode mbind outcome_bind]. operands.
  rewrite !bool_decide_eq_false_2 by (destruct Hf as [-> | ->]; discriminate).
  destruct cc; unfold morphSETCCNode; operands; try discriminate; intros [= <-];
    try (erewrite (eval_compare u _ _ VT a b i x y); [| reflexivity | exact HVT' | exact Hx' | exact Hy']; f_equal; f_equal;
         revert Hc; unfold float_setcc; destruct (float_compare x y) as [[] |]; cbn; congruence).
  all: try (rewrite <- (negb_involutive c); apply eval_negate; [exact HVT' | exact Hi |];
            erewrite (eval_compare u _ _ VT a b i x y); [| reflexivity | exact HVT' | exact Hx' | exact Hy']; f_equal; f_equal;
            revert Hc; unfold float_setcc; destruct (float_compare x y) as [[] |]; cbn;
            intros [= <-]; reflexivity).
  - pose proof (ordered_first SETO a b i x y c (or_introl eq_refl) Hord Hx Hy Hc) as H.
    erewrite (eval_compare u _ _ VT a a i x x); [| reflexivity | exact HVT' | exact Hx' | exact Hx']. rewrite H. reflexivity.
  - pose proof (ordered_first SETUO a b i x y c (or_intror eq_refl) Hord Hx Hy Hc) as H.
    rewrite <- (negb_involutive c). apply eval_negate; [exact HVT' | exact Hi |].
    erewrite (eval_compare u _ _ VT a a i x x); [| reflexivity | exact HVT' | exact Hx' | exact Hx']. rewrite H. reflexivity.
Qed.

(** A condition code the lowering of floats has a case for. *)
Definition float_condcode (cc : CondCode) : bool :=
  match cc with SETFALSE | SETTRUE | SETFALSE2 | SETTRUE2 => false | _ => true end.

Lemma SETCC_returns (VT VT' : MVT.t) (cc : CondCode) (a b : SDValue) :
  getValueType a = VT' → (float_type VT' → float_condcode cc = true) →
  VT' = MVT.v16i1 ∨ VT' = MVT.v16i32 ∨ float_type VT' →
  ∃ N, LowerSETCC (Node ISD.SETCC VT [a; b; condcode cc]) = Ret (Some N).
Proof.
  intros Ha Hcc HVT. unfold LowerSETCC. operands. cbn [cast_CondCode condcode getNode getOpcode mbind outcome_bind].
  operands. rewrite Ha. destruct (bool_decide_reflect (VT' = MVT.v16i1)); [eauto |].
  destruct (bool_decide_reflect (VT' = MVT.v16i32)); [eauto |].
  assert (Hf : float_type VT') by (destruct HVT as [? | [? | ?]]; [contradiction | contradiction | assumption]).
  specialize (Hcc Hf). destruct cc; try discriminate Hcc; unfold morphSETCCNode; operands; eauto.
Qed.

Lemma SETCC_implements (VT : MVT.t) (cc : CondCode) (a b N : SDValue) :
  getValueType b = getValueType a → VT = getSetCCResultType (getValueType a) →
  getValueType a = MVT.v16i1 ∨ getValueType a = MVT.v16i32 ∨ float_type (getValueType a) →
  (float_type (getValueType a) → second_ordered cc a b) →
  LowerSETCC (Node ISD.SETCC VT [a; b; condcode cc]) = Ret (Some N) →
  implements E (Node ISD.SETCC VT [a; b; condcode cc]) N.
Proof.
  intros Hb HVT Ha Hord HN u i z Hu Hi Hz.
  assert (HVT' : VT = MVT.v16i1 ∨ VT = MVT.i32)
    by (rewrite HVT; unfold getSetCCResultType; destruct (MVT.isVector _); auto).
  destruct (decide (getValueType a = MVT.v16i32)) as [Hi32 | Hni32].
  { revert HN. unfold LowerSETCC. operands. cbn [cast_CondCode condcode getNode getOpcode mbind outcome_bind]. operands.
    rewrite Hi32, bool_decide_eq_false_2, bool_decide_eq_true_2 by (discriminate || reflexivity).
    intros [= <-]. apply (eval_refined E u), Hz. }
  apply (SETCC_meaning_inv VT cc a b i z HVT') in Hz as (x & y & c & Hx & Hy & Hc & ->).
  destruct Ha as [Ha | [Ha | Ha]]; [| contradiction |].
  - revert HN. unfold LowerSETCC. operands. cbn [cast_CondCode condcode getNode getOpcode mbind outcome_bind]. operands.
    rewrite Ha, bool_decide_eq_true_2 by reflexivity. intros [= <-]. rewrite Ha in *. cbn in HVT. subst VT.
    apply mask_SETCC_lane with (x := x) (y := y); try apply (eval_refined E u); assumption.
  - apply (float_SETCC_lane u VT cc a b N i x y c); try assumption; [| exact (Hord Ha)].
    unfold setcc in Hc. destruct Ha as [Ha | Ha]; rewrite Ha in Hc; exact Hc.
Qed.

(** *** Selections *)
Lemma SELECT_CC_implements (VT : MVT.t) (cc : CondCode) (a b t f N : SDValue) :
  getValueType a = MVT.i32 ∨ getValueType a = MVT.f32 →
  LowerSELECT_CC (Node ISD.SELECT_CC VT [a; b; t; f; condcode cc]) = Ret (Some N) →
  implements E (Node ISD.SELECT_CC VT [a; b; t; f; condcode cc]) N.
Proof.
  intros Ha [= <-] u i z Hu Hi Hz. apply meaning_Node_inv in Hz as (w & Hw & ->). cbn in Hw.
  destruct (meaning E a 0%nat) as [x |] eqn:Hx; [| discriminate].
  destruct (meaning E b 0%nat) as [y |] eqn:Hy; [| discriminate].
  cbn in Hw. unfold type_at in Hw. cbn in Hw. destruct (setcc _ _ _ _) as [c |] eqn:Hc; [| discriminate].
  apply (eval_refined E u) in Hx, Hy. apply eval_Node_Some. cbn [eval_op map].
  eapply select_Some.
  - apply (eval_SETCC u (getSetCCResultType (getValueType a)) cc a b 0 x y c); try assumption.
    unfold getSetCCResultType. destruct (MVT.isVector _); auto.
  - destruct Ha as [-> | ->], c; apply (eval_refined E u), Hw.
Qed.

Lemma SELECT_implements (VT : MVT.t) (c t f N : SDValue) :
  getValueType c = MVT.i32 →
  LowerSELECT (Node ISD.SELECT VT [c; t; f]) = Ret (Some N) →
  implements E (Node ISD.SELECT VT [c; t; f]) N.
Proof.
  intros Hc [= <-] u i z Hu Hi Hz. apply meaning_Node_inv in Hz as (w & Hw & ->). cbn [eval_op map] in Hw.
  unfold select in Hw. destruct (meaning E c 0%nat) as [x |] eqn:Hx; [| discriminate]. cbn [mbind option_bind] in Hw.
  pose proof (eval_range _ _ _ _ _ Hx) as Hr. rewrite Hc in Hr. cbn [MVT.lane_bits] in Hr.
  apply (eval_refined E u) in Hx. apply eval_Node_Some. cbn [eval_op map]. eapply select_Some.
  - apply (eval_SETCC u MVT.i32 SETNE c (getConstant 0 MVT.i32) 0 x (u32 0) (negb (x =? 0))); auto.
    rewrite Hc. unfold setcc. cbn [MVT.isFloatingPoint MVT.lane_bits int_setcc]. rewrite uint_small by lia. reflexivity.
  - destruct (x =? 0); apply (eval_refined E u), Hw.
Qed.

(** *** Bit counts, conversions of masks, signs *)
Lemma ZERO_UNDEF_implements (VT : MVT.t) (a N : SDValue) :
  (LowerCTLZ_ZERO_UNDEF (Node ISD.CTLZ_ZERO_UNDEF VT [a]) = Ret (Some N) →
   implements E (Node ISD.CTLZ_ZERO_UNDEF VT [a]) N) ∧
  (LowerCTTZ_ZERO_UNDEF (Node ISD.CTTZ_ZERO_UNDEF VT [a]) = Ret (Some N) →
   implements E (Node ISD.CTTZ_ZERO_UNDEF VT [a]) N).
Proof.
  split; intros [= <-] u i z Hu Hi Hz; apply meaning_Node_inv in Hz as (w & Hw & ->); cbn [eval_op map] in Hw;
    unfold lift1 in Hw; destruct (meaning E a i) as [x |] eqn:Hx; try discriminate; cbn [mbind option_bind] in Hw;
    destruct (x =? 0); try discriminate; injection Hw as <-; apply (eval_refined E u) in Hx;
    apply eval_Node_Some; (eapply lift1_Some; [exact Hx | reflexivity]).
Qed.

Lemma eval_splat_fp (u : oracle) (v : Z) (i : nat) :
  eval E u (getNode ISD.SPLAT MVT.v16f32 [getConstantFP v MVT.f32]) i = Some (u32 (u32 v)).
Proof. reflexivity. Qed.

Lemma mask_to_float_lane (u : oracle) (a : SDValue) (t : Z) (i : nat) (x : Z) :
  eval E u a i = Some x →
  eval E u (getNode ISD.VSELECT MVT.v16f32
    [a; getNode ISD.SPLAT MVT.v16f32 [getConstantFP t MVT.f32];
        getNode ISD.SPLAT MVT.v16f32 [getConstantFP 0 MVT.f32]]) i = Some (u32 (if x =? 0 then 0 else t)).
Proof.
  intros Hx. rewrite <- (uint_uint 32). apply eval_Node_Some. cbn [eval_op map].
  eapply select_Some; [exact Hx |]. rewrite !eval_splat_fp. destruct (x =? 0); rewrite uint_uint; reflexivity.
Qed.

Lemma MASK_TO_FP_implements (a N : SDValue) :
  (LowerUINT_TO_FP (Node ISD.UINT_TO_FP MVT.v16f32 [a]) = Ret (Some N) →
   implements E (Node ISD.UINT_TO_FP MVT.v16f32 [a]) N) ∧
  (getValueType a = MVT.v16i1 → LowerSINT_TO_FP (Node ISD.SINT_TO_FP MVT.v16f32 [a]) = Ret (Some N) →
   implements E (Node ISD.SINT_TO_FP MVT.v16f32 [a]) N).
Proof.
  split; [unfold LowerUINT_TO_FP; operands; intros HN; apply cassert_bind_inv in HN as [_ HN]; injection HN as <-
         | intros _ [= <-]]; intros u i z Hu Hi Hz; apply meaning_Node_inv in Hz as (w & Hw & ->);
    cbn [eval_op map] in Hw; unfold lift1 in Hw; destruct (meaning E a i) as [x |] eqn:Hx; try discriminate;
    cbn [mbind option_bind] in Hw; destruct (decide _); try discriminate; injection Hw as <-;
    apply (mask_to_float_lane u a _ i x), (eval_refined E u), Hx.
Qed.

(** The exclusive or with the sign bit. *)
Lemma lxor_sign (x : Z) :
  Z.lxor x 0x80000000 = if float_sign x then x - 0x80000000 else x + 0x80000000.
Proof.
  unfold float_sign. change 0x80000000 with (2 ^ 31).
  assert (Hp : ∀ w, Z.testbit w 31 = false → Z.lxor w (2 ^ 31) = w + 2 ^ 31).
  { intros w Hw. symmetry. apply Z.add_nocarry_lxor, Z.bits_inj'. intros i Hi.
    rewrite Z.land_spec, Z.pow2_bits_eqb, Z.testbit_0_l by lia.
    destruct (Z.eqb_spec 31 i) as [<- |]; rewrite ?Hw, ?andb_false_r; reflexivity. }
  destruct (Z.testbit x 31) eqn:Hx; [| apply Hp, Hx].
  assert (Hc : Z.testbit (Z.lxor x (2 ^ 31)) 31 = false)
    by (rewrite Z.lxor_spec, Hx, Z.pow2_bits_eqb by lia; reflexivity).
  pose proof (Hp _ Hc) as H. rewrite Z.lxor_assoc, Z.lxor_nilpotent, Z.lxor_0_r in H. lia.
Qed.

(** A bit operation with a constant on the bits of a float. *)
Lemma float_bitop_lane (u : oracle) (op : ISD.NodeType) (f : Z → Z → Z) (VT : MVT.t) (a : SDValue) (k : Z) (i : nat) (x : Z) :
  (∀ ops a b, eval_op E op (IntermediateVT VT) ops [a; b] = lift2 (λ x y, Some (f x y)) a b) →
  float_type VT → getValueType a = VT → 0 ≤ k < 2 ^ 32 → eval E u a i = Some x →
  eval E u (getBitcast VT (getNode op (IntermediateVT VT)
    [getBitcast (IntermediateVT VT) a;
     if MVT.isVector VT then getNode ISD.SPLAT MVT.v16i32 [getConstant k MVT.i32] else getConstant k MVT.i32])) i
  = Some (u32 (f x k)).
Proof.
  intros Hop HVT Ha Hk Hx.
  assert (Hxr : u32 x = x) by (pose proof (uint_lane _ _ _ _ _ Hx) as H; rewrite Ha in H; destruct HVT as [-> | ->]; exact H).
  assert (Hb : eval E u (getBitcast (IntermediateVT VT) a) i = Some x).
  { unfold getBitcast. rewrite decide_False by (rewrite Ha; destruct HVT as [-> | ->]; discriminate).
    apply eval_Node_same; [exact Hx |]. destruct HVT as [-> | ->]; exact Hxr. }
  assert (Hk' : eval E u (if MVT.isVector VT then getNode ISD.SPLAT MVT.v16i32 [getConstant k MVT.i32]
                          else getConstant k MVT.i32) i = Some k).
  { assert (Hc : eval E u (getConstant k MVT.i32) i = Some k) by (rewrite eval_getConstant, uint_small by exact Hk; reflexivity).
    destruct HVT as [-> | ->]; cbn [MVT.isVector]; [exact Hc |].
    apply eval_Node_same; [exact Hc | apply uint_small, Hk]. }
  assert (Hn : eval E u (getNode op (IntermediateVT VT)
    [getBitcast (IntermediateVT VT) a;
     if MVT.isVector VT then getNode ISD.SPLAT MVT.v16i32 [getConstant k MVT.i32] else getConstant k MVT.i32]) i
    = Some (u32 (f x k))).
  { change 32 with (MVT.lane_bits (IntermediateVT MVT.f32)).
    replace (MVT.lane_bits (IntermediateVT MVT.f32)) with (MVT.lane_bits (IntermediateVT VT))
      by (destruct HVT as [-> | ->]; reflexivity).
    apply eval_Node_Some. cbn [map]. rewrite Hop. eapply lift2_Some; [exact Hb | exact Hk' | reflexivity]. }
  unfold getBitcast at 1. rewrite decide_False by (destruct HVT as [-> | ->]; discriminate).
  apply eval_Node_same; [exact Hn |]. destruct HVT as [-> | ->]; apply uint_uint.
Qed.

Lemma FNEG_FABS_implements (VT : MVT.t) (a N : SDValue) :
  float_type VT → getValueType a = VT →
  (LowerFNEG (Node ISD.FNEG VT [a]) = Ret (Some N) → implements E (Node ISD.FNEG VT [a]) N) ∧
  (LowerFABS (Node ISD.FABS VT [a]) = Ret (Some N) → implements E (Node ISD.FABS VT [a]) N).
Proof.
  intros HVT Ha. assert (Hw : MVT.lane_bits VT = 32) by (destruct HVT as [-> | ->]; reflexivity).
  split; unfold LowerFNEG, LowerFABS; operands; intros [= <-] u i z Hu Hi Hz;
    apply meaning_Node_inv in Hz as (w & Hw' & ->); cbn [eval_op map] in Hw'; unfold lift1 in Hw';
    destruct (meaning E a i) as [x |] eqn:Hx; try discriminate; injection Hw' as <-; rewrite Hw;
    apply (eval_refined E u) in Hx.
  - rewrite <- lxor_sign. apply (float_bitop_lane u ISD.XOR Z.lxor VT a _ i x); try reflexivity; try assumption. lia.
  - replace (float_mag x) with (Z.land x 0x7fffffff).
    + apply (float_bitop_lane u ISD.AND Z.land VT a _ i x); try reflexivity; try assumption. lia.
    + change 0x7fffffff with (Z.ones 31). rewrite uint_land_ones by lia. unfold float_mag, getfield.
      rewrite Z.shiftr_0_r. reflexivity.
Qed.

(** Only a float whose magnitude is zero or at least one is converted right:
    the comparison with zero does not truncate. *)
Definition no_fraction (x : Z) : Prop := float_mag x = 0 ∨ 127 ≤ float_exp x.

Lemma isNaN_exp (x : Z) : float_exp x ≠ 255 → isNaN x = false.
Proof. intros H. unfold isNaN. destruct (Z.eqb_spec (float_exp x) 255); [contradiction | reflexivity]. Qed.

Lemma float_mag_zero (x : Z) : float_mag x = 0 → float_exp x = 0.
Proof.
  intros H. unfold float_exp, float_mag, getfield in *. rewrite Z.shiftr_0_r in H.
  transitivity (uint 8 (Z.shiftr (uint 31 x) 23)); [| rewrite H; reflexivity]. bitwise.
Qed.

Lemma float_to_i1_nonzero (signed : bool) (x w : Z) :
  no_fraction x → float_to_i1 signed x = Some w →
  float_setcc SETNE x 0 = Some (negb (w =? 0)) ∧ (w = 0 ∨ w = 1).
Proof.
  unfold no_fraction, float_to_i1. intros Hx Hw.
  assert (Hz : float_mag x = 0 → float_exp x = 0) by apply float_mag_zero.
  unfold float_setcc, float_compare. replace (isNaN 0) with false by reflexivity. rewrite orb_false_r.
  destruct (Z.ltb_spec (float_exp x) 127).
  - injection Hw as <-. destruct Hx as [Hx | Hx]; [| lia]. rewrite isNaN_exp by lia.
    unfold float_key. rewrite Hx. split; [| auto]. destruct (float_sign x); reflexivity.
  - destruct (Z.eqb_spec (float_exp x) 127) as [He |]; [| discriminate]. cbn [andb] in Hw.
    destruct (Bool.eqb _ _); [| discriminate]. injection Hw as <-. rewrite isNaN_exp by lia. split; [| auto].
    assert (Hm : float_mag x ≠ 0) by (intros H0; specialize (Hz H0); lia). assert (0 ≤ float_mag x) by (unfold float_mag; apply getfield_range; lia).
    cbv zeta. rewrite bool_decide_eq_false_2; [reflexivity |]. intros Hc. apply Z.compare_eq in Hc. revert Hc.
    unfold float_key. change (float_sign 0) with false. change (float_mag 0) with 0. destruct (float_sign x); lia.
Qed.

Lemma FP_TO_XINT_implements (op : ISD.NodeType) (a N : SDValue) :
  op = ISD.FP_TO_UINT ∨ op = ISD.FP_TO_SINT → getValueType a = MVT.v16f32 →
  (∀ i x, meaning E a i = Some x → no_fraction x) →
  LowerFP_TO_XINT (Node op MVT.v16i1 [a]) = Ret (Some N) → implements E (Node op MVT.v16i1 [a]) N.
Proof.
  intros Hop Ha Hfrac [= <-] u i z Hu Hi Hz. apply meaning_Node_inv in Hz as (w & Hw & ->).
  assert (Hw' : ∃ signed x, meaning E a i = Some x ∧ float_to_i1 signed x = Some w).
  { destruct Hop as [-> | ->]; cbn [eval_op map] in Hw; unfold lift1 in Hw;
      destruct (meaning E a i) as [x |]; try discriminate; cbn [mbind option_bind] in Hw;
      rewrite decide_True in Hw by reflexivity; eauto. }
  destruct Hw' as (signed & x & Hx & Hf).
  destruct (float_to_i1_nonzero signed x w (Hfrac i x Hx) Hf) as [Hc Hw01].
  etransitivity; [apply (eval_SETCC u MVT.v16i1 SETNE a _ i x 0 (negb (w =? 0))) |].
  1: { left; reflexivity. } 1: { apply (eval_refined E u), Hx. } 1: { apply eval_splat_fp. }
  - rewrite Ha. unfold setcc. cbn [MVT.isFloatingPoint]. rewrite Hc. reflexivity.
  - destruct Hw01 as [-> | ->]; reflexivity.
Qed.

End comparisons.

(** ** Division in exact arithmetic *)
Definition float_value (x : Z) : Q :=
  let v := if float_exp x =? 0 then (inject_Z (float_mant x) * (2 # 1) ^ (-149))%Q
           else (inject_Z (2 ^ 23 + float_mant x) * (2 # 1) ^ (float_exp x - 150))%Q in
  if float_sign x then (- v)%Q else v.

Section exact.
Context (recip : Q → Q) (leaf : SDValue → nat → Q).

(** The value of a node when products and differences are not rounded and the
    hardware estimate of [x] is [recip x]. *)
Fixpoint exact (N : SDValue) : nat → Q :=
  match N with
  | Node op vt ops => λ i,
      match op, map exact ops with
      | ISD.ConstantFP b, [] => float_value b
      | ISD.FMUL, [a; b] => (a i * b i)%Q
      | ISD.FSUB, [a; b] => (a i - b i)%Q
      | ISD.RECIPROCAL_EST, [a] => recip (a i)
      | ISD.BUILD_VECTOR, l => match l !! i with Some v => v 0%nat | None => leaf N i end
      | ISD.SPLAT, [a] => a 0%nat
      | _, _ => leaf N i
      end
  end.

Lemma exact_two (VT : MVT.t) (i : nat) :
  float_type VT → (i < MVT.num_lanes VT)%nat → (exact (getConstantFP float_two VT) i == 2 # 1)%Q.
Proof.
  intros [-> | ->] Hi; [reflexivity |]. cbn in Hi. do 16 (destruct i as [| i]; [reflexivity |]). lia.
Qed.

(** One step of the refinement squares the error. *)
Lemma refineEstimate_error (n : nat) (VT : MVT.t) (d e : SDValue) (i : nat) :
  float_type VT → (i < MVT.num_lanes VT)%nat →
  (1 - exact (refineEstimate n VT d (getConstantFP float_two VT) e) i * exact d i ==
   (1 - exact e i * exact d i) ^ (2 ^ Z.of_nat n))%Q.
Proof.
  intros HVT Hi. revert e. induction n as [| n IH]; intros e; cbn [refineEstimate].
  - change (2 ^ Z.of_nat 0) with 1. cbn. reflexivity.
  - rewrite IH, Nat2Z.inj_succ, Z.pow_succ_r, Qpower_mult by lia. apply Qpower_comp; [| reflexivity].
    pose proof (exact_two VT i HVT Hi) as H2.
    change (exact (getNode ISD.FMUL VT [e; getNode ISD.FSUB VT [getConstantFP float_two VT;
              getNode ISD.FMUL VT [e; d]]]) i)
      with (exact e i * (exact (getConstantFP float_two VT) i - exact e i * exact d i))%Q.
    rewrite H2. change (?x ^ 2)%Q with (x * x)%Q. ring.
Qed.
End exact.

(** A dividend of ones is a constant vector. *)
Definition ones_constant (n : SDValue) : bool :=
  match op_values n with
  | [] => false
  | x :: _ => negb (isExactlyOne x) || bool_decide (getOpcode n = ISD.BUILD_VECTOR ∧ length (op_values n) = 16%nat)
  end.

Lemma quotient_bound (n x d e : Q) :
  (x * d == 1 - e ^ 4)%Q → (Qabs e <= 1 # 2 ^ 6)%Q → (Qabs (n * x * d - n) <= Qabs n * (1 # 2 ^ 24))%Q.
Proof.
  intros H He.
  assert (H1 : (n * x * d - n == - (n * (e ^ 4)))%Q) by (rewrite <- Qmult_assoc, H; ring).
  rewrite H1, Qabs_opp, Qabs_Qmult. rewrite (Qmult_comm (Qabs n)), (Qmult_comm (Qabs n)).
  apply Qmult_le_compat_r; [| apply Qabs_nonneg].
  apply Qabs_Qle_condition in He as [Hl Hu].
  assert (H2 : (0 <= e * e <= 1 # 2 ^ 12)%Q) by (change (1 # 2 ^ 12)%Q with ((1 # 2 ^ 6) * (1 # 2 ^ 6))%Q; split; nra).
  assert (H4 : (e ^ 4 == (e * e) * (e * e))%Q) by (cbn; ring).
  rewrite H4, Qabs_pos by nra. change (1 # 2 ^ 24)%Q with ((1 # 2 ^ 12) * (1 # 2 ^ 12))%Q. nra.
Qed.

(** The leaves of constants are constants. *)
Definition constant_leaf (n : SDValue) : bool :=
  match n with Node (ISD.ConstantFP _) _ [] => true | Node (ISD.ConstantFP _) _ _ => false | _ => true end.

Lemma isExactlyOne_exact (recip : Q → Q) (leaf : SDValue → nat → Q) (n : SDValue) (i : nat) :
  isExactlyOne n = true → constant_leaf n = true → (exact recip leaf n i == 1)%Q.
Proof.
  unfold isExactlyOne, dyn_cast_ConstantFP. intros H Hc. apply bool_decide_eq_true in H.
  destruct n as [op vt ops]. cbn [getOpcode] in H. destruct op; try discriminate. injection H as ->.
  destruct ops; [reflexivity | discriminate].
Qed.

Lemma splat_lookup (n x : SDValue) (i : nat) (M : SDValue) :
  isSplatVector n = Ret true → SDgetOperand n 0 = Ret x → op_values n !! i = Some M → M = x.
Proof.
  unfold isSplatVector. intros H Hx HM. rewrite Hx in H. injection H as H.
  apply (forallb_lookup _ _ i M H) in HM. apply bool_decide_eq_true in HM. exact HM.
Qed.

(** Whether the dividend is left out, and then its value is one. *)
Lemma is_one_spec (VT : MVT.t) (n : SDValue) :
  float_type VT →
  (if MVT.isVector VT then ones_constant n && forallb constant_leaf (op_values n) else constant_leaf n) = true →
  ∃ one : bool,
    (if MVT.isVector VT then
       isSplatVector n ≫= λ splat, if splat : bool then SDgetOperand n 0 ≫= λ C, Ret (isExactlyOne C) else Ret false
     else Ret (isExactlyOne n)) = Ret one ∧
    ∀ recip leaf i, (i < MVT.num_lanes VT)%nat → one = true → (exact recip leaf n i == 1)%Q.
Proof.
  intros HVT Hn. destruct (MVT.isVector VT) eqn:Hv.
  2: { eexists. split; [reflexivity |]. intros recip leaf i _ H. apply isExactlyOne_exact; assumption. }
  apply andb_true_iff in Hn as [Hn Hc]. destruct n as [op vt [| x ops]]; [discriminate |].
  destruct (isSplatVector (Node op vt (x :: ops))) as [splat | | | |] eqn:Hs; try discriminate Hs.
  cbn [mbind outcome_bind]. destruct splat; [| eexists; split; [reflexivity | discriminate]].
  operands. eexists. split; [reflexivity |]. intros recip leaf i Hi H1.
  unfold ones_constant in Hn. cbn [op_values] in Hn. rewrite H1 in Hn. cbn [negb orb] in Hn.
  apply bool_decide_eq_true in Hn as [Hop Hlen]. cbn in Hop, Hlen. subst op.
  assert (Hi' : (i < 16)%nat) by (unfold MVT.num_lanes in Hi; rewrite Hv in Hi; exact Hi).
  destruct (lookup_lt_is_Some_2 (x :: ops) i ltac:(cbn; lia)) as [M HM].
  assert (M = x) as -> by exact (splat_lookup _ x i M Hs eq_refl HM).
  assert (E1 : exact recip leaf (Node ISD.BUILD_VECTOR vt (x :: ops)) i = exact recip leaf x 0%nat).
  { cbn [exact]. change (exact recip leaf x :: map (exact recip leaf) ops) with (map (exact recip leaf) (x :: ops)).
    rewrite list_lookup_fmap, HM. reflexivity. }
  rewrite E1. apply isExactlyOne_exact; [exact H1 |]. exact (forallb_lookup _ _ 0 x Hc eq_refl).
Qed.

(** C37. Division: in exact arithmetic two Newton-Raphson steps raise the
    relative error of the hardware's reciprocal estimate to its fourth power, so
    from six good bits the quotient has twenty-four, for scalars and in each
    lane of a vector, also when a dividend of ones is left out.  A vector dividend is a
    node with operands, as the code reads its first one, and a build vector when that one
    is the constant 1; the rounding of the machine's operations is not in the bound. *)
Theorem LowerFDIV_error (VT : MVT.t) (n d : SDValue) :
  float_type VT → getValueType d = VT →
  (if MVT.isVector VT then ones_constant n && forallb constant_leaf (op_values n) else constant_leaf n) = true →
  ∃ N, LowerFDIV (Node ISD.FDIV VT [n; d]) = Ret (Some N) ∧
    ∀ recip leaf i, (i < MVT.num_lanes VT)%nat →
      let value := exact recip leaf in
      (Qabs (1 - value d i * recip (value d i)) <= 1 # 2 ^ 6)%Q →
      (Qabs (value N i * value d i - value n i) <= Qabs (value n i) * (1 # 2 ^ 24))%Q.
Proof.
  intros HVT Hd Hn. unfold LowerFDIV. operands. rewrite Hd.
  set (Est := refineEstimate 2 VT d (getConstantFP float_two VT) (getNode ISD.RECIPROCAL_EST VT [d])).
  assert (Hest : ∀ recip leaf i, (i < MVT.num_lanes VT)%nat →
    (exact recip leaf Est i * exact recip leaf d i ==
       1 - (1 - exact recip leaf d i * recip (exact recip leaf d i)) ^ 4)%Q).
  { intros recip leaf i Hi. pose proof (refineEstimate_error recip leaf 2 VT d
      (getNode ISD.RECIPROCAL_EST VT [d]) i HVT Hi) as H. fold Est in H.
    change (exact recip leaf (getNode ISD.RECIPROCAL_EST VT [d]) i) with (recip (exact recip leaf d i)) in H.
    rewrite (Qmult_comm (recip _)) in H. change (2 ^ Z.of_nat 2) with 4 in H. rewrite <- H. ring. }
  destruct (is_one_spec VT n HVT Hn) as (one & Hone & Hval). rewrite Hone. cbn [mbind outcome_bind].
  eexists. split; [reflexivity |]. intros recip leaf i Hi. cbv zeta. intros He.
  assert (HN : (exact recip leaf (if one then Est else getNode ISD.FMUL VT [n; Est]) i ==
                exact recip leaf n i * exact recip leaf Est i)%Q).
  { destruct one; [rewrite (Hval recip leaf i Hi eq_refl); ring | reflexivity]. }
  rewrite HN. exact (quotient_bound _ _ _ _ (Hest recip leaf i Hi) He).
Qed.

(** A hardware estimate that is off by a factor of 63/64. *)
Definition example_recip (x : Q) : Q := ((63 # 64) / x)%Q.

Lemma LowerFDIV_error_witness :
  let one := Node (ISD.ConstantFP float_one) MVT.f32 [] in
  let two := getConstantFP float_two MVT.f32 in
  ∃ N, LowerFDIV (Node ISD.FDIV MVT.f32 [one; two]) = Ret (Some N) ∧
    let value := exact example_recip (λ _ _, 0%Q) in
    (Qabs (value N 0%nat * value two 0%nat - value one 0%nat) <= Qabs (value one 0%nat) * (1 # 2 ^ 24))%Q.
Proof.
  destruct (LowerFDIV_error MVT.f32 (Node (ISD.ConstantFP float_one) MVT.f32 []) (getConstantFP float_two MVT.f32))
    as (N & HN & H); [left; reflexivity | reflexivity | reflexivity |].
  exists N. split; [exact HN |]. apply (H example_recip (λ _ _, 0%Q) 0%nat); [vm_compute; lia |].
  vm_compute. discriminate.
Defined.

(** ** Properties *)

(** Lowering a comparison, for masks, integers and floats, scalars and
    vectors: the result is set exactly in the lanes the condition code holds in,
    with the ordered comparisons the hardware has.  [SETO] and [SETUO] look at
    their first operand only, so the second must be the same or no NaN; the four
    constant codes are the only ones without a lowering. *)
Theorem LowerSETCC_correct (E : Env) (VT : MVT.t) (cc : CondCode) (a b : SDValue) :
  getValueType a = VT → getValueType b = VT → VT = MVT.v16i1 ∨ VT = MVT.v16i32 ∨ float_type VT →
  (float_type VT → float_condcode cc = true ∧ second_ordered E cc a b) →
  let Op := Node ISD.SETCC (getSetCCResultType VT) [a; b; condcode cc] in
  ∃ N, LowerSETCC Op = Ret (Some N) ∧ implements E Op N.
Proof.
  intros Ha Hb HVT Hcc. cbv zeta.
  destruct (SETCC_returns (getSetCCResultType VT) VT cc a b Ha (λ H, proj1 (Hcc H)) HVT) as [N HN].
  exists N. split; [exact HN |]. subst VT. apply SETCC_implements; auto. intros H. apply Hcc, H.
Qed.

Lemma LowerSETCC_correct_witness :
  let a := vreg 1 MVT.v16f32 in let b := vreg 2 MVT.v16f32 in
  let Op := Node ISD.SETCC MVT.v16i1 [a; b; condcode SETULE] in
  ∃ N, LowerSETCC Op = Ret (Some N) ∧ implements example_env Op N.
Proof.
  apply (LowerSETCC_correct example_env MVT.v16f32 SETULE (vreg 1 MVT.v16f32) (vreg 2 MVT.v16f32));
    [reflexivity | reflexivity | right; right; right; reflexivity |].
  intros _. split; [reflexivity |]. intros [H | H]; discriminate H.
Defined.

(** A NaN in the second operand: the comparison for unordered operands says
    ordered. *)
Lemma SETUO_second_NaN (E : Env) :
  let one := Node (ISD.ConstantFP float_one) MVT.f32 [] in
  let nan := Node (ISD.ConstantFP 0x7fc00000) MVT.f32 [] in
  let Op := Node ISD.SETCC MVT.i32 [one; nan; condcode SETUO] in
  meaning E Op 0%nat = Some 0xffff ∧
  ∃ N, LowerSETCC Op = Ret (Some N) ∧ ∀ u, eval E u N 0%nat = Some 0.
Proof. cbv zeta. split; [reflexivity |]. eexists. split; [reflexivity |]. intros u. reflexivity. Qed.

(** Lowering a selection: the branch the pseudo instruction takes on the
    lowered predicate selects the operand the node selects, for a comparison of
    scalars and for a selection between masks. *)
Theorem selection_correct (E : Env) (VT : MVT.t) (cc : CondCode) (a b c t f : SDValue) :
  getValueType a = MVT.i32 ∨ getValueType a = MVT.f32 → getValueType c = MVT.i32 →
  let select_cc := Node ISD.SELECT_CC VT [a; b; t; f; condcode cc] in
  let select := Node ISD.SELECT VT [c; t; f] in
  (∃ N, LowerSELECT_CC select_cc = Ret (Some N) ∧ implements E select_cc N) ∧
  (∃ N, LowerSELECT select = Ret (Some N) ∧ implements E select N).
Proof.
  intros Ha Hc. cbv zeta. split; eexists; (split; [reflexivity |]).
  - apply SELECT_CC_implements; [exact Ha | reflexivity].
  - apply SELECT_implements; [exact Hc | reflexivity].
Qed.

Lemma selection_correct_witness :
  let a := getConstant 1 MVT.i32 in let b := getConstant 2 MVT.i32 in
  let t := vreg 1 MVT.v16i32 in let f := vreg 2 MVT.v16i32 in
  let select_cc := Node ISD.SELECT_CC MVT.v16i32 [a; b; t; f; condcode SETULT] in
  let select := Node ISD.SELECT MVT.v16i32 [b; t; f] in
  (∃ N, LowerSELECT_CC select_cc = Ret (Some N) ∧ implements example_env select_cc N) ∧
  (∃ N, LowerSELECT select = Ret (Some N) ∧ implements example_env select N).
Proof. apply selection_correct; [left; reflexivity | reflexivity]. Defined.

(** Bit-level operations on floats and masks: negation flips the sign bit
    and nothing else and the absolute value clears it, on every pattern,
    infinities and NaNs included; a mask converts to 0.0 and to 1.0 or -1.0; and
    the bit counts agree wherever the count of zero is not asked for. *)
Theorem bit_operations_correct (E : Env) (VT : MVT.t) (a m w : SDValue) :
  float_type VT → getValueType a = VT → getValueType m = MVT.v16i1 →
  (∃ N, LowerFNEG (Node ISD.FNEG VT [a]) = Ret (Some N) ∧ implements E (Node ISD.FNEG VT [a]) N) ∧
  (∃ N, LowerFABS (Node ISD.FABS VT [a]) = Ret (Some N) ∧ implements E (Node ISD.FABS VT [a]) N) ∧
  (∃ N, LowerUINT_TO_FP (Node ISD.UINT_TO_FP MVT.v16f32 [m]) = Ret (Some N) ∧
        implements E (Node ISD.UINT_TO_FP MVT.v16f32 [m]) N) ∧
  (∃ N, LowerSINT_TO_FP (Node ISD.SINT_TO_FP MVT.v16f32 [m]) = Ret (Some N) ∧
        implements E (Node ISD.SINT_TO_FP MVT.v16f32 [m]) N) ∧
  (∃ N, LowerCTLZ_ZERO_UNDEF (Node ISD.CTLZ_ZERO_UNDEF MVT.i32 [w]) = Ret (Some N) ∧
        implements E (Node ISD.CTLZ_ZERO_UNDEF MVT.i32 [w]) N) ∧
  (∃ N, LowerCTTZ_ZERO_UNDEF (Node ISD.CTTZ_ZERO_UNDEF MVT.i32 [w]) = Ret (Some N) ∧
        implements E (Node ISD.CTTZ_ZERO_UNDEF MVT.i32 [w]) N).
Proof.
  intros HVT Ha Hm.
  assert (Hu : ∃ N, LowerUINT_TO_FP (Node ISD.UINT_TO_FP MVT.v16f32 [m]) = Ret (Some N)).
  { unfold LowerUINT_TO_FP. operands. rewrite bool_decide_eq_true_2 by exact Hm. eexists. reflexivity. }
  destruct Hu as [Nu HNu].
  repeat apply conj.
  - eexists. split; [reflexivity |]. apply (FNEG_FABS_implements E VT a); [exact HVT | exact Ha | reflexivity].
  - eexists. split; [reflexivity |]. apply (FNEG_FABS_implements E VT a); [exact HVT | exact Ha | reflexivity].
  - exists Nu. split; [exact HNu |]. apply MASK_TO_FP_implements, HNu.
  - eexists. split; [reflexivity |]. apply MASK_TO_FP_implements; [exact Hm | reflexivity].
  - eexists. split; [reflexivity |]. apply ZERO_UNDEF_implements. reflexivity.
  - eexists. split; [reflexivity |]. apply ZERO_UNDEF_implements. reflexivity.
Qed.

Lemma bit_operations_correct_witness :
  ∃ N, LowerFNEG (Node ISD.FNEG MVT.v16f32 [vreg 1 MVT.v16f32]) = Ret (Some N) ∧
       implements example_env (Node ISD.FNEG MVT.v16f32 [vreg 1 MVT.v16f32]) N.
Proof.
  apply (bit_operations_correct example_env MVT.v16f32 (vreg 1 MVT.v16f32) (vreg 2 MVT.v16i1) (getConstant 1 MVT.i32));
    [right; reflexivity | reflexivity | reflexivity].
Defined.

(** Converting a vector of floats to a mask compares it with zero, which is
    the conversion for the lanes whose magnitude is zero or at least one. *)
Theorem LowerFP_TO_XINT_correct (E : Env) (op : ISD.NodeType) (a : SDValue) :
  op = ISD.FP_TO_UINT ∨ op = ISD.FP_TO_SINT → getValueType a = MVT.v16f32 →
  (∀ i x, meaning E a i = Some x → no_fraction x) →
  ∃ N, LowerFP_TO_XINT (Node op MVT.v16i1 [a]) = Ret (Some N) ∧ implements E (Node op MVT.v16i1 [a]) N.
Proof.
  intros Hop Ha Hx. eexists. split; [reflexivity |]. apply FP_TO_XINT_implements; auto.
Qed.

Lemma LowerFP_TO_XINT_correct_witness :
  let a := getNode ISD.SPLAT MVT.v16f32 [getConstantFP float_one MVT.f32] in
  ∃ N, LowerFP_TO_XINT (Node ISD.FP_TO_UINT MVT.v16i1 [a]) = Ret (Some N) ∧
       implements example_env (Node ISD.FP_TO_UINT MVT.v16i1 [a]) N.
Proof.
  apply LowerFP_TO_XINT_correct; [left; reflexivity | reflexivity |].
  intros i x Hx. assert (x = float_one) as -> by (injection Hx as <-; reflexivity).
  right. vm_compute. discriminate.
Defined.

(** One half converts to 0 but the comparison says 1. *)
Lemma FP_TO_XINT_half (E : Env) :
  let half := getNode ISD.SPLAT MVT.v16f32 [getConstantFP 0x3f000000 MVT.f32] in
  meaning E (Node ISD.FP_TO_UINT MVT.v16i1 [half]) 0%nat = Some 0 ∧
  ∃ N, LowerFP_TO_XINT (Node ISD.FP_TO_UINT MVT.v16i1 [half]) = Ret (Some N) ∧
       ∀ u, eval E u N 0%nat = Some 1.
Proof. cbv zeta. split; [reflexivity |]. eexists. split; [reflexivity |]. intros u. reflexivity. Qed.
