(* ===== verification/NyuziISelLowering.v ===== *)
(** * NyuziISelLowering: the action tables, the dispatch and addresses

    The constructor's action tables, [LowerOperation], [getTargetNode],
    [getAddr] and its four users, [LowerVASTART], [LowerFRAMEADDR],
    [LowerRETURNADDR], [getTargetNodeName], the inline assembly constraints and
    the small predicates of lib/Target/Nyuzi/NyuziISelLowering.cpp, and the
    address selection of lib/Target/Nyuzi/NyuziISelDAGToDAG.cpp. *)
From S2P Require Import Prelude.
From S2P Require Import MathExtras.
From S2P Require Import NyuziTarget.
From S2P Require Import NyuziISelDAG.
From S2P Require Import NyuziISelVector.
From S2P Require Import NyuziISelFloat.

(** ** Actions *)
Inductive LegalizeAction : Type := Legal | Expand | Custom.

#[global] Instance LegalizeAction_eq_dec : EqDecision LegalizeAction.
Proof. solve_decision. Defined.

(** The tables key on the opcode: what a node carries besides is dropped. *)
Definition opcode_of (op : ISD.NodeType) : ISD.NodeType :=
  match op with
  | ISD.VECTOR_SHUFFLE _ => ISD.VECTOR_SHUFFLE []
  | ISD.GlobalAddress _ _ => ISD.GlobalAddress (GlobalSym "") 0
  | ISD.ConstantPool _ _ => ISD.ConstantPool (ConstantPoolEntry []) 0
  | ISD.JumpTable _ => ISD.JumpTable (JumpTableNo 0)
  | ISD.BlockAddress _ => ISD.BlockAddress (BlockAddressOf 0)
  | _ => op
  end.

Definition GlobalAddressOp : ISD.NodeType := ISD.GlobalAddress (GlobalSym "") 0.
Definition ConstantPoolOp : ISD.NodeType := ISD.ConstantPool (ConstantPoolEntry []) 0.

Definition CustomActions : list (ISD.NodeType * MVT.t) :=
  [ (ISD.BUILD_VECTOR, MVT.v16f32); (ISD.BUILD_VECTOR, MVT.v16i32); (ISD.BUILD_VECTOR, MVT.v16i1);
    (ISD.INSERT_VECTOR_ELT, MVT.v16f32); (ISD.INSERT_VECTOR_ELT, MVT.v16i32); (ISD.INSERT_VECTOR_ELT, MVT.v16i1);
    (ISD.EXTRACT_VECTOR_ELT, MVT.v16i1);
    (ISD.VECTOR_SHUFFLE [], MVT.v16i32); (ISD.VECTOR_SHUFFLE [], MVT.v16f32); (ISD.VECTOR_SHUFFLE [], MVT.v16i1);
    (ISD.SCALAR_TO_VECTOR, MVT.v16i32); (ISD.SCALAR_TO_VECTOR, MVT.v16f32); (ISD.SCALAR_TO_VECTOR, MVT.v16i1);
    (GlobalAddressOp, MVT.i32); (GlobalAddressOp, MVT.f32);
    (ConstantPoolOp, MVT.i32); (ConstantPoolOp, MVT.v16i32); (ConstantPoolOp, MVT.f32);
    (ISD.BlockAddress (BlockAddressOf 0), MVT.i32);
    (ISD.SELECT_CC, MVT.i32); (ISD.SELECT_CC, MVT.f32); (ISD.SELECT_CC, MVT.v16i1); (ISD.SELECT_CC, MVT.v16i32);
    (ISD.SELECT_CC, MVT.v16f32); (ISD.SELECT, MVT.v16i1);
    (ISD.FDIV, MVT.f32); (ISD.FDIV, MVT.v16f32); (ISD.FNEG, MVT.f32); (ISD.FNEG, MVT.v16f32);
    (ISD.SETCC, MVT.v16f32); (ISD.SETCC, MVT.f32); (ISD.SETCC, MVT.v16i1);
    (ISD.CTLZ_ZERO_UNDEF, MVT.i32); (ISD.CTTZ_ZERO_UNDEF, MVT.i32);
    (ISD.UINT_TO_FP, MVT.v16i1); (ISD.SINT_TO_FP, MVT.v16i1); (ISD.FP_TO_SINT, MVT.v16i1); (ISD.FP_TO_UINT, MVT.v16i1);
    (ISD.FRAMEADDR, MVT.i32); (ISD.RETURNADDR, MVT.i32); (ISD.VASTART, MVT.Other);
    (ISD.FABS, MVT.f32); (ISD.FABS, MVT.v16f32); (ISD.TRUNCATE, MVT.v16i1);
    (ISD.ZERO_EXTEND, MVT.v16i32); (ISD.SIGN_EXTEND, MVT.v16i32); (ISD.JumpTable (JumpTableNo 0), MVT.i32) ].

Definition ExpandActions : list (ISD.NodeType * MVT.t) :=
  [ (ISD.BR_CC, MVT.i32); (ISD.BR_CC, MVT.f32); (ISD.BR_CC, MVT.v16i32); (ISD.BR_CC, MVT.v16f32); (ISD.BR_CC, MVT.v16i1);
    (ISD.BRCOND, MVT.i32); (ISD.BRCOND, MVT.f32); (ISD.SIGN_EXTEND_INREG, MVT.i1); (ISD.CTPOP, MVT.i32);
    (ISD.SELECT, MVT.i32); (ISD.SELECT, MVT.v16i32); (ISD.SELECT, MVT.f32); (ISD.SELECT, MVT.v16f32);
    (ISD.ROTL, MVT.i32); (ISD.ROTR, MVT.i32); (ISD.ROTL, MVT.v16i32); (ISD.ROTR, MVT.v16i32);
    (ISD.UDIVREM, MVT.i32); (ISD.SDIVREM, MVT.i32); (ISD.UMUL_LOHI, MVT.i32); (ISD.SMUL_LOHI, MVT.i32);
    (ISD.FP_TO_UINT, MVT.i32); (ISD.FP_TO_UINT, MVT.v16i32); (ISD.DYNAMIC_STACKALLOC, MVT.i32);
    (ISD.STACKSAVE, MVT.Other); (ISD.STACKRESTORE, MVT.Other); (ISD.BSWAP, MVT.i32);
    (ISD.ADDC, MVT.i32); (ISD.ADDE, MVT.i32); (ISD.SUBC, MVT.i32); (ISD.SUBE, MVT.i32);
    (ISD.SRA_PARTS, MVT.i32); (ISD.SRL_PARTS, MVT.i32); (ISD.SHL_PARTS, MVT.i32);
    (ISD.VAARG, MVT.Other); (ISD.VACOPY, MVT.Other); (ISD.VAEND, MVT.Other);
    (ISD.ATOMIC_LOAD, MVT.i32); (ISD.ATOMIC_LOAD, MVT.i64); (ISD.ATOMIC_STORE, MVT.i32); (ISD.ATOMIC_STORE, MVT.i64);
    (ISD.FCOPYSIGN, MVT.f32); (ISD.FFLOOR, MVT.f32); (ISD.FFLOOR, MVT.v16f32); (ISD.BR_JT, MVT.Other);
    (ISD.UINT_TO_FP, MVT.i32); (ISD.UINT_TO_FP, MVT.v16i32); (ISD.FTRUNC, MVT.v16f32) ].

Definition IntLibCalls : list ISD.NodeType := [ISD.UDIV; ISD.UREM; ISD.SDIV; ISD.SREM].
Definition FloatLibCalls : list ISD.NodeType := [ISD.FSQRT; ISD.FSIN; ISD.FCOS; ISD.FREM; ISD.FSINCOS].

Definition action_table : Type := list ((ISD.NodeType * MVT.t) * LegalizeAction).

(** [setOperationAction]: a later setting wins. *)
Definition setOperationAction (t : action_table) (op : ISD.NodeType) (VT : MVT.t) (a : LegalizeAction) : action_table :=
  ((op, VT), a) :: t.

Definition setActions (t : action_table) (l : list (ISD.NodeType * MVT.t)) (a : LegalizeAction) : action_table :=
  foldl (λ t '(op, VT), setOperationAction t op VT a) t l.

(** The settings of the constructor, in its order. *)
Definition NyuziActions : action_table :=
  let t := setActions [] CustomActions Custom in
  let t := setActions t ExpandActions Expand in
  let t := setOperationAction t ISD.TRAP MVT.Other Legal in
  let t := foldl (λ t op, setOperationAction (setOperationAction t op MVT.i32 Expand) op MVT.v16i32 Expand) t IntLibCalls in
  foldl (λ t op, setOperationAction (setOperationAction t op MVT.f32 Expand) op MVT.v16f32 Expand) t FloatLibCalls.

(** The action of an operation on a type; what is never set is legal. *)
Definition getOperationAction (op : ISD.NodeType) (VT : MVT.t) : LegalizeAction :=
  match list_find (λ e, e.1 = (opcode_of op, VT)) NyuziActions with
  | Some (_, (_, a)) => a
  | None => Legal
  end.

(** ** The function being lowered *)
Record FunctionState : Type := mkFunctionState {
  FrameAddressIsTaken : bool;
  ReturnAddressIsTaken : bool;
  LiveIns : list (Nyuzi.reg * nat);
  NextVirtReg : nat;
  VarArgsFrameIndex : Z;
  SRetReturnReg : option nat;
  FixedObjects : list (Z * Z)
}.

(** [MF.addLiveIn(PReg, RC)]: the virtual register of a live-in, made once. *)
Definition addLiveIn (PReg : Nyuzi.reg) (st : FunctionState) : nat * FunctionState :=
  match list_find (λ e, e.1 = PReg) (LiveIns st) with
  | Some (_, (_, v)) => (v, st)
  | None =>
      let v := NextVirtReg st in
      (v, mkFunctionState (FrameAddressIsTaken st) (ReturnAddressIsTaken st) (LiveIns st ++ [(PReg, v)]) (S v)
            (VarArgsFrameIndex st) (SRetReturnReg st) (FixedObjects st))
  end.

Section lowering.
(** [isPositionIndependent()] *)
Context (PIC : bool).

(** ** Addresses *)
Definition getTargetNode (N : SDValue) (Ty : MVT.t) (Flag : Nyuzi.TOF) : outcome SDValue :=
  match getOpcode N with
  | ISD.GlobalAddress a _ => Ret (getNode (ISD.TargetAddress a 0 Flag) Ty [])
  | ISD.JumpTable a => Ret (getNode (ISD.TargetAddress a 0 Flag) Ty [])
  | ISD.ConstantPool a offset => Ret (getNode (ISD.TargetAddress a offset Flag) Ty [])
  | ISD.BlockAddress a => Ret (getNode (ISD.TargetAddress a 0 Flag) Ty [])
  | _ => AssertFail "cast<Ty>() argument of incompatible type!"
  end.

Definition GPReg : SDValue := getNode (ISD.Register Nyuzi.GP_REG) MVT.i32 [].

Definition getAddr (N : SDValue) : outcome SDValue :=
  let Ty := MVT.i32 in
  if PIC then
    getTargetNode N Ty Nyuzi.MO_GOT ≫= λ T,
    let Wrapper := getNode ISD.GOT_ADDR Ty [GPReg; T] in
    Ret (getLoad Ty Wrapper)
  else
    getTargetNode N Ty Nyuzi.MO_ABS_HI ≫= λ Hi,
    getTargetNode N Ty Nyuzi.MO_ABS_LO ≫= λ Lo,
    let MoveHi := getNode ISD.MOVEHI MVT.i32 [Hi] in
    Ret (getNode ISD.ORLO MVT.i32 [MoveHi; Lo]).

Definition LowerGlobalAddress (Op : SDValue) : outcome (option SDValue) := getAddr Op ≫= λ N, Ret (Some N).
Definition LowerJumpTable (Op : SDValue) : outcome (option SDValue) := getAddr Op ≫= λ N, Ret (Some N).
Definition LowerConstantPool (Op : SDValue) : outcome (option SDValue) := getAddr Op ≫= λ N, Ret (Some N).
Definition LowerBlockAddress (Op : SDValue) : outcome (option SDValue) := getAddr Op ≫= λ N, Ret (Some N).

(** [isOffsetFoldingLegal]: no offset is folded into a global address. *)
Definition isOffsetFoldingLegal (GA : SDValue) : bool := false.

(** ** Frames *)
Definition LowerVASTART (Op : SDValue) (st : FunctionState) : outcome (option SDValue) :=
  let FI := getNode (ISD.FrameIndex (VarArgsFrameIndex st)) MVT.i32 [] in
  SDgetOperand Op 2 ≫= λ SV,
  cassert (bool_decide (getOpcode SV = ISD.SRCVALUE)) "cast<Ty>() argument of incompatible type!" ≫= λ _,
  SDgetOperand Op 0 ≫= λ Chain, SDgetOperand Op 1 ≫= λ Ptr,
  Ret (Some (getNode ISD.STORE MVT.Other [Chain; FI; Ptr])).

Definition getCopyFromReg (r : Nyuzi.reg) (VT : MVT.t) : SDValue :=
  getNode (ISD.CopyFromReg r) VT [getNode (ISD.Register r) VT []].

Definition LowerFRAMEADDR (Op : SDValue) (st : FunctionState) : outcome (option SDValue * FunctionState) :=
  SDgetOperand Op 0 ≫= λ Op0, cast_Constant Op0 ≫= λ depth,
  cassert (depth =? 0) "Frame address can only be determined for current frame." ≫= λ _,
  let st := mkFunctionState true (ReturnAddressIsTaken st) (LiveIns st) (NextVirtReg st) (VarArgsFrameIndex st)
              (SRetReturnReg st) (FixedObjects st) in
  Ret (Some (getCopyFromReg Nyuzi.FP_REG (getValueType Op)), st).

Definition LowerRETURNADDR (Op : SDValue) (st : FunctionState) : outcome (option SDValue * FunctionState) :=
  SDgetOperand Op 0 ≫= λ Op0,
  match dyn_cast_Constant Op0 with
  | None => Ret (None, st)
  | Some depth =>
      cassert (depth =? 0) "Return address can be determined only for current frame." ≫= λ _,
      let st := mkFunctionState (FrameAddressIsTaken st) true (LiveIns st) (NextVirtReg st) (VarArgsFrameIndex st)
                  (SRetReturnReg st) (FixedObjects st) in
      let '(Reg, st) := addLiveIn Nyuzi.RA_REG st in
      Ret (Some (getCopyFromReg (Nyuzi.VirtReg Reg) (getValueType Op)), st)
  end.

(** ** LowerOperation *)

(** The case of the switch for an opcode. *)
Definition handler : Type := SDValue → FunctionState → outcome (option SDValue * FunctionState).

Definition pure (f : SDValue → outcome (option SDValue)) : handler := λ Op st, f Op ≫= λ r, Ret (r, st).

Definition dispatch (op : ISD.NodeType) : option handler :=
  match op with
  | ISD.GlobalAddress _ _ => Some (pure LowerGlobalAddress)
  | ISD.BUILD_VECTOR => Some (pure LowerBUILD_VECTOR)
  | ISD.VECTOR_SHUFFLE _ => Some (pure LowerVECTOR_SHUFFLE)
  | ISD.INSERT_VECTOR_ELT => Some (pure LowerINSERT_VECTOR_ELT)
  | ISD.EXTRACT_VECTOR_ELT => Some (pure LowerEXTRACT_VECTOR_ELT)
  | ISD.SCALAR_TO_VECTOR => Some (pure LowerSCALAR_TO_VECTOR)
  | ISD.SELECT_CC => Some (pure LowerSELECT_CC)
  | ISD.SELECT => Some (pure LowerSELECT)
  | ISD.SETCC => Some (pure LowerSETCC)
  | ISD.ConstantPool _ _ => Some (pure LowerConstantPool)
  | ISD.FDIV => Some (pure LowerFDIV)
  | ISD.FNEG => Some (pure LowerFNEG)
  | ISD.FABS => Some (pure LowerFABS)
  | ISD.BlockAddress _ => Some (pure LowerBlockAddress)
  | ISD.VASTART => Some (λ Op st, LowerVASTART Op st ≫= λ r, Ret (r, st))
  | ISD.CTLZ_ZERO_UNDEF => Some (pure LowerCTLZ_ZERO_UNDEF)
  | ISD.CTTZ_ZERO_UNDEF => Some (pure LowerCTTZ_ZERO_UNDEF)
  | ISD.UINT_TO_FP => Some (pure LowerUINT_TO_FP)
  | ISD.SINT_TO_FP => Some (pure LowerSINT_TO_FP)
  | ISD.FRAMEADDR => Some LowerFRAMEADDR
  | ISD.RETURNADDR => Some LowerRETURNADDR
  | ISD.SIGN_EXTEND => Some (pure LowerSIGN_EXTEND)
  | ISD.ZERO_EXTEND => Some (pure LowerZERO_EXTEND)
  | ISD.TRUNCATE => Some (pure LowerTRUNCATE)
  | ISD.FP_TO_SINT | ISD.FP_TO_UINT => Some (pure LowerFP_TO_XINT)
  | ISD.JumpTable _ => Some (pure LowerJumpTable)
  | _ => None
  end.

Definition LowerOperation (Op : SDValue) (st : FunctionState) : outcome (option SDValue * FunctionState) :=
  match dispatch (getOpcode Op) with
  | Some f => f Op st
  | None => Unreachable "Should not custom lower this!"
  end.
End lowering.

(** ** Names and constraints *)
Definition getTargetNodeName (Opcode : ISD.NodeType) : option string :=
  match Opcode with
  | ISD.CALL => Some "NyuziISD::CALL"
  | ISD.RET_FLAG => Some "NyuziISD::RET_FLAG"
  | ISD.SPLAT => Some "NyuziISD::SPLAT"
  | ISD.SEL_COND_RESULT => Some "NyuziISD::SEL_COND_RESULT"
  | ISD.RECIPROCAL_EST => Some "NyuziISD::RECIPROCAL_EST"
  | ISD.MASK_TO_INT => Some "NyuziISD::MASK_TO_INT"
  | ISD.MASK_FROM_INT => Some "NyuziISD::MASK_FROM_INT"
  | ISD.MOVEHI => Some "NyuziISD::MOVEHI"
  | ISD.ORLO => Some "NyuziISD::ORLO"
  | ISD.GOT_ADDR => Some "NyuziISD::GOT_ADDR"
  | ISD.FGT => Some "NyuziISD::FGT"
  | ISD.FGE => Some "NyuziISD::FGE"
  | ISD.FLT => Some "NyuziISD::FLT"
  | ISD.FLE => Some "NyuziISD::FLE"
  | ISD.FEQ => Some "NyuziISD::FEQ"
  | ISD.FNE => Some "NyuziISD::FNE"
  | _ => None
  end%string.

(** [getConstraintType] and [getRegForInlineAsmConstraint]: the letters of the
    target; [None] asks the generic code. *)
Definition isRegisterConstraint (Constraint : string) : bool :=
  bool_decide (Constraint ∈ ["s"; "r"; "v"]%string).

Definition getRegForInlineAsmConstraint (Constraint : string) : option Nyuzi.regclass :=
  if bool_decide (Constraint ∈ ["s"; "r"]%string) then Some Nyuzi.GPR32RegClass
  else if bool_decide (Constraint = "v"%string) then Some Nyuzi.VR512RegClass else None.

(** ** Address selection *)
Definition getTargetConstant (v : Z) (VT : MVT.t) : SDValue :=
  getNode (ISD.TargetConstant (uint (MVT.lane_bits VT) v)) VT [].
Definition getTargetFrameIndex (fi : Z) (VT : MVT.t) : SDValue := getNode (ISD.TargetFrameIndex fi) VT [].
Definition dyn_cast_FrameIndex (N : SDValue) : option Z :=
  match getOpcode N with ISD.FrameIndex fi => Some fi | _ => None end.

(** [TargetGlobalAddress] or [TargetExternalSymbol] *)
Definition isTargetSymbol (N : SDValue) : bool :=
  match getOpcode N with
  | ISD.TargetAddress (GlobalSym _) _ _ | ISD.TargetAddress (ExternalSym _) _ _ => true
  | _ => false
  end.

(** [SelectADDRri]: the base and the offset; [None] when it does not match. *)
Definition SelectADDRri (Addr : SDValue) : outcome (option (SDValue * SDValue)) :=
  let plain := Ret (Some (Addr, getTargetConstant 0 MVT.i32)) in
  if bool_decide (getOpcode Addr = ISD.GOT_ADDR) then
    SDgetOperand Addr 0 ≫= λ Base, SDgetOperand Addr 1 ≫= λ Offset, Ret (Some (Base, Offset))
  else
    match dyn_cast_FrameIndex Addr with
    | Some fi => Ret (Some (getTargetFrameIndex fi MVT.i32, getTargetConstant 0 MVT.i32))
    | None =>
        if isTargetSymbol Addr then Ret None
        else if bool_decide (getOpcode Addr = ISD.ADD) then
          SDgetOperand Addr 1 ≫= λ Op1,
          match dyn_cast_Constant Op1 with
          | Some CN =>
              if isInt 14 (i32 CN) then
                SDgetOperand Addr 0 ≫= λ Op0,
                let Base := match dyn_cast_FrameIndex Op0 with
                            | Some fi => getTargetFrameIndex fi MVT.i32
                            | None => Op0
                            end in
                Ret (Some (Base, getTargetConstant CN MVT.i32))
              else plain
          | None => plain
          end
        else plain
    end.

(** [SelectInlineAsmMemoryOperand]: true when it fails; [m] is the memory
    constraint. *)
Definition SelectInlineAsmMemoryOperand (Op : SDValue) (isConstraint_m : bool) (OutOps : list SDValue)
    : outcome (bool * list SDValue) :=
  if negb isConstraint_m then Ret (true, OutOps)
  else
    SelectADDRri Op ≫= λ r,
    match r with
    | None => Ret (true, OutOps)
    | Some (Op0, Op1) => Ret (false, OutOps ++ [Op0; Op1])
    end.

(** ** Properties *)

(** The action tables and the dispatch agree: an operation is sent to
    custom lowering for some type exactly when [LowerOperation] has a case for
    it, and no later setting of the constructor takes a custom action back. *)
Theorem actions_dispatched (PIC : bool) :
  (∀ op VT, getOperationAction op VT = Custom → is_Some (dispatch PIC op)) ∧
  (∀ op, is_Some (dispatch PIC op) → ∃ VT, getOperationAction op VT = Custom) ∧
  (∀ op VT, (op, VT) ∈ CustomActions → getOperationAction op VT = Custom).
Proof.
  split; [| split].
  - intros op VT. destruct op; try (intros _; eexists; reflexivity); destruct VT; vm_compute; discriminate.
  - intros op [f Hf]. destruct op; try discriminate Hf;
      first [exists MVT.v16i32; reflexivity | exists MVT.i32; reflexivity | exists MVT.v16i1; reflexivity
            | exists MVT.f32; reflexivity | exists MVT.Other; reflexivity].
  - intros op VT H.
    assert (Hall : forallb (λ e, bool_decide (getOperationAction e.1 e.2 = Custom)) CustomActions = true)
      by (vm_compute; reflexivity).
    rewrite forallb_forall in Hall. apply list_elem_of_In in H. specialize (Hall _ H).
    apply bool_decide_eq_true in Hall. exact Hall.
Qed.

(** *** Addresses *)
Definition address_node (N : SDValue) : option (AddrOf * Z) :=
  match N with
  | Node (ISD.GlobalAddress a 0) _ [] => Some (a, 0)
  | Node (ISD.ConstantPool a off) _ [] => Some (a, off)
  | Node (ISD.JumpTable a) _ [] | Node (ISD.BlockAddress a) _ [] => Some (a, 0)
  | _ => None
  end.

(** The slot of a symbol in the global offset table holds its address. *)
Definition got_holds (E : Env) (a : AddrOf) : Prop :=
  word E (u32 (u32 (reg_lane E Nyuzi.GP_REG 0%nat) + u32 (got_offset E a))) = u32 (address E a).

Lemma hi_lo_address (v : Z) :
  0 ≤ v < 2 ^ 32 → u32 (Z.lor (u32 (Z.shiftl (u32 (Z.shiftr v 13)) 13)) (u32 (Z.land v 0x1fff))) = v.
Proof.
  intros Hv. transitivity (u32 v); [| apply uint_small, Hv]. change 0x1fff with (Z.ones 13). bitwise.
Qed.

Section addresses.
Context (E : Env) (u : oracle).

Lemma eval_absolute (a : AddrOf) (off : Z) (i : nat) :
  eval E u (getNode ISD.ORLO MVT.i32
    [getNode ISD.MOVEHI MVT.i32 [getNode (ISD.TargetAddress a off Nyuzi.MO_ABS_HI) MVT.i32 []];
     getNode (ISD.TargetAddress a off Nyuzi.MO_ABS_LO) MVT.i32 []]) i = Some (u32 (address E a + off)).
Proof.
  rewrite <- (hi_lo_address (u32 (address E a + off))) by (apply uint_range; lia). reflexivity.
Qed.

Lemma eval_got (a : AddrOf) (off : Z) :
  got_holds E a →
  eval E u (getLoad MVT.i32 (getNode ISD.GOT_ADDR MVT.i32
    [GPReg; getNode (ISD.TargetAddress a off Nyuzi.MO_GOT) MVT.i32 []])) 0%nat = Some (u32 (address E a)).
Proof.
  intros Hg. rewrite <- (uint_uint 32). apply eval_Node_Some. cbn [eval_op map].
  assert (Ha : eval E u (getNode ISD.GOT_ADDR MVT.i32
      [GPReg; getNode (ISD.TargetAddress a off Nyuzi.MO_GOT) MVT.i32 []]) 0%nat
    = Some (u32 (u32 (reg_lane E Nyuzi.GP_REG 0%nat) + u32 (got_offset E a)))) by reflexivity.
  rewrite Ha. cbn [mbind option_bind]. rewrite Z.mul_0_r, Z.add_0_r, uint_uint.
  unfold got_holds in Hg. f_equal. exact Hg.
Qed.
End addresses.

Lemma address_node_inv (E : Env) (N : SDValue) (a : AddrOf) (off : Z) :
  address_node N = Some (a, off) →
  (∀ PIC f, (∃ T, getTargetNode N MVT.i32 f = Ret T ∧ T = getNode (ISD.TargetAddress a off f) MVT.i32 [] ∧
     dispatch PIC (getOpcode N) = Some (pure (λ Op, getAddr PIC Op ≫= λ N, Ret (Some N))))) ∧
  (∀ i z, meaning E N i = Some z → z = uint (MVT.lane_bits (getValueType N)) (address E a + off)).
Proof.
  destruct N as [op vt ops]. intros H.
  destruct op; try discriminate H; [destruct offset; try discriminate H | | |]; destruct ops; try discriminate H;
    injection H as <- <-; (split; [intros PIC f; eexists; repeat split |]);
    intros i z Hz; apply meaning_Node_inv in Hz as (y & [= <-] & ->); rewrite ?Z.add_0_r; reflexivity.
Qed.

Lemma getAddr_implements (E : Env) (PIC : bool) (N : SDValue) (a : AddrOf) (off : Z) :
  address_node N = Some (a, off) → getValueType N = MVT.i32 ∨ getValueType N = MVT.f32 →
  (PIC = true → off = 0 ∧ got_holds E a) →
  ∃ N', getAddr PIC N = Ret N' ∧ implements E N N'.
Proof.
  intros HN HVT Hpic. destruct (address_node_inv E N a off HN) as [Ht Hm].
  destruct PIC; unfold getAddr.
  - destruct (Ht true Nyuzi.MO_GOT) as (T & -> & -> & _). eexists. split; [reflexivity |].
    intros u i z Hu Hi Hz. apply Hm in Hz as ->. destruct (Hpic eq_refl) as [-> Hg].
    assert (i = 0%nat) as -> by (destruct HVT as [E1 | E1]; rewrite E1 in Hi; cbn in Hi; lia).
    rewrite Z.add_0_r. destruct HVT as [-> | ->]; apply (eval_got E u a 0 Hg).
  - destruct (Ht false Nyuzi.MO_ABS_HI) as (T & -> & -> & _).
    destruct (Ht false Nyuzi.MO_ABS_LO) as (T & -> & -> & _). eexists. split; [reflexivity |].
    intros u i z Hu Hi Hz. apply Hm in Hz as ->. destruct HVT as [-> | ->]; apply (eval_absolute E u a off i).
Qed.

(** The address of a global, a jump table, a block or a constant pool entry:
    the high and the low half put together, or the slot of the global offset
    table in position independent code, are the address of the symbol. *)
Theorem getAddr_correct (E : Env) (PIC : bool) (N : SDValue) (a : AddrOf) (off : Z) :
  address_node N = Some (a, off) → getValueType N = MVT.i32 ∨ getValueType N = MVT.f32 →
  (PIC = true → off = 0 ∧ got_holds E a) →
  ∀ st, ∃ N', LowerOperation PIC N st = Ret (Some N', st) ∧ implements E N N'.
Proof.
  intros HN HVT Hpic st. destruct (getAddr_implements E PIC N a off HN HVT Hpic) as (N' & HN' & Himp).
  exists N'. split; [| exact Himp].
  destruct (address_node_inv E N a off HN) as [Ht _]. destruct (Ht PIC Nyuzi.MO_GOT) as (T & _ & _ & Hd).
  unfold LowerOperation. rewrite Hd. unfold pure. rewrite HN'. reflexivity.
Qed.

Definition initial_state : FunctionState := mkFunctionState false false [] 0 (-1) None [].

Lemma getAddr_correct_witness :
  ∃ N', LowerOperation false (Node (ISD.GlobalAddress (GlobalSym "g") 0) MVT.i32 []) initial_state
          = Ret (Some N', initial_state) ∧
        implements example_env (Node (ISD.GlobalAddress (GlobalSym "g") 0) MVT.i32 []) N'.
Proof.
  apply (getAddr_correct example_env false _ (GlobalSym "g") 0); [reflexivity | left; reflexivity | discriminate].
Defined.

(** *** Address selection *)

(** Frame indices and constants are leaves of the type of pointers; sums have
    two operands. *)
Definition leaf_ok (N : SDValue) : bool :=
  match getOpcode N with
  | ISD.FrameIndex _ | ISD.Constant _ => bool_decide (getValueType N = MVT.i32 ∧ op_values N = [])
  | _ => true
  end.

Definition address_ok (N : SDValue) : bool :=
  bool_decide (getValueType N = MVT.i32) && leaf_ok N && forallb leaf_ok (op_values N) &&
  match getOpcode N with ISD.GOT_ADDR | ISD.ADD => (length (op_values N) =? 2)%nat | _ => true end.

(** What the selected pair is. *)
Definition selected (E : Env) (u : oracle) (Addr Base Offset : SDValue) : Prop :=
  ∃ b o, eval E u Base 0%nat = Some b ∧ eval E u Offset 0%nat = Some o ∧
    eval E u Addr 0%nat = Some (u32 (b + o)) ∧
    (getOpcode Addr ≠ ISD.GOT_ADDR → ∃ v, getOpcode Offset = ISD.TargetConstant v ∧ isInt 14 (i32 v) = true).

Lemma selected_plain (E : Env) (u : oracle) (Addr : SDValue) :
  total u → getValueType Addr = MVT.i32 → selected E u Addr Addr (getTargetConstant 0 MVT.i32).
Proof.
  intros Hu Ht. destruct (eval_total E u Addr 0%nat Hu) as [b Hb]. exists b, 0. split; [exact Hb |].
  split; [reflexivity |]. split; [| intros _; exists 0; split; reflexivity].
  pose proof (uint_lane E u Addr 0 b Hb) as H. rewrite Ht in H. rewrite Z.add_0_r, Hb. f_equal. symmetry. exact H.
Qed.

Lemma selected_add (E : Env) (u : oracle) (x : SDValue) (c : Z) :
  total u → leaf_ok x = true → isInt 14 (i32 c) = true →
  selected E u (Node ISD.ADD MVT.i32 [x; Node (ISD.Constant c) MVT.i32 []])
    (match dyn_cast_FrameIndex x with Some fi => getTargetFrameIndex fi MVT.i32 | None => x end)
    (getTargetConstant c MVT.i32).
Proof.
  intros Hu Hx Hc. destruct (eval_total E u x 0%nat Hu) as [b Hb]. exists b, (u32 c).
  split; [| split; [| split]].
  - unfold leaf_ok, dyn_cast_FrameIndex in *. destruct x as [op vt ops]. cbn [getOpcode] in *.
    destruct op; try exact Hb. cbn in Hx. apply bool_decide_eq_true in Hx as [-> ->]. exact Hb.
  - unfold getTargetConstant. apply eval_Node_same; [reflexivity | apply uint_uint].
  - apply eval_Node_Some. cbn [eval_op map]. eapply lift2_Some; [exact Hb | apply eval_Node_Some; reflexivity | reflexivity].
  - intros _. exists (u32 c). split; [reflexivity |]. rewrite sint_uint. exact Hc.
Qed.

(** Address selection splits an address into a base and an offset whose sum
    is the address, the offset a symbol of the global offset table or a constant
    of at most fourteen signed bits; only the target of a call is refused. *)
Theorem SelectADDRri_correct (E : Env) (u : oracle) (Addr : SDValue) :
  total u → address_ok Addr = true →
  ∃ r, SelectADDRri Addr = Ret r ∧
    match r with
    | None => isTargetSymbol Addr = true
    | Some (Base, Offset) => selected E u Addr Base Offset
    end.
Proof.
  intros Hu Hok. unfold address_ok in Hok. rewrite !andb_true_iff in Hok. destruct Hok as [[[Ht Hl] Hops] Hlen].
  apply bool_decide_eq_true in Ht. pose proof (selected_plain E u Addr Hu Ht) as Hplain.
  destruct Addr as [op vt ops]. cbn [getValueType op_values getOpcode] in *. subst vt.
  unfold SelectADDRri. cbn [getOpcode].
  destruct (bool_decide_reflect (op = ISD.GOT_ADDR)) as [-> | Hg].
  { destruct ops as [| a [| b []]]; try discriminate Hlen. operands. eexists. split; [reflexivity |].
    destruct (eval_total E u a 0%nat Hu) as [x Hx], (eval_total E u b 0%nat Hu) as [y Hy].
    exists x, y. split; [exact Hx |]. split; [exact Hy |]. split; [| intros H; contradiction (H eq_refl)].
    apply eval_Node_Some. cbn [eval_op map]. eapply lift2_Some; [exact Hx | exact Hy | reflexivity]. }
  destruct (dyn_cast_FrameIndex (Node op MVT.i32 ops)) as [fi |] eqn:Hfi.
  { unfold dyn_cast_FrameIndex in Hfi. cbn [getOpcode] in Hfi. destruct op; try discriminate Hfi. injection Hfi as ->.
    unfold leaf_ok in Hl. cbn in Hl. apply bool_decide_eq_true in Hl as [_ ->].
    eexists. split; [reflexivity |]. exact Hplain. }
  destruct (isTargetSymbol _) eqn:Hs; [eexists; split; [reflexivity | reflexivity] |].
  destruct (bool_decide_reflect (op = ISD.ADD)) as [-> | Ha]; [| eexists; split; [reflexivity | exact Hplain]].
  destruct ops as [| x [| c []]]; try discriminate Hlen. operands.
  destruct (dyn_cast_Constant c) as [CN |] eqn:Hc; [| eexists; split; [reflexivity | exact Hplain]].
  destruct (isInt 14 (i32 CN)) eqn:Hi; [| eexists; split; [reflexivity | exact Hplain]].
  operands. eexists. split; [reflexivity |]. cbn in Hops. rewrite !andb_true_iff in Hops. destruct Hops as (Hx & Hcl & _).
  destruct c as [op vt ops]. unfold dyn_cast_Constant in Hc. cbn [getOpcode] in Hc. destruct op; try discriminate Hc.
  injection Hc as ->. unfold leaf_ok in Hcl. cbn in Hcl. apply bool_decide_eq_true in Hcl as [-> ->].
  apply selected_add; assumption.
Qed.

Lemma SelectADDRri_correct_witness :
  let Addr := Node ISD.ADD MVT.i32 [Node (ISD.FrameIndex 3) MVT.i32 []; getConstant (-8) MVT.i32] in
  SelectADDRri Addr = Ret (Some (getTargetFrameIndex 3 MVT.i32, getTargetConstant (-8) MVT.i32)) ∧
  ∃ r, SelectADDRri Addr = Ret r ∧
    match r with
    | None => isTargetSymbol Addr = true
    | Some (Base, Offset) => selected example_env (λ _ _, Some 0) Addr Base Offset
    end.
Proof.
  split; [vm_compute; reflexivity |]. apply SelectADDRri_correct; [intros N i; eauto | vm_compute; reflexivity].
Defined.

(** *** The whole dispatch *)

(** The nodes custom lowering gets, with what the nodes of a legal DAG satisfy
    and the conditions of the comparisons and conversions. *)
Inductive lowerable (E : Env) (PIC : bool) : SDValue → Prop :=
  | L_BUILD_VECTOR VT ops : VT = MVT.v16i1 ∨ word_vector VT → length ops = 16%nat →
      lowerable E PIC (Node ISD.BUILD_VECTOR VT ops)
  | L_VECTOR_SHUFFLE VT a b mask : VT = MVT.v16i1 ∨ word_vector VT → getValueType a = VT → getValueType b = VT →
      length mask = 16%nat → getOpcode a ≠ ISD.SCALAR_TO_VECTOR ∨ op_values a ≠ [] → insert_index_ok a = true →
      placed E (shuffle_indices mask) → lowerable E PIC (Node (ISD.VECTOR_SHUFFLE mask) VT [a; b])
  | L_INSERT VT a b c : VT = MVT.v16i1 ∨ word_vector VT → lowerable E PIC (Node ISD.INSERT_VECTOR_ELT VT [a; b; c])
  | L_EXTRACT a c : lowerable E PIC (Node ISD.EXTRACT_VECTOR_ELT MVT.i32 [a; c])
  | L_SCALAR VT a : VT = MVT.v16i1 ∨ word_vector VT → lowerable E PIC (Node ISD.SCALAR_TO_VECTOR VT [a])
  | L_SELECT_CC VT cc a b t f : getValueType a = MVT.i32 ∨ getValueType a = MVT.f32 →
      lowerable E PIC (Node ISD.SELECT_CC VT [a; b; t; f; condcode cc])
  | L_SELECT VT c t f : getValueType c = MVT.i32 → lowerable E PIC (Node ISD.SELECT VT [c; t; f])
  | L_SETCC VT cc a b : getValueType a = VT → getValueType b = VT → VT = MVT.v16i1 ∨ VT = MVT.v16i32 ∨ float_type VT →
      (float_type VT → float_condcode cc = true ∧ second_ordered E cc a b) →
      lowerable E PIC (Node ISD.SETCC (getSetCCResultType VT) [a; b; condcode cc])
  | L_address N a off : address_node N = Some (a, off) → getValueType N = MVT.i32 ∨ getValueType N = MVT.f32 →
      (PIC = true → off = 0 ∧ got_holds E a) → lowerable E PIC N
  | L_FNEG VT a : float_type VT → getValueType a = VT → lowerable E PIC (Node ISD.FNEG VT [a])
  | L_FABS VT a : float_type VT → getValueType a = VT → lowerable E PIC (Node ISD.FABS VT [a])
  | L_CTLZ VT a : lowerable E PIC (Node ISD.CTLZ_ZERO_UNDEF VT [a])
  | L_CTTZ VT a : lowerable E PIC (Node ISD.CTTZ_ZERO_UNDEF VT [a])
  | L_UINT_TO_FP a : getValueType a = MVT.v16i1 → lowerable E PIC (Node ISD.UINT_TO_FP MVT.v16f32 [a])
  | L_SINT_TO_FP a : getValueType a = MVT.v16i1 → lowerable E PIC (Node ISD.SINT_TO_FP MVT.v16f32 [a])
  | L_SIGN_EXTEND a : getValueType a = MVT.v16i1 → lowerable E PIC (Node ISD.SIGN_EXTEND MVT.v16i32 [a])
  | L_ZERO_EXTEND a : getValueType a = MVT.v16i1 → lowerable E PIC (Node ISD.ZERO_EXTEND MVT.v16i32 [a])
  | L_TRUNCATE a : getValueType a = MVT.v16i32 → lowerable E PIC (Node ISD.TRUNCATE MVT.v16i1 [a])
  | L_FP_TO_XINT op a : op = ISD.FP_TO_UINT ∨ op = ISD.FP_TO_SINT → getValueType a = MVT.v16f32 →
      (∀ i x, meaning E a i = Some x → no_fraction x) → lowerable E PIC (Node op MVT.v16i1 [a]).

(** A case that only builds a node. *)
Lemma lowered_pure (E : Env) (PIC : bool) (Op : SDValue) (st : FunctionState) (f : SDValue → outcome (option SDValue)) :
  dispatch PIC (getOpcode Op) = Some (pure f) →
  (∃ N, f Op = Ret (Some N)) → (∀ N, f Op = Ret (Some N) → implements E Op N) →
  ∃ r, LowerOperation PIC Op st = Ret (r, st) ∧ from_option (implements E Op) (getOpcode Op = ISD.BUILD_VECTOR) r.
Proof.
  intros Hd [N HN] Hi. exists (Some N). split; [| exact (Hi N HN)].
  unfold LowerOperation. rewrite Hd. unfold pure. rewrite HN. reflexivity.
Qed.

(** C34. Custom lowering refines the DAG: the node [LowerOperation] returns for a
    [lowerable] node computes every lane that node defines, whatever the undefined
    lanes hold; only a vector built of different elements is given back to be
    expanded.  The other operations it handles, [FDIV], [VASTART], [FRAMEADDR] and
    [RETURNADDR], are not [lowerable]; nor are the nodes the lowering is wrong for:
    [SETO] and [SETUO] of operands of which only the second is a NaN, a conversion of
    fractions to a mask, a shuffle of an insertion at a variable index. *)
Theorem LowerOperation_refines (E : Env) (PIC : bool) (Op : SDValue) (st : FunctionState) :
  lowerable E PIC Op →
  ∃ r, LowerOperation PIC Op st = Ret (r, st) ∧ from_option (implements E Op) (getOpcode Op = ISD.BUILD_VECTOR) r.
Proof.
  intros H. destruct H as [VT ops HVT Hl | VT a b mask HVT Ha Hb Hl Hsc Hok Hp | VT a b c HVT | a c | VT a HVT
    | VT cc a b t f Ha | VT c t f Hc | VT cc a b Ha Hb HVT Hcc | N a off HN HVT Hpic | VT a HVT Ha | VT a HVT Ha
    | VT a | VT a | a Ha | a Ha | a Ha | a Ha | a Ha | op a Hop Ha Hx].
  { destruct (BUILD_VECTOR_returns E VT ops Hl) as (r & Hr & Hnone). exists r. split.
    - unfold LowerOperation. cbn [getOpcode dispatch]. unfold pure. rewrite Hr. reflexivity.
    - destruct r as [N |]; [exact (BUILD_VECTOR_implements E VT ops N HVT Hl Hr) | reflexivity]. }
  all: try (eapply lowered_pure; [reflexivity | | intros N HN]).
  - apply VECTOR_SHUFFLE_returns; assumption.
  - eapply VECTOR_SHUFFLE_implements; eassumption.
  - unfold LowerINSERT_VECTOR_ELT. operands. destruct (bool_decide _); eauto.
  - eapply INSERT_VECTOR_ELT_implements; eassumption.
  - unfold LowerEXTRACT_VECTOR_ELT. operands. destruct (negb _); eauto.
  - eapply EXTRACT_VECTOR_ELT_implements; eassumption.
  - unfold LowerSCALAR_TO_VECTOR. operands. destruct (bool_decide _); eauto.
  - eapply SCALAR_TO_VECTOR_implements; eassumption.
  - eexists. reflexivity.
  - eapply SELECT_CC_implements; eassumption.
  - eexists. reflexivity.
  - eapply SELECT_implements; eassumption.
  - apply (SETCC_returns (getSetCCResultType VT) VT cc a b Ha (λ H, proj1 (Hcc H)) HVT).
  - subst VT. eapply SETCC_implements; eauto. intros H. apply Hcc, H.
  - destruct (getAddr_implements E PIC N a off HN HVT Hpic) as (N' & HN' & Himp). exists (Some N').
    destruct (address_node_inv E N a off HN) as [Ht _]. destruct (Ht PIC Nyuzi.MO_GOT) as (T & _ & _ & Hd).
    split; [| exact Himp]. unfold LowerOperation. rewrite Hd. unfold pure. rewrite HN'. reflexivity.
  - eexists. reflexivity.
  - apply (FNEG_FABS_implements E VT a N HVT Ha), HN.
  - eexists. reflexivity.
  - apply (FNEG_FABS_implements E VT a N HVT Ha), HN.
  - eexists. reflexivity.
  - apply ZERO_UNDEF_implements, HN.
  - eexists. reflexivity.
  - apply ZERO_UNDEF_implements, HN.
  - unfold LowerUINT_TO_FP. operands. rewrite bool_decide_eq_true_2 by exact Ha. eexists. reflexivity.
  - apply MASK_TO_FP_implements, HN.
  - eexists. reflexivity.
  - apply MASK_TO_FP_implements; [exact Ha | exact HN].
  - eexists. reflexivity.
  - eapply LowerSIGN_EXTEND_implements; eassumption.
  - eexists. reflexivity.
  - eapply LowerZERO_EXTEND_implements; eassumption.
  - eexists. reflexivity.
  - eapply LowerTRUNCATE_implements; eassumption.
  - eapply lowered_pure; [destruct Hop as [-> | ->]; reflexivity | eexists; reflexivity | intros N HN].
    eapply FP_TO_XINT_implements; eassumption.
Qed.

Lemma LowerOperation_refines_witness :
  let Op := Node ISD.FABS MVT.v16f32 [vreg 1 MVT.v16f32] in
  ∃ r, LowerOperation false Op initial_state = Ret (r, initial_state) ∧
       from_option (implements example_env Op) (getOpcode Op = ISD.BUILD_VECTOR) r.
Proof. apply LowerOperation_refines. apply L_FABS; [right; reflexivity | reflexivity]. Defined.
