(* ===== verification/NyuziCustomInserter.v ===== *)
(** * NyuziCustomInserter: pseudo instructions that become control flow

    [EmitInstrWithCustomInserter], [EmitSelectCC], [EmitAtomicBinary] and
    [EmitAtomicCmpSwap] of lib/Target/Nyuzi/NyuziISelLowering.cpp on a control
    flow graph, and the execution of the result: the instructions of one thread
    step by step, with other threads writing memory between any two of them.
    [load_sync] reserves a word, any write to it by another thread drops the
    reservation, and [store_sync] writes only when it still holds. *)
From S2P Require Import Prelude.
From S2P Require Import NyuziTarget.
From S2P Require Import NyuziMachine.
From S2P Require Import NyuziBranch.

(** ** Control flow graphs *)
Record MachineBasicBlock : Type := mkMBB { Insts : list MachineInstr; Successors : list nat }.

(** The blocks by number, their order, and the next free numbers of blocks and
    virtual registers. *)
Record CFG : Type := mkCFG {
  Blocks : gmap nat MachineBasicBlock;
  Layout : list nat;
  NextBlock : nat;
  NextReg : nat
}.

Definition getBlock (F : CFG) (b : nat) : MachineBasicBlock := default (mkMBB [] []) (Blocks F !! b).

Definition setBlock (F : CFG) (b : nat) (B : MachineBasicBlock) : CFG :=
  mkCFG (<[b := B]> (Blocks F)) (Layout F) (NextBlock F) (NextReg F).

(** [F->CreateMachineBasicBlock()], not yet in the layout. *)
Definition CreateMachineBasicBlock (F : CFG) : nat * CFG :=
  (NextBlock F, mkCFG (<[NextBlock F := mkMBB [] []]> (Blocks F)) (Layout F) (S (NextBlock F)) (NextReg F)).

Definition createReg (F : CFG) : Nyuzi.reg * CFG :=
  (Nyuzi.VirtReg (NextReg F), mkCFG (Blocks F) (Layout F) (NextBlock F) (S (NextReg F))).

(** [It = ++BB->getIterator(); F->insert(It, b1); F->insert(It, b2) ...]: the
    new blocks follow [BB] in the order they are inserted. *)
Fixpoint insert_after (BB : nat) (new l : list nat) : list nat :=
  match l with
  | [] => []
  | b :: l' => if (b =? BB)%nat then b :: new ++ l' else b :: insert_after BB new l'
  end.

Definition insertBlocks (F : CFG) (BB : nat) (new : list nat) : CFG :=
  mkCFG (Blocks F) (insert_after BB new (Layout F)) (NextBlock F) (NextReg F).

Definition addSuccessor (F : CFG) (b s : nat) : CFG :=
  let B := getBlock F b in setBlock F b (mkMBB (Insts B) (Successors B ++ [s])).

Definition append (F : CFG) (b : nat) (MI : MachineInstr) : CFG :=
  let B := getBlock F b in setBlock F b (mkMBB (Insts B ++ [MI]) (Successors B)).

(** The uses of block [from] in a PHI node become uses of [to]: the operands from
    the third on, by twos. *)
Fixpoint replacePhiUses (from to : nat) (l : list MachineOperand) : list MachineOperand :=
  match l with
  | r :: MO :: l' => r :: (if bool_decide (MO = MO_MachineBasicBlock from) then MO_MachineBasicBlock to else MO)
                       :: replacePhiUses from to l'
  | _ => l
  end.

Definition replacePhiUse (from to : nat) (MI : MachineInstr) : MachineInstr :=
  match MIOperands MI with
  | def :: uses => mkMI (MIOpcode MI) (def :: replacePhiUses from to uses)
  | [] => MI
  end.

(** The PHI nodes at the head of a block. *)
Fixpoint updatePHIs (from to : nat) (l : list MachineInstr) : list MachineInstr :=
  match l with
  | MI :: l' => if bool_decide (MIOpcode MI = Nyuzi.PHI) then replacePhiUse from to MI :: updatePHIs from to l' else l
  | [] => []
  end.

(** [to->transferSuccessorsAndUpdatePHIs(from)] *)
Definition transferSuccessorsAndUpdatePHIs (F : CFG) (to from : nat) : CFG :=
  if (to =? from)%nat then F else
  let succs := Successors (getBlock F from) in
  let F := foldl (λ F s, let B := getBlock F s in
             setBlock F s (mkMBB (updatePHIs from to (Insts B)) (Successors B))) F succs in
  let T := getBlock F to in
  let F := setBlock F to (mkMBB (Insts T) (Successors T ++ succs)) in
  let B := getBlock F from in setBlock F from (mkMBB (Insts B) []).

(** [to->splice(to->begin(), from, std::next(MI), from->end())] and
    [MI.eraseFromParent()], [n] being the position of [MI]. *)
Definition spliceAfter (F : CFG) (to from n : nat) : CFG :=
  let B := getBlock F from in let T := getBlock F to in
  let F := setBlock F to (mkMBB (drop (S n) (Insts B) ++ Insts T) (Successors T)) in
  setBlock F from (mkMBB (take n (Insts B)) (Successors B)).

(** [MI.getOperand(i).getReg()] *)
Definition getRegOperand (MI : MachineInstr) (i : Z) : outcome Nyuzi.reg :=
  MIgetOperand MI i ≫= λ o, MOgetReg o.

(** ** EmitSelectCC *)
Definition EmitSelectCC (F : CFG) (BB n : nat) (MI : MachineInstr) : outcome (CFG * nat) :=
  let '(Copy0MBB, F) := CreateMachineBasicBlock F in
  let '(SinkMBB, F) := CreateMachineBasicBlock F in
  let F := insertBlocks F BB [Copy0MBB; SinkMBB] in
  let F := spliceAfter F SinkMBB BB n in
  let F := transferSuccessorsAndUpdatePHIs F SinkMBB BB in
  let F := addSuccessor F BB Copy0MBB in
  let F := addSuccessor F BB SinkMBB in
  getRegOperand MI 1 ≫= λ pred,
  let F := append F BB (mkMI Nyuzi.BNZ [addReg pred; MO_MachineBasicBlock SinkMBB]) in
  let F := addSuccessor F Copy0MBB SinkMBB in
  getRegOperand MI 0 ≫= λ d,
  getRegOperand MI 2 ≫= λ t,
  getRegOperand MI 3 ≫= λ f,
  let S := getBlock F SinkMBB in
  let F := setBlock F SinkMBB (mkMBB
    (mkMI Nyuzi.PHI [addDef d; addReg t; MO_MachineBasicBlock BB; addReg f; MO_MachineBasicBlock Copy0MBB] :: Insts S)
    (Successors S)) in
  Ret (F, SinkMBB).

(** ** EmitAtomicBinary *)
Definition emit_operation (F : CFG) (LoopMBB : nat) (MI : MachineInstr) (Dest Ptr : Nyuzi.reg) (NewValue : Nyuzi.reg)
    (Opcode : option Nyuzi.opcode) (InvertResult : bool) : outcome (CFG * Nyuzi.reg) :=
  match Opcode with
  | Some Opc =>
      let '(OldValue, F) := createReg F in
      let F := append F LoopMBB (mkMI Nyuzi.LOAD_SYNC [addDef OldValue; addReg Ptr; MO_Immediate 0]) in
      let F := append F LoopMBB (mkMI Nyuzi.MOVESS [addDef Dest; addReg OldValue]) in
      MIgetOperand MI 2 ≫= λ o,
      (match o with
       | MO_Register r _ _ => Ret (append F LoopMBB (mkMI Opc [addDef NewValue; addReg OldValue; addReg r]))
       | MO_Immediate v => Ret (append F LoopMBB (mkMI Opc [addDef NewValue; addReg OldValue; MO_Immediate v]))
       | _ => Unreachable "Unknown operand type"
       end) ≫= λ F,
      if InvertResult then
        let '(Inverted, F) := createReg F in
        Ret (append F LoopMBB (mkMI Nyuzi.XORSSI [addDef Inverted; addReg NewValue; MO_Immediate (-1)]), Inverted)
      else Ret (F, NewValue)
  | None =>
      let F := append F LoopMBB (mkMI Nyuzi.LOAD_SYNC [addDef Dest; addReg Ptr; MO_Immediate 0]) in
      getRegOperand MI 2 ≫= λ r,
      Ret (append F LoopMBB (mkMI Nyuzi.MOVESS [addDef NewValue; addReg r]), NewValue)
  end.

Definition EmitAtomicBinary (F : CFG) (BB n : nat) (MI : MachineInstr) (Opcode : option Nyuzi.opcode)
    (InvertResult : bool) : outcome (CFG * nat) :=
  getRegOperand MI 0 ≫= λ Dest,
  getRegOperand MI 1 ≫= λ Ptr,
  let '(Success, F) := createReg F in
  let '(NewValue, F) := createReg F in
  let '(LoopMBB, F) := CreateMachineBasicBlock F in
  let '(ExitMBB, F) := CreateMachineBasicBlock F in
  let F := insertBlocks F BB [LoopMBB; ExitMBB] in
  let F := spliceAfter F ExitMBB BB n in
  let F := transferSuccessorsAndUpdatePHIs F ExitMBB BB in
  let F := addSuccessor F BB LoopMBB in
  emit_operation F LoopMBB MI Dest Ptr NewValue Opcode InvertResult ≫= λ '(F, NewValue),
  let F := append F LoopMBB (mkMI Nyuzi.STORE_SYNC [addDef Success; addReg NewValue; addReg Ptr; MO_Immediate 0]) in
  let F := append F LoopMBB (mkMI Nyuzi.BZ [addReg Success; MO_MachineBasicBlock LoopMBB]) in
  let F := addSuccessor F LoopMBB LoopMBB in
  let F := addSuccessor F LoopMBB ExitMBB in
  Ret (F, ExitMBB).

(** ** EmitAtomicCmpSwap *)
Definition EmitAtomicCmpSwap (F : CFG) (BB n : nat) (MI : MachineInstr) : outcome (CFG * nat) :=
  getRegOperand MI 0 ≫= λ Dest,
  getRegOperand MI 1 ≫= λ Ptr,
  getRegOperand MI 2 ≫= λ OldVal,
  getRegOperand MI 3 ≫= λ NewVal,
  let '(Success, F) := createReg F in
  let '(CmpResult, F) := createReg F in
  let '(Loop1MBB, F) := CreateMachineBasicBlock F in
  let '(Loop2MBB, F) := CreateMachineBasicBlock F in
  let '(ExitMBB, F) := CreateMachineBasicBlock F in
  let F := insertBlocks F BB [Loop1MBB; Loop2MBB; ExitMBB] in
  let F := spliceAfter F ExitMBB BB n in
  let F := transferSuccessorsAndUpdatePHIs F ExitMBB BB in
  let F := addSuccessor F BB Loop1MBB in
  let F := addSuccessor F Loop1MBB ExitMBB in
  let F := addSuccessor F Loop1MBB Loop2MBB in
  let F := addSuccessor F Loop2MBB Loop1MBB in
  let F := addSuccessor F Loop2MBB ExitMBB in
  let F := append F Loop1MBB (mkMI Nyuzi.LOAD_SYNC [addDef Dest; addReg Ptr; MO_Immediate 0]) in
  let F := append F Loop1MBB (mkMI Nyuzi.SNESISS [addDef CmpResult; addReg Dest; addReg OldVal]) in
  let F := append F Loop1MBB (mkMI Nyuzi.BNZ [addReg CmpResult; MO_MachineBasicBlock ExitMBB]) in
  let F := append F Loop2MBB (mkMI Nyuzi.STORE_SYNC [addDef Success; addReg NewVal; addReg Ptr; MO_Immediate 0]) in
  let F := append F Loop2MBB (mkMI Nyuzi.BZ [addReg Success; MO_MachineBasicBlock Loop1MBB]) in
  Ret (F, ExitMBB).

(** The opcode of the operation of an atomic pseudo instruction, [None] for the
    swap, and whether its result is inverted. *)
Definition atomic_operation (opc : Nyuzi.opcode) : option (option Nyuzi.opcode * bool) :=
  match opc with
  | Nyuzi.ATOMIC_LOAD_ADDR => Some (Some Nyuzi.ADDISSS, false)
  | Nyuzi.ATOMIC_LOAD_ADDI => Some (Some Nyuzi.ADDISSI, false)
  | Nyuzi.ATOMIC_LOAD_SUBR => Some (Some Nyuzi.SUBISSS, false)
  | Nyuzi.ATOMIC_LOAD_NANDR => Some (Some Nyuzi.ANDSSS, true)
  | Nyuzi.ATOMIC_LOAD_SUBI => Some (Some Nyuzi.SUBISSI, false)
  | Nyuzi.ATOMIC_LOAD_ANDR => Some (Some Nyuzi.ANDSSS, false)
  | Nyuzi.ATOMIC_LOAD_ANDI => Some (Some Nyuzi.ANDSSI, false)
  | Nyuzi.ATOMIC_LOAD_ORR => Some (Some Nyuzi.ORSSS, false)
  | Nyuzi.ATOMIC_LOAD_ORI => Some (Some Nyuzi.ORSSI, false)
  | Nyuzi.ATOMIC_LOAD_XORR => Some (Some Nyuzi.XORSSS, false)
  | Nyuzi.ATOMIC_LOAD_XORI => Some (Some Nyuzi.XORSSI, false)
  | Nyuzi.ATOMIC_LOAD_NANDI => Some (Some Nyuzi.ANDSSI, true)
  | Nyuzi.ATOMIC_SWAP => Some (None, false)
  | _ => None
  end.

(** [EmitInstrWithCustomInserter] on the instruction at position [n] of [BB]. *)
Definition EmitInstrWithCustomInserter (F : CFG) (BB n : nat) : outcome (CFG * nat) :=
  match Insts (getBlock F BB) !! n with
  | None => UndefinedBehaviour "no such instruction"
  | Some MI =>
      match MIOpcode MI with
      | Nyuzi.SELECTI | Nyuzi.SELECTF | Nyuzi.SELECTVI | Nyuzi.SELECTVF | Nyuzi.SELECTMASK => EmitSelectCC F BB n MI
      | Nyuzi.ATOMIC_CMP_SWAP => EmitAtomicCmpSwap F BB n MI
      | opc =>
          match atomic_operation opc with
          | Some (Opcode, InvertResult) => EmitAtomicBinary F BB n MI Opcode InvertResult
          | None => Unreachable "unknown atomic operation"
          end
      end
  end.

(** ** Execution *)

(** The operations on 32-bit values. *)
Definition alu (opc : Nyuzi.opcode) (a b : Z) : option Z :=
  match opc with
  | Nyuzi.ADDISSS | Nyuzi.ADDISSI => Some (u32 (a + b))
  | Nyuzi.SUBISSS | Nyuzi.SUBISSI => Some (u32 (a - b))
  | Nyuzi.ANDSSS | Nyuzi.ANDSSI => Some (Z.land a b)
  | Nyuzi.ORSSS | Nyuzi.ORSSI => Some (Z.lor a b)
  | Nyuzi.XORSSS | Nyuzi.XORSSI => Some (Z.lxor a b)
  | Nyuzi.SNESISS => Some (if a =? b then 0 else 0xffff)
  | _ => None
  end.

Definition operand_value (st : mstate) (o : MachineOperand) : option Z :=
  match o with
  | MO_Register r _ _ => Some (regs st r)
  | MO_Immediate i => Some (u32 i)
  | _ => None
  end.

(** An instruction that neither branches nor touches memory. *)
Definition exec_alu (MI : MachineInstr) (st : mstate) : option mstate :=
  match MIOpcode MI, MIOperands MI with
  | Nyuzi.MOVESS, [MO_Register d _ _; MO_Register s _ _] => Some (set_reg d (regs st s) st)
  | opc, [MO_Register d _ _; MO_Register a _ _; o] =>
      b ← operand_value st o; v ← alu opc (regs st a) b; Some (set_reg d v st)
  | _, _ => None
  end.

Fixpoint next_in (b : nat) (l : list nat) : option nat :=
  match l with
  | x :: ((y :: _) as l') => if (x =? b)%nat then Some y else next_in b l'
  | _ => None
  end.

Definition set_both (d r : Nyuzi.reg) (st : mstate) : mstate := set_vreg d (vregs st r) (set_reg d (regs st r) st).

(** A thread in a block, with the block it came from, the instructions left,
    its registers and the memory, and the word it has reserved. *)
Record config : Type := mkConfig {
  cur : nat;
  from : nat;
  todo : list MachineInstr;
  state : mstate;
  resv : option Z
}.

(** A successful store: the address, the value it replaces and the new one. *)
Definition store_event : Type := Z * Z * Z.

Inductive step (F : CFG) : config → list store_event → config → Prop :=
  | step_alu c f MI rest st st' r :
      exec_alu MI st = Some st' →
      step F (mkConfig c f (MI :: rest) st r) [] (mkConfig c f rest st' r)
  | step_phi c f d1 d r1 r2 b1 b2 k1 k2 k3 k4 k5 rest st r :
      f = b1 ∨ f = b2 →
      step F (mkConfig c f (mkMI Nyuzi.PHI [MO_Register d d1 k1; MO_Register r1 k2 k3; MO_MachineBasicBlock b1;
                                            MO_Register r2 k4 k5; MO_MachineBasicBlock b2] :: rest) st r) []
             (mkConfig c f rest (set_both d (if (f =? b1)%nat then r1 else r2) st) r)
  | step_load_sync c f d p k1 k2 k3 k4 i rest st r :
      let a := u32 (regs st p + i) in
      step F (mkConfig c f (mkMI Nyuzi.LOAD_SYNC [MO_Register d k1 k2; MO_Register p k3 k4; MO_Immediate i] :: rest) st r) []
             (mkConfig c f rest (set_reg d (mem st a) st) (Some a))
  | step_store_sync c f s v p k1 k2 k3 k4 k5 k6 i rest st r :
      let a := u32 (regs st p + i) in
      step F (mkConfig c f (mkMI Nyuzi.STORE_SYNC [MO_Register s k1 k2; MO_Register v k3 k4; MO_Register p k5 k6;
                                                   MO_Immediate i] :: rest) st r)
             (if decide (r = Some a) then [(a, mem st a, regs st v)] else [])
             (mkConfig c f rest
                (if decide (r = Some a) then set_reg s 1 (set_mem a (regs st v) st) else set_reg s 0 st) None)
  | step_branch c f opc x k1 k2 b rest st r :
      opc = Nyuzi.BZ ∨ opc = Nyuzi.BNZ →
      step F (mkConfig c f (mkMI opc [MO_Register x k1 k2; MO_MachineBasicBlock b] :: rest) st r) []
             (if taken opc (regs st x) then mkConfig b c (Insts (getBlock F b)) st r else mkConfig c f rest st r)
  | step_fallthrough c f b st r :
      next_in c (Layout F) = Some b →
      step F (mkConfig c f [] st r) [] (mkConfig b c (Insts (getBlock F b)) st r)
  | step_others c f t st r m r' :
      (* other threads write memory; a reservation survives when its word does *)
      r' = None ∨ (r' = r ∧ ∀ a, r = Some a → m a = mem st a) →
      step F (mkConfig c f t st r) [] (mkConfig c f t (mkState (regs st) (vregs st) m) r').

(** A run up to block [stop], with the stores of the thread. *)
Inductive runs (F : CFG) (stop : nat) : config → list store_event → config → Prop :=
  | runs_refl c : runs F stop c [] c
  | runs_step c e c' es c'' : cur c ≠ stop → step F c e c' → runs F stop c' es c'' → runs F stop c (e ++ es) c''.

(** ** The code of the blocks *)
Definition code (F : CFG) (b : nat) : list MachineInstr := Insts (getBlock F b).

Lemma getBlock_setBlock (F : CFG) (b b' : nat) (B : MachineBasicBlock) :
  getBlock (setBlock F b B) b' = if (b' =? b)%nat then B else getBlock F b'.
Proof.
  unfold getBlock, setBlock. cbn [Blocks]. destruct (Nat.eqb_spec b' b) as [-> | Hne].
  - rewrite lookup_insert_eq. reflexivity.
  - rewrite lookup_insert_ne by congruence. reflexivity.
Qed.

Lemma code_append (F : CFG) (b b' : nat) (MI : MachineInstr) :
  code (append F b MI) b' = if (b' =? b)%nat then code F b' ++ [MI] else code F b'.
Proof. unfold code, append. rewrite getBlock_setBlock. destruct (Nat.eqb_spec b' b) as [-> |]; reflexivity. Qed.

Lemma code_addSuccessor (F : CFG) (b s b' : nat) : code (addSuccessor F b s) b' = code F b'.
Proof. unfold code, addSuccessor. rewrite getBlock_setBlock. destruct (Nat.eqb_spec b' b) as [-> |]; reflexivity. Qed.

Lemma code_splice (F : CFG) (to fr n b' : nat) :
  to ≠ fr → code (spliceAfter F to fr n) b' =
    if (b' =? fr)%nat then take n (code F fr) else if (b' =? to)%nat then drop (S n) (code F fr) ++ code F to else code F b'.
Proof.
  intros H. unfold code, spliceAfter. rewrite !getBlock_setBlock.
  destruct (Nat.eqb_spec b' fr) as [-> |]; [reflexivity |]. destruct (Nat.eqb_spec b' to); reflexivity.
Qed.

Lemma code_transfer (F : CFG) (to fr b' : nat) :
  b' ∉ Successors (getBlock F fr) → code (transferSuccessorsAndUpdatePHIs F to fr) b' = code F b'.
Proof.
  intros H. unfold code, transferSuccessorsAndUpdatePHIs. destruct (to =? fr)%nat; [reflexivity |]. set (succs := Successors (getBlock F fr)) in *. clearbody succs.
  set (F1 := foldl _ F succs).
  assert (H1 : getBlock F1 b' = getBlock F b').
  { subst F1. revert F. induction succs as [| s l IH]; intros F; [reflexivity |]. cbn [foldl].
    rewrite IH by (intros Hin; apply H; right; exact Hin). rewrite getBlock_setBlock.
    destruct (Nat.eqb_spec b' s) as [-> |]; [exfalso; apply H; left | reflexivity]. }
  clearbody F1. rewrite !getBlock_setBlock.
  destruct (Nat.eqb_spec b' fr) as [-> |], (Nat.eqb_spec fr to) as [-> |]; cbn [Insts];
    try destruct (Nat.eqb_spec b' to) as [-> |]; cbn [Insts]; rewrite <- ?H1; try reflexivity.
Qed.

Lemma code_insertBlocks (F : CFG) (BB b : nat) (l : list nat) : code (insertBlocks F BB l) b = code F b.
Proof. reflexivity. Qed.

Lemma succ_insertBlocks (F : CFG) (BB b : nat) (l : list nat) : getBlock (insertBlocks F BB l) b = getBlock F b.
Proof. reflexivity. Qed.

(** ** A load_sync / store_sync loop *)
Fixpoint exec_list (l : list MachineInstr) (st : mstate) : option mstate :=
  match l with
  | [] => Some st
  | MI :: l' => exec_alu MI st ≫= exec_list l'
  end.

Definition with_mem (m : Z → Z) (st : mstate) : mstate := mkState (regs st) (vregs st) m.

Lemma exec_alu_with_mem (MI : MachineInstr) (m : Z → Z) (st : mstate) :
  exec_alu MI (with_mem m st) = with_mem m <$> exec_alu MI st.
Proof.
  unfold exec_alu. destruct (MIOpcode MI); try reflexivity;
    destruct (MIOperands MI) as [| [] [| [] [| o []]]]; try reflexivity; cbn [operand_value];
    destruct o; reflexivity.
Qed.

Lemma exec_alu_mem (MI : MachineInstr) (st st' : mstate) : exec_alu MI st = Some st' → mem st' = mem st.
Proof.
  intros H. pose proof (exec_alu_with_mem MI (mem st) st) as E1.
  replace (with_mem (mem st) st) with st in E1 by (destruct st; reflexivity). rewrite H in E1.
  injection E1 as E1. rewrite E1. reflexivity.
Qed.

Lemma exec_list_with_mem (l : list MachineInstr) (m : Z → Z) (st : mstate) :
  exec_list l (with_mem m st) = with_mem m <$> exec_list l st.
Proof.
  revert st. induction l as [| MI l IH]; intros st; [reflexivity |]. cbn. rewrite exec_alu_with_mem.
  destruct (exec_alu MI st) as [st' |]; [apply IH | reflexivity].
Qed.

(** States that agree on the registers outside a list. *)
Definition agree_off (W : list Nyuzi.reg) (st0 st : mstate) : Prop := ∀ r, r ∉ W → regs st r = regs st0 r.

Lemma agree_off_set (W : list Nyuzi.reg) (st0 st : mstate) (d : Nyuzi.reg) (v : Z) :
  d ∈ W → agree_off W st0 st → agree_off W st0 (set_reg d v st).
Proof. intros Hd H r Hr. rewrite set_reg_ne by congruence. apply H, Hr. Qed.

Section llsc.
Context (F : CFG) (Loop Exit : nat) (D Dest P New Succ : Nyuzi.reg) (calc : list MachineInstr).
Context (W : list Nyuzi.reg) (st0 : mstate) (f : Z → Z).
Let a := u32 (regs st0 P).
Let tail := [mkMI Nyuzi.STORE_SYNC [addDef Succ; addReg New; addReg P; MO_Immediate 0];
             mkMI Nyuzi.BZ [addReg Succ; MO_MachineBasicBlock Loop]].
Hypothesis Hne : Loop ≠ Exit.
Hypothesis Hcode : code F Loop = mkMI Nyuzi.LOAD_SYNC [addDef D; addReg P; MO_Immediate 0] :: calc ++ tail.
Hypothesis Hnext : next_in Loop (Layout F) = Some Exit.
Hypothesis HP : P ∉ W.
Hypothesis HSucc : Succ ∈ W.
Hypothesis HSD : Succ ≠ Dest.
Hypothesis Hcalc : ∀ st v, agree_off W st0 st →
  ∃ st', exec_list calc (set_reg D v st) = Some st' ∧
    regs st' New = f v ∧ regs st' Dest = v ∧ agree_off W st0 st'.

(** The thread is inside the loop, or past it with one store done that
    replaced the value in [Dest]. *)
Inductive loop_inv : config → list store_event → Prop :=
  | I_start fr st r : agree_off W st0 st → loop_inv (mkConfig Loop fr (code F Loop) st r) []
  | I_calc fr rest st st' r v :
      (r = Some a → mem st a = v) → exec_list rest st = Some st' →
      regs st' New = f v → regs st' Dest = v → agree_off W st0 st' →
      loop_inv (mkConfig Loop fr (rest ++ tail) st r) []
  | I_retry fr st r : agree_off W st0 st → regs st Succ = 0 →
      loop_inv (mkConfig Loop fr (drop 1 tail) st r) []
  | I_stored fr st r v : agree_off W st0 st → regs st Succ = 1 → regs st Dest = v →
      loop_inv (mkConfig Loop fr (drop 1 tail) st r) [(a, v, f v)]
  | I_leave fr st r v : agree_off W st0 st → regs st Dest = v → loop_inv (mkConfig Loop fr [] st r) [(a, v, f v)]
  | I_exit fr st r v : agree_off W st0 st → regs st Dest = v →
      loop_inv (mkConfig Exit fr (code F Exit) st r) [(a, v, f v)].

Lemma addr_P (st : mstate) : agree_off W st0 st → u32 (regs st P + 0) = a.
Proof. intros H. rewrite Z.add_0_r, (H P HP). reflexivity. Qed.

Lemma loop_inv_store (fr : nat) (st : mstate) (r : option Z) (v : Z) (c' : config) (e : list store_event) :
  (r = Some a → mem st a = v) → regs st New = f v → regs st Dest = v → agree_off W st0 st →
  step F (mkConfig Loop fr tail st r) e c' → loop_inv c' ([] ++ e).
Proof.
  intros Hr Hn Hd Ha Hs. unfold tail in Hs. inversion Hs; subst; try discriminate.
  - pose proof (addr_P st Ha) as Hp. match goal with H := u32 (regs st P + 0) |- _ => subst H end. rewrite !Hp.
    cbn [app]. destruct (decide (r = Some a)) as [Hra | _].
    + rewrite (Hr Hra), Hn. apply I_stored.
      * apply agree_off_set; [exact HSucc |]. exact Ha.
      * apply set_reg_eq.
      * rewrite set_reg_ne by congruence. reflexivity.
    + apply I_retry; [apply agree_off_set; [exact HSucc | exact Ha] | apply set_reg_eq].
  - apply (I_calc fr [] _ (mkState (regs st) (vregs st) m) r' (regs st Dest)); try reflexivity; try assumption.
    intros Hra. match goal with H : r' = None ∨ _ |- _ => destruct H as [-> | [-> Hm]]; [discriminate |] end.
    cbn [mem]. rewrite (Hm a Hra). exact (Hr Hra).
Qed.

Lemma loop_inv_step (c c' : config) (es e : list store_event) :
  loop_inv c es → cur c ≠ Exit → step F c e c' → loop_inv c' (es ++ e).
Proof.
  intros Hi Hc Hs. destruct Hi as [fr st r Ha | fr rest st st' r v Hr Hx Hn Hd Ha | fr st r Ha H0 | fr st r v Ha H1 Hd
    | fr st r v Ha Hd | fr st r v Ha Hd]; [| | | | | cbn in Hc; contradiction].
  - (* load_sync, or the others *)
    rewrite Hcode in Hs. inversion Hs; subst; try discriminate.
    + rewrite app_nil_r. destruct (Hcalc st (mem st (u32 (regs st P + 0))) Ha) as (st' & Hx & Hn & Hd & Ha').
      eapply I_calc; [| exact Hx | exact Hn | exact Hd | exact Ha'].
      intros _. cbn [mem set_reg]. rewrite (addr_P st Ha). reflexivity.
    + rewrite <- Hcode. apply I_start. exact Ha.
  - destruct rest as [| MI rest].
    + cbn [app] in Hs. injection Hx as <-. exact (loop_inv_store fr st r v c' e Hr Hn Hd Ha Hs).
    + cbn [app exec_list] in *. destruct (exec_alu MI st) as [st1 |] eqn:HMI; [| discriminate].
      change (exec_list rest st1 = Some st') in Hx.
      inversion Hs; subst; try discriminate HMI.
      * match goal with H : exec_alu MI st = Some _ |- _ => rewrite H in HMI; injection HMI as -> end.
        eapply I_calc; try eassumption; [| reflexivity].
        intros Hra. erewrite exec_alu_mem by eassumption. exact (Hr Hra).
      * match goal with H : _ ∨ _ |- _ => destruct H as [-> | ->]; discriminate HMI end.
      * apply (I_calc fr (MI :: rest) _ (with_mem m st') r' (regs st' Dest)).
        -- intros Hra. match goal with H : r' = None ∨ _ |- _ => destruct H as [-> | [-> Hm]]; [discriminate |] end.
           cbn [mem]. rewrite (Hm a Hra). exact (Hr Hra).
        -- change (mkState (regs st) (vregs st) m) with (with_mem m st). rewrite exec_list_with_mem. cbn [exec_list].
           rewrite HMI. cbn. rewrite Hx. reflexivity.
        -- exact Hn.
        -- reflexivity.
        -- exact Ha.
  - cbn [drop tail] in Hs. inversion Hs; subst; try discriminate.
    + match goal with |- context [taken ?o ?v] => replace (taken o v) with true by (rewrite H0; reflexivity) end.
      apply I_start. exact Ha.
    + apply I_retry; [exact Ha | exact H0].
  - cbn [drop tail] in Hs. rewrite app_nil_r || idtac. inversion Hs; subst; try discriminate; rewrite app_nil_r.
    + match goal with |- context [taken ?o ?v] => replace (taken o v) with false by (rewrite H1; reflexivity) end.
      apply I_leave; [exact Ha | reflexivity].
    + apply I_stored; [exact Ha | exact H1 | reflexivity].
  - inversion Hs; subst; try discriminate; rewrite app_nil_r.
    + replace b with Exit by congruence. apply I_exit; [exact Ha | reflexivity].
    + apply I_leave; [exact Ha | reflexivity].
Qed.

Lemma loop_inv_runs (c c' : config) (es e : list store_event) :
  loop_inv c es → runs F Exit c e c' → loop_inv c' (es ++ e).
Proof.
  intros Hi Hr. revert es Hi. induction Hr as [c | c e1 c1 e2 c2 Hc Hs Hr IH]; intros es Hi.
  - rewrite app_nil_r. exact Hi.
  - rewrite app_assoc. apply IH. eapply loop_inv_step; eassumption.
Qed.

Lemma runs_alu (stop c fr : nat) (l t : list MachineInstr) (st st' : mstate) (r : option Z) (es : list store_event) (c' : config) :
  c ≠ stop → exec_list l st = Some st' → runs F stop (mkConfig c fr t st' r) es c' →
  runs F stop (mkConfig c fr (l ++ t) st r) es c'.
Proof.
  intros Hc. revert st. induction l as [| MI l IH]; intros st Hx Hr.
  - injection Hx as ->. exact Hr.
  - cbn [exec_list] in Hx. destruct (exec_alu MI st) as [st1 |] eqn:HMI; [| discriminate].
    change es with ([] ++ es). eapply runs_step; [exact Hc | apply step_alu; exact HMI |]. apply IH; [exact Hx | exact Hr].
Qed.

(** With no other thread in between, the first attempt succeeds. *)
Lemma loop_solo (fr : nat) (st : mstate) (r : option Z) :
  agree_off W st0 st →
  ∃ es c', runs F Exit (mkConfig Loop fr (code F Loop) st r) es c' ∧ cur c' = Exit.
Proof.
  intros Ha. rewrite Hcode. destruct (Hcalc st (mem st a) Ha) as (st' & Hx & Hn & Hd & Ha').
  assert (Hs : regs (set_reg Succ 1 (set_mem a (regs st' New) st')) Succ = 1) by apply set_reg_eq.
  eexists _, _. split.
  - eapply runs_step; [exact Hne | apply step_load_sync |].
    rewrite (addr_P st Ha). eapply runs_alu; [exact Hne | exact Hx |].
    eapply runs_step; [exact Hne | apply step_store_sync |]. rewrite (addr_P st' Ha'), !decide_True by reflexivity.
    eapply runs_step; [exact Hne | apply step_branch; left; reflexivity |].
    cbn [MIOpcode]. rewrite Hs. cbn [taken]. change (taken Nyuzi.BZ 1) with false. cbv iota.
    eapply runs_step; [exact Hne | apply step_fallthrough; exact Hnext |]. apply runs_refl.
  - reflexivity.
Qed.
End llsc.

(** ** The compare and swap loop *)
Section cmpswap.
Context (F : CFG) (Loop1 Loop2 Exit : nat) (Dest P Old New Succ Cmp : Nyuzi.reg) (st0 : mstate).
Let a := u32 (regs st0 P).
Let W := [Dest; Succ; Cmp].
Let code1 := [mkMI Nyuzi.LOAD_SYNC [addDef Dest; addReg P; MO_Immediate 0];
              mkMI Nyuzi.SNESISS [addDef Cmp; addReg Dest; addReg Old];
              mkMI Nyuzi.BNZ [addReg Cmp; MO_MachineBasicBlock Exit]].
Let code2 := [mkMI Nyuzi.STORE_SYNC [addDef Succ; addReg New; addReg P; MO_Immediate 0];
              mkMI Nyuzi.BZ [addReg Succ; MO_MachineBasicBlock Loop1]].
Hypothesis Hne1 : Loop1 ≠ Exit.
Hypothesis Hne2 : Loop2 ≠ Exit.
Hypothesis Hcode1 : code F Loop1 = code1.
Hypothesis Hcode2 : code F Loop2 = code2.
Hypothesis Hnext1 : next_in Loop1 (Layout F) = Some Loop2.
Hypothesis Hnext2 : next_in Loop2 (Layout F) = Some Exit.
Hypothesis HP : P ∉ W.
Hypothesis HOld : Old ∉ W.
Hypothesis HNew : New ∉ W.
Hypothesis HSD : Succ ≠ Dest.
Hypothesis HCD : Cmp ≠ Dest.

(** The values of a state of the loop that a store depends on. *)
Definition cs_agree (st : mstate) : Prop := agree_off W st0 st.
Definition cs_reserved (st : mstate) (r : option Z) : Prop := r = Some a → mem st a = regs st Dest.

Inductive cs_inv : config → list store_event → Prop :=
  | CS_start fr st r : cs_agree st → cs_inv (mkConfig Loop1 fr code1 st r) []
  | CS_loaded fr st r : cs_agree st → cs_reserved st r → cs_inv (mkConfig Loop1 fr (drop 1 code1) st r) []
  | CS_compared fr st r : cs_agree st → cs_reserved st r →
      regs st Cmp = (if regs st Dest =? regs st0 Old then 0 else 0xffff) →
      cs_inv (mkConfig Loop1 fr (drop 2 code1) st r) []
  | CS_equal fr st r : cs_agree st → cs_reserved st r → regs st Dest = regs st0 Old → cs_inv (mkConfig Loop1 fr [] st r) []
  | CS_store fr st r : cs_agree st → cs_reserved st r → regs st Dest = regs st0 Old →
      cs_inv (mkConfig Loop2 fr code2 st r) []
  | CS_retry fr st r : cs_agree st → regs st Succ = 0 → cs_inv (mkConfig Loop2 fr (drop 1 code2) st r) []
  | CS_stored fr st r : cs_agree st → regs st Succ = 1 → regs st Dest = regs st0 Old →
      cs_inv (mkConfig Loop2 fr (drop 1 code2) st r) [(a, regs st0 Old, regs st0 New)]
  | CS_leave fr st r : cs_agree st → regs st Dest = regs st0 Old →
      cs_inv (mkConfig Loop2 fr [] st r) [(a, regs st0 Old, regs st0 New)]
  | CS_fail fr st r : cs_agree st → regs st Dest ≠ regs st0 Old → cs_inv (mkConfig Exit fr (code F Exit) st r) []
  | CS_done fr st r : cs_agree st → regs st Dest = regs st0 Old →
      cs_inv (mkConfig Exit fr (code F Exit) st r) [(a, regs st0 Old, regs st0 New)].

Lemma cs_addr (st : mstate) : cs_agree st → u32 (regs st P + 0) = a.
Proof. intros H. rewrite Z.add_0_r, (H P HP). reflexivity. Qed.

Lemma cs_set (st : mstate) (d : Nyuzi.reg) (v : Z) : d ∈ W → cs_agree st → cs_agree (set_reg d v st).
Proof. apply agree_off_set. Qed.

Lemma cs_others (st : mstate) (r r' : option Z) (m : Z → Z) :
  r' = None ∨ (r' = r ∧ ∀ x, r = Some x → m x = mem st x) → cs_reserved st r →
  cs_reserved (mkState (regs st) (vregs st) m) r'.
Proof.
  intros [-> | [-> Hm]] Hr Hra; [discriminate |]. cbn [mem regs]. rewrite (Hm _ Hra). exact (Hr Hra).
Qed.

Lemma in_W_Dest : Dest ∈ W. Proof. left. Qed.
Lemma in_W_Succ : Succ ∈ W. Proof. right. left. Qed.
Lemma in_W_Cmp : Cmp ∈ W. Proof. right. right. left. Qed.
#[local] Hint Resolve cs_addr cs_set cs_others in_W_Dest in_W_Succ in_W_Cmp : core.

Lemma cs_step_loop1 (c c' : config) (e : list store_event) :
  cs_inv c [] → cur c = Loop1 → step F c e c' → cs_inv c' e.
Proof.
  intros Hi Hc Hs. inversion Hi; subst; cbn in Hc; try (exfalso; congruence); unfold code1 in Hs; cbn [drop] in Hs;
    inversion Hs; subst; try discriminate; try solve [econstructor; eauto].
  - apply CS_loaded; [auto |]. intros _. rewrite set_reg_eq. cbn. rewrite <- (cs_addr st) by assumption. reflexivity.
  - match goal with H : exec_alu _ _ = Some _ |- _ => injection H as <- end.
    apply CS_compared; [auto | |].
    + intros Hra. rewrite set_reg_ne by congruence. cbn. auto.
    + rewrite set_reg_eq, set_reg_ne by congruence. rewrite <- (H Old HOld). reflexivity.
  - rewrite H1. destruct (Z.eqb_spec (regs st Dest) (regs st0 Old)).
    + change (taken Nyuzi.BNZ 0) with false. cbv iota. apply CS_equal; assumption.
    + change (taken Nyuzi.BNZ 0xffff) with true. cbv iota. apply CS_fail; assumption.
  - replace b with Loop2 by congruence. change (Insts (getBlock F Loop2)) with (code F Loop2). rewrite Hcode2.
    apply CS_store; assumption.
Qed.

Lemma cs_step_loop2 (c c' : config) (es e : list store_event) :
  cs_inv c es → cur c = Loop2 → Loop1 ≠ Loop2 → step F c e c' → cs_inv c' (es ++ e).
Proof.
  intros Hi Hc Hne Hs. inversion Hi; subst; cbn in Hc; try (exfalso; congruence); unfold code2 in Hs; cbn [drop] in Hs;
    inversion Hs; subst; try discriminate; rewrite ?app_nil_r; try solve [econstructor; eauto].
  - match goal with x := u32 (regs st P + 0) |- _ => subst x end. rewrite !(cs_addr st) by assumption. cbn [app]. destruct (decide (r = Some a)) as [Hra | _].
    + match goal with H : cs_reserved st r, H' : regs st Dest = _ |- _ => rewrite (H Hra), H' end.
      rewrite (H New HNew). apply CS_stored; [exact (cs_set st Succ 1 in_W_Succ H) | apply set_reg_eq |].
      rewrite set_reg_ne by congruence. assumption.
    + apply CS_retry; [auto | apply set_reg_eq].
  - rewrite H0. change (taken Nyuzi.BZ 0) with true. cbv iota. change (Insts (getBlock F Loop1)) with (code F Loop1).
    rewrite Hcode1. apply CS_start. assumption.
  - rewrite H0. change (taken Nyuzi.BZ 1) with false. cbv iota. apply CS_leave; assumption.
  - replace b with Exit by congruence. apply CS_done; assumption.
Qed.

Lemma cs_inv_cur (c : config) (es : list store_event) :
  cs_inv c es → cur c ≠ Exit → (cur c = Loop1 ∧ es = []) ∨ cur c = Loop2.
Proof. intros [] Hc; cbn in *; try contradiction; auto. Qed.

Lemma cs_inv_runs (c c' : config) (es e : list store_event) :
  Loop1 ≠ Loop2 → cs_inv c es → runs F Exit c e c' → cs_inv c' (es ++ e).
Proof.
  intros Hne Hi Hr. revert es Hi. induction Hr as [c | c e1 c1 e2 c2 Hc Hs Hr IH]; intros es Hi.
  - rewrite app_nil_r. exact Hi.
  - rewrite app_assoc. apply IH. destruct (cs_inv_cur c es Hi Hc) as [[Hcur ->] | Hcur].
    + exact (cs_step_loop1 c c1 e1 Hi Hcur Hs).
    + exact (cs_step_loop2 c c1 es e1 Hi Hcur Hne Hs).
Qed.

(** With no other thread in between, the first attempt decides. *)
Lemma cs_solo (fr : nat) (st : mstate) (r : option Z) :
  cs_agree st → ∃ es c', runs F Exit (mkConfig Loop1 fr (code F Loop1) st r) es c' ∧ cur c' = Exit.
Proof.
  intros Ha. rewrite Hcode1. set (v := mem st a). set (st1 := set_reg Dest v st).
  assert (Ha1 : cs_agree st1) by (apply cs_set; auto).
  set (st2 := set_reg Cmp (if v =? regs st0 Old then 0 else 0xffff) st1). assert (Ha2 : cs_agree st2) by (apply cs_set; auto).
  assert (HC : regs st2 Cmp = if v =? regs st0 Old then 0 else 0xffff) by apply set_reg_eq.
  assert (Hto2 : ∀ es c', runs F Exit (mkConfig Loop1 fr [mkMI Nyuzi.BNZ [addReg Cmp; MO_MachineBasicBlock Exit]] st2 (Some a)) es c' →
    runs F Exit (mkConfig Loop1 fr code1 st r) es c').
  { intros es c' Hr. change es with ([] ++ [] ++ es). eapply runs_step; [exact Hne1 | apply step_load_sync |].
    rewrite (cs_addr st Ha). eapply runs_step; [exact Hne1 | apply step_alu | exact Hr].
    unfold exec_alu, addDef, addReg. cbn [MIOpcode MIOperands operand_value mbind option_bind alu].
    rewrite set_reg_eq, set_reg_ne by (intros ->; exact (HOld in_W_Dest)). rewrite (Ha Old HOld). reflexivity. }
  enough (∃ es c', runs F Exit (mkConfig Loop1 fr [mkMI Nyuzi.BNZ [addReg Cmp; MO_MachineBasicBlock Exit]] st2 (Some a)) es c' ∧
    cur c' = Exit) as (es & c' & Hr & Hc') by (exists es, c'; split; [apply Hto2; exact Hr | exact Hc']).
  destruct (v =? regs st0 Old).
  - eexists _, _. split.
    + eapply runs_step; [exact Hne1 | apply step_branch; right; reflexivity |].
      rewrite HC. change (taken Nyuzi.BNZ 0) with false. cbv iota.
      eapply runs_step; [exact Hne1 | apply step_fallthrough; exact Hnext1 |].
      change (Insts (getBlock F Loop2)) with (code F Loop2). rewrite Hcode2.
      eapply runs_step; [exact Hne2 | apply step_store_sync |]. rewrite (cs_addr st2 Ha2), !decide_True by reflexivity.
      eapply runs_step; [exact Hne2 | apply step_branch; left; reflexivity |].
      rewrite set_reg_eq. change (taken Nyuzi.BZ 1) with false. cbv iota.
      eapply runs_step; [exact Hne2 | apply step_fallthrough; exact Hnext2 |]. apply runs_refl.
    + reflexivity.
  - eexists _, _. split.
    + eapply runs_step; [exact Hne1 | apply step_branch; right; reflexivity |].
      rewrite HC. change (taken Nyuzi.BNZ 0xffff) with true. cbv iota. apply runs_refl.
    + reflexivity.
Qed.
End cmpswap.

(** ** The shape of the emitted code *)

(** A block of a well-formed graph: numbers below the next free ones. *)
Record wf_at (F : CFG) (BB : nat) : Prop := {
  wf_in : BB ∈ Layout F;
  wf_nodup : NoDup (Layout F);
  wf_layout : ∀ b, b ∈ Layout F → (b < NextBlock F)%nat;
  wf_succs : ∀ s, s ∈ Successors (getBlock F BB) → (s < NextBlock F)%nat;
  wf_blocks : ∀ b, (NextBlock F ≤ b)%nat → Blocks F !! b = None
}.

Lemma next_in_insert (BB x y : nat) (new l : list nat) :
  BB ∈ l → next_in BB (insert_after BB (x :: y :: new) l) = Some x.
Proof.
  induction l as [| b l IH]; intros H; [apply elem_of_nil in H; contradiction |]. cbn [insert_after].
  destruct (Nat.eqb_spec b BB) as [-> | Hne].
  - cbn. rewrite Nat.eqb_refl. reflexivity.
  - apply elem_of_cons in H as [-> | H]; [contradiction |]. specialize (IH H).
    destruct (insert_after BB (x :: y :: new) l) as [| z l'] eqn:E1; [discriminate IH |].
    change (next_in BB (b :: z :: l')) with (if (b =? BB)%nat then Some z else next_in BB (z :: l')).
    destruct (Nat.eqb_spec b BB); [contradiction | exact IH].
Qed.

Lemma next_in_new (BB x y : nat) (pre post l : list nat) :
  BB ∈ l → x ∉ l → x ∉ pre → x ≠ BB → next_in x (insert_after BB (pre ++ x :: y :: post) l) = Some y.
Proof.
  induction l as [| b l IH]; intros H Hl Hpre Hx; [apply elem_of_nil in H; contradiction |]. cbn [insert_after].
  assert (Hgen : ∀ p, x ∉ p → next_in x (p ++ x :: y :: post ++ l) = Some y).
  { induction p as [| z p IHp]; intros Hp; [cbn; rewrite Nat.eqb_refl; reflexivity |].
    rewrite not_elem_of_cons in Hp. destruct Hp as [Hz Hp]. specialize (IHp Hp). cbn [app].
    destruct (p ++ x :: y :: post ++ l) as [| w q] eqn:E1; [discriminate IHp |].
    change (next_in x (z :: w :: q)) with (if (z =? x)%nat then Some w else next_in x (w :: q)).
    destruct (Nat.eqb_spec z x); [congruence | exact IHp]. }
  rewrite not_elem_of_cons in Hl. destruct Hl as [Hb Hl]. destruct (Nat.eqb_spec b BB) as [-> | Hne].
  - change (BB :: (pre ++ x :: y :: post) ++ l) with ((BB :: pre ++ x :: y :: post) ++ l).
    replace ((BB :: pre ++ x :: y :: post) ++ l) with ((BB :: pre) ++ x :: y :: post ++ l)
      by (cbn; rewrite <- app_assoc; reflexivity).
    apply Hgen. rewrite not_elem_of_cons. auto.
  - apply elem_of_cons in H as [-> | H]; [contradiction |]. specialize (IH H Hl Hpre Hx).
    destruct (insert_after BB (pre ++ x :: y :: post) l) as [| z l'] eqn:E1; [discriminate IH |].
    change (next_in x (b :: z :: l')) with (if (b =? x)%nat then Some z else next_in x (z :: l')).
    destruct (Nat.eqb_spec b x); [congruence | exact IH].
Qed.

Lemma code_create (F : CFG) (b : nat) :
  code (CreateMachineBasicBlock F).2 b = if (b =? NextBlock F)%nat then [] else code F b.
Proof.
  unfold code, getBlock. cbn [CreateMachineBasicBlock snd Blocks].
  destruct (Nat.eqb_spec b (NextBlock F)) as [-> |]; [rewrite lookup_insert_eq | rewrite lookup_insert_ne by congruence];
    reflexivity.
Qed.

Lemma code_beyond (F : CFG) (BB b : nat) : wf_at F BB → (NextBlock F ≤ b)%nat → code F b = [].
Proof. intros H Hb. unfold code, getBlock. rewrite (wf_blocks F BB H b Hb). reflexivity. Qed.

Lemma getBlock_create (F : CFG) (b : nat) :
  b ≠ NextBlock F → getBlock (CreateMachineBasicBlock F).2 b = getBlock F b.
Proof. intros H. unfold getBlock. cbn. rewrite lookup_insert_ne by congruence. reflexivity. Qed.

Lemma Layout_transfer (F : CFG) (to fr : nat) : Layout (transferSuccessorsAndUpdatePHIs F to fr) = Layout F.
Proof.
  unfold transferSuccessorsAndUpdatePHIs. destruct (to =? fr)%nat; [reflexivity |]. cbn [setBlock Layout]. generalize (Successors (getBlock F fr)). intros l.
  revert F. induction l as [| s l IH]; intros F; [reflexivity |]. cbn [foldl]. rewrite IH. reflexivity.
Qed.

Lemma NextReg_transfer (F : CFG) (to fr : nat) : NextReg (transferSuccessorsAndUpdatePHIs F to fr) = NextReg F.
Proof.
  unfold transferSuccessorsAndUpdatePHIs. destruct (to =? fr)%nat; [reflexivity |]. cbn [setBlock NextReg]. generalize (Successors (getBlock F fr)). intros l.
  revert F. induction l as [| s l IH]; intros F; [reflexivity |]. cbn [foldl]. rewrite IH. reflexivity.
Qed.

(** What the new blocks hold once the rest of [BB] has moved to [exit]. *)
Lemma prepared_code (F F2 : CFG) (BB n exit b : nat) (new : list nat) :
  wf_at F BB → (∀ x, (NextBlock F ≤ x)%nat → code F2 x = []) → getBlock F2 BB = getBlock F BB →
  (NextBlock F ≤ exit)%nat → (NextBlock F ≤ b)%nat →
  code (transferSuccessorsAndUpdatePHIs (spliceAfter (insertBlocks F2 BB new) exit BB n) exit BB) b =
    if (b =? exit)%nat then drop (S n) (code F BB) else [].
Proof.
  intros Hwf Hnew HBB Hexit Hb. pose proof (wf_layout F BB Hwf BB (wf_in F BB Hwf)) as HBBn.
  rewrite code_transfer.
  - rewrite code_splice by lia. rewrite !code_insertBlocks.
    destruct (Nat.eqb_spec b BB); [lia |]. rewrite (Hnew exit Hexit), (Hnew b Hb), app_nil_r.
    unfold code at 1. rewrite HBB. reflexivity.
  - unfold spliceAfter. rewrite getBlock_setBlock, Nat.eqb_refl. cbn [Successors]. rewrite succ_insertBlocks, HBB.
    intros Hin. apply (wf_succs F BB Hwf) in Hin. lia.
Qed.

Definition old_reg (F : CFG) (r : Nyuzi.reg) : Prop :=
  match r with Nyuzi.VirtReg k => (k < NextReg F)%nat | _ => True end.

(** The instructions between [load_sync] and [store_sync]. *)
Definition calc_code (Dest D New New1 : Nyuzi.reg) (o : MachineOperand) (Opcode : option Nyuzi.opcode) (inv : bool)
    : list MachineInstr :=
  match Opcode with
  | Some Opc =>
      mkMI Nyuzi.MOVESS [addDef Dest; addReg D] ::
      mkMI Opc [addDef New1; addReg D; match o with MO_Register r _ _ => addReg r | _ => o end] ::
      (if inv then [mkMI Nyuzi.XORSSI [addDef New; addReg New1; MO_Immediate (-1)]] else [])
  | None => [mkMI Nyuzi.MOVESS [addDef New; match o with MO_Register r _ _ => addReg r | _ => o end]]
  end.

(** The operand of the operation: a register, or an immediate unless it is
    a swap. *)
Definition operand_ok (F : CFG) (Dest : Nyuzi.reg) (Opcode : option Nyuzi.opcode) (o : MachineOperand) : Prop :=
  match o with
  | MO_Register r _ _ => old_reg F r ∧ r ≠ Dest
  | MO_Immediate _ => Opcode ≠ None
  | _ => False
  end.

(** The registers of the loop: [load_sync]'s, the new value's and the first
    result of the operation. *)
Definition load_reg (F : CFG) (Dest : Nyuzi.reg) (Opcode : option Nyuzi.opcode) : Nyuzi.reg :=
  match Opcode with Some _ => Nyuzi.VirtReg (2 + NextReg F) | None => Dest end.
Definition new_reg (F : CFG) (Opcode : option Nyuzi.opcode) (inv : bool) : Nyuzi.reg :=
  match Opcode with Some _ => Nyuzi.VirtReg (if inv then 3 + NextReg F else 1 + NextReg F) | None => Nyuzi.VirtReg (1 + NextReg F) end.

Lemma code_regs (F : CFG) (l : list nat) (a b x : nat) : code (mkCFG (Blocks F) l a b) x = code F x.
Proof. reflexivity. Qed.

(** Reads the code of a block through the emissions. *)
Ltac emitted :=
  repeat first [rewrite code_append | rewrite code_addSuccessor | rewrite code_regs | rewrite Nat.eqb_refl
               | match goal with H : (?a =? ?b)%nat = false |- context [(?a =? ?b)%nat] => rewrite H end].

Lemma emit_operation_code (F5 : CFG) (L N : nat) (opc : Nyuzi.opcode) (d p : Nyuzi.reg) (x1 x2 o : MachineOperand)
    (Opcode : option Nyuzi.opcode) (inv : bool) :
  NextReg F5 = (2 + N)%nat → match o with MO_Register _ _ _ => True | MO_Immediate _ => Opcode ≠ None | _ => False end →
  let D := match Opcode with Some _ => Nyuzi.VirtReg (2 + N) | None => d end in
  let New := match Opcode with Some _ => Nyuzi.VirtReg (if inv then 3 + N else 1 + N) | None => Nyuzi.VirtReg (1 + N) end in
  ∃ F6, emit_operation F5 L (mkMI opc [x1; x2; o]) d p (Nyuzi.VirtReg (1 + N)) Opcode inv = Ret (F6, New) ∧
    code F6 L = code F5 L ++ mkMI Nyuzi.LOAD_SYNC [addDef D; addReg p; MO_Immediate 0] ::
                  calc_code d D New (Nyuzi.VirtReg (1 + N)) o Opcode inv ∧
    (∀ b, (b =? L)%nat = false → code F6 b = code F5 b) ∧ Layout F6 = Layout F5.
Proof.
  intros HN Ho. cbv zeta. unfold emit_operation, createReg. rewrite HN. cbn [NextReg append setBlock].
    change (MIgetOperand (mkMI opc [x1; x2; o]) 2) with (Ret o).
  change (getRegOperand (mkMI opc [x1; x2; o]) 2) with (MOgetReg o). cbn [mbind outcome_bind].
  destruct Opcode as [Opc |], o; try solve [destruct Ho]; try solve [exfalso; exact (Ho eq_refl)];
    try destruct inv; eexists; (split; [reflexivity |]); (split; [| split; [intros b Hb | reflexivity]]);
    emitted; rewrite <- ?app_assoc; reflexivity.
Qed.

Lemma EmitAtomicBinary_shape (F : CFG) (BB n : nat) (opc : Nyuzi.opcode) (d p : Nyuzi.reg) (k1 k2 k3 k4 : bool)
    (o : MachineOperand) (Opcode : option Nyuzi.opcode) (inv : bool) :
  wf_at F BB → operand_ok F d Opcode o →
  let Loop := NextBlock F in let Exit := S (NextBlock F) in let N := NextReg F in
  let D := load_reg F d Opcode in let New := new_reg F Opcode inv in
  ∃ F', EmitAtomicBinary F BB n (mkMI opc [MO_Register d k1 k2; MO_Register p k3 k4; o]) Opcode inv = Ret (F', Exit) ∧
    code F' Loop = mkMI Nyuzi.LOAD_SYNC [addDef D; addReg p; MO_Immediate 0] ::
      calc_code d D New (Nyuzi.VirtReg (1 + N)) o Opcode inv ++
      [mkMI Nyuzi.STORE_SYNC [addDef (Nyuzi.VirtReg N); addReg New; addReg p; MO_Immediate 0];
       mkMI Nyuzi.BZ [addReg (Nyuzi.VirtReg N); MO_MachineBasicBlock Loop]] ∧
    code F' Exit = drop (S n) (code F BB) ∧
    Layout F' = insert_after BB [Loop; Exit] (Layout F).
Proof.
  intros Hwf Ho. cbv zeta.
  set (F0 := (createReg (createReg F).2).2).
  set (F2 := (CreateMachineBasicBlock (CreateMachineBasicBlock F0).2).2).
  assert (Hnew : ∀ x, (NextBlock F ≤ x)%nat → code F2 x = []).
  { intros x Hx. unfold F2. rewrite !code_create. destruct (_ =? _)%nat; [reflexivity |].
    destruct (_ =? _)%nat; [reflexivity | exact (code_beyond F BB x Hwf Hx)]. }
  pose proof (wf_layout F BB Hwf BB (wf_in F BB Hwf)) as HBB.
  assert (HB : getBlock F2 BB = getBlock F BB).
  { unfold F2. rewrite !getBlock_create by (cbn; lia). reflexivity. }
  pose proof (prepared_code F F2 BB n (S (NextBlock F)) (NextBlock F) [NextBlock F; S (NextBlock F)] Hwf Hnew HB
                ltac:(lia) ltac:(lia)) as HcL.
  pose proof (prepared_code F F2 BB n (S (NextBlock F)) (S (NextBlock F)) [NextBlock F; S (NextBlock F)] Hwf Hnew HB
                ltac:(lia) ltac:(lia)) as HcE.
  rewrite Nat.eqb_refl in HcE. destruct (Nat.eqb_spec (NextBlock F) (S (NextBlock F))) as [| _]; [lia |].
  set (F5 := transferSuccessorsAndUpdatePHIs _ _ _) in HcL, HcE.
  assert (Hlay : Layout F5 = insert_after BB [NextBlock F; S (NextBlock F)] (Layout F)) by apply Layout_transfer.
  assert (HEL : (S (NextBlock F) =? NextBlock F)%nat = false) by (apply Nat.eqb_neq; lia).
  assert (Hreg : NextReg F5 = (2 + NextReg F)%nat) by (unfold F5; rewrite NextReg_transfer; reflexivity).
  set (MI := mkMI opc [MO_Register d k1 k2; MO_Register p k3 k4; o]).
  change (EmitAtomicBinary F BB n MI Opcode inv) with
    (emit_operation (addSuccessor F5 BB (NextBlock F)) (NextBlock F) MI d p (Nyuzi.VirtReg (1 + NextReg F)) Opcode inv
     ≫= λ '(F6, NewValue),
     let L := NextBlock F in let Success := Nyuzi.VirtReg (NextReg F) in
     let F6 := append F6 L (mkMI Nyuzi.STORE_SYNC [addDef Success; addReg NewValue; addReg p; MO_Immediate 0]) in
     let F6 := append F6 L (mkMI Nyuzi.BZ [addReg Success; MO_MachineBasicBlock L]) in
     let F6 := addSuccessor F6 L L in
     let F6 := addSuccessor F6 L (S L) in
     Ret (F6, S L)).
  clearbody F5. clear Hnew HB F2 F0.
  assert (Ho' : match o with MO_Register _ _ _ => True | MO_Immediate _ => Opcode ≠ None | _ => False end)
    by (destruct o; exact Ho || exact I).
  destruct (emit_operation_code (addSuccessor F5 BB (NextBlock F)) (NextBlock F) (NextReg F) opc d p
              (MO_Register d k1 k2) (MO_Register p k3 k4) o Opcode inv Hreg Ho') as (F6 & HF6 & Hc & Hrest & Hl).
  fold MI in HF6. rewrite HF6. cbn [mbind outcome_bind]. eexists. split; [reflexivity |].
  split; [| split].
  - emitted. rewrite Hc. emitted. rewrite HcL. unfold load_reg, new_reg. cbn [app]. rewrite <- !app_assoc. reflexivity.
  - emitted. rewrite Hrest by exact HEL. emitted. exact HcE.
  - exact (eq_trans Hl Hlay).
Qed.

(** What an atomic pseudo instruction stores in place of [v], [b] being its
    operand. *)
Definition atomic_spec (opc : Nyuzi.opcode) (v b : Z) : Z :=
  match opc with
  | Nyuzi.ATOMIC_LOAD_ADDR | Nyuzi.ATOMIC_LOAD_ADDI => u32 (v + b)
  | Nyuzi.ATOMIC_LOAD_SUBR | Nyuzi.ATOMIC_LOAD_SUBI => u32 (v - b)
  | Nyuzi.ATOMIC_LOAD_ANDR | Nyuzi.ATOMIC_LOAD_ANDI => Z.land v b
  | Nyuzi.ATOMIC_LOAD_ORR | Nyuzi.ATOMIC_LOAD_ORI => Z.lor v b
  | Nyuzi.ATOMIC_LOAD_XORR | Nyuzi.ATOMIC_LOAD_XORI => Z.lxor v b
  | Nyuzi.ATOMIC_LOAD_NANDR | Nyuzi.ATOMIC_LOAD_NANDI => Z.lxor (Z.land v b) 0xffffffff
  | _ => b
  end.

Lemma atomic_operation_alu (opc Opc : Nyuzi.opcode) (inv : bool) :
  atomic_operation opc = Some (Some Opc, inv) →
  ∀ v b, ∃ x, alu Opc v b = Some x ∧ (if inv then Z.lxor x (u32 (-1)) else x) = atomic_spec opc v b ∧ Opc ≠ Nyuzi.MOVESS.
Proof.
  intros H v b. destruct opc; try discriminate H; injection H as <- <-; eexists; (split; [reflexivity |]);
    (split; [reflexivity | discriminate]).
Qed.

Definition written (F : CFG) (d : Nyuzi.reg) : list Nyuzi.reg :=
  [d; Nyuzi.VirtReg (NextReg F); Nyuzi.VirtReg (1 + NextReg F); Nyuzi.VirtReg (2 + NextReg F); Nyuzi.VirtReg (3 + NextReg F)].

Lemma old_not_written (F : CFG) (d r : Nyuzi.reg) : old_reg F r → r ≠ d → r ∉ written F d.
Proof.
  intros Ho Hd. unfold written. rewrite !not_elem_of_cons. unfold old_reg in Ho.
  repeat split; [exact Hd | intros ->; cbn in Ho; lia .. | apply not_elem_of_nil].
Qed.

Lemma old_not_fresh (F : CFG) (r : Nyuzi.reg) (k : nat) : old_reg F r → r ≠ Nyuzi.VirtReg (k + NextReg F).
Proof. intros H ->. cbn in H. lia. Qed.

(** The value of the operand of the pseudo instruction. *)
Definition rmw_operand (st : mstate) (o : MachineOperand) : Z := default 0 (operand_value st o).

Lemma exec_alu_op (Opc : Nyuzi.opcode) (d a : Nyuzi.reg) (o : MachineOperand) (st : mstate) (b v : Z) :
  Opc ≠ Nyuzi.MOVESS → operand_value st o = Some b → alu Opc (regs st a) b = Some v →
  exec_alu (mkMI Opc [addDef d; addReg a; o]) st = Some (set_reg d v st).
Proof.
  intros Hne Ho Hv. unfold exec_alu, addDef, addReg. cbn [MIOpcode MIOperands].
  destruct Opc; try discriminate Hv; try contradiction; rewrite Ho; cbn [mbind option_bind]; rewrite Hv; reflexivity.
Qed.

(** The operand in a state of the loop is the operand before it. *)
Lemma operand_kept (F : CFG) (d D : Nyuzi.reg) (Opcode : option Nyuzi.opcode) (o : MachineOperand) (st0 st : mstate) :
  operand_ok F d Opcode o → agree_off (written F d) st0 st →
  operand_value st (match o with MO_Register r _ _ => addReg r | _ => o end) = Some (rmw_operand st0 o).
Proof.
  intros Ho Ha. destruct o; try solve [destruct Ho].
  - destruct Ho as [Ho Hne]. cbn. rewrite (Ha r) by (apply old_not_written; assumption). reflexivity.
  - reflexivity.
Qed.

Lemma written_in (F : CFG) (d : Nyuzi.reg) (k : nat) : (k < 4)%nat → Nyuzi.VirtReg (k + NextReg F) ∈ written F d.
Proof. intros Hk. unfold written. do 4 (destruct k as [| k]; [repeat (left || right) |]); lia. Qed.

Lemma calc_correct (F : CFG) (opc : Nyuzi.opcode) (Opcode : option Nyuzi.opcode) (inv : bool) (d : Nyuzi.reg)
    (o : MachineOperand) (st0 st : mstate) (v : Z) :
  atomic_operation opc = Some (Opcode, inv) → old_reg F d → operand_ok F d Opcode o → agree_off (written F d) st0 st →
  let D := load_reg F d Opcode in let New := new_reg F Opcode inv in
  ∃ st', exec_list (calc_code d D New (Nyuzi.VirtReg (1 + NextReg F)) o Opcode inv) (set_reg D v st) = Some st' ∧
    regs st' New = atomic_spec opc v (rmw_operand st0 o) ∧ regs st' d = v ∧ agree_off (written F d) st0 st'.
Proof.
  intros Hop Hd Ho Ha. cbv zeta.
  assert (Hnew : ∀ k, d ≠ Nyuzi.VirtReg (k + NextReg F)) by (intros k; apply old_not_fresh; exact Hd).
  assert (Hdw : d ∈ written F d) by left.
  assert (Hmov : ∀ x y s, exec_alu (mkMI Nyuzi.MOVESS [addDef x; addReg y]) s = Some (set_reg x (regs s y) s)) by reflexivity.
  destruct Opcode as [Opc |]; cbn [load_reg new_reg calc_code exec_list].
  - set (D := Nyuzi.VirtReg (2 + NextReg F)). set (b := rmw_operand st0 o).
    destruct (atomic_operation_alu opc Opc inv Hop v b) as (x & Hx & Hspec & Hne). rewrite <- Hspec.
    rewrite Hmov, set_reg_eq. cbn [mbind option_bind].
    set (st1 := set_reg d v (set_reg D v st)).
    assert (Ha1 : agree_off (written F d) st0 st1)
      by (apply agree_off_set; [exact Hdw |]; apply agree_off_set; [apply written_in; lia | exact Ha]).
    assert (H1D : regs st1 D = v) by (unfold st1; rewrite set_reg_ne by (intros E1; exact (Hnew 2%nat (eq_sym E1))); apply set_reg_eq).
    erewrite exec_alu_op; [| exact Hne | exact (operand_kept F d D (Some Opc) o st0 st1 Ho Ha1) | rewrite H1D; exact Hx].
    cbn [mbind option_bind]. set (st2 := set_reg (Nyuzi.VirtReg (1 + NextReg F)) x st1).
    assert (Ha2 : agree_off (written F d) st0 st2) by (apply agree_off_set; [apply written_in; lia | exact Ha1]).
    assert (H2d : regs st2 d = v).
    { unfold st2, st1. rewrite set_reg_ne by apply Hnew. apply set_reg_eq. }
    destruct inv; cbn [exec_list].
    + erewrite exec_alu_op; [| discriminate | reflexivity | unfold st2 at 1; rewrite set_reg_eq; reflexivity].
      eexists. split; [reflexivity |]. split; [apply set_reg_eq |]. split; [rewrite set_reg_ne by apply Hnew; exact H2d |].
      apply agree_off_set; [apply written_in; lia | exact Ha2].
    + eexists. split; [reflexivity |]. split; [apply set_reg_eq |]. split; [exact H2d | exact Ha2].
  - assert (Hspec : opc = Nyuzi.ATOMIC_SWAP ∧ inv = false) by (destruct opc; try discriminate Hop; injection Hop as <-; auto).
    destruct Hspec as [-> ->]. destruct o; try solve [destruct Ho]; [| exfalso; exact (Ho eq_refl)].
    destruct Ho as [Ho Hne]. rewrite Hmov. cbn [mbind option_bind exec_list]. eexists. split; [reflexivity |].
    split; [| split].
    + rewrite set_reg_eq, set_reg_ne by exact Hne. rewrite (Ha r) by (apply old_not_written; assumption). reflexivity.
    + rewrite set_reg_ne by apply (Hnew 1%nat). apply set_reg_eq.
    + apply agree_off_set; [apply (written_in F d 1); lia |]. apply agree_off_set; [exact Hdw | exact Ha].
Qed.

(** A run that starts at the end of the block before the loop. *)
Lemma runs_enter (F : CFG) (stop BB L fr : nat) (st : mstate) (r : option Z) (e : list store_event) (c' : config) :
  next_in BB (Layout F) = Some L → BB ≠ stop → cur c' = stop →
  runs F stop (mkConfig BB fr [] st r) e c' →
  ∃ st1 r1, regs st1 = regs st ∧ runs F stop (mkConfig L BB (code F L) st1 r1) e c'.
Proof.
  intros Hn Hne Hc' Hr. remember (mkConfig BB fr [] st r) as c eqn:Hc. revert st r Hc Hc'.
  induction Hr as [c | c e1 c1 e2 c2 Hc Hs Hr IH]; intros st r -> Hc'; [cbn in Hc'; congruence |].
  inversion Hs; subst.
  - exists st, r. split; [reflexivity |]. replace b with L in Hr by congruence. exact Hr.
  - destruct (IH _ _ eq_refl eq_refl) as (st1 & r1 & H1 & H2). exists st1, r1. split; [exact H1 | exact H2].
Qed.

(** A register operand that is defined or used. *)
Definition regop (r : Nyuzi.reg) (k : bool * bool) : MachineOperand := MO_Register r k.1 k.2.

Lemma EmitAtomicCmpSwap_shape (F : CFG) (BB n : nat) (d p old new : Nyuzi.reg) (k1 k2 k3 k4 : bool * bool) :
  wf_at F BB →
  let L1 := NextBlock F in let L2 := S L1 in let Exit := S L2 in
  let Succ := Nyuzi.VirtReg (NextReg F) in let Cmp := Nyuzi.VirtReg (S (NextReg F)) in
  ∃ F', EmitAtomicCmpSwap F BB n (mkMI Nyuzi.ATOMIC_CMP_SWAP [regop d k1; regop p k2; regop old k3; regop new k4]) = Ret (F', Exit) ∧
    code F' L1 = [mkMI Nyuzi.LOAD_SYNC [addDef d; addReg p; MO_Immediate 0]; mkMI Nyuzi.SNESISS [addDef Cmp; addReg d; addReg old];
                  mkMI Nyuzi.BNZ [addReg Cmp; MO_MachineBasicBlock Exit]] ∧
    code F' L2 = [mkMI Nyuzi.STORE_SYNC [addDef Succ; addReg new; addReg p; MO_Immediate 0];
                  mkMI Nyuzi.BZ [addReg Succ; MO_MachineBasicBlock L1]] ∧
    code F' Exit = drop (S n) (code F BB) ∧ Layout F' = insert_after BB [L1; L2; Exit] (Layout F).
Proof.
  intros Hwf. cbv zeta.
  set (F0 := (createReg (createReg F).2).2).
  set (F2 := (CreateMachineBasicBlock (CreateMachineBasicBlock (CreateMachineBasicBlock F0).2).2).2).
  assert (Hnew : ∀ x, (NextBlock F ≤ x)%nat → code F2 x = []).
  { intros x Hx. unfold F2. rewrite !code_create. do 3 (destruct (_ =? _)%nat; [reflexivity |]). exact (code_beyond F BB x Hwf Hx). }
  pose proof (wf_layout F BB Hwf BB (wf_in F BB Hwf)) as HBB.
  assert (HB : getBlock F2 BB = getBlock F BB).
  { unfold F2. rewrite !getBlock_create by (cbn; lia). reflexivity. }
  set (L1 := NextBlock F) in *.
  assert (Hc : ∀ b, (L1 ≤ b)%nat → _)
    by (intros b Hb; exact (prepared_code F F2 BB n (S (S L1)) b [L1; S L1; S (S L1)] Hwf Hnew HB ltac:(lia) Hb)).
  set (F5 := transferSuccessorsAndUpdatePHIs _ _ _) in Hc.
  assert (Hlay : Layout F5 = insert_after BB [L1; S L1; S (S L1)] (Layout F)) by apply Layout_transfer.
  assert (E12 : (L1 =? S L1)%nat = false) by (apply Nat.eqb_neq; lia).
  assert (E21 : (S L1 =? L1)%nat = false) by (apply Nat.eqb_neq; lia).
  assert (E31 : (S (S L1) =? L1)%nat = false) by (apply Nat.eqb_neq; lia).
  assert (E32 : (S (S L1) =? S L1)%nat = false) by (apply Nat.eqb_neq; lia).
  assert (E13 : (L1 =? S (S L1))%nat = false) by (apply Nat.eqb_neq; lia).
  assert (E23 : (S L1 =? S (S L1))%nat = false) by (apply Nat.eqb_neq; lia).
  set (Succ := Nyuzi.VirtReg (NextReg F)). set (Cmp := Nyuzi.VirtReg (S (NextReg F))).
  change (EmitAtomicCmpSwap F BB n _) with
    (let F := addSuccessor F5 BB L1 in
     let F := addSuccessor F L1 (S (S L1)) in
     let F := addSuccessor F L1 (S L1) in
     let F := addSuccessor F (S L1) L1 in
     let F := addSuccessor F (S L1) (S (S L1)) in
     let F := append F L1 (mkMI Nyuzi.LOAD_SYNC [addDef d; addReg p; MO_Immediate 0]) in
     let F := append F L1 (mkMI Nyuzi.SNESISS [addDef Cmp; addReg d; addReg old]) in
     let F := append F L1 (mkMI Nyuzi.BNZ [addReg Cmp; MO_MachineBasicBlock (S (S L1))]) in
     let F := append F (S L1) (mkMI Nyuzi.STORE_SYNC [addDef Succ; addReg new; addReg p; MO_Immediate 0]) in
     Ret (append F (S L1) (mkMI Nyuzi.BZ [addReg Succ; MO_MachineBasicBlock L1]), S (S L1))).
  clearbody F5. clear Hnew HB F2 F0. cbv zeta. eexists. split; [reflexivity |].
  repeat split; [emitted; rewrite Hc by lia .. | exact Hlay]; rewrite ?E13, ?E23, ?Nat.eqb_refl; reflexivity.
Qed.

Lemma EmitSelectCC_shape (F : CFG) (BB n : nat) (opc : Nyuzi.opcode) (d p t f : Nyuzi.reg) (k1 k2 k3 k4 : bool * bool) :
  wf_at F BB →
  let Copy0 := NextBlock F in let Sink := S Copy0 in
  ∃ F', EmitSelectCC F BB n (mkMI opc [regop d k1; regop p k2; regop t k3; regop f k4]) = Ret (F', Sink) ∧
    (BB ∉ Successors (getBlock F BB) →
       code F' BB = take n (code F BB) ++ [mkMI Nyuzi.BNZ [addReg p; MO_MachineBasicBlock Sink]]) ∧
    code F' Copy0 = [] ∧
    code F' Sink = mkMI Nyuzi.PHI [addDef d; addReg t; MO_MachineBasicBlock BB; addReg f; MO_MachineBasicBlock Copy0] ::
                     drop (S n) (code F BB) ∧
    Layout F' = insert_after BB [Copy0; Sink] (Layout F).
Proof.
  intros Hwf. cbv zeta. set (F2 := (CreateMachineBasicBlock (CreateMachineBasicBlock F).2).2).
  assert (Hnew : ∀ x, (NextBlock F ≤ x)%nat → code F2 x = []).
  { intros x Hx. unfold F2. rewrite !code_create. do 2 (destruct (_ =? _)%nat; [reflexivity |]). exact (code_beyond F BB x Hwf Hx). }
  pose proof (wf_layout F BB Hwf BB (wf_in F BB Hwf)) as HBB. set (C := NextBlock F) in *.
  assert (HB : getBlock F2 BB = getBlock F BB) by (unfold F2; rewrite !getBlock_create by (cbn; lia); reflexivity).
  assert (Hc : ∀ b, (C ≤ b)%nat → _)
    by (intros b Hb; exact (prepared_code F F2 BB n (S C) b [C; S C] Hwf Hnew HB ltac:(lia) Hb)).
  assert (HcB : BB ∉ Successors (getBlock F BB) →
    code (transferSuccessorsAndUpdatePHIs (spliceAfter (insertBlocks F2 BB [C; S C]) (S C) BB n) (S C) BB) BB = take n (code F BB)).
  { intros Hns. rewrite code_transfer.
    - rewrite code_splice by lia. rewrite Nat.eqb_refl. unfold code. rewrite succ_insertBlocks, HB. reflexivity.
    - unfold spliceAfter. rewrite getBlock_setBlock, Nat.eqb_refl. cbn [Successors]. rewrite succ_insertBlocks, HB. exact Hns. }
  set (F5 := transferSuccessorsAndUpdatePHIs _ _ _) in Hc, HcB.
  assert (Hlay : Layout F5 = insert_after BB [C; S C] (Layout F)) by apply Layout_transfer.
  change (EmitSelectCC F BB n _) with
    (let F := addSuccessor (addSuccessor F5 BB C) BB (S C) in
     let F := append F BB (mkMI Nyuzi.BNZ [addReg p; MO_MachineBasicBlock (S C)]) in
     let F := addSuccessor F C (S C) in
     Ret (setBlock F (S C) (mkMBB
       (mkMI Nyuzi.PHI [addDef d; addReg t; MO_MachineBasicBlock BB; addReg f; MO_MachineBasicBlock C] :: code F (S C))
       (Successors (getBlock F (S C)))), S C)).
  clearbody F5. clear Hnew HB F2. cbv zeta. eexists. split; [reflexivity |].
  assert (E1 : (BB =? S C)%nat = false) by (apply Nat.eqb_neq; lia).
  assert (E2 : (C =? S C)%nat = false) by (apply Nat.eqb_neq; lia).
  assert (E3 : (C =? BB)%nat = false) by (apply Nat.eqb_neq; lia).
  assert (E4 : (S C =? BB)%nat = false) by (apply Nat.eqb_neq; lia).
  repeat split; [intros Hns | | | exact Hlay]; unfold code at 1; rewrite getBlock_setBlock, ?E1, ?E2, ?Nat.eqb_refl;
    cbn [Insts]; repeat match goal with |- context [Insts (getBlock ?F ?b)] => change (Insts (getBlock F b)) with (code F b) end; emitted.
  - rewrite HcB by exact Hns. reflexivity.
  - rewrite Hc, E2 by lia. reflexivity.
  - rewrite Hc, Nat.eqb_refl by lia. reflexivity.
Qed.

(** What is emitted for a read-modify-write, and what its loop computes. *)
Lemma atomic_binary_loop (F : CFG) (BB n : nat) (opc : Nyuzi.opcode) (Opcode : option Nyuzi.opcode)
    (inv : bool) (d p : Nyuzi.reg) (k1 k2 k3 k4 : bool) (o : MachineOperand) :
  wf_at F BB → atomic_operation opc = Some (Opcode, inv) →
  code F BB !! n = Some (mkMI opc [MO_Register d k1 k2; MO_Register p k3 k4; o]) →
  old_reg F d → old_reg F p → p ≠ d → operand_ok F d Opcode o →
  let L := NextBlock F in let Succ := Nyuzi.VirtReg (NextReg F) in
  let D := load_reg F d Opcode in let New := new_reg F Opcode inv in
  let calc := calc_code d D New (Nyuzi.VirtReg (1 + NextReg F)) o Opcode inv in
  ∃ F', EmitInstrWithCustomInserter F BB n = Ret (F', S L) ∧ code F' (S L) = drop (S n) (code F BB) ∧
    code F' L = mkMI Nyuzi.LOAD_SYNC [addDef D; addReg p; MO_Immediate 0] :: calc ++
      [mkMI Nyuzi.STORE_SYNC [addDef Succ; addReg New; addReg p; MO_Immediate 0];
       mkMI Nyuzi.BZ [addReg Succ; MO_MachineBasicBlock L]] ∧
    (BB < L)%nat ∧ next_in BB (Layout F') = Some L ∧ next_in L (Layout F') = Some (S L) ∧
    p ∉ written F d ∧ Succ ∈ written F d ∧ Succ ≠ d ∧
    ∀ st0 st v, agree_off (written F d) st0 st →
      ∃ st', exec_list calc (set_reg D v st) = Some st' ∧
        regs st' New = atomic_spec opc v (rmw_operand st0 o) ∧ regs st' d = v ∧ agree_off (written F d) st0 st'.
Proof.
  intros Hwf Hop HMI Hd Hp Hpd Ho. cbv zeta.
  destruct (EmitAtomicBinary_shape F BB n opc d p k1 k2 k3 k4 o Opcode inv Hwf Ho) as (F' & HF' & HL & HE & Hlay).
  pose proof (wf_layout F BB Hwf BB (wf_in F BB Hwf)) as HBB.
  exists F'. split; [| split; [exact HE | split; [exact HL | split; [exact HBB | split; [| split]]]]].
  - unfold EmitInstrWithCustomInserter. change (Insts (getBlock F BB)) with (code F BB). rewrite HMI. cbn [MIOpcode].
    clear - HF' Hop. destruct opc; try discriminate Hop; injection Hop as <- <-; exact HF'.
  - rewrite Hlay. apply next_in_insert, (wf_in F BB Hwf).
  - rewrite Hlay. apply (next_in_new BB (NextBlock F) (S (NextBlock F)) [] []);
      [apply (wf_in F BB Hwf) | intros Hin; apply (wf_layout F BB Hwf) in Hin; lia | apply not_elem_of_nil | lia].
  - split; [apply old_not_written; assumption |]. split; [apply (written_in F d 0); lia |].
    split; [intros E1; exact (old_not_fresh F d 0 Hd (eq_sym E1)) |].
    intros st0 st v Ha. exact (calc_correct F opc Opcode inv d o st0 st v Hop Hd Ho Ha).
Qed.

(** C22. An atomic read-modify-write pseudo instruction becomes a loop that is
    atomic under every interleaving with other threads: a run that leaves the
    loop has stored exactly once, at the address in the pointer register, and
    that store replaced the very value the destination register ends up with by
    the operation's result on it; no register other than the destination and the
    new virtual ones changes, the rest of the block follows, and a run nobody
    interferes with does leave the loop. *)
Theorem atomic_binary_linearizable (F : CFG) (BB n : nat) (opc : Nyuzi.opcode) (Opcode : option Nyuzi.opcode)
    (inv : bool) (d p : Nyuzi.reg) (k1 k2 k3 k4 : bool) (o : MachineOperand) :
  wf_at F BB → atomic_operation opc = Some (Opcode, inv) →
  code F BB !! n = Some (mkMI opc [MO_Register d k1 k2; MO_Register p k3 k4; o]) →
  old_reg F d → old_reg F p → p ≠ d → operand_ok F d Opcode o →
  ∃ F' Exit, EmitInstrWithCustomInserter F BB n = Ret (F', Exit) ∧ code F' Exit = drop (S n) (code F BB) ∧
    (∀ fr st r e c', runs F' Exit (mkConfig BB fr [] st r) e c' → cur c' = Exit →
      todo c' = code F' Exit ∧
      e = [(u32 (regs st p), regs (state c') d, atomic_spec opc (regs (state c') d) (rmw_operand st o))] ∧
      ∀ q, old_reg F q → q ≠ d → regs (state c') q = regs st q) ∧
    (∀ fr st r, ∃ e c', runs F' Exit (mkConfig BB fr [] st r) e c' ∧ cur c' = Exit).
Proof.
  intros Hwf Hop HMI Hd Hp Hpd Ho.
  destruct (atomic_binary_loop F BB n opc Opcode inv d p k1 k2 k3 k4 o Hwf Hop HMI Hd Hp Hpd Ho)
    as (F' & HF' & HE & HL & HBB & HnB & HnL & HpW & HSW & HSd & Hcalc).
  exists F', (S (NextBlock F)). split; [exact HF' | split; [exact HE | split]].
  - intros fr st r e c' Hr Hc'.
    destruct (runs_enter F' (S (NextBlock F)) BB (NextBlock F) fr st r e c' HnB ltac:(lia) Hc' Hr) as (st1 & r1 & Hst & Hr').
    pose proof (loop_inv_runs F' (NextBlock F) (S (NextBlock F)) (load_reg F d Opcode) d p (new_reg F Opcode inv)
      (Nyuzi.VirtReg (NextReg F)) _ (written F d) st1 (λ v, atomic_spec opc v (rmw_operand st1 o))
      HL HnL HpW HSW HSd (Hcalc st1) (mkConfig (NextBlock F) BB (code F' (NextBlock F)) st1 r1) c' [] e) as Hi.
    cbn [app] in Hi. apply Hi in Hr'; [| apply I_start; intros q _; reflexivity]. clear Hi.
    assert (Hop1 : rmw_operand st1 o = rmw_operand st o) by (destruct o; cbn; rewrite ?Hst; reflexivity).
    destruct Hr' as [| | | | | fr2 st2 r2 v Ha2 Hd2]; cbn [cur] in Hc'; try lia.
    cbn [todo state]. rewrite <- Hop1, Hd2, <- Hst. split; [reflexivity | split; [reflexivity |]].
    intros q Hq Hqd. apply Ha2, old_not_written; assumption.
  - intros fr st r.
    destruct (loop_solo F' (NextBlock F) (S (NextBlock F)) (load_reg F d Opcode) d p (new_reg F Opcode inv)
      (Nyuzi.VirtReg (NextReg F)) _ (written F d) st (λ v, atomic_spec opc v (rmw_operand st o))
      ltac:(lia) HL HnL HpW (Hcalc st) BB st r (λ q _, eq_refl)) as (es & c' & Hr & Hc').
    exists ([] ++ es), c'. split; [| exact Hc']. eapply runs_step; [cbn; lia | apply step_fallthrough; exact HnB | exact Hr].
Qed.

Definition add_block : CFG :=
  mkCFG {[0%nat := mkMBB [mkMI Nyuzi.ATOMIC_LOAD_ADDR [addDef (Nyuzi.VirtReg 2); addReg (Nyuzi.VirtReg 0); addReg (Nyuzi.VirtReg 1)];
                          mkMI Nyuzi.MOVESS [addDef (Nyuzi.VirtReg 3); addReg (Nyuzi.VirtReg 2)]] []]}
    [0%nat] 1 4.

Lemma add_block_wf : wf_at add_block 0.
Proof.
  split.
  - left.
  - apply NoDup_singleton.
  - intros b Hb. apply list_elem_of_singleton in Hb as ->. cbn. lia.
  - intros s Hs. apply elem_of_nil in Hs. contradiction.
  - intros b Hb. apply lookup_singleton_ne. cbn in Hb. lia.
Qed.

Lemma atomic_binary_linearizable_witness :
  ∃ F' Exit, EmitInstrWithCustomInserter add_block 0 0 = Ret (F', Exit) ∧ code F' Exit = drop 1 (code add_block 0) ∧
    (∀ fr st r e c', runs F' Exit (mkConfig 0 fr [] st r) e c' → cur c' = Exit →
      todo c' = code F' Exit ∧
      e = [(u32 (regs st (Nyuzi.VirtReg 0)), regs (state c') (Nyuzi.VirtReg 2),
            atomic_spec Nyuzi.ATOMIC_LOAD_ADDR (regs (state c') (Nyuzi.VirtReg 2)) (rmw_operand st (addReg (Nyuzi.VirtReg 1))))] ∧
      ∀ q, old_reg add_block q → q ≠ Nyuzi.VirtReg 2 → regs (state c') q = regs st q) ∧
    (∀ fr st r, ∃ e c', runs F' Exit (mkConfig 0 fr [] st r) e c' ∧ cur c' = Exit).
Proof.
  eapply (atomic_binary_linearizable add_block 0 0 Nyuzi.ATOMIC_LOAD_ADDR (Some Nyuzi.ADDISSS) false);
    [exact add_block_wf | reflexivity | reflexivity | cbn; lia | cbn; lia | discriminate |
     split; [cbn; lia | discriminate]].
Defined.

(** What is emitted for a compare and swap. *)
Lemma cmp_swap_loop (F : CFG) (BB n : nat) (d p old new : Nyuzi.reg) (k1 k2 k3 k4 : bool * bool) :
  wf_at F BB → code F BB !! n = Some (mkMI Nyuzi.ATOMIC_CMP_SWAP [regop d k1; regop p k2; regop old k3; regop new k4]) →
  (∀ r, r ∈ [d; p; old; new] → old_reg F r) → d ∉ [p; old; new] →
  let L1 := NextBlock F in let L2 := S L1 in let Exit := S L2 in
  let Succ := Nyuzi.VirtReg (NextReg F) in let Cmp := Nyuzi.VirtReg (S (NextReg F)) in let W := [d; Succ; Cmp] in
  ∃ F', EmitInstrWithCustomInserter F BB n = Ret (F', Exit) ∧ code F' Exit = drop (S n) (code F BB) ∧
    code F' L1 = [mkMI Nyuzi.LOAD_SYNC [addDef d; addReg p; MO_Immediate 0]; mkMI Nyuzi.SNESISS [addDef Cmp; addReg d; addReg old];
                  mkMI Nyuzi.BNZ [addReg Cmp; MO_MachineBasicBlock Exit]] ∧
    code F' L2 = [mkMI Nyuzi.STORE_SYNC [addDef Succ; addReg new; addReg p; MO_Immediate 0];
                  mkMI Nyuzi.BZ [addReg Succ; MO_MachineBasicBlock L1]] ∧
    (BB < L1)%nat ∧ next_in BB (Layout F') = Some L1 ∧ next_in L1 (Layout F') = Some L2 ∧ next_in L2 (Layout F') = Some Exit ∧
    p ∉ W ∧ old ∉ W ∧ new ∉ W ∧ Succ ≠ d ∧ Cmp ≠ d ∧ ∀ q, old_reg F q → q ≠ d → q ∉ W.
Proof.
  intros Hwf HMI Hold Hd. cbv zeta.
  destruct (EmitAtomicCmpSwap_shape F BB n d p old new k1 k2 k3 k4 Hwf) as (F' & HF' & HL1 & HL2 & HE & Hlay).
  pose proof (wf_layout F BB Hwf BB (wf_in F BB Hwf)) as HBB. set (L1 := NextBlock F) in *.
  assert (Hfresh : ∀ b, (L1 ≤ b)%nat → b ∉ Layout F) by (intros b Hb Hin; apply (wf_layout F BB Hwf) in Hin; lia).
  assert (HW : ∀ q, old_reg F q → q ≠ d → q ∉ [d; Nyuzi.VirtReg (NextReg F); Nyuzi.VirtReg (S (NextReg F))]).
  { intros q Hq Hqd. rewrite !not_elem_of_cons. repeat split; [exact Hqd | | | apply not_elem_of_nil];
      intros ->; cbn in Hq; lia. }
  rewrite !not_elem_of_cons in Hd. destruct Hd as (Hdp & Hdo & Hdn & _).
  assert (Hod : old_reg F d) by (apply Hold; left).
  exists F'. split; [| repeat (split; [assumption |])].
  - unfold EmitInstrWithCustomInserter. change (Insts (getBlock F BB)) with (code F BB). rewrite HMI. exact HF'.
  - split; [rewrite Hlay; apply next_in_insert, (wf_in F BB Hwf) |]. split.
    { rewrite Hlay. apply (next_in_new BB L1 (S L1) [] [S (S L1)]);
        [apply (wf_in F BB Hwf) | apply Hfresh; lia | apply not_elem_of_nil | lia]. }
    split.
    { rewrite Hlay. apply (next_in_new BB (S L1) (S (S L1)) [L1] []);
        [apply (wf_in F BB Hwf) | apply Hfresh; lia | rewrite list_elem_of_singleton; lia | lia]. }
    do 3 (split; [apply HW; [apply Hold; set_solver | congruence] |]).
    split; [exact (not_eq_sym (old_not_fresh F d 0 Hod)) |]. split; [exact (not_eq_sym (old_not_fresh F d 1 Hod)) | exact HW].
Qed.

(** C23. Compare and swap becomes a loop that is atomic under every interleaving:
    a run that leaves it has either stored nothing, and the destination holds a
    value read that differs from the expected one, or stored exactly once, the
    new value in place of the expected one, which the destination holds; and a
    run nobody interferes with does leave the loop. *)
Theorem cmp_swap_linearizable (F : CFG) (BB n : nat) (d p old new : Nyuzi.reg) (k1 k2 k3 k4 : bool * bool) :
  wf_at F BB → code F BB !! n = Some (mkMI Nyuzi.ATOMIC_CMP_SWAP [regop d k1; regop p k2; regop old k3; regop new k4]) →
  (∀ r, r ∈ [d; p; old; new] → old_reg F r) → d ∉ [p; old; new] →
  ∃ F' Exit, EmitInstrWithCustomInserter F BB n = Ret (F', Exit) ∧ code F' Exit = drop (S n) (code F BB) ∧
    (∀ fr st r e c', runs F' Exit (mkConfig BB fr [] st r) e c' → cur c' = Exit →
      todo c' = code F' Exit ∧
      e = (if regs (state c') d =? regs st old then [(u32 (regs st p), regs st old, regs st new)] else []) ∧
      ∀ q, old_reg F q → q ≠ d → regs (state c') q = regs st q) ∧
    (∀ fr st r, ∃ e c', runs F' Exit (mkConfig BB fr [] st r) e c' ∧ cur c' = Exit).
Proof.
  intros Hwf HMI Hold Hd.
  destruct (cmp_swap_loop F BB n d p old new k1 k2 k3 k4 Hwf HMI Hold Hd)
    as (F' & HF' & HE & HL1 & HL2 & HBB & HnB & Hn1 & Hn2 & HpW & HoW & HnW & HSd & HCd & HW).
  set (L1 := NextBlock F) in *. exists F', (S (S L1)). split; [exact HF' | split; [exact HE | split]].
  - intros fr st r e c' Hr Hc'.
    destruct (runs_enter F' (S (S L1)) BB L1 fr st r e c' HnB ltac:(lia) Hc' Hr) as (st1 & r1 & Hst & Hr').
    pose proof (cs_inv_runs F' L1 (S L1) (S (S L1)) d p old new _ _ st1 ltac:(lia) ltac:(lia) HL1 HL2 Hn1 Hn2 HpW HoW HnW
      HSd HCd _ c' [] e ltac:(lia) (CS_start _ _ _ _ _ _ _ _ _ _ st1 BB st1 r1 (λ q _, eq_refl))) as Hi.
    rewrite HL1 in Hr'. specialize (Hi Hr'). cbn [app] in Hi.
    destruct Hi as [| | | | | | | | fr2 st2 r2 Ha2 Hd2 | fr2 st2 r2 Ha2 Hd2]; cbn [cur] in Hc'; try lia; cbn [todo state];
      rewrite Hst in Hd2; (split; [reflexivity |]); (split; [| intros q Hq Hqd; rewrite <- Hst; apply Ha2, HW; assumption]).
    + destruct (Z.eqb_spec (regs st2 d) (regs st old)); [contradiction | reflexivity].
    + rewrite Hd2, Z.eqb_refl, Hst. reflexivity.
  - intros fr st r.
    destruct (cs_solo F' L1 (S L1) (S (S L1)) d p old new _ _ st ltac:(lia) ltac:(lia) HL1 HL2 Hn1 Hn2 HpW HoW BB st r
      (λ q _, eq_refl)) as (es & c' & Hr & Hc').
    exists ([] ++ es), c'. split; [| exact Hc']. eapply runs_step; [cbn; lia | apply step_fallthrough; exact HnB | exact Hr].
Qed.

Definition swap_block : CFG :=
  mkCFG {[0%nat := mkMBB [mkMI Nyuzi.MOVESS [addDef (Nyuzi.VirtReg 0); addReg (Nyuzi.VirtReg 4)];
                          mkMI Nyuzi.ATOMIC_CMP_SWAP [addDef (Nyuzi.VirtReg 3); addReg (Nyuzi.VirtReg 0);
                                                      addReg (Nyuzi.VirtReg 1); addReg (Nyuzi.VirtReg 2)]] [0%nat]]}
    [0%nat] 1 5.

Lemma swap_block_wf : wf_at swap_block 0.
Proof.
  split.
  - left.
  - apply NoDup_singleton.
  - intros b Hb. apply list_elem_of_singleton in Hb as ->. cbn. lia.
  - intros s Hs. apply list_elem_of_singleton in Hs as ->. cbn. lia.
  - intros b Hb. apply lookup_singleton_ne. cbn in Hb. lia.
Qed.

Lemma cmp_swap_linearizable_witness :
  ∃ F' Exit, EmitInstrWithCustomInserter swap_block 0 1 = Ret (F', Exit) ∧ code F' Exit = drop 2 (code swap_block 0) ∧
    (∀ fr st r e c', runs F' Exit (mkConfig 0 fr [] st r) e c' → cur c' = Exit →
      todo c' = code F' Exit ∧
      e = (if regs (state c') (Nyuzi.VirtReg 3) =? regs st (Nyuzi.VirtReg 1)
           then [(u32 (regs st (Nyuzi.VirtReg 0)), regs st (Nyuzi.VirtReg 1), regs st (Nyuzi.VirtReg 2))] else []) ∧
      ∀ q, old_reg swap_block q → q ≠ Nyuzi.VirtReg 3 → regs (state c') q = regs st q) ∧
    (∀ fr st r, ∃ e c', runs F' Exit (mkConfig 0 fr [] st r) e c' ∧ cur c' = Exit).
Proof.
  eapply (cmp_swap_linearizable swap_block 0 1 (Nyuzi.VirtReg 3) (Nyuzi.VirtReg 0) (Nyuzi.VirtReg 1) (Nyuzi.VirtReg 2)
            (true, false) (false, false) (false, false) (false, false));
    [exact swap_block_wf | reflexivity | |
     rewrite !not_elem_of_cons; repeat split; try discriminate; apply not_elem_of_nil].
  intros r Hr. rewrite !elem_of_cons in Hr. destruct Hr as [-> | [-> | [-> | [-> | Hr]]]]; cbn; try lia.
  apply elem_of_nil in Hr. contradiction.
Defined.

(** ** The branches of a selection *)
Section select.
Context (F : CFG) (BB C Sink : nat) (p : Nyuzi.reg) (st0 : mstate).
Hypothesis HnB : next_in BB (Layout F) = Some C.
Hypothesis HnC : next_in C (Layout F) = Some Sink.
Hypothesis HC : code F C = [].
Hypothesis HBS : BB ≠ Sink.
Hypothesis HCS : C ≠ Sink.

Definition same_regs (st : mstate) : Prop := regs st = regs st0 ∧ vregs st = vregs st0.

(** The block a run comes from tells the predicate. *)
Inductive sel_inv : config → Prop :=
  | SEL_branch fr st r : same_regs st →
      sel_inv (mkConfig BB fr [mkMI Nyuzi.BNZ [addReg p; MO_MachineBasicBlock Sink]] st r)
  | SEL_fall b fr st r : same_regs st → regs st0 p = 0 → b = BB ∨ b = C → sel_inv (mkConfig b fr [] st r)
  | SEL_sink fr st r : same_regs st → fr = (if regs st0 p =? 0 then C else BB) →
      sel_inv (mkConfig Sink fr (code F Sink) st r).

Lemma sel_inv_step (c c' : config) (e : list store_event) :
  sel_inv c → cur c ≠ Sink → step F c e c' → e = [] ∧ sel_inv c'.
Proof.
  intros Hi Hc Hs. inversion Hi as [fr st r Hst | b fr st r Hst Hz Hb | fr st r Hst Hf]; subst c; cbn in Hc;
    [| | contradiction]; inversion Hs; subst; try discriminate; (split; [reflexivity |]).
  - replace (taken Nyuzi.BNZ (regs st p)) with (negb (regs st0 p =? 0)) by (destruct Hst as [<- _]; reflexivity).
    destruct (Z.eqb_spec (regs st0 p) 0) as [Hz | Hz]; cbn [negb].
    + apply SEL_fall; auto.
    + apply SEL_sink; [exact Hst |]. destruct (Z.eqb_spec (regs st0 p) 0); [contradiction | reflexivity].
  - apply SEL_branch. exact Hst.
  - destruct Hb as [-> | ->]; match goal with H : next_in _ _ = Some ?x |- _ => rename H into Hx; rename x into y end.
    + replace y with C by congruence. change (Insts (getBlock F C)) with (code F C). rewrite HC. apply SEL_fall; auto.
    + replace y with Sink by congruence. apply SEL_sink; [exact Hst | rewrite Hz; reflexivity].
  - apply SEL_fall; auto.
Qed.

Lemma sel_inv_runs (c c' : config) (e : list store_event) : sel_inv c → runs F Sink c e c' → e = [] ∧ sel_inv c'.
Proof.
  intros Hi Hr. induction Hr as [c | c e1 c1 e2 c2 Hc Hs Hr IH]; [auto |].
  destruct (sel_inv_step c c1 e1 Hi Hc Hs) as [-> Hi1]. exact (IH Hi1).
Qed.

Lemma sel_reaches (fr : nat) (st : mstate) (r : option Z) :
  ∃ c', runs F Sink (mkConfig BB fr [mkMI Nyuzi.BNZ [addReg p; MO_MachineBasicBlock Sink]] st r) [] c' ∧ cur c' = Sink.
Proof.
  destruct (taken Nyuzi.BNZ (regs st p)) eqn:Ht.
  - eexists. split.
    + change (@nil store_event) with (@nil store_event ++ []).
      eapply runs_step; [exact HBS | apply step_branch; right; reflexivity |]. rewrite Ht. apply runs_refl.
    + reflexivity.
  - eexists. split.
    + change (@nil store_event) with (@nil store_event ++ [] ++ [] ++ []).
      eapply runs_step; [exact HBS | apply step_branch; right; reflexivity |]. rewrite Ht.
      eapply runs_step; [exact HBS | apply step_fallthrough; exact HnB |].
      change (Insts (getBlock F C)) with (code F C). rewrite HC.
      eapply runs_step; [exact HCS | apply step_fallthrough; exact HnC | apply runs_refl].
    + reflexivity.
Qed.
End select.

(** C36. A selection becomes a diamond: the code before it ends in a branch on the
    predicate, every run of it reaches the block with the code after it having
    changed no register, and the PHI there gives the destination the first
    value when the predicate is not zero and the second when it is, in scalar
    and vector registers alike. *)
Theorem EmitSelectCC_selects (F : CFG) (BB n : nat) (opc : Nyuzi.opcode) (d p t f : Nyuzi.reg) (k1 k2 k3 k4 : bool * bool) :
  wf_at F BB → BB ∉ Successors (getBlock F BB) →
  code F BB !! n = Some (mkMI opc [regop d k1; regop p k2; regop t k3; regop f k4]) →
  opc ∈ [Nyuzi.SELECTI; Nyuzi.SELECTF; Nyuzi.SELECTVI; Nyuzi.SELECTVF; Nyuzi.SELECTMASK] →
  ∃ F' Sink branch, EmitInstrWithCustomInserter F BB n = Ret (F', Sink) ∧
    code F' BB = take n (code F BB) ++ branch ∧
    (∀ fr st r, ∃ c', runs F' Sink (mkConfig BB fr branch st r) [] c' ∧ cur c' = Sink) ∧
    ∀ fr st r e c', runs F' Sink (mkConfig BB fr branch st r) e c' → cur c' = Sink →
      e = [] ∧ (∃ e2 c2, step F' c' e2 c2 ∧ todo c2 = drop (S n) (code F BB)) ∧
      ∀ e2 c2, step F' c' e2 c2 → todo c2 = drop (S n) (code F BB) →
        let x := if regs st p =? 0 then f else t in
        regs (state c2) d = regs st x ∧ vregs (state c2) d = vregs st x ∧
        ∀ q, q ≠ d → regs (state c2) q = regs st q ∧ vregs (state c2) q = vregs st q.
Proof.
  intros Hwf Hns HMI Hopc.
  destruct (EmitSelectCC_shape F BB n opc d p t f k1 k2 k3 k4 Hwf) as (F' & HF' & HcB & HcC & HcS & Hlay).
  specialize (HcB Hns). pose proof (wf_layout F BB Hwf BB (wf_in F BB Hwf)) as HBB. set (C := NextBlock F) in *.
  assert (HnB : next_in BB (Layout F') = Some C) by (rewrite Hlay; apply next_in_insert, (wf_in F BB Hwf)).
  assert (HnC : next_in C (Layout F') = Some (S C)).
  { rewrite Hlay. apply (next_in_new BB C (S C) [] []); [apply (wf_in F BB Hwf) | | apply not_elem_of_nil | lia].
    intros Hin. apply (wf_layout F BB Hwf) in Hin. lia. }
  exists F', (S C). eexists. split; [| split; [exact HcB | split]].
  - unfold EmitInstrWithCustomInserter. change (Insts (getBlock F BB)) with (code F BB). rewrite HMI. cbn [MIOpcode].
    clear - HF' Hopc. rewrite !elem_of_cons, elem_of_nil in Hopc. destruct Hopc as [-> | [-> | [-> | [-> | [-> | []]]]]]; exact HF'.
  - intros fr st r. apply (sel_reaches F' BB C (S C) p HnB HnC HcC); lia.
  - intros fr st r e c' Hr Hc'.
    destruct (sel_inv_runs F' BB C (S C) p st HnB HnC HcC _ c' e (SEL_branch F' BB C (S C) p st fr st r (conj eq_refl eq_refl)) Hr)
      as [-> Hi]. split; [reflexivity |].
    destruct Hi as [| b fr2 st2 r2 ? ? Hb | fr2 st2 r2 [Hregs Hvregs] Hfr]; cbn [cur] in Hc'; try lia. rewrite HcS.
    assert (Hf2 : fr2 = BB ∨ fr2 = C) by (rewrite Hfr; destruct (_ =? 0); auto). split.
    + eexists _, _. split; [apply step_phi; exact Hf2 | reflexivity].
    + assert (Hx : (if (fr2 =? BB)%nat then t else f) = if regs st p =? 0 then f else t).
      { rewrite Hfr. destruct (regs st p =? 0); [destruct (Nat.eqb_spec C BB); [lia | reflexivity] |].
        rewrite Nat.eqb_refl. reflexivity. }
      clear Hfr. intros e2 c2 Hs Ht. cbv zeta. inversion Hs; subst; try discriminate; cbn [todo state] in *.
      * unfold set_both. cbn [regs vregs set_vreg set_reg]. rewrite Hregs, Hvregs, Hx, !decide_True by reflexivity.
        repeat split; rewrite decide_False by assumption; reflexivity.
      * exfalso. apply (f_equal length) in Ht. cbn in Ht. lia.
Qed.

Definition select_block : CFG :=
  mkCFG {[0%nat := mkMBB [mkMI Nyuzi.SELECTVI [addDef (Nyuzi.VirtReg 3); addReg (Nyuzi.VirtReg 0); addReg (Nyuzi.VirtReg 1);
                                               addReg (Nyuzi.VirtReg 2)]] []]}
    [0%nat] 1 4.

Lemma select_block_wf : wf_at select_block 0.
Proof.
  split.
  - left.
  - apply NoDup_singleton.
  - intros b Hb. apply list_elem_of_singleton in Hb as ->. cbn. lia.
  - intros s Hs. apply elem_of_nil in Hs. contradiction.
  - intros b Hb. apply lookup_singleton_ne. cbn in Hb. lia.
Qed.

Lemma EmitSelectCC_selects_witness :
  ∃ F' Sink branch, EmitInstrWithCustomInserter select_block 0 0 = Ret (F', Sink) ∧
    code F' 0 = take 0 (code select_block 0) ++ branch ∧
    (∀ fr st r, ∃ c', runs F' Sink (mkConfig 0 fr branch st r) [] c' ∧ cur c' = Sink) ∧
    ∀ fr st r e c', runs F' Sink (mkConfig 0 fr branch st r) e c' → cur c' = Sink →
      e = [] ∧ (∃ e2 c2, step F' c' e2 c2 ∧ todo c2 = drop 1 (code select_block 0)) ∧
      ∀ e2 c2, step F' c' e2 c2 → todo c2 = drop 1 (code select_block 0) →
        let x := if regs st (Nyuzi.VirtReg 0) =? 0 then Nyuzi.VirtReg 2 else Nyuzi.VirtReg 1 in
        regs (state c2) (Nyuzi.VirtReg 3) = regs st x ∧ vregs (state c2) (Nyuzi.VirtReg 3) = vregs st x ∧
        ∀ q, q ≠ Nyuzi.VirtReg 3 → regs (state c2) q = regs st q ∧ vregs (state c2) q = vregs st q.
Proof.
  eapply (EmitSelectCC_selects select_block 0 0 Nyuzi.SELECTVI (Nyuzi.VirtReg 3) (Nyuzi.VirtReg 0) (Nyuzi.VirtReg 1)
            (Nyuzi.VirtReg 2) (true, false) (false, false) (false, false) (false, false));
    [exact select_block_wf | apply not_elem_of_nil | reflexivity | right; right; left].
Defined.
