(* ===== verification/NyuziAtomicProgress.v ===== *)
(** * NyuziAtomicProgress: atomic loops make progress

    The loops [EmitAtomicBinary] and [EmitAtomicCmpSwap] emit are lock-free: a
    thread in them can always take a step, and it goes round again only when
    another thread took its reservation away.  The argument is a rank on the
    configurations of NyuziCustomInserter.v that every step of the thread lowers. *)
From S2P Require Import Prelude NyuziTarget NyuziMachine NyuziBranch NyuziCustomInserter.

(** ** Steps of the thread and of the others *)

(** What other threads may do between two steps: write memory, and with it drop
    the reservation. *)
Definition others (c c' : config) : Prop :=
  ∃ m r', (r' = None ∨ (r' = resv c ∧ ∀ a, resv c = Some a → m a = mem (state c) a)) ∧
    c' = mkConfig (cur c) (from c) (todo c) (mkState (regs (state c)) (vregs (state c)) m) r'.

Definition own_step (F : CFG) (c : config) (c' : config) : Prop := (∃ e, step F c e c') ∧ ¬ others c c'.

(** A run up to block [stop] in which the thread took [k] steps and lost its
    reservation [n] times. *)
Inductive attempts (F : CFG) (stop : nat) : nat → nat → config → config → Prop :=
  | attempts_refl c : attempts F stop 0 0 c c
  | attempts_own k n c c1 c2 : cur c ≠ stop → own_step F c c1 → attempts F stop k n c1 c2 → attempts F stop (S k) n c c2
  | attempts_quiet k n c c1 c2 :
      cur c ≠ stop → others c c1 → resv c1 = resv c → attempts F stop k n c1 c2 → attempts F stop k n c c2
  | attempts_lost k n c c1 c2 :
      cur c ≠ stop → others c c1 → resv c ≠ None → resv c1 = None → attempts F stop k n c1 c2 → attempts F stop k (S n) c c2.

Lemma others_step (F : CFG) (c c' : config) : others c c' → step F c [] c'.
Proof. intros (m & r' & Hr & ->). destruct c. apply step_others. exact Hr. Qed.

Lemma others_todo (c c' : config) : others c c' → cur c' = cur c ∧ from c' = from c ∧ todo c' = todo c.
Proof. intros (m & r' & _ & ->). auto. Qed.

Lemma others_refl (c : config) : others c c.
Proof. exists (mem (state c)), (resv c). split; [auto |]. destruct c as [? ? ? [] ?]. reflexivity. Qed.

(** A step is the thread's or the others'. *)
Lemma step_cases (F : CFG) (c c' : config) (e : list store_event) : step F c e c' → own_step F c c' ∨ others c c'.
Proof.
  intros Hs. destruct (decide (cur c' = cur c ∧ from c' = from c ∧ todo c' = todo c)) as [Heq | Hne].
  - right. inversion Hs; subst; cbn in Heq; destruct Heq as (H1 & H2 & H3);
      try solve [apply (f_equal length) in H3; cbn in H3; lia].
    + destruct (taken opc (regs st x)); cbn in H1, H2, H3; [| apply (f_equal length) in H3; cbn in H3; lia].
      subst. rewrite H3. apply others_refl.
    + subst. rewrite H3. apply others_refl.
    + exists m, r'. auto.
  - left. split; [eauto |]. intros Ho. exact (Hne (others_todo c c' Ho)).
Qed.

Lemma runs_attempts (F : CFG) (stop : nat) (c c' : config) (e : list store_event) :
  runs F stop c e c' → ∃ k n, attempts F stop k n c c'.
Proof.
  induction 1 as [c | c e1 c1 e2 c2 Hc Hs _ (k & n & IH)]; [eauto using attempts_refl |].
  destruct (step_cases F c c1 e1 Hs) as [Ho | Ho]; [eauto using attempts_own |].
  destruct (decide (resv c1 = resv c)) as [Hr | Hr]; [eauto using attempts_quiet |].
  exists k, (S n). destruct Ho as (m & r' & [-> | [-> _]] & ->); [| destruct (Hr eq_refl)].
  eapply attempts_lost; [exact Hc | exists m, None; auto | cbn in Hr; congruence | reflexivity | exact IH].
Qed.

(** ** Ranks *)

(** An invariant [I] and a rank that the steps of the thread lower and that the loss
    of the reservation raises by at most [T]. *)
Record ranking (F : CFG) (stop : nat) (I : config → Prop) (rank : config → nat) (T : nat) : Prop := {
  rk_step c e c' : I c → cur c ≠ stop → step F c e c' → I c';
  rk_own c c' : I c → cur c ≠ stop → own_step F c c' → (rank c' < rank c)%nat;
  rk_quiet c c' : I c → others c c' → resv c' = resv c → rank c' = rank c;
  rk_lost c c' : I c → others c c' → (rank c' ≤ rank c + T)%nat;
  rk_enabled c : I c → cur c ≠ stop → ∃ c', own_step F c c';
}.

Lemma ranking_bound (F : CFG) (stop : nat) (I : config → Prop) (rank : config → nat) (T k n : nat) (c c' : config) :
  ranking F stop I rank T → I c → attempts F stop k n c c' → I c' ∧ (k + rank c' ≤ rank c + T * n)%nat.
Proof.
  intros HR Hi Ha. induction Ha as [c | k n c c1 c2 Hc Hs _ IH | k n c c1 c2 Hc Hs Hr _ IH | k n c c1 c2 Hc Hs _ _ _ IH].
  - split; [exact Hi | lia].
  - pose proof (rk_own _ _ _ _ _ HR c c1 Hi Hc Hs). destruct Hs as [[e Hs] _].
    destruct (IH (rk_step _ _ _ _ _ HR c e c1 Hi Hc Hs)). split; [assumption | lia].
  - pose proof (rk_quiet _ _ _ _ _ HR c c1 Hi Hs Hr).
    destruct (IH (rk_step _ _ _ _ _ HR c _ c1 Hi Hc (others_step F c c1 Hs))). split; [assumption | lia].
  - pose proof (rk_lost _ _ _ _ _ HR c c1 Hi Hs).
    destruct (IH (rk_step _ _ _ _ _ HR c _ c1 Hi Hc (others_step F c c1 Hs))). split; [assumption | lia].
Qed.

(** The instructions left are the end of the block. *)
Lemma step_suffix (F : CFG) (c c' : config) (e : list store_event) :
  step F c e c' → todo c `suffix_of` code F (cur c) → todo c' `suffix_of` code F (cur c').
Proof.
  intros Hs. inversion Hs; subst; cbn [todo cur]; try solve [intros [l ->]; eexists (l ++ [_]); rewrite <- app_assoc; reflexivity];
    try solve [intros _; exists []; reflexivity]; [| auto].
  destruct (taken opc (regs st x)); cbn [todo cur]; [intros _; exists []; reflexivity |].
  intros [l ->]. eexists (l ++ [_]). rewrite <- app_assoc. reflexivity.
Qed.

Lemma own_by_todo (F : CFG) (c c' : config) (e : list store_event) :
  step F c e c' → cur c' ≠ cur c ∨ todo c' ≠ todo c → own_step F c c'.
Proof. intros Hs Hne. split; [eauto |]. intros Ho. apply others_todo in Ho. tauto. Qed.

Lemma cons_neq {A} (x : A) (l : list A) : l ≠ x :: l.
Proof. intros H. apply (f_equal length) in H. cbn in H. lia. Qed.

(** The code before the loop falls into it. *)
Lemma ranking_enter (F : CFG) (stop BB L R T : nat) (st0 : mstate) (I : config → Prop) (rank : config → nat) :
  ranking F stop I rank T → next_in BB (Layout F) = Some L → BB ≠ L → (∀ c, I c → cur c ≠ BB) →
  (∀ fr st r, regs st = regs st0 → let c := mkConfig L fr (code F L) st r in I c ∧ rank c = R) →
  ranking F stop (λ c, (cur c = BB ∧ todo c = [] ∧ regs (state c) = regs st0) ∨ I c)
    (λ c, if decide (cur c = BB) then S R else rank c) T.
Proof.
  intros HR Hnext HBL HI Hstart.
  assert (Hcases : ∀ c e c', cur c = BB → todo c = [] → step F c e c' →
    others c c' ∨ c' = mkConfig L BB (code F L) (state c) (resv c)).
  { intros c e c' Hb Ht Hs. inversion Hs; subst; try discriminate Ht; cbn in *.
    - right. replace b with L by congruence. reflexivity.
    - left. exists m, r'. auto. }
  split.
  - intros c e c' [(Hb & Ht & Hg) | Hi] Hc Hs.
    + destruct (Hcases c e c' Hb Ht Hs) as [(m & r' & _ & ->) | ->]; [left; auto | right; apply Hstart; exact Hg].
    + right. exact (rk_step _ _ _ _ _ HR c e c' Hi Hc Hs).
  - intros c c' [(Hb & Ht & Hg) | Hi] Hc Hs.
    + destruct Hs as [[e Hs] Hno]. destruct (Hcases c e c' Hb Ht Hs) as [Ho | ->]; [contradiction |].
      rewrite (decide_True (P := cur c = BB)) by exact Hb. cbn [cur]. rewrite decide_False by congruence.
      rewrite (proj2 (Hstart BB (state c) (resv c) Hg)). lia.
    + rewrite (decide_False (P := cur c = BB)) by (apply HI; exact Hi). pose proof (rk_own _ _ _ _ _ HR c c' Hi Hc Hs) as Hlt.
      destruct Hs as [[e Hs] _]. rewrite decide_False; [exact Hlt |].
      apply HI, (rk_step _ _ _ _ _ HR c e c' Hi Hc Hs).
  - intros c c' Hi Ho Hr. rewrite (proj1 (others_todo c c' Ho)). destruct (decide (cur c = BB)) as [| Hb]; [reflexivity |].
    destruct Hi as [(Hb' & _) | Hi]; [contradiction | exact (rk_quiet _ _ _ _ _ HR c c' Hi Ho Hr)].
  - intros c c' Hi Ho. rewrite (proj1 (others_todo c c' Ho)). destruct (decide (cur c = BB)) as [| Hb]; [lia |].
    destruct Hi as [(Hb' & _) | Hi]; [contradiction | exact (rk_lost _ _ _ _ _ HR c c' Hi Ho)].
  - intros c [(Hb & Ht & Hg) | Hi] Hc; [| exact (rk_enabled _ _ _ _ _ HR c Hi Hc)].
    destruct c as [b f t st r]. cbn in Hb, Ht. subst b t. exists (mkConfig L BB (code F L) st r).
    apply own_by_todo with []; [apply step_fallthrough; exact Hnext | left; cbn; congruence].
Qed.

(** The cases of a step of the thread. *)
Ltac own_inversion Hs Hno :=
  inversion Hs; subst; try discriminate;
  try solve [exfalso; apply Hno; eexists _, _; split; [eassumption | reflexivity]].

(** ** The loop of a read-modify-write *)
Section binary.
Context (F : CFG) (Loop Exit : nat) (D Dest P New Succ : Nyuzi.reg) (calc : list MachineInstr).
Context (W : list Nyuzi.reg) (st0 : mstate) (f : Z → Z).
Let a := u32 (regs st0 P).
Let tail := [mkMI Nyuzi.STORE_SYNC [addDef Succ; addReg New; addReg P; MO_Immediate 0];
             mkMI Nyuzi.BZ [addReg Succ; MO_MachineBasicBlock Loop]].
Hypothesis Hne : Loop ≠ Exit.
Hypothesis Hcode : code F Loop = mkMI Nyuzi.LOAD_SYNC [addDef D; addReg P; MO_Immediate 0] :: calc ++ tail.
Hypothesis Hnext : next_in Loop (Layout F) = Some Exit.
Hypothesis HP : P ∉ W.
Hypothesis HSucc : Succ ∈ W.
Hypothesis HSD : Succ ≠ Dest.
Hypothesis Hcalc : ∀ st v, agree_off W st0 st →
  ∃ st', exec_list calc (set_reg D v st) = Some st' ∧
    regs st' New = f v ∧ regs st' Dest = v ∧ agree_off W st0 st'.

Let T := (length calc + 3)%nat.

(** The steps of the thread to the end of the loop if it keeps its reservation. *)
Definition loop_rank (c : config) : nat :=
  (if decide (cur c ≠ Loop) then 0
   else
     match length (todo c) with
     | 0 => 1
     | 1 => if (regs (state c) Succ =? 0)%Z then T + 2 else 2
     | l => if l =? T then T + 1 else if decide (resv c = Some a) then l + 1 else l + T + 1
     end)%nat.

Definition loop_at (c : config) : Prop :=
  (∃ es, loop_inv F Loop Exit Dest P New Succ W st0 f c es) ∧ todo c `suffix_of` code F (cur c).

Lemma rank_calc (fr : nat) (rest : list MachineInstr) (st : mstate) (r : option Z) :
  length rest ≠ S (length calc) →
  loop_rank (mkConfig Loop fr (rest ++ tail) st r) =
    (if decide (r = Some a) then length rest + 3 else length rest + 3 + T)%nat.
Proof.
  intros Hl. unfold loop_rank. cbn [cur todo state resv]. rewrite decide_False by tauto.
  rewrite length_app. unfold tail. cbn [length]. rewrite Nat.add_comm. cbn [Nat.add].
  destruct (Nat.eqb_spec (S (S (length rest))) T); [unfold T in *; lia |]. destruct (decide _); lia.
Qed.

Lemma rank_start (fr : nat) (st : mstate) (r : option Z) : loop_rank (mkConfig Loop fr (code F Loop) st r) = (T + 1)%nat.
Proof.
  unfold loop_rank. cbn [cur todo state resv]. rewrite decide_False by tauto. rewrite Hcode. cbn [length]. rewrite length_app.
  unfold tail. cbn [length]. rewrite Nat.add_comm. cbn [Nat.add]. unfold T. rewrite Nat.add_comm, Nat.eqb_refl. reflexivity.
Qed.

(** Inside an attempt the instructions left are fewer than the block's. *)
Lemma calc_suffix (rest : list MachineInstr) (st st' : mstate) :
  exec_list rest st = Some st' → rest ++ tail `suffix_of` code F Loop → (length rest ≤ length calc)%nat.
Proof.
  intros Hx Hs. rewrite Hcode in Hs. destruct Hs as [[| MI l] Hl].
  - cbn [app] in Hl. change (rest ++ tail) with (rest ++ tail) in Hl.
    assert (Hr : rest = mkMI Nyuzi.LOAD_SYNC [addDef D; addReg P; MO_Immediate 0] :: calc).
    { apply (app_inv_tail tail). symmetry. exact Hl. }
    subst rest. discriminate Hx.
  - apply (f_equal length) in Hl. cbn [length app] in Hl. rewrite !length_app in Hl. lia.
Qed.

(** The thread gets closer to the end. *)
Lemma loop_rank_own (c c' : config) :
  loop_at c → cur c ≠ Exit → own_step F c c' → (loop_rank c' < loop_rank c)%nat.
Proof.
  intros [[es Hi] Hsuf] Hc [[e Hs] Hno].
  destruct Hi as [fr st r Ha | fr rest st st' r v Hr Hx Hn Hd Ha | fr st r Ha H0 | fr st r v Ha H1 Hd
    | fr st r v Ha Hd | fr st r v Ha Hd]; [| | | | | cbn in Hc; contradiction]; cbn [cur todo] in Hsuf.
  - rewrite rank_start. rewrite Hcode in Hs, Hno. own_inversion Hs Hno.
    rewrite rank_calc by lia. rewrite decide_True; [unfold T; lia |].
    match goal with x := u32 (regs st P + 0) |- _ => subst x end. rewrite Z.add_0_r, (Ha P HP). reflexivity.
  - pose proof (calc_suffix rest st st' Hx Hsuf) as Hlen. rewrite rank_calc by lia. destruct rest as [| MI rest].
    + cbn [app] in Hs, Hno. unfold tail in Hs, Hno. own_inversion Hs Hno.
      unfold loop_rank. cbn [cur todo state resv length]. rewrite decide_False by tauto.
      match goal with x := u32 (regs st P + 0) |- _ => subst x end. injection Hx as ->. rewrite Z.add_0_r, (Ha P HP). fold a.
      destruct (decide (r = Some a)); rewrite set_reg_eq; cbn; lia.
    + cbn [app] in Hs, Hno. cbn [exec_list length] in *. own_inversion Hs Hno.
      * rewrite rank_calc by lia. destruct (decide _); lia.
      * match goal with H : _ ∨ _ |- _ => destruct H as [-> | ->]; discriminate Hx end.
  - cbn [drop tail] in Hs, Hno. own_inversion Hs Hno.
    match goal with |- context [taken ?o ?v] => replace (taken o v) with true by (rewrite H0; reflexivity) end.
    change (Insts (getBlock F Loop)) with (code F Loop). rewrite rank_start. unfold loop_rank. cbn [cur todo state length].
    rewrite decide_False, H0 by tauto. cbn. lia.
  - cbn [drop tail] in Hs, Hno. own_inversion Hs Hno.
    match goal with |- context [taken ?o ?v] => replace (taken o v) with false by (rewrite H1; reflexivity) end.
    unfold loop_rank. cbn [cur todo state length]. rewrite !decide_False, H1 by tauto. cbn. lia.
  - own_inversion Hs Hno. replace b with Exit by congruence. unfold loop_rank. cbn [cur todo length].
    rewrite decide_True, decide_False by tauto || congruence. lia.
Qed.

(** It is never stuck. *)
Lemma loop_enabled (c : config) : loop_at c → cur c ≠ Exit → ∃ c', own_step F c c'.
Proof.
  intros [[es Hi] _] Hc. destruct Hi as [fr st r Ha | fr rest st st' r v Hr Hx Hn Hd Ha | fr st r Ha H0 | fr st r v Ha H1 Hd
    | fr st r v Ha Hd | fr st r v Ha Hd]; [| | | | | cbn in Hc; contradiction].
  - rewrite Hcode. eexists. eapply own_by_todo; [apply step_load_sync | right]. cbn [todo]. apply cons_neq.
  - destruct rest as [| MI rest].
    + eexists. eapply own_by_todo; [apply step_store_sync | right]. apply cons_neq.
    + cbn [exec_list] in Hx. destruct (exec_alu MI st) as [st1 |] eqn:HMI; [| discriminate Hx].
      eexists. eapply own_by_todo; [apply step_alu; exact HMI | right]. apply cons_neq.
  - eexists. eapply own_by_todo; [apply step_branch; left; reflexivity |]. cbn [regs]. rewrite H0.
    change (taken Nyuzi.BZ 0) with true. right. cbn [todo]. change (Insts (getBlock F Loop)) with (code F Loop).
    rewrite Hcode. intros Hl. apply (f_equal length) in Hl. cbn [length] in Hl. rewrite length_app in Hl. cbn in Hl. lia.
  - eexists. eapply own_by_todo; [apply step_branch; left; reflexivity |]. rewrite H1. right. apply cons_neq.
  - eexists. eapply own_by_todo; [apply step_fallthrough; exact Hnext | left]. cbn [cur]. congruence.
Qed.

Lemma loop_ranking : ranking F Exit loop_at loop_rank T.
Proof.
  split; [| exact loop_rank_own | | | exact loop_enabled].
  - intros c e c' [[es Hi] Hsuf] Hc Hs. split; [| exact (step_suffix F c c' e Hs Hsuf)]. exists (es ++ e).
    eapply loop_inv_step; eassumption.
  - intros c c' _ (m & r' & _ & ->) Hr. unfold loop_rank. cbn [cur todo state regs resv] in *. rewrite Hr. reflexivity.
  - intros c c' _ (m & r' & _ & ->). unfold loop_rank. cbn [cur todo state regs resv].
    destruct (decide (cur c ≠ Loop)); [lia |]. destruct (length (todo c)) as [| [| l]]; [lia | lia |].
    destruct (_ =? T)%nat; [lia |]. do 2 destruct (decide _); lia.
Qed.
End binary.

(** ** The compare and swap loop *)
Section cmpswap.
Context (F : CFG) (Loop1 Loop2 Exit : nat) (Dest P Old New Succ Cmp : Nyuzi.reg) (st0 : mstate).
Let a := u32 (regs st0 P).
Hypothesis Hne1 : Loop1 ≠ Exit.
Hypothesis Hne2 : Loop2 ≠ Exit.
Hypothesis Hne : Loop1 ≠ Loop2.
Hypothesis Hcode1 : code F Loop1 = [mkMI Nyuzi.LOAD_SYNC [addDef Dest; addReg P; MO_Immediate 0];
  mkMI Nyuzi.SNESISS [addDef Cmp; addReg Dest; addReg Old]; mkMI Nyuzi.BNZ [addReg Cmp; MO_MachineBasicBlock Exit]].
Hypothesis Hcode2 : code F Loop2 = [mkMI Nyuzi.STORE_SYNC [addDef Succ; addReg New; addReg P; MO_Immediate 0];
  mkMI Nyuzi.BZ [addReg Succ; MO_MachineBasicBlock Loop1]].
Hypothesis Hnext1 : next_in Loop1 (Layout F) = Some Loop2.
Hypothesis Hnext2 : next_in Loop2 (Layout F) = Some Exit.
Hypothesis HP : P ∉ [Dest; Succ; Cmp].
Hypothesis HOld : Old ∉ [Dest; Succ; Cmp].
Hypothesis HNew : New ∉ [Dest; Succ; Cmp].
Hypothesis HSD : Succ ≠ Dest.
Hypothesis HCD : Cmp ≠ Dest.

Definition cs_rank (c : config) : nat :=
  (let l := length (todo c) in
   if decide (cur c = Loop1) then
     if l =? 3 then 7 else if decide (resv c = Some a) then 4 + l else 10 + l
   else if decide (cur c = Loop2) then
     match l with
     | 0 => 1
     | 1 => if (regs (state c) Succ =? 0)%Z then 8 else 2
     | _ => if decide (resv c = Some a) then 3 else 9
     end
   else 0)%nat.

Definition cs_at (c : config) : Prop := ∃ es, cs_inv F Loop1 Loop2 Exit Dest P Old New Succ Cmp st0 c es.

Lemma cs_rank1 (fr : nat) (l : list MachineInstr) (st : mstate) (r : option Z) :
  cs_rank (mkConfig Loop1 fr l st r) =
    (if length l =? 3 then 7 else if decide (r = Some a) then 4 + length l else 10 + length l)%nat.
Proof. unfold cs_rank. cbn [cur todo resv]. rewrite decide_True by reflexivity. reflexivity. Qed.

Lemma cs_rank2 (fr : nat) (l : list MachineInstr) (st : mstate) (r : option Z) :
  cs_rank (mkConfig Loop2 fr l st r) =
    match length l with
    | 0 => 1
    | 1 => if (regs st Succ =? 0)%Z then 8 else 2
    | _ => if decide (r = Some a) then 3 else 9
    end%nat.
Proof. unfold cs_rank. cbn [cur todo state resv]. rewrite decide_False, decide_True by congruence. reflexivity. Qed.

Lemma cs_rank_exit (fr : nat) (l : list MachineInstr) (st : mstate) (r : option Z) : cs_rank (mkConfig Exit fr l st r) = 0%nat.
Proof. unfold cs_rank. cbn [cur]. rewrite !decide_False by congruence. reflexivity. Qed.

Lemma cs_rank_own (c c' : config) : cs_at c → cur c ≠ Exit → own_step F c c' → (cs_rank c' < cs_rank c)%nat.
Proof.
  intros [es Hi] Hc [[e Hs] Hno]. destruct Hi as [fr st r Ha | fr st r Ha Hr | fr st r Ha Hr Hcmp | fr st r Ha Hr Heq
    | fr st r Ha Hr Heq | fr st r Ha H0 | fr st r Ha H1 Heq | fr st r Ha Heq | fr st r Ha Hd | fr st r Ha Hd];
    cbn [cur] in Hc; try contradiction; cbn [drop] in Hs, Hno; own_inversion Hs Hno.
  - rewrite !cs_rank1. match goal with x := u32 (regs st P + 0) |- _ => subst x end.
    rewrite (cs_addr Dest P Succ Cmp st0 HP st Ha). fold a. rewrite decide_True by reflexivity. cbn. lia.
  - rewrite !cs_rank1. destruct (decide _); cbn; lia.
  - rewrite Hcmp. destruct (_ =? regs st0 Old).
    + change (taken Nyuzi.BNZ 0) with false. cbv iota. rewrite !cs_rank1. destruct (decide _); cbn; lia.
    + change (taken Nyuzi.BNZ 0xffff) with true. cbv iota. rewrite cs_rank_exit, cs_rank1. destruct (decide _); cbn; lia.
  - replace b with Loop2 by congruence. change (Insts (getBlock F Loop2)) with (code F Loop2).
    rewrite Hcode2, cs_rank1, cs_rank2. destruct (decide _); cbn; lia.
  - match goal with x := u32 (regs st P + 0) |- _ => subst x end. rewrite !(cs_addr Dest P Succ Cmp st0 HP st Ha). fold a.
    rewrite !cs_rank2. cbn [length]. destruct (decide (r = Some a)); rewrite set_reg_eq; cbn; lia.
  - rewrite H0. change (taken Nyuzi.BZ 0) with true. cbv iota. change (Insts (getBlock F Loop1)) with (code F Loop1).
    rewrite Hcode1, cs_rank1, cs_rank2. cbn [length]. rewrite H0. cbn. lia.
  - rewrite H1. change (taken Nyuzi.BZ 1) with false. cbv iota. rewrite !cs_rank2. cbn [length]. rewrite H1. cbn. lia.
  - replace b with Exit by congruence. rewrite cs_rank_exit, cs_rank2. cbn. lia.
Qed.

Lemma cs_enabled (c : config) : cs_at c → cur c ≠ Exit → ∃ c', own_step F c c'.
Proof.
  intros [es Hi] Hc. destruct Hi as [fr st r Ha | fr st r Ha Hr | fr st r Ha Hr Hcmp | fr st r Ha Hr Heq
    | fr st r Ha Hr Heq | fr st r Ha H0 | fr st r Ha H1 Heq | fr st r Ha Heq | fr st r Ha Hd | fr st r Ha Hd];
    cbn [cur] in Hc; try contradiction; eexists.
  - eapply own_by_todo; [apply step_load_sync | right; apply cons_neq].
  - eapply own_by_todo; [apply step_alu; reflexivity | right; apply cons_neq].
  - eapply own_by_todo; [apply step_branch; right; reflexivity |].
    destruct (taken Nyuzi.BNZ (regs st Cmp)); [left; cbn [cur]; congruence | right; apply cons_neq].
  - eapply own_by_todo; [apply step_fallthrough; exact Hnext1 | left; cbn [cur]; congruence].
  - eapply own_by_todo; [apply step_store_sync | right; apply cons_neq].
  - eapply own_by_todo; [apply step_branch; left; reflexivity |]. rewrite H0. left. cbn [cur]. exact Hne.
  - eapply own_by_todo; [apply step_branch; left; reflexivity |]. rewrite H1. right. apply cons_neq.
  - eapply own_by_todo; [apply step_fallthrough; exact Hnext2 | left; cbn [cur]; congruence].
Qed.

Lemma cs_ranking : ranking F Exit cs_at cs_rank 6.
Proof.
  split; [| exact cs_rank_own | | | exact cs_enabled].
  - intros c e c' [es Hi] Hc Hs. exists (es ++ e). destruct (cs_inv_cur _ _ _ _ _ _ _ _ _ _ _ c es Hi Hc) as [[Hcur ->] | Hcur].
    + eapply cs_step_loop1; eassumption.
    + eapply cs_step_loop2; eassumption.
  - intros c c' _ (m & r' & _ & ->) Hr. unfold cs_rank. cbn [cur todo state regs resv] in *. rewrite Hr. reflexivity.
  - intros c c' _ (m & r' & _ & ->). unfold cs_rank. cbn [cur todo state regs resv].
    destruct (decide (cur c = Loop1)); [destruct (_ =? 3)%nat; [lia |]; do 2 destruct (decide _); lia |].
    destruct (decide (cur c = Loop2)); [| lia]. destruct (length (todo c)) as [| [| l]]; [lia | lia |].
    do 2 destruct (decide _); lia.
Qed.
End cmpswap.

(** ** The emitted code *)

(** An atomic pseudo instruction with the operands instruction selection gives it. *)
Inductive atomic_at (F : CFG) (BB n : nat) : Prop :=
  | at_binary opc Opcode inv d p (k1 k2 k3 k4 : bool) o :
      atomic_operation opc = Some (Opcode, inv) →
      code F BB !! n = Some (mkMI opc [MO_Register d k1 k2; MO_Register p k3 k4; o]) →
      old_reg F d → old_reg F p → p ≠ d → operand_ok F d Opcode o → atomic_at F BB n
  | at_cmp_swap d p old new (k1 k2 k3 k4 : bool * bool) :
      code F BB !! n = Some (mkMI Nyuzi.ATOMIC_CMP_SWAP [regop d k1; regop p k2; regop old k3; regop new k4]) →
      (∀ r, r ∈ [d; p; old; new] → old_reg F r) → d ∉ [p; old; new] → atomic_at F BB n.

Lemma ranking_weaken (F : CFG) (stop : nat) (I : config → Prop) (rank : config → nat) (T T' : nat) :
  (T ≤ T')%nat → ranking F stop I rank T → ranking F stop I rank T'.
Proof.
  intros Hle HR. split; [exact (rk_step _ _ _ _ _ HR) | exact (rk_own _ _ _ _ _ HR) | exact (rk_quiet _ _ _ _ _ HR) | |
    exact (rk_enabled _ _ _ _ _ HR)]. intros c c' Hi Ho. pose proof (rk_lost _ _ _ _ _ HR c c' Hi Ho). lia.
Qed.

(** A configuration that has not left has a rank. *)
Lemma ranking_pos (F : CFG) (stop : nat) (I : config → Prop) (rank : config → nat) (T : nat) (c : config) :
  ranking F stop I rank T → I c → cur c ≠ stop → (0 < rank c)%nat.
Proof.
  intros HR Hi Hc. destruct (rk_enabled _ _ _ _ _ HR c Hi Hc) as [c' Ho].
  pose proof (rk_own _ _ _ _ _ HR c c' Hi Hc Ho). lia.
Qed.

(** C24. Atomic operations are lock-free.  A thread in the code emitted for one can
    always take a step of its own, and as long as it has not left that code it
    has taken at most [6 * (m + 1) + 1] of them, [m] being the number of times
    another thread made it lose its reservation: whoever is scheduled leaves the
    loop unless other threads keep writing the word. *)
Theorem atomic_progress (F : CFG) (BB n : nat) :
  wf_at F BB → atomic_at F BB n →
  ∃ F' Exit, EmitInstrWithCustomInserter F BB n = Ret (F', Exit) ∧
    ∀ fr st r k m c, attempts F' Exit k m (mkConfig BB fr [] st r) c → cur c ≠ Exit →
      (k ≤ 6 * (m + 1) + 1)%nat ∧ ∃ c', own_step F' c c'.
Proof.
  intros Hwf Hat.
  enough (∃ F' Exit, EmitInstrWithCustomInserter F BB n = Ret (F', Exit) ∧
    ∀ fr st r, ∃ I rank, ranking F' Exit I rank 6 ∧
      let c := mkConfig BB fr [] st r in I c ∧ (rank c ≤ 8)%nat) as (F' & Exit & HE & HR).
  { exists F', Exit. split; [exact HE |]. intros fr st r k m c Ha Hc. destruct (HR fr st r) as (I & rank & Hrk & Hi & Hle).
    destruct (ranking_bound _ _ _ _ _ _ _ _ _ Hrk Hi Ha) as [Hic Hb]. pose proof (ranking_pos _ _ _ _ _ _ Hrk Hic Hc).
    split; [lia | exact (rk_enabled _ _ _ _ _ Hrk c Hic Hc)]. }
  destruct Hat as [opc Opcode inv d p k1 k2 k3 k4 o Hop HMI Hd Hp Hpd Ho | d p old new k1 k2 k3 k4 HMI Hold Hd].
  - destruct (atomic_binary_loop F BB n opc Opcode inv d p k1 k2 k3 k4 o Hwf Hop HMI Hd Hp Hpd Ho)
      as (F' & HF' & HE & HL & HBB & HnB & HnL & HpW & HSW & HSd & Hcalc).
    exists F', (S (NextBlock F)). split; [exact HF' |]. intros fr st r.
    set (calc := calc_code _ _ _ _ _ _ _) in HL.
    assert (Hlen : (length calc ≤ 3)%nat) by (unfold calc; destruct Opcode, inv; cbn; lia).
    do 2 eexists. split; [eapply ranking_weaken; [| eapply ranking_enter; [
      apply (loop_ranking F' (NextBlock F) (S (NextBlock F)) (load_reg F d Opcode) d p (new_reg F Opcode inv)
        (Nyuzi.VirtReg (NextReg F)) calc (written F d) st (λ v, atomic_spec opc v (rmw_operand st o))
        ltac:(lia) HL HnL HpW HSW HSd (Hcalc st)) | exact HnB | lia | |]]; [lia | |] |].
    + intros c [[es Hi] _]. destruct Hi; cbn [cur]; lia.
    + intros fr2 st2 r2 Hst. cbv zeta. split; [split; [exists []; apply I_start; intros q _; rewrite Hst; reflexivity | exists []; reflexivity] |].
      eapply rank_start; exact HL.
    + cbv zeta. split; [left; auto |]. rewrite decide_True by reflexivity. lia.
  - destruct (cmp_swap_loop F BB n d p old new k1 k2 k3 k4 Hwf HMI Hold Hd)
      as (F' & HF' & HE & HL1 & HL2 & HBB & HnB & Hn1 & Hn2 & HpW & HoW & HnW & HSd & HCd & HW).
    set (L1 := NextBlock F) in *. exists F', (S (S L1)). split; [exact HF' |]. intros fr st r.
    do 2 eexists. split; [eapply ranking_enter; [
      apply (cs_ranking F' L1 (S L1) (S (S L1)) d p old new _ _ st ltac:(lia) ltac:(lia) ltac:(lia) HL1 HL2 Hn1 Hn2 HpW HoW HnW HSd HCd)
      | exact HnB | lia | |] |].
    + intros c [es Hi]. destruct Hi; cbn [cur]; lia.
    + intros fr2 st2 r2 Hst. cbv zeta. rewrite HL1. split; [exists []; apply CS_start; intros q _; rewrite Hst; reflexivity |].
      unfold cs_rank. cbn [cur todo length]. rewrite decide_True by reflexivity. cbv [Nat.eqb]. reflexivity.
    + cbv zeta. split; [left; auto |]. rewrite decide_True by reflexivity. lia.
Qed.

Lemma atomic_progress_witness :
  ∃ F' Exit, EmitInstrWithCustomInserter swap_block 0 1 = Ret (F', Exit) ∧
    ∀ fr st r k m c, attempts F' Exit k m (mkConfig 0 fr [] st r) c → cur c ≠ Exit →
      (k ≤ 6 * (m + 1) + 1)%nat ∧ ∃ c', own_step F' c c'.
Proof.
  apply (atomic_progress swap_block 0 1 swap_block_wf).
  apply (at_cmp_swap swap_block 0 1 (Nyuzi.VirtReg 3) (Nyuzi.VirtReg 0) (Nyuzi.VirtReg 1) (Nyuzi.VirtReg 2)
           (true, false) (false, false) (false, false) (false, false)); [reflexivity | |
    rewrite !not_elem_of_cons; repeat split; try discriminate; apply not_elem_of_nil].
  intros r Hr. rewrite !elem_of_cons in Hr. destruct Hr as [-> | [-> | [-> | [-> | Hr]]]]; cbn; try lia.
  apply elem_of_nil in Hr. contradiction.
Defined.
