(* ===== verification/NyuziCallingConv.v ===== *)
(** * NyuziCallingConv: where arguments and results go

    The tables [CC_Nyuzi32] and [RetCC_Nyuzi32] of lib/Target/Nyuzi/
    NyuziCallingConv.td, the meaning utils/TableGen/CallingConvEmitter.cpp gives
    the actions of a table, and the [CCState] of
    include/llvm/CodeGen/CallingConvLower.h and lib/CodeGen/CallingConvLower.cpp
    they update. *)
From S2P Require Import Prelude.
From S2P Require Import MathExtras.
From S2P Require Import NyuziTarget.
From S2P Require Import NyuziISelDAG.

(** ** Locations *)
Inductive LocInfo : Type :=
  | Full | SExt | ZExt | AExt | SExtUpper | ZExtUpper | AExtUpper | BCvt | VExt | FPExt | Indirect.

#[global] Instance LocInfo_eq_dec : EqDecision LocInfo.
Proof. solve_decision. Defined.

(** The union of [isMem] and [Loc]. *)
Inductive Location : Type := RegLoc (r : Nyuzi.reg) | MemLoc (offset : Z).

Record CCValAssign : Type := mkVA {
  ValNo : nat;
  ValVT : MVT.t;
  Loc : Location;
  LocVT : MVT.t;
  HTP : LocInfo
}.

Definition isRegLoc (VA : CCValAssign) : bool := match Loc VA with RegLoc _ => true | MemLoc _ => false end.
Definition isMemLoc (VA : CCValAssign) : bool := negb (isRegLoc VA).
Definition getLocReg (VA : CCValAssign) : outcome Nyuzi.reg :=
  match Loc VA with RegLoc r => Ret r | MemLoc _ => AssertFail "isRegLoc()" end.
Definition getLocMemOffset (VA : CCValAssign) : outcome Z :=
  match Loc VA with MemLoc o => Ret o | RegLoc _ => AssertFail "isMemLoc()" end.

(** [ISD::ArgFlagsTy] *)
Record ArgFlagsTy : Type := mkArgFlags {
  isSExt : bool;
  isZExt : bool;
  isByVal : bool;
  ByValSize : Z;
  ByValAlign : Z
}.

(** [ISD::InputArg] and [ISD::OutputArg]: what the assignment reads of them. *)
Record Arg : Type := mkArg { VT : MVT.t; Flags : ArgFlagsTy }.

(** ** CCState; [MaxAlignment] is the one of the function's frame. *)
Record CCState : Type := mkCCState {
  isVarArg : bool;
  Locs : list CCValAssign;
  StackOffset : Z;
  MaxStackArgAlign : Z;
  UsedRegs : list Nyuzi.reg;
  MaxAlignment : Z
}.

Definition newCCState (isVarArg : bool) (MaxAlignment : Z) : CCState := mkCCState isVarArg [] 0 1 [] MaxAlignment.

Definition addLoc (V : CCValAssign) (St : CCState) : CCState :=
  mkCCState (isVarArg St) (Locs St ++ [V]) (StackOffset St) (MaxStackArgAlign St) (UsedRegs St) (MaxAlignment St).

Definition isAllocated (St : CCState) (r : Nyuzi.reg) : bool := bool_decide (r ∈ UsedRegs St).

(** No Nyuzi register has another one as an alias. *)
Definition MarkAllocated (r : Nyuzi.reg) (St : CCState) : CCState :=
  mkCCState (isVarArg St) (Locs St) (StackOffset St) (MaxStackArgAlign St) (r :: UsedRegs St) (MaxAlignment St).

Definition getFirstUnallocated (St : CCState) (Regs : list Nyuzi.reg) : nat :=
  match list_find (λ r, isAllocated St r = false) Regs with Some (i, _) => i | None => length Regs end.

(** [AllocateReg(ArrayRef)]; [None] is the register number zero. *)
Definition AllocateReg (Regs : list Nyuzi.reg) (St : CCState) : option Nyuzi.reg * CCState :=
  match Regs !! getFirstUnallocated St Regs with
  | None => (None, St)
  | Some Reg => (Some Reg, MarkAllocated Reg St)
  end.

Definition AllocateStack (Size Align : Z) (St : CCState) : outcome (Z * CCState) :=
  cassert (negb (Align =? 0) && (Z.land (u32 (Align - 1)) Align =? 0)) "Align && ((Align - 1) & Align) == 0" ≫= λ _,
  alignTo (StackOffset St) Align 0 ≫= λ o,
  let Result := u32 o in
  Ret (Result, mkCCState (isVarArg St) (Locs St) (u32 (Result + Size)) (Z.max Align (MaxStackArgAlign St)) (UsedRegs St)
                 (Z.max Align (MaxAlignment St))).

(** ** Calling convention tables *)
Inductive CCAction : Type :=
  | CCIfType (VTs : list MVT.t) (A : CCAction)
  | CCIfNotVarArg (A : CCAction)
  | CCPromoteToType (DestTy : MVT.t)
  | CCAssignToReg (RegList : list Nyuzi.reg)
  | CCAssignToStack (Size Align : Z).

(** The code of an action: it goes on with the location type and information
    it leaves, or returns false, the value being assigned. *)
Inductive action_result : Type :=
  | Continue (LocVT : MVT.t) (Info : LocInfo)
  | Assigned (St : CCState).

Section emit.
Context (ValNo : nat) (ValVT : MVT.t) (ArgFlags : ArgFlagsTy).

Fixpoint EmitAction (A : CCAction) (LocVT : MVT.t) (Info : LocInfo) (St : CCState) : outcome action_result :=
  match A with
  | CCIfType VTs A => if bool_decide (LocVT ∈ VTs) then EmitAction A LocVT Info St else Ret (Continue LocVT Info)
  | CCIfNotVarArg A => if negb (isVarArg St) then EmitAction A LocVT Info St else Ret (Continue LocVT Info)
  | CCPromoteToType DestTy =>
      Ret (Continue DestTy (if MVT.isFloatingPoint DestTy then FPExt
                            else if isSExt ArgFlags then SExt else if isZExt ArgFlags then ZExt else AExt))
  | CCAssignToReg RegList =>
      match AllocateReg RegList St with
      | (Some Reg, St) => Ret (Assigned (addLoc (mkVA ValNo ValVT (RegLoc Reg) LocVT Info) St))
      | (None, _) => Ret (Continue LocVT Info)
      end
  | CCAssignToStack Size Align =>
      AllocateStack Size Align St ≫= λ '(Offset, St),
      Ret (Assigned (addLoc (mkVA ValNo ValVT (MemLoc Offset) LocVT Info) St))
  end.

(** The function of a table; it returns true, [None] here, when no action
    assigned the value. *)
Fixpoint EmitCallingConv (Actions : list CCAction) (LocVT : MVT.t) (Info : LocInfo) (St : CCState) : outcome (option CCState) :=
  match Actions with
  | [] => Ret None
  | A :: l =>
      EmitAction A LocVT Info St ≫= λ r,
      match r with
      | Assigned St => Ret (Some St)
      | Continue LocVT Info => EmitCallingConv l LocVT Info St
      end
  end.
End emit.

Definition CC_Nyuzi32 : list CCAction := [
  CCIfType [MVT.i8; MVT.i16] (CCPromoteToType MVT.i32);
  CCIfNotVarArg (CCIfType [MVT.i32; MVT.f32; MVT.v16i1] (CCAssignToReg (map Nyuzi.S (seq 0 8))));
  CCIfNotVarArg (CCIfType [MVT.v16i32; MVT.v16f32] (CCAssignToReg (map Nyuzi.V (seq 0 8))));
  CCIfType [MVT.i32; MVT.f32] (CCAssignToStack 4 4);
  CCIfType [MVT.v16i32; MVT.v16f32] (CCAssignToStack 64 64);
  CCIfType [MVT.v16i1] (CCAssignToStack 2 2)
].

Definition RetCC_Nyuzi32 : list CCAction := [
  CCIfType [MVT.i8; MVT.i16] (CCPromoteToType MVT.i32);
  CCIfType [MVT.i32; MVT.f32; MVT.v16i1] (CCAssignToReg (map Nyuzi.S (seq 0 6)));
  CCIfType [MVT.v16i32; MVT.v16f32] (CCAssignToReg (map Nyuzi.V (seq 0 6)))
].

(** [AnalyzeFormalArguments], [AnalyzeCallOperands], [AnalyzeReturn] and
    [AnalyzeCallResult] are this loop over their arguments. *)
Fixpoint Analyze (Fn : list CCAction) (i : nat) (Args : list Arg) (St : CCState) : outcome CCState :=
  match Args with
  | [] => Ret St
  | A :: l =>
      EmitCallingConv i (VT A) (Flags A) Fn (VT A) Full St ≫= λ r,
      match r with
      | Some St => Analyze Fn (S i) l St
      | None => Unreachable "unhandled type"
      end
  end.

Definition AnalyzeFormalArguments (Ins : list Arg) (Fn : list CCAction) (St : CCState) : outcome CCState := Analyze Fn 0 Ins St.
Definition AnalyzeCallOperands (Outs : list Arg) (Fn : list CCAction) (St : CCState) : outcome CCState := Analyze Fn 0 Outs St.
Definition AnalyzeReturn (Outs : list Arg) (Fn : list CCAction) (St : CCState) : outcome CCState := Analyze Fn 0 Outs St.
Definition AnalyzeCallResult (Ins : list Arg) (Fn : list CCAction) (St : CCState) : outcome CCState := Analyze Fn 0 Ins St.

(** [CheckReturn]: whether every value has a location. *)
Fixpoint CheckReturn (Fn : list CCAction) (i : nat) (Outs : list Arg) (St : CCState) : outcome bool :=
  match Outs with
  | [] => Ret true
  | A :: l =>
      EmitCallingConv i (VT A) (Flags A) Fn (VT A) Full St ≫= λ r,
      match r with
      | Some St => CheckReturn Fn (S i) l St
      | None => Ret false
      end
  end.

(** ** Lemmas *)

(** What a load of a type reads and a store writes, in bytes. *)
Definition mem_size (VT : MVT.t) : Z :=
  match VT with MVT.i32 | MVT.f32 => 4 | MVT.v16i1 => 2 | MVT.v16i32 | MVT.v16f32 => 64 | _ => 0 end.

Definition legal (VT : MVT.t) : Prop := VT ∈ [MVT.i32; MVT.f32; MVT.v16i1; MVT.v16i32; MVT.v16f32].

(** The type of the location of a value, and the types the tables accept. *)
Definition loc_type (VT : MVT.t) : MVT.t := match VT with MVT.i8 | MVT.i16 => MVT.i32 | _ => VT end.
Definition loc_info (VT : MVT.t) (F : ArgFlagsTy) : LocInfo :=
  match VT with
  | MVT.i8 | MVT.i16 => if isSExt F then SExt else if isZExt F then ZExt else AExt
  | _ => Full
  end.
Definition assignable (VT : MVT.t) : Prop := legal (loc_type VT).

(** The registers an argument of a type may go to. *)
Definition arg_regs (VT : MVT.t) : list Nyuzi.reg := map (if decide (VT = MVT.v16i32 ∨ VT = MVT.v16f32) then Nyuzi.V else Nyuzi.S) (seq 0 8).

(** The location [VA] is free before and taken after. *)
Definition placed (St : CCState) (VA : CCValAssign) (St' : CCState) : Prop :=
  Locs St' = Locs St ++ [VA] ∧ isVarArg St' = isVarArg St ∧
  match Loc VA with
  | RegLoc r =>
      isVarArg St = false ∧ r ∈ arg_regs (LocVT VA) ∧ r ∉ UsedRegs St ∧ UsedRegs St' = r :: UsedRegs St ∧
      StackOffset St' = StackOffset St
  | MemLoc o =>
      UsedRegs St' = UsedRegs St ∧ StackOffset St ≤ o < StackOffset St + mem_size (LocVT VA) ∧
      (mem_size (LocVT VA) | o)%Z ∧ StackOffset St' = o + mem_size (LocVT VA)
  end.

(** The fields of the location of value [i]. *)
Definition describes (VA : CCValAssign) (i : nat) (A : Arg) : Prop :=
  ValNo VA = i ∧ ValVT VA = VT A ∧ LocVT VA = loc_type (VT A) ∧ HTP VA = loc_info (VT A) (Flags A).

Lemma AllocateReg_spec (Regs : list Nyuzi.reg) (St St' : CCState) (r : Nyuzi.reg) :
  AllocateReg Regs St = (Some r, St') → r ∈ Regs ∧ r ∉ UsedRegs St ∧ St' = MarkAllocated r St.
Proof.
  unfold AllocateReg, getFirstUnallocated. destruct (list_find _ Regs) as [[i x] |] eqn:Hf.
  - apply list_find_Some in Hf as (Hi & Hx & _). rewrite Hi. intros [= -> <-].
    unfold isAllocated in Hx. apply bool_decide_eq_false in Hx. split; [eapply list_elem_of_lookup_2; exact Hi | auto].
  - rewrite lookup_ge_None_2 by lia. discriminate.
Qed.

Lemma AllocateReg_None (Regs : list Nyuzi.reg) (St St' : CCState) :
  AllocateReg Regs St = (None, St') → Forall (λ r, r ∈ UsedRegs St) Regs.
Proof.
  unfold AllocateReg, getFirstUnallocated. destruct (list_find _ Regs) as [[i x] |] eqn:Hf.
  - apply list_find_Some in Hf as (Hi & _). rewrite Hi. discriminate.
  - apply list_find_None in Hf. intros _. eapply Forall_impl; [exact Hf |]. intros r Hr.
    unfold isAllocated in Hr. destruct (bool_decide_reflect (r ∈ UsedRegs St)); [assumption | contradiction Hr; reflexivity].
Qed.

Lemma AllocateStack_spec (Size : Z) (St : CCState) :
  Size ∈ [2; 4; 64] → 0 ≤ StackOffset St → StackOffset St + 128 ≤ 2 ^ 32 →
  ∃ o St', AllocateStack Size Size St = Ret (o, St') ∧ Locs St' = Locs St ∧ isVarArg St' = isVarArg St ∧
    UsedRegs St' = UsedRegs St ∧ StackOffset St ≤ o < StackOffset St + Size ∧ (Size | o)%Z ∧ StackOffset St' = o + Size.
Proof.
  intros Hs H0 Hb. unfold AllocateStack.
  assert (Hr : 2 ≤ Size ≤ 64) by (rewrite !elem_of_cons, elem_of_nil in Hs; lia).
  replace (negb (Size =? 0) && (Z.land (u32 (Size - 1)) Size =? 0)) with true
    by (rewrite !elem_of_cons, elem_of_nil in Hs; destruct Hs as [-> | [-> | [-> | []]]]; reflexivity).
  destruct (alignTo_spec (StackOffset St) Size) as (o & Ho & Hb' & Hd); [lia .. |]. rewrite Ho.
  cbn [cassert mbind outcome_bind]. rewrite (uint_small 32 o) by lia.
  eexists _, _. split; [reflexivity |]. cbn. rewrite (uint_small 32 (o + Size)) by lia. auto 10.
Qed.

(** Evaluates the type tests of a table. *)
Ltac type_tests :=
  repeat match goal with |- context [bool_decide (?a ∈ ?l)] =>
    let b := eval vm_compute in (bool_decide (a ∈ l)) in change (bool_decide (a ∈ l)) with b end.

Ltac legal_cases H :=
  unfold legal in H; rewrite !elem_of_cons, elem_of_nil in H; destruct H as [-> | [-> | [-> | [-> | [-> | []]]]]].

Lemma CC_promote (i : nat) (A : Arg) (Fn : list CCAction) (St : CCState) :
  EmitCallingConv i (VT A) (Flags A) (CCIfType [MVT.i8; MVT.i16] (CCPromoteToType MVT.i32) :: Fn) (VT A) Full St =
  EmitCallingConv i (VT A) (Flags A) Fn (loc_type (VT A)) (loc_info (VT A) (Flags A)) St.
Proof.
  destruct A as [ty F]. cbn [VT Flags] in *. cbn [EmitCallingConv EmitAction].
  destruct ty; type_tests; try reflexivity.
Qed.

(** The rest of the table on a legal type: a register when there is one and the
    function takes a fixed number of arguments, else a slot. *)
Lemma CC_Nyuzi32_legal (i : nat) (ty T : MVT.t) (F : ArgFlagsTy) (I : LocInfo) (St : CCState) :
  legal T →
  EmitCallingConv i ty F (tail CC_Nyuzi32) T I St =
  match (if isVarArg St then None else fst (AllocateReg (arg_regs T) St)) with
  | Some r => Ret (Some (addLoc (mkVA i ty (RegLoc r) T I) (MarkAllocated r St)))
  | None =>
      AllocateStack (mem_size T) (mem_size T) St ≫= λ '(o, St'), Ret (Some (addLoc (mkVA i ty (MemLoc o) T I) St'))
  end.
Proof.
  intros HT. legal_cases HT; cbn [tail CC_Nyuzi32 EmitCallingConv EmitAction]; type_tests;
    change (arg_regs _) with (map Nyuzi.S (seq 0 8)) || change (arg_regs _) with (map Nyuzi.V (seq 0 8));
    destruct (isVarArg St) eqn:Hv; cbn [negb mbind outcome_bind];
    try (match goal with |- context [fst (AllocateReg ?l St)] => destruct (AllocateReg l St) as [[r |] St1] eqn:Hr end;
         cbn [fst mbind outcome_bind];
         [apply AllocateReg_spec in Hr as (_ & _ & ->); reflexivity |]);
    type_tests; cbn [mbind outcome_bind mem_size]; try (destruct (AllocateStack _ _ St) as [[o St2] | | | |]; reflexivity).
Qed.

Lemma CC_Nyuzi32_assigns (i : nat) (A : Arg) (St : CCState) :
  assignable (VT A) → 0 ≤ StackOffset St → StackOffset St + 128 ≤ 2 ^ 32 →
  ∃ VA St', EmitCallingConv i (VT A) (Flags A) CC_Nyuzi32 (VT A) Full St = Ret (Some St') ∧ placed St VA St' ∧ describes VA i A.
Proof.
  intros HA H0 Hb. unfold CC_Nyuzi32. rewrite CC_promote.
  rewrite (CC_Nyuzi32_legal i (VT A) (loc_type (VT A))) by exact HA.
  set (T := loc_type (VT A)) in *. set (I := loc_info (VT A) (Flags A)).
  destruct (if isVarArg St then None else fst (AllocateReg (arg_regs T) St)) as [r |] eqn:Hr.
  - destruct (isVarArg St) eqn:Hv; [discriminate |].
    destruct (AllocateReg (arg_regs T) St) as [x St1] eqn:Ha. cbn in Hr. subst x.
    apply AllocateReg_spec in Ha as (Hin & Hu & _).
    exists (mkVA i (VT A) (RegLoc r) T I). eexists. split; [reflexivity |].
    split; [| repeat split]. unfold placed. cbn -[arg_regs]. auto 10.
  - assert (Hs : mem_size T ∈ [2; 4; 64]) by (change (legal T) in HA; clear - HA; clearbody T; legal_cases HA; set_solver).
    destruct (AllocateStack_spec (mem_size T) St Hs H0 Hb) as (o & St' & Ho & HL & HV & HU & Hro & Hd & HS). rewrite Ho.
    cbn [mbind outcome_bind]. exists (mkVA i (VT A) (MemLoc o) T I). eexists. split; [reflexivity |].
    split; [| repeat split]. unfold placed. cbn. rewrite HL, HV, HU, HS. auto 10.
Qed.

Definition assigns (A : Arg) : Prop := assignable (VT A).

(** The locations a table gives to a list of values one after the other. *)
Inductive placements : CCState → list CCValAssign → CCState → Prop :=
  | placements_nil St : placements St [] St
  | placements_cons St VA St1 l St2 : placed St VA St1 → placements St1 l St2 → placements St (VA :: l) St2.

Lemma Analyze_app (Fn : list CCAction) (i : nat) (l l' : list Arg) (St : CCState) :
  Analyze Fn i (l ++ l') St = Analyze Fn i l St ≫= Analyze Fn (i + length l) l'.
Proof.
  revert i St. induction l as [| A l IH]; intros i St; cbn [Analyze app length]; [rewrite Nat.add_0_r; reflexivity |].
  destruct (EmitCallingConv _ _ _ _ _ _ _) as [[St1 |] | | | |]; cbn [mbind outcome_bind]; try reflexivity.
  rewrite IH. replace (S i + length l)%nat with (i + S (length l))%nat by lia. reflexivity.
Qed.

Lemma Analyze_placements (i : nat) (l : list Arg) (St : CCState) :
  Forall assigns l → 0 ≤ StackOffset St → StackOffset St + 128 * Z.of_nat (length l) ≤ 2 ^ 32 →
  ∃ VAs St', Analyze CC_Nyuzi32 i l St = Ret St' ∧ placements St VAs St' ∧ Locs St' = Locs St ++ VAs ∧
    length VAs = length l ∧ (∀ k A, l !! k = Some A → ∃ VA, VAs !! k = Some VA ∧ describes VA (i + k) A) ∧
    StackOffset St' ≤ StackOffset St + 128 * Z.of_nat (length l).
Proof.
  intros Hl. revert i St. induction Hl as [| A l HA Hl IH]; intros i St H0 Hb.
  - exists [], St. split; [reflexivity |]. split; [constructor |]. rewrite app_nil_r. split; [reflexivity |].
    split; [reflexivity |]. split; [discriminate | cbn; lia].
  - cbn [length] in Hb. destruct (CC_Nyuzi32_assigns i A St HA H0) as (VA & St1 & He & Hp & Hd); [lia |].
    pose proof Hp as (HL & _ & Hloc).
    assert (Hs : 0 ≤ StackOffset St1 ≤ StackOffset St + 128).
    { destruct Hd as (_ & _ & HT & _).
      assert (0 ≤ mem_size (LocVT VA) ≤ 64) by (rewrite HT; unfold assigns, assignable in HA; destruct (loc_type (VT A)); cbn; lia).
      destruct (Loc VA); [| lia]. destruct Hloc as (_ & _ & _ & _ & ->). lia. }
    destruct (IH (S i) St1) as (VAs & St' & Ha & Hps & HLs & Hlen & Hk & Hend); [lia .. |].
    exists (VA :: VAs), St'. cbn [Analyze]. rewrite He. cbn [mbind outcome_bind]. split; [exact Ha |].
    split; [econstructor; eassumption |]. split; [rewrite HLs, HL, <- app_assoc; reflexivity |].
    split; [cbn; congruence |]. split; [| cbn [length]; lia]. intros [| k] B HB.
    + injection HB as <-. exists VA. rewrite Nat.add_0_r. auto.
    + destruct (Hk k B HB) as (VB & HVB & HdB). exists VB. split; [exact HVB |].
      replace (i + S k)%nat with (S i + k)%nat by lia. exact HdB.
Qed.

(** Locations that do not share a register or a byte. *)
Definition disjoint_locs (V W : CCValAssign) : Prop :=
  match Loc V, Loc W with
  | RegLoc r, RegLoc r' => r ≠ r'
  | MemLoc o, MemLoc o' => o + mem_size (LocVT V) ≤ o' ∨ o' + mem_size (LocVT W) ≤ o
  | _, _ => True
  end.

#[global] Instance disjoint_locs_sym : Symmetric disjoint_locs.
Proof. intros V W. unfold disjoint_locs. destruct (Loc V), (Loc W); auto. intros []; auto. Qed.

Lemma ForallOrdPairs_lookup {A : Type} (R : A → A → Prop) `{!Symmetric R} (l : list A) (i j : nat) (x y : A) :
  ForallOrdPairs R l → i ≠ j → l !! i = Some x → l !! j = Some y → R x y.
Proof.
  intros H. revert i j. induction H as [| a l Ha H IH]; intros i j Hij Hx Hy; [discriminate |].
  rewrite Forall_lookup in Ha.
  destruct i as [| i], j as [| j]; [contradiction | injection Hx as ->; exact (Ha j y Hy) |
    injection Hy as ->; symmetry; exact (Ha i x Hx) | apply (IH i j); [congruence | exact Hx | exact Hy]].
Qed.

(** Where a location of a placement lies. *)
Definition located (St : CCState) (VA : CCValAssign) (St' : CCState) : Prop :=
  match Loc VA with
  | RegLoc r => isVarArg St = false ∧ r ∈ arg_regs (LocVT VA) ∧ r ∉ UsedRegs St
  | MemLoc o =>
      StackOffset St ≤ o ∧ o + mem_size (LocVT VA) ≤ StackOffset St' ∧ (mem_size (LocVT VA) | o)%Z
  end.

Lemma placements_located (St St' : CCState) (l : list CCValAssign) :
  placements St l St' → StackOffset St ≤ StackOffset St' ∧ ∀ VA, VA ∈ l → located St VA St'.
Proof.
  induction 1 as [St | St VA St1 l St2 Hp Hps (Hle & IH)]; [split; [lia | intros VA []%elem_of_nil] |].
  destruct Hp as (HL & Hv & Hloc).
  assert (Hle1 : StackOffset St ≤ StackOffset St1).
  { destruct (Loc VA); [destruct Hloc as (_ & _ & _ & _ & ->); lia | lia]. }
  split; [lia |]. intros VB [-> | HB]%elem_of_cons.
  - unfold located. destruct (Loc VA); [tauto | lia || (destruct Hloc as (_ & ? & ? & ?); repeat split; try lia; assumption)].
  - specialize (IH VB HB). unfold located in *. destruct (Loc VB) as [r | o]; [| repeat split; try lia; tauto].
    destruct IH as (Hv' & Hr & Hu). rewrite Hv in Hv'. split; [exact Hv' |]. split; [exact Hr |].
    destruct (Loc VA).
    + destruct Hloc as (_ & _ & _ & HU & _). rewrite HU, not_elem_of_cons in Hu. tauto.
    + destruct Hloc as (HU & _). rewrite HU in Hu. exact Hu.
Qed.

Lemma placements_disjoint (St St' : CCState) (l : list CCValAssign) :
  placements St l St' → ForallOrdPairs disjoint_locs l.
Proof.
  induction 1 as [St | St VA St1 l St2 Hp Hps IH]; [constructor |]. constructor; [| exact IH].
  apply Forall_forall. intros VB HB. destruct (placements_located _ _ _ Hps) as (_ & Hl). specialize (Hl VB HB).
  unfold disjoint_locs, located in *. destruct Hp as (_ & _ & Hloc).
  destruct (Loc VA) as [r | o], (Loc VB) as [r' | o']; try exact I.
  - destruct Hloc as (_ & _ & _ & HU & _), Hl as (_ & _ & Hu). rewrite HU, not_elem_of_cons in Hu. destruct Hu. congruence.
  - left. lia.
Qed.

(** ** Results *)
Definition vector_class (T : MVT.t) : bool := bool_decide (T = MVT.v16i32 ∨ T = MVT.v16f32).
Definition class_count (vec : bool) (l : list Arg) : nat :=
  length (filter (λ A, vector_class (loc_type (VT A)) = vec) l).
Definition class_reg (vec : bool) (n : nat) : Nyuzi.reg := if vec then Nyuzi.V n else Nyuzi.S n.

(** The first [n vec] registers of each class are used. *)
Definition used_prefix (n : bool → nat) (St : CCState) : Prop := ∀ vec i, class_reg vec i ∈ UsedRegs St ↔ (i < n vec)%nat.

Lemma AllocateReg_prefix (vec : bool) (n : bool → nat) (N : nat) (St : CCState) :
  used_prefix n St → (n vec ≤ N)%nat →
  AllocateReg (map (class_reg vec) (seq 0 N)) St =
    if (n vec <? N)%nat then (Some (class_reg vec (n vec)), MarkAllocated (class_reg vec (n vec)) St) else (None, St).
Proof.
  intros Hu Hn. unfold used_prefix in Hu.
  assert (Hl : ∀ i, (i < N)%nat → map (class_reg vec) (seq 0 N) !! i = Some (class_reg vec i)).
  { intros i Hi. rewrite list_lookup_fmap, lookup_seq_lt by exact Hi. reflexivity. }
  assert (Hall : ∀ i r, map (class_reg vec) (seq 0 N) !! i = Some r → r = class_reg vec i ∧ (i < N)%nat).
  { intros i r Hi. pose proof (lookup_lt_Some _ _ _ Hi) as Hlt. rewrite length_map, length_seq in Hlt.
    rewrite Hl in Hi by exact Hlt. injection Hi as <-. auto. }
  unfold AllocateReg, getFirstUnallocated. destruct (Nat.ltb_spec (n vec) N) as [Hlt | Hge].
  - replace (list_find _ _) with (Some (n vec, class_reg vec (n vec))); [rewrite Hl by exact Hlt; reflexivity |].
    symmetry. apply list_find_Some. split; [apply Hl; exact Hlt |]. split.
    + unfold isAllocated. apply bool_decide_eq_false. intros Hin. apply Hu in Hin. lia.
    + intros j r Hj Hlj. apply Hall in Hj as [-> _]. unfold isAllocated. rewrite bool_decide_eq_true_2 by (apply Hu; lia).
      discriminate.
  - replace (list_find _ _) with (@None (nat * Nyuzi.reg)).
    + rewrite lookup_ge_None_2 by lia. reflexivity.
    + symmetry. apply list_find_None, Forall_lookup. intros i r Hi. apply Hall in Hi as [-> Hi].
      unfold isAllocated. rewrite bool_decide_eq_true_2 by (apply Hu; lia). discriminate.
Qed.

Lemma RetCC_legal (i : nat) (A : Arg) (n : bool → nat) (St : CCState) :
  assigns A → used_prefix n St → (∀ vec, n vec ≤ 6)%nat →
  let vec := vector_class (loc_type (VT A)) in
  EmitCallingConv i (VT A) (Flags A) RetCC_Nyuzi32 (VT A) Full St =
    Ret (if (n vec <? 6)%nat
         then Some (addLoc (mkVA i (VT A) (RegLoc (class_reg vec (n vec))) (loc_type (VT A)) (loc_info (VT A) (Flags A)))
                      (MarkAllocated (class_reg vec (n vec)) St))
         else None).
Proof.
  intros HA Hu Hn. cbv zeta. unfold RetCC_Nyuzi32. rewrite CC_promote.
  set (I := loc_info (VT A) (Flags A)). unfold assigns, assignable in HA. revert HA. generalize (loc_type (VT A)) as T. intros T HA.
  pose proof (AllocateReg_prefix true n 6 St Hu (Hn true)) as HV. pose proof (AllocateReg_prefix false n 6 St Hu (Hn false)) as HS.
  change (map (class_reg true) (seq 0 6)) with (map Nyuzi.V (seq 0 6)) in HV.
  change (map (class_reg false) (seq 0 6)) with (map Nyuzi.S (seq 0 6)) in HS.
  legal_cases HA; cbn [EmitCallingConv EmitAction]; type_tests; rewrite ?HV, ?HS;
    change (vector_class _) with true || change (vector_class _) with false;
    destruct (n true <? 6)%nat, (n false <? 6)%nat; reflexivity.
Qed.

Lemma used_prefix_next (n : bool → nat) (St : CCState) (A : Arg) (V : CCValAssign) :
  let vec := vector_class (loc_type (VT A)) in
  used_prefix n St → used_prefix (λ b, if Bool.eqb b vec then S (n b) else n b) (addLoc V (MarkAllocated (class_reg vec (n vec)) St)).
Proof.
  cbv zeta. set (vec := vector_class _). clearbody vec. intros Hu b i. unfold used_prefix in Hu. cbn [addLoc MarkAllocated UsedRegs].
  rewrite elem_of_cons, Hu.
  assert (Hinj : class_reg b i = class_reg vec (n vec) ↔ b = vec ∧ i = n vec) by (destruct b, vec; cbn; naive_solver).
  rewrite Hinj. destruct b, vec; cbn; (split; [intros [[? ?] |]; lia || discriminate | intros Hi]).
  all: try (right; exact Hi); destruct (decide (i = n true)), (decide (i = n false)); auto; right; lia.
Qed.

Lemma class_count_app (vec : bool) (l l' : list Arg) : class_count vec (l ++ l') = (class_count vec l + class_count vec l')%nat.
Proof. unfold class_count. rewrite filter_app, length_app. reflexivity. Qed.

Lemma class_count_one (vec : bool) (A : Arg) :
  class_count vec [A] = if Bool.eqb vec (vector_class (loc_type (VT A))) then 1%nat else 0%nat.
Proof.
  unfold class_count. rewrite filter_cons. destruct (vector_class _), vec; cbn; try reflexivity.
Qed.

(** The registers of results: the next one of the class each time. *)
Lemma Analyze_RetCC (n : bool → nat) (pre l : list Arg) (St : CCState) :
  Forall assigns l → (∀ vec, n vec = class_count vec pre) → used_prefix n St → (∀ vec, n vec ≤ 6)%nat →
  if bool_decide (∀ vec, class_count vec (pre ++ l) ≤ 6)%nat then
    CheckReturn RetCC_Nyuzi32 (length pre) l St = Ret true ∧
    ∃ VAs St', Analyze RetCC_Nyuzi32 (length pre) l St = Ret St' ∧ Locs St' = Locs St ++ VAs ∧ length VAs = length l ∧
      ∀ k A, l !! k = Some A → ∃ VA, VAs !! k = Some VA ∧ describes VA (length pre + k) A ∧
        let vec := vector_class (loc_type (VT A)) in Loc VA = RegLoc (class_reg vec (class_count vec (pre ++ take k l)))
  else CheckReturn RetCC_Nyuzi32 (length pre) l St = Ret false ∧
       Analyze RetCC_Nyuzi32 (length pre) l St = Unreachable "unhandled type".
Proof.
  intros Hl. revert n pre St. induction Hl as [| A l HA Hl IH]; intros n pre St Hn Hu H6.
  - rewrite bool_decide_eq_true_2 by (intros vec; rewrite app_nil_r, <- Hn; apply H6). split; [reflexivity |].
    exists [], St. rewrite app_nil_r. split; [reflexivity |]. split; [reflexivity |]. split; [reflexivity | discriminate].
  - cbn [CheckReturn Analyze]. rewrite !RetCC_legal with (n := n) by assumption. cbn [mbind outcome_bind].
    set (vec := vector_class (loc_type (VT A))).
    destruct (Nat.ltb_spec (n vec) 6) as [Hlt | Hge].
    + set (VA := mkVA _ _ _ _ _). set (St1 := addLoc VA _).
      replace (pre ++ A :: l) with ((pre ++ [A]) ++ l) by (rewrite <- app_assoc; reflexivity).
      specialize (IH (λ b, if Bool.eqb b vec then S (n b) else n b) (pre ++ [A]) St1).
      rewrite length_app, Nat.add_1_r in IH.
      assert (Hn' : ∀ b, (if Bool.eqb b vec then S (n b) else n b) = class_count b (pre ++ [A])).
      { intros b. rewrite class_count_app, class_count_one, <- Hn. fold vec. destruct (Bool.eqb b vec); lia. }
      assert (H6' : ∀ b, ((if Bool.eqb b vec then S (n b) else n b) ≤ 6)%nat).
      { intros b. specialize (H6 b). destruct (Bool.eqb b vec) eqn:Hb; [apply Bool.eqb_prop in Hb as ->; lia | exact H6]. }
      specialize (IH Hn' (used_prefix_next n St A VA Hu) H6').
      destruct (bool_decide _); [| exact IH]. destruct IH as (Hc & VAs & St' & Ha & HL & Hlen & Hk). split; [exact Hc |].
      exists (VA :: VAs), St'. split; [exact Ha |]. split; [rewrite HL; cbn; rewrite <- app_assoc; reflexivity |].
      split; [cbn; congruence |]. intros [| k] B HB.
      * injection HB as <-. exists VA. rewrite Nat.add_0_r. split; [reflexivity |]. split; [repeat split |].
        cbn [take]. rewrite app_nil_r. cbv zeta. fold vec. rewrite <- Hn. reflexivity.
      * destruct (Hk k B HB) as (VB & HVB & HdB & HlB). exists VB. split; [exact HVB |].
        replace (length pre + S k)%nat with (S (length pre) + k)%nat by lia. split; [exact HdB |].
        cbv zeta in *. cbn [take]. rewrite HlB, <- app_assoc. reflexivity.
    + rewrite bool_decide_eq_false_2; [split; reflexivity |]. intros Hall. specialize (Hall vec).
      change (A :: l) with ([A] ++ l) in Hall. rewrite !class_count_app, class_count_one, <- Hn in Hall. fold vec in Hall.
      rewrite Bool.eqb_reflx in Hall. lia.
Qed.

(** C13. The calling convention never assigns two arguments to the same register
    or overlapping bytes of the stack: every list of arguments of types the
    table knows is assigned, one location each with the argument's type,
    promoted for the small integers; registers are among the eight of the class
    and only of functions with a fixed number of arguments; stack slots are
    aligned to their size and lie inside the area [getNextStackOffset] reports;
    and the arguments in front of the variadic ones are where they would be
    without them. *)
Theorem arguments_separated (va : bool) (ma : Z) (l more : list Arg) :
  Forall assigns (l ++ more) → 128 * Z.of_nat (length (l ++ more)) ≤ 2 ^ 32 →
  ∃ St' St2, AnalyzeFormalArguments l CC_Nyuzi32 (newCCState va ma) = Ret St' ∧
    AnalyzeCallOperands (l ++ more) CC_Nyuzi32 (newCCState va ma) = Ret St2 ∧
    (∃ rest, Locs St2 = Locs St' ++ rest) ∧ length (Locs St') = length l ∧
    ∀ i A, l !! i = Some A → ∃ V, Locs St' !! i = Some V ∧ describes V i A ∧
      match Loc V with
      | RegLoc r => va = false ∧ r ∈ arg_regs (loc_type (VT A))
      | MemLoc o => 0 ≤ o ∧ o + mem_size (loc_type (VT A)) ≤ StackOffset St' ∧ (mem_size (loc_type (VT A)) | o)%Z
      end ∧
      ∀ j W, i ≠ j → Locs St' !! j = Some W → disjoint_locs V W.
Proof.
  intros Hl Hb. apply Forall_app in Hl as [Hl Hm]. rewrite length_app in Hb.
  destruct (Analyze_placements 0 l (newCCState va ma) Hl) as (VAs & St' & Ha & Hp & HL & Hlen & Hk & Hend); [cbn; lia .. |].
  destruct (placements_located _ _ _ Hp) as (Hle & Hloc). pose proof (placements_disjoint _ _ _ Hp) as Hd. cbn in HL, Hle, Hend.
  destruct (Analyze_placements (length l) more St' Hm) as (VAs2 & St2 & Ha2 & _ & HL2 & _); [cbn; lia .. |].
  exists St', St2. split; [exact Ha |]. split.
  { unfold AnalyzeCallOperands. rewrite Analyze_app, Ha. exact Ha2. }
  split; [exists VAs2; exact HL2 |]. rewrite HL. split; [exact Hlen |].
  intros i A HA. destruct (Hk i A HA) as (V & HV & HdV). exists V. split; [exact HV |]. split; [exact HdV |].
  destruct HdV as (_ & _ & HT & _). split.
  - specialize (Hloc V (list_elem_of_lookup_2 _ _ _ HV)). unfold located in Hloc. rewrite HT in Hloc. destruct (Loc V); cbn in *; tauto.
  - intros j W Hij HW. exact (ForallOrdPairs_lookup disjoint_locs VAs i j V W Hd Hij HV HW).
Qed.

Definition example_args : list Arg :=
  map (λ T, mkArg T (mkArgFlags true false false 0 0))
    [MVT.i32; MVT.v16i32; MVT.i8; MVT.v16i1; MVT.f32; MVT.i32; MVT.i32; MVT.i32; MVT.i32; MVT.v16i1; MVT.i32].

Lemma example_args_assigns : Forall assigns (example_args ++ example_args).
Proof. apply Forall_forall. intros A HA. unfold example_args in HA. set_unfold. naive_solver. Qed.

Lemma arguments_separated_witness :
  ∃ St' St2, AnalyzeFormalArguments example_args CC_Nyuzi32 (newCCState false 64) = Ret St' ∧
    AnalyzeCallOperands (example_args ++ example_args) CC_Nyuzi32 (newCCState false 64) = Ret St2 ∧
    (∃ rest, Locs St2 = Locs St' ++ rest) ∧ length (Locs St') = length example_args ∧
    ∀ i A, example_args !! i = Some A → ∃ V, Locs St' !! i = Some V ∧ describes V i A ∧
      match Loc V with
      | RegLoc r => false = false ∧ r ∈ arg_regs (loc_type (VT A))
      | MemLoc o => 0 ≤ o ∧ o + mem_size (loc_type (VT A)) ≤ StackOffset St' ∧ (mem_size (loc_type (VT A)) | o)%Z
      end ∧
      ∀ j W, i ≠ j → Locs St' !! j = Some W → disjoint_locs V W.
Proof. apply (arguments_separated false 64 example_args example_args); [exact example_args_assigns | vm_compute; discriminate]. Defined.

(** Results go to the next register of their class: a return analyses to one
    register per value, the first six of each class in order, and a return of
    more than six values of a class is not analysed but stops the compiler;
    [CheckReturn] tells the two apart. *)
Theorem results_in_registers (va : bool) (ma : Z) (l : list Arg) :
  Forall assigns l →
  if bool_decide (∀ vec, class_count vec l ≤ 6)%nat then
    CheckReturn RetCC_Nyuzi32 0 l (newCCState va ma) = Ret true ∧
    ∃ St', AnalyzeReturn l RetCC_Nyuzi32 (newCCState va ma) = Ret St' ∧
      AnalyzeCallResult l RetCC_Nyuzi32 (newCCState va ma) = Ret St' ∧ length (Locs St') = length l ∧
      ∀ k A, l !! k = Some A → ∃ VA, Locs St' !! k = Some VA ∧ describes VA k A ∧
        let vec := vector_class (loc_type (VT A)) in Loc VA = RegLoc (class_reg vec (class_count vec (take k l)))
  else CheckReturn RetCC_Nyuzi32 0 l (newCCState va ma) = Ret false ∧
       AnalyzeReturn l RetCC_Nyuzi32 (newCCState va ma) = Unreachable "unhandled type".
Proof.
  intros Hl. pose proof (Analyze_RetCC (λ _, 0%nat) [] l (newCCState va ma) Hl) as H.
  specialize (H (λ _, eq_refl)). cbn [app length] in H. unfold AnalyzeReturn, AnalyzeCallResult.
  destruct (bool_decide (∀ vec, class_count vec l ≤ 6)%nat).
  - destruct H as (Hc & VAs & St' & Ha & HL & Hlen & Hk);
      [intros vec i; cbn; rewrite elem_of_nil; lia | intros; lia |]. cbn in HL. split; [exact Hc |].
    exists St'. rewrite HL. auto.
  - apply H; [intros vec i; cbn; rewrite elem_of_nil; lia | intros; lia].
Qed.

Lemma results_in_registers_witness :
  (CheckReturn RetCC_Nyuzi32 0 (take 6 example_args) (newCCState false 64) = Ret true) ∧
  (CheckReturn RetCC_Nyuzi32 0 example_args (newCCState false 64) = Ret false ∧
   AnalyzeReturn example_args RetCC_Nyuzi32 (newCCState false 64) = Unreachable "unhandled type").
Proof.
  split.
  - assert (Hl : Forall assigns (take 6 example_args)).
    { apply Forall_forall. intros A HA. cbn in HA. set_unfold. naive_solver. }
    exact (proj1 (results_in_registers false 64 (take 6 example_args) Hl)).
  - assert (Hl : Forall assigns example_args) by (pose proof example_args_assigns as H; apply Forall_app in H as [H _]; exact H).
    exact (results_in_registers false 64 example_args Hl).
Defined.
