(* ===== verification/NyuziCallLowering.v ===== *)
(** * NyuziCallLowering: calls, formal arguments and returns

    [LowerCall], [LowerFormalArguments] and [LowerReturn] of
    lib/Target/Nyuzi/NyuziISelLowering.cpp.  The chain they build is the list of
    its operations in order; operations joined by a token factor are one element
    of the list and happen in any order. *)
From S2P Require Import Prelude.
From S2P Require Import MathExtras.
From S2P Require Import NyuziTarget.
From S2P Require Import NyuziISelDAG.
From S2P Require Import NyuziISelVector.
From S2P Require Import NyuziISelLowering.
From S2P Require Import NyuziCallingConv.
From S2P Require Import NyuziFrame.

(** ** Chains *)
Inductive chain_op : Type :=
  | Memcpy (Dst Src : SDValue) (Size Align : Z) (AlwaysInline : bool)
  | CALLSEQ_START (Size : Z)
  | Stores (l : list (SDValue * SDValue))       (* a value and its address *)
  | CopyToReg (r : Nyuzi.reg) (v : SDValue)
  | CALL (Callee : SDValue) (Uses : list (Nyuzi.reg * MVT.t))
  | CALLSEQ_END (Size : Z)
  | CopyFromReg (r : Nyuzi.reg) (VT : MVT.t)
  | RET_FLAG (Uses : list (Nyuzi.reg * MVT.t)).

Definition getFrameIndex (FI : Z) : SDValue := getNode (ISD.FrameIndex FI) MVT.i32 [].
Definition getRegister (r : Nyuzi.reg) (VT : MVT.t) : SDValue := getNode (ISD.Register r) VT [].

(** ** Formal arguments *)

(** [MF.getFrameInfo().CreateFixedObject(Size, SPOffset, ...)]: the fixed objects
    are numbered downwards from -1. *)
Definition CreateFixedObject (Size SPOffset : Z) (st : FunctionState) : outcome (Z * FunctionState) :=
  cassert (negb (Size =? 0)) "Cannot allocate zero size fixed stack objects!" ≫= λ _,
  let objs := FixedObjects st ++ [(Size, SPOffset)] in
  Ret (- Z.of_nat (length objs),
       mkFunctionState (FrameAddressIsTaken st) (ReturnAddressIsTaken st) (LiveIns st) (NextVirtReg st)
         (VarArgsFrameIndex st) (SRetReturnReg st) objs).

Definition setVarArgsFrameIndex (FI : Z) (st : FunctionState) : FunctionState :=
  mkFunctionState (FrameAddressIsTaken st) (ReturnAddressIsTaken st) (LiveIns st) (NextVirtReg st) FI (SRetReturnReg st)
    (FixedObjects st).

(** [RegInfo.createVirtualRegister(RC)], then [addLiveIn(PReg, VReg)]. *)
Definition createLiveIn (PReg : Nyuzi.reg) (st : FunctionState) : nat * FunctionState :=
  let v := NextVirtReg st in
  (v, mkFunctionState (FrameAddressIsTaken st) (ReturnAddressIsTaken st) (LiveIns st ++ [(PReg, v)]) (S v)
        (VarArgsFrameIndex st) (SRetReturnReg st) (FixedObjects st)).

(** [VFI->getSRetReturnReg()], created when there is none. *)
Definition getOrCreateSRetReturnReg (st : FunctionState) : nat * FunctionState :=
  match SRetReturnReg st with
  | Some v => (v, st)
  | None =>
      let v := NextVirtReg st in
      (v, mkFunctionState (FrameAddressIsTaken st) (ReturnAddressIsTaken st) (LiveIns st) (S v)
            (VarArgsFrameIndex st) (Some v) (FixedObjects st))
  end.

(** [VT.getSizeInBits()] *)
Definition getSizeInBits (VT : MVT.t) : Z :=
  match VT with
  | MVT.i1 => 1 | MVT.i8 => 8 | MVT.i16 | MVT.v16i1 => 16 | MVT.i32 | MVT.f32 => 32 | MVT.i64 => 64
  | MVT.v16i8 => 128 | MVT.v16i16 => 256 | MVT.v16i32 | MVT.v16f32 => 512 | MVT.Other => 0
  end.

(** The class of the virtual register an argument in a register is copied to. *)
Definition formalRegClass (RegVT : MVT.t) : outcome Nyuzi.regclass :=
  match RegVT with
  | MVT.i32 | MVT.f32 | MVT.v16i1 => Ret Nyuzi.GPR32RegClass
  | MVT.v16i32 | MVT.v16f32 => Ret Nyuzi.VR512RegClass
  | _ => Unreachable "Unsupported formal argument Type"
  end.

(** One location: the value of the argument, and the end of its stack slot. *)
Definition lowerFormal (VA : CCValAssign) (ParamEndOffset : Z) (st : FunctionState) : outcome (SDValue * Z * FunctionState) :=
  if isRegLoc VA then
    formalRegClass (LocVT VA) ≫= λ _,
    getLocReg VA ≫= λ PReg,
    let '(VReg, st) := createLiveIn PReg st in
    Ret (getCopyFromReg (Nyuzi.VirtReg VReg) (LocVT VA), ParamEndOffset, st)
  else
    let ParamSize := getSizeInBits (ValVT VA) / 8 in
    getLocMemOffset VA ≫= λ ParamOffset,
    CreateFixedObject ParamSize ParamOffset st ≫= λ '(FI, st),
    let FIPtr := getFrameIndex FI in
    let Load :=
      match ValVT VA with
      | MVT.i32 | MVT.f32 | MVT.v16i32 | MVT.v16f32 | MVT.v16i1 => getLoad (ValVT VA) FIPtr
      | _ =>
          let Offset := u32 (4 - Z.max 1 (getSizeInBits (ValVT VA) / 8)) in
          let FIPtr := getNode ISD.ADD MVT.i32 [FIPtr; getConstant Offset MVT.i32] in
          getNode ISD.TRUNCATE (ValVT VA) [getNode (ISD.SEXTLOAD (ValVT VA)) MVT.i32 [FIPtr]]
      end in
    Ret (Load, ParamOffset + ParamSize, st).

Fixpoint lowerFormals (ArgLocs : list CCValAssign) (ParamEndOffset : Z) (st : FunctionState)
    : outcome (list SDValue * Z * FunctionState) :=
  match ArgLocs with
  | [] => Ret ([], ParamEndOffset, st)
  | VA :: l =>
      lowerFormal VA ParamEndOffset st ≫= λ '(InVal, ParamEndOffset, st),
      lowerFormals l ParamEndOffset st ≫= λ '(InVals, ParamEndOffset, st),
      Ret (InVal :: InVals, ParamEndOffset, st)
  end.

(** [LowerFormalArguments]: the values, the chain and the function's state;
    [sret] is [hasStructRetAttr()]. *)
Definition LowerFormalArguments (isVarArg sret : bool) (MaxAlignment : Z) (Ins : list Arg) (st : FunctionState)
    : outcome (list SDValue * list chain_op * FunctionState) :=
  AnalyzeFormalArguments Ins CC_Nyuzi32 (newCCState isVarArg MaxAlignment) ≫= λ CCInfo,
  lowerFormals (Locs CCInfo) 0 st ≫= λ '(InVals, ParamEndOffset, st),
  (if isVarArg then
     CreateFixedObject 4 ParamEndOffset st ≫= λ '(FirstVarArg, st), Ret (setVarArgsFrameIndex FirstVarArg st)
   else Ret st) ≫= λ st,
  if sret then
    let '(Reg, st) := getOrCreateSRetReturnReg st in
    at_index InVals 0 ≫= λ InVal0,
    Ret (InVals, [CopyToReg (Nyuzi.VirtReg Reg) InVal0], st)
  else Ret (InVals, [], st).

(** ** Returns *)
Fixpoint copyResults (RVLocs : list CCValAssign) (i : Z) (OutVals : list SDValue)
    : outcome (list chain_op * list (Nyuzi.reg * MVT.t)) :=
  match RVLocs with
  | [] => Ret ([], [])
  | VA :: l =>
      cassert (isRegLoc VA) "Can only return in registers!" ≫= λ _,
      getLocReg VA ≫= λ r,
      at_index OutVals i ≫= λ v,
      copyResults l (i + 1) OutVals ≫= λ '(ops, RetOps),
      Ret (CopyToReg r v :: ops, (r, LocVT VA) :: RetOps)
  end.

Definition LowerReturn (IsVarArg sret : bool) (MaxAlignment : Z) (Outs : list Arg) (OutVals : list SDValue)
    (st : FunctionState) : outcome (list chain_op) :=
  AnalyzeReturn Outs RetCC_Nyuzi32 (newCCState IsVarArg MaxAlignment) ≫= λ CCInfo,
  copyResults (Locs CCInfo) 0 OutVals ≫= λ '(ops, RetOps),
  (if sret then
     match SRetReturnReg st with
     | None => Unreachable "sret virtual register not created in the entry block"
     | Some Reg =>
         Ret (ops ++ [CopyToReg (Nyuzi.S 0) (getCopyFromReg (Nyuzi.VirtReg Reg) MVT.i32)], RetOps ++ [((Nyuzi.S 0), MVT.i32)])
     end
   else Ret (ops, RetOps)) ≫= λ '(ops, RetOps),
  Ret (ops ++ [RET_FLAG RetOps]).

(** ** Calls *)

(** [MFI.CreateStackObject(Size, Align, false)], the objects that are not fixed
    being numbered from zero. *)
Definition CreateStackObject (Size Align : Z) (objs : list (Z * Z)) : outcome (Z * list (Z * Z)) :=
  cassert (negb (Size =? 0)) "Cannot allocate zero size stack objects!" ≫= λ _,
  Ret (Z.of_nat (length objs), objs ++ [(Size, Align)]).

(** The copies of the arguments passed by value. *)
Fixpoint copyByVal (Outs : list Arg) (i : Z) (OutVals : list SDValue) (objs : list (Z * Z))
    : outcome (list SDValue * list chain_op * list (Z * Z)) :=
  match Outs with
  | [] => Ret ([], [], objs)
  | Out :: l =>
      if negb (isByVal (Flags Out)) then copyByVal l (i + 1) OutVals objs
      else
        at_index OutVals i ≫= λ Arg,
        let Size := ByValSize (Flags Out) in let Align := ByValAlign (Flags Out) in
        CreateStackObject Size Align objs ≫= λ '(FI, objs),
        let FIPtr := getFrameIndex FI in
        copyByVal l (i + 1) OutVals objs ≫= λ '(ByValArgs, ops, objs),
        Ret (FIPtr :: ByValArgs, Memcpy FIPtr Arg Size Align (Size <=? 32) :: ops, objs)
  end.

(** The promotion of an argument to the type of its location. *)
Definition promote (VA : CCValAssign) (Arg : SDValue) : outcome SDValue :=
  match HTP VA with
  | Full => Ret Arg
  | SExt => Ret (getNode ISD.SIGN_EXTEND (LocVT VA) [Arg])
  | ZExt => Ret (getNode ISD.ZERO_EXTEND (LocVT VA) [Arg])
  | AExt => Ret (getNode ISD.ANY_EXTEND (LocVT VA) [Arg])
  | BCvt => Ret (getBitcast (LocVT VA) Arg)
  | _ => Unreachable "Unknown loc info!"
  end.

(** The walk through the arguments: what goes to registers and what is stored
    off the stack pointer. *)
Fixpoint passArgs (ArgLocs : list CCValAssign) (realArgIdx byvalArgIdx : Z) (Outs : list Arg)
    (OutVals ByValArgs : list SDValue) : outcome (list (Nyuzi.reg * SDValue) * list (SDValue * SDValue)) :=
  match ArgLocs with
  | [] => Ret ([], [])
  | VA :: l =>
      at_index OutVals realArgIdx ≫= λ Arg,
      at_index Outs realArgIdx ≫= λ Out,
      (if isByVal (Flags Out) then at_index ByValArgs byvalArgIdx ≫= λ Arg, Ret (Arg, byvalArgIdx + 1)
       else Ret (Arg, byvalArgIdx)) ≫= λ '(Arg, byvalArgIdx),
      promote VA Arg ≫= λ Arg,
      passArgs l (realArgIdx + 1) byvalArgIdx Outs OutVals ByValArgs ≫= λ '(RegsToPass, MemOps),
      if isRegLoc VA then getLocReg VA ≫= λ r, Ret ((r, Arg) :: RegsToPass, MemOps)
      else
        getLocMemOffset VA ≫= λ off,
        let PtrOff := getNode ISD.ADD MVT.i32 [getRegister Nyuzi.SP_REG MVT.i32; getConstant off MVT.i32] in
        Ret (RegsToPass, (Arg, PtrOff) :: MemOps)
  end.

Section call.
(** [isPositionIndependent()] and [G->getGlobal()->hasLocalLinkage()] *)
Context (PIC : bool) (hasLocalLinkage : AddrOf → bool).

(** The node of the function called. *)
Definition lowerCallee (Callee : SDValue) : SDValue :=
  let functionInGot := PIC in
  let '(Callee, functionInGot) :=
    match getOpcode Callee with
    | ISD.GlobalAddress G _ =>
        let functionInGot := functionInGot && negb (hasLocalLinkage G) in
        (getNode (ISD.TargetAddress G 0 (if functionInGot then Nyuzi.MO_GOT else Nyuzi.MO_NO_FLAG)) MVT.i32 [], functionInGot)
    | ISD.ExternalSymbol E =>
        (getNode (ISD.TargetAddress E 0 (if functionInGot then Nyuzi.MO_GOT else Nyuzi.MO_NO_FLAG)) MVT.i32 [], functionInGot)
    | _ => (Callee, functionInGot)
    end in
  if functionInGot then getLoad MVT.i32 (getNode ISD.GOT_ADDR MVT.i32 [GPReg; Callee]) else Callee.

(** The results copied out of their registers. *)
Fixpoint copyCallResults (RVLocs : list CCValAssign) : outcome (list chain_op * list SDValue) :=
  match RVLocs with
  | [] => Ret ([], [])
  | Loc :: l =>
      getLocReg Loc ≫= λ r,
      copyCallResults l ≫= λ '(ops, InVals),
      Ret (CopyFromReg r (ValVT Loc) :: ops, getCopyFromReg r (ValVT Loc) :: InVals)
  end.

(** [LowerCall]: the chain, the results and the stack objects. *)
Definition LowerCall (isVarArg : bool) (MaxAlignment : Z) (Outs : list Arg) (OutVals : list SDValue) (Ins : list Arg)
    (Callee : SDValue) (objs : list (Z * Z)) : outcome (list chain_op * list SDValue * list (Z * Z)) :=
  AnalyzeCallOperands Outs CC_Nyuzi32 (newCCState isVarArg MaxAlignment) ≫= λ CCInfo,
  alignTo (StackOffset CCInfo) getStackAlignment 0 ≫= λ size,
  let ArgsSize := u32 size in
  copyByVal Outs 0 OutVals objs ≫= λ '(ByValArgs, copies, objs),
  passArgs (Locs CCInfo) 0 0 Outs OutVals ByValArgs ≫= λ '(RegsToPass, MemOps),
  let stores := match MemOps with [] => [] | _ => [Stores MemOps] end in
  let regs := map (λ '(r, v), CopyToReg r v) RegsToPass in
  let uses := map (λ '(r, v), (r, getValueType v)) RegsToPass in
  AnalyzeCallResult Ins RetCC_Nyuzi32 (newCCState isVarArg MaxAlignment) ≫= λ RVInfo,
  copyCallResults (Locs RVInfo) ≫= λ '(results, InVals),
  Ret (copies ++ [CALLSEQ_START ArgsSize] ++ stores ++ regs ++ [CALL (lowerCallee Callee) uses] ++ [CALLSEQ_END ArgsSize] ++ results,
       InVals, objs).
End call.

(** ** What a chain does

    A machine: the lanes of the registers and the bytes of memory. *)
Record machine : Type := mkMachine { mregs : Nyuzi.reg → nat → Z; mbytes : Z → Z }.

Definition load_word (m : Z → Z) (a : Z) : Z := le_combine [m a; m (a + 1); m (a + 2); m (a + 3)].

(** The environment nodes are evaluated in while the chain runs. *)
Definition env_of (E : Env) (m : machine) : Env :=
  mkEnv (mregs m) (load_word (mbytes m)) (address E) (got_offset E) (frame_address E) (float_mul E) (float_sub E)
    (float_div E) (float_recip E).

Definition set_lanes (r : Nyuzi.reg) (l : nat → Z) (m : machine) : machine :=
  mkMachine (λ r', if decide (r' = r) then l else mregs m r') (mbytes m).

Definition write_bytes (a : Z) (bs : list Z) (m : Z → Z) : Z → Z := λ x,
  if (a <=? x) && (x <? a + Z.of_nat (length bs)) then nth (Z.to_nat (x - a)) bs 0 else m x.

(** The bytes of a value in memory. *)
Definition value_bytes (VT : MVT.t) (l : nat → Z) : list Z :=
  match VT with
  | MVT.i32 | MVT.f32 => le_bytes 4 (l 0%nat)
  | MVT.v16i1 => le_bytes 2 (default 0 (gather_mask (λ i, Some (l i))))
  | MVT.v16i32 | MVT.v16f32 => concat (map (λ i, le_bytes 4 (l i)) (seq 0 16))
  | _ => []
  end.

Section run.
Context (E : Env) (u : oracle).

(** A value in front of the chain, and an address while it runs. *)
Definition val (N : SDValue) (i : nat) : Z := default 0 (eval E u N i).
Definition addr_in (m : machine) (N : SDValue) : Z := default 0 (eval (env_of E m) u N 0%nat).

Definition store_one (m : machine) (s : SDValue * SDValue) : machine :=
  mkMachine (mregs m) (write_bytes (addr_in m s.2) (value_bytes (getValueType s.1) (val s.1)) (mbytes m)).

Inductive chain_step : machine → chain_op → machine → Prop :=
  | chain_memcpy m Dst Src Size Align inl :
      chain_step m (Memcpy Dst Src Size Align inl)
        (mkMachine (mregs m)
           (write_bytes (addr_in m Dst) (map (λ i, mbytes m (addr_in m Src + Z.of_nat i)) (seq 0 (Z.to_nat Size))) (mbytes m)))
  | chain_start m Size :
      chain_step m (CALLSEQ_START Size) (set_lanes Nyuzi.SP_REG (λ i, u32 (mregs m Nyuzi.SP_REG i - Size)) m)
  | chain_stores m l l' : Permutation l l' → chain_step m (Stores l) (foldl store_one m l')
  | chain_copy m r v : chain_step m (CopyToReg r v) (set_lanes r (val v) m).

Inductive chain_run : machine → list chain_op → machine → Prop :=
  | chain_nil m : chain_run m [] m
  | chain_cons m op m1 ops m2 : chain_step m op m1 → chain_run m1 ops m2 → chain_run m (op :: ops) m2.

Lemma chain_run_app (m m' : machine) (l l' : list chain_op) :
  chain_run m (l ++ l') m' ↔ ∃ m1, chain_run m l m1 ∧ chain_run m1 l' m'.
Proof.
  split.
  - revert m. induction l as [| op l IH]; intros m H; [exists m; split; [constructor | exact H] |].
    inversion H as [| ? ? m3 ? ? Hs Hr]; subst. destruct (IH _ Hr) as (m2 & H1 & H2). exists m2. split; [econstructor; eassumption | exact H2].
  - intros (m1 & H1 & H2). induction H1; [exact H2 |]. econstructor; [eassumption | auto].
Qed.
End run.

(** ** Memory lemmas *)
Lemma write_bytes_in (a : Z) (bs : list Z) (m : Z → Z) (i : nat) (b : Z) :
  bs !! i = Some b → write_bytes a bs m (a + Z.of_nat i) = b.
Proof.
  intros H. pose proof (lookup_lt_Some _ _ _ H). unfold write_bytes.
  replace ((a <=? a + Z.of_nat i) && (a + Z.of_nat i <? a + Z.of_nat (length bs))) with true by lia.
  replace (Z.to_nat (a + Z.of_nat i - a)) with i by lia. apply nth_lookup_Some. exact H.
Qed.

Lemma write_bytes_out (a x : Z) (bs : list Z) (m : Z → Z) :
  x < a ∨ a + Z.of_nat (length bs) ≤ x → write_bytes a bs m x = m x.
Proof. intros H. unfold write_bytes. replace ((a <=? x) && (x <? a + Z.of_nat (length bs))) with false by lia. reflexivity. Qed.

Lemma length_value_bytes (VT : MVT.t) (l : nat → Z) : legal VT → Z.of_nat (length (value_bytes VT l)) = mem_size VT.
Proof. intros H. legal_cases H; reflexivity. Qed.

(** Memory holds the bytes of a value at an address. *)
Definition holds (m : Z → Z) (a : Z) (VT : MVT.t) (l : nat → Z) : Prop :=
  ∀ i b, value_bytes VT l !! i = Some b → m (a + Z.of_nat i) = b.

Lemma holds_write (m : Z → Z) (a : Z) (VT : MVT.t) (l : nat → Z) : holds (write_bytes a (value_bytes VT l) m) a VT l.
Proof. intros i b Hb. apply write_bytes_in. exact Hb. Qed.

Lemma holds_frame (m : Z → Z) (a a' : Z) (VT : MVT.t) (l : nat → Z) (bs : list Z) :
  holds m a VT l → a + Z.of_nat (length (value_bytes VT l)) ≤ a' ∨ a' + Z.of_nat (length bs) ≤ a →
  holds (write_bytes a' bs m) a VT l.
Proof.
  intros H Hd i b Hb. pose proof (lookup_lt_Some _ _ _ Hb). rewrite write_bytes_out by lia. exact (H i b Hb).
Qed.

Lemma load_word_bytes (m : Z → Z) (a v : Z) (bs : list Z) (k : nat) :
  (∀ i b, bs !! i = Some b → m (a + Z.of_nat i) = b) →
  (∀ j, (j < 4)%nat → bs !! (k + j)%nat = le_bytes 4 v !! j) → load_word m (a + Z.of_nat k) = u32 v.
Proof.
  intros H Hk. rewrite <- (le_combine_bytes 4 v : _ = u32 v). unfold load_word.
  assert (Hb : ∀ z j, z = Z.of_nat j → (j < 4)%nat → m (a + Z.of_nat k + z) = nth j (le_bytes 4 v) 0).
  { intros z j -> Hj. rewrite <- Z.add_assoc, <- Nat2Z.inj_add. apply H. rewrite Hk by exact Hj.
    do 4 (destruct j as [| j]; [reflexivity |]). lia. }
  rewrite <- (Z.add_0_r (a + Z.of_nat k)) at 1. cbn [le_combine].
  rewrite (Hb 0 0%nat), (Hb 1 1%nat), (Hb 2 2%nat), (Hb 3 3%nat) by lia.
  reflexivity.
Qed.

Lemma concat_lookup_words (f : nat → list Z) (n s i j : nat) :
  (∀ k, length (f k) = 4%nat) → (i < n)%nat → (j < 4)%nat → concat (map f (seq s n)) !! (4 * i + j)%nat = f (s + i)%nat !! j.
Proof.
  intros Hf. revert s i. induction n as [| n IH]; intros s i Hi Hj; [lia |]. cbn [seq map concat].
  destruct i as [| i].
  - rewrite lookup_app_l by (rewrite Hf; lia). rewrite Nat.add_0_r. reflexivity.
  - rewrite lookup_app_r by (rewrite Hf; lia). rewrite Hf.
    replace (4 * S i + j - 4)%nat with (4 * i + j)%nat by lia. rewrite IH by lia. f_equal. f_equal. lia.
Qed.

Lemma half_word (M c d : Z) : uint 16 (le_combine [uint 8 M; uint 8 (Z.shiftr M 8); c; d]) = uint 16 M.
Proof. cbn [le_combine]. generalize (Z.lor (uint 8 c) (Z.shiftl (Z.lor (uint 8 d) (Z.shiftl 0 8)) 8)). intros x. bitwise. Qed.

(** Loading a value where memory holds it gives its lanes. *)
Lemma eval_load_held (E : Env) (u : oracle) (VT : MVT.t) (P : SDValue) (a : Z) (m l : _) (i : nat) :
  legal VT → eval E u P 0%nat = Some a → 0 ≤ a → a + mem_size VT ≤ 2 ^ 32 →
  (∀ x, word E x = load_word m x) → holds m a VT l → (i < MVT.num_lanes VT)%nat → 0 ≤ l i < 2 ^ MVT.lane_bits VT →
  eval E u (getLoad VT P) i = Some (l i).
Proof.
  intros HVT Ha H0 Hb Hw Hh Hi Hl.
  assert (Hx : ∀ x, eval_op E ISD.LOAD VT [P] [eval E u P] i = Some x → uint (MVT.lane_bits VT) x = l i → eval E u (getLoad VT P) i = Some (l i)).
  { intros x Hx <-. apply eval_Node_Some. exact Hx. }
  legal_cases HVT; cbn [mem_size MVT.num_lanes MVT.isVector MVT.lane_bits] in *;
    (eapply Hx; [cbn [eval_op]; rewrite Ha; cbn [mbind option_bind]; rewrite Hw; reflexivity |]).
  - assert (i = 0%nat) as -> by lia. rewrite (uint_small 32 (a + _)) by lia.
    change (a + 4 * Z.of_nat 0) with (a + Z.of_nat 0). rewrite (load_word_bytes m a (l 0%nat) _ 0 Hh); [| intros j Hj; reflexivity].
    rewrite uint_uint. apply uint_small. exact Hl.
  - assert (i = 0%nat) as -> by lia. rewrite (uint_small 32 (a + _)) by lia.
    change (a + 4 * Z.of_nat 0) with (a + Z.of_nat 0). rewrite (load_word_bytes m a (l 0%nat) _ 0 Hh); [| intros j Hj; reflexivity].
    rewrite uint_uint. apply uint_small. exact Hl.
  - destruct (gather_mask_bits (λ i, Some (l i))) as (M & HM & Hbits); [eauto |].
    destruct (Hbits i Hi) as (b & [= <-] & Hbit). unfold holds, value_bytes in Hh. rewrite HM in Hh. cbn [default] in Hh.
    pose proof (Hh 0%nat _ eq_refl) as H0b. pose proof (Hh 1%nat _ eq_refl) as H1b. rewrite Z.add_0_r in H0b.
    change (a + Z.of_nat 1) with (a + 1) in H1b.
    assert (HM16 : uint 16 (load_word m a) = uint 16 M) by (unfold load_word; rewrite H0b, H1b; apply half_word).
    rewrite uint1_testbit, Z.shiftr_spec, Z.add_0_l by lia. change (Z.of_nat i) with (Z.of_nat i) in *.
    assert (Hbi : Z.testbit (load_word m a) (Z.of_nat i) = Z.testbit M (Z.of_nat i)).
    { pose proof (f_equal (λ z, Z.testbit z (Z.of_nat i)) HM16) as Hz. cbv beta in Hz. rewrite !testbit_uint in Hz by lia.
      replace (Z.of_nat i <? 16) with true in Hz by lia. exact Hz. }
    rewrite Hbi, Hbit, <- uint1_testbit. apply (uint_small 1). exact Hl.
  - rewrite (uint_small 32 (a + _)) by lia.
    replace (4 * Z.of_nat i) with (Z.of_nat (4 * i)) by lia.
    rewrite (load_word_bytes m a (l i) _ (4 * i) Hh); [rewrite uint_uint; apply uint_small; exact Hl |].
    intros j Hj. cbn [value_bytes]. apply (concat_lookup_words (λ k, le_bytes 4 (l k))); [intros; apply length_le_bytes | lia | lia].
  - rewrite (uint_small 32 (a + _)) by lia.
    replace (4 * Z.of_nat i) with (Z.of_nat (4 * i)) by lia.
    rewrite (load_word_bytes m a (l i) _ (4 * i) Hh); [rewrite uint_uint; apply uint_small; exact Hl |].
    intros j Hj. cbn [value_bytes]. apply (concat_lookup_words (λ k, le_bytes 4 (l k))); [intros; apply length_le_bytes | lia | lia].
Qed.

Lemma ForallOrdPairs_Permutation {A : Type} (R : A → A → Prop) `{!Symmetric R} (l l' : list A) :
  Permutation l l' → ForallOrdPairs R l → ForallOrdPairs R l'.
Proof.
  induction 1 as [| x l l' Hp IH | x y l | l1 l2 l3 H1 IH1 H2 IH2]; intros H; [exact H | | | auto].
  - inversion H; subst. constructor; [rewrite <- Hp; assumption | auto].
  - inversion H as [| ? ? Hy H']; subst. inversion H' as [| ? ? Hx H'']; subst. inversion Hy; subst.
    constructor; [constructor; [symmetry; assumption | assumption] |]. constructor; assumption.
Qed.

(** ** Running the parts of a call *)
Section parts.
Context (E : Env) (u : oracle).

(** The address of an argument slot. *)
Definition sp_ptr (o : Z) : SDValue :=
  getNode ISD.ADD MVT.i32 [getRegister Nyuzi.SP_REG MVT.i32; getConstant o MVT.i32].

Lemma addr_sp_ptr (m : machine) (o : Z) :
  0 ≤ mregs m Nyuzi.SP_REG 0%nat → 0 ≤ o → mregs m Nyuzi.SP_REG 0%nat + o < 2 ^ 32 →
  addr_in E u m (sp_ptr o) = mregs m Nyuzi.SP_REG 0%nat + o.
Proof.
  intros Hsp Ho Hb. unfold addr_in, sp_ptr, getNode, getRegister, getConstant, env_of.
  cbn. rewrite !uint_uint, (uint_small 32 (mregs m Nyuzi.SP_REG 0%nat)), (uint_small 32 o) by lia. apply uint_small. lia.
Qed.

(** An argument and its slot. *)
Definition slot : Type := SDValue * Z.
Definition slot_op (s : slot) : SDValue * SDValue := (s.1, sp_ptr s.2).
Definition slot_size (s : slot) : Z := mem_size (getValueType s.1).
Definition apart (s t : slot) : Prop := s.2 + slot_size s ≤ t.2 ∨ t.2 + slot_size t ≤ s.2.

#[global] Instance apart_sym : Symmetric apart.
Proof. intros s t []; unfold apart; auto. Qed.

Definition slot_ok (sp : Z) (s : slot) : Prop :=
  legal (getValueType s.1) ∧ 0 ≤ s.2 ∧ sp + s.2 + slot_size s ≤ 2 ^ 32.

Definition slot_held (m : machine) (s : slot) : Prop :=
  holds (mbytes m) (mregs m Nyuzi.SP_REG 0%nat + s.2) (getValueType s.1) (val E u s.1).

Lemma mem_size_pos (VT : MVT.t) : legal VT → 0 < mem_size VT.
Proof. intros H. legal_cases H; reflexivity. Qed.

Lemma store_slot (m : machine) (s : slot) :
  0 ≤ mregs m Nyuzi.SP_REG 0%nat → slot_ok (mregs m Nyuzi.SP_REG 0%nat) s →
  store_one E u m (slot_op s) =
    mkMachine (mregs m) (write_bytes (mregs m Nyuzi.SP_REG 0%nat + s.2) (value_bytes (getValueType s.1) (val E u s.1)) (mbytes m)).
Proof.
  intros Hsp (Hl & Ho & Hb). unfold store_one, slot_op. cbn [fst snd].
  pose proof (mem_size_pos _ Hl). unfold slot_size in Hb. rewrite addr_sp_ptr by lia. reflexivity.
Qed.

Lemma stores_keep (l : list slot) (s : slot) (m : machine) :
  0 ≤ mregs m Nyuzi.SP_REG 0%nat → Forall (slot_ok (mregs m Nyuzi.SP_REG 0%nat)) l → legal (getValueType s.1) →
  Forall (apart s) l → slot_held m s →
  slot_held (foldl (store_one E u) m (map slot_op l)) s ∧ mregs (foldl (store_one E u) m (map slot_op l)) = mregs m.
Proof.
  intros Hsp Hl Hs Hap. revert m Hsp Hl. induction Hap as [| t l Ht Hap IH]; intros m Hsp Hl Hh; [split; [exact Hh | reflexivity] |].
  inversion Hl as [| ? ? Hok Hl']; subst. cbn [map foldl]. rewrite store_slot by assumption.
  set (m1 := mkMachine _ _). apply (IH m1); [exact Hsp | exact Hl' |].
  unfold slot_held in *. subst m1. cbn [mregs mbytes]. apply holds_frame; [exact Hh |].
  destruct Hok as (Hlt & _). rewrite !length_value_bytes by assumption.
  unfold apart, slot_size in Ht. lia.
Qed.

(** Whatever the order of the stores, every slot holds its argument. *)
Lemma stores_held (l : list slot) (m m' : machine) :
  0 ≤ mregs m Nyuzi.SP_REG 0%nat → Forall (slot_ok (mregs m Nyuzi.SP_REG 0%nat)) l → ForallOrdPairs apart l →
  chain_step E u m (Stores (map slot_op l)) m' → Forall (slot_held m') l ∧ mregs m' = mregs m.
Proof.
  intros Hsp Hok Hap Hs. inversion Hs as [| | ? ? l' Hp |]; subst.
  symmetry in Hp. apply Permutation_map_inv in Hp as (l2 & -> & Hp).
  rewrite Hp in Hok. apply (ForallOrdPairs_Permutation apart _ _ Hp) in Hap.
  enough (Forall (slot_held (foldl (store_one E u) m (map slot_op l2))) l2 ∧
          mregs (foldl (store_one E u) m (map slot_op l2)) = mregs m) as [H1 H2] by (rewrite Hp; auto).
  clear Hp Hs l. revert m Hsp Hok. induction Hap as [| s l Hs Hap IH]; intros m Hsp Hok; [split; [constructor | reflexivity] |].
  inversion Hok as [| ? ? Hoks Hok']; subst. cbn [map foldl]. rewrite store_slot by assumption.
  set (m1 := mkMachine _ _). destruct (IH m1 Hsp Hok') as (H1 & H2). split; [| exact H2].
  constructor; [| exact H1]. apply stores_keep; [exact Hsp | exact Hok' | apply Hoks | exact Hs |].
  unfold slot_held. subst m1. cbn [mregs mbytes]. apply holds_write.
Qed.

(** The copies to registers. *)
Lemma copies_held (l : list (Nyuzi.reg * SDValue)) (m m' : machine) :
  NoDup (map fst l) → chain_run E u m (map (λ '(r, v), CopyToReg r v) l) m' →
  mbytes m' = mbytes m ∧ (∀ r v, (r, v) ∈ l → mregs m' r = val E u v) ∧ ∀ r, r ∉ map fst l → mregs m' r = mregs m r.
Proof.
  intros Hnd. revert m. induction l as [| [r v] l IH]; intros m Hr; cbn [map] in *.
  - inversion Hr; subst. split; [reflexivity |]. split; [intros ? ? []%elem_of_nil | reflexivity].
  - inversion Hr as [| ? ? m1 ? ? Hs Hr']; subst. inversion Hs; subst. apply NoDup_cons in Hnd as [Hn Hnd].
    destruct (IH Hnd _ Hr') as (Hb & Hin & Hout). split; [exact Hb |]. split.
    + intros r' v' [[= -> ->] | H]%elem_of_cons; [| exact (Hin r' v' H)].
      rewrite Hout by exact Hn. cbn. rewrite decide_True by reflexivity. reflexivity.
    + intros r' Hr2. rewrite not_elem_of_cons in Hr2. destruct Hr2 as [Hne Hr2]. rewrite Hout by exact Hr2.
      cbn. rewrite decide_False by exact Hne. reflexivity.
Qed.
End parts.

(** ** What the arguments become *)
Definition byval_count (Outs : list Arg) : nat := length (filter (λ A, isByVal (Flags A) = true) Outs).

Definition copy_index (n : nat) : SDValue := getFrameIndex (Z.of_nat n).

(** The values passed: the arguments, and the frame indices from [n] on of the
    copies of those passed by value. *)
Fixpoint passed (n : nat) (Outs : list Arg) (OutVals : list SDValue) : list SDValue :=
  match Outs, OutVals with
  | Out :: l, v :: vs => if isByVal (Flags Out) then copy_index n :: passed (S n) l vs else v :: passed n l vs
  | _, _ => []
  end.

Fixpoint to_regs (VAs : list CCValAssign) (vs : list SDValue) : list (Nyuzi.reg * SDValue) :=
  match VAs, vs with
  | VA :: l, v :: vs => match Loc VA with RegLoc r => (r, v) :: to_regs l vs | MemLoc _ => to_regs l vs end
  | _, _ => []
  end.

Fixpoint to_slots (VAs : list CCValAssign) (vs : list SDValue) : list slot :=
  match VAs, vs with
  | VA :: l, v :: vs => match Loc VA with RegLoc _ => to_slots l vs | MemLoc o => (v, o) :: to_slots l vs end
  | _, _ => []
  end.

Definition is_memcpy (op : chain_op) : Prop := match op with Memcpy _ _ _ _ _ => True | _ => False end.

Lemma at_index_middle {A : Type} (pre l : list A) (x : A) : at_index (pre ++ x :: l) (Z.of_nat (length pre)) = Ret x.
Proof. apply at_index_lookup. apply list_lookup_middle. reflexivity. Qed.

Lemma byval_count_cons (Out : Arg) (l : list Arg) :
  byval_count (Out :: l) = if isByVal (Flags Out) then S (byval_count l) else byval_count l.
Proof. unfold byval_count. rewrite filter_cons. destruct (isByVal (Flags Out)); reflexivity. Qed.

Lemma copyByVal_spec (pre vals : list SDValue) (Outs : list Arg) (objs : list (Z * Z)) :
  length Outs = length vals → Forall (λ A, isByVal (Flags A) = true → ByValSize (Flags A) ≠ 0) Outs →
  ∃ ops objs', copyByVal Outs (Z.of_nat (length pre)) (pre ++ vals) objs =
      Ret (map copy_index (seq (length objs) (byval_count Outs)), ops, objs') ∧ Forall is_memcpy ops.
Proof.
  intros Hlen Hsz. revert pre vals Hlen objs. induction Hsz as [| Out l Hs Hsz IH]; intros pre vals Hlen objs;
    [exists [], objs; split; [reflexivity | constructor] |].
  destruct vals as [| v vals]; [discriminate |]. injection Hlen as Hlen.
  assert (Hstep : ∀ objs, ∃ ops objs', copyByVal l (Z.of_nat (length pre) + 1) (pre ++ v :: vals) objs =
    Ret (map copy_index (seq (length objs) (byval_count l)), ops, objs') ∧ Forall is_memcpy ops).
  { intros objs1. destruct (IH (pre ++ [v]) vals Hlen objs1) as (ops & objs' & H & Hm).
    rewrite length_app, Nat2Z.inj_add, <- app_assoc in H. eauto. }
  cbn [copyByVal]. rewrite byval_count_cons. destruct (isByVal (Flags Out)) eqn:Hb; cbn [negb]; [| apply Hstep].
  rewrite at_index_middle. cbn [mbind outcome_bind]. unfold CreateStackObject.
  destruct (Z.eqb_spec (ByValSize (Flags Out)) 0) as [H0 |]; [contradiction (Hs eq_refl H0) |].
  cbn [negb cassert mbind outcome_bind].
  destruct (Hstep (objs ++ [(ByValSize (Flags Out), ByValAlign (Flags Out))])) as (ops & objs' & H & Hm). rewrite H.
  cbn [mbind outcome_bind]. rewrite length_app, Nat.add_1_r. eexists _, _. split; [reflexivity | constructor; [exact I | exact Hm]].
Qed.

Lemma at_index_copies (n total k : nat) :
  (k < total)%nat → at_index (map copy_index (seq n total)) (Z.of_nat k) = Ret (copy_index (n + k)).
Proof. intros H. apply at_index_lookup. rewrite list_lookup_fmap, lookup_seq_lt by exact H. reflexivity. Qed.

Lemma passArgs_spec (VAs : list CCValAssign) (preO Outs : list Arg) (preV vals : list SDValue) (n k total : nat) :
  length VAs = length Outs → length Outs = length vals → length preO = length preV → Forall (λ VA, HTP VA = Full) VAs →
  (k + byval_count Outs ≤ total)%nat →
  passArgs VAs (Z.of_nat (length preO)) (Z.of_nat k) (preO ++ Outs) (preV ++ vals) (map copy_index (seq n total)) =
    Ret (to_regs VAs (passed (n + k) Outs vals), map slot_op (to_slots VAs (passed (n + k) Outs vals))).
Proof.
  intros HVO HOV Hpre HF Hk. revert preO Outs preV vals k HVO HOV Hpre Hk.
  induction HF as [| VA l HVA HF IH]; intros preO Outs preV vals k HVO HOV Hpre Hk; [reflexivity |].
  destruct Outs as [| Out Outs]; [discriminate |]. destruct vals as [| v vals]; [discriminate |].
  injection HVO as HVO. injection HOV as HOV. rewrite byval_count_cons in Hk. cbn [passArgs].
  rewrite Hpre, at_index_middle, <- Hpre, at_index_middle. cbn [mbind outcome_bind]. unfold promote. rewrite HVA.
  assert (Hnext : ∀ k', (k' + byval_count Outs ≤ total)%nat →
    passArgs l (Z.of_nat (length preO) + 1) (Z.of_nat k') (preO ++ Out :: Outs) (preV ++ v :: vals) (map copy_index (seq n total)) =
    Ret (to_regs l (passed (n + k') Outs vals), map slot_op (to_slots l (passed (n + k') Outs vals)))).
  { intros k' Hk'. specialize (IH (preO ++ [Out]) Outs (preV ++ [v]) vals k' HVO HOV).
    rewrite !length_app, Nat2Z.inj_add, <- !app_assoc in IH. apply IH; [cbn; lia | exact Hk']. }
  cbn [passed]. revert Hk. destruct (isByVal (Flags Out)); intros Hk.
  - rewrite at_index_copies by lia. cbn [mbind outcome_bind].
    replace (Z.of_nat k + 1) with (Z.of_nat (S k)) by lia. rewrite Hnext by lia. cbn [mbind outcome_bind to_regs to_slots].
    rewrite Nat.add_succ_r. unfold isRegLoc, getLocReg, getLocMemOffset. destruct (Loc VA); reflexivity.
  - cbn [mbind outcome_bind]. rewrite Hnext by lia. cbn [mbind outcome_bind to_regs to_slots].
    unfold isRegLoc, getLocReg, getLocMemOffset. destruct (Loc VA); reflexivity.
Qed.

(** ** Arguments and their locations *)
Lemma to_regs_in (VAs : list CCValAssign) (vs : list SDValue) (r : Nyuzi.reg) (v : SDValue) :
  (r, v) ∈ to_regs VAs vs ↔ ∃ k VA, VAs !! k = Some VA ∧ vs !! k = Some v ∧ Loc VA = RegLoc r.
Proof.
  revert vs. induction VAs as [| VA l IH]; intros vs; cbn [to_regs].
  { rewrite elem_of_nil. split; [contradiction | intros (k & VA & H & _); discriminate H]. }
  destruct vs as [| w vs].
  { rewrite elem_of_nil. split; [contradiction | intros (k & VB & _ & H & _); discriminate H]. }
  assert (Htail : (∃ k VB, (VA :: l) !! S k = Some VB ∧ (w :: vs) !! S k = Some v ∧ Loc VB = RegLoc r) ↔ (r, v) ∈ to_regs l vs)
    by (rewrite IH; reflexivity).
  destruct (Loc VA) as [r0 | o] eqn:HL; [rewrite elem_of_cons |]; rewrite <- Htail; split.
  - intros [[= -> ->] | (k & VB & H)]; [exists 0%nat, VA; auto | exists (S k), VB; exact H].
  - intros ([| k] & VB & H1 & H2 & H3); [left | right; eauto]. cbn in H1, H2. congruence.
  - intros (k & VB & H). exists (S k), VB. exact H.
  - intros ([| k] & VB & H1 & H2 & H3); [| eauto]. cbn in H1. congruence.
Qed.

Lemma to_slots_in (VAs : list CCValAssign) (vs : list SDValue) (o : Z) (v : SDValue) :
  (v, o) ∈ to_slots VAs vs ↔ ∃ k VA, VAs !! k = Some VA ∧ vs !! k = Some v ∧ Loc VA = MemLoc o.
Proof.
  revert vs. induction VAs as [| VA l IH]; intros vs; cbn [to_slots].
  { rewrite elem_of_nil. split; [contradiction | intros (k & VA & H & _); discriminate H]. }
  destruct vs as [| w vs].
  { rewrite elem_of_nil. split; [contradiction | intros (k & VB & _ & H & _); discriminate H]. }
  assert (Htail : (∃ k VB, (VA :: l) !! S k = Some VB ∧ (w :: vs) !! S k = Some v ∧ Loc VB = MemLoc o) ↔ (v, o) ∈ to_slots l vs)
    by (rewrite IH; reflexivity).
  destruct (Loc VA) as [r | o0] eqn:HL; [| rewrite elem_of_cons]; rewrite <- Htail; split.
  - intros (k & VB & H). exists (S k), VB. exact H.
  - intros ([| k] & VB & H1 & H2 & H3); [| eauto]. cbn in H1. congruence.
  - intros [[= -> ->] | (k & VB & H)]; [exists 0%nat, VA; auto | exists (S k), VB; exact H].
  - intros ([| k] & VB & H1 & H2 & H3); [left | right; eauto]. cbn in H1, H2. congruence.
Qed.

Definition typed (VA : CCValAssign) (v : SDValue) : Prop := getValueType v = LocVT VA.

Lemma to_slots_apart (VAs : list CCValAssign) (vs : list SDValue) :
  ForallOrdPairs disjoint_locs VAs → Forall2 typed VAs vs → ForallOrdPairs apart (to_slots VAs vs).
Proof.
  intros Hd. revert vs. induction Hd as [| VA l HVA Hd IH]; intros vs Ht; [constructor |].
  inversion Ht as [| ? v ? vs' Hv Ht']; subst. cbn [to_slots]. destruct (Loc VA) as [r | o] eqn:HL; [auto |].
  constructor; [| auto]. apply Forall_forall. intros [w o'] Hw. apply to_slots_in in Hw as (k & VB & HB & Hwk & HLB).
  rewrite Forall_lookup in HVA. specialize (HVA k VB HB). unfold disjoint_locs in HVA. rewrite HL, HLB in HVA.
  destruct (Forall2_lookup_l _ _ _ _ _ Ht' HB) as (w' & Hw' & Htw). replace w' with w in * by congruence.
  unfold apart, slot_size, typed in *. cbn [fst snd]. rewrite Hv, Htw. exact HVA.
Qed.

Lemma to_regs_NoDup (VAs : list CCValAssign) (vs : list SDValue) :
  ForallOrdPairs disjoint_locs VAs → NoDup (map fst (to_regs VAs vs)).
Proof.
  intros Hd. revert vs. induction Hd as [| VA l HVA Hd IH]; intros vs; [constructor |].
  destruct vs as [| v vs]; [constructor |]. cbn [to_regs]. destruct (Loc VA) as [r | o] eqn:HL; [| apply IH].
  cbn [map fst]. constructor; [| apply IH]. intros Hr. apply list_elem_of_fmap in Hr as ([r' w] & Hr & Hin). cbn in Hr. subst r'.
  apply to_regs_in in Hin as (k & VB & HB & _ & HLB). rewrite Forall_lookup in HVA. specialize (HVA k VB HB).
  unfold disjoint_locs in HVA. rewrite HL, HLB in HVA. congruence.
Qed.

(** ** The values of the formal arguments *)
Definition formal_ok (st : FunctionState) (VA : CCValAssign) (w : SDValue) : Prop :=
  match Loc VA with
  | RegLoc r => ∃ v, w = getCopyFromReg (Nyuzi.VirtReg v) (LocVT VA) ∧ (r, v) ∈ LiveIns st
  | MemLoc o => ∃ j, w = getLoad (LocVT VA) (getFrameIndex (- Z.of_nat (S j))) ∧
                     FixedObjects st !! j = Some (mem_size (LocVT VA), o)
  end.

(** The state only gains live-ins and fixed objects. *)
Definition extends (st st' : FunctionState) : Prop :=
  LiveIns st `prefix_of` LiveIns st' ∧ FixedObjects st `prefix_of` FixedObjects st'.

#[global] Instance extends_preorder : PreOrder extends.
Proof. split; [intros st; split; reflexivity | intros a b c [H1 H2] [H3 H4]; split; etransitivity; eassumption]. Qed.

Lemma formal_ok_extends (st st' : FunctionState) (VA : CCValAssign) (w : SDValue) :
  extends st st' → formal_ok st VA w → formal_ok st' VA w.
Proof.
  intros [[l Hl] [l' Hl']]. unfold formal_ok. destruct (Loc VA).
  - intros (v & Hw & Hv). exists v. split; [exact Hw |]. rewrite Hl. apply elem_of_app. auto.
  - intros (j & Hw & Hj). exists j. split; [exact Hw |]. rewrite Hl'. apply lookup_app_l_Some. exact Hj.
Qed.

Definition plain (VA : CCValAssign) : Prop := legal (LocVT VA) ∧ ValVT VA = LocVT VA ∧ HTP VA = Full.

Lemma size_bits (VT : MVT.t) : legal VT → getSizeInBits VT / 8 = mem_size VT.
Proof. intros H. legal_cases H; reflexivity. Qed.

(** The end of the last stack slot of a list of locations. *)
Fixpoint slots_end (VAs : list CCValAssign) (e : Z) : Z :=
  match VAs with
  | [] => e
  | VA :: l => slots_end l (match Loc VA with RegLoc _ => e | MemLoc o => o + mem_size (LocVT VA) end)
  end.

Lemma lowerFormals_spec (l : list CCValAssign) (e : Z) (st : FunctionState) :
  Forall plain l → ∃ InVals st', lowerFormals l e st = Ret (InVals, slots_end l e, st') ∧ extends st st' ∧
    Forall2 (formal_ok st') l InVals.
Proof.
  intros Hl. revert e st. induction Hl as [| VA l (Hleg & HV & _) Hl IH]; intros e st.
  { exists [], st. split; [reflexivity |]. split; [reflexivity | constructor]. }
  assert (H : ∃ w st1, lowerFormal VA e st =
      Ret (w, (match Loc VA with RegLoc _ => e | MemLoc o => o + mem_size (LocVT VA) end), st1) ∧ extends st st1 ∧ formal_ok st1 VA w).
  { unfold lowerFormal, isRegLoc, getLocReg, getLocMemOffset, formal_ok. destruct (Loc VA) as [r | o].
    - replace (formalRegClass (LocVT VA)) with (Ret (A := Nyuzi.regclass)
        (match LocVT VA with MVT.v16i32 | MVT.v16f32 => Nyuzi.VR512RegClass | _ => Nyuzi.GPR32RegClass end))
        by (legal_cases Hleg; reflexivity).
      cbn [mbind outcome_bind createLiveIn]. eexists _, _. split; [reflexivity |]. split.
      + split; cbn; [eexists; reflexivity | reflexivity].
      + eexists. split; [reflexivity |]. cbn. apply elem_of_app. right. left.
    - rewrite HV, size_bits by exact Hleg. cbn [mbind outcome_bind]. unfold CreateFixedObject.
      pose proof (mem_size_pos _ Hleg). destruct (Z.eqb_spec (mem_size (LocVT VA)) 0); [lia |].
      cbn [negb cassert mbind outcome_bind]. eexists _, _. split; [reflexivity |]. split.
      + split; cbn; [reflexivity | eexists; reflexivity].
      + exists (length (FixedObjects st)). cbn [FixedObjects]. rewrite length_app, Nat.add_1_r. split.
        * unfold legal in Hleg. rewrite !elem_of_cons, elem_of_nil in Hleg.
          destruct Hleg as [-> | [-> | [-> | [-> | [-> | []]]]]]; reflexivity.
        * apply list_lookup_middle. reflexivity. }
  destruct H as (w & st1 & Hw & Hext & Hok). destruct (IH (match Loc VA with RegLoc _ => e | MemLoc o => o + mem_size (LocVT VA) end) st1)
    as (ws & st' & Hws & Hext' & Hoks).
  exists (w :: ws), st'. cbn [lowerFormals slots_end]. rewrite Hw. cbn [mbind outcome_bind]. rewrite Hws. cbn [mbind outcome_bind].
  split; [reflexivity |]. split; [etransitivity; eassumption |]. constructor; [exact (formal_ok_extends _ _ _ _ Hext' Hok) | exact Hoks].
Qed.

(** ** Callers and callees *)

(** The environment of a callee whose frame starts at [sp] when the machine is
    [m] on entry: live-in virtual registers hold the physical ones, and the
    fixed objects are at their offsets. *)
Definition callee_env (sp : Z) (m : machine) (st : FunctionState) (Ec : Env) : Prop :=
  (∀ r v i, (r, v) ∈ LiveIns st → reg_lane Ec (Nyuzi.VirtReg v) i = mregs m r i) ∧
  (∀ x, word Ec x = load_word (mbytes m) x) ∧
  ∀ j size o, FixedObjects st !! j = Some (size, o) → frame_address Ec (- Z.of_nat (S j)) = sp + o.

(** An argument a caller may pass: of a legal type, by value as the pointer to a
    copy of some bytes. *)
Definition passable (A : Arg) : Prop :=
  legal (VT A) ∧ (isByVal (Flags A) = true → VT A = MVT.i32 ∧ ByValSize (Flags A) ≠ 0).

Lemma legal_loc_type (T : MVT.t) : legal T → loc_type T = T.
Proof. intros H. legal_cases H; reflexivity. Qed.

Lemma passable_assigns (l : list Arg) : Forall passable l → Forall assigns l.
Proof.
  intros H. eapply Forall_impl; [exact H |]. intros A (HA & _). unfold assigns, assignable.
  rewrite legal_loc_type by exact HA. exact HA.
Qed.

Lemma describes_plain (VA : CCValAssign) (i : nat) (A : Arg) : legal (VT A) → describes VA i A → plain VA ∧ LocVT VA = VT A.
Proof.
  intros HA (_ & HV & HL & HH). rewrite legal_loc_type in HL by exact HA. unfold plain. rewrite HL, HV, HH.
  split; [| reflexivity]. split; [exact HA |]. split; [reflexivity |]. legal_cases HA; reflexivity.
Qed.

Lemma passed_typed (n : nat) (l : list Arg) (vs : list SDValue) :
  Forall passable l → Forall2 (λ A v, getValueType v = VT A) l vs → Forall2 (λ A v, getValueType v = VT A) l (passed n l vs).
Proof.
  intros Hp Ht. revert n Hp. induction Ht as [| A v l vs Hv Ht IH]; intros n Hp; [constructor |].
  inversion Hp as [| ? ? [_ Hb] Hp']; subst. cbn [passed]. destruct (isByVal (Flags A)); constructor; auto.
  destruct (Hb eq_refl) as [-> _]. reflexivity.
Qed.

(** Locations, arguments and their values side by side. *)
Lemma placed_args (va : bool) (ma : Z) (l : list Arg) (n : nat) (vs : list SDValue) :
  Forall passable l → Forall2 (λ A v, getValueType v = VT A) l vs → 128 * Z.of_nat (length l) ≤ 2 ^ 32 →
  ∃ VAs St', Analyze CC_Nyuzi32 0 l (newCCState va ma) = Ret St' ∧ Locs St' = VAs ∧ placements (newCCState va ma) VAs St' ∧
    length VAs = length l ∧ Forall plain VAs ∧ Forall2 typed VAs (passed n l vs) ∧
    0 ≤ StackOffset St' ≤ 128 * Z.of_nat (length l).
Proof.
  intros Hp Ht Hb.
  destruct (Analyze_placements 0 l (newCCState va ma) (passable_assigns l Hp)) as (VAs & St' & Ha & Hps & HL & Hlen & Hk & Hend);
    [cbn; lia .. |]. destruct (placements_located _ _ _ Hps) as (Hle & _). cbn in HL, Hend, Hle.
  assert (HVA : ∀ k VA, VAs !! k = Some VA → ∃ A, l !! k = Some A ∧ plain VA ∧ LocVT VA = VT A).
  { intros k VA HVk. destruct (lookup_lt_is_Some_2 l k) as [A HA]; [rewrite <- Hlen; exact (lookup_lt_Some _ _ _ HVk) |].
    destruct (Hk k A HA) as (VB & HVB & HdB). replace VB with VA in * by congruence. exists A. split; [exact HA |].
    rewrite Forall_lookup in Hp. destruct (Hp k A HA) as [Hleg _]. exact (describes_plain VA k A Hleg HdB). }
  pose proof (passed_typed n l vs Hp Ht) as Hpt.
  exists VAs, St'. split; [exact Ha |]. split; [exact HL |]. split; [exact Hps |]. split; [exact Hlen |]. split; [| split; [| lia]].
  - apply Forall_lookup. intros k VA HVk. destruct (HVA k VA HVk) as (A & _ & H & _). exact H.
  - apply Forall2_same_length_lookup_2; [rewrite Hlen; exact (Forall2_length _ _ _ Hpt) |].
    intros k VA v HVk Hvk. destruct (HVA k VA HVk) as (A & HA & _ & HT).
    destruct (Forall2_lookup_l _ _ _ _ _ Hpt HA) as (v' & Hv' & HTv). unfold typed. rewrite HT. congruence.
Qed.

Definition arg_stores (VAs : list CCValAssign) (vs : list SDValue) : list chain_op :=
  match map slot_op (to_slots VAs vs) with [] => [] | l => [Stores l] end.

Definition arg_copies (VAs : list CCValAssign) (vs : list SDValue) : list chain_op :=
  map (λ '(r, v), CopyToReg r v) (to_regs VAs vs).

Lemma memcpy_regs (E : Env) (u : oracle) (ops : list chain_op) (m m' : machine) :
  Forall is_memcpy ops → chain_run E u m ops m' → mregs m' = mregs m.
Proof.
  intros Hf Hr. induction Hr as [m | m op m1 ops m2 Hs Hr IH]; [reflexivity |]. inversion Hf; subst.
  rewrite IH by assumption. inversion Hs; subst; try contradiction. reflexivity.
Qed.

Lemma arg_reg_not_sp (T : MVT.t) : Nyuzi.SP_REG ∉ arg_regs T.
Proof. unfold arg_regs. rewrite list_elem_of_fmap. intros (i & Hi & _). destruct (decide _); discriminate Hi. Qed.

Lemma args_run (E : Env) (u : oracle) (va : bool) (ma s : Z) (VAs : list CCValAssign) (St' : CCState) (vs : list SDValue) (m m' : machine) :
  placements (newCCState va ma) VAs St' → Forall plain VAs → Forall2 typed VAs vs →
  let sp := u32 (mregs m Nyuzi.SP_REG 0%nat - s) in sp + StackOffset St' ≤ 2 ^ 32 →
  chain_run E u m ([CALLSEQ_START s] ++ arg_stores VAs vs ++ arg_copies VAs vs) m' →
  mregs m' Nyuzi.SP_REG 0%nat = sp ∧
  ∀ k VA v, VAs !! k = Some VA → vs !! k = Some v →
    match Loc VA with
    | RegLoc r => mregs m' r = val E u v
    | MemLoc o => holds (mbytes m') (sp + o) (getValueType v) (val E u v) ∧ 0 ≤ o ∧ o + mem_size (LocVT VA) ≤ StackOffset St'
    end.
Proof.
  intros Hps Hpl Hty sp Hsp Hr. pose proof (placements_disjoint _ _ _ Hps) as Hd.
  destruct (placements_located _ _ _ Hps) as (_ & Hloc). cbn [app] in Hr.
  inversion Hr as [| ? ? m1 ? ? Hstart Hr']; subst. inversion Hstart; subst. clear Hr Hstart.
  set (m1 := set_lanes Nyuzi.SP_REG _ m) in Hr'.
  assert (Hsp1 : mregs m1 Nyuzi.SP_REG 0%nat = sp) by (cbn; rewrite decide_True by reflexivity; reflexivity).
  assert (Hsp0 : 0 ≤ sp) by (apply (uint_range 32); lia).
  assert (Hslot : ∀ w o, (w, o) ∈ to_slots VAs vs → slot_ok sp (w, o)).
  { intros w o Hin. apply to_slots_in in Hin as (k & VA & HVA & Hw & HL).
    rewrite Forall_lookup in Hpl. destruct (Hpl k VA HVA) as (Hleg & _).
    destruct (Forall2_lookup_l _ _ _ _ _ Hty HVA) as (w' & Hw' & Ht). replace w' with w in * by congruence.
    specialize (Hloc VA (list_elem_of_lookup_2 _ _ _ HVA)). unfold located in Hloc. rewrite HL in Hloc. cbn in Hloc.
    unfold slot_ok, slot_size. cbn [fst snd]. unfold typed in Ht. rewrite Ht. repeat split; [exact Hleg | lia | lia]. }
  apply chain_run_app in Hr' as (m2 & Hst & Hcp).
  assert (Hst2 : Forall (slot_held E u m2) (to_slots VAs vs) ∧ mregs m2 = mregs m1).
  { unfold arg_stores in Hst. destruct (map slot_op (to_slots VAs vs)) as [| x l] eqn:Hm.
    - apply map_eq_nil in Hm. rewrite Hm. inversion Hst; subst. split; [constructor | reflexivity].
    - inversion Hst as [| ? ? m3 ? ? Hs1 Hs2]; subst. inversion Hs2; subst. rewrite <- Hm in Hs1.
      apply (stores_held E u _ m1); [rewrite Hsp1; exact Hsp0 | | exact (to_slots_apart _ _ Hd Hty) | exact Hs1].
      apply Forall_forall. intros [w o] Hin. rewrite Hsp1. apply Hslot, Hin. }
  destruct Hst2 as (Hheld & Hregs2).
  destruct (copies_held E u _ m2 m' (to_regs_NoDup VAs vs Hd) Hcp) as (Hb & Hin & Hout).
  assert (HspN : Nyuzi.SP_REG ∉ map fst (to_regs VAs vs)).
  { intros H. apply list_elem_of_fmap in H as ([r w] & Hr & H). cbn in Hr. subst r.
    apply to_regs_in in H as (k & VA & HVA & _ & HL). specialize (Hloc VA (list_elem_of_lookup_2 _ _ _ HVA)).
    unfold located in Hloc. rewrite HL in Hloc. destruct Hloc as (_ & H & _). exact (arg_reg_not_sp _ H). }
  split; [rewrite Hout, Hregs2 by exact HspN; exact Hsp1 |].
  intros k VA v HVA Hv. specialize (Hloc VA (list_elem_of_lookup_2 _ _ _ HVA)). unfold located in Hloc.
  destruct (Loc VA) as [r | o] eqn:HL.
  - apply Hin, to_regs_in. eauto.
  - cbn in Hloc. split; [| lia]. rewrite Forall_forall in Hheld.
    assert (Hs : (v, o) ∈ to_slots VAs vs) by (apply to_slots_in; eauto).
    specialize (Hheld (v, o) Hs). unfold slot_held in Hheld. rewrite Hregs2, Hsp1, <- Hb in Hheld. exact Hheld.
Qed.

(** The callee reads what the caller passed. *)
Lemma formal_reads (E Ec : Env) (u u' : oracle) (sp B : Z) (m : machine) (st : FunctionState) (VA : CCValAssign) (v w : SDValue) (i : nat) :
  total u → callee_env sp m st Ec → plain VA → typed VA v → formal_ok st VA w → 0 ≤ sp → sp + B ≤ 2 ^ 32 →
  match Loc VA with
  | RegLoc r => mregs m r = val E u v
  | MemLoc o => holds (mbytes m) (sp + o) (getValueType v) (val E u v) ∧ 0 ≤ o ∧ o + mem_size (LocVT VA) ≤ B
  end →
  (i < MVT.num_lanes (getValueType v))%nat → eval Ec u' w i = Some (val E u v i).
Proof.
  intros Hu (Hreg & Hword & Hfix) (Hleg & _) Ht Hok Hsp HB Hloc Hi. unfold typed in Ht.
  assert (Hv : 0 ≤ val E u v i < 2 ^ MVT.lane_bits (LocVT VA)).
  { unfold val. destruct (eval_total E u v i Hu) as [z Hz]. rewrite Hz. rewrite <- Ht. exact (eval_range E u v i z Hz). }
  unfold formal_ok in Hok. destruct (Loc VA) as [r | o].
  - destruct Hok as (vr & -> & Hin). unfold getCopyFromReg, getNode.
    rewrite (eval_Node_Some _ _ _ _ _ _ (val E u v i)); [rewrite uint_small by exact Hv; reflexivity |].
    cbn. rewrite (Hreg r vr i Hin), Hloc. reflexivity.
  - destruct Hok as (j & -> & Hj), Hloc as (Hh & Ho & Hend). pose proof (mem_size_pos _ Hleg).
    rewrite Ht in Hh, Hi.
    apply (eval_load_held Ec u' (LocVT VA) _ (sp + o) (mbytes m)); try assumption; try lia.
    unfold getFrameIndex, getNode. rewrite (eval_Node_Some _ _ _ _ _ _ (sp + o)); [rewrite uint_small by (cbn; lia); reflexivity |].
    cbn. f_equal. exact (Hfix j _ _ Hj).
Qed.

Lemma copyCallResults_spec (VAs : list CCValAssign) :
  (∀ VA, VA ∈ VAs → ∃ r, Loc VA = RegLoc r) →
  ∃ ops InVals, copyCallResults VAs = Ret (ops, InVals) ∧
    ∀ k VA r, VAs !! k = Some VA → Loc VA = RegLoc r → InVals !! k = Some (getCopyFromReg r (ValVT VA)).
Proof.
  induction VAs as [| VA l IH]; intros H; [exists [], []; split; [reflexivity | discriminate] |].
  destruct (H VA ltac:(left)) as [r Hr]. destruct IH as (ops & InVals & Hc & Hk); [intros VB HB; apply H; right; exact HB |].
  cbn [copyCallResults]. unfold getLocReg. rewrite Hr, Hc. cbn [mbind outcome_bind]. eexists _, _. split; [reflexivity |].
  intros [| k] VB r' HB Hr'; [injection HB as <-; rewrite Hr in Hr'; injection Hr' as <-; reflexivity | exact (Hk k VB r' HB Hr')].
Qed.

(** The results of a call or a return, when they fit in registers. *)
Definition returnable (l : list Arg) : Prop := Forall assigns l ∧ ∀ vec, (class_count vec l ≤ 6)%nat.

Lemma returnable_regs (va : bool) (ma : Z) (l : list Arg) :
  returnable l → ∃ St', Analyze RetCC_Nyuzi32 0 l (newCCState va ma) = Ret St' ∧ length (Locs St') = length l ∧
    ∀ k A, l !! k = Some A → ∃ VA, Locs St' !! k = Some VA ∧ describes VA k A ∧
      Loc VA = RegLoc (class_reg (vector_class (loc_type (VT A))) (class_count (vector_class (loc_type (VT A))) (take k l))).
Proof.
  intros (Hl & H6). pose proof (Analyze_RetCC (λ _, 0%nat) [] l (newCCState va ma) Hl (λ _, eq_refl)) as H.
  cbn [app length] in H. rewrite bool_decide_eq_true_2 in H by exact H6.
  destruct H as (_ & VAs & St' & Ha & HL & Hlen & Hk);
    [intros vec i; cbn; rewrite elem_of_nil; lia | intros; lia |]. cbn in HL. exists St'. rewrite HL. auto.
Qed.

Lemma returnable_reg_locs (va : bool) (ma : Z) (l : list Arg) (St' : CCState) (VA : CCValAssign) :
  returnable l → Analyze RetCC_Nyuzi32 0 l (newCCState va ma) = Ret St' → VA ∈ Locs St' → ∃ r, Loc VA = RegLoc r.
Proof.
  intros Hr Ha Hin. destruct (returnable_regs va ma l Hr) as (St2 & Ha2 & Hlen & Hk). replace St2 with St' in * by congruence.
  apply list_elem_of_lookup in Hin as [k HVA]. destruct (lookup_lt_is_Some_2 l k) as [A HA].
  { rewrite <- Hlen. exact (lookup_lt_Some _ _ _ HVA). }
  destruct (Hk k A HA) as (VB & HVB & _ & HL). replace VA with VB by congruence. eauto.
Qed.

(** What [LowerCall] returns on arguments it can pass. *)
Lemma LowerCall_eq (PIC : bool) (hl : AddrOf → bool) (va : bool) (ma : Z) (Outs : list Arg) (OutVals : list SDValue)
    (Ins : list Arg) (Callee : SDValue) (objs : list (Z * Z)) :
  Forall passable Outs → Forall2 (λ A v, getValueType v = VT A) Outs OutVals → 128 * Z.of_nat (length Outs) + 64 ≤ 2 ^ 31 →
  returnable Ins →
  ∃ St' RV copies results rets objs' s,
    let vs := passed (length objs) Outs OutVals in
    Analyze CC_Nyuzi32 0 Outs (newCCState va ma) = Ret St' ∧
    Analyze RetCC_Nyuzi32 0 Ins (newCCState va ma) = Ret RV ∧
    LowerCall PIC hl va ma Outs OutVals Ins Callee objs =
      Ret ((copies ++ [CALLSEQ_START s] ++ arg_stores (Locs St') vs ++ arg_copies (Locs St') vs) ++
           CALL (lowerCallee PIC hl Callee) (map (λ '(r, v), (r, getValueType v)) (to_regs (Locs St') vs)) ::
           CALLSEQ_END s :: results, rets, objs') ∧
    Forall is_memcpy copies ∧ StackOffset St' ≤ s ≤ 128 * Z.of_nat (length Outs) + 64 ∧ (64 | s)%Z ∧
    ∀ k VA r, Locs RV !! k = Some VA → Loc VA = RegLoc r → rets !! k = Some (getCopyFromReg r (ValVT VA)).
Proof.
  intros Hp Ht Hb Hret.
  destruct (placed_args va ma Outs (length objs) OutVals Hp Ht ltac:(lia)) as (VAs & St' & Ha & HL & Hps & Hlen & Hpl & Hty & HSO).
  destruct (returnable_regs va ma Ins Hret) as (RV & HRV & _).
  destruct (alignTo_spec (StackOffset St') 64) as (s & Hs & Hsb & Hsd); [lia .. |].
  destruct (copyByVal_spec [] OutVals Outs objs (Forall2_length _ _ _ Ht)) as (copies & objs' & Hcp & Hm).
  { eapply Forall_impl; [exact Hp |]. intros A (_ & HA) Hbv. apply HA. exact Hbv. }
  destruct (copyCallResults_spec (Locs RV)) as (results & rets & Hres & Hrets).
  { intros VA HVA. exact (returnable_reg_locs va ma Ins RV VA Hret HRV HVA). }
  exists St', RV, copies, results, rets, objs', s. cbv zeta. split; [exact Ha |]. split; [exact HRV |].
  split; [| split; [exact Hm | split; [lia | split; [exact Hsd | exact Hrets]]]].
  unfold LowerCall, AnalyzeCallOperands, AnalyzeCallResult. rewrite Ha. cbn [mbind outcome_bind]. unfold getStackAlignment.
  rewrite Hs. cbn [mbind outcome_bind]. rewrite (uint_small 32 s) by lia.
  cbn [app length] in Hcp. change (Z.of_nat 0) with 0 in Hcp. rewrite Hcp. cbn [mbind outcome_bind].
  assert (HF : Forall (λ VA, HTP VA = Full) (Locs St')).
  { rewrite HL. eapply Forall_impl; [exact Hpl |]. intros VA (_ & _ & H). exact H. }
  pose proof (passArgs_spec (Locs St') [] Outs [] OutVals (length objs) 0 (byval_count Outs)) as Hpa.
  cbn [app length] in Hpa. change (Z.of_nat 0) with 0 in Hpa. rewrite Nat.add_0_r in Hpa.
  rewrite Hpa; [| rewrite HL; exact Hlen | exact (Forall2_length _ _ _ Ht) | reflexivity | exact HF | lia].
  cbn [mbind outcome_bind]. rewrite HRV. cbn [mbind outcome_bind]. rewrite Hres. cbn [mbind outcome_bind].
  unfold arg_stores, arg_copies. rewrite <- !app_assoc. cbn [app]. destruct (map slot_op _); reflexivity.
Qed.

(** What [LowerFormalArguments] returns. *)
Lemma LowerFormalArguments_eq (va sret : bool) (ma : Z) (Ins : list Arg) (st : FunctionState) (VAs : list CCValAssign) (St' : CCState) :
  AnalyzeFormalArguments Ins CC_Nyuzi32 (newCCState va ma) = Ret St' → Locs St' = VAs → Forall plain VAs →
  (sret = true → VAs ≠ []) →
  ∃ InVals chain st1 st', LowerFormalArguments va sret ma Ins st = Ret (InVals, chain, st') ∧
    lowerFormals VAs 0 st = Ret (InVals, slots_end VAs 0, st1) ∧
    Forall2 (formal_ok st') VAs InVals ∧ extends st st1 ∧ extends st1 st' ∧
    (va = true → FixedObjects st' !! length (FixedObjects st1) = Some (4, slots_end VAs 0) ∧
                 VarArgsFrameIndex st' = - Z.of_nat (S (length (FixedObjects st1)))).
Proof.
  intros Ha HL Hpl Hs. destruct (lowerFormals_spec VAs 0 st Hpl) as (InVals & st1 & Hf & Hext & Hok).
  set (st2 := if va then setVarArgsFrameIndex (- Z.of_nat (S (length (FixedObjects st1))))
                           (mkFunctionState (FrameAddressIsTaken st1) (ReturnAddressIsTaken st1) (LiveIns st1) (NextVirtReg st1)
                              (VarArgsFrameIndex st1) (SRetReturnReg st1) (FixedObjects st1 ++ [(4, slots_end VAs 0)])) else st1).
  set (st3 := if sret then (getOrCreateSRetReturnReg st2).2 else st2).
  assert (Hext13 : extends st1 st3 ∧ LiveIns st3 = LiveIns st2 ∧ FixedObjects st3 = FixedObjects st2 ∧ VarArgsFrameIndex st3 = VarArgsFrameIndex st2).
  { assert (H23 : LiveIns st3 = LiveIns st2 ∧ FixedObjects st3 = FixedObjects st2 ∧ VarArgsFrameIndex st3 = VarArgsFrameIndex st2)
      by (subst st3; destruct sret; [unfold getOrCreateSRetReturnReg; destruct (SRetReturnReg st2); auto | auto]).
    destruct H23 as (H1 & H2 & H3). split; [| auto]. unfold extends. rewrite H1, H2. subst st2. destruct va; cbn; split;
      try reflexivity. eexists. reflexivity. }
  destruct Hext13 as (Hext13 & _ & HF & HV).
  exists InVals, (if sret then [CopyToReg (Nyuzi.VirtReg (getOrCreateSRetReturnReg st2).1) (default (getFrameIndex 0) (InVals !! 0%nat))] else []),
    st1, st3.
  assert (Hok3 : Forall2 (formal_ok st3) VAs InVals).
  { eapply Forall2_impl; [exact Hok |]. intros VA w Hw. exact (formal_ok_extends _ _ _ _ Hext13 Hw). }
  split; [| split; [exact Hf | split; [exact Hok3 | split; [exact Hext | split; [exact Hext13 |]]]]].
  - unfold LowerFormalArguments. rewrite Ha. cbn [mbind outcome_bind]. rewrite HL, Hf. cbn [mbind outcome_bind].
    replace (if va then _ else Ret st1) with (Ret (A := FunctionState) st2).
    2: { subst st2. destruct va; [| reflexivity]. unfold CreateFixedObject. cbn [Z.eqb negb cassert mbind outcome_bind].
         rewrite length_app, Nat.add_1_r. reflexivity. }
    cbn [mbind outcome_bind]. subst st3. destruct sret; [| reflexivity].
    destruct (getOrCreateSRetReturnReg st2) as [Reg st4]. cbn [fst snd].
    destruct InVals as [| w ws]; [apply Forall2_nil_inv_r in Hok; contradiction (Hs eq_refl Hok) |]. reflexivity.
  - intros ->. rewrite HF, HV. subst st2. cbn. split; [| reflexivity]. apply list_lookup_middle. reflexivity.
Qed.

Lemma chain_total (E : Env) (u : oracle) (ops : list chain_op) (m : machine) :
  Forall (λ op, match op with Memcpy _ _ _ _ _ | CALLSEQ_START _ | Stores _ | CopyToReg _ _ => True | _ => False end) ops →
  ∃ m', chain_run E u m ops m'.
Proof.
  intros H. revert m. induction H as [| op ops Hop H IH]; intros m; [eexists; constructor |].
  assert (Hs : ∃ m1, chain_step E u m op m1).
  { destruct op; try contradiction; eexists; [apply chain_memcpy | apply chain_start | apply chain_stores; reflexivity | apply chain_copy]. }
  destruct Hs as [m1 Hs]. destruct (IH m1) as [m' Hr]. exists m'. econstructor; eassumption.
Qed.

Lemma call_ops_total (E : Env) (u : oracle) (copies : list chain_op) (s : Z) (VAs : list CCValAssign) (vs : list SDValue) (m : machine) :
  Forall is_memcpy copies → ∃ m', chain_run E u m (copies ++ [CALLSEQ_START s] ++ arg_stores VAs vs ++ arg_copies VAs vs) m'.
Proof.
  intros Hm. apply chain_total. rewrite !Forall_app. split; [| split; [| split]].
  - eapply Forall_impl; [exact Hm |]. intros [] H; try contradiction; exact I.
  - repeat constructor.
  - unfold arg_stores. destruct (map _ _); repeat constructor.
  - apply Forall_forall. intros op Hop. apply list_elem_of_fmap in Hop as ([r v] & -> & _). exact I.
Qed.

(** C12. A callee reads exactly the arguments its caller passed.  For arguments of
    legal types, in registers and on the stack, variadic or not, [LowerCall] and
    [LowerFormalArguments] return; the chain in front of the call can run; and
    whatever the order of its stores, in the machine it leaves every formal
    argument evaluates in every lane to the value passed: the argument, or the
    address of its copy when it is passed by value. *)
Theorem call_passes_arguments (E : Env) (u : oracle) (PIC : bool) (hl : AddrOf → bool) (va sret : bool) (ma : Z)
    (Ins more : list Arg) (OutVals : list SDValue) (results : list Arg) (Callee : SDValue) (objs : list (Z * Z)) (st : FunctionState) :
  total u → Forall passable (Ins ++ more) → Forall2 (λ A v, getValueType v = VT A) (Ins ++ more) OutVals →
  128 * Z.of_nat (length (Ins ++ more)) + 64 ≤ 2 ^ 31 → returnable results → (sret = true → Ins ≠ []) →
  ∃ ops uses post rets objs' InVals chain st',
    LowerCall PIC hl va ma (Ins ++ more) OutVals results Callee objs =
      Ret (ops ++ CALL (lowerCallee PIC hl Callee) uses :: post, rets, objs') ∧
    LowerFormalArguments va sret ma Ins st = Ret (InVals, chain, st') ∧ length InVals = length Ins ∧
    (∀ m, ∃ m', chain_run E u m ops m') ∧
    ∀ m m' Ec, 128 * Z.of_nat (length (Ins ++ more)) + 64 ≤ mregs m Nyuzi.SP_REG 0%nat < 2 ^ 32 →
      chain_run E u m ops m' → callee_env (mregs m' Nyuzi.SP_REG 0%nat) m' st' Ec →
      ∀ k v w u' i, passed (length objs) (Ins ++ more) OutVals !! k = Some v → InVals !! k = Some w →
        (i < MVT.num_lanes (getValueType v))%nat → eval Ec u' w i = Some (val E u v i).
Proof.
  intros Hu Hp Ht Hb Hret Hsret.
  destruct (LowerCall_eq PIC hl va ma (Ins ++ more) OutVals results Callee objs Hp Ht Hb Hret)
    as (St2 & RV & copies & res & rets & objs' & s & Ha2 & _ & Hcall & Hm & Hs & _ & _).
  destruct (placed_args va ma (Ins ++ more) (length objs) OutVals Hp Ht ltac:(lia)) as (VAs & St2' & Ha2' & HL2 & Hps & Hlen & Hpl & Hty & HSO).
  replace St2' with St2 in * by congruence. clear St2' Ha2'. rewrite HL2 in Hcall.
  pose proof Ha2 as Happ. rewrite Analyze_app in Happ.
  destruct (Analyze CC_Nyuzi32 0 Ins (newCCState va ma)) as [St1 | | | |] eqn:Ha1; try discriminate Happ.
  cbn [mbind outcome_bind] in Happ.
  assert (HpI : Forall passable Ins) by (apply Forall_app in Hp; tauto).
  assert (HpM : Forall passable more) by (apply Forall_app in Hp; tauto).
  rewrite length_app in Hb.
  destruct (Analyze_placements 0 Ins (newCCState va ma) (passable_assigns Ins HpI)) as (VA1 & St1' & Hx & Hps1 & HL1 & Hlen1 & Hk1 & Hend1); [cbn; lia .. |].
  replace St1' with St1 in * by congruence. cbn in HL1, Hend1. destruct (placements_located _ _ _ Hps1) as (Hle1 & _). cbn in Hle1.
  destruct (Analyze_placements (length Ins) more St1 (passable_assigns more HpM)) as (VA2 & St2' & Hy & _ & HL12 & _); [lia .. |].
  cbn [Nat.add] in Happ. replace St2' with St2 in * by congruence.
  assert (HV : VAs = VA1 ++ VA2) by congruence.
  assert (Hpl1 : Forall plain VA1) by (rewrite HV in Hpl; apply Forall_app in Hpl; tauto).
  destruct (LowerFormalArguments_eq va sret ma Ins st VA1 St1 Ha1 HL1 Hpl1) as (InVals & chain & st1 & st' & HLF & _ & Hok & _).
  { intros E1 ->. apply (Hsret E1), nil_length_inv. rewrite <- Hlen1. reflexivity. }
  eexists _, _, _, rets, objs', InVals, chain, st'. split; [exact Hcall |]. split; [exact HLF |].
  split; [rewrite <- (Forall2_length _ _ _ Hok); exact Hlen1 |]. split; [intros m; apply call_ops_total; exact Hm |].
  intros m m' Ec Hsp Hrun Henv k v w u' i Hv Hw Hi. rewrite length_app in Hsp, Hs, HSO.
  apply chain_run_app in Hrun as (m1 & Hcp & Hrun). pose proof (memcpy_regs E u copies m m1 Hm Hcp) as Hregs.
  destruct (Forall2_lookup_r _ _ _ _ _ Hok Hw) as (VA & HVA & Hokw).
  assert (HVAs : VAs !! k = Some VA) by (rewrite HV; apply lookup_app_l_Some; exact HVA).
  assert (Hu32 : u32 (mregs m1 Nyuzi.SP_REG 0%nat - s) = mregs m Nyuzi.SP_REG 0%nat - s) by (rewrite Hregs; apply uint_small; lia).
  destruct (args_run E u va ma s VAs St2 _ m1 m' Hps Hpl Hty ltac:(lia) Hrun) as (Hsp' & Hloc).
  rewrite Hsp', Hu32 in Henv. rewrite Hu32 in Hloc. specialize (Hloc k VA v HVAs Hv).
  eapply (formal_reads E Ec u u' _ (StackOffset St2) m' st' VA v w i Hu Henv); try eassumption; try lia.
  - rewrite Forall_lookup in Hpl1. exact (Hpl1 k VA HVA).
  - exact (Forall2_lookup_lr _ _ _ _ _ _ Hty HVAs Hv).
Qed.

(** The values of an indirect call's arguments, passed by value and not, for
    examples. *)
Definition example_flags (byval : bool) : ArgFlagsTy := mkArgFlags false false byval (if byval then 24 else 0) 4.
Definition example_Ins : list Arg :=
  map (λ '(T, b), mkArg T (example_flags b))
    ([(MVT.i32, true); (MVT.v16i32, false); (MVT.v16i1, false)] ++ repeat (MVT.f32, false) 8 ++ [(MVT.v16f32, false)]).
Definition example_more : list Arg := [mkArg MVT.v16i1 (example_flags false); mkArg MVT.i32 (example_flags true)].
Definition example_vals (l : list Arg) : list SDValue := map (λ A, Node (ISD.CopyFromReg (Nyuzi.VirtReg 5)) (VT A) []) l.

Lemma passable_bool (l : list Arg) :
  forallb (λ A, bool_decide (VT A ∈ [MVT.i32; MVT.f32; MVT.v16i1; MVT.v16i32; MVT.v16f32]) &&
     implb (isByVal (Flags A)) (bool_decide (VT A = MVT.i32) && negb (ByValSize (Flags A) =? 0))) l = true → Forall passable l.
Proof.
  rewrite forallb_forall. intros H. apply Forall_forall. intros A HA. specialize (H A (proj1 (list_elem_of_In _ _) HA)).
  apply andb_prop in H as [H1 H2]. apply bool_decide_eq_true in H1. split; [exact H1 |]. intros Hb. rewrite Hb in H2.
  apply andb_prop in H2 as [H2 H3]. apply bool_decide_eq_true in H2. split; [exact H2 |]. lia.
Qed.

Lemma example_vals_typed (l : list Arg) : Forall2 (λ A v, getValueType v = VT A) l (example_vals l).
Proof. unfold example_vals. induction l; constructor; [reflexivity | assumption]. Qed.

Lemma call_passes_arguments_witness :
  let u : oracle := λ _ _, Some 0 in
  ∃ ops uses post rets objs' InVals chain st',
    LowerCall true (λ _, false) false 64 (example_Ins ++ example_more) (example_vals (example_Ins ++ example_more)) []
        (getNode (ISD.GlobalAddress (GlobalSym "f") 0) MVT.i32 []) [] =
      Ret (ops ++ CALL (lowerCallee true (λ _, false) (getNode (ISD.GlobalAddress (GlobalSym "f") 0) MVT.i32 [])) uses :: post, rets, objs') ∧
    LowerFormalArguments false true 64 example_Ins (mkFunctionState false false [] 0 (-1) None []) = Ret (InVals, chain, st') ∧
    length InVals = length example_Ins ∧
    (∀ m, ∃ m', chain_run example_env u m ops m') ∧
    ∀ m m' Ec, 128 * Z.of_nat (length (example_Ins ++ example_more)) + 64 ≤ mregs m Nyuzi.SP_REG 0%nat < 2 ^ 32 →
      chain_run example_env u m ops m' → callee_env (mregs m' Nyuzi.SP_REG 0%nat) m' st' Ec →
      ∀ k v w u' i, passed 0 (example_Ins ++ example_more) (example_vals (example_Ins ++ example_more)) !! k = Some v →
        InVals !! k = Some w → (i < MVT.num_lanes (getValueType v))%nat → eval Ec u' w i = Some (val example_env u v i).
Proof.
  intros u. apply (call_passes_arguments example_env u true (λ _, false) false true 64 example_Ins example_more _ [] _ []).
  - intros N i. eauto.
  - apply passable_bool. vm_compute. reflexivity.
  - apply example_vals_typed.
  - vm_compute. discriminate.
  - split; [constructor | intros []; vm_compute; lia].
  - discriminate.
Defined.

(** ** Returns *)
Lemma copyResults_spec (VAs : list CCValAssign) (pre vs : list SDValue) :
  (∀ VA, VA ∈ VAs → ∃ r, Loc VA = RegLoc r) → length VAs = length vs →
  ∃ uses, copyResults VAs (Z.of_nat (length pre)) (pre ++ vs) = Ret (arg_copies VAs vs, uses).
Proof.
  revert pre vs. induction VAs as [| VA l IH]; intros pre vs H Hlen.
  { destruct vs; [| discriminate]. exists []. reflexivity. }
  destruct vs as [| v vs]; [discriminate |]. injection Hlen as Hlen. destruct (H VA ltac:(left)) as [r Hr].
  cbn [copyResults]. unfold isRegLoc, getLocReg. rewrite Hr. cbn [cassert mbind outcome_bind]. rewrite at_index_middle.
  cbn [mbind outcome_bind]. destruct (IH (pre ++ [v]) vs) as (uses & Hu); [intros VB HB; apply H; right; exact HB | exact Hlen |].
  rewrite length_app, Nat2Z.inj_add, <- app_assoc in Hu. change ([v] ++ vs) with (v :: vs) in Hu. change (Z.of_nat (length [v])) with 1 in Hu.
  rewrite Hu. cbn [mbind outcome_bind]. unfold arg_copies. cbn [to_regs]. rewrite Hr. eexists. reflexivity.
Qed.

Lemma ForallOrdPairs_intro {A : Type} (R : A → A → Prop) (l : list A) :
  (∀ i j x y, (i < j)%nat → l !! i = Some x → l !! j = Some y → R x y) → ForallOrdPairs R l.
Proof.
  induction l as [| a l IH]; intros H; constructor.
  - apply Forall_lookup. intros j y Hy. apply (H 0%nat (S j)); [lia | reflexivity | exact Hy].
  - apply IH. intros i j x y Hij. apply (H (S i) (S j)). lia.
Qed.

(** Two results are never in the same register. *)
Lemma returnable_disjoint (va : bool) (ma : Z) (l : list Arg) (St' : CCState) :
  returnable l → Analyze RetCC_Nyuzi32 0 l (newCCState va ma) = Ret St' → ForallOrdPairs disjoint_locs (Locs St').
Proof.
  intros Hr Ha. destruct (returnable_regs va ma l Hr) as (St2 & Ha2 & Hlen & Hk). replace St2 with St' in * by congruence.
  apply ForallOrdPairs_intro. intros i j VA VB Hij HVA HVB.
  destruct (lookup_lt_is_Some_2 l i) as [A HA]; [rewrite <- Hlen; exact (lookup_lt_Some _ _ _ HVA) |].
  destruct (lookup_lt_is_Some_2 l j) as [B HB]; [rewrite <- Hlen; exact (lookup_lt_Some _ _ _ HVB) |].
  destruct (Hk i A HA) as (VA' & HVA' & _ & HLA). replace VA' with VA in * by congruence.
  destruct (Hk j B HB) as (VB' & HVB' & _ & HLB). replace VB' with VB in * by congruence.
  unfold disjoint_locs. rewrite HLA, HLB. set (a := vector_class (loc_type (VT A))). set (b := vector_class (loc_type (VT B))).
  assert (Hlt : a = b → (class_count a (take i l) < class_count b (take j l))%nat).
  { intros Hab. rewrite <- Hab. replace j with (i + S (j - i - 1))%nat by lia. rewrite <- (take_take_drop l i).
    rewrite class_count_app. rewrite (drop_S l A i HA). cbn [take]. change (A :: take (j - i - 1) (drop (S i) l)) with ([A] ++ take (j - i - 1) (drop (S i) l)).
    rewrite class_count_app, class_count_one. fold a. rewrite Bool.eqb_reflx. lia. }
  destruct a, b; cbn; intros [=]; specialize (Hlt eq_refl); lia.
Qed.

(** C14. A caller reads exactly the results its callee returned: when no class has
    more than six of them, [LowerReturn] returns a chain that can run up to its
    return node, and in the machine it leaves every result [LowerCall] made for
    the same types evaluates in every lane to the value returned. *)
Theorem return_passes_results (E : Env) (u : oracle) (PIC : bool) (hl : AddrOf → bool) (va va' : bool) (ma ma' : Z)
    (Outs : list Arg) (OutVals : list SDValue) (results : list Arg) (vals : list SDValue) (Callee : SDValue)
    (objs : list (Z * Z)) (st : FunctionState) :
  total u → Forall passable Outs → Forall2 (λ A v, getValueType v = VT A) Outs OutVals →
  128 * Z.of_nat (length Outs) + 64 ≤ 2 ^ 31 →
  returnable results → Forall (λ A, legal (VT A)) results → Forall2 (λ A v, getValueType v = VT A) results vals →
  ∃ chain rets objs' ops uses,
    LowerCall PIC hl va ma Outs OutVals results Callee objs = Ret (chain, rets, objs') ∧
    LowerReturn va' false ma' results vals st = Ret (ops ++ [RET_FLAG uses]) ∧
    (∀ m, ∃ m', chain_run E u m ops m') ∧
    ∀ m m', chain_run E u m ops m' →
      ∀ k v, vals !! k = Some v → ∃ w, rets !! k = Some w ∧
        ∀ u' i, (i < MVT.num_lanes (getValueType v))%nat → eval (env_of E m') u' w i = Some (val E u v i).
Proof.
  intros Hu Hp Ht Hb Hret Hleg Htv.
  destruct (LowerCall_eq PIC hl va ma Outs OutVals results Callee objs Hp Ht Hb Hret)
    as (St2 & RV & copies & res & rets & objs' & s & _ & HRV & Hcall & _ & _ & _ & Hrets).
  destruct (returnable_regs va' ma' results Hret) as (RV' & HRV' & Hlen' & Hk').
  destruct (returnable_regs va ma results Hret) as (RV0 & HRV0 & _ & Hk). replace RV0 with RV in * by congruence.
  destruct (copyResults_spec (Locs RV') [] vals) as (uses & Hres).
  { intros VA HVA. exact (returnable_reg_locs va' ma' results RV' VA Hret HRV' HVA). }
  { rewrite Hlen'. exact (Forall2_length _ _ _ Htv). }
  eexists _, rets, objs', (arg_copies (Locs RV') vals), uses. split; [exact Hcall |]. split.
  { unfold LowerReturn, AnalyzeReturn. rewrite HRV'. cbn [mbind outcome_bind]. change 0 with (Z.of_nat (length (@nil SDValue))).
    change (copyResults (Locs RV') (Z.of_nat (length [])) vals) with (copyResults (Locs RV') (Z.of_nat (length (@nil SDValue))) ([] ++ vals)).
    rewrite Hres. reflexivity. }
  split.
  { intros m. apply chain_total, Forall_forall. intros op Hop. apply list_elem_of_fmap in Hop as ([r v] & -> & _). exact I. }
  intros m m' Hrun k v Hv. destruct (Forall2_lookup_r _ _ _ _ _ Htv Hv) as (A & HA & HT).
  destruct (Hk k A HA) as (VA & HVA & HdA & HLA). destruct (Hk' k A HA) as (VB & HVB & _ & HLB).
  exists (getCopyFromReg (class_reg (vector_class (loc_type (VT A))) (class_count (vector_class (loc_type (VT A))) (take k results))) (ValVT VA)).
  split; [exact (Hrets k VA _ HVA HLA) |]. intros u' i Hi.
  destruct (copies_held E u _ m m' (to_regs_NoDup _ vals (returnable_disjoint va' ma' results RV' Hret HRV')) Hrun) as (_ & Hin & _).
  rewrite Forall_lookup in Hleg. pose proof (Hleg k A HA) as HlA.
  destruct HdA as (_ & HVV & _). rewrite HVV. unfold getCopyFromReg, getNode.
  destruct (eval_total E u v i Hu) as [z Hz]. pose proof (eval_range E u v i z Hz) as Hzr. rewrite HT in Hzr.
  assert (Hval : val E u v i = z) by (unfold val; rewrite Hz; reflexivity). rewrite Hval.
  rewrite (eval_Node_Some _ _ _ _ _ _ z); [rewrite uint_small by exact Hzr; reflexivity |].
  cbn [map eval_op env_of reg_lane]. f_equal. rewrite (Hin _ v); [exact Hval |]. apply to_regs_in. eauto.
Qed.

Lemma return_passes_results_witness :
  let u : oracle := λ _ _, Some 0 in let res := map (λ T, mkArg T (example_flags false)) [MVT.i32; MVT.v16i1; MVT.v16i32; MVT.f32] in
  ∃ chain rets objs' ops uses,
    LowerCall false (λ _, false) true 64 example_Ins (example_vals example_Ins) res
        (getNode (ISD.GlobalAddress (GlobalSym "f") 0) MVT.i32 []) [] = Ret (chain, rets, objs') ∧
    LowerReturn true false 64 res (example_vals res) (mkFunctionState false false [] 0 (-1) None []) = Ret (ops ++ [RET_FLAG uses]) ∧
    (∀ m, ∃ m', chain_run example_env u m ops m') ∧
    ∀ m m', chain_run example_env u m ops m' →
      ∀ k v, example_vals res !! k = Some v → ∃ w, rets !! k = Some w ∧
        ∀ u' i, (i < MVT.num_lanes (getValueType v))%nat → eval (env_of example_env m') u' w i = Some (val example_env u v i).
Proof.
  intros u res. apply (return_passes_results example_env u false (λ _, false) true true 64 64 example_Ins).
  - intros N i. eauto.
  - apply passable_bool. vm_compute. reflexivity.
  - apply example_vals_typed.
  - vm_compute. discriminate.
  - split; [| intros []; vm_compute; lia]. apply passable_assigns, passable_bool. vm_compute. reflexivity.
  - eapply Forall_impl; [apply (passable_bool res); vm_compute; reflexivity |]. intros A [HA _]. exact HA.
  - apply example_vals_typed.
Defined.

(** ** Variadic functions *)

(** In a variadic function everything is on the stack, and the walk through the
    formal arguments ends where the assignment does. *)
Lemma slots_end_varargs (St St' : CCState) (l : list CCValAssign) :
  placements St l St' → isVarArg St = true → slots_end l (StackOffset St) = StackOffset St'.
Proof.
  induction 1 as [| St VA St1 l St2 (_ & Hv & Hloc) Hps IH]; intros Hva; [reflexivity |]. cbn [slots_end].
  rewrite <- IH by congruence. destruct (Loc VA) as [r | o]; [destruct Hloc as (Hf & _); congruence |].
  destruct Hloc as (_ & _ & _ & ->). reflexivity.
Qed.

(** [va_start] finds the variadic arguments: in a variadic function the frame
    object [LowerVASTART] takes the address of lies at the end of the named
    arguments, and a caller with more arguments stores the first of them at the
    next multiple of its size. *)
Theorem va_start_correct (sret : bool) (ma : Z) (Ins : list Arg) (A : Arg) (more : list Arg) (st : FunctionState) :
  Forall passable (Ins ++ A :: more) → 128 * Z.of_nat (length (Ins ++ A :: more)) ≤ 2 ^ 31 → (sret = true → Ins ≠ []) →
  ∃ InVals chain st' j e St2 VA o,
    LowerFormalArguments true sret ma Ins st = Ret (InVals, chain, st') ∧
    VarArgsFrameIndex st' = - Z.of_nat (S j) ∧ FixedObjects st' !! j = Some (4, e) ∧
    AnalyzeCallOperands (Ins ++ A :: more) CC_Nyuzi32 (newCCState true ma) = Ret St2 ∧
    Locs St2 !! length Ins = Some VA ∧ Loc VA = MemLoc o ∧ LocVT VA = VT A ∧
    e ≤ o < e + mem_size (VT A) ∧ (mem_size (VT A) | o)%Z.
Proof.
  intros Hp Hb Hs. apply Forall_app in Hp as [HpI HpM]. rewrite length_app in Hb. cbn [length] in Hb.
  destruct (Analyze_placements 0 Ins (newCCState true ma) (passable_assigns Ins HpI)) as (VA1 & St1 & Ha1 & Hps1 & HL1 & Hlen1 & Hk1 & Hend1);
    [cbn; lia .. |]. cbn in HL1, Hend1. destruct (placements_located _ _ _ Hps1) as (Hle1 & _). cbn in Hle1.
  pose proof (Forall_inv HpM) as HA.
  destruct (Analyze_placements (length Ins) (A :: more) St1 (passable_assigns _ HpM)) as (VA2 & St2 & Ha2 & Hps2 & HL2 & Hlen2 & Hk2 & _);
    [lia | cbn [length]; lia |].
  assert (Hpl1 : Forall plain VA1).
  { apply Forall_lookup. intros k VA HVk. destruct (lookup_lt_is_Some_2 Ins k) as [B HB]; [rewrite <- Hlen1; exact (lookup_lt_Some _ _ _ HVk) |].
    destruct (Hk1 k B HB) as (VB & HVB & HdB). replace VB with VA in * by congruence.
    rewrite Forall_lookup in HpI. exact (proj1 (describes_plain VA _ B (proj1 (HpI k B HB)) HdB)). }
  destruct (LowerFormalArguments_eq true sret ma Ins st VA1 St1 Ha1 HL1 Hpl1) as (InVals & chain & st1 & st' & HLF & _ & _ & _ & _ & Hva).
  { intros E1 ->. apply (Hs E1), nil_length_inv. rewrite <- Hlen1. reflexivity. }
  destruct (Hva eq_refl) as (Hfix & HFI). rewrite (slots_end_varargs _ _ _ Hps1 eq_refl : slots_end VA1 0 = _) in Hfix.
  assert (Hv1 : isVarArg St1 = true).
  { clear - Hps1. remember (newCCState true ma) as S0 eqn:HS. assert (Hv : isVarArg S0 = true) by (subst; reflexivity). clear HS.
    induction Hps1 as [| ? ? ? ? ? (_ & H & _) _ IH]; [exact Hv | apply IH; congruence]. }
  destruct (Hk2 0%nat A eq_refl) as (VA & HVA & HdA). inversion Hps2 as [| ? V0 ? ? ? Hpl Hps3]; subst VA2; [discriminate HVA |].
  injection HVA as ->. destruct (describes_plain VA _ A (proj1 HA) HdA) as (_ & HT).
  destruct Hpl as (_ & _ & Hloc). destruct (Loc VA) as [r | o] eqn:HLo; [destruct Hloc as (Hf & _); congruence |].
  destruct Hloc as (_ & Ho & Hdiv & _). rewrite HT in Ho, Hdiv.
  exists InVals, chain, st', (length (FixedObjects st1)), (StackOffset St1), St2, VA, o.
  split; [exact HLF |]. split; [exact HFI |]. split; [exact Hfix |].
  split; [unfold AnalyzeCallOperands; rewrite Analyze_app, Ha1; exact Ha2 |].
  split; [rewrite HL2; apply list_lookup_middle; rewrite HL1; symmetry; exact Hlen1 |].
  split; [exact HLo |]. split; [exact HT |]. split; [exact Ho | exact Hdiv].
Qed.

Lemma va_start_correct_witness :
  ∃ InVals chain st' j e St2 VA o,
    LowerFormalArguments true false 64 example_Ins (mkFunctionState false false [] 0 (-1) None []) = Ret (InVals, chain, st') ∧
    VarArgsFrameIndex st' = - Z.of_nat (S j) ∧ FixedObjects st' !! j = Some (4, e) ∧
    AnalyzeCallOperands (example_Ins ++ example_more) CC_Nyuzi32 (newCCState true 64) = Ret St2 ∧
    Locs St2 !! length example_Ins = Some VA ∧ Loc VA = MemLoc o ∧ LocVT VA = MVT.v16i1 ∧
    e ≤ o < e + mem_size MVT.v16i1 ∧ (mem_size MVT.v16i1 | o)%Z.
Proof.
  apply (va_start_correct false 64 example_Ins (mkArg MVT.v16i1 (example_flags false)) [mkArg MVT.i32 (example_flags true)]).
  - apply passable_bool. vm_compute. reflexivity.
  - vm_compute. discriminate.
  - discriminate.
Defined.

(** ** The function called *)

(** A direct call goes to the function: absolute, or through its slot in the
    global offset table. *)
Lemma lowerCallee_direct (E : Env) (u : oracle) (PIC : bool) (hl : AddrOf → bool) (G : AddrOf) (off : Z) :
  (PIC && negb (hl G) = true →
     u32 (word E (u32 (u32 (reg_lane E Nyuzi.GP_REG 0%nat) + u32 (got_offset E G)))) = u32 (address E G)) →
  eval E u (lowerCallee PIC hl (getNode (ISD.GlobalAddress G off) MVT.i32 [])) 0%nat = Some (u32 (address E G)).
Proof.
  intros H. unfold lowerCallee, getNode. cbn [getOpcode]. destruct (PIC && negb (hl G)) eqn:Hg.
  - rewrite <- (H eq_refl). cbn. unfold fill. cbn. rewrite Z.add_0_r, !uint_uint. reflexivity.
  - cbn. unfold fill. cbn. rewrite Z.add_0_r, uint_uint. reflexivity.
Qed.

(** In position independent code an indirect call does not go to the address the
    program computed: the address is taken for an offset into the global offset
    table, and the call goes to the word there. *)
Lemma lowerCallee_indirect_PIC (hl : AddrOf → bool) (N : SDValue) :
  (∀ G off, getOpcode N ≠ ISD.GlobalAddress G off) → (∀ G, getOpcode N ≠ ISD.ExternalSymbol G) →
  lowerCallee true hl N = getLoad MVT.i32 (getNode ISD.GOT_ADDR MVT.i32 [GPReg; N]) ∧ lowerCallee false hl N = N.
Proof.
  intros HG HE. unfold lowerCallee. destruct (getOpcode N) eqn:Ho; try (split; reflexivity);
    exfalso; first [eapply HG; reflexivity | eapply HE; reflexivity].
Qed.
