(* ===== verification/SpmdBuilder.v ===== *)
(** * SpmdBuilder: the code generator of the SPMD compiler

    [SPMDBuilder] of tools/spmd-compile/src/SPMDBuilder.{h,cpp} and the [generate]
    methods of the classes of AstNode.{h,cpp}: the tree of a kernel becomes a
    function of LLVM IR over vectors of 16 lanes, with the stack of masks that
    predicates the code of divergent lanes.  The IR is the part of it the builder
    emits: basic blocks in creation order, instructions numbered in the order
    they are inserted. *)
From stdpp Require Import vector fin.
From S2P Require Import Prelude.

(** ** Floats: [float] of the source, with the operations of IR. *)
Class FloatOps : Type := {
  float : Type;
  fadd : float → float → float;
  fsub : float → float → float;
  fmul : float → float → float;
  fdiv : float → float → float;
  (** [None]: the operands are unordered. *)
  fcompare : float → float → option comparison
}.

(** [CmpInst::Predicate]: bit 0 is set when the predicate holds of equal
    operands, bit 1 of a greater one, bit 2 of a lesser one, bit 3 of unordered ones. *)
Inductive Predicate : Type :=
  | FCMP_FALSE | FCMP_OEQ | FCMP_OGT | FCMP_OGE | FCMP_OLT | FCMP_OLE | FCMP_ONE | FCMP_ORD
  | FCMP_UNO | FCMP_UEQ | FCMP_UGT | FCMP_UGE | FCMP_ULT | FCMP_ULE | FCMP_UNE | FCMP_TRUE.

Definition PredicateBits (p : Predicate) : Z :=
  match p with
  | FCMP_FALSE => 0 | FCMP_OEQ => 1 | FCMP_OGT => 2 | FCMP_OGE => 3
  | FCMP_OLT => 4 | FCMP_OLE => 5 | FCMP_ONE => 6 | FCMP_ORD => 7
  | FCMP_UNO => 8 | FCMP_UEQ => 9 | FCMP_UGT => 10 | FCMP_UGE => 11
  | FCMP_ULT => 12 | FCMP_ULE => 13 | FCMP_UNE => 14 | FCMP_TRUE => 15
  end.

(** A declared name of the kernel: an object [Symbol], whose [Val] is its
    alloca, null until code is generated for its first use. *)
Abbreviation Symbol := nat.

Section Builder.
Context `{FloatOps}.

Definition fcmp (p : Predicate) (a b : float) : bool :=
  Z.testbit (PredicateBits p)
    match fcompare a b with Some Eq => 0 | Some Gt => 1 | Some Lt => 2 | None => 3 end.

(** ** Values of IR at run time.  A lane is [None] when it is undefined, as the
    lanes of a fresh [alloca] are. *)
Inductive RTVal : Type :=
  | RFloats (v : vec (option float) 16)
  | RMask (v : vec (option bool) 16)
  | RPtr (l : nat)
  | RI16 (x : Z)
  | RI1 (b : bool).

Inductive Opcode : Type :=
  | FAdd | FSub | FMul | FDiv
  | FCmp (p : Predicate)
  | Xor | And
  | Select
  | BitCastI16
  | ICmpEQ.

Definition lift2 {A B : Type} (f : A → A → B) (a b : option A) : option B :=
  match a, b with Some a, Some b => Some (f a b) | _, _ => None end.

(** [and i1 undef, false] is [false]. *)
Definition lane_and (a b : option bool) : option bool :=
  match a, b with
  | Some false, _ => Some false
  | _, Some false => Some false
  | Some true, Some true => Some true
  | _, _ => None
  end.

Definition lane_select (c : option bool) (a b : option float) : option float :=
  match c with Some true => a | Some false => b | None => None end.

Definition vselect (c : vec (option bool) 16) (a b : vec (option float) 16) : vec (option float) 16 :=
  vzip_with (λ f x, f x) (vzip_with lane_select c a) b.

(** The i16 whose bit [i] is lane [i]; it has no defined value when a lane has none. *)
Fixpoint mask_to_int (l : list (option bool)) : option Z :=
  match l with
  | [] => Some 0
  | Some b :: l' => x ← mask_to_int l'; Some (Z.b2z b + 2 * x)
  | None :: _ => None
  end.

Definition opsem (o : Opcode) (args : list RTVal) : option RTVal :=
  match o, args with
  | FAdd, [RFloats a; RFloats b] => Some (RFloats (vzip_with (lift2 fadd) a b))
  | FSub, [RFloats a; RFloats b] => Some (RFloats (vzip_with (lift2 fsub) a b))
  | FMul, [RFloats a; RFloats b] => Some (RFloats (vzip_with (lift2 fmul) a b))
  | FDiv, [RFloats a; RFloats b] => Some (RFloats (vzip_with (lift2 fdiv) a b))
  | FCmp p, [RFloats a; RFloats b] => Some (RMask (vzip_with (lift2 (fcmp p)) a b))
  | Xor, [RMask a; RMask b] => Some (RMask (vzip_with (lift2 xorb) a b))
  | And, [RMask a; RMask b] => Some (RMask (vzip_with lane_and a b))
  | Select, [RMask c; RFloats a; RFloats b] =>
      Some (RFloats (vselect c a b))
  | BitCastI16, [RMask v] => x ← mask_to_int (vec_to_list v); Some (RI16 x)
  | ICmpEQ, [RI16 a; RI16 b] => Some (RI1 (a =? b))
  | _, _ => None
  end.

(** ** The IR: an operand is an instruction, an argument of the function or a
    constant. *)
Inductive Value : Type :=
  | VInst (id : nat)
  | VArg (i : nat)
  | VConst (c : RTVal).

Inductive VecType : Type := VecFloat | VecMask.

Inductive Instr : Type :=
  | Alloca (ty : VecType)
  | Load (p : Value)
  | Store (v p : Value)
  | Op (o : Opcode) (args : list Value)
  | Br (dest : nat)
  | CondBr (c : Value) (t f : nat)
  | IRet (v : Value).

Definition isTerminator (i : Instr) : bool :=
  match i with Br _ | CondBr _ _ _ | IRet _ => true | _ => false end.

Definition BasicBlock : Type := list (nat * Instr).

Definition getBlock (F : list BasicBlock) (b : nat) : BasicBlock :=
  match F !! b with Some l => l | None => [] end.

(** ** The state of the builder *)
Record MaskStackEntry : Type := mkMaskEntry {
  ThisMask : Value;
  CombinedMask : Value
}.

(** The head of [MaskStack] is its back.  [Symbols] holds the [Val] of the symbols. *)
Record SPMDBuilder : Type := mkBuilder {
  BasicBlocks : list BasicBlock;
  InsertBlock : option nat;
  NextInst : nat;
  MaskStack : list MaskStackEntry;
  ActiveLanes : option Value;
  ReturnValuePtr : option Value;
  ReturnMaskPtr : option Value;
  Symbols : gmap Symbol Value
}.

Definition newSPMDBuilder : SPMDBuilder := mkBuilder [] None 0 [] None None None ∅.

Definition GenM (A : Type) : Type := SPMDBuilder → outcome (A * SPMDBuilder).

#[export] Instance GenM_ret : MRet GenM := λ A a s, Ret (a, s).
#[export] Instance GenM_bind : MBind GenM := λ A B k m s,
  match m s with
  | Ret (a, s') => k a s'
  | AssertFail e => AssertFail e
  | Unreachable e => Unreachable e
  | FatalError e => FatalError e
  | UndefinedBehaviour e => UndefinedBehaviour e
  end.

Definition glift {A : Type} (m : outcome A) : GenM A := λ s, a ← m; Ret (a, s).
Definition gets {A : Type} (f : SPMDBuilder → A) : GenM A := λ s, Ret (f s, s).
Definition gassert (b : SPMDBuilder → bool) (msg : string) : GenM unit :=
  λ s, if b s then Ret (tt, s) else AssertFail msg.

(** A use of a pointer that is null. *)
Definition nonnull {A : Type} (p : option A) : GenM A := λ s,
  match p with Some a => Ret (a, s) | None => UndefinedBehaviour "null pointer" end.

Definition setMasks (stack : list MaskStackEntry) (active : option Value) : GenM unit := λ s,
  Ret (tt, mkBuilder (BasicBlocks s) (InsertBlock s) (NextInst s) stack active
             (ReturnValuePtr s) (ReturnMaskPtr s) (Symbols s)).

Definition setReturnPtrs (v m : option Value) : GenM unit := λ s,
  Ret (tt, mkBuilder (BasicBlocks s) (InsertBlock s) (NextInst s) (MaskStack s) (ActiveLanes s)
             v m (Symbols s)).

Definition setSymbol (x : Symbol) (v : Value) : GenM unit := λ s,
  Ret (tt, mkBuilder (BasicBlocks s) (InsertBlock s) (NextInst s) (MaskStack s) (ActiveLanes s)
             (ReturnValuePtr s) (ReturnMaskPtr s) (<[x := v]> (Symbols s))).

Definition SetInsertPoint (b : nat) : GenM unit := λ s,
  Ret (tt, mkBuilder (BasicBlocks s) (Some b) (NextInst s) (MaskStack s) (ActiveLanes s)
             (ReturnValuePtr s) (ReturnMaskPtr s) (Symbols s)).

(** ** IRBuilder *)
Definition block (s : SPMDBuilder) (b : nat) : BasicBlock := getBlock (BasicBlocks s) b.

(** [Insert]: the instruction goes to the end of the insertion block. *)
Definition Insert (i : Instr) : GenM Value := λ s,
  match InsertBlock s with
  | Some b =>
      Ret (VInst (NextInst s),
           mkBuilder (alter (λ l, l ++ [(NextInst s, i)]) b (BasicBlocks s)) (Some b)
             (S (NextInst s)) (MaskStack s) (ActiveLanes s) (ReturnValuePtr s) (ReturnMaskPtr s)
             (Symbols s))
  | None => UndefinedBehaviour "no insertion block"
  end.

Definition constant (v : Value) : option RTVal :=
  match v with VConst c => Some c | _ => None end.

(** Every operand a constant: the folder computes the result. *)
Definition CreateOp (o : Opcode) (args : list Value) : GenM Value :=
  match mapM constant args ≫= opsem o with
  | Some c => mret (VConst c)
  | None => Insert (Op o args)
  end.

Definition AllOnes : Value := VConst (RMask (vreplicate 16 (Some true))).

Definition CreateNot (v : Value) : GenM Value := CreateOp Xor [v; AllOnes].
Definition CreateAnd (l r : Value) : GenM Value := CreateOp And [l; r].
Definition CreateSelect (c t f : Value) : GenM Value := CreateOp Select [c; t; f].
Definition CreateFCmp (p : Predicate) (l r : Value) : GenM Value := CreateOp (FCmp p) [l; r].
Definition CreateLoad (p : Value) : GenM Value := Insert (Load p).
Definition CreateStore (v p : Value) : GenM unit := Insert (Store v p);; mret tt.
Definition CreateAlloca (ty : VecType) : GenM Value := Insert (Alloca ty).
Definition CreateBr (b : nat) : GenM unit := Insert (Br b);; mret tt.
Definition CreateCondBr (c : Value) (t f : nat) : GenM unit := Insert (CondBr c t f);; mret tt.
Definition CreateRet (v : Value) : GenM unit := Insert (IRet v);; mret tt.

(** ** The operations of SPMDBuilder *)
Definition createBasicBlock : GenM nat := λ s,
  Ret (length (BasicBlocks s),
       mkBuilder (BasicBlocks s ++ [[]]) (InsertBlock s) (NextInst s) (MaskStack s) (ActiveLanes s)
         (ReturnValuePtr s) (ReturnMaskPtr s) (Symbols s)).

(** Whether the insertion block has instructions and does not end with a terminator. *)
Definition fallsThrough (s : SPMDBuilder) : bool :=
  match InsertBlock s with
  | Some b => match last (block s b) with Some (_, i) => negb (isTerminator i) | None => false end
  | None => false
  end.

Definition startBasicBlock (b : nat) : GenM unit :=
  falls ← gets fallsThrough;
  (if falls : bool then CreateBr b else mret tt);;
  SetInsertPoint b.

Definition branch (dest : nat) : GenM unit := CreateBr dest.

Definition createLocalVariable (ty : VecType) : GenM Value := CreateAlloca ty.

Definition readLocalVariable (ptr : Value) : GenM Value := CreateLoad ptr.

Definition assignLocalVariable (ptr : Value) (NewValue : option Value) : GenM (option Value) :=
  gassert (λ _, bool_decide (is_Some NewValue)) "NewValue";;
  v ← nonnull NewValue;
  active ← gets ActiveLanes;
  match active with
  | Some mask =>
      old ← CreateLoad ptr;
      blended ← CreateSelect mask v old;
      CreateStore blended ptr
  | None =>
      gassert (λ s, bool_decide (length (MaskStack s) = 0%nat)) "MaskStack.empty()";;
      CreateStore v ptr
  end;;
  mret (Some v).

Definition pushMask (mask : Value) : GenM unit :=
  active ← gets ActiveLanes;
  stack ← gets MaskStack;
  match active with
  | Some lanes =>
      combined ← CreateAnd mask lanes;
      setMasks (mkMaskEntry mask combined :: stack) (Some combined)
  | None =>
      gassert (λ s, bool_decide (length (MaskStack s) = 0%nat)) "MaskStack.empty()";;
      setMasks (mkMaskEntry mask mask :: stack) (Some mask)
  end.

(** The back of the stack and the entries below it. *)
Definition maskStackBack : GenM (MaskStackEntry * list MaskStackEntry) := λ s,
  match MaskStack s with
  | top :: rest => Ret ((top, rest), s)
  | [] => AssertFail "!MaskStack.empty()"
  end.

Definition popMask : GenM unit :=
  gassert (λ s, bool_decide (is_Some (ActiveLanes s))) "ActiveLanes";;
  '(_, stack) ← maskStackBack;
  retPtr ← gets ReturnMaskPtr ≫= nonnull;
  retMask ← CreateLoad retPtr;
  match stack with
  | [] => setMasks [] (Some retMask)
  | top :: rest =>
      lanes ← CreateAnd (CombinedMask top) retMask;
      setMasks (mkMaskEntry (ThisMask top) lanes :: rest) (Some lanes)
  end.

Definition invertLastPushedMask : GenM unit :=
  '(top, stack) ← maskStackBack;
  gassert (λ s, bool_decide (is_Some (ActiveLanes s))) "ActiveLanes";;
  newMask ← CreateNot (ThisMask top);
  newCombined ← match stack with
                | [] => mret newMask
                | outer :: _ => CreateAnd newMask (CombinedMask outer)
                end;
  retPtr ← gets ReturnMaskPtr ≫= nonnull;
  retMask ← CreateLoad retPtr;
  lanes ← CreateAnd newCombined retMask;
  setMasks (mkMaskEntry newMask lanes :: stack) (Some lanes).

(** [CreateICmpEQ(CreateBitCast(mask, i16), 0)] *)
Definition maskIsZero (mask : Value) : GenM Value :=
  int ← CreateOp BitCastI16 [mask];
  CreateOp ICmpEQ [int; VConst (RI16 0)].

Definition shortCircuitZeroMask (SkipTo Next : nat) : GenM unit :=
  maskStackBack;;
  lanes ← gets ActiveLanes ≫= nonnull;
  cond ← maskIsZero lanes;
  CreateCondBr cond SkipTo Next.

Definition createReturn (v : option Value) : GenM unit :=
  valPtr ← gets ReturnValuePtr ≫= nonnull;
  assignLocalVariable valPtr v;;
  stack ← gets MaskStack;
  match stack with
  | [] => result ← readLocalVariable valPtr; CreateRet result
  | top :: rest =>
      lanes ← gets ActiveLanes ≫= nonnull;
      maskPtr ← gets ReturnMaskPtr ≫= nonnull;
      oldMask ← CreateLoad maskPtr;
      inactive ← CreateNot lanes;
      newMask ← CreateAnd oldMask inactive;
      exitCond ← maskIsZero newMask;
      next ← createBasicBlock;
      ret ← createBasicBlock;
      CreateCondBr exitCond ret next;;
      startBasicBlock ret;;
      result ← readLocalVariable valPtr;
      CreateRet result;;
      startBasicBlock next;;
      CreateStore newMask maskPtr;;
      lanes' ← CreateAnd (CombinedMask top) newMask;
      setMasks (mkMaskEntry (ThisMask top) lanes' :: rest) (Some lanes')
  end.

Definition createCompare (p : Predicate) (l r : Value) : GenM Value :=
  match p with
  | FCMP_OEQ | FCMP_UEQ => CreateFCmp FCMP_UEQ l r
  | FCMP_ONE | FCMP_UNE => CreateFCmp FCMP_UNE l r
  | FCMP_OGT | FCMP_UGT => CreateFCmp FCMP_UGT l r
  | FCMP_OGE | FCMP_UGE => CreateFCmp FCMP_UGE l r
  | FCMP_OLT | FCMP_ULT => CreateFCmp FCMP_ULT l r
  | FCMP_OLE | FCMP_ULE => CreateFCmp FCMP_ULE l r
  | _ => glift (Unreachable "Unknown comparision type")
  end.

Definition createSub (l r : Value) : GenM Value := CreateOp FSub [l; r].
Definition createAdd (l r : Value) : GenM Value := CreateOp FAdd [l; r].
Definition createMul (l r : Value) : GenM Value := CreateOp FMul [l; r].
Definition createDiv (l r : Value) : GenM Value := CreateOp FDiv [l; r].

Definition createConstant (x : float) : GenM Value :=
  mret (VConst (RFloats (vreplicate 16 (Some x)))).

Definition startFunction : GenM unit :=
  entry ← createBasicBlock;
  startBasicBlock entry;;
  valPtr ← createLocalVariable VecFloat;
  maskPtr ← CreateAlloca VecMask;
  CreateStore AllOnes maskPtr;;
  setReturnPtrs (Some valPtr) (Some maskPtr);;
  stack ← gets MaskStack;
  setMasks stack None.

Definition endFunction : GenM unit :=
  gassert (λ s, bool_decide (length (MaskStack s) = 0%nat)) "MaskStack.empty()".

(** ** The tree of a kernel: an [AstNode *] is null or points to a node. *)
Inductive AstNode : Type :=
  | NullAst
  | SubAst (Op1 Op2 : AstNode)
  | AddAst (Op1 Op2 : AstNode)
  | MulAst (Op1 Op2 : AstNode)
  | DivAst (Op1 Op2 : AstNode)
  | AssignAst (Lhs Rhs : AstNode)
  | SequenceAst (Stmt Next : AstNode)
  | IfAst (Cond Then Else : AstNode)
  | WhileAst (Cond Body : AstNode)
  | ForAstNode (Init Cond Body : AstNode)
  | VariableAst (Sym : Symbol)
  | CompareAst (Type' : Predicate) (Op1 Op2 : AstNode)
  | ReturnAst (RetNode : AstNode)
  | ConstantAst (Val : float).

(** The constructor of [ForAst] puts the increment behind the body. *)
Definition ForAst (Init Cond Incr Body : AstNode) : AstNode :=
  ForAstNode Init Cond (SequenceAst Body Incr).

Definition isNull (n : AstNode) : bool := match n with NullAst => true | _ => false end.

(** [if (Sym->Val == nullptr) Sym->Val = createLocalVariable(...)], and the value. *)
Definition symbolValue (x : Symbol) : GenM Value :=
  known ← gets (λ s, Symbols s !! x);
  match known with
  | Some p => mret p
  | None =>
      p ← createLocalVariable VecFloat;
      setSymbol x p;;
      mret p
  end.

(** What [generate] of [WhileAst] and of [ForAst] emits once the blocks of the
    loop are made. *)
Definition generateLoop (LoopTopBB LoopBodyBB LoopEndBB : nat) (Cond Body : GenM (option Value)) :
    GenM (option Value) :=
  branch LoopTopBB;;
  startBasicBlock LoopTopBB;;
  LoopCond ← Cond ≫= nonnull;
  pushMask LoopCond;;
  shortCircuitZeroMask LoopEndBB LoopBodyBB;;
  startBasicBlock LoopBodyBB;;
  Body;;
  branch LoopTopBB;;
  startBasicBlock LoopEndBB;;
  popMask;;
  mret None.

Definition generateBinary (Op1 Op2 : GenM (option Value)) (create : Value → Value → GenM Value) :
    GenM (option Value) :=
  Op1Val ← Op1;
  Op2Val ← Op2;
  l ← nonnull Op1Val;
  r ← nonnull Op2Val;
  v ← create l r;
  mret (Some v).

(** [generate] of every class; the call of a method on a null node is undefined. *)
Fixpoint generate (n : AstNode) : GenM (option Value) :=
  match n with
  | NullAst => glift (UndefinedBehaviour "null node")
  | SubAst a b => generateBinary (generate a) (generate b) createSub
  | AddAst a b => generateBinary (generate a) (generate b) createAdd
  | MulAst a b => generateBinary (generate a) (generate b) createMul
  | DivAst a b => generateBinary (generate a) (generate b) createDiv
  | CompareAst p a b => generateBinary (generate a) (generate b) (createCompare p)
  | AssignAst Lhs Rhs =>
      match Lhs with
      | VariableAst x =>
          ptr ← symbolValue x;
          v ← generate Rhs;
          assignLocalVariable ptr v
      | _ => glift (UndefinedBehaviour "static_cast<VariableAst *>")
      end
  | IfAst Cond Then Else =>
      mask ← generate Cond ≫= nonnull;
      pushMask mask;;
      (if negb (isNull Else) then
         ThenBB ← createBasicBlock;
         ElseTopBB ← createBasicBlock;
         ElseBodyBB ← createBasicBlock;
         EndifBB ← createBasicBlock;
         shortCircuitZeroMask ElseTopBB ThenBB;;
         startBasicBlock ThenBB;;
         generate Then;;
         branch ElseTopBB;;
         startBasicBlock ElseTopBB;;
         invertLastPushedMask;;
         shortCircuitZeroMask EndifBB ElseBodyBB;;
         startBasicBlock ElseBodyBB;;
         generate Else;;
         branch EndifBB;;
         startBasicBlock EndifBB
       else
         ThenBB ← createBasicBlock;
         EndifBB ← createBasicBlock;
         shortCircuitZeroMask EndifBB ThenBB;;
         startBasicBlock ThenBB;;
         generate Then;;
         startBasicBlock EndifBB);;
      popMask;;
      mret None
  | WhileAst Cond Body =>
      LoopTopBB ← createBasicBlock;
      LoopBodyBB ← createBasicBlock;
      LoopEndBB ← createBasicBlock;
      generateLoop LoopTopBB LoopBodyBB LoopEndBB (generate Cond) (generate Body)
  | ForAstNode Init Cond Body =>
      LoopTopBB ← createBasicBlock;
      LoopBodyBB ← createBasicBlock;
      LoopEndBB ← createBasicBlock;
      generate Init;;
      generateLoop LoopTopBB LoopBodyBB LoopEndBB (generate Cond) (generate Body)
  | VariableAst x =>
      ptr ← symbolValue x;
      v ← readLocalVariable ptr;
      mret (Some v)
  | SequenceAst Stmt Next =>
      (if isNull Stmt then mret tt else generate Stmt;; mret tt);;
      (if isNull Next then mret tt else generate Next;; mret tt);;
      mret None
  | ReturnAst RetNode =>
      v ← generate RetNode;
      createReturn v;;
      mret v
  | ConstantAst x =>
      v ← createConstant x;
      mret (Some v)
  end.

(** The action of [funcdecl] in Parser.yy: a variable for every parameter, set to
    its argument, then the body. *)
Fixpoint generateArguments (i : nat) (args : list Symbol) : GenM unit :=
  match args with
  | [] => mret tt
  | x :: args' =>
      ptr ← createLocalVariable VecFloat;
      setSymbol x ptr;;
      assignLocalVariable ptr (Some (VArg i));;
      generateArguments (S i) args'
  end.

Definition funcdecl (args : list Symbol) (body : AstNode) : GenM unit :=
  startFunction;;
  generateArguments 0 args;;
  generate body;;
  endFunction.

(** The blocks of the function of a kernel. *)
Definition compile (args : list Symbol) (body : AstNode) : outcome (list BasicBlock) :=
  '(_, s) ← funcdecl args body newSPMDBuilder;
  Ret (BasicBlocks s).
End Builder.
