(* ===== verification/SpmdMachine.v ===== *)
(** * SpmdMachine: what a compiled kernel and its source mean

    The execution of the IR [SpmdBuilder] emits, 16 lanes at a time, and the
    meaning of the source of a kernel for one lane: the program that "parallelizes
    a scalar program to run 16 instances in parallel" (README.md of
    tools/spmd-compile) is correct when the first computes the second in every
    lane. *)
From stdpp Require Import vector fin.
From S2P Require Import Prelude.
From S2P Require Import SpmdBuilder.

Section Machine.
Context `{FloatOps}.

(** ** Execution of the IR *)
Record config : Type := mkConfig {
  blk : nat;
  idx : nat;
  regs : gmap nat RTVal;
  mem : gmap nat RTVal;
  nloc : nat
}.

Definition undef (ty : VecType) : RTVal :=
  match ty with
  | VecFloat => RFloats (vreplicate 16 None)
  | VecMask => RMask (vreplicate 16 None)
  end.

Section Step.
Context (F : list BasicBlock) (args : list RTVal).

Definition eval (c : config) (v : Value) : option RTVal :=
  match v with
  | VInst i => regs c !! i
  | VArg i => args !! i
  | VConst k => Some k
  end.

Definition advance (c : config) (regs mem : gmap nat RTVal) (nloc : nat) : config :=
  mkConfig (blk c) (S (idx c)) regs mem nloc.

Definition jump (c : config) (b : nat) : config := mkConfig b 0 (regs c) (mem c) (nloc c).

(** One instruction: the next configuration, or the value returned. *)
Definition step (c : config) : option (config + RTVal) :=
  '(id, i) ← getBlock F (blk c) !! idx c;
  match i with
  | Alloca ty =>
      Some (inl (advance c (<[id := RPtr (nloc c)]> (regs c)) (<[nloc c := undef ty]> (mem c)) (S (nloc c))))
  | Load p =>
      match eval c p with
      | Some (RPtr l) => v ← mem c !! l; Some (inl (advance c (<[id := v]> (regs c)) (mem c) (nloc c)))
      | _ => None
      end
  | Store v p =>
      match eval c v, eval c p with
      | Some v, Some (RPtr l) => Some (inl (advance c (regs c) (<[l := v]> (mem c)) (nloc c)))
      | _, _ => None
      end
  | Op o ops =>
      vs ← mapM (eval c) ops;
      v ← opsem o vs;
      Some (inl (advance c (<[id := v]> (regs c)) (mem c) (nloc c)))
  | Br b => Some (inl (jump c b))
  | CondBr k t f =>
      match eval c k with
      | Some (RI1 b) => Some (inl (jump c (if b then t else f)))
      | _ => None
      end
  | IRet v => v ← eval c v; Some (inr v)
  end.

Fixpoint run (fuel : nat) (c : config) : option RTVal :=
  match fuel with
  | O => None
  | S fuel' =>
      match step c with
      | Some (inl c') => run fuel' c'
      | Some (inr v) => Some v
      | None => None
      end
  end.
End Step.

Definition initial : config := mkConfig 0 0 ∅ ∅ 0.

(** A call of the compiled kernel on vectors of arguments. *)
Definition call (fuel : nat) (F : list BasicBlock) (args : list (vec float 16)) : option RTVal :=
  run F (map (λ v, RFloats (vmap Some v)) args) fuel initial.

(** ** The source, for one lane *)
Abbreviation env := (gmap Symbol float).

Fixpoint evalExpr (ρ : env) (n : AstNode) : option float :=
  match n with
  | SubAst a b => lift2 fsub (evalExpr ρ a) (evalExpr ρ b)
  | AddAst a b => lift2 fadd (evalExpr ρ a) (evalExpr ρ b)
  | MulAst a b => lift2 fmul (evalExpr ρ a) (evalExpr ρ b)
  | DivAst a b => lift2 fdiv (evalExpr ρ a) (evalExpr ρ b)
  | VariableAst x => ρ !! x
  | ConstantAst c => Some c
  | _ => None
  end.

Definition evalCond (ρ : env) (n : AstNode) : option bool :=
  match n with
  | CompareAst p a b => lift2 (fcmp p) (evalExpr ρ a) (evalExpr ρ b)
  | _ => None
  end.

(** A statement leaves an environment, and the value it returned if it did. *)
Definition result : Type := env * option float.

Fixpoint execLoop (fuel : nat) (cond : env → option bool) (body : env → option result) (ρ : env) :
    option result :=
  match fuel with
  | O => None
  | S fuel' =>
      b ← cond ρ;
      if b : bool then
        '(ρ', r) ← body ρ;
        match r with
        | None => execLoop fuel' cond body ρ'
        | Some _ => Some (ρ', r)
        end
      else Some (ρ, None)
  end.

(** [fuel] bounds the iterations of every loop. *)
Fixpoint exec (fuel : nat) (n : AstNode) (ρ : env) : option result :=
  match n with
  | AssignAst Lhs Rhs =>
      match Lhs with
      | VariableAst x => v ← evalExpr ρ Rhs; Some (<[x := v]> ρ, None)
      | _ => None
      end
  | SequenceAst Stmt Next =>
      '(ρ', r) ← (if isNull Stmt then Some (ρ, None) else exec fuel Stmt ρ);
      match r with
      | None => if isNull Next then Some (ρ', None) else exec fuel Next ρ'
      | Some _ => Some (ρ', r)
      end
  | IfAst Cond Then Else =>
      b ← evalCond ρ Cond;
      if b : bool then exec fuel Then ρ
      else if isNull Else then Some (ρ, None) else exec fuel Else ρ
  | WhileAst Cond Body => execLoop fuel (λ ρ, evalCond ρ Cond) (exec fuel Body) ρ
  | ForAstNode Init Cond Body =>
      '(ρ', r) ← exec fuel Init ρ;
      match r with
      | None => execLoop fuel (λ ρ, evalCond ρ Cond) (exec fuel Body) ρ'
      | Some _ => Some (ρ', r)
      end
  | ReturnAst e => v ← evalExpr ρ e; Some (ρ, Some v)
  | _ => None
  end.

(** The parameters of the kernel bound to the arguments of one lane. *)
Fixpoint bindArguments (params : list Symbol) (args : list float) (ρ : env) : env :=
  match params, args with
  | x :: params', a :: args' => bindArguments params' args' (<[x := a]> ρ)
  | _, _ => ρ
  end.

Definition scalarRun (fuel : nat) (params : list Symbol) (body : AstNode) (args : list float) :
    option float :=
  '(_, r) ← exec fuel body (bindArguments params args ∅);
  r.

(** ** The kernels the compiler handles

    [scoped] follows the allocas: [A] the variables whose alloca dominates the
    statement and has been assigned, [D] those that have an alloca somewhere. *)
Definition predicateEmitted (p : Predicate) : bool :=
  match p with
  | FCMP_UEQ | FCMP_UNE | FCMP_UGT | FCMP_UGE | FCMP_ULT | FCMP_ULE => true
  | _ => false
  end.

Fixpoint scopedExpr (A : gset Symbol) (n : AstNode) : bool :=
  match n with
  | SubAst a b | AddAst a b | MulAst a b | DivAst a b => scopedExpr A a && scopedExpr A b
  | VariableAst x => bool_decide (x ∈ A)
  | ConstantAst _ => true
  | _ => false
  end.

Definition scopedCond (A : gset Symbol) (n : AstNode) : bool :=
  match n with
  | CompareAst p a b => predicateEmitted p && (scopedExpr A a && scopedExpr A b)
  | _ => false
  end.

(** Whether the code of a statement ends in a block that is not empty. *)
Fixpoint emits (n : AstNode) : bool :=
  match n with
  | SequenceAst a b => emits a || emits b
  | AssignAst _ _ | IfAst _ _ _ | WhileAst _ _ | ForAstNode _ _ _ | ReturnAst _ => true
  | _ => false
  end.

Definition scope : Type := gset Symbol * gset Symbol.

(** [ret]: whether a return is allowed, as it is in a branch outside of loops. *)
Fixpoint scoped (inLoop ret : bool) (n : AstNode) (S : scope) : option scope :=
  let '(A, D) := S in
  match n with
  | NullAst => None
  | AssignAst (VariableAst x) e =>
      if scopedExpr A e && (bool_decide (x ∈ A) || negb (bool_decide (x ∈ D)))
      then Some ({[x]} ∪ A, {[x]} ∪ D) else None
  | SequenceAst a b =>
      S1 ← (if isNull a then Some S else scoped inLoop ret a S);
      (if isNull b then Some S1 else scoped inLoop ret b S1)
  | IfAst c t e =>
      if scopedCond A c then
        '(_, D1) ← scoped inLoop (negb inLoop) t (A, D);
        if isNull e then (if emits t then Some (A, D1) else None)
        else '(_, D2) ← scoped inLoop (negb inLoop) e (A, D1); Some (A, D2)
      else None
  | WhileAst c b =>
      if scopedCond A c then
        '(_, D1) ← scoped true false b (A, D); Some (A, D1)
      else None
  | ForAstNode i c b =>
      '(A1, D1) ← scoped true false i (A, D);
      if scopedCond A1 c then
        '(_, D2) ← scoped true false b (A1, D1); Some (A1, D2)
      else None
  | ReturnAst e => if ret && scopedExpr A e then Some (A, D) else None
  | _ => None
  end.
End Machine.
