(* ===== verification/SpmdSimulation.v ===== *)
(** * SpmdSimulation: running the code the builder has emitted

    One lemma per operation of the builder: the code it emits, placed in any
    function that contains it, runs from the end of what was emitted before to the
    end of what is emitted now, with the effect of the operation. *)
From stdpp Require Import vector fin.
From S2P Require Import Prelude.
From S2P Require Import SpmdBuilder.
From S2P Require Import SpmdMachine.
From S2P Require Import SpmdGenerate.

Section Simulation.
Context `{FloatOps} (F : list BasicBlock) (args : list RTVal).

Definition stepTo (c c' : config) : Prop := step F args c = Some (inl c').

(** Execution has reached the end of the code emitted so far. *)
Definition atEnd (s : SPMDBuilder) (c : config) : Prop :=
  InsertBlock s = Some (blk c) ∧ idx c = length (block s (blk c)).

(** [v] is a value of the code emitted so far and it is [r]. *)
Definition holds (s : SPMDBuilder) (c : config) (v : Value) (r : RTVal) : Prop :=
  (∀ i, v = VInst i → (i < NextInst s)%nat) ∧ eval args c v = Some r.

(** Values of [s] keep their meaning. *)
Record ext (s : SPMDBuilder) (c : config) (s' : SPMDBuilder) (c' : config) : Prop := mkExt {
  ext_inst : (NextInst s ≤ NextInst s')%nat;
  ext_regs : ∀ i, (i < NextInst s)%nat → regs c' !! i = regs c !! i;
  ext_nloc : (nloc c ≤ nloc c')%nat
}.

Lemma ext_refl (s : SPMDBuilder) (c : config) : ext s c s c.
Proof. split; auto. Qed.

Lemma ext_trans (s1 s2 s3 : SPMDBuilder) (c1 c2 c3 : config) :
  ext s1 c1 s2 c2 → ext s2 c2 s3 c3 → ext s1 c1 s3 c3.
Proof. intros [] []. split; [lia | | lia]. intros i Hi. rewrite ext_regs1 by lia. auto. Qed.

Lemma holds_ext (s s' : SPMDBuilder) (c c' : config) (v : Value) (r : RTVal) :
  ext s c s' c' → holds s c v r → holds s' c' v r.
Proof.
  intros [] [Hi E]. split; [intros i Hv; specialize (Hi i Hv); lia |].
  destruct v as [i | i | k]; [| exact E | exact E]. cbn in *. rewrite ext_regs0 by auto. exact E.
Qed.

(** A stretch of execution. *)
Record seg (s : SPMDBuilder) (c : config) (s' : SPMDBuilder) (c' : config) : Prop := mkSeg {
  seg_steps : rtc stepTo c c';
  seg_end : atEnd s' c';
  seg_ext : ext s c s' c'
}.

Lemma seg_trans (s1 s2 s3 : SPMDBuilder) (c1 c2 c3 : config) :
  seg s1 c1 s2 c2 → seg s2 c2 s3 c3 → seg s1 c1 s3 c3.
Proof. intros [] []. split; [etransitivity; eauto | assumption | eauto using ext_trans]. Qed.

Lemma seg_holds (s s' : SPMDBuilder) (c c' : config) (v : Value) (r : RTVal) :
  seg s c s' c' → holds s c v r → holds s' c' v r.
Proof. intros []. apply holds_ext; assumption. Qed.

(** The masks and the pointers may change while no code is emitted. *)
Lemma seg_idle (s s' : SPMDBuilder) (c : config) :
  BasicBlocks s' = BasicBlocks s → InsertBlock s' = InsertBlock s → NextInst s' = NextInst s →
  atEnd s c → seg s c s' c.
Proof.
  intros EB EI EN [Hb Hi]. split; [reflexivity | split | split; auto; lia].
  - congruence.
  - unfold block. rewrite EB. exact Hi.
Qed.

(** The instruction emitted is the one executed next. *)
Lemma atEnd_instr (s s' : SPMDBuilder) (c : config) (i : Instr) (v : Value) :
  ready s → atEnd s c → Insert i s = Ret (v, s') → sub (BasicBlocks s') F →
  getBlock F (blk c) !! idx c = Some (NextInst s, i).
Proof.
  intros R [Hb Hi] E HF. destruct (Insert_ok i s R) as (s1 & E1 & _ & _ & B).
  rewrite E1 in E. injection E as <- <-.
  destruct (HF (blk c)) as [k Hk]. change (getBlock (BasicBlocks s1) (blk c)) with (block s1 (blk c)) in Hk.
  rewrite Hk, (B _ Hb), <- app_assoc, Hi. apply list_lookup_middle. reflexivity.
Qed.

(** The end of the code after the instruction. *)
Lemma atEnd_next (s s' : SPMDBuilder) (c c' : config) (i : Instr) (v : Value) :
  ready s → atEnd s c → Insert i s = Ret (v, s') → blk c' = blk c → idx c' = S (idx c) → atEnd s' c'.
Proof.
  intros R [Hb Hi] E Eb Ei. destruct (Insert_ok i s R) as (s1 & E1 & St & _ & B).
  rewrite E1 in E. injection E as <- <-. split.
  - rewrite (st_insert _ _ St), Eb. exact Hb.
  - rewrite Eb, (B _ Hb), length_app, Ei, Hi. cbn. lia.
Qed.

(** What an operation that emits plain code does to the builder. *)
Record emitted (s s' : SPMDBuilder) : Prop := mkEmitted {
  em_straight : straight s s';
  em_opened : opened s → opened s';
  em_nonempty : nonempty s → nonempty s'
}.

Lemma emitted_trans (s1 s2 s3 : SPMDBuilder) : emitted s1 s2 → emitted s2 s3 → emitted s1 s3.
Proof. intros [] []. split; [eauto using straight_trans | auto | auto]. Qed.

Lemma emitted_refl (s : SPMDBuilder) : emitted s s.
Proof. split; auto using straight_refl. Qed.

Lemma emitted_ready (s s' : SPMDBuilder) : emitted s s' → ready s → ready s'.
Proof. intros []. apply straight_ready. assumption. Qed.

Lemma Insert_emitted (i : Instr) (s : SPMDBuilder) :
  ready s → isTerminator i = false →
  ∃ s', Insert i s = Ret (VInst (NextInst s), s') ∧ emitted s s' ∧ opened s' ∧ nonempty s' ∧
    NextInst s' = S (NextInst s).
Proof.
  intros R Hi. destruct (Insert_ok i s R) as (s' & E & St & N & _). eexists. split; [exact E |].
  destruct (Insert_opened i s s' _ R Hi E) as [O NE]. split; [split; auto | auto].
Qed.

(** ** Load, store, alloca *)
Lemma load_spec (p : Value) (s : SPMDBuilder) :
  ready s →
  ∃ v s', CreateLoad p s = Ret (v, s') ∧ emitted s s' ∧ opened s' ∧ nonempty s' ∧
    ∀ c l r, sub (BasicBlocks s') F → atEnd s c → holds s c p (RPtr l) → mem c !! l = Some r →
    ∃ c', seg s c s' c' ∧ mem c' = mem c ∧ nloc c' = nloc c ∧ holds s' c' v r.
Proof.
  intros R. destruct (Insert_emitted (Load p) s R eq_refl) as (s' & E & Em & O & NE & N).
  eexists _, s'. split; [exact E |]. split_and!; [assumption .. |].
  intros c l r HF Hc [_ Hp] Hl.
  eexists (advance c (<[NextInst s := r]> (regs c)) (mem c) (nloc c)).
  split; [split |].
  - apply rtc_once. unfold stepTo, step. rewrite (atEnd_instr s s' c _ _ R Hc E HF). cbn.
    rewrite Hp, Hl. reflexivity.
  - eapply atEnd_next; eauto.
  - split; cbn; [lia | | lia]. intros i Hi. apply lookup_insert_ne. lia.
  - split; [reflexivity |]. split; [reflexivity |]. split; [intros i [= <-]; lia |].
    cbn. apply lookup_insert_eq.
Qed.

Lemma store_spec (v p : Value) (s : SPMDBuilder) :
  ready s →
  ∃ s', CreateStore v p s = Ret (tt, s') ∧ emitted s s' ∧ opened s' ∧ nonempty s' ∧
    ∀ c l r, sub (BasicBlocks s') F → atEnd s c → holds s c p (RPtr l) → holds s c v r →
    ∃ c', seg s c s' c' ∧ mem c' = <[l := r]> (mem c) ∧ nloc c' = nloc c.
Proof.
  intros R. destruct (Insert_emitted (Store v p) s R eq_refl) as (s' & E & Em & O & NE & N).
  exists s'. unfold CreateStore. erewrite gbind_Ret by exact E. split; [reflexivity |].
  split_and!; [assumption .. |].
  intros c l r HF Hc [_ Hp] [_ Hv].
  eexists (advance c (regs c) (<[l := r]> (mem c)) (nloc c)). split; [split | auto].
  - apply rtc_once. unfold stepTo, step. rewrite (atEnd_instr s s' c _ _ R Hc E HF). cbn.
    rewrite Hp, Hv. reflexivity.
  - eapply atEnd_next; eauto.
  - split; cbn; [lia | auto | lia].
Qed.

Lemma alloca_spec (ty : VecType) (s : SPMDBuilder) :
  ready s →
  ∃ v s', CreateAlloca ty s = Ret (v, s') ∧ emitted s s' ∧ opened s' ∧ nonempty s' ∧
    ∀ c, sub (BasicBlocks s') F → atEnd s c →
    ∃ c', seg s c s' c' ∧ mem c' = <[nloc c := undef ty]> (mem c) ∧ nloc c' = S (nloc c) ∧
      holds s' c' v (RPtr (nloc c)).
Proof.
  intros R. destruct (Insert_emitted (Alloca ty) s R eq_refl) as (s' & E & Em & O & NE & N).
  eexists _, s'. split; [exact E |]. split_and!; [assumption .. |].
  intros c HF Hc.
  eexists (advance c (<[NextInst s := RPtr (nloc c)]> (regs c)) (<[nloc c := undef ty]> (mem c)) (S (nloc c))).
  split; [split |].
  - apply rtc_once. unfold stepTo, step. rewrite (atEnd_instr s s' c _ _ R Hc E HF). reflexivity.
  - eapply atEnd_next; eauto.
  - split; cbn; [lia | | lia]. intros i Hi. apply lookup_insert_ne. lia.
  - split; [reflexivity |]. split; [reflexivity |]. split; [intros i [= <-]; lia |].
    cbn. apply lookup_insert_eq.
Qed.

(** ** Operations on values, folded or emitted *)
Lemma mapM_constant (s : SPMDBuilder) (c : config) (vs : list Value) (ks rs : list RTVal) :
  mapM constant vs = Some ks → Forall2 (holds s c) vs rs → ks = rs.
Proof.
  rewrite mapM_Some. intros Hk Hr. revert rs Hr.
  induction Hk as [| v k vs ks Hv _ IH]; intros rs Hr; inversion Hr; subst; [reflexivity |].
  f_equal; [| apply IH; assumption].
  destruct v; try discriminate. injection Hv as ->.
  match goal with E : holds _ _ _ _ |- _ => destruct E as [_ [= ->]] end. reflexivity.
Qed.

Lemma mapM_eval (s : SPMDBuilder) (c : config) (vs : list Value) (rs : list RTVal) :
  Forall2 (holds s c) vs rs → mapM (eval args c) vs = Some rs.
Proof. intros E. apply mapM_Some. induction E as [| v r vs rs [_ Hv] _ IH]; constructor; assumption. Qed.

Lemma op_spec (o : Opcode) (vs : list Value) (s : SPMDBuilder) :
  ready s →
  ∃ v s', CreateOp o vs s = Ret (v, s') ∧ emitted s s' ∧
    ∀ c rs r, sub (BasicBlocks s') F → atEnd s c → Forall2 (holds s c) vs rs → opsem o rs = Some r →
    ∃ c', seg s c s' c' ∧ mem c' = mem c ∧ nloc c' = nloc c ∧ holds s' c' v r.
Proof.
  intros R. unfold CreateOp. destruct (mapM constant vs ≫= opsem o) as [k |] eqn:K.
  - eexists _, s. split; [reflexivity |]. split; [apply emitted_refl |].
    intros c rs r _ Hc Hrs Hr. exists c. split; [split; [reflexivity | assumption | apply ext_refl] |].
    split; [reflexivity |]. split; [reflexivity |]. split; [discriminate |]. cbn.
    apply bind_Some in K as (ks & Hks & K). rewrite (mapM_constant _ _ _ _ _ Hks Hrs) in K. congruence.
  - destruct (Insert_emitted (Op o vs) s R eq_refl) as (s' & E & Em & _ & _ & N).
    eexists _, s'. split; [exact E |]. split; [exact Em |].
    intros c rs r HF Hc Hrs Hr.
    eexists (advance c (<[NextInst s := r]> (regs c)) (mem c) (nloc c)).
    split; [split |].
    + apply rtc_once. unfold stepTo, step. rewrite (atEnd_instr s s' c _ _ R Hc E HF). cbn.
      rewrite (mapM_eval _ _ _ _ Hrs). cbn. rewrite Hr. reflexivity.
    + eapply atEnd_next; eauto.
    + split; cbn; [lia | | lia]. intros i Hi. apply lookup_insert_ne. lia.
    + split; [reflexivity |]. split; [reflexivity |]. split; [intros i [= <-]; lia |].
      cbn. apply lookup_insert_eq.
Qed.

(** ** Masks *)
Definition mask : Type := fin 16 → bool.
Definition mvec (m : mask) : vec (option bool) 16 := fun_to_vec (λ l, Some (m l)).
Definition noLane (m : mask) : bool := forallb negb (vec_to_list (fun_to_vec m)).

#[local] Arguments mvec : simpl never.

Lemma mvec_lookup (m : mask) (l : fin 16) : mvec m !!! l = Some (m l).
Proof. apply (lookup_fun_to_vec (λ l, Some (m l))). Qed.

Lemma mvec_ext (v : vec (option bool) 16) (m : mask) : (∀ l, v !!! l = Some (m l)) → v = mvec m.
Proof. intros E. apply vec_eq. intros l. rewrite mvec_lookup. apply E. Qed.

Lemma noLane_spec (m : mask) : noLane m = true ↔ ∀ l, m l = false.
Proof.
  unfold noLane. rewrite forallb_forall. split.
  - intros E l. apply negb_true_iff, E, list_elem_of_In. apply elem_of_vlookup.
    exists l. apply lookup_fun_to_vec.
  - intros E b Hb. apply list_elem_of_In, elem_of_vlookup in Hb as [l <-].
    rewrite lookup_fun_to_vec, E. reflexivity.
Qed.

Lemma mask_to_int_Some (bs : list bool) :
  ∃ x, mask_to_int (map Some bs) = Some x ∧ 0 ≤ x ∧ (x =? 0) = forallb negb bs.
Proof.
  induction bs as [| b bs (x & E & Hx & Hz)]; cbn; [exists 0; split_and!; reflexivity || lia |].
  rewrite E. cbn. eexists. split; [reflexivity |]. destruct b; cbn.
  - split; [lia | apply Z.eqb_neq; lia].
  - split; [lia |]. rewrite <- Hz. apply eq_true_iff_eq. rewrite !Z.eqb_eq. lia.
Qed.

Lemma bitcast_mvec (m : mask) :
  ∃ x, mask_to_int (vec_to_list (mvec m)) = Some x ∧ (x =? 0) = noLane m.
Proof.
  assert (E : vec_to_list (mvec m) = map Some (vec_to_list (fun_to_vec m))).
  { assert (V : mvec m = vmap Some (fun_to_vec m)).
    { apply vec_eq. intros l. rewrite mvec_lookup, vlookup_map, lookup_fun_to_vec. reflexivity. }
    rewrite V. apply vec_to_list_map. }
  rewrite E. destruct (mask_to_int_Some (vec_to_list (fun_to_vec m))) as (x & Ex & _ & Hz).
  exists x. auto.
Qed.

Lemma isZero_spec (v : Value) (s : SPMDBuilder) :
  ready s →
  ∃ z s', maskIsZero v s = Ret (z, s') ∧ emitted s s' ∧
    ∀ c m, sub (BasicBlocks s') F → atEnd s c → holds s c v (RMask (mvec m)) →
    ∃ c', seg s c s' c' ∧ mem c' = mem c ∧ nloc c' = nloc c ∧ holds s' c' z (RI1 (noLane m)).
Proof.
  intros R. unfold maskIsZero.
  destruct (op_spec BitCastI16 [v] s R) as (i & s1 & E1 & Em1 & D1).
  assert (R1 := emitted_ready _ _ Em1 R).
  destruct (op_spec ICmpEQ [i; VConst (RI16 0)] s1 R1) as (z & s2 & E2 & Em2 & D2).
  exists z, s2. erewrite gbind_Ret by exact E1. split; [exact E2 |].
  split; [eauto using emitted_trans |].
  intros c m HF Hc Hv. destruct (bitcast_mvec m) as (x & Hx & Hz).
  assert (HF1 : sub (BasicBlocks s1) F).
  { eapply sub_trans; [eapply (Grows_CreateOp 0); [lia | exact E2] | exact HF]. }
  destruct (D1 c [RMask (mvec m)] (RI16 x) HF1 Hc) as (c1 & S1 & M1 & L1 & V1).
  { repeat constructor; apply Hv. }
  { cbn [opsem]. rewrite Hx. reflexivity. }
  destruct (D2 c1 [RI16 x; RI16 0] (RI1 (noLane m)) HF (seg_end _ _ _ _ S1)) as (c2 & S2 & M2 & L2 & V2).
  { repeat constructor; [apply V1 | apply V1 | discriminate]. }
  { cbn [opsem]. rewrite Hz. reflexivity. }
  exists c2. split; [eauto using seg_trans |]. split_and!; [congruence | congruence | exact V2].
Qed.

(** ** Expressions *)

(** The variables of [A] are in memory, where [lay] says. *)
Definition inMemory (A : gset Symbol) (lay : Symbol → nat) (s : SPMDBuilder) (c : config) : Prop :=
  ∀ x, x ∈ A → ∃ p w, Symbols s !! x = Some p ∧ holds s c p (RPtr (lay x)) ∧ mem c !! lay x = Some (RFloats w).

(** ... and lane [l] of them is the environment [ρ]. *)
Definition laneEnv (A : gset Symbol) (lay : Symbol → nat) (μ : gmap nat RTVal) (l : fin 16) (ρ : gmap Symbol float) : Prop :=
  ∀ x f w, x ∈ A → ρ !! x = Some f → μ !! lay x = Some (RFloats w) → w !!! l = Some f.

Lemma inMemory_seg (A : gset Symbol) (lay : Symbol → nat) (s s' : SPMDBuilder) (c c' : config) :
  straight s s' → seg s c s' c' → mem c' = mem c → inMemory A lay s c → inMemory A lay s' c'.
Proof.
  intros St Sg M I x Hx. destruct (I x Hx) as (p & w & Hp & Hv & Hm). exists p, w.
  rewrite (st_symbols _ _ St), M. eauto using seg_holds.
Qed.

Lemma lift2_lanes {X Y : Type} (f : X → X → Y) (a b : option X) (y : Y) :
  lift2 f a b = Some y → ∃ x1 x2, a = Some x1 ∧ b = Some x2 ∧ f x1 x2 = y.
Proof. destruct a, b; try discriminate. intros [= <-]. eauto. Qed.

Definition declared (A : gset Symbol) (s : SPMDBuilder) : Prop := ∀ x, x ∈ A → is_Some (Symbols s !! x).

Lemma declared_straight (A : gset Symbol) (s s' : SPMDBuilder) : straight s s' → declared A s → declared A s'.
Proof. intros St D x Hx. rewrite (st_symbols _ _ St). auto. Qed.

(** [g] computes the vector [P] describes, of the lanes of the variables of [A]. *)
Definition computes (A : gset Symbol) (g : GenM (option Value)) (P : gmap nat RTVal → (Symbol → nat) → RTVal → Prop) : Prop :=
  ∀ s, ready s → declared A s →
  ∃ v s', g s = Ret (Some v, s') ∧ emitted s s' ∧
    ∀ c lay, sub (BasicBlocks s') F → atEnd s c → inMemory A lay s c →
    ∃ c' r, seg s c s' c' ∧ mem c' = mem c ∧ nloc c' = nloc c ∧ holds s' c' v r ∧ P (mem c) lay r.

Definition isExpr (A : gset Symbol) (n : AstNode) (μ : gmap nat RTVal) (lay : Symbol → nat) (r : RTVal) : Prop :=
  ∃ w, r = RFloats w ∧
    ∀ l ρ f, laneEnv A lay μ l ρ → evalExpr ρ n = Some f → w !!! l = Some f.

(** Two operands, then an operation on the vectors. *)
Lemma binary_computes (A : gset Symbol) (a b : AstNode) (o : Opcode) (g : vec (option float) 16 → vec (option float) 16 → RTVal)
    (create : Value → Value → GenM Value) :
  (∀ l r, create l r = CreateOp o [l; r]) →
  (∀ wa wb, opsem o [RFloats wa; RFloats wb] = Some (g wa wb)) →
  computes A (generate a) (isExpr A a) → computes A (generate b) (isExpr A b) →
  computes A (generateBinary (generate a) (generate b) create)
    (λ μ lay r, ∃ wa wb, r = g wa wb ∧ isExpr A a μ lay (RFloats wa) ∧ isExpr A b μ lay (RFloats wb)).
Proof.
  intros Hc Ho Ca Cb s R De.
  destruct (Ca s R De) as (va & s1 & E1 & Em1 & D1).
  assert (R1 := emitted_ready _ _ Em1 R).
  assert (De1 := declared_straight _ _ _ (em_straight _ _ Em1) De).
  destruct (Cb s1 R1 De1) as (vb & s2 & E2 & Em2 & D2).
  assert (R2 := emitted_ready _ _ Em2 R1).
  destruct (op_spec o [va; vb] s2 R2) as (v & s3 & E3 & Em3 & D3).
  exists v, s3. split.
  { unfold generateBinary. erewrite gbind_Ret by exact E1. erewrite gbind_Ret by exact E2.
    erewrite gbind_Ret by reflexivity. erewrite gbind_Ret by reflexivity. rewrite Hc.
    erewrite gbind_Ret by exact E3. reflexivity. }
  split; [eauto using emitted_trans |].
  intros c lay HF He Hm.
  assert (HF2 : sub (BasicBlocks s2) F).
  { eapply sub_trans; [eapply (Grows_CreateOp 0); [lia | exact E3] | exact HF]. }
  assert (HF1 : sub (BasicBlocks s1) F).
  { eapply sub_trans; [eapply (Grows_generate 0); [lia | exact E2] | exact HF2]. }
  destruct (D1 c lay HF1 He Hm) as (c1 & ra & S1 & M1 & L1 & V1 & (wa & -> & Pa)).
  destruct (D2 c1 lay HF2 (seg_end _ _ _ _ S1)) as (c2 & rb & S2 & M2 & L2 & V2 & (wb & -> & Pb)).
  { eapply inMemory_seg; [apply Em1 | exact S1 | exact M1 | exact Hm]. }
  destruct (D3 c2 [RFloats wa; RFloats wb] (g wa wb) HF (seg_end _ _ _ _ S2)) as (c3 & S3 & M3 & L3 & V3).
  { repeat constructor; [eapply seg_holds; eauto | eapply seg_holds; eauto | apply V2 | apply V2]. }
  { apply Ho. }
  exists c3, (g wa wb). split; [eauto using seg_trans |]. split_and!; [congruence | congruence | exact V3 |].
  rewrite M1 in Pb. exists wa, wb. split_and!; [reflexivity | exists wa; auto | exists wb; auto].
Qed.

Lemma computes_weaken (A : gset Symbol) (g : GenM (option Value))
    (P Q : gmap nat RTVal → (Symbol → nat) → RTVal → Prop) :
  (∀ μ lay r, P μ lay r → Q μ lay r) → computes A g P → computes A g Q.
Proof.
  intros PQ C s R De. destruct (C s R De) as (v & s' & E & Em & D). exists v, s'.
  split; [exact E |]. split; [exact Em |]. intros c lay HF He Hm.
  destruct (D c lay HF He Hm) as (c' & r & Sg & M & L & V & Pr). exists c', r. auto 10.
Qed.

Lemma binary_isExpr (A : gset Symbol) (n a b : AstNode) (f : float → float → float) (o : Opcode)
    (create : Value → Value → GenM Value) :
  (∀ l r, create l r = CreateOp o [l; r]) →
  (∀ wa wb, opsem o [RFloats wa; RFloats wb] = Some (RFloats (vzip_with (lift2 f) wa wb))) →
  (∀ ρ, evalExpr ρ n = lift2 f (evalExpr ρ a) (evalExpr ρ b)) →
  computes A (generate a) (isExpr A a) → computes A (generate b) (isExpr A b) →
  computes A (generateBinary (generate a) (generate b) create) (isExpr A n).
Proof.
  intros Hc Ho He Ca Cb.
  eapply computes_weaken; [| eapply (binary_computes A a b o (λ wa wb, RFloats (vzip_with (lift2 f) wa wb))); eassumption].
  intros μ lay r (wa & wb & -> & (? & [= <-] & Pa) & (? & [= <-] & Pb)).
  eexists. split; [reflexivity |]. intros l ρ x Hl Hx. rewrite He in Hx.
  apply lift2_lanes in Hx as (x1 & x2 & H1 & H2 & <-).
  rewrite vlookup_zip_with, (Pa l ρ x1 Hl H1), (Pb l ρ x2 Hl H2). reflexivity.
Qed.

Lemma generate_expr (A : gset Symbol) (n : AstNode) :
  scopedExpr A n = true → computes A (generate n) (isExpr A n).
Proof.
  induction n; cbn [scopedExpr]; intros Sc; try discriminate;
    try (apply andb_true_iff in Sc as [Sa Sb];
         eapply binary_isExpr; [intros; reflexivity | intros; reflexivity | intros; reflexivity | auto | auto]).
  - apply bool_decide_eq_true in Sc. intros s R De. destruct (De _ Sc) as [p Hp].
    destruct (load_spec p s R) as (v & s' & E & Em & _ & _ & D). exists v, s'.
    split.
    { cbn [generate]. unfold symbolValue, readLocalVariable.
      erewrite gbind_Ret; [| unfold gets, mbind, GenM_bind; rewrite Hp; reflexivity].
      erewrite gbind_Ret by exact E. reflexivity. }
    split; [exact Em |]. intros c lay HF He Hm.
    destruct (Hm _ Sc) as (q & w & Hq & Vq & Mq). rewrite Hp in Hq. injection Hq as <-.
    destruct (D c _ _ HF He Vq Mq) as (c' & Sg & M & L & V). exists c', (RFloats w).
    split_and!; [assumption .. |]. exists w. split; [reflexivity |].
    intros l ρ f Hl Hf. eapply Hl; eauto.
  - intros s R De. eexists _, s. split; [reflexivity |]. split; [apply emitted_refl |].
    intros c lay HF He Hm. eexists c, _.
    split; [split; [reflexivity | assumption | apply ext_refl] |].
    split_and!; [reflexivity | reflexivity | split; [discriminate | reflexivity] |].
    eexists. split; [reflexivity |]. intros l ρ f _ [= <-]. apply vlookup_replicate.
Qed.

(** A condition: the mask of the lanes where it holds. *)
Definition isCond (A : gset Symbol) (n : AstNode) (μ : gmap nat RTVal) (lay : Symbol → nat) (r : RTVal) : Prop :=
  ∃ w, r = RMask w ∧
    ∀ l ρ b, laneEnv A lay μ l ρ → evalCond ρ n = Some b → w !!! l = Some b.

Lemma generate_cond (A : gset Symbol) (n : AstNode) :
  scopedCond A n = true → computes A (generate n) (isCond A n).
Proof.
  destruct n; cbn [scopedCond]; intros Sc; try discriminate.
  apply andb_true_iff in Sc as [Sp Sc]. apply andb_true_iff in Sc as [Sa Sb]. cbn [generate].
  eapply computes_weaken;
    [| eapply (binary_computes A n1 n2 (FCmp Type') (λ wa wb, RMask (vzip_with (lift2 (fcmp Type')) wa wb)));
       [intros l r; destruct Type'; reflexivity || discriminate | reflexivity |
        apply generate_expr; assumption | apply generate_expr; assumption]].
  intros μ lay r (wa & wb & -> & (? & [= <-] & Pa) & (? & [= <-] & Pb)).
  eexists. split; [reflexivity |]. intros l ρ x Hl Hx. cbn [evalCond] in Hx.
  apply lift2_lanes in Hx as (x1 & x2 & H1 & H2 & <-).
  rewrite vlookup_zip_with, (Pa l ρ x1 Hl H1), (Pb l ρ x2 Hl H2). reflexivity.
Qed.

(** ** The masks of the builder *)

(** [ActiveLanes] is the mask [m]; no mask at all is the mask of every lane. *)
Definition active (s : SPMDBuilder) (c : config) (m : mask) : Prop :=
  match ActiveLanes s with
  | Some v => holds s c v (RMask (mvec m))
  | None => MaskStack s = [] ∧ ∀ l, m l = true
  end.

Lemma active_seg (s s' : SPMDBuilder) (c c' : config) (m : mask) :
  straight s s' → ext s c s' c' → active s c m → active s' c' m.
Proof.
  intros St Ex. unfold active. rewrite (st_active _ _ St), (st_stack _ _ St).
  destruct (ActiveLanes s); [apply holds_ext; assumption | auto].
Qed.

Lemma active_nonempty (s : SPMDBuilder) (c : config) (m : mask) (top : MaskStackEntry) (rest : list MaskStackEntry) :
  ready s → MaskStack s = top :: rest → active s c m →
  ActiveLanes s = Some (CombinedMask top) ∧ holds s c (CombinedMask top) (RMask (mvec m)).
Proof.
  intros R Hs Ha. pose proof (ready_active _ R) as Hr. rewrite Hs in Hr. split; [exact Hr |].
  unfold active in Ha. rewrite Hr in Ha. exact Ha.
Qed.

(** An operation that may change the masks and nothing else but the code. *)
Record kept (s s' : SPMDBuilder) : Prop := mkKept {
  kp_insert : InsertBlock s' = InsertBlock s;
  kp_value : ReturnValuePtr s' = ReturnValuePtr s;
  kp_mask : ReturnMaskPtr s' = ReturnMaskPtr s;
  kp_symbols : Symbols s' = Symbols s;
  kp_blocks : (nblocks s ≤ nblocks s')%nat
}.

Lemma straight_kept (s s' : SPMDBuilder) : straight s s' → kept s s'.
Proof. intros []. split; assumption. Qed.

Lemma kept_trans (s1 s2 s3 : SPMDBuilder) : kept s1 s2 → kept s2 s3 → kept s1 s3.
Proof. intros [] []. split; congruence || lia. Qed.

Lemma kept_ready (s s' : SPMDBuilder) :
  kept s s' → ready s →
  match MaskStack s' with [] => True | top :: _ => ActiveLanes s' = Some (CombinedMask top) end →
  ready s'.
Proof.
  intros [] [(b & Hb & Hn) ? ? ?] Ha. split; [exists b; split; [congruence | lia] | congruence | congruence | exact Ha].
Qed.

(** ** assignLocalVariable *)
Lemma blend_lookup (m : mask) (w old : vec (option float) 16) (l : fin 16) :
  vselect (mvec m) w old !!! l = if m l then w !!! l else old !!! l.
Proof. unfold vselect. rewrite !vlookup_zip_with, mvec_lookup. destruct (m l); reflexivity. Qed.

Lemma sub_op {o vs v s s'} : CreateOp o vs s = Ret (v, s') → sub (BasicBlocks s') F → sub (BasicBlocks s) F.
Proof. intros E. apply sub_trans. eapply (Grows_CreateOp 0); [lia | exact E]. Qed.

Lemma sub_insert {i v s s'} : Insert i s = Ret (v, s') → sub (BasicBlocks s') F → sub (BasicBlocks s) F.
Proof. intros E. apply sub_trans. eapply (Grows_Insert 0); [lia | exact E]. Qed.

Lemma sub_store {v p s s'} : CreateStore v p s = Ret (tt, s') → sub (BasicBlocks s') F → sub (BasicBlocks s) F.
Proof.
  intros E. apply gbind_inv in E as (x & s1 & E & E1). injection E1 as <-. exact (sub_insert E).
Qed.

Lemma assign_spec (p v : Value) (s : SPMDBuilder) :
  ready s →
  ∃ s', assignLocalVariable p (Some v) s = Ret (Some v, s') ∧ emitted s s' ∧ opened s' ∧ nonempty s' ∧
    ∀ c m l w old, sub (BasicBlocks s') F → atEnd s c → active s c m →
      holds s c p (RPtr l) → holds s c v (RFloats w) → mem c !! l = Some (RFloats old) →
    ∃ c' w', seg s c s' c' ∧ mem c' = <[l := RFloats w']> (mem c) ∧ nloc c' = nloc c ∧
      ∀ i, w' !!! i = if m i then w !!! i else old !!! i.
Proof.
  intros R. unfold assignLocalVariable.
  erewrite gbind_Ret by reflexivity. erewrite gbind_Ret by reflexivity. erewrite gbind_Ret by reflexivity.
  destruct (ActiveLanes s) as [a |] eqn:Ea.
  - destruct (load_spec p s R) as (o & s1 & E1 & Em1 & O1 & N1 & D1).
    assert (R1 := emitted_ready _ _ Em1 R).
    destruct (op_spec Select [a; v; o] s1 R1) as (b & s2 & E2 & Em2 & D2).
    assert (R2 := emitted_ready _ _ Em2 R1).
    destruct (store_spec b p s2 R2) as (s3 & E3 & Em3 & O3 & N3 & D3).
    exists s3. split.
    { erewrite gbind_Ret; [reflexivity |]. erewrite gbind_Ret by exact E1. unfold CreateSelect.
      erewrite gbind_Ret by exact E2. exact E3. }
    split; [eauto using emitted_trans |]. split; [exact O3 |]. split; [exact N3 |].
    intros c m l w old HF He Ha Hp Hv Hl. unfold active in Ha. rewrite Ea in Ha.
    assert (HF2 := sub_store E3 HF). assert (HF1 := sub_op E2 HF2).
    destruct (D1 c l _ HF1 He Hp Hl) as (c1 & S1 & M1 & L1 & V1).
    destruct (D2 c1 [RMask (mvec m); RFloats w; RFloats old] (RFloats (vselect (mvec m) w old)) HF2 (seg_end _ _ _ _ S1)) as (c2 & S2 & M2 & L2 & V2).
    { repeat constructor; try apply V1; eapply seg_holds; eauto. }
    { reflexivity. }
    destruct (D3 c2 l (RFloats (vselect (mvec m) w old)) HF (seg_end _ _ _ _ S2)) as (c3 & S3 & M3 & L3).
    { eapply seg_holds; [exact S2 |]. eapply seg_holds; eauto. }
    { exact V2. }
    eexists c3, _. split; [eauto using seg_trans |]. rewrite M3, M2, M1. split; [reflexivity |].
    split; [congruence |]. intros i. apply blend_lookup.
  - destruct (store_spec v p s R) as (s1 & E1 & Em1 & O1 & N1 & D1). exists s1.
    assert (Hs : MaskStack s = []).
    { pose proof (ready_active _ R) as Hr. destruct (MaskStack s); [reflexivity | congruence]. }
    split.
    { erewrite gbind_Ret; [reflexivity |]. erewrite gbind_Ret; [exact E1 |].
      unfold gassert. rewrite Hs. reflexivity. }
    split; [exact Em1 |]. split; [exact O1 |]. split; [exact N1 |].
    intros c m l w old HF He Ha Hp Hv Hl. unfold active in Ha. rewrite Ea in Ha. destruct Ha as [_ Ha].
    destruct (D1 c l _ HF He Hp Hv) as (c1 & S1 & M1 & L1). exists c1, w.
    split_and!; [assumption .. |]. intros i. rewrite Ha. reflexivity.
Qed.

(** ** pushMask, popMask, invertLastPushedMask *)
Definition maskAnd (m b : mask) : mask := λ l, m l && b l.

Lemma and_mvec (w : vec (option bool) 16) (m b : mask) :
  (∀ l, m l = true → w !!! l = Some (b l)) → vzip_with lane_and w (mvec m) = mvec (maskAnd m b).
Proof.
  intros E. apply mvec_ext. intros l. rewrite vlookup_zip_with, mvec_lookup. unfold maskAnd.
  specialize (E l). destruct (m l); cbn; [rewrite E by reflexivity; destruct (b l) | destruct (w !!! l) as [[] |]]; reflexivity.
Qed.

Lemma mvec_and (a b : mask) : vzip_with lane_and (mvec a) (mvec b) = mvec (maskAnd a b).
Proof.
  apply mvec_ext. intros l. rewrite vlookup_zip_with, !mvec_lookup. unfold maskAnd.
  destruct (a l), (b l); reflexivity.
Qed.

Lemma pushMask_spec (v : Value) (s : SPMDBuilder) :
  ready s →
  ∃ s' cm, pushMask v s = Ret (tt, s') ∧ MaskStack s' = mkMaskEntry v cm :: MaskStack s ∧
    ActiveLanes s' = Some cm ∧ kept s s' ∧ ready s' ∧ (opened s → opened s') ∧ (nonempty s → nonempty s') ∧
    ∀ c m b w, sub (BasicBlocks s') F → atEnd s c → active s c m → holds s c v (RMask w) →
      (∀ l, m l = true → w !!! l = Some (b l)) →
    ∃ c', seg s c s' c' ∧ mem c' = mem c ∧ nloc c' = nloc c ∧ active s' c' (maskAnd m b).
Proof.
  intros R. unfold pushMask. erewrite gbind_Ret by reflexivity. erewrite gbind_Ret by reflexivity.
  destruct (ActiveLanes s) as [a |] eqn:Ea.
  - destruct (op_spec And [v; a] s R) as (cm & s1 & E1 & [St O N] & D1).
    eexists _, cm. unfold CreateAnd. erewrite gbind_Ret by exact E1. split; [reflexivity |]. cbn.
    split; [reflexivity |]. split; [reflexivity |].
    split; [destruct St; split; assumption |].
    split; [eapply kept_ready; [| exact R |]; [destruct St; split; assumption | reflexivity] |].
    split; [exact O |]. split; [exact N |].
    intros c m b w HF He Ha Hv Hb. unfold active in Ha. rewrite Ea in Ha.
    destruct (D1 c [RMask w; RMask (mvec m)] (RMask (vzip_with lane_and w (mvec m))) HF He) as (c1 & S1 & M1 & L1 & V1).
    { repeat constructor; apply Hv || apply Ha. }
    { reflexivity. }
    exists c1. rewrite (and_mvec _ _ b) in V1 by exact Hb.
    split; [eapply seg_trans; [exact S1 | apply seg_idle; try reflexivity; apply S1] |]. auto.
  - assert (Hs : MaskStack s = []).
    { pose proof (ready_active _ R) as Hr. destruct (MaskStack s); [reflexivity | congruence]. }
    eexists _, v. erewrite gbind_Ret by (unfold gassert; rewrite Hs; reflexivity).
    split; [reflexivity |]. cbn. split; [reflexivity |]. split; [reflexivity |].
    split; [split; auto |]. split; [eapply kept_ready; [| exact R | reflexivity]; split; auto |].
    split; [auto |]. split; [auto |].
    intros c m b w HF He Ha Hv Hb. unfold active in Ha. rewrite Ea in Ha. destruct Ha as [_ Ha].
    assert (w = mvec (maskAnd m b)) as ->.
    { apply mvec_ext. intros l. unfold maskAnd. rewrite Hb, Ha by apply Ha. reflexivity. }
    exists c. match goal with |- seg _ _ ?s' _ ∧ _ => assert (Sg : seg s c s' c) by (apply seg_idle; auto) end.
    split; [exact Sg |]. split; [reflexivity |]. split; [reflexivity |].
    unfold active. cbn [ActiveLanes]. exact (seg_holds _ _ _ _ _ _ Sg Hv).
Qed.

(** The mask of the entry below the top, [mo]; at the bottom of the stack only the
    lanes that have not returned run. *)
Definition outerMask (s : SPMDBuilder) (c : config) (rest : list MaskStackEntry) (mo rm : mask) : Prop :=
  match rest with
  | [] => ∀ l, rm l = true → mo l = true
  | outer :: _ => holds s c (CombinedMask outer) (RMask (mvec mo))
  end.

Lemma outerMask_ext (s s' : SPMDBuilder) (c c' : config) (rest : list MaskStackEntry) (mo rm : mask) :
  ext s c s' c' → outerMask s c rest mo rm → outerMask s' c' rest mo rm.
Proof. intros Ex. destruct rest; [auto | apply holds_ext; exact Ex]. Qed.

(** The return mask is at location 1, the return value at location 0. *)
Definition returnPtrs (s : SPMDBuilder) (c : config) : Prop :=
  (∃ p, ReturnValuePtr s = Some p ∧ holds s c p (RPtr 0)) ∧
  (∃ p, ReturnMaskPtr s = Some p ∧ holds s c p (RPtr 1)).

Lemma returnPtrs_ext (s s' : SPMDBuilder) (c c' : config) :
  ext s c s' c' → kept s s' → returnPtrs s c → returnPtrs s' c'.
Proof.
  intros Ex K [(p & Ep & Hp) (q & Eq & Hq)]. split; [exists p | exists q]; destruct K;
    (split; [congruence | eauto using holds_ext]).
Qed.

Lemma and_spec (a b : Value) (s : SPMDBuilder) :
  ready s →
  ∃ v s', CreateAnd a b s = Ret (v, s') ∧ emitted s s' ∧
    ∀ c wa wb, sub (BasicBlocks s') F → atEnd s c → holds s c a (RMask wa) → holds s c b (RMask wb) →
    ∃ c', seg s c s' c' ∧ mem c' = mem c ∧ nloc c' = nloc c ∧ holds s' c' v (RMask (vzip_with lane_and wa wb)).
Proof.
  intros R. destruct (op_spec And [a; b] s R) as (v & s' & E & Em & D). exists v, s'.
  split; [exact E |]. split; [exact Em |]. intros c wa wb HF He Ha Hb.
  apply (D c [RMask wa; RMask wb] (RMask (vzip_with lane_and wa wb))); auto.
Qed.

Lemma popMask_spec (s : SPMDBuilder) (top : MaskStackEntry) (rest : list MaskStackEntry) :
  ready s → MaskStack s = top :: rest →
  ∃ s', popMask s = Ret (tt, s') ∧ stackRel rest (MaskStack s') ∧ kept s s' ∧ ready s' ∧ opened s' ∧ nonempty s' ∧
    ∀ c mo rm, sub (BasicBlocks s') F → atEnd s c → returnPtrs s c → mem c !! 1%nat = Some (RMask (mvec rm)) →
      outerMask s c rest mo rm →
    ∃ c', seg s c s' c' ∧ mem c' = mem c ∧ nloc c' = nloc c ∧ active s' c' (maskAnd mo rm).
Proof.
  intros R Hs. destruct (ready_mask _ R) as [rp Erp]. pose proof (ready_active _ R) as Hr. rewrite Hs in Hr.
  destruct (load_spec rp s R) as (old & s1 & E1 & Em1 & O1 & N1 & D1).
  assert (R1 := emitted_ready _ _ Em1 R).
  unfold popMask.
  erewrite gbind_Ret by (unfold gassert; rewrite Hr; reflexivity).
  erewrite gbind_Ret by (unfold maskStackBack; rewrite Hs; reflexivity). cbn beta iota.
  erewrite gbind_Ret by (unfold gets, nonnull, mbind, GenM_bind; rewrite Erp; reflexivity).
  erewrite gbind_Ret by exact E1.
  destruct rest as [| outer rest'].
  - eexists. split; [reflexivity |]. cbn. split; [reflexivity |].
    split; [destruct Em1 as [[] _ _]; split; assumption |].
    split; [eapply (kept_ready s); [destruct Em1 as [[] _ _]; split; assumption | exact R | exact I] |].
    split; [exact O1 |]. split; [exact N1 |].
    intros c mo rm HF He [_ (q & Eq & Hq)] Hm Ho. rewrite Erp in Eq. injection Eq as <-.
    destruct (D1 c 1%nat _ HF He Hq Hm) as (c1 & S1 & M1 & L1 & V1).
    assert (mvec rm = mvec (maskAnd mo rm)) as Erm.
    { apply mvec_ext. intros l. rewrite mvec_lookup. unfold maskAnd. specialize (Ho l).
      destruct (rm l); [rewrite Ho by reflexivity | rewrite andb_false_r]; reflexivity. }
    rewrite Erm in V1.
    exists c1. match goal with |- seg _ _ ?s' _ ∧ _ => assert (Sg : seg s1 c1 s' c1) by (apply seg_idle; apply S1 || reflexivity) end.
    split; [eauto using seg_trans |]. split; [exact M1 |]. split; [exact L1 |].
    exact (seg_holds _ _ _ _ _ _ Sg V1).
  - destruct (and_spec (CombinedMask outer) old s1 R1) as (lanes & s2 & E2 & Em2 & D2).
    erewrite gbind_Ret by exact E2. eexists. split; [reflexivity |]. cbn. split; [eauto |].
    assert (K : kept s s2) by (eapply kept_trans; apply straight_kept; [apply Em1 | apply Em2]).
    split; [destruct K; split; assumption |].
    split; [eapply (kept_ready s2); [split; reflexivity | eapply emitted_ready; eassumption | reflexivity] |].
    split; [exact (em_opened _ _ Em2 O1) |]. split; [exact (em_nonempty _ _ Em2 N1) |].
    intros c mo rm HF He [_ (q & Eq & Hq)] Hm Ho. rewrite Erp in Eq. injection Eq as <-.
    destruct (D1 c 1%nat _ (sub_op E2 HF) He Hq Hm) as (c1 & S1 & M1 & L1 & V1).
    destruct (D2 c1 (mvec mo) (mvec rm) HF (seg_end _ _ _ _ S1)) as (c2 & S2 & M2 & L2 & V2).
    { eapply seg_holds; [exact S1 | exact Ho]. }
    { exact V1. }
    exists c2. match goal with |- seg _ _ ?s' _ ∧ _ => assert (Sg : seg s2 c2 s' c2) by (apply seg_idle; apply S2 || reflexivity) end.
    split; [eauto using seg_trans |]. split; [congruence |]. split; [congruence |].
    rewrite mvec_and in V2. exact (seg_holds _ _ _ _ _ _ Sg V2).
Qed.

Definition maskNot (b : mask) : mask := λ l, negb (b l).

Lemma lane_not (w : vec (option bool) 16) (l : fin 16) :
  vzip_with (lift2 xorb) w (vreplicate 16 (Some true)) !!! l = negb <$> w !!! l.
Proof. rewrite vlookup_zip_with, vlookup_replicate. destruct (w !!! l) as [[] |]; reflexivity. Qed.

Lemma invert_spec (s : SPMDBuilder) (top : MaskStackEntry) (rest : list MaskStackEntry) :
  ready s → MaskStack s = top :: rest →
  ∃ s' nm cm, invertLastPushedMask s = Ret (tt, s') ∧ MaskStack s' = mkMaskEntry nm cm :: rest ∧
    kept s s' ∧ ready s' ∧ opened s' ∧ nonempty s' ∧
    ∀ c mo b rm w, sub (BasicBlocks s') F → atEnd s c → returnPtrs s c → mem c !! 1%nat = Some (RMask (mvec rm)) →
      outerMask s c rest mo rm → holds s c (ThisMask top) (RMask w) →
      (∀ l, mo l = true → w !!! l = Some (b l)) →
    ∃ c', seg s c s' c' ∧ mem c' = mem c ∧ nloc c' = nloc c ∧
      active s' c' (maskAnd (maskAnd mo (maskNot b)) rm).
Proof.
  intros R Hs. destruct (ready_mask _ R) as [rp Erp]. pose proof (ready_active _ R) as Hr. rewrite Hs in Hr.
  destruct (op_spec Xor [ThisMask top; AllOnes] s R) as (nm & s1 & E1 & Em1 & D1).
  assert (R1 := emitted_ready _ _ Em1 R).
  set (combine := match rest with [] => mret nm | outer :: _ => CreateAnd nm (CombinedMask outer) end : GenM Value).
  assert (C : ∃ nc s2, combine s1 = Ret (nc, s2) ∧ emitted s1 s2 ∧
    ∀ c mo rm w b, sub (BasicBlocks s2) F → atEnd s1 c → outerMask s1 c rest mo rm → holds s1 c nm (RMask w) →
      (∀ l, mo l = true → w !!! l = Some (b l)) →
    ∃ c' w', seg s1 c s2 c' ∧ mem c' = mem c ∧ nloc c' = nloc c ∧ holds s2 c' nc (RMask w') ∧
      ∀ l, rm l = true → w' !!! l = Some (mo l && b l)).
  { destruct rest as [| outer rest'].
    - exists nm, s1. split; [reflexivity |]. split; [apply emitted_refl |].
      intros c mo rm w b _ He Ho Hw Hb. exists c, w. split; [apply seg_idle; auto |].
      split_and!; [reflexivity | reflexivity | exact Hw |]. intros l Hl. rewrite Hb, Ho by auto. reflexivity.
    - destruct (and_spec nm (CombinedMask outer) s1 R1) as (nc & s2 & E2 & Em2 & D2). exists nc, s2.
      split; [exact E2 |]. split; [exact Em2 |]. intros c mo rm w b HF He Ho Hw Hb.
      destruct (D2 c w (mvec mo) HF He Hw Ho) as (c2 & S2 & M2 & L2 & V2).
      rewrite (and_mvec _ _ b Hb) in V2. exists c2, (mvec (maskAnd mo b)). split_and!; [assumption .. |].
      intros l _. apply mvec_lookup. }
  destruct C as (nc & s2 & E2 & Em2 & D2). assert (R2 := emitted_ready _ _ Em2 R1).
  destruct (load_spec rp s2 R2) as (old & s3 & E3 & Em3 & O3 & N3 & D3). assert (R3 := emitted_ready _ _ Em3 R2).
  destruct (and_spec nc old s3 R3) as (lanes & s4 & E4 & Em4 & D4). assert (R4 := emitted_ready _ _ Em4 R3).
  assert (Em : emitted s s4) by eauto using emitted_trans.
  eexists _, nm, lanes. split.
  { unfold invertLastPushedMask.
    erewrite gbind_Ret by (unfold maskStackBack; rewrite Hs; reflexivity). cbn beta iota.
    erewrite gbind_Ret by (unfold gassert; rewrite Hr; reflexivity).
    erewrite gbind_Ret by exact E1. erewrite gbind_Ret by exact E2.
    erewrite gbind_Ret by (unfold gets, nonnull, mbind, GenM_bind;
                           rewrite (st_mask _ _ (em_straight _ _ Em2)), (st_mask _ _ (em_straight _ _ Em1)), Erp; reflexivity).
    erewrite gbind_Ret by exact E3. erewrite gbind_Ret by exact E4. reflexivity. }
  cbn. split; [reflexivity |].
  split; [destruct Em as [[] _ _]; split; assumption |].
  split; [eapply (kept_ready s4); [split; reflexivity | exact R4 | reflexivity] |].
  split; [exact (em_opened _ _ Em4 O3) |]. split; [exact (em_nonempty _ _ Em4 N3) |].
  intros c mo b rm w HF He [_ (q & Eq & Hq)] Hm Ho Hw Hb. rewrite Erp in Eq. injection Eq as <-.
  assert (HF3 : sub (BasicBlocks s3) F) by exact (sub_op E4 HF).
  assert (HF2 : sub (BasicBlocks s2) F) by exact (sub_insert E3 HF3).
  assert (HF1 : sub (BasicBlocks s1) F).
  { eapply sub_trans; [| exact HF2]. eapply (grow_sub 0).
    eapply (Grows_then 0 (mret tt) (λ _, combine) (λ _, True)); [apply Grows_ret; trivial | | lia | exact E2].
    intros _. unfold combine. destruct rest; [apply Grows_ret; trivial | apply Grows_CreateOp]. }
  destruct (D1 c [RMask w; RMask (vreplicate 16 (Some true))]
              (RMask (vzip_with (lift2 xorb) w (vreplicate 16 (Some true)))) HF1 He) as (c1 & S1 & M1 & L1 & V1).
  { repeat constructor; [apply Hw | apply Hw | discriminate]. }
  { reflexivity. }
  destruct (D2 c1 mo rm _ (maskNot b) HF2 (seg_end _ _ _ _ S1)
              (outerMask_ext _ _ _ _ _ _ _ (seg_ext _ _ _ _ S1) Ho) V1) as (c2 & w2 & S2 & M2 & L2 & V2 & W2).
  { intros l Hl. rewrite lane_not, Hb by exact Hl. reflexivity. }
  destruct (D3 c2 1%nat (RMask (mvec rm)) HF3 (seg_end _ _ _ _ S2)) as (c3 & S3 & M3 & L3 & V3).
  { eapply seg_holds; [exact S2 | eapply seg_holds; [exact S1 | exact Hq]]. }
  { rewrite M2, M1. exact Hm. }
  destruct (D4 c3 w2 (mvec rm) HF (seg_end _ _ _ _ S3)) as (c4 & S4 & M4 & L4 & V4).
  { eapply seg_holds; [exact S3 | exact V2]. }
  { exact V3. }
  exists c4. match goal with |- seg _ _ ?s' _ ∧ _ => assert (Sg : seg s4 c4 s' c4) by (apply seg_idle; apply S4 || reflexivity) end.
  split; [eauto using seg_trans |]. split; [congruence |]. split; [congruence |].
  assert (vzip_with lane_and w2 (mvec rm) = mvec (maskAnd (maskAnd mo (maskNot b)) rm)) as E.
  { apply mvec_ext. intros l. rewrite vlookup_zip_with, mvec_lookup. unfold maskAnd. specialize (W2 l).
    destruct (rm l); [rewrite W2 by reflexivity; rewrite andb_true_r; destruct (_ && _) |
                      rewrite andb_false_r; destruct (w2 !!! l) as [[] |]]; reflexivity. }
  rewrite E in V4. exact (seg_holds _ _ _ _ _ _ Sg V4).
Qed.
End Simulation.
