(* ===== verification/SpmdControl.v ===== *)
(** * SpmdControl: blocks, branches and returns of a kernel

    The operations of [SpmdBuilder] that end a block or start one: the branches on
    an empty mask, and [createReturn], which takes the returning lanes out of the
    masks and leaves the function when none remains. *)
From stdpp Require Import vector fin.
From S2P Require Import Prelude.
From S2P Require Import SpmdBuilder.
From S2P Require Import SpmdMachine.
From S2P Require Import SpmdGenerate.
From S2P Require Import SpmdSimulation.

Section Control.
Context `{FloatOps} (F : list BasicBlock) (args : list RTVal).

Abbreviation stepTo := (stepTo F args).
Abbreviation holds := (holds args).
Abbreviation seg := (seg F args).
Abbreviation active := (active args).
Abbreviation returnPtrs := (returnPtrs args).

(** ** Blocks *)

(** A block that was made and not started. *)
Record parked (s : SPMDBuilder) (b : nat) : Prop := mkParked {
  pk_made : (b < nblocks s)%nat;
  pk_other : InsertBlock s ≠ Some b;
  pk_empty : block s b = []
}.

Lemma parked_grow (s s' : SPMDBuilder) (b : nat) : grow (S b) s s' → parked s b → parked s' b.
Proof.
  intros G [Hm Ho He]. destruct (grow_other _ _ _ G b ltac:(lia) Ho) as [Eb Eo].
  split; [pose proof (grow_blocks _ _ _ G); lia | exact Eo | congruence].
Qed.

Lemma parked_by {A : Type} (g : GenM A) (s s' : SPMDBuilder) (a : A) (b : nat) :
  Grows (S b) g (λ _, True) → g s = Ret (a, s') → parked s b → parked s' b.
Proof. intros G E P. eapply parked_grow; [eapply G; [apply P | exact E] | exact P]. Qed.

Lemma createBasicBlock_spec (s : SPMDBuilder) :
  ready s →
  ∃ s', createBasicBlock s = Ret (nblocks s, s') ∧ emitted s s' ∧ parked s' (nblocks s) ∧
    nblocks s' = S (nblocks s) ∧
    ∀ c, atEnd s c → seg s c s' c.
Proof.
  intros R. eexists. split; [reflexivity |].
  match goal with |- emitted _ ?x ∧ _ => set (s' := x) end.
  assert (B : ∀ b, (b < nblocks s)%nat → block s' b = block s b).
  { intros b Hb. unfold block, getBlock. cbn. rewrite lookup_app_l by exact Hb. reflexivity. }
  destruct (ready_insert _ R) as (ib & Hib & Hn).
  assert (N : nblocks s' = S (nblocks s)) by (unfold nblocks; cbn; rewrite length_app; cbn; lia).
  split; [split; [split; auto; lia | |] |].
  - intros O b id i Hb. cbn in Hb. rewrite B by congruence. apply O. exact Hb.
  - intros NE b Hb. cbn in Hb. rewrite B by congruence. apply NE. exact Hb.
  - split; [split; [lia | cbn; intros E; rewrite Hib in E; injection E; lia |] |].
    { unfold block, getBlock. cbn. unfold nblocks. rewrite lookup_app_r, Nat.sub_diag by lia. reflexivity. }
    split; [exact N |]. intros c [Hb Hi]. split; [reflexivity | split; [exact Hb |] | split; auto].
    rewrite B by congruence. exact Hi.
Qed.

(** [startBasicBlock]: the insertion block is [b]; nothing else of the state changes. *)
Record started (s s' : SPMDBuilder) (b : nat) : Prop := mkStarted {
  sd_insert : InsertBlock s' = Some b;
  sd_stack : MaskStack s' = MaskStack s;
  sd_active : ActiveLanes s' = ActiveLanes s;
  sd_value : ReturnValuePtr s' = ReturnValuePtr s;
  sd_mask : ReturnMaskPtr s' = ReturnMaskPtr s;
  sd_symbols : Symbols s' = Symbols s;
  sd_blocks : (nblocks s ≤ nblocks s')%nat;
  sd_inst : (NextInst s ≤ NextInst s')%nat;
  sd_empty : block s' b = [];
  sd_ready : ready s';
  sd_parked : ∀ b', parked s b' → b' ≠ b → parked s' b'
}.

Lemma fallsThrough_opened (s : SPMDBuilder) : ready s → opened s → nonempty s → fallsThrough s = true.
Proof.
  intros R O NE. destruct (ready_insert _ R) as (b & Hb & _). unfold fallsThrough. rewrite Hb.
  specialize (NE b Hb). destruct (last (block s b)) as [[id i] |] eqn:E.
  - rewrite (O _ _ _ Hb E). reflexivity.
  - apply last_None in E. contradiction.
Qed.

Lemma startBasicBlock_spec (b : nat) (s : SPMDBuilder) :
  ready s → parked s b →
  ∃ s', startBasicBlock b s = Ret (tt, s') ∧ started s s' b ∧
    ∀ c, sub (BasicBlocks s') F → atEnd s c → fallsThrough s = true → stepTo c (jump c b).
Proof.
  intros R [Pm Po Pe]. unfold startBasicBlock. erewrite gbind_Ret by reflexivity.
  destruct (fallsThrough s) eqn:Ef.
  - destruct (Insert_ok (Br b) s R) as (s1 & E1 & St & N1 & B1). destruct (ready_insert _ R) as (ib & Hib & Hn).
    assert (Eb : block s1 b = []).
    { rewrite <- Pe. apply (grow_other (S b) s s1).
      - eapply (Grows_Insert (S b)); [exact Pm | exact E1].
      - lia.
      - exact Po. }
    unfold CreateBr. eexists. split; [erewrite gbind_Ret; [reflexivity |]; erewrite gbind_Ret by exact E1; reflexivity |].
    assert (R1 := straight_ready _ _ St R). split.
    + destruct St. split; cbn; auto; try lia.
      * destruct R1. split; cbn; auto. exists b. split; [reflexivity |].
        change (b < nblocks s1)%nat. lia.
      * intros b' P' Hne. assert (P1 : parked s1 b') by (eapply (parked_by (Insert (Br b))); [apply Grows_Insert | exact E1 | exact P']).
        destruct P1. split; [exact pk_made0 | cbn; congruence | exact pk_empty0].
    + intros c HF Hc _. unfold SpmdSimulation.stepTo, step.
      rewrite (atEnd_instr F s s1 c _ _ R Hc E1 HF). reflexivity.
  - eexists. split; [erewrite gbind_Ret by reflexivity; reflexivity |]. split; [| discriminate].
    split; cbn; auto.
    + destruct R. split; cbn; auto. exists b. auto.
    + intros b' [] Hne. split; cbn; auto. congruence.
Qed.

Lemma started_atEnd (s s' : SPMDBuilder) (b : nat) (c : config) :
  started s s' b → blk c = b → idx c = 0%nat → atEnd s' c.
Proof. intros [] <- Hi. split; [assumption |]. rewrite Hi, sd_empty0. reflexivity. Qed.

Lemma started_opened (s s' : SPMDBuilder) (b : nat) : started s s' b → opened s'.
Proof. intros [] b' id i Hb. rewrite sd_insert0 in Hb. injection Hb as <-. rewrite sd_empty0. discriminate. Qed.

Lemma ext_jump (s s' : SPMDBuilder) (c : config) (b : nat) :
  (NextInst s ≤ NextInst s')%nat → ext s c s' (jump c b).
Proof. intros N. split; cbn; auto. Qed.

(** ** Terminators *)

(** The builder after one: the block is closed. *)
Record closed (s s' : SPMDBuilder) : Prop := mkClosed {
  cl_straight : straight s s';
  cl_falls : fallsThrough s' = false;
  cl_inst : (NextInst s ≤ NextInst s')%nat
}.

Lemma terminator_closed (i : Instr) (s : SPMDBuilder) :
  ready s → isTerminator i = true → ∃ s', Insert i s = Ret (VInst (NextInst s), s') ∧ closed s s'.
Proof.
  intros R Hi. destruct (Insert_ok i s R) as (s' & E & St & N & B). exists s'. split; [exact E |].
  split; [exact St | | lia]. destruct (ready_insert _ R) as (b & Hb & _).
  unfold fallsThrough. rewrite (st_insert _ _ St), Hb, (B _ Hb), last_snoc, Hi. reflexivity.
Qed.

Lemma branch_spec (b : nat) (s : SPMDBuilder) :
  ready s →
  ∃ s', branch b s = Ret (tt, s') ∧ closed s s' ∧
    ∀ c, sub (BasicBlocks s') F → atEnd s c → stepTo c (jump c b).
Proof.
  intros R. destruct (terminator_closed (Br b) s R eq_refl) as (s' & E & Cl). exists s'.
  split; [unfold branch, CreateBr; erewrite gbind_Ret by exact E; reflexivity |]. split; [exact Cl |].
  intros c HF Hc. unfold SpmdSimulation.stepTo, step. rewrite (atEnd_instr F s s' c _ _ R Hc E HF). reflexivity.
Qed.

(** A branch on whether a mask is empty. *)
Lemma branchZero_spec (v : Value) (t f : nat) (s : SPMDBuilder) :
  ready s →
  ∃ z s1 s', maskIsZero v s = Ret (z, s1) ∧ emitted s s1 ∧ CreateCondBr z t f s1 = Ret (tt, s') ∧ closed s s' ∧
    ∀ c m, sub (BasicBlocks s') F → atEnd s c → holds s c v (RMask (mvec m)) →
    ∃ c', rtc stepTo c (jump c' (if noLane m then t else f)) ∧ ext s c s' c' ∧ mem c' = mem c ∧ nloc c' = nloc c.
Proof.
  intros R. destruct (isZero_spec F args v s R) as (z & s1 & E1 & Em1 & D1).
  assert (R1 := emitted_ready _ _ Em1 R).
  destruct (terminator_closed (CondBr z t f) s1 R1 eq_refl) as (s' & E2 & Cl). exists z, s1, s'.
  assert (N1 : (NextInst s ≤ NextInst s1)%nat).
  { eapply (grow_inst 0). eapply (Grows_then 0 (CreateOp BitCastI16 [v]) _ (λ _, True)); [apply Grows_CreateOp | | lia | exact E1].
    intros i. apply Grows_CreateOp. }
  split; [exact E1 |]. split; [exact Em1 |].
  split; [unfold CreateCondBr; erewrite gbind_Ret by exact E2; reflexivity |].
  split; [destruct Cl; split; [eapply straight_trans; [apply Em1 | assumption] | assumption | lia] |].
  intros c m HF Hc Hv.
  destruct (D1 c m (sub_insert F E2 HF) Hc Hv) as (c1 & S1 & M1 & L1 & V1).
  exists c1. split.
  - eapply rtc_r; [apply S1 |]. unfold SpmdSimulation.stepTo, step.
    rewrite (atEnd_instr F s1 s' c1 _ _ R1 (seg_end _ _ _ _ _ _ S1) E2 HF). cbn.
    destruct V1 as [_ V1]. rewrite V1. reflexivity.
  - split; [| auto]. destruct S1 as [_ _ []], Cl. split; [lia | auto | lia].
Qed.

Lemma shortCircuit_spec (t f : nat) (s : SPMDBuilder) (top : MaskStackEntry) (rest : list MaskStackEntry) :
  ready s → MaskStack s = top :: rest →
  ∃ s', shortCircuitZeroMask t f s = Ret (tt, s') ∧ closed s s' ∧
    ∀ c m, sub (BasicBlocks s') F → atEnd s c → active s c m →
    ∃ c', rtc stepTo c (jump c' (if noLane m then t else f)) ∧ ext s c s' c' ∧ mem c' = mem c ∧ nloc c' = nloc c.
Proof.
  intros R Hs. pose proof (ready_active _ R) as Hr. rewrite Hs in Hr.
  destruct (branchZero_spec (CombinedMask top) t f s R) as (z & s1 & s' & E1 & Em1 & E2 & Cl & D).
  exists s'. split; [| split; [exact Cl |]].
  - unfold shortCircuitZeroMask. erewrite gbind_Ret by (unfold maskStackBack; rewrite Hs; reflexivity).
    erewrite gbind_Ret by (unfold gets, nonnull, mbind, GenM_bind; rewrite Hr; reflexivity).
    erewrite gbind_Ret by exact E1. exact E2.
  - intros c m HF Hc Ha. apply D; [exact HF | exact Hc |].
    eapply active_nonempty in Ha; [apply Ha | exact R | exact Hs].
Qed.

Lemma condBr_spec (z : Value) (t f : nat) (s : SPMDBuilder) :
  ready s →
  ∃ s', CreateCondBr z t f s = Ret (tt, s') ∧ closed s s' ∧
    ∀ c b, sub (BasicBlocks s') F → atEnd s c → holds s c z (RI1 b) → stepTo c (jump c (if b then t else f)).
Proof.
  intros R. destruct (terminator_closed (CondBr z t f) s R eq_refl) as (s' & E & Cl). exists s'.
  split; [unfold CreateCondBr; erewrite gbind_Ret by exact E; reflexivity |]. split; [exact Cl |].
  intros c b HF Hc [_ Hz]. unfold SpmdSimulation.stepTo, step.
  rewrite (atEnd_instr F s s' c _ _ R Hc E HF). cbn. rewrite Hz. reflexivity.
Qed.

Lemma ret_spec (v : Value) (s : SPMDBuilder) :
  ready s →
  ∃ s', CreateRet v s = Ret (tt, s') ∧ closed s s' ∧
    ∀ c r, sub (BasicBlocks s') F → atEnd s c → holds s c v r → step F args c = Some (inr r).
Proof.
  intros R. destruct (terminator_closed (IRet v) s R eq_refl) as (s' & E & Cl). exists s'.
  split; [unfold CreateRet; erewrite gbind_Ret by exact E; reflexivity |]. split; [exact Cl |].
  intros c r HF Hc [_ Hv]. unfold step.
  rewrite (atEnd_instr F s s' c _ _ R Hc E HF). cbn. rewrite Hv. reflexivity.
Qed.

Lemma Grows_newBlock (n : nat) : Grows n createBasicBlock (λ _, True).
Proof. intros s b s' Hn E. split; [eapply Grows_createBasicBlock; eauto | trivial]. Qed.

Lemma grow_by {A : Type} (n : nat) (g : GenM A) (s s' : SPMDBuilder) (a : A) :
  Grows n g (λ _, True) → g s = Ret (a, s') → (n ≤ nblocks s)%nat → grow n s s'.
Proof. intros G E Hn. eapply G; eauto. Qed.
End Control.

(** [subs]: the code of every earlier state of the builder is in the function too. *)
#[export] Hint Resolve Grows_newBlock : grow.

Ltac grows_op :=
  unfold branch, CreateBr, CreateCondBr, CreateRet, CreateStore, CreateLoad, CreateAnd, CreateNot, CreateSelect,
    maskIsZero, readLocalVariable, createLocalVariable, CreateAlloca; grows.

Ltac subs :=
  repeat match goal with
  | E : ?g ?s = Ret (_, ?s'), HF : sub (BasicBlocks ?s') ?F |- _ =>
      lazymatch goal with
      | _ : sub (BasicBlocks s) F |- _ => fail
      | _ => assert (sub (BasicBlocks s) F)
               by (eapply sub_trans; [| exact HF]; eapply (grow_sub 0), (grow_by 0 g); [grows_op | exact E | lia])
      end
  end.

(** [insts]: ... and its instructions are numbered before. *)
Ltac insts :=
  repeat match goal with
  | E : ?g ?s = Ret (_, ?s') |- _ =>
      lazymatch goal with
      | _ : (NextInst s ≤ NextInst s')%nat |- _ => fail
      | _ => assert (NextInst s ≤ NextInst s')%nat
               by (eapply (grow_inst 0), (grow_by 0 g); [grows_op | exact E | lia])
      end
  end.

(** The stretches of execution up to a state, composed. *)
Ltac segs := first [eassumption | eapply seg_trans; [eassumption | segs]].

Section Returns.
Context `{FloatOps} (F : list BasicBlock) (args : list RTVal).

Abbreviation stepTo := (stepTo F args).
Abbreviation holds := (holds args).
Abbreviation seg := (seg F args).
Abbreviation active := (active args).
Abbreviation returnPtrs := (returnPtrs args).

Lemma not_spec (v : Value) (s : SPMDBuilder) :
  ready s →
  ∃ z s', CreateNot v s = Ret (z, s') ∧ emitted s s' ∧
    ∀ c m, sub (BasicBlocks s') F → atEnd s c → holds s c v (RMask (mvec m)) →
    ∃ c', seg s c s' c' ∧ mem c' = mem c ∧ nloc c' = nloc c ∧ holds s' c' z (RMask (mvec (maskNot m))).
Proof.
  intros R. destruct (op_spec F args Xor [v; AllOnes] s R) as (z & s' & E & Em & D).
  exists z, s'. split; [exact E |]. split; [exact Em |]. intros c m HF Hc Hv.
  assert (vzip_with (lift2 xorb) (mvec m) (vreplicate 16 (Some true)) = mvec (maskNot m)) as <-.
  { apply mvec_ext. intros l. rewrite lane_not, mvec_lookup. reflexivity. }
  apply (D c [RMask (mvec m); RMask (vreplicate 16 (Some true))]); auto.
  repeat constructor; [apply Hv | apply Hv | discriminate].
Qed.

(** The part of [createReturn] that follows the assignment, when the return is
    predicated: [newMask] is the mask of the lanes that have not returned. *)
Lemma lanesLeft_spec (lanes : Value) (s : SPMDBuilder) (maskPtr : Value) :
  ready s →
  ∃ o i n z s1 s2 s3 s4, CreateLoad maskPtr s = Ret (o, s1) ∧ CreateNot lanes s1 = Ret (i, s2) ∧
    CreateAnd o i s2 = Ret (n, s3) ∧ maskIsZero n s3 = Ret (z, s4) ∧ emitted s s4 ∧
    ∀ c m rm, sub (BasicBlocks s4) F → atEnd s c → holds s c lanes (RMask (mvec m)) → holds s c maskPtr (RPtr 1) →
      mem c !! 1%nat = Some (RMask (mvec rm)) →
    ∃ c', seg s c s4 c' ∧ mem c' = mem c ∧ nloc c' = nloc c ∧
      holds s4 c' n (RMask (mvec (maskAnd rm (maskNot m)))) ∧
      holds s4 c' z (RI1 (noLane (maskAnd rm (maskNot m)))).
Proof.
  intros R.
  destruct (load_spec F args maskPtr s R) as (o & s1 & E1 & Em1 & _ & _ & D1). assert (R1 := emitted_ready _ _ Em1 R).
  destruct (not_spec lanes s1 R1) as (i & s2 & E2 & Em2 & D2). assert (R2 := emitted_ready _ _ Em2 R1).
  destruct (and_spec F args o i s2 R2) as (n & s3 & E3 & Em3 & D3). assert (R3 := emitted_ready _ _ Em3 R2).
  destruct (isZero_spec F args n s3 R3) as (z & s4 & E4 & Em4 & D4).
  exists o, i, n, z, s1, s2, s3, s4. split_and!; [assumption .. | eauto using emitted_trans |].
  intros c m rm HF Hc Hl Hp Hm. subs.
  destruct (D1 c 1%nat (RMask (mvec rm))) as (c1 & S1 & M1 & L1 & V1); [assumption .. |].
  destruct (D2 c1 m) as (c2 & S2 & M2 & L2 & V2); [assumption | apply S1 | eapply seg_holds; eauto |].
  destruct (D3 c2 (mvec rm) (mvec (maskNot m))) as (c3 & S3 & M3 & L3 & V3);
    [assumption | apply S2 | eapply seg_holds; eauto | exact V2 |].
  rewrite mvec_and in V3.
  destruct (D4 c3 (maskAnd rm (maskNot m))) as (c4 & S4 & M4 & L4 & V4); [assumption | apply S3 | exact V3 |].
  exists c4. split; [segs |]. split_and!; [congruence | congruence | eapply seg_holds; eauto | exact V4].
Qed.

(** The blocks of [createReturn]: the exit is left behind, the rest goes on in [next]. *)
Lemma exitBlocks_spec (z valPtr : Value) (s : SPMDBuilder) :
  ready s →
  ∃ s1 s2 s3 s4 v s5 s6 s7 next ret,
    createBasicBlock s = Ret (next, s1) ∧ createBasicBlock s1 = Ret (ret, s2) ∧
    CreateCondBr z ret next s2 = Ret (tt, s3) ∧ startBasicBlock ret s3 = Ret (tt, s4) ∧
    readLocalVariable valPtr s4 = Ret (v, s5) ∧ CreateRet v s5 = Ret (tt, s6) ∧
    startBasicBlock next s6 = Ret (tt, s7) ∧
    started s s7 next ∧
    ∀ c b r, sub (BasicBlocks s7) F → atEnd s c → holds s c z (RI1 b) → holds s c valPtr (RPtr 0) →
      mem c !! 0%nat = Some r →
    if b then ∃ c', rtc stepTo c c' ∧ step F args c' = Some (inr r)
    else seg s c s7 (jump c next).
Proof.
  intros R.
  destruct (createBasicBlock_spec F args s R) as (s1 & E1 & Em1 & P1 & N1 & D1). assert (R1 := emitted_ready _ _ Em1 R).
  destruct (createBasicBlock_spec F args s1 R1) as (s2 & E2 & Em2 & P2 & N2 & D2). assert (R2 := emitted_ready _ _ Em2 R1).
  assert (P1' : parked s2 (nblocks s)) by (eapply parked_by; [apply Grows_newBlock | exact E2 | exact P1]).
  destruct (condBr_spec F args z (nblocks s1) (nblocks s) s2 R2) as (s3 & E3 & Cl3 & D3).
  assert (R3 := straight_ready _ _ (cl_straight _ _ Cl3) R2).
  assert (G : ∀ b, b = nblocks s ∨ b = nblocks s1 → parked s2 b → parked s3 b).
  { intros b _ Pb. eapply parked_by; [| exact E3 | exact Pb]; grows_op. }
  assert (P1s3 := G _ (or_introl eq_refl) P1'). assert (P2s3 := G _ (or_intror eq_refl) P2).
  destruct (startBasicBlock_spec F args (nblocks s1) s3 R3 P2s3) as (s4 & E4 & Sd4 & _).
  assert (Hne : nblocks s ≠ nblocks s1) by lia.
  assert (P1s4 := sd_parked _ _ _ Sd4 _ P1s3 Hne).
  destruct (load_spec F args valPtr s4 (sd_ready _ _ _ Sd4)) as (v & s5 & E5 & Em5 & _ & _ & D5).
  assert (R5 := emitted_ready _ _ Em5 (sd_ready _ _ _ Sd4)).
  assert (P1s5 : parked s5 (nblocks s)).
  { eapply (parked_by (CreateLoad valPtr)); [grows_op | exact E5 | exact P1s4]. }
  destruct (ret_spec F args v s5 R5) as (s6 & E6 & Cl6 & D6).
  assert (R6 := straight_ready _ _ (cl_straight _ _ Cl6) R5).
  assert (P1s6 : parked s6 (nblocks s)).
  { eapply (parked_by (CreateRet v)); [grows_op | exact E6 | exact P1s5]. }
  destruct (startBasicBlock_spec F args (nblocks s) s6 R6 P1s6) as (s7 & E7 & Sd7 & _).
  assert (I : ∀ b, parked s b → b ≠ nblocks s → parked s7 b).
  { intros b Pb Hb. apply (sd_parked _ _ _ Sd7); [| exact Hb].
    eapply (parked_by (CreateRet v)); [grows_op | exact E6 |].
    eapply (parked_by (CreateLoad valPtr)); [grows_op | exact E5 |].
    apply (sd_parked _ _ _ Sd4); [| pose proof (pk_made _ _ Pb); lia].
    eapply (parked_by (CreateCondBr z (nblocks s1) (nblocks s))); [grows_op | exact E3 |].
    eapply parked_by; [apply Grows_newBlock | exact E2 |].
    eapply parked_by; [apply Grows_newBlock | exact E1 | exact Pb]. }
  assert (S3 : straight s s3).
  { eapply straight_trans; [apply Em1 | eapply straight_trans; [apply Em2 | apply Cl3]]. }
  exists s1, s2, s3, s4, v, s5, s6, s7, (nblocks s), (nblocks s1).
  split_and!; [assumption .. | |].
  - assert (S6 : straight s4 s6) by (eapply straight_trans; [apply Em5 | apply Cl6]).
    insts. destruct S3, S6, Sd4, Sd7. split; congruence || lia || assumption.
  - intros c b r HF Hc Hz Hp Hm. subs.
    assert (S1 := D1 c Hc). assert (S2 := D2 c (seg_end _ _ _ _ _ _ S1)).
    assert (S12 : seg s c s2 c) by segs.
    assert (J := D3 c b ltac:(assumption) (seg_end _ _ _ _ _ _ S12) (seg_holds _ _ _ _ _ _ _ _ S12 Hz)).
    destruct b.
    + assert (He : atEnd s4 (jump c (nblocks s1))) by (eapply started_atEnd; eauto).
      assert (Hp4 : holds s4 (jump c (nblocks s1)) valPtr (RPtr 0)).
      { eapply holds_ext; [| eapply seg_holds; [exact S12 | exact Hp]]. insts. apply ext_jump. lia. }
      destruct (D5 _ 0%nat r ltac:(assumption) He Hp4 Hm) as (c5 & S5 & M5 & L5 & V5).
      exists c5. split; [eapply rtc_l; [exact J | apply S5] |].
      apply D6; [assumption | apply S5 | exact V5].
    + split; [apply rtc_once; exact J | eapply started_atEnd; eauto |].
      insts. apply ext_jump. lia.
Qed.

(** What a return leaves: the fields that are not the masks or the insertion block. *)
Record sameVars (s s' : SPMDBuilder) : Prop := mkSameVars {
  sv_value : ReturnValuePtr s' = ReturnValuePtr s;
  sv_mask : ReturnMaskPtr s' = ReturnMaskPtr s;
  sv_symbols : Symbols s' = Symbols s
}.

Lemma kept_sameVars (s s' : SPMDBuilder) : kept s s' → sameVars s s'.
Proof. intros []. split; assumption. Qed.

Lemma started_sameVars (s s' : SPMDBuilder) (b : nat) : started s s' b → sameVars s s'.
Proof. intros []. split; assumption. Qed.

Lemma sameVars_trans (s1 s2 s3 : SPMDBuilder) : sameVars s1 s2 → sameVars s2 s3 → sameVars s1 s3.
Proof. intros [] []. split; congruence. Qed.

Lemma returnPtrs_sameVars (s s' : SPMDBuilder) (c c' : config) :
  ext s c s' c' → sameVars s s' → returnPtrs s c → returnPtrs s' c'.
Proof.
  intros Ex [] [(p & Ep & Hp) (q & Eq & Hq)].
  split; [exists p | exists q]; (split; [congruence | eapply holds_ext; eauto]).
Qed.

(** A predicated return. *)
Lemma createReturn_spec (v : Value) (s : SPMDBuilder) (top : MaskStackEntry) (rest : list MaskStackEntry) :
  ready s → MaskStack s = top :: rest →
  ∃ s' cm, createReturn (Some v) s = Ret (tt, s') ∧ MaskStack s' = mkMaskEntry (ThisMask top) cm :: rest ∧
    sameVars s s' ∧ ready s' ∧ opened s' ∧ nonempty s' ∧
    ∀ c m rm w rv, sub (BasicBlocks s') F → atEnd s c → returnPtrs s c → active s c m → holds s c v (RFloats w) →
      mem c !! 0%nat = Some (RFloats rv) → mem c !! 1%nat = Some (RMask (mvec rm)) →
    ∃ rv', (∀ l, rv' !!! l = if m l then w !!! l else rv !!! l) ∧
      if noLane (maskAnd rm (maskNot m))
      then ∃ c', rtc stepTo c c' ∧ step F args c' = Some (inr (RFloats rv'))
      else ∃ c', seg s c s' c' ∧
             mem c' = <[1%nat := RMask (mvec (maskAnd rm (maskNot m)))]> (<[0%nat := RFloats rv']> (mem c)) ∧
             nloc c' = nloc c ∧ active s' c' (maskAnd m (maskAnd rm (maskNot m))).
Proof.
  intros R Hs. destruct (ready_value _ R) as [vp Evp]. destruct (ready_mask _ R) as [mp Emp].
  pose proof (ready_active _ R) as Hr. rewrite Hs in Hr.
  destruct (assign_spec F args vp v s R) as (s1 & E1 & Em1 & O1 & N1 & D1). assert (R1 := emitted_ready _ _ Em1 R).
  destruct (lanesLeft_spec (CombinedMask top) s1 mp R1)
    as (o & i & n & z & s2 & s3 & s4 & s5 & E2 & E3 & E4 & E5 & Em5 & D5).
  assert (R5 := emitted_ready _ _ Em5 R1).
  destruct (exitBlocks_spec z vp s5 R5)
    as (s6 & s7 & s8 & s9 & r & s10 & s11 & s12 & next & ret & E6 & E7 & E8 & E9 & E10 & E11 & E12 & Sd & D12).
  destruct (store_spec F args n mp s12 (sd_ready _ _ _ Sd)) as (s13 & E13 & Em13 & O13 & N13 & D13).
  assert (R13 := emitted_ready _ _ Em13 (sd_ready _ _ _ Sd)).
  destruct (and_spec F args (CombinedMask top) n s13 R13) as (lanes & s14 & E14 & Em14 & D14).
  assert (Em : emitted s s5) by (eapply emitted_trans; eassumption).
  assert (V : sameVars s s14).
  { eapply sameVars_trans; [apply kept_sameVars, straight_kept, Em |].
    eapply sameVars_trans; [eapply started_sameVars, Sd |].
    eapply sameVars_trans; apply kept_sameVars, straight_kept; [apply Em13 | apply Em14]. }
  eexists _, lanes. split.
  { unfold createReturn.
    erewrite gbind_Ret by (unfold gets, nonnull, mbind, GenM_bind; rewrite Evp; reflexivity).
    erewrite gbind_Ret by exact E1. erewrite gbind_Ret by reflexivity.
    rewrite (st_stack _ _ (em_straight _ _ Em1)), Hs.
    erewrite gbind_Ret by (unfold gets, nonnull, mbind, GenM_bind; rewrite (st_active _ _ (em_straight _ _ Em1)), Hr; reflexivity).
    erewrite gbind_Ret by (unfold gets, nonnull, mbind, GenM_bind; rewrite (st_mask _ _ (em_straight _ _ Em1)), Emp; reflexivity).
    erewrite gbind_Ret by exact E2. erewrite gbind_Ret by exact E3. erewrite gbind_Ret by exact E4.
    erewrite gbind_Ret by exact E5. erewrite gbind_Ret by exact E6. erewrite gbind_Ret by exact E7.
    erewrite gbind_Ret by exact E8. erewrite gbind_Ret by exact E9. erewrite gbind_Ret by exact E10.
    erewrite gbind_Ret by exact E11. erewrite gbind_Ret by exact E12. erewrite gbind_Ret by exact E13.
    erewrite gbind_Ret by exact E14. reflexivity. }
  split; [reflexivity |]. split; [destruct V; split; assumption |].
  split; [eapply (kept_ready s14); [split; reflexivity | eapply emitted_ready; eassumption | reflexivity] |].
  split; [exact (em_opened _ _ Em14 O13) |]. split; [exact (em_nonempty _ _ Em14 N13) |].
  cbn [BasicBlocks]. intros c m rm w rv HF Hc [(p & Ep & Hp) (q & Eq & Hq)] Ha Hv H0 H1.
  rewrite Evp in Ep. injection Ep as <-. rewrite Emp in Eq. injection Eq as <-.
  assert (Hl := proj2 (active_nonempty _ _ _ _ _ _ R Hs Ha)).
  change (sub (BasicBlocks s14) F) in HF. subs.
  destruct (D1 c m 0%nat w rv) as (c1 & rv' & S1 & M1 & L1 & W1); [assumption .. |].
  exists rv'. split; [exact W1 |].
  destruct (D5 c1 m rm) as (c5 & S5 & M5 & L5 & V5 & Z5); [assumption | apply S1 | eapply seg_holds; eauto | eapply seg_holds; eauto | |].
  { rewrite M1, lookup_insert_ne by discriminate. exact H1. }
  assert (S15 : seg s c s5 c5) by segs.
  assert (J := D12 c5 (noLane (maskAnd rm (maskNot m))) (RFloats rv') ltac:(assumption) (seg_end _ _ _ _ _ _ S15) Z5
                 (seg_holds _ _ _ _ _ _ _ _ S15 Hp) ltac:(rewrite M5, M1; apply lookup_insert_eq)).
  revert J. destruct (noLane (maskAnd rm (maskNot m))); intros J.
  - destruct J as (c' & J & Jr). exists c'. split; [etransitivity; [apply S15 | exact J] | exact Jr].
  - assert (S12 : seg s c s12 (jump c5 next)) by segs.
    destruct (D13 (jump c5 next) 1%nat (RMask (mvec (maskAnd rm (maskNot m))))) as (c13 & S13 & M13 & L13);
      [assumption | apply S12 | exact (seg_holds _ _ _ _ _ _ _ _ S12 Hq) | exact (seg_holds _ _ _ _ _ _ _ _ J V5) |].
    assert (S113 : seg s c s13 c13) by segs.
    destruct (D14 c13 (mvec m) (mvec (maskAnd rm (maskNot m)))) as (c14 & S14 & M14 & L14 & V14);
      [assumption | apply S13 | exact (seg_holds _ _ _ _ _ _ _ _ S113 Hl) |
       exact (seg_holds _ _ _ _ _ _ _ _ S13 (seg_holds _ _ _ _ _ _ _ _ J V5)) |].
    rewrite mvec_and in V14.
    exists c14. match goal with |- seg _ _ ?s' _ ∧ _ => assert (Sg : seg s14 c14 s' c14) by (apply seg_idle; apply S14 || reflexivity) end.
    split; [eapply seg_trans; [exact S113 |]; segs |].
    split; [rewrite M14, M13; cbn; rewrite M5, M1; reflexivity |].
    split; [rewrite L14, L13; cbn; congruence |].
    exact (seg_holds _ _ _ _ _ _ _ _ Sg V14).
Qed.

(** The return that ends the kernel: no mask is pushed. *)
Lemma finalReturn_spec (v : Value) (s : SPMDBuilder) :
  ready s → MaskStack s = [] →
  ∃ s', createReturn (Some v) s = Ret (tt, s') ∧ MaskStack s' = [] ∧
    ∀ c m w rv, sub (BasicBlocks s') F → atEnd s c → returnPtrs s c → active s c m → holds s c v (RFloats w) →
      mem c !! 0%nat = Some (RFloats rv) →
    ∃ rv' c', (∀ l, rv' !!! l = if m l then w !!! l else rv !!! l) ∧
      rtc stepTo c c' ∧ step F args c' = Some (inr (RFloats rv')).
Proof.
  intros R Hs. destruct (ready_value _ R) as [vp Evp].
  destruct (assign_spec F args vp v s R) as (s1 & E1 & Em1 & O1 & N1 & D1). assert (R1 := emitted_ready _ _ Em1 R).
  destruct (load_spec F args vp s1 R1) as (r & s2 & E2 & Em2 & _ & _ & D2). assert (R2 := emitted_ready _ _ Em2 R1).
  destruct (ret_spec F args r s2 R2) as (s3 & E3 & Cl3 & D3).
  exists s3. split.
  { unfold createReturn.
    erewrite gbind_Ret by (unfold gets, nonnull, mbind, GenM_bind; rewrite Evp; reflexivity).
    erewrite gbind_Ret by exact E1. erewrite gbind_Ret by reflexivity.
    rewrite (st_stack _ _ (em_straight _ _ Em1)), Hs. erewrite gbind_Ret by exact E2. exact E3. }
  split.
  { rewrite (st_stack _ _ (cl_straight _ _ Cl3)), (st_stack _ _ (em_straight _ _ Em2)),
      (st_stack _ _ (em_straight _ _ Em1)). exact Hs. }
  intros c m w rv HF Hc [(p & Ep & Hp) _] Ha Hv H0. rewrite Evp in Ep. injection Ep as <-. subs.
  destruct (D1 c m 0%nat w rv) as (c1 & rv' & S1 & M1 & L1 & W1); [assumption .. |].
  destruct (D2 c1 0%nat (RFloats rv')) as (c2 & S2 & M2 & L2 & V2);
    [assumption | apply S1 | eapply seg_holds; eauto | rewrite M1; apply lookup_insert_eq |].
  exists rv', c2. split; [exact W1 |]. split; [etransitivity; [apply S1 | apply S2] |].
  apply D3; [assumption | apply S2 | exact V2].
Qed.
End Returns.
