(* ===== verification/SpmdInvariant.v ===== *)
(** * SpmdInvariant: lanes, masks and memory

    What holds between two statements of a kernel that runs: where the variables,
    the return value and the return mask are, which lanes run, and what each of
    those lanes has in its variables.  The specification [stmtSpec] of the code of a
    statement, and the assignment. *)
From stdpp Require Import vector fin.
From S2P Require Import Prelude.
From S2P Require Import SpmdBuilder.
From S2P Require Import SpmdMachine.
From S2P Require Import SpmdGenerate.
From S2P Require Import SpmdSimulation.
From S2P Require Import SpmdControl.

Section Invariants.
Context `{FloatOps} (F : list BasicBlock) (args : list RTVal) (expected : vec float 16).

Abbreviation env := (gmap Symbol float).
Abbreviation stepTo := (stepTo F args).
Abbreviation holds := (holds args).
Abbreviation active := (active args).
Abbreviation returnPtrs := (returnPtrs args).

(** ** The execution reaches [K] or leaves the function with the expected vector *)
Definition finishes (c : config) (K : config → Prop) : Prop :=
  ∃ c', rtc stepTo c c' ∧ (K c' ∨ step F args c' = Some (inr (RFloats (vmap Some expected)))).

Lemma finishes_now (c : config) (K : config → Prop) : K c → finishes c K.
Proof. intros Kc. exists c. split; [reflexivity | auto]. Qed.

Lemma finishes_steps (c c' : config) (K : config → Prop) : rtc stepTo c c' → finishes c' K → finishes c K.
Proof. intros S (c2 & S2 & O). exists c2. split; [etransitivity; eassumption | exact O]. Qed.

Lemma finishes_bind (c : config) (K K' : config → Prop) :
  finishes c K → (∀ c', K c' → finishes c' K') → finishes c K'.
Proof.
  intros (c1 & S1 & [Kc | Rt]) HK.
  - eapply finishes_steps; [exact S1 | auto].
  - exists c1. auto.
Qed.

(** ** What a scalar result means for the masks *)
Definition returned (r : option result) : bool := match r with Some (_, Some _) => true | _ => false end.
Definition afterMask (m : mask) (res : fin 16 → option result) : mask := λ l, m l && negb (returned (res l)).
Definition afterRet (m rm : mask) (res : fin 16 → option result) : mask := λ l, rm l && negb (m l && returned (res l)).
Definition afterEnv (res : fin 16 → option result) : fin 16 → env :=
  λ l, match res l with Some (ρ, _) => ρ | None => ∅ end.

(** ** The memory: the return value at 0, the return mask at 1, the variables above *)
Record memInv (c : config) (A : gset Symbol) (lay : Symbol → nat) (m rm : mask) (ρ : fin 16 → env) : Prop := mkMemInv {
  mi_value : ∃ rv, mem c !! 0%nat = Some (RFloats rv) ∧ ∀ l, rm l = false → rv !!! l = Some (expected !!! l);
  mi_mask : mem c !! 1%nat = Some (RMask (mvec rm));
  mi_active : ∀ l, m l = true → rm l = true;
  mi_vars : ∀ x, x ∈ A → (2 ≤ lay x < nloc c)%nat ∧ ∃ w, mem c !! lay x = Some (RFloats w);
  mi_env : ∀ l, m l = true → laneEnv A lay (mem c) l (ρ l);
  mi_inj : ∀ x y, x ∈ A → y ∈ A → lay x = lay y → x = y;
  mi_nloc : (2 ≤ nloc c)%nat
}.

(** The registers: the values of the builder's state. *)
Record regInv (s : SPMDBuilder) (c : config) (A : gset Symbol) (lay : Symbol → nat) (m : mask) : Prop := mkRegInv {
  ri_active : active s c m;
  ri_ptrs : returnPtrs s c;
  ri_vars : ∀ x, x ∈ A → ∃ p, Symbols s !! x = Some p ∧ holds s c p (RPtr (lay x))
}.

Lemma invs_inMemory (s : SPMDBuilder) (c : config) (A : gset Symbol) (lay : Symbol → nat) (m rm : mask) (ρ : fin 16 → env) :
  regInv s c A lay m → memInv c A lay m rm ρ → inMemory args A lay s c.
Proof.
  intros RI MI x Hx. destruct (ri_vars _ _ _ _ _ RI x Hx) as (p & Ep & Hp).
  destruct (mi_vars _ _ _ _ _ _ MI x Hx) as (_ & w & Hw). eauto.
Qed.

Lemma mvec_eq (m m' : mask) : (∀ l, m l = m' l) → mvec m = mvec m'.
Proof. intros E. apply mvec_ext. intros l. rewrite mvec_lookup, E. reflexivity. Qed.

Lemma active_eq (s : SPMDBuilder) (c : config) (m m' : mask) : (∀ l, m l = m' l) → active s c m → active s c m'.
Proof.
  intros E. unfold SpmdSimulation.active. destruct (ActiveLanes s); [rewrite (mvec_eq _ _ E); auto |].
  intros [Hs Hm]. split; [exact Hs |]. intros l. rewrite <- E. apply Hm.
Qed.

(** ** Lanes that do not run keep their memory *)
Definition laneSame (l : fin 16) (r r' : RTVal) : Prop :=
  match r, r' with
  | RFloats a, RFloats b => a !!! l = b !!! l
  | RMask a, RMask b => a !!! l = b !!! l
  | _, _ => r = r'
  end.

Definition frame (m : mask) (c c' : config) : Prop :=
  (nloc c ≤ nloc c')%nat ∧
  ∀ loc r, (loc < nloc c)%nat → mem c !! loc = Some r →
    ∃ r', mem c' !! loc = Some r' ∧ ∀ l, m l = false → laneSame l r r'.

Lemma laneSame_refl (l : fin 16) (r : RTVal) : laneSame l r r.
Proof. destruct r; reflexivity. Qed.

Lemma laneSame_trans (l : fin 16) (r1 r2 r3 : RTVal) : laneSame l r1 r2 → laneSame l r2 r3 → laneSame l r1 r3.
Proof. destruct r1, r2; cbn; try discriminate; destruct r3; cbn; try discriminate; congruence. Qed.

Lemma frame_same (m : mask) (c c' : config) : mem c' = mem c → nloc c' = nloc c → frame m c c'.
Proof.
  intros M L. split; [lia |]. intros loc r _ Hr. exists r. rewrite M. auto using laneSame_refl.
Qed.

Lemma frame_trans (m1 m2 m : mask) (c1 c2 c3 : config) :
  (∀ l, m l = false → m1 l = false) → (∀ l, m l = false → m2 l = false) →
  frame m1 c1 c2 → frame m2 c2 c3 → frame m c1 c3.
Proof.
  intros I1 I2 [L1 F1] [L2 F2]. split; [lia |]. intros loc r Hl Hr.
  destruct (F1 loc r Hl Hr) as (r2 & Hr2 & S2). destruct (F2 loc r2 ltac:(lia) Hr2) as (r3 & Hr3 & S3).
  exists r3. split; [exact Hr3 |]. intros l Hm. eapply laneSame_trans; eauto.
Qed.

(** A vector of floats written under the mask. *)
Lemma frame_write (m : mask) (c c' : config) (loc : nat) (w w' : vec (option float) 16) :
  mem c !! loc = Some (RFloats w) → mem c' = <[loc := RFloats w']> (mem c) → nloc c' = nloc c →
  (∀ l, m l = false → w' !!! l = w !!! l) → frame m c c'.
Proof.
  intros Hw M L E. split; [lia |]. intros loc' r Hl Hr. rewrite M. destruct (decide (loc = loc')) as [<- | Hne].
  - rewrite lookup_insert_eq. eexists. split; [reflexivity |]. intros l Hm.
    rewrite Hw in Hr. injection Hr as <-. cbn. symmetry. auto.
  - rewrite lookup_insert_ne by exact Hne. exists r. auto using laneSame_refl.
Qed.

(** ** The invariants along an execution *)
Lemma regInv_ext (s s' : SPMDBuilder) (c c' : config) (A : gset Symbol) (lay : Symbol → nat) (m m' : mask) :
  ext s c s' c' → sameVars s s' → active s' c' m' → regInv s c A lay m → regInv s' c' A lay m'.
Proof.
  intros Ex Sv Ha [_ P V]. split; [exact Ha | eapply returnPtrs_sameVars; eauto |].
  intros x Hx. destruct (V x Hx) as (p & Ep & Hp). exists p. rewrite (sv_symbols _ _ Sv).
  split; [exact Ep | eapply holds_ext; eauto].
Qed.

Lemma memInv_same (c c' : config) (A : gset Symbol) (lay : Symbol → nat) (m rm : mask) (ρ : fin 16 → env) :
  mem c' = mem c → nloc c' = nloc c → memInv c A lay m rm ρ → memInv c' A lay m rm ρ.
Proof. intros M L []. split; rewrite ?M, ?L; assumption. Qed.

Lemma memInv_weaken (c : config) (A A' : gset Symbol) (lay lay' : Symbol → nat) (m rm : mask) (ρ : fin 16 → env) :
  A ⊆ A' → (∀ x, x ∈ A → lay' x = lay x) → memInv c A' lay' m rm ρ → memInv c A lay m rm ρ.
Proof.
  intros I E []. split; try assumption.
  - intros x Hx. rewrite <- E by exact Hx. apply mi_vars0. auto.
  - intros l Hl x f w Hx Hf Hw. rewrite <- E in Hw by exact Hx. eapply mi_env0; eauto.
  - intros x y Hx Hy. rewrite <- !E by assumption. apply mi_inj0; auto.
Qed.

(** Fewer lanes, and environments that agree on them. *)
Lemma memInv_eq (c : config) (A : gset Symbol) (lay : Symbol → nat) (m m' rm rm' : mask) (ρ ρ' : fin 16 → env) :
  (∀ l, rm' l = rm l) → (∀ l, m' l = true → m l = true ∧ ρ' l = ρ l) →
  memInv c A lay m rm ρ → memInv c A lay m' rm' ρ'.
Proof.
  intros Er Em []. split; try assumption.
  - destruct mi_value0 as (rv & H0 & Hrv). exists rv. split; [exact H0 |]. intros l Hl. apply Hrv. rewrite <- Er. exact Hl.
  - rewrite (mvec_eq _ _ Er). assumption.
  - intros l Hl. rewrite Er. apply mi_active0. apply Em. exact Hl.
  - intros l Hl. destruct (Em l Hl) as [Hm ->]. auto.
Qed.

(** Lanes [m1] at [c] and lanes [m2] at a later [c'] that left the former alone. *)
Lemma memInv_merge (c c' : config) (A : gset Symbol) (lay : Symbol → nat) (m1 rm1 m2 m2' rm2 m' : mask)
    (ρ1 ρ2 ρ' : fin 16 → env) :
  memInv c A lay m1 rm1 ρ1 → memInv c' A lay m2' rm2 ρ2 → frame m2 c c' →
  (∀ l, m' l = true → rm2 l = true) →
  (∀ l, m' l = true → (m2' l = true ∧ ρ' l = ρ2 l) ∨ (m2 l = false ∧ m1 l = true ∧ ρ' l = ρ1 l)) →
  memInv c' A lay m' rm2 ρ'.
Proof.
  intros M1 M2 [_ Fr] Ha Hm. destruct M2. split; try assumption.
  intros l Hl x f w Hx Hf Hw. destruct (Hm l Hl) as [[Hm2 E] | (Hm2 & Hm1 & E)]; rewrite E in Hf.
  - eapply mi_env0; eauto.
  - destruct (mi_vars _ _ _ _ _ _ M1 x Hx) as ([_ Hn] & w1 & Hw1).
    destruct (Fr _ _ Hn Hw1) as (r & Hr & Sm). rewrite Hw in Hr. injection Hr as <-.
    specialize (Sm l Hm2). cbn in Sm. rewrite <- Sm. eapply (mi_env _ _ _ _ _ _ M1); eauto.
Qed.

(** ** What the code of a statement does *)
Record effect (s : SPMDBuilder) (c : config) (A : gset Symbol) (lay : Symbol → nat) (m rm : mask)
    (res : fin 16 → option result) (s' : SPMDBuilder) (A' : gset Symbol) (c' : config) : Prop := mkEffect {
  ef_end : atEnd s' c';
  ef_ext : ext s c s' c';
  ef_frame : frame m c c';
  ef_inv : ∃ lay', regInv s' c' A' lay' (afterMask m res) ∧
             memInv c' A' lay' (afterMask m res) (afterRet m rm res) (afterEnv res) ∧
             ∀ x, x ∈ A → lay' x = lay x
}.

(** With no mask pushed, the lanes that run are those that have not returned. *)
Definition topInv (s : SPMDBuilder) (m rm : mask) : Prop := MaskStack s = [] → ∀ l, m l = rm l.

Definition fits (run : env → option result) (m : mask) (ρ : fin 16 → env) : Prop :=
  ∀ l, m l = true → ∃ ρ' o, run (ρ l) = Some (ρ', o) ∧ ∀ v, o = Some v → v = expected !!! l.

(** From [s], [g] generates the code of a statement with the scalar meaning [run]
    that takes the variables in scope from [A] to [A'] and leaves allocas for [D'];
    [em] when its code ends in a block with instructions. *)
Definition stmtAt (s : SPMDBuilder) (em : bool) (A A' D' : gset Symbol) {X : Type} (g : GenM X) (run : env → option result) : Prop :=
  ∃ v s', g s = Ret (v, s') ∧ after s s' ∧ dom (Symbols s') = D' ∧ opened s' ∧
    (em = true → nonempty s') ∧ (nonempty s → nonempty s') ∧
    ∀ c lay m rm ρ, sub (BasicBlocks s') F → atEnd s c → regInv s c A lay m → memInv c A lay m rm ρ →
      topInv s m rm → fits run m ρ →
      finishes c (effect s c A lay m rm (λ l, run (ρ l)) s' A').

(** The same from any builder between statements; [ret] when the statement may return. *)
Definition stmtSpec (ret em : bool) (A D A' D' : gset Symbol) {X : Type} (g : GenM X) (run : env → option result) : Prop :=
  ∀ s, ready s → dom (Symbols s) = D → (ret = true → MaskStack s ≠ []) → opened s → stmtAt s em A A' D' g run.
End Invariants.

Section Statements.
Context `{FloatOps} (F : list BasicBlock) (args : list RTVal) (expected : vec float 16).

Abbreviation env := (gmap Symbol float).
Abbreviation stepTo := (stepTo F args).
Abbreviation holds := (holds args).
Abbreviation seg := (seg F args).
Abbreviation active := (active args).
Abbreviation returnPtrs := (returnPtrs args).
Abbreviation memInv := (memInv expected).
Abbreviation regInv := (regInv args).
Abbreviation effect := (effect args expected).
Abbreviation finishes := (finishes F args expected).
Abbreviation stmtSpec := (stmtSpec F args expected).

Lemma declared_sub (A : gset Symbol) (s : SPMDBuilder) : A ⊆ dom (Symbols s) → declared A s.
Proof. intros I x Hx. apply elem_of_dom. auto. Qed.

Lemma seg_finishes (s s' : SPMDBuilder) (c c' : config) (K : config → Prop) :
  seg s c s' c' → K c' → finishes c K.
Proof. intros S Kc. eapply finishes_steps; [apply S |]. apply finishes_now. exact Kc. Qed.

(** A statement that leaves the lanes running: its result in the environments. *)
Lemma running (m rm : mask) (res : fin 16 → option result) :
  (∀ l, m l = true → returned (res l) = false) →
  (∀ l, afterMask m res l = m l) ∧ (∀ l, afterRet m rm res l = rm l).
Proof.
  intros E. unfold afterMask, afterRet.
  split; intros l; specialize (E l); destruct (m l); try rewrite E by reflexivity; rewrite ?andb_true_r; reflexivity.
Qed.

(** The value written to a variable, lane by lane. *)
Lemma memInv_assign (c c' : config) (A : gset Symbol) (lay : Symbol → nat) (m rm : mask) (ρ : fin 16 → env)
    (x : Symbol) (w w' old : vec (option float) 16) (val : fin 16 → option float) :
  memInv c A lay m rm ρ →
  (2 ≤ lay x < nloc c)%nat → (∀ y, y ∈ A → lay x = lay y → x = y) →
  mem c' = <[lay x := RFloats w']> (mem c) → nloc c' = nloc c →
  (∀ l, w' !!! l = if m l then w !!! l else old !!! l) →
  (∀ l, m l = true → ∃ f, val l = Some f ∧ w !!! l = Some f) →
  memInv c' ({[x]} ∪ A) lay m rm (λ l, match val l with Some f => <[x := f]> (ρ l) | None => ∅ end).
Proof.
  intros [] Hx Hinj M L W R. split.
  - rewrite M, lookup_insert_ne by lia. exact mi_value0.
  - rewrite M, lookup_insert_ne by lia. exact mi_mask0.
  - exact mi_active0.
  - intros y Hy. rewrite L, M. destruct (decide (x = y)) as [<- | Hne].
    + split; [exact Hx |]. rewrite lookup_insert_eq. eauto.
    + assert (y ∈ A) as Hy' by set_solver. destruct (mi_vars0 y Hy') as (Hr & v & Hv). split; [exact Hr |].
      rewrite lookup_insert_ne by (intros E; apply Hne, Hinj; auto). eauto.
  - intros l Hl y f v Hy Hf Hv. destruct (R l Hl) as (g & Eg & Wg). rewrite Eg in Hf. rewrite M in Hv.
    destruct (decide (x = y)) as [<- | Hne].
    + rewrite lookup_insert_eq in Hf. rewrite lookup_insert_eq in Hv. injection Hf as <-. injection Hv as <-. rewrite W, Hl. exact Wg.
    + assert (y ∈ A) as Hy' by set_solver.
      rewrite lookup_insert_ne in Hf by exact Hne.
      rewrite lookup_insert_ne in Hv by (intros E; apply Hne, Hinj; auto). eapply mi_env0; eauto.
  - intros y z Hy Hz E. destruct (decide (x = y)) as [<- |], (decide (x = z)) as [<- |]; try reflexivity.
    + apply Hinj; [set_solver | exact E].
    + symmetry. apply Hinj; [set_solver | symmetry; exact E].
    + apply mi_inj0; [set_solver | set_solver | exact E].
  - lia.
Qed.

Definition assignRun (x : Symbol) (e : AstNode) (ρ : env) : option result :=
  v ← evalExpr ρ e; Some (<[x := v]> ρ, None).

(** The assignment proper, to a variable that has its alloca. *)
Lemma assignTo_spec (A : gset Symbol) (x : Symbol) (p : Value) (e : AstNode) (s : SPMDBuilder) :
  scopedExpr A e = true → ready s → A ⊆ dom (Symbols s) → Symbols s !! x = Some p →
  ∃ v s', (v ← generate e; assignLocalVariable p v) s = Ret (v, s') ∧ emitted s s' ∧ opened s' ∧ nonempty s' ∧
    ∀ c lay m rm ρ old, sub (BasicBlocks s') F → atEnd s c → regInv s c A lay m → memInv c A lay m rm ρ →
      holds s c p (RPtr (lay x)) → mem c !! lay x = Some (RFloats old) →
      (2 ≤ lay x < nloc c)%nat → (∀ y, y ∈ A → lay x = lay y → x = y) →
      (∀ l, m l = true → is_Some (evalExpr (ρ l) e)) →
    ∃ c', seg s c s' c' ∧ nloc c' = nloc c ∧ frame m c c' ∧ regInv s' c' ({[x]} ∪ A) lay m ∧
      memInv c' ({[x]} ∪ A) lay m rm (afterEnv (λ l, assignRun x e (ρ l))).
Proof.
  intros Sc R I Ex.
  destruct (generate_expr F args A e Sc s R (declared_sub _ _ I)) as (v & s1 & E1 & Em1 & D1).
  assert (R1 := emitted_ready _ _ Em1 R).
  destruct (assign_spec F args p v s1 R1) as (s2 & E2 & Em2 & O2 & N2 & D2).
  exists (Some v), s2. split; [erewrite gbind_Ret by exact E1; exact E2 |].
  split; [eauto using emitted_trans |]. split; [exact O2 |]. split; [exact N2 |].
  intros c lay m rm ρ old HF Hc RI MI Hp Ho Hx Hinj Hr.
  assert (HF1 : sub (BasicBlocks s1) F).
  { eapply sub_trans; [eapply (grow_sub 0), (grow_by 0 (assignLocalVariable p (Some v))); [grows_op | exact E2 | lia] | exact HF]. }
  destruct (D1 c lay HF1 Hc (invs_inMemory _ _ _ _ _ _ _ _ _ RI MI)) as (c1 & r & S1 & M1 & L1 & V1 & (w & -> & W1)).
  destruct (D2 c1 m (lay x) w old) as (c2 & w' & S2 & M2 & L2 & W2).
  { exact HF. }
  { apply S1. }
  { eapply active_seg; [apply Em1 | apply S1 | apply RI]. }
  { exact (seg_holds _ _ _ _ _ _ _ _ S1 Hp). }
  { exact V1. }
  { rewrite M1. exact Ho. }
  assert (S : seg s c s2 c2) by segs.
  assert (St : straight s s2) by (eapply straight_trans; [apply Em1 | apply Em2]).
  exists c2. split; [exact S |]. split; [congruence |].
  split.
  { eapply frame_write; [exact Ho | rewrite M2, M1; reflexivity | congruence |].
    intros l Hl. rewrite W2, Hl. reflexivity. }
  split.
  { split.
    - eapply active_seg; [exact St | apply S | apply RI].
    - eapply returnPtrs_sameVars; [apply S | apply kept_sameVars, straight_kept, St | apply RI].
    - intros y Hy. rewrite (st_symbols _ _ St). destruct (decide (x = y)) as [<- | Hne].
      + exists p. split; [exact Ex | exact (seg_holds _ _ _ _ _ _ _ _ S Hp)].
      + destruct (ri_vars _ _ _ _ _ _ RI y ltac:(set_solver)) as (q & Eq & Hq). exists q.
        split; [exact Eq | exact (seg_holds _ _ _ _ _ _ _ _ S Hq)]. }
  eapply memInv_eq; [reflexivity | |
    eapply (memInv_assign c c2 A lay m rm ρ x w w' old (λ l, evalExpr (ρ l) e)); eauto; try congruence].
  - intros l Hl. split; [exact Hl |]. unfold afterEnv, assignRun. destruct (evalExpr (ρ l) e); reflexivity.
  - intros l Hl. destruct (Hr l Hl) as [f Hf]. exists f. split; [exact Hf |].
    eapply W1; [| exact Hf]. apply (mi_env _ _ _ _ _ _ _ MI l Hl).
Qed.

(** The effect of a statement in which no lane returns. *)
Lemma running_effect (s s' : SPMDBuilder) (c c' : config) (A A' : gset Symbol) (lay lay' : Symbol → nat)
    (m rm : mask) (res : fin 16 → option result) :
  (∀ l, m l = true → returned (res l) = false) →
  atEnd s' c' → ext s c s' c' → frame m c c' →
  regInv s' c' A' lay' m → memInv c' A' lay' m rm (afterEnv res) → (∀ x, x ∈ A → lay' x = lay x) →
  effect s c A lay m rm res s' A' c'.
Proof.
  intros Hr He Ex Fr RI MI Lay. destruct (running m rm res Hr) as [Em Er].
  split; [exact He | exact Ex | exact Fr |]. exists lay'. split; [| split; [| exact Lay]].
  - destruct RI. split; [| assumption | assumption]. eapply active_eq; [| eassumption].
    intros l. symmetry. apply Em.
  - eapply memInv_eq; [exact Er | | exact MI]. intros l Hl. rewrite Em in Hl. auto.
Qed.

Lemma assign_fits (x : Symbol) (e : AstNode) (m : mask) (ρ : fin 16 → env) :
  fits expected (assignRun x e) m ρ → ∀ l, m l = true → is_Some (evalExpr (ρ l) e).
Proof.
  intros Ft l Hl. destruct (Ft l Hl) as (ρ' & o & E & _). unfold assignRun in E.
  destruct (evalExpr (ρ l) e); [eauto | discriminate].
Qed.

Lemma assign_returned (x : Symbol) (e : AstNode) (ρ : env) : returned (assignRun x e ρ) = false.
Proof. unfold assignRun. destruct (evalExpr ρ e); reflexivity. Qed.

(** A fresh alloca. *)
Lemma frame_alloca (m : mask) (c c' : config) (r : RTVal) :
  mem c' = <[nloc c := r]> (mem c) → nloc c' = S (nloc c) → frame m c c'.
Proof.
  intros M L. split; [lia |]. intros loc r' Hloc Hr. exists r'. rewrite M, lookup_insert_ne by lia.
  auto using laneSame_refl.
Qed.

Lemma memInv_alloca (c c' : config) (A : gset Symbol) (lay lay' : Symbol → nat) (m rm : mask) (ρ : fin 16 → env) (r : RTVal) :
  mem c' = <[nloc c := r]> (mem c) → nloc c' = S (nloc c) → (∀ y, y ∈ A → lay' y = lay y) →
  memInv c A lay m rm ρ → memInv c' A lay' m rm ρ.
Proof.
  intros M L Ly [Mv Mm Ma Mvars Menv Minj Mn]. split; rewrite ?M, ?L; try assumption.
  - rewrite lookup_insert_ne by lia. exact Mv.
  - rewrite lookup_insert_ne by lia. exact Mm.
  - intros y Hy. rewrite Ly by exact Hy. destruct (Mvars y Hy) as (Hr & w & Hw).
    split; [lia |]. rewrite lookup_insert_ne by lia. eauto.
  - intros l Hl y f w Hy Hf Hw. rewrite Ly in Hw by exact Hy. destruct (Mvars y Hy) as (Hr & _).
    rewrite lookup_insert_ne in Hw by lia. eapply Menv; eauto.
  - intros y z Hy Hz. rewrite !Ly by assumption. auto.
  - lia.
Qed.

(** A variable that gets its alloca: where it is, and what it holds. *)
Definition layWith (lay : Symbol → nat) (x : Symbol) (loc : nat) : Symbol → nat :=
  λ y, if decide (y = x) then loc else lay y.

Lemma layWith_eq (lay : Symbol → nat) (x : Symbol) (loc : nat) : layWith lay x loc x = loc.
Proof. unfold layWith. rewrite decide_True by reflexivity. reflexivity. Qed.

Lemma layWith_old (lay : Symbol → nat) (x : Symbol) (loc : nat) (A : gset Symbol) (y : Symbol) :
  x ∉ A → y ∈ A → layWith lay x loc y = lay y.
Proof. intros Hx Hy. unfold layWith. rewrite decide_False; [reflexivity |]. intros ->. contradiction. Qed.

Lemma newVariable_spec (A : gset Symbol) (x : Symbol) (s : SPMDBuilder) :
  ready s → Symbols s !! x = None → x ∉ A →
  ∃ p s1 s2, createLocalVariable VecFloat s = Ret (p, s1) ∧ setSymbol x p s1 = Ret (tt, s2) ∧
    after s s2 ∧ kept s s1 ∧ MaskStack s2 = MaskStack s ∧ ActiveLanes s2 = ActiveLanes s ∧
    Symbols s2 = <[x := p]> (Symbols s) ∧ opened s2 ∧
    ∀ c lay m rm ρ, sub (BasicBlocks s2) F → atEnd s c → regInv s c A lay m → memInv c A lay m rm ρ →
    ∃ c', seg s c s2 c' ∧ frame m c c' ∧ nloc c' = S (nloc c) ∧
      regInv s2 c' A (layWith lay x (nloc c)) m ∧ memInv c' A (layWith lay x (nloc c)) m rm ρ ∧
      holds s2 c' p (RPtr (nloc c)) ∧ mem c' !! nloc c = Some (RFloats (vreplicate 16 None)).
Proof.
  intros R Ex Hx.
  destruct (alloca_spec F args VecFloat s R) as (p & s1 & E1 & Em1 & O1 & N1 & D1).
  assert (R1 := emitted_ready _ _ Em1 R). assert (St1 := em_straight _ _ Em1).
  set (s2 := mkBuilder (BasicBlocks s1) (InsertBlock s1) (NextInst s1) (MaskStack s1) (ActiveLanes s1)
               (ReturnValuePtr s1) (ReturnMaskPtr s1) (<[x := p]> (Symbols s1))).
  assert (R2 : ready s2) by (destruct R1; split; assumption).
  assert (Sy : Symbols s2 = <[x := p]> (Symbols s)) by (cbn; rewrite (st_symbols _ _ St1); reflexivity).
  exists p, s1, s2. split; [exact E1 |]. split; [reflexivity |].
  split.
  { split; [exact R2 | cbn; rewrite (st_stack _ _ St1); apply stackRel_refl |
            apply (st_value _ _ St1) | apply (st_mask _ _ St1) | rewrite Sy; apply insert_subseteq, Ex]. }
  split; [apply straight_kept, St1 |]. split; [apply St1 |]. split; [apply St1 |].
  split; [exact Sy |]. split; [exact O1 |].
  intros c lay m rm ρ HF Hc RI MI.
  destruct (D1 c HF Hc) as (c1 & S1 & M1 & L1 & V1).
  assert (S2 : seg s1 c1 s2 c1) by (apply seg_idle; apply S1 || reflexivity).
  assert (S12 : seg s c s2 c1) by segs.
  exists c1. split; [exact S12 |]. split; [eapply frame_alloca; eauto |]. split; [exact L1 |].
  split; [split |].
  - exact (active_seg args _ _ _ _ m St1 (seg_ext _ _ _ _ _ _ S1) (ri_active _ _ _ _ _ _ RI)).
  - exact (returnPtrs_sameVars args _ _ _ _ (seg_ext _ _ _ _ _ _ S1)
             (kept_sameVars _ _ (straight_kept _ _ St1)) (ri_ptrs _ _ _ _ _ _ RI)).
  - intros y Hy. rewrite (layWith_old _ _ _ A) by assumption. destruct (ri_vars _ _ _ _ _ _ RI y Hy) as (q & Eq & Hq).
    exists q. rewrite Sy, lookup_insert_ne by (intros ->; contradiction).
    split; [exact Eq | exact (seg_holds _ _ _ _ _ _ _ _ S12 Hq)].
  - split; [eapply memInv_alloca; [exact M1 | exact L1 | | exact MI]; intros; eapply layWith_old; eassumption |].
    split; [exact (seg_holds _ _ _ _ _ _ _ _ S2 V1) | rewrite M1; apply lookup_insert_eq].
Qed.

Lemma assign_stmt (ret : bool) (A D : gset Symbol) (x : Symbol) (e : AstNode) :
  scopedExpr A e = true → A ⊆ D → x ∈ A ∨ x ∉ D →
  stmtSpec ret true A D ({[x]} ∪ A) ({[x]} ∪ D) (generate (AssignAst (VariableAst x) e)) (assignRun x e).
Proof.
  intros Sc I [Hx | Hx] s R Ds _ O; cbn [generate].
  - assert (is_Some (Symbols s !! x)) as [p Ex] by (apply elem_of_dom; set_solver).
    destruct (assignTo_spec A x p e s Sc R ltac:(set_solver) Ex) as (v & s' & E & Em & O' & N' & D').
    exists v, s'. split.
    { unfold symbolValue. erewrite gbind_Ret; [exact E |]. unfold gets, mbind, GenM_bind. rewrite Ex. reflexivity. }
    split; [apply straight_after, Em; exact R |].
    split; [rewrite (st_symbols _ _ (em_straight _ _ Em)); set_solver |].
    split; [exact O' |]. split; [auto |]. split; [auto |].
    intros c lay m rm ρ HF Hc RI MI _ Ft.
    destruct (ri_vars _ _ _ _ _ _ RI x Hx) as (q & Eq & Hq). rewrite Ex in Eq. injection Eq as <-.
    destruct (mi_vars _ _ _ _ _ _ _ MI x Hx) as (Hl & old & Ho).
    destruct (D' c lay m rm ρ old) as (c' & S & L & Fr & RI' & MI'); try assumption.
    { intros y Hy Hxy. apply (mi_inj _ _ _ _ _ _ _ MI); assumption. }
    { apply (assign_fits x). exact Ft. }
    apply (seg_finishes s s' c c'); [exact S |].
    apply (running_effect _ _ _ _ _ _ _ lay);
      [intros; apply assign_returned | apply S | apply S | exact Fr | exact RI' | exact MI' | reflexivity].
  - assert (Symbols s !! x = None) as Ex by (apply not_elem_of_dom; set_solver).
    destruct (newVariable_spec A x s R Ex ltac:(set_solver))
      as (p & s1 & s2 & E1 & E2 & Af2 & _ & Es2 & _ & Sy & O2 & D2).
    assert (Ds2 : dom (Symbols s2) = {[x]} ∪ D) by (rewrite Sy, dom_insert_L, Ds; reflexivity).
    destruct (assignTo_spec A x p e s2 Sc (af_ready _ _ Af2)) as (v & s' & E & Em & O' & N' & D').
    { set_solver. }
    { rewrite Sy. apply lookup_insert_eq. }
    exists v, s'. split.
    { unfold symbolValue. erewrite gbind_Ret; [exact E |].
      erewrite gbind_Ret by (unfold gets; reflexivity). rewrite Ex.
      erewrite gbind_Ret by exact E1. erewrite gbind_Ret by exact E2. reflexivity. }
    split; [eapply after_trans; [exact Af2 | apply straight_after, Em; apply Af2] |].
    split; [rewrite (st_symbols _ _ (em_straight _ _ Em)); exact Ds2 |].
    split; [exact O' |]. split; [auto |]. split; [auto |].
    intros c lay m rm ρ HF Hc RI MI _ Ft.
    assert (HF2 : sub (BasicBlocks s2) F).
    { eapply sub_trans; [| exact HF]. eapply (grow_sub 0), grow_by; [| exact E | lia].
      eapply Grows_then; [apply Grows_generate | intros; grows_op]. }
    destruct (D2 c lay m rm ρ HF2 Hc RI MI) as (c1 & S12 & Fr1 & L1 & RI2 & MI2 & V1 & M1).
    set (lay' := layWith lay x (nloc c)) in *.
    assert (Lx : lay' x = nloc c) by apply layWith_eq.
    assert (Ly : ∀ y, y ∈ A → lay' y = lay y) by (intros; eapply layWith_old; [| eassumption]; set_solver).
    destruct (D' c1 lay' m rm ρ (vreplicate 16 None)) as (c' & S & L & Fr & RI' & MI'); try assumption.
    { apply S12. }
    { rewrite Lx. exact V1. }
    { rewrite Lx. exact M1. }
    { rewrite Lx, L1. pose proof (mi_nloc _ _ _ _ _ _ _ MI). lia. }
    { intros y Hy. rewrite Lx, Ly by exact Hy. destruct (mi_vars _ _ _ _ _ _ _ MI y Hy) as [[_ Hn] _]. lia. }
    { apply (assign_fits x). exact Ft. }
    assert (S0 : seg s c s' c') by segs.
    apply (seg_finishes s s' c c'); [exact S0 |].
    apply (running_effect _ _ _ _ _ _ _ lay');
      [intros; apply assign_returned | apply S0 | apply S0 | | exact RI' | exact MI' | exact Ly].
    eapply (frame_trans m m m); eauto.
Qed.
End Statements.
