(* ===== verification/SpmdStatements.v ===== *)
(** * SpmdStatements: sequence, branch, loop and return

    The specification of [SpmdInvariant] for the statements that [generate] builds
    of others: the mask of a branch and its inverse, the mask of a loop that shrinks
    until no lane is left, the lanes a return takes away. *)
From stdpp Require Import vector fin.
From S2P Require Import Prelude.
From S2P Require Import SpmdBuilder.
From S2P Require Import SpmdMachine.
From S2P Require Import SpmdGenerate.
From S2P Require Import SpmdSimulation.
From S2P Require Import SpmdControl.
From S2P Require Import SpmdInvariant.

Section Compose.
Context `{FloatOps} (F : list BasicBlock) (args : list RTVal) (expected : vec float 16).

Abbreviation env := (gmap Symbol float).
Abbreviation stepTo := (stepTo F args).
Abbreviation holds := (holds args).
Abbreviation seg := (seg F args).
Abbreviation active := (active args).
Abbreviation returnPtrs := (returnPtrs args).
Abbreviation memInv := (memInv expected).
Abbreviation regInv := (regInv args).
Abbreviation effect := (effect args expected).
Abbreviation finishes := (finishes F args expected).
Abbreviation stmtSpec := (stmtSpec F args expected).
Abbreviation stmtAt := (stmtAt F args expected).

(** ** Sequence *)
Definition seqRun (run1 run2 : env → option result) (ρ : env) : option result :=
  '(ρ', r) ← run1 ρ;
  match r with None => run2 ρ' | Some _ => Some (ρ', r) end.

(** Nothing is generated for a null statement. *)
Lemma skip_stmt (ret : bool) (A D : gset Symbol) : A ⊆ D → stmtSpec ret false A D A D (mret tt) (λ ρ, Some (ρ, None)).
Proof.
  intros I s R Ds _ O. exists tt, s. split; [reflexivity |].
  split; [apply straight_after; [exact R | apply straight_refl] |].
  split; [exact Ds |]. split; [exact O |]. split; [discriminate |]. split; [auto |].
  intros c lay m rm ρ _ Hc RI MI _ _. apply finishes_now.
  apply (running_effect _ _ _ _ _ _ _ _ lay lay); auto using ext_refl, frame_same.
Qed.

(** The lanes after the first statement run the second. *)
Lemma seq_fits (run1 run2 : env → option result) (m : mask) (ρ : fin 16 → env) :
  fits expected (seqRun run1 run2) m ρ →
  fits expected run1 m ρ ∧
  fits expected run2 (afterMask m (λ l, run1 (ρ l))) (afterEnv (λ l, run1 (ρ l))).
Proof.
  intros Ft. split; intros l Hl.
  - destruct (Ft l Hl) as (ρ' & o & E & Ho). unfold seqRun in E. destruct (run1 (ρ l)) as [[ρ1 r1] |]; [| discriminate].
    exists ρ1, r1. split; [reflexivity |]. intros v ->. injection E as <- <-. auto.
  - unfold afterMask in Hl. apply andb_true_iff in Hl as [Hl Hr]. destruct (Ft l Hl) as (ρ' & o & E & Ho).
    unfold seqRun in E. unfold afterEnv. destruct (run1 (ρ l)) as [[ρ1 [v |]] |]; try discriminate.
    exists ρ', o. auto.
Qed.

Lemma seq_masks (run1 run2 : env → option result) (m rm : mask) (ρ : fin 16 → env) :
  let res1 := λ l, run1 (ρ l) in
  let res2 := λ l, run2 (afterEnv res1 l) in
  let res := λ l, seqRun run1 run2 (ρ l) in
  fits expected (seqRun run1 run2) m ρ →
  (∀ l, afterMask (afterMask m res1) res2 l = afterMask m res l) ∧
  (∀ l, afterRet (afterMask m res1) (afterRet m rm res1) res2 l = afterRet m rm res l) ∧
  (∀ l, afterMask m res l = true → afterEnv res l = afterEnv res2 l).
Proof.
  intros res1 res2 res Ft.
  assert (E : ∀ l, m l = true → returned (res l) = returned (res1 l) || returned (res2 l) ∧
                    (returned (res l) = false → afterEnv res l = afterEnv res2 l)
                    ∨ returned (res1 l) = true ∧ returned (res l) = true).
  { intros l Hl. destruct (Ft l Hl) as (ρ' & o & E & _). unfold res, res2, res1, afterEnv, seqRun in *.
    destruct (run1 (ρ l)) as [[ρ1 [v |]] |]; cbn in *; [right; auto | left; auto | discriminate]. }
  unfold afterMask, afterRet. split_and!; intros l; specialize (E l).
  - destruct (m l); [| reflexivity]. destruct (E eq_refl) as [[-> _] | [-> ->]]; cbn; [apply symmetry, negb_orb | reflexivity].
  - destruct (m l); cbn; [| rewrite !andb_true_r; reflexivity].
    destruct (E eq_refl) as [[-> _] | [-> ->]]; destruct (rm l), (returned (res1 l)), (returned (res2 l)); reflexivity.
  - intros Hl. apply andb_true_iff in Hl as [Hl Hr]. apply negb_true_iff in Hr.
    destruct (E Hl) as [[_ X] | [_ X]]; [auto | congruence].
Qed.

Lemma seq_at (s : SPMDBuilder) (e1 e2 : bool) (A A1 D1 A2 D2 : gset Symbol) {X Y : Type} (g1 : GenM X) (g2 : GenM Y)
    (run1 run2 : env → option result) :
  Grows 0 g2 (λ _, True) → A ⊆ A1 →
  stmtAt s e1 A A1 D1 g1 run1 →
  (∀ v s1, g1 s = Ret (v, s1) → after s s1 → dom (Symbols s1) = D1 → opened s1 → stmtAt s1 e2 A1 A2 D2 g2 run2) →
  stmtAt s (e1 || e2) A A2 D2 (g1;; g2) (seqRun run1 run2).
Proof.
  intros G2 IA (v1 & s1 & E1 & Af1 & Ds1 & O1 & Em1 & NE1 & Dy1) S2.
  destruct (S2 v1 s1 E1 Af1 Ds1 O1) as (v2 & s2 & E2 & Af2 & Ds2 & O2 & Em2 & NE2 & Dy2).
  exists v2, s2. split; [erewrite gbind_Ret by exact E1; exact E2 |].
  split; [eauto using after_trans |]. split; [exact Ds2 |]. split; [exact O2 |].
  split; [intros Hem; destruct e1; auto |]. split; [auto |].
  intros c lay m rm ρ HF Hc RI MI Ti Ft. destruct (seq_fits _ _ _ _ Ft) as [Ft1 Ft2].
  destruct (seq_masks _ _ m rm ρ Ft) as (Mm & Mr & Me).
  assert (HF1 : sub (BasicBlocks s1) F).
  { eapply sub_trans; [eapply (grow_sub 0), (grow_by 0 g2); [apply G2 | exact E2 | lia] | exact HF]. }
  eapply finishes_bind; [apply (Dy1 c lay m rm ρ); assumption |].
  intros c1 [He1 Ex1 Fr1 (lay1 & RI1 & MI1 & Ly1)].
  eapply finishes_bind.
  { eapply (Dy2 c1 lay1); [exact HF | exact He1 | exact RI1 | exact MI1 | | exact Ft2].
    intros Hs l. pose proof (af_stack _ _ Af1) as St. destruct (MaskStack s) eqn:Es; [| destruct St as [cm St]; congruence].
    unfold afterMask, afterRet. rewrite (Ti Es). destruct (rm l); reflexivity. }
  intros c2 [He2 Ex2 Fr2 (lay2 & RI2 & MI2 & Ly2)]. apply finishes_now.
  split; [exact He2 | eauto using ext_trans | |].
  - eapply (frame_trans m (afterMask m (λ l, run1 (ρ l)))); eauto.
    intros l Hl. unfold afterMask. rewrite Hl. reflexivity.
  - exists lay2. split; [| split].
    + destruct RI2. split; [eapply active_eq; [exact Mm | assumption] | assumption | assumption].
    + eapply memInv_eq; [| | exact MI2]; [intros l; symmetry; apply Mr |].
      intros l Hl. rewrite Mm. auto.
    + intros x Hx. rewrite Ly2 by auto. auto.
Qed.

(** ** Return *)
Definition returnRun (e : AstNode) (ρ : env) : option result := v ← evalExpr ρ e; Some (ρ, Some v).

(** The memory after the lanes of [m] have returned [w]. *)
Lemma memInv_return (c c' : config) (A : gset Symbol) (lay : Symbol → nat) (m rm : mask) (ρ : fin 16 → env)
    (w rv rv' : vec (option float) 16) (res : fin 16 → option result) :
  memInv c A lay m rm ρ → mem c !! 0%nat = Some (RFloats rv) → nloc c' = nloc c →
  mem c' = <[1%nat := RMask (mvec (maskAnd rm (maskNot m)))]> (<[0%nat := RFloats rv']> (mem c)) →
  (∀ l, rv' !!! l = if m l then w !!! l else rv !!! l) →
  (∀ l, m l = true → returned (res l) = true ∧ w !!! l = Some (expected !!! l)) →
  memInv c' A lay (afterMask m res) (afterRet m rm res) (afterEnv res) ∧ frame m c c'.
Proof.
  intros [(rv0 & H0 & Hrv) Mm Ma Mvars Menv Minj Mn] Hv L M W R.
  rewrite Hv in H0. injection H0 as <-.
  assert (Er : ∀ l, afterRet m rm res l = maskAnd rm (maskNot m) l).
  { intros l. unfold afterRet, maskAnd, maskNot. destruct (m l) eqn:Hm; cbn; [| rewrite andb_true_r; reflexivity].
    rewrite (proj1 (R l Hm)). reflexivity. }
  assert (El : ∀ l, afterMask m res l = false).
  { intros l. unfold afterMask. destruct (m l) eqn:Hm; [| reflexivity]. rewrite (proj1 (R l Hm)). reflexivity. }
  split; [split |].
  - exists rv'. rewrite M, lookup_insert_ne, lookup_insert_eq by discriminate. split; [reflexivity |].
    intros l. rewrite Er, W. unfold maskAnd, maskNot. destruct (m l) eqn:Hm; [intros _; apply R, Hm |].
    rewrite andb_true_r. apply Hrv.
  - rewrite M, lookup_insert_eq. rewrite (mvec_eq _ _ Er). reflexivity.
  - intros l. rewrite El. discriminate.
  - intros x Hx. destruct (Mvars x Hx) as (Hr & v & Hv'). rewrite L. split; [exact Hr |].
    rewrite M, !lookup_insert_ne by lia. eauto.
  - intros l. rewrite El. discriminate.
  - exact Minj.
  - lia.
  - split; [lia |]. intros loc r _ Hr. rewrite M.
    destruct (decide (loc = 1%nat)) as [-> |]; [| destruct (decide (loc = 0%nat)) as [-> |]].
    + rewrite lookup_insert_eq. eexists. split; [reflexivity |]. intros l Hl. rewrite Mm in Hr. injection Hr as <-.
      unfold laneSame. rewrite !mvec_lookup. unfold maskAnd, maskNot. rewrite Hl, andb_true_r. reflexivity.
    + rewrite lookup_insert_ne, lookup_insert_eq by discriminate. eexists. split; [reflexivity |]. intros l Hl.
      rewrite Hv in Hr. injection Hr as <-. cbn. rewrite W, Hl. reflexivity.
    + rewrite !lookup_insert_ne by lia. exists r. auto using laneSame_refl.
Qed.

Lemma return_fits (e : AstNode) (m : mask) (ρ : fin 16 → env) :
  fits expected (returnRun e) m ρ →
  ∀ l, m l = true → evalExpr (ρ l) e = Some (expected !!! l) ∧ returned (returnRun e (ρ l)) = true.
Proof.
  intros Ft l Hl. destruct (Ft l Hl) as (ρ' & o & E & Ho). unfold returnRun in *.
  destruct (evalExpr (ρ l) e) as [f |]; [| discriminate]. injection E as _ <-.
  rewrite (Ho f eq_refl). auto.
Qed.

Lemma return_stmt (A D : gset Symbol) (e : AstNode) :
  scopedExpr A e = true → A ⊆ D →
  stmtSpec true true A D A D (generate (ReturnAst e)) (returnRun e).
Proof.
  intros Sc I s R Ds Hr O.
  destruct (MaskStack s) as [| top rest] eqn:Es; [destruct (Hr eq_refl eq_refl) |].
  destruct (generate_expr F args A e Sc s R (declared_sub A s ltac:(set_solver))) as (v & s1 & E1 & Em1 & D1).
  assert (R1 := emitted_ready _ _ Em1 R). assert (St1 := em_straight _ _ Em1).
  assert (Es1 : MaskStack s1 = top :: rest) by (rewrite (st_stack _ _ St1); exact Es).
  destruct (createReturn_spec F args v s1 top rest R1 Es1) as (s2 & cm & E2 & Es2 & Sv2 & R2 & O2 & N2 & D2).
  assert (Sv : sameVars s s2) by (eapply sameVars_trans; [apply kept_sameVars, straight_kept, St1 | exact Sv2]).
  exists (Some v), s2. split.
  { cbn [generate]. erewrite gbind_Ret by exact E1. erewrite gbind_Ret by exact E2. reflexivity. }
  split.
  { destruct Sv. split; [exact R2 | rewrite Es, Es2; cbn; eauto | assumption | assumption | rewrite sv_symbols; reflexivity]. }
  split; [rewrite (sv_symbols _ _ Sv); exact Ds |]. split; [exact O2 |]. split; [auto |]. split; [auto |].
  intros c lay m rm ρ HF Hc RI MI _ Ft. assert (Fr := return_fits _ _ _ Ft).
  assert (HF1 : sub (BasicBlocks s1) F).
  { eapply sub_trans; [eapply (grow_sub 0), (grow_by 0 (createReturn (Some v))); [grows_op | exact E2 | lia] | exact HF]. }
  destruct (D1 c lay HF1 Hc (invs_inMemory _ _ _ _ _ _ _ _ _ RI MI)) as (c1 & r & S1 & M1 & L1 & V1 & (w & -> & W1)).
  assert (W : ∀ l, m l = true → returned (returnRun e (ρ l)) = true ∧ w !!! l = Some (expected !!! l)).
  { intros l Hl. destruct (Fr l Hl) as [Ev Rt]. split; [exact Rt |].
    eapply W1; [apply (mi_env _ _ _ _ _ _ _ MI l Hl) | exact Ev]. }
  destruct (mi_value _ _ _ _ _ _ _ MI) as (rv & H0 & Hrv).
  destruct (D2 c1 m rm w rv) as (rv' & Wrv & J); try assumption.
  { apply S1. }
  { eapply returnPtrs_sameVars; [apply S1 | apply kept_sameVars, straight_kept, St1 | apply RI]. }
  { eapply active_seg; [exact St1 | apply S1 | apply RI]. }
  { rewrite M1. exact H0. }
  { rewrite M1. apply MI. }
  destruct (noLane (maskAnd rm (maskNot m))) eqn:No.
  - destruct J as (c' & J & Jr). exists c'. split; [etransitivity; [apply S1 | exact J] | right].
    rewrite Jr. do 3 f_equal. apply vec_eq. intros l. rewrite vlookup_map, Wrv.
    destruct (m l) eqn:Hm; [apply W, Hm |]. apply Hrv.
    rewrite noLane_spec in No. specialize (No l). unfold maskAnd, maskNot in No.
    rewrite Hm, andb_true_r in No. exact No.
  - destruct J as (c' & S2 & M2 & L2 & Ha). assert (S : seg s c s2 c') by segs.
    destruct (memInv_return c c' A lay m rm ρ w rv rv' (λ l, returnRun e (ρ l)) MI H0) as [MI' Fr'];
      [congruence | rewrite M2, M1; reflexivity | exact Wrv | exact W |].
    apply (seg_finishes F args expected s s2 c c'); [exact S |].
    split; [apply S | apply S | exact Fr' |]. exists lay. split; [| auto].
    eapply regInv_ext; [apply S | exact Sv | | exact RI].
    eapply active_eq; [| exact Ha]. intros l. unfold maskAnd, maskNot, afterMask.
    destruct (m l) eqn:Hm; [rewrite (proj1 (W l Hm)); destruct (rm l) |]; reflexivity.
Qed.

Lemma seq_stmt (ret e1 e2 : bool) (A D A1 D1 A2 D2 : gset Symbol) {X Y : Type} (g1 : GenM X) (g2 : GenM Y)
    (run1 run2 : env → option result) :
  Grows 0 g2 (λ _, True) → A ⊆ A1 →
  stmtSpec ret e1 A D A1 D1 g1 run1 → stmtSpec ret e2 A1 D1 A2 D2 g2 run2 →
  stmtSpec ret (e1 || e2) A D A2 D2 (g1;; g2) (seqRun run1 run2).
Proof.
  intros G2 IA S1 S2 s R Ds Hr O. eapply seq_at; [exact G2 | exact IA | apply S1; assumption |].
  intros v s1 _ Af Ds1 O1. apply S2; [apply Af | exact Ds1 | | exact O1].
  intros Hret. specialize (Hr Hret). pose proof (af_stack _ _ Af) as St.
  destruct (MaskStack s); [contradiction |]. destruct St as [cm ->]. discriminate.
Qed.
End Compose.

Section Branches.
Context `{FloatOps} (F : list BasicBlock) (args : list RTVal) (expected : vec float 16).

Abbreviation env := (gmap Symbol float).
Abbreviation stepTo := (stepTo F args).
Abbreviation holds := (holds args).
Abbreviation seg := (seg F args).
Abbreviation active := (active args).
Abbreviation returnPtrs := (returnPtrs args).
Abbreviation memInv := (memInv expected).
Abbreviation regInv := (regInv args).
Abbreviation effect := (effect args expected).
Abbreviation finishes := (finishes F args expected).
Abbreviation stmtSpec := (stmtSpec F args expected).
Abbreviation stmtAt := (stmtAt F args expected).

(** ** The arm of a branch: skipped when its mask is empty *)
Definition atStart (c : config) (b : nat) : Prop := blk c = b ∧ idx c = 0%nat.

Record armEffect (s : SPMDBuilder) (c : config) (A : gset Symbol) (lay : Symbol → nat) (m rm : mask)
    (res : fin 16 → option result) (s' : SPMDBuilder) (c' : config) : Prop := mkArmEffect {
  ae_ext : ext s c s' c';
  ae_frame : frame m c c';
  ae_inv : memInv c' A lay (afterMask m res) (afterRet m rm res) (afterEnv res)
}.

Lemma skipped_arm (s s' : SPMDBuilder) (c c' : config) (A : gset Symbol) (lay : Symbol → nat) (m rm : mask)
    (ρ : fin 16 → env) (res : fin 16 → option result) :
  (∀ l, m l = false) → ext s c s' c' → mem c' = mem c → nloc c' = nloc c → memInv c A lay m rm ρ →
  armEffect s c A lay m rm res s' c'.
Proof.
  intros Hm Ex M L MI. split; [exact Ex | apply frame_same; assumption |].
  eapply memInv_eq; [| | eapply memInv_same; eauto].
  - intros l. unfold afterRet. rewrite Hm. cbn. apply andb_true_r.
  - intros l Hl. unfold afterMask in Hl. rewrite Hm in Hl. discriminate.
Qed.

Lemma run_arm (s s' : SPMDBuilder) (c c' : config) (A A' : gset Symbol) (lay : Symbol → nat) (m rm : mask)
    (res : fin 16 → option result) :
  A ⊆ A' → effect s c A lay m rm res s' A' c' → armEffect s c A lay m rm res s' c'.
Proof.
  intros I [_ Ex Fr (lay' & _ & MI & Ly)]. split; [exact Ex | exact Fr |].
  eapply memInv_weaken; eauto.
Qed.

Lemma arm_spec (ret em : bool) (A D A' D' : gset Symbol) {X : Type} (g : GenM X) (run : env → option result)
    (SkipTo Body : nat) (s : SPMDBuilder) (top : MaskStackEntry) (rest : list MaskStackEntry) :
  (∀ n, Grows n g (λ _, True)) → A ⊆ A' → stmtSpec ret em A D A' D' g run →
  ready s → MaskStack s = top :: rest → dom (Symbols s) = D → parked s Body →
  ∃ s1 s2 v s3, shortCircuitZeroMask SkipTo Body s = Ret (tt, s1) ∧ startBasicBlock Body s1 = Ret (tt, s2) ∧
    g s2 = Ret (v, s3) ∧ after s s3 ∧ dom (Symbols s3) = D' ∧ opened s3 ∧ (em = true → nonempty s3) ∧
    (∀ b, parked s b → b ≠ Body → parked s3 b) ∧
    ∀ c lay m rm ρ, sub (BasicBlocks s3) F → atEnd s c → regInv s c A lay m → memInv c A lay m rm ρ →
      fits expected run m ρ →
      finishes c (λ c', (atStart c' SkipTo ∧ noLane m = true ∨ atEnd s3 c' ∧ noLane m = false) ∧
                        armEffect s c A lay m rm (λ l, run (ρ l)) s3 c').
Proof.
  intros G I Sp R Es Ds Pb.
  destruct (shortCircuit_spec F args SkipTo Body s top rest R Es) as (s1 & E1 & Cl1 & D1).
  assert (St1 := cl_straight _ _ Cl1). assert (R1 := straight_ready _ _ St1 R).
  assert (Pk1 : ∀ b, parked s b → parked s1 b).
  { intros b P. eapply (parked_by (shortCircuitZeroMask SkipTo Body)); [grows_op | exact E1 | exact P]. }
  destruct (startBasicBlock_spec F args Body s1 R1 (Pk1 _ Pb)) as (s2 & E2 & Sd2 & _).
  assert (R2 := sd_ready _ _ _ Sd2).
  assert (Es2 : MaskStack s2 = top :: rest) by (rewrite (sd_stack _ _ _ Sd2), (st_stack _ _ St1); exact Es).
  destruct (Sp s2 R2) as (v & s3 & E3 & Af3 & Ds3 & O3 & Em3 & NE3 & D3).
  { rewrite (sd_symbols _ _ _ Sd2), (st_symbols _ _ St1). exact Ds. }
  { rewrite Es2. discriminate. }
  { eapply started_opened, Sd2. }
  assert (Af2 : after s s2).
  { split; [exact R2 | rewrite Es2, Es; apply stackRel_refl | | |]; destruct Sd2, St1; try congruence.
    rewrite sd_symbols, st_symbols. reflexivity. }
  exists s1, s2, v, s3. split; [exact E1 |]. split; [exact E2 |]. split; [exact E3 |].
  split; [eauto using after_trans |]. split; [exact Ds3 |]. split; [exact O3 |]. split; [exact Em3 |].
  split.
  { intros b P Hne. eapply (parked_by g); [apply G | exact E3 |]. apply (sd_parked _ _ _ Sd2); auto. }
  intros c lay m rm ρ HF Hc RI MI Ft.
  assert (HF2 : sub (BasicBlocks s2) F).
  { eapply sub_trans; [eapply (grow_sub 0), (grow_by 0 g); [apply G | exact E3 | lia] | exact HF]. }
  subs. insts.
  assert (N3 : (NextInst s2 ≤ NextInst s3)%nat) by (eapply (grow_inst 0), (grow_by 0 g); [apply G | exact E3 | lia]).
  destruct (D1 c m) as (c1 & J1 & X1 & M1 & L1); [assumption | exact Hc | apply RI |].
  eapply finishes_steps; [exact J1 |].
  assert (X2 : ∀ b, ext s c s2 (jump c1 b)).
  { intros b. eapply ext_trans; [exact X1 |]. apply ext_jump. lia. }
  destruct (noLane m) eqn:No.
  - apply finishes_now. split; [left; split; [split; reflexivity | reflexivity] |].
    eapply skipped_arm; [apply noLane_spec, No | | exact M1 | exact L1 | exact MI].
    eapply ext_trans; [apply (X2 SkipTo) |]. split; auto.
  - eapply finishes_bind.
    + apply (D3 (jump c1 Body) lay m rm ρ); [exact HF | eapply started_atEnd; eauto | | eapply memInv_same; eauto | | exact Ft].
      * eapply regInv_ext; [apply X2 | | | exact RI].
        -- eapply sameVars_trans; [apply kept_sameVars, straight_kept, St1 | eapply started_sameVars, Sd2].
        -- pose proof (active_nonempty args s c m top rest R Es (ri_active _ _ _ _ _ _ RI)) as [Ha Hv].
           unfold SpmdSimulation.active.
           rewrite (sd_active _ _ _ Sd2), (st_active _ _ St1), Ha. eapply holds_ext; [apply X2 | exact Hv].
      * intros Hs. congruence.
    + intros c3 Ef. apply finishes_now. split; [right; split; [apply Ef | reflexivity] |].
      apply (run_arm _ _ _ _ A A') in Ef; [| exact I]. destruct Ef as [X3 Fr3 MI3]. split.
      * eapply ext_trans; [apply X2 | exact X3].
      * eapply (frame_trans m m m); [auto | auto | | exact Fr3]. apply frame_same; assumption.
      * exact MI3.
Qed.

(** ** The condition and the mask it pushes *)
Lemma cond_spec (A : gset Symbol) (cond : AstNode) (s : SPMDBuilder) :
  scopedCond A cond = true → ready s → A ⊆ dom (Symbols s) →
  ∃ v s1 s2 cm, (generate cond ≫= nonnull) s = Ret (v, s1) ∧ pushMask v s1 = Ret (tt, s2) ∧
    MaskStack s2 = mkMaskEntry v cm :: MaskStack s ∧ kept s s2 ∧ ready s2 ∧
    ∀ c lay m rm ρ b, sub (BasicBlocks s2) F → atEnd s c → regInv s c A lay m → memInv c A lay m rm ρ →
      (∀ l, m l = true → evalCond (ρ l) cond = Some (b l)) →
    ∃ c' w, seg s c s2 c' ∧ mem c' = mem c ∧ nloc c' = nloc c ∧ regInv s2 c' A lay (maskAnd m b) ∧
      holds s2 c' v (RMask w) ∧ ∀ l, m l = true → w !!! l = Some (b l).
Proof.
  intros Sc R I.
  destruct (generate_cond F args A cond Sc s R (declared_sub A s I)) as (v & s1 & E1 & Em1 & D1).
  assert (R1 := emitted_ready _ _ Em1 R). assert (St1 := em_straight _ _ Em1).
  destruct (pushMask_spec F args v s1 R1) as (s2 & cm & E2 & Es2 & Ea2 & K2 & R2 & _ & _ & D2).
  exists v, s1, s2, cm. split; [erewrite gbind_Ret by exact E1; reflexivity |]. split; [exact E2 |].
  split; [rewrite Es2, (st_stack _ _ St1); reflexivity |].
  assert (K : kept s s2) by (eapply kept_trans; [apply straight_kept, St1 | exact K2]).
  split; [exact K |]. split; [exact R2 |].
  intros c lay m rm ρ b HF Hc RI MI Hb. subs.
  destruct (D1 c lay) as (c1 & r & S1 & M1 & L1 & V1 & (w & -> & W1)); [assumption | exact Hc | eapply invs_inMemory; eauto |].
  assert (W : ∀ l, m l = true → w !!! l = Some (b l)).
  { intros l Hl. eapply W1; [apply (mi_env _ _ _ _ _ _ _ MI l Hl) | auto]. }
  destruct (D2 c1 m b w) as (c2 & S2 & M2 & L2 & Ha); [exact HF | apply S1 | | exact V1 | exact W |].
  { eapply active_seg; [exact St1 | apply S1 | apply RI]. }
  assert (S : seg s c s2 c2) by segs.
  exists c2, w. split; [exact S |]. split; [congruence |]. split; [congruence |].
  split; [eapply regInv_ext; [apply S | apply kept_sameVars, K | exact Ha | exact RI] |].
  split; [exact (seg_holds _ _ _ _ _ _ _ _ S2 V1) | exact W].
Qed.

(** ** The end of a branch or of a loop *)

(** The mask in force before the statement, seen from its end. *)
Lemma outer_holds (s s' : SPMDBuilder) (c c' : config) (A : gset Symbol) (lay : Symbol → nat) (m rm rm' : mask) :
  ready s → regInv s c A lay m → topInv s m rm → (∀ l, rm' l = true → rm l = true) → ext s c s' c' →
  outerMask args s' c' (MaskStack s) m rm'.
Proof.
  intros R RI Ti Hr Ex. unfold outerMask. destruct (MaskStack s) as [| top rest] eqn:Es.
  - intros l Hl. rewrite (Ti Es). auto.
  - eapply holds_ext; [exact Ex |]. eapply active_nonempty; [exact R | exact Es | apply RI].
Qed.

Lemma afterRet_sub (m rm : mask) (res : fin 16 → option result) (l : fin 16) : afterRet m rm res l = true → rm l = true.
Proof. unfold afterRet. intros E. apply andb_true_iff in E. apply E. Qed.

(** The symbols may have got their allocas since. *)
Record extends (s s' : SPMDBuilder) : Prop := mkExtends {
  xt_value : ReturnValuePtr s' = ReturnValuePtr s;
  xt_mask : ReturnMaskPtr s' = ReturnMaskPtr s;
  xt_symbols : Symbols s ⊆ Symbols s'
}.

Lemma after_extends (s s' : SPMDBuilder) : after s s' → extends s s'.
Proof. intros []. split; assumption. Qed.

Lemma sameVars_extends (s s' : SPMDBuilder) : sameVars s s' → extends s s'.
Proof. intros []. split; [assumption | assumption | rewrite sv_symbols; reflexivity]. Qed.

Lemma extends_trans (s1 s2 s3 : SPMDBuilder) : extends s1 s2 → extends s2 s3 → extends s1 s3.
Proof. intros [] []. split; [congruence | congruence | etransitivity; eassumption]. Qed.

Lemma returnPtrs_extends (s s' : SPMDBuilder) (c c' : config) :
  ext s c s' c' → extends s s' → returnPtrs s c → returnPtrs s' c'.
Proof.
  intros Ex [] [(p & Ep & Hp) (q & Eq & Hq)].
  split; [exists p | exists q]; (split; [congruence | eapply holds_ext; eauto]).
Qed.

Lemma regInv_extends (s s' : SPMDBuilder) (c c' : config) (A : gset Symbol) (lay : Symbol → nat) (m m' : mask) :
  ext s c s' c' → extends s s' → active s' c' m' → regInv s c A lay m → regInv s' c' A lay m'.
Proof.
  intros Ex Xt Ha [_ P V]. split; [exact Ha | eapply returnPtrs_extends; eauto |].
  intros x Hx. destruct (V x Hx) as (p & Ep & Hp). exists p.
  split; [eapply lookup_weaken; [exact Ep | apply Xt] | eapply holds_ext; eauto].
Qed.

(** [popMask] at the end [sE] of a statement that began at [s]. *)
Lemma pop_effect (s sE : SPMDBuilder) (top : MaskStackEntry) :
  ready s → ready sE → extends s sE → MaskStack sE = top :: MaskStack s →
  ∃ s', popMask sE = Ret (tt, s') ∧ after s s' ∧ Symbols s' = Symbols sE ∧ opened s' ∧ nonempty s' ∧
    ∀ c cE A lay m rm ρ res, sub (BasicBlocks s') F → atEnd sE cE → regInv s c A lay m → memInv c A lay m rm ρ →
      topInv s m rm → ext s c sE cE → frame m c cE →
      memInv cE A lay (afterMask m res) (afterRet m rm res) (afterEnv res) →
      finishes cE (effect s c A lay m rm res s' A).
Proof.
  intros R RE Xt Es.
  destruct (popMask_spec F args sE top (MaskStack s) RE Es) as (s' & E & St & K & R' & O & NE & D).
  assert (Xt' : extends s s').
  { eapply extends_trans; [exact Xt | apply sameVars_extends, kept_sameVars, K]. }
  exists s'. split; [exact E |]. split; [destruct Xt'; split; assumption |].
  split; [apply K |]. split; [exact O |]. split; [exact NE |].
  intros c cE A lay m rm ρ res HF Hc RI MI Ti Ex Fr ME.
  destruct (D cE m (afterRet m rm res)) as (c' & S & M & L & Ha); [exact HF | exact Hc | | apply ME | |].
  { eapply returnPtrs_extends; [exact Ex | exact Xt | apply RI]. }
  { eapply outer_holds; [exact R | exact RI | exact Ti | apply afterRet_sub | exact Ex]. }
  apply (seg_finishes F args expected sE s' cE c'); [exact S |].
  split; [apply S | eapply ext_trans; [exact Ex | apply S] | |].
  - eapply (frame_trans m m m); [auto | auto | exact Fr | apply frame_same; assumption].
  - exists lay. split; [| split; [eapply memInv_same; eauto | reflexivity]].
    eapply regInv_extends; [eapply ext_trans; [exact Ex | apply S] | exact Xt' | | exact RI].
    eapply active_eq; [| exact Ha]. intros l. unfold maskAnd, afterRet, afterMask.
    destruct (m l) eqn:Hm; [| reflexivity]. rewrite (mi_active _ _ _ _ _ _ _ MI l Hm). reflexivity.
Qed.

(** ** If *)
Definition condOf (cond : AstNode) (ρ : fin 16 → env) : mask :=
  λ l, match evalCond (ρ l) cond with Some b => b | None => false end.

Definition ifRun (cond : AstNode) (run1 run2 : env → option result) (ρ : env) : option result :=
  b ← evalCond ρ cond; if b : bool then run1 ρ else run2 ρ.

Lemma if_fits (cond : AstNode) (run1 run2 : env → option result) (m : mask) (ρ : fin 16 → env) :
  let b := condOf cond ρ in
  fits expected (ifRun cond run1 run2) m ρ →
  (∀ l, m l = true → evalCond (ρ l) cond = Some (b l)) ∧
  fits expected run1 (maskAnd m b) ρ ∧ fits expected run2 (maskAnd m (maskNot b)) ρ.
Proof.
  intros b Ft. unfold fits, ifRun, b, condOf, maskAnd, maskNot in *.
  split_and!; intros l Hl; [| apply andb_true_iff in Hl as [Hl Hb] ..];
    destruct (Ft l Hl) as (ρ' & o & E & Ho); destruct (evalCond (ρ l) cond) as [[] |]; try discriminate; eauto.
Qed.

(** The lanes of the other arm are as they were. *)
Lemma else_inv (s s' : SPMDBuilder) (c c' : config) (A : gset Symbol) (lay : Symbol → nat) (m b rm : mask)
    (ρ : fin 16 → env) (res : fin 16 → option result) :
  memInv c A lay m rm ρ → armEffect s c A lay (maskAnd m b) rm res s' c' →
  memInv c' A lay (maskAnd m (maskNot b)) (afterRet (maskAnd m b) rm res) ρ.
Proof.
  intros MI [_ Fr ME]. eapply (memInv_merge expected c c'); [exact MI | exact ME | exact Fr | |];
    intros l Hl; unfold maskAnd, maskNot in Hl; apply andb_true_iff in Hl as [Hm Hb]; apply negb_true_iff in Hb.
  - unfold afterRet, maskAnd. rewrite Hb, andb_false_r, andb_true_r. apply (mi_active _ _ _ _ _ _ _ MI l Hm).
  - right. unfold maskAnd. rewrite Hm, Hb. auto.
Qed.

(** Both arms together. *)
Lemma if_join (c c1 c2 : config) (A : gset Symbol) (lay : Symbol → nat) (m rm : mask) (ρ : fin 16 → env)
    (cond : AstNode) (run1 run2 : env → option result) (s1 s2 : SPMDBuilder) :
  let b := condOf cond ρ in
  let m1 := maskAnd m b in let m2 := maskAnd m (maskNot b) in
  let res1 := λ l, run1 (ρ l) in let res2 := λ l, run2 (ρ l) in
  let res := λ l, ifRun cond run1 run2 (ρ l) in
  fits expected (ifRun cond run1 run2) m ρ →
  memInv c1 A lay (afterMask m1 res1) (afterRet m1 rm res1) (afterEnv res1) →
  armEffect s1 c1 A lay m2 (afterRet m1 rm res1) res2 s2 c2 →
  memInv c2 A lay (afterMask m res) (afterRet m rm res) (afterEnv res).
Proof.
  intros b m1 m2 res1 res2 res Ft M1 [_ Fr2 M2]. destruct (if_fits _ _ _ _ _ Ft) as (Hb & _ & _).
  assert (Er : ∀ l, m l = true → res l = if b l then res1 l else res2 l).
  { intros l Hl. unfold res, ifRun. rewrite (Hb l Hl). reflexivity. }
  assert (Em : ∀ l, afterRet m rm res l = afterRet m2 (afterRet m1 rm res1) res2 l).
  { intros l. unfold afterRet, m1, m2, maskAnd, maskNot. specialize (Er l).
    destruct (m l); [rewrite Er by reflexivity | reflexivity || (rewrite !andb_true_r; reflexivity)].
    destruct (b l), (rm l); cbn; rewrite ?andb_true_r; reflexivity. }
  eapply (memInv_eq expected c2 A lay (afterMask m res) _ (afterRet m2 (afterRet m1 rm res1) res2));
    [exact Em | intros l Hl; split; [exact Hl | reflexivity] |].
  eapply (memInv_merge expected c1 c2); [exact M1 | exact M2 | exact Fr2 | |];
    intros l Hl; unfold afterMask in Hl; apply andb_true_iff in Hl as [Hm Hr]; apply negb_true_iff in Hr;
    assert (Er' := Er l Hm).
  - rewrite <- Em. unfold afterRet. rewrite Hm, Hr. cbn. rewrite andb_true_r.
    destruct (b l) eqn:Eb.
    + apply (afterRet_sub m1 rm res1). apply (mi_active _ _ _ _ _ _ _ M1). unfold afterMask, m1, maskAnd.
      rewrite Hm, Eb, <- Er', Hr. reflexivity.
    + apply (afterRet_sub m1 rm res1), (afterRet_sub m2 _ res2), (mi_active _ _ _ _ _ _ _ M2).
      unfold afterMask, m2, maskAnd, maskNot. rewrite Hm, Eb, <- Er', Hr. reflexivity.
  - unfold afterEnv, afterMask, m1, m2, maskAnd, maskNot. rewrite Hm, Er'. rewrite Er' in Hr.
    destruct (b l); [right | left]; cbn; rewrite ?Hr; auto.
Qed.
End Branches.

Section Ifs.
Context `{FloatOps} (F : list BasicBlock) (args : list RTVal) (expected : vec float 16).

Abbreviation env := (gmap Symbol float).
Abbreviation stepTo := (stepTo F args).
Abbreviation holds := (holds args).
Abbreviation seg := (seg F args).
Abbreviation active := (active args).
Abbreviation returnPtrs := (returnPtrs args).
Abbreviation memInv := (memInv expected).
Abbreviation regInv := (regInv args).
Abbreviation effect := (effect args expected).
Abbreviation finishes := (finishes F args expected).
Abbreviation stmtSpec := (stmtSpec F args expected).
Abbreviation stmtAt := (stmtAt F args expected).
Abbreviation armEffect := (armEffect expected).

(** From the end of an arm, or from where it was skipped, to the block that follows. *)
Record joined (s s' : SPMDBuilder) (b : nat) : Prop := mkJoined {
  jn_vars : sameVars s s';
  jn_stack : MaskStack s' = MaskStack s;
  jn_active : ActiveLanes s' = ActiveLanes s;
  jn_ready : ready s';
  jn_parked : ∀ b', parked s b' → b' ≠ b → parked s' b';
  jn_run : ∀ c (P Q : Prop), sub (BasicBlocks s') F → atStart c b ∧ P ∨ atEnd s c ∧ Q →
           ∃ c', rtc stepTo c c' ∧ atStart c' b ∧ ext s c s' c' ∧ mem c' = mem c ∧ nloc c' = nloc c;
  jn_start : ∀ c, atStart c b → atEnd s' c
}.

Lemma branch_joined (b : nat) (s : SPMDBuilder) :
  ready s → parked s b →
  ∃ s1 s', branch b s = Ret (tt, s1) ∧ startBasicBlock b s1 = Ret (tt, s') ∧ joined s s' b.
Proof.
  intros R P. destruct (branch_spec F args b s R) as (s1 & E1 & Cl1 & D1).
  assert (St1 := cl_straight _ _ Cl1). assert (R1 := straight_ready _ _ St1 R).
  assert (Pk : ∀ b', parked s b' → parked s1 b').
  { intros b' P'. eapply (parked_by (branch b)); [grows_op | exact E1 | exact P']. }
  destruct (startBasicBlock_spec F args b s1 R1 (Pk _ P)) as (s2 & E2 & Sd2 & _).
  exists s1, s2. split; [exact E1 |]. split; [exact E2 |]. split.
  - eapply sameVars_trans; [apply kept_sameVars, straight_kept, St1 | eapply started_sameVars, Sd2].
  - rewrite (sd_stack _ _ _ Sd2). apply St1.
  - rewrite (sd_active _ _ _ Sd2). apply St1.
  - apply Sd2.
  - intros b' P' Hne. apply (sd_parked _ _ _ Sd2); auto.
  - intros c P1 P2 HF [[[Eb Ei] _] | [He _]]; subs; insts.
    + exists c. split; [reflexivity |]. split; [split; assumption |]. split; [split; auto; lia | auto].
    + exists (jump c b). split; [apply rtc_once, D1; assumption |].
      split; [split; reflexivity |]. split; [apply ext_jump; lia | auto].
  - intros c [Eb Ei]. eapply started_atEnd; eauto.
Qed.

Lemma fall_joined (b : nat) (s : SPMDBuilder) :
  ready s → parked s b → opened s → nonempty s →
  ∃ s', startBasicBlock b s = Ret (tt, s') ∧ joined s s' b.
Proof.
  intros R P O NE. destruct (startBasicBlock_spec F args b s R P) as (s2 & E2 & Sd2 & D2).
  assert (N2 := sd_inst _ _ _ Sd2).
  exists s2. split; [exact E2 |]. split.
  - eapply started_sameVars, Sd2.
  - apply Sd2.
  - apply Sd2.
  - apply Sd2.
  - apply Sd2.
  - intros c P1 P2 HF [[[Eb Ei] _] | [He _]].
    + exists c. split; [reflexivity |]. split; [split; assumption |]. split; [split; auto; lia | auto].
    + exists (jump c b). split; [apply rtc_once, D2; [assumption | assumption | apply fallsThrough_opened; assumption] |].
      split; [split; reflexivity |]. split; [apply ext_jump; lia | auto].
  - intros c [Eb Ei]. eapply started_atEnd; eauto.
Qed.

(** What [pushMask] and the blocks leave for the first arm. *)
Lemma first_arm (c : config) (A : gset Symbol) (lay : Symbol → nat) (m rm b : mask) (ρ : fin 16 → env) :
  memInv c A lay m rm ρ → memInv c A lay (maskAnd m b) rm ρ.
Proof.
  apply memInv_eq; [reflexivity |]. intros l Hl. apply andb_true_iff in Hl as [Hl _]. auto.
Qed.

Definition ifThen (cond : AstNode) (gt : GenM (option Value)) : GenM (option Value) :=
  mask ← generate cond ≫= nonnull;
  pushMask mask;;
  (ThenBB ← createBasicBlock;
   EndifBB ← createBasicBlock;
   shortCircuitZeroMask EndifBB ThenBB;;
   startBasicBlock ThenBB;;
   gt;;
   startBasicBlock EndifBB);;
  popMask;;
  mret None.

Lemma ifThen_stmt (ret r : bool) (A D A1 D1 : gset Symbol) (cond : AstNode) (gt : GenM (option Value))
    (run1 : env → option result) :
  scopedCond A cond = true → A ⊆ D → A ⊆ A1 → (∀ n, Grows n gt (λ _, True)) →
  stmtSpec r true A D A1 D1 gt run1 →
  stmtSpec ret true A D A D1 (ifThen cond gt) (ifRun cond run1 (λ ρ, Some (ρ, None))).
Proof.
  intros Sc I I1 Gt Sp s R Ds _ O.
  destruct (cond_spec F args expected A cond s Sc R ltac:(set_solver)) as (v & s1 & s2 & cm & E1 & E2 & Es2 & K2 & R2 & D2).
  destruct (createBasicBlock_spec F args s2 R2) as (s3 & E3 & Em3 & P3 & N3 & D3). assert (R3 := emitted_ready _ _ Em3 R2).
  destruct (createBasicBlock_spec F args s3 R3) as (s4 & E4 & Em4 & P4 & N4 & D4). assert (R4 := emitted_ready _ _ Em4 R3).
  set (ThenBB := nblocks s2) in *. set (EndifBB := nblocks s3) in *.
  assert (P4t : parked s4 ThenBB) by (eapply parked_by; [apply Grows_newBlock | exact E4 | exact P3]).
  assert (St4 : straight s2 s4) by (eapply straight_trans; [apply Em3 | apply Em4]).
  assert (Es4 : MaskStack s4 = mkMaskEntry v cm :: MaskStack s) by (rewrite (st_stack _ _ St4); exact Es2).
  destruct (arm_spec F args expected r true A D A1 D1 gt run1 EndifBB ThenBB s4 _ _ Gt I1 Sp R4 Es4)
    as (s5 & s6 & x & s7 & E5 & E6 & E7 & Af7 & Ds7 & O7 & NE7 & Pk7 & D7).
  { rewrite (st_symbols _ _ St4), (kp_symbols _ _ K2). exact Ds. }
  { exact P4t. }
  assert (P7 : parked s7 EndifBB) by (apply Pk7; [exact P4 | lia]).
  destruct (fall_joined EndifBB s7 (af_ready _ _ Af7) P7 O7 (NE7 eq_refl)) as (s8 & E8 & J8).
  assert (X8 : extends s s8).
  { eapply extends_trans; [apply sameVars_extends, kept_sameVars, K2 |].
    eapply extends_trans; [apply sameVars_extends, kept_sameVars, straight_kept, St4 |].
    eapply extends_trans; [apply after_extends, Af7 | apply sameVars_extends, J8]. }
  assert (Es8 : ∃ top, MaskStack s8 = top :: MaskStack s).
  { pose proof (af_stack _ _ Af7) as St. rewrite Es4 in St. destruct St as [cm' St].
    rewrite (jn_stack _ _ _ J8), St. eauto. }
  destruct Es8 as [top8 Es8].
  destruct (pop_effect F args expected s s8 top8 R (jn_ready _ _ _ J8) X8 Es8) as (s9 & E9 & Af9 & Sy9 & O9 & NE9 & D9).
  exists None, s9. split.
  { unfold ifThen. erewrite gbind_Ret by exact E1. erewrite gbind_Ret by exact E2.
    erewrite gbind_Ret; [erewrite gbind_Ret by exact E9; reflexivity |].
    erewrite gbind_Ret by exact E3. erewrite gbind_Ret by exact E4. erewrite gbind_Ret by exact E5.
    erewrite gbind_Ret by exact E6. erewrite gbind_Ret by exact E7. exact E8. }
  split; [exact Af9 |].
  split; [rewrite Sy9, (sv_symbols _ _ (jn_vars _ _ _ J8)); exact Ds7 |].
  split; [exact O9 |]. split; [auto |]. split; [auto |].
  intros c lay m rm ρ HF Hc RI MI Ti Ft.
  assert (Ft' := Ft). apply if_fits in Ft' as (Hb & Ft1 & _). set (b := condOf cond ρ) in *.
  assert (HF4 : sub (BasicBlocks s4) F).
  { eapply sub_trans; [| exact HF]. eapply (grow_sub 0), (grow_by 0 (shortCircuitZeroMask EndifBB ThenBB;;
      startBasicBlock ThenBB;; gt;; startBasicBlock EndifBB;; popMask)); [grows_op; apply Gt | | lia].
    erewrite gbind_Ret by exact E5. erewrite gbind_Ret by exact E6. erewrite gbind_Ret by exact E7.
    erewrite gbind_Ret by exact E8. exact E9. }
  subs.
  destruct (D2 c lay m rm ρ b) as (c2 & w & S2 & M2 & L2 & RI2 & Hv & Hw); try assumption.
  assert (S4 : seg s c s4 c2).
  { eapply seg_trans; [exact S2 |]. eapply seg_trans; [apply D3, S2 | apply D4, D3, S2]. }
  assert (MI2 : memInv c2 A lay m rm ρ) by (eapply memInv_same; eauto).
  eapply finishes_steps; [apply S4 |].
  eapply finishes_bind.
  { apply (D7 c2 lay (maskAnd m b) rm ρ); [assumption | apply S4 | | apply first_arm, MI2 | exact Ft1].
    eapply regInv_ext; [| apply kept_sameVars, straight_kept, St4 | | exact RI2].
    - eapply ext_trans; [apply (D3 c2), S2 | apply D4, D3, S2].
    - eapply active_seg; [exact St4 | | apply RI2]. eapply ext_trans; [apply (D3 c2), S2 | apply D4, D3, S2]. }
  intros c7 [W7 AE7].
  destruct (jn_run _ _ _ J8 c7 _ _ ltac:(assumption) W7) as (c8 & J & Hs8 & Ex8 & M8 & L8).
  assert (He8 := jn_start _ _ _ J8 c8 Hs8).
  eapply finishes_steps; [exact J |].
  assert (Fr8 : frame (maskAnd m b) c2 c8).
  { eapply (frame_trans (maskAnd m b) (maskAnd m b)); [auto | auto | apply AE7 | apply frame_same; assumption]. }
  apply (D9 c c8 A lay m rm ρ); try assumption.
  { eapply ext_trans; [apply S4 |]. eapply ext_trans; [apply AE7 | exact Ex8]. }
  { eapply (frame_trans m (maskAnd m b)); [auto | | | exact Fr8].
    - intros l Hl. unfold maskAnd. rewrite Hl. reflexivity.
    - apply frame_same; assumption. }
  assert (MI7 := else_inv expected s4 s7 c2 c7 A lay m b rm ρ _ MI2 AE7).
  eapply memInv_same; [exact M8 | exact L8 |].
  eapply (if_join expected c2 c7 c7 A lay m rm ρ cond run1 (λ ρ, Some (ρ, None)) s7 s7); [exact Ft | apply AE7 |].
  destruct (running (maskAnd m (maskNot b)) (afterRet (maskAnd m b) rm (λ l, run1 (ρ l))) (λ l, Some (ρ l, None))) as [Rm Rr];
    [reflexivity |].
  split; [apply ext_refl | apply frame_same; reflexivity |].
  eapply memInv_eq; [exact Rr | | exact MI7]. intros l Hl. rewrite <- Rm. auto.
Qed.

Definition ifElse (cond : AstNode) (gt ge : GenM (option Value)) : GenM (option Value) :=
  mask ← generate cond ≫= nonnull;
  pushMask mask;;
  (ThenBB ← createBasicBlock;
   ElseTopBB ← createBasicBlock;
   ElseBodyBB ← createBasicBlock;
   EndifBB ← createBasicBlock;
   shortCircuitZeroMask ElseTopBB ThenBB;;
   startBasicBlock ThenBB;;
   gt;;
   branch ElseTopBB;;
   startBasicBlock ElseTopBB;;
   invertLastPushedMask;;
   shortCircuitZeroMask EndifBB ElseBodyBB;;
   startBasicBlock ElseBodyBB;;
   ge;;
   branch EndifBB;;
   startBasicBlock EndifBB);;
  popMask;;
  mret None.

(** The four blocks of an if. *)
Lemma fourBlocks_spec (s : SPMDBuilder) :
  ready s →
  ∃ s1 s2 s3 s4 b1 b2 b3 b4,
    createBasicBlock s = Ret (b1, s1) ∧ createBasicBlock s1 = Ret (b2, s2) ∧
    createBasicBlock s2 = Ret (b3, s3) ∧ createBasicBlock s3 = Ret (b4, s4) ∧
    (b1 < b2 < b3)%nat ∧ (b3 < b4)%nat ∧
    parked s4 b1 ∧ parked s4 b2 ∧ parked s4 b3 ∧ parked s4 b4 ∧ straight s s4 ∧ ready s4 ∧
    ∀ c, atEnd s c → seg s c s4 c.
Proof.
  intros R.
  destruct (createBasicBlock_spec F args s R) as (s1 & E1 & Em1 & P1 & N1 & D1). assert (R1 := emitted_ready _ _ Em1 R).
  destruct (createBasicBlock_spec F args s1 R1) as (s2 & E2 & Em2 & P2 & N2 & D2). assert (R2 := emitted_ready _ _ Em2 R1).
  destruct (createBasicBlock_spec F args s2 R2) as (s3 & E3 & Em3 & P3 & N3 & D3). assert (R3 := emitted_ready _ _ Em3 R2).
  destruct (createBasicBlock_spec F args s3 R3) as (s4 & E4 & Em4 & P4 & N4 & D4). assert (R4 := emitted_ready _ _ Em4 R3).
  exists s1, s2, s3, s4, (nblocks s), (nblocks s1), (nblocks s2), (nblocks s3).
  assert (K2 : ∀ b, parked s1 b → parked s2 b) by (intros; eapply parked_by; [apply Grows_newBlock | exact E2 | assumption]).
  assert (K3 : ∀ b, parked s2 b → parked s3 b) by (intros; eapply parked_by; [apply Grows_newBlock | exact E3 | assumption]).
  assert (K4 : ∀ b, parked s3 b → parked s4 b) by (intros; eapply parked_by; [apply Grows_newBlock | exact E4 | assumption]).
  split_and!; try assumption; try lia; auto.
  - repeat (eapply straight_trans; [eassumption || apply Em1 || apply Em2 || apply Em3 |]). apply Em4.
  - intros c Hc. eapply seg_trans; [apply D1, Hc |]. eapply seg_trans; [apply D2, D1, Hc |].
    eapply seg_trans; [apply D3, D2, D1, Hc | apply D4, D3, D2, D1, Hc].
Qed.

Lemma ifElse_stmt (ret r et ee : bool) (A D A1 D1 A2 D2 : gset Symbol) (cond : AstNode) (gt ge : GenM (option Value))
    (run1 run2 : env → option result) :
  scopedCond A cond = true → A ⊆ D → A ⊆ A1 → A ⊆ A2 →
  (∀ n, Grows n gt (λ _, True)) → (∀ n, Grows n ge (λ _, True)) →
  stmtSpec r et A D A1 D1 gt run1 → stmtSpec r ee A D1 A2 D2 ge run2 →
  stmtSpec ret true A D A D2 (ifElse cond gt ge) (ifRun cond run1 run2).
Proof.
  intros Sc I I1 I2 Gt Ge Spt Spe s R Ds _ O.
  destruct (cond_spec F args expected A cond s Sc R ltac:(set_solver)) as (v & s1 & s2 & cm & E1 & E2 & Es2 & K2 & R2 & Dy2).
  destruct (fourBlocks_spec s2 R2) as (s3 & s4 & s5 & s6 & ThenBB & ElseTopBB & ElseBodyBB & EndifBB &
    E3 & E4 & E5 & E6 & Lt1 & Lt2 & Pt & Pet & Peb & Pen & St6 & R6 & Dy6).
  assert (Es6 : MaskStack s6 = mkMaskEntry v cm :: MaskStack s) by (rewrite (st_stack _ _ St6); exact Es2).
  destruct (arm_spec F args expected r et A D A1 D1 gt run1 ElseTopBB ThenBB s6 _ _ Gt I1 Spt R6 Es6)
    as (s7 & s8 & x & s9 & E7 & E8 & E9 & Af9 & Ds9 & O9 & NE9 & Pk9 & Dy9).
  { rewrite (st_symbols _ _ St6), (kp_symbols _ _ K2). exact Ds. }
  { exact Pt. }
  destruct (branch_joined ElseTopBB s9 (af_ready _ _ Af9)) as (s10 & s11 & E10 & E11 & J11); [apply Pk9; [exact Pet | lia] |].
  assert (Es11 : ∃ cm', MaskStack s11 = mkMaskEntry v cm' :: MaskStack s).
  { pose proof (af_stack _ _ Af9) as St. rewrite Es6 in St. destruct St as [cm' St].
    rewrite (jn_stack _ _ _ J11), St. eauto. }
  destruct Es11 as [cm' Es11].
  destruct (invert_spec F args s11 _ _ (jn_ready _ _ _ J11) Es11) as (s12 & nm & cm2 & E12 & Es12 & K12 & R12 & O12 & N12 & Dy12).
  assert (Pk12 : ∀ b, parked s6 b → b ≠ ThenBB → b ≠ ElseTopBB → parked s12 b).
  { intros b Pb H1 H2. eapply (parked_by invertLastPushedMask); [grows_op | exact E12 |].
    apply (jn_parked _ _ _ J11); [apply Pk9; assumption | exact H2]. }
  destruct (arm_spec F args expected r ee A D1 A2 D2 ge run2 EndifBB ElseBodyBB s12 _ _ Ge I2 Spe R12 Es12)
    as (s13 & s14 & y & s15 & E13 & E14 & E15 & Af15 & Ds15 & O15 & NE15 & Pk15 & Dy15).
  { rewrite (kp_symbols _ _ K12), (sv_symbols _ _ (jn_vars _ _ _ J11)). exact Ds9. }
  { apply Pk12; [exact Peb | lia | lia]. }
  destruct (branch_joined EndifBB s15 (af_ready _ _ Af15)) as (s16 & s17 & E16 & E17 & J17).
  { apply Pk15; [apply Pk12; [exact Pen | lia | lia] | lia]. }
  assert (X11 : extends s s11).
  { eapply extends_trans; [apply sameVars_extends, kept_sameVars, K2 |].
    eapply extends_trans; [apply sameVars_extends, kept_sameVars, straight_kept, St6 |].
    eapply extends_trans; [apply after_extends, Af9 | apply sameVars_extends, J11]. }
  assert (X17 : extends s s17).
  { eapply extends_trans; [exact X11 |]. eapply extends_trans; [apply sameVars_extends, kept_sameVars, K12 |].
    eapply extends_trans; [apply after_extends, Af15 | apply sameVars_extends, J17]. }
  assert (Es17 : ∃ top, MaskStack s17 = top :: MaskStack s).
  { pose proof (af_stack _ _ Af15) as St. rewrite Es12 in St. destruct St as [cm3 St].
    rewrite (jn_stack _ _ _ J17), St. eauto. }
  destruct Es17 as [top17 Es17].
  destruct (pop_effect F args expected s s17 top17 R (jn_ready _ _ _ J17) X17 Es17) as (s18 & E18 & Af18 & Sy18 & O18 & NE18 & Dy18).
  exists None, s18. split.
  { unfold ifElse. erewrite gbind_Ret by exact E1. erewrite gbind_Ret by exact E2.
    erewrite gbind_Ret; [erewrite gbind_Ret by exact E18; reflexivity |].
    erewrite gbind_Ret by exact E3. erewrite gbind_Ret by exact E4. erewrite gbind_Ret by exact E5.
    erewrite gbind_Ret by exact E6. erewrite gbind_Ret by exact E7. erewrite gbind_Ret by exact E8.
    erewrite gbind_Ret by exact E9. erewrite gbind_Ret by exact E10. erewrite gbind_Ret by exact E11.
    erewrite gbind_Ret by exact E12. erewrite gbind_Ret by exact E13. erewrite gbind_Ret by exact E14.
    erewrite gbind_Ret by exact E15. erewrite gbind_Ret by exact E16. exact E17. }
  split; [exact Af18 |].
  split; [rewrite Sy18, (sv_symbols _ _ (jn_vars _ _ _ J17)); exact Ds15 |].
  split; [exact O18 |]. split; [auto |]. split; [auto |].
  intros c lay m rm ρ HF Hc RI MI Ti Ft.
  assert (Ft' := Ft). apply if_fits in Ft' as (Hb & Ft1 & Ft2). set (b := condOf cond ρ) in *.
  subs.
  assert (sub (BasicBlocks s14) F).
  { eapply sub_trans; [eapply (grow_sub 0), (grow_by 0 ge); [apply Ge | exact E15 | lia] | assumption]. }
  subs.
  assert (sub (BasicBlocks s8) F).
  { eapply sub_trans; [eapply (grow_sub 0), (grow_by 0 gt); [apply Gt | exact E9 | lia] | assumption]. }
  subs.
  destruct (Dy2 c lay m rm ρ b) as (c2 & w & S2 & M2 & L2 & RI2 & Hv & Hw); try assumption.
  assert (S26 := Dy6 c2 (seg_end _ _ _ _ _ _ S2)).
  assert (S6 : seg s c s6 c2) by segs.
  assert (MI2 : memInv c2 A lay m rm ρ) by (eapply memInv_same; eauto).
  eapply finishes_steps; [apply S6 |]. eapply finishes_bind.
  { apply (Dy9 c2 lay (maskAnd m b) rm ρ); [assumption | apply S6 | | apply first_arm, MI2 | exact Ft1].
    eapply regInv_ext; [apply S26 | apply kept_sameVars, straight_kept, St6 | | exact RI2].
    eapply active_seg; [exact St6 | apply S26 | apply RI2]. }
  intros c9 [W9 AE9].
  destruct (jn_run _ _ _ J11 c9 _ _ ltac:(assumption) W9) as (c11 & St11 & Hs11 & Ex11 & M11 & L11).
  assert (He11 := jn_start _ _ _ J11 c11 Hs11).
  eapply finishes_steps; [exact St11 |].
  assert (X6_11 : ext s6 c2 s11 c11) by (eapply ext_trans; [apply AE9 | exact Ex11]).
  assert (X_11 : ext s c s11 c11) by (eapply ext_trans; [apply S6 | exact X6_11]).
  assert (MI11 : memInv c11 A lay (maskAnd m (maskNot b)) (afterRet (maskAnd m b) rm (λ l, run1 (ρ l))) ρ).
  { eapply memInv_same; [exact M11 | exact L11 |]. exact (else_inv expected s6 s9 c2 c9 A lay m b rm ρ _ MI2 AE9). }
  set (rm1 := afterRet (maskAnd m b) rm (λ l, run1 (ρ l))) in *.
  destruct (Dy12 c11 m b rm1 w) as (c12 & S12 & M12 & L12 & Ha12); try assumption.
  { eapply returnPtrs_extends; [exact X_11 | exact X11 | apply RI]. }
  { apply MI11. }
  { eapply outer_holds; [exact R | exact RI | exact Ti | apply afterRet_sub | exact X_11]. }
  { eapply holds_ext; [| exact Hv]. eapply ext_trans; [apply S26 | exact X6_11]. }
  assert (X_12 : ext s c s12 c12) by (eapply ext_trans; [exact X_11 | apply S12]).
  assert (Xt12 : extends s s12) by (eapply extends_trans; [exact X11 | apply sameVars_extends, kept_sameVars, K12]).
  eapply finishes_steps; [apply S12 |]. eapply finishes_bind.
  { apply (Dy15 c12 lay (maskAnd m (maskNot b)) rm1 ρ); [assumption | apply S12 | | eapply memInv_same; eauto | exact Ft2].
    eapply regInv_extends; [exact X_12 | exact Xt12 | | exact RI].
    eapply active_eq; [| exact Ha12]. intros l.
    pose proof (mi_active _ _ _ _ _ _ _ MI11 l) as Hrm. revert Hrm. unfold maskAnd, maskNot.
    destruct (m l && negb (b l)); [intros -> | ]; reflexivity. }
  intros c15 [W15 AE15].
  destruct (jn_run _ _ _ J17 c15 _ _ ltac:(assumption) W15) as (c17 & St17 & Hs17 & Ex17 & M17 & L17).
  assert (He17 := jn_start _ _ _ J17 c17 Hs17).
  eapply finishes_steps; [exact St17 |].
  assert (In1 : ∀ l, m l = false → maskAnd m b l = false) by (intros l Hl; unfold maskAnd; rewrite Hl; reflexivity).
  assert (In2 : ∀ l, m l = false → maskAnd m (maskNot b) l = false) by (intros l Hl; unfold maskAnd; rewrite Hl; reflexivity).
  apply (Dy18 c c17 A lay m rm ρ); try assumption.
  { eapply ext_trans; [exact X_12 |]. eapply ext_trans; [apply AE15 | exact Ex17]. }
  { eapply (frame_trans m m); [auto | auto | | apply (frame_same m c15); assumption].
    eapply (frame_trans m (maskAnd m (maskNot b))); [auto | exact In2 | | apply AE15].
    eapply (frame_trans m m); [auto | auto | | apply (frame_same m c11); congruence].
    eapply (frame_trans m m); [auto | auto | | apply (frame_same m c9); assumption].
    eapply (frame_trans m (maskAnd m b)); [auto | exact In1 | | apply AE9]. apply frame_same; assumption. }
  eapply memInv_same; [exact M17 | exact L17 |].
  eapply (if_join expected c c12 c15 A lay m rm ρ cond run1 run2 s12 s15); [exact Ft | | exact AE15].
  eapply memInv_same; [rewrite M12, M11; reflexivity | congruence | apply AE9].
Qed.
End Ifs.
