(* ===== verification/SpmdLoops.v ===== *)
(** * SpmdLoops: the loop of a kernel

    A loop runs while its condition holds in some lane.  Its mask is computed
    again from the lanes that were running before the loop; a lane whose condition
    was false has kept its variables, so that its condition is still false.  A body
    that returns breaks this: the loop is specified for bodies that do not. *)
From stdpp Require Import vector fin.
From S2P Require Import Prelude.
From S2P Require Import SpmdBuilder.
From S2P Require Import SpmdMachine.
From S2P Require Import SpmdGenerate.
From S2P Require Import SpmdSimulation.
From S2P Require Import SpmdControl.
From S2P Require Import SpmdInvariant.
From S2P Require Import SpmdStatements.

Section Loops.
Context `{FloatOps} (F : list BasicBlock) (args : list RTVal) (expected : vec float 16).

Abbreviation env := (gmap Symbol float).
Abbreviation stepTo := (stepTo F args).
Abbreviation holds := (holds args).
Abbreviation seg := (seg F args).
Abbreviation active := (active args).
Abbreviation returnPtrs := (returnPtrs args).
Abbreviation memInv := (memInv expected).
Abbreviation regInv := (regInv args).
Abbreviation effect := (effect args expected).
Abbreviation finishes := (finishes F args expected).
Abbreviation stmtSpec := (stmtSpec F args expected).
Abbreviation armEffect := (armEffect expected).

Definition noReturn (run : env → option result) : Prop := ∀ ρ ρ' o, run ρ = Some (ρ', o) → o = None.

Lemma noReturn_returned (run : env → option result) (ρ : env) : noReturn run → returned (run ρ) = false.
Proof. intros N. destruct (run ρ) as [[ρ' [v |]] |] eqn:E; try reflexivity. apply N in E. discriminate. Qed.

Lemma noReturn_loop (fuel : nat) (cond : env → option bool) (run : env → option result) :
  noReturn run → noReturn (execLoop fuel cond run).
Proof.
  intros N. induction fuel as [| fuel IH]; intros ρ ρ' o E; cbn in E; [discriminate |].
  destruct (cond ρ) as [[] |]; cbn in E; try discriminate; [| congruence].
  destruct (run ρ) as [[ρ1 [v |]] |] eqn:Er; cbn in E; try discriminate.
  - apply N in Er. discriminate.
  - eapply IH; exact E.
Qed.

(** One iteration, in the scalar program. *)
Section Iteration.
Context (cond : AstNode) (run : env → option result) (Nr : noReturn run).

Abbreviation loop k := (execLoop k (λ ρ, evalCond ρ cond) run).

Lemma loop_cond (k : nat) (ρ ρ' : env) : loop k ρ = Some (ρ', None) → is_Some (evalCond ρ cond).
Proof. destruct k; cbn; [discriminate |]. destruct (evalCond ρ cond); [eauto | discriminate]. Qed.

Lemma loop_false (k : nat) (ρ ρ' : env) :
  loop k ρ = Some (ρ', None) → evalCond ρ cond = Some false → ρ' = ρ ∧ ∀ k', loop (S k') ρ = Some (ρ, None).
Proof.
  destruct k; cbn; [discriminate |]. intros E Ec. rewrite Ec in E. cbn in E. split; [congruence |].
  intros k'. rewrite Ec. reflexivity.
Qed.

Lemma loop_true (k : nat) (ρ ρ' : env) :
  loop k ρ = Some (ρ', None) → evalCond ρ cond = Some true →
  ∃ k' ρ1, k = S (S k') ∧ run ρ = Some (ρ1, None) ∧ loop (S k') ρ1 = Some (ρ', None).
Proof.
  destruct k; cbn; [discriminate |]. intros E Ec. rewrite Ec in E. cbn in E.
  destruct (run ρ) as [[ρ1 [v |]] |] eqn:Er; cbn in E; try discriminate.
  destruct k as [| k']; [discriminate |]. exists k', ρ1. auto.
Qed.
End Iteration.

(** The variables after an iteration: those of the lanes that ran it, and the others'. *)
Definition iterEnv (b : mask) (res : fin 16 → option result) (ρ : fin 16 → env) : fin 16 → env :=
  λ l, if b l then afterEnv res l else ρ l.

Lemma iter_inv (s s' : SPMDBuilder) (c c' : config) (A : gset Symbol) (lay : Symbol → nat) (m b rm : mask)
    (ρ : fin 16 → env) (res : fin 16 → option result) :
  (∀ l, returned (res l) = false) →
  memInv c A lay m rm ρ → armEffect s c A lay (maskAnd m b) rm res s' c' →
  memInv c' A lay m rm (iterEnv b res ρ).
Proof.
  intros Nr MI [_ Fr ME]. destruct (running (maskAnd m b) rm res) as [Em Er]; [auto |].
  eapply (memInv_eq expected c' A lay m m (afterRet (maskAnd m b) rm res) rm); [auto | auto |].
  eapply (memInv_merge expected c c'); [exact MI | exact ME | exact Fr | |].
  - intros l Hl. rewrite Er. apply (mi_active _ _ _ _ _ _ _ MI l Hl).
  - intros l Hl. rewrite Em. unfold maskAnd, iterEnv. rewrite Hl. destruct (b l); auto.
Qed.

Lemma ext_restrict (s s' : SPMDBuilder) (c c' : config) : ext s c s' c' → ext s c s c'.
Proof. intros []. split; auto. Qed.

Record loopEnd (s : SPMDBuilder) (c : config) (A : gset Symbol) (lay : Symbol → nat) (m rm : mask) (ρ : fin 16 → env)
    (LoopEndBB : nat) (c' : config) : Prop := mkLoopEnd {
  le_end : atStart c' LoopEndBB;
  le_ext : ext s c s c';
  le_frame : frame m c c';
  le_inv : memInv c' A lay m rm ρ
}.

(** The iterations, from the builder [s] at the top of the loop. *)
Lemma iterations (A : gset Symbol) (cond : AstNode) (run : env → option result) (LoopTopBB LoopEndBB : nat)
    (s s4 s7 : SPMDBuilder) (v : Value) (c0 : config) (lay : Symbol → nat) (m rm : mask) :
  noReturn run →
  sub (BasicBlocks s4) F → sub (BasicBlocks s7) F →
  (∀ c lay m rm ρ b, sub (BasicBlocks s4) F → atEnd s c → regInv s c A lay m → memInv c A lay m rm ρ →
      (∀ l, m l = true → evalCond (ρ l) cond = Some (b l)) →
    ∃ c' w, seg s c s4 c' ∧ mem c' = mem c ∧ nloc c' = nloc c ∧ regInv s4 c' A lay (maskAnd m b) ∧
      holds s4 c' v (RMask w) ∧ ∀ l, m l = true → w !!! l = Some (b l)) →
  (∀ c lay m rm ρ, sub (BasicBlocks s7) F → atEnd s4 c → regInv s4 c A lay m → memInv c A lay m rm ρ →
      fits expected run m ρ →
      finishes c (λ c', (atStart c' LoopEndBB ∧ noLane m = true ∨ atEnd s7 c' ∧ noLane m = false) ∧
                        armEffect s4 c A lay m rm (λ l, run (ρ l)) s7 c')) →
  (∀ c, atEnd s7 c → stepTo c (jump c LoopTopBB)) →
  (∀ c, atStart c LoopTopBB → atEnd s c) →
  regInv s c0 A lay m →
  ∀ k c ρ ρf, atStart c LoopTopBB → ext s c0 s c → memInv c A lay m rm ρ →
    (∀ l, m l = true → execLoop k (λ ρ, evalCond ρ cond) run (ρ l) = Some (ρf l, None)) →
    finishes c (loopEnd s c A lay m rm ρf LoopEndBB).
Proof.
  intros Nr HF4 HF7 Dc Da Jt Top RI0 k. induction k as [k IH] using lt_wf_ind.
  intros c ρ ρf Hc Ex MI Run.
  assert (RI : regInv s c A lay m).
  { eapply regInv_ext; [exact Ex | split; reflexivity | | exact RI0].
    eapply active_seg; [apply straight_refl | exact Ex | apply RI0]. }
  set (b := condOf cond ρ).
  assert (Hb : ∀ l, m l = true → evalCond (ρ l) cond = Some (b l)).
  { intros l Hl. destruct (loop_cond _ _ _ _ _ (Run l Hl)) as [y Hy]. unfold b, condOf. rewrite Hy. reflexivity. }
  destruct (Dc c lay m rm ρ b HF4 (Top c Hc) RI MI Hb) as (c4 & w & S4 & M4 & L4 & RI4 & _ & _).
  assert (MI4 : memInv c4 A lay m rm ρ) by (eapply memInv_same; eauto).
  eapply finishes_steps; [apply S4 |]. eapply finishes_bind.
  { apply (Da c4 lay (maskAnd m b) rm ρ HF7 (seg_end _ _ _ _ _ _ S4) RI4); [apply first_arm, MI4 |].
    intros l Hl. apply andb_true_iff in Hl as [Hl Hbl].
    destruct (loop_true cond run k (ρ l) (ρf l) (Run l Hl)) as (k' & ρ1 & _ & Er & _).
    { rewrite (Hb l Hl), Hbl. reflexivity. }
    exists ρ1, None. split; [exact Er | discriminate]. }
  intros c7 [W AE].
  assert (MI7 := iter_inv s4 s7 c4 c7 A lay m b rm ρ _ (λ l, noReturn_returned run (ρ l) Nr) MI4 AE).
  assert (Ex7 : ext s c s c7) by (eapply ext_restrict, ext_trans; [apply S4 | apply AE]).
  assert (Fr7 : frame m c c7).
  { eapply (frame_trans m (maskAnd m b) m c c4); [auto | | apply frame_same; assumption | apply AE].
    intros l Hl. unfold maskAnd. rewrite Hl. reflexivity. }
  assert (Next : ∀ l, m l = true → if b l then ∃ k', k = S (S k') ∧
      execLoop (S k') (λ ρ, evalCond ρ cond) run (iterEnv b (λ l, run (ρ l)) ρ l) = Some (ρf l, None)
    else ρf l = ρ l ∧ ∀ k', execLoop (S k') (λ ρ, evalCond ρ cond) run (iterEnv b (λ l, run (ρ l)) ρ l) = Some (ρf l, None)).
  { intros l Hl. specialize (Run l Hl). specialize (Hb l Hl). unfold iterEnv, afterEnv. destruct (b l).
    - destruct (loop_true cond run k _ _ Run Hb) as (k' & ρ1 & Ek & Er & El). exists k'. rewrite Er. auto.
    - destruct (loop_false cond run k _ _ Run Hb) as [-> El]. auto. }
  destruct W as [[W No] | [W No]].
  - apply finishes_now. split; [exact W | exact Ex7 | exact Fr7 |].
    eapply memInv_eq; [reflexivity | | exact MI7]. intros l Hl. split; [exact Hl |].
    rewrite noLane_spec in No. specialize (No l). unfold maskAnd in No. rewrite Hl in No. cbn in No.
    specialize (Next l Hl). unfold iterEnv. rewrite No in *. apply Next.
  - assert (Hk : ∃ k', k = S (S k')).
    { destruct k as [| [| k']]; [| | eauto]; exfalso; apply not_true_iff_false in No; apply No, noLane_spec; intros l;
        unfold maskAnd; destruct (m l) eqn:Hl; try reflexivity; specialize (Next l Hl);
        destruct (b l); try reflexivity; destruct Next as (k' & Ek & _); discriminate. }
    destruct Hk as [k' ->].
    eapply finishes_steps; [apply rtc_once, Jt, W |]. eapply finishes_bind.
    { apply (IH (S k') ltac:(lia) (jump c7 LoopTopBB) (iterEnv b (λ l, run (ρ l)) ρ) ρf).
      - split; reflexivity.
      - eapply ext_trans; [exact Ex |]. eapply ext_trans; [exact Ex7 |]. apply ext_jump. lia.
      - apply (memInv_same expected c7); [reflexivity | reflexivity | exact MI7].
      - intros l Hl. specialize (Next l Hl). destruct (b l); [| apply Next].
        destruct Next as (k'' & Ek & El). injection Ek as <-. exact El. }
    intros c8 [W8 Ex8 Fr8 MI8]. apply finishes_now. split; [exact W8 | | | exact MI8].
    + eapply ext_trans; [exact Ex7 |]. eapply ext_trans; [| exact Ex8]. apply ext_jump. lia.
    + eapply (frame_trans m m m c (jump c7 LoopTopBB)); [auto | auto | | exact Fr8].
      eapply (frame_trans m m m c c7); [auto | auto | exact Fr7 | apply frame_same; reflexivity].
Qed.

Definition loopRun (fuel : nat) (cond : AstNode) (run : env → option result) : env → option result :=
  execLoop fuel (λ ρ, evalCond ρ cond) run.

(** What [generate] emits for a loop whose blocks are made. *)
Lemma loop_spec (fuel : nat) (A A1 D D1 : gset Symbol) (cond : AstNode) (gb : GenM (option Value))
    (run : env → option result) (eb : bool) (LoopTopBB LoopBodyBB LoopEndBB : nat) (s : SPMDBuilder) :
  scopedCond A cond = true → A ⊆ D → A ⊆ A1 → (∀ n, Grows n gb (λ _, True)) → noReturn run →
  stmtSpec false eb A D A1 D1 gb run →
  ready s → dom (Symbols s) = D →
  parked s LoopTopBB → parked s LoopBodyBB → parked s LoopEndBB →
  LoopTopBB ≠ LoopBodyBB → LoopTopBB ≠ LoopEndBB → LoopBodyBB ≠ LoopEndBB →
  ∃ s', generateLoop LoopTopBB LoopBodyBB LoopEndBB (generate cond) gb s = Ret (None, s') ∧
    after s s' ∧ dom (Symbols s') = D1 ∧ opened s' ∧ nonempty s' ∧
    ∀ c lay m rm ρ, sub (BasicBlocks s') F → atEnd s c → regInv s c A lay m → memInv c A lay m rm ρ →
      topInv s m rm → fits expected (loopRun fuel cond run) m ρ →
      finishes c (effect s c A lay m rm (λ l, loopRun fuel cond run (ρ l)) s' A).
Proof.
  intros Sc I I1 Gb Nr Sp R Ds Pt Pb Pe Ntb Nte Nbe.
  destruct (branch_joined F args LoopTopBB s R Pt) as (s1 & s2 & E1 & E2 & J2). assert (R2 := jn_ready _ _ _ _ _ J2).
  assert (Ds2 : dom (Symbols s2) = D) by (rewrite (sv_symbols _ _ (jn_vars _ _ _ _ _ J2)); exact Ds).
  destruct (cond_spec F args expected A cond s2 Sc R2 ltac:(set_solver)) as (v & s3 & s4 & cm & E3 & E4 & Es4 & K4 & R4 & D4).
  assert (Pk4 : ∀ b, parked s b → b ≠ LoopTopBB → parked s4 b).
  { intros b P Hne. eapply (parked_by (pushMask v)); [grows_op | exact E4 |].
    eapply (parked_by (generate cond ≫= nonnull)); [apply Grows_then; [apply Grows_generate | intros; grows_op] | exact E3 |].
    apply (jn_parked _ _ _ _ _ J2); assumption. }
  destruct (arm_spec F args expected false eb A D A1 D1 gb run LoopEndBB LoopBodyBB s4 _ _ Gb I1 Sp R4 Es4)
    as (s5 & s6 & x & s7 & E5 & E6 & E7 & Af7 & Ds7 & O7 & NE7 & Pk7 & D7).
  { rewrite (kp_symbols _ _ K4). exact Ds2. }
  { apply Pk4; auto. }
  destruct (branch_spec F args LoopTopBB s7 (af_ready _ _ Af7)) as (s8 & E8 & Cl8 & D8).
  assert (R8 := straight_ready _ _ (cl_straight _ _ Cl8) (af_ready _ _ Af7)).
  assert (P8 : parked s8 LoopEndBB).
  { eapply (parked_by (branch LoopTopBB)); [grows_op | exact E8 |]. apply Pk7; [apply Pk4 |]; auto. }
  destruct (startBasicBlock_spec F args LoopEndBB s8 R8 P8) as (s9 & E9 & Sd9 & _).
  assert (X9 : extends s s9).
  { eapply extends_trans; [apply sameVars_extends, J2 |]. eapply extends_trans; [apply sameVars_extends, kept_sameVars, K4 |].
    eapply extends_trans; [apply after_extends, Af7 |].
    eapply extends_trans; [apply sameVars_extends, kept_sameVars, straight_kept, Cl8 | eapply sameVars_extends, started_sameVars, Sd9]. }
  assert (Es9 : ∃ top, MaskStack s9 = top :: MaskStack s).
  { pose proof (af_stack _ _ Af7) as St. rewrite Es4, (jn_stack _ _ _ _ _ J2) in St. destruct St as [cm' St].
    rewrite (sd_stack _ _ _ Sd9), (st_stack _ _ (cl_straight _ _ Cl8)), St. eauto. }
  destruct Es9 as [top9 Es9].
  destruct (pop_effect F args expected s s9 top9 R (sd_ready _ _ _ Sd9) X9 Es9) as (s10 & E10 & Af10 & Sy10 & O10 & NE10 & D10).
  exists s10. split.
  { unfold generateLoop. erewrite gbind_Ret by exact E1. erewrite gbind_Ret by exact E2.
    erewrite gbind_Ret by exact E3. erewrite gbind_Ret by exact E4. erewrite gbind_Ret by exact E5.
    erewrite gbind_Ret by exact E6. erewrite gbind_Ret by exact E7. erewrite gbind_Ret by exact E8.
    erewrite gbind_Ret by exact E9. erewrite gbind_Ret by exact E10. reflexivity. }
  split; [exact Af10 |].
  split; [rewrite Sy10, (sd_symbols _ _ _ Sd9), (st_symbols _ _ (cl_straight _ _ Cl8)); exact Ds7 |].
  split; [exact O10 |]. split; [exact NE10 |].
  intros c lay m rm ρ HF Hc RI MI Ti Ft. subs. insts.
  assert (sub (BasicBlocks s6) F).
  { eapply sub_trans; [eapply (grow_sub 0), (grow_by 0 gb); [apply Gb | exact E7 | lia] | assumption]. }
  subs.
  assert (G3 : Grows 0 (generate cond ≫= nonnull) (λ _, True)) by (apply Grows_then; [apply Grows_generate | intros; grows_op]).
  assert (HF2 : sub (BasicBlocks s2) F).
  { eapply sub_trans; [eapply (grow_sub 0), (grow_by 0 _); [exact G3 | exact E3 | lia] | assumption]. }
  assert (N3 : (NextInst s2 ≤ NextInst s3)%nat) by (eapply (grow_inst 0), (grow_by 0 _); [exact G3 | exact E3 | lia]).
  assert (N7 : (NextInst s6 ≤ NextInst s7)%nat) by (eapply (grow_inst 0), (grow_by 0 gb); [apply Gb | exact E7 | lia]).
  destruct (jn_run _ _ _ _ _ J2 c True True HF2 (or_intror (conj Hc Logic.I))) as (c2 & J & Hs2 & Ex2 & M2 & L2).
  assert (RI2 : regInv s2 c2 A lay m).
  { eapply regInv_ext; [exact Ex2 | apply J2 | | exact RI].
    pose proof (ri_active _ _ _ _ _ _ RI) as Ha. unfold SpmdSimulation.active in *.
    rewrite (jn_active _ _ _ _ _ J2), (jn_stack _ _ _ _ _ J2).
    destruct (ActiveLanes s); [eapply holds_ext; eassumption | exact Ha]. }
  assert (MI2 : memInv c2 A lay m rm ρ) by (eapply memInv_same; eauto).
  set (res := λ l, loopRun fuel cond run (ρ l)).
  assert (NrL : ∀ l, returned (res l) = false) by (intros l; apply noReturn_returned, noReturn_loop, Nr).
  assert (Run : ∀ l, m l = true → loopRun fuel cond run (ρ l) = Some (afterEnv res l, None)).
  { intros l Hl. destruct (Ft l Hl) as (ρ' & o & El & _). unfold afterEnv, res. rewrite El.
    f_equal. f_equal. exact (noReturn_loop _ _ _ Nr _ _ _ El). }
  eapply finishes_steps; [exact J |]. eapply finishes_bind.
  { eapply (iterations A cond run LoopTopBB LoopEndBB s2 s4 s7 v c2 lay m rm Nr); try eassumption.
    - intros c' Hc'. apply D8; assumption.
    - apply (jn_start _ _ _ _ _ J2).
    - apply ext_refl. }
  intros c9 [W9 Ex9 Fr9 MI9].
  apply (D10 c c9 A lay m rm ρ res); try assumption.
  - destruct W9 as [Eb Ei]. eapply started_atEnd; eauto.
  - eapply ext_trans; [exact Ex2 |]. eapply ext_trans; [exact Ex9 |]. split; [| auto | lia].
    pose proof (sd_inst _ _ _ Sd9). lia.
  - eapply (frame_trans m m m c c2); [auto | auto | apply frame_same; assumption | exact Fr9].
  - destruct (running m rm res) as [Em Er]; [auto |].
    eapply memInv_eq; [exact Er | | exact MI9]. intros l Hl. rewrite Em in Hl. auto.
Qed.
End Loops.
