(* ===== verification/SpmdCorrect.v ===== *)
(** * SpmdCorrect: the compiled kernel computes every lane

    Every statement [scoped] admits is generated, and its code does in every lane
    what the scalar statement does; the kernel then returns in every lane what the
    scalar program returns there. *)
From stdpp Require Import vector fin.
From S2P Require Import Prelude.
From S2P Require Import SpmdBuilder.
From S2P Require Import SpmdMachine.
From S2P Require Import SpmdGenerate.
From S2P Require Import SpmdSimulation.
From S2P Require Import SpmdControl.
From S2P Require Import SpmdInvariant.
From S2P Require Import SpmdStatements.
From S2P Require Import SpmdLoops.

Section Scope.
Context `{FloatOps}.

(** ** The kernels of the theorem *)

(** A body: statements, then the return that ends the kernel in every lane. *)
Fixpoint scopedBody (n : AstNode) (S : scope) : bool :=
  match n with
  | ReturnAst e => scopedExpr (fst S) e
  | SequenceAst a b =>
      match (if isNull a then Some S else scoped false false a S) with
      | Some S1 => scopedBody b S1
      | None => false
      end
  | _ => false
  end.

Definition scopedKernel (params : list Symbol) (body : AstNode) : bool :=
  bool_decide (NoDup params) && scopedBody body (list_to_set params, list_to_set params).
End Scope.

Section Statements.
Context `{FloatOps} (F : list BasicBlock) (args : list RTVal) (expected : vec float 16) (fuel : nat).

Abbreviation env := (gmap Symbol float).
Abbreviation stmtSpec := (stmtSpec F args expected).
Abbreviation stmtAt := (stmtAt F args expected).
Abbreviation seg := (seg F args).
Abbreviation memInv := (memInv expected).
Abbreviation regInv := (regInv args).

(** ** Scopes grow *)
Lemma scoped_mono (n : AstNode) : ∀ inLoop ret A D A' D',
  scoped inLoop ret n (A, D) = Some (A', D') → A ⊆ D → A ⊆ A' ∧ D ⊆ D' ∧ A' ⊆ D'.
Proof.
  induction n; intros inLoop ret A D A' D' Sc I; cbn in Sc; try discriminate.
  - destruct n1; try discriminate. destruct (_ && _); [| discriminate]. injection Sc as <- <-. set_solver.
  - destruct (isNull n1) eqn:N1; cbn in Sc.
    + destruct (isNull n2); [injection Sc as <- <-; auto | eauto].
    + destruct (scoped inLoop ret n1 (A, D)) as [[A1 D1] |] eqn:E1; [| discriminate]. cbn in Sc.
      destruct (IHn1 _ _ _ _ _ _ E1 I) as (? & ? & ?).
      destruct (isNull n2); [injection Sc as <- <-; auto |].
      destruct (IHn2 _ _ _ _ _ _ Sc) as (? & ? & ?); [assumption |]. split_and!; [etransitivity | etransitivity |]; eassumption.
  - destruct (scopedCond A n1); [| discriminate].
    destruct (scoped inLoop (negb inLoop) n2 (A, D)) as [[A1 D1] |] eqn:E1; [| discriminate]. cbn in Sc.
    destruct (IHn2 _ _ _ _ _ _ E1 I) as (? & ? & ?).
    destruct (isNull n3).
    + destruct (emits n2); [| discriminate]. injection Sc as <- <-. split_and!; [reflexivity | assumption | etransitivity; eassumption].
    + destruct (scoped inLoop (negb inLoop) n3 (A, D1)) as [[A2 D2] |] eqn:E2; [| discriminate]. injection Sc as <- <-.
      destruct (IHn3 _ _ _ _ _ _ E2) as (? & ? & ?); [etransitivity; eassumption |].
      split_and!; [reflexivity | etransitivity; eassumption | etransitivity; [exact I | etransitivity; eassumption]].
  - destruct (scopedCond A n1); [| discriminate].
    destruct (scoped true false n2 (A, D)) as [[A1 D1] |] eqn:E1; [| discriminate]. injection Sc as <- <-.
    destruct (IHn2 _ _ _ _ _ _ E1 I) as (? & ? & ?). split_and!; [reflexivity | assumption | etransitivity; eassumption].
  - destruct (scoped true false n1 (A, D)) as [[A1 D1] |] eqn:E1; [| discriminate]. cbn in Sc.
    destruct (IHn1 _ _ _ _ _ _ E1 I) as (? & ? & ?). destruct (scopedCond A1 n2); [| discriminate].
    destruct (scoped true false n3 (A1, D1)) as [[A2 D2] |] eqn:E2; [| discriminate]. injection Sc as <- <-.
    destruct (IHn3 _ _ _ _ _ _ E2) as (? & ? & ?); [assumption |].
    split_and!; [assumption | etransitivity; eassumption | etransitivity; eassumption].
  - destruct (_ && _); [| discriminate]. injection Sc as <- <-. auto.
Qed.

(** Inside a loop nothing returns. *)
Lemma scoped_noReturn (n : AstNode) : ∀ S S', scoped true false n S = Some S' → noReturn (exec fuel n).
Proof.
  induction n; intros [A D] [A' D'] Sc ρ ρ' o E; cbn in Sc, E; try discriminate.
  - destruct n1; try discriminate. destruct (evalExpr ρ n2); [| discriminate]. injection E as _ <-. reflexivity.
  - destruct (isNull n1) eqn:N1; cbn in Sc, E.
    + destruct (isNull n2); [injection E as _ <-; reflexivity | eapply IHn2; eauto].
    + destruct (scoped true false n1 (A, D)) as [[A1 D1] |] eqn:E1; [| discriminate]. cbn in Sc.
      destruct (exec fuel n1 ρ) as [[ρ1 [v |]] |] eqn:X1; cbn in E; try discriminate.
      * eapply IHn1 in X1; [discriminate | exact E1].
      * destruct (isNull n2); [injection E as _ <-; reflexivity | eapply IHn2; eauto].
  - destruct (scopedCond A n1); [| discriminate].
    destruct (scoped true false n2 (A, D)) as [[A1 D1] |] eqn:E1; [| discriminate]. cbn in Sc.
    destruct (evalCond ρ n1) as [[] |]; cbn in E; [eapply IHn2; eauto | | discriminate].
    destruct (isNull n3); [injection E as _ <-; reflexivity |].
    destruct (scoped true false n3 (A, D1)) as [[A2 D2] |] eqn:E2; [| discriminate]. eapply IHn3; eauto.
  - destruct (scopedCond A n1); [| discriminate].
    destruct (scoped true false n2 (A, D)) as [[A1 D1] |] eqn:E1; [| discriminate].
    eapply noReturn_loop; [| exact E]. eapply IHn2; eauto.
  - destruct (scoped true false n1 (A, D)) as [[A1 D1] |] eqn:E1; [| discriminate]. cbn in Sc.
    destruct (exec fuel n1 ρ) as [[ρ1 [v |]] |] eqn:X1; cbn in E; try discriminate.
    + eapply IHn1 in X1; [discriminate | exact E1].
    + destruct (scopedCond A1 n2); [| discriminate].
      destruct (scoped true false n3 (A1, D1)) as [[A2 D2] |] eqn:E2; [| discriminate].
      eapply noReturn_loop; [| exact E]. eapply IHn3; eauto.
Qed.

(** ** The statements of [generate] *)

(** A value after the code of a statement. *)
Lemma then_mret (s : SPMDBuilder) (em : bool) (A A' D' : gset Symbol) {X Y : Type} (g : GenM X) (y : Y) (run : env → option result) :
  stmtAt s em A A' D' g run → stmtAt s em A A' D' (g;; mret y) run.
Proof.
  intros (v & s' & E & Rest). exists y, s'. split; [erewrite gbind_Ret by exact E; reflexivity | exact Rest].
Qed.

Lemma threeBlocks_spec (s : SPMDBuilder) :
  ready s →
  ∃ s1 s2 s3 b1 b2 b3,
    createBasicBlock s = Ret (b1, s1) ∧ createBasicBlock s1 = Ret (b2, s2) ∧ createBasicBlock s2 = Ret (b3, s3) ∧
    (b1 < b2 < b3)%nat ∧ parked s3 b1 ∧ parked s3 b2 ∧ parked s3 b3 ∧ emitted s s3 ∧ ready s3 ∧
    ∀ c, atEnd s c → seg s c s3 c.
Proof.
  intros R.
  destruct (createBasicBlock_spec F args s R) as (s1 & E1 & Em1 & P1 & N1 & D1). assert (R1 := emitted_ready _ _ Em1 R).
  destruct (createBasicBlock_spec F args s1 R1) as (s2 & E2 & Em2 & P2 & N2 & D2). assert (R2 := emitted_ready _ _ Em2 R1).
  destruct (createBasicBlock_spec F args s2 R2) as (s3 & E3 & Em3 & P3 & N3 & D3). assert (R3 := emitted_ready _ _ Em3 R2).
  exists s1, s2, s3, (nblocks s), (nblocks s1), (nblocks s2).
  assert (K2 : ∀ b, parked s1 b → parked s2 b) by (intros; eapply parked_by; [apply Grows_newBlock | exact E2 | assumption]).
  assert (K3 : ∀ b, parked s2 b → parked s3 b) by (intros; eapply parked_by; [apply Grows_newBlock | exact E3 | assumption]).
  split_and!; try assumption; try lia; auto.
  - eapply emitted_trans; [exact Em1 | eapply emitted_trans; [exact Em2 | exact Em3]].
  - intros c Hc. eapply seg_trans; [apply D1, Hc |]. eapply seg_trans; [apply D2, D1, Hc | apply D3, D2, D1, Hc].
Qed.

(** Code that runs from a builder that only has more blocks. *)
Lemma stmtAt_idle (s s1 : SPMDBuilder) (em : bool) (A A' D' : gset Symbol) {X : Type} (g g1 : GenM X) (run : env → option result) :
  ready s → emitted s s1 → (∀ c, atEnd s c → seg s c s1 c) → g s = g1 s1 →
  stmtAt s1 em A A' D' g1 run → stmtAt s em A A' D' g run.
Proof.
  intros R Em Sg Eg (v & s' & E & Af & Ds & O & NE & NE' & Dy). exists v, s'.
  split; [rewrite Eg; exact E |]. split; [eapply after_trans; [apply straight_after, Em; exact R | exact Af] |].
  split; [exact Ds |]. split; [exact O |]. split; [exact NE |].
  split; [intros Hn; apply NE', (em_nonempty _ _ Em), Hn |].
  intros c lay m rm ρ HF Hc RI MI Ti Ft. assert (S := Sg c Hc). assert (St := em_straight _ _ Em).
  eapply finishes_bind.
  - apply (Dy c lay m rm ρ); [exact HF | apply S | | exact MI | | exact Ft].
    + eapply regInv_ext; [apply S | apply kept_sameVars, straight_kept, St | | exact RI].
      eapply active_seg; [exact St | apply S | apply RI].
    + intros Hs. apply Ti. rewrite <- (st_stack _ _ St). exact Hs.
  - intros c' [He Ex Fr Inv]. apply finishes_now. split; [exact He | eapply ext_trans; [apply S | exact Ex] | exact Fr | exact Inv].
Qed.

Lemma while_stmt (ret : bool) (A D A1 D1 : gset Symbol) (cond body : AstNode) :
  scopedCond A cond = true → A ⊆ D → A ⊆ A1 → noReturn (exec fuel body) →
  stmtSpec false (emits body) A D A1 D1 (generate body) (exec fuel body) →
  stmtSpec ret true A D A D1 (generate (WhileAst cond body)) (exec fuel (WhileAst cond body)).
Proof.
  intros Sc I I1 Nr Sp s R Ds _ O.
  destruct (threeBlocks_spec s R) as (s1 & s2 & s3 & b1 & b2 & b3 & E1 & E2 & E3 & Lt & P1 & P2 & P3 & Em & R3 & Sg).
  eapply stmtAt_idle; [exact R | exact Em | exact Sg | |].
  { cbn [generate]. erewrite gbind_Ret by exact E1. erewrite gbind_Ret by exact E2. erewrite gbind_Ret by exact E3. reflexivity. }
  destruct (loop_spec F args expected fuel A A1 D D1 cond (generate body) (exec fuel body) (emits body) b1 b2 b3 s3)
    as (s4 & E4 & Af4 & Ds4 & O4 & NE4 & D4); try assumption; try lia.
  { intros n. apply Grows_generate. }
  { rewrite (st_symbols _ _ (em_straight _ _ Em)). exact Ds. }
  exists None, s4. split; [exact E4 |]. split; [exact Af4 |]. split; [exact Ds4 |]. split; [exact O4 |].
  split; [auto |]. split; [auto |]. exact D4.
Qed.

Lemma for_stmt (ret e1 : bool) (A D A1 D1 A2 D2 : gset Symbol) (init cond body : AstNode) :
  scopedCond A1 cond = true → A ⊆ A1 → A1 ⊆ D1 → A1 ⊆ A2 → noReturn (exec fuel body) →
  stmtSpec false e1 A D A1 D1 (generate init) (exec fuel init) →
  stmtSpec false (emits body) A1 D1 A2 D2 (generate body) (exec fuel body) →
  stmtSpec ret true A D A1 D2 (generate (ForAstNode init cond body)) (exec fuel (ForAstNode init cond body)).
Proof.
  intros Sc I I1 I2 Nr Spi Sp s R Ds _ O.
  destruct (threeBlocks_spec s R) as (s1 & s2 & s3 & b1 & b2 & b3 & E1 & E2 & E3 & Lt & P1 & P2 & P3 & Em & R3 & Sg).
  eapply stmtAt_idle; [exact R | exact Em | exact Sg | |].
  { cbn [generate]. erewrite gbind_Ret by exact E1. erewrite gbind_Ret by exact E2. erewrite gbind_Ret by exact E3. reflexivity. }
  rewrite <- (orb_true_r e1).
  eapply (seq_at F args expected s3 e1 true A A1 D1 A1 D2 (generate init) _ (exec fuel init)
            (loopRun fuel cond (exec fuel body))).
  - apply Grows_loop; try apply Grows_generate; lia.
  - exact I.
  - apply Spi; [exact R3 | rewrite (st_symbols _ _ (em_straight _ _ Em)); exact Ds | discriminate | apply Em, O].
  - intros v s4 E4 Af4 Ds4 O4.
    assert (Pk : ∀ b, parked s3 b → parked s4 b).
    { intros b Pb. eapply (parked_by (generate init)); [apply Grows_generate | exact E4 | exact Pb]. }
    destruct (loop_spec F args expected fuel A1 A2 D1 D2 cond (generate body) (exec fuel body) (emits body) b1 b2 b3 s4)
      as (s5 & E5 & Af5 & Ds5 & O5 & NE5 & D5); try assumption; try lia; auto.
    { intros n. apply Grows_generate. }
    { apply Af4. }
    exists None, s5. split_and!; auto.
Qed.

(** A component of a sequence, which may be null. *)
Lemma seq_part (ret : bool) (A D A' D' : gset Symbol) (n : AstNode) :
  A ⊆ D → (isNull n = true → A = A' ∧ D = D') →
  (isNull n = false → stmtSpec ret (emits n) A D A' D' (generate n) (exec fuel n)) →
  stmtSpec ret (emits n) A D A' D' (if isNull n then mret tt else generate n;; mret tt)
    (λ ρ, if isNull n then Some (ρ, None) else exec fuel n ρ).
Proof.
  intros I Hn Hs. destruct (isNull n) eqn:N.
  - destruct (Hn eq_refl) as [<- <-]. destruct n; try discriminate. apply skip_stmt. exact I.
  - intros s R Ds Hr O. apply then_mret, Hs; auto.
Qed.

(** Every statement that is well scoped. *)
Theorem generate_stmt (n : AstNode) : ∀ inLoop ret A D A' D',
  scoped inLoop ret n (A, D) = Some (A', D') → A ⊆ D →
  stmtSpec ret (emits n) A D A' D' (generate n) (exec fuel n).
Proof.
  induction n; intros inLoop ret A D A' D' Sc I; cbn in Sc; try discriminate.
  - destruct n1; try discriminate.
    destruct (scopedExpr A n2) eqn:Se; [| discriminate]. cbn in Sc.
    destruct (bool_decide (Sym ∈ A) || negb (bool_decide (Sym ∈ D))) eqn:B; [| discriminate]. injection Sc as <- <-.
    apply assign_stmt; [exact Se | exact I |]. apply orb_true_iff in B as [B | B].
    + left. apply bool_decide_eq_true in B. exact B.
    + right. apply negb_true_iff, bool_decide_eq_false in B. exact B.
  - assert (M : ∃ A1 D1, (if isNull n1 then Some (A, D) else scoped inLoop ret n1 (A, D)) = Some (A1, D1) ∧
      (if isNull n2 then Some (A1, D1) else scoped inLoop ret n2 (A1, D1)) = Some (A', D') ∧ A ⊆ A1 ∧ A1 ⊆ D1).
    { destruct (isNull n1); cbn in Sc; [exists A, D; auto |].
      destruct (scoped inLoop ret n1 (A, D)) as [[A1 D1] |] eqn:E1; [| discriminate].
      destruct (scoped_mono _ _ _ _ _ _ _ E1 I) as (? & ? & ?). exists A1, D1. auto. }
    destruct M as (A1 & D1 & M1 & M2 & I1 & I2). cbn [generate exec emits].
    apply (seq_stmt F args expected ret (emits n1) (emits n2) A D A1 D1 A' D' _ _
             (λ ρ, if isNull n1 then Some (ρ, None) else exec fuel n1 ρ)
             (λ ρ, if isNull n2 then Some (ρ, None) else exec fuel n2 ρ)).
    + destruct (isNull n2); grows; apply Grows_generate.
    + exact I1.
    + apply seq_part; [exact I | |]; intros N; rewrite N in M1; [injection M1; auto | eapply IHn1; eauto].
    + intros s R Ds Hr O. apply then_mret.
      refine (seq_part ret A1 D1 A' D' n2 I2 _ _ s R Ds Hr O); intros N; rewrite N in M2;
        [injection M2; auto | eapply IHn2; eauto].
  - destruct (scopedCond A n1) eqn:Ec; [| discriminate].
    destruct (scoped inLoop (negb inLoop) n2 (A, D)) as [[A1 D1] |] eqn:E1; [| discriminate]. cbn in Sc.
    destruct (scoped_mono _ _ _ _ _ _ _ E1 I) as (? & ? & ?). cbn [generate exec emits].
    destruct (isNull n3).
    + destruct (emits n2) eqn:Em; [| discriminate]. injection Sc as <- <-.
      eapply (ifThen_stmt F args expected ret (negb inLoop) A D A1 D1 n1 (generate n2) (exec fuel n2));
        [assumption .. | intros; apply Grows_generate |].
      exact (IHn2 _ _ _ _ _ _ E1 I).
    + destruct (scoped inLoop (negb inLoop) n3 (A, D1)) as [[A2 D2] |] eqn:E2; [| discriminate]. injection Sc as <- <-.
      assert (I3 : A ⊆ D1) by (etransitivity; eassumption).
      destruct (scoped_mono _ _ _ _ _ _ _ E2 I3) as (? & ? & ?).
      apply (ifElse_stmt F args expected ret (negb inLoop) (emits n2) (emits n3) A D A1 D1 A2 D2 n1 (generate n2) (generate n3)
               (exec fuel n2) (exec fuel n3)); try assumption; try (intros; apply Grows_generate);
        [eapply IHn2 | eapply IHn3]; eassumption.
  - destruct (scopedCond A n1) eqn:Ec; [| discriminate].
    destruct (scoped true false n2 (A, D)) as [[A1 D1] |] eqn:E1; [| discriminate]. injection Sc as <- <-.
    destruct (scoped_mono _ _ _ _ _ _ _ E1 I) as (? & ? & ?).
    apply (while_stmt ret A D A1 D1); [exact Ec | exact I | eassumption | eapply scoped_noReturn; exact E1 | eapply IHn2; eassumption].
  - destruct (scoped true false n1 (A, D)) as [[A1 D1] |] eqn:E1; [| discriminate]. cbn in Sc.
    destruct (scopedCond A1 n2) eqn:Ec; [| discriminate].
    destruct (scoped true false n3 (A1, D1)) as [[A2 D2] |] eqn:E2; [| discriminate]. injection Sc as <- <-.
    destruct (scoped_mono _ _ _ _ _ _ _ E1 I) as (? & ? & ?). destruct (scoped_mono _ _ _ _ _ _ _ E2) as (? & ? & ?); [assumption |].
    apply (for_stmt ret (emits n1) A D A1 D1 A2 D2); [exact Ec | assumption | assumption | eassumption | eapply scoped_noReturn; exact E2
                     | eapply IHn1; eassumption | eapply IHn3; eassumption].
  - destruct ret; [| discriminate]. cbn in Sc.
    destruct (scopedExpr A n) eqn:Se; [| discriminate]. injection Sc as <- <-. apply return_stmt; assumption.
Qed.
End Statements.

Section Kernel.
Context `{FloatOps}.

Abbreviation env := (gmap Symbol float).

(** ** The entry of the kernel *)
Definition allLanes : mask := λ _, true.

Section Entry.
Context (F : list BasicBlock) (argv : list (vec float 16)) (expected : vec float 16).

Abbreviation args := (map (λ v, RFloats (vmap Some v)) argv).
Abbreviation seg := (seg F args).
Abbreviation memInv := (memInv expected).
Abbreviation regInv := (regInv args).

(** The builder after [startFunction]. *)
Definition entryBuilder : SPMDBuilder :=
  mkBuilder [[(0%nat, Alloca VecFloat); (1%nat, Alloca VecMask); (2%nat, Store AllOnes (VInst 1))]] (Some 0%nat) 3 [] None
    (Some (VInst 0)) (Some (VInst 1)) ∅.

Lemma startFunction_entry : startFunction newSPMDBuilder = Ret (tt, entryBuilder).
Proof. reflexivity. Qed.

Lemma entry_ready : ready entryBuilder.
Proof. split; cbn; eauto. Qed.

Lemma entry_opened : opened entryBuilder.
Proof. intros b id i [= <-] [= <- <-]. reflexivity. Qed.

(** The configuration at its end. *)
Definition entryConfig : config :=
  mkConfig 0 3 (<[1%nat := RPtr 1]> (<[0%nat := RPtr 0]> ∅))
    (<[1%nat := RMask (mvec allLanes)]> (<[1%nat := undef VecMask]> (<[0%nat := undef VecFloat]> ∅))) 2.

Lemma entry_steps : sub (BasicBlocks entryBuilder) F → rtc (stepTo F args) initial entryConfig.
Proof.
  intros HF. destruct (HF 0%nat) as [k Hk]. change (getBlock F 0 = block entryBuilder 0 ++ k) in Hk.
  assert (St : ∀ i x, (i < 3)%nat → block entryBuilder 0 !! i = Some x → getBlock F 0 !! i = Some x).
  { intros i x Hi E. rewrite Hk. apply lookup_app_l_Some. exact E. }
  eapply rtc_l; [unfold stepTo, step, initial; cbn [blk idx]; rewrite (St 0%nat _ ltac:(lia) eq_refl); reflexivity |].
  eapply rtc_l; [unfold stepTo, step; cbn [blk idx advance]; rewrite (St 1%nat _ ltac:(lia) eq_refl); reflexivity |].
  apply rtc_once. unfold stepTo, step. cbn [blk idx advance]. rewrite (St 2%nat _ ltac:(lia) eq_refl). reflexivity.
Qed.

Lemma entry_invs (ρ : fin 16 → env) (lay : Symbol → nat) :
  atEnd entryBuilder entryConfig ∧ regInv entryBuilder entryConfig ∅ lay allLanes ∧
  memInv entryConfig ∅ lay allLanes allLanes ρ.
Proof.
  split; [split; reflexivity |]. split; split.
  - split; [reflexivity | reflexivity].
  - split; [exists (VInst 0) | exists (VInst 1)]; (split; [reflexivity |]; split; [intros i [= <-]; cbn; lia | reflexivity]).
  - set_solver.
  - exists (vreplicate 16 None). split; [reflexivity | discriminate].
  - reflexivity.
  - auto.
  - set_solver.
  - intros l _ x f w Hx. set_solver.
  - set_solver.
  - cbn. lia.
Qed.

(** ** The parameters *)
Lemma argument_spec (A : gset Symbol) (x : Symbol) (i : nat) (a : vec float 16) (s : SPMDBuilder) :
  ready s → dom (Symbols s) = A → x ∉ A → MaskStack s = [] → ActiveLanes s = None → argv !! i = Some a →
  ∃ p s1 s2 s3 v, createLocalVariable VecFloat s = Ret (p, s1) ∧ setSymbol x p s1 = Ret (tt, s2) ∧
    assignLocalVariable p (Some (VArg i)) s2 = Ret (v, s3) ∧ ready s3 ∧ dom (Symbols s3) = {[x]} ∪ A ∧
    MaskStack s3 = [] ∧ ActiveLanes s3 = None ∧ opened s3 ∧
    ∀ c lay ρ, sub (BasicBlocks s3) F → atEnd s c → regInv s c A lay allLanes → memInv c A lay allLanes allLanes ρ →
    ∃ c' lay', seg s c s3 c' ∧ regInv s3 c' ({[x]} ∪ A) lay' allLanes ∧
      memInv c' ({[x]} ∪ A) lay' allLanes allLanes (λ l, <[x := a !!! l]> (ρ l)).
Proof.
  intros R Ds Hx Es Ea Hi.
  destruct (newVariable_spec F args expected A x s R) as (p & s1 & s2 & E1 & E2 & Af2 & _ & Es2 & Ea2 & Sy & O2 & D2).
  { apply not_elem_of_dom. rewrite Ds. exact Hx. }
  { exact Hx. }
  destruct (assign_spec F args p (VArg i) s2 (af_ready _ _ Af2)) as (s3 & E3 & Em3 & O3 & _ & D3).
  assert (St3 := em_straight _ _ Em3).
  exists p, s1, s2, s3, (Some (VArg i)). split; [exact E1 |]. split; [exact E2 |]. split; [exact E3 |].
  split; [eapply emitted_ready; [exact Em3 | apply Af2] |].
  split; [rewrite (st_symbols _ _ St3), Sy, dom_insert_L, Ds; reflexivity |].
  split; [rewrite (st_stack _ _ St3), Es2; exact Es |]. split; [rewrite (st_active _ _ St3), Ea2; exact Ea |].
  split; [exact O3 |].
  intros c lay ρ HF Hc RI MI.
  assert (HF2 : sub (BasicBlocks s2) F).
  { eapply sub_trans; [| exact HF]. eapply (grow_sub 0), (grow_by 0 (assignLocalVariable p (Some (VArg i)))); [grows_op | exact E3 | lia]. }
  destruct (D2 c lay allLanes allLanes ρ HF2 Hc RI MI) as (c2 & S2 & _ & L2 & RI2 & MI2 & V2 & M2).
  set (lay' := layWith lay x (nloc c)) in *.
  assert (Lx : lay' x = nloc c) by apply layWith_eq.
  destruct (D3 c2 allLanes (nloc c) (vmap Some a) (vreplicate 16 None)) as (c3 & w' & S3 & M3 & L3 & W3).
  { exact HF. } { apply S2. } { apply RI2. } { exact V2. }
  { split; [discriminate |]. cbn. rewrite list_lookup_fmap, Hi. reflexivity. }
  { exact M2. }
  exists c3, lay'. split; [segs |]. split.
  - split.
    + eapply active_seg; [exact St3 | apply S3 | apply RI2].
    + eapply returnPtrs_sameVars; [apply S3 | apply kept_sameVars, straight_kept, St3 | apply RI2].
    + intros y Hy. rewrite (st_symbols _ _ St3). destruct (decide (x = y)) as [<- | Hne].
      * exists p. rewrite Sy, lookup_insert_eq, Lx. split; [reflexivity | eapply seg_holds; eauto].
      * destruct (ri_vars _ _ _ _ _ _ RI2 y ltac:(set_solver)) as (q & Eq & Hq). exists q.
        split; [exact Eq | eapply seg_holds; eauto].
  - apply (memInv_assign expected c2 c3 A lay' allLanes allLanes ρ x (vmap Some a) w' (vreplicate 16 None) (λ l, Some (a !!! l)));
      [exact MI2 | | | rewrite Lx; exact M3 | congruence | exact W3 |].
    + rewrite Lx, L2. pose proof (mi_nloc _ _ _ _ _ _ _ MI). lia.
    + intros y Hy. rewrite Lx. unfold lay'. rewrite (layWith_old _ _ _ A) by assumption.
      destruct (mi_vars _ _ _ _ _ _ _ MI y Hy) as [[_ Hn] _]. lia.
    + intros l _. eexists. split; [reflexivity | apply vlookup_map].
Qed.

Lemma Grows_arguments (n i : nat) (params : list Symbol) : Grows n (generateArguments i params) (λ _, True).
Proof. revert i. induction params; intros i; cbn [generateArguments]; grows_op; auto. Qed.

Lemma arguments_spec (params : list Symbol) : ∀ (i : nat) (A : gset Symbol) (s : SPMDBuilder),
  NoDup params → (∀ x, x ∈ params → x ∉ A) → (i + length params ≤ length argv)%nat →
  ready s → dom (Symbols s) = A → MaskStack s = [] → ActiveLanes s = None → opened s →
  ∃ s', generateArguments i params s = Ret (tt, s') ∧ ready s' ∧ dom (Symbols s') = list_to_set params ∪ A ∧
    MaskStack s' = [] ∧ ActiveLanes s' = None ∧ opened s' ∧
    ∀ c lay ρ, sub (BasicBlocks s') F → atEnd s c → regInv s c A lay allLanes → memInv c A lay allLanes allLanes ρ →
    ∃ c' lay', seg s c s' c' ∧ regInv s' c' (list_to_set params ∪ A) lay' allLanes ∧
      memInv c' (list_to_set params ∪ A) lay' allLanes allLanes
        (λ l, bindArguments params (map (λ a, a !!! l) (drop i argv)) (ρ l)).
Proof.
  induction params as [| x params IH]; intros i A s ND Fresh Len R Ds Es Ea O.
  - exists s. split; [reflexivity |]. split; [exact R |]. split; [set_solver |]. split_and!; [assumption .. |].
    intros c lay ρ _ Hc RI MI. exists c, lay. split; [split; [reflexivity | exact Hc | apply ext_refl] |].
    assert (list_to_set (C := gset Symbol) [] ∪ A = A) as -> by set_solver. auto.
  - apply NoDup_cons in ND as [Hx ND]. cbn [length] in Len.
    destruct (lookup_lt_is_Some_2 argv i) as [a Hi]; [lia |].
    destruct (argument_spec A x i a s R Ds (Fresh x ltac:(left)) Es Ea Hi)
      as (p & s1 & s2 & s3 & v & E1 & E2 & E3 & R3 & Ds3 & Es3 & Ea3 & O3 & D3).
    destruct (IH (S i) ({[x]} ∪ A) s3) as (s4 & E4 & R4 & Ds4 & Es4 & Ea4 & O4 & D4); try assumption; [| lia |].
    { intros y Hy. specialize (Fresh y ltac:(right; exact Hy)). intros HyA. apply elem_of_union in HyA as [HyA |]; [| auto].
      apply elem_of_singleton in HyA as ->. contradiction. }
    assert (Eu : list_to_set (x :: params) ∪ A = list_to_set params ∪ ({[x]} ∪ A)) by set_solver.
    exists s4. split.
    { cbn [generateArguments]. erewrite gbind_Ret by exact E1. erewrite gbind_Ret by exact E2.
      erewrite gbind_Ret by exact E3. exact E4. }
    split; [exact R4 |]. split; [rewrite Eu; exact Ds4 |]. split_and!; [assumption .. |].
    intros c lay ρ HF Hc RI MI.
    assert (HF3 : sub (BasicBlocks s3) F).
    { eapply sub_trans; [| exact HF]. eapply (grow_sub 0), grow_by; [apply Grows_arguments | exact E4 | lia]. }
    destruct (D3 c lay ρ HF3 Hc RI MI) as (c3 & lay3 & S3 & RI3 & MI3).
    destruct (D4 c3 lay3 _ HF (seg_end _ _ _ _ _ _ S3) RI3 MI3) as (c4 & lay4 & S4 & RI4 & MI4).
    exists c4, lay4. split; [eapply seg_trans; eassumption |]. rewrite Eu. split; [exact RI4 |].
    eapply memInv_eq; [reflexivity | | exact MI4]. intros l _. split; [reflexivity |].
    rewrite (drop_S _ _ _ Hi). reflexivity.
Qed.

(** ** The body *)
Lemma body_spec (fuel : nat) (n : AstNode) : ∀ A D (s : SPMDBuilder),
  scopedBody n (A, D) = true → A ⊆ D → ready s → dom (Symbols s) = D → MaskStack s = [] → opened s →
  ∃ v s', generate n s = Ret (v, s') ∧ MaskStack s' = [] ∧
    ∀ c lay m rm ρ, sub (BasicBlocks s') F → atEnd s c → regInv s c A lay m → memInv c A lay m rm ρ →
      topInv s m rm → (∀ l, m l = true → ∃ ρ', exec fuel n (ρ l) = Some (ρ', Some (expected !!! l))) →
      finishes F args expected c (λ _, False).
Proof.
  induction n; intros A D s Sc I R Ds Es O; cbn [scopedBody fst] in Sc; try discriminate.
  - lazymatch type of Sc with match ?x with _ => _ end = true => destruct x as [[A1 D1] |] eqn:M end; [| discriminate].
    assert (IA : A ⊆ A1 ∧ A1 ⊆ D1).
    { destruct (isNull n1); [injection M as <- <-; auto |]. destruct (scoped_mono _ _ _ _ _ _ _ M I) as (? & ? & ?). auto. }
    destruct IA as [I1 I2].
    assert (Sp : stmtSpec F args expected false (emits n1) A D A1 D1 (if isNull n1 then mret tt else generate n1;; mret tt)
                   (λ ρ, if isNull n1 then Some (ρ, None) else exec fuel n1 ρ)).
    { apply seq_part; [exact I | |]; intros N; rewrite N in M; [injection M; auto | eapply generate_stmt; eauto]. }
    destruct (Sp s R Ds ltac:(intros [=]) O) as (v1 & s1 & E1 & Af1 & Ds1 & O1 & _ & _ & D1').
    assert (Es1 : MaskStack s1 = []).
    { pose proof (af_stack _ _ Af1) as St. rewrite Es in St. exact St. }
    destruct (IHn2 A1 D1 s1 Sc I2 (af_ready _ _ Af1) Ds1 Es1 O1) as (v2 & s2 & E2 & Es2 & D2').
    assert (N2 : isNull n2 = false) by (destruct n2; [discriminate | reflexivity ..]).
    exists None, s2. split.
    { cbn [generate]. erewrite gbind_Ret by exact E1. rewrite N2.
      erewrite gbind_Ret by (erewrite gbind_Ret by exact E2; reflexivity). reflexivity. }
    split; [exact Es2 |].
    intros c lay m rm ρ HF Hc RI MI Ti Ft.
    assert (HF1 : sub (BasicBlocks s1) F).
    { eapply sub_trans; [| exact HF]. eapply (grow_sub 0), (grow_by 0 (generate n2)); [apply Grows_generate | exact E2 | lia]. }
    set (run1 := λ ρ : env, if isNull n1 then Some (ρ, None) else exec fuel n1 ρ) in *.
    assert (Fs : fits expected (seqRun run1 (exec fuel n2)) m ρ).
    { intros l Hl. destruct (Ft l Hl) as (ρ' & El). exists ρ', (Some (expected !!! l)).
      cbn [exec] in El. rewrite N2 in El. split; [exact El | congruence]. }
    destruct (seq_fits _ _ _ _ _ Fs) as [Fs1 Fs2].
    eapply finishes_bind; [apply (D1' c lay m rm ρ HF1 Hc RI MI Ti Fs1) |].
    intros c1 [He1 Ex1 Fr1 (lay1 & RI1 & MI1 & Ly1)].
    eapply (D2' c1 lay1); [exact HF | exact He1 | exact RI1 | exact MI1 | |].
    + intros _ l. unfold afterMask, afterRet. rewrite (Ti Es). destruct (rm l); reflexivity.
    + intros l Hl. unfold afterMask in Hl. apply andb_true_iff in Hl as [Hl Hr].
      destruct (Ft l Hl) as (ρ' & El). exists ρ'. cbn [exec] in El. rewrite N2 in El.
      unfold afterEnv. revert El Hr. unfold run1.
      destruct (isNull n1); [| destruct (exec fuel n1 (ρ l)) as [[ρ1 [v |]] |]]; cbn;
        intros El Hr; try discriminate; exact El.
  - destruct (generate_expr F args A n Sc s R) as (v & s1 & E1 & Em1 & D1).
    { intros x Hx. apply elem_of_dom. rewrite Ds. auto. }
    assert (R1 := emitted_ready _ _ Em1 R). assert (St1 := em_straight _ _ Em1).
    destruct (finalReturn_spec F args v s1 R1) as (s2 & E2 & Es2 & D2); [rewrite (st_stack _ _ St1); exact Es |].
    exists (Some v), s2. split.
    { cbn [generate]. erewrite gbind_Ret by exact E1. erewrite gbind_Ret by exact E2. reflexivity. }
    split; [exact Es2 |].
    intros c lay m rm ρ HF Hc RI MI Ti Ft.
    assert (HF1 : sub (BasicBlocks s1) F).
    { eapply sub_trans; [| exact HF]. eapply (grow_sub 0), (grow_by 0 (createReturn (Some v))); [grows_op | exact E2 | lia]. }
    destruct (D1 c lay HF1 Hc (invs_inMemory _ _ _ _ _ _ _ _ _ RI MI)) as (c1 & r & S1 & M1 & L1 & V1 & (w & -> & W1)).
    destruct (mi_value _ _ _ _ _ _ _ MI) as (rv & H0 & Hrv).
    destruct (D2 c1 m w rv HF (seg_end _ _ _ _ _ _ S1)) as (rv' & c2 & Wrv & S2 & Rt).
    { eapply returnPtrs_sameVars; [apply S1 | apply kept_sameVars, straight_kept, St1 | apply RI]. }
    { eapply active_seg; [exact St1 | apply S1 | apply RI]. }
    { exact V1. }
    { rewrite M1. exact H0. }
    exists c2. split; [etransitivity; [apply S1 | exact S2] | right].
    rewrite Rt. do 3 f_equal. apply vec_eq. intros l. rewrite vlookup_map, Wrv. destruct (m l) eqn:Hm.
    + destruct (Ft l Hm) as (ρ' & El). cbn in El. destruct (evalExpr (ρ l) n) as [f |] eqn:Ev; [| discriminate].
      injection El as _ <-. eapply W1; [apply (mi_env _ _ _ _ _ _ _ MI l Hm) | exact Ev].
    + apply Hrv. rewrite <- (Ti Es). exact Hm.
Qed.
End Entry.

(** ** Fuel *)
Lemma execLoop_mono (k k' : nat) (cond : env → option bool) (body body' : env → option result) (ρ : env) (r : result) :
  (k ≤ k')%nat → (∀ ρ r, body ρ = Some r → body' ρ = Some r) →
  execLoop k cond body ρ = Some r → execLoop k' cond body' ρ = Some r.
Proof.
  intros Hk Hb. revert k' ρ Hk. induction k as [| k IH]; intros k' ρ Hk E; [discriminate |].
  destruct k' as [| k']; [lia |]. cbn in *. destruct (cond ρ) as [[] |]; cbn in *; try discriminate; [| exact E].
  destruct (body ρ) as [[ρ1 o] |] eqn:Eb; [| discriminate]. rewrite (Hb _ _ Eb). cbn in *.
  destruct o; [exact E |]. apply IH; [lia | exact E].
Qed.

Lemma exec_mono (n : AstNode) : ∀ (k k' : nat) (ρ : env) (r : result),
  (k ≤ k')%nat → exec k n ρ = Some r → exec k' n ρ = Some r.
Proof.
  induction n; intros k k' ρ r Hk E; cbn in *; try discriminate; try exact E.
  - destruct (isNull n1); [| destruct (exec k n1 ρ) as [[ρ1 o] |] eqn:E1; [rewrite (IHn1 _ _ _ _ Hk E1) | discriminate]];
      cbn in *; [destruct (isNull n2); [exact E | eauto] |].
    destruct o; [exact E |]. destruct (isNull n2); [exact E | eauto].
  - destruct (evalCond ρ n1) as [[] |]; cbn in *; [eauto | | discriminate]. destruct (isNull n3); [exact E | eauto].
  - eapply execLoop_mono; [exact Hk | | exact E]. intros; eauto.
  - destruct (exec k n1 ρ) as [[ρ1 o] |] eqn:E1; [rewrite (IHn1 _ _ _ _ Hk E1) | discriminate]. cbn in *.
    destruct o; [exact E |]. eapply execLoop_mono; [exact Hk | | exact E]. intros; eauto.
Qed.

(** Enough fuel for every lane. *)
Lemma lanes_fuel {n : nat} (P : fin n → nat → Prop) :
  (∀ l k k', (k ≤ k')%nat → P l k → P l k') → (∀ l, ∃ k, P l k) → ∃ k, ∀ l, P l k.
Proof.
  intros Mono. induction n as [| n IH]; intros E; [exists 0%nat; intros l; inv_fin l |].
  destruct (E 0%fin) as [k0 H0].
  destruct (IH (λ l, P (FS l))) as [k Hk]; [intros; eapply Mono; eauto | intros l; apply E |].
  exists (max k0 k). intros l. inv_fin l; [eapply Mono; [| exact H0]; lia | intros l; eapply Mono; [| apply Hk]; lia].
Qed.

Lemma run_steps (F : list BasicBlock) (args : list RTVal) (c c' : config) (v : RTVal) :
  rtc (stepTo F args) c c' → step F args c' = Some (inr v) → ∃ fuel, run F args fuel c = Some v.
Proof.
  intros S E. induction S as [c | c c1 c' S1 _ IH].
  - exists 1%nat. cbn. rewrite E. reflexivity.
  - destruct (IH E) as [fuel Hf]. exists (S fuel). cbn. unfold stepTo in S1. rewrite S1. exact Hf.
Qed.

(** ** The kernel *)

(** The code of a kernel, in any function [F] that contains it. *)
Lemma kernel_code (F : list BasicBlock) (argv : list (vec float 16)) (expected : vec float 16) (k : nat)
    (params : list Symbol) (body : AstNode) :
  scopedKernel params body = true → length argv = length params →
  ∃ s, funcdecl params body newSPMDBuilder = Ret (tt, s) ∧ MaskStack s = [] ∧
    (sub (BasicBlocks s) F →
     (∀ l : fin 16, ∃ ρ', exec k body (bindArguments params (map (λ a, a !!! l) argv) ∅) = Some (ρ', Some (expected !!! l))) →
     ∃ c, rtc (stepTo F (map (λ v, RFloats (vmap Some v)) argv)) initial c ∧
       step F (map (λ v, RFloats (vmap Some v)) argv) c = Some (inr (RFloats (vmap Some expected)))).
Proof.
  intros Sk Len. unfold scopedKernel in Sk. apply andb_true_iff in Sk as [ND Sb]. apply bool_decide_eq_true in ND.
  destruct (arguments_spec F argv expected params 0 ∅ entryBuilder ND) as (s1 & E1 & R1 & Ds1 & Es1 & Ea1 & O1 & D1);
    [set_solver | lia | apply entry_ready | reflexivity | reflexivity | reflexivity | apply entry_opened |].
  assert (Eu : list_to_set params ∪ ∅ = list_to_set (C := gset Symbol) params) by set_solver. rewrite Eu in *.
  destruct (body_spec F argv expected k body (list_to_set params) (list_to_set params) s1 Sb ltac:(reflexivity) R1 Ds1 Es1 O1)
    as (v & s2 & E2 & Es2 & D2).
  exists s2. split.
  { unfold funcdecl. rewrite (gbind_Ret _ _ _ _ _ startFunction_entry), (gbind_Ret _ _ _ _ _ E1), (gbind_Ret _ _ _ _ _ E2).
    unfold endFunction, gassert. rewrite Es2. reflexivity. }
  split; [exact Es2 |]. intros HF Hk.
  assert (HF1 : sub (BasicBlocks s1) F).
  { eapply sub_trans; [| exact HF]. eapply (grow_sub 0), (grow_by 0 (generate body)); [apply Grows_generate | exact E2 | lia]. }
  assert (HF0 : sub (BasicBlocks entryBuilder) F).
  { eapply sub_trans; [| exact HF1]. eapply (grow_sub 0), grow_by; [apply Grows_arguments | exact E1 | lia]. }
  destruct (entry_invs argv expected (λ _, ∅) (λ _, 0%nat)) as (He & RI & MI).
  destruct (D1 entryConfig (λ _, 0%nat) (λ _, ∅) HF1 He RI MI) as (c1 & lay1 & S1 & RI1 & MI1).
  destruct (D2 c1 lay1 allLanes allLanes _ HF (seg_end _ _ _ _ _ _ S1) RI1 MI1) as (c2 & S2 & [[] | E]).
  { intros _ l. reflexivity. }
  { intros l _. rewrite drop_0. apply Hk. }
  exists c2. split; [| exact E]. etransitivity; [apply entry_steps, HF0 |]. etransitivity; [apply S1 | exact S2].
Qed.

(** Kernels compute what the scalar program says, in every lane. *)
Lemma kernel_lanes (params : list Symbol) (body : AstNode) (argv : list (vec float 16)) (expected : vec float 16) :
  scopedKernel params body = true → length argv = length params →
  (∀ l : fin 16, ∃ k, scalarRun k params body (map (λ a, a !!! l) argv) = Some (expected !!! l)) →
  ∃ F, compile params body = Ret F ∧ ∃ fuel, call fuel F argv = Some (RFloats (vmap Some expected)).
Proof.
  intros Sk Len Runs.
  destruct (lanes_fuel (λ l k, ∃ ρ', exec k body (bindArguments params (map (λ a, a !!! l) argv) ∅) = Some (ρ', Some (expected !!! l))))
    as [k Hk].
  { intros l k k' Hk [ρ' E]. exists ρ'. eapply exec_mono; eassumption. }
  { intros l. destruct (Runs l) as [k E]. exists k. unfold scalarRun in E.
    destruct (exec k body _) as [[ρ' o] |]; [| discriminate]. exists ρ'. cbn in E. rewrite E. reflexivity. }
  destruct (kernel_code [] argv expected k params body Sk Len) as (s & E & _ & _).
  exists (BasicBlocks s). split; [unfold compile; rewrite E; reflexivity |].
  destruct (kernel_code (BasicBlocks s) argv expected k params body Sk Len) as (s' & E' & _ & Run).
  rewrite E in E'. injection E' as <-.
  destruct (Run (sub_refl _) Hk) as (c & S & Rt). exact (run_steps _ _ _ _ _ S Rt).
Qed.

(** C11. The code the compiler emits for a well-scoped kernel, called on vectors of
    arguments for which the scalar program returns in every lane, returns the vector
    of the values the scalar program returns: the lanes a branch or a loop disables
    keep their variables, the lanes that have returned keep their value, and the
    execution ends. *)
Theorem kernel_computes_lanes (params : list Symbol) (body : AstNode) (argv : list (vec float 16)) (expected : vec float 16) :
  scopedKernel params body = true → length argv = length params →
  (∀ l : fin 16, ∃ k, scalarRun k params body (map (λ a, a !!! l) argv) = Some (expected !!! l)) →
  ∃ F, compile params body = Ret F ∧ ∃ fuel, call fuel F argv = Some (RFloats (vmap Some expected)).
Proof. apply kernel_lanes. Qed.

(** The discipline of scopes and types is sound: the generation of a well-scoped
    kernel trips none of the builder's assertions, uses no null node, value or
    pointer, never compares with a predicate [createCompare] does not know, and
    leaves the stack of masks empty, as [endFunction] asserts. *)
Theorem scoped_kernel_generated `{Inhabited float} (params : list Symbol) (body : AstNode) :
  scopedKernel params body = true →
  ∃ s, funcdecl params body newSPMDBuilder = Ret (tt, s) ∧ MaskStack s = [] ∧ compile params body = Ret (BasicBlocks s).
Proof.
  intros Sk.
  destruct (kernel_code [] (replicate (length params) (vreplicate 16 inhabitant)) (vreplicate 16 inhabitant) 0 params body Sk)
    as (s & E & Es & _); [apply length_replicate |].
  exists s. split; [exact E |]. split; [exact Es |]. unfold compile. rewrite E. reflexivity.
Qed.
End Kernel.

(** ** A kernel over integers *)
Section Example.
#[local] Instance integerFloats : FloatOps :=
  {| float := Z; fadd := Z.add; fsub := Z.sub; fmul := Z.mul; fdiv := Z.div; fcompare a b := Some (Z.compare a b) |}.

(** [float f(float a, float b) { float sum = 0; float i;
      for (i = 0; i < a; i++) { if (i > b) { sum = sum - i; } else { sum = sum + i; } }
      if (sum > 10) { return sum; } else { if (a > b) return b; }
      return a; }] *)
Definition sampleParams : list Symbol := [0%nat; 1%nat].
Definition sampleBody : AstNode :=
  let var x := VariableAst x in
  let cst (x : Z) := ConstantAst (x : float) in
  SequenceAst (AssignAst (var 2%nat) (cst 0))
    (SequenceAst NullAst
      (SequenceAst
        (ForAst (AssignAst (var 3%nat) (cst 0)) (CompareAst FCMP_ULT (var 3%nat) (var 0%nat))
           (AssignAst (var 3%nat) (AddAst (var 3%nat) (cst 1)))
           (IfAst (CompareAst FCMP_UGT (var 3%nat) (var 1%nat))
              (AssignAst (var 2%nat) (SubAst (var 2%nat) (var 3%nat)))
              (AssignAst (var 2%nat) (AddAst (var 2%nat) (var 3%nat)))))
        (SequenceAst
          (IfAst (CompareAst FCMP_UGT (var 2%nat) (cst 10)) (ReturnAst (var 2%nat))
             (IfAst (CompareAst FCMP_UGT (var 0%nat) (var 1%nat)) (ReturnAst (var 1%nat)) NullAst))
          (ReturnAst (var 0%nat))))).

Definition sampleArgs : list (vec float 16) :=
  [fun_to_vec (λ l : fin 16, Z.of_nat (fin_to_nat l)); fun_to_vec (λ l : fin 16, (15 - 2 * Z.of_nat (fin_to_nat l))%Z)].

Definition sampleResult : vec float 16 :=
  fun_to_vec (λ l : fin 16, match scalarRun 20 sampleParams sampleBody (map (λ a, a !!! l) sampleArgs) with
                            | Some v => v | None => 0 end).

Lemma kernel_computes_lanes_witness :
  ∃ F, compile sampleParams sampleBody = Ret F ∧ ∃ fuel, call fuel F sampleArgs = Some (RFloats (vmap Some sampleResult)).
Proof.
  apply kernel_computes_lanes; [vm_compute; reflexivity | reflexivity |].
  intros l. exists 20%nat. unfold sampleResult. rewrite lookup_fun_to_vec.
  assert (D : ∀ i : fin 16, is_Some (scalarRun 20 sampleParams sampleBody (map (λ a, a !!! i) sampleArgs))).
  { intros i. repeat (inv_fin i; [vm_compute; eauto | intros i]). inv_fin i. }
  destruct (D l) as [v Ev]. rewrite Ev. reflexivity.
Defined.

Lemma scoped_kernel_generated_witness :
  ∃ s, funcdecl sampleParams sampleBody newSPMDBuilder = Ret (tt, s) ∧ MaskStack s = [] ∧
    compile sampleParams sampleBody = Ret (BasicBlocks s).
Proof. apply (@scoped_kernel_generated integerFloats (populate 0)). vm_compute. reflexivity. Defined.

(** [float f(float a, float b) { while (1 > 0) { a = a + 1; if (a > b) return a; } return 0; }] *)
Definition loopReturnBody : AstNode :=
  let var x := VariableAst x in
  let cst (x : Z) := ConstantAst (x : float) in
  SequenceAst
    (WhileAst (CompareAst FCMP_UGT (cst 1) (cst 0))
       (SequenceAst (AssignAst (var 0%nat) (AddAst (var 0%nat) (cst 1)))
          (IfAst (CompareAst FCMP_UGT (var 0%nat) (var 1%nat)) (ReturnAst (var 0%nat)) NullAst)))
    (ReturnAst (cst 0)).

(** A return inside a loop: the lane that returned runs the body again at the next
    iteration, because the mask of the loop is the condition and the mask in force
    before the loop, and its value is overwritten.  Lane 0 of this kernel returns 1
    in the scalar program and 2, the value of the lanes that return one iteration
    later, in the compiled one. *)
Example return_in_loop_overwritten :
  let argv : list (vec float 16) := [vreplicate 16 (0 : float); (0 : float) ::: vreplicate 15 (1 : float)] in
  scopedKernel sampleParams loopReturnBody = false ∧
  scalarRun 3 sampleParams loopReturnBody (map (λ a, a !!! (0%fin : fin 16)) argv) = Some (1 : float) ∧
  match compile sampleParams loopReturnBody with
  | Ret F => call 150 F argv = Some (RFloats (vreplicate 16 (Some (2 : float))))
  | _ => False
  end.
Proof. split; [reflexivity |]. split; [reflexivity |]. vm_compute. reflexivity. Qed.
End Example.
