(* ===== verification/SpmdScanner.v ===== *)
(** * SpmdScanner: the scanner of the SPMD compiler

    tools/spmd-compile/src/Scanner.ll: of the rules that match the input the one
    with the longest match is taken, of several the first; a character no rule
    matches is echoed.  [yylex] is the scanner flex makes of the file; what it
    prints is not kept.  [layout] says which texts spell a list of tokens, without the
    scanner. *)
From Stdlib Require Import Ascii.
From S2P Require Import Prelude.

Abbreviation text := (list ascii).

(** ** Tokens *)
Inductive token : Type :=
  | TOK_IDENTIFIER (strval : string)
  | TOK_STRING (strval : string)
  | TOK_NUMBER (numVal : Z)
  | TOK_IF | TOK_ELSE | TOK_END | TOK_FOR | TOK_WHILE | TOK_EQUALS | TOK_NOT_EQUAL | TOK_FLOAT | TOK_RETURN
  | TOK_LOGICAL_AND | TOK_LOGICAL_OR | TOK_INCR | TOK_DECR
  | TOK_CHAR (c : ascii).

#[global] Instance token_eq_dec : EqDecision token.
Proof. solve_decision. Defined.

(** ** Character classes *)
Definition in_range (lo hi : nat) (c : ascii) : bool := (lo <=? nat_of_ascii c)%nat && (nat_of_ascii c <=? hi)%nat.

Definition is_digit (c : ascii) : bool := in_range 48 57 c.
(** [[A-Za-z_]] *)
Definition is_letter (c : ascii) : bool := in_range 65 90 c || in_range 97 122 c || (nat_of_ascii c =? 95)%nat.
Definition is_newline (c : ascii) : bool := (nat_of_ascii c =? 10)%nat.
Definition is_blank (c : ascii) : bool := (nat_of_ascii c =? 9)%nat || (nat_of_ascii c =? 32)%nat.
Definition is_quote (c : ascii) : bool := (nat_of_ascii c =? 34)%nat.
(** [[.^\QUOTE]]: a dot, a caret or a double quote. *)
Definition is_string_char (c : ascii) : bool := is_quote c || (nat_of_ascii c =? 46)%nat || (nat_of_ascii c =? 94)%nat.

(** The class of the single-character tokens. *)
Definition is_punctuation (c : ascii) : bool :=
  bool_decide (c ∈ String.list_ascii_of_string ".+-/*=%()><:;,[]{}!&~").

(** ** Rules, in the order of the file *)
Inductive rule : Type :=
  | R_COMMENT | R_NUMBER | R_NEWLINE | R_BLANK | R_STRING
  | R_LITERAL (lit : string) (t : token)
  | R_PUNCTUATION | R_IDENTIFIER
  | R_ECHO.

#[global] Instance rule_eq_dec : EqDecision rule.
Proof. solve_decision. Defined.

Definition rules : list rule :=
  [R_COMMENT; R_NUMBER; R_NEWLINE; R_BLANK; R_STRING;
   R_LITERAL "&&" TOK_LOGICAL_AND; R_LITERAL "||" TOK_LOGICAL_OR; R_LITERAL "==" TOK_EQUALS; R_LITERAL "!=" TOK_NOT_EQUAL;
   R_LITERAL "++" TOK_INCR; R_LITERAL "--" TOK_DECR;
   R_PUNCTUATION;
   R_LITERAL "float" TOK_FLOAT; R_LITERAL "if" TOK_IF; R_LITERAL "else" TOK_ELSE; R_LITERAL "end" TOK_END;
   R_LITERAL "for" TOK_FOR; R_LITERAL "while" TOK_WHILE; R_LITERAL "return" TOK_RETURN;
   R_IDENTIFIER; R_ECHO].

(** The length of the longest prefix of characters in a class. *)
Fixpoint span (p : ascii → bool) (s : text) : nat :=
  match s with
  | c :: s' => if p c then S (span p s') else 0
  | [] => 0
  end.

Fixpoint is_prefix (p s : text) : bool :=
  match p, s with
  | [], _ => true
  | a :: p', b :: s' => Ascii.eqb a b && is_prefix p' s'
  | _, [] => false
  end.

(** The length of the longest match of a rule; nothing matches with length zero
    but the rule for numbers, which the default rule beats. *)
Definition match_rule (r : rule) (s : text) : nat :=
  match r with
  | R_COMMENT => if is_prefix ["/"; "/"]%char s then 2 + span (λ c, negb (is_newline c)) (drop 2 s) else 0
  | R_NUMBER => span is_digit s
  | R_NEWLINE => match s with c :: _ => if is_newline c then 1 else 0 | [] => 0 end
  | R_BLANK => span is_blank s
  | R_STRING =>
      match s with
      | a :: c :: b :: _ => if is_quote a && is_string_char c && is_quote b then 3 else 0
      | _ => 0
      end
  | R_LITERAL lit _ => let l := String.list_ascii_of_string lit in if is_prefix l s then length l else 0
  | R_PUNCTUATION => match s with c :: _ => if is_punctuation c then 1 else 0 | [] => 0 end
  | R_IDENTIFIER =>
      match s with
      | c :: s' => if is_letter c then S (span (λ c, is_letter c || is_digit c) s') else 0
      | [] => 0
      end
  | R_ECHO => match s with _ :: _ => 1 | [] => 0 end
  end%nat.

(** The rule to take: a longer match replaces an earlier one. *)
Definition choose (s : text) : rule * nat :=
  foldl (λ '(best, n) r, if (n <? match_rule r s)%nat then (r, match_rule r s) else (best, n)) (R_ECHO, O) rules.

(** ** Actions *)
Definition digit_value (c : ascii) : Z := Z.of_nat (nat_of_ascii c) - 48.

(** [atoi]: a value no [int] has is undefined. *)
Definition atoi (s : text) : outcome Z :=
  let v := foldl (λ v c, 10 * v + digit_value c) 0 s in
  if v <? 2 ^ 31 then Ret v else UndefinedBehaviour "atoi".

(** [strcpy] into [yylval.strval], an array of 1024 characters. *)
Definition strcpy_strval (s : text) : outcome string :=
  if (length s <? 1024)%nat then Ret (String.string_of_list_ascii s) else UndefinedBehaviour "strcpy".

(** What the action of a rule returns; [None] when it goes on scanning. *)
Definition action (r : rule) (yytext : text) : outcome (option token) :=
  match r with
  | R_COMMENT | R_NEWLINE | R_BLANK | R_ECHO => Ret None
  | R_NUMBER => atoi yytext ≫= λ v, Ret (Some (TOK_NUMBER v))
  | R_STRING => Ret (Some (TOK_STRING (String.string_of_list_ascii (take 1 (drop 1 yytext)))))
  | R_LITERAL _ t => Ret (Some t)
  | R_PUNCTUATION => Ret (match yytext with c :: _ => Some (TOK_CHAR c) | [] => None end)
  | R_IDENTIFIER => strcpy_strval yytext ≫= λ s, Ret (Some (TOK_IDENTIFIER s))
  end.

(** The scanner's state: the input left and [CurrentLine]. *)
Fixpoint yylex (fuel : nat) (input : text) (CurrentLine : Z) : outcome (option token * text * Z) :=
  match fuel, input with
  | _, [] => Ret (None, [], CurrentLine)
  | O, _ => UndefinedBehaviour "fuel"
  | S fuel, _ =>
      let '(r, n) := choose input in
      let line := match r with R_NEWLINE => CurrentLine + 1 | _ => CurrentLine end in
      action r (take n input) ≫= λ t,
      match t with
      | Some t => Ret (Some t, drop n input, line)
      | None => yylex fuel (drop n input) line
      end
  end.

(** All tokens, with the line each was found on. *)
Fixpoint scan (fuel : nat) (input : text) (CurrentLine : Z) : outcome (list (token * Z)) :=
  match fuel with
  | O => UndefinedBehaviour "fuel"
  | S fuel =>
      yylex (length input) input CurrentLine ≫= λ '(t, input, line),
      match t with
      | None => Ret []
      | Some t => scan fuel input line ≫= λ ts, Ret ((t, line) :: ts)
      end
  end.

Definition tokens (source : string) : outcome (list token) :=
  let s := String.list_ascii_of_string source in
  scan (S (length s)) s 1 ≫= λ ts, Ret (map fst ts).

Example tokens_ex : tokens "if (a1 >= 007) // c
  returnx++; return 1.5 @" =
  Ret [TOK_IF; TOK_CHAR "("; TOK_IDENTIFIER "a1"; TOK_CHAR ">"; TOK_CHAR "="; TOK_NUMBER 7; TOK_CHAR ")";
       TOK_IDENTIFIER "returnx"; TOK_INCR; TOK_CHAR ";"; TOK_RETURN; TOK_NUMBER 1; TOK_CHAR "."; TOK_NUMBER 5].
Proof. vm_compute. reflexivity. Qed.

(** ** The choice of a rule *)
Lemma foldl_choose (s : text) (l : list rule) (best : rule) (n : nat) :
  (∀ r, r ∈ l → (match_rule r s ≤ n)%nat) →
  foldl (λ '(best, n) r, if (n <? match_rule r s)%nat then (r, match_rule r s) else (best, n)) (best, n) l = (best, n).
Proof.
  induction l as [| r l IH]; intros Hl; [reflexivity |]. cbn [foldl].
  rewrite (proj2 (Nat.ltb_ge _ _)) by (apply Hl; left). apply IH. intros r' Hr'. apply Hl. right. exact Hr'.
Qed.

Lemma foldl_choose_lt (s : text) (l : list rule) (best : rule) (n m : nat) :
  (n < m)%nat → (∀ r, r ∈ l → (match_rule r s < m)%nat) →
  (snd (foldl (λ '(best, n) r, if (n <? match_rule r s)%nat then (r, match_rule r s) else (best, n)) (best, n) l) < m)%nat.
Proof.
  revert best n. induction l as [| r l IH]; intros best n Hn Hl; [exact Hn |]. cbn [foldl].
  destruct (Nat.ltb_spec n (match_rule r s)); apply IH; try assumption; try (intros r' Hr'; apply Hl; right; exact Hr').
  apply Hl. left.
Qed.

(** The first rule with the longest match is taken. *)
Lemma choose_first (s : text) (l1 l2 : list rule) (r : rule) :
  rules = l1 ++ r :: l2 → (0 < match_rule r s)%nat →
  (∀ r', r' ∈ l1 → (match_rule r' s < match_rule r s)%nat) → (∀ r', r' ∈ l2 → (match_rule r' s ≤ match_rule r s)%nat) →
  choose s = (r, match_rule r s).
Proof.
  intros Hr Hpos H1 H2. unfold choose. rewrite Hr, foldl_app.
  pose proof (foldl_choose_lt s l1 R_ECHO 0 _ Hpos H1) as Hlt.
  destruct (foldl _ (R_ECHO, 0%nat) l1) as [best n]. cbn [snd foldl] in *.
  rewrite (proj2 (Nat.ltb_lt _ _) Hlt). apply foldl_choose, H2.
Qed.

(** No rule does better than the choice. *)
Lemma choose_max (s : text) (r : rule) : r ∈ rules → (match_rule r s ≤ snd (choose s))%nat.
Proof.
  intros Hr. unfold choose. generalize R_ECHO O. revert Hr. generalize rules. intros l.
  assert (Hge : ∀ l best n, (n ≤ snd (foldl (λ '(best, n) r, if (n <? match_rule r s)%nat then (r, match_rule r s)
    else (best, n)) (best, n) l))%nat).
  { clear. induction l as [| r l IH]; intros best n; [reflexivity |]. cbn [foldl].
    destruct (Nat.ltb_spec n (match_rule r s)); [etrans; [| apply IH]; lia | apply IH]. }
  induction l as [| r' l IH]; intros Hr best n; [apply elem_of_nil in Hr; contradiction |]. cbn [foldl].
  apply elem_of_cons in Hr as [<- | Hr].
  - destruct (Nat.ltb_spec n (match_rule r s)); [apply Hge | etrans; [| apply Hge]; assumption].
  - destruct (n <? match_rule r' s)%nat; apply IH, Hr.
Qed.

Lemma choose_pos (s : text) : s ≠ [] → (0 < snd (choose s))%nat.
Proof.
  intros Hs. destruct s as [| c s]; [congruence |].
  apply (Nat.lt_le_trans _ (match_rule R_ECHO (c :: s))); [cbn; lia |]. apply choose_max.
  unfold rules. rewrite !elem_of_cons. tauto.
Qed.

(** ** Termination: as many steps as characters are enough. *)
Lemma yylex_fuel (n m : nat) (input : text) (line : Z) :
  (length input ≤ n)%nat → (length input ≤ m)%nat → yylex n input line = yylex m input line.
Proof.
  revert m input line. induction n as [| n IH]; intros m input line Hn Hm; destruct input as [| c input];
    try (destruct m; reflexivity); [cbn in Hn; lia |]. destruct m as [| m]; [cbn in Hm; lia |].
  cbn [yylex]. pose proof (choose_pos (c :: input) ltac:(discriminate)) as Hpos.
  destruct (choose (c :: input)) as [r k]. cbn [snd] in Hpos.
  destruct (action r _) as [[t |] | | | |]; cbn; try reflexivity.
  apply IH; rewrite length_drop; cbn [length] in *; lia.
Qed.

Lemma yylex_shrinks (n : nat) (input rest : text) (line line' : Z) (t : token) :
  yylex n input line = Ret (Some t, rest, line') → (length rest < length input)%nat.
Proof.
  revert input line. induction n as [| n IH]; intros input line E; destruct input as [| c input]; try discriminate E.
  cbn [yylex] in E. pose proof (choose_pos (c :: input) ltac:(discriminate)) as Hpos.
  destruct (choose (c :: input)) as [r k]. cbn [snd] in Hpos.
  destruct (action r _) as [[t' |] | | | |]; try discriminate E.
  - injection E as _ <- _. rewrite length_drop. cbn [length]. lia.
  - apply IH in E. rewrite length_drop in E. cbn [length] in *. lia.
Qed.

Lemma scan_fuel (n m : nat) (input : text) (line : Z) :
  (length input < n)%nat → (length input < m)%nat → scan n input line = scan m input line.
Proof.
  revert m input line. induction n as [| n IH]; intros m input line Hn Hm; [lia |]. destruct m as [| m]; [lia |].
  cbn [scan]. destruct (yylex _ input line) as [[[[t |] rest] line'] | | | |] eqn:E; cbn; try reflexivity.
  apply yylex_shrinks in E. rewrite (IH m) by lia. reflexivity.
Qed.

(** ** Texts of token lists *)
Definition is_separator (c : ascii) : bool := is_blank c || is_newline c.

(** The texts of a token. *)
Inductive spells : token → text → Prop :=
  | sp_identifier x :
      (match x with c :: s => is_letter c && forallb (λ c, is_letter c || is_digit c) s | [] => false end) = true →
      (length x < 1024)%nat → (∀ lit t, R_LITERAL lit t ∈ rules → x ≠ String.list_ascii_of_string lit) →
      spells (TOK_IDENTIFIER (String.string_of_list_ascii x)) x
  | sp_number x v : x ≠ [] → forallb is_digit x = true → atoi x = Ret v → spells (TOK_NUMBER v) x
  | sp_literal lit t : R_LITERAL lit t ∈ rules → spells t (String.list_ascii_of_string lit)
  | sp_punctuation c : is_punctuation c = true → spells (TOK_CHAR c) [c].

(** White space and comments. *)
Inductive gap : text → Prop :=
  | gap_nil : gap []
  | gap_blank c s : is_blank c = true → gap s → gap (c :: s)
  | gap_newline c s : is_newline c = true → gap s → gap (c :: s)
  | gap_comment s nl s' : forallb (λ c, negb (is_newline c)) s = true → is_newline nl = true → gap s' →
      gap ("/"%char :: "/"%char :: s ++ nl :: s').

(** A token ends before [c]: no name and no number goes on with it, and with it the text
    begins neither a longer operator nor a comment.  White space always ends a token. *)
Definition breaks (x : text) (c : ascii) : bool :=
  match x with
  | a :: _ =>
      if is_digit a then negb (is_digit c)
      else if is_letter a then negb (is_letter c || is_digit c)
      else
        forallb (λ r, match r with R_LITERAL lit _ => negb (is_prefix (x ++ [c]) (String.list_ascii_of_string lit)) | _ => true end) rules &&
        negb (is_prefix (x ++ [c]) ["/"; "/"]%char)
  | [] => false
  end.

(** A program text: white space, comments and tokens that end where the next thing
    begins. *)
Inductive layout : text → list token → Prop :=
  | lay_end g : gap g → layout g []
  | lay_token g x s t ts :
      gap g → spells t x → (∀ c s', s = c :: s' → breaks x c = true) → layout s ts → layout (g ++ x ++ s) (t :: ts).

(** A class of characters is tested on the 256 characters. *)
Lemma ascii_forall (P : ascii → bool) :
  forallb (λ n, P (ascii_of_nat n)) (seq 0 256) = true → ∀ c, P c = true.
Proof.
  intros H c. rewrite <- (ascii_nat_embedding c). rewrite forallb_forall in H. apply H, in_seq.
  pose proof (nat_ascii_bounded c). lia.
Qed.

(** [class_cases] proves what holds of every character. *)
Ltac class_cases c := generalize c; apply ascii_forall; vm_compute; reflexivity.

Lemma separator_classes (c : ascii) :
  is_separator c = true → is_digit c = false ∧ is_letter c = false ∧ is_quote c = false ∧ is_string_char c = false ∧
    Ascii.eqb "/" c = false.
Proof.
  intros Hc. assert (H : implb (is_separator c) (negb (is_digit c || is_letter c || is_quote c || is_string_char c ||
    Ascii.eqb "/" c)) = true) by class_cases c.
  rewrite Hc in H. cbn in H. apply negb_true_iff in H. rewrite !orb_false_iff in H. tauto.
Qed.

(** What follows a token [x]. *)
Definition ends_before (x s : text) : Prop := ∀ c s', s = c :: s' → breaks x c = true.

Lemma span_app (p : ascii → bool) (x s : text) :
  (∀ c s', s = c :: s' → p c = false) → span p (x ++ s) = span p x.
Proof.
  intros Hp. induction x as [| a x IH]; cbn; [| rewrite IH; reflexivity].
  destruct s as [| c s']; [reflexivity |]. cbn. rewrite (Hp c s' eq_refl). reflexivity.
Qed.

Lemma span_head (p : ascii → bool) (a : ascii) (x s : text) : p a = false → span p ((a :: x) ++ s) = span p (a :: x).
Proof. intros Ha. cbn. rewrite Ha. reflexivity. Qed.

(** A prefix that goes on behind [x] begins with [x] and what follows it. *)
Lemma is_prefix_app (l x s : text) :
  (∀ c s', s = c :: s' → is_prefix (x ++ [c]) l = false) → is_prefix l (x ++ s) = is_prefix l x.
Proof.
  revert x. induction l as [| a l IH]; intros x Hs; [destruct x; reflexivity |]. destruct x as [| b x]; cbn.
  - destruct s as [| c s']; [reflexivity |]. specialize (Hs c s' eq_refl). cbn in Hs. rewrite Ascii.eqb_sym.
    destruct (Ascii.eqb c a); [discriminate Hs | reflexivity].
  - destruct (Ascii.eqb_spec a b) as [-> | _]; [| reflexivity]. apply IH. intros c s' E. specialize (Hs c s' E).
    cbn in Hs. rewrite Ascii.eqb_refl in Hs. exact Hs.
Qed.

Lemma is_prefix_snoc (x l : text) (c : ascii) : is_prefix (x ++ [c]) l = true → c ∈ l.
Proof.
  revert l. induction x as [| a x IH]; intros [| b l] Hp; try discriminate Hp; cbn in Hp; apply andb_true_iff in Hp as [Ha Hp].
  - apply Ascii.eqb_eq in Ha as ->. left.
  - right. exact (IH l Hp).
Qed.

(** The characters of a literal that begins with a letter are letters, and no literal
    begins with a digit, a quote or white space. *)
Lemma literal_classes (lit : string) (t : token) :
  R_LITERAL lit t ∈ rules →
  match String.list_ascii_of_string lit with
  | a :: l => negb (is_digit a || is_separator a || is_quote a || Ascii.eqb a "/") &&
      (forallb is_letter (a :: l) || negb (is_letter a))
  | [] => false
  end = true.
Proof.
  intros Hr. unfold rules in Hr. rewrite ?elem_of_cons, ?elem_of_nil in Hr. repeat destruct Hr as [Hr | Hr]; try contradiction; try discriminate;
    injection Hr as -> ->; reflexivity.
Qed.

Lemma literal_ends (lit : string) (t : token) (a : ascii) (x s : text) :
  R_LITERAL lit t ∈ rules → ends_before (a :: x) s →
  is_prefix (String.list_ascii_of_string lit) ((a :: x) ++ s) = is_prefix (String.list_ascii_of_string lit) (a :: x).
Proof.
  intros Hr Hs. apply is_prefix_app. intros c s' E. specialize (Hs c s' E). cbn [breaks] in Hs.
  pose proof (literal_classes lit t Hr) as Hl. destruct (is_prefix ((a :: x) ++ [c]) (String.list_ascii_of_string lit)) eqn:Hp; [| reflexivity].
  exfalso. pose proof (is_prefix_snoc _ _ _ Hp) as Hin. destruct (String.list_ascii_of_string lit) as [| b l] eqn:Hlit; [discriminate Hl |].
  cbn [app is_prefix] in Hp. apply andb_true_iff in Hp as [Hab Hp]. apply Ascii.eqb_eq in Hab as <-.
  apply andb_true_iff in Hl as [Ha Hl]. apply negb_true_iff in Ha. rewrite !orb_false_iff in Ha. destruct Ha as [[[Hd _] _] _]. rewrite Hd in Hs.
  destruct (is_letter a) eqn:Hla.
  - rewrite orb_false_r in Hl. rewrite forallb_forall in Hl. apply list_elem_of_In in Hin. rewrite (Hl c Hin) in Hs. discriminate Hs.
  - apply andb_true_iff in Hs as [Hs _]. rewrite forallb_forall in Hs. specialize (Hs (R_LITERAL lit t) (proj1 (list_elem_of_In _ _) Hr)).
    cbn beta iota in Hs. rewrite Hlit in Hs. cbn [app is_prefix] in Hs. rewrite Ascii.eqb_refl, Hp in Hs. discriminate Hs.
Qed.

(** No rule reads past the end of a token. *)
Lemma match_separated (r : rule) (a : ascii) (x s : text) :
  r ∈ rules → is_separator a = false → is_quote a = false → is_prefix ["/"; "/"]%char (a :: x) = false → ends_before (a :: x) s →
  match_rule r ((a :: x) ++ s) = match_rule r (a :: x).
Proof.
  intros Hr Ha Hq Hcom Hs. destruct r; cbn [match_rule].
  - rewrite is_prefix_app; [rewrite Hcom; reflexivity |]. intros c s' E. specialize (Hs c s' E). cbn [breaks] in Hs.
    destruct (Ascii.eqb_spec a "/") as [-> | Hne]; [| cbn; apply Ascii.eqb_neq in Hne; rewrite Hne; reflexivity].
    apply andb_true_iff in Hs as [_ Hs]. apply negb_true_iff, Hs.
  - destruct (is_digit a) eqn:Hd; [| apply span_head, Hd]. apply span_app. intros c s' E. specialize (Hs c s' E).
    cbn [breaks] in Hs. rewrite Hd in Hs. apply negb_true_iff, Hs.
  - reflexivity.
  - unfold is_separator in Ha. apply orb_false_iff in Ha as [Ha _]. apply span_head, Ha.
  - destruct x as [| ? [| ? x]], s as [| ? [| ? s]]; cbn [app]; rewrite ?Hq; reflexivity.
  - rewrite (literal_ends lit t a x s Hr Hs). reflexivity.
  - reflexivity.
  - cbn [app]. destruct (is_letter a) eqn:Hl; [| reflexivity]. f_equal. apply span_app. intros c s' E. specialize (Hs c s' E).
    cbn [breaks] in Hs. destruct (is_digit a) eqn:Hd; [| rewrite Hl in Hs; apply negb_true_iff, Hs].
    exfalso. assert (Hcl : implb (is_digit a) (negb (is_letter a)) = true) by class_cases a. rewrite Hd, Hl in Hcl. discriminate Hcl.
  - reflexivity.
Qed.

Lemma choose_separated (a : ascii) (x s : text) :
  is_separator a = false → is_quote a = false → is_prefix ["/"; "/"]%char (a :: x) = false → ends_before (a :: x) s →
  choose ((a :: x) ++ s) = choose (a :: x).
Proof.
  intros Ha Hq Hcom Hs. unfold choose.
  assert (H : ∀ l best, (∀ r, r ∈ l → r ∈ rules) →
    foldl (λ '(best, n) r, if (n <? match_rule r ((a :: x) ++ s))%nat then (r, match_rule r ((a :: x) ++ s)) else (best, n)) best l =
    foldl (λ '(best, n) r, if (n <? match_rule r (a :: x))%nat then (r, match_rule r (a :: x)) else (best, n)) best l); [| apply H; auto].
  induction l as [| r l IH]; intros [best n] Hl; [reflexivity |]. cbn [foldl].
  rewrite !match_separated by (try assumption; apply Hl; left).
  apply IH. intros r' Hr'. apply Hl. right. exact Hr'.
Qed.

(** *** The rules on a token *)

(** [in_rules]: the cases of a rule of the file. *)
Ltac in_rules H := unfold rules in H; rewrite ?elem_of_cons, ?elem_of_nil in H; repeat destruct H as [H | H]; try contradiction; subst.

Lemma span_all (p : ascii → bool) (x : text) : forallb p x = true → span p x = length x.
Proof. induction x as [| c x IH]; cbn; [reflexivity |]. intros H. apply andb_true_iff in H as [-> H]. rewrite IH by exact H. reflexivity. Qed.

Lemma is_prefix_length (l x : text) : is_prefix l x = true → (length l ≤ length x)%nat ∧ (length l = length x → l = x).
Proof.
  revert x. induction l as [| a l IH]; intros [| b x] H; cbn in *; try discriminate; try (split; [lia | intros; (reflexivity || lia)]).
  apply andb_true_iff in H as [Ha H]. apply Ascii.eqb_eq in Ha as ->. destruct (IH x H) as [H1 H2].
  split; [lia | intros E; f_equal; apply H2; lia].
Qed.

Lemma letter_classes (c : ascii) :
  is_letter c = true → is_digit c = false ∧ is_newline c = false ∧ is_blank c = false ∧ is_quote c = false ∧
    is_punctuation c = false ∧ Ascii.eqb "/" c = false.
Proof.
  intros Hc. assert (H : implb (is_letter c) (negb (is_digit c || is_newline c || is_blank c || is_quote c ||
    is_punctuation c || Ascii.eqb "/" c)) = true) by class_cases c.
  rewrite Hc in H. cbn in H. apply negb_true_iff in H. rewrite !orb_false_iff in H. tauto.
Qed.

Lemma digit_classes (c : ascii) :
  is_digit c = true → is_letter c = false ∧ is_newline c = false ∧ is_blank c = false ∧ is_quote c = false ∧
    is_punctuation c = false ∧ Ascii.eqb "/" c = false.
Proof.
  intros Hc. assert (H : implb (is_digit c) (negb (is_letter c || is_newline c || is_blank c || is_quote c ||
    is_punctuation c || Ascii.eqb "/" c)) = true) by class_cases c.
  rewrite Hc in H. cbn in H. apply negb_true_iff in H. rewrite !orb_false_iff in H. tauto.
Qed.

(** A literal starts neither with a digit nor with white space. *)
Lemma literal_head (lit : string) (t : token) (c : ascii) (s : text) :
  R_LITERAL lit t ∈ rules → is_digit c = true ∨ is_separator c = true ∨ c = "/"%char →
  is_prefix (String.list_ascii_of_string lit) (c :: s) = false.
Proof.
  intros Hr Hc.
  assert (Hd : match String.list_ascii_of_string lit with
               | a :: _ => negb (is_digit a || is_separator a || Ascii.eqb a "/") | [] => false end = true)
    by (in_rules Hr; try discriminate; injection Hr as -> ->; reflexivity).
  destruct (String.list_ascii_of_string lit) as [| a l]; [discriminate Hd |]. cbn.
  destruct (Ascii.eqb_spec a c) as [-> | _]; [| reflexivity]. apply negb_true_iff in Hd.
  rewrite !orb_false_iff in Hd. destruct Hd as [[H1 H2] H3]. destruct Hc as [Hc | [Hc | ->]]; [congruence | congruence | discriminate H3].
Qed.

Lemma choose_number (c : ascii) (x : text) :
  forallb is_digit (c :: x) = true → choose (c :: x) = (R_NUMBER, length (c :: x)).
Proof.
  intros Hall. rewrite <- (span_all is_digit (c :: x) Hall).
  pose proof Hall as Hc. cbn in Hc. apply andb_true_iff in Hc as [Hc _].
  destruct (digit_classes c Hc) as (H1 & H2 & H3 & H4 & H5 & H6).
  assert (Hpos : (0 < span is_digit (c :: x))%nat) by (cbn; rewrite Hc; lia).
  apply (choose_first (c :: x) [R_COMMENT] (drop 2 rules) R_NUMBER eq_refl Hpos).
  - intros r Hr. apply list_elem_of_singleton in Hr as ->. cbn [match_rule is_prefix]. rewrite H6. exact Hpos.
  - intros r Hr. assert (Hr' : r ∈ rules) by (unfold rules; do 2 right; exact Hr).
    destruct r; cbn [match_rule]; rewrite ?H2, ?H1, ?H5; try apply Nat.le_0_l; try apply Nat.le_refl; try exact Hpos.
    + cbn [is_prefix]. rewrite H6. apply Nat.le_0_l.
    + cbn [span]. rewrite H3. apply Nat.le_0_l.
    + destruct x as [| ? []]; try apply Nat.le_0_l. rewrite H4. apply Nat.le_0_l.
    + rewrite (literal_head lit t c x Hr') by auto. apply Nat.le_0_l.
Qed.

Lemma choose_identifier (c : ascii) (x : text) :
  is_letter c = true → forallb (λ c, is_letter c || is_digit c) x = true →
  (∀ lit t, R_LITERAL lit t ∈ rules → c :: x ≠ String.list_ascii_of_string lit) →
  choose (c :: x) = (R_IDENTIFIER, length (c :: x)).
Proof.
  intros Hc Hall Hkw. destruct (letter_classes c Hc) as (H1 & H2 & H3 & H4 & H5 & H6).
  assert (Hlen : match_rule R_IDENTIFIER (c :: x) = length (c :: x))
    by (cbn [match_rule length]; rewrite Hc, (span_all _ _ Hall); reflexivity).
  rewrite <- Hlen. apply (choose_first (c :: x) (take 19 rules) [R_ECHO] R_IDENTIFIER eq_refl); rewrite Hlen.
  - cbn. lia.
  - intros r Hr. assert (Hr' : r ∈ rules) by (rewrite <- (take_drop 19 rules); apply elem_of_app; left; exact Hr).
    assert (Hpos : (0 < length (c :: x))%nat) by (cbn; lia).
    destruct r; cbn [match_rule]; rewrite ?H2, ?H5; try exact Hpos.
    + cbn [is_prefix]. rewrite H6. exact Hpos.
    + cbn [span]. rewrite H1. exact Hpos.
    + cbn [span]. rewrite H3. exact Hpos.
    + destruct x as [| ? []]; try exact Hpos. rewrite H4. exact Hpos.
    + destruct (is_prefix _ (c :: x)) eqn:E; [| exact Hpos]. apply is_prefix_length in E as [E1 E2].
      destruct (decide (length (String.list_ascii_of_string lit) = length (c :: x))) as [El | Hl]; [| lia].
      destruct (Hkw lit t Hr'). symmetry. exact (E2 El).
    + clear - Hr. exfalso. unfold rules in Hr. cbn [take] in Hr. rewrite ?elem_of_cons, ?elem_of_nil in Hr.
      repeat destruct Hr as [Hr | Hr]; try discriminate; contradiction.
    + clear - Hr. exfalso. unfold rules in Hr. cbn [take] in Hr. rewrite ?elem_of_cons, ?elem_of_nil in Hr.
      repeat destruct Hr as [Hr | Hr]; try discriminate; contradiction.
  - intros r Hr. apply list_elem_of_singleton in Hr as ->. cbn. lia.
Qed.

(** The rule chosen on the text of a token gives the token. *)
Lemma spells_choose (t : token) (x : text) :
  spells t x → ∃ c x' r, x = c :: x' ∧ is_separator c = false ∧ is_quote c = false ∧ is_prefix ["/"; "/"]%char x = false ∧
    choose x = (r, length x) ∧ r ≠ R_NEWLINE ∧ action r x = Ret (Some t).
Proof.
  intros [x' Hx Hlen Hkw | x' v Hne Hall Hv | lit t' Hr | c Hc].
  - destruct x' as [| c s]; [discriminate Hx |]. apply andb_true_iff in Hx as [Hc Hall].
    exists c, s, R_IDENTIFIER. destruct (letter_classes c Hc) as (H1 & H2 & H3 & H4 & _ & H6).
    split; [reflexivity |]. split; [unfold is_separator; rewrite H2, H3; reflexivity |]. split; [exact H4 |].
    split; [cbn [is_prefix]; rewrite H6; reflexivity |]. split; [apply choose_identifier; assumption |].
    split; [discriminate |]. cbn [action]. unfold strcpy_strval. rewrite (proj2 (Nat.ltb_lt _ _) Hlen). reflexivity.
  - destruct x' as [| c s]; [congruence |]. exists c, s, R_NUMBER.
    assert (Hc : is_digit c = true) by (cbn in Hall; apply andb_true_iff in Hall; tauto).
    destruct (digit_classes c Hc) as (H1 & H2 & H3 & H4 & _ & H6).
    split; [reflexivity |]. split; [unfold is_separator; rewrite H2, H3; reflexivity |]. split; [exact H4 |].
    split; [cbn [is_prefix]; rewrite H6; reflexivity |]. split; [apply choose_number; exact Hall |].
    split; [discriminate |]. cbn [action]. rewrite Hv. reflexivity.
  - in_rules Hr; try discriminate; injection Hr as -> ->; cbn [String.list_ascii_of_string];
      do 3 eexists; do 4 (split; [reflexivity |]);
      (split; [vm_compute; reflexivity |]); (split; [discriminate | reflexivity]).
  - exists c, [], R_PUNCTUATION. split; [reflexivity |].
    assert (H : implb (is_punctuation c) (negb (is_separator c || is_quote c)) = true) by class_cases c. rewrite Hc in H.
    apply negb_true_iff, orb_false_iff in H as [H1 H2]. split; [exact H1 |]. split; [exact H2 |]. split; [cbn [is_prefix]; apply andb_false_r |].
    split; [| split; [discriminate | reflexivity]]. apply bool_decide_eq_true in Hc. cbn in Hc.
    rewrite ?elem_of_cons, ?elem_of_nil in Hc. repeat destruct Hc as [-> | Hc]; try contradiction; vm_compute; reflexivity.
Qed.

(** *** White space and comments *)

(** On white space the other rules match nothing. *)
Lemma match_white (c : ascii) (s : text) (r : rule) :
  r ∈ rules → is_separator c = true → r ≠ R_BLANK → r ≠ R_NEWLINE → (match_rule r (c :: s) ≤ 1)%nat.
Proof.
  intros Hr Hc Hb Hn. destruct (separator_classes c Hc) as (H1 & H2 & H3 & _ & H5).
  destruct r; cbn [match_rule]; rewrite ?H1, ?H2; try contradiction; try (cbn; lia).
  - cbn [is_prefix]. rewrite H5. cbn. lia.
  - cbn [span]. rewrite H1. lia.
  - destruct s as [| ? []]; try (cbn; lia). rewrite H3. cbn. lia.
  - rewrite (literal_head lit t c s Hr) by auto. cbn. lia.
  - destruct (is_punctuation c); lia.
Qed.

Lemma choose_blank (c : ascii) (s : text) : is_blank c = true → choose (c :: s) = (R_BLANK, S (span is_blank s)).
Proof.
  intros Hc. assert (Hsep : is_separator c = true) by (unfold is_separator; rewrite Hc; reflexivity).
  assert (Hnl : is_newline c = false).
  { assert (H : implb (is_blank c) (negb (is_newline c)) = true) by class_cases c. rewrite Hc in H. apply negb_true_iff, H. }
  assert (Hlen : match_rule R_BLANK (c :: s) = S (span is_blank s)) by (cbn; rewrite Hc; reflexivity). rewrite <- Hlen.
  destruct (separator_classes c Hsep) as (H1 & H2 & _ & _ & H5).
  apply (choose_first (c :: s) (take 3 rules) (drop 4 rules) R_BLANK eq_refl); rewrite Hlen; [lia | |].
  - intros r Hr. cbn [take rules] in Hr. rewrite !elem_of_cons, elem_of_nil in Hr.
    repeat destruct Hr as [-> | Hr]; try contradiction; cbn [match_rule].
    + cbn [is_prefix]. rewrite H5. cbn. lia.
    + cbn [span]. rewrite H1. lia.
    + rewrite Hnl. lia.
  - intros r Hr. assert (Hr' : r ∈ rules) by (rewrite <- (take_drop 4 rules); apply elem_of_app; right; exact Hr).
    etrans; [apply (match_white c s r Hr' Hsep) | lia]; intros ->; clear - Hr; unfold rules in Hr; cbn [drop] in Hr;
      rewrite !elem_of_cons, elem_of_nil in Hr; repeat destruct Hr as [Hr | Hr]; try discriminate; contradiction.
Qed.

Lemma choose_newline (c : ascii) (s : text) : is_newline c = true → choose (c :: s) = (R_NEWLINE, 1%nat).
Proof.
  intros Hc. assert (Hsep : is_separator c = true) by (unfold is_separator; rewrite Hc; apply orb_true_r).
  assert (Hb : is_blank c = false).
  { assert (H : implb (is_newline c) (negb (is_blank c)) = true) by class_cases c. rewrite Hc in H. apply negb_true_iff, H. }
  assert (Hlen : match_rule R_NEWLINE (c :: s) = 1%nat) by (cbn; rewrite Hc; reflexivity). rewrite <- Hlen.
  destruct (separator_classes c Hsep) as (H1 & H2 & _ & _ & H5).
  apply (choose_first (c :: s) (take 2 rules) (drop 3 rules) R_NEWLINE eq_refl); rewrite Hlen; [lia | |].
  - intros r Hr. cbn [take rules] in Hr. rewrite !elem_of_cons, elem_of_nil in Hr.
    repeat destruct Hr as [-> | Hr]; try contradiction; cbn [match_rule].
    + cbn [is_prefix]. rewrite H5. cbn. lia.
    + cbn [span]. rewrite H1. lia.
  - intros r Hr. destruct (decide (r = R_BLANK)) as [-> |]; [cbn [match_rule span]; rewrite Hb; lia |].
    apply (match_white c s r); [rewrite <- (take_drop 3 rules); apply elem_of_app; right; exact Hr | exact Hsep | assumption |].
    intros ->. clear - Hr. unfold rules in Hr; cbn [drop] in Hr;
      rewrite !elem_of_cons, elem_of_nil in Hr; repeat destruct Hr as [Hr | Hr]; try discriminate; contradiction.
Qed.

Lemma span_stop (p : ascii → bool) (x s : text) (c : ascii) :
  forallb p x = true → p c = false → span p (x ++ c :: s) = length x.
Proof.
  intros Hx Hc. induction x as [| a x IH]; cbn; [rewrite Hc; reflexivity |]. cbn in Hx. apply andb_true_iff in Hx as [-> Hx].
  rewrite IH by exact Hx. reflexivity.
Qed.

Lemma choose_comment (x s : text) (nl : ascii) :
  forallb (λ c, negb (is_newline c)) x = true → is_newline nl = true →
  choose ("/"%char :: "/"%char :: x ++ nl :: s) = (R_COMMENT, S (S (length x))).
Proof.
  intros Hx Hnl.
  assert (Hlen : match_rule R_COMMENT ("/"%char :: "/"%char :: x ++ nl :: s) = S (S (length x))).
  { change (S (S (span (λ c, negb (is_newline c)) (x ++ nl :: s))) = S (S (length x))).
    rewrite (span_stop _ x s nl Hx); [reflexivity |]. rewrite Hnl. reflexivity. }
  rewrite <- Hlen. apply (choose_first _ [] (drop 1 rules) R_COMMENT eq_refl); rewrite Hlen; [lia | |].
  - intros r Hr. apply elem_of_nil in Hr. contradiction.
  - intros r Hr. assert (Hr' : r ∈ rules) by (rewrite <- (take_drop 1 rules); apply elem_of_app; right; exact Hr).
    pose proof (Nat.le_0_l (S (S (length x)))) as H0.
    destruct r; cbn [match_rule]; try (cbn; lia); try exact H0.
    + change (match_rule R_COMMENT ("/"%char :: "/"%char :: x ++ nl :: s) ≤ S (S (length x)))%nat. rewrite Hlen. lia.
    + destruct (x ++ nl :: s); exact H0.
    + rewrite (literal_head lit t _ _ Hr') by auto. exact H0.
    + destruct (is_punctuation _); lia.
Qed.

(** A text that starts with no white space. *)
Definition bare (s : text) : Prop := s = [] ∨ ∃ c s', s = c :: s' ∧ is_separator c = false.

Lemma span_blank_bare (s : text) : bare s → span is_blank s = 0%nat.
Proof.
  intros [-> | (c & s' & -> & Hc)]; [reflexivity |]. cbn. unfold is_separator in Hc. apply orb_false_iff in Hc as [-> _]. reflexivity.
Qed.

Lemma gap_after_blank (g s : text) :
  gap g → bare s → ∃ g', gap g' ∧ drop (span is_blank (g ++ s)) (g ++ s) = g' ++ s ∧ (length g' ≤ length g)%nat.
Proof.
  intros Hg Hs. induction Hg as [| c g Hc Hg IH | c g Hc Hg IH | x nl g Hx Hnl Hg IH].
  - exists []. cbn [app]. rewrite (span_blank_bare s Hs). split; [constructor | split; reflexivity].
  - destruct IH as (g' & H1 & H2 & H3). exists g'. cbn [app span]. rewrite Hc. cbn [drop length]. repeat split; [exact H1 | exact H2 | lia].
  - exists (c :: g). assert (H : implb (is_newline c) (negb (is_blank c)) = true) by class_cases c. rewrite Hc in H.
    apply negb_true_iff in H. cbn [app span]. rewrite H.
    split; [apply gap_newline; assumption | split; reflexivity].
  - exists ("/"%char :: "/"%char :: x ++ nl :: g). split; [apply gap_comment; assumption | split; reflexivity].
Qed.

(** The scanner goes over it. *)
Lemma yylex_gap (g s : text) :
  gap g → bare s → ∀ n line, (length (g ++ s) ≤ n)%nat → ∃ line', yylex n (g ++ s) line = yylex (length s) s line'.
Proof.
  intros Hg Hs n line Hn. revert g Hg line Hn. induction n as [n IH] using lt_wf_ind. intros g Hg line Hn.
  destruct Hg as [| c g Hc Hg | c g Hc Hg | x nl g Hx Hnl Hg].
  - exists line. apply yylex_fuel; [exact Hn | reflexivity].
  - destruct n as [| n]; [cbn in Hn; lia |]. cbn [app yylex]. rewrite (choose_blank c _ Hc). cbn [action mbind outcome_bind].
    cbn [drop]. destruct (gap_after_blank g s Hg Hs) as (g' & Hg' & -> & Hlen).
    apply (IH n ltac:(lia) g' Hg'). cbn [app length] in Hn. rewrite length_app in *. lia.
  - destruct n as [| n]; [cbn in Hn; lia |]. cbn [app yylex]. rewrite (choose_newline c _ Hc). cbn [action mbind outcome_bind drop].
    apply (IH n ltac:(lia) g Hg). cbn [app length] in Hn. lia.
  - destruct n as [| n]; [cbn in Hn; lia |]. cbn [app yylex]. rewrite <- app_assoc. cbn [app]. rewrite (choose_comment x _ nl Hx Hnl).
    cbn [action mbind outcome_bind drop]. rewrite drop_app_length.
    destruct (IH n ltac:(lia) (nl :: g) (gap_newline nl g Hnl Hg) line) as [line' E]; [| exists line'; exact E].
    cbn [app length] in *. rewrite !length_app in Hn. cbn [length] in Hn. rewrite length_app. lia.
Qed.

Lemma layout_scan (s : text) (ts : list token) :
  layout s ts → ∀ n line, (length s < n)%nat → ∃ lts, scan n s line = Ret lts ∧ map fst lts = ts.
Proof.
  induction 1 as [g Hg | g x s t ts Hg Hx Hs _ IH]; intros n line Hn; (destruct n as [| n]; [lia |]); cbn [scan].
  - destruct (yylex_gap g [] Hg ltac:(left; reflexivity) (length g) line ltac:(rewrite app_nil_r; lia)) as [line' E].
    rewrite app_nil_r in E. rewrite E. exists []. split; reflexivity.
  - destruct (spells_choose t x Hx) as (c & x' & r & -> & Hc & Hq & Hcom & Hch & Hnl & Hact).
    destruct (yylex_gap g ((c :: x') ++ s) Hg ltac:(right; cbn; eauto) (length (g ++ (c :: x') ++ s)) line ltac:(lia)) as [line' E].
    rewrite E. cbn [app length yylex]. change (c :: x' ++ s) with ((c :: x') ++ s).
    rewrite (choose_separated c x' s Hc Hq Hcom Hs), Hch. rewrite take_app_length, drop_app_length, Hact.
    cbn [mbind outcome_bind].
    destruct (IH n (match r with R_NEWLINE => line' + 1 | _ => line' end)) as (lts & E2 & E3).
    { rewrite !length_app in Hn. cbn [length] in Hn. lia. }
    destruct r; try contradiction; rewrite E2; cbn [mbind outcome_bind]; eexists; (split; [reflexivity |]); cbn [map fst]; rewrite E3; reflexivity.
Qed.

Lemma literal_plain (lit : string) (t : token) :
  R_LITERAL lit t ∈ rules → forallb (λ c, negb (is_separator c)) (String.list_ascii_of_string lit) = true.
Proof. intros Hr. in_rules Hr; try discriminate; injection Hr as -> ->; reflexivity. Qed.

(** White space ends every token. *)
Lemma separator_breaks (t : token) (x : text) (c : ascii) : spells t x → is_separator c = true → breaks x c = true.
Proof.
  intros Hx Hc. destruct (spells_choose t x Hx) as (a & x' & _ & -> & _). cbn [breaks].
  destruct (separator_classes c Hc) as (-> & -> & _ & _ & Hs).
  destruct (is_digit a); [reflexivity |]. destruct (is_letter a); [reflexivity |]. apply andb_true_iff. split.
  - apply forallb_forall. intros r Hr. apply list_elem_of_In in Hr. destruct r as [| | | | | lit t' | | |]; try reflexivity.
    apply negb_true_iff. destruct (is_prefix _ _) eqn:Hp; [| reflexivity]. apply is_prefix_snoc in Hp.
    pose proof (literal_plain lit t' Hr) as Hl. rewrite forallb_forall in Hl. apply list_elem_of_In in Hp. specialize (Hl c Hp).
    rewrite Hc in Hl. discriminate Hl.
  - apply negb_true_iff. destruct (is_prefix _ _) eqn:Hp; [| reflexivity]. apply is_prefix_snoc in Hp.
    rewrite !elem_of_cons, elem_of_nil in Hp. destruct Hp as [-> | [-> | []]]; discriminate Hs.
Qed.

(** *** Checking that a text is a layout of some tokens *)

(** What is left behind white space and comments. *)
Fixpoint skip_gap (fuel : nat) (s : text) : text :=
  match fuel with
  | O => s
  | S fuel =>
      match s with
      | [] => []
      | c :: s' =>
          if is_separator c then skip_gap fuel s'
          else if is_prefix ["/"; "/"]%char s then
            match drop (span (λ c, negb (is_newline c)) (drop 2 s)) (drop 2 s) with
            | nl :: rest => if is_newline nl then skip_gap fuel rest else s
            | [] => s
            end
          else s
      end
  end.

Definition spellsb (t : token) (x : text) : bool :=
  match t with
  | TOK_IDENTIFIER y =>
      bool_decide (y = String.string_of_list_ascii x) &&
      match x with c :: s => is_letter c && forallb (λ c, is_letter c || is_digit c) s | [] => false end &&
      (length x <? 1024)%nat &&
      forallb (λ r, match r with R_LITERAL lit _ => bool_decide (x ≠ String.list_ascii_of_string lit) | _ => true end) rules
  | TOK_NUMBER v =>
      bool_decide (x ≠ []) && forallb is_digit x && match atoi x with Ret v' => v' =? v | _ => false end
  | TOK_CHAR c => bool_decide (x = [c]) && is_punctuation c
  | _ => existsb (λ r, match r with R_LITERAL lit t' => bool_decide (t' = t ∧ x = String.list_ascii_of_string lit) | _ => false end) rules
  end.

Fixpoint layoutb (s : text) (ts : list token) : bool :=
  let s := skip_gap (length s) s in
  match ts with
  | [] => bool_decide (s = [])
  | t :: ts =>
      let n := snd (choose s) in
      spellsb t (take n s) && match drop n s with [] => true | c :: _ => breaks (take n s) c end && layoutb (drop n s) ts
  end.

Lemma span_split (p : ascii → bool) (s : text) : forallb p (take (span p s) s) = true.
Proof. induction s as [| c s IH]; [reflexivity |]. cbn. destruct (p c) eqn:Hc; [| reflexivity]. cbn. rewrite Hc. exact IH. Qed.

Lemma skip_gap_gap (fuel : nat) (s : text) : ∃ g, gap g ∧ s = g ++ skip_gap fuel s.
Proof.
  revert s. induction fuel as [| fuel IH]; intros s; [exists []; split; [constructor | reflexivity] |].
  assert (Hnone : ∃ g, gap g ∧ s = g ++ s) by (exists []; split; [constructor | reflexivity]).
  destruct s as [| c s]; [exact Hnone |]. cbn [skip_gap]. destruct (is_separator c) eqn:Hc.
  - destruct (IH s) as (g & Hg & E). exists (c :: g). split; [| rewrite E at 1; reflexivity].
    unfold is_separator in Hc. apply orb_true_iff in Hc as [Hc | Hc]; [apply gap_blank | apply gap_newline]; assumption.
  - destruct (is_prefix _ _) eqn:Hp; [| exact Hnone]. destruct s as [| c' s]; [cbn [is_prefix] in Hp; rewrite andb_false_r in Hp; discriminate Hp |].
    cbn [is_prefix] in Hp. rewrite andb_true_r in Hp. apply andb_true_iff in Hp as [H1 H2]. apply Ascii.eqb_eq in H1 as <-. apply Ascii.eqb_eq in H2 as <-.
    set (p := λ c, negb (is_newline c)) in *. change (drop 2 ("/"%char :: "/"%char :: s)) with s.
    destruct (drop (span p s) s) as [| nl rest] eqn:Hd; [exact Hnone |]. destruct (is_newline nl) eqn:Hnl; [| exact Hnone].
    destruct (IH rest) as (g & Hg & E). exists ("/"%char :: "/"%char :: take (span p s) s ++ nl :: g).
    split; [apply gap_comment; [apply span_split | exact Hnl | exact Hg] |].
    cbn [app]. do 2 f_equal. rewrite <- app_assoc. cbn [app]. rewrite <- E, <- Hd. symmetry. apply take_drop.
Qed.

Lemma spellsb_spells (t : token) (x : text) : spellsb t x = true → spells t x.
Proof.
  assert (Hlit : existsb (λ r, match r with R_LITERAL lit t' => bool_decide (t' = t ∧ x = String.list_ascii_of_string lit) | _ => false end) rules
    = true → spells t x).
  { intros He. apply existsb_exists in He as (r & Hr & He). destruct r as [| | | | | lit t' | | |]; try discriminate He.
    apply bool_decide_eq_true in He as [-> ->]. apply sp_literal, list_elem_of_In, Hr. }
  destruct t; cbn [spellsb]; intros Hs; try exact (Hlit Hs).
  - apply andb_true_iff in Hs as [Hs Hkw]. apply andb_true_iff in Hs as [Hs Hlen]. apply andb_true_iff in Hs as [Hs Hx].
    apply bool_decide_eq_true in Hs as ->. apply sp_identifier; [exact Hx | apply Nat.ltb_lt, Hlen |].
    intros lit t Hr. rewrite forallb_forall in Hkw. apply list_elem_of_In in Hr. exact (bool_decide_eq_true_1 _ (Hkw _ Hr)).
  - apply andb_true_iff in Hs as [Hs Hv]. apply andb_true_iff in Hs as [Hne Hall].
    destruct (atoi x) as [v' | | | |] eqn:Ha; try discriminate Hv. apply Z.eqb_eq in Hv as ->.
    apply sp_number; [exact (bool_decide_eq_true_1 _ Hne) | exact Hall | exact Ha].
  - apply andb_true_iff in Hs as [Hs Hc]. apply bool_decide_eq_true in Hs as ->. apply sp_punctuation, Hc.
Qed.

Lemma layoutb_layout (ts : list token) : ∀ s, layoutb s ts = true → layout s ts.
Proof.
  induction ts as [| t ts IH]; intros s Hs; cbn [layoutb] in Hs; destruct (skip_gap_gap (length s) s) as (g & Hg & E);
    set (s' := skip_gap (length s) s) in *; clearbody s'; subst s.
  - apply bool_decide_eq_true in Hs as ->. rewrite app_nil_r. apply lay_end, Hg.
  - apply andb_true_iff in Hs as [Hs Hl]. apply andb_true_iff in Hs as [Hx Hb].
    rewrite <- (take_drop (snd (choose s')) s') at 1. apply lay_token; [exact Hg | apply spellsb_spells, Hx | | apply IH, Hl].
    intros c s2 E. rewrite E in Hb. exact Hb.
Qed.

(** C39. Scanning a program text gives its tokens, however much white space and however
    many comments are between them, and none where a token ends by itself: the longest
    match keeps a keyword that begins an identifier, or a shorter operator, from being
    taken for a token, and one step per character is enough. *)
Theorem tokens_layout (source : string) (ts : list token) :
  layout (String.list_ascii_of_string source) ts → tokens source = Ret ts.
Proof.
  intros HL. unfold tokens. destruct (layout_scan _ ts HL (S (length (String.list_ascii_of_string source))) 1 ltac:(lia))
    as (lts & -> & <-). reflexivity.
Qed.

Lemma tokens_layout_witness :
  tokens "iffy(a+ +b) // if
 ==07" = Ret [TOK_IDENTIFIER "iffy"; TOK_CHAR "("; TOK_IDENTIFIER "a"; TOK_CHAR "+"; TOK_CHAR "+"; TOK_IDENTIFIER "b"; TOK_CHAR ")";
             TOK_EQUALS; TOK_NUMBER 7].
Proof. apply tokens_layout, layoutb_layout. vm_compute. reflexivity. Defined.
