(* ===== verification/SpmdParser.v ===== *)
(** * SpmdParser: the parser of the SPMD compiler

    tools/spmd-compile/src/Parser.yy: its grammar with the actions, in the order a
    bottom-up parser runs them, as a function on the tokens.  Where the grammar
    is ambiguous the function does what Bison does: it compares the precedence
    of the rule with that of the next token when both have one, and shifts
    otherwise.  A symbol is numbered by the order in which the actions make it. *)
From Stdlib Require Import Ascii.
From stdpp Require Import vector fin.
From S2P Require Import Prelude SpmdBuilder SpmdScanner.

(** ** State *)

Abbreviation Scope := (gmap string Symbol).

(** The head of [ScopeStack] is its back; [Made] counts the symbols made. *)
Record PState : Type := mkPState {
  Tokens : list token;
  ScopeStack : list Scope;
  Made : nat;
  ArgumentSyms : list Symbol
}.

Fixpoint lookupSymbol (Stack : list Scope) (name : string) : option Symbol :=
  match Stack with
  | [] => None
  | sc :: Stack => match sc !! name with Some x => Some x | None => lookupSymbol Stack name end
  end.

(** An action or the parser itself may report an error, which ends the parse. *)
Definition ParserM (A : Type) : Type := PState → outcome (string + A * PState).

#[export] Instance ParserM_ret : MRet ParserM := λ A a s, Ret (inr (a, s)).
#[export] Instance ParserM_bind : MBind ParserM := λ A B k m s,
  m s ≫= λ r, match r with inl e => Ret (inl e) | inr (a, s') => k a s' end.

Definition yyerror {A : Type} (msg : string) : ParserM A := λ _, Ret (inl msg).
Definition out_of_fuel {A : Type} : ParserM A := λ _, UndefinedBehaviour "fuel".
Definition syntax_error {A : Type} : ParserM A := yyerror "syntax error".

Definition peek : ParserM (option token) := λ s, Ret (inr (head (Tokens s), s)).

Definition shift : ParserM unit := λ s,
  Ret (inr (tt, mkPState (drop 1 (Tokens s)) (ScopeStack s) (Made s) (ArgumentSyms s))).

Definition expect (t : token) : ParserM unit :=
  t' ← peek;
  if decide (t' = Some t) then shift else syntax_error.

Definition identifier : ParserM string :=
  t ← peek;
  match t with Some (TOK_IDENTIFIER x) => shift;; mret x | _ => syntax_error end.

(** ** Actions on scopes *)
Definition enter_scope : ParserM unit := λ s,
  Ret (inr (tt, mkPState (Tokens s) (∅ :: ScopeStack s) (Made s) (ArgumentSyms s))).

Definition leave_scope : ParserM unit := λ s,
  match ScopeStack s with
  | [] => UndefinedBehaviour "pop_back"
  | _ :: rest => Ret (inr (tt, mkPState (Tokens s) rest (Made s) (ArgumentSyms s)))
  end.

Definition lookup_name (x : string) : ParserM (option Symbol) := λ s, Ret (inr (lookupSymbol (ScopeStack s) x, s)).

(** [Symbol *Sym = new Symbol; ScopeStack.back()[name] = Sym;] *)
Definition newSymbol (x : string) : ParserM Symbol := λ s,
  match ScopeStack s with
  | [] => UndefinedBehaviour "back"
  | sc :: rest => Ret (inr (Made s, mkPState (Tokens s) (<[x := Made s]> sc :: rest) (S (Made s)) (ArgumentSyms s)))
  end.

Definition addArgument (x : Symbol) : ParserM unit := λ s,
  Ret (inr (tt, mkPState (Tokens s) (ScopeStack s) (Made s) (ArgumentSyms s ++ [x]))).

(** ** Expressions *)

(** The binary operators of the grammar. *)
Inductive binop : Type := OpGT | OpLT | OpEQ | OpNE | OpAdd | OpSub | OpMul | OpDiv.

Definition binop_token (o : binop) : token :=
  match o with
  | OpGT => TOK_CHAR ">" | OpLT => TOK_CHAR "<" | OpEQ => TOK_EQUALS | OpNE => TOK_NOT_EQUAL
  | OpAdd => TOK_CHAR "+" | OpSub => TOK_CHAR "-" | OpMul => TOK_CHAR "*" | OpDiv => TOK_CHAR "/"
  end.

Definition binop_of (t : token) : option binop :=
  List.find (λ o, bool_decide (t = binop_token o)) [OpGT; OpLT; OpEQ; OpNE; OpAdd; OpSub; OpMul; OpDiv].

(** The [%left] declarations: none names a comparison. *)
Definition precedence (o : binop) : option nat :=
  match o with
  | OpAdd | OpSub => Some 1%nat
  | OpMul | OpDiv => Some 2%nat
  | OpGT | OpLT | OpEQ | OpNE => None
  end.

(** With [expr o expr] on the stack and [o'] next: whether the rule of [o] is reduced.
    Equal precedence is left associative; without a precedence it shifts. *)
Definition reduces (o o' : binop) : bool :=
  match precedence o, precedence o' with
  | Some p, Some p' => (p' <=? p)%nat
  | _, _ => false
  end.

Section Parser.
Context `{FloatOps} (ofInt : Z → float).

(** The action of a binary rule. *)
Definition mkBinary (o : binop) (a b : AstNode) : AstNode :=
  match o with
  | OpGT => CompareAst FCMP_UGT a b
  | OpLT => CompareAst FCMP_ULT a b
  | OpEQ => CompareAst FCMP_UEQ a b
  | OpNE => CompareAst FCMP_UNE a b
  | OpAdd => AddAst a b
  | OpSub => SubAst a b
  | OpMul => MulAst a b
  | OpDiv => DivAst a b
  end.

Definition variable (x : string) : ParserM AstNode :=
  sym ← lookup_name x;
  match sym with
  | None => yyerror "Undefined variable"
  | Some s => mret (VariableAst s)
  end.

(** An operand: a number, a variable or a parenthesised expression. *)
Definition parse_operand (parse_expr : ParserM AstNode) : ParserM AstNode :=
  t ← peek;
  match t with
  | Some (TOK_NUMBER v) => shift;; mret (ConstantAst (ofInt v))
  | Some (TOK_IDENTIFIER x) => shift;; variable x
  | Some (TOK_CHAR "(") => shift;; e ← parse_expr; expect (TOK_CHAR ")");; mret e
  | _ => syntax_error
  end.

(** The reductions before the next token is shifted, or at the end. *)
Fixpoint reduce (next : option binop) (stack : list (AstNode * binop)) (e : AstNode) : list (AstNode * binop) * AstNode :=
  match stack with
  | [] => ([], e)
  | (l, o) :: rest =>
      if match next with Some o' => reduces o o' | None => true end then reduce next rest (mkBinary o l e) else (stack, e)
  end.

(** The operators behind an operand [e]; the stack holds what is left of it. *)
Fixpoint parse_operators (operand : ParserM AstNode) (fuel : nat) (stack : list (AstNode * binop)) (e : AstNode)
    : ParserM AstNode :=
  match fuel with
  | O => out_of_fuel
  | S fuel =>
      t ← peek;
      match t ≫= binop_of with
      | None => mret (reduce None stack e).2
      | Some o =>
          shift;;
          let '(stack, l) := reduce (Some o) stack e in
          r ← operand;
          parse_operators operand fuel ((l, o) :: stack) r
      end
  end.

Fixpoint parse_expr (fuel : nat) : ParserM AstNode :=
  match fuel with
  | O => out_of_fuel
  | S n =>
      let operand := parse_operand (parse_expr n) in
      e ← operand;
      parse_operators operand fuel [] e
  end.

(** ** Statements *)
Definition parse_assignstmt (fuel : nat) : ParserM AstNode :=
  x ← identifier;
  v ← variable x;
  t ← peek;
  match t with
  | Some (TOK_CHAR "=") => shift;; e ← parse_expr fuel; mret (AssignAst v e)
  | Some TOK_INCR => shift;; mret (AssignAst v (AddAst v (ConstantAst (ofInt 1))))
  | Some TOK_DECR => shift;; mret (AssignAst v (SubAst v (ConstantAst (ofInt 1))))
  | _ => syntax_error
  end.

(** The check of [vardecl], and its symbol. *)
Definition declare (x : string) : ParserM Symbol :=
  sym ← lookup_name x;
  match sym with
  | Some _ => yyerror "Redeclared symbol"
  | None => newSymbol x
  end.

Definition parse_vardecl (fuel : nat) : ParserM AstNode :=
  expect TOK_FLOAT;;
  x ← identifier;
  t ← peek;
  if decide (t = Some (TOK_CHAR "=")) then
    shift;;
    e ← parse_expr fuel;
    sym ← declare x;
    mret (AssignAst (VariableAst sym) e)
  else
    declare x;;
    mret NullAst.

(** The tokens a statement starts with. *)
Definition starts_statement (t : option token) : bool :=
  match t with
  | Some (TOK_IF | TOK_FOR | TOK_WHILE | TOK_RETURN | TOK_FLOAT | TOK_IDENTIFIER _) => true
  | Some (TOK_CHAR c) => Ascii.eqb c "{" || Ascii.eqb c ";"
  | _ => false
  end.

(** [stmtseq], given [statement]. *)
Fixpoint parse_stmtseq (statement : ParserM AstNode) (fuel : nat) : ParserM AstNode :=
  match fuel with
  | O => out_of_fuel
  | S fuel =>
      s ← statement;
      t ← peek;
      if starts_statement t then
        rest ← parse_stmtseq statement fuel;
        mret (SequenceAst s rest)
      else mret s
  end.

Fixpoint parse_statement (fuel : nat) : ParserM AstNode :=
  match fuel with
  | O => out_of_fuel
  | S n =>
      t ← peek;
      match t with
      | Some TOK_IF =>
          shift;;
          expect (TOK_CHAR "(");; c ← parse_expr fuel; expect (TOK_CHAR ")");;
          th ← parse_statement n;
          t ← peek;
          if decide (t = Some TOK_ELSE) then
            shift;; el ← parse_statement n; mret (IfAst c th el)
          else mret (IfAst c th NullAst)
      | Some TOK_FOR =>
          shift;;
          expect (TOK_CHAR "(");; i ← parse_assignstmt fuel; expect (TOK_CHAR ";");;
          c ← parse_expr fuel; expect (TOK_CHAR ";");;
          inc ← parse_assignstmt fuel; expect (TOK_CHAR ")");;
          b ← parse_statement n;
          mret (ForAst i c inc b)
      | Some TOK_WHILE =>
          shift;;
          expect (TOK_CHAR "(");; c ← parse_expr fuel; expect (TOK_CHAR ")");;
          b ← parse_statement n;
          mret (WhileAst c b)
      | Some TOK_RETURN => shift;; e ← parse_expr fuel; expect (TOK_CHAR ";");; mret (ReturnAst e)
      | Some TOK_FLOAT => d ← parse_vardecl fuel; expect (TOK_CHAR ";");; mret d
      | Some (TOK_IDENTIFIER _) => a ← parse_assignstmt fuel; expect (TOK_CHAR ";");; mret a
      | Some (TOK_CHAR ";") => shift;; mret NullAst
      | Some (TOK_CHAR "{") =>
          shift;;
          t ← peek;
          if decide (t = Some (TOK_CHAR "}")) then shift;; mret NullAst
          else
            enter_scope;;
            b ← parse_stmtseq (parse_statement n) fuel;
            leave_scope;;
            expect (TOK_CHAR "}");;
            mret b
      | _ => syntax_error
      end
  end.

(** ** Functions *)
Definition parse_paramdecl : ParserM unit :=
  expect TOK_FLOAT;;
  x ← identifier;
  sym ← newSymbol x;
  addArgument sym.

Fixpoint parse_paramlist (fuel : nat) : ParserM unit :=
  match fuel with
  | O => out_of_fuel
  | S fuel =>
      parse_paramdecl;;
      t ← peek;
      if decide (t = Some (TOK_CHAR ",")) then shift;; parse_paramlist fuel else mret tt
  end.

Definition parse_parameters (fuel : nat) : ParserM unit :=
  t ← peek;
  if decide (t = Some TOK_FLOAT) then parse_paramlist fuel else mret tt.

(** [funcdecl], up to its action: the name and the body. *)
Definition parse_funcdecl (fuel : nat) : ParserM (string * AstNode) :=
  expect TOK_FLOAT;;
  name ← identifier;
  enter_scope;;
  expect (TOK_CHAR "(");; parse_parameters fuel;; expect (TOK_CHAR ")");;
  expect (TOK_CHAR "{");;
  body ← parse_stmtseq (parse_statement fuel) fuel;
  leave_scope;;
  expect (TOK_CHAR "}");;
  mret (name, body).

(** [yyparse] on the tokens: the action of [funcdecl] runs before the end of the
    input is looked for. *)
Definition yyparse (ts : list token) : outcome (string + list BasicBlock) :=
  parse_funcdecl (S (length ts)) (mkPState ts [] 0 []) ≫= λ r,
  match r with
  | inl e => Ret (inl e)
  | inr (name, body, s) =>
      compile (ArgumentSyms s) body ≫= λ F,
      match Tokens s with
      | [] => Ret (inr F)
      | _ => Ret (inl "syntax error")
      end
  end.

(** [parse], on the text of the program. *)
Definition parse (source : string) : outcome (string + list BasicBlock) := tokens source ≫= yyparse.
End Parser.
