(* ===== verification/SpmdGrammar.v ===== *)
(** * SpmdGrammar: the parser of the SPMD compiler follows its grammar

    The rules of Parser.yy as inductive predicates on tokens, scopes and trees, with
    their conflicts resolved, and the parser of SpmdParser.v against them: it always
    ends, and accepts exactly what the rules derive, with the tree of the actions.  The
    first half shows that what it accepts is derived, by weakest preconditions; the
    second that what is derived is accepted, by induction on the derivations. *)
From Stdlib Require Import Ascii.
From stdpp Require Import vector fin.
From S2P Require Import Prelude SpmdBuilder SpmdScanner SpmdParser.

Section Grammar.
Context `{FloatOps} (ofInt : Z → float).

Abbreviation parse_operand := (parse_operand ofInt).
Abbreviation parse_expr := (parse_expr ofInt).
Abbreviation parse_assignstmt := (parse_assignstmt ofInt).
Abbreviation parse_vardecl := (parse_vardecl ofInt).
Abbreviation parse_statement := (parse_statement ofInt).
Abbreviation parse_funcdecl := (parse_funcdecl ofInt).
Abbreviation yyparse := (yyparse ofInt).

(** ** The rules

    Parser.yy gives the rules of an expression without levels; [%left] gives the
    arithmetic operators two levels and leaves the comparisons without one, so Bison
    shifts wherever a comparison is involved.  What that amounts to is a grammar
    without ambiguity: sums of products of operands, to the left, where only the last
    operand of all may be compared, with everything behind it. *)

(** The operators, each with the tree its rule makes. *)
Inductive MulRule : token → (AstNode → AstNode → AstNode) → Prop :=
  | R_mul : MulRule (TOK_CHAR "*") MulAst
  | R_div : MulRule (TOK_CHAR "/") DivAst.

Inductive AddRule : token → (AstNode → AstNode → AstNode) → Prop :=
  | R_add : AddRule (TOK_CHAR "+") AddAst
  | R_sub : AddRule (TOK_CHAR "-") SubAst.

Inductive CmpRule : token → (AstNode → AstNode → AstNode) → Prop :=
  | R_gt : CmpRule (TOK_CHAR ">") (CompareAst FCMP_UGT)
  | R_lt : CmpRule (TOK_CHAR "<") (CompareAst FCMP_ULT)
  | R_equals : CmpRule TOK_EQUALS (CompareAst FCMP_UEQ)
  | R_not_equal : CmpRule TOK_NOT_EQUAL (CompareAst FCMP_UNE).

(** The declaration of a name that is in scope: the innermost. *)
Inductive Declared : list Scope → string → Symbol → Prop :=
  | D_here sc rest x sym : sc !! x = Some sym → Declared (sc :: rest) x sym
  | D_outside sc rest x sym : sc !! x = None → Declared rest x sym → Declared (sc :: rest) x sym.

(** [expr] and [variable] under some scopes.  A term, a product or an expression with
    the mark [true] may end in a comparison. *)
Inductive Operand (Scopes : list Scope) : list token → AstNode → Prop :=
  | G_number v : Operand Scopes [TOK_NUMBER v] (ConstantAst (ofInt v))
  | G_variable x sym : Declared Scopes x sym → Operand Scopes [TOK_IDENTIFIER x] (VariableAst sym)
  | G_paren ts e : Expr Scopes true ts e → Operand Scopes (TOK_CHAR "(" :: ts ++ [TOK_CHAR ")"]) e
with Term (Scopes : list Scope) : bool → list token → AstNode → Prop :=
  | G_operand last ts e : Operand Scopes ts e → Term Scopes last ts e
  | G_compare t f ts1 ts2 a b :
      CmpRule t f → Operand Scopes ts1 a → Expr Scopes true ts2 b → Term Scopes true (ts1 ++ t :: ts2) (f a b)
with Product (Scopes : list Scope) : bool → list token → AstNode → Prop :=
  | G_term last ts e : Term Scopes last ts e → Product Scopes last ts e
  | G_mul last t f ts1 ts2 a b :
      MulRule t f → Product Scopes false ts1 a → Term Scopes last ts2 b → Product Scopes last (ts1 ++ t :: ts2) (f a b)
with Expr (Scopes : list Scope) : bool → list token → AstNode → Prop :=
  | G_product last ts e : Product Scopes last ts e → Expr Scopes last ts e
  | G_add last t f ts1 ts2 a b :
      AddRule t f → Expr Scopes false ts1 a → Product Scopes last ts2 b → Expr Scopes last (ts1 ++ t :: ts2) (f a b).

Scheme Operand_min := Minimality for Operand Sort Prop
  with Term_min := Minimality for Term Sort Prop
  with Product_min := Minimality for Product Sort Prop
  with Expr_min := Minimality for Expr Sort Prop.
Combined Scheme expr_mutind from Operand_min, Term_min, Product_min, Expr_min.

(** [assignstmt] *)
Inductive Assign (Scopes : list Scope) : list token → AstNode → Prop :=
  | G_assign x sym ts e :
      Declared Scopes x sym → Expr Scopes true ts e →
      Assign Scopes (TOK_IDENTIFIER x :: TOK_CHAR "=" :: ts) (AssignAst (VariableAst sym) e)
  | G_incr x sym :
      Declared Scopes x sym →
      Assign Scopes [TOK_IDENTIFIER x; TOK_INCR] (AssignAst (VariableAst sym) (AddAst (VariableAst sym) (ConstantAst (ofInt 1))))
  | G_decr x sym :
      Declared Scopes x sym →
      Assign Scopes [TOK_IDENTIFIER x; TOK_DECR] (AssignAst (VariableAst sym) (SubAst (VariableAst sym) (ConstantAst (ofInt 1)))).

(** The scopes and the number of symbols made. *)
Definition Env : Type := list Scope * nat.

Definition bindName (E : Env) (x : string) : Env :=
  match E.1 with
  | [] => E
  | sc :: rest => (<[x := E.2]> sc :: rest, S E.2)
  end.

(** [vardecl] *)
Inductive Vardecl : Env → list token → AstNode → Env → Prop :=
  | G_decl E x : (∀ sym, ¬ Declared E.1 x sym) → Vardecl E [TOK_FLOAT; TOK_IDENTIFIER x] NullAst (bindName E x)
  | G_decl_init E x ts e :
      (∀ sym, ¬ Declared E.1 x sym) → Expr E.1 true ts e →
      Vardecl E (TOK_FLOAT :: TOK_IDENTIFIER x :: TOK_CHAR "=" :: ts) (AssignAst (VariableAst E.2) e) (bindName E x).

(** [statement] and [stmtseq].  A statement with the mark [true] ends in an [if] to which
    an [else] behind it would belong. *)
Inductive Statement : bool → Env → list token → AstNode → Env → Prop :=
  | G_if o E E' ts1 ts2 c th :
      Expr E.1 true ts1 c → Statement o E ts2 th E' →
      Statement true E (TOK_IF :: TOK_CHAR "(" :: ts1 ++ TOK_CHAR ")" :: ts2) (IfAst c th NullAst) E'
  | G_if_else o E E' E'' ts1 ts2 ts3 c th el :
      Expr E.1 true ts1 c → Statement false E ts2 th E' → Statement o E' ts3 el E'' →
      Statement o E (TOK_IF :: TOK_CHAR "(" :: ts1 ++ TOK_CHAR ")" :: ts2 ++ TOK_ELSE :: ts3) (IfAst c th el) E''
  | G_for o E E' ts1 ts2 ts3 ts4 i c inc b :
      Assign E.1 ts1 i → Expr E.1 true ts2 c → Assign E.1 ts3 inc → Statement o E ts4 b E' →
      Statement o E (TOK_FOR :: TOK_CHAR "(" :: ts1 ++ TOK_CHAR ";" :: ts2 ++ TOK_CHAR ";" :: ts3 ++ TOK_CHAR ")" :: ts4)
        (ForAst i c inc b) E'
  | G_while o E E' ts1 ts2 c b :
      Expr E.1 true ts1 c → Statement o E ts2 b E' →
      Statement o E (TOK_WHILE :: TOK_CHAR "(" :: ts1 ++ TOK_CHAR ")" :: ts2) (WhileAst c b) E'
  | G_return E ts e : Expr E.1 true ts e → Statement false E (TOK_RETURN :: ts ++ [TOK_CHAR ";"]) (ReturnAst e) E
  | G_assignment E ts a : Assign E.1 ts a → Statement false E (ts ++ [TOK_CHAR ";"]) a E
  | G_vardecl E E' ts d : Vardecl E ts d E' → Statement false E (ts ++ [TOK_CHAR ";"]) d E'
  | G_block E E' ts b :
      Stmtseq (∅ :: E.1, E.2) ts b E' →
      Statement false E (TOK_CHAR "{" :: ts ++ [TOK_CHAR "}"]) b (drop 1 E'.1, E'.2)
  | G_empty_block E : Statement false E [TOK_CHAR "{"; TOK_CHAR "}"] NullAst E
  | G_empty E : Statement false E [TOK_CHAR ";"] NullAst E
with Stmtseq : Env → list token → AstNode → Env → Prop :=
  | G_last o E E' ts s : Statement o E ts s E' → Stmtseq E ts s E'
  | G_cons o E E' E'' ts1 ts2 s rest :
      Statement o E ts1 s E' → Stmtseq E' ts2 rest E'' → Stmtseq E (ts1 ++ ts2) (SequenceAst s rest) E''.

Scheme Statement_min := Minimality for Statement Sort Prop
  with Stmtseq_min := Minimality for Stmtseq Sort Prop.
Combined Scheme stmt_mutind from Statement_min, Stmtseq_min.

(** [paramlist] and [parameters]: the symbols of the arguments. *)
Inductive Parameters : Env → list token → list Symbol → Env → Prop :=
  | G_param E x : Parameters E [TOK_FLOAT; TOK_IDENTIFIER x] [E.2] (bindName E x)
  | G_params E E' x ts syms :
      Parameters (bindName E x) ts syms E' →
      Parameters E (TOK_FLOAT :: TOK_IDENTIFIER x :: TOK_CHAR "," :: ts) (E.2 :: syms) E'.

(** [funcdecl]: the name, the symbols of the arguments and the body. *)
Inductive Funcdecl : list token → string → list Symbol → AstNode → Prop :=
  | G_funcdecl E E' ts1 ts2 name syms body :
      (ts1 = [] ∧ syms = [] ∧ E = ([∅], O)) ∨ Parameters ([∅], O) ts1 syms E → Stmtseq E ts2 body E' →
      Funcdecl (TOK_FLOAT :: TOK_IDENTIFIER name :: TOK_CHAR "(" :: ts1 ++ TOK_CHAR ")" :: TOK_CHAR "{" :: ts2 ++ [TOK_CHAR "}"])
        name syms body.

(** ** Names and operators *)
Lemma lookupSymbol_Declared (Scopes : list Scope) (x : string) (sym : Symbol) :
  lookupSymbol Scopes x = Some sym ↔ Declared Scopes x sym.
Proof.
  split.
  - induction Scopes as [| sc rest IH]; cbn [lookupSymbol]; [discriminate |].
    destruct (sc !! x) eqn:Hx; [intros [= <-]; apply D_here; exact Hx | intros HD; apply D_outside; [exact Hx | exact (IH HD)]].
  - induction 1 as [sc rest x sym Hx | sc rest x sym Hx _ IH]; cbn [lookupSymbol]; rewrite Hx; [reflexivity | exact IH].
Qed.

Lemma lookupSymbol_undeclared (Scopes : list Scope) (x : string) :
  lookupSymbol Scopes x = None ↔ ∀ sym, ¬ Declared Scopes x sym.
Proof.
  split.
  - intros Hx sym HD. apply lookupSymbol_Declared in HD. congruence.
  - intros Hno. destruct (lookupSymbol Scopes x) as [sym |] eqn:Hx; [| reflexivity]. destruct (Hno sym). apply lookupSymbol_Declared, Hx.
Qed.

Lemma mul_rule (o : binop) : precedence o = Some 2%nat → MulRule (binop_token o) (mkBinary o).
Proof. destruct o; intros Hp; first [discriminate Hp | constructor]. Qed.

Lemma add_rule (o : binop) : precedence o = Some 1%nat → AddRule (binop_token o) (mkBinary o).
Proof. destruct o; intros Hp; first [discriminate Hp | constructor]. Qed.

Lemma cmp_rule (o : binop) : precedence o = None → CmpRule (binop_token o) (mkBinary o).
Proof. destruct o; intros Hp; first [discriminate Hp | constructor]. Qed.

Lemma mul_rule_inv (t : token) (f : AstNode → AstNode → AstNode) :
  MulRule t f → ∃ o, t = binop_token o ∧ f = mkBinary o ∧ precedence o = Some 2%nat.
Proof. destruct 1; [exists OpMul | exists OpDiv]; auto. Qed.

Lemma add_rule_inv (t : token) (f : AstNode → AstNode → AstNode) :
  AddRule t f → ∃ o, t = binop_token o ∧ f = mkBinary o ∧ precedence o = Some 1%nat.
Proof. destruct 1; [exists OpAdd | exists OpSub]; auto. Qed.

Lemma cmp_rule_inv (t : token) (f : AstNode → AstNode → AstNode) :
  CmpRule t f → ∃ o, t = binop_token o ∧ f = mkBinary o ∧ precedence o = None.
Proof. destruct 1; [exists OpGT | exists OpLT | exists OpEQ | exists OpNE]; auto. Qed.

Lemma precedence_cases (o : binop) : precedence o = None ∨ precedence o = Some 1%nat ∨ precedence o = Some 2%nat.
Proof. destruct o; auto. Qed.

(** ** Weakest preconditions of parsers *)

(** The parser returns, and if it accepts the result satisfies [Q]. *)
Definition wp {A : Type} (m : ParserM A) (Q : A → PState → Prop) (s : PState) : Prop :=
  ∃ r, m s = Ret r ∧ match r with inl _ => True | inr (a, s') => Q a s' end.

Lemma wp_ret {A : Type} (a : A) (Q : A → PState → Prop) (s : PState) : Q a s → wp (mret a) Q s.
Proof. intros HQ. exists (inr (a, s)). auto. Qed.

Lemma wp_bind {A B : Type} (m : ParserM A) (k : A → ParserM B) (Q : B → PState → Prop) (s : PState) :
  wp m (λ a, wp (k a) Q) s → wp (m ≫= k) Q s.
Proof.
  intros (r & Hm & Hr). unfold wp. change ((m ≫= k) s) with (m s ≫= λ r, match r with inl e => Ret (inl e) | inr (a, s') => k a s' end).
  rewrite Hm, outcome_bind_ret.
  destruct r as [e | [a s']]; [exists (inl e); auto | exact Hr].
Qed.

Lemma wp_mono {A : Type} (m : ParserM A) (Q Q' : A → PState → Prop) (s : PState) :
  wp m Q s → (∀ a s', Q a s' → Q' a s') → wp m Q' s.
Proof. intros (r & Hm & Hr) HQ. exists r. split; [exact Hm |]. destruct r as [| [a s']]; auto. Qed.

Lemma wp_error {A : Type} (msg : string) (Q : A → PState → Prop) (s : PState) : wp (yyerror msg) Q s.
Proof. exists (inl msg). split; [reflexivity | exact I]. Qed.

(** The state with other tokens. *)
Definition at_tokens (s : PState) (ts : list token) : PState := mkPState ts (ScopeStack s) (Made s) (ArgumentSyms s).

Lemma wp_peek (Q : option token → PState → Prop) (s : PState) : Q (head (Tokens s)) s → wp peek Q s.
Proof. intros HQ. eexists. split; [reflexivity | exact HQ]. Qed.

Lemma wp_shift (t : token) (ts : list token) (Q : unit → PState → Prop) (s : PState) :
  Tokens s = t :: ts → Q tt (at_tokens s ts) → wp shift Q s.
Proof. intros Hs HQ. eexists. split; [reflexivity |]. rewrite Hs. exact HQ. Qed.

Lemma wp_expect (t : token) (Q : unit → PState → Prop) (s : PState) :
  (∀ ts, Tokens s = t :: ts → Q tt (at_tokens s ts)) → wp (expect t) Q s.
Proof.
  intros HQ. apply wp_bind, wp_peek. destruct (decide _) as [E |]; [| apply wp_error].
  destruct (Tokens s) as [| t' ts] eqn:Hs; [discriminate E |]. injection E as ->. apply (wp_shift t ts _ s Hs), HQ. reflexivity.
Qed.

Lemma wp_identifier (Q : string → PState → Prop) (s : PState) :
  (∀ x ts, Tokens s = TOK_IDENTIFIER x :: ts → Q x (at_tokens s ts)) → wp identifier Q s.
Proof.
  intros HQ. apply wp_bind, wp_peek. destruct (Tokens s) as [| [] ts] eqn:Hs; try apply wp_error.
  eapply wp_bind, wp_shift; [exact Hs |]. apply wp_ret, HQ. reflexivity.
Qed.

Lemma wp_variable (x : string) (Q : AstNode → PState → Prop) (s : PState) :
  (∀ sym, Declared (ScopeStack s) x sym → Q (VariableAst sym) s) → wp (variable x) Q s.
Proof.
  intros HQ. apply wp_bind. eexists. split; [reflexivity |]. cbn beta.
  destruct (lookupSymbol _ x) as [sym |] eqn:Hx; [| apply wp_error]. apply wp_ret, HQ, lookupSymbol_Declared, Hx.
Qed.

(** A character no case of a match names is an error. *)
Ltac other_char c := destruct c as [[] [] [] [] [] [] [] []]; first [apply wp_error | congruence].

(** ** Expressions *)

(** What is left of an operand: the left operands on the stack with their tokens,
    behind a comparison or at the start, behind a sum as well, or behind a product. *)
Inductive AfterCmp (Scopes : list Scope) : list (AstNode * binop) → list token → Prop :=
  | after_start : AfterCmp Scopes [] []
  | after_cmp l o st ts tl :
      precedence o = None → AfterAny Scopes st ts → Operand Scopes tl l → AfterCmp Scopes ((l, o) :: st) (ts ++ tl ++ [binop_token o])
with AfterSum (Scopes : list Scope) : list (AstNode * binop) → list token → Prop :=
  | sum_cmp st ts : AfterCmp Scopes st ts → AfterSum Scopes st ts
  | after_sum l o st ts tl :
      precedence o = Some 1%nat → AfterCmp Scopes st ts → Expr Scopes false tl l → AfterSum Scopes ((l, o) :: st) (ts ++ tl ++ [binop_token o])
with AfterAny (Scopes : list Scope) : list (AstNode * binop) → list token → Prop :=
  | any_sum st ts : AfterSum Scopes st ts → AfterAny Scopes st ts
  | after_product l o st ts tl :
      precedence o = Some 2%nat → AfterSum Scopes st ts → Product Scopes false tl l → AfterAny Scopes ((l, o) :: st) (ts ++ tl ++ [binop_token o]).

Scheme AfterCmp_min := Minimality for AfterCmp Sort Prop
  with AfterSum_min := Minimality for AfterSum Sort Prop
  with AfterAny_min := Minimality for AfterAny Sort Prop.
Combined Scheme after_mutind from AfterCmp_min, AfterSum_min, AfterAny_min.

(** At the end everything is reduced. *)
Lemma reduce_end (Scopes : list Scope) :
  (∀ st ts, AfterCmp Scopes st ts → ∀ te e, Expr Scopes true te e → ∃ e', reduce None st e = ([], e') ∧ Expr Scopes true (ts ++ te) e') ∧
  (∀ st ts, AfterSum Scopes st ts → ∀ te e, Product Scopes true te e → ∃ e', reduce None st e = ([], e') ∧ Expr Scopes true (ts ++ te) e') ∧
  (∀ st ts, AfterAny Scopes st ts → ∀ te e, Term Scopes true te e → ∃ e', reduce None st e = ([], e') ∧ Expr Scopes true (ts ++ te) e').
Proof.
  apply after_mutind; intros; cbn [reduce]; rewrite <- ?app_assoc; cbn [app]; eauto.
  - match goal with IH : ∀ te e, Term _ _ _ _ → _ |- _ => apply IH end. apply (G_compare _ (binop_token o) (mkBinary o)); auto using cmp_rule.
  - match goal with IH : ∀ te e, Expr _ _ _ _ → _ |- _ => apply IH end. apply G_product. assumption.
  - match goal with IH : ∀ te e, Expr _ _ _ _ → _ |- _ => apply IH end. apply (G_add _ _ (binop_token o) (mkBinary o)); auto using add_rule.
  - match goal with IH : ∀ te e, Product _ _ _ _ → _ |- _ => apply IH end. apply G_term. assumption.
  - match goal with IH : ∀ te e, Product _ _ _ _ → _ |- _ => apply IH end. apply (G_mul _ _ (binop_token o) (mkBinary o)); auto using mul_rule.
Qed.

Lemma reduce_cmp (o : binop) (st : list (AstNode * binop)) (e : AstNode) : precedence o = None → reduce (Some o) st e = (st, e).
Proof. intros Ho. destruct st as [| [l q] st]; [reflexivity |]. cbn [reduce]. unfold reduces. rewrite Ho. destruct (precedence q); reflexivity. Qed.

Lemma reduce_after_cmp (Scopes : list Scope) (o : binop) (st : list (AstNode * binop)) (ts : list token) (e : AstNode) :
  AfterCmp Scopes st ts → reduce (Some o) st e = (st, e).
Proof. intros HA. destruct HA as [| l q st ts tl Hq _ _]; [reflexivity |]. cbn [reduce]. unfold reduces. rewrite Hq. reflexivity. Qed.

Lemma reduce_after_sum (Scopes : list Scope) (o : binop) (st : list (AstNode * binop)) (ts : list token) (e : AstNode) :
  precedence o = Some 2%nat → AfterSum Scopes st ts → reduce (Some o) st e = (st, e).
Proof.
  intros Ho HS. destruct HS as [st ts HA | l q st ts tl Hq _ _]; [exact (reduce_after_cmp _ _ _ _ _ HA) |].
  cbn [reduce]. unfold reduces. rewrite Ho, Hq. reflexivity.
Qed.

(** An operator behind an operand. *)
Lemma reduce_push (Scopes : list Scope) (o : binop) (st : list (AstNode * binop)) (ts te : list token) (e : AstNode) :
  AfterAny Scopes st ts → Operand Scopes te e →
  ∃ st' l ts', reduce (Some o) st e = (st', l) ∧ AfterAny Scopes ((l, o) :: st') ts' ∧ ts' = (ts ++ te) ++ [binop_token o].
Proof.
  intros HA He. destruct (precedence_cases o) as [Ho | [Ho | Ho]].
  - rewrite reduce_cmp by exact Ho. do 3 eexists. split; [reflexivity |].
    split; [apply any_sum, sum_cmp, (after_cmp _ _ _ _ _ _ Ho HA He) | apply app_assoc].
  - assert (HP : ∃ st1 ts1 te1 e1, reduce (Some o) st e = reduce (Some o) st1 e1 ∧ AfterSum Scopes st1 ts1 ∧ Product Scopes false te1 e1 ∧ ts1 ++ te1 = ts ++ te).
    { destruct HA as [st ts HA | l q st ts tl Hq HA Hl]; [exists st, ts, te, e; split; [reflexivity |]; split; [exact HA |]; split; [apply G_term, G_operand, He | reflexivity] |].
      exists st, ts, (tl ++ binop_token q :: te), (mkBinary q l e). split; [cbn [reduce]; unfold reduces; rewrite Ho, Hq; reflexivity |].
      split; [exact HA |]. split; [apply (G_mul _ _ (binop_token q) (mkBinary q)); auto using mul_rule, G_operand |].
      rewrite <- !app_assoc. reflexivity. }
    destruct HP as (st1 & ts1 & te1 & e1 & -> & HS & Hp & <-). clear HA He st ts te e.
    destruct HS as [st ts HA | l q st ts tl Hq HA Hl].
    + rewrite (reduce_after_cmp _ _ _ _ _ HA). do 3 eexists. split; [reflexivity |].
      split; [eapply any_sum, after_sum; [exact Ho | exact HA | apply G_product, Hp] | apply app_assoc].
    + exists st, (mkBinary q l e1), (ts ++ (tl ++ binop_token q :: te1) ++ [binop_token o]).
      split; [cbn [reduce]; unfold reduces; rewrite Ho, Hq; exact (reduce_after_cmp _ _ _ _ _ HA) |].
      split; [eapply any_sum, after_sum; [exact Ho | exact HA | apply (G_add _ _ (binop_token q) (mkBinary q)); auto using add_rule] |].
      rewrite <- !app_assoc. reflexivity.
  - destruct HA as [st ts HA | l q st ts tl Hq HA Hl].
    + rewrite (reduce_after_sum _ _ _ _ _ Ho HA). do 3 eexists. split; [reflexivity |].
      split; [eapply after_product; [exact Ho | exact HA | apply G_term, G_operand, He] | apply app_assoc].
    + exists st, (mkBinary q l e), (ts ++ (tl ++ binop_token q :: te) ++ [binop_token o]).
      split; [cbn [reduce]; unfold reduces; rewrite Ho, Hq; exact (reduce_after_sum _ _ _ _ _ Ho HA) |].
      split; [eapply after_product; [exact Ho | exact HA | apply (G_mul _ _ (binop_token q) (mkBinary q)); auto using mul_rule, G_operand] |].
      rewrite <- !app_assoc. reflexivity.
Qed.

Lemma binop_of_token (t : token) (o : binop) : binop_of t = Some o → t = binop_token o.
Proof. intros Ho. apply List.find_some in Ho as [_ Ho]. apply bool_decide_eq_true in Ho. exact Ho. Qed.

(** What the parser of a rule of expressions does. *)
Definition rule_post (R : list Scope → list token → AstNode → Prop) (s : PState) (e : AstNode) (s' : PState) : Prop :=
  ∃ ts, Tokens s = ts ++ Tokens s' ∧ ts ≠ [] ∧ R (ScopeStack s) ts e ∧ s' = at_tokens s (Tokens s').

Abbreviation operand_post := (rule_post Operand).
Abbreviation expr_post := (rule_post (λ Scopes, Expr Scopes true)).

Lemma rule_post_length (R : list Scope → list token → AstNode → Prop) (s : PState) (e : AstNode) (s' : PState) :
  rule_post R s e s' → (length (Tokens s') < length (Tokens s))%nat.
Proof. intros (ts & -> & Hne & _). rewrite length_app. destruct ts; [congruence | cbn; lia]. Qed.

Lemma wp_operand (n : nat) (pexpr : ParserM AstNode) (s : PState) :
  (∀ s, (length (Tokens s) < n)%nat → wp pexpr (expr_post s) s) → (length (Tokens s) < S n)%nat →
  wp (parse_operand pexpr) (operand_post s) s.
Proof.
  intros Hp Hn. apply wp_bind, wp_peek. destruct (Tokens s) as [| t ts] eqn:Hs; [apply wp_error |]. cbn [head].
  assert (Hone : ∀ e s', Operand (ScopeStack s) [t] e → s' = at_tokens s ts → operand_post s e s').
  { intros e s' He ->. exists [t]. cbn. rewrite Hs. repeat split; [discriminate | exact He]. }
  destruct t; try apply wp_error.
  - eapply wp_bind, wp_shift; [exact Hs |]. apply wp_variable. intros sym Hx. apply Hone; [constructor; exact Hx | reflexivity].
  - eapply wp_bind, wp_shift; [exact Hs |]. apply wp_ret. apply Hone; [constructor | reflexivity].
  - destruct (decide (c = "("%char)) as [-> | Hc].
    + eapply wp_bind, wp_shift; [exact Hs |]. apply wp_bind. eapply wp_mono; [apply Hp; cbn in *; lia |].
      intros e s1 (te & Hte & _ & He & ->). cbn in Hte, He. apply wp_bind, wp_expect. intros ts2 Hts2. apply wp_ret.
      exists (TOK_CHAR "(" :: te ++ [TOK_CHAR ")"]). rewrite Hs, Hte. cbn in Hts2 |- *. rewrite Hts2, <- app_assoc.
      repeat split; [discriminate | constructor; exact He].
    + other_char c.
Qed.

Lemma wp_operators (n fuel : nat) (operand : ParserM AstNode) (s0 : PState) :
  (∀ s, (length (Tokens s) < n)%nat → wp operand (operand_post s) s) →
  ∀ st e ts te s, AfterAny (ScopeStack s0) st ts → Operand (ScopeStack s0) te e → te ≠ [] →
  Tokens s0 = (ts ++ te) ++ Tokens s → s = at_tokens s0 (Tokens s) → (length (Tokens s) < n)%nat → (length (Tokens s) < fuel)%nat →
  wp (parse_operators operand fuel st e) (expr_post s0) s.
Proof.
  intros Hop. induction fuel as [| fuel IH]; intros st e ts te s Hst He Hne Hts Hs Hn Hf; [lia |].
  cbn [parse_operators]. apply wp_bind, wp_peek.
  destruct (head (Tokens s) ≫= binop_of) as [o |] eqn:Ho.
  - destruct (Tokens s) as [| t rest] eqn:Ht; [discriminate Ho |]. apply binop_of_token in Ho as ->.
    eapply wp_bind, wp_shift; [exact Ht |].
    destruct (reduce_push _ o st ts te e Hst He) as (st' & l & ts' & Hr & Hst' & Hcat). rewrite Hr.
    apply wp_bind. eapply wp_mono; [apply Hop; cbn in *; lia |]. intros r s1 Hpost.
    pose proof (rule_post_length _ _ _ _ Hpost) as Hlen. destruct Hpost as (tr & Htr & Hrne & Hr1 & Hs1). cbn in Htr, Hr1, Hlen.
    rewrite Hs in Hr1. apply (IH _ _ ts' tr); try assumption.
    + rewrite Hts, Htr, Hcat, <- !app_assoc. reflexivity.
    + rewrite Hs1, Hs. reflexivity.
    + cbn in Hn. lia.
    + cbn in Hf. lia.
  - apply wp_ret. destruct (reduce_end (ScopeStack s0)) as (_ & _ & Hend).
    destruct (Hend st ts Hst te e (G_operand _ true te e He)) as (e' & Hr & He'). rewrite Hr. cbn [snd].
    exists (ts ++ te). split; [exact Hts |]. split; [| auto]. intros E. apply app_eq_nil in E. tauto.
Qed.

Lemma wp_expr (n : nat) (s : PState) : (length (Tokens s) < n)%nat → wp (parse_expr n) (expr_post s) s.
Proof.
  revert s. induction n as [| n IH]; intros s Hn; [lia |]. cbn [SpmdParser.parse_expr].
  assert (Hop : ∀ s, (length (Tokens s) < S n)%nat → wp (parse_operand (parse_expr n)) (operand_post s) s)
    by (intros s' Hs'; apply (wp_operand n); [exact IH | exact Hs']).
  apply wp_bind. eapply wp_mono; [apply Hop, Hn |]. intros e s1 Hpost. pose proof (rule_post_length _ _ _ _ Hpost) as Hlen.
  destruct Hpost as (te & Hte & Hne & He & Hs1).
  apply (wp_operators (S n) (S n) _ s Hop [] e [] te); try assumption; [apply any_sum, sum_cmp, after_start | lia | lia].
Qed.

(** ** Statements *)

Definition env (s : PState) : Env := (ScopeStack s, Made s).

(** What the parsers of parts of a statement do: [R] is a rule, which may look at what
    follows. *)
Definition stmt_post {A : Type} (R : list token → Env → list token → A → Env → Prop) (s : PState) (a : A) (s' : PState) : Prop :=
  ∃ ts, Tokens s = ts ++ Tokens s' ∧ ts ≠ [] ∧ R (Tokens s') (env s) ts a (env s') ∧
    length (ScopeStack s') = length (ScopeStack s) ∧ ArgumentSyms s' = ArgumentSyms s.

(** A statement takes the [else] that follows it if it can. *)
Definition greedy (rest : list token) (E : Env) (ts : list token) (a : AstNode) (E' : Env) : Prop :=
  ∃ o, Statement o E ts a E' ∧ (o = true → head rest ≠ Some TOK_ELSE).

Lemma stmt_post_length {A : Type} (R : list token → Env → list token → A → Env → Prop) (s s' : PState) (a : A) :
  stmt_post R s a s' → (length (Tokens s') < length (Tokens s))%nat.
Proof. intros (ts & -> & Hne & _). rewrite length_app. destruct ts; [congruence | cbn; lia]. Qed.

Lemma same_depth (s s' : PState) : length (ScopeStack s') = length (ScopeStack s) → ScopeStack s ≠ [] → ScopeStack s' ≠ [].
Proof. intros Hl Hne E. rewrite E in Hl. destruct (ScopeStack s); [congruence | discriminate Hl]. Qed.

(** [expr_then]: an expression, with what is left of the state. *)
Lemma wp_expr_then (n : nat) (s : PState) (Q : AstNode → PState → Prop) :
  (length (Tokens s) < n)%nat →
  (∀ e ts rest, Tokens s = ts ++ rest → Expr (ScopeStack s) true ts e → Q e (at_tokens s rest)) → wp (parse_expr n) Q s.
Proof.
  intros Hn HQ. eapply wp_mono; [apply wp_expr, Hn |]. intros e s' (ts & Hts & _ & He & Hs'). rewrite Hs'.
  apply (HQ e ts); assumption.
Qed.

Lemma wp_assign (n : nat) (s : PState) (Q : AstNode → PState → Prop) :
  (length (Tokens s) < n)%nat →
  (∀ a ts rest, Tokens s = ts ++ rest → Assign (ScopeStack s) ts a → Q a (at_tokens s rest)) → wp (parse_assignstmt n) Q s.
Proof.
  intros Hn HQ. apply wp_bind, wp_identifier. intros x ts Hx. apply wp_bind, wp_variable. intros sym Hsym. cbn in Hsym.
  apply wp_bind, wp_peek. destruct ts as [| t ts]; [apply wp_error |]. cbn [head Tokens at_tokens].
  assert (Hshort : ∀ a, Assign (ScopeStack s) [TOK_IDENTIFIER x; t] a → Q a (at_tokens s ts)).
  { intros a Ha. apply (HQ a [TOK_IDENTIFIER x; t]); [exact Hx | exact Ha]. }
  destruct t; try apply wp_error.
  - eapply wp_bind, wp_shift; [reflexivity |]. apply wp_ret, Hshort. constructor. exact Hsym.
  - eapply wp_bind, wp_shift; [reflexivity |]. apply wp_ret, Hshort. constructor. exact Hsym.
  - destruct (decide (c = "="%char)) as [-> | Hc].
    + eapply wp_bind, wp_shift; [reflexivity |]. apply wp_bind, wp_expr_then; [cbn; rewrite Hx in Hn; cbn in Hn; lia |].
      intros e te rest Hte He. cbn in Hte, He. apply wp_ret.
      apply (HQ _ (TOK_IDENTIFIER x :: TOK_CHAR "=" :: te)); [rewrite Hx, Hte; reflexivity | constructor; assumption].
    + other_char c.
Qed.

(** [declare] makes the symbol of a new name. *)
Lemma wp_declare (x : string) (s : PState) (Q : Symbol → PState → Prop) :
  ScopeStack s ≠ [] →
  (∀ s', (∀ sym, ¬ Declared (ScopeStack s) x sym) → env s' = bindName (env s) x → length (ScopeStack s') = length (ScopeStack s) → Tokens s' = Tokens s →
     ArgumentSyms s' = ArgumentSyms s → Q (Made s) s') → wp (declare x) Q s.
Proof.
  intros Hne HQ. apply wp_bind. eexists. split; [reflexivity |]. cbn beta.
  destruct (lookupSymbol _ x) as [sym |] eqn:Hx; [apply wp_error |]. unfold newSymbol.
  destruct (ScopeStack s) as [| sc rest] eqn:Hs; [congruence |]. eexists. rewrite Hs. split; [reflexivity |].
  apply HQ; try reflexivity; [rewrite <- Hs; apply lookupSymbol_undeclared; rewrite Hs; exact Hx |]. unfold env, bindName. cbn. rewrite Hs. reflexivity.
Qed.

Lemma wp_vardecl (n : nat) (s : PState) (Q : AstNode → PState → Prop) :
  (length (Tokens s) < n)%nat → ScopeStack s ≠ [] →
  (∀ d s', stmt_post (λ _, Vardecl) s d s' → Q d s') → wp (parse_vardecl n) Q s.
Proof.
  intros Hn Hne HQ. apply wp_bind, wp_expect. intros ts Hts. apply wp_bind, wp_identifier. intros x ts2 Hx. cbn in Hx.
  apply wp_bind, wp_peek. cbn [head Tokens at_tokens]. destruct (decide _) as [Heq | _].
  - destruct ts2 as [| t ts2]; [discriminate Heq |]. injection Heq as ->. eapply wp_bind, wp_shift; [reflexivity |].
    apply wp_bind, wp_expr_then; [cbn; rewrite Hts, Hx in Hn; cbn in Hn; lia |].
    intros e te rest Hte He. cbn in Hte, He. apply wp_bind, wp_declare; [exact Hne |].
    intros s' Hnew Henv Hne' Htok Harg. apply wp_ret, HQ.
    exists (TOK_FLOAT :: TOK_IDENTIFIER x :: TOK_CHAR "=" :: te). cbn in Htok, Harg. rewrite Htok, Henv, Hts, Hx, Hte.
    repeat split; try assumption; [discriminate | apply (G_decl_init (env s) x te e); assumption].
  - apply wp_bind, wp_declare; [exact Hne |]. intros s' Hnew Henv Hne' Htok Harg. apply wp_ret, HQ.
    exists [TOK_FLOAT; TOK_IDENTIFIER x]. cbn in Htok, Harg. rewrite Htok, Henv, Hts, Hx.
    repeat split; try assumption; [discriminate | constructor; exact Hnew].
Qed.

Lemma wp_stmtseq (n fuel : nat) (statement : ParserM AstNode) (s : PState) :
  (∀ s, (length (Tokens s) < n)%nat → ScopeStack s ≠ [] → wp statement (stmt_post greedy s) s) →
  (length (Tokens s) < n)%nat → (length (Tokens s) < fuel)%nat → ScopeStack s ≠ [] →
  wp (parse_stmtseq statement fuel) (stmt_post (λ _, Stmtseq) s) s.
Proof.
  intros Hst. revert s. induction fuel as [| fuel IH]; intros s Hn Hf Hne; [lia |]. cbn [parse_stmtseq].
  apply wp_bind. eapply wp_mono; [apply Hst; assumption |]. intros a s1 Hpost. pose proof (stmt_post_length _ _ _ _ Hpost) as Hlen.
  destruct Hpost as (ts1 & Hts1 & Hne1 & (o & Ha & _) & Hsc1 & Harg1). apply wp_bind, wp_peek.
  destruct (starts_statement _).
  - apply wp_bind. eapply wp_mono; [apply IH; [lia | lia | exact (same_depth _ _ Hsc1 Hne)] |].
    intros b s2 (ts2 & Hts2 & _ & Hb & Hsc2 & Harg2). apply wp_ret. exists (ts1 ++ ts2).
    split; [rewrite Hts1, Hts2, app_assoc; reflexivity |]. split; [destruct ts1; [congruence | discriminate] |].
    split; [econstructor; eassumption |]. split; congruence.
  - apply wp_ret. exists ts1. repeat split; try assumption. exact (G_last o _ _ _ _ Ha).
Qed.

(** The rules with one part. *)
Lemma wp_simple (n : nat) (s : PState) (m : ParserM AstNode) :
  (∀ Q : AstNode → PState → Prop,
    (∀ a s', stmt_post (λ _ E ts a E', Statement false E (ts ++ [TOK_CHAR ";"]) a E') s a s' → Q a s') → wp m Q s) →
  wp (a ← m; expect (TOK_CHAR ";");; mret a) (stmt_post greedy s) s.
Proof.
  intros Hm. apply wp_bind, Hm. intros a s' (ts & Hts & Hne & Ha & Hsc & Harg). apply wp_bind, wp_expect. intros rest Hrest.
  apply wp_ret. exists (ts ++ [TOK_CHAR ";"]). cbn. rewrite Hts, Hrest, <- app_assoc.
  split; [reflexivity |]. split; [intros E; apply app_eq_nil in E as [_ E]; discriminate E |].
  split; [exists false; split; [exact Ha | discriminate] |]. split; assumption.
Qed.

(** ['(' expr ')'] behind a keyword. *)
Lemma wp_condition (n : nat) (s : PState) (Q : AstNode → PState → Prop) (k : AstNode → ParserM AstNode) :
  (length (Tokens s) < n)%nat →
  (∀ c ts rest, Tokens s = TOK_CHAR "(" :: ts ++ TOK_CHAR ")" :: rest → Expr (ScopeStack s) true ts c →
     wp (k c) Q (at_tokens s rest)) →
  wp (expect (TOK_CHAR "(");; c ← parse_expr n; expect (TOK_CHAR ")");; k c) Q s.
Proof.
  intros Hn HQ. apply wp_bind, wp_expect. intros ts Hts. apply wp_bind, wp_expr_then; [rewrite Hts in Hn; cbn in *; lia |].
  intros c tc r1 Hr1 Hc. apply wp_bind, wp_expect. intros r2 Hr2. cbn in Hr1, Hr2, Hc. apply (HQ c tc); [| exact Hc].
  rewrite Hts, Hr1, Hr2. reflexivity.
Qed.

Section step.
Context (n : nat).
Hypothesis IH : ∀ s, (length (Tokens s) < n)%nat → ScopeStack s ≠ [] → wp (parse_statement n) (stmt_post greedy s) s.

Lemma wp_if (s : PState) (ts : list token) :
  Tokens s = TOK_IF :: ts → (length ts < n)%nat → ScopeStack s ≠ [] →
  wp (shift;; expect (TOK_CHAR "(");; c ← parse_expr (S n); expect (TOK_CHAR ")");;
      th ← parse_statement n; t ← peek;
      if decide (t = Some TOK_ELSE) then shift;; el ← parse_statement n; mret (IfAst c th el) else mret (IfAst c th NullAst))
    (stmt_post greedy s) s.
Proof.
  intros Hs Hn Hne. eapply wp_bind, wp_shift; [exact Hs |]. apply wp_condition; [cbn; lia |]. intros c tc rest Htc Hc. cbn in Htc, Hc.
  apply wp_bind. eapply wp_mono; [apply IH; [cbn; rewrite Htc in Hn; cbn in Hn; rewrite length_app in Hn; cbn in Hn; lia | exact Hne] |].
  intros th s1 Hpost. pose proof (stmt_post_length _ _ _ _ Hpost) as Hlen. destruct Hpost as (t1 & Ht1 & Hne1 & (o & Hth & Ho) & Hsc1 & Harg1).
  cbn in Ht1, Hth, Harg1, Hlen. apply wp_bind, wp_peek. destruct (decide _) as [He | Helse].
  - destruct (Tokens s1) as [| t' ts1] eqn:Hs1; [discriminate He |]. injection He as ->.
    eapply wp_bind, wp_shift; [exact Hs1 |]. apply wp_bind. eapply wp_mono; [apply IH; [| exact (same_depth s s1 Hsc1 Hne)] |].
    { rewrite Htc, Ht1 in Hn. cbn in *. rewrite !length_app in Hn. cbn in Hn. rewrite length_app in Hn. cbn in Hn. lia. }
    intros el s2 (t2 & Ht2 & Hne2 & (o2 & Hel & Ho2) & Hsc2 & Harg2). cbn in Ht2, Hel, Harg2. apply wp_ret.
    destruct o; [destruct (Ho eq_refl eq_refl) |].
    exists (TOK_IF :: TOK_CHAR "(" :: tc ++ TOK_CHAR ")" :: t1 ++ TOK_ELSE :: t2).
    split; [rewrite Hs, Htc, Ht1, Ht2; cbn; rewrite <- !app_assoc; cbn; rewrite <- app_assoc; reflexivity |].
    split; [discriminate |]. split; [exists o2; split; [exact (G_if_else o2 (env s) (env s1) (env s2) tc t1 t2 c th el Hc Hth Hel) | exact Ho2] |].
    split; [exact (eq_trans Hsc2 Hsc1) | exact (eq_trans Harg2 Harg1)].
  - apply wp_ret. exists (TOK_IF :: TOK_CHAR "(" :: tc ++ TOK_CHAR ")" :: t1).
    split; [rewrite Hs, Htc, Ht1; cbn; rewrite <- !app_assoc; reflexivity |].
    split; [discriminate |]. split; [exists true; split; [exact (G_if o (env s) (env s1) tc t1 c th Hc Hth) | intros _; exact Helse] |]. split; [exact Hsc1 | exact Harg1].
Qed.

Lemma wp_while (s : PState) (ts : list token) :
  Tokens s = TOK_WHILE :: ts → (length ts < n)%nat → ScopeStack s ≠ [] →
  wp (shift;; expect (TOK_CHAR "(");; c ← parse_expr (S n); expect (TOK_CHAR ")");;
      b ← parse_statement n; mret (WhileAst c b)) (stmt_post greedy s) s.
Proof.
  intros Hs Hn Hne. eapply wp_bind, wp_shift; [exact Hs |]. apply wp_condition; [cbn; lia |]. intros c tc rest Htc Hc. cbn in Htc, Hc.
  apply wp_bind. eapply wp_mono; [apply IH; [cbn; rewrite Htc in Hn; cbn in Hn; rewrite length_app in Hn; cbn in Hn; lia | exact Hne] |].
  intros b s1 (t1 & Ht1 & Hne1 & (o & Hb & Ho) & Hsc1 & Harg1). cbn in Ht1, Hb, Harg1. apply wp_ret.
  exists (TOK_WHILE :: TOK_CHAR "(" :: tc ++ TOK_CHAR ")" :: t1).
  split; [rewrite Hs, Htc, Ht1; cbn; rewrite <- !app_assoc; reflexivity |].
  split; [discriminate |]. split; [exists o; split; [exact (G_while o (env s) (env s1) tc t1 c b Hc Hb) | exact Ho] |]. split; [exact Hsc1 | exact Harg1].
Qed.

Lemma wp_for (s : PState) (ts : list token) :
  Tokens s = TOK_FOR :: ts → (length ts < n)%nat → ScopeStack s ≠ [] →
  wp (shift;; expect (TOK_CHAR "(");; i ← parse_assignstmt (S n); expect (TOK_CHAR ";");;
      c ← parse_expr (S n); expect (TOK_CHAR ";");;
      inc ← parse_assignstmt (S n); expect (TOK_CHAR ")");;
      b ← parse_statement n; mret (ForAst i c inc b)) (stmt_post greedy s) s.
Proof.
  intros Hs Hn Hne. eapply wp_bind, wp_shift; [exact Hs |]. apply wp_bind, wp_expect. intros r0 Hr0. cbn in Hr0. subst ts. cbn in Hn.
  apply wp_bind, wp_assign; [cbn; lia |]. intros i t1 r1 Hr1 Hi. cbn in Hr1, Hi. subst r0. rewrite length_app in Hn.
  apply wp_bind, wp_expect. intros r2 Hr2. cbn in Hr2. subst r1. cbn in Hn.
  apply wp_bind, wp_expr_then; [cbn; lia |]. intros c t2 r3 Hr3 Hc. cbn in Hr3, Hc. subst r2. rewrite length_app in Hn.
  apply wp_bind, wp_expect. intros r4 Hr4. cbn in Hr4. subst r3. cbn in Hn.
  apply wp_bind, wp_assign; [cbn; lia |]. intros inc t3 r5 Hr5 Hinc. cbn in Hr5, Hinc. subst r4. rewrite length_app in Hn.
  apply wp_bind, wp_expect. intros r6 Hr6. cbn in Hr6. subst r5. cbn in Hn.
  apply wp_bind. eapply wp_mono; [apply IH; [cbn; lia | exact Hne] |].
  intros b s1 (t4 & Ht4 & Hne4 & (o & Hb & Ho) & Hsc1 & Harg1). cbn in Ht4, Hb, Harg1. apply wp_ret.
  exists (TOK_FOR :: TOK_CHAR "(" :: t1 ++ TOK_CHAR ";" :: t2 ++ TOK_CHAR ";" :: t3 ++ TOK_CHAR ")" :: t4).
  split; [rewrite Hs, Ht4; cbn; repeat (rewrite <- app_assoc; cbn); reflexivity |]. split; [discriminate |].
  split; [exists o; split; [exact (G_for o (env s) (env s1) t1 t2 t3 t4 i c inc b Hi Hc Hinc Hb) | exact Ho] |]. split; [exact Hsc1 | exact Harg1].
Qed.

Lemma wp_block (s : PState) (ts : list token) :
  Tokens s = TOK_CHAR "{" :: ts → (length ts < n)%nat → ScopeStack s ≠ [] →
  wp (shift;; t ← peek;
      if decide (t = Some (TOK_CHAR "}")) then shift;; mret NullAst
      else enter_scope;; b ← parse_stmtseq (parse_statement n) (S n); leave_scope;; expect (TOK_CHAR "}");; mret b)
    (stmt_post greedy s) s.
Proof.
  intros Hs Hn Hne. eapply wp_bind, wp_shift; [exact Hs |]. apply wp_bind, wp_peek. cbn [Tokens at_tokens]. destruct (decide _) as [He | _].
  - destruct ts as [| t ts]; [discriminate He |]. injection He as ->. eapply wp_bind, wp_shift; [reflexivity |]. apply wp_ret.
    exists [TOK_CHAR "{"; TOK_CHAR "}"]. cbn. rewrite Hs. split; [reflexivity |]. split; [discriminate |].
    split; [exists false; split; [constructor | discriminate] | split; reflexivity].
  - apply wp_bind. eexists. split; [reflexivity |]. cbn beta iota. apply wp_bind.
    eapply wp_mono; [apply (wp_stmtseq n); [exact IH | cbn; lia | cbn; lia | discriminate] |].
    intros b s1 (tb & Htb & Hneb & Hb & Hsc1 & Harg1). cbn in Htb, Hb, Harg1. apply wp_bind.
    cbn in Hsc1. destruct (ScopeStack s1) as [| sc rest] eqn:Hsc; [discriminate Hsc1 |]. unfold leave_scope.
    eexists. rewrite Hsc. split; [reflexivity |]. cbn beta iota. apply wp_bind, wp_expect. intros r Hr. cbn in Hr. apply wp_ret.
    exists (TOK_CHAR "{" :: tb ++ [TOK_CHAR "}"]). cbn. split; [rewrite Hs, Htb, Hr, <- app_assoc; reflexivity |].
    split; [discriminate |]. pose proof (G_block (env s) (env s1) tb b Hb) as HG. unfold env in HG |- *. cbn in HG |- *. rewrite Hsc in HG.
    split; [exists false; split; [exact HG | discriminate] |]. split; [| exact Harg1]. cbn in Hsc1. lia.
Qed.
End step.

Lemma wp_statement (n : nat) (s : PState) :
  (length (Tokens s) < n)%nat → ScopeStack s ≠ [] → wp (parse_statement n) (stmt_post greedy s) s.
Proof.
  revert s. induction n as [| n IH]; intros s Hn Hne; [lia |]. cbn [SpmdParser.parse_statement].
  apply wp_bind, wp_peek. destruct (Tokens s) as [| t ts] eqn:Hs; [apply wp_error |]. cbn [head].
  destruct t; try apply wp_error.
  - apply (wp_simple (S n)). intros Q HQ. apply wp_assign; [rewrite Hs; exact Hn |]. intros a ts' rest Hts Ha. apply HQ.
    exists ts'. cbn. split; [exact Hts |]. split; [intros ->; inversion Ha |]. split; [apply G_assignment; exact Ha | split; reflexivity].
  - apply (wp_if n IH s ts Hs); [cbn in Hn; lia | exact Hne].
  - apply (wp_for n IH s ts Hs); [cbn in Hn; lia | exact Hne].
  - apply (wp_while n IH s ts Hs); [cbn in Hn; lia | exact Hne].
  - apply (wp_simple (S n)). intros Q HQ. apply wp_vardecl; [rewrite Hs; exact Hn | exact Hne |].
    intros d s' (ts' & Hts & Hne' & Hd & Hsc & Harg). apply HQ. exists ts'. split; [exact Hts |]. split; [exact Hne' |].
    split; [apply G_vardecl; exact Hd | split; assumption].
  - eapply wp_bind, wp_shift; [exact Hs |]. apply wp_bind, wp_expr_then; [cbn in *; lia |]. intros e te rest Hte He. cbn in Hte, He.
    apply wp_bind, wp_expect. intros r Hr. cbn in Hr. apply wp_ret. exists (TOK_RETURN :: te ++ [TOK_CHAR ";"]). cbn.
    rewrite Hs, Hte, Hr, <- app_assoc. split; [reflexivity |]. split; [discriminate |].
    split; [exists false; split; [apply G_return; exact He | discriminate] | split; reflexivity].
  - destruct (decide (c = ";"%char)) as [-> | H1].
    + eapply wp_bind, wp_shift; [exact Hs |]. apply wp_ret. exists [TOK_CHAR ";"]. cbn. rewrite Hs. split; [reflexivity |]. split; [discriminate |].
      split; [exists false; split; [constructor | discriminate] | split; reflexivity].
    + destruct (decide (c = "{"%char)) as [-> | H2]; [| other_char c].
      apply (wp_block n IH s ts Hs); [cbn in Hn; lia | exact Hne].
Qed.

(** ** Functions *)
Lemma wp_paramlist (n : nat) (s : PState) (Q : unit → PState → Prop) :
  (length (Tokens s) < n)%nat → ScopeStack s ≠ [] →
  (∀ s' ts syms, Tokens s = ts ++ Tokens s' → Parameters (env s) ts syms (env s') → ScopeStack s' ≠ [] →
     ArgumentSyms s' = ArgumentSyms s ++ syms → Q tt s') → wp (parse_paramlist n) Q s.
Proof.
  revert s Q. induction n as [| n IH]; intros s Q Hn Hne HQ; [lia |]. cbn [parse_paramlist].
  apply wp_bind, wp_bind, wp_expect. intros ts Hts. apply wp_bind, wp_identifier. intros x ts2 Hx. cbn in Hx. subst ts.
  apply wp_bind. unfold newSymbol, addArgument. destruct (ScopeStack s) as [| sc rest] eqn:Hsc; [congruence |].
  eexists. cbn [ScopeStack at_tokens]. rewrite Hsc. split; [reflexivity |]. cbn beta iota. eexists. split; [reflexivity |]. cbn beta iota.
  assert (Henv : bindName (env s) x = (<[x := Made s]> sc :: rest, S (Made s))) by (unfold bindName, env; cbn; rewrite Hsc; reflexivity).
  apply wp_bind, wp_peek. destruct (decide _) as [He | _]; cbn [Tokens at_tokens] in *.
  - destruct ts2 as [| t ts2]; [discriminate He |]. injection He as ->. eapply wp_bind, wp_shift; [reflexivity |]. cbn.
    apply IH; [rewrite Hts in Hn; cbn in *; lia | discriminate |]. intros s' ts' syms Ht Hp Hne' Harg. cbn in Ht, Harg.
    apply (HQ s' (TOK_FLOAT :: TOK_IDENTIFIER x :: TOK_CHAR "," :: ts') (Made s :: syms)); [rewrite Hts, Ht; reflexivity | | exact Hne' |].
    + apply (G_params (env s)). rewrite Henv. exact Hp.
    + rewrite Harg, <- app_assoc. reflexivity.
  - apply wp_ret, (HQ _ [TOK_FLOAT; TOK_IDENTIFIER x] [Made s]); cbn; [exact Hts | | discriminate | reflexivity].
    rewrite <- Hsc in *. pose proof (G_param (env s) x) as HG. rewrite Henv in HG. exact HG.
Qed.

Lemma wp_funcdecl (ts : list token) (n : nat) :
  (length ts < n)%nat →
  wp (parse_funcdecl n) (λ r s, ∃ ts1, ts = ts1 ++ Tokens s ∧ Funcdecl ts1 r.1 (ArgumentSyms s) r.2) (mkPState ts [] 0 []).
Proof.
  intros Hn. apply wp_bind, wp_expect. intros r0 Hr0. cbn in Hr0. subst ts. cbn in Hn.
  apply wp_bind, wp_identifier. intros name r1 Hr1. cbn in Hr1. subst r0. cbn in Hn.
  apply wp_bind. eexists. split; [reflexivity |]. cbn beta iota. apply wp_bind, wp_expect. intros r2 Hr2. cbn in Hr2. subst r1. cbn in Hn.
  apply wp_bind. apply wp_mono with (Q := λ _ s', ∃ t1 syms E, r2 = t1 ++ Tokens s' ∧ E = env s' ∧ ScopeStack s' ≠ [] ∧
    ArgumentSyms s' = syms ∧ ((t1 = [] ∧ syms = [] ∧ E = ([∅], O)) ∨ Parameters ([∅], O) t1 syms E)).
  { apply wp_bind, wp_peek. destruct (decide _).
    - apply wp_paramlist; [cbn; lia | discriminate |]. intros s' t1 syms Ht1 Hp Hne Harg. cbn in Ht1, Harg.
      exists t1, syms, (env s'). repeat split; try assumption. right. exact Hp.
    - apply wp_ret. exists [], [], ([∅], O). repeat split; [discriminate |]. left. auto. }
  intros _ s1 (t1 & syms & E & Ht1 & -> & Hne1 & Harg1 & HP). subst r2. rewrite length_app in Hn.
  apply wp_bind, wp_expect. intros r3 Hr3. cbn in Hr3. apply wp_bind, wp_expect. intros r4 Hr4. cbn in Hr4. subst r3.
  rewrite Hr3 in Hn. cbn in Hn.
  apply wp_bind. eapply wp_mono; [apply (wp_stmtseq n); [apply wp_statement | cbn; lia | cbn; lia | exact Hne1] |].
  intros body s2 (t2 & Ht2 & _ & Hb & Hd2 & Harg2). cbn in Ht2, Hb, Hd2, Harg2. subst r4.
  apply wp_bind. unfold leave_scope. destruct (ScopeStack s2) as [| sc rest] eqn:Hsc2.
  { exfalso. destruct (ScopeStack s1); [congruence | discriminate Hd2]. }
  eexists. rewrite Hsc2. split; [reflexivity |]. cbn beta iota. apply wp_bind, wp_expect. intros r5 Hr5. cbn in Hr5. apply wp_ret. cbn.
  eexists. split; [| rewrite Harg2, Harg1; apply (G_funcdecl (env s1) (env s2) t1 t2 name syms body HP Hb)].
  rewrite Hr3, Hr5. cbn. repeat (rewrite <- app_assoc; cbn). reflexivity.
Qed.

(** The arguments are the first symbols, in order. *)
Lemma Parameters_symbols (E E' : Env) (ts : list token) (syms : list Symbol) :
  Parameters E ts syms E' → E.1 ≠ [] → syms = seq E.2 (length syms).
Proof.
  assert (Hbind : ∀ E x, E.1 ≠ [] → (bindName E x).1 ≠ [] ∧ (bindName E x).2 = S E.2).
  { intros [[| sc rest] k] x Hne; [destruct (Hne eq_refl) |]. split; [discriminate | reflexivity]. }
  induction 1 as [E x | E E' x ts syms _ IH]; intros Hne; [reflexivity |].
  destruct (Hbind E x Hne) as [H1 H2]. cbn [length seq]. f_equal. rewrite <- H2. apply IH, H1.
Qed.

Lemma Funcdecl_symbols (ts : list token) (name : string) (syms : list Symbol) (body : AstNode) :
  Funcdecl ts name syms body → syms = seq 0 (length syms).
Proof.
  intros HF. inversion HF as [E E' ts1 ts2 name' syms' body' HP _]; subst.
  destruct HP as [(_ & -> & _) | HP]; [reflexivity |]. exact (Parameters_symbols _ _ _ _ HP ltac:(discriminate)).
Qed.

(** ** The parser accepts what the rules derive *)

(** [lengths]: the arithmetic of fuel. *)
Ltac lengths := cbn [length app] in *; repeat (rewrite length_app in *; cbn [length] in *); lia.

Lemma run_bind {A B : Type} (m : ParserM A) (k : A → ParserM B) (s s1 : PState) (a : A) :
  m s = Ret (inr (a, s1)) → (m ≫= k) s = k a s1.
Proof. intros Hm. unfold mbind at 1, ParserM_bind. rewrite Hm. reflexivity. Qed.

Lemma run_peek {B : Type} (k : option token → ParserM B) (s : PState) : (peek ≫= k) s = k (head (Tokens s)) s.
Proof. reflexivity. Qed.

Lemma run_shift {B : Type} (k : unit → ParserM B) (t : token) (ts : list token) (sc : list Scope) (m : nat) (args : list Symbol) :
  (shift ≫= k) (mkPState (t :: ts) sc m args) = k tt (mkPState ts sc m args).
Proof. reflexivity. Qed.

Lemma run_expect {B : Type} (k : unit → ParserM B) (t : token) (ts : list token) (sc : list Scope) (m : nat) (args : list Symbol) :
  (expect t ≫= k) (mkPState (t :: ts) sc m args) = k tt (mkPState ts sc m args).
Proof. apply run_bind. unfold expect. rewrite run_peek. cbn [head Tokens]. rewrite decide_True by reflexivity. reflexivity. Qed.

Lemma run_identifier {B : Type} (k : string → ParserM B) (x : string) (ts : list token) (sc : list Scope) (m : nat) (args : list Symbol) :
  (identifier ≫= k) (mkPState (TOK_IDENTIFIER x :: ts) sc m args) = k x (mkPState ts sc m args).
Proof. reflexivity. Qed.

Lemma variable_declared (x : string) (sym : Symbol) (s : PState) :
  Declared (ScopeStack s) x sym → variable x s = Ret (inr (VariableAst sym, s)).
Proof.
  intros Hx. apply lookupSymbol_Declared in Hx. unfold variable, mbind, ParserM_bind, lookup_name. cbn. rewrite Hx. reflexivity.
Qed.

Lemma binop_of_binop_token (o : binop) : binop_of (binop_token o) = Some o.
Proof. destruct o; vm_compute; reflexivity. Qed.

(** What may follow an expression. *)
Definition ends_expr (ts : list token) : Prop := head ts ≫= binop_of = None.

Lemma operators_end (operand : ParserM AstNode) (n : nat) (st : list (AstNode * binop)) (e : AstNode) (ts : list token)
    (sc : list Scope) (m : nat) (args : list Symbol) :
  ends_expr ts →
  parse_operators operand (S n) st e (mkPState ts sc m args) = Ret (inr ((reduce None st e).2, mkPState ts sc m args)).
Proof. intros Hts. cbn [parse_operators]. rewrite run_peek. cbn [Tokens]. rewrite Hts. reflexivity. Qed.

Lemma operators_step (operand : ParserM AstNode) (n : nat) (st st' : list (AstNode * binop)) (e l : AstNode) (o : binop)
    (ts : list token) (sc : list Scope) (m : nat) (args : list Symbol) :
  reduce (Some o) st e = (st', l) →
  parse_operators operand (S n) st e (mkPState (binop_token o :: ts) sc m args) =
    (r ← operand; parse_operators operand n ((l, o) :: st') r) (mkPState ts sc m args).
Proof.
  intros Hr. cbn [parse_operators]. rewrite run_peek. cbn [Tokens head mbind option_bind]. rewrite binop_of_binop_token, run_shift, Hr.
  reflexivity.
Qed.

(** *** Expressions *)

(** An operand and the operators behind it. *)
Definition parse_operands (n fuel : nat) (st : list (AstNode * binop)) : ParserM AstNode :=
  r ← parse_operand (parse_expr n); parse_operators (parse_operand (parse_expr n)) fuel st r.

(** The operator on the left has no precedence, or less than [p]. *)
Definition above (p : nat) (st : list (AstNode * binop)) : Prop :=
  match st with (_, o) :: _ => ∀ q, precedence o = Some q → (q < p)%nat | [] => True end.

(** The operator on the right, if there is one, has a precedence of at most [p]. *)
Definition below (p : nat) (next : option binop) : Prop :=
  match next with Some o => ∃ q, precedence o = Some q ∧ (q ≤ p)%nat | None => True end.

Lemma reduce_stays (o : binop) (p : nat) (st : list (AstNode * binop)) (e : AstNode) :
  precedence o = Some p → above p st → reduce (Some o) st e = (st, e).
Proof.
  intros Ho Hst. destruct st as [| [l q] st]; [reflexivity |]. cbn [reduce]. cbn [above] in Hst. unfold reduces. rewrite Ho.
  destruct (precedence q) as [p' |]; [| reflexivity]. specialize (Hst p' eq_refl).
  rewrite (proj2 (Nat.leb_gt _ _)) by exact Hst. reflexivity.
Qed.

Lemma reduce_goes (next : option binop) (o : binop) (p : nat) (st : list (AstNode * binop)) (l e : AstNode) :
  precedence o = Some p → below p next → reduce next ((l, o) :: st) e = reduce next st (mkBinary o l e).
Proof.
  intros Ho Hn. cbn [reduce]. destruct next as [q |]; [| reflexivity]. destruct Hn as (p' & Hq & Hle).
  unfold reduces. rewrite Ho, Hq, (proj2 (Nat.leb_le _ _)) by exact Hle. reflexivity.
Qed.

(** What the parser makes of the tokens of an operand. *)
Definition operand_parsed (Scopes : list Scope) (ts : list token) (e : AstNode) : Prop :=
  ∀ n rest m args, (length (ts ++ rest) < S n)%nat →
    parse_operand (parse_expr n) (mkPState (ts ++ rest) Scopes m args) = Ret (inr (e, mkPState rest Scopes m args)).

(** And of those of a term, a product or an expression, of which it may not yet have
    reduced all: what is left reduces like the tree. *)
Definition operands_parsed (Scopes : list Scope) (p : nat) (last : bool) (ts : list token) (e : AstNode) : Prop :=
  ∀ n fuel st rest m args, above p st → (length (ts ++ rest) < S n)%nat → (length (ts ++ rest) ≤ fuel)%nat →
    if last then
      ends_expr rest →
      parse_operands n fuel st (mkPState (ts ++ rest) Scopes m args) = Ret (inr ((reduce None st e).2, mkPState rest Scopes m args))
    else
      ∃ st' e' fuel', (length rest ≤ fuel')%nat ∧
        parse_operands n fuel st (mkPState (ts ++ rest) Scopes m args) =
          parse_operators (parse_operand (parse_expr n)) fuel' st' e' (mkPState rest Scopes m args) ∧
        ∀ next, below p next → reduce next st' e' = reduce next st e.

(** A binary operator: what is on its left is parsed, then what is on its right. *)
Lemma operands_binary (Scopes : list Scope) (p r : nat) (last : bool) (o : binop) (ts1 ts2 : list token) (a b : AstNode) :
  precedence o = Some p → (p < r)%nat →
  operands_parsed Scopes p false ts1 a → operands_parsed Scopes r last ts2 b →
  operands_parsed Scopes p last (ts1 ++ binop_token o :: ts2) (mkBinary o a b).
Proof.
  intros Ho Hpr IH1 IH2 n fuel st rest m args Hst Hn Hf. rewrite <- app_assoc in *. cbn [app] in *.
  destruct (IH1 n fuel st (binop_token o :: ts2 ++ rest) m args Hst Hn Hf) as (st1 & e1 & f1 & Hf1 & Hrun & Hred).
  destruct f1 as [| f1]; [cbn in Hf1; lia |].
  assert (Hst2 : above r ((a, o) :: st)) by (intros q Hq; rewrite Ho in Hq; injection Hq as <-; exact Hpr).
  pose proof (IH2 n f1 ((a, o) :: st) rest m args Hst2 ltac:(lengths) ltac:(cbn in Hf1; lia)) as Hright.
  assert (Hs : reduce (Some o) st1 e1 = (st, a)).
  { rewrite (Hred (Some o)) by (exists p; split; [exact Ho | lia]). exact (reduce_stays o p st a Ho Hst). }
  rewrite Hrun, (operators_step _ _ _ _ _ _ _ _ _ _ _ Hs). destruct last.
  - intros Hends. specialize (Hright Hends). unfold parse_operands in Hright. rewrite Hright.
    rewrite (reduce_goes None o p st a b Ho I). reflexivity.
  - destruct Hright as (st' & e' & f' & Hf' & Hrun' & Hred'). exists st', e', f'. split; [exact Hf' |]. split; [exact Hrun' |].
    intros next Hnext. rewrite Hred'; [exact (reduce_goes next o p st a b Ho Hnext) |].
    destruct next as [q |]; [| exact I]. destruct Hnext as (p' & Hq & Hle). exists p'. split; [exact Hq | lia].
Qed.

Lemma operands_weaken (Scopes : list Scope) (p r : nat) (last : bool) (ts : list token) (e : AstNode) :
  (p ≤ r)%nat → operands_parsed Scopes r last ts e → operands_parsed Scopes p last ts e.
Proof.
  intros Hpr IH n fuel st rest m args Hst Hn Hf.
  assert (Hst' : above r st) by (destruct st as [| [l o] st]; [exact I | intros q Hq; specialize (Hst q Hq); lia]).
  specialize (IH n fuel st rest m args Hst' Hn Hf). destruct last; [exact IH |].
  destruct IH as (st' & e' & f' & Hf' & Hrun & Hred). exists st', e', f'. split; [exact Hf' |]. split; [exact Hrun |].
  intros next Hnext. apply Hred. destruct next as [q |]; [| exact I]. destruct Hnext as (p' & Hq & Hle). exists p'. split; [exact Hq | lia].
Qed.

Lemma Operand_nonempty (Scopes : list Scope) (ts : list token) (e : AstNode) : Operand Scopes ts e → (0 < length ts)%nat.
Proof. intros Ho. destruct Ho; cbn; lia. Qed.

Lemma operands_operand (Scopes : list Scope) (p : nat) (last : bool) (ts : list token) (e : AstNode) :
  Operand Scopes ts e → operand_parsed Scopes ts e → operands_parsed Scopes p last ts e.
Proof.
  intros Ho IH n fuel st rest m args Hst Hn Hf. apply Operand_nonempty in Ho. unfold parse_operands.
  rewrite (run_bind _ _ _ _ _ (IH n rest m args Hn)). destruct fuel as [| f]; [lengths |]. destruct last.
  - intros Hends. exact (operators_end _ f st e rest Scopes m args Hends).
  - exists st, e, (S f). split; [lengths |]. split; reflexivity.
Qed.

Lemma operands_compare (Scopes : list Scope) (p : nat) (o : binop) (ts1 ts2 : list token) (a b : AstNode) :
  precedence o = None → Operand Scopes ts1 a → operand_parsed Scopes ts1 a → operands_parsed Scopes 1 true ts2 b →
  operands_parsed Scopes p true (ts1 ++ binop_token o :: ts2) (mkBinary o a b).
Proof.
  intros Ho Ha IH1 IH2 n fuel st rest m args Hst Hn Hf Hends. apply Operand_nonempty in Ha. unfold parse_operands.
  rewrite <- app_assoc in *. cbn [app] in *. rewrite (run_bind _ _ _ _ _ (IH1 n (binop_token o :: ts2 ++ rest) m args Hn)).
  destruct fuel as [| f]; [lengths |]. rewrite (operators_step _ _ _ _ _ _ _ _ _ _ _ (reduce_cmp o st a Ho)).
  change (parse_operands n f ((a, o) :: st) (mkPState (ts2 ++ rest) Scopes m args) = Ret (inr ((reduce None st (mkBinary o a b)).2, mkPState rest Scopes m args))).
  rewrite IH2; [reflexivity | intros q Hq; congruence | lengths | lengths | exact Hends].
Qed.

Lemma expr_parsed (Scopes : list Scope) :
  (∀ ts e, Operand Scopes ts e → operand_parsed Scopes ts e) ∧
  (∀ last ts e, Term Scopes last ts e → operands_parsed Scopes 3 last ts e) ∧
  (∀ last ts e, Product Scopes last ts e → operands_parsed Scopes 2 last ts e) ∧
  (∀ last ts e, Expr Scopes last ts e → operands_parsed Scopes 1 last ts e).
Proof.
  apply expr_mutind.
  - intros v n rest m args _. reflexivity.
  - intros x sym Hx n rest m args _. unfold SpmdParser.parse_operand. rewrite run_peek. cbn [app head Tokens]. rewrite run_shift.
    exact (variable_declared x sym (mkPState rest Scopes m args) Hx).
  - intros ts e _ IH n rest m args Hn. unfold SpmdParser.parse_operand. rewrite run_peek. cbn [app head Tokens]. rewrite run_shift, <- app_assoc.
    destruct n as [| n]; [lengths |]. erewrite run_bind.
    + cbn [app]. rewrite run_expect. reflexivity.
    + apply (IH n (S n) [] ([TOK_CHAR ")"] ++ rest) m args I); [lengths | lengths | reflexivity].
  - intros last ts e Ho IH. exact (operands_operand Scopes 3 last ts e Ho IH).
  - intros t f ts1 ts2 a b Hf Ha IHa _ IHb. destruct (cmp_rule_inv t f Hf) as (o & -> & -> & Ho).
    exact (operands_compare Scopes 3 o ts1 ts2 a b Ho Ha IHa IHb).
  - intros last ts e _ IH. exact (operands_weaken Scopes 2 3 last ts e ltac:(lia) IH).
  - intros last t f ts1 ts2 a b Hf _ IH1 _ IH2. destruct (mul_rule_inv t f Hf) as (o & -> & -> & Ho).
    exact (operands_binary Scopes 2 3 last o ts1 ts2 a b Ho ltac:(lia) IH1 IH2).
  - intros last ts e _ IH. exact (operands_weaken Scopes 1 2 last ts e ltac:(lia) IH).
  - intros last t f ts1 ts2 a b Hf _ IH1 _ IH2. destruct (add_rule_inv t f Hf) as (o & -> & -> & Ho).
    exact (operands_binary Scopes 1 2 last o ts1 ts2 a b Ho ltac:(lia) IH1 IH2).
Qed.

Lemma expr_complete (Scopes : list Scope) (ts rest : list token) (e : AstNode) (n m : nat) (args : list Symbol) :
  Expr Scopes true ts e → ends_expr rest → (length (ts ++ rest) < n)%nat →
  parse_expr n (mkPState (ts ++ rest) Scopes m args) = Ret (inr (e, mkPState rest Scopes m args)).
Proof.
  intros He Hends Hn. destruct n as [| n]; [lia |].
  apply (proj2 (proj2 (proj2 (expr_parsed Scopes))) true ts e He n (S n) [] rest m args I Hn); [lia | exact Hends].
Qed.

(** *** Statements *)
Lemma assign_complete (Scopes : list Scope) (ts rest : list token) (a : AstNode) (n m : nat) (args : list Symbol) :
  Assign Scopes ts a → ends_expr rest → (length (ts ++ rest) < n)%nat →
  parse_assignstmt n (mkPState (ts ++ rest) Scopes m args) = Ret (inr (a, mkPState rest Scopes m args)).
Proof.
  intros Ha Hends Hn. unfold SpmdParser.parse_assignstmt. destruct Ha as [x sym ts e Hx He | x sym Hx | x sym Hx]; cbn [app];
    rewrite run_identifier; (rewrite (run_bind _ _ _ _ _ (variable_declared x sym (mkPState _ Scopes m args) Hx))); rewrite run_peek; cbn [Tokens head].
  - rewrite run_shift. rewrite (run_bind _ _ _ _ _ (expr_complete Scopes ts rest e n m args He Hends ltac:(cbn in Hn; lia))). reflexivity.
  - reflexivity.
  - reflexivity.
Qed.

Lemma declare_complete (x : string) (E : Env) (ts : list token) (args : list Symbol) :
  (∀ sym, ¬ Declared E.1 x sym) → E.1 ≠ [] →
  declare x (mkPState ts E.1 E.2 args) = Ret (inr (E.2, mkPState ts (bindName E x).1 (bindName E x).2 args)).
Proof.
  intros Hx Hne. apply lookupSymbol_undeclared in Hx. destruct E as [[| sc rest] k]; [destruct (Hne eq_refl) |].
  unfold declare, mbind, ParserM_bind, lookup_name. cbn [ScopeStack fst] in *. cbn [mbind outcome_bind]. rewrite Hx. reflexivity.
Qed.

Lemma vardecl_complete (E E' : Env) (ts rest : list token) (d : AstNode) (n : nat) (args : list Symbol) :
  Vardecl E ts d E' → E.1 ≠ [] → (length (ts ++ TOK_CHAR ";" :: rest) < n)%nat →
  parse_vardecl n (mkPState (ts ++ TOK_CHAR ";" :: rest) E.1 E.2 args) = Ret (inr (d, mkPState (TOK_CHAR ";" :: rest) E'.1 E'.2 args)).
Proof.
  intros Hd Hne Hn. unfold SpmdParser.parse_vardecl. destruct Hd as [E x Hx | E x ts e Hx He]; cbn [app];
    rewrite run_expect, run_identifier, run_peek; cbn [Tokens head].
  - rewrite decide_False by discriminate. rewrite (run_bind _ _ _ _ _ (declare_complete x E _ args Hx Hne)). reflexivity.
  - rewrite decide_True by reflexivity. rewrite run_shift.
    rewrite (run_bind _ _ _ _ _ (expr_complete E.1 ts (TOK_CHAR ";" :: rest) e n E.2 args He eq_refl ltac:(lengths))).
    rewrite (run_bind _ _ _ _ _ (declare_complete x E (TOK_CHAR ";" :: rest) args Hx Hne)). reflexivity.
Qed.

Lemma bindName_depth (E : Env) (x : string) : length (bindName E x).1 = length E.1.
Proof. destruct E as [[| sc rest] k]; reflexivity. Qed.

Lemma Statement_depth :
  (∀ o E ts a E', Statement o E ts a E' → length E'.1 = length E.1) ∧ (∀ E ts a E', Stmtseq E ts a E' → length E'.1 = length E.1).
Proof.
  apply stmt_mutind; intros; cbn [fst length] in *; try congruence.
  - match goal with Hd : Vardecl _ _ _ _ |- _ => destruct Hd; apply bindName_depth end.
  - rewrite length_drop. lia.
Qed.

Lemma Statement_ne (o : bool) (E E' : Env) (ts : list token) (a : AstNode) : Statement o E ts a E' → E.1 ≠ [] → E'.1 ≠ [].
Proof.
  intros Hs Hne He. apply (proj1 Statement_depth) in Hs. rewrite He in Hs. destruct E.1; [congruence | discriminate Hs].
Qed.

Lemma Statement_starts (o : bool) (E E' : Env) (ts rest : list token) (a : AstNode) :
  Statement o E ts a E' → starts_statement (head (ts ++ rest)) = true.
Proof.
  intros Hs. destruct Hs; try reflexivity.
  - match goal with Ha : Assign _ _ _ |- _ => destruct Ha; reflexivity end.
  - match goal with Hd : Vardecl _ _ _ _ |- _ => destruct Hd; reflexivity end.
Qed.

Lemma Stmtseq_starts (E E' : Env) (ts rest : list token) (a : AstNode) :
  Stmtseq E ts a E' → starts_statement (head (ts ++ rest)) = true.
Proof. intros Hs. destruct Hs; rewrite <- ?app_assoc; eapply Statement_starts; eassumption. Qed.

(** The parser builds the tree of a statement, if it is given the last [else] of it. *)
Definition statement_parsed (o : bool) (E : Env) (ts : list token) (a : AstNode) (E' : Env) : Prop :=
  ∀ n rest args, E.1 ≠ [] → (o = true → head rest ≠ Some TOK_ELSE) → (length (ts ++ rest) < n)%nat →
    parse_statement n (mkPState (ts ++ rest) E.1 E.2 args) = Ret (inr (a, mkPState rest E'.1 E'.2 args)).

Definition stmtseq_parsed (E : Env) (ts : list token) (a : AstNode) (E' : Env) : Prop :=
  ∀ n f rest args, E.1 ≠ [] → (length (ts ++ TOK_CHAR "}" :: rest) < n)%nat → (length (ts ++ TOK_CHAR "}" :: rest) < f)%nat →
    parse_stmtseq (parse_statement n) f (mkPState (ts ++ TOK_CHAR "}" :: rest) E.1 E.2 args) =
      Ret (inr (a, mkPState (TOK_CHAR "}" :: rest) E'.1 E'.2 args)).

(** [starting n]: the first token of a statement decides. *)
Ltac starting n :=
  destruct n as [| n]; [lia |]; cbn [SpmdParser.parse_statement]; rewrite run_peek; cbn [Tokens head app].

(** [parsed H]: a part of a statement is parsed. *)
Ltac parsed H := rewrite (run_bind _ _ _ _ _ H).

Lemma parsed_if (o : bool) (E E' : Env) (ts1 ts2 : list token) (c th : AstNode) :
  Expr E.1 true ts1 c → statement_parsed o E ts2 th E' →
  statement_parsed true E (TOK_IF :: TOK_CHAR "(" :: ts1 ++ TOK_CHAR ")" :: ts2) (IfAst c th NullAst) E'.
Proof.
  intros Hc IH n rest args Hne Ho Hn. cbn [app] in *. rewrite <- app_assoc in *. cbn [app] in *. starting n.
  rewrite run_shift, run_expect. parsed (expr_complete E.1 ts1 (TOK_CHAR ")" :: ts2 ++ rest) c (S n) E.2 args Hc eq_refl ltac:(lengths)).
  rewrite run_expect. parsed (IH n rest args Hne ltac:(intros _; exact (Ho eq_refl)) ltac:(lengths)).
  rewrite run_peek. cbn [Tokens]. rewrite decide_False by exact (Ho eq_refl). reflexivity.
Qed.

Lemma parsed_if_else (o : bool) (E E' E'' : Env) (ts1 ts2 ts3 : list token) (c th el : AstNode) :
  Expr E.1 true ts1 c → statement_parsed false E ts2 th E' → E'.1 ≠ [] → statement_parsed o E' ts3 el E'' →
  statement_parsed o E (TOK_IF :: TOK_CHAR "(" :: ts1 ++ TOK_CHAR ")" :: ts2 ++ TOK_ELSE :: ts3) (IfAst c th el) E''.
Proof.
  intros Hc IH1 Hne' IH2 n rest args Hne Ho Hn. cbn [app] in *. do 2 (rewrite <- app_assoc in *; cbn [app] in * ). starting n.
  rewrite run_shift, run_expect.
  parsed (expr_complete E.1 ts1 (TOK_CHAR ")" :: ts2 ++ TOK_ELSE :: ts3 ++ rest) c (S n) E.2 args Hc eq_refl ltac:(lengths)).
  rewrite run_expect. parsed (IH1 n (TOK_ELSE :: ts3 ++ rest) args Hne ltac:(discriminate) ltac:(lengths)).
  rewrite run_peek. cbn [Tokens head]. rewrite decide_True by reflexivity. rewrite run_shift.
  parsed (IH2 n rest args Hne' Ho ltac:(lengths)). reflexivity.
Qed.

Lemma parsed_for (o : bool) (E E' : Env) (ts1 ts2 ts3 ts4 : list token) (i c inc b : AstNode) :
  Assign E.1 ts1 i → Expr E.1 true ts2 c → Assign E.1 ts3 inc → statement_parsed o E ts4 b E' →
  statement_parsed o E (TOK_FOR :: TOK_CHAR "(" :: ts1 ++ TOK_CHAR ";" :: ts2 ++ TOK_CHAR ";" :: ts3 ++ TOK_CHAR ")" :: ts4)
    (ForAst i c inc b) E'.
Proof.
  intros Hi Hc Hinc IH n rest args Hne Ho Hn. cbn [app] in *. do 3 (rewrite <- app_assoc in *; cbn [app] in * ). starting n.
  rewrite run_shift, run_expect.
  parsed (assign_complete E.1 ts1 (TOK_CHAR ";" :: ts2 ++ TOK_CHAR ";" :: ts3 ++ TOK_CHAR ")" :: ts4 ++ rest) i (S n) E.2 args Hi eq_refl ltac:(lengths)).
  rewrite run_expect.
  parsed (expr_complete E.1 ts2 (TOK_CHAR ";" :: ts3 ++ TOK_CHAR ")" :: ts4 ++ rest) c (S n) E.2 args Hc eq_refl ltac:(lengths)).
  rewrite run_expect. parsed (assign_complete E.1 ts3 (TOK_CHAR ")" :: ts4 ++ rest) inc (S n) E.2 args Hinc eq_refl ltac:(lengths)).
  rewrite run_expect. parsed (IH n rest args Hne Ho ltac:(lengths)). reflexivity.
Qed.

Lemma parsed_while (o : bool) (E E' : Env) (ts1 ts2 : list token) (c b : AstNode) :
  Expr E.1 true ts1 c → statement_parsed o E ts2 b E' →
  statement_parsed o E (TOK_WHILE :: TOK_CHAR "(" :: ts1 ++ TOK_CHAR ")" :: ts2) (WhileAst c b) E'.
Proof.
  intros Hc IH n rest args Hne Ho Hn. cbn [app] in *. rewrite <- app_assoc in *. cbn [app] in *. starting n.
  rewrite run_shift, run_expect. parsed (expr_complete E.1 ts1 (TOK_CHAR ")" :: ts2 ++ rest) c (S n) E.2 args Hc eq_refl ltac:(lengths)).
  rewrite run_expect. parsed (IH n rest args Hne Ho ltac:(lengths)). reflexivity.
Qed.

Lemma parsed_return (E : Env) (ts : list token) (e : AstNode) :
  Expr E.1 true ts e → statement_parsed false E (TOK_RETURN :: ts ++ [TOK_CHAR ";"]) (ReturnAst e) E.
Proof.
  intros He n rest args Hne _ Hn. cbn [app] in *. rewrite <- app_assoc in *. cbn [app] in *. starting n.
  rewrite run_shift. parsed (expr_complete E.1 ts (TOK_CHAR ";" :: rest) e (S n) E.2 args He eq_refl ltac:(lengths)).
  rewrite run_expect. destruct E. reflexivity.
Qed.

Lemma parsed_assignment (E : Env) (ts : list token) (a : AstNode) :
  Assign E.1 ts a → statement_parsed false E (ts ++ [TOK_CHAR ";"]) a E.
Proof.
  intros Ha n rest args Hne _ Hn. rewrite <- app_assoc in *. cbn [app] in *.
  pose proof (assign_complete E.1 ts (TOK_CHAR ";" :: rest) a n E.2 args Ha eq_refl Hn) as Hrun.
  starting n. destruct Ha; cbn [app Tokens head] in *; parsed Hrun; rewrite run_expect; destruct E; reflexivity.
Qed.

Lemma parsed_vardecl (E E' : Env) (ts : list token) (d : AstNode) :
  Vardecl E ts d E' → statement_parsed false E (ts ++ [TOK_CHAR ";"]) d E'.
Proof.
  intros Hd n rest args Hne _ Hn. rewrite <- app_assoc in *. cbn [app] in *.
  pose proof (vardecl_complete E E' ts rest d n args Hd Hne Hn) as Hrun.
  starting n. destruct Hd; cbn [app Tokens head] in *; parsed Hrun; rewrite run_expect; reflexivity.
Qed.

Lemma parsed_block (E E' : Env) (ts : list token) (b : AstNode) :
  Stmtseq (∅ :: E.1, E.2) ts b E' → stmtseq_parsed (∅ :: E.1, E.2) ts b E' →
  statement_parsed false E (TOK_CHAR "{" :: ts ++ [TOK_CHAR "}"]) b (drop 1 E'.1, E'.2).
Proof.
  intros Hb IH n rest args Hne _ Hn. cbn [app] in *. rewrite <- app_assoc in *. cbn [app] in *. starting n.
  rewrite run_shift, run_peek. cbn [Tokens].
  rewrite decide_False by (intros E1; pose proof (Stmtseq_starts _ _ _ (TOK_CHAR "}" :: rest) _ Hb) as Hs; rewrite E1 in Hs; discriminate Hs).
  erewrite run_bind by reflexivity. cbn [Tokens ScopeStack Made ArgumentSyms].
  parsed (IH n (S n) rest args ltac:(discriminate) ltac:(lengths) ltac:(lengths)).
  pose proof (proj2 Statement_depth _ _ _ _ Hb) as Hdep. destruct E' as [[| sc' sc] k]; [discriminate Hdep |].
  erewrite run_bind by reflexivity. cbn [fst snd Tokens ScopeStack Made ArgumentSyms drop]. rewrite run_expect. reflexivity.
Qed.

Lemma parsed_last (o : bool) (E E' : Env) (ts : list token) (s : AstNode) : statement_parsed o E ts s E' → stmtseq_parsed E ts s E'.
Proof.
  intros IH n f rest args Hne Hn Hf. destruct f as [| f]; [lia |]. cbn [parse_stmtseq].
  parsed (IH n (TOK_CHAR "}" :: rest) args Hne ltac:(discriminate) Hn). reflexivity.
Qed.

Lemma parsed_cons (o : bool) (E E' E'' : Env) (ts1 ts2 : list token) (s rest' : AstNode) :
  Statement o E ts1 s E' → statement_parsed o E ts1 s E' → Stmtseq E' ts2 rest' E'' → stmtseq_parsed E' ts2 rest' E'' →
  stmtseq_parsed E (ts1 ++ ts2) (SequenceAst s rest') E''.
Proof.
  intros Hs IH1 Hrest IH2 n f rest args Hne Hn Hf. rewrite <- app_assoc in *. destruct f as [| f]; [lia |].
  pose proof (Stmtseq_starts _ _ _ (TOK_CHAR "}" :: rest) _ Hrest) as Hst.
  assert (Hpos : (0 < length ts1)%nat).
  { pose proof (Statement_starts _ _ _ _ [] _ Hs) as H1. destruct ts1; [discriminate H1 | cbn; lia]. }
  cbn [parse_stmtseq].
  parsed (IH1 n (ts2 ++ TOK_CHAR "}" :: rest) args Hne ltac:(intros _ E1; rewrite E1 in Hst; discriminate Hst) Hn).
  rewrite run_peek. cbn [Tokens]. rewrite Hst.
  parsed (IH2 n f rest args (Statement_ne _ _ _ _ _ Hs Hne) ltac:(lengths) ltac:(lengths)). reflexivity.
Qed.

Lemma all_parsed :
  (∀ o E ts a E', Statement o E ts a E' → statement_parsed o E ts a E') ∧ (∀ E ts a E', Stmtseq E ts a E' → stmtseq_parsed E ts a E').
Proof.
  apply stmt_mutind; eauto using parsed_if, parsed_for, parsed_while, parsed_return, parsed_assignment, parsed_vardecl, parsed_block,
    parsed_last, parsed_cons.
  - intros o E E' E'' ts1 ts2 ts3 c th el Hc Hth IH1 _ IH2 n rest args Hne.
    exact (parsed_if_else o E E' E'' ts1 ts2 ts3 c th el Hc IH1 (Statement_ne _ _ _ _ _ Hth Hne) IH2 n rest args Hne).
  - intros E n rest args _ _ Hn. destruct E, n as [| n]; [lia |]. reflexivity.
  - intros E n rest args _ _ Hn. destruct E, n as [| n]; [lia |]. reflexivity.
Qed.

(** *** Functions *)
Lemma paramlist_complete (E E' : Env) (ts : list token) (syms : list Symbol) :
  Parameters E ts syms E' → ∀ n rest args, E.1 ≠ [] → head rest ≠ Some (TOK_CHAR ",") → (length (ts ++ rest) < n)%nat →
  parse_paramlist n (mkPState (ts ++ rest) E.1 E.2 args) = Ret (inr (tt, mkPState rest E'.1 E'.2 (args ++ syms))) ∧
  length E'.1 = length E.1.
Proof.
  assert (Hdecl : ∀ E x ts args, E.1 ≠ [] → parse_paramdecl (mkPState (TOK_FLOAT :: TOK_IDENTIFIER x :: ts) E.1 E.2 args) =
    Ret (inr (tt, mkPState ts (bindName E x).1 (bindName E x).2 (args ++ [E.2])))).
  { intros [[| sc rest] k] x ts' args Hne; [destruct (Hne eq_refl) |]. reflexivity. }
  induction 1 as [E x | E E' x ts syms _ IH]; intros n rest args Hne Hrest Hn; (destruct n as [| n]; [lia |]); cbn [parse_paramlist app].
  - parsed (Hdecl E x rest args Hne). rewrite run_peek. cbn [Tokens]. rewrite decide_False by exact Hrest. split; [reflexivity | apply bindName_depth].
  - parsed (Hdecl E x (TOK_CHAR "," :: ts ++ rest) args Hne). rewrite run_peek. cbn [Tokens head].
    rewrite decide_True by reflexivity. rewrite run_shift.
    destruct (IH n rest (args ++ [E.2])) as [Hrun Hdep]; [intros E1; pose proof (bindName_depth E x) as Hd; rewrite E1 in Hd; destruct E.1; [congruence | discriminate Hd] |
      exact Hrest | lengths |].
    rewrite Hrun, Hdep, <- app_assoc. split; [reflexivity | apply bindName_depth].
Qed.

Lemma funcdecl_complete (ts rest : list token) (name : string) (syms : list Symbol) (body : AstNode) (n : nat) :
  Funcdecl ts name syms body → (length (ts ++ rest) < n)%nat →
  ∃ sc k, parse_funcdecl n (mkPState (ts ++ rest) [] 0 []) = Ret (inr (name, body, mkPState rest sc k syms)).
Proof.
  intros HF Hn. destruct HF as [E E' ts1 ts2 name syms body HP Hb]. cbn [app] in *.
  do 2 (rewrite <- app_assoc in *; cbn [app] in * ).
  set (tail := TOK_CHAR "{" :: ts2 ++ TOK_CHAR "}" :: rest) in *.
  unfold SpmdParser.parse_funcdecl. rewrite run_expect, run_identifier. erewrite run_bind by reflexivity.
  cbn [Tokens ScopeStack Made ArgumentSyms]. rewrite run_expect.
  assert (HR : parse_parameters n (mkPState (ts1 ++ TOK_CHAR ")" :: tail) [∅] 0 []) = Ret (inr (tt, mkPState (TOK_CHAR ")" :: tail) E.1 E.2 syms)) ∧
    length E.1 = 1%nat).
  { unfold parse_parameters. rewrite run_peek. cbn [Tokens]. destruct HP as [(-> & -> & ->) | HP]; [split; reflexivity |].
    rewrite decide_True by (destruct HP; reflexivity).
    apply (paramlist_complete _ _ _ _ HP n (TOK_CHAR ")" :: tail) []); [discriminate | discriminate | lengths]. }
  destruct HR as [HR Hd]. parsed HR. rewrite run_expect. unfold tail in *. rewrite run_expect.
  assert (Hne : E.1 ≠ []) by (intros E0; rewrite E0 in Hd; discriminate Hd).
  parsed (proj2 all_parsed _ _ _ _ Hb n n rest syms Hne ltac:(lengths) ltac:(lengths)).
  pose proof (proj2 Statement_depth _ _ _ _ Hb) as Hdep. rewrite Hd in Hdep. destruct E' as [[| sc' sc] k]; [discriminate Hdep |].
  erewrite run_bind by reflexivity. cbn [Tokens ScopeStack Made ArgumentSyms]. rewrite run_expect. eexists _, _. reflexivity.
Qed.

(** C38. The parser always ends, with an error message or with a tree, and never
    touches an empty stack of scopes.  It accepts exactly what the rules of the
    grammar derive, with the tree of their actions: it returns a function and leaves
    [rest] if and only if the tokens before [rest] are derived by [funcdecl].  The
    rules say how operators group, to which [if] an [else] belongs, that a name is
    resolved to its innermost declaration in scope, and that no name in scope is
    declared again; the arguments are the first symbols, all different. *)
Theorem parser_follows_grammar (ts : list token) :
  (∃ r, parse_funcdecl (S (length ts)) (mkPState ts [] 0 []) = Ret r) ∧
  (∀ name body syms rest,
     (∃ sc k, parse_funcdecl (S (length ts)) (mkPState ts [] 0 []) = Ret (inr (name, body, mkPState rest sc k syms))) ↔
     ∃ ts1, ts = ts1 ++ rest ∧ Funcdecl ts1 name syms body) ∧
  (∀ ts1 name syms body, Funcdecl ts1 name syms body → syms = seq 0 (length syms)).
Proof.
  pose proof (wp_funcdecl ts (S (length ts)) ltac:(lia)) as (r & HE & Hr). split; [exists r; exact HE |]. split; [| exact Funcdecl_symbols].
  intros name body syms rest. split.
  - intros (sc & k & Hrun). rewrite Hrun in HE. injection HE as <-. exact Hr.
  - intros (ts1 & -> & HF). apply (funcdecl_complete ts1 rest name syms body); [exact HF | lia].
Qed.
End Grammar.

(** [float f(float a) { if (a - 1 * a > 2) if (a) ; else return a; }]: the comparison takes
    only the [a] before it, and the [else] belongs to the inner [if]. *)
Definition exampleTokens : list token :=
  [TOK_FLOAT; TOK_IDENTIFIER "f"; TOK_CHAR "("; TOK_FLOAT; TOK_IDENTIFIER "a"; TOK_CHAR ")"; TOK_CHAR "{";
   TOK_IF; TOK_CHAR "("; TOK_IDENTIFIER "a"; TOK_CHAR "-"; TOK_NUMBER 1; TOK_CHAR "*"; TOK_IDENTIFIER "a"; TOK_CHAR ">"; TOK_NUMBER 2; TOK_CHAR ")";
   TOK_IF; TOK_CHAR "("; TOK_IDENTIFIER "a"; TOK_CHAR ")"; TOK_CHAR ";"; TOK_ELSE; TOK_RETURN; TOK_IDENTIFIER "a"; TOK_CHAR ";";
   TOK_CHAR "}"].

Lemma parser_follows_grammar_witness :
  let Z_floats := {| float := Z; fadd := Z.add; fsub := Z.sub; fmul := Z.mul; fdiv := Z.div; fcompare a b := Some (Z.compare a b) |} in
  let a := VariableAst 0%nat in
  @Funcdecl Z_floats id exampleTokens "f" [0%nat]
    (IfAst (SubAst a (MulAst (ConstantAst (1 : @float Z_floats)) (CompareAst FCMP_UGT a (ConstantAst (2 : @float Z_floats)))))
       (IfAst a NullAst (ReturnAst a)) NullAst).
Proof.
  intros Z_floats a.
  destruct (@parser_follows_grammar Z_floats id exampleTokens) as (_ & Hiff & _).
  destruct (proj1 (Hiff "f" (IfAst (SubAst a (MulAst (ConstantAst (1 : @float Z_floats)) (CompareAst FCMP_UGT a (ConstantAst (2 : @float Z_floats)))))
       (IfAst a NullAst (ReturnAst a)) NullAst) [0%nat] [])) as (ts1 & E & HF).
  - do 2 eexists. vm_compute. reflexivity.
  - rewrite app_nil_r in E. rewrite E. exact HF.
Defined.
