(* ===== verification/SpmdSource.v ===== *)
(** * SpmdSource: programs of the SPMD compiler, from their text to the lanes

    The layout of a text, the grammar on its tokens and the theorem on kernels in
    SpmdCorrect.v put together: a text laid out as a program of the grammar is compiled
    to code that computes in every lane what the program's tree says.  The tokens and
    the tree are those of the specifications in SpmdScanner.v and SpmdGrammar.v, which do
    not mention the scanner and the parser. *)
From Stdlib Require Import Ascii.
From stdpp Require Import vector fin.
From S2P Require Import Prelude SpmdBuilder SpmdMachine SpmdSimulation SpmdCorrect SpmdScanner SpmdParser SpmdGrammar.

(** ** From the text to the lanes *)

(** A text is a program: its tokens are derived by the grammar, with the symbols of the
    arguments and the tree of the body. *)
Definition Program `{FloatOps} (ofInt : Z → float) (source : string) (name : string) (params : list Symbol) (body : AstNode) : Prop :=
  ∃ ts, layout (String.list_ascii_of_string source) ts ∧ Funcdecl ofInt ts name params body.

Section Compiler.
Context `{FloatOps} (ofInt : Z → float).

(** The scanner and the parser on a program. *)
Lemma parse_program (source name : string) (params : list Symbol) (body : AstNode) :
  Program ofInt source name params body → parse ofInt source = compile params body ≫= λ F, Ret (inr F).
Proof.
  intros (ts & HL & HF). unfold parse, tokens.
  destruct (layout_scan _ ts HL (S (length (String.list_ascii_of_string source))) 1 ltac:(lia)) as (lts & -> & <-).
  rewrite !outcome_bind_ret. unfold yyparse.
  destruct (funcdecl_complete ofInt (map fst lts) [] name params body (S (length (map fst lts))) HF) as (sc & k & E);
    [rewrite app_nil_r; lia |].
  rewrite app_nil_r in E. rewrite E, outcome_bind_ret. reflexivity.
Qed.

(** C10. The compiler on a program text: when the text is a layout of tokens that the
    grammar derives, with its precedences, its [else] and its names, for a kernel whose
    symbols are well scoped, [parse] produces code, and calling the code on vectors of
    arguments returns in every lane what the scalar program returns there.
    [scopedKernel] excludes a [return] inside a loop, which the compiler gets wrong, and
    the scalar programs have to end in all lanes. *)
Theorem source_computes_lanes (source name : string) (params : list Symbol) (body : AstNode)
    (argv : list (vec float 16)) (expected : vec float 16) :
  Program ofInt source name params body → scopedKernel params body = true → length argv = length params →
  (∀ l : fin 16, ∃ k, scalarRun k params body (map (λ a, a !!! l) argv) = Some (expected !!! l)) →
  ∃ F, parse ofInt source = Ret (inr F) ∧ ∃ fuel, call fuel F argv = Some (RFloats (vmap Some expected)).
Proof.
  intros HP Hs Hl Hrun. destruct (kernel_lanes params body argv expected Hs Hl Hrun) as (F & HF & Hcall).
  exists F. split; [| exact Hcall]. rewrite (parse_program source name params body HP), HF. reflexivity.
Qed.
End Compiler.

(** *** The kernel of SpmdCorrect.v, as a text *)
Definition sampleSource : string :=
  "float f(float a, float b)
{
  float sum = 0; // the result
  float i;
  for (i = 0; i < a; i++) { if (i > b) { sum = sum - i; } else { sum = sum + i; } }
  if (sum > 10) { return sum; } else { if (a > b) return b; }
  return a;
}".

Definition sampleTokens : list token :=
  let id x := TOK_IDENTIFIER x in let ch c := TOK_CHAR c in
  [TOK_FLOAT; id "f"; ch "("%char; TOK_FLOAT; id "a"; ch ","%char; TOK_FLOAT; id "b"; ch ")"%char; ch "{"%char;
   TOK_FLOAT; id "sum"; ch "="%char; TOK_NUMBER 0; ch ";"%char; TOK_FLOAT; id "i"; ch ";"%char;
   TOK_FOR; ch "("%char; id "i"; ch "="%char; TOK_NUMBER 0; ch ";"%char; id "i"; ch "<"%char; id "a"; ch ";"%char; id "i"; TOK_INCR; ch ")"%char; ch "{"%char;
     TOK_IF; ch "("%char; id "i"; ch ">"%char; id "b"; ch ")"%char; ch "{"%char; id "sum"; ch "="%char; id "sum"; ch "-"%char; id "i"; ch ";"%char; ch "}"%char;
     TOK_ELSE; ch "{"%char; id "sum"; ch "="%char; id "sum"; ch "+"%char; id "i"; ch ";"%char; ch "}"%char; ch "}"%char;
   TOK_IF; ch "("%char; id "sum"; ch ">"%char; TOK_NUMBER 10; ch ")"%char; ch "{"%char; TOK_RETURN; id "sum"; ch ";"%char; ch "}"%char;
   TOK_ELSE; ch "{"%char; TOK_IF; ch "("%char; id "a"; ch ">"%char; id "b"; ch ")"%char; TOK_RETURN; id "b"; ch ";"%char; ch "}"%char;
   TOK_RETURN; id "a"; ch ";"%char; ch "}"%char].

#[local] Existing Instance integerFloats.

Definition intConstant (v : Z) : @float integerFloats := v.

Lemma sample_runs (l : fin 16) : ∃ k, scalarRun k sampleParams sampleBody (map (λ a, a !!! l) sampleArgs) = Some (sampleResult !!! l).
Proof.
  exists 20%nat. unfold sampleResult. rewrite lookup_fun_to_vec.
  assert (D : ∀ i : fin 16, is_Some (scalarRun 20 sampleParams sampleBody (map (λ a, a !!! i) sampleArgs))).
  { intros i. repeat (inv_fin i; [vm_compute; eauto | intros i]). inv_fin i. }
  destruct (D l) as [v Ev]. rewrite Ev. reflexivity.
Qed.

Lemma sample_program : Program intConstant sampleSource "f" sampleParams sampleBody.
Proof.
  exists sampleTokens. split; [apply layoutb_layout; vm_compute; reflexivity |].
  destruct (wp_funcdecl intConstant sampleTokens (S (length sampleTokens)) ltac:(lia)) as (r & E & Hr). vm_compute in E.
  injection E as <-. destruct Hr as (ts1 & E & HF). cbn [Tokens] in E. rewrite app_nil_r in E. rewrite E. exact HF.
Qed.

Lemma source_computes_lanes_witness :
  ∃ F, parse intConstant sampleSource = Ret (inr F) ∧ ∃ fuel, call fuel F sampleArgs = Some (RFloats (vmap Some sampleResult)).
Proof.
  apply (source_computes_lanes intConstant sampleSource "f" sampleParams sampleBody);
    [exact sample_program | vm_compute; reflexivity | reflexivity | exact sample_runs].
Defined.
