(* ===== verification/Elf2Hex.v ===== *)
(** * Elf2Hex: tools/elf2hex/elf2hex.cpp

    The tool that turns a linked executable into the text a Verilog simulator
    loads with [$readmemh].  [main] is modelled as a function of the bytes of
    the input file, the value of option [-b], what [calloc] can give and whether
    the output can be opened; its result is the exit status, the message and the
    text written.  The host is the one the code is written for: little-endian,
    32-bit [unsigned int], 64-bit [size_t] and [long]. *)
From stdpp Require Import pretty.
From S2P Require Import Prelude MathExtras NyuziTarget NyuziFixups NyuziFormats NyuziEmitter.
From S2P Require Import NyuziDisassembler NyuziCodec.
From Stdlib Require Import Ascii.

(** ** The file *)

(** The members of [Elf32_Ehdr] and [Elf32_Phdr], in file order. *)
Record Elf32_Ehdr : Type := mkEhdr {
  e_ident : list Z;
  e_type : Z;
  e_machine : Z;
  e_version : Z;
  e_entry : Z;
  e_phoff : Z;
  e_shoff : Z;
  e_flags : Z;
  e_ehsize : Z;
  e_phentsize : Z;
  e_phnum : Z;
  e_shentsize : Z;
  e_shnum : Z;
  e_shstrndx : Z;
}.

Record Elf32_Phdr : Type := mkPhdr {
  p_type : Z;
  p_offset : Z;
  p_vaddr : Z;
  p_paddr : Z;
  p_filesz : Z;
  p_memsz : Z;
  p_flags : Z;
  p_align : Z;
}.

Definition EM_NYUZI : Z := 9999.
Definition PT_LOAD : Z := 1.
Definition ElfMagic : list Z := [127; 69; 76; 70].

(** [n] bytes at offset [off] of a struct, as the host reads the member. *)
Definition member (bs : list Z) (off n : nat) : Z := le_combine (take n (drop off bs)).

(** A struct as [fread] leaves it in memory. *)
Definition as_Ehdr (bs : list Z) : Elf32_Ehdr := {|
  e_ident := take 16 bs;
  e_type := member bs 16 2;
  e_machine := member bs 18 2;
  e_version := member bs 20 4;
  e_entry := member bs 24 4;
  e_phoff := member bs 28 4;
  e_shoff := member bs 32 4;
  e_flags := member bs 36 4;
  e_ehsize := member bs 40 2;
  e_phentsize := member bs 42 2;
  e_phnum := member bs 44 2;
  e_shentsize := member bs 46 2;
  e_shnum := member bs 48 2;
  e_shstrndx := member bs 50 2;
|}.

Definition as_Phdr (bs : list Z) : Elf32_Phdr := {|
  p_type := member bs 0 4;
  p_offset := member bs 4 4;
  p_vaddr := member bs 8 4;
  p_paddr := member bs 12 4;
  p_filesz := member bs 16 4;
  p_memsz := member bs 20 4;
  p_flags := member bs 24 4;
  p_align := member bs 28 4;
|}.

Definition sizeof_Ehdr : nat := 52.
Definition sizeof_Phdr : nat := 32.

(** [fseek(inputFile, pos, SEEK_SET)] and [fread] of [n] bytes: the bytes that
    are there, fewer at the end of the file. *)
Definition fread_at (file : list Z) (pos n : Z) : list Z := take (Z.to_nat n) (drop (Z.to_nat pos) file).

Fixpoint as_Phdrs (n : nat) (bs : list Z) : list Elf32_Phdr :=
  match n with
  | O => []
  | S n => as_Phdr (take sizeof_Phdr bs) :: as_Phdrs n (drop sizeof_Phdr bs)
  end.

(** ** [main] *)

Record run_result : Type := mkRun {
  status : Z;              (* the exit status *)
  errs : string;           (* the message *)
  hexFile : option string; (* the text written *)
}.

Definition newline : ascii := "010"%char.

(** [errs() << msg << newline; return 1;] *)
Definition failure (msg : string) : outcome run_result := Ret (mkRun 1 (msg +:+ String newline "") None).

(** The walk for the highest address: [inl] is the error return. *)
Fixpoint highest (BaseAddress : Z) (segment : Z) (pheader : list Elf32_Phdr) (maxAddress : Z) : string + Z :=
  match pheader with
  | [] => inr maxAddress
  | ph :: rest =>
      if p_type ph =? PT_LOAD then
        let highAddr := u32 (p_vaddr ph + p_memsz ph) in
        let maxAddress := if maxAddress <? highAddr then highAddr else maxAddress in
        if p_vaddr ph <? BaseAddress then
          inl ("Program segment " +:+ pretty segment +:+ " @" +:+ pretty (p_vaddr ph) +:+
               " is before requested base address " +:+ pretty BaseAddress)%string
        else highest BaseAddress (segment + 1) rest maxAddress
      else highest BaseAddress (segment + 1) rest maxAddress
  end.

(** [fread(memoryImage + p_vaddr - BaseAddress, 1, p_filesz, inputFile)] for one
    load segment: the image and whether everything was read.  Nothing compares
    [p_filesz] with the size of the image. *)
Definition readSegment (file : list Z) (BaseAddress : Z) (ph : Elf32_Phdr) (memoryImage : list Z)
    : outcome (list Z * bool) :=
  let data := fread_at file (p_offset ph) (p_filesz ph) in
  let dest := Z.to_nat (p_vaddr ph - BaseAddress) in
  if decide (data = [] ∨ (dest + length data ≤ length memoryImage)%nat) then
    Ret (if decide (data = []) then memoryImage else write_at dest data memoryImage,
         Z.of_nat (length data) =? p_filesz ph)
  else UndefinedBehaviour "fread past the end of memoryImage".

Fixpoint readSegments (file : list Z) (BaseAddress : Z) (segment : Z) (pheader : list Elf32_Phdr)
    (memoryImage : list Z) : outcome (string + list Z) :=
  match pheader with
  | [] => Ret (inr memoryImage)
  | ph :: rest =>
      if p_type ph =? PT_LOAD then
        readSegment file BaseAddress ph memoryImage ≫= λ '(memoryImage, complete),
        if negb complete then Ret (inl ("Error reading segment " +:+ pretty segment)%string)
        else readSegments file BaseAddress (segment + 1) rest memoryImage
      else readSegments file BaseAddress (segment + 1) rest memoryImage
  end.

(** [0xf6000000 | ((eheader.e_entry - BaseAddress) / 4)] *)
Definition jumpWord (entry BaseAddress : Z) : Z :=
  Z.lor 0xf6000000 (Z.quot (u32 (entry - BaseAddress)) 4).

(** The store of the jump to the first word of [memoryImage]. *)
Definition patchEntry (entry BaseAddress : Z) (memoryImage : list Z) : outcome (list Z) :=
  if decide (4 ≤ length memoryImage)%nat then Ret (write_at 0 (le_bytes 4 (jumpWord entry BaseAddress)) memoryImage)
  else UndefinedBehaviour "store past the end of memoryImage".

(** ["%x"] of a digit *)
Definition hexDigit (d : Z) : ascii :=
  ascii_of_nat (Z.to_nat (if d <? 10 then 48 + d else 87 + d)).

(** [for (i = 0; i < maxAddress - BaseAddress; i++)
       { fprintf("%02x", memoryImage[i]); if ((i & 3) == 3) fprintf("\n"); }] *)
Fixpoint printImage (i : Z) (memoryImage : list Z) : string :=
  match memoryImage with
  | [] => EmptyString
  | b :: rest =>
      String (hexDigit (Z.shiftr b 4)) (String (hexDigit (Z.land b 15))
        (if Z.land i 3 =? 3 then String newline (printImage (i + 1) rest) else printImage (i + 1) rest))
  end.

Section main.
(** how many bytes [calloc] can give *)
Variable available : Z → bool.
(** whether [fopen(OutputFilename, "wb")] succeeds *)
Variable canWrite : bool.

Definition main (inputFile : option (list Z)) (BaseAddress : Z) : outcome run_result :=
  match inputFile with
  | None => failure "Error opening input file"
  | Some file =>
      let header := fread_at file 0 (Z.of_nat sizeof_Ehdr) in
      if negb (length header =? sizeof_Ehdr)%nat then failure "Error reading header"
      else
        let eheader := as_Ehdr header in
        if negb (bool_decide (take 4 (e_ident eheader) = ElfMagic)) then failure "Not an elf file"
        else if negb (e_machine eheader =? EM_NYUZI) then failure "Incorrect architecture"
        else if e_phoff eheader =? 0 then failure "File has no program header"
        else
          let phsize := Z.of_nat sizeof_Phdr * e_phnum eheader in
          let table := fread_at file (e_phoff eheader) phsize in
          if negb (available phsize) && negb (bool_decide (table = [])) then
            UndefinedBehaviour "fread into the null pointer pheader"
          else if negb (Z.of_nat (length table / sizeof_Phdr) =? e_phnum eheader) then
            failure "error reading program header"
          else
            let pheader := as_Phdrs (Z.to_nat (e_phnum eheader)) table in
            match highest BaseAddress 0 pheader 0 with
            | inl msg => failure msg
            | inr maxAddress =>
                let size := u32 (maxAddress - BaseAddress) in
                if negb (available size) then failure "not enough memory for program image"
                else
                  readSegments file BaseAddress 0 pheader (replicate (Z.to_nat size) 0) ≫= λ r,
                  match r with
                  | inl msg => failure msg
                  | inr memoryImage =>
                      patchEntry (e_entry eheader) BaseAddress memoryImage ≫= λ memoryImage,
                      if negb canWrite then Ret (mkRun 1 "error opening output file" None)
                      else Ret (mkRun 0 "" (Some (printImage 0 memoryImage)))
                  end
            end
  end.
End main.

(** ** What the tool is for

    [$readmemh] as a Verilog simulator runs it: numbers in hexadecimal digits,
    most significant first, separated by white space, one per memory word. *)
Definition hexValue (c : ascii) : option Z :=
  let n := Z.of_nat (nat_of_ascii c) in
  if (48 <=? n) && (n <=? 57) then Some (n - 48)
  else if (97 <=? n) && (n <=? 102) then Some (n - 87)
  else None.

Fixpoint readmemh (word : option Z) (s : string) : list Z :=
  match s with
  | EmptyString => match word with Some w => [w] | None => [] end
  | String c s =>
      match hexValue c with
      | Some d => readmemh (Some (16 * default 0 word + d)) s
      | None => match word with Some w => w :: readmemh None s | None => readmemh None s end
      end
  end.

(** The words of an image, the byte at the lowest address first. *)
Fixpoint beWords (bs : list Z) : list Z :=
  match bs with
  | b0 :: b1 :: b2 :: b3 :: rest => (((b0 * 256 + b1) * 256 + b2) * 256 + b3) :: beWords rest
  | [b0; b1; b2] => [(b0 * 256 + b1) * 256 + b2]
  | [b0; b1] => [b0 * 256 + b1]
  | [b0] => [b0]
  | [] => []
  end.

(** The byte a loader puts at address [a]: of the last segment whose file part
    covers it, zero where none does. *)
Definition segmentByte (file : list Z) (a : Z) (b : Z) (ph : Elf32_Phdr) : Z :=
  if (p_type ph =? PT_LOAD) && (p_vaddr ph <=? a) && (a <? p_vaddr ph + p_filesz ph)
  then default b (file !! Z.to_nat (p_offset ph + (a - p_vaddr ph)))
  else b.

Definition loadedByte (file : list Z) (phs : list Elf32_Phdr) (a : Z) : Z :=
  foldl (segmentByte file a) 0 phs.

(** The end of the highest load segment. *)
Definition topAddress (phs : list Elf32_Phdr) : Z :=
  foldl (λ m ph, if p_type ph =? PT_LOAD then Z.max m (p_vaddr ph + p_memsz ph) else m) 0 phs.

Definition headerOf (file : list Z) : Elf32_Ehdr := as_Ehdr (take sizeof_Ehdr file).
Definition segmentsOf (file : list Z) : list Elf32_Phdr :=
  as_Phdrs (Z.to_nat (e_phnum (headerOf file))) (drop (Z.to_nat (e_phoff (headerOf file))) file).

(** A load segment inside the file and the address space, its file part not
    larger than its memory. *)
Definition segment_ok (file : list Z) (BaseAddress : Z) (ph : Elf32_Phdr) : bool :=
  negb (p_type ph =? PT_LOAD) ||
  ((BaseAddress <=? p_vaddr ph) && (p_vaddr ph + p_memsz ph <? 2 ^ 32) &&
   (p_filesz ph <=? p_memsz ph) && (p_offset ph + p_filesz ph <=? Z.of_nat (length file))).

(** A linked Nyuzi executable, as far as the header goes. *)
Record readable (file : list Z) : Prop := {
  readable_size : (sizeof_Ehdr ≤ length file)%nat;
  readable_magic : take 4 file = ElfMagic;
  readable_machine : e_machine (headerOf file) = EM_NYUZI;
  readable_phoff : e_phoff (headerOf file) ≠ 0;
  readable_table : e_phoff (headerOf file) + 32 * e_phnum (headerOf file) ≤ Z.of_nat (length file);
}.

(** ... and one whose segments fit and whose entry a jump at its start reaches. *)
Record executable (file : list Z) (BaseAddress : Z) : Prop := {
  exec_readable : readable file;
  exec_bytes : Forall (λ b, 0 ≤ b < 256) file;
  exec_base : 0 ≤ BaseAddress;
  exec_segments : forallb (segment_ok file BaseAddress) (segmentsOf file) = true;
  exec_top : BaseAddress + 4 ≤ topAddress (segmentsOf file);
  exec_entry : BaseAddress ≤ e_entry (headerOf file) < BaseAddress + 2 ^ 26;
  exec_aligned : (e_entry (headerOf file) - BaseAddress) mod 4 = 0;
}.

(** ** Reading the headers *)

Lemma le_combine_range (bs : list Z) : 0 ≤ le_combine bs < 2 ^ (8 * Z.of_nat (length bs)).
Proof.
  induction bs as [| b bs IH]; cbn [le_combine length]; [cbn; lia |].
  pose proof (uint_range 8 b ltac:(lia)). rewrite Z.lor_comm, shiftl_add_lor by lia.
  replace (8 * Z.of_nat (S (length bs))) with (8 * Z.of_nat (length bs) + 8) by lia.
  rewrite Z.pow_add_r by lia. change (2 ^ 8) with 256 in *. nia.
Qed.

Lemma member_range (bs : list Z) (off n : nat) : 0 ≤ member bs off n < 2 ^ (8 * Z.of_nat n).
Proof.
  unfold member. pose proof (le_combine_range (take n (drop off bs))) as H.
  split; [lia |]. eapply Z.lt_le_trans; [apply H |]. apply Z.pow_le_mono_r; [lia |].
  rewrite length_take. lia.
Qed.

Definition phdr_range (ph : Elf32_Phdr) : Prop :=
  0 ≤ p_offset ph < 2 ^ 32 ∧ 0 ≤ p_vaddr ph < 2 ^ 32 ∧ 0 ≤ p_filesz ph < 2 ^ 32 ∧ 0 ≤ p_memsz ph < 2 ^ 32.

Lemma as_Phdrs_range (n : nat) (bs : list Z) : Forall phdr_range (as_Phdrs n bs).
Proof.
  revert bs. induction n as [| n IH]; intros bs; cbn; constructor; [| apply IH].
  repeat split; cbn; apply (member_range _ _ 4).
Qed.

(** The program headers are read from the first [32 * n] bytes. *)
Lemma as_Phdrs_take (n : nat) (bs : list Z) : as_Phdrs n (take (sizeof_Phdr * n) bs) = as_Phdrs n bs.
Proof.
  revert bs. induction n as [| n IH]; intros bs; cbn [as_Phdrs]; [reflexivity |].
  rewrite take_take, skipn_firstn_comm. f_equal.
  - do 2 f_equal. lia.
  - rewrite <- (IH (drop sizeof_Phdr bs)). do 2 f_equal. lia.
Qed.

(** ** The walks over the segments *)

Lemma topAddress_step (phs : list Elf32_Phdr) (m : Z) :
  m ≤ foldl (λ m ph, if p_type ph =? PT_LOAD then Z.max m (p_vaddr ph + p_memsz ph) else m) m phs.
Proof.
  revert m. induction phs as [| ph phs IH]; intros m; cbn; [lia |].
  destruct (_ =? _); [| apply IH]. etransitivity; [| apply IH]. lia.
Qed.

Lemma topAddress_load (phs : list Elf32_Phdr) (m : Z) (ph : Elf32_Phdr) :
  ph ∈ phs → p_type ph = PT_LOAD →
  p_vaddr ph + p_memsz ph ≤
    foldl (λ m ph, if p_type ph =? PT_LOAD then Z.max m (p_vaddr ph + p_memsz ph) else m) m phs.
Proof.
  revert m. induction phs as [| x phs IH]; intros m Hin Ht; [set_solver |].
  apply elem_of_cons in Hin as [<- | Hin]; cbn; [| apply IH; assumption].
  rewrite Ht, Z.eqb_refl. etransitivity; [| apply topAddress_step]. lia.
Qed.

Lemma segment_ok_load (file : list Z) (BaseAddress : Z) (ph : Elf32_Phdr) :
  segment_ok file BaseAddress ph = true → p_type ph =? PT_LOAD = true →
  BaseAddress ≤ p_vaddr ph ∧ p_vaddr ph + p_memsz ph < 2 ^ 32 ∧ p_filesz ph ≤ p_memsz ph ∧
  p_offset ph + p_filesz ph ≤ Z.of_nat (length file).
Proof. unfold segment_ok. intros H Ht. rewrite Ht in H. cbn -[Z.pow] in H. lia. Qed.

Lemma highest_spec (file : list Z) (BaseAddress s m : Z) (phs : list Elf32_Phdr) :
  Forall phdr_range phs → forallb (segment_ok file BaseAddress) phs = true → 0 ≤ m < 2 ^ 32 →
  highest BaseAddress s phs m =
    inr (foldl (λ m ph, if p_type ph =? PT_LOAD then Z.max m (p_vaddr ph + p_memsz ph) else m) m phs) ∧
  foldl (λ m ph, if p_type ph =? PT_LOAD then Z.max m (p_vaddr ph + p_memsz ph) else m) m phs < 2 ^ 32.
Proof.
  intros HR. revert s m. induction HR as [| ph phs (Ho & Hv & Hf & Hm) HR IH]; intros s m Hok Hs.
  { cbn -[Z.pow]. split; [reflexivity | lia]. }
  cbn [forallb] in Hok. apply andb_true_iff in Hok as [Hph Hok]. cbn [highest foldl].
  destruct (p_type ph =? PT_LOAD) eqn:Ht; [| apply IH; assumption].
  destruct (segment_ok_load _ _ _ Hph Ht) as (H1 & H2 & H3 & H4).
  rewrite uint_small by lia. destruct (p_vaddr ph <? BaseAddress) eqn:E; [lia |].
  replace (if m <? p_vaddr ph + p_memsz ph then p_vaddr ph + p_memsz ph else m)
    with (Z.max m (p_vaddr ph + p_memsz ph)) by (destruct (Z.ltb_spec m (p_vaddr ph + p_memsz ph)); lia).
  apply IH; [assumption | lia].
Qed.

Lemma length_fread_at (file : list Z) (pos n : Z) :
  0 ≤ pos → 0 ≤ n → pos + n ≤ Z.of_nat (length file) → length (fread_at file pos n) = Z.to_nat n.
Proof. intros H1 H2 H3. unfold fread_at. rewrite length_take, length_drop. lia. Qed.

Lemma write_at_inside {A : Type} (off : nat) (new l : list A) (i : nat) :
  (off + length new ≤ length l)%nat → (off ≤ i < off + length new)%nat →
  write_at off new l !! i = new !! (i - off)%nat.
Proof.
  intros HL Hi. unfold write_at. rewrite lookup_app_r by (rewrite length_take; lia).
  rewrite length_take, Nat.min_l by lia. apply lookup_app_l. lia.
Qed.

(** One segment changes the bytes it covers and no other. *)
Lemma readSegment_spec (file image : list Z) (BaseAddress : Z) (ph : Elf32_Phdr) :
  phdr_range ph → segment_ok file BaseAddress ph = true → p_type ph =? PT_LOAD = true →
  p_vaddr ph + p_memsz ph ≤ BaseAddress + Z.of_nat (length image) →
  ∃ image', readSegment file BaseAddress ph image = Ret (image', true) ∧ length image' = length image ∧
    ∀ i b, image !! i = Some b → image' !! i = Some (segmentByte file (BaseAddress + Z.of_nat i) b ph).
Proof.
  intros (Ho & Hv & Hf & Hm) Hok Ht Hin. destruct (segment_ok_load _ _ _ Hok Ht) as (H1 & H2 & H3 & H4).
  pose proof (length_fread_at file (p_offset ph) (p_filesz ph) ltac:(lia) ltac:(lia) ltac:(lia)) as HL.
  unfold readSegment, segmentByte. rewrite Ht. cbn [andb]. rewrite decide_True by (right; lia). rewrite HL.
  rewrite Z2Nat.id by lia. rewrite Z.eqb_refl.
  destruct (decide _) as [E | E].
  { rewrite E in HL. cbn in HL. exists image. split; [reflexivity |]. split; [reflexivity |]. intros i b Hb.
    rewrite Hb. f_equal. destruct (_ && _) eqn:C; [lia | reflexivity]. }
  eexists. split; [reflexivity |]. split; [apply length_write_at; lia |]. intros i b Hb.
  destruct (_ && _) eqn:C.
  - rewrite write_at_inside by lia. unfold fread_at. rewrite lookup_take_lt by lia. rewrite lookup_drop.
    replace (Z.to_nat (p_offset ph) + (i - Z.to_nat (p_vaddr ph - BaseAddress)))%nat
      with (Z.to_nat (p_offset ph + (BaseAddress + Z.of_nat i - p_vaddr ph))) by lia.
    destruct (file !! _) eqn:E'; [reflexivity |]. apply lookup_ge_None in E'. lia.
  - rewrite write_at_outside by lia. exact Hb.
Qed.

Lemma readSegments_spec (file : list Z) (BaseAddress : Z) (phs : list Elf32_Phdr) (s : Z) (image : list Z) :
  Forall phdr_range phs → forallb (segment_ok file BaseAddress) phs = true →
  (∀ ph, ph ∈ phs → p_type ph = PT_LOAD → p_vaddr ph + p_memsz ph ≤ BaseAddress + Z.of_nat (length image)) →
  ∃ image', readSegments file BaseAddress s phs image = Ret (inr image') ∧ length image' = length image ∧
    ∀ i b, image !! i = Some b →
      image' !! i = Some (foldl (segmentByte file (BaseAddress + Z.of_nat i)) b phs).
Proof.
  intros HR. revert s image. induction HR as [| ph phs Hph HR IH]; intros s image Hok Hin.
  { exists image. split; [reflexivity |]. split; [reflexivity |]. intros i b Hb. exact Hb. }
  cbn [forallb] in Hok. apply andb_true_iff in Hok as [Ho Hok]. cbn [readSegments foldl].
  destruct (p_type ph =? PT_LOAD) eqn:Ht.
  - destruct (readSegment_spec file image BaseAddress ph Hph Ho Ht) as (image1 & H1 & HL1 & HB1).
    { apply Hin; [apply list_elem_of_here | lia]. }
    rewrite H1, outcome_bind_ret. cbn [negb].
    destruct (IH (s + 1) image1 Hok) as (image2 & H2 & HL2 & HB2).
    { rewrite HL1. intros ph' Hp. apply Hin. right. exact Hp. }
    exists image2. split; [exact H2 |]. split; [congruence |]. intros i b Hb. apply HB2, HB1, Hb.
  - destruct (IH (s + 1) image Hok) as (image2 & H2 & HL2 & HB2).
    { intros ph' Hp. apply Hin. right. exact Hp. }
    exists image2. split; [exact H2 |]. split; [exact HL2 |]. intros i b Hb. rewrite (HB2 i b Hb).
    unfold segmentByte at 3. rewrite Ht. reflexivity.
Qed.

(** ** The text *)

Lemma hexDigit_value (d : Z) : 0 ≤ d < 16 → hexValue (hexDigit d) = Some d.
Proof.
  intros H. destruct d as [| p | p]; [reflexivity | | lia].
  do 4 (destruct p as [p | p |]; try reflexivity); lia.
Qed.

Lemma readmemh_byte (word : option Z) (b : Z) (rest : string) :
  0 ≤ b < 256 →
  readmemh word (String (hexDigit (Z.shiftr b 4)) (String (hexDigit (Z.land b 15)) rest)) =
    readmemh (Some (default 0 word * 256 + b)) rest.
Proof.
  intros H. change 15 with (Z.ones 4). rewrite Z.land_ones, Z.shiftr_div_pow2 by lia.
  change (2 ^ 4) with 16. pose proof (Z.mod_pos_bound b 16 ltac:(lia)).
  pose proof (Z.div_pos b 16 ltac:(lia) ltac:(lia)). pose proof (Z.div_lt_upper_bound b 16 16 ltac:(lia) ltac:(lia)).
  pose proof (Z_div_mod_eq_full b 16). cbn [readmemh]. rewrite !hexDigit_value by lia. cbn [default].
  do 2 f_equal. destruct word; unfold default, from_option, id; lia.
Qed.

Lemma land_3 (k r : Z) : 0 ≤ r < 4 → Z.land (4 * k + r) 3 = r.
Proof.
  intros H. change 3 with (Z.ones 2). rewrite Z.land_ones by lia. change (2 ^ 2) with 4.
  rewrite Z.mul_comm, Z.add_comm, Z_mod_plus_full. apply Z.mod_small. lia.
Qed.

(** The text a simulator reads back holds the words of the image. *)
Lemma printImage_readmemh (n : nat) (k : Z) (image : list Z) :
  (length image ≤ n)%nat → Forall (λ b, 0 ≤ b < 256) image →
  readmemh None (printImage (4 * k) image) = beWords image.
Proof.
  revert k image. induction n as [n IH] using lt_wf_ind. intros k image HL HB.
  pose proof (land_3 k 0 ltac:(lia)) as L0. rewrite Z.add_0_r in L0. pose proof (land_3 k 1 ltac:(lia)) as L1.
  pose proof (land_3 k 2 ltac:(lia)) as L2. pose proof (land_3 k 3 ltac:(lia)) as L3.
  destruct image as [| b0 [| b1 [| b2 [| b3 image]]]]; cbn [printImage beWords];
    rewrite ?L0; rewrite <- ?Z.add_assoc; change (1 + (1 + (1 + 1))) with 4; change (1 + (1 + 1)) with 3;
    change (1 + 1) with 2; rewrite ?L1, ?L2, ?L3; cbn [Z.eqb Pos.eqb]; rewrite ?Forall_cons in HB; destruct_and?;
    rewrite ?readmemh_byte by lia; try reflexivity.
  cbn [readmemh default]. change (hexValue newline) with (@None Z). cbn iota. f_equal.
  replace (4 * k + 4) with (4 * (k + 1)) by lia.
  cbn [length] in HL. apply (IH (length image)); [lia | lia | assumption].
Qed.

(** ** The jump to the entry point *)


(** ** The jump to the entry point *)

(** The first word is the one the code emitter gives a branch to the entry. *)
Lemma jumpWord_branch (entry BaseAddress : Z) (F : Fixups_t) :
  BaseAddress ≤ entry < BaseAddress + 2 ^ 26 →
  formatBinaryCode (branch_inst Nyuzi.B (Nyuzi.S 0) (kImmediate ((entry - BaseAddress) / 4))) F =
    Ret (jumpWord entry BaseAddress, F).
Proof.
  intros HE. set (v := (entry - BaseAddress) / 4).
  assert (Hv : 0 ≤ v < 2 ^ 24).
  { split; [apply Z.div_pos; lia | apply Z.div_lt_upper_bound; lia]. }
  transitivity (Ret (setfield 0 25 (u32 v) (fixedBits (BranchInst BT_Uncond)), F)).
  { rewrite <- (Z.shiftr_0_r (u32 v)) at 1. reflexivity. }
  do 2 f_equal. change (fixedBits (BranchInst BT_Uncond)) with 0xf6000000.
  unfold jumpWord. rewrite (uint_small 32 (entry - BaseAddress)) by lia. rewrite Z.quot_div_nonneg by lia.
  fold v. rewrite uint_small by lia. rewrite <- (lor_setfield 0 25 v 0xf6000000) by (lia || reflexivity).
  rewrite !Z.shiftl_0_r, uint_land_ones, uint_small by lia. reflexivity.
Qed.

(** ** The theorems *)

Lemma take_header (file : list Z) :
  fread_at file 0 (Z.of_nat sizeof_Ehdr) = take sizeof_Ehdr file.
Proof. unfold fread_at. rewrite Nat2Z.id, drop_0. reflexivity. Qed.

(** A readable file gets as far as the walk over its segments. *)
Lemma main_readable (available : Z → bool) (canWrite : bool) (file : list Z) (BaseAddress : Z) :
  readable file → available (32 * e_phnum (headerOf file)) = true →
  main available canWrite (Some file) BaseAddress =
    match highest BaseAddress 0 (segmentsOf file) 0 with
    | inl msg => failure msg
    | inr maxAddress =>
        let size := u32 (maxAddress - BaseAddress) in
        if negb (available size) then failure "not enough memory for program image"
        else
          readSegments file BaseAddress 0 (segmentsOf file) (replicate (Z.to_nat size) 0) ≫= λ r,
          match r with
          | inl msg => failure msg
          | inr memoryImage =>
              patchEntry (e_entry (headerOf file)) BaseAddress memoryImage ≫= λ memoryImage,
              if negb canWrite then Ret (mkRun 1 "error opening output file" None)
              else Ret (mkRun 0 "" (Some (printImage 0 memoryImage)))
          end
    end.
Proof.
  intros [HS HM HA HP HT] Hav. unfold main. rewrite take_header. fold (headerOf file).
  rewrite length_take, Nat.min_l, Nat.eqb_refl by exact HS. cbn [negb].
  assert (Hmag : take 4 (e_ident (headerOf file)) = ElfMagic).
  { unfold headerOf, as_Ehdr, e_ident. rewrite !take_take. cbn [Nat.min sizeof_Ehdr]. exact HM. }
  rewrite bool_decide_true, HA by exact Hmag. cbn [negb Z.eqb EM_NYUZI Pos.eqb].
  destruct (Z.eqb_spec (e_phoff (headerOf file)) 0) as [E | _]; [contradiction |].
  change (Z.of_nat sizeof_Phdr) with 32. rewrite Hav. cbn [negb andb].
  pose proof (member_range (take sizeof_Ehdr file) 28 4). pose proof (member_range (take sizeof_Ehdr file) 44 2).
  change (member (take sizeof_Ehdr file) 28 4) with (e_phoff (headerOf file)) in *.
  change (member (take sizeof_Ehdr file) 44 2) with (e_phnum (headerOf file)) in *.
  rewrite length_fread_at by lia.
  replace (Z.to_nat (32 * e_phnum (headerOf file))) with (Z.to_nat (e_phnum (headerOf file)) * sizeof_Phdr)%nat
    by (unfold sizeof_Phdr; lia).
  rewrite Nat.div_mul by discriminate. rewrite Z2Nat.id, Z.eqb_refl by lia. cbn [negb].
  replace (as_Phdrs _ (fread_at _ _ _)) with (segmentsOf file); [reflexivity |].
  unfold segmentsOf, fread_at. rewrite <- as_Phdrs_take. do 2 f_equal. unfold sizeof_Phdr. lia.
Qed.

Lemma loadedByte_range (file : list Z) (a b : Z) (phs : list Elf32_Phdr) :
  Forall (λ b, 0 ≤ b < 256) file → 0 ≤ b < 256 → 0 ≤ foldl (segmentByte file a) b phs < 256.
Proof.
  intros HF. revert b. induction phs as [| ph phs IH]; intros b Hb; cbn [foldl]; [exact Hb |].
  apply IH. unfold segmentByte. destruct (_ && _); [| exact Hb].
  destruct (file !! _) as [x |] eqn:E; [| exact Hb]. exact (Forall_lookup_1 _ _ _ _ HF E).
Qed.

(** The image [main] builds. *)
Lemma image_of_executable (file : list Z) (BaseAddress : Z) :
  executable file BaseAddress →
  ∃ image, Z.of_nat (length image) = topAddress (segmentsOf file) - BaseAddress ∧
    (∀ i, (i < length image)%nat →
       image !! i = Some (loadedByte file (segmentsOf file) (BaseAddress + Z.of_nat i))) ∧
    Forall (λ b, 0 ≤ b < 256) image ∧
    ∀ available, (∀ n, available n = true) →
    main available true (Some file) BaseAddress =
      Ret (mkRun 0 "" (Some (printImage 0
        (write_at 0 (le_bytes 4 (jumpWord (e_entry (headerOf file)) BaseAddress)) image)))).
Proof.
  intros [HR HBy HB HS HT HE HA].
  pose proof (as_Phdrs_range (Z.to_nat (e_phnum (headerOf file))) (drop (Z.to_nat (e_phoff (headerOf file))) file)) as HRng.
  fold (segmentsOf file) in HRng.
  destruct (highest_spec file BaseAddress 0 0 (segmentsOf file) HRng HS ltac:(lia)) as [Hh H32].
  change (foldl _ 0 (segmentsOf file)) with (topAddress (segmentsOf file)) in Hh, H32.
  set (top := topAddress (segmentsOf file)) in *.
  set (zero := replicate (Z.to_nat (top - BaseAddress)) 0).
  destruct (readSegments_spec file BaseAddress (segmentsOf file) 0 zero HRng HS) as (image & Hi & HL & HBs).
  { intros ph Hin Ht. pose proof (topAddress_load (segmentsOf file) 0 ph Hin Ht) as Hle.
    change (foldl _ 0 (segmentsOf file)) with top in Hle. unfold zero. rewrite length_replicate. lia. }
  assert (HBi : ∀ i, (i < length image)%nat →
    image !! i = Some (loadedByte file (segmentsOf file) (BaseAddress + Z.of_nat i))).
  { intros i Hlt. apply HBs. unfold zero. apply lookup_replicate_2. rewrite HL in Hlt.
    unfold zero in Hlt. rewrite length_replicate in Hlt. exact Hlt. }
  assert (HLz : length image = Z.to_nat (top - BaseAddress)) by (rewrite HL; apply length_replicate).
  exists image. split; [lia |]. split; [exact HBi |]. split.
  { apply Forall_lookup_2. intros i b Hb. rewrite HBi in Hb by (eapply lookup_lt_Some; exact Hb).
    injection Hb as <-. apply loadedByte_range; [exact HBy | lia]. }
  intros available Hav. rewrite main_readable by (exact HR || apply Hav). rewrite Hh. cbn zeta.
  rewrite Hav, uint_small by lia. cbn [negb]. fold zero. rewrite Hi, outcome_bind_ret. unfold patchEntry.
  rewrite decide_True by lia. reflexivity.
Qed.

(** C16. An executable whose segments fit becomes the text of the memory it
    would be loaded to: [$readmemh] gives back an image that ends at the highest
    segment, holds at every address past the first word the byte of the last
    segment covering it (zero where only memory is reserved), and starts with
    the bytes the code emitter gives a branch; the disassembler takes them to
    the entry point. *)
Theorem main_loads_executable (file : list Z) (BaseAddress : Z) (available : Z → bool)
    (OpInfo : Nyuzi.opcode → list OperandType) :
  executable file BaseAddress → (∀ n, available n = true) →
  OpInfo Nyuzi.B !! 0%nat = Some OPERAND_UNKNOWN →
  ∃ text image entryWord,
    main available true (Some file) BaseAddress = Ret (mkRun 0 "" (Some text)) ∧
    readmemh None text = beWords image ∧
    Z.of_nat (length image) = topAddress (segmentsOf file) - BaseAddress ∧
    (∀ i, (4 ≤ i < length image)%nat →
       image !! i = Some (loadedByte file (segmentsOf file) (BaseAddress + Z.of_nat i))) ∧
    take 4 image = le_bytes 4 entryWord ∧
    formatBinaryCode (branch_inst Nyuzi.B (Nyuzi.S 0)
      (kImmediate ((e_entry (headerOf file) - BaseAddress) / 4))) [] = Ret (entryWord, []) ∧
    (∀ selectOpcode instr Size, selectOpcode entryWord = Some Nyuzi.B →
       ∃ MI, getInstruction selectOpcode None instr Size (take 4 image) BaseAddress = Ret (Success, 4, MI) ∧
         evaluateBranch OpInfo MI BaseAddress 4 = Ret (Some (e_entry (headerOf file)))).
Proof.
  intros HX Hav HO. destruct (image_of_executable file BaseAddress HX) as (image & HL & HB & HBy & Hm).
  destruct HX as [HR _ HB0 HS HT HE HA]. set (entry := e_entry (headerOf file)) in *.
  assert (H4 : (0 + length (le_bytes 4 (jumpWord entry BaseAddress)) ≤ length image)%nat)
    by (rewrite length_le_bytes; lia).
  eexists _, _, (jumpWord entry BaseAddress). split; [apply Hm, Hav |]. split; [| split; [| split; [| split; [| split]]]].
  - apply (printImage_readmemh (length image) 0); [rewrite length_write_at by exact H4; lia |].
    unfold write_at. rewrite !Forall_app. split; [constructor |]. split; [apply le_bytes_range |].
    apply Forall_drop, HBy.
  - rewrite length_write_at by exact H4. exact HL.
  - rewrite length_write_at by exact H4. intros i Hi.
    rewrite write_at_outside by (rewrite ?length_le_bytes in *; lia). apply HB. lia.
  - unfold write_at. rewrite take_0, app_nil_l. apply take_app_length'. symmetry. apply length_le_bytes.
  - apply jumpWord_branch. exact HE.
  - pose proof (jumpWord_branch entry BaseAddress [] HE) as HW.
    destruct (branch_inst_valid Nyuzi.B (Nyuzi.S 0) ((entry - BaseAddress) / 4) eq_refl eq_refl) as [HV Hseen].
    { change (in_sint 25 ((entry - BaseAddress) / 4) = true). pose proof (Z.div_pos (entry - BaseAddress) 4 ltac:(lia) ltac:(lia)).
      pose proof (Z.div_lt_upper_bound (entry - BaseAddress) 4 (2 ^ 24) ltac:(lia) ltac:(lia)).
      apply in_sint_spec. change (2 ^ (25 - 1)) with (2 ^ 24). lia. }
    destruct (formatBinaryCode_valid _ [] HV) as (f & w & Hf & HEn & Hw & _ & Hdec).
    rewrite HW in HEn. injection HEn as HEn. rewrite <- HEn in *. clear HEn w.
    intros sel instr Size Hsel. eexists. split.
    + unfold write_at. rewrite take_0, app_nil_l, take_app_length' by (symmetry; apply length_le_bytes).
      unfold getInstruction. rewrite <- (app_nil_r (le_bytes 4 _)), readInstruction32_bytes, outcome_bind_ret.
      rewrite uint_small, decide_False by (exact Hw || discriminate). unfold decodeInstruction.
      rewrite Hsel. cbn [branch_inst Opcode] in Hf. rewrite Hf. cbn [branch_inst Opcode] in Hdec.
      rewrite Hdec, outcome_bind_ret, decide_False by discriminate. reflexivity.
    + rewrite Hseen. unfold evaluateBranch. rewrite (Z2Nat_pred_of_nat (length _)).
      cbn -[Z.div Z.pow Z.mul uint entry]. rewrite HO. cbn -[Z.div Z.pow Z.mul uint entry].
      pose proof (member_range (take sizeof_Ehdr file) 24 4) as Hr.
      change (member _ 24 4) with entry in Hr. change (8 * Z.of_nat 4) with 32 in Hr. pose proof (Z_div_mod_eq_full (entry - BaseAddress) 4).
      assert (HE4 : BaseAddress + 4 * ((entry - BaseAddress) / 4) = entry) by lia.
      transitivity (Ret (Some (u64 (BaseAddress + 4 * ((entry - BaseAddress) / 4))))); [reflexivity |].
      rewrite HE4, uint_small by lia. reflexivity.
Qed.

(** A program of two segments at 0x1000: [code] with the entry in its middle,
    and twelve bytes of data of which four are in the file. *)
Definition phdr_bytes (type off vaddr filesz memsz : Z) : list Z :=
  le_bytes 4 type ++ le_bytes 4 off ++ le_bytes 4 vaddr ++ le_bytes 4 vaddr ++
  le_bytes 4 filesz ++ le_bytes 4 memsz ++ le_bytes 4 7 ++ le_bytes 4 4.

Definition elf_bytes (machine entry : Z) (phdrs : list (list Z)) (contents : list Z) : list Z :=
  (ElfMagic ++ [1; 1; 1; 0] ++ replicate 8 0) ++ le_bytes 2 2 ++ le_bytes 2 machine ++ le_bytes 4 1 ++
  le_bytes 4 entry ++ le_bytes 4 52 ++ le_bytes 4 0 ++ le_bytes 4 0 ++ le_bytes 2 52 ++ le_bytes 2 32 ++
  le_bytes 2 (Z.of_nat (length phdrs)) ++ le_bytes 2 40 ++ le_bytes 2 0 ++ le_bytes 2 0 ++
  concat phdrs ++ contents.

Definition sample : list Z :=
  elf_bytes EM_NYUZI 0x1008 [phdr_bytes PT_LOAD 116 0x1000 12 12; phdr_bytes PT_LOAD 128 0x100c 4 12]
    [1; 2; 3; 4; 5; 6; 7; 8; 9; 10; 11; 12; 222; 173; 190; 239].

Example sample_text :
  main (λ _, true) true (Some sample) 0x1000 =
    Ret (mkRun 0 "" (Some ("020000f6" +:+ String newline ("05060708" +:+ String newline ("090a0b0c" +:+
      String newline ("deadbeef" +:+ String newline ("00000000" +:+ String newline ("00000000" +:+
      String newline ""))))))))%string.
Proof. reflexivity. Qed.

Lemma sample_executable : executable sample 0x1000.
Proof.
  split; [split | | | | | |]; try reflexivity; try (vm_compute; lia); try (vm_compute; split; congruence).
  all: vm_compute; repeat constructor; discriminate.
Qed.

Example main_loads_executable_witness :
  ∃ text image entryWord,
    main (λ _, true) true (Some sample) 0x1000 = Ret (mkRun 0 "" (Some text)) ∧
    readmemh None text = beWords image ∧
    Z.of_nat (length image) = topAddress (segmentsOf sample) - 0x1000 ∧
    (∀ i, (4 ≤ i < length image)%nat →
       image !! i = Some (loadedByte sample (segmentsOf sample) (0x1000 + Z.of_nat i))) ∧
    take 4 image = le_bytes 4 entryWord ∧
    formatBinaryCode (branch_inst Nyuzi.B (Nyuzi.S 0)
      (kImmediate ((e_entry (headerOf sample) - 0x1000) / 4))) [] = Ret (entryWord, []) ∧
    (∀ selectOpcode instr Size, selectOpcode entryWord = Some Nyuzi.B →
       ∃ MI, getInstruction selectOpcode None instr Size (take 4 image) 0x1000 = Ret (Success, 4, MI) ∧
         evaluateBranch (λ _, [OPERAND_UNKNOWN]) MI 0x1000 4 = Ret (Some (e_entry (headerOf sample)))).
Proof.
  apply (main_loads_executable sample 0x1000 (λ _, true) (λ _, [OPERAND_UNKNOWN]) sample_executable); reflexivity.
Defined.

(** Nothing compares the file part of a segment with the memory it is
    given: a load segment whose [p_filesz] is larger than its [p_memsz], all of
    it in the file, makes [main] write past the end of the image it allocated. *)
Theorem oversized_segment_overflows (file : list Z) (BaseAddress : Z) (ph : Elf32_Phdr)
    (available : Z → bool) (canWrite : bool) :
  readable file → segmentsOf file = [ph] → (∀ n, available n = true) → 0 ≤ BaseAddress →
  p_type ph = PT_LOAD → BaseAddress ≤ p_vaddr ph → p_vaddr ph + p_memsz ph < 2 ^ 32 →
  p_memsz ph < p_filesz ph → p_offset ph + p_filesz ph ≤ Z.of_nat (length file) →
  main available canWrite (Some file) BaseAddress = UndefinedBehaviour "fread past the end of memoryImage".
Proof.
  intros HR HS Hav HB HT HV H32 Hsz Hf. rewrite main_readable by (exact HR || apply Hav). rewrite HS.
  pose proof (as_Phdrs_range (Z.to_nat (e_phnum (headerOf file))) (drop (Z.to_nat (e_phoff (headerOf file))) file)) as HRng.
  fold (segmentsOf file) in HRng. rewrite HS in HRng. apply Forall_inv in HRng as (Ho & Hv & Hfr & Hm).
  cbn [highest]. rewrite HT, Z.eqb_refl. rewrite (uint_small 32 (p_vaddr ph + p_memsz ph)) by lia.
  destruct (p_vaddr ph <? BaseAddress) eqn:E; [lia |]. cbn zeta.
  set (top := if 0 <? p_vaddr ph + p_memsz ph then p_vaddr ph + p_memsz ph else 0).
  assert (Htop : top = p_vaddr ph + p_memsz ph) by (unfold top; destruct (0 <? _) eqn:E'; lia).
  rewrite Hav. cbn [negb readSegments]. rewrite HT, Z.eqb_refl.
  unfold readSegment.
  pose proof (length_fread_at file (p_offset ph) (p_filesz ph) ltac:(lia) ltac:(lia) ltac:(lia)) as HL.
  rewrite decide_False; [reflexivity |]. intros [Hn | Hn].
  - rewrite Hn in HL. cbn in HL. lia.
  - rewrite HL, length_replicate in Hn. rewrite uint_small in Hn by lia. lia.
Qed.

Definition oversized : list Z :=
  elf_bytes EM_NYUZI 0x1000 [phdr_bytes PT_LOAD 84 0x1000 8 4] [1; 2; 3; 4; 5; 6; 7; 8].

Example oversized_segment_overflows_witness :
  main (λ _, true) true (Some oversized) 0 = UndefinedBehaviour "fread past the end of memoryImage".
Proof.
  apply (oversized_segment_overflows oversized 0 (mkPhdr 1 84 0x1000 0x1000 8 4 7 4) (λ _, true) true).
  - split; try reflexivity; vm_compute; [lia | discriminate | discriminate].
  - reflexivity.
  - reflexivity.
  - lia.
  - reflexivity.
  - cbn. lia.
  - reflexivity.
  - reflexivity.
  - vm_compute. discriminate.
Defined.

(** An entry point below the base address, or too far above it, is shifted into
    the bits of the opcode and of the sign: the quotient is not masked. *)
Example entry_below_base : jumpWord 0x1000 0x2000 = 0xfffffc00.
Proof. reflexivity. Qed.

(** With no load segment at base 0 the image is empty and the jump is stored
    past its end. *)
Example no_segment_overflows :
  main (λ _, true) true (Some (elf_bytes EM_NYUZI 0 [] [])) 0 =
    UndefinedBehaviour "store past the end of memoryImage".
Proof. reflexivity. Qed.
