(* ===== verification/ClangNyuzi.v ===== *)
(** * ClangNyuzi: the builtins and the inline assembly of the C compiler

    [Builtins]: CodeGenFunction::EmitNyuziBuiltinExpr of
    tools/clang/lib/CodeGen/CGBuiltin.cpp, over the tables BuiltinsNyuzi.def and
    IntrinsicsNyuzi.td.  The code of an argument ([EmitScalarExpr]) is one
    element of the list of what has been emitted, so that its order and its
    number are visible.
    [InlineAsm]: NyuziTargetInfo of tools/clang/lib/Basic/Targets/Nyuzi.{h,cpp}
    against the constraint hooks of the back end. *)
From S2P Require Import Prelude NyuziTarget NyuziISelDAG NyuziMCInstLower NyuziAsmParser NyuziISelLowering.
From Stdlib Require Import Ascii.

Module Builtins.

(** The types that occur in the two tables, as [ConvertType] gives them. *)
Inductive IRType : Type := Void | Int16 | Int32 | V16i1 | V16i32 | V16f32 | V16i32Ptr.

#[global] Instance IRType_eq_dec : EqDecision IRType.
Proof. solve_decision. Defined.

(** [BI__builtin_nyuzi_...], in the order of BuiltinsNyuzi.def *)
Inductive BuiltinID : Type :=
  | read_control_reg | write_control_reg | vector_mixi | vector_mixf | shufflei | shufflef
  | gather_loadi | gather_loadi_masked | scatter_storei | scatter_storei_masked | block_storei_masked
  | gather_loadf | gather_loadf_masked | scatter_storef | scatter_storef_masked | block_storef_masked
  | mask_cmpi_ugt | mask_cmpi_uge | mask_cmpi_ult | mask_cmpi_ule
  | mask_cmpi_sgt | mask_cmpi_sge | mask_cmpi_slt | mask_cmpi_sle | mask_cmpi_eq | mask_cmpi_ne
  | mask_cmpf_gt | mask_cmpf_ge | mask_cmpf_lt | mask_cmpf_le | mask_cmpf_eq | mask_cmpf_ne.

#[global] Instance BuiltinID_eq_dec : EqDecision BuiltinID.
Proof. solve_decision. Defined.

(** The type strings of BuiltinsNyuzi.def: result and parameters. *)
Definition BuiltinInfo (b : BuiltinID) : IRType * list IRType :=
  match b with
  | read_control_reg => (Int32, [Int32])
  | write_control_reg => (Void, [Int32; Int32])
  | vector_mixi => (V16i32, [Int16; V16i32; V16i32])
  | vector_mixf => (V16f32, [Int16; V16f32; V16f32])
  | shufflei => (V16i32, [V16i32; V16i32])
  | shufflef => (V16f32, [V16f32; V16i32])
  | gather_loadi => (V16i32, [V16i32])
  | gather_loadi_masked => (V16i32, [V16i32; Int16])
  | scatter_storei => (Void, [V16i32; V16i32])
  | scatter_storei_masked => (Void, [V16i32; V16i32; Int16])
  | block_storei_masked => (Void, [V16i32Ptr; V16i32; Int16])
  | gather_loadf => (V16f32, [V16i32])
  | gather_loadf_masked => (V16f32, [V16i32; Int16])
  | scatter_storef => (Void, [V16i32; V16f32])
  | scatter_storef_masked => (Void, [V16i32; V16f32; Int16])
  | block_storef_masked => (Void, [V16i32Ptr; V16f32; Int16])
  | mask_cmpi_ugt | mask_cmpi_uge | mask_cmpi_ult | mask_cmpi_ule
  | mask_cmpi_sgt | mask_cmpi_sge | mask_cmpi_slt | mask_cmpi_sle | mask_cmpi_eq | mask_cmpi_ne =>
      (Int16, [V16i32; V16i32])
  | mask_cmpf_gt | mask_cmpf_ge | mask_cmpf_lt | mask_cmpf_le | mask_cmpf_eq | mask_cmpf_ne =>
      (Int16, [V16f32; V16f32])
  end.

(** [Intrinsic::nyuzi_...] with the signatures of IntrinsicsNyuzi.td *)
Inductive IntrinsicID : Type :=
  | nyuzi_read_control_reg | nyuzi_write_control_reg | nyuzi_gather_loadi | nyuzi_gather_loadf
  | nyuzi_gather_loadi_masked | nyuzi_gather_loadf_masked | nyuzi_scatter_storei | nyuzi_scatter_storef
  | nyuzi_scatter_storei_masked | nyuzi_scatter_storef_masked | nyuzi_block_storei_masked
  | nyuzi_block_storef_masked | nyuzi_shufflei | nyuzi_shufflef.

Definition IntrinsicInfo (i : IntrinsicID) : IRType * list IRType :=
  match i with
  | nyuzi_read_control_reg => (Int32, [Int32])
  | nyuzi_write_control_reg => (Void, [Int32; Int32])
  | nyuzi_gather_loadi => (V16i32, [V16i32])
  | nyuzi_gather_loadf => (V16f32, [V16i32])
  | nyuzi_gather_loadi_masked => (V16i32, [V16i32; V16i1])
  | nyuzi_gather_loadf_masked => (V16f32, [V16i32; V16i1])
  | nyuzi_scatter_storei => (Void, [V16i32; V16i32])
  | nyuzi_scatter_storef => (Void, [V16i32; V16f32])
  | nyuzi_scatter_storei_masked => (Void, [V16i32; V16i32; V16i1])
  | nyuzi_scatter_storef_masked => (Void, [V16i32; V16f32; V16i1])
  | nyuzi_block_storei_masked => (Void, [V16i32Ptr; V16i32; V16i1])
  | nyuzi_block_storef_masked => (Void, [V16i32Ptr; V16f32; V16i1])
  | nyuzi_shufflei => (V16i32, [V16i32; V16i32])
  | nyuzi_shufflef => (V16f32, [V16f32; V16i32])
  end.

Inductive ICmpPredicate : Type :=
  ICMP_EQ | ICMP_NE | ICMP_UGT | ICMP_UGE | ICMP_ULT | ICMP_ULE | ICMP_SGT | ICMP_SGE | ICMP_SLT | ICMP_SLE.
Inductive FCmpPredicate : Type := FCMP_OGT | FCMP_OGE | FCMP_OLT | FCMP_OLE | FCMP_OEQ | FCMP_ONE.

(** A value of the emitted code.  [ScalarExpr n i] is what the code of argument
    [i] computed when it was emitted as the [n]-th. *)
Inductive IRValue : Type :=
  | ScalarExpr (n i : nat)
  | Select (C T F : IRValue)
  | ICmp (P : ICmpPredicate) (LHS RHS : IRValue)
  | FCmp (P : FCmpPredicate) (LHS RHS : IRValue)
  | BitCast (V : IRValue) (DestTy : IRType)
  | Call (F : IntrinsicID) (Args : list IRValue).

(** What has been emitted for arguments, in order. *)
Definition trace : Type := list nat.

Definition M (A : Type) : Type := trace → outcome (A * trace).
#[global] Instance M_ret : MRet M := λ A a tr, Ret (a, tr).
#[global] Instance M_bind : MBind M := λ A B k m tr, m tr ≫= λ '(a, tr), k a tr.

(** [EmitScalarExpr(E->getArg(i))] of a call with [NumArgs] arguments *)
Definition EmitScalarExpr (NumArgs i : nat) : M IRValue := λ tr,
  if decide (i < NumArgs)%nat then Ret (ScalarExpr (length tr) i, tr ++ [i])
  else AssertFail "Arg access out of range!".

(** [Ops[i]] *)
Definition at_ops (Ops : list IRValue) (i : nat) : M IRValue := λ tr,
  match Ops !! i with Some v => Ret (v, tr) | None => AssertFail "idx < size()" end.

Definition MaskToInt16 (Mask : IRValue) : IRValue := BitCast Mask Int16.
Definition Int16ToMask (IntVal : IRValue) : IRValue := BitCast IntVal V16i1.

(** [for (i = 0; i < E->getNumArgs(); i++) Ops.push_back(EmitScalarExpr(E->getArg(i)));] *)
Fixpoint emitArgs (NumArgs i n : nat) (Ops : list IRValue) : M (list IRValue) :=
  match n with
  | O => mret Ops
  | S n => EmitScalarExpr NumArgs i ≫= λ v, emitArgs NumArgs (S i) n (Ops ++ [v])
  end.

(** The comparison of the first [switch]; [None]: no case of it. *)
Definition icmpOf (ID : BuiltinID) : option ICmpPredicate :=
  match ID with
  | mask_cmpi_ugt => Some ICMP_UGT
  | mask_cmpi_uge => Some ICMP_UGE
  | mask_cmpi_ult => Some ICMP_ULT
  | mask_cmpi_ule => Some ICMP_ULE
  | mask_cmpi_sgt => Some ICMP_SGT
  | mask_cmpi_sge => Some ICMP_SGE
  | mask_cmpi_slt => Some ICMP_SLT
  | mask_cmpi_sle => Some ICMP_SLE
  | mask_cmpi_eq => Some ICMP_EQ
  | mask_cmpi_ne => Some ICMP_NE
  | _ => None
  end.

Definition fcmpOf (ID : BuiltinID) : option FCmpPredicate :=
  match ID with
  | mask_cmpf_gt => Some FCMP_OGT
  | mask_cmpf_ge => Some FCMP_OGE
  | mask_cmpf_lt => Some FCMP_OLT
  | mask_cmpf_le => Some FCMP_OLE
  | mask_cmpf_eq => Some FCMP_OEQ
  | mask_cmpf_ne => Some FCMP_ONE
  | _ => None
  end.

(** The second [switch]: builtins that are intrinsics. *)
Definition directIntrinsic (ID : BuiltinID) : option IntrinsicID :=
  match ID with
  | read_control_reg => Some nyuzi_read_control_reg
  | write_control_reg => Some nyuzi_write_control_reg
  | shufflei => Some nyuzi_shufflei
  | shufflef => Some nyuzi_shufflef
  | gather_loadi => Some nyuzi_gather_loadi
  | gather_loadf => Some nyuzi_gather_loadf
  | scatter_storei => Some nyuzi_scatter_storei
  | scatter_storef => Some nyuzi_scatter_storef
  | _ => None
  end.

(** The third [switch]: the masked memory operations, each with its arguments
    emitted once more. *)
Definition emitMaskedMemory (ID : BuiltinID) (NumArgs : nat) : M IRValue :=
  v0 ← EmitScalarExpr NumArgs 0;
  let loadMasked F : M IRValue :=
    m ← EmitScalarExpr NumArgs 1; mret (Call F [v0; Int16ToMask m]) in
  let store F : M IRValue :=
    v1 ← EmitScalarExpr NumArgs 1; mret (Call F [v0; v1]) in
  let storeMasked F : M IRValue :=
    v1 ← EmitScalarExpr NumArgs 1; m ← EmitScalarExpr NumArgs 2; mret (Call F [v0; v1; Int16ToMask m]) in
  match ID return M IRValue with
  | gather_loadi_masked => loadMasked nyuzi_gather_loadi_masked
  | gather_loadf_masked => loadMasked nyuzi_gather_loadf_masked
  | scatter_storef => store nyuzi_scatter_storef
  | scatter_storei => store nyuzi_scatter_storei
  | scatter_storei_masked => storeMasked nyuzi_scatter_storei_masked
  | scatter_storef_masked => storeMasked nyuzi_scatter_storef_masked
  | block_storei_masked => storeMasked nyuzi_block_storei_masked
  | block_storef_masked => storeMasked nyuzi_block_storef_masked
  | _ => λ _, Unreachable "Unknown builtin"
  end.

Definition EmitNyuziBuiltinExpr (ID : BuiltinID) (NumArgs : nat) : M IRValue :=
  Ops ← emitArgs NumArgs 0 NumArgs [];
  if bool_decide (ID = vector_mixi ∨ ID = vector_mixf) then
    o0 ← at_ops Ops 0; o1 ← at_ops Ops 1; o2 ← at_ops Ops 2; mret (Select (Int16ToMask o0) o1 o2)
  else
    match icmpOf ID, fcmpOf ID with
    | Some P, _ => o0 ← at_ops Ops 0; o1 ← at_ops Ops 1; mret (MaskToInt16 (ICmp P o0 o1))
    | None, Some P => o0 ← at_ops Ops 0; o1 ← at_ops Ops 1; mret (MaskToInt16 (FCmp P o0 o1))
    | None, None =>
        match directIntrinsic ID with
        | Some F => mret (Call F Ops)
        | None => emitMaskedMemory ID NumArgs
        end
    end.

(** ** Types *)

(** The type of a value when argument [i] has type [params !! i]; [None] where
    an assertion of the constructors of the instructions fails. *)
Fixpoint typeOf (params : list IRType) (v : IRValue) : option IRType :=
  match v with
  | ScalarExpr _ i => params !! i
  | Select C T F =>
      match typeOf params C, typeOf params T, typeOf params F with
      | Some V16i1, Some t, Some f => if decide (t = f ∧ (t = V16i32 ∨ t = V16f32)) then Some t else None
      | _, _, _ => None
      end
  | ICmp _ a b =>
      match typeOf params a, typeOf params b with Some V16i32, Some V16i32 => Some V16i1 | _, _ => None end
  | FCmp _ a b =>
      match typeOf params a, typeOf params b with Some V16f32, Some V16f32 => Some V16i1 | _, _ => None end
  | BitCast v ty =>
      match typeOf params v, ty with Some V16i1, Int16 => Some Int16 | Some Int16, V16i1 => Some V16i1 | _, _ => None end
  | Call F args =>
      if decide (map (typeOf params) args = map Some (IntrinsicInfo F).2) then Some (IntrinsicInfo F).1 else None
  end.

(** ** Values *)

(** Run-time values: an integer, the lanes of a vector (bits of the lane), the
    lanes of a mask. *)
Inductive RValue : Type := RInt (z : Z) | RVec (l : list Z) | RMask (l : list bool).

Definition icmp (P : ICmpPredicate) (x y : Z) : bool :=
  match P with
  | ICMP_EQ => u32 x =? u32 y
  | ICMP_NE => negb (u32 x =? u32 y)
  | ICMP_UGT => u32 y <? u32 x
  | ICMP_UGE => u32 y <=? u32 x
  | ICMP_ULT => u32 x <? u32 y
  | ICMP_ULE => u32 x <=? u32 y
  | ICMP_SGT => i32 y <? i32 x
  | ICMP_SGE => i32 y <=? i32 x
  | ICMP_SLT => i32 x <? i32 y
  | ICMP_SLE => i32 x <=? i32 y
  end.

(** The ordered predicates: false when an operand is not a number. *)
Definition fcmp (P : FCmpPredicate) (x y : Z) : bool :=
  match float_compare x y with
  | None => false
  | Some c =>
      match P, c with
      | FCMP_OGT, Gt | FCMP_OGE, (Gt | Eq) | FCMP_OLT, Lt | FCMP_OLE, (Lt | Eq) | FCMP_OEQ, Eq
      | FCMP_ONE, (Lt | Gt) => true
      | _, _ => false
      end
  end.

(** [bitcast] between a mask and an integer on a little-endian target: lane [i]
    is bit [i]. *)
Fixpoint mask_bits (l : list bool) : Z :=
  match l with [] => 0 | b :: l => Z.b2z b + 2 * mask_bits l end.

Definition bits_mask (z : Z) : list bool := map (λ i, Z.testbit z (Z.of_nat i)) (seq 0 16).

(** The value computed from what each emission of an argument gave; calls are
    not evaluated here. *)
Fixpoint evaluate (env : nat → nat → RValue) (v : IRValue) : option RValue :=
  match v with
  | ScalarExpr n i => Some (env n i)
  | Select C T F =>
      match evaluate env C, evaluate env T, evaluate env F with
      | Some (RMask m), Some (RVec t), Some (RVec f) =>
          Some (RVec (zip_with (λ (b : bool) '(x, y), if b then x else y) m (zip t f)))
      | _, _, _ => None
      end
  | ICmp P a b =>
      match evaluate env a, evaluate env b with
      | Some (RVec x), Some (RVec y) => Some (RMask (zip_with (icmp P) x y))
      | _, _ => None
      end
  | FCmp P a b =>
      match evaluate env a, evaluate env b with
      | Some (RVec x), Some (RVec y) => Some (RMask (zip_with (fcmp P) x y))
      | _, _ => None
      end
  | BitCast v ty =>
      match evaluate env v, ty with
      | Some (RMask m), Int16 => Some (RInt (mask_bits m))
      | Some (RInt z), V16i1 => Some (RMask (bits_mask z))
      | _, _ => None
      end
  | Call _ _ => None
  end.

(** What each comparison builtin asks of the lanes. *)
Definition laneRelation (b : BuiltinID) : option (Z → Z → bool) :=
  match b with
  | mask_cmpi_ugt => Some (λ x y, u32 y <? u32 x)
  | mask_cmpi_uge => Some (λ x y, u32 y <=? u32 x)
  | mask_cmpi_ult => Some (λ x y, u32 x <? u32 y)
  | mask_cmpi_ule => Some (λ x y, u32 x <=? u32 y)
  | mask_cmpi_sgt => Some (λ x y, i32 y <? i32 x)
  | mask_cmpi_sge => Some (λ x y, i32 y <=? i32 x)
  | mask_cmpi_slt => Some (λ x y, i32 x <? i32 y)
  | mask_cmpi_sle => Some (λ x y, i32 x <=? i32 y)
  | mask_cmpi_eq => Some (λ x y, u32 x =? u32 y)
  | mask_cmpi_ne => Some (λ x y, negb (u32 x =? u32 y))
  | mask_cmpf_gt => Some (λ x y, match float_compare x y with Some Gt => true | _ => false end)
  | mask_cmpf_ge => Some (λ x y, match float_compare x y with Some (Gt | Eq) => true | _ => false end)
  | mask_cmpf_lt => Some (λ x y, match float_compare x y with Some Lt => true | _ => false end)
  | mask_cmpf_le => Some (λ x y, match float_compare x y with Some (Lt | Eq) => true | _ => false end)
  | mask_cmpf_eq => Some (λ x y, match float_compare x y with Some Eq => true | _ => false end)
  | mask_cmpf_ne => Some (λ x y, match float_compare x y with Some (Lt | Gt) => true | _ => false end)
  | _ => None
  end.

Lemma testbit_mask_bits (l : list bool) (i : nat) :
  Z.testbit (mask_bits l) (Z.of_nat i) = default false (l !! i).
Proof.
  revert i. induction l as [| b l IH]; intros i; cbn [mask_bits]; [apply Z.testbit_0_l |].
  rewrite (Z.add_comm (Z.b2z b)). destruct i as [| i].
  - cbn [lookup list_lookup default from_option]. apply Z.testbit_0_r.
  - rewrite Nat2Z.inj_succ, Z.testbit_succ_r by lia. apply IH.
Qed.

Lemma mask_bits_range (l : list bool) : 0 ≤ mask_bits l < 2 ^ Z.of_nat (length l).
Proof.
  induction l as [| b l IH]; cbn [mask_bits length]; [cbn; lia |].
  rewrite Nat2Z.inj_succ, Z.pow_succ_r by lia. destruct b; cbn [Z.b2z]; lia.
Qed.

(** The comparison of a builtin is the one of its predicate. *)
Lemma laneRelation_predicate (b : BuiltinID) (R : Z → Z → bool) :
  laneRelation b = Some R →
  (∃ P, icmpOf b = Some P ∧ fcmpOf b = None ∧ ∀ x y, icmp P x y = R x y) ∨
  (∃ P, icmpOf b = None ∧ fcmpOf b = Some P ∧ ∀ x y, fcmp P x y = R x y).
Proof.
  intros H. destruct b; try discriminate H; apply Some_inj in H; subst R;
    lazymatch goal with |- (∃ P, icmpOf ?b = _ ∧ _) ∨ _ =>
      let i := eval cbv in (icmpOf b) in let f := eval cbv in (fcmpOf b) in
      lazymatch constr:((i, f)) with
      | (Some ?P, _) => left; exists P; split; [reflexivity |]; split; [reflexivity |]; intros x y; reflexivity
      | (_, Some ?P) => right; exists P; split; [reflexivity |]; split; [reflexivity |]; intros x y;
          unfold fcmp; destruct (float_compare x y) as [[] |]; reflexivity
      end
    end.
Qed.

(** The comparison builtins give a 16-bit integer whose bit [i] tells
    whether lane [i] of the operands is in the relation the name says (unsigned,
    signed, or ordered float); the mix builtins take each lane from the second
    operand where its bit is set and from the third where it is not. *)
Theorem mask_builtins_correct (b : BuiltinID) (env : nat → nat → RValue) :
  (∀ R x y, laneRelation b = Some R → env 0%nat 0%nat = RVec x → env 1%nat 1%nat = RVec y →
     length x = 16%nat → length y = 16%nat →
     ∃ v z, EmitNyuziBuiltinExpr b 2 [] = Ret (v, [0; 1]%nat) ∧ evaluate env v = Some (RInt z) ∧
       0 ≤ z < 2 ^ 16 ∧
       ∀ i p q, x !! i = Some p → y !! i = Some q → Z.testbit z (Z.of_nat i) = R p q) ∧
  (∀ m x y, b = vector_mixi ∨ b = vector_mixf →
     env 0%nat 0%nat = RInt m → env 1%nat 1%nat = RVec x → env 2%nat 2%nat = RVec y →
     length x = 16%nat → length y = 16%nat →
     ∃ v l, EmitNyuziBuiltinExpr b 3 [] = Ret (v, [0; 1; 2]%nat) ∧ evaluate env v = Some (RVec l) ∧
       length l = 16%nat ∧
       ∀ i p q, x !! i = Some p → y !! i = Some q →
         l !! i = Some (if Z.testbit m (Z.of_nat i) then p else q)).
Proof.
  split.
  - intros R x y HR Hx Hy Lx Ly.
    destruct (laneRelation_predicate b R HR) as [(P & H1 & H2 & HP) | (P & H1 & H2 & HP)].
    + exists (MaskToInt16 (ICmp P (ScalarExpr 0 0) (ScalarExpr 1 1))), (mask_bits (zip_with (icmp P) x y)).
      split; [destruct b; try discriminate H1; injection H1 as <-; reflexivity |].
      split; [cbn; rewrite Hx, Hy; reflexivity |]. split.
      { pose proof (mask_bits_range (zip_with (icmp P) x y)) as Hr.
        rewrite length_zip_with_l_eq, Lx in Hr by congruence. exact Hr. }
      intros i p q Hp Hq. rewrite testbit_mask_bits, lookup_zip_with, Hp. cbn. rewrite Hq. apply HP.
    + exists (MaskToInt16 (FCmp P (ScalarExpr 0 0) (ScalarExpr 1 1))), (mask_bits (zip_with (fcmp P) x y)).
      split; [destruct b; try discriminate H2; injection H2 as <-; reflexivity |].
      split; [cbn; rewrite Hx, Hy; reflexivity |]. split.
      { pose proof (mask_bits_range (zip_with (fcmp P) x y)) as Hr.
        rewrite length_zip_with_l_eq, Lx in Hr by congruence. exact Hr. }
      intros i p q Hp Hq. rewrite testbit_mask_bits, lookup_zip_with, Hp. cbn. rewrite Hq. apply HP.
  - intros m x y Hb Hm Hx Hy Lx Ly. eexists _, _. split; [destruct Hb as [-> | ->]; reflexivity |].
    split; [cbn -[bits_mask zip_with]; rewrite Hm, Hx, Hy; reflexivity |]. split.
    { rewrite length_zip_with_l_eq; [reflexivity |]. rewrite length_zip_with_l_eq by congruence.
      rewrite Lx. reflexivity. }
    intros i p q Hp Hq. rewrite lookup_zip_with. unfold bits_mask. rewrite list_lookup_fmap, lookup_seq_lt
      by (apply lookup_lt_Some in Hp; lia). cbn. rewrite lookup_zip_with, Hp. cbn. rewrite Hq. reflexivity.
Qed.

Definition lanes_0_15 : list Z := map Z.of_nat (seq 0 16).

Example mask_builtins_correct_witness :
  (∃ v z, EmitNyuziBuiltinExpr mask_cmpi_ugt 2 [] = Ret (v, [0; 1]%nat) ∧
     evaluate (λ _ i, RVec (if decide (i = 0%nat) then lanes_0_15 else replicate 16 7)) v = Some (RInt z) ∧
     0 ≤ z < 2 ^ 16 ∧
     ∀ i p q, lanes_0_15 !! i = Some p → replicate 16 7 !! i = Some q →
       Z.testbit z (Z.of_nat i) = (u32 q <? u32 p)) ∧
  (∃ v l, EmitNyuziBuiltinExpr vector_mixf 3 [] = Ret (v, [0; 1; 2]%nat) ∧
     evaluate (λ _ i, match i with O => RInt 5 | _ => RVec lanes_0_15 end) v = Some (RVec l) ∧
     length l = 16%nat ∧
     ∀ i p q, lanes_0_15 !! i = Some p → lanes_0_15 !! i = Some q →
       l !! i = Some (if Z.testbit 5 (Z.of_nat i) then p else q)).
Proof.
  split.
  - exact (proj1 (mask_builtins_correct mask_cmpi_ugt
      (λ _ i, RVec (if decide (i = 0%nat) then lanes_0_15 else replicate 16 7)))
      (λ x y, u32 y <? u32 x) lanes_0_15 (replicate 16 7) eq_refl eq_refl eq_refl eq_refl eq_refl).
  - exact (proj2 (mask_builtins_correct vector_mixf (λ _ i, match i with O => RInt 5 | _ => RVec lanes_0_15 end))
      5 lanes_0_15 lanes_0_15 (or_intror eq_refl) eq_refl eq_refl eq_refl eq_refl eq_refl).
Defined.

(** ** Calls and the code of the arguments *)

(** The builtins of the third [switch]. *)
Definition masked_memory (b : BuiltinID) : bool :=
  match b with
  | gather_loadi_masked | gather_loadf_masked | scatter_storei_masked | scatter_storef_masked
  | block_storei_masked | block_storef_masked => true
  | _ => false
  end.

(** Running the emitted code of arguments; [code i] is the effect of argument
    [i]. *)
Definition runArgs {State : Type} (code : nat → State → State) (tr : trace) (s : State) : State :=
  foldl (λ s i, code i s) s tr.

(** Every builtin called with as many arguments as it is declared with gives a
    value of its declared type: no assertion of the IR constructors fails, and
    the unreachable case is not reached. *)
Lemma EmitNyuziBuiltinExpr_typed (b : BuiltinID) :
  ∃ v, EmitNyuziBuiltinExpr b (length (BuiltinInfo b).2) [] =
         Ret (v, if masked_memory b then seq 0 (length (BuiltinInfo b).2) ++ seq 0 (length (BuiltinInfo b).2)
                 else seq 0 (length (BuiltinInfo b).2)) ∧
    typeOf (BuiltinInfo b).2 v = Some (BuiltinInfo b).1.
Proof.
  exists (match EmitNyuziBuiltinExpr b (length (BuiltinInfo b).2) [] with Ret (v, _) => v | _ => ScalarExpr 0 0 end).
  destruct b; split; reflexivity.
Qed.

(** Every builtin called as it is declared becomes IR of its declared type;
    the code of the arguments of a masked memory builtin is in the program twice
    ([Ops] first, then the operands of the call), so the effects of the
    arguments happen twice, once for every other builtin. *)
Theorem builtin_arguments_emitted {State : Type} (b : BuiltinID) (code : nat → State → State) (s : State) :
  ∃ v tr, EmitNyuziBuiltinExpr b (length (BuiltinInfo b).2) [] = Ret (v, tr) ∧
    typeOf (BuiltinInfo b).2 v = Some (BuiltinInfo b).1 ∧
    let once := runArgs code (seq 0 (length (BuiltinInfo b).2)) in
    runArgs code tr s = if masked_memory b then once (once s) else once s.
Proof.
  destruct (EmitNyuziBuiltinExpr_typed b) as (v & HE & HT). eexists v, _. split; [exact HE |]. split; [exact HT |].
  cbn zeta. destruct (masked_memory b); [| reflexivity]. unfold runArgs. apply foldl_app.
Qed.

(** [__builtin_nyuzi_gather_loadi_masked(ptrs, mask++)] adds two to [mask]. *)
Example argument_twice :
  match EmitNyuziBuiltinExpr gather_loadi_masked 2 [] with
  | Ret (_, tr) => runArgs (λ i mask, if decide (i = 1%nat) then mask + 1 else mask) tr 0
  | _ => 0
  end = 2.
Proof. reflexivity. Qed.

End Builtins.

Module InlineAsm.

(** [NyuziTargetInfo::GCCRegNames] *)
Definition GCCRegNames : list string :=
  map (λ i, String.append "s" (decimal i)) (seq 0 29) ++ ["fp"; "sp"; "ra"]%string ++
  map (λ i, String.append "v" (decimal i)) (seq 0 32).

(** What [validateAsmConstraint] tells of a constraint letter: [None] refuses
    it. *)
Inductive ConstraintInfo : Type := AllowsNothing | AllowsRegister | AllowsMemory.

Definition validateAsmConstraint (Name : ascii) : option ConstraintInfo :=
  match Name with
  | "s" | "v" => Some AllowsRegister
  | "I" | "J" | "K" | "L" | "M" => Some AllowsNothing
  | "Q" | "R" | "S" | "T" => Some AllowsMemory
  | _ => None
  end%char.

(** [TargetInfo::isValidGCCRegisterName] for a target without aliases or
    additional names: a prefix is dropped, a number is a position in the list. *)
Definition removeGCCRegisterPrefix (Name : string) : string :=
  match Name with String ("%" | "#") rest => rest | _ => Name end.

Definition isDigit (c : ascii) : bool := (48 <=? nat_of_ascii c)%nat && (nat_of_ascii c <=? 57)%nat.

(** [StringRef::getAsInteger(0, n)] on a name that starts with a digit: how
    strings of digits are read belongs to the Support library ([None]: not a
    number). *)
Section isValid.
Variable getAsInteger : string → option Z.

Definition isValidGCCRegisterName (Name : string) : bool :=
  match Name with
  | EmptyString => false
  | _ =>
      match removeGCCRegisterPrefix Name with
      | EmptyString => false
      | String c _ as Name =>
          let listed := bool_decide (Name ∈ GCCRegNames) in
          if isDigit c then
            match getAsInteger Name with Some n => n <? Z.of_nat (length GCCRegNames) | None => listed end
          else listed
      end
  end.
End isValid.

(** [TargetInfo::getNormalizedGCCRegisterName], whose assertion is the test
    above *)
Section normalized.
Variable getAsInteger : string → option Z.

Definition getNormalizedGCCRegisterName (Name : string) : outcome string :=
  cassert (isValidGCCRegisterName getAsInteger Name) "Invalid register passed in" ≫= λ _,
  let Name := removeGCCRegisterPrefix Name in
  match Name with
  | String c _ =>
      if isDigit c then
        match getAsInteger Name with
        | Some n =>
            cassert (n <? Z.of_nat (length GCCRegNames)) "Out of bounds register number!" ≫= λ _,
            at_index GCCRegNames n
        | None => Ret Name
        end
      else Ret Name
  | EmptyString => Ret Name
  end.
End normalized.

(** ** The back end

    [TargetLowering::getRegForInlineAsmConstraint] on a name in braces: the
    first register of that name in a class with a value of type [VT], else the
    first of that name. *)
Definition isTypeLegalForClass (RC : Nyuzi.regclass) (VT : MVT.t) : bool :=
  match RC with
  | Nyuzi.GPR32RegClass => bool_decide (VT ∈ [MVT.i32; MVT.f32; MVT.v16i1])
  | Nyuzi.VR512RegClass => bool_decide (VT ∈ [MVT.v16i32; MVT.v16f32])
  end.

Fixpoint findNamed (RegName : string) (VT : MVT.t) (l : list (Nyuzi.reg * Nyuzi.regclass))
    (R : option (Nyuzi.reg * Nyuzi.regclass)) : option (Nyuzi.reg * Nyuzi.regclass) :=
  match l with
  | [] => R
  | (r, RC) :: l =>
      if equals_lower RegName (getRegisterName r) then
        if isTypeLegalForClass RC VT then Some (r, RC)
        else findNamed RegName VT l (match R with None => Some (r, RC) | Some _ => R end)
      else findNamed RegName VT l R
  end.

Definition regclasses : list (Nyuzi.reg * Nyuzi.regclass) :=
  map (λ r, (r, Nyuzi.GPR32RegClass)) Nyuzi.GPR32 ++ map (λ r, (r, Nyuzi.VR512RegClass)) Nyuzi.VR512.

Definition namedRegister (RegName : string) (VT : MVT.t) : option (Nyuzi.reg * Nyuzi.regclass) :=
  findNamed RegName VT regclasses None.

(** A name that one register of the list has is found whatever the type. *)
Lemma findNamed_unique (RegName : string) (VT : MVT.t) (l : list (Nyuzi.reg * Nyuzi.regclass))
    (R : option (Nyuzi.reg * Nyuzi.regclass)) :
  findNamed RegName VT l R =
    match List.filter (λ x, equals_lower RegName (getRegisterName x.1)) l with
    | [] => R
    | [x] => if isTypeLegalForClass x.2 VT then Some x else match R with None => Some x | Some _ => R end
    | _ => findNamed RegName VT l R
    end.
Proof.
  revert R. induction l as [| [r RC] l IH]; intros R; [reflexivity |]. cbn [findNamed List.filter fst].
  destruct (equals_lower _ _) eqn:E.
  - destruct (List.filter _ l) as [| y l'] eqn:El.
    + cbn [snd]. destruct (isTypeLegalForClass RC VT); [reflexivity |]. rewrite IH. reflexivity.
    + reflexivity.
  - rewrite IH at 1. destruct (List.filter _ l) as [| y [| z l']]; reflexivity.
Qed.

Lemma namedRegister_unique (RegName : string) (VT : MVT.t) (x : Nyuzi.reg * Nyuzi.regclass) :
  List.filter (λ x, equals_lower RegName (getRegisterName x.1)) regclasses = [x] →
  namedRegister RegName VT = Some x.
Proof. intros H. unfold namedRegister. rewrite findNamed_unique, H. destruct (isTypeLegalForClass _ _); reflexivity. Qed.

Lemma namedRegister_none (RegName : string) (VT : MVT.t) :
  List.filter (λ x, equals_lower RegName (getRegisterName x.1)) regclasses = [] →
  namedRegister RegName VT = None.
Proof. intros H. unfold namedRegister. rewrite findNamed_unique, H. reflexivity. Qed.

(** Every name of the compiler but one is the name of the register with that
    number. *)
Lemma GCCRegNames_resolve (n : nat) (nm : string) (VT : MVT.t) :
  GCCRegNames !! n = Some nm →
  namedRegister nm VT =
    if decide (n = 28%nat) then None else nth n (map Some regclasses) None.
Proof.
  intros H. assert (Hn : (n < 64)%nat) by (apply lookup_lt_Some in H; exact H).
  do 64 (destruct n as [| n];
    [injection H as <-; first [apply namedRegister_none; reflexivity | apply namedRegister_unique; reflexivity] |]).
  lia.
Qed.

End InlineAsm.
