(* ===== verification/NyuziUnwind.v ===== *)
(** * NyuziUnwind: unwinding a frame

    tools/lldb/source/Plugins/ABI/Nyuzi/ABINyuzi.{h,cpp}, the debugger's
    description of the registers and of a frame at the entry of a function, and
    the frame information the compiler emits: the initial state of
    MCTargetDesc/NyuziMCTargetDesc.cpp and the directives of the prologue
    ([NyuziFrame]). *)
From S2P Require Import Prelude MathExtras NyuziTarget NyuziISelDAG NyuziMachine NyuziInstrInfo NyuziFrame ClangNyuzi.

(** ** Call frame information *)

(** A row of the unwind table: the CFA is a register (by DWARF number) plus an
    offset; the registers saved at offsets from the CFA, the latest first. *)
Record Row : Type := mkRow {
  CFARegister : Z;
  CFAOffset : Z;
  RegisterLocations : list (Z * Z);
}.

(** [MCCFIInstruction::createDefCfa]: the offset is stored negated; the
    directive and the unwinder negate it back. *)
Definition createDefCfa (Register Offset : Z) : Z * Z := (Register, - Offset).

(** [createNyuziMCAsmInfo]: the instruction of the common information entry *)
Definition addInitialFrameState : option (Z * Z) :=
  (λ SP, createDefCfa SP 0) <$> Nyuzi.getDwarfRegNum Nyuzi.SP_REG.

Definition initialRow : Row :=
  match addInitialFrameState with Some (r, o) => mkRow r (- o) [] | None => mkRow 0 0 [] end.

(** What an unwinder does with a directive. *)
Definition applyCFI (row : Row) (d : CFIInst) : Row :=
  match d with
  | DefCfaOffset o => mkRow (CFARegister row) (- o) (RegisterLocations row)
  | CfiOffset (Some r) o => mkRow (CFARegister row) (CFAOffset row) ((r, o) :: RegisterLocations row)
  | CfiOffset None _ => row
  | DefCfaRegister (Some r) => mkRow r (CFAOffset row) (RegisterLocations row)
  | DefCfaRegister None => row
  end.

(** The row after an instruction: a [CFI_INSTRUCTION] is the directive of the
    function it indexes. *)
Definition rowAfter (MF : MachineFunction) (row : Row) (MI : MachineInstr) : Row :=
  if bool_decide (MIOpcode MI = Nyuzi.CFI_INSTRUCTION) then
    match MIOperands MI with
    | [MO_CFIIndex i] => match FrameInsts MF !! i with Some d => applyCFI row d | None => row end
    | _ => row
    end
  else row.

Definition rowAt (MF : MachineFunction) (l : list MachineInstr) : Row := foldl (rowAfter MF) initialRow l.

(** The register with a DWARF number. *)
Definition fromDwarf (n : Z) : Nyuzi.reg :=
  default Nyuzi.NoRegister
    (List.find (λ r, bool_decide (Nyuzi.getDwarfRegNum r = Some n)) (Nyuzi.GPR32 ++ Nyuzi.VR512)).

Definition CFA (row : Row) (st : mstate) : Z := u32 (regs st (fromDwarf (CFARegister row)) + CFAOffset row).

(** ** ABINyuzi *)

Inductive LazyBool : Type := eLazyBoolCalculate | eLazyBoolNo | eLazyBoolYes.
Inductive RegisterKind : Type :=
  eRegisterKindEHFrame | eRegisterKindDWARF | eRegisterKindGeneric | eRegisterKindProcessPlugin | eRegisterKindLLDB.

Record UnwindPlan : Type := mkPlan {
  m_row_list : list Row;
  m_register_kind : RegisterKind;
  m_return_addr_register : Z;
  m_source_name : string;
  m_plan_is_sourced_from_compiler : LazyBool;
  m_plan_is_valid_at_all_instruction_locations : LazyBool;
}.

Definition UnwindPlan_Clear (p : UnwindPlan) : UnwindPlan :=
  mkPlan [] eRegisterKindDWARF (m_return_addr_register p) "" eLazyBoolCalculate eLazyBoolCalculate.

(** The rows of these plans are all at offset 0, so a second one replaces the
    first. *)
Definition AppendRow (p : UnwindPlan) (row : Row) : UnwindPlan :=
  mkPlan (match m_row_list p with [] => [row] | l => removelast l ++ [row] end) (m_register_kind p)
    (m_return_addr_register p) (m_source_name p) (m_plan_is_sourced_from_compiler p)
    (m_plan_is_valid_at_all_instruction_locations p).

Definition CreateFunctionEntryUnwindPlan (unwind_plan : UnwindPlan) : UnwindPlan * bool :=
  let p := UnwindPlan_Clear unwind_plan in
  let p := mkPlan (m_row_list p) eRegisterKindDWARF 31 (m_source_name p) (m_plan_is_sourced_from_compiler p)
             (m_plan_is_valid_at_all_instruction_locations p) in
  let p := AppendRow p (mkRow 30 0 []) in
  (mkPlan (m_row_list p) (m_register_kind p) (m_return_addr_register p) "nyuzi at-func-entry default" eLazyBoolNo
     (m_plan_is_valid_at_all_instruction_locations p), true).

Definition CreateDefaultUnwindPlan (unwind_plan : UnwindPlan) : UnwindPlan * bool :=
  let p := UnwindPlan_Clear unwind_plan in
  let p := mkPlan (m_row_list p) eRegisterKindDWARF 31 (m_source_name p) (m_plan_is_sourced_from_compiler p)
             (m_plan_is_valid_at_all_instruction_locations p) in
  let p := AppendRow p (mkRow 30 0 []) in
  (mkPlan (m_row_list p) (m_register_kind p) (m_return_addr_register p) "nyuzi default unwind plan" eLazyBoolNo
     eLazyBoolNo, true).

(** [CallFrameAddressIsValid] *)
Definition CallFrameAddressIsValid (cfa : Z) : bool :=
  if negb (Z.land cfa 63 =? 0) then false else if cfa =? 0 then false else true.

Definition CodeAddressIsValid (pc : Z) : bool := true.
Definition GetRedZoneSize : Z := 0.

(** [g_register_infos]: name, alternate name, size and numbers of a register
    (EH frame, DWARF, generic, process plugin, lldb); every entry has offset 0
    and the same encoding and format. *)
Record RegisterInfo : Type := mkRegInfo {
  name : string;
  alt_name : string;
  byte_size : Z;
  kinds : list Z;
}.

Definition LLDB_INVALID_REGNUM : Z := 2 ^ 32 - 1.
Definition LLDB_REGNUM_GENERIC_PC : Z := 0.
Definition LLDB_REGNUM_GENERIC_SP : Z := 1.
Definition LLDB_REGNUM_GENERIC_FP : Z := 2.
Definition LLDB_REGNUM_GENERIC_RA : Z := 3.

(** An entry that is number [n] for every kind but the generic one. *)
Definition entry (nm alt : string) (size n generic : Z) : RegisterInfo :=
  mkRegInfo nm alt size [n; n; generic; n; n].

(** [i] in two digits *)
Definition digits2 (i : nat) : string :=
  String (Ascii.ascii_of_nat (48 + i / 10)) (String (Ascii.ascii_of_nat (48 + i mod 10)) EmptyString).

Definition g_register_infos : list RegisterInfo :=
  map (λ i, entry ("s" +:+ digits2 i) "" 4 (Z.of_nat i) LLDB_INVALID_REGNUM) (seq 0 29) ++
  [entry "fp" "s29" 4 29 LLDB_REGNUM_GENERIC_FP; entry "sp" "s30" 4 30 LLDB_REGNUM_GENERIC_SP;
   entry "ra" "s31" 4 31 LLDB_REGNUM_GENERIC_RA] ++
  map (λ i, entry ("v" +:+ digits2 i) "" 64 (Z.of_nat i + 32) LLDB_INVALID_REGNUM) (seq 0 32) ++
  [entry "pc" "" 4 64 LLDB_REGNUM_GENERIC_PC].

(** The table, after its strings have been put into the string pool, and its
    length. *)
Definition GetRegisterInfoArray : list RegisterInfo * Z :=
  (g_register_infos, Z.of_nat (length g_register_infos)).

(** [reg_info->kinds[k]] *)
Definition kind_number (k : RegisterKind) (r : RegisterInfo) : outcome Z :=
  at_index (kinds r)
    match k with
    | eRegisterKindEHFrame => 0
    | eRegisterKindDWARF => 1
    | eRegisterKindGeneric => 2
    | eRegisterKindProcessPlugin => 3
    | eRegisterKindLLDB => 4
    end.

Definition RegisterIsVolatile (reg_info : RegisterInfo) : outcome bool :=
  kind_number eRegisterKindDWARF reg_info ≫= λ n,
  let reg := i32 n in
  Ret (if reg =? 31 then true
       else if ((24 <=? reg) && (reg <? 31)) || (26 + 32 <=? reg) then false
       else true).

(** The operations that are not implemented. *)
Definition PrepareTrivialCall : bool := false.
Definition GetArgumentValues : outcome bool := AssertFail "0".
Definition SetReturnValueObject : outcome unit := AssertFail "0".
Definition GetReturnValueObjectImpl : outcome unit := AssertFail "0".

(** [CreateInstance]: the one instance, made for the process of the first call
    ([None]: no instance); other architectures get none. *)
Definition CreateInstance {Process : Type} (g_abi_sp : option Process) (isNyuzi : bool) (process_sp : Process)
    : option Process * option Process :=
  if isNyuzi then
    let g_abi_sp := match g_abi_sp with None => Some process_sp | Some _ => g_abi_sp end in (g_abi_sp, g_abi_sp)
  else (g_abi_sp, None).

(** ** Lemmas *)

Lemma fromDwarf_number (r : Nyuzi.reg) :
  Nyuzi.contains Nyuzi.GPR32RegClass r = true ∨ Nyuzi.contains Nyuzi.VR512RegClass r = true →
  ∃ n, Nyuzi.getDwarfRegNum r = Some n ∧ fromDwarf n = r ∧ 0 ≤ n < 64.
Proof.
  intros H. assert (Hin : r ∈ Nyuzi.GPR32 ++ Nyuzi.VR512).
  { apply elem_of_app. destruct H as [H | H]; apply contains_lookup in H as (i & _ & Hi);
      [left | right]; eapply list_elem_of_lookup_2; exact Hi. }
  clear H. revert r Hin. apply Forall_forall.
  repeat (apply Forall_cons; split; [eexists; split; [reflexivity |]; split; [reflexivity | lia] |]).
  constructor.
Qed.

Lemma applyCFI_saved (CSI : list (Nyuzi.reg * Z)) (offs : list Z) (row : Row) :
  length CSI = length offs →
  CFARegister (foldl applyCFI row (savedCFI CSI offs)) = CFARegister row ∧
  CFAOffset (foldl applyCFI row (savedCFI CSI offs)) = CFAOffset row.
Proof.
  revert offs row. induction CSI as [| [r fi] CSI IH]; intros [| o offs] row H; try discriminate; [split; reflexivity |].
  injection H as H. unfold savedCFI. cbn [zip_with foldl fst]. fold (savedCFI CSI offs).
  destruct (IH offs (applyCFI row (CfiOffset (Nyuzi.getDwarfRegNum r) o)) H) as [-> ->].
  cbn [applyCFI]. destruct (Nyuzi.getDwarfRegNum r); split; reflexivity.
Qed.

Lemma applyCFI_location (ds : list CFIInst) (row : Row) (x : Z * Z) :
  x ∈ RegisterLocations row → x ∈ RegisterLocations (foldl applyCFI row ds).
Proof.
  revert row. induction ds as [| d ds IH]; intros row H; [exact H |]. apply IH.
  destruct d as [o | [r |] o | [r |]]; cbn [applyCFI RegisterLocations]; try exact H. right. exact H.
Qed.

(** Every saved register has its location in the row. *)
Lemma applyCFI_saved_locations (CSI : list (Nyuzi.reg * Z)) (offs : list Z) (row : Row) (r : Nyuzi.reg)
    (fi o n : Z) (i : nat) :
  CSI !! i = Some (r, fi) → offs !! i = Some o → Nyuzi.getDwarfRegNum r = Some n →
  (n, o) ∈ RegisterLocations (foldl applyCFI row (savedCFI CSI offs)).
Proof.
  revert offs row i. induction CSI as [| [r' fi'] CSI IH]; intros [| o' offs] row [| i] H1 H2 Hn; try discriminate.
  - injection H1 as -> ->. injection H2 as ->. unfold savedCFI. cbn [zip_with foldl fst]. rewrite Hn.
    apply applyCFI_location. left.
  - unfold savedCFI. cbn [zip_with foldl]. apply (IH offs _ i); assumption.
Qed.

(** The directives of a function, run through its instructions. *)
Lemma rowAfter_filter (MF : MachineFunction) (l : list MachineInstr) (row : Row) :
  foldl (rowAfter MF) row l = foldl (rowAfter MF) row (filter is_cfi l).
Proof.
  revert row. induction l as [| MI l IH]; intros row; [reflexivity |]. cbn [foldl]. rewrite filter_cons.
  unfold is_cfi at 1. destruct (decide _) as [E | E]; [apply IH |].
  unfold rowAfter at 2. rewrite bool_decide_false by exact E. apply IH.
Qed.

Lemma rowAfter_cfiAt (MF : MachineFunction) (pre D : list CFIInst) (row : Row) :
  FrameInsts MF = pre ++ D →
  foldl (rowAfter MF) row (cfiAt (length pre) (length D)) = foldl applyCFI row D.
Proof.
  revert pre row. induction D as [| d D IH]; intros pre row H; [reflexivity |].
  cbn [length]. unfold cfiAt. cbn [seq map foldl].
  change (map _ (seq (S (length pre)) (length D))) with (cfiAt (S (length pre)) (length D)).
  replace (rowAfter MF row (mkMI Nyuzi.CFI_INSTRUCTION [MO_CFIIndex (length pre)])) with (applyCFI row d).
  - replace (S (length pre)) with (length (pre ++ [d])) by (rewrite length_app; cbn; lia).
    apply IH. rewrite <- app_assoc. exact H.
  - unfold rowAfter. cbn [MIOpcode MIOperands]. rewrite bool_decide_true by reflexivity.
    rewrite H, lookup_app_r, Nat.sub_diag by lia. reflexivity.
Qed.

Lemma rowAfter_no_cfi (MF : MachineFunction) (l : list MachineInstr) (row : Row) :
  filter is_cfi l = [] → foldl (rowAfter MF) row l = row.
Proof. intros H. rewrite rowAfter_filter, H. reflexivity. Qed.

Lemma CFA_register (row : Row) (st : mstate) (r : Nyuzi.reg) (n : Z) :
  Nyuzi.getDwarfRegNum r = Some n → fromDwarf n = r → CFARegister row = n →
  CFA row st = u32 (regs st r + CFAOffset row).
Proof. intros _ Hf Hr. unfold CFA. rewrite Hr, Hf. reflexivity. Qed.

(** The row the prologue of a frame of [S] bytes leaves. *)
Lemma prologueCFI_row (MF : MachineFunction) (S : Z) (offs : list Z) :
  length (CSInfo (MFI MF)) = length offs →
  CFAOffset (foldl applyCFI initialRow (prologueCFI MF S offs)) = S ∧
  fromDwarf (CFARegister (foldl applyCFI initialRow (prologueCFI MF S offs))) = getFrameRegister MF ∧
  ∀ i r fi o n, CSInfo (MFI MF) !! i = Some (r, fi) → offs !! i = Some o → Nyuzi.getDwarfRegNum r = Some n →
    (n, o) ∈ RegisterLocations (foldl applyCFI initialRow (prologueCFI MF S offs)).
Proof.
  intros HL. unfold prologueCFI. cbn [foldl]. rewrite foldl_app.
  destruct (applyCFI_saved (CSInfo (MFI MF)) offs (applyCFI initialRow (DefCfaOffset (- S))) HL) as [Hr Ho].
  set (row := foldl applyCFI (applyCFI initialRow (DefCfaOffset (- S))) _) in *.
  unfold getFrameRegister. cbn [applyCFI CFARegister CFAOffset] in Hr, Ho. split; [| split].
  - destruct (hasFP MF); cbn [foldl applyCFI Nyuzi.getDwarfRegNum CFAOffset]; rewrite Ho; lia.
  - destruct (hasFP MF); cbn [foldl applyCFI Nyuzi.getDwarfRegNum CFARegister]; [| rewrite Hr]; reflexivity.
  - intros i r fi o n H1 H2 Hn. apply applyCFI_location. eapply applyCFI_saved_locations; eassumption.
Qed.

(** C19. Unwinding agrees with the frames the compiler builds.  On entry the row of
    the debugger's entry plan, which is the initial row of the common information
    entry, gives the stack pointer as the CFA and the return address register of
    calls; after the prologue (adjustment, saves, moves) the row its directives
    build still gives the stack pointer on entry, from the frame register, and
    holds for every callee-saved register the offset of its slot from it.  The
    debugger accepts the CFA of an aligned stack that is not at zero. *)
Theorem unwind_frame (MF : MachineFunction) (saves body : list MachineInstr) (MI : MachineInstr)
    (fi_addr : Z → Z) (st0 : mstate) (offs : list Z) :
  0 ≤ StackSize (MFI MF) ≤ 2 ^ 23 - 64 →
  (hasFP MF = true → 0 < StackSize (MFI MF)) →
  (CSInfo (MFI MF) ≠ [] → 0 < StackSize (MFI MF)) →
  length saves = length (CSInfo (MFI MF)) → savedSlots (MFI MF) (CSInfo (MFI MF)) offs →
  keeps_sp fi_addr saves → filter is_cfi saves = [] →
  0 < regs st0 Nyuzi.SP_REG < 2 ^ 32 → (64 | regs st0 Nyuzi.SP_REG) →
  (∀ p, m_row_list (CreateFunctionEntryUnwindPlan p).1 = [initialRow] ∧
        Some (m_return_addr_register (CreateFunctionEntryUnwindPlan p).1) = Nyuzi.getDwarfRegNum Nyuzi.RA_REG) ∧
  CFA initialRow st0 = regs st0 Nyuzi.SP_REG ∧
  CallFrameAddressIsValid (CFA initialRow st0) = true ∧
  ∃ MF1 pro mid st1,
    emitPrologue MF true (saves ++ MI :: body) = Ret (MF1, pro ++ saves ++ mid ++ MI :: body) ∧
    exec fi_addr (pro ++ saves ++ mid) st0 = Some st1 ∧
    let row := rowAt MF1 (pro ++ saves ++ mid) in
    CFA row st1 = regs st0 Nyuzi.SP_REG ∧
    ∀ i r fi o n, CSInfo (MFI MF) !! i = Some (r, fi) → offs !! i = Some o → Nyuzi.getDwarfRegNum r = Some n →
      (n, o) ∈ RegisterLocations row.
Proof.
  intros HSS Hfp Hcs0 Hls HCS Hsv Hnc Hsp Hal.
  assert (HCFA0 : CFA initialRow st0 = regs st0 Nyuzi.SP_REG).
  { unfold CFA. change (fromDwarf (CFARegister initialRow)) with Nyuzi.SP_REG. change (CFAOffset initialRow) with 0.
    rewrite Z.add_0_r. apply uint_small. lia. }
  split; [intros p; split; reflexivity |]. split; [exact HCFA0 |]. split.
  { rewrite HCFA0. unfold CallFrameAddressIsValid. change 63 with (Z.ones 6). rewrite Z.land_ones by lia.
    apply Z.mod_divide in Hal; [| lia]. change (2 ^ 6) with 64. rewrite Hal. cbn [Z.eqb negb].
    destruct (Z.eqb_spec (regs st0 Nyuzi.SP_REG) 0); [lia | reflexivity]. }
  destruct (alignTo_spec (StackSize (MFI MF)) 64) as (S & HS & HSr & Hdiv); [lia .. |].
  change 64 with getStackAlignment in HS.
  assert (HS23 : 0 ≤ S < 2 ^ 23) by (destruct Hdiv as [q ->]; lia).
  assert (HSu : S = 0 → hasFP MF = false ∧ CSInfo (MFI MF) = []).
  { intros ->. split; [destruct (hasFP MF); [specialize (Hfp eq_refl); lia | reflexivity] |].
    destruct (CSInfo (MFI MF)) eqn:E; [reflexivity |]. specialize (Hcs0 ltac:(discriminate)). lia. }
  destruct (prologue_exec MF saves body MI fi_addr st0 S offs HS HS23 HSu Hls HCS Hsv ltac:(lia))
    as (MF1 & pro & mid & D & Hsf & HP & HD & HF & Hfil & st1 & HE & Hsp1 & Hfr1).
  exists MF1, pro, mid, st1. split; [exact HP |]. split; [exact HE |]. cbn zeta.
  assert (Hrow : rowAt MF1 (pro ++ saves ++ mid) = foldl applyCFI initialRow D).
  { unfold rowAt. rewrite rowAfter_filter, !filter_app, Hnc. cbn [app]. rewrite Hfil.
    apply rowAfter_cfiAt. exact HF. }
  rewrite Hrow. clear Hrow HP HE Hfil HF. pose proof (Forall2_length _ _ _ HCS) as HL.
  destruct HD as [-> | [-> ->]].
  - destruct (prologueCFI_row MF S offs HL) as (Ho & Hr & Hloc). split; [| exact Hloc].
    unfold CFA. rewrite Hr, Ho, Hfr1, Hsp1, uint_add_l, Z.sub_add. apply uint_small. lia.
  - destruct (HSu eq_refl) as [Hnofp Hnocs]. split; [| rewrite Hnocs; intros i r fi o n H; discriminate H].
    cbn [foldl]. unfold CFA. change (fromDwarf (CFARegister initialRow)) with Nyuzi.SP_REG.
    change (CFAOffset initialRow) with 0. rewrite Hsp1, Z.sub_0_r, Z.add_0_r, uint_uint. apply uint_small. lia.
Qed.

Example unwind_frame_witness :
  ∃ MF1 pro mid st1,
    emitPrologue demo_frame true ([mkMI Nyuzi.SW [MO_Register Nyuzi.FP_REG false false; MO_FrameIndex 0; MO_Immediate 0]] ++
        mkMI Nyuzi.RET [] :: [])
      = Ret (MF1, pro ++ [mkMI Nyuzi.SW [MO_Register Nyuzi.FP_REG false false; MO_FrameIndex 0; MO_Immediate 0]] ++
                  mid ++ mkMI Nyuzi.RET [] :: []) ∧
    CFA (rowAt MF1 (pro ++ [mkMI Nyuzi.SW [MO_Register Nyuzi.FP_REG false false; MO_FrameIndex 0; MO_Immediate 0]] ++ mid))
      st1 = 4096.
Proof.
  destruct (unwind_frame demo_frame [mkMI Nyuzi.SW [MO_Register Nyuzi.FP_REG false false; MO_FrameIndex 0; MO_Immediate 0]]
    [] (mkMI Nyuzi.RET []) (λ _, 0) (mkState (λ _, 4096) (λ _, []) (λ _, 0)) [-4])
    as (_ & _ & _ & MF1 & pro & mid & st1 & HP & _ & HC & _).
  - cbn. lia.
  - cbn. lia.
  - cbn. lia.
  - reflexivity.
  - constructor; [reflexivity | constructor].
  - apply sw_keeps_sp.
  - reflexivity.
  - cbn. lia.
  - exists 64. reflexivity.
  - exists MF1, pro, mid, st1. split; [exact HP | exact HC].
Defined.

(** ** The numbers of the registers *)

(** The compiler driver, the back end and the debugger number the registers
    alike.  Entry [n] of the debugger's table is the register with DWARF number
    [n]: it has that number for every kind but the generic one, the size of the
    register, and is volatile exactly when it is the return address register or
    neither the stack pointer nor saved by the callee; name [n] of the C compiler
    is the name under which the back end finds that register, but for [GP_REG],
    which the compiler calls [s28] and the back end [gp]. *)
Theorem register_numbers_agree (r : Nyuzi.reg) (VT : MVT.t) :
  Nyuzi.contains Nyuzi.GPR32RegClass r = true ∨ Nyuzi.contains Nyuzi.VR512RegClass r = true →
  ∃ n info nm, Nyuzi.getDwarfRegNum r = Some (Z.of_nat n) ∧
    g_register_infos !! n = Some info ∧
    (∀ k, k ≠ eRegisterKindGeneric → kind_number k info = Ret (Z.of_nat n)) ∧
    8 * byte_size info = getRegSizeInBits r ∧
    RegisterIsVolatile info =
      Ret (bool_decide (r = Nyuzi.RA_REG ∨ r ∉ Nyuzi.SP_REG :: getCalleeSavedRegs)) ∧
    InlineAsm.GCCRegNames !! n = Some nm ∧
    fst <$> InlineAsm.namedRegister nm VT = (if decide (r = Nyuzi.GP_REG) then None else Some r).
Proof.
  intros H. assert (Hin : r ∈ Nyuzi.GPR32 ++ Nyuzi.VR512).
  { apply elem_of_app. destruct H as [H | H]; apply contains_lookup in H as (i & _ & Hi);
      [left | right]; eapply list_elem_of_lookup_2; exact Hi. }
  apply list_elem_of_lookup in Hin as [n Hn]. clear H. exists n.
  assert (Hlt : (n < 64)%nat) by (apply lookup_lt_Some in Hn; exact Hn).
  destruct (InlineAsm.GCCRegNames !! n) as [nm |] eqn:Hnm;
    [| apply lookup_ge_None in Hnm; change (length InlineAsm.GCCRegNames) with 64%nat in Hnm; lia].
  destruct (g_register_infos !! n) as [info |] eqn:Hi;
    [| apply lookup_ge_None in Hi; change (length g_register_infos) with 65%nat in Hi; lia].
  exists info, nm. rewrite (InlineAsm.GCCRegNames_resolve n nm VT Hnm). clear Hnm.
  do 64 (destruct n as [| n];
    [injection Hn as <-; injection Hi as <-; split; [reflexivity |]; split; [reflexivity |];
     split; [intros [] Hk; try reflexivity; destruct (Hk eq_refl) |]; repeat split; reflexivity |]).
  lia.
Qed.

Example register_numbers_agree_witness :
  ∃ n info nm, Nyuzi.getDwarfRegNum (Nyuzi.V 30) = Some (Z.of_nat n) ∧
    g_register_infos !! n = Some info ∧
    (∀ k, k ≠ eRegisterKindGeneric → kind_number k info = Ret (Z.of_nat n)) ∧
    8 * byte_size info = getRegSizeInBits (Nyuzi.V 30) ∧
    RegisterIsVolatile info =
      Ret (bool_decide (Nyuzi.V 30 = Nyuzi.RA_REG ∨ Nyuzi.V 30 ∉ Nyuzi.SP_REG :: getCalleeSavedRegs)) ∧
    InlineAsm.GCCRegNames !! n = Some nm ∧
    fst <$> InlineAsm.namedRegister nm MVT.v16i32 = (if decide (Nyuzi.V 30 = Nyuzi.GP_REG) then None else Some (Nyuzi.V 30)).
Proof. apply (register_numbers_agree (Nyuzi.V 30) MVT.v16i32). right. reflexivity. Defined.
