(* ===== verification/NyuziFrameLayout.v ===== *)
(** * NyuziFrameLayout: where the objects of a frame go

    PEI of lib/CodeGen/PrologEpilogInserter.cpp for the Nyuzi target: the slots
    of the callee-saved registers ([assignCalleeSavedSpillSlots]) and the offsets
    of all objects ([calculateFrameObjectOffsets]).  The stack grows down and the
    local area starts at the stack pointer on entry (constructor of
    NyuziFrameLowering.h); the hooks Nyuzi does not override have the values of
    TargetFrameLowering.h and TargetRegisterInfo.h.  What those values switch off
    is left out: the local stack allocation block, the reordering of objects and the exception registration node
    of Windows. *)
From S2P Require Import Prelude MathExtras NyuziTarget NyuziMachine NyuziFrame.

(** ** Objects *)

Definition objectAt (m : MachineFrameInfo) (i : Z) : outcome StackObject :=
  at_index (Objects m) (i + NumFixedObjects m).

Definition getObjectAlignment (m : MachineFrameInfo) (i : Z) : outcome Z := objectAt m i ≫= λ o, Ret (ObjAlign o).
Definition isDeadObjectIndex (m : MachineFrameInfo) (i : Z) : outcome bool := objectAt m i ≫= λ o, Ret (isDead o).
Definition isVariableSizedObjectIndex (m : MachineFrameInfo) (i : Z) : outcome bool :=
  objectAt m i ≫= λ o, Ret (ObjSize o =? 0).

Definition withObjects (m : MachineFrameInfo) (Objs : list StackObject) : MachineFrameInfo :=
  mkMFI Objs (NumFixedObjects m) (StackSize m) (AdjustsStack m) (HasVarSizedObjects m) (FrameAddressTaken m)
    (CSInfo m) (MaxAlignment m) (MaxCallFrameSize m).

Definition setObjectOffset (m : MachineFrameInfo) (i SPOff : Z) : outcome MachineFrameInfo :=
  objectAt m i ≫= λ o,
  cassert (negb (isDead o)) "Setting frame offset for a dead object?" ≫= λ _,
  Ret (withObjects m (<[Z.to_nat (i + NumFixedObjects m) := mkStackObject (ObjSize o) SPOff (ObjAlign o) (isDead o)]>
                        (Objects m))).

Definition setStackSize (m : MachineFrameInfo) (Size : Z) : MachineFrameInfo :=
  mkMFI (Objects m) (NumFixedObjects m) Size (AdjustsStack m) (HasVarSizedObjects m) (FrameAddressTaken m)
    (CSInfo m) (MaxAlignment m) (MaxCallFrameSize m).

(** ** Slots of the callee-saved registers *)

Definition UINT_MAX : Z := 2 ^ 32 - 1.

(** [getSpillSize] and [getSpillAlignment] of the minimal class, in bytes *)
Definition getSpillSize (r : Nyuzi.reg) : Z := getRegSizeInBits r / 8.
Definition getSpillAlignment (r : Nyuzi.reg) : Z := getRegSizeInBits r / 8.

(** The loop over [CSI]: a slot each, and the range of the new indices. *)
Fixpoint assignSlots (m : MachineFrameInfo) (CSI : list Nyuzi.reg) (MinCSFrameIndex MaxCSFrameIndex : Z)
    : outcome (MachineFrameInfo * list (Nyuzi.reg * Z) * Z * Z) :=
  match CSI with
  | [] => Ret (m, [], MinCSFrameIndex, MaxCSFrameIndex)
  | Reg :: CSI =>
      let Align := Z.min (getSpillAlignment Reg) getStackAlignment in
      CreateStackObject m (getSpillSize Reg) Align ≫= λ '(FrameIdx, m),
      let MinCSFrameIndex := if u32 FrameIdx <? MinCSFrameIndex then u32 FrameIdx else MinCSFrameIndex in
      let MaxCSFrameIndex := if MaxCSFrameIndex <? u32 FrameIdx then u32 FrameIdx else MaxCSFrameIndex in
      assignSlots m CSI MinCSFrameIndex MaxCSFrameIndex ≫= λ '(m, l, MinCS, MaxCS),
      Ret (m, (Reg, FrameIdx) :: l, MinCS, MaxCS)
  end.

Definition setCalleeSavedInfo (m : MachineFrameInfo) (CSI : list (Nyuzi.reg * Z)) : MachineFrameInfo :=
  mkMFI (Objects m) (NumFixedObjects m) (StackSize m) (AdjustsStack m) (HasVarSizedObjects m) (FrameAddressTaken m)
    CSI (MaxAlignment m) (MaxCallFrameSize m).

(** [SavedRegs] as the set of registers that are saved; the slots are in the
    order of the target's list. *)
Definition assignCalleeSavedSpillSlots (m : MachineFrameInfo) (SavedRegs : list Nyuzi.reg)
    : outcome (MachineFrameInfo * Z * Z) :=
  let CSI := List.filter (λ r, bool_decide (r ∈ SavedRegs)) getCalleeSavedRegs in
  match CSI with
  | [] => Ret (m, UINT_MAX, 0)
  | _ =>
      assignSlots m CSI UINT_MAX 0 ≫= λ '(m, CSI, MinCS, MaxCS), Ret (setCalleeSavedInfo m CSI, MinCS, MaxCS)
  end.

(** ** Offsets *)

(** [AdjustStackOffset]: the offset so far and the largest alignment go in and
    out. *)
Definition AdjustStackOffset (m : MachineFrameInfo) (FrameIdx Offset MaxAlign : Z)
    : outcome (MachineFrameInfo * Z * Z) :=
  getObjectSize m FrameIdx ≫= λ Size,
  let Offset := i64 (Offset + Size) in
  getObjectAlignment m FrameIdx ≫= λ Align,
  let MaxAlign := Z.max MaxAlign Align in
  alignTo (u64 Offset) Align 0 ≫= λ o,
  let Offset := i64 o in
  setObjectOffset m FrameIdx (- Offset) ≫= λ m,
  Ret (m, Offset, MaxAlign).

(** A loop of [AdjustStackOffset] over frame indices. *)
Fixpoint adjustAll (m : MachineFrameInfo) (l : list Z) (Offset MaxAlign : Z) : outcome (MachineFrameInfo * Z * Z) :=
  match l with
  | [] => Ret (m, Offset, MaxAlign)
  | i :: l => AdjustStackOffset m i Offset MaxAlign ≫= λ '(m, Offset, MaxAlign), adjustAll m l Offset MaxAlign
  end.

(** The loop over the slots of the callee-saved registers. *)
Fixpoint adjustCalleeSaved (m : MachineFrameInfo) (l : list Z) (Offset : Z) : outcome (MachineFrameInfo * Z) :=
  match l with
  | [] => Ret (m, Offset)
  | i :: l =>
      getObjectSize m i ≫= λ Size,
      let Offset := i64 (Offset + Size) in
      getObjectAlignment m i ≫= λ Align,
      alignTo (u64 Offset) Align 0 ≫= λ o,
      let Offset := i64 o in
      setObjectOffset m i (- Offset) ≫= λ m,
      adjustCalleeSaved m l Offset
  end.

Inductive SSPLayoutKind : Type := SSPLK_None | SSPLK_LargeArray | SSPLK_SmallArray | SSPLK_AddrOf.

#[global] Instance SSPLayoutKind_eq_dec : EqDecision SSPLayoutKind.
Proof. solve_decision. Defined.

(** What the pass knows besides the frame: the range of the callee-saved slots,
    the scavenging slots ([RS] exists, [requiresRegisterScavenging]), the slot of
    the stack protector (-1: none), the kind of each object for it,
    [needsStackRealignment] and the optimisation level. *)
Record PEI : Type := mkPEI {
  MinCSFrameIndex : Z;
  MaxCSFrameIndex : Z;
  ScavengingFrameIndices : list Z;
  StackProtectorIndex : Z;
  getSSPLayout : Z → SSPLayoutKind;
  needsStackRealignment : bool;
  Optimizing : bool;  (* getOptLevel() != CodeGenOpt::None *)
}.

Definition isFPCloseToIncomingSP : bool := true.
Definition useFPForScavengingIndex : bool := true.
Definition enableStackSlotScavenging : bool := false.
Definition targetHandlesStackFrameRounding : bool := false.
Definition getTransientStackAlignment : Z := 64.

(** The slots of the callee-saved registers, [MinCSFrameIndex] to
    [MaxCSFrameIndex]. *)
Definition csIndices (E : PEI) : list Z := seqZ (MinCSFrameIndex E) (MaxCSFrameIndex E - MinCSFrameIndex E + 1).

(** The tests both loops over the objects begin with. *)
Definition skipped (E : PEI) (m : MachineFrameInfo) (i : Z) : bool :=
  ((MinCSFrameIndex E <=? i) && (i <=? MaxCSFrameIndex E)) ||
  bool_decide (i ∈ ScavengingFrameIndices E) ||
  (match isDeadObjectIndex m i with Ret d => d | _ => false end) ||
  (StackProtectorIndex E =? i).

Definition localIndices (m : MachineFrameInfo) : list Z := seqZ 0 (getObjectIndexEnd m).

(** The objects of a kind that must be next to the protector. *)
Definition protectedObjs (E : PEI) (m : MachineFrameInfo) (k : SSPLayoutKind) : list Z :=
  List.filter (λ i, negb (skipped E m i) && bool_decide (getSSPLayout E i = k)) (localIndices m).

(** [BitVector::reset(I, E)]: the bits from [I] up to [E]. *)
Definition resetBits (bits : list bool) (I E : Z) : outcome (list bool) :=
  cassert (I <=? E) "Attempted to reset backwards range!" ≫= λ _,
  cassert (E <=? Z.of_nat (length bits)) "Attempted to reset out-of-bounds range!" ≫= λ _,
  Ret (imap (λ k b, b && negb ((I <=? Z.of_nat k) && (Z.of_nat k <? E))) bits).

(** [computeFreeStackSlots]: the bytes of the fixed and callee-saved area that
    no object uses. *)
Fixpoint resetSlots (m : MachineFrameInfo) (AllocatedFrameSlots : list Z) (StackBytesFree : list bool)
    : outcome (list bool) :=
  match AllocatedFrameSlots with
  | [] => Ret StackBytesFree
  | i :: l =>
      getObjectOffset m i ≫= λ o, getObjectSize m i ≫= λ s,
      let ObjOffset := i32 o in
      let ObjSize := i32 s in
      let ObjStart := i32 (- ObjOffset - ObjSize) in
      let ObjEnd := i32 (- ObjOffset) in
      (if 0 <? ObjEnd then resetBits StackBytesFree (u32 ObjStart) (u32 ObjEnd) else Ret StackBytesFree)
        ≫= λ StackBytesFree,
      resetSlots m l StackBytesFree
  end.

Definition computeFreeStackSlots (E : PEI) (m : MachineFrameInfo) (FixedCSEnd : Z) : outcome (list bool) :=
  if 2 ^ 31 - 1 <? FixedCSEnd then Ret []
  else
    resetSlots m (seqZ (getObjectIndexBegin m) (- getObjectIndexBegin m) ++
                  seqZ (MinCSFrameIndex E) (MaxCSFrameIndex E - MinCSFrameIndex E + 1))
      (replicate (Z.to_nat FixedCSEnd) true).

(** The search of [scavengeStackSlot] from [FreeStart] on. *)
Fixpoint findFree (bits : list bool) (ObjSize ObjAlign FreeStart : Z) (n : nat) : outcome (option Z) :=
  match n with
  | O => Ret None
  | S n' =>
      if negb (default false (bits !! Z.to_nat FreeStart)) then findFree bits ObjSize ObjAlign (FreeStart + 1) n'
      else
        let ObjStart := u32 (FreeStart + ObjSize) in
        alignTo ObjStart ObjAlign 0 ≫= λ a,
        if negb (a =? ObjStart) then findFree bits ObjSize ObjAlign (FreeStart + 1) n'
        else if Z.of_nat (length bits) <? FreeStart + ObjSize then Ret None
        else if forallb (λ Byte, default false (bits !! Z.to_nat (FreeStart + Byte))) (seqZ 0 ObjSize)
             then Ret (Some FreeStart)
             else findFree bits ObjSize ObjAlign (FreeStart + 1) n'
  end.

(** [scavengeStackSlot]: whether a hole was found, the frame and the free
    bytes. *)
Definition scavengeStackSlot (m : MachineFrameInfo) (FrameIdx MaxAlign : Z) (StackBytesFree : list bool)
    : outcome (bool * MachineFrameInfo * list bool) :=
  isVariableSizedObjectIndex m FrameIdx ≫= λ v : bool,
  if v then Ret (false, m, StackBytesFree)
  else if forallb negb StackBytesFree then Ret (false, m, [])
  else
    getObjectAlignment m FrameIdx ≫= λ Align,
    if MaxAlign <? Align then Ret (false, m, StackBytesFree)
    else
      getObjectSize m FrameIdx ≫= λ Size,
      findFree StackBytesFree Size Align 0 (length StackBytesFree) ≫= λ r,
      match r with
      | None => Ret (false, m, StackBytesFree)
      | Some FreeStart =>
          setObjectOffset m FrameIdx (- (FreeStart + Size)) ≫= λ m,
          resetBits StackBytesFree FreeStart (u32 (FreeStart + Size)) ≫= λ StackBytesFree,
          Ret (true, m, StackBytesFree)
      end.

Fixpoint allocateObjects (m : MachineFrameInfo) (l : list Z) (StackBytesFree : list bool) (Offset MaxAlign : Z)
    : outcome (MachineFrameInfo * Z * Z) :=
  match l with
  | [] => Ret (m, Offset, MaxAlign)
  | Object :: l =>
      scavengeStackSlot m Object MaxAlign StackBytesFree ≫= λ '(allocated, m, StackBytesFree),
      (if allocated : bool then Ret (m, Offset, MaxAlign) else AdjustStackOffset m Object Offset MaxAlign)
        ≫= λ '(m, Offset, MaxAlign),
      allocateObjects m l StackBytesFree Offset MaxAlign
  end.

(** The rounding at the end. *)
Definition roundStackSize (E : PEI) (MF : MachineFunction) (m : MachineFrameInfo) (Offset MaxAlign : Z) : outcome Z :=
  if targetHandlesStackFrameRounding then Ret Offset
  else
    let Offset := if AdjustsStack m && hasReservedCallFrame MF then i64 (Offset + getMaxCallFrameSize m) else Offset in
    let StackAlign :=
      if AdjustsStack m || HasVarSizedObjects m || (needsStackRealignment E && negb (getObjectIndexEnd m =? 0))
      then getStackAlignment else getTransientStackAlignment in
    let StackAlign := Z.max StackAlign MaxAlign in
    alignTo (u64 Offset) StackAlign 0 ≫= λ o, Ret (i64 o).

Definition calculateFrameObjectOffsets (E : PEI) (MF : MachineFunction) : outcome MachineFrameInfo :=
  let m := MFI MF in
  let LocalAreaOffset := 0 in
  fixedObjectsExtent m (getObjectIndexBegin m) (Z.to_nat (- getObjectIndexBegin m)) LocalAreaOffset ≫= λ Offset,
  adjustCalleeSaved m (csIndices E) Offset ≫= λ '(m, Offset),
  let FixedCSEnd := Offset in
  let MaxAlign := MaxAlignment m in
  let EarlyScavengingSlots :=
    hasFP MF && isFPCloseToIncomingSP && useFPForScavengingIndex && negb (needsStackRealignment E) in
  let SFIs := List.filter (λ i, 0 <=? i) (ScavengingFrameIndices E) in
  (if EarlyScavengingSlots then adjustAll m SFIs Offset MaxAlign else Ret (m, Offset, MaxAlign))
    ≫= λ '(m, Offset, MaxAlign),
  (if 0 <=? StackProtectorIndex E then
     AdjustStackOffset m (StackProtectorIndex E) Offset MaxAlign ≫= λ '(m, Offset, MaxAlign),
     let protected :=
       protectedObjs E m SSPLK_LargeArray ++ protectedObjs E m SSPLK_SmallArray ++ protectedObjs E m SSPLK_AddrOf in
     adjustAll m protected Offset MaxAlign ≫= λ '(m, Offset, MaxAlign), Ret (m, Offset, MaxAlign, protected)
   else Ret (m, Offset, MaxAlign, [])) ≫= λ '(m, Offset, MaxAlign, ProtectedObjs),
  let ObjectsToAllocate :=
    List.filter (λ i, negb (skipped E m i) && negb (bool_decide (i ∈ ProtectedObjs))) (localIndices m) in
  (if negb (bool_decide (ObjectsToAllocate = [])) && Optimizing E && (StackProtectorIndex E <? 0) &&
      enableStackSlotScavenging
   then computeFreeStackSlots E m FixedCSEnd else Ret []) ≫= λ StackBytesFree,
  allocateObjects m ObjectsToAllocate StackBytesFree Offset MaxAlign ≫= λ '(m, Offset, MaxAlign),
  (if negb EarlyScavengingSlots then adjustAll m SFIs Offset MaxAlign else Ret (m, Offset, MaxAlign))
    ≫= λ '(m, Offset, MaxAlign),
  roundStackSize E MF m Offset MaxAlign ≫= λ Offset,
  Ret (setStackSize m (u64 (Offset - LocalAreaOffset))).

(** ** What a layout has to be *)

(** Two objects share no byte. *)
Definition apart (o1 o2 : StackObject) : Prop :=
  SPOffset o1 + ObjSize o1 ≤ SPOffset o2 ∨ SPOffset o2 + ObjSize o2 ≤ SPOffset o1.

(** Frames that differ in the offsets of their local objects only. *)
Definition same_object (o o' : StackObject) : Prop :=
  ObjSize o' = ObjSize o ∧ ObjAlign o' = ObjAlign o ∧ isDead o' = isDead o.

Record same_objects (m m' : MachineFrameInfo) : Prop := {
  so_fixed : NumFixedObjects m' = NumFixedObjects m;
  so_adjusts : AdjustsStack m' = AdjustsStack m;
  so_varsized : HasVarSizedObjects m' = HasVarSizedObjects m;
  so_call : MaxCallFrameSize m' = MaxCallFrameSize m;
  so_align : MaxAlignment m' = MaxAlignment m;
  so_csinfo : CSInfo m' = CSInfo m;
  so_address : FrameAddressTaken m' = FrameAddressTaken m;
  so_objects : Forall2 same_object (Objects m) (Objects m');
}.

Definition power_of_two (a : Z) : Prop := ∃ k, 0 ≤ k ≤ 31 ∧ a = 2 ^ k.

(** A frame before the pass: [C] bounds the size and alignment of an object,
    [F] the extent of the fixed objects. *)
Record frame_ok (E : PEI) (m : MachineFrameInfo) (F C : Z) : Prop := {
  ok_count : 0 ≤ NumFixedObjects m ≤ Z.of_nat (length (Objects m));
  ok_local : ∀ i o, 0 ≤ i → objectAt m i = Ret o →
    0 ≤ ObjSize o ∧ power_of_two (ObjAlign o) ∧ ObjSize o + ObjAlign o ≤ C;
  ok_fixed : ∀ j o, - NumFixedObjects m ≤ j < 0 → objectAt m j = Ret o → isDead o = false ∧ - SPOffset o ≤ F;
  ok_special : NoDup (csIndices E ++ List.filter (λ i, 0 <=? i) (ScavengingFrameIndices E) ++
                 (if 0 <=? StackProtectorIndex E then [StackProtectorIndex E] else []));
  ok_special_live : ∀ i, i ∈ csIndices E ++ List.filter (λ i, 0 <=? i) (ScavengingFrameIndices E) ++
                 (if 0 <=? StackProtectorIndex E then [StackProtectorIndex E] else []) →
    0 ≤ i ∧ ∃ o, objectAt m i = Ret o ∧ isDead o = false;
  ok_maxalign : MaxAlignment m = 0 ∨ power_of_two (MaxAlignment m);
  ok_callframe : 0 ≤ getMaxCallFrameSize m ≤ C;
  ok_budget : 0 < C ∧ 0 ≤ F ∧ F + (getObjectIndexEnd m + 1) * C + 2 ^ 32 ≤ 2 ^ 62;
}.

(** The objects [P] of the frame [m] have been placed below [F], up to [Off]. *)
Record placed (m0 : MachineFrameInfo) (F C : Z) (P : list Z) (m : MachineFrameInfo) (Off : Z) : Prop := {
  pl_same : same_objects m0 m;
  pl_rest : ∀ i, 0 ≤ i + NumFixedObjects m0 → i ∉ P → objectAt m i = objectAt m0 i;
  pl_slot : ∀ i, i ∈ P → 0 ≤ i ∧ ∃ o, objectAt m i = Ret o ∧ isDead o = false ∧ (ObjAlign o | SPOffset o) ∧
    F ≤ - SPOffset o - ObjSize o ∧ - SPOffset o ≤ Off;
  pl_apart : ∀ i j oi oj, i ∈ P → j ∈ P → i ≠ j → objectAt m i = Ret oi → objectAt m j = Ret oj → apart oi oj;
  pl_bound : F ≤ Off ≤ F + Z.of_nat (length P) * C;
}.

(** ** Access to objects *)

Lemma objectAt_lookup (m : MachineFrameInfo) (i : Z) (o : StackObject) :
  objectAt m i = Ret o ↔ 0 ≤ i + NumFixedObjects m ∧ Objects m !! Z.to_nat (i + NumFixedObjects m) = Some o.
Proof.
  unfold objectAt. split.
  - intros H. apply at_index_Ret in H. exact H.
  - intros [H0 H]. rewrite <- (Z2Nat.id (i + NumFixedObjects m)) by exact H0. apply at_index_lookup. exact H.
Qed.

Lemma getObjectSize_at (m : MachineFrameInfo) (i : Z) (o : StackObject) :
  objectAt m i = Ret o → getObjectSize m i = Ret (ObjSize o).
Proof. intros H. unfold getObjectSize. unfold objectAt in H. rewrite H. reflexivity. Qed.

Lemma getObjectAlignment_at (m : MachineFrameInfo) (i : Z) (o : StackObject) :
  objectAt m i = Ret o → getObjectAlignment m i = Ret (ObjAlign o).
Proof. intros H. unfold getObjectAlignment. rewrite H. reflexivity. Qed.

Lemma power_of_two_range (a : Z) : power_of_two a → 0 < a ≤ 2 ^ 32.
Proof.
  intros (k & Hk & ->). split; [apply Z.pow_pos_nonneg; lia |]. apply Z.pow_le_mono_r; lia.
Qed.

Lemma max_power_of_two (a b : Z) : (a = 0 ∨ power_of_two a) → power_of_two b → power_of_two (Z.max a b).
Proof.
  intros [-> | Ha] Hb.
  - rewrite Z.max_r; [exact Hb |]. destruct (power_of_two_range b Hb). lia.
  - destruct (Z.max_spec a b) as [[_ ->] | [_ ->]]; assumption.
Qed.

Lemma same_objects_refl (m : MachineFrameInfo) : same_objects m m.
Proof. constructor; try reflexivity. apply Forall2_same_length_lookup. split; [reflexivity |].
  intros i x y Hx Hy. rewrite Hx in Hy. injection Hy as <-. repeat split; reflexivity. Qed.

Lemma same_objects_at (m m' : MachineFrameInfo) (i : Z) (o : StackObject) :
  same_objects m m' → objectAt m i = Ret o → ∃ o', objectAt m' i = Ret o' ∧ same_object o o'.
Proof.
  intros HS H. apply objectAt_lookup in H as [H0 H].
  destruct (Forall2_lookup_l _ _ _ _ _ (so_objects _ _ HS) H) as (o' & Ho' & Hs).
  exists o'. split; [| exact Hs]. apply objectAt_lookup. rewrite (so_fixed _ _ HS). split; assumption.
Qed.

(** Setting an offset changes one object. *)
Lemma setObjectOffset_spec (m0 m : MachineFrameInfo) (i off : Z) (o : StackObject) :
  same_objects m0 m → objectAt m i = Ret o → isDead o = false →
  ∃ m', setObjectOffset m i off = Ret m' ∧ same_objects m0 m' ∧
    objectAt m' i = Ret (mkStackObject (ObjSize o) off (ObjAlign o) (isDead o)) ∧
    ∀ j, 0 ≤ j + NumFixedObjects m0 → j ≠ i → objectAt m' j = objectAt m j.
Proof.
  intros HS H Hd. unfold setObjectOffset. rewrite H, outcome_bind_ret, Hd. cbn [negb cassert].
  rewrite outcome_bind_ret. eexists. split; [reflexivity |].
  apply objectAt_lookup in H as [H0 H]. pose proof (so_fixed _ _ HS) as Hf.
  assert (HL : (Z.to_nat (i + NumFixedObjects m) < length (Objects m))%nat) by (eapply lookup_lt_Some; exact H).
  split; [| split].
  - destruct HS as [H1 H2 H3 H4 HM HI HT H5]. constructor; cbn; try assumption.
    apply Forall2_same_length_lookup. split; [rewrite length_insert; eapply Forall2_length; exact H5 |].
    intros k x y Hx Hy. destruct (decide (k = Z.to_nat (i + NumFixedObjects m))) as [-> | Hk].
    + rewrite list_lookup_insert_eq in Hy by exact HL. injection Hy as <-.
      destruct (Forall2_lookup_lr _ _ _ _ _ _ H5 Hx H) as (Ha & Hb & Hc).
      repeat split; cbn; congruence.
    + rewrite list_lookup_insert_ne in Hy by congruence. exact (Forall2_lookup_lr _ _ _ _ _ _ H5 Hx Hy).
  - apply objectAt_lookup. cbn. split; [exact H0 |]. apply list_lookup_insert_eq. exact HL.
  - intros j Hj Hne. unfold objectAt. cbn [NumFixedObjects Objects withObjects].
    unfold at_index. destruct (_ <? 0); [reflexivity |]. rewrite list_lookup_insert_ne by lia. reflexivity.
Qed.

(** ** Placing objects *)

Lemma placed_nil (m : MachineFrameInfo) (F C : Z) : placed m F C [] m F.
Proof.
  constructor; [apply same_objects_refl | reflexivity | set_solver | set_solver |]. cbn. lia.
Qed.

(** One more object: its slot ends at the new offset. *)
Lemma placed_cons (m0 m m' : MachineFrameInfo) (F C Off Off' i : Z) (P : list Z) (o : StackObject) :
  placed m0 F C P m Off → 0 ≤ i → 0 ≤ NumFixedObjects m0 → i ∉ P → objectAt m i = Ret o → isDead o = false →
  (ObjAlign o | Off') → Off + ObjSize o ≤ Off' ≤ Off + C → 0 ≤ ObjSize o →
  same_objects m0 m' → objectAt m' i = Ret (mkStackObject (ObjSize o) (- Off') (ObjAlign o) (isDead o)) →
  (∀ j, 0 ≤ j + NumFixedObjects m0 → j ≠ i → objectAt m' j = objectAt m j) →
  placed m0 F C (i :: P) m' Off'.
Proof.
  intros [HS HR HP HA HB] Hi Hn Hni Ho Hd Hal Hoff Hsz HS' Hi' Hj'. constructor.
  - exact HS'.
  - intros j Hj Hnj. apply not_elem_of_cons in Hnj as [Hne Hnj]. rewrite Hj' by assumption. apply HR; assumption.
  - intros j Hj. apply elem_of_cons in Hj as [-> | Hj].
    + split; [exact Hi |]. eexists. split; [exact Hi' |]. cbn. split; [exact Hd |].
      split; [apply Z.divide_opp_r; exact Hal |]. lia.
    + destruct (HP j Hj) as (H0 & oj & Hoj & Hdj & Halj & Hlo & Hhi). split; [exact H0 |].
      exists oj. rewrite Hj' by (lia || set_solver). split; [exact Hoj |]. split; [exact Hdj |].
      split; [exact Halj |]. lia.
  - assert (Hnew : ∀ j oj, j ∈ P → objectAt m' j = Ret oj →
        - Off' + ObjSize o ≤ SPOffset oj).
    { intros j oj Hj Hoj. destruct (HP j Hj) as (H0 & oj' & Hoj' & _ & _ & _ & Hhi).
      rewrite Hj', Hoj' in Hoj by (lia || set_solver). injection Hoj as <-. lia. }
    intros j k oj ok Hj Hk Hne Hoj Hok. apply elem_of_cons in Hj as [-> | Hj], Hk as [-> | Hk]; [congruence | | |].
    + rewrite Hi' in Hoj. injection Hoj as <-. left. cbn. apply (Hnew k); assumption.
    + rewrite Hi' in Hok. injection Hok as <-. right. cbn. apply (Hnew j); assumption.
    + destruct (HP j Hj) as [Hj0 _], (HP k Hk) as [Hk0 _].
      rewrite Hj' in Hoj by (lia || set_solver). rewrite Hj' in Hok by (lia || set_solver).
      exact (HA j k oj ok Hj Hk Hne Hoj Hok).
  - cbn [length]. lia.
Qed.

Lemma placed_perm (m0 : MachineFrameInfo) (F C : Z) (P P' : list Z) (m : MachineFrameInfo) (Off : Z) :
  P ≡ₚ P' → placed m0 F C P m Off → placed m0 F C P' m Off.
Proof.
  intros Hp [HS HR HP HA HB]. constructor.
  - exact HS.
  - intros i Hi Hn. apply HR; [exact Hi | rewrite Hp; exact Hn].
  - intros i Hi. apply HP. rewrite Hp. exact Hi.
  - intros i j oi oj Hi Hj. apply HA; rewrite Hp; assumption.
  - rewrite <- Hp. exact HB.
Qed.

Section layout.
Context (E : PEI) (m0 : MachineFrameInfo) (F C : Z).
Hypothesis Hcount : 0 ≤ NumFixedObjects m0 ≤ Z.of_nat (length (Objects m0)).
Hypothesis Hlocal : ∀ i o, 0 ≤ i → objectAt m0 i = Ret o →
  0 ≤ ObjSize o ∧ power_of_two (ObjAlign o) ∧ ObjSize o + ObjAlign o ≤ C.
Hypothesis HF : 0 ≤ F.
Hypothesis Hbudget : F + (getObjectIndexEnd m0 + 1) * C + 2 ^ 32 ≤ 2 ^ 62.
Hypothesis HC : 0 < C.

(** A local object that is alive in the frame before the pass. *)
Definition live (i : Z) : Prop := 0 ≤ i ∧ ∃ o, objectAt m0 i = Ret o ∧ isDead o = false.

Lemma live_range (i : Z) : live i → 0 ≤ i < getObjectIndexEnd m0.
Proof.
  intros [Hi (o & Ho & _)]. split; [exact Hi |]. apply objectAt_lookup in Ho as [H0 Ho].
  apply lookup_lt_Some in Ho. unfold getObjectIndexEnd. lia.
Qed.

(** As many objects have been placed as there are at most. *)
Lemma placed_length (P : list Z) : NoDup P → (∀ i, i ∈ P → live i) → Z.of_nat (length P) ≤ getObjectIndexEnd m0.
Proof.
  intros HN HL. assert (HS : P ⊆+ seqZ 0 (getObjectIndexEnd m0)).
  { apply NoDup_submseteq; [exact HN |]. intros i Hi. apply elem_of_seqZ. pose proof (live_range i (HL i Hi)). lia. }
  apply submseteq_length in HS. rewrite length_seqZ in HS.
  unfold getObjectIndexEnd in *. lia.
Qed.

(** The computation every object goes through. *)
Lemma place_slot (P : list Z) (m : MachineFrameInfo) (Off i : Z) :
  placed m0 F C P m Off → live i → i ∉ P → NoDup P → (∀ j, j ∈ P → live j) →
  ∃ o Off' m', objectAt m0 i = Ret o ∧ getObjectSize m i = Ret (ObjSize o) ∧ getObjectAlignment m i = Ret (ObjAlign o) ∧
    alignTo (u64 (i64 (Off + ObjSize o))) (ObjAlign o) 0 = Ret Off' ∧ i64 Off' = Off' ∧
    setObjectOffset m i (- Off') = Ret m' ∧ placed m0 F C (i :: P) m' Off' ∧ Off ≤ Off'.
Proof.
  intros HP [Hi (o & Ho & Hd)] Hni HN HL. exists o.
  destruct (Hlocal i o Hi Ho) as (Hsz & Hpow & HszC). destruct (power_of_two_range _ Hpow) as [Ha1 Ha2].
  assert (Hom : objectAt m i = Ret o) by (rewrite (pl_rest _ _ _ _ _ _ HP) by (lia || exact Hni); exact Ho).
  assert (Hlen : Z.of_nat (length (i :: P)) ≤ getObjectIndexEnd m0).
  { apply placed_length; [constructor; assumption |]. intros j Hj. apply elem_of_cons in Hj as [-> | Hj]; [| auto].
    split; [exact Hi | exists o; split; assumption]. }
  cbn [length] in Hlen. pose proof (pl_bound _ _ _ _ _ _ HP) as HB.
  assert (Hmul : (Z.of_nat (length P) + 1) * C ≤ (getObjectIndexEnd m0 + 1) * C) by (apply Z.mul_le_mono_nonneg_r; lia).
  rewrite (sint_small 64 (Off + ObjSize o)) by lia.
  destruct (alignTo_i64 (Off + ObjSize o) (ObjAlign o)) as (Off' & HA & Hi64 & Hb & Hdiv); [lia .. |].
  destruct (setObjectOffset_spec m0 m i (- Off') o (pl_same _ _ _ _ _ _ HP) Hom Hd) as (m' & Hset & HS' & Hat & Hoth).
  exists Off', m'. split; [exact Ho |]. split; [apply getObjectSize_at; exact Hom |].
  split; [apply getObjectAlignment_at; exact Hom |]. split; [exact HA |]. split; [exact Hi64 |]. split; [exact Hset |].
  split; [apply (placed_cons m0 m m' F C Off Off' i P o); try assumption; lia | lia].
Qed.

(** [l] can be placed after [P]. *)
Definition to_place (l P : list Z) : Prop := NoDup (l ++ P) ∧ ∀ i, i ∈ l ++ P → live i.

Lemma to_place_cons (i : Z) (l P : list Z) : to_place (i :: l) P → to_place l (i :: P).
Proof.
  intros [HN HL]. assert (Hperm : i :: l ++ P ≡ₚ l ++ i :: P) by apply Permutation_middle. split.
  - rewrite <- Hperm. exact HN.
  - intros j Hj. apply HL. rewrite <- Hperm in Hj. exact Hj.
Qed.

Lemma to_place_here (i : Z) (l P : list Z) :
  to_place (i :: l) P → live i ∧ i ∉ P ∧ NoDup P ∧ ∀ j, j ∈ P → live j.
Proof.
  intros [HN HL]. cbn [app] in HN. apply NoDup_cons in HN as [Hi HN]. apply NoDup_app in HN as (_ & _ & HN).
  split; [apply HL; left |]. split; [set_solver |]. split; [exact HN |]. intros j Hj. apply HL. set_solver.
Qed.

Lemma adjustCalleeSaved_spec (l P : list Z) (m : MachineFrameInfo) (Off : Z) :
  placed m0 F C P m Off → to_place l P →
  ∃ m' Off', adjustCalleeSaved m l Off = Ret (m', Off') ∧ placed m0 F C (l ++ P) m' Off' ∧ Off ≤ Off'.
Proof.
  revert P m Off. induction l as [| i l IH]; intros P m Off HP HL.
  - exists m, Off. split; [reflexivity |]. split; [exact HP | lia].
  - destruct (to_place_here _ _ _ HL) as (Hi & Hni & HN & HLP).
    destruct (place_slot P m Off i HP Hi Hni HN HLP) as (o & Off1 & m1 & Ho & H1 & H2 & H3 & H4 & H5 & HP1 & Hge).
    destruct (IH (i :: P) m1 Off1 HP1 (to_place_cons _ _ _ HL)) as (m' & Off' & HE & HP' & Hle).
    exists m', Off'. cbn [adjustCalleeSaved]. rewrite H1, outcome_bind_ret, H2, outcome_bind_ret, H3, outcome_bind_ret.
    rewrite H4, H5, outcome_bind_ret, HE. split; [reflexivity |].
    split; [| lia]. apply (placed_perm _ _ _ (l ++ i :: P)); [| exact HP']. symmetry. apply Permutation_middle.
Qed.

Definition align_ok (a : Z) : Prop := a = 0 ∨ power_of_two a.

Lemma adjustAll_spec (l P : list Z) (m : MachineFrameInfo) (Off MaxAlign : Z) :
  placed m0 F C P m Off → to_place l P → align_ok MaxAlign →
  ∃ m' Off' MaxAlign', adjustAll m l Off MaxAlign = Ret (m', Off', MaxAlign') ∧
    placed m0 F C (l ++ P) m' Off' ∧ Off ≤ Off' ∧ align_ok MaxAlign'.
Proof.
  revert P m Off MaxAlign. induction l as [| i l IH]; intros P m Off MaxAlign HP HL HM.
  - exists m, Off, MaxAlign. split; [reflexivity |]. split; [exact HP |]. split; [lia | exact HM].
  - destruct (to_place_here _ _ _ HL) as (Hi & Hni & HN & HLP).
    destruct (place_slot P m Off i HP Hi Hni HN HLP) as (o & Off1 & m1 & Ho & H1 & H2 & H3 & H4 & H5 & HP1 & Hge).
    destruct (Hlocal i o (proj1 Hi) Ho) as (_ & Hpow & _).
    destruct (IH (i :: P) m1 Off1 (Z.max MaxAlign (ObjAlign o)) HP1 (to_place_cons _ _ _ HL))
      as (m' & Off' & MA & HE & HP' & Hle & HM'); [right; apply max_power_of_two; assumption |].
    exists m', Off', MA. cbn [adjustAll]. unfold AdjustStackOffset.
    rewrite H1, outcome_bind_ret, H2, outcome_bind_ret, H3, outcome_bind_ret, H4, H5, !outcome_bind_ret, HE.
    split; [reflexivity |]. split; [| split; [lia | exact HM']].
    apply (placed_perm _ _ _ (l ++ i :: P)); [| exact HP']. symmetry. apply Permutation_middle.
Qed.

(** With no byte free the objects are placed one after the other. *)
Lemma allocateObjects_adjustAll (l P : list Z) (m : MachineFrameInfo) (Off MaxAlign : Z) :
  placed m0 F C P m Off → to_place l P → align_ok MaxAlign →
  allocateObjects m l [] Off MaxAlign = adjustAll m l Off MaxAlign.
Proof.
  revert P m Off MaxAlign. induction l as [| i l IH]; intros P m Off MaxAlign HP HL HM; [reflexivity |].
  destruct (to_place_here _ _ _ HL) as (Hi & Hni & HN & HLP).
  destruct (place_slot P m Off i HP Hi Hni HN HLP) as (o & Off1 & m1 & Ho & H1 & H2 & H3 & H4 & H5 & HP1 & Hge).
  destruct (Hlocal i o (proj1 Hi) Ho) as (_ & Hpow & _).
  cbn [allocateObjects adjustAll]. unfold scavengeStackSlot, isVariableSizedObjectIndex.
  rewrite (pl_rest _ _ _ _ _ _ HP i) by (destruct Hi; lia || exact Hni). rewrite Ho, !outcome_bind_ret.
  cbn [forallb]. transitivity (AdjustStackOffset m i Off MaxAlign ≫= λ '(m, Offset, MaxAlign),
    allocateObjects m l [] Offset MaxAlign); [destruct (ObjSize o =? 0); rewrite !outcome_bind_ret; reflexivity |].
  unfold AdjustStackOffset.
  rewrite H1, outcome_bind_ret, H2, outcome_bind_ret, H3, outcome_bind_ret, H4, H5, !outcome_bind_ret.
  apply (IH (i :: P)); [exact HP1 | apply to_place_cons; exact HL | right; apply max_power_of_two; assumption].
Qed.

Lemma allocateObjects_spec (l P : list Z) (m : MachineFrameInfo) (Off MaxAlign : Z) :
  placed m0 F C P m Off → to_place l P → align_ok MaxAlign →
  ∃ m' Off' MaxAlign', allocateObjects m l [] Off MaxAlign = Ret (m', Off', MaxAlign') ∧
    placed m0 F C (l ++ P) m' Off' ∧ Off ≤ Off' ∧ align_ok MaxAlign'.
Proof.
  intros HP HL HM. rewrite (allocateObjects_adjustAll l P m Off MaxAlign HP HL HM). apply adjustAll_spec; assumption.
Qed.

(** ** The frame as a whole *)

Lemma isDead_same (m : MachineFrameInfo) (i : Z) :
  same_objects m0 m →
  match isDeadObjectIndex m i with Ret d => d | _ => false end =
  match isDeadObjectIndex m0 i with Ret d => d | _ => false end.
Proof.
  intros HS. unfold isDeadObjectIndex. destruct (objectAt m0 i) as [o | | | |] eqn:Ho.
  1: { destruct (same_objects_at m0 m i o HS Ho) as (o' & -> & _ & _ & Hd). rewrite !outcome_bind_ret. exact Hd. }
  all: destruct (objectAt m i) as [o' | | | |] eqn:Ho'; try reflexivity; exfalso;
    apply objectAt_lookup in Ho' as [H0 Ho']; rewrite (so_fixed _ _ HS) in H0, Ho';
    destruct (Forall2_lookup_r _ _ _ _ _ (so_objects _ _ HS) Ho') as (o & Hl & _);
    pose proof (proj2 (objectAt_lookup m0 i o) (conj H0 Hl)); congruence.
Qed.

Lemma skipped_same (m : MachineFrameInfo) (i : Z) : same_objects m0 m → skipped E m i = skipped E m0 i.
Proof. intros HS. unfold skipped. rewrite (isDead_same m i HS). reflexivity. Qed.

Lemma localIndices_same (m : MachineFrameInfo) : same_objects m0 m → localIndices m = localIndices m0.
Proof.
  intros HS. unfold localIndices, getObjectIndexEnd.
  rewrite (so_fixed _ _ HS), <- (Forall2_length _ _ _ (so_objects _ _ HS)). reflexivity.
Qed.

Lemma protectedObjs_same (m : MachineFrameInfo) (k : SSPLayoutKind) :
  same_objects m0 m → protectedObjs E m k = protectedObjs E m0 k.
Proof.
  intros HS. unfold protectedObjs. rewrite (localIndices_same m HS). apply List.filter_ext.
  intros i. rewrite (skipped_same m i HS). reflexivity.
Qed.

(** Everything the pass places, in one list. *)
Definition specials : list Z :=
  csIndices E ++ List.filter (λ i, 0 <=? i) (ScavengingFrameIndices E) ++
  (if 0 <=? StackProtectorIndex E then [StackProtectorIndex E] else []).

Definition protecteds : list Z :=
  if 0 <=? StackProtectorIndex E then
    protectedObjs E m0 SSPLK_LargeArray ++ protectedObjs E m0 SSPLK_SmallArray ++ protectedObjs E m0 SSPLK_AddrOf
  else [].

Definition others : list Z :=
  List.filter (λ i, negb (skipped E m0 i) && negb (bool_decide (i ∈ protecteds))) (localIndices m0).

Definition allPlaced : list Z := specials ++ protecteds ++ others.

Hypothesis Hspecial : NoDup specials.
Hypothesis Hspecial_live : ∀ i, i ∈ specials → live i.

Lemma elem_of_filter_local (f : Z → bool) (i : Z) :
  i ∈ List.filter f (localIndices m0) ↔ f i = true ∧ 0 ≤ i < getObjectIndexEnd m0.
Proof.
  rewrite list_elem_of_In, List.filter_In, <- list_elem_of_In. unfold localIndices. rewrite elem_of_seqZ. split; intros [H1 H2]; split; try assumption; lia.
Qed.

Lemma skipped_special (i : Z) : i ∈ specials → skipped E m0 i = true.
Proof.
  intros Hi. unfold skipped. apply orb_true_iff. unfold specials in Hi. rewrite !elem_of_app in Hi.
  destruct Hi as [Hi | [Hi | Hi]].
  - left. apply orb_true_iff. left. apply orb_true_iff. left. apply elem_of_seqZ in Hi. lia.
  - left. apply orb_true_iff. left. apply orb_true_iff. right. apply bool_decide_true.
    rewrite list_elem_of_In, List.filter_In in Hi. apply list_elem_of_In. apply Hi.
  - right. destruct (0 <=? StackProtectorIndex E); [| set_solver]. apply list_elem_of_singleton in Hi as ->.
    apply Z.eqb_refl.
Qed.

Lemma not_skipped_live (i : Z) : 0 ≤ i < getObjectIndexEnd m0 → skipped E m0 i = false → live i.
Proof.
  intros Hi Hs. split; [lia |]. unfold getObjectIndexEnd in Hi.
  destruct (lookup_lt_is_Some_2 (Objects m0) (Z.to_nat (i + NumFixedObjects m0)) ltac:(lia)) as [o Ho].
  assert (Hat : objectAt m0 i = Ret o) by (apply objectAt_lookup; split; [lia | exact Ho]). exists o. split; [exact Hat |].
  unfold skipped, isDeadObjectIndex in Hs. rewrite Hat, outcome_bind_ret in Hs.
  destruct (isDead o); [| reflexivity]. rewrite orb_true_r in Hs. discriminate Hs.
Qed.

Lemma protectedObjs_spec (k : SSPLayoutKind) (i : Z) :
  i ∈ protectedObjs E m0 k ↔ 0 ≤ i < getObjectIndexEnd m0 ∧ skipped E m0 i = false ∧ getSSPLayout E i = k.
Proof.
  unfold protectedObjs. rewrite elem_of_filter_local, andb_true_iff, negb_true_iff, bool_decide_eq_true. tauto.
Qed.

Lemma NoDup_filter_local (f : Z → bool) : NoDup (List.filter f (localIndices m0)).
Proof. apply NoDup_ListNoDup, List.NoDup_filter, NoDup_ListNoDup, NoDup_seqZ. Qed.

Lemma protecteds_not_skipped (i : Z) : i ∈ protecteds → 0 ≤ i < getObjectIndexEnd m0 ∧ skipped E m0 i = false.
Proof.
  unfold protecteds. destruct (0 <=? StackProtectorIndex E); [| set_solver].
  rewrite !elem_of_app, !protectedObjs_spec. tauto.
Qed.

Lemma others_spec (i : Z) :
  i ∈ others ↔ 0 ≤ i < getObjectIndexEnd m0 ∧ skipped E m0 i = false ∧ i ∉ protecteds.
Proof.
  unfold others. rewrite elem_of_filter_local, andb_true_iff, !negb_true_iff, bool_decide_eq_false. tauto.
Qed.

Lemma NoDup_protecteds : NoDup protecteds.
Proof.
  unfold protecteds. destruct (0 <=? StackProtectorIndex E); [| constructor].
  rewrite !NoDup_app. split_and!; try apply NoDup_filter_local.
  all: intros i; rewrite ?elem_of_app, !protectedObjs_spec; intuition congruence.
Qed.

(** Every object is placed once. *)
Lemma allPlaced_NoDup : NoDup allPlaced.
Proof.
  unfold allPlaced. apply NoDup_app. split_and!; [exact Hspecial | |].
  - intros i Hi. apply skipped_special in Hi. rewrite elem_of_app, others_spec. intros [H | H].
    + apply protecteds_not_skipped in H. intuition congruence.
    + intuition congruence.
  - apply NoDup_app. split_and!; [exact NoDup_protecteds | | apply NoDup_filter_local].
    intros i Hi. rewrite others_spec. tauto.
Qed.

Lemma allPlaced_live (i : Z) : i ∈ allPlaced → live i.
Proof.
  unfold allPlaced. rewrite !elem_of_app, others_spec. intros [H | [H | (H1 & H2 & _)]]; [auto | |].
  - apply protecteds_not_skipped in H as [H1 H2]. apply not_skipped_live; assumption.
  - apply not_skipped_live; assumption.
Qed.

(** Every object that is alive is placed. *)
Lemma allPlaced_complete (i : Z) : live i → i ∈ allPlaced.
Proof.
  intros HL. pose proof (live_range i HL) as Hr. destruct HL as [_ (o & Ho & Hd)].
  unfold allPlaced. rewrite !elem_of_app, others_spec.
  destruct (skipped E m0 i) eqn:Hs.
  - left. unfold skipped, isDeadObjectIndex in Hs. rewrite Ho, outcome_bind_ret, Hd, orb_false_r in Hs.
    unfold specials. rewrite !elem_of_app. apply orb_true_iff in Hs as [Hs | Hs].
    + apply orb_true_iff in Hs as [Hs | Hs]; [left; apply elem_of_seqZ; lia |].
      right. left. apply bool_decide_eq_true in Hs. apply list_elem_of_In, List.filter_In.
      split; [apply list_elem_of_In; exact Hs | lia].
    + right. right. rewrite (proj2 (Z.leb_le 0 _)) by lia. apply list_elem_of_singleton. lia.
  - right. destruct (decide (i ∈ protecteds)); [left; assumption | right; auto].
Qed.

(** A part of the list that is still to be placed. *)
Lemma to_place_part (l P : list Z) : l ++ P ⊆+ allPlaced → to_place l P.
Proof.
  intros HS. split.
  - apply submseteq_Permutation in HS as [k Hk]. pose proof allPlaced_NoDup as HN. rewrite Hk in HN.
    apply NoDup_app in HN. apply HN.
  - intros i Hi. apply allPlaced_live. apply (elem_of_submseteq _ _ _ Hi HS).
Qed.

Definition sfis : list Z := List.filter (λ i, 0 <=? i) (ScavengingFrameIndices E).
Definition protector : list Z := if 0 <=? StackProtectorIndex E then [StackProtectorIndex E] else [].
Definition onlyIf (b : bool) (l : list Z) : list Z := if b then l else [].

Lemma optional_adjustAll (b : bool) (l P : list Z) (m : MachineFrameInfo) (Off MaxAlign : Z) :
  placed m0 F C P m Off → to_place (onlyIf b l) P → align_ok MaxAlign →
  ∃ m' Off' MaxAlign',
    (if b then adjustAll m l Off MaxAlign else Ret (m, Off, MaxAlign)) = Ret (m', Off', MaxAlign') ∧
    placed m0 F C (onlyIf b l ++ P) m' Off' ∧ align_ok MaxAlign'.
Proof.
  intros HP HL HM. destruct b.
  - destruct (adjustAll_spec l P m Off MaxAlign HP HL HM) as (m' & Off' & MA & HE & HP' & _ & HM').
    exists m', Off', MA. auto.
  - exists m, Off, MaxAlign. auto.
Qed.

(** The protector and the objects next to it. *)
Lemma protector_step (P : list Z) (m : MachineFrameInfo) (Off MaxAlign : Z) :
  placed m0 F C P m Off → to_place (protector ++ protecteds) P → align_ok MaxAlign →
  ∃ m' Off' MaxAlign',
    (if 0 <=? StackProtectorIndex E then
       AdjustStackOffset m (StackProtectorIndex E) Off MaxAlign ≫= λ '(m, Offset, MaxAlign),
       let protected :=
         protectedObjs E m SSPLK_LargeArray ++ protectedObjs E m SSPLK_SmallArray ++ protectedObjs E m SSPLK_AddrOf in
       adjustAll m protected Offset MaxAlign ≫= λ '(m, Offset, MaxAlign), Ret (m, Offset, MaxAlign, protected)
     else Ret (m, Off, MaxAlign, [])) = Ret (m', Off', MaxAlign', protecteds) ∧
    placed m0 F C (protector ++ protecteds ++ P) m' Off' ∧ align_ok MaxAlign'.
Proof.
  intros HP HL HM. unfold protector, protecteds in *. destruct (0 <=? StackProtectorIndex E); [| exists m, Off, MaxAlign; auto].
  set (sp := StackProtectorIndex E) in *. cbn [app] in HL.
  destruct (to_place_here _ _ _ HL) as (Hi & Hni & HN & HLP).
  assert (HL1 : to_place [sp] P).
  { split; cbn [app]; [constructor; assumption |]. intros j Hj. apply elem_of_cons in Hj as [-> | Hj]; auto. }
  destruct (adjustAll_spec [sp] P m Off MaxAlign HP HL1 HM) as (m1 & Off1 & MA1 & HE1 & HP1 & _ & HM1).
  pose proof (pl_same _ _ _ _ _ _ HP1) as HS. cbn [adjustAll] in HE1.
  assert (HA : AdjustStackOffset m sp Off MaxAlign = Ret (m1, Off1, MA1)).
  { rewrite <- HE1. destruct (AdjustStackOffset m sp Off MaxAlign) as [[[? ?] ?] | | | |]; reflexivity. }
  rewrite HA, outcome_bind_ret, !(protectedObjs_same m1 _ HS).
  set (pr := protectedObjs E m0 SSPLK_LargeArray ++ _) in *.
  destruct (adjustAll_spec pr (sp :: P) m1 Off1 MA1 HP1 (to_place_cons _ _ _ HL) HM1)
    as (m2 & Off2 & MA2 & HE2 & HP2 & _ & HM2).
  exists m2, Off2, MA2. cbv zeta. rewrite HE2, outcome_bind_ret. split; [reflexivity |]. split; [| exact HM2].
  apply (placed_perm _ _ _ (pr ++ sp :: P)); [symmetry; cbn [app]; apply Permutation_middle | exact HP2].
Qed.

(** The whole computation, up to the rounding. *)
Lemma calculateFrameObjectOffsets_eq (MF : MachineFunction) :
  MFI MF = m0 → align_ok (MaxAlignment m0) →
  fixedObjectsExtent m0 (getObjectIndexBegin m0) (Z.to_nat (- getObjectIndexBegin m0)) 0 = Ret F →
  ∃ m' Off MaxAlign,
    calculateFrameObjectOffsets E MF =
      (roundStackSize E MF m' Off MaxAlign ≫= λ Offset, Ret (setStackSize m' (u64 (Offset - 0)))) ∧
    placed m0 F C allPlaced m' Off ∧ align_ok MaxAlign.
Proof.
  intros Hm HA HFx. unfold calculateFrameObjectOffsets. rewrite Hm, HFx, outcome_bind_ret. cbv zeta.
  set (early := hasFP MF && _ && _ && _). fold sfis.
  (* what a step places is a part of the whole *)
  assert (Hparts : csIndices E ++ sfis ++ protector ++ protecteds ++ others ⊆+ allPlaced).
  { unfold allPlaced, specials. fold sfis protector. rewrite <- !app_assoc. reflexivity. }
  destruct (adjustCalleeSaved_spec (csIndices E) [] m0 F (placed_nil m0 F C)) as (m1 & O1 & E1 & P1 & _).
  { apply to_place_part. etrans; [| exact Hparts]. solve_submseteq. }
  rewrite E1, outcome_bind_ret. clear E1.
  destruct (optional_adjustAll early sfis _ m1 O1 (MaxAlignment m1) P1) as (m2 & O2 & A2 & E2 & P2 & HA2).
  { apply to_place_part. etrans; [| exact Hparts]. destruct early; cbn [onlyIf]; solve_submseteq. }
  { rewrite (so_align _ _ (pl_same _ _ _ _ _ _ P1)). exact HA. }
  rewrite E2, outcome_bind_ret. clear E2.
  destruct (protector_step _ m2 O2 A2 P2) as (m3 & O3 & A3 & E3 & P3 & HA3); [| exact HA2 |].
  { apply to_place_part. etrans; [| exact Hparts]. destruct early; cbn [onlyIf]; solve_submseteq. }
  cbv zeta in E3. rewrite E3, outcome_bind_ret. clear E3.
  assert (HO : List.filter (λ i, negb (skipped E m3 i) && negb (bool_decide (i ∈ protecteds))) (localIndices m3) = others).
  { pose proof (pl_same _ _ _ _ _ _ P3) as HS3. unfold others. rewrite (localIndices_same m3 HS3).
    apply List.filter_ext. intros i. rewrite (skipped_same m3 i HS3). reflexivity. }
  rewrite HO. clear HO. unfold enableStackSlotScavenging. rewrite andb_false_r, outcome_bind_ret.
  destruct (allocateObjects_spec others _ m3 O3 A3 P3) as (m4 & O4 & A4 & E4 & P4 & _ & HA4); [| exact HA3 |].
  { apply to_place_part. etrans; [| exact Hparts]. destruct early; cbn [onlyIf]; solve_submseteq. }
  rewrite E4, outcome_bind_ret. clear E4.
  destruct (optional_adjustAll (negb early) sfis _ m4 O4 A4 P4) as (m5 & O5 & A5 & E5 & P5 & HA5); [| exact HA4 |].
  { apply to_place_part. etrans; [| exact Hparts]. destruct early; cbn [negb onlyIf]; solve_submseteq. }
  rewrite E5, outcome_bind_ret. clear E5.
  exists m5, O5, A5. split; [reflexivity |]. split; [| exact HA5].
  refine (placed_perm _ _ _ _ _ _ _ _ P5). unfold allPlaced, specials. fold sfis protector.
  destruct early; cbn [negb onlyIf]; rewrite !app_nil_r, ?app_nil_l; solve_Permutation.
Qed.
End layout.

(** ** The layout *)

(** The extent of the fixed objects. *)
Lemma fixed_extent (m : MachineFrameInfo) (F : Z) :
  0 ≤ F → 0 ≤ NumFixedObjects m ≤ Z.of_nat (length (Objects m)) →
  (∀ j o, - NumFixedObjects m ≤ j < 0 → objectAt m j = Ret o → isDead o = false ∧ - SPOffset o ≤ F) →
  ∃ F', fixedObjectsExtent m (getObjectIndexBegin m) (Z.to_nat (- getObjectIndexBegin m)) 0 = Ret F' ∧
    0 ≤ F' ≤ F ∧ ∀ j o, - NumFixedObjects m ≤ j < 0 → objectAt m j = Ret o → - SPOffset o ≤ F'.
Proof.
  intros HF HN HX. unfold getObjectIndexBegin. rewrite Z.opp_involutive.
  set (fixed := take (Z.to_nat (NumFixedObjects m)) (Objects m)).
  assert (HL : length (map SPOffset fixed) = Z.to_nat (NumFixedObjects m)).
  { rewrite length_map. unfold fixed. rewrite length_take. lia. }
  assert (Hat : ∀ k o, fixed !! k = Some o → objectAt m (- NumFixedObjects m + Z.of_nat k) = Ret o ∧
                 - NumFixedObjects m ≤ - NumFixedObjects m + Z.of_nat k < 0).
  { intros k o Hk. pose proof (lookup_lt_Some _ _ _ Hk) as Hlt. rewrite length_map in HL.
    split; [| lia]. apply objectAt_lookup. split; [lia |].
    replace (Z.to_nat _) with k by lia. unfold fixed in Hk. rewrite lookup_take_lt in Hk by lia. exact Hk. }
  destruct (fixedObjectsExtent_spec m (map SPOffset fixed) (- NumFixedObjects m) 0 F) as (F' & HE & HB & HA).
  - intros k x Hk. apply list_lookup_fmap_Some in Hk as (o & -> & Hk). destruct (Hat k o Hk) as [Ho Hr].
    unfold getObjectOffset. unfold objectAt in Ho. rewrite Ho, outcome_bind_ret.
    destruct (HX _ o Hr Ho) as [-> _]. reflexivity.
  - exact HF.
  - apply Forall_map, Forall_lookup. intros k o Hk. destruct (Hat k o Hk) as [Ho Hr]. apply (HX _ o Hr Ho).
  - rewrite HL in HE. exists F'. split; [exact HE |]. split; [exact HB |]. intros j o Hj Ho.
    apply objectAt_lookup in Ho as [_ Ho]. rewrite Forall_lookup in HA.
    apply (HA (Z.to_nat (j + NumFixedObjects m)) (SPOffset o)). apply list_lookup_fmap_Some. exists o.
    split; [reflexivity |]. unfold fixed. rewrite lookup_take_lt by lia. exact Ho.
Qed.

(** The rounding keeps a multiple of 64 and leaves room for the call frames. *)
Lemma roundStackSize_spec (E : PEI) (MF : MachineFunction) (m : MachineFrameInfo) (Off MaxAlign : Z) :
  align_ok MaxAlign → 0 ≤ Off → 0 ≤ getMaxCallFrameSize m → Off + getMaxCallFrameSize m ≤ 2 ^ 62 →
  ∃ S, roundStackSize E MF m Off MaxAlign = Ret S ∧ (64 | S) ∧ Off ≤ S ≤ 2 ^ 63 - 1 ∧
    (AdjustsStack m && hasReservedCallFrame MF = true → Off + getMaxCallFrameSize m ≤ S).
Proof.
  intros HA H0 Hc Hb. unfold roundStackSize, targetHandlesStackFrameRounding.
  change (getTransientStackAlignment) with getStackAlignment.
  set (b := AdjustsStack m && hasReservedCallFrame MF).
  set (V := if b then i64 (Off + getMaxCallFrameSize m) else Off).
  assert (HV : Off ≤ V ≤ 2 ^ 62 ∧ (b = true → V = Off + getMaxCallFrameSize m)).
  { unfold V. destruct b.
    - rewrite (sint_small 64) by lia. split; [lia | reflexivity].
    - split; [lia | discriminate]. }
  match goal with |- context [Z.max (if ?c then ?x else ?x) _] =>
    replace (if c then x else x) with x by (destruct c; reflexivity) end.
  assert (H64 : power_of_two getStackAlignment) by (exists 6; split; [lia | reflexivity]).
  assert (Hp : power_of_two (Z.max getStackAlignment MaxAlign))
    by (rewrite Z.max_comm; apply max_power_of_two; assumption).
  assert (Hd : (64 | Z.max getStackAlignment MaxAlign)).
  { destruct Hp as (k & Hk & Hp). rewrite Hp. assert (H6 : 6 ≤ k).
    { apply (Z.pow_le_mono_r_iff 2); [lia | lia |]. rewrite <- Hp. change (2 ^ 6) with getStackAlignment. lia. }
    exists (2 ^ (k - 6)). change 64 with (2 ^ 6). rewrite <- Z.pow_add_r by lia. f_equal. lia. }
  destruct (power_of_two_range _ Hp) as [Hp1 Hp2].
  destruct (alignTo_i64 V (Z.max getStackAlignment MaxAlign)) as (r & Hr & Hi & Hrb & Hrd); [lia | lia |].
  exists r. cbv zeta. fold V. rewrite Hr, outcome_bind_ret, Hi. split; [reflexivity |].
  split; [etrans; [exact Hd | exact Hrd] |]. split; [lia |]. intros Hb'. apply HV in Hb'. lia.
Qed.

(** A frame with more objects behind the others. *)
Record grown (m m' : MachineFrameInfo) (extra : list StackObject) : Prop := {
  gr_fixed : NumFixedObjects m' = NumFixedObjects m;
  gr_objects : Objects m' = Objects m ++ extra;
  gr_adjusts : AdjustsStack m' = AdjustsStack m;
  gr_varsized : HasVarSizedObjects m' = HasVarSizedObjects m;
  gr_address : FrameAddressTaken m' = FrameAddressTaken m;
  gr_call : MaxCallFrameSize m' = MaxCallFrameSize m;
  gr_align : align_ok (MaxAlignment m) → align_ok (MaxAlignment m');
}.

Lemma grown_refl (m : MachineFrameInfo) : grown m m [].
Proof. constructor; try reflexivity; [rewrite app_nil_r; reflexivity | auto]. Qed.

Lemma grown_trans (m1 m2 m3 : MachineFrameInfo) (e1 e2 : list StackObject) :
  grown m1 m2 e1 → grown m2 m3 e2 → grown m1 m3 (e1 ++ e2).
Proof.
  intros [A1 A2 A3 A4 A5 A6 A7] [B1 B2 B3 B4 B5 B6 B7]. constructor; try congruence; [| auto].
  rewrite B2, A2, app_assoc. reflexivity.
Qed.

Lemma getObjectIndexEnd_grown (m m' : MachineFrameInfo) (e : list StackObject) :
  grown m m' e → getObjectIndexEnd m' = getObjectIndexEnd m + Z.of_nat (length e).
Proof. intros H. unfold getObjectIndexEnd. rewrite (gr_fixed _ _ _ H), (gr_objects _ _ _ H), length_app. lia. Qed.

Lemma CreateStackObject_eq (m : MachineFrameInfo) (Size Align : Z) :
  Size ≠ 0 → 0 ≤ getObjectIndexEnd m → power_of_two Align →
  ∃ m', CreateStackObject m Size Align = Ret (getObjectIndexEnd m, m') ∧
    grown m m' [mkStackObject Size 0 Align false] ∧ CSInfo m' = CSInfo m.
Proof.
  intros Hs H0 HA. unfold CreateStackObject. rewrite (proj2 (Z.eqb_neq _ _) Hs).
  cbn [negb cassert]. rewrite outcome_bind_ret, length_app. cbn [length].
  replace (Z.of_nat (length (Objects m) + 1) - NumFixedObjects m - 1) with (getObjectIndexEnd m)
    by (unfold getObjectIndexEnd; lia).
  rewrite (proj2 (Z.leb_le 0 _) H0). cbn [cassert]. rewrite outcome_bind_ret.
  eexists. split; [reflexivity |]. split; [| reflexivity]. constructor; try reflexivity.
  cbn. intros HM. right. apply max_power_of_two; assumption.
Qed.

(** The object of a slot. *)
Definition slotObject (r : Nyuzi.reg) : StackObject :=
  mkStackObject (getSpillSize r) 0 (Z.min (getSpillAlignment r) getStackAlignment) false.

Lemma slotObject_spec (r : Nyuzi.reg) :
  getSpillSize r ≠ 0 ∧ power_of_two (Z.min (getSpillAlignment r) getStackAlignment) ∧
  0 ≤ getSpillSize r ∧ getSpillSize r + Z.min (getSpillAlignment r) getStackAlignment ≤ 128.
Proof.
  unfold getSpillSize, getSpillAlignment, getRegSizeInBits. destruct (Nyuzi.contains _ _).
  - split; [discriminate |]. split; [exists 2; split; [lia | reflexivity] |]. vm_compute. split; discriminate.
  - split; [discriminate |]. split; [exists 6; split; [lia | reflexivity] |]. vm_compute. split; discriminate.
Qed.

(** The slots of the callee-saved registers are new objects, one after the
    other. *)
Lemma assignSlots_spec (CSI : list Nyuzi.reg) (m : MachineFrameInfo) (Mn Mx : Z) :
  0 ≤ getObjectIndexEnd m → getObjectIndexEnd m + Z.of_nat (length CSI) < 2 ^ 31 →
  ∃ m', assignSlots m CSI Mn Mx =
      Ret (m', zip CSI (seqZ (getObjectIndexEnd m) (Z.of_nat (length CSI))),
           if decide (CSI = []) then Mn else Z.min Mn (getObjectIndexEnd m),
           if decide (CSI = []) then Mx else Z.max Mx (getObjectIndexEnd m + Z.of_nat (length CSI) - 1)) ∧
    grown m m' (map slotObject CSI).
Proof.
  revert m Mn Mx. induction CSI as [| r CSI IH]; intros m Mn Mx H0 Hn.
  - exists m. split; [reflexivity | apply grown_refl].
  - cbn [length] in Hn. cbn [assignSlots]. destruct (slotObject_spec r) as (Hr & Hp & _ & _).
    destruct (CreateStackObject_eq m _ _ Hr H0 Hp) as (m1 & HC & HG & _). cbv zeta. rewrite HC, outcome_bind_ret.
    pose proof (getObjectIndexEnd_grown _ _ _ HG) as HE. cbn [length] in HE. change (Z.of_nat 1) with 1 in HE.
    rewrite (uint_small 32 (getObjectIndexEnd m)) by lia.
    destruct (IH m1 (if getObjectIndexEnd m <? Mn then getObjectIndexEnd m else Mn)
                    (if Mx <? getObjectIndexEnd m then getObjectIndexEnd m else Mx)) as (m' & HA & HG'); [lia | lia |].
    exists m'. rewrite HA, outcome_bind_ret, HE. split; [| exact (grown_trans _ _ _ _ _ HG HG')].
    cbn [length]. rewrite Nat2Z.inj_succ, (seqZ_cons (getObjectIndexEnd m)) by lia. rewrite Z.pred_succ. cbn [zip_with].
    rewrite !(decide_False (P := r :: CSI = [])) by discriminate.
    assert (Hlen : CSI ≠ [] → 0 < Z.of_nat (length CSI)) by (destruct CSI; [congruence | cbn [length]; lia]).
    set (e := getObjectIndexEnd m) in *.
    assert (A1 : (if decide (CSI = []) then (if e <? Mn then e else Mn) else Z.min (if e <? Mn then e else Mn) (e + 1))
                 = Z.min Mn e) by (destruct (decide (CSI = [])), (Z.ltb_spec e Mn); lia).
    assert (A2 : (if decide (CSI = []) then (if Mx <? e then e else Mx)
                  else Z.max (if Mx <? e then e else Mx) (e + 1 + Z.of_nat (length CSI) - 1))
                 = Z.max Mx (e + Z.succ (Z.of_nat (length CSI)) - 1)).
    { destruct (decide (CSI = [])) as [-> | Hne], (Z.ltb_spec Mx e); cbn [length]; try specialize (Hlen Hne); lia. }
    rewrite A1, A2. reflexivity.
Qed.

(** The range the pass remembers is that of the slots. *)
Lemma assignCalleeSavedSpillSlots_spec (m : MachineFrameInfo) (SavedRegs : list Nyuzi.reg) :
  CSInfo m = [] → 0 ≤ getObjectIndexEnd m < 2 ^ 30 →
  let CSI := List.filter (λ r, bool_decide (r ∈ SavedRegs)) getCalleeSavedRegs in
  ∃ m' Mn Mx, assignCalleeSavedSpillSlots m SavedRegs = Ret (m', Mn, Mx) ∧
    grown m m' (map slotObject CSI) ∧
    CSInfo m' = zip CSI (seqZ (getObjectIndexEnd m) (Z.of_nat (length CSI))) ∧
    seqZ Mn (Mx - Mn + 1) = seqZ (getObjectIndexEnd m) (Z.of_nat (length CSI)).
Proof.
  intros HC HE. cbv zeta. unfold assignCalleeSavedSpillSlots.
  set (CSI := List.filter _ _). assert (HL : (length CSI ≤ 13)%nat).
  { unfold CSI. etrans; [apply List.filter_length_le |]. vm_compute. lia. }
  clearbody CSI. destruct CSI as [| r CSI].
  - exists m, UINT_MAX, 0. split; [reflexivity |]. split; [apply grown_refl |]. split; [exact HC | reflexivity].
  - destruct (assignSlots_spec (r :: CSI) m UINT_MAX 0) as (m' & HA & HG); [lia | lia |].
    rewrite HA, outcome_bind_ret. rewrite !(decide_False (P := r :: CSI = [])) by discriminate.
    do 3 eexists. split; [reflexivity |]. split; [destruct HG; constructor; assumption |]. split; [reflexivity |].
    unfold UINT_MAX. cbn [length] in *. f_equal; lia.
Qed.

(** The objects of a grown frame. *)
Lemma objectAt_grown_old (m m' : MachineFrameInfo) (e : list StackObject) (i : Z) :
  grown m m' e → i < getObjectIndexEnd m → objectAt m' i = objectAt m i.
Proof.
  intros HG Hi. unfold objectAt, at_index. rewrite (gr_fixed _ _ _ HG), (gr_objects _ _ _ HG).
  destruct (Z.ltb_spec (i + NumFixedObjects m) 0); [reflexivity |].
  unfold getObjectIndexEnd in Hi. rewrite lookup_app_l by lia. reflexivity.
Qed.

Lemma objectAt_grown_new (m m' : MachineFrameInfo) (e : list StackObject) (i : Z) :
  grown m m' e → 0 ≤ NumFixedObjects m ≤ Z.of_nat (length (Objects m)) →
  getObjectIndexEnd m ≤ i < getObjectIndexEnd m + Z.of_nat (length e) →
  ∃ o, e !! Z.to_nat (i - getObjectIndexEnd m) = Some o ∧ objectAt m' i = Ret o.
Proof.
  intros HG HN Hi. destruct (lookup_lt_is_Some_2 e (Z.to_nat (i - getObjectIndexEnd m)) ltac:(lia)) as [o Ho].
  exists o. split; [exact Ho |]. apply objectAt_lookup. rewrite (gr_fixed _ _ _ HG), (gr_objects _ _ _ HG).
  unfold getObjectIndexEnd in *. split; [lia |]. rewrite lookup_app_r by lia. rewrite <- Ho. f_equal. lia.
Qed.

Lemma objectAt_range (m : MachineFrameInfo) (i : Z) (o : StackObject) :
  objectAt m i = Ret o → - NumFixedObjects m ≤ i < getObjectIndexEnd m.
Proof.
  intros H. apply objectAt_lookup in H as [H0 H]. apply lookup_lt_Some in H. unfold getObjectIndexEnd. lia.
Qed.

Definition small_object (o : StackObject) : Prop :=
  isDead o = false ∧ 0 ≤ ObjSize o ∧ power_of_two (ObjAlign o) ∧ ObjSize o + ObjAlign o ≤ 128.

(** Adding spill slots and a scavenging slot keeps a frame well formed. *)
Lemma frame_ok_grown (E0 E : PEI) (m m' : MachineFrameInfo) (extra : list StackObject) (F C : Z) :
  frame_ok E0 m F C → grown m m' extra → Forall small_object extra → 128 ≤ C →
  F + (getObjectIndexEnd m + Z.of_nat (length extra) + 1) * C + 2 ^ 32 ≤ 2 ^ 62 →
  StackProtectorIndex E = StackProtectorIndex E0 → Forall (λ i, 0 ≤ i) (ScavengingFrameIndices E) →
  NoDup (csIndices E ++ ScavengingFrameIndices E) →
  (∀ i, i ∈ csIndices E ++ ScavengingFrameIndices E →
     getObjectIndexEnd m ≤ i < getObjectIndexEnd m + Z.of_nat (length extra)) →
  frame_ok E m' F C.
Proof.
  intros [Hcount Hloc Hfix Hsp Hspl HA Hcall (HC & HF & Hbud)] HG HX HC128 Hbud' Hprot HS HN HI.
  pose proof (getObjectIndexEnd_grown _ _ _ HG) as HE.
  assert (Hsfi : List.filter (λ i, 0 <=? i) (ScavengingFrameIndices E) = ScavengingFrameIndices E).
  { clear - HS. induction HS as [| i l Hi _ IH]; [reflexivity |]. cbn. rewrite (proj2 (Z.leb_le 0 i) Hi), IH. reflexivity. }
  assert (Hp : ∀ i, i ∈ (if 0 <=? StackProtectorIndex E0 then [StackProtectorIndex E0] else []) →
            0 ≤ i < getObjectIndexEnd m ∧ ∃ o, objectAt m i = Ret o ∧ isDead o = false).
  { intros i Hi. destruct (Hspl i ltac:(rewrite !elem_of_app; auto)) as (H0 & o & Ho & Hd).
    pose proof (objectAt_range _ _ _ Ho). split; [lia | eauto]. }
  constructor.
  - rewrite (gr_fixed _ _ _ HG), (gr_objects _ _ _ HG), length_app. lia.
  - intros i o Hi Ho. destruct (Z.lt_ge_cases i (getObjectIndexEnd m)) as [Hlt | Hge].
    + rewrite (objectAt_grown_old _ _ _ i HG Hlt) in Ho. exact (Hloc i o Hi Ho).
    + pose proof (objectAt_range _ _ _ Ho) as Hr.
      destruct (objectAt_grown_new m m' extra i HG Hcount ltac:(lia)) as (o' & Ho' & Hat).
      rewrite Hat in Ho. injection Ho as <-. rewrite Forall_lookup in HX.
      destruct (HX _ _ Ho') as (_ & H1 & H2 & H3). split; [exact H1 |]. split; [exact H2 | lia].
  - intros j o Hj Ho. rewrite (gr_fixed _ _ _ HG) in Hj. apply (Hfix j o Hj).
    rewrite <- (objectAt_grown_old _ _ _ j HG); [exact Ho |]. unfold getObjectIndexEnd. lia.
  - rewrite Hsfi, Hprot, app_assoc. apply NoDup_app. split; [exact HN |]. split.
    + intros i Hi Hin. apply Hp in Hin as [Hin _]. pose proof (HI i Hi). lia.
    + destruct (0 <=? StackProtectorIndex E0); [apply NoDup_singleton | constructor].
  - intros i. rewrite Hsfi, Hprot, app_assoc, elem_of_app. intros [Hi | Hi].
    + pose proof (HI i Hi) as Hr. unfold getObjectIndexEnd in Hr. split; [lia |].
      destruct (objectAt_grown_new m m' extra i HG Hcount (HI i Hi)) as (o' & Ho' & Hat).
      exists o'. split; [exact Hat |]. rewrite Forall_lookup in HX. apply (HX _ _ Ho').
    + apply Hp in Hi as (Hr & o & Ho & Hd). split; [lia |]. exists o. split; [| exact Hd].
      rewrite (objectAt_grown_old _ _ _ i HG); [exact Ho | lia].
  - apply (gr_align _ _ _ HG), HA.
  - unfold getMaxCallFrameSize in *. rewrite (gr_call _ _ _ HG). exact Hcall.
  - rewrite HE. split; [exact HC |]. split; [exact HF | exact Hbud'].
Qed.

(** What the layout of [m] in [m'] must satisfy. *)
Record layout_ok (MF : MachineFunction) (m m' : MachineFrameInfo) : Prop := {
  lo_same : same_objects m m';
  lo_size : (64 | StackSize m') ∧ 0 ≤ StackSize m';
  lo_fixed : ∀ j, - NumFixedObjects m ≤ j < 0 → objectAt m' j = objectAt m j;
  lo_inside : ∀ i o, 0 ≤ i → objectAt m i = Ret o → isDead o = false →
    ∃ o', objectAt m' i = Ret o' ∧ same_object o o' ∧ (ObjAlign o | SPOffset o') ∧
      - StackSize m' ≤ SPOffset o' ∧ SPOffset o' + ObjSize o ≤ 0 ∧
      (AdjustsStack m && hasReservedCallFrame MF = true → - StackSize m' + getMaxCallFrameSize m ≤ SPOffset o');
  lo_apart : ∀ i j oi oj, 0 ≤ i → 0 ≤ j → i ≠ j → objectAt m' i = Ret oi → objectAt m' j = Ret oj →
    isDead oi = false → isDead oj = false → apart oi oj;
  lo_below : ∀ i j oi oj, 0 ≤ i → - NumFixedObjects m ≤ j < 0 → objectAt m' i = Ret oi → objectAt m' j = Ret oj →
    isDead oi = false → SPOffset oi + ObjSize oi ≤ SPOffset oj;
}.

(** A local object that is alive after the pass was alive before. *)
Lemma live_after (m m' : MachineFrameInfo) (i : Z) (o' : StackObject) :
  same_objects m m' → 0 ≤ i → objectAt m' i = Ret o' → isDead o' = false → live m i.
Proof.
  intros HS Hi H Hd. apply objectAt_lookup in H as [H0 H].
  destruct (Forall2_lookup_r _ _ _ _ _ (so_objects _ _ HS) H) as (o & Ho & _ & _ & He).
  rewrite (so_fixed _ _ HS) in H0, Ho. split; [exact Hi |]. exists o. split; [| congruence].
  apply objectAt_lookup. split; assumption.
Qed.

Lemma layout_ok_placed (E : PEI) (MF : MachineFunction) (m m' : MachineFrameInfo) (F' C Off S : Z) (P : list Z) :
  placed m F' C P m' Off → (∀ i, live m i → i ∈ P) → 0 ≤ NumFixedObjects m → 0 ≤ F' → 0 ≤ S →
  (∀ j o, - NumFixedObjects m ≤ j < 0 → objectAt m j = Ret o → - SPOffset o ≤ F') →
  (64 | S) → Off ≤ S → (AdjustsStack m && hasReservedCallFrame MF = true → Off + getMaxCallFrameSize m ≤ S) →
  layout_ok MF m (setStackSize m' S).
Proof.
  intros [HS HR HP HA HB] Hall HN HF HS0 Hfix Hdiv Hoff Hcall.
  assert (Hfixed : ∀ j, - NumFixedObjects m ≤ j < 0 → objectAt m' j = objectAt m j).
  { intros j Hj. apply HR; [lia |]. intros Hin. destruct (HP j Hin). lia. }
  assert (Hat : ∀ i, objectAt (setStackSize m' S) i = objectAt m' i) by reflexivity.
  constructor; cbn [StackSize setStackSize].
  - destruct HS. constructor; assumption.
  - split; assumption.
  - exact Hfixed.
  - intros i o Hi Ho Hd. destruct (HP i (Hall i (conj Hi (ex_intro _ o (conj Ho Hd))))) as (_ & o' & Ho' & _ & Hal & Hlo & Hhi).
    exists o'. destruct (same_objects_at m m' i o HS Ho) as (o'' & Ho'' & Hsame).
    rewrite Ho' in Ho''. injection Ho'' as <-. destruct Hsame as (H1 & H2 & H3).
    rewrite Hat. split; [exact Ho' |]. split; [split_and!; assumption |]. rewrite <- H2, <- H1.
    split; [exact Hal |]. split; [lia |]. split; [lia |]. intros Hc. apply Hcall in Hc. lia.
  - intros i j oi oj Hi Hj Hne Hoi Hoj Hdi Hdj. rewrite Hat in Hoi, Hoj.
    apply (HA i j); try assumption; apply Hall; [apply (live_after m m' i oi) | apply (live_after m m' j oj)]; assumption.
  - intros i j oi oj Hi Hj Hoi Hoj Hdi. rewrite Hat in Hoi, Hoj. rewrite Hfixed in Hoj by exact Hj.
    destruct (HP i (Hall i (live_after m m' i oi HS Hi Hoi Hdi))) as (_ & o' & Ho' & _ & _ & Hlo & _).
    rewrite Ho' in Hoi. injection Hoi as <-. pose proof (Hfix j oj Hj Hoj). lia.
Qed.

Lemma layout_exists (E : PEI) (MF : MachineFunction) (F C : Z) :
  frame_ok E (MFI MF) F C →
  ∃ m', calculateFrameObjectOffsets E MF = Ret m' ∧ layout_ok MF (MFI MF) m'.
Proof.
  intros [Hcount Hloc Hfix Hsp Hspl HA Hcall (HC & HF & Hbud)].
  destruct (fixed_extent (MFI MF) F HF Hcount Hfix) as (F' & HFx & HF' & Hext).
  assert (Hbud' : F' + (getObjectIndexEnd (MFI MF) + 1) * C + 2 ^ 32 ≤ 2 ^ 62) by lia.
  destruct (calculateFrameObjectOffsets_eq E (MFI MF) F' C Hcount Hloc (proj1 HF') Hbud' HC Hsp Hspl MF eq_refl HA HFx)
    as (m' & Off & MA & HE & HP & HMA).
  pose proof (pl_same _ _ _ _ _ _ HP) as HS. pose proof (pl_bound _ _ _ _ _ _ HP) as HB.
  assert (Hlen : Z.of_nat (length (allPlaced E (MFI MF))) * C ≤ getObjectIndexEnd (MFI MF) * C).
  { apply Z.mul_le_mono_nonneg_r; [lia |].
    eapply placed_length; try eassumption; [eapply allPlaced_NoDup; eassumption |].
    intros i. eapply allPlaced_live; eassumption. }
  assert (Hmax : getMaxCallFrameSize m' = getMaxCallFrameSize (MFI MF))
    by (unfold getMaxCallFrameSize; rewrite (so_call _ _ HS); reflexivity).
  destruct (roundStackSize_spec E MF m' Off MA HMA) as (S & HR & Hdiv & HS1 & HS2); [lia | lia | lia |].
  rewrite HR, outcome_bind_ret in HE. exists (setStackSize m' S). split.
  - rewrite HE, Z.sub_0_r, (uint_small 64 S) by lia. reflexivity.
  - apply (layout_ok_placed E MF (MFI MF) m' F' C Off S (allPlaced E (MFI MF))); try assumption; try lia.
    + intros i. eapply allPlaced_complete; eassumption.
    + rewrite (so_adjusts _ _ HS), Hmax in HS2. exact HS2.
Qed.

(** C21. The layout of a frame is sound: [calculateFrameObjectOffsets] returns,
    every object that is alive keeps its size, gets an offset that is a multiple
    of its alignment and lies inside the frame, above the area of the outgoing
    calls where that is reserved; no two objects overlap and none overlaps the
    fixed objects of the caller; the size of the frame is a multiple of 64. *)
Theorem frame_layout (E : PEI) (MF : MachineFunction) (F C : Z) :
  frame_ok E (MFI MF) F C →
  ∃ m', calculateFrameObjectOffsets E MF = Ret m' ∧ layout_ok MF (MFI MF) m'.
Proof. apply layout_exists. Qed.

(** *** A frame with two saved registers, a scavenging slot and three locals *)

Lemma objectAt_Forall (Q : StackObject → Prop) (m : MachineFrameInfo) (i : Z) (o : StackObject) :
  Forall Q (Objects m) → objectAt m i = Ret o → Q o.
Proof. intros HF H. apply objectAt_lookup in H as [_ H]. rewrite Forall_lookup in HF. exact (HF _ _ H). Qed.

Definition demo_frame : MachineFrameInfo :=
  mkMFI [mkStackObject 4 0 4 false;       (* an argument on the stack *)
         mkStackObject 4 0 4 false; mkStackObject 64 0 64 false;   (* s24, v26 *)
         mkStackObject 4 0 4 false;       (* scavenging *)
         mkStackObject 12 0 4 false; mkStackObject 8 0 8 true; mkStackObject 1 0 1 false]
    1 0 true false false [] 64 (Some 16).

Definition demo_PEI : PEI := mkPEI 0 1 [2] (-1) (λ _, SSPLK_None) false true.

Lemma demo_frame_ok : frame_ok demo_PEI demo_frame 0 128.
Proof.
  constructor; cbn [NumFixedObjects demo_frame].
  - split; [lia | cbn; lia].
  - intros i o _. apply (objectAt_Forall (λ o, 0 ≤ ObjSize o ∧ power_of_two (ObjAlign o) ∧ ObjSize o + ObjAlign o ≤ 128)).
    assert (HP : ∀ k, 0 ≤ k ≤ 31 → power_of_two (2 ^ k)) by (intros k Hk; exists k; auto).
    pose proof (HP 0 ltac:(lia)). pose proof (HP 2 ltac:(lia)). pose proof (HP 3 ltac:(lia)). pose proof (HP 6 ltac:(lia)).
    repeat constructor; cbn; try lia; assumption.
  - intros j o Hj H. assert (j = -1) as -> by lia. vm_compute in H. injection H as <-. split; [reflexivity | cbn; lia].
  - vm_compute. repeat constructor; set_solver.
  - intros i Hi. change (i ∈ [0; 1; 2]) in Hi. split; [set_solver by lia |].
    rewrite !elem_of_cons in Hi. destruct Hi as [-> | [-> | [-> | Hi]]]; [.. | set_solver];
      eexists; split; reflexivity.
  - right. exists 6. split; [lia | reflexivity].
  - vm_compute. split; discriminate.
  - vm_compute. repeat split; discriminate.
Qed.

Definition demo_MF : MachineFunction := mkMF demo_frame false 0 [].

Lemma frame_layout_witness :
  ∃ m', calculateFrameObjectOffsets demo_PEI demo_MF = Ret m' ∧ layout_ok demo_MF (MFI demo_MF) m'.
Proof. apply (frame_layout demo_PEI demo_MF 0 128). exact demo_frame_ok. Defined.

Example demo_offsets :
  match calculateFrameObjectOffsets demo_PEI demo_MF with
  | Ret m' => (map SPOffset (Objects m'), StackSize m')
  | _ => ([], 0)
  end = ([0; -4; -128; -148; -140; 0; -141], 192).
Proof. vm_compute. reflexivity. Qed.

(** The prologue does not realign the stack pointer, which is a multiple of 64
    on entry: an object aligned to 128 is placed at a multiple of 128 from it and
    is misaligned half of the time. *)
Example overaligned_object :
  let m := mkMFI [mkStackObject 4 0 128 false] 0 0 false false false [] 128 None in
  let E := mkPEI UINT_MAX 0 [] (-1) (λ _, SSPLK_None) true true in
  match calculateFrameObjectOffsets E (mkMF m false 0 []) with
  | Ret m' => (map SPOffset (Objects m'), StackSize m')
  | _ => ([], 0)
  end = ([-128], 128) ∧ (64 | 4096 - 64) ∧ ((4096 - 64) + -128) mod 128 = 64.
Proof. vm_compute. split; [reflexivity |]. split; [exists 63; reflexivity | reflexivity]. Qed.
