(* ===== verification/NyuziPEI.v ===== *)
(** * NyuziPEI: inserting prologues and epilogues

    The pass PEI of lib/CodeGen/PrologEpilogInserter.cpp up to the scavenging of the
    virtual registers of large frames, on the hooks of NyuziFrame.v and
    NyuziInstrInfo.v and the layout of NyuziFrameLayout.v: call frames, spill and
    restore code of the callee-saved registers, prologue and epilogues, and the
    replacement of frame indices.  A function is the list of its blocks, the entry first.  Shrink wrapping, funclets, segmented stacks and
    HiPE prologues are never asked for on this target; live-in lists and debug
    expressions are not kept. *)
From S2P Require Import Prelude MathExtras NyuziTarget NyuziMachine NyuziInstrInfo NyuziFrame NyuziFrameLayout.

Abbreviation Block := (list MachineInstr).

(** ** Blocks *)

(** [TRI->getMinimalPhysRegClass(Reg)] *)
Definition getMinimalPhysRegClass (r : Nyuzi.reg) : outcome Nyuzi.regclass :=
  if Nyuzi.contains Nyuzi.GPR32RegClass r then Ret Nyuzi.GPR32RegClass
  else if Nyuzi.contains Nyuzi.VR512RegClass r then Ret Nyuzi.VR512RegClass
  else AssertFail "Couldn't find the register class".

Definition isReturnBlock (b : Block) : bool := match last b with Some MI => isReturn MI | None => false end.

(** The two loops of [getFirstTerminator]: back over terminators and debug
    values, then forward to a terminator. *)
Fixpoint overTerminators (rev_pre post : Block) : cursor :=
  match rev_pre with
  | [] => mkCursor [] post
  | MI :: rest =>
      if isTerminator MI || isDebugValue MI then overTerminators rest (MI :: post)
      else mkCursor (rev rest) (MI :: post)
  end.

Fixpoint toTerminator (pre post : Block) : cursor :=
  match post with
  | [] => mkCursor pre []
  | MI :: rest => if isTerminator MI then mkCursor pre post else toTerminator (pre ++ [MI]) rest
  end.

Definition getFirstTerminator (b : Block) : cursor :=
  let c := overTerminators (rev b) [] in toTerminator (before c) (after c).

(** A step on the blocks at some indices, in order. *)
Fixpoint updateBlocks (f : nat → MachineFunction → Block → outcome (MachineFunction * Block)) (idxs : list nat)
    (MF : MachineFunction) (Fn : list Block) : outcome (MachineFunction * list Block) :=
  match idxs with
  | [] => Ret (MF, Fn)
  | i :: idxs =>
      at_index Fn (Z.of_nat i) ≫= λ b, f i MF b ≫= λ '(MF, b), updateBlocks f idxs MF (<[i := b]> Fn)
  end.

(** ** Call frames *)

Definition canSimplifyCallFramePseudos (MF : MachineFunction) : bool := hasReservedCallFrame MF || hasFP MF.

(** [InlineAsm::MIOp_ExtraInfo], [InlineAsm::Extra_IsAlignStack] *)
Definition MIOp_ExtraInfo : Z := 1.
Definition Extra_IsAlignStack : Z := 2.

Definition isInlineAsm (MI : MachineInstr) : bool := bool_decide (MIOpcode MI = Nyuzi.INLINEASM).

(** The first loop of [calculateCallFrameInfo]. *)
Fixpoint callFrames (l : Block) (MaxCallFrameSize : Z) (Adjusts : bool) : outcome (Z * bool) :=
  match l with
  | [] => Ret (MaxCallFrameSize, Adjusts)
  | MI :: l =>
      if isFrameInstr MI then
        getFrameSize MI ≫= λ Size,
        callFrames l (Z.max MaxCallFrameSize (u32 Size)) true
      else if isInlineAsm MI then
        MIgetOperand MI MIOp_ExtraInfo ≫= λ o, MOgetImm o ≫= λ ExtraInfo,
        callFrames l MaxCallFrameSize (Adjusts || negb (Z.land ExtraInfo Extra_IsAlignStack =? 0))
      else callFrames l MaxCallFrameSize Adjusts
  end.

(** The second loop, over the pseudo instructions of one block. *)
Fixpoint eliminateCallFrames (n : nat) (MF : MachineFunction) (c : cursor) : outcome (MachineFunction * Block) :=
  match n, after c with
  | _, [] => Ret (MF, before c)
  | O, _ => UndefinedBehaviour "the loop over a block"
  | S n', MI :: post =>
      if isFrameInstr MI && canSimplifyCallFramePseudos MF then
        eliminateCallFramePseudoInstr MF c ≫= λ '(MF, c), eliminateCallFrames n' MF c
      else eliminateCallFrames n' MF (mkCursor (before c ++ [MI]) post)
  end.

Definition setCallFrameInfo (MF : MachineFunction) (Adjusts : bool) (Max : Z) : MachineFunction :=
  let m := MFI MF in
  mkMF (mkMFI (Objects m) (NumFixedObjects m) (StackSize m) Adjusts (HasVarSizedObjects m) (FrameAddressTaken m)
          (CSInfo m) (MaxAlignment m) (Some Max))
    (DisableFramePointerElim MF) (NextVReg MF) (FrameInsts MF).

Definition calculateCallFrameInfo (MF : MachineFunction) (Fn : list Block) : outcome (MachineFunction * list Block) :=
  callFrames (concat Fn) 0 (AdjustsStack (MFI MF)) ≫= λ '(Max, Adjusts),
  cassert (match MaxCallFrameSize (MFI MF) with
           | None => true
           | Some v => (v =? Max) && eqb (AdjustsStack (MFI MF)) Adjusts
           end) "MFI.getMaxCallFrameSize() == MaxCallFrameSize" ≫= λ _,
  let MF := setCallFrameInfo MF Adjusts Max in
  updateBlocks (λ _ MF b, eliminateCallFrames (length b) MF (mkCursor [] b)) (seq 0 (length Fn)) MF Fn.

(** ** Callee-saved registers *)

(** The save blocks and the restore blocks. *)
Definition calculateSaveRestoreBlocks (Fn : list Block) : list nat * list nat :=
  ([O], List.filter (λ i, match Fn !! i with Some b => isReturnBlock b | None => false end) (seq 0 (length Fn))).

Fixpoint insertSaves (MF : MachineFunction) (c : cursor) (CSI : list (Nyuzi.reg * Z)) : outcome cursor :=
  match CSI with
  | [] => Ret c
  | (Reg, FrameIdx) :: CSI =>
      getMinimalPhysRegClass Reg ≫= λ RC,
      storeRegToStackSlot MF c Reg true FrameIdx RC ≫= λ '(c, _), insertSaves MF c CSI
  end.

Definition insertCSRSaves (MF : MachineFunction) (SaveBlock : Block) (CSI : list (Nyuzi.reg * Z)) : outcome Block :=
  insertSaves MF (mkCursor [] SaveBlock) CSI ≫= λ c, Ret (block_of c).

Fixpoint insertRestores (MF : MachineFunction) (c : cursor) (CSI : list (Nyuzi.reg * Z)) : outcome cursor :=
  match CSI with
  | [] => Ret c
  | (Reg, FrameIdx) :: CSI =>
      getMinimalPhysRegClass Reg ≫= λ RC,
      loadRegFromStackSlot MF c Reg FrameIdx RC ≫= λ '(c, _),
      cassert (negb (bool_decide (before c = []))) "loadRegFromStackSlot didn't insert any code!" ≫= λ _,
      insertRestores MF c CSI
  end.

Definition insertCSRRestores (MF : MachineFunction) (RestoreBlock : Block) (CSI : list (Nyuzi.reg * Z)) : outcome Block :=
  insertRestores MF (getFirstTerminator RestoreBlock) (rev CSI) ≫= λ c, Ret (block_of c).

Definition withMFI (MF : MachineFunction) (m : MachineFrameInfo) : MachineFunction :=
  mkMF m (DisableFramePointerElim MF) (NextVReg MF) (FrameInsts MF).

(** [spillCalleeSavedRegs]: the function, its blocks, the scavenging slots and the
    range of the callee-saved slots. *)
Definition spillCalleeSavedRegs (F : FunctionInfo) (MF : MachineFunction) (Fn : list Block)
    : outcome (MachineFunction * list Block * list Z * Z * Z) :=
  let '(SaveBlocks, RestoreBlocks) := calculateSaveRestoreBlocks Fn in
  determineCalleeSaves F MF [] [] ≫= λ '(SavedRegs, RS, MF),
  assignCalleeSavedSpillSlots (MFI MF) SavedRegs ≫= λ '(m, MinCS, MaxCS),
  let MF := withMFI MF m in
  let CSI := CSInfo m in
  if Naked F || bool_decide (CSI = []) then Ret (MF, Fn, RS, MinCS, MaxCS)
  else
    updateBlocks (λ _ MF b, insertCSRSaves MF b CSI ≫= λ b, Ret (MF, b)) SaveBlocks MF Fn ≫= λ '(MF, Fn),
    updateBlocks (λ _ MF b, insertCSRRestores MF b CSI ≫= λ b, Ret (MF, b)) RestoreBlocks MF Fn ≫= λ '(MF, Fn),
    Ret (MF, Fn, RS, MinCS, MaxCS).

(** ** Prologue, epilogues *)

Definition insertPrologEpilogCode (MF : MachineFunction) (Fn : list Block) (SaveBlocks RestoreBlocks : list nat)
    : outcome (MachineFunction * list Block) :=
  updateBlocks (λ i MF b, emitPrologue MF (i =? 0)%nat b) SaveBlocks MF Fn ≫= λ '(MF, Fn),
  updateBlocks (λ _ MF b, emitEpilogue MF b) RestoreBlocks MF Fn.

(** ** Frame indices *)

Definition alignSPAdjust (SPAdj : Z) : outcome Z :=
  if SPAdj <? 0 then alignTo (u64 (- SPAdj)) getStackAlignment 0 ≫= λ v, Ret (i32 (- v))
  else alignTo (u64 SPAdj) getStackAlignment 0 ≫= λ v, Ret (i32 v).

Definition getSPAdjust (MI : MachineInstr) : outcome Z :=
  if negb (isFrameInstr MI) then Ret 0
  else
    getFrameSize MI ≫= λ Size, alignSPAdjust (i32 Size) ≫= λ SPAdj,
    Ret (if bool_decide (MIOpcode MI = Nyuzi.ADJCALLSTACKUP) then i32 (- SPAdj) else SPAdj).

(** The base register [getFrameIndexReference] gives a debug value. *)
Definition getFrameIndexReference (MF : MachineFunction) (FI : Z) : outcome (Z * Nyuzi.reg) :=
  getObjectOffset (MFI MF) FI ≫= λ o, Ret (i32 (o + StackSize (MFI MF)), getFrameRegister MF).

(** The first operand that is a frame index. *)
Fixpoint firstFI (i : Z) (ops : list MachineOperand) : option (Z * Z) :=
  match ops with
  | [] => None
  | MO_FrameIndex fi :: _ => Some (i, fi)
  | _ :: ops => firstFI (i + 1) ops
  end.

(** [replaceFrameIndices] on a block: the loop goes on at the instructions
    [eliminateFrameIndex] put in front. *)
Fixpoint replaceInBlock (n : nat) (MF : MachineFunction) (c : cursor) (SPAdj : Z) (InsideCallSequence : bool)
    : outcome (MachineFunction * Block * Z) :=
  match n, after c with
  | _, [] => Ret (MF, before c, SPAdj)
  | O, _ => UndefinedBehaviour "the loop over a block"
  | S n', MI :: post =>
      if isFrameInstr MI then
        getSPAdjust MI ≫= λ adj,
        eliminateCallFramePseudoInstr MF c ≫= λ '(MF, c),
        replaceInBlock n' MF c (i32 (SPAdj + adj)) (bool_decide (MIOpcode MI = Nyuzi.ADJCALLSTACKDOWN))
      else
        match firstFI 0 (MIOperands MI) with
        | None =>
            (if InsideCallSequence then getSPAdjust MI else Ret 0) ≫= λ adj,
            replaceInBlock n' MF (mkCursor (before c ++ [MI]) post) (i32 (SPAdj + adj)) InsideCallSequence
        | Some (i, fi) =>
            if isDebugValue MI then
              cassert (i =? 0) "Frame indices can only appear as the first operand" ≫= λ _,
              getFrameIndexReference MF fi ≫= λ '(_, Reg),
              setOperand MI 0 (addReg Reg) ≫= λ MI,
              replaceInBlock n' MF (mkCursor (before c) (MI :: post)) SPAdj InsideCallSequence
            else
              eliminateFrameIndex MF c SPAdj i ≫= λ '(MF, c'),
              replaceInBlock n' MF (mkCursor (before c) (drop (length (before c)) (block_of c'))) SPAdj
                InsideCallSequence
        end
  end.

(** An instruction takes a step, and at most three more for a frame index. *)
Definition replaceFuel (b : Block) : nat := length b + 3 * length (concat (map MIOperands b)).

(** [replaceFrameIndices]: [order] is the depth-first order of the reachable
    blocks followed by the others, [StackPred] the block before a block on the
    path that reached it. *)
Fixpoint replaceBlocks (order : list nat) (StackPred : nat → option nat) (SPState : nat → Z)
    (MF : MachineFunction) (Fn : list Block) : outcome (MachineFunction * list Block) :=
  match order with
  | [] => Ret (MF, Fn)
  | i :: order =>
      let SPAdj := match StackPred i with Some p => SPState p | None => 0 end in
      at_index Fn (Z.of_nat i) ≫= λ b,
      replaceInBlock (replaceFuel b) MF (mkCursor [] b) SPAdj false ≫= λ '(MF, b, SPAdj),
      replaceBlocks order StackPred (λ j, if decide (j = i) then SPAdj else SPState j) MF (<[i := b]> Fn)
  end.

Definition replaceFrameIndices (order : list nat) (StackPred : nat → option nat) (MF : MachineFunction)
    (Fn : list Block) : outcome (MachineFunction * list Block) :=
  if bool_decide (Objects (MFI MF) = []) then Ret (MF, Fn)
  else replaceBlocks order StackPred (λ _, 0) MF Fn.

(** ** The pass *)

(** What is known about the function besides the code: the attributes, the object
    the stack protector uses, the kinds of the objects for it, [needsStackRealignment]
    and the optimisation level, and the order of the blocks. *)
Record PassInput : Type := mkPassInput {
  Attributes : FunctionInfo;
  ProtectorIndex : Z;
  SSPLayout : Z → SSPLayoutKind;
  NeedsRealignment : bool;
  OptimizingPass : bool;
  DFSOrder : list nat;
  DFSPred : nat → option nat;
}.

(** The pass up to the call of [scavengeFrameVirtualRegs]. *)
Definition insertFrameCode (P : PassInput) (MF : MachineFunction) (Fn : list Block)
    : outcome (MachineFunction * list Block) :=
  calculateCallFrameInfo MF Fn ≫= λ '(MF, Fn),
  let '(SaveBlocks, RestoreBlocks) := calculateSaveRestoreBlocks Fn in
  spillCalleeSavedRegs (Attributes P) MF Fn ≫= λ '(MF, Fn, RS, MinCS, MaxCS),
  let E := mkPEI MinCS MaxCS RS (ProtectorIndex P) (SSPLayout P) (NeedsRealignment P) (OptimizingPass P) in
  calculateFrameObjectOffsets E MF ≫= λ m,
  let MF := withMFI MF m in
  (if Naked (Attributes P) then Ret (MF, Fn) else insertPrologEpilogCode MF Fn SaveBlocks RestoreBlocks)
    ≫= λ '(MF, Fn),
  replaceFrameIndices (DFSOrder P) (DFSPred P) MF Fn.

Definition requiresRegisterScavenging : bool := true.
Definition requiresFrameIndexScavenging : bool := true.

(** The call of [scavengeFrameVirtualRegs], which returns at once when the function has
    no virtual registers ([getNumVirtRegs]).  The search for registers that are free
    otherwise, of RegisterScavenging.cpp, is not modelled: the pass returns the code as
    that search gets it, and whether there are registers to find. *)
Definition needsScavenging (MF : MachineFunction) : bool :=
  requiresRegisterScavenging && requiresFrameIndexScavenging && negb (NextVReg MF =? 0)%nat.

Definition runOnMachineFunction (P : PassInput) (MF : MachineFunction) (Fn : list Block)
    : outcome (MachineFunction * list Block * bool) :=
  insertFrameCode P MF Fn ≫= λ '(MF, Fn), Ret (MF, Fn, needsScavenging MF).

(** ** Steps on blocks *)

(** A step with an invariant on the function and a relation on the block. *)
Lemma updateBlocks_spec (f : nat → MachineFunction → Block → outcome (MachineFunction * Block))
    (inv : MachineFunction → Prop) (Q : nat → Block → Block → Prop) (idxs : list nat) :
  ∀ MF Fn, inv MF → NoDup idxs →
  (∀ i, i ∈ idxs → ∃ b, Fn !! i = Some b ∧
     ∀ MF, inv MF → ∃ MF' b', f i MF b = Ret (MF', b') ∧ inv MF' ∧ Q i b b') →
  ∃ MF' Fn', updateBlocks f idxs MF Fn = Ret (MF', Fn') ∧ inv MF' ∧ length Fn' = length Fn ∧
    ∀ i b, Fn !! i = Some b → ∃ b', Fn' !! i = Some b' ∧ (i ∈ idxs → Q i b b') ∧ (i ∉ idxs → b' = b).
Proof.
  induction idxs as [| i idxs IH]; intros MF Fn HI HN HF.
  - exists MF, Fn. split; [reflexivity |]. split; [exact HI |]. split; [reflexivity |].
    intros j b Hb. exists b. split; [exact Hb |]. split; [set_solver | reflexivity].
  - apply NoDup_cons in HN as [Hi HN].
    destruct (HF i ltac:(left)) as (b & Hb & Hf). destruct (Hf MF HI) as (MF1 & b1 & HE & HI1 & HQ).
    pose proof (lookup_lt_Some _ _ _ Hb) as Hlt.
    destruct (IH MF1 (<[i := b1]> Fn) HI1 HN) as (MF2 & Fn2 & HE2 & HI2 & HL & HB).
    { intros j Hj. destruct (HF j ltac:(right; exact Hj)) as (bj & Hbj & Hfj). exists bj.
      rewrite list_lookup_insert_ne by congruence. split; [exact Hbj | exact Hfj]. }
    exists MF2, Fn2. cbn [updateBlocks]. rewrite (at_index_lookup _ _ b Hb), outcome_bind_ret, HE, outcome_bind_ret.
    split; [exact HE2 |]. split; [exact HI2 |]. split; [rewrite HL; apply length_insert |].
    intros j bj Hbj. destruct (decide (j = i)) as [-> | Hne].
    + assert (bj = b) as -> by congruence.
      destruct (HB i b1) as (b' & Hb' & _ & Hout); [apply list_lookup_insert_eq; exact Hlt |].
      exists b'. split; [exact Hb' |]. split; [| set_solver]. intros _. rewrite (Hout Hi). exact HQ.
    + destruct (HB j bj) as (b' & Hb' & Hin & Hout); [rewrite list_lookup_insert_ne by congruence; exact Hbj |].
      exists b'. split; [exact Hb' |]. split; [| set_solver].
      intros Hj. apply Hin. apply elem_of_cons in Hj as [-> | Hj]; [congruence | exact Hj].
Qed.

Definition plain (MI : MachineInstr) : Prop := isTerminator MI = false.

Lemma toTerminator_plain (l pre post : Block) :
  Forall plain l → toTerminator pre (l ++ post) = toTerminator (pre ++ l) post.
Proof.
  intros H. revert pre. induction H as [| MI l HM _ IH]; intros pre; [rewrite app_nil_r; reflexivity |].
  cbn [app toTerminator]. rewrite HM, IH, <- app_assoc. reflexivity.
Qed.

Lemma overTerminators_split (rp post : Block) :
  ∃ l1 l2, rev rp = l1 ++ l2 ∧ overTerminators rp post = mkCursor l1 (l2 ++ post).
Proof.
  revert post. induction rp as [| MI rp IH]; intros post.
  - exists [], []. split; reflexivity.
  - cbn [rev overTerminators]. destruct (isTerminator MI || isDebugValue MI).
    + destruct (IH (MI :: post)) as (l1 & l2 & Hr & HO). exists l1, (l2 ++ [MI]).
      rewrite Hr, HO, <- !app_assoc. split; reflexivity.
    + exists (rev rp), [MI]. split; reflexivity.
Qed.

Lemma getFirstTerminator_last (pre : Block) (MI : MachineInstr) :
  Forall plain pre → isTerminator MI = true → getFirstTerminator (pre ++ [MI]) = mkCursor pre [MI].
Proof.
  intros HP HM. unfold getFirstTerminator. rewrite rev_app_distr. cbn [rev app overTerminators].
  rewrite HM. cbn [orb]. destruct (overTerminators_split (rev pre) [MI]) as (l1 & l2 & Hr & HO).
  rewrite rev_involutive in Hr. rewrite HO. cbn [before after]. subst pre. apply Forall_app in HP as [_ HP].
  rewrite (toTerminator_plain l2 l1 [MI] HP). cbn [toTerminator]. rewrite HM. reflexivity.
Qed.

(** ** Spills and restores *)

Definition scalar (r : Nyuzi.reg) : bool := Nyuzi.contains Nyuzi.GPR32RegClass r.

Definition saveInstr (x : Nyuzi.reg * Z) : MachineInstr :=
  mkMI (if scalar x.1 then Nyuzi.SW else Nyuzi.BLOCK_STOREI) [MO_Register x.1 false true; MO_FrameIndex x.2; MO_Immediate 0].

Definition restoreInstr (x : Nyuzi.reg * Z) : MachineInstr :=
  mkMI (if scalar x.1 then Nyuzi.LW else Nyuzi.BLOCK_LOADI) [MO_Register x.1 true false; MO_FrameIndex x.2; MO_Immediate 0].

(** A register of the list with a slot in the frame. *)
Definition slotted (m : MachineFrameInfo) (x : Nyuzi.reg * Z) : Prop :=
  x.1 ∈ getCalleeSavedRegs ∧ ∃ o, objectAt m x.2 = Ret o.

Lemma calleeSaved_class (r : Nyuzi.reg) :
  r ∈ getCalleeSavedRegs →
  getMinimalPhysRegClass r = Ret (if scalar r then Nyuzi.GPR32RegClass else Nyuzi.VR512RegClass).
Proof.
  intros Hr. assert (H : Forall (λ r, getMinimalPhysRegClass r =
      Ret (if scalar r then Nyuzi.GPR32RegClass else Nyuzi.VR512RegClass)) getCalleeSavedRegs)
    by (vm_compute; repeat constructor).
  rewrite Forall_forall in H. exact (H r Hr).
Qed.

Lemma getMemOperand_at (MF : MachineFunction) (fi : Z) (o : StackObject) (ld : bool) :
  objectAt (MFI MF) fi = Ret o → getMemOperand MF fi ld = Ret (mkMMO ld fi (ObjSize o) (ObjAlign o)).
Proof.
  intros H. unfold getMemOperand. rewrite (getObjectSize_at _ _ _ H). unfold objectAt in H. rewrite H. reflexivity.
Qed.

Lemma storeReg_eq (MF : MachineFunction) (c : cursor) (r : Nyuzi.reg) (fi : Z) (o : StackObject) :
  objectAt (MFI MF) fi = Ret o →
  storeRegToStackSlot MF c r true fi (if scalar r then Nyuzi.GPR32RegClass else Nyuzi.VR512RegClass) =
    Ret (BuildMI c (saveInstr (r, fi)), mkMMO false fi (ObjSize o) (ObjAlign o)).
Proof.
  intros H. unfold storeRegToStackSlot, saveInstr. rewrite (getMemOperand_at _ _ _ _ H), outcome_bind_ret.
  cbn [fst snd]. destruct (scalar r); reflexivity.
Qed.

Lemma loadReg_eq (MF : MachineFunction) (c : cursor) (r : Nyuzi.reg) (fi : Z) (o : StackObject) :
  objectAt (MFI MF) fi = Ret o →
  loadRegFromStackSlot MF c r fi (if scalar r then Nyuzi.GPR32RegClass else Nyuzi.VR512RegClass) =
    Ret (BuildMI c (restoreInstr (r, fi)), mkMMO true fi (ObjSize o) (ObjAlign o)).
Proof.
  intros H. unfold loadRegFromStackSlot, restoreInstr. rewrite (getMemOperand_at _ _ _ _ H), outcome_bind_ret.
  cbn [fst snd]. destruct (scalar r); reflexivity.
Qed.

Lemma insertSaves_eq (MF : MachineFunction) (CSI : list (Nyuzi.reg * Z)) (c : cursor) :
  Forall (slotted (MFI MF)) CSI →
  insertSaves MF c CSI = Ret (mkCursor (before c ++ map saveInstr CSI) (after c)).
Proof.
  intros H. revert c. induction H as [| [r fi] CSI [Hr (o & Ho)] _ IH]; intros c.
  - destruct c. cbn. rewrite app_nil_r. reflexivity.
  - cbn [insertSaves fst snd] in *.
    rewrite (calleeSaved_class r Hr), outcome_bind_ret, (storeReg_eq MF c r fi o Ho), outcome_bind_ret, IH.
    unfold BuildMI. cbn [before after map]. rewrite <- app_assoc. reflexivity.
Qed.

Lemma insertRestores_eq (MF : MachineFunction) (CSI : list (Nyuzi.reg * Z)) (c : cursor) :
  Forall (slotted (MFI MF)) CSI →
  insertRestores MF c CSI = Ret (mkCursor (before c ++ map restoreInstr CSI) (after c)).
Proof.
  intros H. revert c. induction H as [| [r fi] CSI [Hr (o & Ho)] _ IH]; intros c.
  - destruct c. cbn. rewrite app_nil_r. reflexivity.
  - cbn [insertRestores fst snd] in *.
    rewrite (calleeSaved_class r Hr), outcome_bind_ret, (loadReg_eq MF c r fi o Ho), outcome_bind_ret.
    unfold BuildMI. cbn [before after map].
    rewrite (bool_decide_eq_false_2 (before c ++ [restoreInstr (r, fi)] = [])) by (destruct (before c); discriminate).
    cbn [negb cassert]. rewrite outcome_bind_ret, IH. cbn [before after]. rewrite <- app_assoc. reflexivity.
Qed.

(** ** What spilling and restoring do to a machine *)

Definition phys (r : Nyuzi.reg) : Prop := ∀ n, r ≠ Nyuzi.VirtReg n.

(** States that differ in virtual registers only. *)
Record agree_phys (s1 s2 : mstate) : Prop := {
  ap_regs : ∀ r, phys r → regs s1 r = regs s2 r;
  ap_vregs : ∀ r, vregs s1 r = vregs s2 r;
  ap_mem : ∀ a, mem s1 a = mem s2 a
}.

#[global] Instance agree_phys_equiv : Equivalence agree_phys.
Proof.
  split.
  - intros s. split; reflexivity.
  - intros s t [? ? ?]. split; intros; symmetry; auto.
  - intros s t u [H1 H2 H3] [K1 K2 K3]. split; intros.
    + rewrite H1 by assumption. auto.
    + rewrite H2. auto.
    + rewrite H3. auto.
Qed.

Lemma agree_except_phys (n : nat) (s t : mstate) : agree_except n s t → agree_phys s t.
Proof. intros [H1 H2 H3]. split; auto. Qed.

Lemma agree_phys_block (s t : mstate) (a : Z) : agree_phys s t → load_block s a = load_block t a.
Proof. intros H. apply map_ext. intros i. apply (ap_mem _ _ H). Qed.

Lemma set_mem_phys (a v : Z) (s t : mstate) : agree_phys s t → agree_phys (set_mem a v s) (set_mem a v t).
Proof.
  intros [H1 H2 H3]. split; cbn; [exact H1 | exact H2 |]. intros x. destruct (decide (x = a)); auto.
Qed.

Lemma store_block_phys (a : Z) (lanes : list Z) (s t : mstate) :
  agree_phys s t → agree_phys (store_block a lanes s) (store_block a lanes t).
Proof.
  unfold store_block. revert s t. induction (combine (seq 0 (length lanes)) lanes) as [| [i v] l IH]; intros s t H;
    [exact H |]. cbn. apply IH, set_mem_phys, H.
Qed.

Lemma set_reg_phys (r : Nyuzi.reg) (v : Z) (s t : mstate) :
  agree_phys s t → agree_phys (set_reg r v s) (set_reg r v t).
Proof.
  intros [H1 H2 H3]. split; cbn; [| exact H2 | exact H3]. intros x Hx. destruct (decide (x = r)); auto.
Qed.

Lemma set_vreg_phys (r : Nyuzi.reg) (v : list Z) (s t : mstate) :
  agree_phys s t → agree_phys (set_vreg r v s) (set_vreg r v t).
Proof.
  intros [H1 H2 H3]. split; cbn; [exact H1 | | exact H3]. intros x. destruct (decide (x = r)); auto.
Qed.

Lemma access_phys (opc : Nyuzi.opcode) (r : Nyuzi.reg) (a : Z) (s t : mstate) :
  phys r → agree_phys s t → agree_phys (access opc r a s) (access opc r a t).
Proof.
  intros Hr H. destruct opc; cbn [access];
    rewrite ?(ap_mem _ _ H), ?(ap_regs _ _ H r Hr), ?(agree_phys_block s t a H), ?(ap_vregs _ _ H r);
    auto using set_mem_phys, set_reg_phys, set_vreg_phys, store_block_phys.
Qed.

Definition saveOp (r : Nyuzi.reg) : Nyuzi.opcode := if scalar r then Nyuzi.SW else Nyuzi.BLOCK_STOREI.
Definition restoreOp (r : Nyuzi.reg) : Nyuzi.opcode := if scalar r then Nyuzi.LW else Nyuzi.BLOCK_LOADI.

Definition saveAll (l : list (Nyuzi.reg * Z)) (st : mstate) : mstate :=
  foldl (λ st x, access (saveOp x.1) x.1 x.2 st) st l.
Definition restoreAll (l : list (Nyuzi.reg * Z)) (st : mstate) : mstate :=
  foldl (λ st x, access (restoreOp x.1) x.1 x.2 st) st l.

(** The slot of a register lies in the address space. *)
Definition in_space (x : Nyuzi.reg * Z) : Prop := 0 ≤ x.2 ∧ x.2 + getSpillSize x.1 ≤ 2 ^ 32.
Definition outside (y : Z) (x : Nyuzi.reg * Z) : Prop := y < x.2 ∨ x.2 + getSpillSize x.1 ≤ y.
Definition slots_apart (x y : Nyuzi.reg * Z) : Prop :=
  x.2 + getSpillSize x.1 ≤ y.2 ∨ y.2 + getSpillSize y.1 ≤ x.2.

(** The value a register has in [st0] is in its slot. *)
Definition holds (st0 st : mstate) (x : Nyuzi.reg * Z) : Prop :=
  if scalar x.1 then mem st x.2 = regs st0 x.1 else load_block st x.2 = vregs st0 x.1.

Definition lanes_ok (st : mstate) (r : Nyuzi.reg) : Prop := scalar r = false → length (vregs st r) = 16%nat.

Lemma spillSize_scalar (r : Nyuzi.reg) : getSpillSize r = if scalar r then 4 else 64.
Proof. unfold getSpillSize, getRegSizeInBits, scalar. destruct (Nyuzi.contains _ _); reflexivity. Qed.

Lemma store_block_frame (a : Z) (lanes : list Z) (st : mstate) (y : Z) :
  length lanes = 16%nat → 0 ≤ a → a + 64 ≤ 2 ^ 32 → y < a ∨ a + 64 ≤ y →
  mem (store_block a lanes st) y = mem st y.
Proof.
  intros HL Ha Ha' Hy. unfold store_block.
  assert (H : Forall (λ iv : nat * Z, u32 (a + 4 * Z.of_nat iv.1) ≠ y) (combine (seq 0 (length lanes)) lanes)).
  { apply Forall_forall. intros [i v] Hi. apply list_elem_of_In, List.in_combine_l, List.in_seq in Hi. cbn [fst].
    rewrite (uint_small 32) by lia. lia. }
  revert st. induction H as [| [i v] l Hi _ IH]; intros st; [reflexivity |].
  cbn. rewrite IH. cbn. rewrite decide_False by (intros E; apply Hi; cbn [fst]; congruence). reflexivity.
Qed.

Lemma store_block_regs (a : Z) (lanes : list Z) (st : mstate) :
  regs (store_block a lanes st) = regs st ∧ vregs (store_block a lanes st) = vregs st.
Proof.
  unfold store_block. revert st. induction (combine (seq 0 (length lanes)) lanes) as [| [i v] l IH]; intros st;
    [split; reflexivity |]. cbn. destruct (IH (set_mem (u32 (a + 4 * Z.of_nat i)) v st)) as [-> ->]. split; reflexivity.
Qed.

Lemma save_spec (x : Nyuzi.reg * Z) (st : mstate) :
  in_space x → lanes_ok st x.1 →
  let st' := access (saveOp x.1) x.1 x.2 st in
  regs st' = regs st ∧ vregs st' = vregs st ∧ holds st st' x ∧ ∀ y, outside y x → mem st' y = mem st y.
Proof.
  destruct x as [r a]. unfold in_space, lanes_ok, outside, holds, saveOp. cbn [fst snd]. rewrite spillSize_scalar.
  intros [Ha Ha'] HL. destruct (scalar r); cbn [access].
  - split; [reflexivity |]. split; [reflexivity |]. cbn. split; [rewrite decide_True; reflexivity |].
    intros y Hy. rewrite decide_False by lia. reflexivity.
  - destruct (store_block_regs a (vregs st r) st) as [-> ->]. split; [reflexivity |]. split; [reflexivity |].
    split; [apply load_store_block; auto |]. intros y Hy. apply store_block_frame; auto.
Qed.

Lemma saved_frame_mono (st0 st st' : mstate) (x : Nyuzi.reg * Z) :
  in_space x → (∀ y, ¬ outside y x → mem st' y = mem st y) → holds st0 st x → holds st0 st' x.
Proof.
  destruct x as [r a]. unfold in_space, outside, holds. cbn [fst snd]. rewrite spillSize_scalar.
  intros [Ha Ha'] HM. destruct (scalar r).
  - rewrite HM by lia. auto.
  - intros <-. apply list_fmap_ext. intros k i Hk. apply lookup_seq in Hk as [-> Hk].
    rewrite (uint_small 32) by lia. apply HM. lia.
Qed.

Lemma holds_src (st0 st1 st : mstate) (x : Nyuzi.reg * Z) :
  regs st1 = regs st0 → vregs st1 = vregs st0 → holds st1 st x → holds st0 st x.
Proof. unfold holds. intros -> ->. auto. Qed.

(** After the spills every register is in its slot, and the rest of memory is as
    it was. *)
Lemma saveAll_spec (l : list (Nyuzi.reg * Z)) (st : mstate) :
  Forall in_space l → ForallOrdPairs slots_apart l → Forall (λ x, lanes_ok st x.1) l →
  regs (saveAll l st) = regs st ∧ vregs (saveAll l st) = vregs st ∧ Forall (holds st (saveAll l st)) l ∧
  ∀ y, Forall (outside y) l → mem (saveAll l st) y = mem st y.
Proof.
  intros HS HA. revert st. induction HA as [| x l Hx HA IH]; intros st HL; [repeat split; constructor |].
  apply Forall_cons in HS as [Hxs HS]. apply Forall_cons in HL as [Hxl HL].
  destruct (save_spec x st Hxs Hxl) as (Hr & Hv & Hh & Hm). cbn [saveAll foldl].
  set (st1 := access (saveOp x.1) x.1 x.2 st) in *. fold (saveAll l st1).
  destruct (IH HS st1) as (Hr' & Hv' & Hh' & Hm').
  { eapply Forall_impl; [exact HL |]. intros y Hy. unfold lanes_ok. rewrite Hv. exact Hy. }
  split; [congruence |]. split; [congruence |]. split.
  - constructor.
    + apply (saved_frame_mono st st1); [exact Hxs | | exact Hh]. intros y Hy. apply Hm'.
      eapply Forall_impl; [apply Forall_and; split; [exact Hx | exact HS] |]. intros z [Hz Hzs].
      unfold outside, slots_apart, in_space in *. lia.
    + eapply Forall_impl; [exact Hh' |]. intros y. apply holds_src; assumption.
  - intros y Hy. apply Forall_cons in Hy as [Hy1 Hy2]. rewrite Hm' by exact Hy2. apply Hm, Hy1.
Qed.

(** The restores put back what the slots hold. *)
Lemma restoreAll_spec (l : list (Nyuzi.reg * Z)) (st0 st : mstate) :
  NoDup (map fst l) → Forall (holds st0 st) l →
  mem (restoreAll l st) = mem st ∧
  (∀ r, r ∈ map fst l → if scalar r then regs (restoreAll l st) r = regs st0 r else vregs (restoreAll l st) r = vregs st0 r) ∧
  (∀ r, r ∉ map fst l → regs (restoreAll l st) r = regs st r ∧ vregs (restoreAll l st) r = vregs st r) ∧
  (∀ r, scalar r = true → vregs (restoreAll l st) r = vregs st r) ∧
  (∀ r, scalar r = false → regs (restoreAll l st) r = regs st r).
Proof.
  revert st. induction l as [| [r a] l IH]; intros st HN HH.
  - cbn. split_and!; [reflexivity | set_solver | auto | reflexivity | reflexivity].
  - cbn [map fst] in HN. apply NoDup_cons in HN as [Hr HN]. apply Forall_cons in HH as [Hh HH].
    set (st1 := access (restoreOp r) r a st). change (restoreAll ((r, a) :: l) st) with (restoreAll l st1).
    assert (Hm1 : mem st1 = mem st) by (unfold st1, restoreOp; destruct (scalar r); reflexivity).
    destruct (IH st1 HN) as (Hm & Hin & Hout & Hv & Hs).
    { eapply Forall_impl; [exact HH |]. intros x. unfold holds, load_block. rewrite Hm1. auto. }
    assert (H1 : ∀ r', r' ≠ r → regs st1 r' = regs st r' ∧ vregs st1 r' = vregs st r').
    { intros r' Hne. unfold st1, restoreOp. destruct (scalar r); cbn; rewrite ?decide_False by exact Hne; auto. }
    assert (H2 : if scalar r then regs st1 r = regs st0 r ∧ vregs st1 r = vregs st r
                 else vregs st1 r = vregs st0 r ∧ regs st1 r = regs st r).
    { unfold holds in Hh. cbn [fst snd] in Hh. unfold st1, restoreOp.
      destruct (scalar r); cbn; rewrite decide_True by reflexivity; auto. }
    cbn [map fst]. split; [congruence |]. split; [| split; [| split]].
    + intros r' Hr'. apply elem_of_cons in Hr' as [-> | Hr']; [| apply Hin; exact Hr'].
      destruct (Hout r Hr) as [-> ->]. destruct (scalar r); apply H2.
    + intros r' Hr'. apply not_elem_of_cons in Hr' as [Hne Hr']. destruct (Hout r' Hr') as [-> ->]. apply H1, Hne.
    + intros r' Hr'. rewrite Hv by exact Hr'. destruct (decide (r' = r)) as [-> | Hne]; [| apply H1, Hne].
      rewrite Hr' in H2. apply H2.
    + intros r' Hr'. rewrite Hs by exact Hr'. destruct (decide (r' = r)) as [-> | Hne]; [| apply H1, Hne].
      rewrite Hr' in H2. apply H2.
Qed.

(** ** Replacing the frame indices of a block *)

Section replacing.
Context (MF0 : MachineFunction) (S : Z).
Hypothesis HS : alignTo (StackSize (MFI MF0)) getStackAlignment 0 = Ret S.
Hypothesis HSr : 0 ≤ S < 2 ^ 23.

(** The instructions the pass can meet once the call frames are gone: no frame
    index; an access to an object whose offset the processor can reach; a debug
    value of an object. *)
Inductive frame_clean (m : MachineFrameInfo) : MachineInstr → Prop :=
  | fc_none MI : isFrameInstr MI = false → firstFI 0 (MIOperands MI) = None → frame_clean m MI
  | fc_access opc r d k fi imm o :
      frame_opcode opc = true → phys r → objectAt m fi = Ret o → isDead o = false →
      - 2 ^ 24 ≤ SPOffset o + imm + S < 2 ^ 24 →
      frame_clean m (mkMI opc [MO_Register r d k; MO_FrameIndex fi; MO_Immediate imm])
  | fc_debug fi ops o :
      firstFI 0 ops = None → objectAt m fi = Ret o → isDead o = false →
      frame_clean m (mkMI Nyuzi.DBG_VALUE (MO_FrameIndex fi :: ops)).

(** What becomes of an instruction; [n] is the scratch register it may use. *)
Inductive replacement : MachineInstr → Block → Prop :=
  | re_none MI : isFrameInstr MI = false → firstFI 0 (MIOperands MI) = None → replacement MI [MI]
  | re_access n opc r d k fi imm o :
      frame_opcode opc = true → phys r → objectAt (MFI MF0) fi = Ret o →
      replacement (mkMI opc [MO_Register r d k; MO_FrameIndex fi; MO_Immediate imm])
        (frameAccess n opc r d k (frameRegFor MF0 fi) (SPOffset o + imm + S))
  | re_debug fi ops :
      replacement (mkMI Nyuzi.DBG_VALUE (MO_FrameIndex fi :: ops))
        [mkMI Nyuzi.DBG_VALUE (addReg (getFrameRegister MF0) :: ops)].

(** An access whose offset fits the instruction. *)
Definition near (MI : MachineInstr) : Prop :=
  ∀ opc r d k fi imm o, MI = mkMI opc [MO_Register r d k; MO_FrameIndex fi; MO_Immediate imm] →
  objectAt (MFI MF0) fi = Ret o → isInt 14 (SPOffset o + imm + S) = true.

Definition replaced (b b' : Block) : Prop := ∃ ls, Forall2 replacement b ls ∧ b' = concat ls.

Lemma replaced_app (l1 l2 b' : Block) :
  replaced (l1 ++ l2) b' → ∃ l1' l2', b' = l1' ++ l2' ∧ replaced l1 l1' ∧ replaced l2 l2'.
Proof.
  intros (ls & HF & ->). apply Forall2_app_inv_l in HF as (k1 & k2 & H1 & H2 & ->).
  exists (concat k1), (concat k2). split; [apply concat_app |]. split; eexists; eauto.
Qed.

Lemma replaced_none (b b' : Block) :
  Forall (λ MI, firstFI 0 (MIOperands MI) = None) b → replaced b b' → b' = b.
Proof.
  intros HN (ls & HF & ->). induction HF as [| MI l b ls HM _ IH]; [reflexivity |].
  apply Forall_cons in HN as [Hn HN]. cbn [concat]. rewrite (IH HN).
  destruct HM; [reflexivity | discriminate Hn | discriminate Hn].
Qed.

Lemma firstFI_shift (i j : Z) (ops : list MachineOperand) : firstFI i ops = None → firstFI j ops = None.
Proof. revert i j. induction ops as [| MO ops IH]; intros i j; [reflexivity |].
  destruct MO; cbn; try apply IH. discriminate. Qed.

Lemma same_frame_refl (MF : MachineFunction) : same_frame MF MF.
Proof. split; reflexivity. Qed.

Lemma same_frame_trans (MF1 MF2 MF3 : MachineFunction) :
  same_frame MF1 MF2 → same_frame MF2 MF3 → same_frame MF1 MF3.
Proof. intros [H1 H2] [H3 H4]. split; congruence. Qed.

Lemma frameRegFor_same (MF : MachineFunction) (fi : Z) : same_frame MF0 MF → frameRegFor MF fi = frameRegFor MF0 fi.
Proof.
  intros HF. unfold frameRegFor, getFrameRegister. rewrite (same_frame_hasFP _ _ HF). destruct HF as [-> _]. reflexivity.
Qed.

Lemma replace_plain (n : nat) (MF : MachineFunction) (pre post : Block) (MI : MachineInstr) :
  isFrameInstr MI = false → firstFI 0 (MIOperands MI) = None →
  replaceInBlock (1 + n) MF (mkCursor pre (MI :: post)) 0 false = replaceInBlock n MF (mkCursor (pre ++ [MI]) post) 0 false.
Proof. intros H1 H2. cbn [Nat.add replaceInBlock after before]. rewrite H1, H2. reflexivity. Qed.

Lemma getObjectOffset_at (m : MachineFrameInfo) (fi : Z) (o : StackObject) :
  objectAt m fi = Ret o → isDead o = false → getObjectOffset m fi = Ret (SPOffset o).
Proof.
  intros Ho Hd. unfold getObjectOffset. unfold objectAt in Ho. rewrite Ho, outcome_bind_ret, Hd. reflexivity.
Qed.

Lemma drop_block (pre l : Block) : drop (length pre) (pre ++ l) = l.
Proof. apply drop_app_length. Qed.

(** One step of the loop on an instruction. *)
Lemma replace_one (MF : MachineFunction) (MI : MachineInstr) :
  same_frame MF0 MF → frame_clean (MFI MF0) MI →
  ∃ k MF' l, (k ≤ 1 + 3 * length (MIOperands MI))%nat ∧ same_frame MF0 MF' ∧ (near MI → NextVReg MF' = NextVReg MF) ∧ replacement MI l ∧
    ∀ n pre post, replaceInBlock (k + n) MF (mkCursor pre (MI :: post)) 0 false =
                  replaceInBlock n MF' (mkCursor (pre ++ l) post) 0 false.
Proof.
  intros HF [MI' Hf Hn | opc r d k fi imm o Hopc Hr Ho Hd Hoff | fi ops o Hops Ho Hd].
  - exists 1%nat, MF, [MI']. split; [lia |]. split; [exact HF |]. split; [reflexivity |]. split; [apply re_none; assumption |].
    intros n pre post. apply replace_plain; assumption.
  - set (Off := SPOffset o + imm + S).
    assert (Hfi : isFrameInstr (mkMI opc [MO_Register r d k; MO_FrameIndex fi; MO_Immediate imm]) = false)
      by (destruct opc; try discriminate Hopc; reflexivity).
    assert (Hdbg : isDebugValue (mkMI opc [MO_Register r d k; MO_FrameIndex fi; MO_Immediate imm]) = false)
      by (destruct opc; try discriminate Hopc; reflexivity).
    assert (Hpl : ∀ b i, isFrameInstr (mkMI opc [MO_Register r d k; b; MO_Immediate i]) = false)
      by (intros b i; destruct opc; try discriminate Hopc; reflexivity).
    assert (HOff : i64 (SPOffset o + imm + i32 S) = Off) by (rewrite (sint_small 32), sint_small by lia; reflexivity).
    assert (H25 : isInt 25 Off = true) by (apply isInt_range; unfold Off; lia).
    assert (Helim : ∀ pre post, _) by
      (intros pre post; exact (eliminateFrameIndex_eq MF (mkCursor pre _) post opc r d k fi imm (SPOffset o) S eq_refl
        (eq_trans (f_equal (λ m, getObjectOffset m fi) (proj1 HF)) (getObjectOffset_at _ _ _ Ho Hd))
        (eq_trans (f_equal (λ m, alignTo (StackSize m) getStackAlignment 0) (proj1 HF)) HS))).
    cbv zeta in Helim. rewrite HOff, H25, (frameRegFor_same MF fi HF) in Helim.
    destruct (isInt 14 Off) eqn:E14.
    + exists 2%nat, MF. eexists. split; [cbn; lia |]. split; [exact HF |]. split; [reflexivity |].
      split; [apply (re_access (NextVReg MF)); eassumption |]. fold Off. unfold frameAccess. rewrite E14.
      intros n pre post. change (2 + n)%nat with (Datatypes.S (1 + n)). cbn [replaceInBlock after]. rewrite Hfi.
      cbn [MIOperands firstFI]. change (0 + 1) with 1. rewrite Hdbg, Helim, outcome_bind_ret.
      unfold block_of. cbn [before after]. rewrite drop_block. apply replace_plain; [apply Hpl | reflexivity].
    + exists 4%nat, (snd (createVirtualRegister MF)). eexists. split; [cbn; lia |].
      split; [exact HF |]. split.
      { intros Hn. specialize (Hn opc r d k fi imm o eq_refl Ho). fold Off in Hn. rewrite E14 in Hn. discriminate Hn. }
      split; [apply (re_access (NextVReg MF)); eassumption |]. fold Off. unfold frameAccess. rewrite E14.
      intros n pre post. change (4 + n)%nat with (Datatypes.S (3 + n)). cbn [replaceInBlock after]. rewrite Hfi.
      cbn [MIOperands firstFI]. change (0 + 1) with 1. rewrite Hdbg, Helim, outcome_bind_ret.
      unfold block_of. cbn [before after]. rewrite <- !app_assoc, drop_block. cbn [app].
      rewrite (replace_plain (2 + n)), (replace_plain (1 + n)), (replace_plain n), <- !app_assoc by (reflexivity || apply Hpl).
      reflexivity.
  - exists 2%nat, MF. eexists. split; [cbn; lia |]. split; [exact HF |]. split; [reflexivity |]. split; [apply re_debug |].
    intros n pre post. change (2 + n)%nat with (Datatypes.S (1 + n)). cbn [replaceInBlock after MIOperands firstFI].
    change (isFrameInstr _) with false. change (isDebugValue _) with true. cbv iota.
    change (cassert (0 =? 0) _) with (Ret tt). rewrite outcome_bind_ret. unfold getFrameIndexReference.
    rewrite (proj1 HF), (getObjectOffset_at _ _ _ Ho Hd), !outcome_bind_ret. unfold setOperand. cbn [MIOperands].
    change (at_index (MO_FrameIndex fi :: ops) 0) with (Ret (MO_FrameIndex fi)). rewrite !outcome_bind_ret.
    cbn [MIOpcode]. change (<[Z.to_nat 0:=addReg (getFrameRegister MF)]> (MO_FrameIndex fi :: ops))
      with (addReg (getFrameRegister MF) :: ops).
    replace (getFrameRegister MF) with (getFrameRegister MF0)
      by (unfold getFrameRegister; rewrite (same_frame_hasFP _ _ HF); reflexivity).
    apply replace_plain; [reflexivity |]. cbn. apply (firstFI_shift 0). exact Hops.
Qed.

Lemma replace_list (b : Block) (MF : MachineFunction) :
  same_frame MF0 MF → Forall (frame_clean (MFI MF0)) b →
  ∃ k MF' b', (k ≤ replaceFuel b)%nat ∧ same_frame MF0 MF' ∧ (Forall near b → NextVReg MF' = NextVReg MF) ∧ replaced b b' ∧
    ∀ n pre post, replaceInBlock (k + n) MF (mkCursor pre (b ++ post)) 0 false =
                  replaceInBlock n MF' (mkCursor (pre ++ b') post) 0 false.
Proof.
  intros HF HB. revert MF HF. induction HB as [| MI b HM _ IH]; intros MF HF.
  - exists O, MF, []. split; [cbn; lia |]. split; [exact HF |]. split; [reflexivity |]. split; [exists []; split; [constructor | reflexivity] |].
    intros n pre post. rewrite app_nil_r. reflexivity.
  - destruct (replace_one MF MI HF HM) as (k1 & MF1 & l & Hk1 & HF1 & HN1 & Hr1 & H1).
    destruct (IH MF1 HF1) as (k2 & MF2 & b' & Hk2 & HF2 & HN2 & (ls & Hls & ->) & H2).
    exists (k1 + k2)%nat, MF2, (l ++ concat ls). split.
    { unfold replaceFuel in *. cbn [length map concat]. rewrite length_app. lia. }
    split; [exact HF2 |]. split; [intros [Ha Hb]%Forall_cons; rewrite HN2, HN1 by assumption; reflexivity |].
    split; [exists (l :: ls); split; [constructor; assumption | reflexivity] |].
    intros n pre post. cbn [app]. rewrite <- Nat.add_assoc, H1, H2, <- app_assoc. reflexivity.
Qed.

Lemma replaceInBlock_done (n : nat) (MF : MachineFunction) (pre : Block) :
  replaceInBlock n MF (mkCursor pre []) 0 false = Ret (MF, pre, 0).
Proof. destruct n; reflexivity. Qed.

Lemma replaceInBlock_eq (b : Block) (MF : MachineFunction) :
  same_frame MF0 MF → Forall (frame_clean (MFI MF0)) b →
  ∃ MF' b', replaceInBlock (replaceFuel b) MF (mkCursor [] b) 0 false = Ret (MF', b', 0) ∧
    same_frame MF0 MF' ∧ (Forall near b → NextVReg MF' = NextVReg MF) ∧ replaced b b'.
Proof.
  intros HF HB. destruct (replace_list b MF HF HB) as (k & MF' & b' & Hk & HF' & HN & Hr & HE).
  exists MF', b'. split; [| split; [assumption | split; assumption]].
  replace (replaceFuel b) with (k + (replaceFuel b - k))%nat by lia.
  rewrite <- (app_nil_r b) at 2. rewrite HE, replaceInBlock_done. reflexivity.
Qed.

(** The pass over the blocks, whatever the order. *)
Lemma replaceBlocks_eq (order : list nat) (StackPred : nat → option nat) :
  ∀ SPState MF Fn, same_frame MF0 MF → NoDup order → (∀ j, SPState j = 0) →
  (∀ i, i ∈ order → ∃ b, Fn !! i = Some b ∧ Forall (frame_clean (MFI MF0)) b) →
  ∃ MF' Fn', replaceBlocks order StackPred SPState MF Fn = Ret (MF', Fn') ∧ same_frame MF0 MF' ∧
    ((∀ i b, i ∈ order → Fn !! i = Some b → Forall near b) → NextVReg MF' = NextVReg MF) ∧
    ∀ i b, Fn !! i = Some b → ∃ b', Fn' !! i = Some b' ∧ (i ∈ order → replaced b b').
Proof.
  induction order as [| i order IH]; intros SPState MF Fn HF HN HSP HB.
  - exists MF, Fn. split; [reflexivity |]. split; [exact HF |]. split; [reflexivity |]. intros i b Hb. exists b. split; [exact Hb | set_solver].
  - apply NoDup_cons in HN as [Hi HN]. destruct (HB i ltac:(left)) as (b & Hb & Hcl).
    destruct (replaceInBlock_eq b MF HF Hcl) as (MF1 & b1 & HE & HF1 & HN1 & Hr).
    pose proof (lookup_lt_Some _ _ _ Hb) as Hlt.
    destruct (IH (λ j, if decide (j = i) then 0 else SPState j) MF1 (<[i := b1]> Fn) HF1 HN) as (MF2 & Fn2 & HE2 & HF2 & HN2 & HB2).
    { intros j. destruct (decide (j = i)); auto. }
    { intros j Hj. destruct (HB j ltac:(right; exact Hj)) as (bj & Hbj & Hclj). exists bj.
      rewrite list_lookup_insert_ne by congruence. split; [exact Hbj | exact Hclj]. }
    exists MF2, Fn2. cbn [replaceBlocks].
    replace (match StackPred i with Some p => SPState p | None => 0 end) with 0 by (destruct (StackPred i); auto).
    rewrite (at_index_lookup _ _ b Hb), outcome_bind_ret, HE, outcome_bind_ret.
    split; [exact HE2 |]. split; [exact HF2 |]. split.
    { intros Hnear. rewrite HN2, HN1; [reflexivity | apply (Hnear i b); [left | exact Hb] |]. intros j bj Hj Hbj.
      rewrite list_lookup_insert_ne in Hbj by congruence. apply (Hnear j bj); [right; exact Hj | exact Hbj]. }
    intros j bj Hbj. destruct (decide (j = i)) as [-> | Hne].
    + assert (bj = b) as -> by congruence.
      destruct (HB2 i b1) as (b' & Hb' & _); [apply list_lookup_insert_eq; exact Hlt |].
      exists b'. split; [exact Hb' |]. intros _.
      (* later steps leave the block alone *)
      assert (Hkeep : ∀ ord SPS MFa Fna MFb Fnb, i ∉ ord → replaceBlocks ord StackPred SPS MFa Fna = Ret (MFb, Fnb) →
                Fnb !! i = Fna !! i).
      { clear. induction ord as [| x ord IH]; intros SPS MFa Fna MFb Fnb Hni HE; cbn [replaceBlocks] in HE.
        - injection HE as _ <-. reflexivity.
        - apply not_elem_of_cons in Hni as [Hx Hni]. cbv zeta in HE.
          apply outcome_bind_Ret_inv in HE as (bx & _ & HE). apply outcome_bind_Ret_inv in HE as ([[MFc bc] sp] & _ & HE).
          rewrite (IH _ _ _ _ _ Hni HE). apply list_lookup_insert_ne. congruence. }
      rewrite (Hkeep _ _ _ _ _ _ Hi HE2), list_lookup_insert_eq in Hb' by exact Hlt. injection Hb' as <-. exact Hr.
    + destruct (HB2 j bj) as (b' & Hb' & Hin); [rewrite list_lookup_insert_ne by congruence; exact Hbj |].
      exists b'. split; [exact Hb' |]. intros Hj. apply Hin. apply elem_of_cons in Hj as [-> | Hj]; [congruence | exact Hj].
Qed.

(** *** What the replaced code does *)

(** The replaced save instructions store the registers at the addresses of their
    slots, which [SP_REG] gives. *)
Lemma access_replaced_exec (opc : Nyuzi.opcode) (r : Nyuzi.reg) (d k : bool) (fi base : Z) (o : StackObject) (l : Block)
    (fi_addr : Z → Z) (s st : mstate) :
  frame_opcode opc = true → phys r → objectAt (MFI MF0) fi = Ret o →
  replacement (mkMI opc [MO_Register r d k; MO_FrameIndex fi; MO_Immediate 0]) l →
  agree_phys s st → regs st (frameRegFor MF0 fi) = u32 (base - S) →
  ∃ s', exec fi_addr l s = Some s' ∧ agree_phys s' (access opc r (u32 (base + SPOffset o)) st).
Proof.
  intros Hopc Hr Ho Hl Hs Hreg. inversion Hl as [MI Hf Hn | n opc' r' d' k' fi' imm o' _ _ Ho' | ]; subst.
  - discriminate Hn.
  - assert (o' = o) as -> by congruence.
    destruct (frameAccess_exec n opc r d k (frameRegFor MF0 fi) (SPOffset o + 0 + S) fi_addr s Hopc (Hr n)
      (frameRegFor_phys MF0 fi n)) as (s' & HE & Hag).
    exists s'. split; [exact HE |]. rewrite (agree_except_phys _ _ _ Hag).
    rewrite (ap_regs _ _ Hs) by (intros m; apply frameRegFor_phys). rewrite Hreg.
    replace (u32 (u32 (base - S) + (SPOffset o + 0 + S))) with (u32 (base + SPOffset o))
      by (autorewrite with cint_mod; f_equal; lia).
    apply access_phys; [exact Hr | exact Hs].
Qed.
End replacing.

(** ** The code around a body *)

Definition no_index (MI : MachineInstr) : Prop := isFrameInstr MI = false ∧ firstFI 0 (MIOperands MI) = None.

Lemma no_index_clean (S : Z) (m : MachineFrameInfo) (l : Block) : Forall no_index l → Forall (frame_clean S m) l.
Proof. intros H. eapply Forall_impl; [exact H |]. intros MI [H1 H2]. apply fc_none; assumption. Qed.

Lemma cfiAt_no_index (k n : nat) : Forall no_index (cfiAt k n).
Proof. apply Forall_fmap, Forall_true. intros i. split; reflexivity. Qed.

Lemma adjustInstrs_no_index (n : nat) (Amount : Z) : Forall no_index (adjustInstrs n Amount).
Proof.
  unfold adjustInstrs, constantInstrs.
  repeat (case_match || rewrite Forall_app || split || constructor); reflexivity.
Qed.

Lemma fpMove_no_index (d s : Nyuzi.reg) (MF : MachineFunction) : Forall no_index (fpMove d s MF).
Proof. unfold fpMove. destruct (hasFP MF); repeat constructor. Qed.

(** The code lowers [SP_REG] by [S] and changes nothing else. *)
Definition moves_sp (l : Block) (d : Z) : Prop :=
  ∀ fi_addr st, 0 ≤ regs st Nyuzi.SP_REG < 2 ^ 32 →
  ∃ st', exec fi_addr l st = Some st' ∧ agree_phys st' (set_reg Nyuzi.SP_REG (u32 (regs st Nyuzi.SP_REG + d)) st).

Definition copies (l : Block) (d s : Nyuzi.reg) (b : bool) : Prop :=
  ∀ fi_addr st, exec fi_addr l st = Some (if b then set_reg d (regs st s) st else st).

Lemma moves_sp_nil : moves_sp [] 0.
Proof.
  intros fi_addr st H. exists st. split; [reflexivity |]. rewrite Z.add_0_r, (uint_small 32) by exact H.
  split; [| reflexivity | reflexivity]. intros r _. cbn. destruct (decide (r = Nyuzi.SP_REG)) as [-> |]; reflexivity.
Qed.

Lemma moves_sp_adjust (n : nat) (d : Z) (l : Block) :
  isInt 24 d = true → Forall is_cfi l → moves_sp (adjustInstrs n d ++ l) d.
Proof.
  intros Hd Hl fi_addr st _. destruct (adjustInstrs_exec n d fi_addr st (or_intror Hd)) as (st' & HE & Hag).
  exists st'. rewrite (exec_app_Some _ _ _ _ _ HE), exec_cfi by exact Hl. split; [reflexivity |].
  exact (agree_except_phys _ _ _ Hag).
Qed.

Lemma copies_fpMove (d s : Nyuzi.reg) (MF : MachineFunction) (l1 l2 : Block) :
  Forall is_cfi l1 → Forall is_cfi l2 → copies (l1 ++ fpMove d s MF ++ l2) d s (hasFP MF).
Proof.
  intros H1 H2 fi_addr st. rewrite (exec_app_Some _ _ _ _ _ (exec_cfi fi_addr l1 st H1)).
  unfold fpMove. destruct (hasFP MF); cbn [app]; [| apply exec_cfi; exact H2].
  cbn [exec exec1 MIOpcode MIOperands addReg]. cbn [mbind option_bind]. apply exec_cfi. exact H2.
Qed.

(** A small frame is set up and removed without a virtual register. *)
Lemma adjustStackPointer_keeps (MF MF' : MachineFunction) (c c' : cursor) (A : Z) :
  isInt 14 A = true → adjustStackPointer MF c A = Ret (MF', c') → MF' = MF.
Proof. unfold adjustStackPointer. intros -> H. injection H as <- _. reflexivity. Qed.

Lemma emitCalleeSavedCFI_keeps (CSI : list (Nyuzi.reg * Z)) (MF MF' : MachineFunction) (c c' : cursor) :
  emitCalleeSavedCFI CSI MF c = Ret (MF', c') → NextVReg MF' = NextVReg MF.
Proof.
  revert MF c. induction CSI as [| [r fi] CSI IH]; intros MF c H; cbn [emitCalleeSavedCFI] in H; [injection H as <- _; reflexivity |].
  apply outcome_bind_Ret_inv in H as (o & _ & H). cbn in H. rewrite (IH _ _ H). reflexivity.
Qed.

Lemma emitPrologue_keeps (MF MF' : MachineFunction) (b : bool) (B B' : Block) (S : Z) :
  alignTo (StackSize (MFI MF)) getStackAlignment 0 = Ret S → 0 ≤ S < 2 ^ 23 → isInt 14 (- S) = true →
  emitPrologue MF b B = Ret (MF', B') → NextVReg MF' = NextVReg MF.
Proof.
  intros HS HSr H14 H. unfold emitPrologue in H. apply outcome_bind_Ret_inv in H as ([] & _ & H).
  rewrite HS, outcome_bind_ret, (sint_small 32 S), (sint_small 32 (- S)) in H by lia.
  destruct (_ && _); [injection H as <- _; reflexivity |].
  apply outcome_bind_Ret_inv in H as ([MF1 c1] & HA & H). apply adjustStackPointer_keeps in HA as ->; [| exact H14]. cbn [buildCFI addFrameInst] in H.
  apply outcome_bind_Ret_inv in H as ([MF2 c2] & HC & H).
  assert (E : NextVReg MF2 = NextVReg MF).
  { destruct (_ <? _)%nat; [| injection HC as <- _; reflexivity]. apply outcome_bind_Ret_inv in HC as (c3 & _ & HC). exact (emitCalleeSavedCFI_keeps _ _ _ _ _ HC). }
  destruct (hasFP MF2); injection H as <- _; exact E.
Qed.

Lemma emitEpilogue_keeps (MF MF' : MachineFunction) (B B' : Block) (S : Z) :
  alignTo (StackSize (MFI MF)) getStackAlignment 0 = Ret S → 0 ≤ S < 2 ^ 23 → isInt 14 S = true →
  emitEpilogue MF B = Ret (MF', B') → NextVReg MF' = NextVReg MF.
Proof.
  intros HS HSr H14 H. unfold emitEpilogue in H. apply outcome_bind_Ret_inv in H as (MI & _ & H).
  apply outcome_bind_Ret_inv in H as ([] & _ & H). apply outcome_bind_Ret_inv in H as (c & _ & H).
  rewrite HS, outcome_bind_ret in H. destruct (S =? 0); [injection H as <- _; reflexivity |].
  rewrite (sint_small 32 S) in H by lia.
  apply outcome_bind_Ret_inv in H as ([MF1 c1] & HA & H). apply adjustStackPointer_keeps in HA as ->; [| exact H14]. injection H as <- _. reflexivity.
Qed.

Section around.
Context (MF0 : MachineFunction) (S : Z).
Hypothesis HS : alignTo (StackSize (MFI MF0)) getStackAlignment 0 = Ret S.
Hypothesis HSr : 0 ≤ S < 2 ^ 23.
Hypothesis HS0 : S = 0 → hasFP MF0 = false ∧ CSInfo (MFI MF0) = [].
Hypothesis Hslots : Forall (λ x, ∃ o, getObjectOffset (MFI MF0) x.2 = Ret o) (CSInfo (MFI MF0)).

Lemma prologue_block (MF : MachineFunction) (saves body : Block) (MI : MachineInstr) :
  same_frame MF0 MF → length saves = length (CSInfo (MFI MF0)) →
  ∃ MF' pro mid, emitPrologue MF true (saves ++ MI :: body) = Ret (MF', pro ++ saves ++ mid ++ MI :: body) ∧
    same_frame MF0 MF' ∧ Forall no_index pro ∧ Forall no_index mid ∧
    moves_sp pro (- S) ∧ copies mid Nyuzi.FP_REG Nyuzi.SP_REG (hasFP MF0).
Proof.
  intros HF Hlen. pose proof HF as [HM HD]. destruct (adjustable S HSr) as [_ HA].
  destruct ((S =? 0) && negb (AdjustsStack (MFI MF))) eqn:Hz.
  - apply andb_true_iff in Hz as [Hz1 Hz2]. apply Z.eqb_eq in Hz1. destruct (HS0 Hz1) as [Hfp Hcs].
    rewrite Hcs in Hlen. destruct saves; [| discriminate]. exists MF, [], []. split.
    { unfold emitPrologue. cbn [cassert]. rewrite outcome_bind_ret, HM, HS, outcome_bind_ret, Hz1.
      change (i32 0) with 0. rewrite <- HM, Hz2. reflexivity. }
    split; [exact HF |]. split; [constructor |]. split; [constructor |]. rewrite Hz1, Hfp.
    split; [apply moves_sp_nil | intros fi_addr st; reflexivity].
  - destruct (savedSlots_exist _ _ Hslots) as (offs & Hoffs). rewrite <- HM in HS, Hoffs, Hlen.
    destruct (emitPrologue_eq MF saves body MI S offs HS HSr Hz Hlen Hoffs) as (MF1 & Hsf & _ & HP).
    set (k := length (FrameInsts MF)) in *. set (n := length (CSInfo (MFI MF))) in *.
    set (fpn := if hasFP MF then 1%nat else 0%nat) in *.
    exists MF1, (adjustInstrs (NextVReg MF) (- S) ++ cfiAt k 1),
      (cfiAt (k + 1) n ++ fpMove Nyuzi.FP_REG Nyuzi.SP_REG MF ++ cfiAt (k + 1 + n) fpn).
    split; [rewrite HP, <- !app_assoc; reflexivity |]. split; [exact (same_frame_trans _ _ _ HF Hsf) |].
    split; [apply Forall_app; split; [apply adjustInstrs_no_index | apply cfiAt_no_index] |].
    split; [rewrite !Forall_app; split_and!; auto using cfiAt_no_index, fpMove_no_index |].
    split; [apply moves_sp_adjust; [exact HA | apply cfiAt_is_cfi] |].
    rewrite <- (same_frame_hasFP _ _ HF). apply copies_fpMove; apply cfiAt_is_cfi.
Qed.

Lemma epilogue_block (MF : MachineFunction) (pre restores : Block) (ops : list MachineOperand) :
  same_frame MF0 MF → length restores = length (CSInfo (MFI MF0)) →
  ∃ MF' fp adj, emitEpilogue MF (pre ++ restores ++ [mkMI Nyuzi.RET ops])
      = Ret (MF', pre ++ fp ++ restores ++ adj ++ [mkMI Nyuzi.RET ops]) ∧
    same_frame MF0 MF' ∧ Forall no_index fp ∧ Forall no_index adj ∧
    copies fp Nyuzi.SP_REG Nyuzi.FP_REG (hasFP MF0) ∧ moves_sp adj S.
Proof.
  intros HF Hlen. pose proof HF as [HM HD]. destruct (adjustable S HSr) as [HA _].
  rewrite <- HM in HS, Hlen.
  destruct (emitEpilogue_eq MF pre restores ops S HS HSr Hlen) as (MF' & Hsf & HE).
  exists MF', (fpMove Nyuzi.SP_REG Nyuzi.FP_REG MF), (if S =? 0 then [] else adjustInstrs (NextVReg MF) S).
  split; [exact HE |]. split; [exact (same_frame_trans _ _ _ HF Hsf) |]. split; [apply fpMove_no_index |].
  split; [destruct (S =? 0); [constructor | apply adjustInstrs_no_index] |]. split.
  - rewrite <- (same_frame_hasFP _ _ HF), <- (app_nil_r (fpMove _ _ _)).
    change (copies ([] ++ fpMove Nyuzi.SP_REG Nyuzi.FP_REG MF ++ []) Nyuzi.SP_REG Nyuzi.FP_REG (hasFP MF)).
    apply copies_fpMove; constructor.
  - destruct (Z.eqb_spec S 0) as [-> | _]; [apply moves_sp_nil |].
    rewrite <- (app_nil_r (adjustInstrs _ _)). apply moves_sp_adjust; [exact HA | constructor].
Qed.
End around.

(** ** Spills and restores on the machine *)

Section spills.
Context (MF0 : MachineFunction) (S base : Z).

(** The register and the address of its slot. *)
Definition slotAt (x : Nyuzi.reg * Z) : Nyuzi.reg * Z :=
  (x.1, u32 (base + match objectAt (MFI MF0) x.2 with Ret o => SPOffset o | _ => 0 end)).

(** A slot that is addressed from [SP_REG]. *)
Definition sp_slot (x : Nyuzi.reg * Z) : Prop :=
  phys x.1 ∧ x.1 ≠ Nyuzi.SP_REG ∧ (∃ o, objectAt (MFI MF0) x.2 = Ret o) ∧ frameRegFor MF0 x.2 = Nyuzi.SP_REG.

Lemma saveOp_frame (r : Nyuzi.reg) : frame_opcode (saveOp r) = true.
Proof. unfold saveOp. destruct (scalar r); reflexivity. Qed.

Lemma restoreOp_frame (r : Nyuzi.reg) : frame_opcode (restoreOp r) = true.
Proof. unfold restoreOp. destruct (scalar r); reflexivity. Qed.

Lemma saveOp_regs (r r' : Nyuzi.reg) (a : Z) (st : mstate) : regs (access (saveOp r) r a st) r' = regs st r'.
Proof.
  unfold saveOp. destruct (scalar r); cbn [access]; [reflexivity |].
  rewrite (proj1 (store_block_regs _ _ _)). reflexivity.
Qed.

Lemma restoreOp_regs (r r' : Nyuzi.reg) (a : Z) (st : mstate) : r' ≠ r → regs (access (restoreOp r) r a st) r' = regs st r'.
Proof. intros Hne. unfold restoreOp. destruct (scalar r); cbn; [rewrite decide_False by exact Hne |]; reflexivity. Qed.

(** A list of accesses, one per register. *)
Lemma accesses_exec (op : Nyuzi.reg → Nyuzi.opcode) (d k : bool) (fi_addr : Z → Z) (l : list (Nyuzi.reg * Z)) :
  (∀ r, frame_opcode (op r) = true) →
  (∀ x a st, x ∈ l → regs (access (op x.1) x.1 a st) Nyuzi.SP_REG = regs st Nyuzi.SP_REG) →
  ∀ b' s st, Forall sp_slot l →
  replaced MF0 S (map (λ x, mkMI (op x.1) [MO_Register x.1 d k; MO_FrameIndex x.2; MO_Immediate 0]) l) b' →
  agree_phys s st → regs st Nyuzi.SP_REG = u32 (base - S) →
  ∃ s', exec fi_addr b' s = Some s' ∧
    agree_phys s' (foldl (λ st x, access (op x.1) x.1 x.2 st) st (map slotAt l)).
Proof.
  intros Hop. induction l as [| x l IH]; intros Hsp b' s st HF (ls & Hls & ->) Hag Hreg.
  - apply Forall2_nil_inv_l in Hls as ->. exists s. split; [reflexivity | exact Hag].
  - apply Forall_cons in HF as [(Hph & Hne & (o & Ho) & Hfr) HF]. cbn [map] in Hls.
    apply Forall2_cons_inv_l in Hls as (c & ls' & Hc & Hls & ->).
    destruct (access_replaced_exec MF0 S (op x.1) x.1 d k x.2 base o c fi_addr s st (Hop x.1) Hph Ho Hc Hag)
      as (s1 & HE1 & Hag1); [rewrite Hfr; exact Hreg |].
    destruct (IH (λ y a st' Hy, Hsp y a st' (list_elem_of_further _ _ _ Hy)) (concat ls') s1 _ HF
      (ex_intro _ ls' (conj Hls eq_refl)) Hag1) as (s2 & HE2 & Hag2).
    { rewrite Hsp by left. exact Hreg. }
    exists s2. cbn [concat]. rewrite (exec_app_Some _ _ _ _ _ HE1). split; [exact HE2 |].
    cbn [map foldl]. unfold slotAt at 1 2 3. cbn [fst snd]. rewrite Ho. exact Hag2.
Qed.

Lemma saves_exec (fi_addr : Z → Z) (l : list (Nyuzi.reg * Z)) (b' : Block) (s st : mstate) :
  Forall sp_slot l → replaced MF0 S (map saveInstr l) b' → agree_phys s st → regs st Nyuzi.SP_REG = u32 (base - S) →
  ∃ s', exec fi_addr b' s = Some s' ∧ agree_phys s' (saveAll (map slotAt l) st).
Proof.
  intros HF HR Hag Hreg. apply (accesses_exec saveOp false true fi_addr l saveOp_frame); try assumption.
  intros x a st' _. apply saveOp_regs.
Qed.

Lemma restores_exec (fi_addr : Z → Z) (l : list (Nyuzi.reg * Z)) (b' : Block) (s st : mstate) :
  Forall sp_slot l → replaced MF0 S (map restoreInstr l) b' → agree_phys s st → regs st Nyuzi.SP_REG = u32 (base - S) →
  ∃ s', exec fi_addr b' s = Some s' ∧ agree_phys s' (restoreAll (map slotAt l) st).
Proof.
  intros HF HR Hag Hreg. apply (accesses_exec restoreOp true false fi_addr l restoreOp_frame); try assumption.
  intros x a st' Hx. apply restoreOp_regs. rewrite Forall_forall in HF. destruct (HF x Hx) as (_ & Hne & _). congruence.
Qed.
End spills.

(** ** Entering and leaving a function *)

Lemma calleeSaved_phys (r : Nyuzi.reg) : r ∈ getCalleeSavedRegs → phys r ∧ r ≠ Nyuzi.SP_REG.
Proof.
  intros Hr. assert (H : Forall (λ r, match r with Nyuzi.VirtReg _ | Nyuzi.SP_REG => False | _ => True end) getCalleeSavedRegs)
    by (vm_compute; repeat constructor).
  rewrite Forall_forall in H. specialize (H r Hr). split; [intros n ->; exact H | intros ->; exact H].
Qed.

Section frame.
Context (MF0 : MachineFunction) (F : FunctionInfo) (S : Z).
Let CSI := CSInfo (MFI MF0).
Let FR := getFrameRegister MF0.

(** The slots of the callee-saved registers for a stack pointer on entry. *)
Definition csSlots (base : Z) : list (Nyuzi.reg * Z) := map (slotAt MF0 base) (CSInfo (MFI MF0)).

(** What [Pro], run on entry, leaves for the body. *)
Record entered (st0 st1 : mstate) : Prop := {
  en_sp : regs st1 Nyuzi.SP_REG = regs st0 Nyuzi.SP_REG - S;
  en_frame : regs st1 (getFrameRegister MF0) = regs st0 Nyuzi.SP_REG - S;
  en_regs : ∀ r, phys r → r ≠ Nyuzi.SP_REG → r ≠ getFrameRegister MF0 → regs st1 r = regs st0 r;
  en_vregs : ∀ r, vregs st1 r = vregs st0 r;
  en_mem : ∀ y, y < regs st0 Nyuzi.SP_REG - S ∨ regs st0 Nyuzi.SP_REG ≤ y → mem st1 y = mem st0 y
}.

(** What a body has to leave alone: the frame register, the callee-saved slots and
    the callee-saved registers it is not known to change. *)
Record body_ok (base : Z) (st1 st2 : mstate) : Prop := {
  bo_frame : regs st2 (getFrameRegister MF0) = regs st1 (getFrameRegister MF0);
  bo_slots : ∀ x y, x ∈ csSlots base → ¬ outside y x → mem st2 y = mem st1 y;
  bo_regs : ∀ r, r ∈ getCalleeSavedRegs → isPhysRegModified F r = false →
    regs st2 r = regs st1 r ∧ vregs st2 r = vregs st1 r
}.

(** The state in which the function returns. *)
Record left_with (st0 st2 st3 : mstate) : Prop := {
  lf_sp : regs st3 Nyuzi.SP_REG = regs st0 Nyuzi.SP_REG;
  lf_mem : ∀ y, mem st3 y = mem st2 y;
  lf_saved : ∀ r, r ∈ getCalleeSavedRegs → if scalar r then regs st3 r = regs st0 r else vregs st3 r = vregs st0 r
}.

(** [Pro] enters the frame, and [Epi] leaves it after any body. *)
Definition preserves (Pro Epi : Block) : Prop :=
  ∀ fi_addr st0, S ≤ regs st0 Nyuzi.SP_REG < 2 ^ 32 → (∀ r, r ∈ getCalleeSavedRegs → lanes_ok st0 r) →
  ∃ st1, exec fi_addr Pro st0 = Some st1 ∧ entered st0 st1 ∧
    ∀ st2, body_ok (regs st0 Nyuzi.SP_REG) st1 st2 →
      ∃ st3, exec fi_addr Epi st2 = Some st3 ∧ left_with st0 st2 st3.

Hypothesis HSr : 0 ≤ S.
Hypothesis Hsp : Forall (sp_slot MF0) CSI.
Hypothesis Hnodup : NoDup (map fst CSI).
Hypothesis Hcsr : ∀ r, r ∈ map fst CSI → r ∈ getCalleeSavedRegs.
Hypothesis Hmod : ∀ r, r ∈ getCalleeSavedRegs → isPhysRegModified F r = true → r ∈ map fst CSI.
Hypothesis Hfp : hasFP MF0 = true → Nyuzi.FP_REG ∈ map fst CSI.
Hypothesis Hplace : Forall (λ x, ∃ o, objectAt (MFI MF0) x.2 = Ret o ∧ ObjSize o = getSpillSize x.1 ∧
  - S ≤ SPOffset o ∧ SPOffset o + ObjSize o ≤ 0) CSI.
Hypothesis Hapart : ForallOrdPairs (λ x y, ∀ ox oy, objectAt (MFI MF0) x.2 = Ret ox → objectAt (MFI MF0) y.2 = Ret oy →
  apart ox oy) CSI.

(** A slot lies in the frame. *)
Lemma slot_inside (base : Z) (x : Nyuzi.reg * Z) :
  S ≤ base < 2 ^ 32 → x ∈ CSI →
  ∃ o, objectAt (MFI MF0) x.2 = Ret o ∧ ObjSize o = getSpillSize x.1 ∧ slotAt MF0 base x = (x.1, base + SPOffset o) ∧
    base - S ≤ base + SPOffset o ∧ base + SPOffset o + getSpillSize x.1 ≤ base.
Proof.
  intros Hb Hx. rewrite Forall_forall in Hplace. destruct (Hplace x Hx) as (o & Ho & Hsz & Hlo & Hhi).
  exists o. split; [exact Ho |]. split; [exact Hsz |].
  assert (0 < getSpillSize x.1) by (rewrite spillSize_scalar; destruct (scalar x.1); lia).
  unfold slotAt. rewrite Ho, (uint_small 32) by lia. split; [reflexivity |]. lia.
Qed.

Lemma csSlots_fst (base : Z) : map fst (csSlots base) = map fst CSI.
Proof. unfold csSlots. rewrite map_map. reflexivity. Qed.

Lemma csSlots_space (base : Z) : S ≤ base < 2 ^ 32 →
  Forall (λ x, in_space x ∧ base - S ≤ x.2 ∧ x.2 + getSpillSize x.1 ≤ base) (csSlots base).
Proof.
  intros Hb. apply Forall_map, Forall_forall. intros x Hx.
  destruct (slot_inside base x Hb Hx) as (o & _ & _ & -> & Hlo & Hhi). unfold in_space. cbn [fst snd]. lia.
Qed.

Lemma csSlots_apart (base : Z) : S ≤ base < 2 ^ 32 → ForallOrdPairs slots_apart (csSlots base).
Proof.
  intros Hb. unfold csSlots.
  assert (HG : ∀ l, ForallOrdPairs (λ x y, ∀ ox oy, objectAt (MFI MF0) x.2 = Ret ox →
     objectAt (MFI MF0) y.2 = Ret oy → apart ox oy) l → Forall (λ x, x ∈ CSI) l →
     ForallOrdPairs slots_apart (map (slotAt MF0 base) l)).
  { induction 1 as [| x l Hx _ IH]; intros HI; cbn [map]; constructor.
    - apply Forall_cons in HI as [Hxi HI]. apply Forall_map.
      eapply Forall_impl; [apply Forall_and; split; [exact Hx | exact HI] |]. intros y [Hy Hyi].
      destruct (slot_inside base x Hb Hxi) as (ox & Hox & Hsx & -> & _).
      destruct (slot_inside base y Hb Hyi) as (oy & Hoy & Hsy & -> & _).
      unfold slots_apart. cbn [fst snd]. destruct (Hy ox oy Hox Hoy); lia.
    - apply IH. apply Forall_cons in HI. apply HI. }
  apply HG; [exact Hapart | apply Forall_forall; auto].
Qed.

Lemma FR_cases : FR = if hasFP MF0 then Nyuzi.FP_REG else Nyuzi.SP_REG.
Proof. reflexivity. Qed.

(** The state in which the registers are saved. *)
Definition lowered (st0 : mstate) : mstate := set_reg Nyuzi.SP_REG (u32 (regs st0 Nyuzi.SP_REG - S)) st0.

Lemma enter_exec (pro saves mid : Block) (fi_addr : Z → Z) (st0 : mstate) :
  moves_sp pro (- S) → replaced MF0 S (map saveInstr CSI) saves →
  copies mid Nyuzi.FP_REG Nyuzi.SP_REG (hasFP MF0) →
  S ≤ regs st0 Nyuzi.SP_REG < 2 ^ 32 → (∀ r, r ∈ getCalleeSavedRegs → lanes_ok st0 r) →
  ∃ st1, exec fi_addr (pro ++ saves ++ mid) st0 = Some st1 ∧ entered st0 st1 ∧
    ∀ y, mem st1 y = mem (saveAll (csSlots (regs st0 Nyuzi.SP_REG)) (lowered st0)) y.
Proof.
  intros Hpro Hsv Hmid Hb HL. set (base := regs st0 Nyuzi.SP_REG) in *.
  destruct (Hpro fi_addr st0 ltac:(fold base; lia)) as (sa & HEa & Hag). fold base in Hag.
  change (set_reg _ (u32 (base + - S)) st0) with (lowered st0) in Hag.
  assert (Hlow : regs (lowered st0) Nyuzi.SP_REG = u32 (base - S)) by apply set_reg_eq.
  destruct (saves_exec MF0 S base fi_addr CSI saves sa (lowered st0) Hsp Hsv Hag Hlow) as (sb & HEb & Hagb).
  change (map (slotAt MF0 base) CSI) with (csSlots base) in Hagb. set (tb := saveAll (csSlots base) (lowered st0)) in *.
  destruct (saveAll_spec (csSlots base) (lowered st0)) as (Hr & Hv & _ & Hm).
  { eapply Forall_impl; [apply (csSlots_space base Hb) |]. intros x [Hx _]. exact Hx. }
  { apply csSlots_apart. exact Hb. }
  { apply Forall_forall. intros x Hx. apply (HL x.1), Hcsr. rewrite <- (csSlots_fst base).
    apply list_elem_of_fmap. eauto. }
  fold tb in Hr, Hv, Hm.
  assert (Hspb : regs sb Nyuzi.SP_REG = base - S).
  { rewrite (ap_regs _ _ Hagb) by discriminate. rewrite Hr, Hlow. apply uint_small. lia. }
  assert (Hrb : ∀ r, phys r → r ≠ Nyuzi.SP_REG → regs sb r = regs st0 r).
  { intros r Hp Hne. rewrite (ap_regs _ _ Hagb) by exact Hp. rewrite Hr. apply set_reg_ne. exact Hne. }
  eexists. rewrite (exec_app_Some _ _ _ _ _ HEa), (exec_app_Some _ _ _ _ _ HEb). split; [apply Hmid |].
  assert (Hv1 : ∀ r, vregs sb r = vregs st0 r) by (intros r; rewrite (ap_vregs _ _ Hagb), Hv; reflexivity).
  assert (Hm1 : ∀ y, mem sb y = mem tb y) by (intros y; apply (ap_mem _ _ Hagb)).
  assert (Hout : ∀ y, y < base - S ∨ base ≤ y → mem sb y = mem st0 y).
  { intros y Hy. rewrite Hm1, Hm; [reflexivity |]. eapply Forall_impl; [apply (csSlots_space base Hb) |].
    intros x (_ & H1 & H2). unfold outside. lia. }
  destruct (hasFP MF0) eqn:HFP; (split; [| exact Hm1]); constructor; unfold getFrameRegister; rewrite ?HFP; cbv iota; fold base;
    try assumption.
  - intros r Hp Hne Hne'. rewrite set_reg_ne by exact Hne'. auto.
  - auto.
Qed.

Lemma holds_slots (st0 s : mstate) :
  S ≤ regs st0 Nyuzi.SP_REG < 2 ^ 32 → (∀ r, r ∈ getCalleeSavedRegs → lanes_ok st0 r) →
  (∀ x y, x ∈ csSlots (regs st0 Nyuzi.SP_REG) → ¬ outside y x →
     mem s y = mem (saveAll (csSlots (regs st0 Nyuzi.SP_REG)) (lowered st0)) y) →
  Forall (holds st0 s) (csSlots (regs st0 Nyuzi.SP_REG)).
Proof.
  intros Hb HL Hm. set (base := regs st0 Nyuzi.SP_REG) in *.
  assert (Hspace : Forall in_space (csSlots base)).
  { eapply Forall_impl; [apply (csSlots_space base Hb) |]. intros x [Hx _]. exact Hx. }
  destruct (saveAll_spec (csSlots base) (lowered st0) Hspace (csSlots_apart base Hb)) as (_ & _ & Hh & _).
  { apply Forall_forall. intros x Hx. apply (HL x.1), Hcsr. rewrite <- (csSlots_fst base).
    apply list_elem_of_fmap. eauto. }
  apply Forall_forall. intros x Hx. rewrite Forall_forall in Hh, Hspace.
  assert (Hne : x.1 ≠ Nyuzi.SP_REG).
  { assert (Hin : x.1 ∈ map fst CSI) by (rewrite <- (csSlots_fst base); apply list_elem_of_fmap; eauto).
    apply list_elem_of_fmap in Hin as (z & -> & Hz). rewrite Forall_forall in Hsp. apply (Hsp z Hz). }
  pose proof (saved_frame_mono (lowered st0) _ s x (Hspace x Hx) (λ y, Hm x y Hx) (Hh x Hx)) as Hs.
  unfold holds in *. unfold lowered in Hs. rewrite set_reg_ne in Hs by exact Hne. exact Hs.
Qed.

Lemma leave_exec (fp restores adj : Block) (fi_addr : Z → Z) (st0 st1 st2 : mstate) :
  copies fp Nyuzi.SP_REG Nyuzi.FP_REG (hasFP MF0) → replaced MF0 S (map restoreInstr (rev CSI)) restores →
  moves_sp adj S → S ≤ regs st0 Nyuzi.SP_REG < 2 ^ 32 → (∀ r, r ∈ getCalleeSavedRegs → lanes_ok st0 r) →
  entered st0 st1 → (∀ y, mem st1 y = mem (saveAll (csSlots (regs st0 Nyuzi.SP_REG)) (lowered st0)) y) →
  body_ok (regs st0 Nyuzi.SP_REG) st1 st2 →
  ∃ st3, exec fi_addr (fp ++ restores ++ adj) st2 = Some st3 ∧ left_with st0 st2 st3.
Proof.
  intros Hfpc Hre Hadj Hb HL Hen Hm1 Hbo. set (base := regs st0 Nyuzi.SP_REG) in *.
  set (sc := if hasFP MF0 then set_reg Nyuzi.SP_REG (regs st2 Nyuzi.FP_REG) st2 else st2).
  assert (Hspc : regs sc Nyuzi.SP_REG = base - S).
  { pose proof (bo_frame _ _ _ Hbo) as Hf. rewrite (en_frame _ _ Hen) in Hf. unfold getFrameRegister in Hf. unfold sc.
    destruct (hasFP MF0); [rewrite set_reg_eq |]; exact Hf. }
  assert (Hrc : ∀ r, r ≠ Nyuzi.SP_REG → regs sc r = regs st2 r).
  { intros r Hr. unfold sc. destruct (hasFP MF0); [apply set_reg_ne; exact Hr | reflexivity]. }
  assert (Hmc : ∀ y, mem sc y = mem st2 y) by (intros y; unfold sc; destruct (hasFP MF0); reflexivity).
  assert (Hvc : ∀ r, vregs sc r = vregs st2 r) by (intros r; unfold sc; destruct (hasFP MF0); reflexivity).
  destruct (restores_exec MF0 S base fi_addr (rev CSI) restores sc sc) as (sd & HEd & Hagd);
    [apply Forall_rev; exact Hsp | exact Hre | reflexivity | rewrite Hspc, (uint_small 32) by lia; reflexivity |].
  rewrite map_rev in Hagd. change (map (slotAt MF0 base) CSI) with (csSlots base) in Hagd.
  set (td := restoreAll (rev (csSlots base)) sc) in *.
  destruct (restoreAll_spec (rev (csSlots base)) st0 sc) as (Hm & Hin & Hout & _ & _).
  { rewrite map_rev, csSlots_fst. apply NoDup_ListNoDup, List.NoDup_rev, NoDup_ListNoDup. exact Hnodup. }
  { apply Forall_rev, holds_slots; [exact Hb | exact HL |]. intros x y Hx Hy.
    rewrite Hmc, (bo_slots _ _ _ Hbo x y Hx Hy). apply Hm1. }
  fold td in Hm, Hin, Hout.
  assert (Helem : ∀ r, r ∈ map fst (rev (csSlots base)) ↔ r ∈ map fst CSI)
    by (intros r; rewrite map_rev, csSlots_fst, !list_elem_of_In; symmetry; apply List.in_rev).
  assert (HnSP : Nyuzi.SP_REG ∉ map fst CSI).
  { intros H. apply list_elem_of_fmap in H as (z & Hz & Hin'). rewrite Forall_forall in Hsp. apply (Hsp z Hin'). congruence. }
  assert (Hspd : regs sd Nyuzi.SP_REG = base - S).
  { rewrite (ap_regs _ _ Hagd) by discriminate. rewrite (proj1 (Hout _ ltac:(rewrite Helem; exact HnSP))). exact Hspc. }
  destruct (Hadj fi_addr sd ltac:(rewrite Hspd; lia)) as (s3 & HE3 & Hag3).
  exists s3. rewrite (exec_app_Some _ _ _ _ _ (Hfpc fi_addr st2)). fold sc.
  rewrite (exec_app_Some _ _ _ _ _ HEd). split; [exact HE3 |]. constructor.
  - rewrite (ap_regs _ _ Hag3) by discriminate. rewrite set_reg_eq, Hspd, Z.sub_add. apply uint_small. lia.
  - intros y. rewrite (ap_mem _ _ Hag3). cbn. rewrite (ap_mem _ _ Hagd), Hm. apply Hmc.
  - intros r Hr. destruct (calleeSaved_phys r Hr) as [Hp Hne].
    assert (H3 : regs s3 r = regs td r ∧ vregs s3 r = vregs td r).
    { rewrite (ap_regs _ _ Hag3), (ap_vregs _ _ Hag3) by exact Hp. rewrite set_reg_ne by exact Hne. cbn.
      rewrite (ap_regs _ _ Hagd), (ap_vregs _ _ Hagd) by exact Hp. split; reflexivity. }
    destruct H3 as [-> ->]. destruct (decide (r ∈ map fst CSI)) as [Hc | Hc]; [apply Hin, Helem, Hc |].
    destruct (Hout r ltac:(rewrite Helem; exact Hc)) as [-> ->]. rewrite Hrc, Hvc by exact Hne.
    assert (Hm0 : isPhysRegModified F r = false) by (destruct (isPhysRegModified F r) eqn:E; [exfalso; auto | reflexivity]).
    destruct (bo_regs _ _ _ Hbo r Hr Hm0) as [-> ->]. rewrite (en_vregs _ _ Hen).
    destruct (scalar r); [| reflexivity]. apply (en_regs _ _ Hen); [exact Hp | exact Hne |].
    unfold getFrameRegister. destruct (hasFP MF0); [| exact Hne]. intros ->. apply Hc, Hfp. reflexivity.
Qed.

Lemma enter_leave (pro saves mid fp restores adj : Block) :
  moves_sp pro (- S) → replaced MF0 S (map saveInstr CSI) saves →
  copies mid Nyuzi.FP_REG Nyuzi.SP_REG (hasFP MF0) →
  copies fp Nyuzi.SP_REG Nyuzi.FP_REG (hasFP MF0) → replaced MF0 S (map restoreInstr (rev CSI)) restores →
  moves_sp adj S → preserves (pro ++ saves ++ mid) (fp ++ restores ++ adj).
Proof.
  intros H1 H2 H3 H4 H5 H6 fi_addr st0 Hb HL.
  destruct (enter_exec pro saves mid fi_addr st0 H1 H2 H3 Hb HL) as (st1 & HE & Hen & Hm).
  exists st1. split; [exact HE |]. split; [exact Hen |]. intros st2 Hbo.
  exact (leave_exec fp restores adj fi_addr st0 st1 st2 H4 H5 H6 Hb HL Hen Hm Hbo).
Qed.
End frame.
