(* ===== verification/NyuziPEIPass.v ===== *)
(** * NyuziPEIPass: the prologue and epilogue pass is correct

    For a well-formed function the pass of NyuziPEI.v chooses the spill slots, lays
    the frame out and replaces every frame index, and the code it leaves keeps the
    calling convention: every callee-saved register and the stack pointer are on
    return what they were on entry. *)
From S2P Require Import Prelude MathExtras NyuziTarget NyuziMachine NyuziInstrInfo NyuziFrame NyuziFrameLayout NyuziPEI.

(** ** The slots the pass chooses *)

Section slots.
Context (l : list Nyuzi.reg) (N : Z).
Let CSI := zip l (seqZ N (Z.of_nat (length l))).

Lemma zip_seqZ_lookup (k : nat) (x : Nyuzi.reg * Z) :
  CSI !! k = Some x → l !! k = Some x.1 ∧ x.2 = N + Z.of_nat k ∧ (k < length l)%nat.
Proof.
  intros H. apply lookup_zip_with_Some in H as (r & z & -> & Hr & Hz). apply lookup_seqZ in Hz as [-> Hk].
  pose proof (lookup_lt_Some _ _ _ Hr). cbn [fst snd]. auto.
Qed.

Lemma zip_seqZ_length : length CSI = length l.
Proof. unfold CSI. rewrite length_zip_with, length_seqZ. lia. Qed.

Lemma zip_seqZ_fst : map fst CSI = l.
Proof. apply fst_zip. rewrite length_seqZ. lia. Qed.

(** The slots are the ones [eliminateFrameIndex] addresses from [SP_REG]. *)
Lemma frameRegFor_slots (MF : MachineFunction) (x : Nyuzi.reg * Z) :
  CSInfo (MFI MF) = CSI → x ∈ CSI → frameRegFor MF x.2 = Nyuzi.SP_REG.
Proof.
  intros HC Hx. apply list_elem_of_lookup_1 in Hx as [k Hk]. destruct (zip_seqZ_lookup k x Hk) as (_ & Hz & Hlt).
  unfold frameRegFor. rewrite HC. pose proof zip_seqZ_length as HL.
  assert (Hfirst : match CSI with (_, fi) :: _ => fi | [] => 0 end = N).
  { destruct CSI as [| y C] eqn:E; [discriminate Hk |]. assert (HY : CSI !! O = Some y) by (rewrite E; reflexivity).
    destruct (zip_seqZ_lookup O y HY) as (_ & H & _). destruct y. cbn in H. lia. }
  assert (Hlast : match last CSI with Some (_, fi) => fi | None => -1 end = N + Z.of_nat (length l) - 1).
  { rewrite last_lookup, HL. destruct (CSI !! pred (length l)) as [y |] eqn:E.
    - destruct (zip_seqZ_lookup _ y E) as (_ & H & _). destruct y. cbn in H. lia.
    - apply lookup_ge_None_1 in E. lia. }
  rewrite Hfirst, Hlast, Hz. rewrite (proj2 (Z.leb_le _ _)), (proj2 (Z.leb_le _ _)) by lia. reflexivity.
Qed.
End slots.

(** The callee-saved registers [determineCalleeSaves] chooses, and its scavenging
    slot. *)
Lemma determineCalleeSaves_grown (F : FunctionInfo) (MF : MachineFunction) (w : Z) :
  getWorstCaseStackSize MF = Ret w → 0 ≤ getObjectIndexEnd (MFI MF) →
  Naked F = false → NoCSROpt F = false → NeverReturns F = false →
  ∃ Saved RS MF2 extra, determineCalleeSaves F MF [] [] = Ret (Saved, RS, MF2) ∧
    grown (MFI MF) (MFI MF2) extra ∧ CSInfo (MFI MF2) = CSInfo (MFI MF) ∧
    DisableFramePointerElim MF2 = DisableFramePointerElim MF ∧ Forall small_object extra ∧
    ((RS = [] ∧ extra = []) ∨ (RS = [getObjectIndexEnd (MFI MF)] ∧ length extra = 1%nat)) ∧
    (hasFP MF = true → Nyuzi.FP_REG ∈ Saved) ∧
    ∀ r, r ∈ getCalleeSavedRegs → isPhysRegModified F r = true → r ∈ Saved.
Proof.
  intros Hw H0 H1 H2 H3. unfold determineCalleeSaves, TFL_determineCalleeSaves. rewrite H1, H2, H3, Hw, outcome_bind_ret.
  set (S1 := [] ++ List.filter _ _). set (Sv := if hasFP MF then S1 ++ [Nyuzi.FP_REG] else S1).
  assert (HS : (hasFP MF = true → Nyuzi.FP_REG ∈ Sv) ∧
    ∀ r, r ∈ getCalleeSavedRegs → isPhysRegModified F r = true → r ∈ Sv).
  { unfold Sv. split; [intros ->; set_solver |]. intros r Hr Hm.
    assert (r ∈ S1) by (apply list_elem_of_In, List.filter_In; rewrite Hm, orb_true_r, <- list_elem_of_In; auto).
    destruct (hasFP MF); set_solver. }
  destruct (isInt 14 (i64 w)).
  - exists Sv, [], MF, []. split; [reflexivity |]. split; [apply grown_refl |].
    split; [reflexivity |]. split; [reflexivity |]. split; [constructor |]. split; [left; auto | exact HS].
  - destruct (CreateStackObject_eq (MFI MF) 4 4) as (m' & HC & HG & HI); [discriminate | exact H0 | exists 2; split; [lia | reflexivity] |].
    rewrite HC, outcome_bind_ret. do 4 eexists. split; [reflexivity |]. split; [exact HG |].
    split; [exact HI |]. split; [reflexivity |]. split.
    { constructor; [| constructor]. split; [reflexivity |]. cbn. split; [lia |].
      split; [exists 2; split; [lia | reflexivity] | lia]. }
    split; [right; auto | exact HS].
Qed.

(** ** The pass on a well-formed function *)

(** Code before the layout: accesses to objects that are alive, within four
    megabytes of them (of the frame for the objects of the caller). *)
Inductive reachable_code (m : MachineFrameInfo) : MachineInstr → Prop :=
  | rc_none MI : no_index MI → reachable_code m MI
  | rc_access opc r d k fi imm o :
      frame_opcode opc = true → phys r → objectAt m fi = Ret o → isDead o = false →
      - 2 ^ 22 ≤ (if fi <? 0 then SPOffset o + imm else imm) ≤ 2 ^ 22 →
      reachable_code m (mkMI opc [MO_Register r d k; MO_FrameIndex fi; MO_Immediate imm])
  | rc_debug fi ops o :
      firstFI 0 ops = None → objectAt m fi = Ret o → isDead o = false →
      reachable_code m (mkMI Nyuzi.DBG_VALUE (MO_FrameIndex fi :: ops)).

(** The hooks of the frame layout for a range of callee-saved slots. *)
Definition layoutPEI (P : PassInput) (Mn Mx : Z) (RS : list Z) : PEI :=
  mkPEI Mn Mx RS (ProtectorIndex P) (SSPLayout P) (NeedsRealignment P) (OptimizingPass P).

(** An access within four kilobytes of the object, or of the frame. *)
Definition small_access (m : MachineFrameInfo) (MI : MachineInstr) : Prop :=
  ∀ opc r d k fi imm o, MI = mkMI opc [MO_Register r d k; MO_FrameIndex fi; MO_Immediate imm] → objectAt m fi = Ret o →
  - 2 ^ 12 ≤ (if fi <? 0 then SPOffset o + imm else imm) ≤ 2 ^ 12.

(** A function without call frames the pass is run on; [F] and [C] bound its frame
    as in [frame_ok]. *)
Record pass_ok (P : PassInput) (MF : MachineFunction) (Fn : list Block) (F C : Z) : Prop := {
  po_frame : frame_ok (layoutPEI P UINT_MAX 0 []) (MFI MF) F C;
  po_budget : 128 ≤ C ∧ F + (getObjectIndexEnd (MFI MF) + 15) * C + 2 ^ 32 ≤ 2 ^ 62;
  po_count : 0 ≤ getObjectIndexEnd (MFI MF) < 2 ^ 29;
  po_worst : ∃ w, getWorstCaseStackSize MF = Ret w;
  po_csinfo : CSInfo (MFI MF) = [];
  po_attrs : Naked (Attributes P) = false ∧ NoCSROpt (Attributes P) = false ∧ NeverReturns (Attributes P) = false;
  po_entry : ∃ MI b, Fn !! O = Some (MI :: b);
  po_return : ∀ i b, Fn !! i = Some b → isReturnBlock b = true →
    ∃ pre ops, b = pre ++ [mkMI Nyuzi.RET ops] ∧ Forall plain pre;
  po_code : ∀ i b, Fn !! i = Some b → Forall (reachable_code (MFI MF)) b;
  po_order : DFSOrder P ≡ₚ seq 0 (length Fn);
}.

(** The frame once the slots are there. *)
Record spilled_frame (P : PassInput) (MF MF3 : MachineFunction) (RS : list Z) (Mn Mx F C : Z) : Prop := {
  sf_grown : ∃ extra, grown (MFI MF) (MFI MF3) extra;
  sf_hasFP : hasFP MF3 = hasFP MF;
  sf_ok : frame_ok (layoutPEI P Mn Mx RS) (MFI MF3) F C;
  sf_slots : ∃ regs N, CSInfo (MFI MF3) = zip regs (seqZ N (Z.of_nat (length regs))) ∧ 0 ≤ N ∧
    (∀ r, r ∈ regs → r ∈ getCalleeSavedRegs) ∧ NoDup regs ∧
    (∀ r, r ∈ getCalleeSavedRegs → isPhysRegModified (Attributes P) r = true → r ∈ regs) ∧
    (hasFP MF = true → Nyuzi.FP_REG ∈ regs) ∧
    ∀ k r, regs !! k = Some r → objectAt (MFI MF3) (N + Z.of_nat k) = Ret (slotObject r)
}.

Lemma hasFP_grown (MF MF' : MachineFunction) (e : list StackObject) :
  grown (MFI MF) (MFI MF') e → DisableFramePointerElim MF' = DisableFramePointerElim MF → hasFP MF' = hasFP MF.
Proof. intros HG HD. unfold hasFP. rewrite HD, (gr_varsized _ _ _ HG), (gr_address _ _ _ HG). reflexivity. Qed.

Lemma savedRegs_spec (Saved : list Nyuzi.reg) :
  let regs := List.filter (λ r, bool_decide (r ∈ Saved)) getCalleeSavedRegs in
  NoDup regs ∧ (length regs ≤ 13)%nat ∧ ∀ r, r ∈ regs ↔ r ∈ getCalleeSavedRegs ∧ r ∈ Saved.
Proof.
  cbv zeta. split; [| split].
  - apply NoDup_ListNoDup, List.NoDup_filter, NoDup_ListNoDup. apply (bool_decide_unpack (NoDup getCalleeSavedRegs)). vm_compute. exact I.
  - etrans; [apply List.filter_length_le |]. vm_compute. lia.
  - intros r. rewrite list_elem_of_In, List.filter_In, <- list_elem_of_In, bool_decide_eq_true. reflexivity.
Qed.

Lemma spill_frame (P : PassInput) (MF : MachineFunction) (Fn : list Block) (F C : Z) :
  pass_ok P MF Fn F C →
  ∃ Saved RS MF2 m3 Mn Mx, determineCalleeSaves (Attributes P) MF [] [] = Ret (Saved, RS, MF2) ∧
    assignCalleeSavedSpillSlots (MFI MF2) Saved = Ret (m3, Mn, Mx) ∧
    spilled_frame P MF (withMFI MF2 m3) RS Mn Mx F C.
Proof.
  intros HP. destruct (po_worst _ _ _ _ _ HP) as [w Hw]. destruct (po_attrs _ _ _ _ _ HP) as (Ha1 & Ha2 & Ha3).
  pose proof (po_count _ _ _ _ _ HP) as Hn. pose proof (po_frame _ _ _ _ _ HP) as HFO.
  destruct (determineCalleeSaves_grown (Attributes P) MF w Hw (proj1 Hn) Ha1 Ha2 Ha3)
    as (Saved & RS & MF2 & e1 & HD & HG1 & HC1 & HD1 & HX1 & HRS & Hfp & Hmod).
  pose proof (getObjectIndexEnd_grown _ _ _ HG1) as HE1.
  assert (Hl1 : (length e1 ≤ 1)%nat) by (destruct HRS as [[_ ->] | [_ ->]]; cbn; lia).
  rewrite (po_csinfo _ _ _ _ _ HP) in HC1.
  destruct (assignCalleeSavedSpillSlots_spec (MFI MF2) Saved HC1 ltac:(lia)) as (m3 & Mn & Mx & HA & HG2 & HC2 & Hseq).
  destruct (savedRegs_spec Saved) as (Hnd & Hlen & Hin). cbv zeta in Hnd, Hlen, Hin.
  set (regs := List.filter (λ r, bool_decide (r ∈ Saved)) getCalleeSavedRegs) in *. clearbody regs.
  pose proof (grown_trans _ _ _ _ _ HG1 HG2) as HG.
  set (N := getObjectIndexEnd (MFI MF2)) in *. pose proof (ok_count _ _ _ _ HFO) as Hcount.
  exists Saved, RS, MF2, m3, Mn, Mx. split; [exact HD |]. split; [exact HA |]. constructor.
  - exists (e1 ++ map slotObject regs). exact HG.
  - apply (hasFP_grown MF (withMFI MF2 m3) _ HG HD1).
  - destruct (po_budget _ _ _ _ _ HP) as [HC128 Hbud].
    apply (frame_ok_grown (layoutPEI P UINT_MAX 0 []) _ (MFI MF) m3 (e1 ++ map slotObject regs)); try assumption.
    + apply Forall_app. split; [exact HX1 |]. apply Forall_map, Forall_forall. intros r _.
      destruct (slotObject_spec r) as (_ & H1 & H2 & H3). split; [reflexivity |]. auto.
    + assert (Hmul : (getObjectIndexEnd (MFI MF) + Z.of_nat (length (e1 ++ map slotObject regs)) + 1) * C ≤
                (getObjectIndexEnd (MFI MF) + 15) * C).
      { apply Z.mul_le_mono_nonneg_r; [lia |]. rewrite length_app, length_map. lia. }
      lia.
    + reflexivity.
    + cbn. destruct HRS as [[-> _] | [-> _]]; constructor; [lia | constructor].
    + unfold csIndices. cbn [MinCSFrameIndex MaxCSFrameIndex ScavengingFrameIndices layoutPEI]. rewrite Hseq.
      destruct HRS as [[-> _] | [-> He]]; [rewrite app_nil_r; apply NoDup_seqZ |].
      apply NoDup_app. split; [apply NoDup_seqZ |]. split; [| apply NoDup_singleton].
      intros i Hi. rewrite elem_of_seqZ in Hi. rewrite list_elem_of_singleton. lia.
    + intros i. unfold csIndices. cbn [MinCSFrameIndex MaxCSFrameIndex ScavengingFrameIndices layoutPEI].
      rewrite Hseq, elem_of_app, elem_of_seqZ, length_app, length_map.
      destruct HRS as [[-> ->] | [-> He]]; [set_solver by lia |]. rewrite list_elem_of_singleton. lia.
  - exists regs, N. split; [exact HC2 |]. split; [lia |]. split; [intros r Hr; apply Hin, Hr |]. split; [exact Hnd |].
    split; [intros r Hr Hm; apply Hin; auto |]. split.
    { intros H. apply Hin. split; [| auto]. apply (bool_decide_unpack (Nyuzi.FP_REG ∈ getCalleeSavedRegs)). vm_compute. exact I. }
    intros k r Hk. pose proof (lookup_lt_Some _ _ _ Hk) as Hlt.
    assert (Hc2 : 0 ≤ NumFixedObjects (MFI MF2) ≤ Z.of_nat (length (Objects (MFI MF2)))).
    { rewrite (gr_fixed _ _ _ HG1), (gr_objects _ _ _ HG1), length_app. lia. }
    destruct (objectAt_grown_new (MFI MF2) m3 (map slotObject regs) (N + Z.of_nat k) HG2 Hc2) as (o & Ho & Hat).
    { rewrite length_map. fold N. lia. }
    fold N in Ho. replace (Z.to_nat (N + Z.of_nat k - N)) with k in Ho by lia.
    rewrite list_lookup_fmap, Hk in Ho. injection Ho as <-. exact Hat.
Qed.

(** *** Spill code *)

Definition onEntry (i : nat) (l : Block) : Block := if (i =? 0)%nat then l else [].

(** A block with spill code: [CSI] is saved at the start of the entry block, and
    restored in front of the return of a return block. *)
Definition withSpills (CSI : list (Nyuzi.reg * Z)) (i : nat) (b b' : Block) : Prop :=
  ∃ core, b' = onEntry i (map saveInstr CSI) ++ core ∧
    ((isReturnBlock b = false ∧ core = b) ∨
     ∃ body ops, b = body ++ [mkMI Nyuzi.RET ops] ∧ core = body ++ map restoreInstr (rev CSI) ++ [mkMI Nyuzi.RET ops]).

Lemma restoreBlocks_spec (Fn : list Block) (i : nat) :
  i ∈ (calculateSaveRestoreBlocks Fn).2 ↔ ∃ b, Fn !! i = Some b ∧ isReturnBlock b = true.
Proof.
  cbn [calculateSaveRestoreBlocks snd]. rewrite list_elem_of_In, List.filter_In, List.in_seq. split.
  - intros [_ H]. destruct (Fn !! i) as [b |]; [eauto | discriminate].
  - intros (b & Hb & Hr). rewrite Hb. pose proof (lookup_lt_Some _ _ _ Hb). split; [lia | exact Hr].
Qed.

Lemma restoreBlocks_NoDup (Fn : list Block) : NoDup (calculateSaveRestoreBlocks Fn).2.
Proof. apply NoDup_ListNoDup, List.NoDup_filter, List.seq_NoDup. Qed.

Lemma isReturnBlock_ret (pre : Block) (ops : list MachineOperand) : isReturnBlock (pre ++ [mkMI Nyuzi.RET ops]) = true.
Proof. unfold isReturnBlock. rewrite last_snoc. reflexivity. Qed.

Lemma saves_plain (CSI : list (Nyuzi.reg * Z)) : Forall plain (map saveInstr CSI).
Proof. apply Forall_map, Forall_true. intros x. unfold plain, saveInstr. destruct (scalar x.1); reflexivity. Qed.

Section spilling.
Context (P : PassInput) (MF MF3 : MachineFunction) (Fn : list Block) (RS : list Z) (Mn Mx F C : Z).
Hypothesis HP : pass_ok P MF Fn F C.
Hypothesis HSF : spilled_frame P MF MF3 RS Mn Mx F C.
Let CSI := CSInfo (MFI MF3).

Lemma slots_slotted : Forall (slotted (MFI MF3)) CSI.
Proof.
  destruct (sf_slots _ _ _ _ _ _ _ _ HSF) as (regs & N & HC & _ & Hin & _ & _ & _ & Hobj). unfold CSI. rewrite HC.
  apply Forall_lookup. intros k x Hk. destruct (zip_seqZ_lookup regs N k x Hk) as (Hr & Hz & _).
  split; [apply Hin, list_elem_of_lookup; eauto |]. rewrite Hz. eauto.
Qed.

(** The two loops over the save and restore blocks. *)
Lemma spill_blocks :
  ∃ Fn3, (updateBlocks (λ _ MF b, insertCSRSaves MF b CSI ≫= λ b, Ret (MF, b)) [O] MF3 Fn ≫= λ '(MF, Fn'),
    updateBlocks (λ _ MF b, insertCSRRestores MF b CSI ≫= λ b, Ret (MF, b)) (calculateSaveRestoreBlocks Fn).2 MF Fn')
    = Ret (MF3, Fn3) ∧ length Fn3 = length Fn ∧
    ∀ i b, Fn !! i = Some b → ∃ b', Fn3 !! i = Some b' ∧ withSpills CSI i b b'.
Proof.
  pose proof slots_slotted as Hsl.
  destruct (updateBlocks_spec (λ _ MF b, insertCSRSaves MF b CSI ≫= λ b, Ret (MF, b)) (λ M, M = MF3)
    (λ _ b b', b' = map saveInstr CSI ++ b) [O] MF3 Fn eq_refl (NoDup_singleton _)) as (MF4 & Fn4 & HE & -> & HL4 & HB4).
  { intros i Hi. apply list_elem_of_singleton in Hi as ->. destruct (po_entry _ _ _ _ _ HP) as (MI & b & Hb).
    exists (MI :: b). split; [exact Hb |]. intros M ->. exists MF3. eexists. unfold insertCSRSaves.
    rewrite insertSaves_eq by exact Hsl. rewrite !outcome_bind_ret. split; [reflexivity |]. split; reflexivity. }
  rewrite HE, outcome_bind_ret.
  assert (Hb4 : ∀ i b, Fn !! i = Some b → Fn4 !! i = Some (onEntry i (map saveInstr CSI) ++ b)).
  { intros i b Hb. destruct (HB4 i b Hb) as (b' & Hb' & Hin & Hout). rewrite Hb'. f_equal. unfold onEntry.
    destruct (Nat.eqb_spec i 0) as [-> | Hne]; [apply Hin; left | apply Hout; set_solver]. }
  destruct (updateBlocks_spec (λ _ MF b, insertCSRRestores MF b CSI ≫= λ b, Ret (MF, b)) (λ M, M = MF3)
    (λ i b b', ∃ body ops, b = body ++ [mkMI Nyuzi.RET ops] ∧
       b' = body ++ map restoreInstr (rev CSI) ++ [mkMI Nyuzi.RET ops]) (calculateSaveRestoreBlocks Fn).2 MF3 Fn4
    eq_refl (restoreBlocks_NoDup Fn)) as (MF5 & Fn5 & HE5 & -> & HL5 & HB5).
  { intros i Hi. apply restoreBlocks_spec in Hi as (b & Hb & Hr).
    destruct (po_return _ _ _ _ _ HP i b Hb Hr) as (pre & ops & -> & Hpl).
    exists (onEntry i (map saveInstr CSI) ++ pre ++ [mkMI Nyuzi.RET ops]). split; [apply Hb4; exact Hb |].
    intros M ->. exists MF3. eexists. rewrite app_assoc. unfold insertCSRRestores.
    rewrite getFirstTerminator_last; [| apply Forall_app; split; [| exact Hpl] | reflexivity].
    2: { unfold onEntry. destruct (i =? 0)%nat; [apply saves_plain | constructor]. }
    rewrite insertRestores_eq by (apply Forall_rev; exact Hsl). rewrite !outcome_bind_ret.
    split; [reflexivity |]. split; [reflexivity |]. do 2 eexists. split; [reflexivity |].
    unfold block_of. cbn [before after]. rewrite <- !app_assoc. reflexivity. }
  exists Fn5. split; [exact HE5 |]. split; [congruence |]. intros i b Hb.
  destruct (HB5 i _ (Hb4 i b Hb)) as (b' & Hb' & Hin & Hout). exists b'. split; [exact Hb' |].
  destruct (isReturnBlock b) eqn:Hr.
  - destruct (po_return _ _ _ _ _ HP i b Hb Hr) as (pre & ops & -> & Hpl).
    destruct (Hin (proj2 (restoreBlocks_spec Fn i) (ex_intro _ _ (conj Hb Hr)))) as (body & ops' & Heq & ->).
    rewrite app_assoc in Heq. apply app_inj_tail in Heq as [<- [= <-]].
    exists (pre ++ map restoreInstr (rev CSI) ++ [mkMI Nyuzi.RET ops]). split; [rewrite <- app_assoc; reflexivity |].
    right. exists pre, ops. split; reflexivity.
  - exists b. split; [| left; auto]. apply Hout. rewrite restoreBlocks_spec. intros (b2 & Hb2 & Hr2). congruence.
Qed.
End spilling.

Lemma spillCalleeSavedRegs_eq (P : PassInput) (MF : MachineFunction) (Fn : list Block) (F C : Z) :
  pass_ok P MF Fn F C →
  ∃ MF3 Fn3 RS Mn Mx, spillCalleeSavedRegs (Attributes P) MF Fn = Ret (MF3, Fn3, RS, Mn, Mx) ∧
    spilled_frame P MF MF3 RS Mn Mx F C ∧ length Fn3 = length Fn ∧
    ∀ i b, Fn !! i = Some b → ∃ b', Fn3 !! i = Some b' ∧ withSpills (CSInfo (MFI MF3)) i b b'.
Proof.
  intros HP. destruct (spill_frame P MF Fn F C HP) as (Saved & RS & MF2 & m3 & Mn & Mx & HD & HA & HSF).
  destruct (spill_blocks P MF _ Fn RS Mn Mx F C HP HSF) as (Fn3 & HE & HL & HB).
  destruct (po_attrs _ _ _ _ _ HP) as (Hnaked & _).
  unfold spillCalleeSavedRegs. cbn [calculateSaveRestoreBlocks]. rewrite HD, outcome_bind_ret, HA, outcome_bind_ret, Hnaked.
  cbn [orb]. set (MF3 := withMFI MF2 m3) in *. change (CSInfo m3) with (CSInfo (MFI MF3)).
  destruct (bool_decide_reflect (CSInfo (MFI MF3) = [])) as [H0 | H0].
  - exists MF3, Fn, RS, Mn, Mx. split; [reflexivity |]. split; [exact HSF |]. split; [reflexivity |].
    intros i b Hb. exists b. split; [exact Hb |]. rewrite H0. exists b.
    split; [unfold onEntry; destruct (i =? 0)%nat; reflexivity |].
    destruct (isReturnBlock b) eqn:Hr; [right | left; auto].
    destruct (po_return _ _ _ _ _ HP i b Hb Hr) as (pre & ops & -> & _). exists pre, ops. split; reflexivity.
  - exists MF3, Fn3, RS, Mn, Mx. cbn [calculateSaveRestoreBlocks snd] in HE.
    apply outcome_bind_Ret_inv in HE as ([MF4 Fn4] & HE1 & HE2). rewrite HE1, outcome_bind_ret, HE2, outcome_bind_ret.
    split; [reflexivity |]. split; [exact HSF |]. split; [exact HL | exact HB].
Qed.

(** *** The layout *)

Section laid_out.
Context (P : PassInput) (MF MF3 : MachineFunction) (RS : list Z) (Mn Mx F C : Z) (m : MachineFrameInfo).
Hypothesis HSF : spilled_frame P MF MF3 RS Mn Mx F C.
Hypothesis HL : layout_ok MF3 (MFI MF3) m.
Let MF0 := withMFI MF3 m.
Let S := StackSize m.
Let CSI := CSInfo (MFI MF3).

Lemma laid_csinfo : CSInfo (MFI MF0) = CSI.
Proof. exact (so_csinfo _ _ (lo_same _ _ _ HL)). Qed.

Lemma laid_hasFP : hasFP MF0 = hasFP MF.
Proof.
  rewrite <- (sf_hasFP _ _ _ _ _ _ _ _ HSF). unfold hasFP. cbn [MFI MF0 withMFI DisableFramePointerElim].
  rewrite (so_varsized _ _ (lo_same _ _ _ HL)), (so_address _ _ (lo_same _ _ _ HL)). reflexivity.
Qed.

Lemma laid_size : 0 ≤ S ≤ 2 ^ 23 - 64 → alignTo (StackSize (MFI MF0)) getStackAlignment 0 = Ret S.
Proof.
  intros Hb. destruct (lo_size _ _ _ HL) as [Hd _]. change (StackSize (MFI MF0)) with S.
  destruct (alignTo_spec S getStackAlignment) as (r & Hr & Hrb & Hrd); [unfold getStackAlignment; lia .. |].
  rewrite Hr. f_equal. unfold getStackAlignment in *. fold S in Hd. destruct Hd as [q Hq], Hrd as [q' Hq']. lia.
Qed.

(** A local object that is alive, in the layout. *)
Lemma laid_object (fi : Z) (o : StackObject) :
  objectAt (MFI MF3) fi = Ret o → isDead o = false →
  ∃ o', objectAt m fi = Ret o' ∧ isDead o' = false ∧ ObjSize o' = ObjSize o ∧
    if fi <? 0 then o' = o else - S ≤ SPOffset o' ∧ SPOffset o' + ObjSize o ≤ 0.
Proof.
  intros Ho Hd. destruct (Z.ltb_spec fi 0) as [Hneg | Hpos].
  - pose proof (objectAt_range _ _ _ Ho). exists o. rewrite (lo_fixed _ _ _ HL fi) by lia. auto.
  - destruct (lo_inside _ _ _ HL fi o Hpos Ho Hd) as (o' & Ho' & (H1 & H2 & H3) & _ & Hlo & Hhi & _).
    exists o'. split; [exact Ho' |]. split; [congruence |]. split; [exact H1 |]. split; assumption.
Qed.

(** A slot of a callee-saved register. *)
Lemma laid_slot (x : Nyuzi.reg * Z) :
  x ∈ CSI → 0 ≤ x.2 ∧ x.1 ∈ getCalleeSavedRegs ∧ ∃ o, objectAt m x.2 = Ret o ∧ isDead o = false ∧
    ObjSize o = getSpillSize x.1 ∧ - S ≤ SPOffset o ∧ SPOffset o + ObjSize o ≤ 0.
Proof.
  intros Hx. destruct (sf_slots _ _ _ _ _ _ _ _ HSF) as (regs & N & HC & HN & Hin & _ & _ & _ & Hobj).
  unfold CSI in Hx. rewrite HC in Hx. apply list_elem_of_lookup_1 in Hx as [k Hk].
  destruct (zip_seqZ_lookup regs N k x Hk) as (Hr & Hz & _). rewrite Hz. split; [lia |].
  split; [apply Hin, list_elem_of_lookup; eauto |].
  destruct (laid_object _ _ (Hobj k x.1 Hr) eq_refl) as (o & Ho & Hd & Hs & Hpos).
  destruct (Z.ltb_spec (N + Z.of_nat k) 0); [lia |]. cbn [ObjSize slotObject] in *.
  exists o. split_and!; try assumption; lia.
Qed.

Lemma laid_sp_slots : Forall (sp_slot MF0) CSI.
Proof.
  apply Forall_forall. intros x Hx. destruct (laid_slot x Hx) as (_ & Hr & o & Ho & _).
  destruct (calleeSaved_phys x.1 Hr) as [Hp Hne]. split; [exact Hp |]. split; [exact Hne |]. split; [eauto |].
  destruct (sf_slots _ _ _ _ _ _ _ _ HSF) as (regs & N & HC & _).
  apply (frameRegFor_slots regs N); [rewrite laid_csinfo; exact HC |]. unfold CSI in Hx. rewrite <- HC. exact Hx.
Qed.

Lemma laid_placed :
  Forall (λ x, ∃ o, objectAt (MFI MF0) x.2 = Ret o ∧ ObjSize o = getSpillSize x.1 ∧
    - S ≤ SPOffset o ∧ SPOffset o + ObjSize o ≤ 0) CSI.
Proof.
  apply Forall_forall. intros x Hx. destruct (laid_slot x Hx) as (_ & _ & o & Ho & _ & H1 & H2 & H3). eauto.
Qed.

Lemma laid_apart :
  ForallOrdPairs (λ x y, ∀ ox oy, objectAt (MFI MF0) x.2 = Ret ox → objectAt (MFI MF0) y.2 = Ret oy → apart ox oy) CSI.
Proof.
  assert (HG : ∀ l, Forall (λ x, x ∈ CSI) l → NoDup (map snd l) →
    ForallOrdPairs (λ x y, ∀ ox oy, objectAt (MFI MF0) x.2 = Ret ox → objectAt (MFI MF0) y.2 = Ret oy → apart ox oy) l).
  { induction l as [| x l IH]; intros HI HN; constructor.
    - apply Forall_cons in HI as [Hx HI]. cbn [map] in HN. apply NoDup_cons in HN as [Hnx _].
      apply Forall_forall. intros y Hy ox oy Hox Hoy. rewrite Forall_forall in HI.
      destruct (laid_slot x Hx) as (Hx0 & _ & o1 & Ho1 & Hd1 & _), (laid_slot y (HI y Hy)) as (Hy0 & _ & o2 & Ho2 & Hd2 & _).
      change (MFI MF0) with m in Hox, Hoy. assert (ox = o1) as -> by congruence. assert (oy = o2) as -> by congruence.
      apply (lo_apart _ _ _ HL x.2 y.2); try assumption. intros Heq. apply Hnx. rewrite Heq. apply list_elem_of_fmap. eauto.
    - apply IH; [apply Forall_cons in HI; apply HI |]. cbn [map] in HN. apply NoDup_cons in HN. apply HN. }
  apply HG; [apply Forall_forall; auto |].
  destruct (sf_slots _ _ _ _ _ _ _ _ HSF) as (regs & N & HC & _). unfold CSI. rewrite HC.
  assert (Hs : map snd (zip regs (seqZ N (Z.of_nat (length regs)))) = seqZ N (Z.of_nat (length regs)))
    by (apply snd_zip; rewrite length_seqZ; lia).
  rewrite Hs. apply NoDup_seqZ.
Qed.

Lemma laid_empty : S = 0 → hasFP MF0 = false ∧ CSInfo (MFI MF0) = [].
Proof.
  intros H0. assert (Hnil : CSI = []).
  { destruct CSI as [| x l] eqn:E; [reflexivity |]. destruct (laid_slot x) as (_ & _ & o & _ & _ & Hs & H1 & H2).
    - rewrite E. left.
    - rewrite spillSize_scalar in Hs. destruct (scalar x.1); lia. }
  split; [| rewrite laid_csinfo; exact Hnil]. rewrite laid_hasFP. destruct (hasFP MF) eqn:E; [| reflexivity].
  destruct (sf_slots _ _ _ _ _ _ _ _ HSF) as (regs & N & HC & _ & _ & _ & _ & Hfp & _). specialize (Hfp E).
  unfold CSI in Hnil. rewrite HC in Hnil. assert (Hr : regs = []).
  { pose proof (zip_seqZ_length regs N) as HLn. rewrite Hnil in HLn. destruct regs; [reflexivity | discriminate HLn]. }
  rewrite Hr in Hfp. set_solver.
Qed.

(** The code of the function once the frame is laid out. *)
Lemma laid_clean (MI : MachineInstr) :
  0 ≤ S ≤ 2 ^ 23 - 64 → (∃ extra, grown (MFI MF) (MFI MF3) extra) →
  reachable_code (MFI MF) MI → frame_clean S m MI.
Proof.
  intros Hb [extra HG] Hr.
  assert (Hold : ∀ fi o, objectAt (MFI MF) fi = Ret o → objectAt (MFI MF3) fi = Ret o).
  { intros fi o Ho. rewrite (objectAt_grown_old _ _ _ fi HG); [exact Ho |]. apply (objectAt_range _ _ _ Ho). }
  destruct Hr as [MI [H1 H2] | opc r d k fi imm o Hopc Hr Ho Hd Hi | fi ops o Hops Ho Hd].
  - apply fc_none; assumption.
  - destruct (laid_object fi o (Hold fi o Ho) Hd) as (o' & Ho' & Hd' & Hs & Hpos).
    apply (fc_access S m opc r d k fi imm o' Hopc Hr Ho' Hd').
    destruct (fi <? 0) eqn:Hneg; [subst o'; lia |].
    assert (0 ≤ ObjSize o).
    { destruct (ok_local _ _ _ _ (sf_ok _ _ _ _ _ _ _ _ HSF) fi o) as [H0 _]; [lia | apply Hold, Ho | exact H0]. }
    lia.
  - destruct (laid_object fi o (Hold fi o Ho) Hd) as (o' & Ho' & Hd' & _). apply (fc_debug S m fi ops o' Hops Ho' Hd').
Qed.

Lemma laid_slots_clean :
  0 ≤ S ≤ 2 ^ 23 - 64 →
  Forall (frame_clean S m) (map saveInstr CSI) ∧ Forall (frame_clean S m) (map restoreInstr (rev CSI)).
Proof.
  intros Hb. assert (HG : ∀ x, x ∈ CSI → frame_clean S m (saveInstr x) ∧ frame_clean S m (restoreInstr x)).
  { intros x Hx. destruct (laid_slot x Hx) as (_ & Hr & o & Ho & Hd & Hs & H1 & H2).
    assert (0 < ObjSize o) by (rewrite Hs, spillSize_scalar; destruct (scalar x.1); lia).
    destruct (calleeSaved_phys x.1 Hr) as [Hp _]. split.
    - apply (fc_access S m (saveOp x.1) x.1 false true x.2 0 o (saveOp_frame x.1) Hp Ho Hd). lia.
    - apply (fc_access S m (restoreOp x.1) x.1 true false x.2 0 o (restoreOp_frame x.1) Hp Ho Hd). lia. }
  split; apply Forall_map; [| apply Forall_rev]; apply Forall_forall; intros x Hx; apply HG, Hx.
Qed.
End laid_out.

(** *** Prologue, epilogues and the final code *)

Section final.
Context (P : PassInput) (MF MF3 : MachineFunction) (Fn Fn3 : list Block) (RS : list Z) (Mn Mx F C : Z) (m : MachineFrameInfo).
Hypothesis HP : pass_ok P MF Fn F C.
Hypothesis HSF : spilled_frame P MF MF3 RS Mn Mx F C.
Hypothesis HL : layout_ok MF3 (MFI MF3) m.
Hypothesis Hlen3 : length Fn3 = length Fn.
Hypothesis Hspill : ∀ i b, Fn !! i = Some b → ∃ b', Fn3 !! i = Some b' ∧ withSpills (CSInfo (MFI MF3)) i b b'.
Let MF0 := withMFI MF3 m.
Let S := StackSize m.
Let CSI := CSInfo (MFI MF3).
Hypothesis HS : 0 ≤ S ≤ 2 ^ 23 - 64.

(** A block with its part of the prologue and the epilogue. *)
Definition withFrame (pro mid : Block) (i : nat) (b b' : Block) : Prop :=
  ∃ core, b' = onEntry i (pro ++ map saveInstr CSI ++ mid) ++ core ∧
    ((isReturnBlock b = false ∧ core = b) ∨
     ∃ body ops fp adj, b = body ++ [mkMI Nyuzi.RET ops] ∧
       core = body ++ fp ++ map restoreInstr (rev CSI) ++ adj ++ [mkMI Nyuzi.RET ops] ∧
       Forall no_index fp ∧ Forall no_index adj ∧
       copies fp Nyuzi.SP_REG Nyuzi.FP_REG (hasFP MF0) ∧ moves_sp adj S).

Lemma slots_offsets : Forall (λ x, ∃ o, getObjectOffset (MFI MF0) x.2 = Ret o) (CSInfo (MFI MF0)).
Proof.
  unfold MF0. rewrite (laid_csinfo MF3 m HL). apply Forall_forall. intros x Hx.
  destruct (laid_slot P MF MF3 RS Mn Mx F C m HSF HL x Hx) as (_ & _ & o & Ho & Hd & _).
  exists (SPOffset o). apply getObjectOffset_at; assumption.
Qed.

Lemma insertPrologEpilogCode_eq :
  ∃ pro mid MF4 Fn4,
    insertPrologEpilogCode MF0 Fn3 [O] (calculateSaveRestoreBlocks Fn).2 = Ret (MF4, Fn4) ∧ same_frame MF0 MF4 ∧
    (S < 2 ^ 13 → NextVReg MF4 = NextVReg MF0) ∧
    length Fn4 = length Fn ∧ Forall no_index pro ∧ Forall no_index mid ∧ moves_sp pro (- S) ∧
    copies mid Nyuzi.FP_REG Nyuzi.SP_REG (hasFP MF0) ∧
    ∀ i b, Fn !! i = Some b → ∃ b', Fn4 !! i = Some b' ∧ withFrame pro mid i b b'.
Proof.
  pose proof (laid_size MF3 m HL HS) as HA. pose proof (laid_empty P MF MF3 RS Mn Mx F C m HSF HL) as HE0.
  pose proof slots_offsets as Hoffs. pose proof (laid_csinfo MF3 m HL) as Hcs. fold MF0 S in HA, HE0, Hcs.
  assert (HSr : 0 ≤ S < 2 ^ 23) by lia.
  destruct (po_entry _ _ _ _ _ HP) as (MI0 & b0 & Hb0). destruct (Hspill O _ Hb0) as (b3 & Hb3 & core & -> & Hcore).
  assert (Hne : ∃ MI rest, core = MI :: rest).
  { destruct Hcore as [[_ ->] | (body & ops & _ & ->)]; [eauto |]. destruct body; [| cbn; eauto].
    destruct (map restoreInstr _); cbn; eauto. }
  destruct Hne as (MI & rest & ->). fold CSI in Hb3, Hcore.
  change (onEntry O (map saveInstr CSI)) with (map saveInstr CSI) in Hb3.
  destruct (prologue_block MF0 S HA HSr HE0 Hoffs MF0 (map saveInstr CSI) rest MI (same_frame_refl MF0))
    as (MF4 & pro & mid & HEp & HF4 & Hp1 & Hp2 & Hp3 & Hp4); [rewrite length_map, Hcs; reflexivity |].
  set (Fn4 := <[O := pro ++ map saveInstr CSI ++ mid ++ MI :: rest]> Fn3).
  assert (Hst1 : updateBlocks (λ i MF b, emitPrologue MF (i =? 0)%nat b) [O] MF0 Fn3 = Ret (MF4, Fn4)).
  { cbn [updateBlocks]. rewrite (at_index_lookup _ _ _ Hb3), outcome_bind_ret. cbn [Nat.eqb]. rewrite HEp. reflexivity. }
  assert (HB4 : ∀ i b, Fn !! i = Some b → ∃ core, Fn4 !! i = Some (onEntry i (pro ++ map saveInstr CSI ++ mid) ++ core) ∧
      ((isReturnBlock b = false ∧ core = b) ∨
       ∃ body ops, b = body ++ [mkMI Nyuzi.RET ops] ∧ core = body ++ map restoreInstr (rev CSI) ++ [mkMI Nyuzi.RET ops])).
  { intros i b Hb. unfold Fn4. destruct (decide (i = O)) as [-> | Hne].
    - assert (b = MI0 :: b0) as -> by congruence. exists (MI :: rest). split; [| exact Hcore].
      rewrite list_lookup_insert_eq by (apply lookup_lt_Some in Hb3; exact Hb3). cbn [onEntry Nat.eqb].
      rewrite <- !app_assoc. reflexivity.
    - destruct (Hspill i b Hb) as (b' & Hb' & c' & -> & Hc'). exists c'. rewrite list_lookup_insert_ne by congruence.
      rewrite Hb'. unfold onEntry. rewrite (proj2 (Nat.eqb_neq i 0) Hne). split; [reflexivity | exact Hc']. }
  assert (Hk4 : S < 2 ^ 13 → NextVReg MF4 = NextVReg MF0).
  { intros Hlt. refine (emitPrologue_keeps _ _ _ _ _ S HA HSr _ HEp). apply isInt_range; lia. }
  destruct (updateBlocks_spec (λ _ MF b, emitEpilogue MF b) (λ M, same_frame MF0 M ∧ (S < 2 ^ 13 → NextVReg M = NextVReg MF0))
    (λ i b b', ∃ pre ops fp adj, b = pre ++ map restoreInstr (rev CSI) ++ [mkMI Nyuzi.RET ops] ∧
       b' = pre ++ fp ++ map restoreInstr (rev CSI) ++ adj ++ [mkMI Nyuzi.RET ops] ∧
       Forall no_index fp ∧ Forall no_index adj ∧
       copies fp Nyuzi.SP_REG Nyuzi.FP_REG (hasFP MF0) ∧ moves_sp adj S)
    (calculateSaveRestoreBlocks Fn).2 MF4 Fn4 (conj HF4 Hk4) (restoreBlocks_NoDup Fn)) as (MF5 & Fn5 & HE5 & [HF5 Hk5] & HL5 & HB5).
  { intros i Hi. apply restoreBlocks_spec in Hi as (b & Hb & Hr).
    destruct (HB4 i b Hb) as (c & Hc & [[Hr' _] | (body & ops & _ & ->)]); [congruence |].
    eexists. split; [exact Hc |]. intros M [HM HMk]. rewrite app_assoc.
    destruct (epilogue_block MF0 S HA HSr HE0 M (onEntry i (pro ++ map saveInstr CSI ++ mid) ++ body)
      (map restoreInstr (rev CSI)) ops HM) as (M' & fp & adj & HEe & HM' & H1 & H2 & H3 & H4);
      [rewrite length_map, length_rev, Hcs; reflexivity |].
    exists M'. eexists. split; [exact HEe |]. split.
    { split; [exact HM' |]. intros Hlt. rewrite <- (HMk Hlt).
      refine (emitEpilogue_keeps _ _ _ _ S _ HSr _ HEe); [rewrite (proj1 HM); exact HA | apply isInt_range; lia]. }
    do 4 eexists. split; [reflexivity |].
    split; [reflexivity |]. auto. }
  exists pro, mid, MF5, Fn5. unfold insertPrologEpilogCode. rewrite Hst1, outcome_bind_ret. split; [exact HE5 |].
  split; [exact HF5 |]. split; [exact Hk5 |]. split; [rewrite HL5; unfold Fn4; rewrite length_insert; exact Hlen3 |].
  do 4 (split; [assumption |]). intros i b Hb. destruct (HB4 i b Hb) as (c & Hc & Hcases).
  destruct (HB5 i _ Hc) as (b' & Hb' & Hin & Hout). exists b'. split; [exact Hb' |].
  destruct Hcases as [[Hr ->] | (body & ops & -> & ->)].
  - exists b. split; [| left; auto]. apply Hout. rewrite restoreBlocks_spec. intros (b2 & Hb2 & Hr2). congruence.
  - destruct (Hin (proj2 (restoreBlocks_spec Fn i) (ex_intro _ _ (conj Hb (isReturnBlock_ret _ _)))))
      as (pre & ops' & fp & adj & Heq & -> & H1 & H2 & H3 & H4).
    rewrite !app_assoc in Heq. apply app_inj_tail in Heq as [Heq [= <-]]. apply app_inv_tail in Heq as <-.
    exists (body ++ fp ++ map restoreInstr (rev CSI) ++ adj ++ [mkMI Nyuzi.RET ops]).
    split; [rewrite <- !app_assoc; reflexivity |]. right. exists body, ops, fp, adj. auto 10.
Qed.

Lemma withFrame_clean (pro mid : Block) (i : nat) (b b' : Block) :
  Forall no_index pro → Forall no_index mid → Fn !! i = Some b → withFrame pro mid i b b' →
  Forall (frame_clean S (MFI MF0)) b'.
Proof.
  intros H1 H2 Hb (core & -> & Hcore). change (MFI MF0) with m.
  destruct (laid_slots_clean P MF MF3 RS Mn Mx F C m HSF HL HS) as [Hsv Hre]. fold CSI S in Hsv, Hre.
  assert (Hbc : Forall (frame_clean S m) b).
  { eapply Forall_impl; [exact (po_code _ _ _ _ _ HP i b Hb) |]. intros MI HMI.
    apply (laid_clean P MF MF3 RS Mn Mx F C m HSF HL MI HS); [| exact HMI]. apply (sf_grown _ _ _ _ _ _ _ _ HSF). }
  apply Forall_app. split.
  { unfold onEntry. destruct (i =? 0)%nat; [| constructor]. rewrite !Forall_app. auto using no_index_clean. }
  destruct Hcore as [[_ ->] | (body & ops & fp & adj & -> & -> & H3 & H4 & _)]; [exact Hbc |].
  apply Forall_app in Hbc as [Hbd Hret]. rewrite !Forall_app. auto 10 using no_index_clean.
Qed.

(** In a small frame every access fits its instruction. *)
Lemma no_index_near (l : Block) : Forall no_index l → Forall (near MF0 S) l.
Proof. intros H. eapply Forall_impl; [exact H |]. intros MI [_ HM] opc r d k fi imm o -> _. discriminate HM. Qed.

Lemma withFrame_near (pro mid : Block) (i : nat) (b b' : Block) :
  Forall no_index pro → Forall no_index mid → Fn !! i = Some b → withFrame pro mid i b b' →
  S ≤ 2 ^ 12 - 64 → Forall (small_access (MFI MF)) b → Forall (near MF0 S) b'.
Proof.
  clear Hlen3 Hspill HS. intros H1 H2 Hb (core & -> & Hcore) Hsm Hacc.
  assert (Hslot : ∀ x, x ∈ CSI → near MF0 S (saveInstr x) ∧ near MF0 S (restoreInstr x)).
  { intros x Hx. destruct (laid_slot P MF MF3 RS Mn Mx F C m HSF HL x Hx) as (_ & _ & o & Ho & _ & Hs & Hlo & Hhi).
    assert (0 ≤ ObjSize o) by (rewrite Hs, spillSize_scalar; destruct (scalar x.1); lia). fold S in Hlo.
    split; intros opc r d k fi imm o' [= _ _ _ _ Efi Eimm] Ho'; change (MFI MF0) with m in Ho'; rewrite <- Efi, Ho in Ho';
      injection Ho' as <-; apply isInt_range; lia. }
  assert (Hsv : Forall (near MF0 S) (map saveInstr CSI) ∧ Forall (near MF0 S) (map restoreInstr (rev CSI))).
  { split; apply Forall_map; [| apply Forall_rev]; apply Forall_forall; intros x Hx; apply Hslot, Hx. }
  destruct Hsv as [Hsv Hre].
  assert (Hbn : Forall (near MF0 S) b).
  { pose proof (po_code _ _ _ _ _ HP i b Hb) as Hcode. rewrite Forall_forall in Hcode, Hacc. apply Forall_forall. intros MI HMI.
    specialize (Hcode MI HMI). specialize (Hacc MI HMI). intros opc r d k fi imm o' EMI Ho'. change (MFI MF0) with m in Ho'.
    destruct (sf_grown _ _ _ _ _ _ _ _ HSF) as [extra HG].
    destruct Hcode as [MI [_ Hn] | opc0 r0 d0 k0 fi0 imm0 o Hopc Hr Ho Hd Hi | fi0 ops o Hops Ho Hd];
      [rewrite EMI in Hn; discriminate Hn | | discriminate EMI].
    injection EMI as _ _ _ _ -> ->. specialize (Hacc _ _ _ _ _ _ _ eq_refl Ho).
    assert (Ho3 : objectAt (MFI MF3) fi = Ret o) by (rewrite (objectAt_grown_old _ _ _ fi HG); [exact Ho |]; apply (objectAt_range _ _ _ Ho)).
    destruct (laid_object MF3 m HL fi o Ho3 Hd) as (o1 & Ho1 & _ & _ & Hpos). rewrite Ho1 in Ho'. injection Ho' as <-. fold S in Hpos.
    assert (HS0 : 0 ≤ S) by apply (lo_size _ _ _ HL).
    destruct (fi <? 0) eqn:Hneg; [subst o1; apply isInt_range; lia |].
    assert (0 ≤ ObjSize o).
    { destruct (ok_local _ _ _ _ (sf_ok _ _ _ _ _ _ _ _ HSF) fi o) as [H0 _]; [lia | exact Ho3 | exact H0]. }
    apply isInt_range; lia. }
  apply Forall_app. split.
  { unfold onEntry. destruct (i =? 0)%nat; [| constructor]. rewrite !Forall_app. auto using no_index_near. }
  destruct Hcore as [[_ ->] | (body & ops & fp & adj & -> & -> & H3 & H4 & _)]; [exact Hbn |].
  apply Forall_app in Hbn as [Hbd Hret]. rewrite !Forall_app. auto 10 using no_index_near.
Qed.

(** Without objects there is nothing to replace. *)
Lemma replaced_same (b : Block) :
  Objects (MFI MF0) = [] → Forall (frame_clean S (MFI MF0)) b → replaced MF0 S b b.
Proof.
  intros H0 HB. exists (map (λ MI, [MI]) b). split; [| clear; induction b; cbn; congruence].
  induction HB as [| MI b HM _ IH]; constructor; [| exact IH].
  assert (Hnone : ∀ fi o, objectAt (MFI MF0) fi ≠ Ret o).
  { intros fi o Ho. apply objectAt_lookup in Ho as [_ Ho]. rewrite H0 in Ho. discriminate Ho. }
  destruct HM as [MI H1 H2 | ? ? ? ? ? ? ? ? ? Ho | ? ? ? ? Ho]; [apply re_none; assumption | |]; exfalso; exact (Hnone _ _ Ho).
Qed.

Lemma replaceFrameIndices_eq (MF4 : MachineFunction) (Fn4 : list Block) :
  same_frame MF0 MF4 → length Fn4 = length Fn →
  (∀ i b, Fn4 !! i = Some b → Forall (frame_clean S (MFI MF0)) b) →
  ∃ MF5 Fn5, replaceFrameIndices (DFSOrder P) (DFSPred P) MF4 Fn4 = Ret (MF5, Fn5) ∧
    ((∀ i b, Fn4 !! i = Some b → Forall (near MF0 S) b) → NextVReg MF5 = NextVReg MF4) ∧
    ∀ i b, Fn4 !! i = Some b → ∃ b', Fn5 !! i = Some b' ∧ replaced MF0 S b b'.
Proof.
  intros HF Hlen Hcl. unfold replaceFrameIndices. rewrite (proj1 HF).
  destruct (bool_decide_reflect (Objects (MFI MF0) = [])) as [H0 | H0].
  - exists MF4, Fn4. split; [reflexivity |]. split; [reflexivity |]. intros i b Hb. exists b. split; [exact Hb |].
    apply replaced_same; [exact H0 | apply (Hcl i b Hb)].
  - pose proof (po_order _ _ _ _ _ HP) as Hord. pose proof (laid_size MF3 m HL HS) as HA. fold MF0 S in HA.
    destruct (replaceBlocks_eq MF0 S HA ltac:(lia) (DFSOrder P) (DFSPred P) (λ _, 0) MF4 Fn4 HF) as (MF5 & Fn5 & HE & _ & Hk & HB).
    + rewrite Hord. apply NoDup_seq.
    + reflexivity.
    + intros i Hi. rewrite Hord, elem_of_seq in Hi.
      destruct (lookup_lt_is_Some_2 Fn4 i ltac:(lia)) as [b Hb]. exists b. split; [exact Hb | apply (Hcl i b Hb)].
    + exists MF5, Fn5. split; [exact HE |]. split; [intros Hnear; apply Hk; intros i b _; apply Hnear |]. intros i b Hb. destruct (HB i b Hb) as (b' & Hb' & Hr). exists b'.
      split; [exact Hb' |]. apply Hr. rewrite Hord, elem_of_seq. pose proof (lookup_lt_Some _ _ _ Hb). lia.
Qed.

Lemma no_index_replaced (l l' : Block) : Forall no_index l → replaced MF0 S l l' → l' = l.
Proof. intros H. apply replaced_none. eapply Forall_impl; [exact H |]. intros MI [_ HM]. exact HM. Qed.

(** The conditions of [enter_leave] hold. *)
Lemma final_preserves (pro saves mid fp restores adj : Block) :
  moves_sp pro (- S) → replaced MF0 S (map saveInstr CSI) saves →
  copies mid Nyuzi.FP_REG Nyuzi.SP_REG (hasFP MF0) →
  copies fp Nyuzi.SP_REG Nyuzi.FP_REG (hasFP MF0) → replaced MF0 S (map restoreInstr (rev CSI)) restores →
  moves_sp adj S → preserves MF0 (Attributes P) S (pro ++ saves ++ mid) (fp ++ restores ++ adj).
Proof.
  pose proof (laid_csinfo MF3 m HL) as Hcs. fold MF0 CSI in Hcs.
  destruct (sf_slots _ _ _ _ _ _ _ _ HSF) as (regs & N & HC & _ & Hin & Hnd & Hmod & Hfp & _). fold CSI in HC.
  assert (Hfst : map fst CSI = regs) by (rewrite HC; apply zip_seqZ_fst).
  rewrite <- Hcs. apply enter_leave; rewrite ?Hcs, ?Hfst; try assumption; try lia.
  - apply (laid_sp_slots P MF MF3 RS Mn Mx F C m HSF HL).
  - unfold MF0. rewrite (laid_hasFP P MF MF3 RS Mn Mx F C m HSF HL). exact Hfp.
  - apply (laid_placed P MF MF3 RS Mn Mx F C m HSF HL).
  - apply (laid_apart P MF MF3 RS Mn Mx F C m HSF HL).
Qed.

(** A block of the final code, in its parts. *)
Lemma final_block (pro mid b b4 b5 : Block) (i : nat) :
  Forall no_index pro → Forall no_index mid → withFrame pro mid i b b4 → replaced MF0 S b4 b5 →
  (i = O → ∃ saves B, b5 = pro ++ saves ++ mid ++ B ∧ replaced MF0 S (map saveInstr CSI) saves) ∧
  (isReturnBlock b = true → ∃ B fp restores adj ops, b5 = B ++ (fp ++ restores ++ adj) ++ [mkMI Nyuzi.RET ops] ∧
     (i = O → ∃ saves B1, B = pro ++ saves ++ mid ++ B1 ∧ replaced MF0 S (map saveInstr CSI) saves) ∧
     copies fp Nyuzi.SP_REG Nyuzi.FP_REG (hasFP MF0) ∧ replaced MF0 S (map restoreInstr (rev CSI)) restores ∧
     moves_sp adj S).
Proof.
  intros Hp Hm (core & -> & Hcore) Hr. apply replaced_app in Hr as (pre' & core' & -> & Hpre & Hc).
  assert (Hentry : i = O → ∃ saves, pre' = pro ++ saves ++ mid ∧ replaced MF0 S (map saveInstr CSI) saves).
  { intros ->. cbn [onEntry Nat.eqb] in Hpre. apply replaced_app in Hpre as (p' & q' & -> & H1 & H2).
    apply replaced_app in H2 as (saves & mid' & -> & H2 & H3).
    rewrite (no_index_replaced _ _ Hp H1), (no_index_replaced _ _ Hm H3). eauto. }
  split.
  - intros H0. destruct (Hentry H0) as (saves & -> & Hs). exists saves, core'. rewrite <- !app_assoc. auto.
  - intros Hret. destruct Hcore as [[Hn _] | (body & ops & fp & adj & -> & -> & Hf & Ha & Hcf & Hca)]; [congruence |].
    apply replaced_app in Hc as (body' & c1 & -> & _ & Hc). apply replaced_app in Hc as (fp' & c2 & -> & Hfp & Hc).
    apply replaced_app in Hc as (restores & c3 & -> & Hre & Hc). apply replaced_app in Hc as (adj' & c4 & -> & Hadj & Hc).
    rewrite (no_index_replaced _ _ Hf Hfp), (no_index_replaced _ _ Ha Hadj).
    destruct Hc as (ls & Hls & ->). apply Forall2_cons_inv_l in Hls as (cl & ls' & Hcl & Hnil & ->).
    apply Forall2_nil_inv_l in Hnil as ->. inversion Hcl; subst; [| discriminate].
    exists (pre' ++ body'), fp, restores, adj, ops. split; [rewrite <- !app_assoc; reflexivity |].
    split; [| auto]. intros Hi. destruct (Hentry Hi) as (saves & -> & Hs). exists saves, body'.
    rewrite <- !app_assoc. auto.
Qed.
End final.

(** Saving registers makes no virtual register. *)
Lemma updateBlocks_keeps (f : MachineFunction → Block → outcome Block) (idxs : list nat) (MF MF' : MachineFunction) (Fn Fn' : list Block) :
  updateBlocks (λ _ MF b, f MF b ≫= λ b, Ret (MF, b)) idxs MF Fn = Ret (MF', Fn') → MF' = MF.
Proof.
  revert Fn. induction idxs as [| i idxs IH]; intros Fn H; cbn [updateBlocks] in H; [injection H as <- _; reflexivity |].
  apply outcome_bind_Ret_inv in H as (b & _ & H). apply outcome_bind_Ret_inv in H as ([MF1 b1] & Hf & H).
  apply outcome_bind_Ret_inv in Hf as (b2 & _ & Hf). injection Hf as <- _. exact (IH _ H).
Qed.

Lemma spillCalleeSavedRegs_keeps (F : FunctionInfo) (MF MF' : MachineFunction) (Fn Fn' : list Block) (RS : list Z) (Mn Mx : Z) :
  spillCalleeSavedRegs F MF Fn = Ret (MF', Fn', RS, Mn, Mx) → NextVReg MF' = NextVReg MF.
Proof.
  unfold spillCalleeSavedRegs. cbn [calculateSaveRestoreBlocks]. intros H.
  apply outcome_bind_Ret_inv in H as ([[Saved RS1] MF1] & HD & H). apply outcome_bind_Ret_inv in H as ([[m1 Mn1] Mx1] & _ & H).
  assert (E1 : NextVReg MF1 = NextVReg MF).
  { unfold determineCalleeSaves in HD. apply outcome_bind_Ret_inv in HD as (w & _ & HD). destruct (isInt _ _); [injection HD as _ _ <-; reflexivity |].
    apply outcome_bind_Ret_inv in HD as ([FI m] & _ & HD). injection HD as _ _ <-. reflexivity. }
  rewrite <- E1. destruct (_ || _); [injection H as <- _ _ _ _; reflexivity |].
  apply outcome_bind_Ret_inv in H as ([MF2 Fn2] & H2 & H). apply outcome_bind_Ret_inv in H as ([MF3 Fn3] & H3 & H).
  apply updateBlocks_keeps in H2, H3. injection H as <- _ _ _ _. rewrite H3, H2. reflexivity.
Qed.

(** C18. The calling convention holds for the code the pass leaves, up to the search for
    registers that are free: the spill slots and the layout exist, and unless the frame
    is larger than eight megabytes the pass succeeds; the entry block then begins with
    code that enters the frame and every return block ends with code that leaves it.
    Whatever the body did in between, as long as it kept the frame register, the
    callee-saved slots and the registers it is not known to change, the function returns
    with the stack pointer and every callee-saved register as they were on entry, and
    without a store outside the frame.  A function without virtual registers, with a
    frame of less than four kilobytes and accesses of no more, needs no such search:
    this code is then what the whole pass returns.  (In a larger frame the addresses
    that do not fit an instruction are left in virtual registers, which are separate
    registers here.) *)
Theorem callee_saved_preserved (P : PassInput) (MF1 MF : MachineFunction) (Fn1 Fn : list Block) (F C : Z) :
  calculateCallFrameInfo MF1 Fn1 = Ret (MF, Fn) → pass_ok P MF Fn F C →
  ∃ MF3 Fn3 RS Mn Mx m,
    spillCalleeSavedRegs (Attributes P) MF Fn = Ret (MF3, Fn3, RS, Mn, Mx) ∧
    calculateFrameObjectOffsets (layoutPEI P Mn Mx RS) MF3 = Ret m ∧
    (StackSize m ≤ 2 ^ 23 - 64 →
     ∃ MF' Fn' scavenge Pro B0, runOnMachineFunction P MF1 Fn1 = Ret (MF', Fn', scavenge) ∧ Fn' !! O = Some (Pro ++ B0) ∧
       (∀ i b, Fn !! i = Some b → isReturnBlock b = true →
        ∃ B Epi ops, Fn' !! i = Some (B ++ Epi ++ [mkMI Nyuzi.RET ops]) ∧
          preserves (withMFI MF3 m) (Attributes P) (StackSize m) Pro Epi) ∧
       (NextVReg MF = O → StackSize m ≤ 2 ^ 12 - 64 → (∀ i b, Fn !! i = Some b → Forall (small_access (MFI MF)) b) →
        scavenge = false)).
Proof.
  intros HCF HP. destruct (spillCalleeSavedRegs_eq P MF Fn F C HP) as (MF3 & Fn3 & RS & Mn & Mx & HE3 & HSF & HL3 & HB3).
  destruct (layout_exists _ MF3 F C (sf_ok _ _ _ _ _ _ _ _ HSF)) as (m & Hm & HL).
  exists MF3, Fn3, RS, Mn, Mx, m. split; [exact HE3 |]. split; [exact Hm |]. intros Hsz.
  assert (HS : 0 ≤ StackSize m ≤ 2 ^ 23 - 64) by (split; [apply (lo_size _ _ _ HL) | exact Hsz]).
  destruct (insertPrologEpilogCode_eq P MF MF3 Fn Fn3 RS Mn Mx F C m HP HSF HL HL3 HB3 HS)
    as (pro & mid & MF4 & Fn4 & HE4 & HF4 & Hk4 & HL4 & Hp1 & Hp2 & Hp3 & Hp4 & HB4).
  assert (HW4 : ∀ i b4, Fn4 !! i = Some b4 → ∃ b, Fn !! i = Some b ∧ withFrame MF3 m pro mid i b b4).
  { intros i b4 Hb4. destruct (lookup_lt_is_Some_2 Fn i) as [b Hb]; [apply lookup_lt_Some in Hb4; lia |].
    destruct (HB4 i b Hb) as (b' & Hb' & HW). assert (b' = b4) as -> by congruence. eauto. }
  destruct (replaceFrameIndices_eq P MF MF3 Fn Fn3 F C m HP HL HL3 HS MF4 Fn4 HF4 HL4) as (MF5 & Fn5 & HE5 & Hk5 & HB5).
  { intros i b4 Hb4. destruct (HW4 i b4 Hb4) as (b & Hb & HW).
    exact (withFrame_clean P MF MF3 Fn RS Mn Mx F C m HP HSF HL HS pro mid i b b4 Hp1 Hp2 Hb HW). }
  assert (HBlk : ∀ i b, Fn !! i = Some b → ∃ b4 b5, Fn5 !! i = Some b5 ∧ withFrame MF3 m pro mid i b b4 ∧
            replaced (withMFI MF3 m) (StackSize m) b4 b5).
  { intros i b Hb. destruct (HB4 i b Hb) as (b4 & Hb4 & HW). destruct (HB5 i b4 Hb4) as (b5 & Hb5 & Hr). eauto. }
  destruct (po_entry _ _ _ _ _ HP) as (MI & b0 & Hb0). destruct (HBlk O _ Hb0) as (b4 & b5 & Hb5 & HW & Hr).
  destruct (final_block MF3 m pro mid _ b4 b5 O Hp1 Hp2 HW Hr) as [Hen _].
  destruct (Hen eq_refl) as (saves & B & -> & Hsv).
  exists MF5, Fn5, (needsScavenging MF5), (pro ++ saves ++ mid), B. destruct (po_attrs _ _ _ _ _ HP) as (Hnk & _). split.
  { unfold runOnMachineFunction, insertFrameCode. rewrite HCF, outcome_bind_ret. cbn [calculateSaveRestoreBlocks].
    rewrite HE3, outcome_bind_ret. change (mkPEI _ _ _ _ _ _ _) with (layoutPEI P Mn Mx RS). rewrite Hm, outcome_bind_ret, Hnk.
    cbn [calculateSaveRestoreBlocks snd] in HE4. rewrite HE4, outcome_bind_ret, HE5. reflexivity. }
  split; [rewrite <- !app_assoc; exact Hb5 |]. split.
  - intros i b Hb Hret. destruct (HBlk i b Hb) as (c4 & c5 & Hc5 & HWi & Hri).
    destruct (final_block MF3 m pro mid b c4 c5 i Hp1 Hp2 HWi Hri) as [_ Hex].
    destruct (Hex Hret) as (Bi & fp & restores & adj & ops & -> & _ & H1 & H2 & H3).
    exists Bi, (fp ++ restores ++ adj), ops. split; [exact Hc5 |].
    apply (final_preserves P MF MF3 Fn Fn3 RS Mn Mx F C m HSF HL HL3 HS); assumption.
  - intros HV0 Hsm Hacc. unfold needsScavenging. rewrite Hk5.
    + rewrite (Hk4 ltac:(lia)). cbn [withMFI NextVReg]. rewrite (spillCalleeSavedRegs_keeps _ _ _ _ _ _ _ _ HE3), HV0. reflexivity.
    + intros i c4 Hc4. destruct (HW4 i c4 Hc4) as (b & Hb & HWb).
      exact (withFrame_near P MF MF3 Fn RS Mn Mx F C m HP HSF HL pro mid i b c4 Hp1 Hp2 Hb HWb Hsm (Hacc i b Hb)).
Qed.

(** *** A function of two blocks *)

Definition demo_input : PassInput :=
  mkPassInput (mkFunctionInfo false false false false (λ r, bool_decide (r = Nyuzi.S 24 ∨ r = Nyuzi.V 26)))
    (-1) (λ _, SSPLK_None) false true [0%nat; 1%nat] (λ i, if (i =? 1)%nat then Some 0%nat else None).

Definition demo_function : MachineFunction :=
  mkMF (mkMFI [mkStackObject 4 0 4 false; mkStackObject 12 0 4 false] 1 0 false false false [] 4 None) true 0 [].

Definition demo_blocks : list Block :=
  [[mkMI Nyuzi.ADJCALLSTACKDOWN [MO_Immediate 8; MO_Immediate 0];
    mkMI Nyuzi.ADJCALLSTACKUP [MO_Immediate 8; MO_Immediate 0];
    mkMI Nyuzi.SW [MO_Register (Nyuzi.S 24) false true; MO_FrameIndex 0; MO_Immediate 4]];
   [mkMI Nyuzi.LW [MO_Register (Nyuzi.S 0) true false; MO_FrameIndex (-1); MO_Immediate 0];
    mkMI Nyuzi.RET [MO_ImplicitRegister (Nyuzi.S 0) false]]].

(** What [calculateCallFrameInfo] leaves. *)
Definition demo_function' : MachineFunction := setCallFrameInfo demo_function true 8.
Definition demo_blocks' : list Block := [drop 2 (nth 0 demo_blocks []); nth 1 demo_blocks []].

Lemma demo_pass_ok : pass_ok demo_input demo_function' demo_blocks' 0 128.
Proof.
  constructor.
  - constructor.
    + vm_compute. split; discriminate.
    + intros i o _. apply (objectAt_Forall (λ o, 0 ≤ ObjSize o ∧ power_of_two (ObjAlign o) ∧ ObjSize o + ObjAlign o ≤ 128)).
      assert (power_of_two 4) by (exists 2; split; [lia | reflexivity]). repeat constructor; cbn; try lia; assumption.
    + intros j o Hj Ho. cbn in Hj. assert (j = -1) as -> by lia. vm_compute in Ho. injection Ho as <-.
      split; [reflexivity | cbn; lia].
    + vm_compute. constructor.
    + intros i Hi. vm_compute in Hi. set_solver.
    + right. exists 2. split; [lia | reflexivity].
    + vm_compute; repeat split; discriminate.
    + vm_compute; repeat split; discriminate.
  - vm_compute; repeat split; discriminate.
  - vm_compute; repeat split; discriminate.
  - eexists. vm_compute. reflexivity.
  - reflexivity.
  - repeat split.
  - do 2 eexists. reflexivity.
  - intros [| [| i]] b Hb Hr; [injection Hb as <-; discriminate Hr | | discriminate Hb].
    injection Hb as <-. exists [mkMI Nyuzi.LW [MO_Register (Nyuzi.S 0) true false; MO_FrameIndex (-1); MO_Immediate 0]].
    eexists. split; [reflexivity |]. repeat constructor.
  - intros [| [| i]] b Hb; [| | discriminate Hb]; injection Hb as <-.
    + constructor; [| constructor].
      apply (rc_access _ Nyuzi.SW (Nyuzi.S 24) false true 0 4 (mkStackObject 12 0 4 false)); try reflexivity; [| cbn; lia].
      intros n. discriminate.
    + constructor; [| constructor; [apply rc_none; split; reflexivity | constructor]].
      apply (rc_access _ Nyuzi.LW (Nyuzi.S 0) true false (-1) 0 (mkStackObject 4 0 4 false)); try reflexivity; [| cbn; lia].
      intros n. discriminate.
  - reflexivity.
Qed.

Lemma callee_saved_preserved_witness :
  ∃ MF' Fn' Pro B0 B Epi ops S m, runOnMachineFunction demo_input demo_function demo_blocks = Ret (MF', Fn', false) ∧
    Fn' !! O = Some (Pro ++ B0) ∧ Fn' !! 1%nat = Some (B ++ Epi ++ [mkMI Nyuzi.RET ops]) ∧
    preserves m (Attributes demo_input) S Pro Epi.
Proof.
  destruct (callee_saved_preserved demo_input demo_function demo_function' demo_blocks demo_blocks' 0 128 eq_refl demo_pass_ok)
    as (MF3 & Fn3 & RS & Mn & Mx & m & HE & Hm & Hrun).
  vm_compute in HE. injection HE as <- <- <- <- <-. vm_compute in Hm. injection Hm as <-.
  destruct (Hrun ltac:(vm_compute; discriminate)) as (MF' & Fn' & scavenge & Pro & B0 & HR & H0 & Hret & Hscav).
  destruct (Hret 1%nat _ eq_refl eq_refl) as (B & Epi & ops & HB & Hpr).
  rewrite Hscav in HR; [| reflexivity | vm_compute; discriminate |].
  - do 9 eexists. split; [exact HR |]. split; [exact H0 |]. split; [exact HB | exact Hpr].
  - intros [| [| i]] b Hb; [| | discriminate Hb]; injection Hb as <-; repeat apply Forall_cons_2; try apply Forall_nil_2;
      intros opc r d k fi imm o E Ho; first [discriminate E | injection E as <- <- <- <- <- <-; vm_compute in Ho; injection Ho as <-; cbn; lia].
Defined.
