(* ===== verification/WordPatches.v ===== *)
(** * WordPatches: words of a buffer patched one after another

    The assembler and the linker both go over a list of places in a section and
    replace the word at each.  Places at least four bytes apart do not influence
    each other, whatever the order. *)
From S2P Require Import Prelude MathExtras NyuziTarget NyuziFixups NyuziLinker.

(** ** Places *)

(** The words at two offsets do not overlap. *)
Definition gap (o o' : nat) : Prop := (o + 4 ≤ o' ∨ o' + 4 ≤ o)%nat.

(** The offsets [l] are in order, from [lo] on, and the last word ends at [hi] or before. *)
Fixpoint spaced (lo hi : Z) (l : list Z) : Prop :=
  match l with
  | [] => lo ≤ hi
  | o :: l => lo ≤ o ∧ spaced (o + 4) hi l
  end.

Lemma spaced_le (lo hi : Z) (l : list Z) : spaced lo hi l → lo ≤ hi.
Proof. revert lo. induction l as [| o l IH]; cbn; intros lo H; [exact H |]. destruct H as [H1 H2]. apply IH in H2. lia. Qed.

Lemma spaced_weaken (lo lo' hi hi' : Z) (l : list Z) : lo' ≤ lo → hi ≤ hi' → spaced lo hi l → spaced lo' hi' l.
Proof.
  revert lo lo'. induction l as [| o l IH]; cbn; intros lo lo' Hl Hh H; [lia |]. destruct H as [H1 H2].
  split; [lia |]. eapply IH; [| exact Hh | exact H2]. lia.
Qed.

Lemma spaced_app (lo mid hi : Z) (l l' : list Z) : spaced lo mid l → spaced mid hi l' → spaced lo hi (l ++ l').
Proof.
  revert lo. induction l as [| o l IH]; cbn; intros lo H H'.
  - eapply spaced_weaken; [exact H | reflexivity | exact H'].
  - destruct H as [H1 H2]. split; [exact H1 | exact (IH _ H2 H')].
Qed.

Lemma spaced_elem (lo hi : Z) (l : list Z) (o : Z) : spaced lo hi l → o ∈ l → lo ≤ o ∧ o + 4 ≤ hi.
Proof.
  revert lo. induction l as [| o' l IH]; cbn; intros lo H Ho; [apply elem_of_nil in Ho as [] |]. destruct H as [H1 H2].
  apply elem_of_cons in Ho as [-> | Ho]; [apply spaced_le in H2; lia |]. destruct (IH _ H2 Ho). lia.
Qed.

Lemma spaced_shift (d lo hi : Z) (l : list Z) : spaced lo hi l → spaced (lo + d) (hi + d) (map (λ o, o + d) l).
Proof.
  revert lo. induction l as [| o l IH]; cbn; intros lo H; [lia |]. destruct H as [H1 H2]. split; [lia |].
  replace (o + d + 4) with (o + 4 + d) by lia. exact (IH _ H2).
Qed.

(** ** Patches *)

(** A place and what becomes of its word. *)
Definition patch : Type := nat * (Z → Z).

Fixpoint patch_all (l : list patch) (Buf : list Z) : list Z :=
  match l with
  | [] => Buf
  | (o, g) :: l => patch_all l (write_at o (le_bytes 4 (g (word_at Buf o))) Buf)
  end.

Lemma word_at_write_at_ne (Data : list Z) (o o' : nat) (v : Z) :
  (o' + 4 ≤ length Data)%nat → gap o o' → word_at (write_at o' (le_bytes 4 v) Data) o = word_at Data o.
Proof.
  intros H Hg. unfold word_at. f_equal. apply list_eq. intros i. destruct (decide (i < 4)%nat) as [Hi | Hi].
  - rewrite !lookup_take_lt, !lookup_drop by exact Hi. unfold gap in Hg. apply write_at_outside; cbn [length le_bytes]; lia.
  - rewrite !lookup_take_ge by lia. reflexivity.
Qed.

Lemma length_patch_all (l : list patch) (Buf : list Z) :
  Forall (λ p, (p.1 + 4 ≤ length Buf)%nat) l → length (patch_all l Buf) = length Buf.
Proof.
  revert Buf. induction l as [| [o g] l IH]; cbn [patch_all]; intros Buf H; [reflexivity |]. apply Forall_cons in H as [Ho H]. cbn [fst] in Ho.
  assert (Hl : length (write_at o (le_bytes 4 (g (word_at Buf o))) Buf) = length Buf)
    by (apply length_write_at; rewrite length_le_bytes; exact Ho).
  rewrite IH by (rewrite Hl; exact H). exact Hl.
Qed.

Lemma patch_all_outside (l : list patch) (Buf : list Z) (o : nat) :
  Forall (λ p, (p.1 + 4 ≤ length Buf)%nat) l → Forall (λ p, gap o p.1) l → word_at (patch_all l Buf) o = word_at Buf o.
Proof.
  revert Buf. induction l as [| [o' g] l IH]; cbn [patch_all]; intros Buf H Hg; [reflexivity |].
  apply Forall_cons in H as [Ho H]. apply Forall_cons in Hg as [Hgo Hg]. cbn [fst] in Ho, Hgo.
  rewrite IH; [apply word_at_write_at_ne; assumption | | exact Hg].
  rewrite length_write_at by (rewrite length_le_bytes; exact Ho). exact H.
Qed.

Lemma patch_all_at (l1 l2 : list patch) (o : nat) (g : Z → Z) (Buf : list Z) :
  Forall (λ p, (p.1 + 4 ≤ length Buf)%nat) (l1 ++ (o, g) :: l2) → Forall (λ p, gap o p.1) l1 → Forall (λ p, gap o p.1) l2 →
  word_at (patch_all (l1 ++ (o, g) :: l2) Buf) o = u32 (g (word_at Buf o)).
Proof.
  revert Buf. induction l1 as [| [o' g'] l1 IH]; cbn [app patch_all]; intros Buf H H1 H2.
  - apply Forall_cons in H as [Ho H]. cbn in Ho. rewrite patch_all_outside; [| | exact H2].
    + apply word_at_write_at. exact Ho.
    + rewrite length_write_at by (rewrite length_le_bytes; exact Ho). exact H.
  - apply Forall_cons in H as [Ho H]. apply Forall_cons in H1 as [Hg H1]. cbn in Ho, Hg.
    rewrite IH; [rewrite word_at_write_at_ne by assumption; reflexivity | | exact H1 | exact H2].
    rewrite length_write_at by (rewrite length_le_bytes; exact Ho). exact H.
Qed.

(** The words at the places of a spaced list are apart. *)
Lemma spaced_gap (lo hi : Z) (l1 l2 : list Z) (o : Z) :
  0 ≤ lo → spaced lo hi (l1 ++ o :: l2) →
  Forall (λ p, gap (Z.to_nat o) (Z.to_nat p)) l1 ∧ Forall (λ p, gap (Z.to_nat o) (Z.to_nat p)) l2.
Proof.
  intros Hlo. revert lo Hlo. induction l1 as [| o' l1 IH]; cbn [app spaced]; intros lo Hlo [H1 H2].
  - split; [constructor |]. apply Forall_forall. intros p Hp. apply (spaced_elem _ _ _ _ H2) in Hp. unfold gap. lia.
  - destruct (IH (o' + 4) ltac:(lia) H2) as [H3 H4]. split; [| exact H4]. constructor; [| exact H3].
    assert (Ho : o ∈ l1 ++ o :: l2) by (apply elem_of_app; right; left). apply (spaced_elem _ _ _ _ H2) in Ho. unfold gap. lia.
Qed.

(** The places of a list of patches, as offsets. *)
Definition places (l : list patch) : list Z := map (λ p, Z.of_nat p.1) l.

Lemma spaced_in_range (l : list patch) (n : nat) :
  spaced 0 (Z.of_nat n) (places l) → Forall (λ p, (p.1 + 4 ≤ n)%nat) l.
Proof.
  intros H. apply Forall_forall. intros p Hp.
  assert (Ho : Z.of_nat p.1 ∈ places l) by (apply list_elem_of_fmap; eauto).
  apply (spaced_elem _ _ _ _ H) in Ho. lia.
Qed.

(** A spaced list of patches sets each of its words. *)
Lemma patch_all_spaced (l : list patch) (Buf : list Z) (k o : nat) (g : Z → Z) :
  spaced 0 (Z.of_nat (length Buf)) (places l) → l !! k = Some (o, g) →
  word_at (patch_all l Buf) o = u32 (g (word_at Buf o)).
Proof.
  intros H Hk. pose proof (spaced_in_range _ _ H) as HR. apply take_drop_middle in Hk. rewrite <- Hk in H, HR |- *.
  unfold places in H. rewrite map_app in H. cbn [map fst] in H. apply spaced_gap in H as [H1 H2]; [| lia].
  apply patch_all_at; [exact HR | |].
  - rewrite Forall_map in H1. eapply Forall_impl; [exact H1 |]. cbn. intros p. rewrite !Nat2Z.id. auto.
  - rewrite Forall_map in H2. eapply Forall_impl; [exact H2 |]. cbn. intros p. rewrite !Nat2Z.id. auto.
Qed.

(** A patch that does nothing to the word. *)
Lemma word_at_u32 (Data : list Z) (o : nat) : u32 (word_at Data o) = word_at Data o.
Proof.
  unfold word_at. generalize (drop o Data) as l. intros l.
  destruct l as [| a [| b [| c [| d l]]]]; cbn [take le_combine]; [reflexivity | bitwise ..].
Qed.

(** Words in a concatenation. *)
Lemma word_at_app_mid (pre mid post : list Z) (o : nat) :
  (o + 4 ≤ length mid)%nat → word_at (pre ++ mid ++ post) (length pre + o) = word_at mid o.
Proof.
  intros H. unfold word_at. f_equal. rewrite <- drop_drop, drop_app_length.
  rewrite drop_app_le by lia. rewrite take_app_le by (rewrite length_drop; lia). reflexivity.
Qed.

(** ** The patches of the assembler and of the linker *)

Lemma getFixupKindInfo_bounds (Kind : Z) (Info : MCFixupKindInfo) :
  getFixupKindInfo Kind = Ret Info →
  0 < TargetSize Info ∧ 0 ≤ TargetOffset Info ∧ TargetOffset Info + TargetSize Info ≤ 64.
Proof.
  set (P := λ i, 0 < TargetSize i ∧ 0 ≤ TargetOffset i ∧ TargetOffset i + TargetSize i ≤ 64). change (getFixupKindInfo Kind = Ret Info → P Info).
  assert (HB : Forall P Builtins) by (repeat (constructor; [unfold P; cbn; lia |]); constructor).
  assert (HI : Forall P Infos) by (repeat (constructor; [unfold P; cbn; lia |]); constructor).
  unfold getFixupKindInfo, MCAsmBackend_getFixupKindInfo. intros H. destruct (_ <? _); inv_ret;
    destruct (_ !! _) as [i |] eqn:E; inv_ret; [exact (Forall_lookup_1 _ _ _ _ HB E) | exact (Forall_lookup_1 _ _ _ _ HI E)].
Qed.

(** What a fixup of a kind and value does to its word. *)
Definition fixup_word (Kind Value w : Z) : Z :=
  match getFixupKindInfo Kind, adjustFixupValue Kind Value with
  | Ret Info, Ret (v, _) => Z.lor w (Z.land (Z.shiftl v (TargetOffset Info)) (field_mask Info))
  | _, _ => w
  end.

Lemma applyFixup_patch (Kind Offset Value : Z) (Data Data' : list Z) (Errs : list string) :
  0 ≤ Offset → Offset + 4 ≤ Z.of_nat (length Data) → applyFixup Kind Offset Data Value = Ret (Data', Errs) →
  Data' = patch_all [(Z.to_nat Offset, fixup_word Kind Value)] Data ∧ ∃ v, adjustFixupValue Kind Value = Ret (v, Errs).
Proof.
  intros H0 H4 H. assert (HA : ∃ Info v E, getFixupKindInfo Kind = Ret Info ∧ adjustFixupValue Kind Value = Ret (v, E)).
  { unfold applyFixup in H. apply outcome_bind_Ret_inv in H as (Info & HI & H).
    apply outcome_bind_Ret_inv in H as ([v E] & HA & _). eauto. }
  destruct HA as (Info & v & E & HI & HA). destruct (getFixupKindInfo_bounds _ _ HI) as (? & ? & ?).
  rewrite <- (Z2Nat.id Offset) in H by exact H0.
  rewrite (applyFixup_word Kind (Z.to_nat Offset) Data Value v Info E) in H by (assumption || lia).
  injection H as <- <-. split; [| exists v; exact HA]. cbn [patch_all]. unfold fixup_word. rewrite HI, HA. reflexivity.
Qed.

(** A fixup whose kind has a relocation does what the linker would do. *)
Lemma fixup_word_reloc (Type_ Value v w : Z) :
  known_reloc Type_ = true → adjustFixupValue (kind_of_reloc Type_) Value = Ret (v, []) → 0 ≤ w < 2 ^ 32 →
  Forall (λ '(b, s), getfield b s w = 0) (reloc_fields Type_) →
  fixup_word (kind_of_reloc Type_) Value w = u32 (reloc_word Type_ Value w).
Proof.
  intros Hk HA Hw Hz. destruct (getRelocType_total Type_ Hk) as (Info & HI & _).
  unfold fixup_word. rewrite HI, HA. destruct (adjust_reloc Type_ Value Hk) as (v' & E & HA' & Hv & _).
  rewrite HA in HA'. injection HA' as <- <-. rewrite (Hv eq_refl). exact (asm_or_is_reloc_word _ _ _ _ Hk HI Hw Hz).
Qed.

Lemma adjust_zero (Kind v : Z) (E : list string) : adjustFixupValue Kind 0 = Ret (v, E) → v = 0 ∧ E = [].
Proof.
  unfold adjustFixupValue. intros H. apply outcome_bind_Ret_inv in H as (Info & HI & H).
  destruct (getFixupKindInfo_bounds _ _ HI) as (? & ? & ?).
  destruct (_ || _).
  - change (u64 (Z.quot (i64 0) 4)) with 0 in H. rewrite isSignedIntN64_spec in H by lia. rewrite outcome_bind_ret in H.
    pose proof (pow2_pos (TargetSize Info - 1) ltac:(lia)).
    rewrite bool_decide_true in H by (change (i64 0) with 0; lia). cbn in H. inv_ret. auto.
  - destruct (_ =? _); cbn in H; inv_ret; auto.
Qed.

(** A fixup left to the linker has value zero and changes nothing. *)
Lemma fixup_word_zero (Kind w : Z) : fixup_word Kind 0 w = w.
Proof.
  unfold fixup_word. destruct (getFixupKindInfo Kind) as [Info | | | |]; try reflexivity.
  destruct (adjustFixupValue Kind 0) as [[v E] | | | |] eqn:HA; try reflexivity.
  apply adjust_zero in HA as [-> _]. rewrite Z.shiftl_0_l. apply Z.lor_0_r.
Qed.

(** Values equal modulo [2^32] give the same relocated word; a branch needs its
    distance in range. *)
Lemma reloc_word_32 (Type_ Val Val' w : Z) :
  known_reloc Type_ = true → u32 Val = u32 Val' →
  (Type_ = R_NYUZI_BRANCH20 ∨ Type_ = R_NYUZI_BRANCH25 → i64 Val = i64 Val') →
  reloc_word Type_ Val w = reloc_word Type_ Val' w.
Proof.
  intros Hk HV HB.
  assert (HS : ∀ b n k W, 0 ≤ b → 0 ≤ n → 0 ≤ k → n + k ≤ 32 →
            setfield b n (Z.shiftr Val k) W = setfield b n (Z.shiftr Val' k) W).
  { intros b n k W ? ? ? ?.
    assert (HG : ∀ x, setfield b n (Z.shiftr x k) W = setfield b n (Z.shiftr (u32 x) k) W) by (intros; unfold setfield; bitwise).
    rewrite (HG Val), (HG Val'), HV. reflexivity. }
  reloc_cases Hk; unfold reloc_word; reloc_simpl; try (rewrite HB by auto; reflexivity).
  2: rewrite !HS by lia; reflexivity.
  all: rewrite <- (Z.shiftr_0_r Val), <- (Z.shiftr_0_r Val'); apply HS; lia.
Qed.
