(* ===== verification/MCAssembler.v ===== *)
(** * MCAssembler: layout, fixups and relocations of an object file

    lib/MC/MCAssembler.cpp, MCFragment.cpp and ELFObjectWriter.cpp on the
    fragments this target makes: data, alignment and fill.  No instruction is
    relaxed and nothing is bundled, so the layout needs one pass.  The object is
    its sections with their bytes and relocations and its symbols; the writing
    of headers and string tables is left out. *)
From S2P Require Import Prelude MathExtras NyuziTarget NyuziFixups NyuziLinker WordPatches MCExpressions.

(** ** Fragments and sections *)
Inductive MCFragment : Type :=
  | MCDataFragment (Contents : list Z) (Fixups : list MCFixup)
  | MCAlignFragment (Alignment Value ValueSize MaxBytesToEmit : Z) (EmitNops : bool)
  | MCFillFragment (Value : Z) (Size : nat).

(** Flags of include/llvm/BinaryFormat/ELF.h *)
Definition SHF_WRITE : Z := 1.
Definition SHF_ALLOC : Z := 2.
Definition SHF_EXECINSTR : Z := 4.
Definition SHF_MERGE : Z := 16.
Definition SHF_TLS : Z := 1024.

Record MCSection : Type := mkSection {
  SectionName : string;
  SectionFlags : Z;
  SectionAlignment : Z;
  FragmentList : list MCFragment
}.

Definition has_flag (Flags Flag : Z) : bool := negb (Z.land Flags Flag =? 0).

(** [OffsetToAlignment(Value, Align)] of MathExtras.h *)
Definition OffsetToAlignment (Value Align : Z) : outcome Z := alignTo Value Align 0 ≫= λ a, Ret (u64 (a - Value)).

(** [MCAssembler::computeFragmentSize]; the offset of an alignment fragment is an
    [unsigned], and the minimum size of a nop is one byte, so the loop of the
    nops does nothing. *)
Definition computeFragmentSize (Offset : Z) (F : MCFragment) : outcome Z :=
  match F with
  | MCDataFragment Contents _ => Ret (Z.of_nat (length Contents))
  | MCFillFragment _ Size => Ret (Z.of_nat Size)
  | MCAlignFragment Alignment _ _ MaxBytesToEmit _ =>
      OffsetToAlignment (u32 Offset) Alignment ≫= λ Size,
      let Size := u32 Size in
      Ret (if MaxBytesToEmit <? Size then 0 else Size)
  end.

(** The offsets [MCAsmLayout::layoutFragment] gives the fragments of a section. *)
Fixpoint layoutFragments (Offset : Z) (Frags : list MCFragment) : outcome (list Z) :=
  match Frags with
  | [] => Ret []
  | F :: Frags =>
      computeFragmentSize Offset F ≫= λ Size,
      layoutFragments (u64 (Offset + Size)) Frags ≫= λ Offsets,
      Ret (Offset :: Offsets)
  end.

Fixpoint layoutSections (Sections : list MCSection) : outcome (list (list Z)) :=
  match Sections with
  | [] => Ret []
  | Sec :: Sections =>
      layoutFragments 0 (FragmentList Sec) ≫= λ Offsets,
      layoutSections Sections ≫= λ Rest,
      Ret (Offsets :: Rest)
  end.

(** [MCAsmLayout::getFragmentOffset]: the dummy fragment is in no section. *)
Definition layoutOf (Offsets : list (list Z)) : MCAsmLayout := λ F,
  match F.2 with
  | None => AssertFail "Layout bookkeeping error"
  | Some i =>
      match Offsets !! F.1 ≫= λ l, l !! i with
      | Some o => Ret o
      | None => AssertFail "Layout bookkeeping error"
      end
  end.

(** ** Relocations *)

(** What a relocation refers to: nothing, the symbol of a section, a symbol. *)
Inductive RelSymbol : Type := RelNull | RelSection (Sec : nat) | RelNamed (Name : string).

Record ELFRelocationEntry : Type := mkRela {
  r_offset : Z;
  r_symbol : RelSymbol;
  r_type : Z;
  r_addend : Z
}.

(** [MCSymbolELF::getBinding] *)
Definition getBinding (S : MCSymbol) : Binding :=
  match BindingSet S with
  | Some b => b
  | None => if isUndefined S then STB_GLOBAL else STB_LOCAL
  end.

Definition isWeak (S : MCSymbol) : bool := bool_decide (getBinding S = STB_WEAK).

Section Fixups.
Variable Syms : SymbolTable.
Variable Layout : MCAsmLayout.
Variable Sections : list MCSection.

(** [Sym.isDefined() ? Layout.getSymbolOffset(Sym) : 0] of an optional symbol. *)
Definition offsetIfDefined (o : option string) : outcome Z :=
  match o with
  | Some a => if isUndefined (sym Syms a) then Ret 0 else getSymbolOffset Layout (sym Syms a)
  | None => Ret 0
  end.

(** [ELFObjectWriter::isSymbolRefDifferenceFullyResolvedImpl(Asm, SA, FB, false, true)] *)
Definition resolvedInSection (SA : MCSymbol) (Sec : nat) : bool :=
  negb (isWeak SA) && bool_decide (getSection SA = Some Sec).

(** [MCAssembler::evaluateFixup] for a fixup in fragment [DF]: whether it is
    resolved, the target, the value and the messages. *)
Definition evaluateFixup (DF : FragRef) (Fixup : MCFixup) : outcome (bool * MCValue * Z * list string) :=
  evaluateAsRelocatable Syms (Some Layout) (fixup_value Fixup) ≫= λ r,
  match r with
  | None => Ret (true, MCValue_get None None 0, 0, ["expected relocatable expression"%string])
  | Some Target =>
      getFixupKindInfo (fixup_kind Fixup) ≫= λ Info,
      let IsPCRel := IsPCRelFlag Info in
      let IsResolved :=
        if IsPCRel then
          match SymB Target, SymA Target with
          | Some _, _ => false
          | None, None => false
          | None, Some a => if isUndefined (sym Syms a) then false else resolvedInSection (sym Syms a) DF.1
          end
        else isAbsolute Target in
      offsetIfDefined (SymA Target) ≫= λ oa,
      offsetIfDefined (SymB Target) ≫= λ ob,
      let Value := u64 (Constant Target + oa - ob) in
      if IsPCRel then
        Layout DF ≫= λ o,
        Ret (IsResolved, Target, u64 (Value - u32 (o + fixup_offset Fixup)), [])
      else Ret (IsResolved, Target, Value, [])
  end.

(** [ELFObjectWriter::shouldRelocateWithSymbol]: the references have no kind. *)
Definition shouldRelocateWithSymbol (RefA : option string) (C Type_ : Z) : bool :=
  match RefA with
  | None => false
  | Some a =>
      let Sym := sym Syms a in
      if isUndefined Sym then true
      else
        match getBinding Sym with
        | STB_WEAK | STB_GLOBAL => true
        | STB_LOCAL =>
            let Flags := default 0 (getSection Sym ≫= λ s, SectionFlags <$> Sections !! s) in
            if has_flag Flags SHF_MERGE && negb (C =? 0) then true
            else if has_flag Flags SHF_TLS then true
            else needsRelocateWithSymbol Type_
        end
  end.

(** [ELFObjectWriter::recordRelocation], with addends ([hasRelocationAddend]): the
    entry, the fixed value and the messages. *)
Definition recordRelocation (DF : FragRef) (Fixup : MCFixup) (Target : MCValue) (FixedValue : Z)
    : outcome (option ELFRelocationEntry * Z * list string) :=
  getFixupKindInfo (fixup_kind Fixup) ≫= λ Info,
  Layout DF ≫= λ o,
  let FixupOffset := u64 (o + fixup_offset Fixup) in
  let C := u64 (Constant Target) in
  (match SymB Target with
  | Some b =>
      if IsPCRelFlag Info then
        Ret (inr "No relocation available to represent this relative expression"%string)
      else if isUndefined (sym Syms b) then
        Ret (inr "symbol can not be undefined in a subtraction expression"%string)
      else if bool_decide (getSection (sym Syms b) = Some DF.1) then
        getSymbolOffset Layout (sym Syms b) ≫= λ ob,
        Ret (inl (true, u64 (C - u64 (ob - FixupOffset))))
      else Ret (inr "Cannot represent a difference across sections"%string)
  | None => Ret (inl (IsPCRelFlag Info, C))
  end : outcome (bool * Z + string)) ≫= λ r,
  match r with
  | inr msg => Ret (None, FixedValue, [msg])
  | inl (IsPCRel, C) =>
      getRelocType (fixup_kind Fixup) IsPCRel ≫= λ Type_,
      let RelocateWithSymbol := shouldRelocateWithSymbol (SymA Target) C Type_ in
      (if RelocateWithSymbol then Ret 0 else offsetIfDefined (SymA Target)) ≫= λ oa,
      let Addend := u64 (C + oa) in
      let Symbol :=
        match SymA Target with
        | None => RelNull
        | Some a => if RelocateWithSymbol then RelNamed a else from_option RelSection RelNull (getSection (sym Syms a))
        end in
      Ret (Some (mkRela FixupOffset Symbol Type_ Addend), 0, [])
  end.

(** [MCAssembler::handleFixup] *)
Definition handleFixup (DF : FragRef) (Fixup : MCFixup) : outcome (Z * list ELFRelocationEntry * list string) :=
  evaluateFixup DF Fixup ≫= λ ev,
  let '(IsResolved, Target, FixedValue, Errs) := ev in
  if IsResolved : bool then Ret (FixedValue, [], Errs)
  else
    recordRelocation DF Fixup Target FixedValue ≫= λ '(Rec, FixedValue, Errs'),
    Ret (FixedValue, match Rec with Some r => [r] | None => [] end, Errs ++ Errs').

(** The fixups of a fragment, in the last loop of [MCAssembler::layout]. *)
Fixpoint processFixups (DF : FragRef) (Fixups : list MCFixup) (Contents : list Z)
    : outcome (list Z * list ELFRelocationEntry * list string) :=
  match Fixups with
  | [] => Ret (Contents, [], [])
  | Fixup :: Fixups =>
      handleFixup DF Fixup ≫= λ '(FixedValue, Relocs, Errs),
      applyFixup (fixup_kind Fixup) (fixup_offset Fixup) Contents FixedValue ≫= λ '(Contents, Errs'),
      processFixups DF Fixups Contents ≫= λ '(Contents, Relocs', Errs''),
      Ret (Contents, Relocs ++ Relocs', Errs ++ Errs' ++ Errs'')
  end.

(** The fragments of section [s] from index [i] on. *)
Fixpoint processFragments (s i : nat) (Frags : list MCFragment)
    : outcome (list MCFragment * list ELFRelocationEntry * list string) :=
  match Frags with
  | [] => Ret ([], [], [])
  | F :: Frags =>
      match F with
      | MCDataFragment Contents Fixups =>
          processFixups (s, Some i) Fixups Contents ≫= λ '(Contents, Relocs, Errs),
          Ret (MCDataFragment Contents Fixups, Relocs, Errs)
      | _ => Ret (F, [], [])
      end ≫= λ '(F, Relocs, Errs),
      processFragments s (S i) Frags ≫= λ '(Frags, Relocs', Errs'),
      Ret (F :: Frags, Relocs ++ Relocs', Errs ++ Errs')
  end.
End Fixups.

(** ** Section contents *)

(** [writeFragment] *)
Definition writeFragment (Offset : Z) (F : MCFragment) : outcome (list Z) :=
  computeFragmentSize Offset F ≫= λ FragmentSize,
  match F with
  | MCDataFragment Contents _ => Ret Contents
  | MCFillFragment Value Size => Ret (replicate Size (u8 Value))
  | MCAlignFragment _ Value ValueSize _ EmitNops =>
      cassert (negb (ValueSize =? 0)) "Invalid virtual align in concrete fragment!" ≫= λ _,
      let Count := FragmentSize / ValueSize in
      if negb (Count * ValueSize =? FragmentSize) then FatalError "undefined .align directive"
      else if EmitNops then
        let '(bytes, ok) := writeNopData (Z.to_nat Count) [] in
        if ok then Ret bytes else FatalError "unable to write nop sequence"
      else if (Count =? 0) || (ValueSize =? 1) || (ValueSize =? 2) || (ValueSize =? 4) || (ValueSize =? 8) then
        Ret (concat (replicate (Z.to_nat Count) (le_bytes (Z.to_nat ValueSize) Value)))
      else Unreachable "Invalid size!"
  end ≫= λ bytes,
  cassert (Z.of_nat (length bytes) =? FragmentSize) "The stream should advance by fragment size" ≫= λ _,
  Ret bytes.

(** [MCAssembler::writeSectionData] of a section that is not virtual, with the
    offsets of its fragments. *)
Fixpoint writeSectionData (Offsets : list Z) (Frags : list MCFragment) : outcome (list Z) :=
  match Offsets, Frags with
  | o :: Offsets, F :: Frags =>
      writeFragment o F ≫= λ bytes,
      writeSectionData Offsets Frags ≫= λ rest,
      Ret (bytes ++ rest)
  | _, [] => Ret []
  | [], _ => AssertFail "Layout bookkeeping error"
  end.

(** ** The object *)
(** A section of the object: its header ([sh_name], [sh_flags], [sh_addralign]; the
    type is [SHT_PROGBITS]), contents and relocations. *)
Record ObjSection : Type := mkObjSection {
  ObjName : string;
  ObjFlags : Z;
  ObjAlignment : Z;
  ObjData : list Z;
  ObjRelocs : list ELFRelocationEntry
}.

(** A symbol of the object: its section, or none when it is undefined, its value
    and binding. *)
Record ObjSymbol : Type := mkObjSymbol {
  st_shndx : option nat;
  st_value : Z;
  st_binding : Binding
}.

Record Object : Type := mkObject {
  ObjSections : list ObjSection;
  ObjSymbols : list (string * ObjSymbol)
}.

(** The symbols relocations refer to by name ([isUsedInReloc]). *)
Definition usedNames (objs : list ObjSection) : list string :=
  concat (map (λ o, omap (λ r, match r_symbol r with RelNamed n => Some n | _ => None end) (ObjRelocs o)) objs).

(** [PrivateGlobalPrefix] of NyuziMCAsmInfo.cpp starts the names of temporaries. *)
Definition isTemporary (Name : string) : bool := String.prefix ".L" Name.

(** A symbol of type [STT_SECTION]: another binding than the local one takes the
    type away. *)
Definition isSectionSymbol (Sections : list MCSection) (Name : string) (Sy : MCSymbol) : bool :=
  match getSection Sy ≫= λ s, Sections !! s with
  | Some Sec => bool_decide (SectionName Sec = Name) && bool_decide (getBinding Sy = STB_LOCAL)
  | None => false
  end.

(** [ELFObjectWriter::isInSymtab] *)
Definition isInSymtab (Sections : list MCSection) (Name : string) (Sy : MCSymbol) (Used : bool) : bool :=
  if Used then true
  else if isUndefined Sy && bool_decide (BindingSet Sy = None) then false
  else if isTemporary Name then false
  else negb (isSectionSymbol Sections Name Sy).

(** A symbol with its value [SymbolValue(Sym, Layout)]; an undefined one has value
    zero. *)
Definition writeSymbol (Layout : MCAsmLayout) (Sy : MCSymbol) : outcome ObjSymbol :=
  if isUndefined Sy then Ret (mkObjSymbol None 0 (getBinding Sy))
  else
    getSymbolOffset Layout Sy ≫= λ v,
    Ret (mkObjSymbol (getSection Sy) (u32 v) (getBinding Sy)).

(** [computeSymbolTable], over the registered symbols; the order of the entries
    is not kept. *)
Fixpoint computeSymbolTable (Layout : MCAsmLayout) (Sections : list MCSection) (Used : list string)
    (l : list (string * MCSymbol)) : outcome (list (string * ObjSymbol) * list string) :=
  match l with
  | [] => Ret ([], [])
  | (Name, Sy) :: l =>
      let used := bool_decide (Name ∈ Used) in
      computeSymbolTable Layout Sections Used l ≫= λ '(rest, Errs),
      if negb (isInSymtab Sections Name Sy used) then Ret (rest, Errs)
      else if isTemporary Name && isUndefined Sy then Ret (rest, "Undefined temporary symbol"%string :: Errs)
      else
        cassert (bool_decide (getBinding Sy = STB_LOCAL) || negb (isTemporary Name)) "Local || !isTemporary()" ≫= λ _,
        writeSymbol Layout Sy ≫= λ o,
        Ret ((Name, o) :: rest, Errs)
  end.

Fixpoint processSections (Syms : SymbolTable) (Layout : MCAsmLayout) (All : list MCSection) (s : nat)
    (Offsets : list (list Z)) (Sections : list MCSection) : outcome (list ObjSection * list string) :=
  match Offsets, Sections with
  | os :: Offsets, Sec :: Sections =>
      processFragments Syms Layout All s 0 (FragmentList Sec) ≫= λ '(Frags, Relocs, Errs),
      writeSectionData os Frags ≫= λ bytes,
      processSections Syms Layout All (S s) Offsets Sections ≫= λ '(rest, Errs'),
      Ret (mkObjSection (SectionName Sec) (SectionFlags Sec) (SectionAlignment Sec) bytes Relocs :: rest, Errs ++ Errs')
  | _, [] => Ret ([], [])
  | [], _ => AssertFail "Layout bookkeeping error"
  end.

(** [MCAssembler::Finish]: the object and the messages. *)
Definition Finish (Syms : SymbolTable) (Sections : list MCSection) : outcome (Object * list string) :=
  layoutSections Sections ≫= λ Offsets,
  let Layout := layoutOf Offsets in
  processSections Syms Layout Sections 0 Offsets Sections ≫= λ '(objs, Errs),
  computeSymbolTable Layout Sections (usedNames objs) (map_to_list Syms) ≫= λ '(symbols, Errs'),
  Ret (mkObject objs symbols, Errs ++ Errs').

(** ** Lemmas: the fixups of a fragment *)

(** The fixups of a data fragment are in its contents, in order and apart. *)
Definition fixups_ok (Contents : list Z) (Fixups : list MCFixup) : Prop :=
  spaced 0 (Z.of_nat (length Contents)) (map fixup_offset Fixups).

Definition fragment_ok (F : MCFragment) : Prop :=
  match F with MCDataFragment Contents Fixups => fixups_ok Contents Fixups | _ => True end.

(** What became of the fixup at an offset of a section: a relocation there, or none. *)
Definition Event : Type := Z * list ELFRelocationEntry.

Definition event_ok (E : Event) : Prop := E.2 = [] ∨ ∃ r, E.2 = [r] ∧ r_offset r = E.1.

Section Processing.
Context (Syms : SymbolTable) (Layout : MCAsmLayout) (Sections : list MCSection).

(** The fixup [f] of fragment [DF] was handled with value [FV] and relocations [rs]. *)
Definition handled (DF : FragRef) (f : MCFixup) (FV : Z) (rs : list ELFRelocationEntry) : Prop :=
  handleFixup Syms Layout Sections DF f = Ret (FV, rs, []) ∧ ∃ v, adjustFixupValue (fixup_kind f) FV = Ret (v, []).

Definition fixup_patch (f : MCFixup) (r : Z * list ELFRelocationEntry) : patch :=
  (Z.to_nat (fixup_offset f), fixup_word (fixup_kind f) r.1).

Lemma processFixups_patches (DF : FragRef) (Fixups : list MCFixup) (Contents Contents' : list Z) (Relocs : list ELFRelocationEntry) :
  processFixups Syms Layout Sections DF Fixups Contents = Ret (Contents', Relocs, []) →
  Forall (λ f, 0 ≤ fixup_offset f ∧ fixup_offset f + 4 ≤ Z.of_nat (length Contents)) Fixups →
  ∃ rs, Forall2 (λ f r, handled DF f r.1 r.2) Fixups rs ∧ Relocs = concat (map snd rs) ∧
    Contents' = patch_all (zip_with fixup_patch Fixups rs) Contents.
Proof.
  revert Contents Relocs. induction Fixups as [| f Fixups IH]; cbn [processFixups]; intros Contents Relocs H HF.
  - inv_ret. exists []. split; [constructor |]. split; reflexivity.
  - apply Forall_cons in HF as [[H0 H4] HF].
    apply outcome_bind_Ret_inv in H as ([[FV r] E1] & Hh & H).
    apply outcome_bind_Ret_inv in H as ([C1 E2] & Ha & H).
    apply outcome_bind_Ret_inv in H as ([[C2 r2] E3] & Hp & H). injection H as -> <- HE.
    apply app_eq_nil in HE as [-> HE]. apply app_eq_nil in HE as [-> ->].
    destruct (applyFixup_patch _ _ _ _ _ _ H0 H4 Ha) as [-> Hv].
    assert (Hl : length (patch_all [(Z.to_nat (fixup_offset f), fixup_word (fixup_kind f) FV)] Contents) = length Contents)
      by (apply length_patch_all; repeat constructor; cbn; lia).
    destruct (IH _ _ Hp ltac:(rewrite Hl; exact HF)) as (rs & HF2 & -> & ->).
    exists ((FV, r) :: rs). split; [constructor; [split; assumption | exact HF2] |]. split; reflexivity.
Qed.

Lemma patches_offsets (DF : FragRef) (Fixups : list MCFixup) (rs : list (Z * list ELFRelocationEntry)) :
  Forall2 (λ f r, handled DF f r.1 r.2) Fixups rs →
  map fst (zip_with fixup_patch Fixups rs) = map (λ f, Z.to_nat (fixup_offset f)) Fixups.
Proof. induction 1 as [| f r Fixups rs _ _ IH]; cbn; [reflexivity | f_equal; exact IH]. Qed.

Lemma nat_offsets (lo hi : Z) (Fixups : list MCFixup) :
  0 ≤ lo → spaced lo hi (map fixup_offset Fixups) →
  map Z.of_nat (map (λ f, Z.to_nat (fixup_offset f)) Fixups) = map fixup_offset Fixups.
Proof.
  revert lo. induction Fixups as [| f Fixups IH]; cbn; intros lo Hlo H; [reflexivity |]. destruct H as [H1 H2].
  rewrite (IH (fixup_offset f + 4)) by (assumption || lia). f_equal. lia.
Qed.

(** One relocation at most comes of a fixup, at its offset in the section. *)
Lemma handleFixup_event (DF : FragRef) (f : MCFixup) (o FV : Z) (rs : list ELFRelocationEntry) (Errs : list string) :
  handleFixup Syms Layout Sections DF f = Ret (FV, rs, Errs) → Layout DF = Ret o → 0 ≤ o + fixup_offset f < 2 ^ 64 →
  event_ok (o + fixup_offset f, rs).
Proof.
  unfold handleFixup. intros H HL Hr. apply outcome_bind_Ret_inv in H as ([[[res T] V] E1] & _ & H).
  destruct res; [inv_ret; left; reflexivity |].
  apply outcome_bind_Ret_inv in H as ([[Rec FV'] E2] & HR & H). injection H as <- <- <-.
  destruct Rec as [r |]; [| left; reflexivity]. right. exists r. split; [reflexivity |].
  unfold recordRelocation in HR. apply outcome_bind_Ret_inv in HR as (Info & _ & HR).
  rewrite HL, outcome_bind_ret in HR. apply outcome_bind_Ret_inv in HR as ([[pc C] | msg] & _ & HR); [| inv_ret; discriminate].
  inv_ret. apply uint_small. cbn. lia.
Qed.

Lemma processFixups_places (DF : FragRef) (Fixups : list MCFixup) (Contents Contents' : list Z) (Relocs : list ELFRelocationEntry) :
  processFixups Syms Layout Sections DF Fixups Contents = Ret (Contents', Relocs, []) → fixups_ok Contents Fixups →
  ∃ rs, Forall2 (λ f r, handled DF f r.1 r.2) Fixups rs ∧ Relocs = concat (map snd rs) ∧
    Contents' = patch_all (zip_with fixup_patch Fixups rs) Contents ∧
    map fst (zip_with fixup_patch Fixups rs) = map (λ f, Z.to_nat (fixup_offset f)) Fixups ∧
    spaced 0 (Z.of_nat (length Contents)) (places (zip_with fixup_patch Fixups rs)).
Proof.
  intros H Hok. unfold fixups_ok in Hok.
  destruct (processFixups_patches _ _ _ _ _ H) as (rs & HF & HR & HC).
  { apply Forall_forall. intros f Hf. apply (spaced_elem _ _ _ (fixup_offset f) Hok). apply list_elem_of_fmap. eauto. }
  pose proof (patches_offsets _ _ _ HF) as Hoff. exists rs. split; [exact HF |]. split; [exact HR |]. split; [exact HC |].
  split; [exact Hoff |]. unfold places. change (λ p : patch, Z.of_nat p.1) with (λ p : patch, Z.of_nat (fst p)).
  rewrite <- map_map, Hoff, (nat_offsets 0 (Z.of_nat (length Contents))) by (assumption || lia). exact Hok.
Qed.

Lemma processFixups_length (DF : FragRef) (Fixups : list MCFixup) (Contents Contents' : list Z) (Relocs : list ELFRelocationEntry) :
  processFixups Syms Layout Sections DF Fixups Contents = Ret (Contents', Relocs, []) → fixups_ok Contents Fixups →
  length Contents' = length Contents.
Proof.
  intros H Hok. destruct (processFixups_places _ _ _ _ _ H Hok) as (rs & _ & _ & -> & _ & Hp).
  apply length_patch_all, spaced_in_range. exact Hp.
Qed.

Lemma processFixups_events (DF : FragRef) (o : Z) (Fixups : list MCFixup) (Contents Contents' : list Z)
    (Relocs : list ELFRelocationEntry) :
  processFixups Syms Layout Sections DF Fixups Contents = Ret (Contents', Relocs, []) →
  fixups_ok Contents Fixups → Layout DF = Ret o → 0 ≤ o → o + Z.of_nat (length Contents) < 2 ^ 64 →
  ∃ evs : list Event, map fst evs = map (λ f, o + fixup_offset f) Fixups ∧ Relocs = concat (map snd evs) ∧ Forall event_ok evs ∧
    (∀ k f, Fixups !! k = Some f → ∃ FV rs, handled DF f FV rs ∧ evs !! k = Some (o + fixup_offset f, rs) ∧
       word_at Contents' (Z.to_nat (fixup_offset f))
       = u32 (fixup_word (fixup_kind f) FV (word_at Contents (Z.to_nat (fixup_offset f))))) ∧
    (∀ p, Forall (λ f, gap p (Z.to_nat (fixup_offset f))) Fixups → word_at Contents' p = word_at Contents p).
Proof.
  intros H Hok HL Ho Hs.
  destruct (processFixups_places _ _ _ _ _ H Hok) as (rs & HF & -> & -> & Hoff & Hp). unfold fixups_ok in Hok.
  exists (zip_with (λ f r, (o + fixup_offset f, r.2)) Fixups rs). split; [| split; [| split; [| split]]].
  - clear - HF. induction HF; cbn; f_equal; auto.
  - f_equal. clear - HF. induction HF; cbn; f_equal; auto.
  - apply Forall_lookup. intros k e Hk. rewrite lookup_zip_with in Hk.
    destruct (Fixups !! k) as [f |] eqn:Hf; [| discriminate]. destruct (rs !! k) as [r |] eqn:Hr; [| discriminate].
    injection Hk as <-. destruct (Forall2_lookup_lr _ _ _ _ _ _ HF Hf Hr) as [Hh _].
    assert (Hin : fixup_offset f ∈ map fixup_offset Fixups) by (apply list_elem_of_fmap; eauto using list_elem_of_lookup_2).
    apply (spaced_elem _ _ _ _ Hok) in Hin. apply (handleFixup_event DF f o r.1 r.2 [] Hh HL). lia.
  - intros k f Hk. destruct (Forall2_lookup_l _ _ _ _ _ HF Hk) as (r & Hr & Hh). exists r.1, r.2.
    split; [exact Hh |]. split; [rewrite lookup_zip_with, Hk; cbn; rewrite Hr; reflexivity |].
    refine (patch_all_spaced _ _ k _ _ Hp _). rewrite lookup_zip_with, Hk. cbn. rewrite Hr. reflexivity.
  - intros p Hg. apply patch_all_outside; [apply spaced_in_range; exact Hp |].
    rewrite <- (Forall_map (@fst nat (Z → Z)) (gap p)), Hoff, Forall_map. exact Hg.
Qed.

(** ** Lemmas: the fragments of a section *)

(** What the object has of a data fragment at offset [oj] of the section: [bytes]
    are the bytes of the section from [o] on. *)
Definition fragment_written (DF : FragRef) (bytes : list Z) (o oj : Z) (evs : list Event) (C : list Z) (F : list MCFixup) : Prop :=
  o ≤ oj ∧ oj + Z.of_nat (length C) ≤ o + Z.of_nat (length bytes) ∧
  (∀ f, f ∈ F → ∃ FV rs, handled DF f FV rs ∧ (oj + fixup_offset f, rs) ∈ evs ∧
     0 ≤ fixup_offset f ∧ fixup_offset f + 4 ≤ Z.of_nat (length C) ∧
     word_at bytes (Z.to_nat (oj - o + fixup_offset f))
     = u32 (fixup_word (fixup_kind f) FV (word_at C (Z.to_nat (fixup_offset f))))) ∧
  (∀ p, (p + 4 ≤ length C)%nat → Forall (λ f, gap p (Z.to_nat (fixup_offset f))) F →
     word_at bytes (Z.to_nat (oj - o) + p) = word_at C p ∧
     Forall (λ E, gap (Z.to_nat oj + p) (Z.to_nat E.1)) evs).

Lemma writeFragment_size (o Size : Z) (F : MCFragment) (b : list Z) :
  writeFragment o F = Ret b → computeFragmentSize o F = Ret Size → Size = Z.of_nat (length b).
Proof.
  unfold writeFragment. intros H HS. rewrite HS, outcome_bind_ret in H. apply outcome_bind_Ret_inv in H as (b' & _ & H).
  apply cassert_bind_inv in H as [HE H]. injection H as ->. apply Z.eqb_eq in HE. lia.
Qed.

Lemma fragment_events (DF : FragRef) (o Size : Z) (F F' : MCFragment) (Relocs : list ELFRelocationEntry) (b : list Z) :
  match F with
  | MCDataFragment Contents Fixups =>
      processFixups Syms Layout Sections DF Fixups Contents ≫= λ '(Contents, Relocs, Errs),
      Ret (MCDataFragment Contents Fixups, Relocs, Errs)
  | _ => Ret (F, [], [])
  end = Ret (F', Relocs, []) →
  writeFragment o F' = Ret b → computeFragmentSize o F = Ret Size → Layout DF = Ret o → fragment_ok F →
  0 ≤ o → o + Z.of_nat (length b) < 2 ^ 64 →
  Size = Z.of_nat (length b) ∧
  ∃ evs : list Event, spaced o (o + Z.of_nat (length b)) (map fst evs) ∧ Relocs = concat (map snd evs) ∧ Forall event_ok evs ∧
    (∀ C Fx, F = MCDataFragment C Fx → fragment_written DF b o o evs C Fx).
Proof.
  intros H HW HS HL Hok Ho Hb. destruct F as [C Fx | |].
  2, 3: injection H as <- <-; split; [exact (writeFragment_size _ _ _ _ HW HS) |];
    exists []; cbn; (split; [lia |]); (split; [reflexivity |]); split; [constructor | discriminate].
  apply outcome_bind_Ret_inv in H as ([[C' R] E] & HP & H). injection H as <- <- ->.
  assert (b = C') as ->.
  { unfold writeFragment in HW. inv_ret. reflexivity. }
  cbn in HS. injection HS as <-.
  pose proof (processFixups_length _ _ _ _ _ HP Hok) as Hlen.
  destruct (processFixups_events DF o Fx C C' R HP Hok HL Ho) as (evs & Hfst & HR & Hev & Hf & Hp); [lia |].
  split; [lia |]. exists evs. split; [| split; [exact HR | split; [exact Hev |]]].
  - rewrite Hfst. replace (map (λ f, o + fixup_offset f) Fx) with (map (λ x, x + o) (map fixup_offset Fx))
      by (rewrite map_map; apply map_ext; intros; lia).
    replace o with (0 + o) at 1 by lia. rewrite Hlen, (Z.add_comm o). apply spaced_shift. exact Hok.
  - intros C0 Fx0 HE. injection HE as <- <-. split; [lia |]. split; [lia |]. split.
    + intros f Hin. destruct (list_elem_of_lookup_1 _ _ Hin) as (k & Hk). destruct (Hf k f Hk) as (FV & rs & Hh & He & Hw).
      exists FV, rs. split; [exact Hh |]. split; [eapply list_elem_of_lookup_2; exact He |].
      assert (Hi : fixup_offset f ∈ map fixup_offset Fx) by (apply list_elem_of_fmap; eauto).
      apply (spaced_elem _ _ _ _ Hok) in Hi. split; [lia |]. split; [lia |].
      replace (o - o + fixup_offset f) with (fixup_offset f) by lia. exact Hw.
    + intros p Hpl Hg. rewrite Z.sub_diag. split; [exact (Hp p Hg) |].
      assert (HG : Forall (λ x, gap (Z.to_nat o + p) (Z.to_nat x)) (map fst evs)).
      { rewrite Hfst, Forall_map. apply Forall_forall. intros f Hin. rewrite Forall_forall in Hg. specialize (Hg f Hin).
        assert (Hi : fixup_offset f ∈ map fixup_offset Fx) by (apply list_elem_of_fmap; eauto).
        apply (spaced_elem _ _ _ _ Hok) in Hi. unfold gap in *. lia. }
      rewrite Forall_map in HG. exact HG.
Qed.

(** A fragment of the rest of the section is a fragment of the section. *)
Lemma fragment_written_later (DF : FragRef) (b bytes : list Z) (o oj : Z) (evs evs' : list Event) (C : list Z) (F : list MCFixup) :
  0 ≤ o → spaced o (o + Z.of_nat (length b)) (map fst evs) →
  fragment_written DF bytes (o + Z.of_nat (length b)) oj evs' C F → fragment_written DF (b ++ bytes) o oj (evs ++ evs') C F.
Proof.
  intros Ho Hsp (H1 & H2 & H3 & H4). unfold fragment_written. rewrite length_app.
  assert (HW : ∀ k, (k + 4 ≤ length bytes)%nat → word_at (b ++ bytes) (length b + k) = word_at bytes k).
  { intros k Hk. rewrite <- (app_nil_r bytes) at 1. exact (word_at_app_mid b bytes [] k Hk). }
  split; [lia |]. split; [lia |]. split.
  - intros f Hf. destruct (H3 f Hf) as (FV & rs & Hh & He & Hf0 & Hf4 & Hw). exists FV, rs.
    split; [exact Hh |]. split; [apply elem_of_app; right; exact He |]. split; [exact Hf0 |]. split; [exact Hf4 |].
    rewrite <- Hw, <- HW by lia. f_equal. lia.
  - intros p Hp Hg. destruct (H4 p Hp Hg) as [Hw HE]. split; [rewrite <- Hw, <- HW by lia; f_equal; lia |].
    apply Forall_app. split; [| exact HE]. apply Forall_forall. intros E HE'.
    assert (Hi : E.1 ∈ map fst evs) by (apply list_elem_of_fmap; eauto). apply (spaced_elem _ _ _ _ Hsp) in Hi.
    unfold gap. lia.
Qed.

Lemma fragment_written_first (DF : FragRef) (b bytes : list Z) (o : Z) (evs evs' : list Event) (C : list Z) (F : list MCFixup) (hi : Z) :
  0 ≤ o → spaced (o + Z.of_nat (length b)) hi (map fst evs') →
  fragment_written DF b o o evs C F → fragment_written DF (b ++ bytes) o o (evs ++ evs') C F.
Proof.
  intros Ho Hsp (H1 & H2 & H3 & H4). unfold fragment_written. rewrite length_app.
  assert (HW : ∀ k, (k + 4 ≤ length b)%nat → word_at (b ++ bytes) k = word_at b k).
  { intros k Hk. exact (word_at_app_mid [] b bytes k Hk). }
  split; [lia |]. split; [lia |]. split.
  - intros f Hf. destruct (H3 f Hf) as (FV & rs & Hh & He & Hf0 & Hf4 & Hw). exists FV, rs.
    split; [exact Hh |]. split; [apply elem_of_app; left; exact He |]. split; [exact Hf0 |]. split; [exact Hf4 |].
    rewrite <- Hw, <- HW by lia. reflexivity.
  - intros p Hp Hg. destruct (H4 p Hp Hg) as [Hw HE]. split; [rewrite <- Hw, <- HW by lia; reflexivity |].
    apply Forall_app. split; [exact HE |]. apply Forall_forall. intros E HE'.
    assert (Hi : E.1 ∈ map fst evs') by (apply list_elem_of_fmap; eauto). apply (spaced_elem _ _ _ _ Hsp) in Hi.
    unfold gap. lia.
Qed.

Lemma section_events (s i : nat) (Frags Frags' : list MCFragment) (Relocs : list ELFRelocationEntry) (os bytes : list Z) (o : Z) :
  processFragments Syms Layout Sections s i Frags = Ret (Frags', Relocs, []) →
  layoutFragments o Frags = Ret os → writeSectionData os Frags' = Ret bytes →
  (∀ j x, os !! j = Some x → Layout (s, Some (i + j)%nat) = Ret x) →
  Forall fragment_ok Frags → 0 ≤ o → o + Z.of_nat (length bytes) < 2 ^ 64 →
  ∃ evs : list Event, spaced o (o + Z.of_nat (length bytes)) (map fst evs) ∧ Relocs = concat (map snd evs) ∧ Forall event_ok evs ∧
    (∀ j F, Frags !! j = Some F → ∃ oj, os !! j = Some oj ∧ o ≤ oj ≤ o + Z.of_nat (length bytes)) ∧
    ∀ j C F, Frags !! j = Some (MCDataFragment C F) →
      ∃ oj, os !! j = Some oj ∧ fragment_written (s, Some (i + j)%nat) bytes o oj evs C F.
Proof.
  revert i Frags' Relocs os bytes o. induction Frags as [| F Frags IH]; intros i Frags' Relocs os bytes o HP HL HW HD Hok Ho Hb.
  - cbn in HP, HL. inv_ret. cbn in HW. inv_ret. exists []. cbn. split; [lia |]. split; [reflexivity |].
    split; [constructor |]. split; discriminate.
  - cbn [processFragments] in HP. apply outcome_bind_Ret_inv in HP as ([[F' R1] E1] & HF & HP).
    apply outcome_bind_Ret_inv in HP as ([[Frags1 R2] E2] & HP & HE). injection HE as <- <- HE.
    apply app_eq_nil in HE as [-> ->]. apply Forall_cons in Hok as [Hok Hoks].
    cbn [layoutFragments] in HL. apply outcome_bind_Ret_inv in HL as (Size & HS & HL).
    apply outcome_bind_Ret_inv in HL as (os' & HL & HE). injection HE as <-.
    cbn [writeSectionData] in HW. apply outcome_bind_Ret_inv in HW as (b & HB & HW).
    apply outcome_bind_Ret_inv in HW as (rest & HW & HE). injection HE as <-. rewrite length_app in Hb |- *.
    assert (HDF : Layout (s, Some i) = Ret o) by (rewrite <- (Nat.add_0_r i); exact (HD 0%nat o eq_refl)).
    destruct (fragment_events (s, Some i) o Size F F' R1 b HF HB HS HDF Hok Ho ltac:(lia)) as (-> & evs & Hsp & -> & Hev & Hw).
    rewrite uint_small in HL by lia.
    destruct (IH (S i) Frags1 R2 os' rest (o + Z.of_nat (length b)) HP HL HW) as (evs' & Hsp' & -> & Hev' & Hb' & Hw');
      [intros j x Hj; rewrite Nat.add_succ_comm; exact (HD (S j) x Hj) | exact Hoks | lia | lia |].
    exists (evs ++ evs'). split; [| split; [| split; [apply Forall_app; split; assumption | split]]].
    + rewrite map_app. eapply spaced_app; [exact Hsp |]. rewrite Nat2Z.inj_add, Z.add_assoc. exact Hsp'.
    + rewrite map_app, concat_app. reflexivity.
    + intros [| j] F0 Hj; [exists o; split; [reflexivity | lia] |].
      destruct (Hb' j F0 Hj) as (oj & Hoj & ?). exists oj. split; [exact Hoj | lia].
    + intros [| j] C Fx Hj.
      * injection Hj as ->. exists o. split; [reflexivity |]. rewrite Nat.add_0_r.
        eapply fragment_written_first; [exact Ho | exact Hsp' | exact (Hw C Fx eq_refl)].
      * destruct (Hw' j C Fx Hj) as (oj & Hoj & Hfw). exists oj. split; [exact Hoj |]. rewrite <- Nat.add_succ_comm.
        eapply fragment_written_later; [exact Ho | exact Hsp | exact Hfw].
Qed.
End Processing.

(** ** Lemmas: what a fixup is worth *)
Section Worth.
Context (Syms : SymbolTable) (Layout : MCAsmLayout) (Sections : list MCSection).
(** The addresses of the sections and of the symbols. *)
Context (VA : nat → Z) (σ : string → Z).

(** The address of a fragment. *)
Definition fragment_address (F : FragRef) : Z := VA F.1 + match Layout F with Ret o => o | _ => 0 end.

(** A symbol that is defined and not weak is where it is defined. *)
Definition strong_placed : Prop :=
  ∀ a F, isWeak (sym Syms a) = false → getFragment (sym Syms a) = Some F →
    eqm64 (σ a) (fragment_address F + getOffset (sym Syms a)).

(** The expression mentions one symbol only, or no weak definition. *)
Definition one_or_strong (e : MCExpr) : Prop :=
  (∃ a, ∀ n, n ∈ symbols e → n = a) ∨
  (∀ n, n ∈ symbols e → isWeak (sym Syms n) = false ∨ isUndefined (sym Syms n) = true).

Definition rel_address (R : RelSymbol) : Z :=
  match R with RelNull => 0 | RelSection k => VA k | RelNamed n => σ n end.

Hypothesis Hσ : strong_placed.

Lemma getSymbolOffset_address (S : MCSymbol) (F : FragRef) (oa : Z) :
  getFragment S = Some F → getSymbolOffset Layout S = Ret oa → eqm64 (VA F.1 + oa) (fragment_address F + getOffset S).
Proof.
  unfold getSymbolOffset, fragment_address. intros -> H. apply outcome_bind_Ret_inv in H as (o & -> & H). injection H as <-.
  rewrite eqm64_uint. apply f_equal. lia.
Qed.

Lemma one_or_strong_respects (e : MCExpr) : one_or_strong e → respects Syms (Some Layout) (λ n, n ∈ symbols e) σ.
Proof.
  intros He a b Ha Hb Hr. destruct He as [[c Hc] | He].
  - rewrite (Hc a Ha), (Hc b Hb). split; [intros _; rewrite !Z.sub_diag; reflexivity |].
    intros L oa ob _ H1 H2. rewrite H1 in H2. injection H2 as ->. rewrite !Z.sub_diag. reflexivity.
  - unfold isSymbolRefDifferenceFullyResolved, getSection in Hr.
    destruct (getFragment (sym Syms a)) as [Fa |] eqn:Ea; [| discriminate Hr].
    destruct (getFragment (sym Syms b)) as [Fb |] eqn:Eb; [| discriminate Hr]. cbn in Hr.
    apply bool_decide_eq_true in Hr.
    assert (HA : eqm64 (σ a) (fragment_address Fa + getOffset (sym Syms a))).
    { apply Hσ; [| exact Ea]. destruct (He a Ha) as [Hw | Hu]; [exact Hw |]. unfold isUndefined in Hu. rewrite Ea in Hu. discriminate Hu. }
    assert (HB : eqm64 (σ b) (fragment_address Fb + getOffset (sym Syms b))).
    { apply Hσ; [| exact Eb]. destruct (He b Hb) as [Hw | Hu]; [exact Hw |]. unfold isUndefined in Hu. rewrite Eb in Hu. discriminate Hu. }
    split.
    + intros HF. injection HF as <-. rewrite HA, HB. apply f_equal. lia.
    + intros L oa ob HL H1 H2. injection HL as <-.
      pose proof (getSymbolOffset_address _ _ _ Ea H1) as H3. pose proof (getSymbolOffset_address _ _ _ Eb H2) as H4.
      rewrite HA, HB, <- H3, <- H4, Hr. apply f_equal. lia.
Qed.

(** The value of a fixup: its expression. *)
Lemma evaluateFixup_value (DF : FragRef) (f : MCFixup) (res : bool) (T : MCValue) (V : Z) :
  expr_ok (fixup_value f) = true → one_or_strong (fixup_value f) →
  evaluateFixup Syms Layout DF f = Ret (res, T, V, []) →
  evaluateAsRelocatable Syms (Some Layout) (fixup_value f) = Ret (Some T) ∧
  eqm64 (value_meaning σ T) (meaning σ (fixup_value f)).
Proof.
  intros Hok H1 H. unfold evaluateFixup in H. apply outcome_bind_Ret_inv in H as ([T' |] & HE & H); [| discriminate H].
  assert (T' = T) as ->.
  { inv_ret. destruct (IsPCRelFlag _); inv_ret; reflexivity. }
  split; [exact HE |].
  exact (proj1 (evaluate_sound Syms (Some Layout) _ σ (one_or_strong_respects _ H1) _ _ T Hok (expr_in_symbols _) HE)).
Qed.

Lemma handleFixup_resolved (DF : FragRef) (f : MCFixup) (T : MCValue) (FV o : Z) (Info : MCFixupKindInfo) :
  expr_ok (fixup_value f) = true → one_or_strong (fixup_value f) →
  evaluateFixup Syms Layout DF f = Ret (true, T, FV, []) → getFixupKindInfo (fixup_kind f) = Ret Info →
  Layout DF = Ret o → 0 ≤ o + fixup_offset f < 2 ^ 32 →
  eqm64 FV (meaning σ (fixup_value f) - if IsPCRelFlag Info then VA DF.1 + (o + fixup_offset f) else 0) ∧ 0 ≤ FV < 2 ^ 64.
Proof.
  intros Hok H1 H HI HL Ho. destruct (evaluateFixup_value _ _ _ _ _ Hok H1 H) as [HE Hm]. split.
  2: { unfold evaluateFixup in H. rewrite HE, outcome_bind_ret, HI in H. inv_ret. destruct (IsPCRelFlag _); inv_ret; apply uint_range; lia. }
  rewrite <- Hm. clear Hm. unfold evaluateFixup in H. rewrite HE, outcome_bind_ret, HI, outcome_bind_ret in H.
  apply outcome_bind_Ret_inv in H as (oa & Ha & H). apply outcome_bind_Ret_inv in H as (ob & Hb & H).
  unfold value_meaning. destruct (IsPCRelFlag Info).
  - rewrite HL, outcome_bind_ret in H. injection H as HR HV.
    destruct (SymB T) as [b |]; [discriminate HR |]. destruct (SymA T) as [a |]; [| discriminate HR].
    cbn [offsetIfDefined address] in Ha, Hb |- *. injection Hb as <-.
    destruct (isUndefined (sym Syms a)) eqn:Hu; [discriminate HR |]. unfold resolvedInSection, getSection in HR.
    apply andb_prop in HR as [Hw Hs]. apply negb_true_iff in Hw. apply bool_decide_eq_true in Hs.
    destruct (getFragment (sym Syms a)) as [F |] eqn:HF; [| discriminate Hs]. injection Hs as Hs.
    pose proof (Hσ a F Hw HF) as Hp. rewrite <- (getSymbolOffset_address _ _ _ HF Ha), Hs in Hp.
    rewrite <- HV, (uint_small 32 (o + fixup_offset f)) by lia. rewrite !eqm64_uint, Hp. apply f_equal. lia.
  - injection H as HR HV. unfold isAbsolute in HR. apply andb_prop in HR as [HA HB].
    apply bool_decide_eq_true in HA, HB. rewrite HA, HB in *. cbn [offsetIfDefined address] in Ha, Hb |- *.
    injection Ha as <-. injection Hb as <-. rewrite <- HV, eqm64_uint. apply f_equal. lia.
Qed.

(** The symbol of a relocation and the offset put into the addend make up the symbol. *)
Lemma relocation_symbol (A : option string) (C X Type_ oa : Z) :
  (if shouldRelocateWithSymbol Syms Sections A C Type_ then Ret 0 else offsetIfDefined Syms Layout A) = Ret oa →
  eqm64 (rel_address match A with
                     | None => RelNull
                     | Some a => if shouldRelocateWithSymbol Syms Sections A C Type_ then RelNamed a
                                 else from_option RelSection RelNull (getSection (sym Syms a))
                     end + u64 (X + oa)) (address σ A + X).
Proof.
  intros Ha. destruct A as [a |]; cbn [address].
  2: { cbn in Ha. injection Ha as <-. cbn [rel_address]. rewrite eqm64_uint. apply f_equal. lia. }
  destruct (shouldRelocateWithSymbol _ _ _ _ _) eqn:HS.
  - injection Ha as <-. cbn [rel_address]. rewrite eqm64_uint. apply f_equal. lia.
  - unfold shouldRelocateWithSymbol in HS. cbn [offsetIfDefined] in Ha.
    destruct (isUndefined (sym Syms a)) eqn:Hu; [discriminate HS |].
    assert (Hw : isWeak (sym Syms a) = false) by (unfold isWeak; destruct (getBinding _); try discriminate HS; reflexivity).
    unfold getSection. destruct (getFragment (sym Syms a)) as [F |] eqn:HF.
    2: { unfold isUndefined in Hu. rewrite HF in Hu. discriminate Hu. }
    pose proof (Hσ a F Hw HF) as Hp. rewrite <- (getSymbolOffset_address _ _ _ HF Ha) in Hp.
    cbn [fmap option_fmap option_map from_option rel_address]. rewrite eqm64_uint, Hp. apply f_equal. lia.
Qed.

(** The relocation of a fixup names a symbol or section and an addend whose sum
    is the expression. *)
Lemma recordRelocation_worth (DF : FragRef) (f : MCFixup) (T : MCValue) (V FV : Z) (Info : MCFixupKindInfo)
    (Rec : option ELFRelocationEntry) :
  recordRelocation Syms Layout Sections DF f T V = Ret (Rec, FV, []) → getFixupKindInfo (fixup_kind f) = Ret Info →
  (fixup_kind f = FK_Data_4 → SymB T = None) →
  FV = 0 ∧ ∃ r, Rec = Some r ∧ getRelocType (fixup_kind f) (IsPCRelFlag Info) = Ret (r_type r) ∧
    eqm64 (rel_address (r_symbol r) + r_addend r) (value_meaning σ T).
Proof.
  unfold recordRelocation. intros H HI HD. rewrite HI, outcome_bind_ret in H. apply outcome_bind_Ret_inv in H as (o & HL & H).
  apply outcome_bind_Ret_inv in H as ([[pc C] | msg] & Hpc & H); [| inv_ret; discriminate].
  apply outcome_bind_Ret_inv in H as (Type_ & HT & H). apply outcome_bind_Ret_inv in H as (oa & Ha & H). injection H as <- <-.
  split; [reflexivity |]. eexists. split; [reflexivity |]. cbn [r_type r_symbol r_addend].
  destruct (SymB T) as [b |] eqn:HB.
  - (* a subtraction is recorded only for a data fixup *)
    destruct (IsPCRelFlag Info) eqn:EP; [discriminate Hpc |]. destruct (isUndefined _); [discriminate Hpc |].
    destruct (bool_decide _); [| discriminate Hpc]. apply outcome_bind_Ret_inv in Hpc as (ob & _ & Hpc). injection Hpc as <- _.
    exfalso. unfold getRelocType in HT. destruct (fixup_kind f =? FK_Data_4) eqn:EK.
    + apply Z.eqb_eq in EK. discriminate (HD EK).
    + assert (HK : fixup_kind f = Nyuzi.fixup_Nyuzi_Branch20 ∨ fixup_kind f = Nyuzi.fixup_Nyuzi_Branch25).
      { revert HT. destruct (Z.eqb_spec (fixup_kind f) Nyuzi.fixup_Nyuzi_Branch20); [auto |].
        destruct (Z.eqb_spec (fixup_kind f) Nyuzi.fixup_Nyuzi_Branch25); [auto |].
        repeat (destruct (_ =? _); [discriminate |]). discriminate. }
      assert (HP : IsPCRelFlag Info = true) by (destruct HK as [HK | HK]; rewrite HK in HI; injection HI as <-; reflexivity).
      congruence.
  - injection Hpc as <- <-. split; [exact HT |]. rewrite (relocation_symbol _ _ _ _ _ Ha). unfold value_meaning. rewrite HB. cbn [address].
    rewrite eqm64_uint. apply f_equal. lia.
Qed.

(** A fixup is applied with its value, or left to a relocation of this value. *)
Lemma handleFixup_worth (DF : FragRef) (f : MCFixup) (FV o : Z) (rs : list ELFRelocationEntry) (Info : MCFixupKindInfo) :
  handleFixup Syms Layout Sections DF f = Ret (FV, rs, []) → getFixupKindInfo (fixup_kind f) = Ret Info →
  expr_ok (fixup_value f) = true → one_or_strong (fixup_value f) →
  (fixup_kind f = FK_Data_4 → ∀ T, evaluateAsRelocatable Syms (Some Layout) (fixup_value f) = Ret (Some T) → SymB T = None) →
  Layout DF = Ret o → 0 ≤ o + fixup_offset f < 2 ^ 32 →
  (rs = [] ∧ 0 ≤ FV < 2 ^ 64 ∧
   eqm64 FV (meaning σ (fixup_value f) - if IsPCRelFlag Info then VA DF.1 + (o + fixup_offset f) else 0)) ∨
  (∃ r, rs = [r] ∧ FV = 0 ∧ r_offset r = o + fixup_offset f ∧
     getRelocType (fixup_kind f) (IsPCRelFlag Info) = Ret (r_type r) ∧
     eqm64 (rel_address (r_symbol r) + r_addend r) (meaning σ (fixup_value f))).
Proof.
  intros H HI Hok H1 HD HL Ho.
  destruct (handleFixup_event Syms Layout Sections _ _ _ _ _ _ H HL ltac:(lia)) as [HN | (r0 & Hr0 & Hoff)]; cbn in HN || cbn in Hr0, Hoff.
  all: unfold handleFixup in H; apply outcome_bind_Ret_inv in H as ([[[res T] V] E1] & HE & H); destruct res;
    [| apply outcome_bind_Ret_inv in H as ([[Rec FV'] E2] & HR & H); injection H as <- Hrs HE'; apply app_eq_nil in HE' as [-> ->]].
  - injection H as <- _ ->. left. split; [exact HN |]. apply and_comm.
    exact (handleFixup_resolved DF f T V o Info Hok H1 HE HI HL Ho).
  - destruct (evaluateFixup_value _ _ _ _ _ Hok H1 HE) as [HT _].
    destruct (recordRelocation_worth _ _ _ _ _ Info _ HR HI (λ HK, HD HK T HT)) as (_ & r & -> & _). congruence.
  - injection H as _ Hrs _. congruence.
  - right. destruct (evaluateFixup_value _ _ _ _ _ Hok H1 HE) as [HT Hm].
    destruct (recordRelocation_worth _ _ _ _ _ Info _ HR HI (λ HK, HD HK T HT)) as (-> & r & -> & Hty & Hw).
    exists r. subst rs. injection Hr0 as ->. split; [reflexivity |]. split; [reflexivity |]. split; [exact Hoff |].
    split; [exact Hty |]. rewrite Hw. exact Hm.
Qed.
End Worth.

(** ** Lemmas: the sections of the object *)

Lemma processSections_written (Syms : SymbolTable) (Layout : MCAsmLayout) (All Sections : list MCSection) (s0 : nat)
    (Offsets : list (list Z)) (objs : list ObjSection) :
  processSections Syms Layout All s0 Offsets Sections = Ret (objs, []) → layoutSections Sections = Ret Offsets →
  (∀ s i x os, Offsets !! s = Some os → os !! i = Some x → Layout ((s0 + s)%nat, Some i) = Ret x) →
  Forall (λ Sec, Forall fragment_ok (FragmentList Sec)) Sections →
  ∀ s Sec, Sections !! s = Some Sec → ∃ Obj, objs !! s = Some Obj ∧
    (Z.of_nat (length (ObjData Obj)) < 2 ^ 64 → ∃ evs : list Event,
      spaced 0 (Z.of_nat (length (ObjData Obj))) (map fst evs) ∧ ObjRelocs Obj = concat (map snd evs) ∧ Forall event_ok evs ∧
      (∀ i F, FragmentList Sec !! i = Some F → ∃ oj, Layout ((s0 + s)%nat, Some i) = Ret oj ∧ 0 ≤ oj ≤ Z.of_nat (length (ObjData Obj))) ∧
      ∀ i C F, FragmentList Sec !! i = Some (MCDataFragment C F) → ∃ oj, Layout ((s0 + s)%nat, Some i) = Ret oj ∧
        fragment_written Syms Layout All ((s0 + s)%nat, Some i) (ObjData Obj) 0 oj evs C F).
Proof.
  revert s0 Offsets objs. induction Sections as [| Sec0 Sections IH]; intros s0 Offsets objs HP HL HD Hok s Sec Hs; [discriminate Hs |].
  cbn [layoutSections] in HL. apply outcome_bind_Ret_inv in HL as (os & Ho & HL).
  apply outcome_bind_Ret_inv in HL as (Rest & HR & HL). injection HL as <-.
  cbn [processSections] in HP. apply outcome_bind_Ret_inv in HP as ([[Frags Relocs] E1] & HF & HP).
  apply outcome_bind_Ret_inv in HP as (bytes & HB & HP). apply outcome_bind_Ret_inv in HP as ([rest E2] & HS & HP).
  injection HP as <- HE. apply app_eq_nil in HE as [-> ->]. apply Forall_cons in Hok as [Hok Hoks].
  destruct s as [| s].
  - injection Hs as <-. eexists. split; [reflexivity |]. cbn [ObjData ObjRelocs]. intros Hb. rewrite Nat.add_0_r.
    destruct (section_events Syms Layout All s0 0 (FragmentList Sec0) Frags Relocs os bytes 0 HF Ho HB) as (evs & H1 & H2 & H3 & Hbd & H4);
      [intros j x Hj; rewrite <- (Nat.add_0_r s0); exact (HD 0%nat j x os eq_refl Hj) | exact Hok | lia | lia |].
    exists evs. split; [exact H1 |]. split; [exact H2 |]. split; [exact H3 |]. split.
    { intros i F Hi. destruct (Hbd i F Hi) as (oj & Hoj & ?). exists oj. split; [| lia].
      rewrite <- (Nat.add_0_r s0). exact (HD 0%nat i oj os eq_refl Hoj). }
    intros i C F Hi. destruct (H4 i C F Hi) as (oj & Hoj & Hw). exists oj. split; [| exact Hw].
    rewrite <- (Nat.add_0_r s0). exact (HD 0%nat i oj os eq_refl Hoj).
  - rewrite <- Nat.add_succ_comm. refine (IH (S s0) Rest rest HS HR _ Hoks s Sec Hs).
    intros s' i x os' H1 H2. rewrite Nat.add_succ_comm. exact (HD (S s') i x os' H1 H2).
Qed.

Lemma Finish_written (Syms : SymbolTable) (Sections : list MCSection) (obj : Object) :
  Finish Syms Sections = Ret (obj, []) → Forall (λ Sec, Forall fragment_ok (FragmentList Sec)) Sections →
  ∃ Offsets, layoutSections Sections = Ret Offsets ∧
    computeSymbolTable (layoutOf Offsets) Sections (usedNames (ObjSections obj)) (map_to_list Syms) = Ret (ObjSymbols obj, []) ∧
    ∀ s Sec, Sections !! s = Some Sec → ∃ Obj, ObjSections obj !! s = Some Obj ∧
      (Z.of_nat (length (ObjData Obj)) < 2 ^ 64 → ∃ evs : list Event,
        spaced 0 (Z.of_nat (length (ObjData Obj))) (map fst evs) ∧ ObjRelocs Obj = concat (map snd evs) ∧ Forall event_ok evs ∧
        (∀ i F, FragmentList Sec !! i = Some F → ∃ oj, layoutOf Offsets (s, Some i) = Ret oj ∧ 0 ≤ oj ≤ Z.of_nat (length (ObjData Obj))) ∧
        ∀ i C F, FragmentList Sec !! i = Some (MCDataFragment C F) → ∃ oj, layoutOf Offsets (s, Some i) = Ret oj ∧
          fragment_written Syms (layoutOf Offsets) Sections (s, Some i) (ObjData Obj) 0 oj evs C F).
Proof.
  unfold Finish. intros H Hok. apply outcome_bind_Ret_inv in H as (Offsets & HL & H).
  apply outcome_bind_Ret_inv in H as ([objs E1] & HP & H). apply outcome_bind_Ret_inv in H as ([syms E2] & HT & H).
  injection H as <- HE. apply app_eq_nil in HE as [-> ->]. exists Offsets. split; [exact HL |]. split; [exact HT |].
  refine (processSections_written Syms _ Sections Sections 0 Offsets objs HP HL _ Hok).
  intros s i x os H1 H2. unfold layoutOf. cbn. rewrite H1. cbn. rewrite H2. reflexivity.
Qed.

(** ** Properties *)

(** C7. Fixups are accounted for in the object: all but four-byte values with a
    subtracted symbol, which the object writer gets wrong, and expressions that combine
    several symbols of which one is weak ([one_or_strong]).  Sections are written without a
    message; take addresses of the sections and of the symbols such that a symbol
    with a strong definition is where it is defined.  The word of a fixup in the
    object is its word in the fragment with a value put in the field; the value is
    that of the fixup's expression, less the address of the word for a kind that is
    relative to it, or it is zero and the section has a relocation at this word whose
    symbol and addend add up to the expression. *)
Theorem fixups_accounted (Syms : SymbolTable) (Sections : list MCSection) (obj : Object) (Offsets : list (list Z)) (VA : nat → Z)
    (σ : string → Z) (s i : nat) (Sec : MCSection) (Obj : ObjSection) (C : list Z) (F : list MCFixup) (fx : MCFixup) :
  Finish Syms Sections = Ret (obj, []) → layoutSections Sections = Ret Offsets →
  Forall (λ Sec, Forall fragment_ok (FragmentList Sec)) Sections → strong_placed Syms (layoutOf Offsets) VA σ →
  Sections !! s = Some Sec → FragmentList Sec !! i = Some (MCDataFragment C F) → fx ∈ F →
  ObjSections obj !! s = Some Obj → Z.of_nat (length (ObjData Obj)) < 2 ^ 32 →
  expr_ok (fixup_value fx) = true → one_or_strong Syms (fixup_value fx) →
  (fixup_kind fx = FK_Data_4 → ∀ T, evaluateAsRelocatable Syms (Some (layoutOf Offsets)) (fixup_value fx) = Ret (Some T) → SymB T = None) →
  ∃ o Info FV, layoutOf Offsets (s, Some i) = Ret o ∧ getFixupKindInfo (fixup_kind fx) = Ret Info ∧
    let P := o + fixup_offset fx in
    word_at (ObjData Obj) (Z.to_nat P) = u32 (fixup_word (fixup_kind fx) FV (word_at C (Z.to_nat (fixup_offset fx)))) ∧
    (u64 FV = u64 (meaning σ (fixup_value fx) - if IsPCRelFlag Info then VA s + P else 0) ∨
     FV = 0 ∧ ∃ r, r ∈ ObjRelocs Obj ∧ r_offset r = P ∧ getRelocType (fixup_kind fx) (IsPCRelFlag Info) = Ret (r_type r) ∧
       u64 (rel_address VA σ (r_symbol r) + r_addend r) = u64 (meaning σ (fixup_value fx))).
Proof.
  intros HFin HL Hok Hσ HS HF Hin HO Hsz Hexp H1 HD.
  destruct (Finish_written _ _ _ HFin Hok) as (Offsets' & HL' & _ & HW). rewrite HL in HL'. injection HL' as <-.
  destruct (HW s Sec HS) as (Obj' & HO' & HE). rewrite HO in HO'. injection HO' as <-.
  destruct (HE ltac:(lia)) as (evs & _ & HR & _ & _ & Hd). destruct (Hd i C F HF) as (o & HLo & Ho & Hend & Hfx & _).
  destruct (Hfx fx Hin) as (FV & rs & [Hh _] & He & H0 & H4 & Hw). rewrite Z.sub_0_r in Hw.
  assert (HI : ∃ Info, getFixupKindInfo (fixup_kind fx) = Ret Info).
  { unfold handleFixup, evaluateFixup in Hh. apply outcome_bind_Ret_inv in Hh as (ev & Hev & Hh).
    apply outcome_bind_Ret_inv in Hev as ([T |] & _ & Hev); [| injection Hev as <-; discriminate Hh].
    apply outcome_bind_Ret_inv in Hev as (Info & HI & _). eauto. }
  destruct HI as (Info & HI). exists o, Info, FV. split; [exact HLo |]. split; [exact HI |]. split; [exact Hw |].
  destruct (handleFixup_worth Syms _ Sections VA σ Hσ _ fx FV o rs Info Hh HI Hexp H1 HD HLo ltac:(lia))
    as [(_ & _ & Hm) | (r & -> & -> & Hr & Hty & Hm)]; [left; exact Hm | right]. split; [reflexivity |].
  exists r. split; [| split; [exact Hr | split; [exact Hty | exact Hm]]].
  rewrite HR. apply list_elem_of_In, in_concat. exists [r]. split; [| left; reflexivity].
  apply list_elem_of_In, list_elem_of_fmap. exists (o + fixup_offset fx, [r]). split; [reflexivity | exact He].
Qed.

(** A section of two words, with a branch from the second to the label of the first. *)
Definition branch_back : MCSection :=
  mkSection ".text" SHF_ALLOC 4
    [MCDataFragment (le_bytes 4 0 ++ le_bytes 4 0xf6000000) [mkMCFixup 4 (MCSymbolRefExpr "a") Nyuzi.fixup_Nyuzi_Branch25]].

Definition one_label : SymbolTable := <["a"%string := mkSymbol (Some (0%nat, Some 0%nat)) 0 None]> ∅.

Lemma one_label_placed : strong_placed one_label (layoutOf [[0]]) (λ _, 0x1000) (λ n, 0x1000 + getOffset (sym one_label n)).
Proof.
  intros a F _ Ha. assert (HA : F = (0%nat, Some 0%nat)).
  { destruct (decide ("a"%string = a)) as [<- | Hn]; [vm_compute in Ha; congruence |]. exfalso.
    unfold sym, getOrCreateSymbol, one_label, SymbolTable in Ha. rewrite lookup_insert_ne, lookup_empty in Ha by exact Hn. discriminate Ha. }
  subst F. reflexivity.
Qed.

Example fixups_accounted_witness :
  ∃ obj Obj FV, Finish one_label [branch_back] = Ret (obj, []) ∧ ObjSections obj !! 0%nat = Some Obj ∧
    word_at (ObjData Obj) 4 = u32 (fixup_word Nyuzi.fixup_Nyuzi_Branch25 FV 0xf6000000) ∧ u64 FV = u64 (-4).
Proof.
  set (obj := match Finish one_label [branch_back] with Ret (obj, _) => obj | _ => mkObject [] [] end).
  assert (HF : Finish one_label [branch_back] = Ret (obj, [])) by (vm_compute; reflexivity).
  set (Obj := default (mkObjSection "" 0 0 [] []) (ObjSections obj !! 0%nat)).
  assert (HO : ObjSections obj !! 0%nat = Some Obj) by (vm_compute; reflexivity).
  destruct (fixups_accounted one_label [branch_back] obj [[0]] (λ _, 0x1000) (λ n, 0x1000 + getOffset (sym one_label n)) 0 0 branch_back Obj
    (le_bytes 4 0 ++ le_bytes 4 0xf6000000) [mkMCFixup 4 (MCSymbolRefExpr "a") Nyuzi.fixup_Nyuzi_Branch25]
    (mkMCFixup 4 (MCSymbolRefExpr "a") Nyuzi.fixup_Nyuzi_Branch25) HF ltac:(vm_compute; reflexivity))
    as (o & Info & FV & Ho & HI & Hw & HV).
  - repeat constructor; vm_compute; intuition discriminate.
  - exact one_label_placed.
  - reflexivity.
  - reflexivity.
  - left.
  - exact HO.
  - vm_compute. reflexivity.
  - reflexivity.
  - left. exists "a"%string. intros n Hn. apply list_elem_of_singleton in Hn. exact Hn.
  - discriminate.
  - exists obj, Obj, FV. split; [exact HF |]. split; [exact HO |]. injection Ho as <-. injection HI as <-. split; [exact Hw |].
    destruct HV as [HV | (-> & r & Hr & _)]; [rewrite HV; reflexivity |]. exfalso. vm_compute in Hr. apply elem_of_nil in Hr as [].
Defined.

(** C40. A subtraction left in a data value is recorded wrongly.  For a four-byte value
    [SymA - SymB + C], [SymA] in another section or file and [SymB] a label of the
    section, the writer turns the subtraction into a distance to the place and asks
    for a relocation relative to it, but the relocation type it gets is the absolute
    one: its symbol and addend add up to the value plus the address of the place. *)
Theorem subtraction_recorded (Syms : SymbolTable) (Layout : MCAsmLayout) (Sections : list MCSection) (VA : nat → Z) (σ : string → Z)
    (s i : nat) (f : MCFixup) (T : MCValue) (b : string) (j : nat) (V FV o : Z) (Rec : option ELFRelocationEntry) :
  strong_placed Syms Layout VA σ → fixup_kind f = FK_Data_4 → SymB T = Some b →
  getFragment (sym Syms b) = Some (s, Some j) → isWeak (sym Syms b) = false → Layout (s, Some i) = Ret o →
  recordRelocation Syms Layout Sections (s, Some i) f T V = Ret (Rec, FV, []) →
  FV = 0 ∧ ∃ r, Rec = Some r ∧ r_type r = R_NYUZI_ABS32 ∧
    u64 (rel_address VA σ (r_symbol r) + r_addend r) = u64 (value_meaning σ T + (VA s + (o + fixup_offset f))).
Proof.
  intros Hσ HK HB Hb Hw HL H. unfold recordRelocation in H. rewrite HK in H.
  change (getFixupKindInfo FK_Data_4) with (Ret (mkInfo "FK_Data_4" 0 32 false)) in H.
  rewrite outcome_bind_ret, HL, outcome_bind_ret, HB in H. cbn [IsPCRelFlag fst] in H.
  apply outcome_bind_Ret_inv in H as ([[pc C] | msg] & Hpc & H); [| inv_ret; discriminate].
  destruct (isUndefined (sym Syms b)); [discriminate Hpc |]. destruct (bool_decide _); [| discriminate Hpc].
  apply outcome_bind_Ret_inv in Hpc as (ob & Hob & Hpc). injection Hpc as <- <-.
  change (getRelocType FK_Data_4 true) with (Ret R_NYUZI_ABS32) in H. rewrite outcome_bind_ret in H.
  apply outcome_bind_Ret_inv in H as (oa & Ha & H). injection H as <- <-.
  split; [reflexivity |]. eexists. split; [reflexivity |]. cbn [r_type r_symbol r_addend]. split; [reflexivity |].
  assert (Hsb : eqm64 (σ b) (VA s + ob)).
  { rewrite (Hσ b (s, Some j) Hw Hb), <- (getSymbolOffset_address Layout VA (sym Syms b) (s, Some j) ob Hb Hob). reflexivity. }
  match goal with |- u64 ?x = u64 ?y => change (eqm64 x y) end.
  etransitivity; [exact (relocation_symbol Syms Layout Sections VA σ Hσ _ _ _ _ _ Ha) |].
  unfold value_meaning. rewrite HB. cbn [address]. rewrite !eqm64_uint, Hsb. apply f_equal. lia.
Qed.

(** [.long ext - a] four bytes after the label [a]: the relocation is for [ext + 4]. *)
Example subtraction_recorded_witness :
  ∃ r, recordRelocation one_label (layoutOf [[0]]) [branch_back] (0%nat, Some 0%nat)
         (mkMCFixup 4 (MCBinaryExpr MCBinary.Sub (MCSymbolRefExpr "ext") (MCSymbolRefExpr "a")) FK_Data_4)
         (MCValue_get (Some "ext"%string) (Some "a"%string) 0) 0 = Ret (Some r, 0, []) ∧ r = mkRela 4 (RelNamed "ext") R_NYUZI_ABS32 4 ∧
    u64 (rel_address (λ _, 0x1000) (λ n, 0x1000 + getOffset (sym one_label n)) (r_symbol r) + r_addend r) = u64 (0 + (0x1000 + (0 + 4))).
Proof.
  set (r := mkRela 4 (RelNamed "ext") R_NYUZI_ABS32 4).
  assert (HR : recordRelocation one_label (layoutOf [[0]]) [branch_back] (0%nat, Some 0%nat)
         (mkMCFixup 4 (MCBinaryExpr MCBinary.Sub (MCSymbolRefExpr "ext") (MCSymbolRefExpr "a")) FK_Data_4)
         (MCValue_get (Some "ext"%string) (Some "a"%string) 0) 0 = Ret (Some r, 0, [])) by (vm_compute; reflexivity).
  exists r. split; [exact HR |]. split; [reflexivity |].
  destruct (subtraction_recorded one_label (layoutOf [[0]]) [branch_back] (λ _, 0x1000) (λ n, 0x1000 + getOffset (sym one_label n)) 0 0
    (mkMCFixup 4 (MCBinaryExpr MCBinary.Sub (MCSymbolRefExpr "ext") (MCSymbolRefExpr "a")) FK_Data_4)
    (MCValue_get (Some "ext"%string) (Some "a"%string) 0) "a" 0 0 0 0 (Some r) one_label_placed eq_refl eq_refl ltac:(vm_compute; reflexivity) ltac:(vm_compute; reflexivity) eq_refl HR)
    as (_ & r' & Hr & _ & HV). injection Hr as <-. exact HV.
Defined.
