(* ===== verification/MCStreamer.v ===== *)
(** * MCStreamer: the object streamer

    lib/MC/MCObjectStreamer.cpp and MCELFStreamer.cpp, with the parts of
    MCStreamer.cpp and MCContext.cpp they call: instructions, labels, data and
    alignment become fragments, fixups and symbols.  Bundles, subsections, line
    tables and thread-local symbols are left out; fragments are always inserted
    at the end of the current section. *)
From S2P Require Import Prelude MathExtras NyuziTarget NyuziFormats NyuziEmitter NyuziFixups WordPatches MCExpressions MCAssembler.

(** ** Helpers of MathExtras.h and MCFixup.h *)
Definition maxUIntN (N : Z) : outcome Z :=
  cassert ((0 <? N) && (N <=? 64)) "integer width out of range" ≫= λ _,
  Ret (Z.shiftr (u64 (-1)) (64 - N)).

Definition isUIntN (N x : Z) : outcome bool :=
  if 64 <=? N then Ret true else maxUIntN N ≫= λ m, Ret (x <=? m).

Definition isIntN (N x : Z) : outcome bool :=
  if 64 <=? N then Ret true else minIntN N ≫= λ lo, maxIntN N ≫= λ hi, Ret ((lo <=? x) && (x <=? hi)).

(** [MCFixup::getKindForSize(Size, false)] *)
Definition getKindForSize (Size : Z) : outcome Z :=
  if Size =? 1 then Ret 0
  else if Size =? 2 then Ret 1
  else if Size =? 4 then Ret FK_Data_4
  else if Size =? 8 then Ret 3
  else Unreachable "Invalid generic fixup size!".

(** ** State *)
Record Streamer : Type := mkStreamer {
  StSections : list MCSection;
  StSymbols : SymbolTable;
  CurrentSection : option nat;
  PendingLabels : list string;
  StErrors : list string
}.

Definition initStreamer : Streamer := mkStreamer [] ∅ None [] [].

Definition reportError (msg : string) (st : Streamer) : Streamer :=
  mkStreamer (StSections st) (StSymbols st) (CurrentSection st) (PendingLabels st) (StErrors st ++ [msg]).

Definition setSymbols (Syms : SymbolTable) (st : Streamer) : Streamer :=
  mkStreamer (StSections st) Syms (CurrentSection st) (PendingLabels st) (StErrors st).

(** [getCurrentSectionOnly()], asserted to be set. *)
Definition getCurrentSection (st : Streamer) : outcome (nat * MCSection) :=
  match CurrentSection st with
  | None => AssertFail "No current section!"
  | Some s => match StSections st !! s with Some Sec => Ret (s, Sec) | None => AssertFail "No current section!" end
  end.

Definition withFragments (Frags : list MCFragment) (Sec : MCSection) : MCSection :=
  mkSection (SectionName Sec) (SectionFlags Sec) (SectionAlignment Sec) Frags.

Definition setSection (s : nat) (Sec : MCSection) (st : Streamer) : Streamer :=
  mkStreamer (<[s := Sec]> (StSections st)) (StSymbols st) (CurrentSection st) (PendingLabels st) (StErrors st).

(** [Symbol->setFragment(F); Symbol->setOffset(Offset)] *)
Definition placeSymbol (F : FragRef) (Offset : Z) (Name : string) (Syms : SymbolTable) : SymbolTable :=
  <[Name := mkSymbol (Some F) Offset (BindingSet (getOrCreateSymbol Syms Name))]> Syms.

(** [flushPendingLabels(F, FOffset)] *)
Definition flushPendingLabels (F : FragRef) (FOffset : Z) (st : Streamer) : Streamer :=
  mkStreamer (StSections st) (foldr (placeSymbol F FOffset) (StSymbols st) (PendingLabels st))
    (CurrentSection st) [] (StErrors st).

(** [insert(F)]: the pending labels go to the new fragment. *)
Definition insert_fragment (F : MCFragment) (st : Streamer) : outcome Streamer :=
  getCurrentSection st ≫= λ '(s, Sec),
  let st := flushPendingLabels (s, Some (length (FragmentList Sec))) 0 st in
  Ret (setSection s (withFragments (FragmentList Sec ++ [F]) Sec) st).

(** [flushPendingLabels(nullptr)]: a new data fragment for the labels, if any. *)
Definition flushToNewFragment (st : Streamer) : outcome Streamer :=
  match PendingLabels st with
  | [] => Ret st
  | _ => insert_fragment (MCDataFragment [] []) st
  end.

(** The index of the current fragment, its contents and fixups, when it is a data
    fragment. *)
Definition currentData (Sec : MCSection) : option (nat * list Z * list MCFixup) :=
  match last (FragmentList Sec) with
  | Some (MCDataFragment Contents Fixups) => Some (length (FragmentList Sec) - 1, Contents, Fixups)%nat
  | _ => None
  end.

(** [getOrCreateDataFragment()] *)
Definition getOrCreateDataFragment (st : Streamer) : outcome Streamer :=
  getCurrentSection st ≫= λ '(s, Sec),
  match currentData Sec with
  | Some _ => Ret st
  | None => insert_fragment (MCDataFragment [] []) st
  end.

(** The same, followed by [flushPendingLabels(DF, DF->getContents().size())]. *)
Definition dataFragment (st : Streamer) : outcome Streamer :=
  getOrCreateDataFragment st ≫= λ st,
  getCurrentSection st ≫= λ '(s, Sec),
  match currentData Sec with
  | Some (i, Contents, _) => Ret (flushPendingLabels (s, Some i) (Z.of_nat (length Contents)) st)
  | None => AssertFail "cast<MCDataFragment>"
  end.

(** Appends bytes and fixups to the current data fragment. *)
Definition appendData (bytes : list Z) (NewFixups : list MCFixup) (st : Streamer) : outcome Streamer :=
  getCurrentSection st ≫= λ '(s, Sec),
  match currentData Sec with
  | Some (i, Contents, Fixups) =>
      let DF := MCDataFragment (Contents ++ bytes) (Fixups ++ NewFixups) in
      Ret (setSection s (withFragments (<[i := DF]> (FragmentList Sec)) Sec) st)
  | None => AssertFail "cast<MCDataFragment>"
  end.

(** ** Operations *)

(** The index of the section of a name. *)
Fixpoint findSection (Name : string) (i : nat) (Sections : list MCSection) : option nat :=
  match Sections with
  | [] => None
  | Sec :: Sections => if decide (SectionName Sec = Name) then Some i else findSection Name (S i) Sections
  end.

(** [createELFSectionImpl]: a section starts with an empty data fragment, to which
    its symbol points. *)
Definition createSection (Name : string) (Flags : Z) (st : Streamer) : Streamer :=
  let s := length (StSections st) in
  let st :=
    if isUndefined (getOrCreateSymbol (StSymbols st) Name) then
      setSymbols (<[Name := mkSymbol (Some (s, Some O)) 0 (Some STB_LOCAL)]> (StSymbols st)) st
    else reportError "invalid symbol redefinition" st in
  mkStreamer (StSections st ++ [mkSection Name Flags 1 [MCDataFragment [] []]]) (StSymbols st) (CurrentSection st)
    (PendingLabels st) (StErrors st).

(** [SwitchSection] to the section of a name, made on its first use. *)
Definition SwitchSection (Name : string) (Flags : Z) (st : Streamer) : outcome Streamer :=
  let st :=
    match findSection Name 0 (StSections st) with
    | Some _ => st
    | None => createSection Name Flags st
    end in
  match findSection Name 0 (StSections st) with
  | None => AssertFail "Cannot switch to a null section!"
  | Some s =>
      if decide (CurrentSection st = Some s) then Ret st
      else
        flushToNewFragment st ≫= λ st,
        Ret (mkStreamer (StSections st) (StSymbols st) (Some s) (PendingLabels st) (StErrors st))
  end.

(** [EmitLabel]: a redefinition is reported and carried out. *)
Definition EmitLabel (Name : string) (st : Streamer) : outcome Streamer :=
  (if isUndefined (getOrCreateSymbol (StSymbols st) Name) then
     getCurrentSection st ≫= λ '(s, _),
     Ret (setSymbols (<[Name := mkSymbol (Some (s, None)) 0 (BindingSet (getOrCreateSymbol (StSymbols st) Name))]>
            (StSymbols st)) st)
   else Ret (reportError "invalid symbol redefinition" st)) ≫= λ st,
  getCurrentSection st ≫= λ '(s, Sec),
  match currentData Sec with
  | Some (i, Contents, _) => Ret (setSymbols (placeSymbol (s, Some i) (Z.of_nat (length Contents)) Name (StSymbols st)) st)
  | None =>
      Ret (mkStreamer (StSections st) (StSymbols st) (CurrentSection st) (PendingLabels st ++ [Name]) (StErrors st))
  end.

(** [EmitSymbolAttribute], for the attributes that set a binding. *)
Definition EmitSymbolAttribute (Name : string) (b : Binding) (st : Streamer) : outcome Streamer :=
  let Sy := getOrCreateSymbol (StSymbols st) Name in
  Ret (setSymbols (<[Name := mkSymbol (getFragment Sy) (getOffset Sy) (Some b)]> (StSymbols st)) st).

Definition EmitBytes (Data : list Z) (st : Streamer) : outcome Streamer :=
  dataFragment st ≫= appendData Data [].

(** [EmitIntValue(Value, Size)], [Value] an [int64_t] passed as [uint64_t]. *)
Definition EmitIntValue (Value Size : Z) (st : Streamer) : outcome Streamer :=
  cassert ((1 <=? Size) && (Size <=? 8)) "Invalid size" ≫= λ _,
  isUIntN (8 * Size) (u64 Value) ≫= λ u,
  isIntN (8 * Size) (i64 Value) ≫= λ i,
  cassert (u || i) "Invalid size" ≫= λ _,
  EmitBytes (le_bytes (Z.to_nat Size) (u64 Value)) st.

(** [visitUsedExpr]: the symbols of an expression are registered. *)
Fixpoint visitUsedExpr (e : MCExpr) (Syms : SymbolTable) : SymbolTable :=
  match e with
  | MCConstantExpr _ => Syms
  | MCSymbolRefExpr s => <[s := getOrCreateSymbol Syms s]> Syms
  | MCUnaryExpr _ e | NyuziMCExpr _ e => visitUsedExpr e Syms
  | MCBinaryExpr _ l r => visitUsedExpr r (visitUsedExpr l Syms)
  end.

(** [EmitValueImpl]: a constant where the value is known, a fixup otherwise. *)
Definition EmitValue (Value : MCExpr) (Size : Z) (st : Streamer) : outcome Streamer :=
  dataFragment (setSymbols (visitUsedExpr Value (StSymbols st)) st) ≫= λ st,
  evaluateAsAbsolute (StSymbols st) true None Value ≫= λ r,
  match r with
  | Some AbsValue =>
      isUIntN (8 * Size) (u64 AbsValue) ≫= λ u,
      isIntN (8 * Size) AbsValue ≫= λ i,
      if negb u && negb i then Ret (reportError "value is out of range" st)
      else EmitIntValue AbsValue Size st
  | None =>
      getCurrentSection st ≫= λ '(_, Sec),
      match currentData Sec with
      | Some (_, Contents, _) =>
          getKindForSize Size ≫= λ Kind,
          appendData (replicate (Z.to_nat Size) 0) [mkMCFixup (Z.of_nat (length Contents)) Value Kind] st
      | None => AssertFail "cast<MCDataFragment>"
      end
  end.

(** [EmitValueToAlignment] and [EmitCodeAlignment], which also sets [EmitNops]. *)
Definition EmitAlign (ByteAlignment Value ValueSize MaxBytesToEmit : Z) (EmitNops : bool) (st : Streamer) : outcome Streamer :=
  let MaxBytesToEmit := if MaxBytesToEmit =? 0 then ByteAlignment else MaxBytesToEmit in
  insert_fragment (MCAlignFragment ByteAlignment Value ValueSize MaxBytesToEmit EmitNops) st ≫= λ st,
  getCurrentSection st ≫= λ '(s, Sec),
  Ret (if SectionAlignment Sec <? ByteAlignment
       then setSection s (mkSection (SectionName Sec) (SectionFlags Sec) ByteAlignment (FragmentList Sec)) st
       else st).

(** [emitFill(NumBytes, FillValue)], as [EmitZeros] and [.space] with a literal use it. *)
Definition emitFill (NumBytes : nat) (FillValue : Z) (st : Streamer) : outcome Streamer :=
  dataFragment st ≫= insert_fragment (MCFillFragment (u8 FillValue) NumBytes).

Section Instructions.
Variable getBinaryCodeForInstr : MCInst → Fixups_t → outcome (Z * Fixups_t).

(** [fixup.setOffset(fixup.getOffset() + size)] *)
Definition shiftFixup (size : nat) (Fixup : MCFixup) : MCFixup :=
  mkMCFixup (fixup_offset Fixup + Z.of_nat size) (fixup_value Fixup) (fixup_kind Fixup).

(** The operands of [MCStreamer::EmitInstruction], from the last on. *)
Definition visitOperands (Inst : MCInst) (Syms : SymbolTable) : SymbolTable :=
  foldr (λ MO Syms, match MO with kExpr e => visitUsedExpr e Syms | _ => Syms end) Syms (Operands Inst).

(** [EmitInstruction], with [EmitInstToData] *)
Definition EmitInstruction (Inst : MCInst) (st : Streamer) : outcome Streamer :=
  let st := setSymbols (visitOperands Inst (StSymbols st)) st in
  encodeInstruction getBinaryCodeForInstr Inst [] [] ≫= λ '(Code, Fixups),
  getOrCreateDataFragment st ≫= λ st,
  getCurrentSection st ≫= λ '(_, Sec),
  match currentData Sec with
  | Some (_, Contents, _) => appendData Code (map (shiftFixup (length Contents)) Fixups) st
  | None => AssertFail "cast<MCDataFragment>"
  end.

(** What the assembly printer or parser asks of the streamer. *)
Inductive StreamerOp : Type :=
  | OpSection (Name : string) (Flags : Z)
  | OpLabel (Name : string)
  | OpAttribute (Name : string) (b : Binding)
  | OpInstruction (Inst : MCInst)
  | OpBytes (Data : list Z)
  | OpValue (Value : MCExpr) (Size : Z)
  | OpAlign (ByteAlignment Value ValueSize MaxBytesToEmit : Z) (EmitNops : bool)
  | OpFill (NumBytes : nat) (FillValue : Z).

Definition emit (op : StreamerOp) (st : Streamer) : outcome Streamer :=
  match op with
  | OpSection Name Flags => SwitchSection Name Flags st
  | OpLabel Name => EmitLabel Name st
  | OpAttribute Name b => EmitSymbolAttribute Name b st
  | OpInstruction Inst => EmitInstruction Inst st
  | OpBytes Data => EmitBytes Data st
  | OpValue Value Size => EmitValue Value Size st
  | OpAlign ByteAlignment Value ValueSize Max EmitNops => EmitAlign ByteAlignment Value ValueSize Max EmitNops st
  | OpFill NumBytes FillValue => emitFill NumBytes FillValue st
  end.

Fixpoint emitAll (ops : list StreamerOp) (st : Streamer) : outcome Streamer :=
  match ops with
  | [] => Ret st
  | op :: ops => emit op st ≫= emitAll ops
  end.

(** [FinishImpl], after all operations: the object and the messages. *)
Definition assembleObject (ops : list StreamerOp) : outcome (Object * list string) :=
  emitAll ops initStreamer ≫= λ st,
  flushToNewFragment st ≫= λ st,
  Finish (StSymbols st) (StSections st) ≫= λ '(obj, Errs),
  Ret (obj, StErrors st ++ Errs).
End Instructions.

(** ** Invariant

    Emission only adds: to the contents and fixups of the last fragment of a
    section, fragments to a section, sections.  A symbol placed in a fragment
    stays there. *)

(** The fragment an emission leaves of a fragment. *)
Definition fragment_ext (F F' : MCFragment) : Prop :=
  match F with
  | MCDataFragment C Fx => ∃ c fx, F' = MCDataFragment (C ++ c) (Fx ++ fx) ∧
      spaced (Z.of_nat (length C)) (Z.of_nat (length (C ++ c))) (map fixup_offset fx)
  | _ => F' = F
  end.

Definition section_ext (Sec Sec' : MCSection) : Prop :=
  SectionName Sec' = SectionName Sec ∧ SectionFlags Sec' = SectionFlags Sec ∧
  ∀ i F, FragmentList Sec !! i = Some F → ∃ F', FragmentList Sec' !! i = Some F' ∧ fragment_ext F F'.

(** The symbols placed in a fragment are the same. *)
Definition symbols_ext (Syms Syms' : SymbolTable) : Prop :=
  ∀ n k i, getFragment (sym Syms n) = Some (k, Some i) →
    getFragment (sym Syms' n) = Some (k, Some i) ∧ getOffset (sym Syms' n) = getOffset (sym Syms n).

Definition extends (st st' : Streamer) : Prop :=
  (∀ s Sec, StSections st !! s = Some Sec → ∃ Sec', StSections st' !! s = Some Sec' ∧ section_ext Sec Sec') ∧
  symbols_ext (StSymbols st) (StSymbols st').

(** The length of what a label can be inside of. *)
Definition data_size (F : MCFragment) : Z :=
  match F with MCDataFragment C _ => Z.of_nat (length C) | _ => 0 end.

(** An offset in a fragment that is there. *)
Definition place_ok (Sections : list MCSection) (k i : nat) (o : Z) : Prop :=
  ∃ Sec F, Sections !! k = Some Sec ∧ FragmentList Sec !! i = Some F ∧ 0 ≤ o ≤ data_size F.

(** The fixups of every fragment are in order; the pending labels are those without a
    fragment yet; a label is in its fragment. *)
Definition streamer_ok (st : Streamer) : Prop :=
  Forall (λ Sec, Forall fragment_ok (FragmentList Sec)) (StSections st) ∧
  (∀ n, n ∈ PendingLabels st ↔ ∃ k, getFragment (sym (StSymbols st) n) = Some (k, None)) ∧
  ∀ n k i, getFragment (sym (StSymbols st) n) = Some (k, Some i) → place_ok (StSections st) k i (getOffset (sym (StSymbols st) n)).

Lemma fragment_ext_size (F F' : MCFragment) : fragment_ext F F' → data_size F ≤ data_size F'.
Proof. destruct F as [C Fx | |]; cbn; [intros (c & fx & -> & _); cbn; rewrite length_app; lia | intros ->; cbn; lia ..]. Qed.

#[export] Instance fragment_ext_preorder : PreOrder fragment_ext.
Proof.
  split.
  - intros [C Fx | |]; cbn; try reflexivity. exists [], []. rewrite !app_nil_r. split; [reflexivity |]. cbn. lia.
  - intros [C Fx | |] F2 F3; cbn; [| intros -> H; exact H ..].
    intros (c & fx & -> & H1) (c' & fx' & -> & H2). exists (c ++ c'), (fx ++ fx'). rewrite !app_assoc. split; [reflexivity |].
    rewrite map_app. eapply spaced_app; [exact H1 | exact H2].
Qed.

#[export] Instance section_ext_preorder : PreOrder section_ext.
Proof.
  split.
  - intros Sec. split; [reflexivity |]. split; [reflexivity |]. intros i F H. exists F. split; [exact H | reflexivity].
  - intros S1 S2 S3 (N1 & G1 & H1) (N2 & G2 & H2). split; [congruence |]. split; [congruence |].
    intros i F H. destruct (H1 i F H) as (F' & HF' & E1). destruct (H2 i F' HF') as (F'' & HF'' & E2).
    exists F''. split; [exact HF'' | etransitivity; eassumption].
Qed.

#[export] Instance extends_preorder : PreOrder extends.
Proof.
  split.
  - intros st. split; [intros s Sec H; exists Sec; split; [exact H | reflexivity] | intros n k i H; auto].
  - intros st1 st2 st3 [A1 B1] [A2 B2]. split.
    + intros s Sec H. destruct (A1 s Sec H) as (Sec' & H' & E1). destruct (A2 s Sec' H') as (Sec'' & H'' & E2).
      exists Sec''. split; [exact H'' | etransitivity; eassumption].
    + intros n k i H. destruct (B1 n k i H) as [H1 H2]. destruct (B2 n k i H1) as [H3 H4]. split; [exact H3 | congruence].
Qed.

(** A step of the emission: the invariant is kept and the state extended. *)
Definition steps (st st' : Streamer) : Prop := streamer_ok st → streamer_ok st' ∧ extends st st'.

#[export] Instance steps_preorder : PreOrder steps.
Proof.
  split; [intros st H; split; [exact H | reflexivity] |].
  intros st1 st2 st3 H1 H2 H. destruct (H1 H) as [O1 E1]. destruct (H2 O1) as [O2 E2]. split; [exact O2 | etransitivity; eassumption].
Qed.

Lemma sym_insert (Syms : gmap string MCSymbol) (n m : string) (Sy : MCSymbol) :
  sym (<[n := Sy]> Syms) m = if decide (n = m) then Sy else sym Syms m.
Proof.
  unfold sym, getOrCreateSymbol, SymbolTable.
  destruct (decide (n = m)) as [-> | Hn]; [rewrite lookup_insert_eq | rewrite lookup_insert_ne by exact Hn]; reflexivity.
Qed.

(** Symbols get a new binding or are only registered. *)
Definition same_places (Syms Syms' : SymbolTable) : Prop :=
  ∀ n, getFragment (sym Syms' n) = getFragment (sym Syms n) ∧ getOffset (sym Syms' n) = getOffset (sym Syms n).

Lemma visitUsedExpr_same (e : MCExpr) (Syms : SymbolTable) : same_places Syms (visitUsedExpr e Syms).
Proof.
  revert Syms. induction e as [| s | op e IH | op l IHl r IHr | k e IH]; cbn; intros Syms n; [auto | | exact (IH Syms n) | | exact (IH Syms n)].
  - rewrite sym_insert. destruct (decide (s = n)) as [-> |]; auto.
  - destruct (IHl Syms n), (IHr (visitUsedExpr l Syms) n). split; congruence.
Qed.

Lemma visitOperands_same (Inst : MCInst) (Syms : SymbolTable) : same_places Syms (visitOperands Inst Syms).
Proof.
  unfold visitOperands. intros n. induction (Operands Inst) as [| MO l IH]; cbn; [auto |].
  destruct MO; try exact IH. destruct IH, (visitUsedExpr_same e (foldr (λ MO Syms, match MO with kExpr e => visitUsedExpr e Syms | _ => Syms end) Syms l) n).
  split; congruence.
Qed.

Lemma setSymbols_steps (Syms : SymbolTable) (st : Streamer) : same_places (StSymbols st) Syms → steps st (setSymbols Syms st).
Proof.
  intros H (H1 & H2 & H3). split; [split; [exact H1 | split] | split].
  - cbn. intros n. rewrite (proj1 (H n)). exact (H2 n).
  - cbn. intros n k i Hn. rewrite (proj2 (H n)). rewrite (proj1 (H n)) in Hn. exact (H3 n k i Hn).
  - intros s Sec Hs. exists Sec. split; [exact Hs | reflexivity].
  - intros n k i Hn. cbn. rewrite (proj1 (H n)), (proj2 (H n)). auto.
Qed.

Lemma foldr_placeSymbol (F : FragRef) (o : Z) (l : list string) (Syms : SymbolTable) (n : string) :
  (n ∈ l → getFragment (sym (foldr (placeSymbol F o) Syms l) n) = Some F ∧ getOffset (sym (foldr (placeSymbol F o) Syms l) n) = o) ∧
  (n ∉ l → sym (foldr (placeSymbol F o) Syms l) n = sym Syms n).
Proof.
  induction l as [| m l [IH1 IH2]]; cbn [foldr]; [split; [intros H; apply elem_of_nil in H as [] | reflexivity] |].
  unfold placeSymbol at 1 3 5. rewrite !sym_insert. destruct (decide (m = n)) as [-> | Hn].
  - split; [auto | intros H; destruct H; left].
  - split; [intros H; apply elem_of_cons in H as [-> | H]; [destruct Hn; reflexivity | exact (IH1 H)] |].
    intros H. apply not_elem_of_cons in H as [_ H]. exact (IH2 H).
Qed.

Lemma flushPendingLabels_steps (s i : nat) (o : Z) (st : Streamer) :
  place_ok (StSections st) s i o → steps st (flushPendingLabels (s, Some i) o st).
Proof.
  intros Hp (H1 & H2 & H3). split; [split; [exact H1 | split] | split].
  - cbn. intros n. destruct (foldr_placeSymbol (s, Some i) o (PendingLabels st) (StSymbols st) n) as [HI HN].
    split; [intros Hn; apply elem_of_nil in Hn as [] |]. intros [k Hk]. exfalso.
    destruct (decide (n ∈ PendingLabels st)) as [Hi | Hi]; [rewrite (proj1 (HI Hi)) in Hk; discriminate Hk |].
    rewrite (HN Hi) in Hk. apply Hi, H2. eauto.
  - cbn. intros n k j. destruct (foldr_placeSymbol (s, Some i) o (PendingLabels st) (StSymbols st) n) as [HI HN].
    destruct (decide (n ∈ PendingLabels st)) as [Hi | Hi].
    + destruct (HI Hi) as [-> ->]. intros [= <- <-]. exact Hp.
    + rewrite (HN Hi). apply H3.
  - intros s' Sec Hs. exists Sec. split; [exact Hs | reflexivity].
  - intros n k j Hn. cbn. destruct (foldr_placeSymbol (s, Some i) o (PendingLabels st) (StSymbols st) n) as [_ HN].
    rewrite HN; [auto |]. intros Hi. apply H2 in Hi as (k' & Hk). congruence.
Qed.

Lemma setSection_steps (s : nat) (Sec Sec' : MCSection) (st : Streamer) :
  StSections st !! s = Some Sec → section_ext Sec Sec' → Forall fragment_ok (FragmentList Sec') → steps st (setSection s Sec' st).
Proof.
  intros Hs HE HF (H1 & H2 & H3). split; [split; [| split; [exact H2 |]] | split; [| intros n k i Hn; auto]].
  - cbn. apply Forall_insert; assumption.
  - cbn. intros n k i Hn. destruct (H3 n k i Hn) as (Sec0 & F & HS & HF0 & Ho). destruct (decide (s = k)) as [<- | Hne].
    + rewrite Hs in HS. injection HS as <-. destruct HE as (_ & _ & HE). destruct (HE i F HF0) as (F' & HF' & HE').
      exists Sec', F'. rewrite list_lookup_insert_eq by (eapply lookup_lt_Some; exact Hs). split; [reflexivity |]. split; [exact HF' |].
      apply fragment_ext_size in HE'. lia.
    + exists Sec0, F. rewrite list_lookup_insert_ne by exact Hne. auto.
  - intros s' Sec0 Hs'. cbn. destruct (decide (s = s')) as [<- | Hn].
    + exists Sec'. rewrite list_lookup_insert_eq by (eapply lookup_lt_Some; exact Hs). split; [reflexivity |]. congruence.
    + exists Sec0. rewrite list_lookup_insert_ne by exact Hn. split; [exact Hs' | reflexivity].
Qed.

Lemma getCurrentSection_inv (st : Streamer) (s : nat) (Sec : MCSection) :
  getCurrentSection st = Ret (s, Sec) → CurrentSection st = Some s ∧ StSections st !! s = Some Sec.
Proof.
  unfold getCurrentSection. destruct (CurrentSection st) as [s' |]; [| discriminate].
  destruct (StSections st !! s') as [Sec' |] eqn:E; [| discriminate]. intros [= -> ->]. auto.
Qed.

Lemma getCurrentSection_intro (st : Streamer) (s : nat) (Sec : MCSection) :
  CurrentSection st = Some s → StSections st !! s = Some Sec → getCurrentSection st = Ret (s, Sec).
Proof. unfold getCurrentSection. intros -> ->. reflexivity. Qed.

Lemma section_ext_snoc (Sec : MCSection) (F : MCFragment) : section_ext Sec (withFragments (FragmentList Sec ++ [F]) Sec).
Proof.
  split; [reflexivity |]. split; [reflexivity |]. intros i F' H. exists F'. split; [| reflexivity]. cbn. apply lookup_app_l_Some. exact H.
Qed.

(** The current section and the fragment an insertion leaves. *)
Lemma insert_fragment_inv (F : MCFragment) (st st' : Streamer) :
  insert_fragment F st = Ret st' → ∃ s Sec, getCurrentSection st = Ret (s, Sec) ∧
    st' = setSection s (withFragments (FragmentList Sec ++ [F]) Sec) (flushPendingLabels (s, Some (length (FragmentList Sec))) 0 st).
Proof. unfold insert_fragment. intros H. apply outcome_bind_Ret_inv in H as ([s Sec] & HC & H). injection H as <-. eauto. Qed.

Lemma insert_fragment_steps (F : MCFragment) (st st' : Streamer) :
  insert_fragment F st = Ret st' → fragment_ok F → steps st st'.
Proof.
  intros H HF. apply insert_fragment_inv in H as (s & Sec & HC & ->). apply getCurrentSection_inv in HC as [_ HS]. intros Hok.
  set (Sec' := withFragments (FragmentList Sec ++ [F]) Sec). set (st1 := setSection s Sec' st).
  assert (HS1 : steps st st1).
  { refine (setSection_steps s Sec _ st HS (section_ext_snoc Sec F) _). cbn. apply Forall_app.
    split; [destruct Hok as [H1 _]; exact (Forall_lookup_1 _ _ _ _ H1 HS) | constructor; [exact HF | constructor]]. }
  change (streamer_ok (flushPendingLabels (s, Some (length (FragmentList Sec))) 0 st1) ∧
          extends st (flushPendingLabels (s, Some (length (FragmentList Sec))) 0 st1)).
  refine ((_ : steps st _) Hok). etransitivity; [exact HS1 |]. apply flushPendingLabels_steps.
  exists Sec', F. split; [apply list_lookup_insert_eq; eapply lookup_lt_Some; exact HS |].
  split; [cbn; apply list_lookup_middle; reflexivity |]. destruct F; cbn; lia.
Qed.

Lemma empty_fragment_ok : fragment_ok (MCDataFragment [] []).
Proof. cbn. unfold fixups_ok. cbn. lia. Qed.

Lemma flushToNewFragment_steps (st st' : Streamer) : flushToNewFragment st = Ret st' → steps st st'.
Proof.
  unfold flushToNewFragment. destruct (PendingLabels st); intros H; [injection H as <-; reflexivity |].
  exact (insert_fragment_steps _ _ _ H empty_fragment_ok).
Qed.

(** Nothing is pending after it. *)
Lemma flushToNewFragment_pending (st st' : Streamer) : flushToNewFragment st = Ret st' → PendingLabels st' = [].
Proof.
  unfold flushToNewFragment. destruct (PendingLabels st) as [| n l] eqn:HP; intros H; [injection H as <-; exact HP |].
  apply insert_fragment_inv in H as (s & Sec & _ & ->). reflexivity.
Qed.

Lemma currentData_inv (Sec : MCSection) (i : nat) (C : list Z) (Fx : list MCFixup) :
  currentData Sec = Some (i, C, Fx) → FragmentList Sec !! i = Some (MCDataFragment C Fx) ∧ S i = length (FragmentList Sec).
Proof.
  unfold currentData. destruct (last (FragmentList Sec)) as [[C' Fx' | |] |] eqn:E; intros H; try discriminate H.
  injection H as <- <- <-. rewrite last_lookup in E. split; [rewrite Nat.sub_1_r; exact E |].
  apply lookup_lt_Some in E. lia.
Qed.

Lemma currentData_snoc (Sec : MCSection) (C : list Z) (Fx : list MCFixup) :
  currentData (withFragments (FragmentList Sec ++ [MCDataFragment C Fx]) Sec) = Some (length (FragmentList Sec), C, Fx).
Proof. unfold currentData. cbn. rewrite last_snoc, length_app. cbn. do 3 f_equal. lia. Qed.

(** After [getOrCreateDataFragment] the current fragment is a data fragment. *)
Lemma getOrCreateDataFragment_inv (st st' : Streamer) :
  getOrCreateDataFragment st = Ret st' → steps st st' ∧ CurrentSection st' = CurrentSection st ∧ StErrors st' = StErrors st ∧
  ∃ s Sec Sec' i C Fx, getCurrentSection st = Ret (s, Sec) ∧ getCurrentSection st' = Ret (s, Sec') ∧ currentData Sec' = Some (i, C, Fx) ∧
    ((currentData Sec = Some (i, C, Fx) ∧ st' = st) ∨
     (currentData Sec = None ∧ C = [] ∧ ∀ n, n ∈ PendingLabels st → getFragment (sym (StSymbols st') n) = Some (s, Some i) ∧
        getOffset (sym (StSymbols st') n) = 0)).
Proof.
  unfold getOrCreateDataFragment. intros H. apply outcome_bind_Ret_inv in H as ([s Sec] & HC & H).
  destruct (currentData Sec) as [[[i C] Fx] |] eqn:ED.
  - injection H as <-. split; [reflexivity |]. split; [reflexivity |]. split; [reflexivity |]. exists s, Sec, Sec, i, C, Fx. auto 10.
  - split; [exact (insert_fragment_steps _ _ _ H empty_fragment_ok) |].
    apply insert_fragment_inv in H as (s' & Sec0 & HC' & ->). rewrite HC in HC'. injection HC' as <- <-.
    destruct (getCurrentSection_inv _ _ _ HC) as [H1 H2]. split; [reflexivity |]. split; [reflexivity |].
    exists s, Sec, (withFragments (FragmentList Sec ++ [MCDataFragment [] []]) Sec), (length (FragmentList Sec)), [], [].
    split; [exact HC |]. split; [apply getCurrentSection_intro; [exact H1 |]; cbn; apply list_lookup_insert_eq; eapply lookup_lt_Some; exact H2 |].
    split; [apply currentData_snoc |]. right. split; [exact ED |]. split; [reflexivity |]. intros n Hn.
    exact (proj1 (foldr_placeSymbol (s, Some (length (FragmentList Sec))) 0 (PendingLabels st) (StSymbols st) n) Hn).
Qed.

(** Appending keeps the invariant when the new fixups are in the new bytes. *)
Lemma appendData_inv (bytes : list Z) (fx : list MCFixup) (st st' : Streamer) :
  appendData bytes fx st = Ret st' → ∃ s Sec i C Fx, getCurrentSection st = Ret (s, Sec) ∧ currentData Sec = Some (i, C, Fx) ∧
    st' = setSection s (withFragments (<[i := MCDataFragment (C ++ bytes) (Fx ++ fx)]> (FragmentList Sec)) Sec) st ∧
    (spaced (Z.of_nat (length C)) (Z.of_nat (length (C ++ bytes))) (map fixup_offset fx) → steps st st').
Proof.
  unfold appendData. intros H. apply outcome_bind_Ret_inv in H as ([s Sec] & HC & H).
  destruct (currentData Sec) as [[[i C] Fx] |] eqn:ED; [| discriminate H]. injection H as <-.
  exists s, Sec, i, C, Fx. split; [exact HC |]. split; [exact ED |]. split; [reflexivity |].
  apply getCurrentSection_inv in HC as [_ HS]. apply currentData_inv in ED as [HF Hi]. intros Hfx Hok.
  assert (HokF : Forall fragment_ok (FragmentList Sec)) by (destruct Hok as [H1 _]; exact (Forall_lookup_1 _ _ _ _ H1 HS)).
  refine (setSection_steps s Sec _ _ HS _ _ Hok); cbn.
  - split; [reflexivity |]. split; [reflexivity |]. cbn. intros j F Hj. destruct (decide (i = j)) as [<- | Hn].
    + eexists. rewrite list_lookup_insert_eq by lia. split; [reflexivity |]. rewrite HF in Hj. injection Hj as <-.
      exists bytes, fx. split; [reflexivity | exact Hfx].
    + exists F. rewrite list_lookup_insert_ne by exact Hn. split; [exact Hj | reflexivity].
  - apply Forall_insert; [exact HokF |]. pose proof (Forall_lookup_1 _ _ _ _ HokF HF) as Hok1. cbn in Hok1 |- *.
    unfold fixups_ok in *. rewrite map_app. exact (spaced_app _ _ _ _ _ Hok1 Hfx).
Qed.

Lemma insert_fragment_errors (F : MCFragment) (st st' : Streamer) : insert_fragment F st = Ret st' → StErrors st' = StErrors st.
Proof. intros H. apply insert_fragment_inv in H as (s & Sec & _ & ->). reflexivity. Qed.

Lemma appendData_errors (bytes : list Z) (fx : list MCFixup) (st st' : Streamer) :
  appendData bytes fx st = Ret st' → StErrors st' = StErrors st.
Proof. intros H. apply appendData_inv in H as (s & Sec & i & C & Fx & _ & _ & -> & _). reflexivity. Qed.

Lemma flushToNewFragment_errors (st st' : Streamer) : flushToNewFragment st = Ret st' → StErrors st' = StErrors st.
Proof. unfold flushToNewFragment. destruct (PendingLabels st); intros H; [injection H as <-; reflexivity | exact (insert_fragment_errors _ _ _ H)]. Qed.

Lemma dataFragment_inv (st st' : Streamer) : dataFragment st = Ret st' →
  steps st st' ∧ StErrors st' = StErrors st.
Proof.
  unfold dataFragment. intros H. apply outcome_bind_Ret_inv in H as (st1 & H1 & H).
  apply getOrCreateDataFragment_inv in H1 as (HS & _ & HE & _). apply outcome_bind_Ret_inv in H as ([s Sec] & HC & H).
  destruct (currentData Sec) as [[[i C] Fx] |] eqn:ED; [| discriminate H]. injection H as <-.
  split; [| exact HE]. etransitivity; [exact HS | apply flushPendingLabels_steps].
  apply getCurrentSection_inv in HC as [_ HC]. apply currentData_inv in ED as [ED _]. eexists _, _. split; [exact HC |].
  split; [exact ED |]. cbn. lia.
Qed.

Lemma EmitBytes_steps (Data : list Z) (st st' : Streamer) : EmitBytes Data st = Ret st' → steps st st' ∧ StErrors st' = StErrors st.
Proof.
  unfold EmitBytes. intros H. apply outcome_bind_Ret_inv in H as (st1 & H1 & H). apply dataFragment_inv in H1 as [HS HE].
  split; [| rewrite (appendData_errors _ _ _ _ H); exact HE]. etransitivity; [exact HS |].
  apply appendData_inv in H as (s & Sec & i & C & Fx & _ & _ & _ & HA). apply HA. cbn. rewrite length_app. lia.
Qed.

Lemma EmitIntValue_steps (Value Size : Z) (st st' : Streamer) : EmitIntValue Value Size st = Ret st' → steps st st' ∧ StErrors st' = StErrors st.
Proof.
  unfold EmitIntValue. intros H. inv_ret. exact (EmitBytes_steps _ _ _ H).
Qed.

(** The values whose fixup, if they need one, fits in their bytes. *)
Definition value_ok (Value : MCExpr) (Size : Z) : bool :=
  match Value with MCConstantExpr _ => true | _ => 4 <=? Size end.

Lemma reportError_steps (msg : string) (st : Streamer) : steps st (reportError msg st).
Proof.
  intros Hok. split; [exact Hok | split; [| intros m k i Hm; auto]]. intros s Sec Hs. exists Sec. split; [exact Hs | reflexivity].
Qed.

Lemma EmitValue_steps (Value : MCExpr) (Size : Z) (st st' : Streamer) : EmitValue Value Size st = Ret st' →
  (∃ l, StErrors st' = StErrors st ++ l) ∧ (value_ok Value Size = true → steps st st').
Proof.
  unfold EmitValue. intros H. apply outcome_bind_Ret_inv in H as (st1 & H1 & H). apply dataFragment_inv in H1 as [HS HE].
  assert (HS0 : steps st st1) by (etransitivity; [apply setSymbols_steps, visitUsedExpr_same | exact HS]). cbn in HE.
  apply outcome_bind_Ret_inv in H as ([AbsValue |] & HV & H).
  - apply outcome_bind_Ret_inv in H as (u & _ & H). apply outcome_bind_Ret_inv in H as (i & _ & H).
    destruct (_ && _).
    + injection H as <-. split; [exists ["value is out of range"%string]; cbn; rewrite HE; reflexivity |]. intros _.
      etransitivity; [exact HS0 | apply reportError_steps].
    + apply EmitIntValue_steps in H as [HS1 HE1]. split; [exists []; rewrite app_nil_r; congruence |]. intros _. etransitivity; eassumption.
  - apply outcome_bind_Ret_inv in H as ([s Sec] & HC & H). destruct (currentData Sec) as [[[i C] Fx] |] eqn:ED; [| discriminate H].
    apply outcome_bind_Ret_inv in H as (Kind & HK & H). split; [exists []; rewrite app_nil_r, (appendData_errors _ _ _ _ H); exact HE |].
    intros Hv. etransitivity; [exact HS0 |]. apply appendData_inv in H as (s' & Sec' & i' & C' & Fx' & HC' & ED' & _ & HA).
    rewrite HC in HC'. injection HC' as <- <-. rewrite ED in ED'. injection ED' as <- <- <-. apply HA.
    destruct Value; try discriminate HV; cbn in Hv; apply Z.leb_le in Hv; cbn; rewrite length_app, length_replicate; lia.
Qed.

Lemma EmitAlign_steps (ByteAlignment Value ValueSize Max : Z) (EmitNops : bool) (st st' : Streamer) :
  EmitAlign ByteAlignment Value ValueSize Max EmitNops st = Ret st' → steps st st' ∧ StErrors st' = StErrors st.
Proof.
  unfold EmitAlign. intros H. apply outcome_bind_Ret_inv in H as (st1 & H1 & H). pose proof (insert_fragment_errors _ _ _ H1) as HE.
  apply insert_fragment_steps in H1 as HS; [| exact I]. apply outcome_bind_Ret_inv in H as ([s Sec] & HC & H). injection H as <-.
  destruct (_ <? _); [| auto]. split; [| exact HE]. etransitivity; [exact HS |]. intros Hok.
  apply getCurrentSection_inv in HC as [_ HC]. refine (setSection_steps s Sec _ st1 HC _ _ Hok); cbn.
  - split; [reflexivity |]. split; [reflexivity |]. intros i F Hi. exists F. split; [exact Hi | reflexivity].
  - destruct Hok as [Hok _]. exact (Forall_lookup_1 _ _ _ _ Hok HC).
Qed.

Lemma emitFill_steps (n : nat) (v : Z) (st st' : Streamer) : emitFill n v st = Ret st' → steps st st' ∧ StErrors st' = StErrors st.
Proof.
  unfold emitFill. intros H. apply outcome_bind_Ret_inv in H as (st1 & H1 & H). apply dataFragment_inv in H1 as [HS HE].
  split; [| rewrite (insert_fragment_errors _ _ _ H); exact HE]. etransitivity; [exact HS | exact (insert_fragment_steps _ _ _ H I)].
Qed.

(** A symbol not in a fragment yet may be given one. *)
Lemma insert_symbol_ext (Syms : SymbolTable) (n : string) (Sy : MCSymbol) :
  (∀ k i, getFragment (sym Syms n) ≠ Some (k, Some i)) → symbols_ext Syms (<[n := Sy]> Syms).
Proof.
  intros Hn m k i Hm. rewrite sym_insert. destruct (decide (n = m)) as [-> | _]; [destruct (Hn k i Hm) | auto].
Qed.

Lemma createSection_steps (Name : string) (Flags : Z) (st : Streamer) :
  (∃ l, StErrors (createSection Name Flags st) = StErrors st ++ l) ∧
  (StErrors (createSection Name Flags st) = [] → steps st (createSection Name Flags st)).
Proof.
  unfold createSection. destruct (isUndefined (getOrCreateSymbol (StSymbols st) Name)) eqn:Hu.
  2: { split; [eexists; reflexivity |]. cbn. intros H. apply app_eq_nil in H as [_ H]. discriminate H. }
  split; [exists []; cbn; rewrite app_nil_r; reflexivity |]. intros _ (H1 & H2 & H3).
  unfold isUndefined in Hu. apply bool_decide_eq_true in Hu. change (getFragment (sym (StSymbols st) Name) = None) in Hu.
  split; [split; [| split] | split]; cbn.
  - apply Forall_app. split; [exact H1 |]. constructor; [| constructor]. cbn. constructor; [exact empty_fragment_ok | constructor].
  - intros n. rewrite H2, sym_insert. destruct (decide (Name = n)) as [-> | _]; [| reflexivity].
    split; intros [k Hk]; [congruence | discriminate Hk].
  - intros n k i. rewrite sym_insert. destruct (decide (Name = n)) as [-> | _].
    + intros [= <- <-]. eexists _, _. split; [apply list_lookup_middle; reflexivity |]. split; [reflexivity | cbn; lia].
    + intros Hn. destruct (H3 n k i Hn) as (Sec & F & HS & HF & Ho). exists Sec, F. split; [apply lookup_app_l_Some; exact HS | auto].
  - intros s Sec Hs. exists Sec. split; [apply lookup_app_l_Some; exact Hs | reflexivity].
  - apply insert_symbol_ext. intros k i. congruence.
Qed.

Lemma SwitchSection_steps (Name : string) (Flags : Z) (st st' : Streamer) :
  SwitchSection Name Flags st = Ret st' → (∃ l, StErrors st' = StErrors st ++ l) ∧ (StErrors st' = [] → steps st st').
Proof.
  unfold SwitchSection. set (st1 := match findSection Name 0 (StSections st) with Some _ => st | None => createSection Name Flags st end).
  assert (HC : (∃ l, StErrors st1 = StErrors st ++ l) ∧ (StErrors st1 = [] → steps st st1)).
  { unfold st1. destruct (findSection _ _ _); [| apply createSection_steps].
    split; [exists []; rewrite app_nil_r; reflexivity | intros _; reflexivity]. }
  destruct HC as [[l Hl] HS]. destruct (findSection Name 0 (StSections st1)) as [s |]; [| discriminate].
  destruct (decide _).
  - intros H. injection H as <-. split; [exists l; exact Hl | exact HS].
  - intros H. apply outcome_bind_Ret_inv in H as (st2 & HF & H). injection H as <-. cbn [StErrors].
    pose proof (flushToNewFragment_errors _ _ HF) as HE. split; [exists l; congruence |]. intros HN.
    etransitivity; [apply HS; congruence |]. etransitivity; [exact (flushToNewFragment_steps _ _ HF) |].
    intros Hok. split; [exact Hok | split; [| intros m k i Hm; auto]]. intros s' Sec Hs. exists Sec. split; [exact Hs | reflexivity].
Qed.

Lemma EmitSymbolAttribute_steps (Name : string) (b : Binding) (st st' : Streamer) :
  EmitSymbolAttribute Name b st = Ret st' → steps st st' ∧ StErrors st' = StErrors st.
Proof.
  unfold EmitSymbolAttribute. intros H. injection H as <-. split; [| reflexivity]. apply setSymbols_steps. intros n.
  rewrite sym_insert. destruct (decide (Name = n)) as [-> |]; auto.
Qed.

(** The place the next byte of the section goes to: the end of the current data
    fragment, or, for a pending label, a fragment still to be made. *)
Definition label_here (st : Streamer) (L : string) : Prop :=
  ∃ s Sec, getCurrentSection st = Ret (s, Sec) ∧
    match currentData Sec with
    | Some (i, C, _) => getFragment (sym (StSymbols st) L) = Some (s, Some i) ∧ getOffset (sym (StSymbols st) L) = Z.of_nat (length C)
    | None => L ∈ PendingLabels st
    end.

Lemma EmitLabel_inv (Name : string) (st st' : Streamer) : EmitLabel Name st = Ret st' →
  (∃ l, StErrors st' = StErrors st ++ l) ∧
  (StErrors st' = [] → getFragment (sym (StSymbols st) Name) = None ∧ steps st st' ∧ label_here st' Name ∧
     ∀ L, label_here st L → label_here st' L).
Proof.
  unfold EmitLabel. change (getOrCreateSymbol (StSymbols st) Name) with (sym (StSymbols st) Name). intros H.
  apply outcome_bind_Ret_inv in H as (st1 & H1 & H). apply outcome_bind_Ret_inv in H as ([s Sec] & HC & H).
  destruct (isUndefined (sym (StSymbols st) Name)) eqn:Hu.
  2: { injection H1 as <-. assert (HE : ∃ l, StErrors st' = (StErrors st ++ ["invalid symbol redefinition"%string]) ++ l).
       { exists []. rewrite app_nil_r. destruct (currentData Sec) as [[[i C] Fx] |]; injection H as <-; reflexivity. }
       destruct HE as [l HE]. rewrite HE. split; [rewrite <- app_assoc; eauto |]. intros HN.
       apply app_eq_nil in HN as [HN _]. apply app_eq_nil in HN as [_ HN]. discriminate HN. }
  unfold isUndefined in Hu. apply bool_decide_eq_true in Hu.
  apply outcome_bind_Ret_inv in H1 as ([s0 Sec0] & HC0 & H1). injection H1 as <-.
  assert (HC1 : getCurrentSection st = Ret (s, Sec)) by exact HC. rewrite HC0 in HC1. injection HC1 as -> ->. clear HC0.
  split; [exists []; rewrite app_nil_r; destruct (currentData Sec) as [[[i C] Fx] |]; injection H as <-; reflexivity |]. intros _.
  split; [exact Hu |].
  destruct (currentData Sec) as [[[i C] Fx] |] eqn:ED; injection H as <-; cbn.
  - split; [| split].
    + intros (H1 & H2 & H3). split; [split; [exact H1 | split] | split].
      2: { cbn. intros n k j. unfold placeSymbol. rewrite !sym_insert. destruct (decide (Name = n)) as [-> | _]; [| apply H3].
           intros [= <- <-]. apply getCurrentSection_inv in HC as [_ HC]. apply currentData_inv in ED as [ED _].
           eexists _, _. split; [exact HC |]. split; [exact ED |]. cbn. lia. }
      * cbn. intros n. rewrite H2. unfold placeSymbol. rewrite !sym_insert. destruct (decide (Name = n)) as [-> | _]; [| reflexivity].
        split; intros [k Hk]; [congruence | discriminate Hk].
      * intros s' Sec' Hs. exists Sec'. split; [exact Hs | reflexivity].
      * intros n k j Hn. cbn. unfold placeSymbol. rewrite !sym_insert. destruct (decide (Name = n)) as [-> | _]; [congruence | auto].
    + exists s, Sec. split; [exact HC |]. rewrite ED. cbn. unfold placeSymbol. rewrite !sym_insert, decide_True by reflexivity. auto.
    + intros L (s' & Sec' & HC' & HL). exists s', Sec'. split; [exact HC' |].
      assert (HC'' : getCurrentSection st = Ret (s, Sec)) by exact HC. rewrite HC' in HC''. injection HC'' as -> ->. rewrite ED in *.
      cbn. unfold placeSymbol. rewrite !sym_insert. destruct (decide (Name = L)) as [-> | _]; [destruct HL; congruence | exact HL].
  - split; [| split].
    + intros (H1 & H2 & H3). split; [split; [exact H1 | split] | split].
      2: { cbn. intros n k j. rewrite sym_insert. destruct (decide (Name = n)) as [-> | _]; [discriminate | apply H3]. }
      * cbn. intros n. rewrite sym_insert, elem_of_app, list_elem_of_singleton. destruct (decide (Name = n)) as [-> | Hne].
        -- split; [eexists; reflexivity | auto].
        -- rewrite H2. split; [intros [Hn | Hn]; [exact Hn | congruence] | auto].
      * intros s' Sec' Hs. exists Sec'. split; [exact Hs | reflexivity].
      * apply insert_symbol_ext. intros k j. congruence.
    + exists s, Sec. split; [exact HC |]. rewrite ED. cbn. apply elem_of_app. right. left.
    + intros L (s' & Sec' & HC' & HL). exists s', Sec'. split; [exact HC' |].
      assert (HC'' : getCurrentSection st = Ret (s, Sec)) by exact HC. rewrite HC' in HC''. injection HC'' as -> ->. rewrite ED in *.
      cbn. apply elem_of_app. left. exact HL.
Qed.

Section Emission.
Context (gen : MCInst → Fixups_t → outcome (Z * Fixups_t)).

(** The fixups of an instruction are in its bytes. *)
Definition instruction_ok (Inst : MCInst) : Prop :=
  match encodeInstruction gen Inst [] [] with Ret (Code, Fx) => fixups_ok Code Fx | _ => True end.

Definition op_ok (op : StreamerOp) : Prop :=
  match op with
  | OpInstruction Inst => instruction_ok Inst
  | OpValue Value Size => value_ok Value Size = true
  | _ => True
  end.

(** Where an instruction goes. *)
Lemma EmitInstruction_inv (Inst : MCInst) (st st' : Streamer) : EmitInstruction gen Inst st = Ret st' →
  StErrors st' = StErrors st ∧ ∃ Code Fx s Sec i C F, encodeInstruction gen Inst [] [] = Ret (Code, Fx) ∧
    StSections st' !! s = Some Sec ∧ FragmentList Sec !! i = Some (MCDataFragment (C ++ Code) (F ++ map (shiftFixup (length C)) Fx)) ∧
    (instruction_ok Inst → steps st st') ∧ (instruction_ok Inst → streamer_ok st → fixups_ok C F) ∧
    ∀ L, label_here st L → getFragment (sym (StSymbols st') L) = Some (s, Some i) ∧ getOffset (sym (StSymbols st') L) = Z.of_nat (length C).
Proof.
  unfold EmitInstruction. intros H. apply outcome_bind_Ret_inv in H as ([Code Fx] & HE & H).
  apply outcome_bind_Ret_inv in H as (st1 & H1 & H). apply outcome_bind_Ret_inv in H as ([s Sec] & HC & H).
  apply getOrCreateDataFragment_inv in H1 as (HS & _ & HEr & s0 & Sec0 & Sec1 & i & C & F & HC0 & HC1 & HD & HL).
  rewrite HC1 in HC. injection HC as <- <-. rewrite HD in H.
  split; [rewrite (appendData_errors _ _ _ _ H); exact HEr |].
  apply appendData_inv in H as (s' & Sec' & i' & C' & F' & HC' & HD' & -> & HA). rewrite HC1 in HC'. injection HC' as <- <-.
  rewrite HD in HD'. injection HD' as <- <- <-.
  assert (HS0 : steps st st1) by (etransitivity; [apply setSymbols_steps, visitOperands_same | exact HS]).
  destruct (getCurrentSection_inv _ _ _ HC1) as [_ HSec]. destruct (currentData_inv _ _ _ _ HD) as [HF Hi].
  exists Code, Fx, s0, (withFragments (<[i := MCDataFragment (C ++ Code) (F ++ map (shiftFixup (length C)) Fx)]> (FragmentList Sec1)) Sec1), i, C, F.
  split; [exact HE |]. split; [apply list_lookup_insert_eq; eapply lookup_lt_Some; exact HSec |].
  split; [apply list_lookup_insert_eq; lia |]. split; [| split].
  - intros Hok. etransitivity; [exact HS0 |]. apply HA. unfold instruction_ok in Hok. rewrite HE in Hok. unfold fixups_ok in Hok.
    replace (map fixup_offset (map (shiftFixup (length C)) Fx)) with (map (λ o, o + Z.of_nat (length C)) (map fixup_offset Fx))
      by (rewrite !map_map; reflexivity).
    rewrite length_app, Nat2Z.inj_add, (Z.add_comm (Z.of_nat (length C))). apply (spaced_shift (Z.of_nat (length C)) 0). exact Hok.
  - intros _ Hok. destruct (HS0 Hok) as [[H1 _] _]. exact (Forall_lookup_1 _ _ _ _ (Forall_lookup_1 _ _ _ _ H1 HSec) HF).
  - intros L (s' & Sec' & HC' & HLh). change (getCurrentSection st = Ret (s0, Sec0)) in HC0. rewrite HC' in HC0. injection HC0 as -> ->.
    cbn [setSection StSymbols]. destruct HL as [[HD0 ->] | (HD0 & -> & HL)].
    + rewrite HD0 in HLh. cbn. destruct (visitOperands_same Inst (StSymbols st) L) as [-> ->]. exact HLh.
    + rewrite HD0 in HLh. exact (HL L HLh).
Qed.

Lemma emit_steps (op : StreamerOp) (st st' : Streamer) : emit gen op st = Ret st' →
  (∃ l, StErrors st' = StErrors st ++ l) ∧ (StErrors st' = [] → op_ok op → steps st st').
Proof.
  assert (Hsame : ∀ P : Prop, P ∧ StErrors st' = StErrors st → (∃ l, StErrors st' = StErrors st ++ l) ∧ P).
  { intros P [HP ->]. split; [exists []; rewrite app_nil_r; reflexivity | exact HP]. }
  destruct op; cbn [emit op_ok]; intros H.
  - destruct (SwitchSection_steps _ _ _ _ H). tauto.
  - destruct (EmitLabel_inv _ _ _ H) as [HE HS]. split; [exact HE |]. intros HN _. destruct (HS HN) as (_ & ? & _). assumption.
  - apply EmitSymbolAttribute_steps in H. apply Hsame. tauto.
  - apply EmitInstruction_inv in H as (HE & Code & Fx & s & Sec & i & C & F & _ & _ & _ & HS & _). apply Hsame. tauto.
  - apply EmitBytes_steps in H. apply Hsame. tauto.
  - apply EmitValue_steps in H. tauto.
  - apply EmitAlign_steps in H. apply Hsame. tauto.
  - apply emitFill_steps in H. apply Hsame. tauto.
Qed.

Lemma emitAll_errors (ops : list StreamerOp) (st st' : Streamer) : emitAll gen ops st = Ret st' → ∃ l, StErrors st' = StErrors st ++ l.
Proof.
  revert st. induction ops as [| op ops IH]; cbn; intros st H; [injection H as <-; exists []; rewrite app_nil_r; reflexivity |].
  apply outcome_bind_Ret_inv in H as (st1 & H1 & H). destruct (emit_steps _ _ _ H1) as [[l1 E1] _]. destruct (IH _ H) as [l2 E2].
  exists (l1 ++ l2). rewrite E2, E1, app_assoc. reflexivity.
Qed.

Lemma emitAll_steps (ops : list StreamerOp) (st st' : Streamer) :
  emitAll gen ops st = Ret st' → StErrors st' = [] → Forall op_ok ops → steps st st'.
Proof.
  revert st. induction ops as [| op ops IH]; cbn; intros st H HN Hok; [injection H as <-; reflexivity |].
  apply outcome_bind_Ret_inv in H as (st1 & H1 & H). apply Forall_cons in Hok as [Hop Hok].
  destruct (emitAll_errors _ _ _ H) as [l E]. rewrite HN in E. symmetry in E. apply app_eq_nil in E as [E _].
  etransitivity; [exact (proj2 (emit_steps _ _ _ H1) E Hop) | exact (IH _ H HN Hok)].
Qed.

Lemma emitAll_app (ops ops' : list StreamerOp) (st st' : Streamer) :
  emitAll gen (ops ++ ops') st = Ret st' → ∃ st1, emitAll gen ops st = Ret st1 ∧ emitAll gen ops' st1 = Ret st'.
Proof.
  revert st. induction ops as [| op ops IH]; cbn; intros st H; [eauto |].
  apply outcome_bind_Ret_inv in H as (st1 & H1 & H). destruct (IH _ H) as (st2 & H2 & H3). exists st2. rewrite H1. auto.
Qed.

Lemma initStreamer_ok : streamer_ok initStreamer.
Proof. split; [constructor | split; [intros n; split; [intros Hn; apply elem_of_nil in Hn as [] | intros [k Hk]; discriminate Hk] | discriminate]]. Qed.
End Emission.

(** ** Properties *)

(** C9. What has been emitted stays.  A list of operations that ends without a
    message leaves a state in which the fixups of every fragment lie in its contents,
    in order and at least a word apart, every label placed in a fragment is inside it
    and the others are pending; and the state after any first part of the operations
    is extended by it: sections, fragments, their contents and fixups are only added
    to, and a label that was placed stays where it was. *)
Theorem emission_extends (gen : MCInst → Fixups_t → outcome (Z * Fixups_t)) (ops ops' : list StreamerOp) (st' : Streamer) :
  emitAll gen (ops ++ ops') initStreamer = Ret st' → StErrors st' = [] → Forall (op_ok gen) (ops ++ ops') →
  streamer_ok st' ∧ ∃ st, emitAll gen ops initStreamer = Ret st ∧ streamer_ok st ∧ extends st st'.
Proof.
  intros H HN Hops. apply emitAll_app in H as (st & H1 & H2). apply Forall_app in Hops as [Hops Hops'].
  destruct (emitAll_errors _ _ _ _ H2) as [l HE]. rewrite HN in HE. symmetry in HE. apply app_eq_nil in HE as [HE _].
  destruct (emitAll_steps _ _ _ _ H1 HE Hops initStreamer_ok) as [Hok _].
  destruct (emitAll_steps _ _ _ _ H2 HN Hops' Hok) as [Hok' HX]. split; [exact Hok' |]. exists st. auto.
Qed.

Definition one_word (MI : MCInst) (F : Fixups_t) : outcome (Z * Fixups_t) := Ret (7, F ++ [mkMCFixup 0 (MCSymbolRefExpr "f") FK_Data_4]).

Definition two_instructions : list StreamerOp :=
  [OpSection ".text" SHF_ALLOC; OpLabel "a"; OpInstruction (mkMCInst Nyuzi.B []); OpLabel "b"].

Example emission_extends_witness :
  ∃ st st', emitAll one_word (two_instructions ++ [OpInstruction (mkMCInst Nyuzi.B [])]) initStreamer = Ret st' ∧
    emitAll one_word two_instructions initStreamer = Ret st ∧ streamer_ok st' ∧ extends st st'.
Proof.
  assert (HR : match emitAll one_word (two_instructions ++ [OpInstruction (mkMCInst Nyuzi.B [])]) initStreamer with
               | Ret st => bool_decide (StErrors st = []) | _ => false end = true) by (vm_compute; reflexivity).
  destruct (emitAll one_word (two_instructions ++ _) initStreamer) as [st' | | | |] eqn:HE; try discriminate HR.
  apply bool_decide_eq_true in HR.
  destruct (emission_extends one_word two_instructions [OpInstruction (mkMCInst Nyuzi.B [])] st' HE HR) as (Hok & st & H1 & _ & HX).
  { repeat constructor; vm_compute; intuition discriminate. }
  exists st, st'. auto.
Defined.
