(* ===== verification/LldLink.v ===== *)
(** * LldLink: symbol resolution and relocation in the linker

    tools/lld/ELF: SymbolTable.cpp (addRegular, addUndefined), InputFiles.cpp
    (createSymbol), Relocations.cpp (scanReloc, addGotEntry), InputSection.cpp
    (getRelocTargetVA, relocateAlloc), Symbols.cpp (getVA), for a static link of
    objects without common, shared, lazy or thread-local symbols.  [Config->Pic]
    and [IsPreemptible] are false, and every section is kept.  The addresses of the
    input sections and of the GOT come from the layout (LldLayout.v) and are
    parameters here. *)
From S2P Require Import Prelude MathExtras NyuziTarget NyuziFixups NyuziLinker WordPatches MCExpressions MCAssembler.

(** ** Symbols *)

(** An input section: the index of its file and its index there. *)
Definition SectionId : Type := nat * nat.

(** [Defined] or [Undefined]. *)
Inductive SymbolKind : Type :=
  | DefinedKind (Section : SectionId) (Value : Z)
  | UndefinedKind.

Record LSymbol : Type := mkLSymbol { Kind : SymbolKind; LBinding : Binding }.

(** [SymbolTable::SymMap] *)
Definition SymMap : Type := gmap string LSymbol.

Definition isDefinedSymbol (Sy : LSymbol) : bool := match Kind Sy with DefinedKind _ _ => true | UndefinedKind => false end.

(** [SymbolTable::addUndefined] *)
Definition addUndefined (Name : string) (b : Binding) (Symtab : SymMap) : SymMap :=
  match Symtab !! Name with
  | None => <[Name := mkLSymbol UndefinedKind b]> Symtab
  | Some Sy =>
      if negb (isDefinedSymbol Sy) && negb (bool_decide (b = STB_WEAK)) then <[Name := mkLSymbol UndefinedKind b]> Symtab
      else Symtab
  end.

(** [compareDefined]: positive when the new definition wins, negative when it
    loses, zero for two strong definitions. *)
Definition compareDefined (Old : option LSymbol) (b : Binding) : Z :=
  match Old with
  | None => 1
  | Some Sy =>
      if negb (isDefinedSymbol Sy) then 1
      else if bool_decide (b = STB_WEAK) then -1
      else if bool_decide (LBinding Sy = STB_WEAK) then 1
      else 0
  end.

(** [SymbolTable::addRegular] *)
Definition addRegular (Name : string) (Value : Z) (b : Binding) (Section : SectionId) (Symtab : SymMap)
    : SymMap * list string :=
  let Cmp := compareDefined (Symtab !! Name) b in
  if 0 <? Cmp then (<[Name := mkLSymbol (DefinedKind Section Value) b]> Symtab, [])
  else if Cmp =? 0 then (Symtab, ["duplicate symbol"%string])
  else (Symtab, []).

(** [ObjFile::createSymbol] of file [f]; local symbols are not entered in the table. *)
Definition createSymbol (f : nat) (Name : string) (Sym : ObjSymbol) (Symtab : SymMap) : SymMap * list string :=
  match st_binding Sym with
  | STB_LOCAL => (Symtab, [])
  | b =>
      match st_shndx Sym with
      | None => (addUndefined Name b Symtab, [])
      | Some s => addRegular Name (st_value Sym) b (f, s) Symtab
      end
  end.

(** [initializeSymbols] *)
Fixpoint initializeSymbols (f : nat) (l : list (string * ObjSymbol)) (Symtab : SymMap) : SymMap * list string :=
  match l with
  | [] => (Symtab, [])
  | (Name, Sym) :: l =>
      let '(Symtab, Errs) := createSymbol f Name Sym Symtab in
      let '(Symtab, Errs') := initializeSymbols f l Symtab in
      (Symtab, Errs ++ Errs')
  end.

Fixpoint addFiles (f : nat) (files : list Object) (Symtab : SymMap) : SymMap * list string :=
  match files with
  | [] => (Symtab, [])
  | Obj :: files =>
      let '(Symtab, Errs) := initializeSymbols f (ObjSymbols Obj) Symtab in
      let '(Symtab, Errs') := addFiles (S f) files Symtab in
      (Symtab, Errs ++ Errs')
  end.

(** ** Relocations *)

(** The symbol a relocation refers to: the null symbol, the symbol of a section,
    a local symbol of a file, a symbol of the table. *)
Inductive SymRef : Type :=
  | NullSym
  | SectionSym (Section : SectionId)
  | LocalSym (f : nat) (Name : string)
  | GlobalSym (Name : string).

#[global] Instance SymRef_eq_dec : EqDecision SymRef.
Proof. solve_decision. Defined.

Definition findSymbol (Name : string) (Obj : Object) : option ObjSymbol :=
  snd <$> List.find (λ '(n, _), bool_decide (n = Name)) (ObjSymbols Obj).

Record Relocation : Type := mkRelocation {
  Expr : RelExpr;
  Type_ : Z;
  Offset : Z;
  Addend : Z;
  Sym : SymRef
}.

Section Link.
Variable files : list Object.
Variable Symtab : SymMap.
(** [OutSec->Addr + OutSecOff] of an input section *)
Variable SectionVA : SectionId → Z.

(** [ObjFile::getRelocTargetSym] *)
Definition getRelocTargetSym (f : nat) (Sy : RelSymbol) : outcome SymRef :=
  match Sy with
  | RelNull => Ret NullSym
  | RelSection s => Ret (SectionSym (f, s))
  | RelNamed Name =>
      match files !! f ≫= findSymbol Name with
      | None => UndefinedBehaviour "symbol index"
      | Some o => Ret (match st_binding o with STB_LOCAL => LocalSym f Name | _ => GlobalSym Name end)
      end
  end.

(** The symbol of a reference. *)
Definition lookupRef (Ref : SymRef) : LSymbol :=
  match Ref with
  | NullSym => mkLSymbol UndefinedKind STB_LOCAL
  | SectionSym sec => mkLSymbol (DefinedKind sec 0) STB_LOCAL
  | LocalSym f Name =>
      match files !! f ≫= findSymbol Name with
      | Some o =>
          mkLSymbol (match st_shndx o with Some s => DefinedKind (f, s) (st_value o) | None => UndefinedKind end) STB_LOCAL
      | None => mkLSymbol UndefinedKind STB_LOCAL
      end
  | GlobalSym Name => default (mkLSymbol UndefinedKind STB_GLOBAL) (Symtab !! Name)
  end.

(** [Symbol::getVA(Addend)], with [getSymVA]: the addend of a section symbol is part
    of the offset. *)
Definition getVA (Ref : SymRef) (Addend : Z) : Z :=
  match Kind (lookupRef Ref) with
  | DefinedKind sec Value =>
      match Ref with
      | SectionSym _ => u64 (SectionVA sec + u64 (Value + Addend))
      | _ => u64 (u64 (SectionVA sec + Value) + Addend)
      end
  | UndefinedKind => u64 Addend
  end.

(** The symbols with a slot in the GOT, in the order of their indices. *)
Definition GotEntries : Type := list SymRef.

Fixpoint gotIndex (Ref : SymRef) (Got : GotEntries) : option nat :=
  match Got with
  | [] => None
  | Ref' :: Got => if decide (Ref' = Ref) then Some O else S <$> gotIndex Ref Got
  end.

(** [Symbol::getGotOffset] *)
Definition getGotOffset (Got : GotEntries) (Ref : SymRef) : Z :=
  u32 (from_option Z.of_nat (u32 (-1)) (gotIndex Ref Got) * GotEntrySize Nyuzi_TargetInfo).

(** [maybeReportUndefined] *)
Definition maybeReportUndefined (Ref : SymRef) : bool :=
  let Sy := lookupRef Ref in
  if bool_decide (LBinding Sy = STB_LOCAL) || isDefinedSymbol Sy || bool_decide (LBinding Sy = STB_WEAK) then false else true.

(** [scanReloc]: the relocation to apply, if any, and the GOT. *)
Definition scanReloc (f : nat) (Rel : ELFRelocationEntry) (Got : GotEntries)
    : outcome (list Relocation * GotEntries * list string) :=
  getRelocTargetSym f (r_symbol Rel) ≫= λ Ref,
  if maybeReportUndefined Ref then Ret ([], Got, ["undefined symbol"%string])
  else
    getRelExpr (r_type Rel) ≫= λ E,
    let R := mkRelocation E (r_type Rel) (u32 (r_offset Rel)) (i32 (u32 (r_addend Rel))) Ref in
    let Got :=
      match E with
      | R_GOT_OFF => if bool_decide (gotIndex Ref Got = None) then Got ++ [Ref] else Got
      | R_ABS | R_PC => Got
      end in
    Ret ([R], Got, []).

Fixpoint scanRelocs (f : nat) (Rels : list ELFRelocationEntry) (Got : GotEntries)
    : outcome (list Relocation * GotEntries * list string) :=
  match Rels with
  | [] => Ret ([], Got, [])
  | Rel :: Rels =>
      scanReloc f Rel Got ≫= λ '(R, Got, Errs),
      scanRelocs f Rels Got ≫= λ '(Rs, Got, Errs'),
      Ret (R ++ Rs, Got, Errs ++ Errs')
  end.

(** Whether a section is in memory when the program runs. *)
Definition sectionAlloc (sec : ObjSection) : bool := has_flag (ObjFlags sec) SHF_ALLOC.

(** The relocations of the sections of a file; [forEachRelSec] leaves out the sections
    that are not in memory. *)
Fixpoint scanSections (f : nat) (secs : list ObjSection) (Got : GotEntries)
    : outcome (list (list Relocation) * GotEntries * list string) :=
  match secs with
  | [] => Ret ([], Got, [])
  | sec :: secs =>
      (if sectionAlloc sec then scanRelocs f (ObjRelocs sec) Got else Ret ([], Got, [])) ≫= λ '(Rs, Got, Errs),
      scanSections f secs Got ≫= λ '(rest, Got, Errs'),
      Ret (Rs :: rest, Got, Errs ++ Errs')
  end.

Fixpoint scanFiles (f : nat) (objs : list Object) (Got : GotEntries)
    : outcome (list (list (list Relocation)) * GotEntries * list string) :=
  match objs with
  | [] => Ret ([], Got, [])
  | Obj :: objs =>
      scanSections f (ObjSections Obj) Got ≫= λ '(Rs, Got, Errs),
      scanFiles (S f) objs Got ≫= λ '(rest, Got, Errs'),
      Ret (Rs :: rest, Got, Errs ++ Errs')
  end.

(** ** Application *)
Section Apply.
Variable Got : GotEntries.

(** [getRelocTargetVA(Type, A, P, Sym, Expr)] for the expressions of this target. *)
Definition getRelocTargetVA (A P : Z) (Ref : SymRef) (E : RelExpr) : Z :=
  match E with
  | R_ABS => getVA Ref A
  | R_PC => u64 (getVA Ref A - P)
  | R_GOT_OFF => u64 (getGotOffset Got Ref + A)
  end.

(** [InputSectionBase::relocateAlloc], for a section at address [VA]. *)
Fixpoint relocateAlloc (VA : Z) (Relocations : list Relocation) (Buf : list Z) : outcome (list Z * list string) :=
  match Relocations with
  | [] => Ret (Buf, [])
  | Rel :: Relocations =>
      let AddrLoc := u64 (VA + Offset Rel) in
      SignExtend64 (getRelocTargetVA (Addend Rel) AddrLoc (Sym Rel) (Expr Rel)) 32 ≫= λ TargetVA,
      relocateOne Buf (Z.to_nat (Offset Rel)) (Type_ Rel) (u64 TargetVA) ≫= λ '(Buf, Errs),
      relocateAlloc VA Relocations Buf ≫= λ '(Buf, Errs'),
      Ret (Buf, Errs ++ Errs')
  end.

(** [InputSection::relocateNonAlloc] of a section of file [f]: relative to the place
    means relative to the offset, and the first relocation for the GOT ends the work. *)
Fixpoint relocateNonAlloc (f : nat) (Rels : list ELFRelocationEntry) (Buf : list Z) : outcome (list Z * list string) :=
  match Rels with
  | [] => Ret (Buf, [])
  | Rel :: Rels =>
      let Off := u32 (r_offset Rel) in
      let A := i32 (u32 (r_addend Rel)) in
      getRelocTargetSym f (r_symbol Rel) ≫= λ Ref,
      getRelExpr (r_type Rel) ≫= λ E,
      match E with
      | R_GOT_OFF => Ret (Buf, ["has non-ABS relocation"%string])
      | R_ABS | R_PC =>
          SignExtend64 (getVA Ref (match E with R_PC => i64 (u64 (A - Off)) | _ => A end)) 32 ≫= λ V,
          relocateOne Buf (Z.to_nat Off) (r_type Rel) (u64 V) ≫= λ '(Buf, Errs),
          relocateNonAlloc f Rels Buf ≫= λ '(Buf, Errs'),
          Ret (Buf, Errs ++ Errs')
      end
  end.

(** [InputSectionBase::relocate] of every section of a file *)
Fixpoint writeSections (f s : nat) (secs : list ObjSection) (Rs : list (list Relocation))
    : outcome (list (list Z) * list string) :=
  match secs, Rs with
  | sec :: secs, R :: Rs =>
      (if sectionAlloc sec then relocateAlloc (SectionVA (f, s)) R (ObjData sec)
       else relocateNonAlloc f (ObjRelocs sec) (ObjData sec)) ≫= λ '(Buf, Errs),
      writeSections f (S s) secs Rs ≫= λ '(rest, Errs'),
      Ret (Buf :: rest, Errs ++ Errs')
  | _, _ => Ret ([], [])
  end.

Fixpoint writeFiles (f : nat) (objs : list Object) (Rs : list (list (list Relocation)))
    : outcome (list (list (list Z)) * list string) :=
  match objs, Rs with
  | Obj :: objs, R :: Rs =>
      writeSections f 0 (ObjSections Obj) R ≫= λ '(img, Errs),
      writeFiles (S f) objs Rs ≫= λ '(rest, Errs'),
      Ret (img :: rest, Errs ++ Errs')
  | _, _ => Ret ([], [])
  end.

(** The relocations [addGotEntry] makes, one for each slot. *)
Definition gotRelocations : list Relocation :=
  imap (λ i Ref, mkRelocation R_ABS (GotRel Nyuzi_TargetInfo) (Z.of_nat i * GotEntrySize Nyuzi_TargetInfo) 0 Ref) Got.
End Apply.
End Link.

(** The bytes of every section of every file and of the GOT; nothing is written
    after an error. *)
Record Image : Type := mkImage {
  ImageSections : list (list (list Z));
  ImageGot : list Z;
  GotSlots : GotEntries
}.

(** The symbols, the relocations of all sections and the GOT, which do not depend on
    addresses; none when there was a message. *)
Record Scan : Type := mkScan {
  ScanSymtab : SymMap;
  ScanRelocs : list (list (list Relocation));
  ScanGot : GotEntries
}.

Definition scanLink (files : list Object) : outcome (option Scan * list string) :=
  let '(Symtab, Errs) := addFiles 0 files ∅ in
  match Errs with
  | _ :: _ => Ret (None, Errs)
  | [] =>
      scanFiles files Symtab 0 files [] ≫= λ '(Rs, Got, Errs),
      Ret (match Errs with _ :: _ => None | [] => Some (mkScan Symtab Rs Got) end, Errs)
  end.

Definition applyLink (SectionVA : SectionId → Z) (GotVA : Z) (files : list Object) (Sc : Scan) : outcome (Image * list string) :=
  writeFiles files (ScanSymtab Sc) SectionVA (ScanGot Sc) 0 files (ScanRelocs Sc) ≫= λ '(imgs, Errs),
  relocateAlloc files (ScanSymtab Sc) SectionVA (ScanGot Sc) GotVA (gotRelocations (ScanGot Sc))
    (replicate (4 * length (ScanGot Sc)) 0) ≫= λ '(got, Errs'),
  Ret (mkImage imgs got (ScanGot Sc), Errs ++ Errs').

Definition link (SectionVA : SectionId → Z) (GotVA : Z) (files : list Object) : outcome (option Image * list string) :=
  scanLink files ≫= λ '(Sc, Errs),
  match Sc with
  | None => Ret (None, Errs)
  | Some Sc => applyLink SectionVA GotVA files Sc ≫= λ '(img, Errs), Ret (Some img, Errs)
  end.

(** ** Symbol resolution: specification

    What the files say of global symbols, in order, each entry as the symbol it
    would make. *)
Definition Entry : Type := string * LSymbol.

Definition file_entries (f : nat) (l : list (string * ObjSymbol)) : list Entry :=
  omap (λ '(Name, Sym),
    match st_binding Sym with
    | STB_LOCAL => None
    | b => Some (Name, mkLSymbol (match st_shndx Sym with Some s => DefinedKind (f, s) (st_value Sym) | None => UndefinedKind end) b)
    end) l.

Fixpoint all_entries (f : nat) (files : list Object) : list Entry :=
  match files with
  | [] => []
  | Obj :: files => file_entries f (ObjSymbols Obj) ++ all_entries (S f) files
  end.

Definition of_name (n : string) (es : list Entry) : list LSymbol :=
  omap (λ '(Name, Sy), if decide (Name = n) then Some Sy else None) es.

Definition is_weak (Sy : LSymbol) : bool := bool_decide (LBinding Sy = STB_WEAK).
Definition is_strong_definition (Sy : LSymbol) : bool := isDefinedSymbol Sy && negb (is_weak Sy).

(** The first strong definition of a name; else the first weak one; else the name is
    undefined, weakly when all references are weak. *)
Definition resolve (l : list LSymbol) : option LSymbol :=
  match List.filter is_strong_definition l, List.filter isDefinedSymbol l, l with
  | d :: _, _, _ => Some d
  | [], d :: _, _ => Some d
  | [], [], _ :: _ => Some (mkLSymbol UndefinedKind (if forallb is_weak l then STB_WEAK else STB_GLOBAL))
  | [], [], [] => None
  end.

Definition add_entry (e : Entry) (Symtab : SymMap) : SymMap * list string :=
  match Kind e.2 with
  | UndefinedKind => (addUndefined e.1 (LBinding e.2) Symtab, [])
  | DefinedKind sec v => addRegular e.1 v (LBinding e.2) sec Symtab
  end.

Fixpoint add_entries (es : list Entry) (Symtab : SymMap) : SymMap * list string :=
  match es with
  | [] => (Symtab, [])
  | e :: es => let '(T, E) := add_entry e Symtab in let '(T', E') := add_entries es T in (T', E ++ E')
  end.

Lemma add_entries_app (es es' : list Entry) (T : SymMap) :
  add_entries (es ++ es') T =
  let '(T1, E1) := add_entries es T in let '(T2, E2) := add_entries es' T1 in (T2, E1 ++ E2).
Proof.
  revert T. induction es as [| e es IH]; cbn; intros T; [destruct (add_entries es' T); reflexivity |].
  destruct (add_entry e T) as [T0 E0]. rewrite IH. destruct (add_entries es T0) as [T1 E1].
  destruct (add_entries es' T1) as [T2 E2]. rewrite app_assoc. reflexivity.
Qed.

Lemma initializeSymbols_entries (f : nat) (l : list (string * ObjSymbol)) (T : SymMap) :
  initializeSymbols f l T = add_entries (file_entries f l) T.
Proof.
  revert T. induction l as [| [Name Sym] l IH]; intros T; [reflexivity |]. cbn [initializeSymbols file_entries omap list_omap createSymbol].
  unfold createSymbol. destruct (st_binding Sym) eqn:Hb; cbn [add_entries add_entry fst snd Kind LBinding].
  - rewrite IH. destruct (add_entries _ T). reflexivity.
  - destruct (st_shndx Sym); cbn; [destruct (addRegular _ _ _ _ _) | ]; rewrite IH; reflexivity.
  - destruct (st_shndx Sym); cbn; [destruct (addRegular _ _ _ _ _) | ]; rewrite IH; reflexivity.
Qed.

Lemma addFiles_entries (f : nat) (files : list Object) (T : SymMap) : addFiles f files T = add_entries (all_entries f files) T.
Proof.
  revert f T. induction files as [| Obj files IH]; intros f T; [reflexivity |]. cbn [addFiles all_entries].
  rewrite add_entries_app, initializeSymbols_entries. destruct (add_entries (file_entries _ _) T) as [T1 E1]. rewrite IH. reflexivity.
Qed.

(** How one more entry of the name changes the resolution. *)
Definition resolve_step (Old : option LSymbol) (Sy : LSymbol) : option LSymbol :=
  if isDefinedSymbol Sy then if 0 <? compareDefined Old (LBinding Sy) then Some Sy else Old
  else match Old with
       | None => Some Sy
       | Some Old => if negb (isDefinedSymbol Old) && negb (is_weak Sy) then Some Sy else Some Old
       end.

Lemma resolve_snoc (l : list LSymbol) (Sy : LSymbol) : LBinding Sy ≠ STB_LOCAL →
  resolve (l ++ [Sy]) = resolve_step (resolve l) Sy.
Proof.
  intros Hb. unfold resolve, resolve_step, compareDefined. rewrite !List.filter_app, forallb_app.
  destruct (List.filter is_strong_definition l) as [| d ds] eqn:Es.
  - destruct (List.filter isDefinedSymbol l) as [| d ds] eqn:Ed.
    + destruct Sy as [[sec v |] b]; destruct b; try (exfalso; apply Hb; reflexivity); destruct l as [| x l]; cbn; try reflexivity;
        destruct (is_weak x && _); reflexivity.
    + assert (Hd : is_weak d = true ∧ isDefinedSymbol d = true).
      { assert (Hi : List.In d (List.filter isDefinedSymbol l)) by (rewrite Ed; left; reflexivity). apply filter_In in Hi as [Hi HD].
        split; [| exact HD]. destruct (is_weak d) eqn:Hw; [reflexivity |].
        assert (Hs : List.In d (List.filter is_strong_definition l)) by (apply filter_In; unfold is_strong_definition; rewrite HD, Hw; auto).
        rewrite Es in Hs. destruct Hs. }
      destruct Hd as [Hw HD]. rewrite HD. unfold is_weak in Hw. rewrite Hw.
      destruct Sy as [[sec v |] b]; destruct b; try (exfalso; apply Hb; reflexivity); destruct l; reflexivity.
  - assert (Hd : is_strong_definition d = true).
    { assert (Hi : List.In d (List.filter is_strong_definition l)) by (rewrite Es; left; reflexivity). apply filter_In in Hi as [_ Hi]. exact Hi. }
    unfold is_strong_definition in Hd. apply andb_prop in Hd as [HD Hw]. apply negb_true_iff in Hw. rewrite HD.
    unfold is_weak in Hw. rewrite Hw.
    destruct Sy as [[sec v |] b]; destruct b; try (exfalso; apply Hb; reflexivity); reflexivity.
Qed.

Lemma add_entry_step (e : Entry) (T : SymMap) (n : string) :
  (add_entry e T).1 !! n = if decide (e.1 = n) then resolve_step (T !! n) e.2 else T !! n.
Proof.
  destruct e as [Name [k b]]. unfold add_entry, resolve_step, addRegular, addUndefined, is_weak. cbn [fst snd Kind LBinding isDefinedSymbol].
  destruct k as [sec v |]; cbn [isDefinedSymbol Kind].
  - destruct (decide (Name = n)) as [-> | Hn].
    + destruct (0 <? _); [cbn; apply lookup_insert_eq |]. destruct (_ =? 0); reflexivity.
    + destruct (0 <? _); [cbn; apply lookup_insert_ne; exact Hn |]. destruct (_ =? 0); reflexivity.
  - destruct (decide (Name = n)) as [-> | Hn].
    + destruct (T !! n) as [Old |] eqn:HT; cbn; [destruct (_ && _); [apply lookup_insert_eq | exact HT] | apply lookup_insert_eq].
    + destruct (T !! Name); [destruct (_ && _) |]; cbn; try reflexivity; apply lookup_insert_ne; exact Hn.
Qed.

(** An entry is a duplicate when it is a strong definition of a name that has one. *)
Lemma add_entry_errors (e : Entry) (T : SymMap) :
  (add_entry e T).2 = [] ↔ (is_strong_definition e.2 = true → ∀ Old, T !! e.1 = Some Old → is_strong_definition Old = false).
Proof.
  destruct e as [Name [k b]]. unfold add_entry, is_strong_definition, addRegular, compareDefined, is_weak. cbn [fst snd Kind LBinding].
  destruct k as [sec v |]; cbn [isDefinedSymbol Kind]; [| split; [discriminate | reflexivity]].
  destruct (T !! Name) as [Old |]; [| cbn; split; [discriminate | reflexivity]].
  assert (HO : (∀ Old', Some Old = Some Old' → isDefinedSymbol Old' && negb (bool_decide (LBinding Old' = STB_WEAK)) = false) ↔
               isDefinedSymbol Old && negb (bool_decide (LBinding Old = STB_WEAK)) = false).
  { split; [intros H; exact (H Old eq_refl) | intros H Old' [= <-]; exact H]. }
  rewrite HO. clear HO. destruct (isDefinedSymbol Old), b, (bool_decide (LBinding Old = STB_WEAK)); cbn; split; intros H; auto;
    try discriminate H; try discriminate (H eq_refl).
Qed.

Lemma resolve_strong (l : list LSymbol) (Sy : LSymbol) :
  resolve l = Some Sy → is_strong_definition Sy = bool_decide (List.filter is_strong_definition l ≠ []).
Proof.
  unfold resolve. destruct (List.filter is_strong_definition l) as [| d ds] eqn:Es.
  - rewrite bool_decide_false by auto. destruct (List.filter isDefinedSymbol l) as [| d ds] eqn:Ed.
    + destruct l; [discriminate |]. intros [= <-]. reflexivity.
    + intros [= <-]. assert (Hi : List.In d (List.filter isDefinedSymbol l)) by (rewrite Ed; left; reflexivity). apply filter_In in Hi as [Hi _].
      destruct (is_strong_definition d) eqn:Hd; [| reflexivity].
      assert (Hs : List.In d (List.filter is_strong_definition l)) by (apply filter_In; auto). rewrite Es in Hs. destruct Hs.
  - intros [= <-]. rewrite bool_decide_true by discriminate.
    assert (Hi : List.In d (List.filter is_strong_definition l)) by (rewrite Es; left; reflexivity). apply filter_In in Hi as [_ Hi]. exact Hi.
Qed.

Lemma all_entries_binding (f : nat) (files : list Object) : Forall (λ e, LBinding e.2 ≠ STB_LOCAL) (all_entries f files).
Proof.
  revert f. induction files as [| Obj files IH]; intros f; cbn; [constructor |]. apply Forall_app. split; [| apply IH].
  induction (ObjSymbols Obj) as [| [Name Sym] l IHl]; cbn; [constructor |].
  destruct (st_binding Sym); cbn; [exact IHl | constructor; [discriminate | exact IHl] ..].
Qed.

(** The table after the entries, and when it was built without a message. *)
Lemma add_entries_resolve (es : list Entry) :
  Forall (λ e, LBinding e.2 ≠ STB_LOCAL) es →
  (∀ n, (add_entries es ∅).1 !! n = resolve (of_name n es)) ∧
  ((add_entries es ∅).2 = [] ↔ ∀ n, (length (List.filter is_strong_definition (of_name n es)) ≤ 1)%nat).
Proof.
  induction es as [| e es IH] using rev_ind; intros HF; [split; [intros n; apply lookup_empty | cbn; split; [lia | reflexivity]] |].
  apply Forall_app in HF as [HF He]. apply Forall_cons in He as [He _]. destruct (IH HF) as [HT HE].
  rewrite add_entries_app. destruct (add_entries es ∅) as [T E]. cbn [fst snd] in HT, HE. cbn [add_entries].
  pose proof (add_entry_step e T) as Hs. pose proof (add_entry_errors e T) as Hd.
  destruct (add_entry e T) as [T' E']. cbn [fst snd] in *.
  assert (Hof : ∀ n, of_name n (es ++ [e]) = of_name n es ++ if decide (e.1 = n) then [e.2] else []).
  { intros n. unfold of_name. rewrite omap_app. f_equal. destruct e as [m Sy]. cbn. destruct (decide (m = n)); reflexivity. }
  split.
  - intros n. rewrite Hs, Hof, HT. destruct (decide (e.1 = n)); [rewrite resolve_snoc by exact He; reflexivity | rewrite app_nil_r; reflexivity].
  - rewrite app_nil_r. split.
    + intros HN n. apply app_eq_nil in HN as [HN1 HN2]. rewrite Hof, List.filter_app, length_app.
      pose proof (proj1 HE HN1 n) as Hle. destruct (decide (e.1 = n)) as [<- |]; [| cbn; lia]. cbn.
      destruct (is_strong_definition e.2) eqn:Hst; [| cbn; lia]. cbn.
      assert (HZ : List.filter is_strong_definition (of_name e.1 es) = []); [| rewrite HZ; cbn; lia].
      destruct (resolve (of_name e.1 es)) as [Old |] eqn:HR.
      * pose proof (resolve_strong _ _ HR) as Hb. rewrite (proj1 Hd HN2 eq_refl Old) in Hb by (rewrite HT; exact HR).
        symmetry in Hb. apply bool_decide_eq_false in Hb. destruct (List.filter _ _); [reflexivity | destruct Hb; discriminate].
      * unfold resolve in HR. destruct (List.filter is_strong_definition (of_name e.1 es)); [reflexivity | discriminate HR].
    + intros HN. assert (HE0 : E = []).
      { apply HE. intros n. specialize (HN n). rewrite Hof, List.filter_app, length_app in HN. lia. }
      rewrite HE0. apply Hd. intros Hst Old HO. rewrite HT in HO. rewrite (resolve_strong _ _ HO).
      apply bool_decide_eq_false. intros Hne. specialize (HN e.1). rewrite Hof, List.filter_app, length_app in HN.
      rewrite decide_True in HN by reflexivity. cbn in HN. rewrite Hst in HN. cbn in HN.
      destruct (List.filter is_strong_definition (of_name e.1 es)); [apply Hne; reflexivity | cbn in HN; lia].
Qed.

(** ** Lemmas: relocations *)
Section Relocations.
Context (files : list Object) (Symtab : SymMap) (SectionVA : SectionId → Z).

(** A relocation entry of file [f] was scanned; the GOT has a slot if it needs one. *)
Definition scanned (f : nat) (Got : GotEntries) (Rel : ELFRelocationEntry) (R : Relocation) : Prop :=
  ∃ Ref E, getRelocTargetSym files f (r_symbol Rel) = Ret Ref ∧ getRelExpr (r_type Rel) = Ret E ∧
    R = mkRelocation E (r_type Rel) (u32 (r_offset Rel)) (i32 (u32 (r_addend Rel))) Ref ∧ (E = R_GOT_OFF → Ref ∈ Got).

Lemma gotIndex_None (Ref : SymRef) (Got : GotEntries) : gotIndex Ref Got = None → Ref ∉ Got.
Proof.
  induction Got as [| Ref' Got IH]; cbn; intros H; [apply not_elem_of_nil |].
  destruct (decide (Ref' = Ref)) as [-> | Hn]; [discriminate H |]. destruct (gotIndex Ref Got); [discriminate H |].
  apply not_elem_of_cons. split; [congruence | exact (IH eq_refl)].
Qed.

Lemma gotIndex_elem (Ref : SymRef) (Got : GotEntries) : Ref ∈ Got → ∃ k, gotIndex Ref Got = Some k ∧ Got !! k = Some Ref.
Proof.
  induction Got as [| Ref' Got IH]; intros H; [apply elem_of_nil in H as [] |]. cbn.
  destruct (decide (Ref' = Ref)) as [-> | Hn]; [exists 0%nat; auto |].
  apply elem_of_cons in H as [-> | H]; [destruct Hn; reflexivity |]. destruct (IH H) as (k & -> & Hk). exists (S k). auto.
Qed.

Lemma scanReloc_scanned (f : nat) (Rel : ELFRelocationEntry) (Got Got' : GotEntries) (R : list Relocation) :
  scanReloc files Symtab f Rel Got = Ret (R, Got', []) → Got `prefix_of` Got' ∧ ∃ R0, R = [R0] ∧ scanned f Got' Rel R0.
Proof.
  unfold scanReloc. intros H. apply outcome_bind_Ret_inv in H as (Ref & HT & H).
  destruct (maybeReportUndefined _ _ _); [discriminate H |]. apply outcome_bind_Ret_inv in H as (E & HE & H). injection H as <- <-.
  split; [destruct E; try reflexivity; case_bool_decide; [apply prefix_app_r |]; reflexivity |].
  eexists. split; [reflexivity |]. exists Ref, E. split; [exact HT |]. split; [exact HE |]. split; [reflexivity |].
  intros ->. case_bool_decide as Hg; [apply elem_of_app; right; left |].
  destruct (decide (Ref ∈ Got)) as [Hi | Hi]; [exact Hi |]. exfalso. apply Hg. clear - Hi.
  induction Got as [| Ref' Got IH]; [reflexivity |]. apply not_elem_of_cons in Hi as [Hn Hi]. cbn.
  rewrite decide_False by congruence. rewrite IH by exact Hi. reflexivity.
Qed.

Lemma scanned_mono (f : nat) (Got Got' : GotEntries) (Rel : ELFRelocationEntry) (R : Relocation) :
  Got `prefix_of` Got' → scanned f Got Rel R → scanned f Got' Rel R.
Proof.
  intros [k ->] (Ref & E & H1 & H2 & H3 & H4). exists Ref, E. split; [exact H1 |]. split; [exact H2 |]. split; [exact H3 |].
  intros HE. apply elem_of_app. left. exact (H4 HE).
Qed.

Lemma scanRelocs_scanned (f : nat) (Rels : list ELFRelocationEntry) (Got Got' : GotEntries) (Rs : list Relocation) :
  scanRelocs files Symtab f Rels Got = Ret (Rs, Got', []) → Got `prefix_of` Got' ∧ Forall2 (scanned f Got') Rels Rs.
Proof.
  revert Got Rs. induction Rels as [| Rel Rels IH]; cbn [scanRelocs]; intros Got Rs H.
  - injection H as <- <-. split; [reflexivity | constructor].
  - apply outcome_bind_Ret_inv in H as ([[R1 G1] E1] & HS & H). apply outcome_bind_Ret_inv in H as ([[R2 G2] E2] & HR & H).
    injection H as <- <- HE. apply app_eq_nil in HE as [-> ->]. apply scanReloc_scanned in HS as (HP & R0 & -> & HS).
    destruct (IH _ _ HR) as [HP' HF]. split; [etransitivity; eassumption |]. constructor; [exact (scanned_mono _ _ _ _ _ HP' HS) | exact HF].
Qed.

Lemma scanSections_scanned (f : nat) (secs : list ObjSection) (Got Got' : GotEntries) (Rs : list (list Relocation)) :
  scanSections files Symtab f secs Got = Ret (Rs, Got', []) →
  Got `prefix_of` Got' ∧ Forall2 (λ sec R, sectionAlloc sec = true → Forall2 (scanned f Got') (ObjRelocs sec) R) secs Rs.
Proof.
  revert Got Rs. induction secs as [| sec secs IH]; cbn [scanSections]; intros Got Rs H.
  - injection H as <- <-. split; [reflexivity | constructor].
  - apply outcome_bind_Ret_inv in H as ([[R1 G1] E1] & HS & H). apply outcome_bind_Ret_inv in H as ([[R2 G2] E2] & HR & H).
    injection H as <- <- HE. apply app_eq_nil in HE as [-> ->]. destruct (IH _ _ HR) as [HP' HF].
    destruct (sectionAlloc sec) eqn:EA.
    + apply scanRelocs_scanned in HS as (HP & HS). split; [etransitivity; eassumption |]. constructor; [| exact HF].
      intros _. eapply Forall2_impl; [exact HS |]. intros Rel R. apply scanned_mono. exact HP'.
    + injection HS as <- <-. split; [exact HP' |]. constructor; [rewrite EA; discriminate | exact HF].
Qed.

Lemma scanFiles_scanned (f : nat) (objs : list Object) (Got Got' : GotEntries) (Rs : list (list (list Relocation))) :
  scanFiles files Symtab f objs Got = Ret (Rs, Got', []) →
  Got `prefix_of` Got' ∧ ∀ k Obj, objs !! k = Some Obj → ∃ R, Rs !! k = Some R ∧
    Forall2 (λ sec R, sectionAlloc sec = true → Forall2 (scanned (f + k)%nat Got') (ObjRelocs sec) R) (ObjSections Obj) R.
Proof.
  revert f Got Rs. induction objs as [| Obj objs IH]; cbn [scanFiles]; intros f Got Rs H.
  - injection H as <- <-. split; [reflexivity | discriminate].
  - apply outcome_bind_Ret_inv in H as ([[R1 G1] E1] & HS & H). apply outcome_bind_Ret_inv in H as ([[R2 G2] E2] & HR & H).
    injection H as <- <- HE. apply app_eq_nil in HE as [-> ->]. apply scanSections_scanned in HS as (HP & HS).
    destruct (IH _ _ _ HR) as [HP' HF]. split; [etransitivity; eassumption |]. intros [| k] O' Hk.
    + injection Hk as <-. exists R1. split; [reflexivity |]. rewrite Nat.add_0_r. eapply Forall2_impl; [exact HS |]. cbn.
      intros sec R HR' HA. eapply Forall2_impl; [exact (HR' HA) |]. intros Rel R'. apply scanned_mono. exact HP'.
    + rewrite <- Nat.add_succ_comm. exact (HF k O' Hk).
Qed.

(** The value of a relocation at address [P], and what it does to its word. *)
Definition target_value (Got : GotEntries) (P : Z) (R : Relocation) : Z :=
  u64 (i32 (getRelocTargetVA files Symtab SectionVA Got (Addend R) (u64 P) (Sym R) (Expr R))).

Definition reloc_patch (Got : GotEntries) (VA : Z) (R : Relocation) : patch :=
  (Z.to_nat (Offset R), reloc_word (Type_ R) (target_value Got (VA + Offset R) R)).

Lemma write32le_length (Buf Buf' : list Z) (Loc : nat) (V : Z) : write32le Buf Loc V = Ret Buf' → length Buf' = length Buf.
Proof.
  unfold write32le. destruct (decide _) as [H |]; [| discriminate]. intros E. injection E as <-.
  apply length_write_at. exact H.
Qed.

Lemma relocateOne_length (Buf Buf' : list Z) (Loc : nat) (T V : Z) (Errs : list string) :
  relocateOne Buf Loc T V = Ret (Buf', Errs) → length Buf' = length Buf.
Proof.
  assert (HA : ∀ SIZE BASE B B' V', applyNyuziReloc SIZE BASE B Loc V' = Ret B' → length B' = length B)
    by (unfold applyNyuziReloc; intros SIZE BASE B B' V' H; inv_ret; eapply write32le_length; eassumption).
  unfold relocateOne. intros H. repeat case_match; inv_ret; try (eapply HA; eassumption); try (eapply write32le_length; eassumption).
  etransitivity; eapply HA; eassumption.
Qed.

(** Relocating a section does not change its size. *)
Lemma relocateAlloc_length (Got : GotEntries) (VA : Z) (Rs : list Relocation) (Buf Buf' : list Z) (Errs : list string) :
  relocateAlloc files Symtab SectionVA Got VA Rs Buf = Ret (Buf', Errs) → length Buf' = length Buf.
Proof.
  revert Buf Errs. induction Rs as [| R Rs IH]; cbn [relocateAlloc]; intros Buf Errs H; [injection H as <- _; reflexivity |].
  apply outcome_bind_Ret_inv in H as (T & _ & H). apply outcome_bind_Ret_inv in H as ([B1 E1] & H1 & H).
  apply outcome_bind_Ret_inv in H as ([B2 E2] & H2 & H). injection H as -> _. rewrite (IH _ _ H2). eapply relocateOne_length, H1.
Qed.

Lemma relocateNonAlloc_length (f : nat) (Rels : list ELFRelocationEntry) (Buf Buf' : list Z) (Errs : list string) :
  relocateNonAlloc files Symtab SectionVA f Rels Buf = Ret (Buf', Errs) → length Buf' = length Buf.
Proof.
  revert Buf Errs. induction Rels as [| Rel Rels IH]; cbn [relocateNonAlloc]; intros Buf Errs H; [injection H as <- _; reflexivity |].
  cbv zeta in H. apply outcome_bind_Ret_inv in H as (Ref & _ & H). apply outcome_bind_Ret_inv in H as (E & _ & H).
  destruct E; [| | injection H as <- _; reflexivity];
    (apply outcome_bind_Ret_inv in H as (V & _ & H); apply outcome_bind_Ret_inv in H as ([B1 E1] & H1 & H);
     apply outcome_bind_Ret_inv in H as ([B2 E2] & H2 & H); injection H as -> _; rewrite (IH _ _ H2); eapply relocateOne_length, H1).
Qed.

Lemma relocateAlloc_patches (Got : GotEntries) (VA : Z) (Rs : list Relocation) (Buf Buf' : list Z) :
  relocateAlloc files Symtab SectionVA Got VA Rs Buf = Ret (Buf', []) →
  Forall (λ R, 0 ≤ Offset R ∧ Offset R + 4 ≤ Z.of_nat (length Buf) ∧ known_reloc (Type_ R) = true) Rs →
  Buf' = patch_all (map (reloc_patch Got VA) Rs) Buf ∧
  Forall (λ R, reloc_errors (Type_ R) (target_value Got (VA + Offset R) R) = []) Rs.
Proof.
  revert Buf. induction Rs as [| R Rs IH]; cbn [relocateAlloc]; intros Buf H HF; [injection H as <-; auto |].
  apply Forall_cons in HF as [(H0 & H4 & Hk) HF]. rewrite SignExtend64_sint, outcome_bind_ret in H by lia.
  fold (target_value Got (VA + Offset R) R) in H.
  rewrite relocateOne_word, outcome_bind_ret in H;
    [| exact Hk | unfold target_value; apply uint_range; lia | lia].
  apply outcome_bind_Ret_inv in H as ([B2 E2] & HR & H). injection H as -> HE. apply app_eq_nil in HE as [HE ->].
  destruct (IH _ HR) as [-> HEs]; [rewrite length_write_at by (rewrite length_le_bytes; lia); exact HF |].
  split; [reflexivity | constructor; assumption].
Qed.
End Relocations.

(** The relocations of a section are at the places of its events. *)
Lemma events_relocs (Q : Z → Prop) (evs : list Event) :
  Forall event_ok evs → Forall (λ E, Q E.1) evs → Forall (λ r, Q (r_offset r)) (concat (map snd evs)).
Proof.
  induction 1 as [| [P rs] evs HE _ IH]; intros HQ; cbn; [constructor |]. apply Forall_cons in HQ as [HQ HQs].
  apply Forall_app. split; [| exact (IH HQs)]. unfold event_ok in HE; cbn [fst snd] in HE; destruct HE as [-> | (r & -> & Hr)]; cbn in *; [constructor |].
  constructor; [rewrite Hr; exact HQ | constructor].
Qed.

Lemma events_spaced (lo hi : Z) (evs : list Event) :
  Forall event_ok evs → spaced lo hi (map fst evs) → spaced lo hi (map r_offset (concat (map snd evs))).
Proof.
  intros HE. revert lo. induction HE as [| [P rs] evs HE _ IH]; cbn; intros lo H; [exact H |]. destruct H as [H1 H2].
  unfold event_ok in HE; cbn [fst snd] in HE; destruct HE as [-> | (r & -> & Hr)]; cbn in *; [eapply spaced_weaken; [| reflexivity | exact (IH _ H2)]; lia |].
  rewrite Hr. split; [exact H1 | exact (IH _ H2)].
Qed.

Section Linked.
Context (files : list Object) (Symtab : SymMap) (SectionVA : SectionId → Z).
Context (f : nat) (Got : GotEntries) (VA : Z) (data buf : list Z) (evs : list Event) (Rs : list Relocation).
Hypothesis Hscan : Forall2 (scanned files f Got) (concat (map snd evs)) Rs.
Hypothesis Hrel : relocateAlloc files Symtab SectionVA Got VA Rs data = Ret (buf, []).
Hypothesis Hev : Forall event_ok evs.
Hypothesis Hsp : spaced 0 (Z.of_nat (length data)) (map fst evs).
Hypothesis Hsize : Z.of_nat (length data) < 2 ^ 32.

Lemma scanned_offset (Rel : ELFRelocationEntry) (R : Relocation) :
  scanned files f Got Rel R → 0 ≤ r_offset Rel < 2 ^ 32 → Offset R = r_offset Rel ∧ Type_ R = r_type Rel ∧ known_reloc (Type_ R) = true.
Proof.
  intros (Ref & E & _ & HE & -> & _) Hr. cbn. split; [apply uint_small; lia |]. split; [reflexivity |].
  unfold getRelExpr in HE. unfold known_reloc, R_NYUZI_ABS32, R_NYUZI_IMM_LO13, R_NYUZI_HI19, R_NYUZI_BRANCH20, R_NYUZI_BRANCH25, R_NYUZI_GOT in *.
  revert HE. generalize (r_type Rel) as T. intros T.
  destruct ((T =? 1) || (T =? 5) || (T =? 4)) eqn:E1; [lia |]. destruct ((T =? 2) || (T =? 3)) eqn:E2; [lia |].
  destruct (T =? 6) eqn:E3; [lia | intros HE; discriminate HE].
Qed.

Lemma linked_places : spaced 0 (Z.of_nat (length data)) (places (map (reloc_patch files Symtab SectionVA Got VA) Rs)) ∧
  Forall (λ R, 0 ≤ Offset R ∧ Offset R + 4 ≤ Z.of_nat (length data) ∧ known_reloc (Type_ R) = true) Rs ∧
  map Offset Rs = map r_offset (concat (map snd evs)).
Proof.
  pose proof (events_spaced _ _ _ Hev Hsp) as HS. clear Hrel Hev Hsp.
  assert (HF : Forall2 (λ Rel R, Offset R = r_offset Rel ∧ 0 ≤ Offset R ∧ Offset R + 4 ≤ Z.of_nat (length data) ∧ known_reloc (Type_ R) = true)
                 (concat (map snd evs)) Rs).
  { apply Forall2_lookup. intros i.
    destruct (concat (map snd evs) !! i) as [Rel |] eqn:E1.
    - destruct (Forall2_lookup_l _ _ _ _ _ Hscan E1) as (R & E2 & Hs). rewrite E2. constructor.
      assert (Hi : r_offset Rel ∈ map r_offset (concat (map snd evs))) by (apply list_elem_of_fmap; eauto using list_elem_of_lookup_2).
      apply (spaced_elem _ _ _ _ HS) in Hi. destruct (scanned_offset _ _ Hs ltac:(lia)) as (-> & _ & ?). repeat split; try lia; assumption.
    - apply lookup_ge_None in E1. rewrite (Forall2_length _ _ _ Hscan) in E1. apply lookup_ge_None in E1. rewrite E1. constructor. }
  assert (HO : map Offset Rs = map r_offset (concat (map snd evs))).
  { clear - HF. induction HF as [| Rel R l l' (H & _) _ IH]; cbn; [reflexivity | f_equal; assumption]. }
  split; [| split; [| exact HO]].
  - unfold places. rewrite map_map. cbn [reloc_patch fst].
    replace (map (λ R, Z.of_nat (Z.to_nat (Offset R))) Rs) with (map Offset Rs); [rewrite HO; exact HS |].
    clear - HF. induction HF as [| Rel R l l' (_ & H & _) _ IH]; cbn; [reflexivity | f_equal; [lia | assumption]].
  - clear - HF. induction HF as [| Rel R l l' (_ & H) _ IH]; constructor; assumption.
Qed.

(** A relocated word. *)
Lemma linked_word (P : Z) (r : ELFRelocationEntry) :
  (P, [r]) ∈ evs → r_offset r = P → ∃ R, scanned files f Got r R ∧
    word_at buf (Z.to_nat P)
    = u32 (reloc_word (r_type r) (target_value files Symtab SectionVA Got (VA + P) R) (word_at data (Z.to_nat P))) ∧
    known_reloc (r_type r) = true ∧ reloc_errors (r_type r) (target_value files Symtab SectionVA Got (VA + P) R) = [].
Proof.
  intros HP Hr. destruct linked_places as (HS & HF & HO).
  destruct (relocateAlloc_patches _ _ _ _ _ _ _ _ Hrel HF) as [-> HE].
  assert (Hin : r ∈ concat (map snd evs)).
  { apply list_elem_of_In, in_concat. exists [r]. split; [| left; reflexivity]. apply list_elem_of_In, list_elem_of_fmap. exists (P, [r]). split; [reflexivity | exact HP]. }
  destruct (list_elem_of_lookup_1 _ _ Hin) as (k & Hk). destruct (Forall2_lookup_l _ _ _ _ _ Hscan Hk) as (R & HR & Hs).
  exists R. split; [exact Hs |]. assert (HPr : 0 ≤ P ∧ P + 4 ≤ Z.of_nat (length data)).
  { apply (spaced_elem _ _ _ P Hsp). apply list_elem_of_fmap. exists (P, [r]). split; [reflexivity | exact HP]. }
  destruct (scanned_offset _ _ Hs ltac:(lia)) as (HOf & HT & Hk'). rewrite Hr in HOf.
  split; [| split; [congruence |]].
  - assert (Hl : map (reloc_patch files Symtab SectionVA Got VA) Rs !! k = Some (reloc_patch files Symtab SectionVA Got VA R))
      by (rewrite list_lookup_fmap, HR; reflexivity).
    unfold reloc_patch in Hl at 2. rewrite HOf, HT in Hl. exact (patch_all_spaced _ _ _ _ _ HS Hl).
  - rewrite Forall_lookup in HE. specialize (HE k R HR). rewrite HOf, HT in HE. exact HE.
Qed.

(** A word no relocation touches. *)
Lemma linked_other (p : nat) : Forall (λ E, gap p (Z.to_nat E.1)) evs → word_at buf p = word_at data p.
Proof.
  intros Hg. destruct linked_places as (HS & HF & HO).
  destruct (relocateAlloc_patches _ _ _ _ _ _ _ _ Hrel HF) as [-> _]. apply patch_all_outside; [apply spaced_in_range; exact HS |].
  apply (events_relocs (λ P, gap p (Z.to_nat P)) _ Hev) in Hg. rewrite <- (Forall_map r_offset (λ P, gap p (Z.to_nat P))) in Hg.
  rewrite <- HO in Hg. rewrite Forall_map in Hg. rewrite Forall_map. exact Hg.
Qed.

Lemma linked_resolved (P : Z) : (P, []) ∈ evs → word_at buf (Z.to_nat P) = word_at data (Z.to_nat P).
Proof.
  intros HP. destruct linked_places as (HS & HF & HO).
  destruct (relocateAlloc_patches _ _ _ _ _ _ _ _ Hrel HF) as [-> _]. apply patch_all_outside; [apply spaced_in_range; exact HS |].
  apply list_elem_of_split in HP as (l1 & l2 & El). rewrite El in Hsp, Hev, HO. rewrite map_app in Hsp. cbn in Hsp.
  apply spaced_gap in Hsp as [G1 G2]; [| lia]. apply Forall_app in Hev as [Hev1 Hev2]. apply Forall_cons in Hev2 as [_ Hev2].
  rewrite map_app, concat_app in HO. cbn in HO.
  assert (HG : Forall (λ o, gap (Z.to_nat P) (Z.to_nat o)) (map Offset Rs)).
  { rewrite HO, Forall_map. apply Forall_app. split.
    - apply (events_relocs (λ o, gap (Z.to_nat P) (Z.to_nat o)) _ Hev1). rewrite Forall_map in G1. exact G1.
    - apply (events_relocs (λ o, gap (Z.to_nat P) (Z.to_nat o)) _ Hev2). rewrite Forall_map in G2. exact G2. }
  rewrite Forall_map in HG. rewrite Forall_map. exact HG.
Qed.
End Linked.

(** ** Lemmas: the image *)

Lemma writeSections_written (files : list Object) (Symtab : SymMap) (SectionVA : SectionId → Z) (Got : GotEntries)
    (f s0 : nat) (secs : list ObjSection) (Rs : list (list Relocation)) (bufs : list (list Z)) :
  writeSections files Symtab SectionVA Got f s0 secs Rs = Ret (bufs, []) →
  ∀ s sec R, secs !! s = Some sec → Rs !! s = Some R → ∃ buf, bufs !! s = Some buf ∧ length buf = length (ObjData sec) ∧
    (sectionAlloc sec = true → relocateAlloc files Symtab SectionVA Got (SectionVA (f, (s0 + s)%nat)) R (ObjData sec) = Ret (buf, [])).
Proof.
  revert s0 Rs bufs. induction secs as [| sec0 secs IH]; intros s0 [| R0 Rs] bufs H s sec R Hs HR; try discriminate.
  cbn [writeSections] in H. apply outcome_bind_Ret_inv in H as ([buf E1] & HA & H).
  apply outcome_bind_Ret_inv in H as ([rest E2] & HW & H). injection H as <- HE. apply app_eq_nil in HE as [-> ->].
  destruct s as [| s].
  - injection Hs as <-. injection HR as <-. exists buf. split; [reflexivity |]. rewrite Nat.add_0_r. destruct (sectionAlloc sec0).
    + split; [exact (relocateAlloc_length _ _ _ _ _ _ _ _ _ HA) | intros _; exact HA].
    + split; [exact (relocateNonAlloc_length _ _ _ _ _ _ _ _ HA) | discriminate].
  - rewrite <- Nat.add_succ_comm. exact (IH _ _ _ HW s sec R Hs HR).
Qed.

Lemma writeFiles_written (files : list Object) (Symtab : SymMap) (SectionVA : SectionId → Z) (Got : GotEntries)
    (f0 : nat) (objs : list Object) (Rs : list (list (list Relocation))) (imgs : list (list (list Z))) :
  writeFiles files Symtab SectionVA Got f0 objs Rs = Ret (imgs, []) →
  ∀ f Obj R, objs !! f = Some Obj → Rs !! f = Some R → ∃ bufs, imgs !! f = Some bufs ∧
    writeSections files Symtab SectionVA Got (f0 + f)%nat 0 (ObjSections Obj) R = Ret (bufs, []).
Proof.
  revert f0 Rs imgs. induction objs as [| Obj0 objs IH]; intros f0 [| R0 Rs] imgs H f Obj R Hf HR; try discriminate.
  cbn [writeFiles] in H. apply outcome_bind_Ret_inv in H as ([bufs E1] & HA & H).
  apply outcome_bind_Ret_inv in H as ([rest E2] & HW & H). injection H as <- HE. apply app_eq_nil in HE as [-> ->].
  destruct f as [| f].
  - injection Hf as <-. injection HR as <-. exists bufs. split; [reflexivity |]. rewrite Nat.add_0_r. exact HA.
  - rewrite <- Nat.add_succ_comm. exact (IH _ _ _ HW f Obj R Hf HR).
Qed.

Lemma link_inv (SectionVA : SectionId → Z) (GotVA : Z) (files : list Object) (img : Image) :
  link SectionVA GotVA files = Ret (Some img, []) → ∃ Symtab, addFiles 0 files ∅ = (Symtab, []) ∧
    (∀ f Obj s sec, files !! f = Some Obj → ObjSections Obj !! s = Some sec → ∃ Rs bufs buf,
       ImageSections img !! f = Some bufs ∧ bufs !! s = Some buf ∧ length buf = length (ObjData sec) ∧
       (sectionAlloc sec = true → Forall2 (scanned files f (GotSlots img)) (ObjRelocs sec) Rs ∧
          relocateAlloc files Symtab SectionVA (GotSlots img) (SectionVA (f, s)) Rs (ObjData sec) = Ret (buf, []))) ∧
    relocateAlloc files Symtab SectionVA (GotSlots img) GotVA (gotRelocations (GotSlots img))
      (replicate (4 * length (GotSlots img)) 0) = Ret (ImageGot img, []).
Proof.
  unfold link, scanLink. intros H. destruct (addFiles 0 files ∅) as [Symtab [| ? ?]] eqn:HA; [| discriminate H].
  apply outcome_bind_Ret_inv in H as ([Sc Es] & HS & H). apply outcome_bind_Ret_inv in HS as ([[Rs Got] [| ? ?]] & HS & HE0);
    injection HE0 as <- <-; [| discriminate H].
  apply outcome_bind_Ret_inv in H as ([img' E] & H & HE1). injection HE1 as -> ->. unfold applyLink in H. cbn [ScanSymtab ScanRelocs ScanGot] in H.
  apply outcome_bind_Ret_inv in H as ([imgs E1] & HW & H). apply outcome_bind_Ret_inv in H as ([got E2] & HG & H).
  injection H as <- HE. apply app_eq_nil in HE as [-> ->]. exists Symtab. split; [reflexivity |]. cbn [GotSlots ImageGot ImageSections].
  split; [| exact HG]. intros f Obj s sec Hf Hs. apply scanFiles_scanned in HS as [_ HS].
  destruct (HS f Obj Hf) as (R & HR & HF). destruct (Forall2_lookup_l _ _ _ _ _ HF Hs) as (Rsec & HRs & HF').
  destruct (writeFiles_written _ _ _ _ _ _ _ _ HW f Obj R Hf HR) as (bufs & Hb & HWs).
  destruct (writeSections_written _ _ _ _ _ _ _ _ _ HWs s sec Rsec Hs HRs) as (buf & Hbuf & HLb & HR').
  exists Rsec, bufs, buf. split; [exact Hb |]. split; [exact Hbuf |]. split; [exact HLb |].
  intros HAl. split; [exact (HF' HAl) | exact (HR' HAl)].
Qed.

(** The places of the GOT slots. *)
Lemma spaced_slots (i n : nat) : spaced (4 * Z.of_nat i) (4 * Z.of_nat (i + n)) (map (λ k, 4 * Z.of_nat k) (seq i n)).
Proof.
  revert i. induction n as [| n IH]; intros i; cbn; [lia |]. split; [lia |].
  replace (4 * Z.of_nat i + 4) with (4 * Z.of_nat (S i)) by lia. rewrite Nat.add_succ_r. exact (IH (S i)).
Qed.

Lemma got_word (files : list Object) (Symtab : SymMap) (SectionVA : SectionId → Z) (Got : list SymRef) (GotVA : Z) (got : list Z)
    (k : nat) (Ref : SymRef) :
  relocateAlloc files Symtab SectionVA Got GotVA (gotRelocations Got) (replicate (4 * length Got) 0) = Ret (got, []) →
  Got !! k = Some Ref → word_at got (4 * k) = u32 (getVA files Symtab SectionVA Ref 0).
Proof.
  intros H Hk. set (Buf := replicate _ _) in H.
  assert (Hlen : length Buf = (4 * length Got)%nat) by apply length_replicate.
  assert (Hplaces : places (map (reloc_patch files Symtab SectionVA Got GotVA) (gotRelocations Got)) = map (λ k, 4 * Z.of_nat k) (seq 0 (length Got))).
  { apply list_eq. intros j. unfold places, gotRelocations. rewrite !list_lookup_fmap, list_lookup_imap.
    destruct (decide (j < length Got)%nat) as [Hj | Hj].
    - destruct (lookup_lt_is_Some_2 _ _ Hj) as [x Hx]. rewrite Hx, lookup_seq_lt by exact Hj. cbn. f_equal. lia.
    - rewrite (lookup_ge_None_2 Got) by lia. rewrite lookup_seq_ge by lia. reflexivity. }
  assert (Hsp : spaced 0 (Z.of_nat (length Buf)) (places (map (reloc_patch files Symtab SectionVA Got GotVA) (gotRelocations Got)))).
  { rewrite Hplaces, Hlen. eapply spaced_weaken; [| | exact (spaced_slots 0 (length Got))]; lia. }
  destruct (relocateAlloc_patches _ _ _ _ _ _ _ _ H) as [-> _].
  { apply Forall_lookup. intros j R Hj. unfold gotRelocations in Hj. rewrite list_lookup_imap in Hj.
    apply fmap_Some in Hj as (x & Hx & ->). apply lookup_lt_Some in Hx.
    cbn [Offset Type_]. rewrite Hlen. change (GotEntrySize Nyuzi_TargetInfo) with 4. repeat split; [lia | lia]. }
  assert (Hl : map (reloc_patch files Symtab SectionVA Got GotVA) (gotRelocations Got) !! k
               = Some (reloc_patch files Symtab SectionVA Got GotVA (mkRelocation R_ABS R_NYUZI_ABS32 (Z.of_nat k * 4) 0 Ref)))
    by (unfold gotRelocations; rewrite list_lookup_fmap, list_lookup_imap, Hk; reflexivity).
  unfold reloc_patch in Hl at 2. cbn [Offset Type_] in Hl. replace (Z.to_nat (Z.of_nat k * 4)) with (4 * k)%nat in Hl by lia.
  rewrite (patch_all_spaced _ _ _ _ _ Hsp Hl). unfold reloc_word. reloc_simpl. unfold target_value. cbn [getRelocTargetVA Addend Sym Expr].
  generalize (getVA files Symtab SectionVA Ref 0), (word_at Buf (4 * k)). intros v w. unfold setfield. bitwise.
Qed.

(** ** Properties *)

(** C6. Symbol resolution.  Adding the symbols of the files one by one leaves in the
    table, for every name, the first strong definition; without one the first weak
    definition; without a definition an undefined symbol, weak when every reference
    is weak; and nothing for a name no file has.  A duplicate is reported exactly when
    some name has two strong definitions. *)
Theorem symbol_resolution (files : list Object) :
  let '(Symtab, Errs) := addFiles 0 files ∅ in
  (∀ n, Symtab !! n = resolve (of_name n (all_entries 0 files))) ∧
  (Errs = [] ↔ ∀ n, (length (List.filter is_strong_definition (of_name n (all_entries 0 files))) ≤ 1)%nat).
Proof.
  pose proof (add_entries_resolve _ (all_entries_binding 0 files)) as H. rewrite <- addFiles_entries in H.
  destruct (addFiles 0 files ∅) as [Symtab Errs]. exact H.
Qed.
