(* ===== verification/LldLayout.v ===== *)
(** * LldLayout: order, addresses and file offsets of the linker's sections

    tools/lld/ELF/Writer.cpp from sortSections to checkSections, with LinkerScript.cpp
    (assignAddresses, allocateHeaders) and OutputSections.cpp, for a static ELF32
    link without a linker script: the output sections are sorted, get addresses and
    file offsets, and the segments cover them.  No options are given ([-T], [-omagic],
    [-no-rosegment], [-z] keywords), and there is neither thread-local storage nor an
    interpreter. *)
From stdpp Require Import sorting.
From S2P Require Import Prelude MathExtras NyuziTarget NyuziFixups NyuziLinker WordPatches MCExpressions MCAssembler LldLink Elf2Hex.

(** ** Data *)
Definition SHT_NOTE : Z := 7.
Definition SHT_NOBITS : Z := 8.
Definition SHT_INIT_ARRAY : Z := 14.
Definition SHT_FINI_ARRAY : Z := 15.
Definition SHT_PREINIT_ARRAY : Z := 16.
Definition PT_NOTE : Z := 4.
Definition PT_PHDR : Z := 6.
Definition PT_GNU_STACK : Z := 0x6474e551.
Definition PT_GNU_RELRO : Z := 0x6474e552.
Definition PT_OPENBSD_RANDOMIZE : Z := 0x65a3dbe6.
Definition PF_X : Z := 1.
Definition PF_W : Z := 2.
Definition PF_R : Z := 4.
Definition sizeof_Shdr : Z := 40.
Definition MaxPageSize : Z := 4096.

(** An input section, by its place in [InputSections], with [getSize()] and
    [Alignment]. *)
Record InputSection : Type := mkInputSection { ISIndex : nat; ISSize : Z; ISAlignment : Z }.

(** [OutputSection]; [OSIsGot] says whether it holds [InX::Got], [OSHeader] has the
    other members of its section header: name, link, info, entry size. *)
Record OutputSection : Type := mkOutputSection {
  OSName : string;
  OSType : Z;
  OSFlags : Z;
  OSAlignment : Z;
  OSIsGot : bool;
  OSInputs : list InputSection;
  OSHeader : Z * Z * Z * Z
}.

(** [PhdrEntry] with the sections added to it, by their index: 0 and 1 are
    [Out::ElfHeader] and [Out::ProgramHeaders], the others follow. *)
Record PhdrEntry : Type := mkPhdrEntry {
  PhType : Z;
  PhFlags : Z;
  PhMemsz : Z;
  PhSecs : list nat
}.

Definition FirstSec (P : PhdrEntry) : option nat := head (PhSecs P).
Definition LastSec (P : PhdrEntry) : option nat := last (PhSecs P).
Definition add (P : PhdrEntry) (i : nat) : PhdrEntry := mkPhdrEntry (PhType P) (PhFlags P) (PhMemsz P) (PhSecs P ++ [i]).
Definition isLoad (P : PhdrEntry) : bool := PhType P =? PT_LOAD.

(** ** The order of the sections *)
Definition needsPtLoad (Sec : OutputSection) : bool :=
  has_flag (OSFlags Sec) SHF_ALLOC && negb (has_flag (OSFlags Sec) SHF_TLS && (OSType Sec =? SHT_NOBITS)).

Definition isRelroSection (Sec : OutputSection) : bool :=
  let Flags := OSFlags Sec in
  if negb (has_flag Flags SHF_ALLOC) || negb (has_flag Flags SHF_WRITE) then false
  else if has_flag Flags SHF_TLS then true
  else if (OSType Sec =? SHT_INIT_ARRAY) || (OSType Sec =? SHT_FINI_ARRAY) || (OSType Sec =? SHT_PREINIT_ARRAY) then true
  else if OSIsGot Sec then true
  else bool_decide (OSName Sec ∈ [".data.rel.ro"; ".bss.rel.ro"; ".ctors"; ".dtors"; ".jcr"; ".eh_frame"; ".openbsd.randomdata"]%string).

(** [RankFlags] *)
Definition RF_NOT_ADDR_SET : Z := 2 ^ 18.
Definition RF_NOT_INTERP : Z := 2 ^ 17.
Definition RF_NOT_ALLOC : Z := 2 ^ 16.
Definition RF_WRITE : Z := 2 ^ 15.
Definition RF_EXEC_WRITE : Z := 2 ^ 13.
Definition RF_EXEC : Z := 2 ^ 12.
Definition RF_NON_TLS_BSS : Z := 2 ^ 11.
Definition RF_NON_TLS_BSS_RO : Z := 2 ^ 10.
Definition RF_NOT_TLS : Z := 2 ^ 9.
Definition RF_BSS : Z := 2 ^ 8.
Definition RF_NOTE : Z := 2 ^ 7.

(** [getSectionRank] for a machine that is neither PPC64 nor MIPS. *)
Definition getSectionRank (Sec : OutputSection) : Z :=
  let Rank := RF_NOT_ADDR_SET in
  if bool_decide (OSName Sec = ".interp"%string) then Rank
  else
    let Rank := Z.lor Rank RF_NOT_INTERP in
    if negb (has_flag (OSFlags Sec) SHF_ALLOC) then Z.lor Rank RF_NOT_ALLOC
    else
      let IsExec := has_flag (OSFlags Sec) SHF_EXECINSTR in
      let IsWrite := has_flag (OSFlags Sec) SHF_WRITE in
      let Rank := Z.lor Rank
        (if IsExec then (if IsWrite then RF_EXEC_WRITE else RF_EXEC) else if IsWrite then RF_WRITE else 0) in
      let IsTls := has_flag (OSFlags Sec) SHF_TLS in
      let IsNoBits := OSType Sec =? SHT_NOBITS in
      let IsNonTlsNoBits := IsNoBits && negb IsTls in
      let Rank := Z.lor Rank (if IsNonTlsNoBits then RF_NON_TLS_BSS else 0) in
      let IsRelRo := isRelroSection Sec in
      let Rank := Z.lor Rank (if IsNonTlsNoBits && negb IsRelRo then RF_NON_TLS_BSS_RO else 0) in
      let Rank := Z.lor Rank (if negb IsNonTlsNoBits && IsRelRo then RF_NON_TLS_BSS_RO else 0) in
      let Rank := Z.lor Rank (if negb IsTls then RF_NOT_TLS else 0) in
      let Rank := Z.lor Rank (if IsNoBits then RF_BSS else 0) in
      Z.lor Rank (if OSType Sec =? SHT_NOTE then RF_NOTE else 0).

(** Without [-T] every section has [RF_NOT_ADDR_SET]: equal ranks are not ordered. *)
Definition compareSections (A B : OutputSection) : bool := getSectionRank A <? getSectionRank B.

Definition sortSections (Secs : list OutputSection) : list OutputSection := stable_sort compareSections Secs.

(** ** Program headers *)
Definition getPhdrFlags (Sec : OutputSection) : Z :=
  Z.lor (Z.lor PF_R (if has_flag (OSFlags Sec) SHF_WRITE then PF_W else 0))
    (if has_flag (OSFlags Sec) SHF_EXECINSTR then PF_X else 0).

(** The loop of [createPhdrs] over the output sections from index [i] on. *)
Fixpoint addLoads (i : nat) (Load : PhdrEntry) (Secs : list OutputSection) : list PhdrEntry :=
  match Secs with
  | [] => [Load]
  | Sec :: Secs =>
      if negb (has_flag (OSFlags Sec) SHF_ALLOC) then [Load]
      else if negb (needsPtLoad Sec) then addLoads (S i) Load Secs
      else
        let NewFlags := getPhdrFlags Sec in
        if PhFlags Load =? NewFlags then addLoads (S i) (add Load i) Secs
        else Load :: addLoads (S i) (mkPhdrEntry PT_LOAD NewFlags 0 [i]) Secs
  end.

(** The sections of [PT_GNU_RELRO] and the messages. *)
Fixpoint addRelro (i : nat) (InRelroPhdr IsRelroFinished : bool) (Secs : list OutputSection) : list nat * list string :=
  match Secs with
  | [] => ([], [])
  | Sec :: Secs =>
      if negb (needsPtLoad Sec) then addRelro (S i) InRelroPhdr IsRelroFinished Secs
      else if isRelroSection Sec then
        let '(l, Errs) := addRelro (S i) true IsRelroFinished Secs in
        if IsRelroFinished then (l, "section is not contiguous with other relro sections"%string :: Errs)
        else (i :: l, Errs)
      else addRelro (S i) false (InRelroPhdr || IsRelroFinished) Secs
  end.

(** One [PT_NOTE] for each group of contiguous note sections. *)
Fixpoint addNotes (i : nat) (Note : option PhdrEntry) (Secs : list OutputSection) : list PhdrEntry :=
  match Secs with
  | [] => option_list Note
  | Sec :: Secs =>
      if OSType Sec =? SHT_NOTE then
        addNotes (S i) (Some (add (default (mkPhdrEntry PT_NOTE PF_R 0 []) Note) i)) Secs
      else option_list Note ++ addNotes (S i) None Secs
  end.

(** [findSection] from index [i] on *)
Fixpoint findSection (i : nat) (Name : string) (Secs : list OutputSection) : option (nat * OutputSection) :=
  match Secs with
  | [] => None
  | Sec :: Secs => if bool_decide (OSName Sec = Name) then Some (i, Sec) else findSection (S i) Name Secs
  end.

(** [createPhdrs] *)
Definition createPhdrs (Secs : list OutputSection) : list PhdrEntry * list string :=
  let '(Relro, Errs) := addRelro 2 false false Secs in
  ([mkPhdrEntry PT_PHDR PF_R 0 [1%nat]] ++
   addLoads 2 (mkPhdrEntry PT_LOAD PF_R 0 [0%nat; 1%nat]) Secs ++
   match Relro with [] => [] | _ => [mkPhdrEntry PT_GNU_RELRO PF_R 0 Relro] end ++
   match findSection 2 ".openbsd.randomdata" Secs with
   | Some (i, Cmd) => [mkPhdrEntry PT_OPENBSD_RANDOMIZE (getPhdrFlags Cmd) 0 [i]]
   | None => []
   end ++
   [mkPhdrEntry PT_GNU_STACK (Z.lor PF_R PF_W) 0 []] ++
   addNotes 2 None Secs, Errs).

(** [fixSectionAlignments]: the sections whose address starts a page. *)
Definition fixSectionAlignments (Phdrs : list PhdrEntry) (Secs : list OutputSection) : list nat :=
  omap FirstSec (List.filter isLoad Phdrs) ++
  concat (map (λ P,
    if PhType P =? PT_GNU_RELRO then
      option_list (FirstSec P) ++
      match LastSec P with
      | Some i =>
          match Secs !! (S i - 2)%nat with
          | Some Sec => if needsPtLoad Sec then [S i] else []
          | None => []
          end
      | None => []
      end
    else []) Phdrs).

(** ** Addresses *)

(** A section with its address and size, and the offsets of its input sections
    ([OutSecOff]). *)
Record Placed : Type := mkPlaced {
  PlType : Z;
  PlAlignment : Z;
  PlAddr : Z;
  PlSize : Z;
  PlInOffs : list Z
}.

(** [LinkerScript::output] for each input section: the offsets, the size and the
    location counter. *)
Fixpoint output (Addr Size Dot : Z) (Inputs : list InputSection) : outcome (list Z * Z * Z) :=
  match Inputs with
  | [] => Ret ([], Size, Dot)
  | IS :: Inputs =>
      alignTo Dot (ISAlignment IS) 0 ≫= λ Start,
      let Pos := u64 (Start + ISSize IS) in
      output Addr (u64 (Size + (Pos - Dot))) Pos Inputs ≫= λ '(Offs, Size, Dot),
      Ret (u64 (Pos - ISSize IS - Addr) :: Offs, Size, Dot)
  end.

(** [LinkerScript::assignOffsets] *)
Definition assignOffsets (PageAligned : bool) (Sec : OutputSection) (Dot : Z) : outcome (Placed * Z) :=
  (if negb (has_flag (OSFlags Sec) SHF_ALLOC) then Ret 0
   else if PageAligned then alignTo Dot MaxPageSize 0
   else Ret Dot) ≫= λ Dot,
  alignTo Dot (OSAlignment Sec) 0 ≫= λ Addr,
  output Addr 0 Addr (OSInputs Sec) ≫= λ '(Offs, Size, Dot),
  Ret (mkPlaced (OSType Sec) (OSAlignment Sec) Addr Size Offs, Dot).

(** [LinkerScript::assignAddresses] *)
Fixpoint assignAddresses (PageAligned : list nat) (i : nat) (Dot : Z) (Secs : list OutputSection) : outcome (list Placed) :=
  match Secs with
  | [] => Ret []
  | Sec :: Secs =>
      assignOffsets (bool_decide (i ∈ PageAligned)) Sec Dot ≫= λ '(Pl, Dot),
      assignAddresses PageAligned (S i) Dot Secs ≫= λ Pls,
      Ret (Pl :: Pls)
  end.

Definition alignDown (Value Align : Z) : Z := u64 (Value / Align * Align).

(** [alignTo(Value, Target->PageSize)] *)
Definition alignUp (Value : Z) : Z := u64 (u64 (Value + PageSize Nyuzi_TargetInfo - 1) / PageSize Nyuzi_TargetInfo * PageSize Nyuzi_TargetInfo).

(** [LinkerScript::allocateHeaders]: the addresses of the two headers and the
    program headers. *)
Definition allocateHeaders (Phdrs : list PhdrEntry) (HeaderSize : Z) (Secs : list OutputSection) (Pls : list Placed)
    : Z * Z * list PhdrEntry :=
  let Min := foldr Z.min (2 ^ 64 - 1)
    (omap (λ '(Sec, Pl), if has_flag (OSFlags Sec) SHF_ALLOC then Some (PlAddr Pl) else None) (zip Secs Pls)) in
  if HeaderSize <=? Min then
    let Min := alignDown (Min - HeaderSize) MaxPageSize in (Min, u64 (Min + Z.of_nat sizeof_Ehdr), Phdrs)
  else
    (0, 0, map (λ P, if isLoad P then mkPhdrEntry (PhType P) (PhFlags P) (PhMemsz P) (List.filter (λ i, (2 <=? i)%nat) (PhSecs P)) else P)
             (List.filter (λ P, negb (PhType P =? PT_PHDR)) Phdrs)).

(** The headers and the output sections, as sections with addresses. *)
Definition headerSections (ElfAddr PhdrsAddr PhdrsSize : Z) : list Placed :=
  [mkPlaced 0 1 ElfAddr (Z.of_nat sizeof_Ehdr) []; mkPlaced 0 4 PhdrsAddr PhdrsSize []].

Section Offsets.
Variable All : list Placed.

Definition placedOf (o : option nat) : option Placed := o ≫= λ i, All !! i.

(** [P->LastSec->Addr + P->LastSec->Size - P->FirstSec->Addr] *)
Definition memorySize (First Last : Placed) : Z := u64 (PlAddr Last + PlSize Last - PlAddr First).

(** [removeEmptyPTLoad] *)
Definition removeEmptyPTLoad (Phdrs : list PhdrEntry) : list PhdrEntry :=
  List.filter (λ P,
    negb (isLoad P) ||
    match placedOf (FirstSec P), placedOf (LastSec P) with
    | Some First, Some Last => negb (memorySize First Last =? 0)
    | _, _ => false
    end) Phdrs.

(** ** File offsets *)

(** [Cmd->PtLoad]: the segment a section was added to. *)
Definition PtLoad (Phdrs : list PhdrEntry) (i : nat) : option PhdrEntry :=
  List.find (λ P, isLoad P && bool_decide (i ∈ PhSecs P)) Phdrs.

(** [getFileAlignment] for section [i], with the offsets of the sections before it. *)
Definition getFileAlignment (Phdrs : list PhdrEntry) (Offs : list Z) (i : nat) (Cmd : Placed) (Off : Z) : outcome Z :=
  match PtLoad Phdrs i ≫= FirstSec with
  | Some First =>
      if decide (First = i) then alignTo Off (Z.max (PlAlignment Cmd) MaxPageSize) (PlAddr Cmd)
      else if PlType Cmd =? SHT_NOBITS then Ret Off
      else
        match Offs !! First, All !! First with
        | Some FirstOffset, Some F => Ret (u64 (FirstOffset + PlAddr Cmd - PlAddr F))
        | _, _ => UndefinedBehaviour "section"
        end
  | None => if PlType Cmd =? SHT_NOBITS then Ret Off else alignTo Off (PlAlignment Cmd) 0
  end.

(** [setOffset]: the offset and the end. *)
Definition setOffset (Phdrs : list PhdrEntry) (Offs : list Z) (i : nat) (Cmd : Placed) (Off : Z) : outcome (Z * Z) :=
  getFileAlignment Phdrs Offs i Cmd Off ≫= λ Off,
  Ret (Off, if PlType Cmd =? SHT_NOBITS then Off else u64 (Off + PlSize Cmd)).

(** The offsets of the sections from index [length Offs] on: [Phdrs] are the headers
    the sections were added to, [LastRX] the last section of the last executable
    segment. *)
Fixpoint setOffsets (Phdrs : list PhdrEntry) (LastRX : option nat) (Offs : list Z) (Off : Z) (Cmds : list Placed) : outcome (list Z * Z) :=
  match Cmds with
  | [] => Ret (Offs, Off)
  | Cmd :: Cmds =>
      let i := length Offs in
      setOffset Phdrs Offs i Cmd Off ≫= λ '(Offset, Off),
      (if bool_decide (LastRX = Some i) then alignTo Off (PageSize Nyuzi_TargetInfo) 0 else Ret Off) ≫= λ Off,
      setOffsets Phdrs LastRX (Offs ++ [Offset]) Off Cmds
  end.

(** An executable segment. *)
Definition isRX (P : PhdrEntry) : bool := isLoad P && has_flag (PhFlags P) PF_X.

(** [assignFileOffsets]: the offsets, that of the section headers, the size of the
    file and the messages. *)
Definition assignFileOffsets (Phdrs Kept : list PhdrEntry) : outcome (list Z * Z * Z * list string) :=
  let LastRX := last (List.filter isRX Kept) ≫= LastSec in
  setOffsets Phdrs (LastRX ≫= λ i, if decide (2 <= i)%nat then Some i else None) [] 0 All ≫= λ '(Offs, Off),
  alignTo Off 4 0 ≫= λ SectionHeaderOff,
  let FileSize := u64 (SectionHeaderOff + (Z.of_nat (length All) - 2 + 1) * sizeof_Shdr) in
  Ret (Offs, SectionHeaderOff, FileSize,
       omap (λ '(Cmd, Offset),
         if negb (PlType Cmd =? SHT_NOBITS) && ((FileSize <? Offset) || (FileSize <? u64 (Offset + PlSize Cmd)))
         then Some "unable to place section"%string else None) (drop 2 (zip All Offs))).

(** [setPhdrs] for one header. *)
Definition setPhdr (Offs : list Z) (P : PhdrEntry) : Elf32_Phdr :=
  let p_align := foldr Z.max 0 (omap (λ i, PlAlignment <$> All !! i) (PhSecs P)) in
  let p_align := if isLoad P then Z.max p_align MaxPageSize else if PhType P =? PT_GNU_RELRO then 1 else p_align in
  match FirstSec P, LastSec P with
  | Some f, Some l =>
      match All !! f, All !! l, Offs !! f, Offs !! l with
      | Some First, Some Last, Some FirstOffset, Some LastOffset =>
          let filesz := u64 (LastOffset - FirstOffset) in
          let filesz := if PlType Last =? SHT_NOBITS then filesz else u64 (filesz + PlSize Last) in
          let memsz := memorySize First Last in
          let memsz := if PhType P =? PT_GNU_RELRO then alignUp memsz else memsz in
          mkPhdr (PhType P) FirstOffset (PlAddr First) (PlAddr First) filesz memsz (PhFlags P) p_align
      | _, _, _, _ => mkPhdr (PhType P) 0 0 0 0 (PhMemsz P) (PhFlags P) p_align
      end
  | _, _ => mkPhdr (PhType P) 0 0 0 0 (PhMemsz P) (PhFlags P) p_align
  end.
End Offsets.

(** [checkOverlap] of sections with their start: adjacent ones in the order of the
    starts. *)
Definition startsBefore (a b : Z * Z) : Prop := a.1 ≤ b.1.

#[global] Instance startsBefore_dec : RelDecision startsBefore.
Proof. intros a b. unfold startsBefore. solve_decision. Defined.

Fixpoint overlaps (Sections : list (Z * Z)) : list string :=
  match Sections with
  | A :: ((B :: _) as Rest) => (if B.1 <? u64 (A.1 + A.2) then ["section ranges overlap"%string] else []) ++ overlaps Rest
  | _ => []
  end.

Definition checkOverlap (Sections : list (Z * Z)) : list string := overlaps (merge_sort startsBefore Sections).

(** [checkSections], of the output sections with their flags and offsets. *)
Definition checkSections (Secs : list (OutputSection * Placed * Z)) : list string :=
  concat (map (λ '(_, Pl, _),
    if (u64 (PlAddr Pl + PlSize Pl) <? PlAddr Pl) || (2 ^ 32 - 1 <? u64 (PlAddr Pl + PlSize Pl))
    then ["section exceeds available address space"%string] else []) Secs) ++
  checkOverlap (omap (λ '(_, Pl, Offset),
    if (0 <? PlSize Pl) && negb (PlType Pl =? SHT_NOBITS) then Some (Offset, PlSize Pl) else None) Secs) ++
  let VMAs := omap (λ '(Sec, Pl, _),
    if (0 <? PlSize Pl) && has_flag (OSFlags Sec) SHF_ALLOC && negb (has_flag (OSFlags Sec) SHF_TLS)
    then Some (PlAddr Pl, PlSize Pl) else None) Secs in
  checkOverlap VMAs ++ checkOverlap VMAs.

(** ** The layout *)
Record Layout : Type := mkLayout {
  LaySections : list Placed;
  LayOffsets : list Z;
  LayPhdrs : list Elf32_Phdr;
  LaySectionHeaderOff : Z;
  LayFileSize : Z
}.

(** [Writer::run] up to the opening of the file, with the messages. *)
Definition layoutFile (Secs : list OutputSection) : outcome (Layout * list string) :=
  let '(Phdrs, Errs) := createPhdrs Secs in
  let PhdrsSize := Z.of_nat sizeof_Phdr * Z.of_nat (length Phdrs) in
  let HeaderSize := Z.of_nat sizeof_Ehdr + PhdrsSize in
  assignAddresses (fixSectionAlignments Phdrs Secs) 2 (u64 (DefaultImageBase Nyuzi_TargetInfo + HeaderSize)) Secs ≫= λ Pls,
  let '(ElfAddr, PhdrsAddr, Phdrs) := allocateHeaders Phdrs HeaderSize Secs Pls in
  let All := headerSections ElfAddr PhdrsAddr PhdrsSize ++ Pls in
  let Kept := removeEmptyPTLoad All Phdrs in
  assignFileOffsets All Phdrs Kept ≫= λ '(Offs, SectionHeaderOff, FileSize, Errs'),
  Ret (mkLayout All Offs (map (setPhdr All Offs) Kept) SectionHeaderOff FileSize,
       Errs ++ Errs' ++ checkSections (zip (zip Secs Pls) (drop 2 Offs)) ++
       if 2 ^ 32 - 1 <? FileSize then ["output file too large"%string] else []).


(** ** Sorting *)
Lemma sortSections_perm (l : list OutputSection) : sortSections l ≡ₚ l.
Proof. apply stable_sort_perm. Qed.

Definition rank_le (A B : OutputSection) : Prop := getSectionRank A ≤ getSectionRank B.

Lemma sortSections_sorted (l : list OutputSection) : StronglySorted rank_le (sortSections l).
Proof. apply (stable_sort_sorted compareSections getSectionRank). reflexivity. Qed.

Definition isAlloc (Sec : OutputSection) : bool := has_flag (OSFlags Sec) SHF_ALLOC.

Lemma rank_alloc (Sec : OutputSection) :
  OSName Sec ≠ ".interp"%string → (isAlloc Sec = true → getSectionRank Sec < 2 ^ 18 + 2 ^ 17 + 2 ^ 16) ∧ (isAlloc Sec = false → getSectionRank Sec = 2 ^ 18 + 2 ^ 17 + 2 ^ 16).
Proof.
  intros HN. unfold getSectionRank, isAlloc. rewrite bool_decide_false by exact HN.
  destruct (has_flag (OSFlags Sec) SHF_ALLOC); cbn [negb]; [| cbn; repeat split; try discriminate; lia].
  destruct (has_flag (OSFlags Sec) SHF_EXECINSTR), (has_flag (OSFlags Sec) SHF_WRITE), (has_flag (OSFlags Sec) SHF_TLS),
    (OSType Sec =? SHT_NOBITS), (isRelroSection Sec), (OSType Sec =? SHT_NOTE); vm_compute; repeat split; discriminate.
Qed.

(** The sections of the memory image come first. *)
Lemma sorted_alloc_first (l : list OutputSection) :
  Forall (λ Sec, OSName Sec ≠ ".interp"%string) l → StronglySorted rank_le l →
  l = List.filter isAlloc l ++ List.filter (λ Sec, negb (isAlloc Sec)) l.
Proof.
  intros HN HS. induction HS as [| Sec l HS IH HB]; [reflexivity |]. apply Forall_cons in HN as [HN1 HN]. cbn.
  destruct (isAlloc Sec) eqn:E; cbn [negb app]; [f_equal; exact (IH HN) |].
  assert (HF : Forall (λ B, isAlloc B = false) l).
  { apply Forall_forall. intros B HB'. rewrite Forall_forall in HB, HN. specialize (HB _ HB'). specialize (HN _ HB').
    destruct (rank_alloc Sec HN1) as [_ H1]. destruct (rank_alloc B HN) as [H2 _].
    unfold rank_le in HB. specialize (H1 E). destruct (isAlloc B); [specialize (H2 eq_refl); lia | reflexivity]. }
  clear -HF. replace (List.filter isAlloc l) with (@nil OutputSection); cbn.
  - f_equal. induction HF as [| B l HB HF IH]; [reflexivity |]. cbn. rewrite HB. cbn. f_equal. exact IH.
  - induction HF as [| B l HB HF IH]; [reflexivity |]. cbn. rewrite HB. exact IH.
Qed.

(** ** Alignments *)
Definition pow2 (a : Z) : Prop := ∃ k, 0 ≤ k ≤ 31 ∧ a = 2 ^ k.

Lemma pow2_bounds (a : Z) : pow2 a → 0 < a ≤ 2 ^ 31.
Proof. intros (k & Hk & ->). split; [apply pow2_pos; lia | apply Z.pow_le_mono_r; lia]. Qed.

Lemma pow2_divide (a b : Z) : pow2 a → pow2 b → a ≤ b → (a | b).
Proof.
  intros (k & Hk & ->) (m & Hm & ->) Hle. apply Z.pow_le_mono_r_iff in Hle; [| lia ..].
  exists (2 ^ (m - k)). rewrite <- Z.pow_add_r by lia. f_equal. lia.
Qed.

Lemma pow2_max (a b : Z) : pow2 a → pow2 b → pow2 (Z.max a b).
Proof. intros Ha Hb. destruct (Z.max_spec a b) as [[_ ->] | [_ ->]]; assumption. Qed.

Lemma pow2_foldr (b : Z) (l : list Z) : pow2 b → Forall pow2 l → pow2 (foldr Z.max b l).
Proof. intros Hb. induction 1; cbn; [exact Hb | apply pow2_max; assumption]. Qed.

Lemma pow2_1 : pow2 1.
Proof. exists 0. split; [lia | reflexivity]. Qed.

Lemma pow2_page : pow2 MaxPageSize.
Proof. exists 12. split; [lia | reflexivity]. Qed.

Lemma foldr_max_le (b : Z) (l : list Z) (x : Z) : x ∈ l → x ≤ foldr Z.max b l.
Proof. induction 1 as [| y l H IH]; cbn; lia. Qed.

(** The least multiple. *)
Lemma divide_least (a r V y : Z) : r < V + a → (a | r) → (a | y) → V ≤ y → r ≤ y.
Proof.
  intros Hr (p & ->) (q & ->) Hy.
  destruct (Z_le_gt_dec p q); nia.
Qed.

Lemma divide_pow2_step (a b V r : Z) : pow2 a → pow2 b → (a | V) → V ≤ r < V + b → (b | r) → (a | r).
Proof.
  intros Ha Hb HV Hr Hd. destruct (Z_le_gt_dec a b).
  - etransitivity; [apply (pow2_divide a b); [assumption .. | lia] | exact Hd].
  - assert (r = V) as ->; [| exact HV].
    assert (Hb' : (b | V)) by (etransitivity; [apply (pow2_divide b a); [assumption .. | lia] | exact HV]).
    pose proof (divide_least b r V V ltac:(lia) Hd Hb' ltac:(lia)). lia.
Qed.

Lemma alignUp_spec (x : Z) : 0 ≤ x < 2 ^ 62 → x ≤ alignUp x < x + 4096 ∧ (4096 | alignUp x).
Proof.
  intros Hx. unfold alignUp. change (PageSize Nyuzi_TargetInfo) with 4096. rewrite (uint_small 64 (x + 4096 - 1)) by lia.
  pose proof (Z.div_mod (x + 4096 - 1) 4096 ltac:(lia)) as Hd. pose proof (Z.mod_pos_bound (x + 4096 - 1) 4096 ltac:(lia)) as Hm.
  rewrite uint_small by lia. split; [lia |]. exists ((x + 4096 - 1) / 4096). lia.
Qed.

Lemma alignUp_le (x y : Z) : 0 ≤ x < 2 ^ 62 → (4096 | y) → x ≤ y → alignUp x ≤ y.
Proof. intros Hx Hy Hle. destruct (alignUp_spec x Hx) as [Hb Hd]. apply (divide_least 4096 _ x); [lia | assumption ..]. Qed.

Lemma alignDown_spec (x : Z) : 0 ≤ x < 2 ^ 62 → x - 4096 < alignDown x 4096 ≤ x ∧ 0 ≤ alignDown x 4096 ∧ (4096 | alignDown x 4096).
Proof.
  intros Hx. unfold alignDown. pose proof (Z.div_mod x 4096 ltac:(lia)) as Hd. pose proof (Z.mod_pos_bound x 4096 ltac:(lia)) as Hm.
  pose proof (Z.div_pos x 4096 ltac:(lia) ltac:(lia)). rewrite uint_small by lia. split; [lia |]. split; [lia |].
  exists (x / 4096). reflexivity.
Qed.

(** ** Sections as a linker gets them

    Sizes and alignments of 32 bits; nothing in an output section adds up to 2^40. *)
Definition input_ok (IS : InputSection) : Prop := 0 ≤ ISSize IS ∧ pow2 (ISAlignment IS).

Definition weight (Inputs : list InputSection) : Z := foldr (λ IS w, ISSize IS + ISAlignment IS + w) 0 Inputs.

Record section_ok (Sec : OutputSection) : Prop := {
  section_inputs : Forall input_ok (OSInputs Sec);
  section_alignment : pow2 (OSAlignment Sec);
  section_weight : weight (OSInputs Sec) < 2 ^ 40;
  section_no_tls : has_flag (OSFlags Sec) SHF_TLS = false;
  section_name : OSName Sec ≠ ".interp"%string
}.

Lemma weight_nonneg (Inputs : list InputSection) : Forall input_ok Inputs → 0 ≤ weight Inputs.
Proof. 
  induction 1 as [| IS l [H1 H2] H IH]; [cbn; lia |]. apply pow2_bounds in H2.
  change (weight (IS :: l)) with (ISSize IS + ISAlignment IS + weight l). lia.
Qed.

(** Input sections at the offsets [Offs], one after another and each at a multiple of
    its alignment, from [lo] to [hi] of a section at [Addr]. *)
Fixpoint inputs_at (Addr lo hi : Z) (Offs : list Z) (Inputs : list InputSection) : Prop :=
  match Offs, Inputs with
  | [], [] => lo ≤ hi
  | o :: Offs, IS :: Inputs => lo ≤ o ∧ (ISAlignment IS | Addr + o) ∧ inputs_at Addr (o + ISSize IS) hi Offs Inputs
  | _, _ => False
  end.

Lemma output_spec (Inputs : list InputSection) (Addr Dot : Z) :
  Forall input_ok Inputs → 0 ≤ Addr ≤ Dot → Dot + weight Inputs ≤ 2 ^ 63 →
  ∃ Offs Dot', output Addr (Dot - Addr) Dot Inputs = Ret (Offs, Dot' - Addr, Dot') ∧ Dot ≤ Dot' ≤ Dot + weight Inputs ∧
    inputs_at Addr (Dot - Addr) (Dot' - Addr) Offs Inputs.
Proof.
  intros H. revert Dot. induction H as [| IS l [H1 H2] H IH]; intros Dot HD Hw; cbn [output].
  - exists [], Dot. split; [reflexivity |]. cbn. lia.
  - pose proof (weight_nonneg l H) as Hl. pose proof (pow2_bounds _ H2) as HA.
    change (weight (IS :: l)) with (ISSize IS + ISAlignment IS + weight l) in *.
    destruct (alignTo_spec Dot (ISAlignment IS)) as (r & -> & Hr & Hd); [lia .. |]. rewrite outcome_bind_ret. cbn zeta.
    rewrite (uint_small 64 (r + ISSize IS)) by lia.
    rewrite (uint_small 64 (Dot - Addr + (r + ISSize IS - Dot))) by lia.
    replace (Dot - Addr + (r + ISSize IS - Dot)) with (r + ISSize IS - Addr) by lia.
    destruct (IH (r + ISSize IS)) as (Offs & Dot' & -> & Hb & Hin); [lia .. |]. rewrite outcome_bind_ret.
    rewrite (uint_small 64 (r + ISSize IS - ISSize IS - Addr)) by lia.
    eexists _, Dot'. split; [reflexivity |]. split; [lia |]. cbn [inputs_at]. split; [lia |]. split.
    + replace (Addr + (r + ISSize IS - ISSize IS - Addr)) with r by lia. exact Hd.
    + replace (r + ISSize IS - ISSize IS - Addr + ISSize IS) with (r + ISSize IS - Addr) by lia. exact Hin.
Qed.

(** A section that has been placed. *)
Record placed_ok (Sec : OutputSection) (Pl : Placed) : Prop := {
  placed_type : PlType Pl = OSType Sec;
  placed_alignment : PlAlignment Pl = OSAlignment Sec;
  placed_addr : 0 ≤ PlAddr Pl;
  placed_aligned : (OSAlignment Sec | PlAddr Pl);
  placed_size : 0 ≤ PlSize Pl < 2 ^ 40;
  placed_inputs : inputs_at (PlAddr Pl) 0 (PlSize Pl) (PlInOffs Pl) (OSInputs Sec)
}.

Lemma assignOffsets_spec (PA : bool) (Sec : OutputSection) (Dot : Z) :
  section_ok Sec → 0 ≤ Dot ≤ 2 ^ 62 →
  ∃ Pl, assignOffsets PA Sec Dot = Ret (Pl, PlAddr Pl + PlSize Pl) ∧ placed_ok Sec Pl ∧
    (if isAlloc Sec then Dot ≤ PlAddr Pl < Dot + 2 ^ 33 ∧ (PA = true → (MaxPageSize | PlAddr Pl)) else PlAddr Pl < 2 ^ 33).
Proof.
  intros [HI HA Hw HT HN] HD. pose proof (pow2_bounds _ HA) as HAb.
  unfold assignOffsets.
  assert (∃ D, (if negb (has_flag (OSFlags Sec) SHF_ALLOC) then Ret 0 else if PA then alignTo Dot MaxPageSize 0 else Ret Dot) = Ret D ∧
    (if isAlloc Sec then Dot ≤ D < Dot + 2 ^ 12 ∧ (PA = true → (MaxPageSize | D)) else D = 0)) as (D & -> & HDs).
  { change (has_flag (OSFlags Sec) SHF_ALLOC) with (isAlloc Sec). destruct (isAlloc Sec); cbn [negb]; [| eauto]. destruct PA; [| exists Dot; repeat split; [lia .. | discriminate]].
    destruct (alignTo_spec Dot MaxPageSize) as (r & -> & Hr & Hd); [unfold MaxPageSize; lia .. |]. exists r. split; [reflexivity |].
    unfold MaxPageSize in *. split; [lia | auto]. }
  rewrite outcome_bind_ret. assert (HD' : 0 ≤ D ≤ 2 ^ 62 + 2 ^ 12) by (destruct (isAlloc Sec); lia).
  destruct (alignTo_spec D (OSAlignment Sec)) as (r & -> & Hr & Hd); [lia .. |]. rewrite outcome_bind_ret.
  destruct (output_spec (OSInputs Sec) r r HI) as (Offs & Dot' & HO & Hb & Hin); [lia .. |]. rewrite Z.sub_diag in HO, Hin. rewrite HO, outcome_bind_ret.
  eexists (mkPlaced _ _ _ _ _). cbn [PlAddr PlSize]. replace (r + (Dot' - r)) with Dot' by lia. split; [reflexivity |]. split.
  - split; cbn [PlType PlAlignment PlAddr PlSize PlInOffs]; try reflexivity; try assumption; lia.
  - destruct (isAlloc Sec); [| lia]. destruct HDs as [HDs HP]. split; [lia |]. intros E. specialize (HP E).
    eapply divide_pow2_step; [exact pow2_page | exact HA | exact HP | exact Hr | exact Hd].
Qed.

(** Each section of the memory image starts where the one before it ends, or later. *)
Fixpoint chain (PageAligned : list nat) (i : nat) (Dot : Z) (Secs : list OutputSection) (Pls : list Placed) : Prop :=
  match Secs, Pls with
  | Sec :: Secs, Pl :: Pls =>
      (if isAlloc Sec then Dot ≤ PlAddr Pl < Dot + 2 ^ 33 ∧ (i ∈ PageAligned → (MaxPageSize | PlAddr Pl)) else PlAddr Pl < 2 ^ 33) ∧
      chain PageAligned (S i) (PlAddr Pl + PlSize Pl) Secs Pls
  | _, _ => True
  end.

Lemma assignAddresses_spec (PA : list nat) (i : nat) (Dot : Z) (Secs : list OutputSection) :
  Forall section_ok Secs → 0 ≤ Dot → Dot + Z.of_nat (length Secs) * 2 ^ 41 ≤ 2 ^ 61 →
  ∃ Pls, assignAddresses PA i Dot Secs = Ret Pls ∧ Forall2 placed_ok Secs Pls ∧ chain PA i Dot Secs Pls.
Proof.
  intros H. revert i Dot. induction H as [| Sec Secs HS H IH]; intros i Dot HD HL; cbn [assignAddresses length] in *.
  - exists []. repeat split; constructor.
  - destruct (assignOffsets_spec (bool_decide (i ∈ PA)) Sec Dot HS ltac:(lia)) as (Pl & -> & HP & HA). rewrite outcome_bind_ret.
    destruct HP as [? ? HPa ? HPs ?] eqn:EP.
    destruct (IH (S i) (PlAddr Pl + PlSize Pl)) as (Pls & -> & HF & HC); [lia | destruct (isAlloc Sec); lia |].
    rewrite outcome_bind_ret. exists (Pl :: Pls). split; [reflexivity |]. split; [constructor; assumption |]. cbn [chain].
    split; [| exact HC]. destruct (isAlloc Sec); [| exact HA]. destruct HA as [HA HM]. split; [exact HA |].
    intros Hi. apply HM. apply bool_decide_eq_true_2. exact Hi.
Qed.

(** ** Segments

    The [PT_LOAD] segments are runs of consecutive sections: the headers and every
    section of the memory image, each in one segment. *)
Definition loads (Phdrs : list PhdrEntry) : list PhdrEntry := List.filter isLoad Phdrs.

Lemma loads_app (l l' : list PhdrEntry) : loads (l ++ l') = loads l ++ loads l'.
Proof. apply List.filter_app. Qed.

Lemma no_loads (l : list PhdrEntry) : Forall (λ P, isLoad P = false) l → loads l = [].
Proof. induction 1 as [| P l H Hl IH]; [reflexivity |]. unfold loads in *. cbn. rewrite H. exact IH. Qed.

Lemma all_loads (l : list PhdrEntry) : Forall (λ P, isLoad P = true) l → loads l = l.
Proof. induction 1 as [| P l H Hl IH]; [reflexivity |]. unfold loads in *. cbn. rewrite H. f_equal. exact IH. Qed.

Lemma addLoads_spec (Alloc Rest : list OutputSection) (i : nat) (Load : PhdrEntry) :
  Forall section_ok Alloc → Forall (λ Sec, isAlloc Sec = true) Alloc → Forall (λ Sec, isAlloc Sec = false) Rest →
  isLoad Load = true → PhSecs Load ≠ [] →
  Forall (λ P, isLoad P = true ∧ PhSecs P ≠ []) (addLoads i Load (Alloc ++ Rest)) ∧
  concat (map PhSecs (addLoads i Load (Alloc ++ Rest))) = PhSecs Load ++ seq i (length Alloc) ∧
  ∃ P0 Ps m, addLoads i Load (Alloc ++ Rest) = P0 :: Ps ∧ PhFlags P0 = PhFlags Load ∧ PhSecs P0 = PhSecs Load ++ m.
Proof.
  intros HS HA HR. revert i Load. induction HA as [| Sec Alloc HSec HA IH]; intros i Load HL HN.
  - assert (addLoads i Load ([] ++ Rest) = [Load]) as ->.
    { destruct HR as [| Sec Rest HSec HR]; [reflexivity |]. cbn [app addLoads]. change (has_flag (OSFlags Sec) SHF_ALLOC) with (isAlloc Sec).
      rewrite HSec. reflexivity. }
    split; [constructor; [auto | constructor] |]. split; [reflexivity |]. exists Load, [], []. rewrite app_nil_r. auto.
  - apply Forall_cons in HS as [HS1 HS]. specialize (IH HS). cbn [app addLoads length seq]. unfold needsPtLoad.
    change (has_flag (OSFlags Sec) SHF_ALLOC) with (isAlloc Sec). rewrite HSec, (section_no_tls _ HS1). cbn [negb andb].
    destruct (PhFlags Load =? getPhdrFlags Sec) eqn:E.
    + destruct (IH (S i) (add Load i)) as (H1 & H2 & P0 & Ps & m & H3 & H4 & H5); [exact HL | unfold add; cbn; destruct (PhSecs Load); discriminate |].
      split; [exact H1 |]. split; [rewrite H2; cbn [add PhSecs]; rewrite <- app_assoc; reflexivity |].
      exists P0, Ps, (i :: m). split; [exact H3 |]. split; [exact H4 |]. rewrite H5. cbn [add PhSecs]. rewrite <- app_assoc. reflexivity.
    + destruct (IH (S i) (mkPhdrEntry PT_LOAD (getPhdrFlags Sec) 0 [i])) as (H1 & H2 & _); [reflexivity | discriminate |].
      split; [constructor; auto |]. split; [cbn [map concat]; rewrite H2; reflexivity |]. exists Load, (addLoads (S i) (mkPhdrEntry PT_LOAD (getPhdrFlags Sec) 0 [i]) (Alloc ++ Rest)), []. rewrite app_nil_r. auto.
Qed.

(** The flags of a segment are those of its sections. *)
Lemma addLoads_flags (Secs : list OutputSection) (i : nat) (Load P : PhdrEntry) (k : nat) :
  P ∈ addLoads i Load Secs → k ∈ PhSecs P →
  (k ∈ PhSecs Load ∧ PhFlags P = PhFlags Load) ∨ ∃ Sec, Secs !! (k - i)%nat = Some Sec ∧ (i ≤ k)%nat ∧ PhFlags P = getPhdrFlags Sec.
Proof.
  revert i Load. induction Secs as [| Sec Secs IH]; intros i Load HP Hk; cbn [addLoads] in HP.
  { apply list_elem_of_singleton in HP as ->. auto. }
  assert (Hnext : ∀ j S', Secs !! (k - S j)%nat = Some S' → (S j ≤ k)%nat → (Sec :: Secs) !! (k - j)%nat = Some S')
    by (intros j S' H Hle; replace (k - j)%nat with (S (k - S j)) by lia; exact H).
  destruct (negb (has_flag _ _)); [apply list_elem_of_singleton in HP as ->; auto |].
  destruct (negb (needsPtLoad Sec)).
  { destruct (IH _ _ HP Hk) as [H | (S' & H1 & H2 & H3)]; [auto |]. right. exists S'. split; [exact (Hnext i S' H1 H2) |]. split; [lia | exact H3]. }
  destruct (Z.eqb_spec (PhFlags Load) (getPhdrFlags Sec)) as [E | E].
  - destruct (IH _ _ HP Hk) as [[H1 H2] | (S' & H1 & H2 & H3)]; [| right; exists S'; split; [exact (Hnext i S' H1 H2) |]; split; [lia | exact H3]].
    cbn [add PhSecs PhFlags] in H1, H2. apply elem_of_app in H1 as [H1 | H1]; [auto |]. apply list_elem_of_singleton in H1 as ->.
    right. exists Sec. rewrite Nat.sub_diag. split; [reflexivity |]. split; [lia | congruence].
  - apply elem_of_cons in HP as [-> | HP]; [auto |].
    destruct (IH _ _ HP Hk) as [[H1 H2] | (S' & H1 & H2 & H3)]; [| right; exists S'; split; [exact (Hnext i S' H1 H2) |]; split; [lia | exact H3]].
    cbn [PhSecs PhFlags] in H1, H2. apply list_elem_of_singleton in H1 as ->.
    right. exists Sec. rewrite Nat.sub_diag. split; [reflexivity |]. split; [lia | exact H2].
Qed.

Lemma addNotes_no_loads (Secs : list OutputSection) (i : nat) (Note : option PhdrEntry) :
  match Note with Some P => isLoad P = false | None => True end → Forall (λ P, isLoad P = false) (addNotes i Note Secs).
Proof.
  revert i Note. induction Secs as [| Sec Secs IH]; intros i Note HN; cbn [addNotes].
  - destruct Note; repeat constructor; exact HN.
  - destruct (OSType Sec =? SHT_NOTE).
    + apply IH. destruct Note; [exact HN | reflexivity].
    + apply Forall_app. split; [destruct Note; repeat constructor; exact HN | apply IH; exact I].
Qed.

(** The partition of the sections [0 .. n - 1] by segments. *)
Record partition (Phdrs : list PhdrEntry) (n : nat) : Prop := {
  partition_nonempty : Forall (λ P, PhSecs P ≠ []) (loads Phdrs);
  partition_all : concat (map PhSecs (loads Phdrs)) = seq 0 n
}.

Lemma createPhdrs_spec (Alloc Rest : list OutputSection) :
  Forall section_ok Alloc → Forall (λ Sec, isAlloc Sec = true) Alloc → Forall (λ Sec, isAlloc Sec = false) Rest →
  partition (createPhdrs (Alloc ++ Rest)).1 (2 + length Alloc) ∧
  (∀ P, P ∈ (createPhdrs (Alloc ++ Rest)).1 → isRX P = true → 0%nat ∉ PhSecs P ∧ 1%nat ∉ PhSecs P) ∧
  (∃ P m, P ∈ loads (createPhdrs (Alloc ++ Rest)).1 ∧ PhSecs P = [0%nat; 1%nat] ++ m).
Proof.
  intros HS HA HR. unfold createPhdrs. destruct (addRelro 2 false false (Alloc ++ Rest)) as [Relro Errs]. cbn [fst].
  set (Random := match findSection 2 ".openbsd.randomdata" (Alloc ++ Rest) with Some (i, Cmd) => [mkPhdrEntry PT_OPENBSD_RANDOMIZE (getPhdrFlags Cmd) 0 [i]] | None => [] end).
  set (Tail := match Relro with [] => [] | _ => [mkPhdrEntry PT_GNU_RELRO PF_R 0 Relro] end ++ Random ++
    [mkPhdrEntry PT_GNU_STACK (Z.lor PF_R PF_W) 0 []] ++ addNotes 2 None (Alloc ++ Rest)).
  assert (HT : Forall (λ P, isLoad P = false) Tail).
  { unfold Tail. rewrite !Forall_app. repeat split; [destruct Relro; repeat constructor | unfold Random; destruct (findSection _ _ _) as [[? ?] |]; repeat constructor | repeat constructor | apply addNotes_no_loads; exact I]. }
  destruct (addLoads_spec Alloc Rest 2 (mkPhdrEntry PT_LOAD PF_R 0 [0%nat; 1%nat]) HS HA HR eq_refl ltac:(discriminate))
    as (H1 & H2 & P0 & Ps & m & H3 & H4 & H5).
  set (Ls := addLoads 2 (mkPhdrEntry PT_LOAD PF_R 0 [0%nat; 1%nat]) (Alloc ++ Rest)) in *.
  assert (HL : loads ([mkPhdrEntry PT_PHDR PF_R 0 [1%nat]] ++ Ls ++ Tail) = Ls).
  { rewrite !loads_app, (no_loads Tail HT), app_nil_r, (all_loads Ls); [reflexivity |].
    eapply Forall_impl; [exact H1 |]. intros P [H _]. exact H. }
  split; [| split; [| exists P0, m; rewrite HL, H3; split; [left | exact H5]]].
  - split; rewrite HL; [eapply Forall_impl; [exact H1 |]; intros P [_ H]; exact H | exact H2].
  - intros P HP HX. rewrite !elem_of_app in HP. destruct HP as [HP | [HP | HP]].
    + apply list_elem_of_singleton in HP as ->. discriminate HX.
    + assert (ND : NoDup (concat (map PhSecs Ls))) by (rewrite H2; apply (NoDup_seq 0 (2 + length Alloc))).
      rewrite H3 in HP, ND. apply elem_of_cons in HP as [-> | HP].
      * unfold isRX in HX. rewrite H4 in HX. rewrite andb_false_r in HX. discriminate HX.
      * cbn [map concat] in ND. apply NoDup_app in ND as (_ & ND & _).
        assert (HQ : ∀ j, j ∈ PhSecs P → j ∈ concat (map PhSecs Ps)).
        { intros j Hj. apply list_elem_of_In, in_concat. exists (PhSecs P). split; [apply in_map |]; apply list_elem_of_In; assumption. }
        rewrite H5 in ND. split; intros Hj; refine (ND _ _ (HQ _ Hj)); cbn; set_solver.
    + rewrite Forall_forall in HT. unfold isRX in HX. rewrite (HT P HP) in HX. discriminate HX.
Qed.

Lemma StronglySorted_at {A : Type} (R : A → A → Prop) (l : list A) (i j : nat) (x y : A) :
  StronglySorted R l → l !! i = Some x → l !! j = Some y → (i < j)%nat → R x y.
Proof.
  intros HS. revert i j. induction HS as [| z l HS IH HF]; intros i j Hi Hj Hlt; [discriminate |].
  destruct j as [| j]; [lia |]. destruct i as [| i]; [| eapply IH; [exact Hi | exact Hj | lia]].
  injection Hi as <-. rewrite Forall_forall in HF. apply HF. eapply list_elem_of_lookup_2, Hj.
Qed.

Section partition.
Context (Phdrs : list PhdrEntry) (n : nat) (HP : partition Phdrs n).

Definition firstOf (i : nat) : option nat := PtLoad Phdrs i ≫= FirstSec.

Lemma load_split (L1 L2 : list PhdrEntry) (P : PhdrEntry) :
  loads Phdrs = L1 ++ P :: L2 →
  ∃ f m, PhSecs P = seq f (S m) ∧ concat (map PhSecs L1) = seq 0 f ∧ concat (map PhSecs L2) = seq (f + S m) (n - (f + S m)) ∧
    (f + S m ≤ n)%nat.
Proof.
  intros E. destruct HP as [HN HA]. rewrite E, map_app, concat_app in HA. cbn [map concat] in HA. rewrite E in HN.
  apply Forall_app in HN as [_ HN]. apply Forall_cons in HN as [HN _].
  assert (HL : n = (length (concat (map PhSecs L1)) + (length (PhSecs P) + length (concat (map PhSecs L2))))%nat).
  { rewrite <- !length_app, HA. symmetry. apply length_seq. }
  rewrite HL, !seq_app in HA. apply app_inj_1 in HA as [H1 HA]; [| symmetry; apply length_seq].
  apply app_inj_1 in HA as [H2 H3]; [| symmetry; apply length_seq].
  destruct (PhSecs P) as [| x l] eqn:EP; [contradiction |]. cbn [length] in *.
  exists (length (concat (map PhSecs L1))), (length l). cbn [plus] in *. repeat split; [exact H2 | exact H1 | | lia].
  rewrite H3. f_equal. lia.
Qed.

Lemma elem_of_loads (P : PhdrEntry) : P ∈ loads Phdrs ↔ P ∈ Phdrs ∧ isLoad P = true.
Proof. unfold loads. rewrite !list_elem_of_In, List.filter_In. reflexivity. Qed.

Lemma load_run (P : PhdrEntry) : P ∈ loads Phdrs → ∃ f m, PhSecs P = seq f (S m) ∧ (f + S m ≤ n)%nat.
Proof. intros H. apply list_elem_of_split in H as (L1 & L2 & E). destruct (load_split _ _ _ E) as (f & m & H1 & _ & _ & H2). eauto. Qed.

(** Segments in their order: all sections of one come before those of the next. *)
Definition before (P Q : PhdrEntry) : Prop := ∀ i j, i ∈ PhSecs P → j ∈ PhSecs Q → (i < j)%nat.

Lemma loads_sorted : StronglySorted before (loads Phdrs).
Proof.
  assert (H : ∀ L1 L2, loads Phdrs = L1 ++ L2 → StronglySorted before L2).
  { intros L1 L2. revert L1. induction L2 as [| P L2 IH]; intros L1 E; [constructor |]. constructor.
    - apply (IH (L1 ++ [P])). rewrite <- app_assoc. exact E.
    - apply Forall_forall. intros Q HQ i j Hi Hj. destruct (load_split _ _ _ E) as (f & m & H1 & _ & H2 & _).
      assert (Hc : j ∈ concat (map PhSecs L2)).
      { apply list_elem_of_In, in_concat. exists (PhSecs Q). split; [apply in_map |]; apply list_elem_of_In; assumption. }
      rewrite H2 in Hc. rewrite H1 in Hi. apply elem_of_seq in Hi, Hc. lia. }
  exact (H [] _ eq_refl).
Qed.

Lemma PtLoad_find (i : nat) (P : PhdrEntry) : PtLoad Phdrs i = Some P → P ∈ loads Phdrs ∧ i ∈ PhSecs P.
Proof.
  intros H. apply List.find_some in H as [H1 H2]. apply andb_prop in H2 as [H2 H3]. apply bool_decide_eq_true_1 in H3.
  split; [| exact H3]. apply elem_of_loads. split; [apply list_elem_of_In; exact H1 | exact H2].
Qed.

Lemma PtLoad_load (i : nat) (P : PhdrEntry) : P ∈ loads Phdrs → i ∈ PhSecs P → PtLoad Phdrs i = Some P.
Proof.
  intros H Hi. destruct (PtLoad Phdrs i) as [Q |] eqn:E.
  - apply PtLoad_find in E as [HQ HiQ]. f_equal. pose proof loads_sorted as HS.
    apply list_elem_of_lookup in H as (a & Ha). apply list_elem_of_lookup in HQ as (b & Hb).
    destruct (Nat.lt_trichotomy a b) as [Hab | [-> | Hab]]; [| congruence |]; exfalso.
    + assert (Hlt : before P Q); [| specialize (Hlt i i Hi HiQ); lia].
      exact (StronglySorted_at _ _ _ _ _ _ HS Ha Hb Hab).
    + assert (Hlt : before Q P); [| specialize (Hlt i i HiQ Hi); lia].
      exact (StronglySorted_at _ _ _ _ _ _ HS Hb Ha Hab).
  - exfalso. apply elem_of_loads in H as [H1 H2]. pose proof (List.find_none _ _ E P) as HF. cbn in HF.
    rewrite H2, bool_decide_true in HF by exact Hi. apply list_elem_of_In in H1. discriminate (HF H1).
Qed.

Lemma firstOf_run (P : PhdrEntry) (f m i : nat) :
  P ∈ loads Phdrs → PhSecs P = seq f (S m) → (f ≤ i ≤ f + m)%nat → firstOf i = Some f.
Proof.
  intros H E Hi. unfold firstOf. rewrite (PtLoad_load i P H); [cbn; unfold FirstSec; rewrite E; reflexivity |].
  rewrite E. apply elem_of_seq. lia.
Qed.

Lemma firstOf_Some (i f : nat) :
  firstOf i = Some f → ∃ P m, P ∈ loads Phdrs ∧ PhSecs P = seq f (S m) ∧ (f ≤ i ≤ f + m)%nat ∧ (f + m < n)%nat.
Proof.
  unfold firstOf. destruct (PtLoad Phdrs i) as [P |] eqn:E; [| discriminate]. cbn. intros H. apply PtLoad_find in E as [HL Hi].
  destruct (load_run P HL) as (f' & m & HS & Hm). unfold FirstSec in H. rewrite HS in H. injection H as ->.
  rewrite HS in Hi. apply elem_of_seq in Hi. exists P, m. repeat split; [exact HL | exact HS | lia ..].
Qed.

Lemma firstOf_self (i f : nat) : firstOf i = Some f → firstOf f = Some f ∧ (f ≤ i < n)%nat.
Proof. intros H. destruct (firstOf_Some i f H) as (P & m & HL & HS & Hi & Hm). split; [eapply firstOf_run; [eassumption .. | lia] | lia]. Qed.

Lemma firstOf_pred (i f : nat) : firstOf i = Some f → (f < i)%nat → firstOf (i - 1) = Some f.
Proof. intros H Hlt. destruct (firstOf_Some i f H) as (P & m & HL & HS & Hi & _). eapply firstOf_run; [eassumption .. | lia]. Qed.

Lemma firstOf_total (i : nat) : (i < n)%nat → ∃ f, firstOf i = Some f.
Proof.
  intros Hi. assert (H : i ∈ concat (map PhSecs (loads Phdrs))) by (rewrite (partition_all _ _ HP); apply elem_of_seq; lia).
  apply list_elem_of_In, in_concat in H as (l & Hl & Hin). apply in_map_iff in Hl as (P & <- & HPl).
  apply list_elem_of_In in HPl, Hin. destruct (load_run P HPl) as (f & m & E & _). exists f. rewrite E in Hin. apply elem_of_seq in Hin.
  eapply firstOf_run; [exact HPl | exact E | lia].
Qed.

(** After the last section of a segment comes the first of another, or none. *)
Lemma firstOf_next (P : PhdrEntry) (f m : nat) :
  P ∈ loads Phdrs → PhSecs P = seq f (S m) → (S (f + m) < n)%nat → firstOf (S (f + m)) = Some (S (f + m)).
Proof.
  intros H E Hlt. destruct (firstOf_total _ Hlt) as (f' & Hf). rewrite Hf. f_equal.
  destruct (firstOf_self _ _ Hf) as [_ Hb]. destruct (decide (f' = S (f + m))) as [| Hne]; [assumption |].
  pose proof (firstOf_pred _ _ Hf ltac:(lia)) as H1. replace (S (f + m) - 1)%nat with (f + m)%nat in H1 by lia.
  rewrite (firstOf_run P f m) in H1 by (assumption || lia). injection H1 as <-.
  destruct (firstOf_Some _ _ Hf) as (Q & mq & HQ & EQ & Hq & _).
  assert (HPQ : PtLoad Phdrs f = Some P) by (apply PtLoad_load; [exact H | rewrite E; apply elem_of_seq; lia]).
  rewrite (PtLoad_load f Q) in HPQ by (exact HQ || (rewrite EQ; apply elem_of_seq; lia)). injection HPQ as ->.
  rewrite E in EQ. apply (f_equal length) in EQ. rewrite !length_seq in EQ. lia.
Qed.
End partition.

(** ** File offsets *)
Lemma alignTo_skew (V A s : Z) : 0 < A → (A | s) → alignTo V A s = alignTo V A 0.
Proof. intros HA HS. unfold alignTo. apply Z.mod_divide in HS; [| lia]. rewrite HS, Z.mod_0_l by lia. reflexivity. Qed.

Section offsets.
Context (All : list Placed) (Phdrs : list PhdrEntry) (n : nat).

Definition sec (i : nat) : Placed := nth i All (mkPlaced 0 1 0 0 []).
Definition addr (i : nat) : Z := PlAddr (sec i).
Definition size (i : nat) : Z := PlSize (sec i).
Definition nobits (i : nat) : bool := PlType (sec i) =? SHT_NOBITS.
Definition fsize (i : nat) : Z := if nobits i then 0 else size i.
Definition ofs (Offs : list Z) (i : nat) : Z := nth i Offs 0.

(** The sections as [assignAddresses] leaves them: those of the memory image, the
    headers included, one after another, and each segment at a page. *)
Record addresses_ok : Prop := {
  ao_partition : partition Phdrs n;
  ao_length : (n ≤ length All)%nat ∧ Z.of_nat (length All) < 2 ^ 15;
  ao_sec : ∀ i, (i < length All)%nat → 0 ≤ addr i ∧ 0 ≤ size i < 2 ^ 40 ∧ pow2 (PlAlignment (sec i));
  ao_ascending : ∀ i j, (i < j < n)%nat → addr i + size i ≤ addr j;
  ao_top : ∀ i, (i < n)%nat → addr i + size i ≤ 2 ^ 58;
  ao_first : ∀ i, firstOf Phdrs i = Some i → (MaxPageSize | addr i) ∧ (PlAlignment (sec i) | addr i)
}.

Context (HA : addresses_ok) (LastRX : option nat).
Context (HRX : ∀ i f, LastRX = Some i → firstOf Phdrs (S i) = Some f → f = S i).

Definition top (i : nat) : Z :=
  if decide (i ≤ n)%nat then match i with O => 0 | S j => addr j + size j end else 2 ^ 58.

(** The offsets of the sections up to one, and the end of the file so far. *)
Record laid (Offs : list Z) (Off : Z) : Prop := {
  laid_zero : if decide (length Offs = 0)%nat then Off = 0 else firstOf Phdrs 0 = Some 0%nat → ofs Offs 0 = 0;
  laid_bound : 0 ≤ Off ≤ top (length Offs) + Z.of_nat (length Offs) * 2 ^ 41;
  laid_below : ∀ j, (j < length Offs)%nat → 0 ≤ ofs Offs j ∧ ofs Offs j + fsize j ≤ Off;
  laid_order : ∀ j k, (j < k < length Offs)%nat → ofs Offs j + fsize j ≤ ofs Offs k;
  laid_in : ∀ j f, (j < length Offs)%nat → firstOf Phdrs j = Some f →
    if nobits j then ofs Offs j ≤ ofs Offs f + (addr j - addr f) else ofs Offs j = ofs Offs f + (addr j - addr f);
  laid_next : ∀ f, firstOf Phdrs (length Offs) = Some f → (f < length Offs)%nat →
    Off ≤ ofs Offs f + (addr (length Offs - 1) + size (length Offs - 1) - addr f);
  laid_first : ∀ j, (j < length Offs)%nat → firstOf Phdrs j = Some j →
    (MaxPageSize | ofs Offs j) ∧ ofs Offs j ≤ addr j + Z.of_nat (S j) * 2 ^ 41;
  laid_page : ∀ j, LastRX = Some j → (j < length Offs)%nat →
    alignUp (ofs Offs j + fsize j) ≤ Off ∧ ∀ k, (j < k < length Offs)%nat → alignUp (ofs Offs j + fsize j) ≤ ofs Offs k
}.

Lemma fsize_range (i : nat) : (i < length All)%nat → 0 ≤ fsize i ≤ size i ∧ size i < 2 ^ 40.
Proof. intros Hi. destruct (ao_sec HA i Hi) as (_ & Hs & _). unfold fsize. destruct (nobits i); lia. Qed.

Lemma top_range (i : nat) : (i ≤ length All)%nat → top i ≤ 2 ^ 58.
Proof. intros Hi. unfold top. destruct (decide _); [destruct i; [lia | apply (ao_top HA); lia] | lia]. Qed.

Lemma top_le (i : nat) : (i < n)%nat → top i ≤ addr i.
Proof.
  intros Hi. pose proof (ao_length HA). unfold top. rewrite decide_True by lia. destruct i as [| j].
  - apply (ao_sec HA 0). lia.
  - apply (ao_ascending HA). lia.
Qed.

Lemma laid_nil : laid [] 0.
Proof.
  split; cbn [length]; try (intros; lia); [reflexivity |]. unfold top. rewrite decide_True by lia. lia.
Qed.

Lemma ofs_app (Offs : list Z) (o : Z) (j : nat) : (j < length Offs)%nat → ofs (Offs ++ [o]) j = ofs Offs j.
Proof. intros H. apply app_nth1. exact H. Qed.

Lemma ofs_last (Offs : list Z) (o : Z) : ofs (Offs ++ [o]) (length Offs) = o.
Proof. unfold ofs. rewrite app_nth2, Nat.sub_diag by lia. reflexivity. Qed.

Lemma sec_lookup (i : nat) : (i < length All)%nat → All !! i = Some (sec i).
Proof. intros H. unfold sec. rewrite nth_lookup. destruct (lookup_lt_is_Some_2 All i H) as [x ->]. reflexivity. Qed.

Lemma ofs_lookup (Offs : list Z) (i : nat) : (i < length Offs)%nat → Offs !! i = Some (ofs Offs i).
Proof. intros H. unfold ofs. rewrite nth_lookup. destruct (lookup_lt_is_Some_2 Offs i H) as [x ->]. reflexivity. Qed.

Lemma setOffset_spec (Offs : list Z) (Off : Z) :
  laid Offs Off → (length Offs < length All)%nat →
  ∃ Offset, setOffset All Phdrs Offs (length Offs) (sec (length Offs)) Off = Ret (Offset, Offset + fsize (length Offs)) ∧ Off ≤ Offset ∧
    match firstOf Phdrs (length Offs) with
    | Some f =>
        if decide (f = length Offs) then Offset < Off + 2 ^ 32 ∧ (MaxPageSize | Offset) ∧ (Off = 0 → Offset = 0)
        else if nobits (length Offs) then Offset = Off
        else Offset = ofs Offs f + (addr (length Offs) - addr f)
    | None => Offset < Off + 2 ^ 32
    end.
Proof.
  intros HL Hi. set (i := length Offs) in *. destruct (ao_sec HA i Hi) as (Ha & Hs & Hal). pose proof (pow2_bounds _ Hal) as Hab.
  pose proof (laid_bound _ _ HL) as HB. fold i in HB. pose proof (top_range i ltac:(lia)) as Ht. pose proof (ao_length HA) as Hlen.
  pose proof (fsize_range i Hi) as Hfs.
  assert (∃ Offset, getFileAlignment All Phdrs Offs i (sec i) Off = Ret Offset ∧ Off ≤ Offset ≤ 2 ^ 61 ∧
    match firstOf Phdrs i with
    | Some f => if decide (f = i) then Offset < Off + 2 ^ 32 ∧ (MaxPageSize | Offset) ∧ (Off = 0 → Offset = 0) else if nobits i then Offset = Off else Offset = ofs Offs f + (addr i - addr f)
    | None => Offset < Off + 2 ^ 32
    end) as (Offset & HG & Hle & HR).
  { unfold getFileAlignment. change (PtLoad Phdrs i ≫= FirstSec) with (firstOf Phdrs i). fold (nobits i). destruct (firstOf Phdrs i) as [f |] eqn:Ef.
    - destruct (decide (f = i)) as [-> | Hne].
      + destruct (ao_first HA i Ef) as [Hp Hd]. pose proof (pow2_bounds _ (pow2_max _ _ Hal pow2_page)) as Hmb.
        rewrite alignTo_skew; [| lia | unfold addr; destruct (Z.max_spec (PlAlignment (sec i)) MaxPageSize) as [[_ ->] | [_ ->]]; assumption].
        destruct (alignTo_spec Off (Z.max (PlAlignment (sec i)) MaxPageSize)) as (r & -> & Hr & Hrd); [lia .. |].
        exists r. split; [reflexivity |]. split; [lia |]. split; [lia |].
        split; [| intros ->; pose proof (divide_least (Z.max (PlAlignment (sec i)) MaxPageSize) r 0 0 ltac:(lia) Hrd (Z.divide_0_r _) ltac:(lia)); lia].
        etransitivity; [apply (pow2_divide MaxPageSize _ pow2_page (pow2_max _ _ Hal pow2_page)); lia | exact Hrd].
      + destruct (firstOf_self _ _ (ao_partition HA) _ _ Ef) as [Ef' Hf]. assert (Hfi : (f < i)%nat) by lia.
        pose proof (laid_next _ _ HL f Ef Hfi) as HN. fold i in HN. destruct (laid_first _ _ HL f Hfi Ef') as [_ HF].
        assert (Hasc : addr f + size f ≤ addr i) by (apply (ao_ascending HA); lia).
        assert (Hprev : addr (i - 1) + size (i - 1) ≤ addr i) by (apply (ao_ascending HA); lia).
        pose proof (ao_top HA i ltac:(lia)) as Htop. destruct (laid_below _ _ HL f Hfi) as [Hf0 _].
        destruct (ao_sec HA f ltac:(lia)) as (Haf & Hsf & _).
        destruct (nobits i) eqn:En; [exists Off; repeat split; lia |].
        rewrite (ofs_lookup Offs f Hfi), (sec_lookup f ltac:(lia)). fold (addr f) (addr i).
        rewrite uint_small by lia. eexists. split; [reflexivity |]. split; lia.
    - destruct (nobits i) eqn:En; [exists Off; repeat split; lia |].
      destruct (alignTo_spec Off (PlAlignment (sec i))) as (r & -> & Hr & _); [lia .. |]. exists r. split; [reflexivity |]. split; lia. }
  exists Offset. split; [| split; [lia | exact HR]]. unfold setOffset. rewrite HG, outcome_bind_ret. unfold fsize. fold (nobits i).
  destruct (nobits i) eqn:En; [rewrite Z.add_0_r; reflexivity |]. fold (size i). rewrite uint_small by lia. reflexivity.
Qed.

Lemma laid_step (Offs : list Z) (Off Offset Off' : Z) :
  laid Offs Off → (length Offs < length All)%nat → Off ≤ Offset →
  match firstOf Phdrs (length Offs) with
  | Some f =>
      if decide (f = length Offs) then Offset < Off + 2 ^ 32 ∧ (MaxPageSize | Offset) ∧ (Off = 0 → Offset = 0)
      else if nobits (length Offs) then Offset = Off
      else Offset = ofs Offs f + (addr (length Offs) - addr f)
  | None => Offset < Off + 2 ^ 32
  end →
  (if bool_decide (LastRX = Some (length Offs)) then Off' = alignUp (Offset + fsize (length Offs)) else Off' = Offset + fsize (length Offs)) →
  laid (Offs ++ [Offset]) Off'.
Proof.
  intros HL Hi Hle HR HO. set (i := length Offs) in *. pose proof (ao_length HA) as [Hn Hlen]. pose proof (fsize_range i Hi) as Hfs.
  destruct (ao_sec HA i Hi) as (Ha & Hs & _). destruct HL as [LZ LB LL LO LI LN LF LP]. fold i in LZ, LB, LL, LO, LI, LN, LF, LP.
  pose proof (top_range i ltac:(lia)) as Ht. pose proof (top_range (S i) ltac:(lia)) as Ht'.
  assert (HoB : Offset + fsize i ≤ top (S i) + Z.of_nat i * 2 ^ 41 + 2 ^ 41 - 2 ^ 13 ∧
                (firstOf Phdrs i = Some i → Offset ≤ addr i + Z.of_nat (S i) * 2 ^ 41)).
  { destruct (firstOf Phdrs i) as [f |] eqn:Ef.
    - destruct (firstOf_self _ _ (ao_partition HA) _ _ Ef) as [Ef' Hf]. pose proof (top_le i ltac:(lia)) as Hta.
      assert (HT : top (S i) = addr i + size i) by (unfold top; rewrite decide_True by lia; reflexivity). rewrite HT.
      destruct (decide (f = i)) as [-> | Hne]; [split; lia |]. split; [| congruence].
      destruct (LF f ltac:(lia) Ef') as [_ HF]. specialize (LN f eq_refl ltac:(lia)).
      assert (Hprev : addr (i - 1) + size (i - 1) ≤ addr i) by (apply (ao_ascending HA); lia).
      destruct (nobits i) eqn:En; unfold fsize in *; rewrite En in *; lia.
    - split; [| discriminate]. assert (HT : top (S i) = 2 ^ 58); [| rewrite HT; lia].
      unfold top. destruct (decide (S i ≤ n)%nat) as [Hc |]; [| reflexivity].
      destruct (firstOf_total _ _ (ao_partition HA) i ltac:(lia)). congruence. }
  destruct HoB as [HoB HoF]. assert (HO61 : 0 ≤ Offset + fsize i < 2 ^ 61) by lia.
  assert (HO' : Offset + fsize i ≤ Off' < Offset + fsize i + 4096).
  { destruct (bool_decide _); [rewrite HO; apply alignUp_spec; lia | lia]. }
  assert (HLen : length (Offs ++ [Offset]) = S i) by (rewrite length_app; cbn; lia).
  assert (Hlast : ofs (Offs ++ [Offset]) i = Offset) by apply ofs_last.
  assert (Hold : ∀ j, (j < i)%nat → ofs (Offs ++ [Offset]) j = ofs Offs j) by (intros j Hj; apply ofs_app; exact Hj).
  split; rewrite HLen.
  - destruct (decide (S i = 0)%nat); [lia |]. intros E0. destruct (decide (i = 0)%nat) as [Hi0 | Hi0].
    + rewrite <- Hi0 in E0 at 2. rewrite Hi0 in HR, Hlast. rewrite E0, decide_True in HR by congruence. rewrite Hlast. apply HR, LZ.
    + rewrite Hold by lia. apply LZ. exact E0.
  - lia.
  - intros j Hj. destruct (decide (j = i)) as [-> | Hne]; [rewrite Hlast; lia |]. rewrite Hold by lia. specialize (LL j ltac:(lia)). lia.
  - intros j k Hjk. rewrite Hold by lia. destruct (decide (k = i)) as [-> | Hne].
    + rewrite Hlast. specialize (LL j ltac:(lia)). lia.
    + rewrite Hold by lia. apply LO. lia.
  - intros j f Hj Ef. destruct (decide (j = i)) as [-> | Hne].
    + rewrite Hlast. rewrite Ef in HR. destruct (decide (f = i)) as [-> | Hf]; [rewrite Hlast; destruct (nobits i); lia |].
      destruct (firstOf_self _ _ (ao_partition HA) _ _ Ef) as [Ef' Hf']. rewrite Hold by lia.
      destruct (nobits i) eqn:En; [| exact HR]. specialize (LN f Ef ltac:(lia)).
      assert (Hprev : addr (i - 1) + size (i - 1) ≤ addr i) by (apply (ao_ascending HA); lia). lia.
    + destruct (firstOf_self _ _ (ao_partition HA) _ _ Ef) as [Ef' Hf']. rewrite !Hold by lia. apply LI; [lia | exact Ef].
  - intros f Ef Hf. replace (S i - 1)%nat with i by lia.
    assert (Hrx : bool_decide (LastRX = Some i) = false).
    { apply bool_decide_eq_false. intros E. pose proof (HRX i f E Ef). lia. }
    rewrite Hrx in HO. subst Off'.
    pose proof (firstOf_pred _ _ (ao_partition HA) _ _ Ef Hf) as Ep. replace (S i - 1)%nat with i in Ep by lia. rewrite Ep in HR.
    destruct (decide (f = i)) as [-> | Hne]; [rewrite Hlast; lia |]. rewrite Hold by lia. specialize (LN f Ep ltac:(lia)).
    destruct (firstOf_self _ _ (ao_partition HA) _ _ Ep) as [_ Hin].
    assert (Hprev : addr (i - 1) + size (i - 1) ≤ addr i) by (apply (ao_ascending HA); lia).
    destruct (nobits i) eqn:En; unfold fsize in *; rewrite En in *; lia.
  - intros j Hj Ef. destruct (decide (j = i)) as [-> | Hne].
    + rewrite Hlast. rewrite Ef, decide_True in HR by reflexivity. split; [apply (proj2 HR) | exact (HoF Ef)].
    + rewrite Hold by lia. apply LF; [lia | exact Ef].
  - intros j Ej Hj. destruct (decide (j = i)) as [-> | Hne].
    + rewrite bool_decide_true in HO by exact Ej. rewrite Hlast. split; [lia | intros k Hk; lia].
    + rewrite Hold by lia. destruct (LP j Ej ltac:(lia)) as [H1 H2]. split; [lia |]. intros k Hk.
      destruct (decide (k = i)) as [-> | Hk']; [rewrite Hlast; lia |]. rewrite Hold by lia. apply H2. lia.
Qed.

Lemma setOffsets_spec (Cmds : list Placed) (Offs : list Z) (Off : Z) :
  laid Offs Off → drop (length Offs) All = Cmds → (length Offs ≤ length All)%nat →
  ∃ Offs' Off', setOffsets All Phdrs LastRX Offs Off Cmds = Ret (Offs', Off') ∧ laid Offs' Off' ∧ length Offs' = length All.
Proof.
  revert Offs Off. induction Cmds as [| Cmd Cmds IH]; intros Offs Off HL HD Hle; cbn [setOffsets].
  - exists Offs, Off. split; [reflexivity |]. split; [exact HL |]. apply (f_equal length) in HD. rewrite length_drop in HD. cbn in HD. lia.
  - assert (Hi : (length Offs < length All)%nat) by (apply (f_equal length) in HD; rewrite length_drop in HD; cbn in HD; lia).
    assert (HC : Cmd = sec (length Offs)).
    { pose proof (sec_lookup _ Hi) as Hs. rewrite <- (Nat.add_0_r (length Offs)), <- lookup_drop, HD in Hs. injection Hs as Hs.
      rewrite Hs, Nat.add_0_r. reflexivity. }
    cbn zeta. rewrite HC. destruct (setOffset_spec Offs Off HL Hi) as (Offset & -> & Hge & HR). rewrite outcome_bind_ret.
    pose proof (fsize_range _ Hi) as Hfs.
    set (Off' := if bool_decide (LastRX = Some (length Offs)) then alignUp (Offset + fsize (length Offs)) else Offset + fsize (length Offs)).
    assert (HL' : laid (Offs ++ [Offset]) Off').
    { eapply laid_step; [exact HL | exact Hi | exact Hge | exact HR |]. unfold Off'. destruct (bool_decide _); reflexivity. }
    assert (HE : (if bool_decide (LastRX = Some (length Offs)) then alignTo (Offset + fsize (length Offs)) (PageSize Nyuzi_TargetInfo) 0
                  else Ret (Offset + fsize (length Offs))) = Ret Off').
    { unfold Off'. destruct (bool_decide _) eqn:Eb; [| reflexivity].
      pose proof (laid_below _ _ HL' (length Offs)) as HB. rewrite length_app, ofs_last in HB. cbn [length] in HB.
      specialize (HB ltac:(lia)). pose proof (laid_bound _ _ HL') as HB'. rewrite length_app in HB'. cbn [length] in HB'.
      pose proof (top_range (length Offs + 1) ltac:(lia)). pose proof (ao_length HA).
      unfold alignTo, alignUp. change (PageSize Nyuzi_TargetInfo) with 4096. change (4096 =? 0) with false. cbn [negb cassert].
      rewrite outcome_bind_ret, Z.mod_0_l, Z.sub_0_r, Z.add_0_r by lia. f_equal. apply uint_uint. }
    rewrite HE, outcome_bind_ret. apply IH; [exact HL' | | rewrite length_app; cbn; lia].
    rewrite length_app. cbn [length]. rewrite <- drop_drop, HD. reflexivity.
Qed.
End offsets.

(** ** Addresses of the memory image *)
Lemma chain_alloc (PA : list nat) (Alloc Rest : list OutputSection) (Pls : list Placed) (i : nat) (Dot : Z) :
  Forall (λ Sec, isAlloc Sec = true) Alloc → Forall2 placed_ok (Alloc ++ Rest) Pls → chain PA i Dot (Alloc ++ Rest) Pls →
  ∀ j Pl, (j < length Alloc)%nat → Pls !! j = Some Pl →
    Dot ≤ PlAddr Pl ∧ PlAddr Pl + PlSize Pl ≤ Dot + Z.of_nat (S j) * 2 ^ 41 ∧
    ((i + j)%nat ∈ PA → (MaxPageSize | PlAddr Pl)) ∧
    ∀ k Pk, (j < k < length Alloc)%nat → Pls !! k = Some Pk → PlAddr Pl + PlSize Pl ≤ PlAddr Pk.
Proof.
  intros HA. revert Pls i Dot. induction HA as [| Sec Alloc HSec HA IH]; intros Pls i Dot HF HC j Pl Hj HPl; [cbn in Hj; lia |].
  cbn [app] in HF, HC. apply Forall2_cons_inv_l in HF as (P & Pls' & HP & HF & ->). cbn [chain] in HC. rewrite HSec in HC.
  destruct HC as [[HC1 HC2] HC]. pose proof (placed_size _ _ HP) as Hs. cbn [length] in Hj.
  destruct j as [| j].
  - injection HPl as <-. rewrite Nat.add_0_r. split; [lia |]. split; [lia |]. split; [exact HC2 |]. intros k Pk Hk HPk. cbn [length] in Hk.
    destruct k as [| k]; [lia |]. apply (IH _ _ _ HF HC k Pk); [lia | exact HPk].
  - destruct (IH _ _ _ HF HC j Pl ltac:(lia) HPl) as (H1 & H2 & H3 & H4). split; [lia |]. split; [lia |].
    split; [rewrite <- plus_n_Sm; exact H3 |]. intros k Pk Hk HPk. cbn [length] in Hk. destruct k as [| k]; [lia |].
    apply (H4 k Pk); [lia | exact HPk].
Qed.

Lemma chain_top (PA : list nat) (Secs : list OutputSection) (Pls : list Placed) (i : nat) (Dot : Z) :
  0 ≤ Dot → Forall2 placed_ok Secs Pls → chain PA i Dot Secs Pls →
  ∀ j Pl, Pls !! j = Some Pl → PlAddr Pl + PlSize Pl ≤ Dot + Z.of_nat (S j) * 2 ^ 41.
Proof.
  intros HD HF. revert i Dot HD. induction HF as [| Sec Pl0 Secs Pls HP HF IH]; intros i Dot HD HC j Pl Hj; [discriminate |].
  cbn [chain] in HC. destruct HC as [H HC]. pose proof (placed_size _ _ HP) as Hs. pose proof (placed_addr _ _ HP) as Ha.
  assert (HB : PlAddr Pl0 + PlSize Pl0 ≤ Dot + 2 ^ 41) by (destruct (isAlloc Sec); lia).
  destruct j as [| j]; [injection Hj as <-; lia |]. specialize (IH _ (PlAddr Pl0 + PlSize Pl0) ltac:(lia) HC j Pl Hj). lia.
Qed.

Lemma foldr_min_le (b : Z) (l : list Z) (x : Z) : x ∈ l → foldr Z.min b l ≤ x.
Proof. induction 1 as [| y l H IH]; cbn; lia. Qed.

Lemma foldr_min_ge (b m : Z) (l : list Z) : m ≤ b → Forall (λ x, m ≤ x) l → m ≤ foldr Z.min b l.
Proof. intros Hb. induction 1; cbn; lia. Qed.

(** The addresses of the headers: below every section, at a page. *)
Lemma allocateHeaders_spec (Phdrs : list PhdrEntry) (HeaderSize : Z) (Secs : list OutputSection) (Pls : list Placed) :
  0 ≤ HeaderSize →
  (∀ i Sec Pl, Secs !! i = Some Sec → Pls !! i = Some Pl → isAlloc Sec = true → HeaderSize ≤ PlAddr Pl ≤ 2 ^ 60) →
  (∃ i Sec Pl, Secs !! i = Some Sec ∧ Pls !! i = Some Pl ∧ isAlloc Sec = true) →
  ∃ E, allocateHeaders Phdrs HeaderSize Secs Pls = (E, u64 (E + Z.of_nat sizeof_Ehdr), Phdrs) ∧ 0 ≤ E ∧ (MaxPageSize | E) ∧
    ∀ i Sec Pl, Secs !! i = Some Sec → Pls !! i = Some Pl → isAlloc Sec = true → E + HeaderSize ≤ PlAddr Pl.
Proof.
  intros HH HB (i0 & S0 & P0 & HS0 & HP0 & HA0). unfold allocateHeaders.
  set (l := omap (λ '(Sec, Pl), if has_flag (OSFlags Sec) SHF_ALLOC then Some (PlAddr Pl) else None) (zip Secs Pls)).
  assert (Hin : ∀ i Sec Pl, Secs !! i = Some Sec → Pls !! i = Some Pl → isAlloc Sec = true → PlAddr Pl ∈ l).
  { intros i Sec Pl HS HP HA. unfold l. apply list_elem_of_omap. exists (Sec, Pl). split.
    - apply (list_elem_of_lookup_2 _ i). rewrite lookup_zip_with, HS. cbn. rewrite HP. reflexivity.
    - change (has_flag (OSFlags Sec) SHF_ALLOC) with (isAlloc Sec). rewrite HA. reflexivity. }
  assert (HF : Forall (λ x, HeaderSize ≤ x) l).
  { apply Forall_forall. intros x Hx. apply list_elem_of_omap in Hx as ([Sec Pl] & Hz & Hx).
    apply list_elem_of_lookup in Hz as (i & Hz). rewrite lookup_zip_with in Hz.
    destruct (Secs !! i) as [Sec' |] eqn:HS; [| discriminate]. cbn in Hz. destruct (Pls !! i) as [Pl' |] eqn:HP; [| discriminate].
    cbn in Hz. injection Hz as -> ->. change (has_flag (OSFlags Sec) SHF_ALLOC) with (isAlloc Sec) in Hx.
    destruct (isAlloc Sec) eqn:HA; [| discriminate]. injection Hx as <-. apply (HB i Sec Pl HS HP HA). }
  pose proof (Hin _ _ _ HS0 HP0 HA0) as Hin0. pose proof (HB _ _ _ HS0 HP0 HA0) as HB0.
  assert (Hm : HeaderSize ≤ foldr Z.min (2 ^ 64 - 1) l ≤ 2 ^ 60).
  { split; [apply foldr_min_ge; [lia | exact HF] |]. pose proof (foldr_min_le (2 ^ 64 - 1) l _ Hin0). lia. }
  destruct (Z.leb_spec HeaderSize (foldr Z.min (2 ^ 64 - 1) l)) as [_ | Hc]; [| lia].
  destruct (alignDown_spec (foldr Z.min (2 ^ 64 - 1) l - HeaderSize) ltac:(lia)) as (H1 & H2 & H3).
  eexists. split; [reflexivity |]. split; [exact H2 |]. split; [exact H3 |]. intros i Sec Pl HS HP HA.
  pose proof (foldr_min_le (2 ^ 64 - 1) l _ (Hin i Sec Pl HS HP HA)). unfold MaxPageSize. lia.
Qed.

Lemma headers_addresses_ok (Phdrs : list PhdrEntry) (PA : list nat) (Alloc Rest : list OutputSection) (Pls : list Placed) (Dot E PhdrsSize : Z) :
  partition Phdrs (2 + length Alloc) → (∃ P m, P ∈ loads Phdrs ∧ PhSecs P = [0%nat; 1%nat] ++ m) →
  (∀ P f, P ∈ loads Phdrs → FirstSec P = Some f → f ∈ PA) →
  Forall (λ Sec, isAlloc Sec = true) Alloc → Forall section_ok (Alloc ++ Rest) → Forall2 placed_ok (Alloc ++ Rest) Pls →
  chain PA 2 Dot (Alloc ++ Rest) Pls →
  0 ≤ PhdrsSize < 2 ^ 32 → 0 ≤ Dot ≤ 2 ^ 40 → 0 ≤ E ≤ 2 ^ 57 → (MaxPageSize | E) → Z.of_nat (length (Alloc ++ Rest)) < 2 ^ 14 →
  (∀ j Pl, (j < length Alloc)%nat → Pls !! j = Some Pl → E + (Z.of_nat sizeof_Ehdr + PhdrsSize) ≤ PlAddr Pl) →
  addresses_ok (headerSections E (u64 (E + Z.of_nat sizeof_Ehdr)) PhdrsSize ++ Pls) Phdrs (2 + length Alloc).
Proof.
  intros HPart (P01 & m & HP01 & E01) HPA HA HS HF HC HZ HD HE HEp HLen HB.
  change (Z.of_nat sizeof_Ehdr) with 52 in *. rewrite uint_small by lia.
  pose proof (Forall2_length _ _ _ HF) as HL. rewrite length_app in HL, HLen.
  set (All := headerSections E (E + 52) PhdrsSize ++ Pls).
  assert (HAl : length All = (2 + length Pls)%nat) by reflexivity.
  assert (Hsec : ∀ j, (j < length Pls)%nat → ∃ Sec Pl, (Alloc ++ Rest) !! j = Some Sec ∧ Pls !! j = Some Pl ∧ sec All (S (S j)) = Pl ∧ placed_ok Sec Pl).
  { intros j Hj. destruct (lookup_lt_is_Some_2 Pls j Hj) as [Pl HPl]. destruct (Forall2_lookup_r _ _ _ _ _ HF HPl) as (Sec & HSec & HP).
    exists Sec, Pl. split; [exact HSec |]. split; [exact HPl |]. split; [| exact HP]. unfold sec, All. cbn [app nth headerSections]. rewrite nth_lookup, HPl. reflexivity. }
  assert (Hal : ∀ j, (j < length Alloc)%nat → ∃ Pl, Pls !! j = Some Pl ∧ sec All (S (S j)) = Pl).
  { intros j Hj. destruct (Hsec j ltac:(lia)) as (Sec & Pl & _ & HPl & HE' & _). eauto. }
  pose proof (chain_alloc PA Alloc Rest Pls 2 Dot HA HF HC) as HCh.
  assert (H1 : firstOf Phdrs 1 = Some 0%nat).
  { destruct (load_run _ _ HPart P01 HP01) as (f & k & ER & Hk). pose proof ER as ER'. rewrite E01 in ER.
    destruct k as [| k]; [discriminate |]. assert (f = 0%nat) as -> by (cbn in ER; congruence).
    eapply firstOf_run; [exact HPart | exact HP01 | exact ER' | lia]. }
  assert (Hs0 : sec All 0 = mkPlaced 0 1 E 52 []) by reflexivity.
  assert (Hs1 : sec All 1 = mkPlaced 0 4 (E + 52) PhdrsSize []) by reflexivity.
  split; try exact HPart; try (rewrite HAl; lia).
  - intros i Hi. unfold addr, size. destruct i as [| [| j]].
    + rewrite Hs0. cbn [PlAddr PlSize PlAlignment]. split; [lia |]. split; [lia | exact pow2_1].
    + rewrite Hs1. cbn [PlAddr PlSize PlAlignment]. split; [lia |]. split; [lia |]. exists 2. split; [lia | reflexivity].
    + destruct (Hsec j ltac:(lia)) as (Sec & Pl & HSec & _ & -> & HP). split; [apply (placed_addr _ _ HP) |]. split; [apply (placed_size _ _ HP) |].
      rewrite (placed_alignment _ _ HP). rewrite Forall_lookup in HS. apply (section_alignment _ (HS _ _ HSec)).
  - intros i j Hij. unfold addr, size. destruct j as [| [| j]]; [lia | | destruct (Hal j ltac:(lia)) as (Pj & HPj & ->); specialize (HB j Pj ltac:(lia) HPj)].
    + destruct i as [| i]; [rewrite Hs0, Hs1; cbn [PlAddr PlSize]; lia | lia].
    + destruct i as [| [| i]]; [rewrite Hs0; cbn [PlAddr PlSize]; lia | rewrite Hs1; cbn [PlAddr PlSize]; lia |]. destruct (Hal i ltac:(lia)) as (Pi & HPi & ->).
      destruct (HCh i Pi ltac:(lia) HPi) as (_ & _ & _ & H). apply (H j Pj); [lia | exact HPj].
  - intros i Hi. unfold addr, size. destruct i as [| [| j]]; [rewrite Hs0; cbn [PlAddr PlSize]; lia | rewrite Hs1; cbn [PlAddr PlSize]; lia |]. destruct (Hal j ltac:(lia)) as (Pl & HPl & ->).
    destruct (HCh j Pl ltac:(lia) HPl) as (_ & H & _). lia.
  - intros i Hi. destruct i as [| [| j]].
    + unfold addr. rewrite Hs0. cbn [PlAddr PlAlignment]. split; [exact HEp | exists E; lia].
    + congruence.
    + destruct (firstOf_Some _ _ HPart _ _ Hi) as (P & k & HP & EP & Hk & Hn).
      assert (Hin : (2 + j)%nat ∈ PA) by (apply (HPA P); [exact HP | unfold FirstSec; rewrite EP; reflexivity]).
      destruct (Hsec j ltac:(lia)) as (Sec & Pl & _ & HPl & Es & HPo). unfold addr. rewrite Es.
      destruct (HCh j Pl ltac:(lia) HPl) as (_ & _ & H & _). split; [exact (H Hin) |].
      rewrite (placed_alignment _ _ HPo). exact (placed_aligned _ _ HPo).
Qed.

Lemma FirstSec_aligned (Phdrs : list PhdrEntry) (Secs : list OutputSection) (P : PhdrEntry) (f : nat) :
  P ∈ loads Phdrs → FirstSec P = Some f → f ∈ fixSectionAlignments Phdrs Secs.
Proof. intros H E. unfold fixSectionAlignments. apply elem_of_app. left. apply list_elem_of_omap. exists P. auto. Qed.

Lemma removeEmpty_elem (All : list Placed) (Phdrs : list PhdrEntry) (P : PhdrEntry) : P ∈ removeEmptyPTLoad All Phdrs → P ∈ Phdrs.
Proof. unfold removeEmptyPTLoad. rewrite !list_elem_of_In, List.filter_In. tauto. Qed.

Lemma last_run (P : PhdrEntry) (f m : nat) : PhSecs P = seq f (S m) → LastSec P = Some (f + m)%nat.
Proof. intros H. unfold LastSec. rewrite H, seq_S. apply last_snoc. Qed.

(** The last section of the last executable segment. *)
Definition lastRX (Kept : list PhdrEntry) : option nat := last (List.filter isRX Kept) ≫= LastSec.

Lemma lastRX_spec (Kept Phdrs : list PhdrEntry) (n i : nat) :
  partition Phdrs n → (∀ P, P ∈ Kept → P ∈ Phdrs) → lastRX Kept = Some i →
  ∃ P f m, P ∈ Kept ∧ isRX P = true ∧ P ∈ loads Phdrs ∧ PhSecs P = seq f (S m) ∧ i = (f + m)%nat ∧ (f + m < n)%nat.
Proof.
  intros HP HK H. unfold lastRX in H. destruct (last (List.filter isRX Kept)) as [P |] eqn:E; [| discriminate]. cbn in H.
  apply last_Some_elem_of, list_elem_of_In, List.filter_In in E as [E HX]. apply list_elem_of_In in E.
  assert (HL : P ∈ loads Phdrs) by (apply elem_of_loads; split; [exact (HK _ E) | unfold isRX in HX; apply andb_prop in HX; tauto]).
  destruct (load_run _ _ HP P HL) as (f & m & ER & Hm). rewrite (last_run _ _ _ ER) in H. injection H as <-.
  exists P, f, m. repeat split; try assumption; lia.
Qed.

(** The types of program headers are 32-bit values. *)
Definition type32 (P : PhdrEntry) : Prop := 0 ≤ PhType P < 2 ^ 32.

Lemma addLoads_types (i : nat) (Load : PhdrEntry) (Secs : list OutputSection) : type32 Load → Forall type32 (addLoads i Load Secs).
Proof.
  unfold type32. revert i Load. induction Secs as [| Sec Secs IH]; intros i Load H; cbn [addLoads]; [repeat constructor; apply H |].
  destruct (negb _); [repeat constructor; apply H |]. destruct (negb _); [apply IH, H |]. destruct (_ =? _); [apply IH; exact H |].
  constructor; [exact H |]. apply IH. cbn. unfold PT_LOAD. lia.
Qed.

Lemma addNotes_types (i : nat) (Note : option PhdrEntry) (Secs : list OutputSection) :
  Forall type32 (option_list Note) → Forall type32 (addNotes i Note Secs).
Proof.
  unfold type32. revert i Note. induction Secs as [| Sec Secs IH]; intros i Note H; cbn [addNotes]; [exact H |]. destruct (_ =? _).
  - apply IH. destruct Note as [P |]; cbn; [apply Forall_cons in H as [H _]; repeat constructor; apply H | repeat constructor; cbn; unfold PT_NOTE; lia].
  - apply Forall_app. split; [exact H | apply IH; constructor].
Qed.

Lemma createPhdrs_types (Secs : list OutputSection) : Forall type32 (createPhdrs Secs).1.
Proof.
  unfold createPhdrs. destruct (addRelro 2 false false Secs) as [Relro Errs]. cbn [fst]. rewrite !Forall_app.
  split; [repeat constructor; cbn; unfold PT_PHDR; lia |]. split; [apply addLoads_types; split; cbn; unfold PT_LOAD; lia |].
  split; [destruct Relro; repeat constructor; cbn; unfold PT_GNU_RELRO; lia |].
  split; [destruct (findSection _ _ _) as [[? ?] |]; [apply Forall_singleton; split; cbn; unfold PT_OPENBSD_RANDOMIZE; try lia | apply Forall_nil_2] |].
  split; [repeat constructor; cbn; unfold PT_GNU_STACK; lia | apply addNotes_types; constructor].
Qed.

Lemma length_addLoads (i : nat) (Load : PhdrEntry) (Secs : list OutputSection) : (length (addLoads i Load Secs) ≤ 1 + length Secs)%nat.
Proof.
  revert i Load. induction Secs as [| Sec Secs IH]; intros i Load; cbn [addLoads]; [cbn; lia |].
  destruct (negb _); [cbn; lia |]. destruct (negb _); [specialize (IH (S i) Load); cbn; lia |]. destruct (_ =? _).
  - specialize (IH (S i) (add Load i)). cbn; lia.
  - specialize (IH (S i) (mkPhdrEntry PT_LOAD (getPhdrFlags Sec) 0 [i])). cbn [length] in *. lia.
Qed.

Lemma length_addNotes (i : nat) (Note : option PhdrEntry) (Secs : list OutputSection) :
  (length (addNotes i Note Secs) ≤ length (option_list Note) + length Secs)%nat.
Proof.
  revert i Note. induction Secs as [| Sec Secs IH]; intros i Note; cbn [addNotes]; [lia |]. destruct (_ =? _).
  - eapply Nat.le_trans; [apply IH |]. destruct Note; cbn; lia.
  - rewrite length_app. specialize (IH (S i) None). cbn in *. lia.
Qed.

(** The sections of an executable segment hold instructions. *)
Lemma createPhdrs_exec (Secs : list OutputSection) (P : PhdrEntry) (i : nat) (Sec : OutputSection) :
  P ∈ (createPhdrs Secs).1 → isRX P = true → (2 + i)%nat ∈ PhSecs P → Secs !! i = Some Sec → has_flag (OSFlags Sec) SHF_EXECINSTR = true.
Proof.
  unfold createPhdrs. destruct (addRelro 2 false false Secs) as [Relro Errs]. cbn [fst]. rewrite !elem_of_app. intros HP HX Hi HS.
  assert (HL : isLoad P = true) by (apply andb_prop in HX; apply HX).
  destruct HP as [HP | [HP | [HP | [HP | [HP | HP]]]]].
  - apply list_elem_of_singleton in HP as ->. discriminate HL.
  - destruct (addLoads_flags _ _ _ _ _ HP Hi) as [[H1 _] | (Sec' & H1 & _ & H3)].
    { cbn [PhSecs] in H1. rewrite !elem_of_cons, elem_of_nil in H1. lia. }
    replace (2 + i - 2)%nat with i in H1 by lia. assert (Sec' = Sec) as -> by congruence.
    apply andb_prop in HX as [_ HX]. rewrite H3 in HX. unfold getPhdrFlags in HX.
    destruct (has_flag (OSFlags Sec) SHF_EXECINSTR); [reflexivity |]. destruct (has_flag (OSFlags Sec) SHF_WRITE); discriminate HX.
  - destruct Relro; [apply elem_of_nil in HP as [] |]. apply list_elem_of_singleton in HP as ->. discriminate HL.
  - destruct (findSection _ _ _) as [[? ?] |]; [| apply elem_of_nil in HP as []]. apply list_elem_of_singleton in HP as ->. discriminate HL.
  - apply list_elem_of_singleton in HP as ->. discriminate HL.
  - pose proof (addNotes_no_loads Secs 2 None I) as HF. rewrite Forall_forall in HF. rewrite (HF P HP) in HL. discriminate HL.
Qed.

Lemma length_createPhdrs (Secs : list OutputSection) : (length (createPhdrs Secs).1 ≤ 5 + 2 * length Secs)%nat.
Proof.
  unfold createPhdrs. destruct (addRelro 2 false false Secs) as [Relro Errs]. cbn [fst]. rewrite !length_app.
  pose proof (length_addLoads 2 (mkPhdrEntry PT_LOAD PF_R 0 [0%nat; 1%nat]) Secs). pose proof (length_addNotes 2 None Secs) as HN.
  change (length (option_list (@None PhdrEntry))) with 0%nat in HN. destruct Relro, (findSection _ _ _) as [[? ?] |]; cbn [length]; lia.
Qed.

(** What the layout of sorted sections is: [Phdrs] are the program headers the sections
    were added to, [n] the number of headers and sections in the memory image, [Off] the
    end of the last section. *)
Record layout_ok (Secs : list OutputSection) (Phdrs : list PhdrEntry) (n : nat) (Off : Z) (L : Layout) : Prop := {
  lo_addresses : addresses_ok (LaySections L) Phdrs n;
  lo_placed : Forall2 placed_ok Secs (drop 2 (LaySections L));
  lo_length : length (LaySections L) = (2 + length Secs)%nat;
  lo_offsets : length (LayOffsets L) = (2 + length Secs)%nat;
  lo_alloc : ∀ i Sec, Secs !! i = Some Sec → isAlloc Sec = true ↔ (2 + i < n)%nat;
  lo_ehdr : PlType (sec (LaySections L) 0) = 0 ∧ size (LaySections L) 0 = Z.of_nat sizeof_Ehdr ∧ ofs (LayOffsets L) 0 = 0;
  lo_phdrs : PlType (sec (LaySections L) 1) = 0 ∧ size (LaySections L) 1 = Z.of_nat sizeof_Phdr * Z.of_nat (length Phdrs) ∧
    ofs (LayOffsets L) 1 = Z.of_nat sizeof_Ehdr;
  lo_segments : LayPhdrs L = map (setPhdr (LaySections L) (LayOffsets L)) (removeEmptyPTLoad (LaySections L) Phdrs);
  lo_laid : laid (LaySections L) Phdrs n (lastRX (removeEmptyPTLoad (LaySections L) Phdrs)) (LayOffsets L) Off;
  lo_RX : ∀ i f, lastRX (removeEmptyPTLoad (LaySections L) Phdrs) = Some i → firstOf Phdrs (S i) = Some f → f = S i;
  lo_shoff : Off ≤ LaySectionHeaderOff L < 2 ^ 61;
  lo_filesize : LayFileSize L = LaySectionHeaderOff L + (Z.of_nat (length Secs) + 1) * sizeof_Shdr;
  lo_phnum : (length Phdrs ≤ 5 + 2 * length Secs)%nat;
  lo_types : Forall type32 Phdrs
}.

(** The messages that a layout without any excludes. *)
Record layout_fits (L : Layout) : Prop := {
  fits_file : LayFileSize L < 2 ^ 32;
  fits_memory : ∀ i, (2 ≤ i < length (LaySections L))%nat → addr (LaySections L) i + size (LaySections L) i < 2 ^ 32
}.

Lemma checkSections_fits (Secs : list (OutputSection * Placed * Z)) (x : OutputSection * Placed * Z) :
  checkSections Secs = [] → x ∈ Secs → 0 ≤ PlAddr x.1.2 + PlSize x.1.2 < 2 ^ 62 → PlAddr x.1.2 + PlSize x.1.2 < 2 ^ 32.
Proof.
  unfold checkSections. intros H Hx Hr. apply app_eq_nil in H as [H _].
  induction Hx as [x l | x y l Hx IH]; cbn [map concat] in H; apply app_eq_nil in H as [H1 H2]; [| exact (IH H2 Hr)].
  destruct x as [[Sec Pl] o]. cbn [fst snd] in *. rewrite uint_small in H1 by lia.
  destruct ((_ <? _) || (2 ^ 32 - 1 <? PlAddr Pl + PlSize Pl)) eqn:E; [discriminate |]. apply orb_false_iff in E as [_ E]. lia.
Qed.

Lemma assignFileOffsets_spec (All : list Placed) (Phdrs Kept : list PhdrEntry) (n : nat) :
  addresses_ok All Phdrs n → (2 ≤ length All)%nat → (∀ P, P ∈ Kept → P ∈ Phdrs) →
  (∀ P, P ∈ Phdrs → isRX P = true → 0%nat ∉ PhSecs P ∧ 1%nat ∉ PhSecs P) →
  (∀ i f, lastRX Kept = Some i → firstOf Phdrs (S i) = Some f → f = S i) ∧
  ∃ Offs Off SectionHeaderOff Errs,
    assignFileOffsets All Phdrs Kept = Ret (Offs, SectionHeaderOff, SectionHeaderOff + (Z.of_nat (length All) - 2 + 1) * sizeof_Shdr, Errs) ∧
    laid All Phdrs n (lastRX Kept) Offs Off ∧ length Offs = length All ∧ Off ≤ SectionHeaderOff < 2 ^ 61.
Proof.
  intros HA H2 HK HX. pose proof (ao_partition _ _ _ HA) as HP. pose proof (ao_length _ _ _ HA) as [Hn Hlen].
  assert (HRX : ∀ i f, lastRX Kept = Some i → firstOf Phdrs (S i) = Some f → f = S i).
  { intros i f Hi Hf. destruct (lastRX_spec _ _ _ _ HP HK Hi) as (P & g & m & _ & _ & HL & ER & -> & _).
    destruct (firstOf_self _ _ HP _ _ Hf) as [_ Hb]. rewrite (firstOf_next _ _ HP P g m HL ER) in Hf by lia. congruence. }
  split; [exact HRX |]. unfold assignFileOffsets. fold (lastRX Kept).
  assert (Hd : (lastRX Kept ≫= λ i, if decide (2 <= i)%nat then Some i else None) = lastRX Kept).
  { destruct (lastRX Kept) as [i |] eqn:E; [| reflexivity]. cbn. destruct (lastRX_spec _ _ _ _ HP HK E) as (P & g & m & HPK & HX1 & _ & ER & -> & _).
    destruct (HX P (HK P HPK) HX1) as [H0 H1]. rewrite ER in H0, H1. rewrite elem_of_seq in H0, H1. apply decide_True. lia. }
  rewrite Hd. destruct (setOffsets_spec All Phdrs n HA (lastRX Kept) HRX All [] 0 (laid_nil All Phdrs n (lastRX Kept)) eq_refl ltac:(cbn; lia))
    as (Offs & Off & -> & HLd & HLO).
  rewrite outcome_bind_ret. pose proof (laid_bound _ _ _ _ _ _ HLd) as HB. rewrite HLO in HB.
  pose proof (top_range All Phdrs n HA (length All) ltac:(lia)) as Ht.
  destruct (alignTo_spec Off 4) as (r & -> & Hr & _); [lia .. |]. rewrite outcome_bind_ret. unfold sizeof_Shdr.
  rewrite uint_small by lia. eexists Offs, Off, r, _. split; [reflexivity |]. split; [exact HLd |]. split; [exact HLO | lia].
Qed.

Lemma layoutFile_spec (Alloc Rest : list OutputSection) :
  Forall section_ok (Alloc ++ Rest) → Forall (λ Sec, isAlloc Sec = true) Alloc → Forall (λ Sec, isAlloc Sec = false) Rest →
  Alloc ≠ [] → Z.of_nat (length (Alloc ++ Rest)) < 2 ^ 14 →
  ∃ Off L Errs, layoutFile (Alloc ++ Rest) = Ret (L, Errs) ∧
    layout_ok (Alloc ++ Rest) (createPhdrs (Alloc ++ Rest)).1 (2 + length Alloc) Off L ∧ (Errs = [] → layout_fits L).
Proof.
  intros HS HA HR HN HL. pose proof HS as HS'. apply Forall_app in HS' as [HSA _].
  destruct (createPhdrs_spec Alloc Rest HSA HA HR) as (HPart & HRX & HHd). pose proof (length_createPhdrs (Alloc ++ Rest)) as HLP.
  pose proof (createPhdrs_types (Alloc ++ Rest)) as HTy.
  unfold layoutFile. destruct (createPhdrs (Alloc ++ Rest)) as [Phdrs Errs1]. cbn [fst] in *. cbn zeta.
  change (DefaultImageBase Nyuzi_TargetInfo) with 0. rewrite Z.add_0_l.
  set (PhdrsSize := Z.of_nat sizeof_Phdr * Z.of_nat (length Phdrs)). set (HeaderSize := Z.of_nat sizeof_Ehdr + PhdrsSize).
  assert (HZ : 0 ≤ PhdrsSize < 2 ^ 32) by (unfold PhdrsSize, sizeof_Phdr; lia).
  assert (HH : HeaderSize = 52 + PhdrsSize) by reflexivity. rewrite (uint_small 64 HeaderSize) by lia.
  set (PA := fixSectionAlignments Phdrs (Alloc ++ Rest)).
  destruct (assignAddresses_spec PA 2 HeaderSize (Alloc ++ Rest) HS ltac:(lia) ltac:(lia)) as (Pls & -> & HF & HC). rewrite outcome_bind_ret.
  pose proof (Forall2_length _ _ _ HF) as HLPl. pose proof (chain_alloc PA Alloc Rest Pls 2 HeaderSize HA HF HC) as HCh.
  assert (HLA : (length Alloc ≤ length (Alloc ++ Rest))%nat) by (rewrite length_app; lia).
  assert (Hidx : ∀ i Sec, (Alloc ++ Rest) !! i = Some Sec → isAlloc Sec = true ↔ (i < length Alloc)%nat).
  { intros i Sec Hi. rewrite Forall_lookup in HA, HR. apply lookup_app_Some in Hi as [Hi | [Hge Hi]].
    - split; [intros _; eapply lookup_lt_Some; exact Hi | intros _; exact (HA _ _ Hi)].
    - rewrite (HR _ _ Hi). split; [discriminate | lia]. }
  destruct (allocateHeaders_spec Phdrs HeaderSize (Alloc ++ Rest) Pls ltac:(lia)) as (E & -> & HE & HEp & HEle).
  { intros i Sec Pl Hi HPl Ha. apply (Hidx _ _ Hi) in Ha. destruct (HCh i Pl Ha HPl) as (H1 & H2 & _).
    destruct (Forall2_lookup_r _ _ _ _ _ HF HPl) as (S2 & _ & HPo). pose proof (placed_size _ _ HPo). lia. }
  { destruct Alloc as [| Sec Alloc]; [contradiction |]. destruct Pls as [| Pl Pls]; [cbn in HLPl; lia |].
    exists 0%nat, Sec, Pl. repeat split. apply Forall_cons in HA. apply HA. }
  assert (HEb : ∀ j Pl, (j < length Alloc)%nat → Pls !! j = Some Pl → E + HeaderSize ≤ PlAddr Pl).
  { intros j Pl Hj HPl. destruct (lookup_lt_is_Some_2 (Alloc ++ Rest) j ltac:(lia)) as [Sec HSec]. apply (HEle j Sec Pl HSec HPl), (Hidx _ _ HSec), Hj. }
  assert (HE57 : E ≤ 2 ^ 57).
  { destruct Alloc as [| Sec Alloc]; [contradiction |]. destruct Pls as [| Pl Pls]; [cbn in HLPl; lia |].
    specialize (HEb 0%nat Pl ltac:(cbn; lia) eq_refl). destruct (HCh 0%nat Pl ltac:(cbn; lia) eq_refl) as (_ & H2 & _).
    apply Forall2_cons in HF as [HPo _]. pose proof (placed_size _ _ HPo). lia. }
  pose proof (headers_addresses_ok Phdrs PA Alloc Rest Pls HeaderSize E PhdrsSize HPart HHd
    (λ P f, FirstSec_aligned Phdrs (Alloc ++ Rest) P f) HA HS HF HC HZ ltac:(lia) ltac:(lia) HEp ltac:(lia) HEb) as HAO.
  set (All := headerSections E (u64 (E + Z.of_nat sizeof_Ehdr)) PhdrsSize ++ Pls) in *.
  assert (HAL : length All = (2 + length (Alloc ++ Rest))%nat) by (rewrite HLPl; reflexivity).
  set (Kept := removeEmptyPTLoad All Phdrs).
  destruct (assignFileOffsets_spec All Phdrs Kept _ HAO ltac:(lia) (removeEmpty_elem All Phdrs) HRX)
    as (HRX' & Offs & Off & SHO & Errs2 & -> & HLd & HLO & HSHO).
  rewrite outcome_bind_ret. eexists Off, _, _. split; [reflexivity |]. split.
  - assert (HE2 : u64 (E + Z.of_nat sizeof_Ehdr) = E + 52) by (change (Z.of_nat sizeof_Ehdr) with 52; apply uint_small; lia).
    assert (H0 : sec All 0 = mkPlaced 0 1 E 52 []) by reflexivity.
    assert (H1 : sec All 1 = mkPlaced 0 4 (E + 52) PhdrsSize []) by (unfold All; rewrite HE2; reflexivity).
    assert (Hf0 : firstOf Phdrs 0 = Some 0%nat ∧ firstOf Phdrs 1 = Some 0%nat).
    { destruct HHd as (P01 & m & HP01 & E01). destruct (load_run _ _ HPart P01 HP01) as (f & k & ER & Hk). pose proof ER as ER'. rewrite E01 in ER.
      destruct k as [| k]; [discriminate |]. assert (f = 0%nat) as -> by (cbn in ER; congruence).
      split; (eapply firstOf_run; [exact HPart | exact HP01 | exact ER' | lia]). }
    destruct Hf0 as [Hf0 Hf1].
    assert (Ho0 : ofs Offs 0 = 0).
    { pose proof (laid_zero _ _ _ _ _ _ HLd) as HZ0. destruct (decide (length Offs = 0)%nat); [lia | exact (HZ0 Hf0)]. }
    split; cbn [LaySections LayOffsets LayPhdrs LaySectionHeaderOff LayFileSize].
    + exact HAO.
    + exact HF.
    + exact HAL.
    + lia.
    + intros i Sec Hi. rewrite (Hidx i Sec Hi). lia.
    + unfold size. rewrite H0. repeat split. exact Ho0.
    + unfold size. rewrite H1. repeat split. pose proof (laid_in _ _ _ _ _ _ HLd 1 0 ltac:(lia) Hf1) as H. unfold nobits, addr in H.
      rewrite H0, H1, Ho0 in H. cbn [PlType PlAddr] in H. change (0 =? SHT_NOBITS) with false in H. cbn iota in H. rewrite H. cbn. lia.
    + reflexivity.
    + exact HLd.
    + exact HRX'.
    + exact HSHO.
    + rewrite HAL. unfold sizeof_Shdr. lia.
    + exact HLP.
    + exact HTy.
  - intros HErr. apply app_eq_nil in HErr as [_ HErr]. apply app_eq_nil in HErr as [_ HErr]. apply app_eq_nil in HErr as [HErr1 HErr2].
    split; cbn [LaySections LayFileSize].
    + destruct (_ <? _) eqn:Eb in HErr2; [discriminate |]. lia.
    + intros i Hi. destruct i as [| [| i]]; [lia | lia |].
      destruct (lookup_lt_is_Some_2 Pls i ltac:(lia)) as [Pl HPl]. destruct (Forall2_lookup_r _ _ _ _ _ HF HPl) as (Sec & HSec & HPo).
      destruct (lookup_lt_is_Some_2 (drop 2 Offs) i ltac:(rewrite length_drop; lia)) as [o Ho].
      destruct (ao_sec _ _ _ HAO (S (S i)) ltac:(lia)) as (Ha & Hs & _).
      assert (Hsec : sec All (S (S i)) = Pl) by (unfold sec, All; cbn [app nth headerSections]; rewrite nth_lookup, HPl; reflexivity).
      unfold addr, size in *. rewrite Hsec in *.
      apply (checkSections_fits _ (Sec, Pl, o) HErr1).
      * apply (list_elem_of_lookup_2 _ i). rewrite !lookup_zip_with, HSec. cbn. rewrite HPl. cbn. rewrite Ho. reflexivity.
      * cbn [fst snd]. split; [lia |].
        pose proof (chain_top PA (Alloc ++ Rest) Pls 2 HeaderSize ltac:(lia) HF HC i Pl HPl). lia.
Qed.

(** ** Program headers of segments *)
Section segments.
Context (All : list Placed) (Phdrs : list PhdrEntry) (n : nat) (HA : addresses_ok All Phdrs n).
Lemma addr_mono (i j : nat) : (i ≤ j < n)%nat → 0 ≤ addr All i ≤ addr All j ∧ addr All i + size All i ≤ addr All j + size All j.
Proof.
  intros Hij. destruct (ao_length _ _ _ HA) as [Hn _]. destruct (ao_sec _ _ _ HA i ltac:(lia)) as (Ha & Hs & _).
  destruct (ao_sec _ _ _ HA j ltac:(lia)) as (Ha' & Hs' & _). destruct (decide (i = j)) as [-> | Hne]; [lia |].
  pose proof (ao_ascending _ _ _ HA i j ltac:(lia)). lia.
Qed.

(** The segments that are kept are in the order of their sections. *)
Lemma StronglySorted_filter' {A : Type} (R : A → A → Prop) (f : A → bool) (l : list A) : StronglySorted R l → StronglySorted R (List.filter f l).
Proof.
  induction 1 as [| x l HS IH HF]; cbn; [constructor |]. destruct (f x); [| exact IH]. constructor; [exact IH |].
  rewrite Forall_forall in HF |- *. intros y Hy. apply HF. apply list_elem_of_In, List.filter_In in Hy as [Hy _]. apply list_elem_of_In, Hy.
Qed.

Lemma filter_comm {A : Type} (f g : A → bool) (l : list A) : List.filter f (List.filter g l) = List.filter g (List.filter f l).
Proof. induction l as [| x l IH]; [reflexivity |]. cbn. destruct (g x) eqn:Eg, (f x) eqn:Ef; cbn; rewrite ?Eg, ?Ef, IH; reflexivity. Qed.

Lemma kept_split (KA KB : list PhdrEntry) (P : PhdrEntry) :
  removeEmptyPTLoad All Phdrs = KA ++ P :: KB → isLoad P = true →
  Forall (λ Q, isLoad Q = true → before Q P) KA ∧ Forall (λ Q, isLoad Q = true → before P Q) KB.
Proof.
  intros E HT. pose proof (loads_sorted _ _ (ao_partition _ _ _ HA)) as HS.
  assert (HK : StronglySorted before (loads (KA ++ P :: KB))).
  { rewrite <- E. unfold removeEmptyPTLoad, loads. rewrite filter_comm. apply StronglySorted_filter', HS. }
  rewrite loads_app in HK. assert (HPK : loads (P :: KB) = P :: loads KB) by (unfold loads; cbn; rewrite HT; reflexivity). rewrite HPK in HK.
  split; apply Forall_forall; intros Q HQ HQT.
  - apply list_elem_of_lookup in HQ as HQ'. assert (HQL : Q ∈ loads KA) by (apply elem_of_loads; auto). apply list_elem_of_lookup in HQL as (i & Hi).
    eapply (StronglySorted_at _ _ i (length (loads KA))); [exact HK | | | eapply lookup_lt_Some; exact Hi].
    + rewrite lookup_app_l by (eapply lookup_lt_Some; exact Hi). exact Hi.
    + rewrite lookup_app_r, Nat.sub_diag by lia. reflexivity.
  - assert (HQL : Q ∈ loads KB) by (apply elem_of_loads; auto). apply list_elem_of_lookup in HQL as (i & Hi).
    eapply (StronglySorted_at _ _ (length (loads KA)) (length (loads KA) + S i)); [exact HK | | | lia].
    + rewrite lookup_app_r, Nat.sub_diag by lia. reflexivity.
    + rewrite lookup_app_r by lia. replace (length (loads KA) + S i - length (loads KA))%nat with (S i) by lia. exact Hi.
Qed.

Lemma kept_load (P : PhdrEntry) (f m i : nat) :
  P ∈ loads Phdrs → PhSecs P = seq f (S m) → (f ≤ i ≤ f + m)%nat → (f + m < n)%nat → 0 < size All i → P ∈ removeEmptyPTLoad All Phdrs.
Proof.
  intros HP HS Hi Hn Hs. apply elem_of_loads in HP as [HIn HT]. unfold removeEmptyPTLoad.
  apply list_elem_of_In, List.filter_In. split; [apply list_elem_of_In, HIn |]. rewrite HT. cbn [negb orb].
  destruct (ao_length _ _ _ HA) as [Hle _].
  assert (HF : FirstSec P = Some f) by (unfold FirstSec; rewrite HS; reflexivity). rewrite HF, (last_run _ _ _ HS). unfold placedOf. cbn.
  rewrite !(sec_lookup All) by lia. unfold memorySize. fold (addr All f) (addr All (f + m)) (size All (f + m)).
  pose proof (addr_mono f i ltac:(lia)). pose proof (addr_mono i (f + m) ltac:(lia)). pose proof (ao_top _ _ _ HA (f + m) ltac:(lia)).
  rewrite uint_small by lia. apply negb_true_iff, Z.eqb_neq. lia.
Qed.

Lemma lastRX_at (KA KB : list PhdrEntry) (P : PhdrEntry) :
  isRX P = true → Forall (λ Q, isRX Q = false) KB → lastRX (KA ++ P :: KB) = LastSec P.
Proof.
  intros HX HB. unfold lastRX. rewrite List.filter_app. cbn [List.filter]. rewrite HX.
  assert (List.filter isRX KB = []) as -> by (induction HB as [| Q l HQ HB IH]; [reflexivity |]; cbn; rewrite HQ; exact IH).
  rewrite last_snoc. reflexivity.
Qed.

Context (Offs : list Z) (Off : Z) (LastRX : option nat) (HL : laid All Phdrs n LastRX Offs Off) (HLen : length Offs = length All).

Lemma laid_top : Off < 2 ^ 61.
Proof.
  pose proof (laid_bound _ _ _ _ _ _ HL) as HB. rewrite HLen in HB. pose proof (top_range All Phdrs n HA (length All) ltac:(lia)).
  destruct (ao_length _ _ _ HA). lia.
Qed.

(** Offsets do not decrease. *)
Lemma laid_mono (i j : nat) : (i ≤ j < length All)%nat → 0 ≤ ofs Offs i ≤ ofs Offs j ∧ ofs Offs i + fsize All i ≤ ofs Offs j + fsize All j ≤ Off.
Proof.
  intros Hij. destruct (laid_below _ _ _ _ _ _ HL i ltac:(lia)) as [Hi _]. destruct (laid_below _ _ _ _ _ _ HL j ltac:(lia)) as [_ Hj].
  pose proof (fsize_range All Phdrs n HA i ltac:(lia)). pose proof (fsize_range All Phdrs n HA j ltac:(lia)).
  destruct (decide (i = j)) as [-> | Hne]; [lia |]. pose proof (laid_order _ _ _ _ _ _ HL i j ltac:(lia)). lia.
Qed.

Lemma setPhdr_load (P : PhdrEntry) (f m : nat) :
  P ∈ loads Phdrs → PhSecs P = seq f (S m) → (f + m < n)%nat →
  let S := setPhdr All Offs P in
  p_type S = PT_LOAD ∧ p_offset S = ofs Offs f ∧ p_vaddr S = addr All f ∧ p_flags S = PhFlags P ∧
  p_offset S + p_filesz S = ofs Offs (f + m) + fsize All (f + m) ∧
  p_vaddr S + p_memsz S = addr All (f + m) + size All (f + m) ∧ 0 ≤ p_filesz S ≤ p_memsz S.
Proof.
  intros HP HS Hn. pose proof (ao_partition _ _ _ HA) as HPart. destruct (ao_length _ _ _ HA) as [Hle _].
  apply elem_of_loads in HP as HP'. destruct HP' as [_ HT]. unfold setPhdr.
  assert (HF : FirstSec P = Some f) by (unfold FirstSec; rewrite HS; reflexivity). rewrite HF, (last_run _ _ _ HS).
  rewrite !(sec_lookup All) by lia. rewrite !(ofs_lookup Offs) by lia. cbn zeta.
  assert (HR : (PhType P =? PT_GNU_RELRO) = false) by (unfold isLoad in HT; apply Z.eqb_eq in HT; rewrite HT; reflexivity). rewrite HR.
  pose proof (laid_mono f (f + m) ltac:(lia)) as [Ho _]. pose proof (laid_mono (f + m) (f + m) ltac:(lia)) as [_ Ho'].
  pose proof laid_top as HT61. pose proof (addr_mono f (f + m) ltac:(lia)) as Ha.
  pose proof (ao_top _ _ _ HA (f + m) ltac:(lia)) as Htop. pose proof (fsize_range All Phdrs n HA (f + m) ltac:(lia)) as Hfs.
  pose proof (laid_in _ _ _ _ _ _ HL (f + m) f ltac:(lia) (firstOf_run _ _ HPart P f m (f + m) HP HS ltac:(lia))) as HI.
  cbn [p_type p_offset p_vaddr p_flags p_filesz p_memsz]. unfold isLoad in HT. apply Z.eqb_eq in HT. rewrite HT.
  fold (addr All f). unfold memorySize. fold (addr All f) (addr All (f + m)) (size All (f + m)) (nobits All (f + m)).
  rewrite (uint_small 64 (addr All (f + m) + size All (f + m) - addr All f)) by lia.
  rewrite (uint_small 64 (ofs Offs (f + m) - ofs Offs f)) by lia. unfold fsize in *.
  destruct (nobits All (f + m)); [| rewrite uint_small by lia]; repeat split; lia.
Qed.
End segments.
