(* ===== verification/LldWriter.v ===== *)
(** * LldWriter: the file the linker writes

    tools/lld/ELF/Writer.cpp from the opening of the output on: the trap
    instructions at the end of executable segments, the headers and the sections of
    a file laid out as in LldLayout.v, with OutputSections.cpp (writeTo,
    writeHeaderTo).  [TrapInstr] of this target is zero.  Loading the file puts every
    byte of an input section at its address. *)
From S2P Require Import Prelude MathExtras NyuziTarget NyuziFixups NyuziLinker WordPatches MCExpressions MCAssembler LldLink Elf2Hex LldLayout.

(** ** The file *)

(** The parts of the header that do not depend on the layout. *)
Record Config : Type := mkConfig { EFlags : Z; OSABI : Z; ShStrNdx : Z }.

(** Bytes stored in the buffer. *)
Definition put (Off : Z) (Bytes Buf : list Z) : outcome (list Z) :=
  if (0 <=? Off) && (Off + Z.of_nat (length Bytes) <=? Z.of_nat (length Buf)) then Ret (write_at (Z.to_nat Off) Bytes Buf)
  else UndefinedBehaviour "store outside of the output buffer".

(** [writeTrapInstr]: the last page of each executable segment is filled; the last
    segment is extended to a page when it is executable. *)
Definition isRXPhdr (P : Elf32_Phdr) : bool := (p_type P =? PT_LOAD) && has_flag (p_flags P) PF_X.

Fixpoint fillTraps (Phdrs : list Elf32_Phdr) (Buf : list Z) : outcome (list Z) :=
  match Phdrs with
  | [] => Ret Buf
  | P :: Phdrs =>
      (if isRXPhdr P then
         let Start := alignDown (u64 (p_offset P + p_filesz P)) (PageSize Nyuzi_TargetInfo) in
         let End_ := alignUp (u64 (p_offset P + p_filesz P)) in
         put Start (replicate (Z.to_nat ((End_ - Start) / 4 * 4)) 0) Buf
       else Ret Buf) ≫= fillTraps Phdrs
  end.

Fixpoint roundLast (Phdrs : list Elf32_Phdr) : list Elf32_Phdr :=
  match Phdrs with
  | [] => []
  | P :: Phdrs =>
      (if isRXPhdr P && negb (existsb (λ Q, p_type Q =? PT_LOAD) Phdrs) then
         let Size := alignUp (p_filesz P) in
         mkPhdr (p_type P) (p_offset P) (p_vaddr P) (p_paddr P) Size Size (p_flags P) (p_align P)
       else P) :: roundLast Phdrs
  end.

(** [writeHeader]: the ELF header, a program header, a section header. *)
Definition ehdrBytes (C : Config) (Entry SectionHeaderOff : Z) (PhNum ShNum : Z) : list Z :=
  ElfMagic ++ [1; 1; 1; u8 (OSABI C); 0] ++ replicate 7 0 ++
  le_bytes 2 2 ++ le_bytes 2 EM_NYUZI ++ le_bytes 4 1 ++ le_bytes 4 Entry ++ le_bytes 4 (Z.of_nat sizeof_Ehdr) ++
  le_bytes 4 SectionHeaderOff ++ le_bytes 4 (EFlags C) ++ le_bytes 2 (Z.of_nat sizeof_Ehdr) ++
  le_bytes 2 (Z.of_nat sizeof_Phdr) ++ le_bytes 2 PhNum ++ le_bytes 2 sizeof_Shdr ++ le_bytes 2 ShNum ++ le_bytes 2 (ShStrNdx C).

Definition phdrBytes (P : Elf32_Phdr) : list Z :=
  le_bytes 4 (p_type P) ++ le_bytes 4 (p_offset P) ++ le_bytes 4 (p_vaddr P) ++ le_bytes 4 (p_paddr P) ++
  le_bytes 4 (p_filesz P) ++ le_bytes 4 (p_memsz P) ++ le_bytes 4 (p_flags P) ++ le_bytes 4 (p_align P).

Definition shdrBytes (Sec : OutputSection) (Pl : Placed) (Offset : Z) : list Z :=
  let '(ShName, Link, Info, Entsize) := OSHeader Sec in
  le_bytes 4 ShName ++ le_bytes 4 (OSType Sec) ++ le_bytes 4 (OSFlags Sec) ++ le_bytes 4 (PlAddr Pl) ++
  le_bytes 4 Offset ++ le_bytes 4 (PlSize Pl) ++ le_bytes 4 Link ++ le_bytes 4 Info ++
  le_bytes 4 (PlAlignment Pl) ++ le_bytes 4 Entsize.

(** [OutputSection::writeTo]: the bytes of the input sections, relocated, at their
    offsets. *)
Fixpoint writeInputs (Off : Z) (InOffs : list Z) (Contents : list (list Z)) (Buf : list Z) : outcome (list Z) :=
  match InOffs, Contents with
  | o :: InOffs, Bytes :: Contents => put (Off + o) Bytes Buf ≫= writeInputs Off InOffs Contents
  | _, _ => Ret Buf
  end.

(** The loop of [writeSections]. *)
Fixpoint writeOutputs (Secs : list (Placed * Z)) (Contents : list (list (list Z))) (Buf : list Z) : outcome (list Z) :=
  match Secs, Contents with
  | (Pl, Offset) :: Secs, C :: Contents =>
      (if PlType Pl =? SHT_NOBITS then Ret Buf else writeInputs Offset (PlInOffs Pl) C Buf) ≫= writeOutputs Secs Contents
  | _, _ => Ret Buf
  end.

(** [Writer::run] from the opening of the file on; [Contents] are the bytes of the
    input sections of each output section. *)
Definition writeFile (C : Config) (Secs : list OutputSection) (L : Layout) (Entry : Z) (Contents : list (list (list Z)))
    : outcome (list Z) :=
  let Offs := drop 2 (LayOffsets L) in
  let Pls := drop 2 (LaySections L) in
  let Phdrs := roundLast (LayPhdrs L) in
  fillTraps (LayPhdrs L) (replicate (Z.to_nat (LayFileSize L)) 0) ≫= λ Buf,
  put 0 (ehdrBytes C Entry (LaySectionHeaderOff L) (Z.of_nat (length Phdrs)) (Z.of_nat (length Secs) + 1)) Buf ≫= λ Buf,
  put (Z.of_nat sizeof_Ehdr) (concat (map phdrBytes Phdrs)) Buf ≫= λ Buf,
  put (LaySectionHeaderOff L + sizeof_Shdr)
    (concat (map (λ '(Sec, Pl, o), shdrBytes Sec Pl o) (zip (zip Secs Pls) Offs))) Buf ≫= λ Buf,
  writeOutputs (zip Pls Offs) Contents Buf.

(** ** Stores in the buffer *)
Lemma put_spec (Off : Z) (Bytes Buf : list Z) :
  0 ≤ Off → Off + Z.of_nat (length Bytes) ≤ Z.of_nat (length Buf) →
  ∃ Buf', put Off Bytes Buf = Ret Buf' ∧ length Buf' = length Buf ∧
    (∀ k b, Bytes !! k = Some b → Buf' !! (Z.to_nat Off + k)%nat = Some b) ∧
    (∀ p, Z.of_nat p < Off ∨ Off + Z.of_nat (length Bytes) ≤ Z.of_nat p → Buf' !! p = Buf !! p).
Proof.
  intros H0 H1. unfold put. destruct (Z.leb_spec 0 Off); [| lia]. destruct (Z.leb_spec (Off + Z.of_nat (length Bytes)) (Z.of_nat (length Buf))); [| lia].
  cbn [andb]. eexists. split; [reflexivity |]. split; [apply length_write_at; lia |]. split.
  - intros k b Hk. pose proof (lookup_lt_Some _ _ _ Hk). unfold write_at. rewrite lookup_app_r by (rewrite length_take; lia).
    rewrite length_take, Nat.min_l by lia. rewrite lookup_app_l by lia. rewrite <- Hk. f_equal. lia.
  - intros p Hp. apply write_at_outside; lia.
Qed.

Lemma put_nil (Off : Z) (Buf : list Z) : 0 ≤ Off ≤ Z.of_nat (length Buf) → put Off [] Buf = Ret Buf.
Proof.
  intros H. unfold put. destruct (Z.leb_spec 0 Off); [| lia]. cbn [length]. destruct (Z.leb_spec (Off + Z.of_nat 0) (Z.of_nat (length Buf))); [| lia].
  cbn [andb]. unfold write_at. cbn [length app]. rewrite Nat.add_0_r, take_drop. reflexivity.
Qed.

(** Zeros stored among zeros. *)
Lemma put_zeros (Off : Z) (k n : nat) : 0 ≤ Off → Off + Z.of_nat k ≤ Z.of_nat n → put Off (replicate k 0) (replicate n 0) = Ret (replicate n 0).
Proof.
  intros H0 H1. destruct (put_spec Off (replicate k 0) (replicate n 0)) as (Buf & -> & HL & HIn & HOut); [exact H0 | rewrite !length_replicate; exact H1 |].
  f_equal. rewrite length_replicate in HL. apply list_eq. intros p. destruct (decide (p < n)%nat) as [Hp | Hp]; [| rewrite !lookup_ge_None_2; rewrite ?length_replicate; [reflexivity | lia | lia]].
  rewrite lookup_replicate_2 by exact Hp. rewrite length_replicate in HOut.
  destruct (decide (Z.of_nat p < Off ∨ Off + Z.of_nat k ≤ Z.of_nat p)) as [Hc | Hc]; [rewrite HOut by exact Hc; apply lookup_replicate_2, Hp |].
  replace p with (Z.to_nat Off + (p - Z.to_nat Off))%nat by lia. apply HIn. apply lookup_replicate_2. lia.
Qed.

Lemma fillTraps_zeros (Phdrs : list Elf32_Phdr) (n : nat) :
  Forall (λ P, isRXPhdr P = true → 0 ≤ p_offset P + p_filesz P < 2 ^ 62 ∧ alignUp (p_offset P + p_filesz P) ≤ Z.of_nat n) Phdrs →
  fillTraps Phdrs (replicate n 0) = Ret (replicate n 0).
Proof.
  induction 1 as [| P Phdrs HP H IH]; cbn [fillTraps]; [reflexivity |].
  destruct (isRXPhdr P); [| exact IH]. destruct (HP eq_refl) as [Hr Hu]. cbn zeta. rewrite uint_small by lia.
  destruct (alignUp_spec _ Hr) as [Hb _]. destruct (alignDown_spec _ Hr) as (Hd & Hd0 & _).
  change (PageSize Nyuzi_TargetInfo) with 4096. rewrite put_zeros; [exact IH | exact Hd0 |].
  pose proof (Z.mul_div_le (alignUp (p_offset P + p_filesz P) - alignDown (p_offset P + p_filesz P) 4096) 4 ltac:(lia)).
  pose proof (Z.div_pos (alignUp (p_offset P + p_filesz P) - alignDown (p_offset P + p_filesz P) 4096) 4 ltac:(lia) ltac:(lia)). lia.
Qed.

(** ** Sections in the file *)
Lemma writeInputs_spec (Inputs : list InputSection) (InOffs : list Z) (Contents : list (list Z)) (Addr Off lo hi : Z) (Buf : list Z) :
  Forall input_ok Inputs → inputs_at Addr lo hi InOffs Inputs → Forall2 (λ IS bytes, Z.of_nat (length bytes) = ISSize IS) Inputs Contents →
  0 ≤ Off → 0 ≤ lo → Off + hi ≤ Z.of_nat (length Buf) →
  ∃ Buf', writeInputs Off InOffs Contents Buf = Ret Buf' ∧ length Buf' = length Buf ∧
    (∀ j o C k b, InOffs !! j = Some o → Contents !! j = Some C → C !! k = Some b →
       lo ≤ o ∧ o + Z.of_nat k < hi ∧ Buf' !! (Z.to_nat (Off + o) + k)%nat = Some b) ∧
    (∀ p, Z.of_nat p < Off + lo ∨ Off + hi ≤ Z.of_nat p → Buf' !! p = Buf !! p).
Proof.
  intros HI. revert InOffs Contents lo Buf. induction HI as [| IS Inputs [HS HAl] HI IH]; intros InOffs Contents lo Buf HA HC H0 Hlo HB.
  - apply Forall2_nil_inv_l in HC as ->. destruct InOffs; [| contradiction]. exists Buf. repeat split; discriminate.
  - apply Forall2_cons_inv_l in HC as (bytes & Contents' & Hb & HC & ->). destruct InOffs as [| o InOffs]; [contradiction |].
    destruct HA as (Ho & _ & HA). assert (Hhi : o + ISSize IS ≤ hi).
    { clear -HA HI. revert HA. generalize (o + ISSize IS). revert InOffs. induction HI as [| IS' l [HS' _] HI IH]; intros [| o' InOffs] z H; cbn in H; try contradiction; [exact H |].
      destruct H as (H1 & _ & H2). apply IH in H2. lia. }
    cbn [writeInputs]. destruct (put_spec (Off + o) bytes Buf) as (Buf1 & -> & HL1 & HIn1 & HOut1); [lia | lia |]. rewrite outcome_bind_ret.
    destruct (IH InOffs Contents' (o + ISSize IS) Buf1 HA HC H0 ltac:(lia) ltac:(lia)) as (Buf2 & -> & HL2 & HIn2 & HOut2).
    exists Buf2. split; [reflexivity |]. split; [lia |]. split.
    + intros [| j] o' C k b HO HCj Hk.
      * injection HO as <-. injection HCj as <-. pose proof (lookup_lt_Some _ _ _ Hk). split; [lia |]. split; [lia |].
        rewrite HOut2 by lia. apply HIn1, Hk.
      * destruct (HIn2 j o' C k b HO HCj Hk) as (H1 & H2 & H3). split; [lia |]. split; [exact H2 | exact H3].
    + intros p Hp. rewrite HOut2 by lia. apply HOut1. lia.
Qed.

Definition contentSize (Pl : Placed) : Z := if PlType Pl =? SHT_NOBITS then 0 else PlSize Pl.

(** Sections at the offsets of the list, one after another, from [lo] to [hi]. *)
Fixpoint file_chain (lo hi : Z) (Secs : list (Placed * Z)) : Prop :=
  match Secs with
  | [] => lo ≤ hi
  | (Pl, o) :: Secs => lo ≤ o ∧ file_chain (o + contentSize Pl) hi Secs
  end.

Lemma file_chain_le (Secs : list (Placed * Z)) (lo hi : Z) : Forall (λ x, 0 ≤ contentSize x.1) Secs → file_chain lo hi Secs → lo ≤ hi.
Proof. intros HF. revert lo. induction HF as [| [Pl o] Secs HP HF IH]; cbn; intros lo H; [exact H |]. destruct H as [H1 H2]. apply IH in H2. cbn in HP. lia. Qed.

(** The bytes of the input sections of sections that are in the file. *)
Definition contents_ok (Sec : OutputSection) (C : list (list Z)) : Prop :=
  OSType Sec ≠ SHT_NOBITS → Forall2 (λ IS bytes, Z.of_nat (length bytes) = ISSize IS) (OSInputs Sec) C.

Lemma writeOutputs_spec (Outs : list OutputSection) (Secs : list (Placed * Z)) (Contents : list (list (list Z))) (lo hi : Z) (Buf : list Z) :
  Forall section_ok Outs → Forall2 (λ Sec x, placed_ok Sec x.1) Outs Secs → Forall2 contents_ok Outs Contents →
  file_chain lo hi Secs → 0 ≤ lo → hi ≤ Z.of_nat (length Buf) →
  ∃ Buf', writeOutputs Secs Contents Buf = Ret Buf' ∧ length Buf' = length Buf ∧
    (∀ i Sec Pl O Cs j o C k b, Outs !! i = Some Sec → OSType Sec ≠ SHT_NOBITS → Secs !! i = Some (Pl, O) → Contents !! i = Some Cs →
       PlInOffs Pl !! j = Some o → Cs !! j = Some C → C !! k = Some b →
       0 ≤ o ∧ o + Z.of_nat k < PlSize Pl ∧ Buf' !! (Z.to_nat (O + o) + k)%nat = Some b) ∧
    (∀ p, Z.of_nat p < lo ∨ (∀ i Pl O, Secs !! i = Some (Pl, O) → Z.of_nat p < O ∨ O + contentSize Pl ≤ Z.of_nat p) → Buf' !! p = Buf !! p).
Proof.
  intros HS. revert Secs Contents lo Buf. induction HS as [| Sec Outs HS1 HS IH]; intros Secs Contents lo Buf HP HC HF H0 HB.
  - apply Forall2_nil_inv_l in HP as ->. exists Buf. repeat split; discriminate.
  - apply Forall2_cons_inv_l in HP as ([Pl O] & Secs' & HP1 & HP & ->). apply Forall2_cons_inv_l in HC as (Cs & Contents' & HC1 & HC & ->).
    cbn [fst] in HP1. destruct HF as [HO HF]. pose proof (placed_size _ _ HP1) as Hsz.
    assert (HFc : Forall (λ x : Placed * Z, 0 ≤ contentSize x.1) Secs').
    { apply Forall_forall. intros x Hx. apply list_elem_of_lookup in Hx as (i & Hi). destruct (Forall2_lookup_r _ _ _ _ _ HP Hi) as (S' & _ & HPo).
      pose proof (placed_size _ _ HPo). unfold contentSize. destruct (_ =? _); lia. }
    pose proof (file_chain_le _ _ _ HFc HF) as Hhi.
    assert (∃ Buf1, (if PlType Pl =? SHT_NOBITS then Ret Buf else writeInputs O (PlInOffs Pl) Cs Buf) = Ret Buf1 ∧ length Buf1 = length Buf ∧
      (OSType Sec ≠ SHT_NOBITS → ∀ j o C k b, PlInOffs Pl !! j = Some o → Cs !! j = Some C → C !! k = Some b →
         0 ≤ o ∧ o + Z.of_nat k < PlSize Pl ∧ Buf1 !! (Z.to_nat (O + o) + k)%nat = Some b) ∧
      (∀ p, Z.of_nat p < O ∨ O + contentSize Pl ≤ Z.of_nat p → Buf1 !! p = Buf !! p)) as (Buf1 & HW & HL1 & HIn1 & HOut1).
    { unfold contentSize in *. rewrite (placed_type _ _ HP1) in *. destruct (Z.eqb_spec (OSType Sec) SHT_NOBITS) as [E | E].
      - exists Buf. repeat split; contradiction.
      - destruct (writeInputs_spec (OSInputs Sec) (PlInOffs Pl) Cs (PlAddr Pl) O 0 (PlSize Pl) Buf (section_inputs _ HS1) (placed_inputs _ _ HP1)
          (HC1 E) ltac:(lia) ltac:(lia) ltac:(lia)) as (Buf1 & H1 & H2 & H3 & H4).
        exists Buf1. split; [exact H1 |]. split; [exact H2 |]. split; [intros _; exact H3 |]. intros p Hp. apply H4. lia. }
    cbn [writeOutputs]. rewrite HW, outcome_bind_ret.
    assert (HcO : 0 ≤ contentSize Pl) by (unfold contentSize; destruct (_ =? _); lia).
    destruct (IH Secs' Contents' (O + contentSize Pl) Buf1 HP HC HF ltac:(lia) ltac:(lia)) as (Buf2 & -> & HL2 & HIn2 & HOut2).
    exists Buf2. split; [reflexivity |]. split; [lia |]. split.
    + intros [| i] Sec' Pl' O' Cs' j o C k b HSec HT HSe HCs Hj HCj Hk.
      * injection HSec as <-. injection HSe as <- <-. injection HCs as <-. destruct (HIn1 HT j o C k b Hj HCj Hk) as (H1 & H2 & H3).
        split; [exact H1 |]. split; [exact H2 |]. rewrite HOut2; [exact H3 |]. left. unfold contentSize.
        rewrite (placed_type _ _ HP1). destruct (Z.eqb_spec (OSType Sec) SHT_NOBITS); [contradiction |]. lia.
      * exact (HIn2 i Sec' Pl' O' Cs' j o C k b HSec HT HSe HCs Hj HCj Hk).
    + intros p [Hp | Hp].
      * rewrite HOut2 by (left; lia). apply HOut1. lia.
      * rewrite HOut2; [apply HOut1; exact (Hp 0%nat Pl O eq_refl) |]. right. intros i Pl' O' Hi. exact (Hp (S i) Pl' O' Hi).
Qed.

(** ** The headers, read back *)
Definition trunc32 (P : Elf32_Phdr) : Elf32_Phdr :=
  mkPhdr (u32 (p_type P)) (u32 (p_offset P)) (u32 (p_vaddr P)) (u32 (p_paddr P)) (u32 (p_filesz P)) (u32 (p_memsz P)) (u32 (p_flags P)) (u32 (p_align P)).

Lemma length_phdrBytes (P : Elf32_Phdr) : length (phdrBytes P) = sizeof_Phdr.
Proof. reflexivity. Qed.

Lemma as_Phdr_bytes (P : Elf32_Phdr) (rest : list Z) : as_Phdr (take sizeof_Phdr (phdrBytes P ++ rest)) = trunc32 P.
Proof.
  rewrite take_app_length' by reflexivity. unfold as_Phdr, trunc32.
  rewrite <- !(le_combine_bytes 4). reflexivity.
Qed.

Lemma as_Phdrs_bytes (Ps : list Elf32_Phdr) (rest : list Z) :
  as_Phdrs (length Ps) (concat (map phdrBytes Ps) ++ rest) = map trunc32 Ps.
Proof.
  induction Ps as [| P Ps IH]; [reflexivity |]. cbn [length as_Phdrs map concat]. rewrite <- app_assoc. f_equal.
  - apply as_Phdr_bytes.
  - rewrite drop_app_length' by reflexivity. exact IH.
Qed.

Lemma length_phdrs (Ps : list Elf32_Phdr) : length (concat (map phdrBytes Ps)) = (sizeof_Phdr * length Ps)%nat.
Proof. induction Ps as [| P Ps IH]; [reflexivity |]. cbn [map concat]. rewrite length_app, IH, length_phdrBytes. cbn [length]. lia. Qed.

Lemma length_shdrs (l : list (OutputSection * Placed * Z)) :
  Z.of_nat (length (concat (map (λ '(Sec, Pl, o), shdrBytes Sec Pl o) l))) = Z.of_nat (length l) * sizeof_Shdr.
Proof.
  unfold sizeof_Shdr. induction l as [| [[Sec Pl] o] l IH]; [reflexivity |]. cbn [map concat]. rewrite length_app.
  assert (length (shdrBytes Sec Pl o) = 40%nat) as -> by (unfold shdrBytes; destruct (OSHeader Sec) as [[[? ?] ?] ?]; reflexivity).
  cbn [length]. lia.
Qed.

Lemma ehdrBytes_header (C : Config) (Entry SHO PhNum ShNum : Z) :
  length (ehdrBytes C Entry SHO PhNum ShNum) = sizeof_Ehdr ∧
  let H := as_Ehdr (ehdrBytes C Entry SHO PhNum ShNum) in
  take 4 (ehdrBytes C Entry SHO PhNum ShNum) = ElfMagic ∧ e_machine H = EM_NYUZI ∧ e_phoff H = Z.of_nat sizeof_Ehdr ∧
  e_phnum H = u16 PhNum ∧ e_entry H = u32 Entry.
Proof.
  split; [reflexivity |]. cbn zeta. split; [reflexivity |]. split; [reflexivity |]. split; [reflexivity |].
  split; [exact (le_combine_bytes 2 PhNum) | exact (le_combine_bytes 4 Entry)].
Qed.

Lemma length_roundLast (Ps : list Elf32_Phdr) : length (roundLast Ps) = length Ps.
Proof. induction Ps as [| P Ps IH]; [reflexivity |]. cbn [roundLast length]. f_equal. exact IH. Qed.

(** ** The file of a layout *)
Lemma setPhdr_RX (All : list Placed) (Offs : list Z) (P : PhdrEntry) :
  p_type (setPhdr All Offs P) = PhType P ∧ isRXPhdr (setPhdr All Offs P) = isRX P.
Proof. unfold isRXPhdr, isRX, isLoad, setPhdr. cbn zeta. repeat case_match; split; reflexivity. Qed.

Section layout.
Context (Secs : list OutputSection) (Phdrs : list PhdrEntry) (n : nat) (Off : Z) (L : Layout) (HL : layout_ok Secs Phdrs n Off L).
Let All := LaySections L.
Let Offs := LayOffsets L.
Let Kept := removeEmptyPTLoad All Phdrs.

Lemma All_Offs : length Offs = length All.
Proof. unfold Offs, All. rewrite (lo_offsets _ _ _ _ _ HL), (lo_length _ _ _ _ _ HL). reflexivity. Qed.

(** The page an executable segment ends in is in the file. *)
Lemma RX_page (P : PhdrEntry) (f m : nat) :
  P ∈ Kept → isRX P = true → PhSecs P = seq f (S m) → alignUp (ofs Offs (f + m) + fsize All (f + m)) ≤ Off.
Proof.
  intros HK HX HS. pose proof (lo_addresses _ _ _ _ _ HL) as HA. pose proof (lo_laid _ _ _ _ _ HL) as HLd. fold All Offs Kept in HA, HLd.
  pose proof (ao_partition _ _ _ HA) as HPart. destruct (ao_length _ _ _ HA) as [Hn _]. pose proof All_Offs as HLen.
  assert (HPL : P ∈ loads Phdrs) by (apply elem_of_loads; split; [exact (removeEmpty_elem _ _ _ HK) | apply andb_prop in HX; apply HX]).
  destruct (load_run _ _ HPart P HPL) as (f' & m' & HS' & Hfm). rewrite HS in HS'.
  assert (m' = m ∧ f' = f) as [-> ->].
  { pose proof (f_equal length HS') as E. rewrite !length_seq in E. cbn in HS'. injection HS' as E2 _. lia. }
  pose proof (laid_mono All Phdrs n HA Offs Off _ HLd HLen (f + m) (f + m) ltac:(lia)) as [H1 H2].
  pose proof (laid_top All Phdrs n HA Offs Off _ HLd HLen) as H61. pose proof (fsize_range All Phdrs n HA (f + m) ltac:(lia)).
  destruct (decide (S (f + m) < n)%nat) as [Hlt | Hge].
  - pose proof (firstOf_next _ _ HPart P f m HPL HS Hlt) as Hnx. destruct (laid_first _ _ _ _ _ _ HLd (S (f + m)) ltac:(lia) Hnx) as [Hd _].
    pose proof (laid_order _ _ _ _ _ _ HLd (f + m) (S (f + m)) ltac:(lia)) as Ho.
    pose proof (alignUp_le (ofs Offs (f + m) + fsize All (f + m)) _ ltac:(lia) Hd Ho). destruct (laid_mono All Phdrs n HA Offs Off _ HLd HLen (S (f + m)) (S (f + m)) ltac:(lia)) as [_ ?].
    pose proof (fsize_range All Phdrs n HA (S (f + m)) ltac:(lia)). lia.
  - apply list_elem_of_split in HK as (KA & KB & HK). destruct (kept_split All Phdrs n HA KA KB P HK) as [_ HB].
    { apply andb_prop in HX. apply HX. }
    apply (laid_page _ _ _ _ _ _ HLd (f + m)%nat); [| lia]. rewrite HK, lastRX_at; [exact (last_run _ _ _ HS) | exact HX |].
    apply Forall_forall. intros Q HQ. rewrite Forall_forall in HB. specialize (HB Q HQ). destruct (isRX Q) eqn:EX; [| reflexivity]. exfalso.
    assert (HQT : isLoad Q = true) by (apply andb_prop in EX; apply EX). specialize (HB HQT).
    assert (HQL : Q ∈ loads Phdrs).
    { apply elem_of_loads. split; [| exact HQT]. apply (removeEmpty_elem All). fold Kept. rewrite HK. apply elem_of_app. right. right. exact HQ. }
    destruct (load_run _ _ HPart Q HQL) as (g & k & HSQ & Hgk).
    specialize (HB (f + m)%nat g). rewrite HS, HSQ in HB. rewrite !elem_of_seq in HB. lia.
Qed.

Lemma traps_fit : Forall (λ P, isRXPhdr P = true → 0 ≤ p_offset P + p_filesz P < 2 ^ 62 ∧ alignUp (p_offset P + p_filesz P) ≤ Off) (LayPhdrs L).
Proof.
  rewrite (lo_segments _ _ _ _ _ HL). apply Forall_map, Forall_forall. fold All Offs Kept. intros P HP HX.
  rewrite (proj2 (setPhdr_RX All Offs P)) in HX.
  pose proof (lo_addresses _ _ _ _ _ HL) as HA. pose proof (lo_laid _ _ _ _ _ HL) as HLd. fold All Offs Kept in HA, HLd.
  assert (HPL : P ∈ loads Phdrs) by (apply elem_of_loads; split; [exact (removeEmpty_elem _ _ _ HP) | apply andb_prop in HX; apply HX]).
  destruct (load_run _ _ (ao_partition _ _ _ HA) P HPL) as (f & m & HS & Hfm). destruct (ao_length _ _ _ HA) as [Hn _].
  destruct (setPhdr_load All Phdrs n HA Offs Off _ HLd All_Offs P f m HPL HS ltac:(lia)) as (_ & _ & _ & _ & H & _).
  rewrite H. split; [| exact (RX_page P f m HP HX HS)].
  pose proof (laid_mono All Phdrs n HA Offs Off _ HLd All_Offs (f + m) (f + m) ltac:(lia)).
  pose proof (laid_top All Phdrs n HA Offs Off _ HLd All_Offs). pose proof (fsize_range All Phdrs n HA (f + m) ltac:(lia)). lia.
Qed.

Lemma sections_chain (k j : nat) (lo : Z) :
  (j + k = length All)%nat → lo ≤ (if decide (k = 0)%nat then Off else ofs Offs j) → file_chain lo Off (zip (drop j All) (drop j Offs)).
Proof.
  pose proof (lo_addresses _ _ _ _ _ HL) as HA. pose proof (lo_laid _ _ _ _ _ HL) as HLd. fold All Offs Kept in HA, HLd.
  revert j lo. induction k as [| k IH]; intros j lo Hk Hlo.
  - rewrite (drop_ge All) by lia. exact Hlo.
  - rewrite (drop_S All _ _ (sec_lookup All j ltac:(lia))), (drop_S Offs _ _ (ofs_lookup Offs j ltac:(pose proof All_Offs; lia))).
    cbn [zip zip_with file_chain]. destruct (decide (S k = 0)%nat); [lia |]. split; [exact Hlo |]. apply IH; [lia |].
    change (contentSize (sec All j)) with (fsize All j).
    pose proof (laid_mono All Phdrs n HA Offs Off _ HLd All_Offs j j ltac:(lia)). pose proof (fsize_range All Phdrs n HA j ltac:(lia)).
    destruct (decide (k = 0)%nat); [lia |]. apply (laid_order _ _ _ _ _ _ HLd). pose proof All_Offs. lia.
Qed.

(** The file: its headers, the bytes of the input sections, and zero elsewhere below
    the section headers. *)
Lemma writeFile_spec (C : Config) (Entry : Z) (Contents : list (list (list Z))) :
  Forall section_ok Secs → Forall2 contents_ok Secs Contents →
  ∃ file rest, writeFile C Secs L Entry Contents = Ret file ∧ Z.of_nat (length file) = LayFileSize L ∧
    take sizeof_Ehdr file = ehdrBytes C Entry (LaySectionHeaderOff L) (Z.of_nat (length (LayPhdrs L))) (Z.of_nat (length Secs) + 1) ∧
    drop sizeof_Ehdr file = concat (map phdrBytes (roundLast (LayPhdrs L))) ++ rest ∧
    (∀ i Sec Cs j o B k b, Secs !! i = Some Sec → OSType Sec ≠ SHT_NOBITS → Contents !! i = Some Cs →
       PlInOffs (sec All (2 + i)) !! j = Some o → Cs !! j = Some B → B !! k = Some b →
       0 ≤ o ∧ o + Z.of_nat k < size All (2 + i) ∧ file !! (Z.to_nat (ofs Offs (2 + i) + o) + k)%nat = Some b) ∧
    (∀ p, Z.of_nat p < Off → (∀ J, (J < length All)%nat → Z.of_nat p < ofs Offs J ∨ ofs Offs J + fsize All J ≤ Z.of_nat p) → file !! p = Some 0).
Proof.
  intros HS HC. pose proof (lo_addresses _ _ _ _ _ HL) as HA. pose proof (lo_laid _ _ _ _ _ HL) as HLd. fold All Offs Kept in HA, HLd.
  pose proof All_Offs as HLen. pose proof (lo_length _ _ _ _ _ HL) as HAl. fold All in HAl.
  destruct (lo_ehdr _ _ _ _ _ HL) as (T0 & S0 & O0). destruct (lo_phdrs _ _ _ _ _ HL) as (T1 & S1 & O1). fold All Offs in T0, S0, O0, T1, S1, O1.
  pose proof (lo_shoff _ _ _ _ _ HL) as HSH. pose proof (lo_filesize _ _ _ _ _ HL) as HFS. unfold sizeof_Shdr in HFS.
  assert (HF1 : fsize All 1 = size All 1) by (unfold fsize, nobits; rewrite T1; reflexivity).
  assert (HF0 : fsize All 0 = size All 0) by (unfold fsize, nobits; rewrite T0; reflexivity).
  pose proof (laid_below _ _ _ _ _ _ HLd 1 ltac:(lia)) as [_ HB1]. rewrite HF1, O1, S1 in HB1.
  set (Ps := roundLast (LayPhdrs L)). set (eh := ehdrBytes C Entry (LaySectionHeaderOff L) (Z.of_nat (length Ps)) (Z.of_nat (length Secs) + 1)).
  assert (Heh : length eh = sizeof_Ehdr) by reflexivity.
  assert (HPs : (length Ps ≤ length Phdrs)%nat).
  { unfold Ps. rewrite length_roundLast, (lo_segments _ _ _ _ _ HL), length_map. apply filter_length_le. }
  change (Z.of_nat sizeof_Ehdr) with 52 in *. change (Z.of_nat sizeof_Phdr) with 32 in *. unfold sizeof_Ehdr, sizeof_Phdr in *.
  unfold writeFile. cbn zeta. fold All Offs Ps. change (Z.of_nat sizeof_Ehdr) with 52. set (N := Z.to_nat (LayFileSize L)). assert (HN : Z.of_nat N = LayFileSize L) by (unfold N; lia).
  rewrite fillTraps_zeros, outcome_bind_ret.
  2:{ eapply Forall_impl; [exact traps_fit |]. cbn. intros P H HX. destruct (H HX) as [H1 H2]. split; [exact H1 | lia]. }
  fold eh. destruct (put_spec 0 eh (replicate N 0)) as (B1 & -> & L1 & In1 & Out1); [lia | rewrite Heh, length_replicate; lia |].
  rewrite outcome_bind_ret. rewrite length_replicate in L1. rewrite Heh in Out1.
  pose proof (length_phdrs Ps) as HLP. unfold sizeof_Phdr in HLP.
  destruct (put_spec 52 (concat (map phdrBytes Ps)) B1) as (B2 & -> & L2 & In2 & Out2); [lia | lia |]. rewrite outcome_bind_ret. rewrite HLP in Out2.
  set (sh := concat (map (λ '(Sec, Pl, o), shdrBytes Sec Pl o) (zip (zip Secs (drop 2 All)) (drop 2 Offs)))).
  assert (Hsh : Z.of_nat (length sh) = Z.of_nat (length Secs) * 40).
  { unfold sh. rewrite length_shdrs. unfold sizeof_Shdr. f_equal. f_equal. rewrite !length_zip_with, !length_drop. lia. }
  destruct (put_spec (LaySectionHeaderOff L + sizeof_Shdr) sh B2) as (B3 & -> & L3 & _ & Out3); [unfold sizeof_Shdr; lia | unfold sizeof_Shdr; lia |].
  rewrite outcome_bind_ret. unfold sizeof_Shdr in Out3.
  destruct (writeOutputs_spec Secs (zip (drop 2 All) (drop 2 Offs)) Contents (52 + 32 * Z.of_nat (length Phdrs)) Off B3 HS) as (B4 & HW & L4 & In4 & Out4).
  { apply Forall2_same_length_lookup_2; [rewrite length_zip_with, !length_drop; lia |]. intros i Sec x HSec Hx.
    rewrite lookup_zip_with in Hx. destruct (drop 2 All !! i) as [Pl |] eqn:EP; [| discriminate]. cbn in Hx.
    destruct (drop 2 Offs !! i); [| discriminate]. injection Hx as <-. exact (Forall2_lookup_lr _ _ _ _ _ _ (lo_placed _ _ _ _ _ HL) HSec EP). }
  { exact HC. }
  { apply (sections_chain (length Secs)); [lia |]. destruct (decide (length Secs = 0)%nat); [lia |].
    pose proof (laid_order _ _ _ _ _ _ HLd 1 2 ltac:(lia)) as H. rewrite HF1, O1, S1 in H. lia. }
  { lia. }
  { lia. }
  assert (Hlow : ∀ p, Z.of_nat p < 52 + 32 * Z.of_nat (length Phdrs) → B4 !! p = B2 !! p).
  { intros p Hp. rewrite Out4 by (left; exact Hp). apply Out3. lia. }
  assert (Htake : take 52 B4 = eh).
  { apply list_eq. intros p. destruct (decide (p < 52)%nat) as [Hp | Hp].
    - rewrite lookup_take_lt, Hlow, Out2 by lia. destruct (lookup_lt_is_Some_2 eh p ltac:(lia)) as [b Hb]. rewrite Hb. exact (In1 p b Hb).
    - rewrite lookup_take_ge by lia. symmetry. apply lookup_ge_None_2. lia. }
  assert (Hdrop : take (length (concat (map phdrBytes Ps))) (drop 52 B4) = concat (map phdrBytes Ps)).
  { apply list_eq. intros p. destruct (decide (p < length (concat (map phdrBytes Ps)))%nat) as [Hp | Hp].
    - rewrite lookup_take_lt, lookup_drop, Hlow by lia. destruct (lookup_lt_is_Some_2 _ p Hp) as [b Hb]. rewrite Hb. exact (In2 p b Hb).
    - rewrite lookup_take_ge by lia. symmetry. apply lookup_ge_None_2. lia. }
  exists B4, (drop (length (concat (map phdrBytes Ps))) (drop 52 B4)). split; [exact HW |]. split; [lia |]. split; [| split; [| split]].
  - rewrite Htake. unfold eh, Ps. rewrite length_roundLast. reflexivity.
  - rewrite <- Hdrop at 1. symmetry. apply take_drop.
  - intros i Sec Cs j o B k b HSec HT HCs Hj HB Hk. assert (Hi : (i < length Secs)%nat) by (eapply lookup_lt_Some; exact HSec).
    apply (In4 i Sec (sec All (2 + i)) (ofs Offs (2 + i)) Cs j o B k b HSec HT); [| exact HCs | exact Hj | exact HB | exact Hk].
    rewrite lookup_zip_with, !lookup_drop, (sec_lookup All), (ofs_lookup Offs) by lia. reflexivity.
  - intros p Hp HJ. pose proof (HJ 0%nat ltac:(lia)) as H0. pose proof (HJ 1%nat ltac:(lia)) as H1. rewrite HF0, O0, S0 in H0. rewrite HF1, O1, S1 in H1.
    assert (H4 : ∀ i Pl O, zip (drop 2 All) (drop 2 Offs) !! i = Some (Pl, O) → Z.of_nat p < O ∨ O + contentSize Pl ≤ Z.of_nat p).
    { intros i Pl O Hi. rewrite lookup_zip_with, !lookup_drop in Hi. destruct (decide (2 + i < length All)%nat) as [Hlt | Hge].
      - rewrite (sec_lookup All), (ofs_lookup Offs) in Hi by lia. injection Hi as <- <-. exact (HJ (2 + i)%nat Hlt).
      - rewrite (lookup_ge_None_2 All) in Hi by lia. discriminate Hi. }
    rewrite Out4 by (right; exact H4). rewrite Out3, Out2, Out1 by lia. apply lookup_replicate_2. lia.
Qed.

(** ** The segments a loader finds *)
Lemma roundLast_app (l r : list Elf32_Phdr) (X : Elf32_Phdr) : p_type X = PT_LOAD → roundLast (l ++ X :: r) = l ++ roundLast (X :: r).
Proof.
  intros HX. induction l as [| Y l IH]; [reflexivity |]. cbn [app]. rewrite <- IH. cbn [roundLast].
  assert (existsb (λ Q, p_type Q =? PT_LOAD) (l ++ X :: r) = true) as ->; [| rewrite andb_false_r; reflexivity].
  apply existsb_exists. exists X. split; [apply in_or_app; right; left; reflexivity | rewrite HX; reflexivity].
Qed.

Lemma roundLast_vaddr (l : list Elf32_Phdr) : Forall2 (λ X Y, p_type Y = p_type X ∧ p_vaddr Y = p_vaddr X) l (roundLast l).
Proof. induction l as [| X l IH]; cbn [roundLast]; constructor; [destruct (_ && _); auto | exact IH]. Qed.

(** What an address is in a program whose headers are [phs]: a byte of the memory of a
    load segment, zero beyond the part that is in the file, or nothing. *)
Definition covers (a : Z) (ph : Elf32_Phdr) : bool := (p_type ph =? PT_LOAD) && (p_vaddr ph <=? a) && (a <? p_vaddr ph + p_memsz ph).

Definition memoryByte (file : list Z) (phs : list Elf32_Phdr) (a : Z) : option Z :=
  if existsb (covers a) phs then Some (loadedByte file phs a) else None.

Lemma memoryByte_loaded (file : list Z) (phs : list Elf32_Phdr) (a b : Z) : memoryByte file phs a = Some b → loadedByte file phs a = b.
Proof. unfold memoryByte. destruct (existsb _ _); [congruence | discriminate]. Qed.

(** The addresses [writeTrapInstr] takes from the memory of the last segment, when it
    is executable: those behind its contents, rounded to a page. *)
Fixpoint trimmed (Phdrs : list Elf32_Phdr) (a : Z) : bool :=
  match Phdrs with
  | [] => false
  | P :: Phdrs =>
      (isRXPhdr P && negb (existsb (λ Q, p_type Q =? PT_LOAD) Phdrs) && (p_vaddr P + alignUp (p_filesz P) <=? a)) || trimmed Phdrs a
  end.

Lemma trimmed_app (l r : list Elf32_Phdr) (X : Elf32_Phdr) (a : Z) : p_type X = PT_LOAD → trimmed (l ++ X :: r) a = trimmed (X :: r) a.
Proof.
  intros HX. induction l as [| Y l IH]; [reflexivity |]. cbn [app]. rewrite <- IH. cbn [trimmed].
  assert (existsb (λ Q, p_type Q =? PT_LOAD) (l ++ X :: r) = true) as ->; [| rewrite andb_false_r; reflexivity].
  apply existsb_exists. exists X. split; [apply in_or_app; right; left; reflexivity | rewrite HX; reflexivity].
Qed.

Lemma trimmed_before (l : list Elf32_Phdr) (a : Z) : Forall (λ Q, p_type Q = PT_LOAD → 0 ≤ p_filesz Q < 2 ^ 62 ∧ a < p_vaddr Q) l → trimmed l a = false.
Proof.
  induction 1 as [| P l HP Hl IH]; [reflexivity |]. cbn [trimmed]. rewrite IH, orb_false_r. unfold isRXPhdr.
  destruct (Z.eqb_spec (p_type P) PT_LOAD) as [HT |]; [| reflexivity]. destruct (HP HT) as [Hr Ha].
  destruct (alignUp_spec _ Hr) as [Hu _]. destruct (Z.leb_spec (p_vaddr P + alignUp (p_filesz P)) a); [lia |]. apply andb_false_r.
Qed.

Lemma covers_other (a : Z) (l : list Elf32_Phdr) : Forall (λ Q, p_type Q = PT_LOAD → a < p_vaddr Q ∨ p_vaddr Q + p_memsz Q ≤ a) l → existsb (covers a) l = false.
Proof.
  induction 1 as [| Q l HQ Hl IH]; [reflexivity |]. cbn [existsb]. rewrite IH, orb_false_r. unfold covers.
  destruct (Z.eqb_spec (p_type Q) PT_LOAD) as [HT |]; [| reflexivity].
  destruct (HQ HT); [destruct (Z.leb_spec (p_vaddr Q) a); [lia | reflexivity] |].
  destruct (Z.ltb_spec a (p_vaddr Q + p_memsz Q)); [lia |]. apply andb_false_r.
Qed.

(** A kept segment, in the program headers that are written. *)
Record window (A B : list Elf32_Phdr) (E : Elf32_Phdr) (i f m : nat) : Prop := {
  window_headers : map trunc32 (roundLast (LayPhdrs L)) = A ++ E :: B;
  window_type : p_type E = PT_LOAD;
  window_vaddr : p_vaddr E = addr All f;
  window_offset : p_offset E = ofs Offs f;
  window_run : ∀ j, (f ≤ j ≤ f + m)%nat → firstOf Phdrs j = Some f;
  window_range : (f ≤ i ≤ f + m)%nat ∧ (f + m < n)%nat;
  window_end : ofs Offs (f + m) + fsize All (f + m) ≤ ofs Offs f + p_filesz E ≤ Off;
  window_after : ∀ k, (f + m < k < length All)%nat → ofs Offs f + p_filesz E ≤ ofs Offs k;
  window_others : ∀ a, addr All i ≤ a < addr All i + size All i →
    Forall (λ Q, p_type Q = PT_LOAD → (a < p_vaddr Q ∨ p_vaddr Q + p_memsz Q ≤ a) ∧ (a < p_vaddr Q ∨ p_vaddr Q + p_filesz Q ≤ a)) (A ++ B);
  window_memory : ∀ a, addr All i ≤ a < addr All i + size All i → covers a E = negb (trimmed (LayPhdrs L) a);
  window_trimmed : ∀ a, addr All i ≤ a < addr All i + size All i → trimmed (LayPhdrs L) a = true →
    addr All f + p_filesz E ≤ a ∧ ∃ P, P ∈ Phdrs ∧ isRX P = true ∧ i ∈ PhSecs P
}.

(** The segments behind a kept one lie above its sections. *)
Lemma segments_after (KA KB : list PhdrEntry) (P : PhdrEntry) (f m : nat) (a : Z) :
  Kept = KA ++ P :: KB → isLoad P = true → PhSecs P = seq f (S m) → (f + m < n)%nat → a < addr All (f + m) + size All (f + m) →
  Forall (λ X, p_type X = PT_LOAD →
    0 ≤ p_filesz X < 2 ^ 62 ∧ a < p_vaddr X ∧ (layout_fits L → (1 < f + m)%nat → p_vaddr X < 2 ^ 32)) (map (setPhdr All Offs) KB).
Proof.
  intros HK HT HS Hn Ha. pose proof (lo_addresses _ _ _ _ _ HL) as HA. pose proof (lo_laid _ _ _ _ _ HL) as HLd. fold All Offs Kept in HA, HLd.
  pose proof (ao_partition _ _ _ HA) as HPart. destruct (ao_length _ _ _ HA) as [Hnl _]. pose proof All_Offs as HLen.
  destruct (kept_split All Phdrs n HA KA KB P HK HT) as [_ HKB]. rewrite Forall_forall in HKB.
  rewrite Forall_map. apply Forall_forall. intros Q HQ HQT. rewrite (proj1 (setPhdr_RX All Offs Q)) in HQT.
  assert (HQL : isLoad Q = true) by (unfold isLoad; rewrite HQT; reflexivity). specialize (HKB Q HQ HQL).
  assert (HQK : Q ∈ Phdrs) by (apply (removeEmpty_elem All); fold Kept; rewrite HK; apply elem_of_app; right; right; exact HQ).
  assert (HQLd : Q ∈ loads Phdrs) by (apply elem_of_loads; auto). destruct (load_run _ _ HPart Q HQLd) as (g & k & HSQ & Hgk).
  specialize (HKB (f + m)%nat g). rewrite HS, HSQ in HKB. rewrite !elem_of_seq in HKB. specialize (HKB ltac:(lia) ltac:(lia)).
  destruct (setPhdr_load All Phdrs n HA Offs Off _ HLd HLen Q g k HQLd HSQ ltac:(lia)) as (_ & Q2 & Q3 & _ & Q5 & _ & Q7).
  pose proof (ao_ascending _ _ _ HA (f + m) g ltac:(lia)). pose proof (laid_mono All Phdrs n HA Offs Off _ HLd HLen g g ltac:(lia)).
  pose proof (laid_mono All Phdrs n HA Offs Off _ HLd HLen (g + k) (g + k) ltac:(lia)). pose proof (laid_top All Phdrs n HA Offs Off _ HLd HLen).
  rewrite Q3. split; [lia |]. split; [lia |]. intros HFit Hge2. pose proof (fits_memory _ HFit g) as HM. fold All in HM.
  pose proof (ao_sec _ _ _ HA g ltac:(lia)) as (_ & Hs & _). lia.
Qed.

(** The size of a segment in the file, rounded to a page when it is the last. *)
Lemma rounded_end (KA KB : list PhdrEntry) (P : PhdrEntry) (f m : nat) :
  Kept = KA ++ P :: KB → isLoad P = true → PhSecs P = seq f (S m) → (f + m < n)%nat →
  let E := hd (mkPhdr 0 0 0 0 0 0 0 0) (roundLast (map (setPhdr All Offs) (P :: KB))) in
  roundLast (map (setPhdr All Offs) (P :: KB)) = E :: roundLast (map (setPhdr All Offs) KB) ∧
  p_type E = PT_LOAD ∧ p_vaddr E = addr All f ∧ p_offset E = ofs Offs f ∧ 0 ≤ p_filesz E ∧
  ofs Offs (f + m) + fsize All (f + m) ≤ ofs Offs f + p_filesz E ≤ Off ∧
  (∀ k, (f + m < k < length All)%nat → ofs Offs f + p_filesz E ≤ ofs Offs k) ∧
  (p_memsz E = p_filesz E ∨ p_vaddr E + p_memsz E = addr All (f + m) + size All (f + m)) ∧ 0 ≤ p_memsz E ∧
  ∀ a, addr All f ≤ a < addr All (f + m) + size All (f + m) →
    covers a E = negb (trimmed (map (setPhdr All Offs) (P :: KB)) a) ∧
    (trimmed (map (setPhdr All Offs) (P :: KB)) a = true → addr All f + p_filesz E ≤ a ∧ isRX P = true).
Proof.
  intros HK HT HS Hn. assert (Htail : ∀ a, a < addr All (f + m) + size All (f + m) → trimmed (map (setPhdr All Offs) KB) a = false).
  { intros a Ha. apply trimmed_before. eapply Forall_impl; [exact (segments_after KA KB P f m a HK HT HS Hn Ha) |]. cbn. intros X H HX. specialize (H HX). tauto. }
  pose proof (lo_addresses _ _ _ _ _ HL) as HA. pose proof (lo_laid _ _ _ _ _ HL) as HLd. fold All Offs Kept in HA, HLd.
  pose proof (ao_partition _ _ _ HA) as HPart. destruct (ao_length _ _ _ HA) as [Hnl _]. pose proof All_Offs as HLen.
  assert (HPK : P ∈ Kept) by (rewrite HK; apply elem_of_app; right; left).
  assert (HPL : P ∈ loads Phdrs) by (apply elem_of_loads; split; [exact (removeEmpty_elem _ _ _ HPK) | exact HT]).
  destruct (setPhdr_load All Phdrs n HA Offs Off _ HLd HLen P f m HPL HS Hn) as (H1 & H2 & H3 & H4 & H5 & H6 & H7).
  set (X := setPhdr All Offs P) in *. cbn [map roundLast hd trimmed]. fold X.
  pose proof (laid_mono All Phdrs n HA Offs Off _ HLd HLen (f + m) (f + m) ltac:(lia)) as [Ho1 Ho2].
  pose proof (laid_top All Phdrs n HA Offs Off _ HLd HLen) as H61.
  assert (Hord : ∀ k, (f + m < k < length All)%nat → ofs Offs (f + m) + fsize All (f + m) ≤ ofs Offs k)
    by (intros k Hk; apply (laid_order _ _ _ _ _ _ HLd); lia).
  destruct (isRXPhdr X && negb (existsb (λ Q, p_type Q =? PT_LOAD) (map (setPhdr All Offs) KB))) eqn:EX.
  2:{ split; [reflexivity |]. split; [exact H1 |]. split; [exact H3 |]. split; [exact H2 |]. split; [lia |]. split; [lia |].
      split; [intros k Hk; specialize (Hord k Hk); lia |]. split; [right; lia |]. split; [lia |]. intros a Ha. rewrite (Htail a ltac:(lia)).
      split; [| discriminate]. unfold covers. rewrite H1, Z.eqb_refl. cbn [andb orb negb]. lia. }
  apply andb_prop in EX as [EX EN]. unfold X in EX. rewrite (proj2 (setPhdr_RX All Offs P)) in EX.
  pose proof (RX_page P f m HPK EX HS) as HPage. apply negb_true_iff in EN.
  assert (HLRX : lastRX Kept = Some (f + m)%nat).
  { rewrite HK, lastRX_at; [exact (last_run _ _ _ HS) | exact EX |]. apply Forall_forall. intros Q HQ.
    destruct (isRX Q) eqn:EQ; [| reflexivity]. exfalso. apply eq_true_false_abs in EN; [exact EN |]. apply existsb_exists.
    exists (setPhdr All Offs Q). split; [apply in_map, list_elem_of_In, HQ |]. rewrite (proj1 (setPhdr_RX All Offs Q)).
    apply andb_prop in EQ as [EQ _]. exact EQ. }
  pose proof (laid_page _ _ _ _ _ _ HLd (f + m)%nat HLRX ltac:(lia)) as [Hpg1 Hpg2].
  destruct (laid_first _ _ _ _ _ _ HLd f ltac:(lia) (firstOf_run _ _ HPart P f m f HPL HS ltac:(lia))) as [Hfd _].
  pose proof (laid_mono All Phdrs n HA Offs Off _ HLd HLen f (f + m) ltac:(lia)) as [Hof _].
  pose proof (fsize_range All Phdrs n HA (f + m) ltac:(lia)) as Hfs.
  destruct (alignUp_spec (ofs Offs (f + m) + fsize All (f + m)) ltac:(lia)) as [Hu1 Hu2].
  destruct (alignUp_spec (p_filesz X) ltac:(lia)) as [Hv1 _].
  pose proof (alignUp_le (p_filesz X) (alignUp (ofs Offs (f + m) + fsize All (f + m)) - ofs Offs f) ltac:(lia)
    (Z.divide_sub_r _ _ _ Hu2 Hfd) ltac:(lia)) as Hle.
  cbn [p_type p_vaddr p_offset p_filesz p_memsz]. split; [reflexivity |]. split; [exact H1 |]. split; [exact H3 |]. split; [exact H2 |].
  split; [lia |]. split; [lia |]. split; [intros k Hk; specialize (Hpg2 k ltac:(lia)); lia |]. split; [left; reflexivity |]. split; [lia |].
  intros a Ha. rewrite (Htail a ltac:(lia)), orb_false_r. cbn [andb]. unfold covers. cbn [p_type p_vaddr p_memsz]. rewrite H1, H3, Z.eqb_refl.
  split; [lia |]. intros Ht. split; [lia | exact EX].
Qed.

Lemma trunc32_load (X : Elf32_Phdr) :
  0 ≤ p_offset X < 2 ^ 32 → 0 ≤ p_vaddr X < 2 ^ 32 → 0 ≤ p_filesz X < 2 ^ 32 → 0 ≤ p_memsz X < 2 ^ 32 →
  p_offset (trunc32 X) = p_offset X ∧ p_vaddr (trunc32 X) = p_vaddr X ∧ p_filesz (trunc32 X) = p_filesz X ∧ p_memsz (trunc32 X) = p_memsz X.
Proof. intros H1 H2 H3 H4. cbn [trunc32 p_offset p_vaddr p_filesz p_memsz]. rewrite !uint_small by assumption. auto. Qed.

Lemma trunc32_type (P : PhdrEntry) (X : Elf32_Phdr) : type32 P → p_type X = PhType P → p_type (trunc32 X) = PT_LOAD → isLoad P = true.
Proof. intros HT HX H. cbn [trunc32 p_type] in H. rewrite HX, uint_small in H by exact HT. unfold isLoad. rewrite H. reflexivity. Qed.

(** The other segments of the file, for an address of the sections of a kept one. *)
Lemma others_before (KA KB : list PhdrEntry) (P : PhdrEntry) (f m i : nat) (a : Z) :
  layout_fits L → Kept = KA ++ P :: KB → isLoad P = true → PhSecs P = seq f (S m) → (f + m < n)%nat → (f ≤ i ≤ f + m)%nat → (2 ≤ i)%nat →
  addr All i ≤ a < addr All i + size All i →
  Forall (λ Q, p_type Q = PT_LOAD → p_vaddr Q + p_memsz Q ≤ a ∧ p_vaddr Q + p_filesz Q ≤ a) (map trunc32 (map (setPhdr All Offs) KA)).
Proof.
  intros HFit HK HT HS Hfm Hfi Hi2 Ha. pose proof (lo_addresses _ _ _ _ _ HL) as HA. pose proof (lo_laid _ _ _ _ _ HL) as HLd. fold All Offs Kept in HA, HLd.
  pose proof (ao_partition _ _ _ HA) as HPart. destruct (ao_length _ _ _ HA) as [Hnl _]. pose proof All_Offs as HLen.
  pose proof (lo_shoff _ _ _ _ _ HL) as HSH. pose proof (lo_filesize _ _ _ _ _ HL) as HFS. pose proof (fits_file _ HFit) as HF32. unfold sizeof_Shdr in HFS.
  pose proof (fits_memory _ HFit i) as Hi32. fold All in Hi32. specialize (Hi32 ltac:(lia)).
  destruct (kept_split All Phdrs n HA KA KB P HK HT) as [HKA _]. pose proof (lo_types _ _ _ _ _ HL) as HTy. rewrite Forall_forall in HTy, HKA.
  rewrite !Forall_map. apply Forall_forall. intros Q HQ HQT.
  assert (HQK : Q ∈ Phdrs) by (apply (removeEmpty_elem All); fold Kept; rewrite HK; apply elem_of_app; left; exact HQ).
  pose proof (trunc32_type Q _ (HTy Q HQK) (proj1 (setPhdr_RX All Offs Q)) HQT) as HQL. specialize (HKA Q HQ HQL).
  assert (HQLd : Q ∈ loads Phdrs) by (apply elem_of_loads; auto). destruct (load_run _ _ HPart Q HQLd) as (g & k & HSQ & Hgk).
  specialize (HKA (g + k)%nat f). rewrite HS, HSQ in HKA. rewrite !elem_of_seq in HKA. specialize (HKA ltac:(lia) ltac:(lia)).
  destruct (setPhdr_load All Phdrs n HA Offs Off _ HLd HLen Q g k HQLd HSQ ltac:(lia)) as (_ & Q2 & Q3 & _ & Q5 & Q6 & Q7).
  pose proof (ao_ascending _ _ _ HA (g + k) i ltac:(lia)) as Hasc. pose proof (addr_mono All Phdrs n HA g g ltac:(lia)).
  pose proof (laid_mono All Phdrs n HA Offs Off _ HLd HLen g g ltac:(lia)).
  pose proof (laid_mono All Phdrs n HA Offs Off _ HLd HLen (g + k) (g + k) ltac:(lia)).
  destruct (trunc32_load (setPhdr All Offs Q) ltac:(lia) ltac:(lia) ltac:(lia) ltac:(lia)) as (_ & U2 & U3 & U4). rewrite U2, U3, U4. lia.
Qed.

Lemma others_after (KA KB : list PhdrEntry) (P : PhdrEntry) (f m : nat) (a : Z) :
  layout_fits L → Kept = KA ++ P :: KB → isLoad P = true → PhSecs P = seq f (S m) → (f + m < n)%nat → (2 ≤ f + m)%nat →
  0 ≤ a < addr All (f + m) + size All (f + m) →
  Forall (λ Q, p_type Q = PT_LOAD → a < p_vaddr Q) (map trunc32 (roundLast (map (setPhdr All Offs) KB))).
Proof.
  intros HFit HK HT HS Hfm H2 Ha. pose proof (segments_after KA KB P f m a HK HT HS Hfm ltac:(lia)) as HF. rewrite Forall_forall in HF.
  rewrite Forall_map. apply Forall_forall. intros Y HY HYT. apply list_elem_of_lookup in HY as (j & HY).
  destruct (Forall2_lookup_r _ _ _ _ _ (roundLast_vaddr (map (setPhdr All Offs) KB)) HY) as (X & HX & HXT & HXV).
  pose proof (list_elem_of_lookup_2 _ _ _ HX) as HXE.
  rewrite list_lookup_fmap in HX. destruct (KB !! j) as [Q |] eqn:HQ; [| discriminate]. injection HX as EX.
  apply list_elem_of_lookup_2 in HQ.
  assert (HQK : Q ∈ Phdrs) by (apply (removeEmpty_elem All); fold Kept; rewrite HK; apply elem_of_app; right; right; exact HQ).
  pose proof (lo_types _ _ _ _ _ HL) as HTy. rewrite Forall_forall in HTy.
  rewrite <- EX, (proj1 (setPhdr_RX All Offs Q)) in HXT. pose proof (trunc32_type Q _ (HTy Q HQK) HXT HYT) as HQL.
  destruct (HF X HXE) as (_ & H3 & H4); [rewrite <- EX, (proj1 (setPhdr_RX All Offs Q)); apply Z.eqb_eq, HQL |].
  specialize (H4 HFit ltac:(lia)). cbn [trunc32 p_vaddr]. rewrite HXV, uint_small by lia. exact H3.
Qed.

Lemma window_exists (i : nat) :
  layout_fits L → (2 ≤ i < n)%nat → 0 < size All i → ∃ A E B f m, window A B E i f m.
Proof.
  intros HFit Hi Hsz. pose proof (lo_addresses _ _ _ _ _ HL) as HA. pose proof (lo_laid _ _ _ _ _ HL) as HLd. fold All Offs Kept in HA, HLd.
  pose proof (ao_partition _ _ _ HA) as HPart. destruct (ao_length _ _ _ HA) as [Hnl _]. pose proof All_Offs as HLen.
  destruct (firstOf_total _ _ HPart i ltac:(lia)) as (f & Hf). destruct (firstOf_Some _ _ HPart _ _ Hf) as (P & m & HPL & HS & Hfi & Hfm).
  pose proof (kept_load All Phdrs n HA P f m i HPL HS Hfi Hfm Hsz) as HPK. fold Kept in HPK.
  apply elem_of_loads in HPL as HPT. destruct HPT as [_ HPT]. apply list_elem_of_split in HPK as (KA & KB & HK).
  destruct (kept_split All Phdrs n HA KA KB P HK HPT) as [HKA HKB].
  pose proof (rounded_end KA KB P f m HK HPT HS Hfm) as HE. cbv zeta in HE.
  set (E := hd _ _) in HE. destruct HE as (HR & E1 & E2 & E3 & E4 & E5 & E6 & E7 & E8 & E9).
  pose proof (lo_shoff _ _ _ _ _ HL) as HSH. pose proof (lo_filesize _ _ _ _ _ HL) as HFS. pose proof (fits_file _ HFit) as HF32. unfold sizeof_Shdr in HFS.
  pose proof (fits_memory _ HFit) as HM32. fold All in HM32. pose proof (laid_mono All Phdrs n HA Offs Off _ HLd HLen f f ltac:(lia)) as [Hof _].
  pose proof (addr_mono All Phdrs n HA f i ltac:(lia)) as [Haf _]. pose proof (HM32 i ltac:(lia)) as Hi32.
  pose proof (addr_mono All Phdrs n HA i (f + m) ltac:(lia)) as [Haf' Hafs]. pose proof (HM32 (f + m)%nat ltac:(lia)) as Hm32.
  destruct (trunc32_load E ltac:(lia) ltac:(lia) ltac:(lia) ltac:(lia)) as (T1 & T2 & T3 & T4).
  assert (HT1 : p_type (trunc32 E) = PT_LOAD) by (cbn [trunc32 p_type]; rewrite E1; reflexivity).
  assert (HPT' : p_type (setPhdr All Offs P) = PT_LOAD) by (rewrite (proj1 (setPhdr_RX All Offs P)); apply Z.eqb_eq; exact HPT).
  assert (Etrim : ∀ a, trimmed (LayPhdrs L) a = trimmed (map (setPhdr All Offs) (P :: KB)) a).
  { intros a. rewrite (lo_segments _ _ _ _ _ HL). fold All Offs Kept. rewrite HK, map_app. cbn [map]. apply trimmed_app, HPT'. }
  exists (map trunc32 (map (setPhdr All Offs) KA)), (trunc32 E), (map trunc32 (roundLast (map (setPhdr All Offs) KB))), f, m. split.
  - rewrite (lo_segments _ _ _ _ _ HL). fold All Offs Kept. rewrite HK, map_app. cbn [map]. rewrite roundLast_app by exact HPT'.
    rewrite map_app. cbn [map] in HR. rewrite HR. reflexivity.
  - exact HT1.
  - rewrite T2. exact E2.
  - rewrite T1. exact E3.
  - intros j Hj. exact (firstOf_run _ _ HPart P f m j HPL HS Hj).
  - split; assumption.
  - rewrite T3. exact E5.
  - rewrite T3. exact E6.
  - intros a Ha. apply Forall_app. split.
    + eapply Forall_impl; [exact (others_before KA KB P f m i a HFit HK HPT HS Hfm Hfi ltac:(lia) Ha) |]. cbn. intros Q HQ HQT. specialize (HQ HQT). lia.
    + eapply Forall_impl; [exact (others_after KA KB P f m a HFit HK HPT HS Hfm ltac:(lia) ltac:(lia)) |]. cbn. intros Q HQ HQT. specialize (HQ HQT). lia.
  - intros a Ha. rewrite Etrim. destruct (E9 a ltac:(lia)) as [<- _]. unfold covers. rewrite T2, T4, HT1, E1. reflexivity.
  - intros a Ha. rewrite Etrim, T3. intros Ht. destruct (proj2 (E9 a ltac:(lia)) Ht) as [H1 H2]. split; [exact H1 |].
    exists P. split; [apply (proj1 (elem_of_loads _ _) HPL) |]. split; [exact H2 |]. rewrite HS. apply elem_of_seq. lia.
Qed.

(** Other segments leave a byte alone. *)
Lemma segmentBytes_other (file : list Z) (a b : Z) (l : list Elf32_Phdr) :
  Forall (λ Q, p_type Q = PT_LOAD → a < p_vaddr Q ∨ p_vaddr Q + p_filesz Q ≤ a) l → foldl (segmentByte file a) b l = b.
Proof.
  revert b. induction l as [| Q l IH]; intros b H; [reflexivity |]. apply Forall_cons in H as [HQ H]. cbn [foldl].
  rewrite IH by exact H. unfold segmentByte. destruct (Z.eqb_spec (p_type Q) PT_LOAD) as [HT |]; [| reflexivity].
  destruct (HQ HT); [destruct (Z.leb_spec (p_vaddr Q) a); [lia | reflexivity] |].
  destruct (Z.ltb_spec a (p_vaddr Q + p_filesz Q)); [lia |]. rewrite andb_false_r. reflexivity.
Qed.

Lemma loaded_window (file : list Z) (A B : list Elf32_Phdr) (E : Elf32_Phdr) (i f m : nat) (a : Z) :
  window A B E i f m → addr All i ≤ a < addr All i + size All i →
  loadedByte file (map trunc32 (roundLast (LayPhdrs L))) a =
    if a <? addr All f + p_filesz E then default 0 (file !! Z.to_nat (ofs Offs f + (a - addr All f))) else 0.
Proof.
  intros HW Ha. pose proof (Forall_impl _ _ _ (window_others _ _ _ _ _ _ HW a Ha) (λ Q H HT, proj2 (H HT))) as HO. apply Forall_app in HO as [HOA HOB]. unfold loadedByte.
  pose proof (lo_addresses _ _ _ _ _ HL) as HA. fold All in HA. destruct (window_range _ _ _ _ _ _ HW) as [Hr Hn].
  pose proof (addr_mono All Phdrs n HA f i ltac:(lia)) as [Haf _].
  rewrite (window_headers _ _ _ _ _ _ HW), foldl_app. cbn [foldl]. rewrite (segmentBytes_other file a 0 A HOA), segmentBytes_other by exact HOB.
  unfold segmentByte. rewrite (window_type _ _ _ _ _ _ HW), (window_vaddr _ _ _ _ _ _ HW), (window_offset _ _ _ _ _ _ HW), Z.eqb_refl.
  destruct (Z.leb_spec (addr All f) a); [| lia]. reflexivity.
Qed.

(** What of a section is in the memory of a segment. *)
Lemma covered_window (A B : list Elf32_Phdr) (E : Elf32_Phdr) (i f m : nat) (a : Z) :
  window A B E i f m → addr All i ≤ a < addr All i + size All i →
  existsb (covers a) (map trunc32 (roundLast (LayPhdrs L))) = negb (trimmed (LayPhdrs L) a).
Proof.
  intros HW Ha. pose proof (Forall_impl _ _ _ (window_others _ _ _ _ _ _ HW a Ha) (λ Q H HT, proj1 (H HT))) as HO. apply Forall_app in HO as [HOA HOB].
  rewrite (window_headers _ _ _ _ _ _ HW), existsb_app, (covers_other _ _ HOA). cbn [existsb]. rewrite (covers_other _ _ HOB), orb_false_r.
  exact (window_memory _ _ _ _ _ _ HW a Ha).
Qed.

(** The bytes of the file part of a section, and zero in one without. *)
Lemma loaded_section (file : list Z) (i : nat) (d : Z) :
  layout_fits L → (2 ≤ i < n)%nat → 0 ≤ d < size All i → Z.of_nat (length file) = LayFileSize L →
  (∀ p, Z.of_nat p < Off → (∀ J, (J < length All)%nat → Z.of_nat p < ofs Offs J ∨ ofs Offs J + fsize All J ≤ Z.of_nat p) → file !! p = Some 0) →
  memoryByte file (map trunc32 (roundLast (LayPhdrs L))) (addr All i + d) =
    if nobits All i then if trimmed (LayPhdrs L) (addr All i + d) then None else Some 0
    else Some (default 0 (file !! Z.to_nat (ofs Offs i + d))).
Proof.
  intros HFit Hi Hd HLf Hzero. destruct (window_exists i HFit Hi ltac:(lia)) as (A & E & B & f & m & HW). unfold memoryByte.
  rewrite (loaded_window file A B E i f m _ HW), (covered_window A B E i f m _ HW) by lia.
  pose proof (window_trimmed _ _ _ _ _ _ HW (addr All i + d) ltac:(lia)) as Htr.
  pose proof (lo_addresses _ _ _ _ _ HL) as HA. pose proof (lo_laid _ _ _ _ _ HL) as HLd. fold All Offs Kept in HA, HLd. pose proof All_Offs as HLen.
  destruct (ao_length _ _ _ HA) as [Hnl _]. destruct (window_range _ _ _ _ _ _ HW) as [Hr Hn]. pose proof (window_run _ _ _ _ _ _ HW) as HRun.
  destruct (window_end _ _ _ _ _ _ HW) as [He1 He2]. pose proof (window_after _ _ _ _ _ _ HW) as Haft.
  pose proof (laid_in _ _ _ _ _ _ HLd i f ltac:(lia) (HRun i Hr)) as HIn. pose proof (addr_mono All Phdrs n HA f i ltac:(lia)) as [Haf _].
  pose proof (laid_mono All Phdrs n HA Offs Off _ HLd HLen i (f + m) ltac:(lia)) as [Hm1 Hm2].
  pose proof (laid_mono All Phdrs n HA Offs Off _ HLd HLen f f ltac:(lia)) as [Hf0 _].
  unfold fsize in Hm2 at 1. destruct (nobits All i) eqn:En.
  - destruct (trimmed _ _); [reflexivity |]. cbn [negb]. destruct (Z.ltb_spec (addr All i + d) (addr All f + p_filesz E)) as [Hlt |]; [| reflexivity].
    rewrite Hzero; [reflexivity | lia |]. intros J HJ. rewrite Z2Nat.id by lia.
    pose proof (fsize_range All Phdrs n HA J HJ) as HfJ. destruct (decide (J < f)%nat) as [H1 | H1].
    { right. pose proof (laid_order _ _ _ _ _ _ HLd J f ltac:(lia)). lia. }
    destruct (decide (f + m < J)%nat) as [H2 | H2]; [left; specialize (Haft J ltac:(lia)); lia |].
    pose proof (laid_in _ _ _ _ _ _ HLd J f ltac:(lia) (HRun J ltac:(lia))) as HJn. unfold fsize in *. destruct (nobits All J) eqn:EJ; [lia |].
    assert (HJi : J ≠ i) by congruence. destruct (decide (J < i)%nat) as [H3 | H3].
    + pose proof (ao_ascending _ _ _ HA J i ltac:(lia)). lia.
    + pose proof (ao_ascending _ _ _ HA i J ltac:(lia)). lia.
  - destruct (trimmed _ _); [destruct (Htr eq_refl); lia |]. cbn [negb].
    destruct (Z.ltb_spec (addr All i + d) (addr All f + p_filesz E)) as [Hlt | Hge]; [do 4 f_equal; lia | lia].
Qed.

(** Memory is taken only from sections of executable segments. *)
Lemma trimmed_section (i : nat) (d : Z) :
  layout_fits L → (2 ≤ i < n)%nat → 0 ≤ d < size All i → trimmed (LayPhdrs L) (addr All i + d) = true →
  ∃ P, P ∈ Phdrs ∧ isRX P = true ∧ i ∈ PhSecs P.
Proof.
  intros HFit Hi Hd Ht. destruct (window_exists i HFit Hi ltac:(lia)) as (A & E & B & f & m & HW).
  exact (proj2 (window_trimmed _ _ _ _ _ _ HW (addr All i + d) ltac:(lia) Ht)).
Qed.
End layout.

(** [InputSection]: [getParent()->Addr + OutSecOff] *)
Definition inputVA (L : Layout) (i j : nat) : option Z :=
  Pl ← LaySections L !! (2 + i)%nat; o ← PlInOffs Pl !! j; Some (PlAddr Pl + o).

(** The file starts with headers that describe its segments. *)
Lemma file_readable (C : Config) (L : Layout) (file rest : list Z) (Entry ShNum : Z) :
  Z.of_nat (length (LayPhdrs L)) < 2 ^ 16 →
  take sizeof_Ehdr file = ehdrBytes C Entry (LaySectionHeaderOff L) (Z.of_nat (length (LayPhdrs L))) ShNum →
  drop sizeof_Ehdr file = concat (map phdrBytes (roundLast (LayPhdrs L))) ++ rest →
  readable file ∧ e_entry (headerOf file) = u32 Entry ∧ segmentsOf file = map trunc32 (roundLast (LayPhdrs L)).
Proof.
  intros Hn Ht Hd. destruct (ehdrBytes_header C Entry (LaySectionHeaderOff L) (Z.of_nat (length (LayPhdrs L))) ShNum) as (Hl & H1 & H2 & H3 & H4 & H5).
  assert (HLf : length file = (sizeof_Ehdr + (sizeof_Phdr * length (LayPhdrs L) + length rest))%nat).
  { rewrite <- (take_drop sizeof_Ehdr file), Ht, Hd, !length_app, Hl, length_phdrs, length_roundLast. reflexivity. }
  assert (HH : headerOf file = as_Ehdr (ehdrBytes C Entry (LaySectionHeaderOff L) (Z.of_nat (length (LayPhdrs L))) ShNum)) by (unfold headerOf; rewrite Ht; reflexivity).
  assert (HP : e_phnum (headerOf file) = Z.of_nat (length (LayPhdrs L))) by (rewrite HH, H4; apply uint_small; lia).
  split; [split |].
  - lia.
  - rewrite <- H1, <- Ht, take_take. f_equal.
  - rewrite HH. exact H2.
  - rewrite HH, H3. discriminate.
  - rewrite HP, HH, H3, HLf. unfold sizeof_Ehdr, sizeof_Phdr. lia.
  - split; [rewrite HH; exact H5 |]. unfold segmentsOf. rewrite HP, HH, H3, !Nat2Z.id, Hd.
    rewrite <- (length_roundLast (LayPhdrs L)). apply as_Phdrs_bytes.
Qed.

Lemma sorted_sections (Secs : list OutputSection) :
  Forall section_ok Secs → Exists (λ Sec, isAlloc Sec = true) Secs →
  ∃ Alloc Rest, sortSections Secs = Alloc ++ Rest ∧ Forall section_ok (Alloc ++ Rest) ∧ Forall (λ Sec, isAlloc Sec = true) Alloc ∧
    Forall (λ Sec, isAlloc Sec = false) Rest ∧ Alloc ≠ [] ∧ length (Alloc ++ Rest) = length Secs.
Proof.
  intros HS HE. assert (HS' : Forall section_ok (sortSections Secs)) by (rewrite sortSections_perm; exact HS).
  assert (HN : Forall (λ Sec, OSName Sec ≠ ".interp"%string) (sortSections Secs)) by (eapply Forall_impl; [exact HS' | intros Sec H; apply (section_name _ H)]).
  pose proof (sorted_alloc_first _ HN (sortSections_sorted Secs)) as E.
  exists (List.filter isAlloc (sortSections Secs)), (List.filter (λ Sec, negb (isAlloc Sec)) (sortSections Secs)). rewrite <- E.
  split; [reflexivity |]. split; [exact HS' |]. split; [| split; [| split]].
  - apply Forall_forall. intros Sec H. apply list_elem_of_In, List.filter_In in H. apply H.
  - apply Forall_forall. intros Sec H. apply list_elem_of_In, List.filter_In in H as [_ H]. apply negb_true_iff, H.
  - rewrite <- (sortSections_perm Secs) in HE. apply Exists_exists in HE as (Sec & HIn & HA). intros Hnil.
    assert (Hc : Sec ∈ List.filter isAlloc (sortSections Secs)) by (apply list_elem_of_In, List.filter_In; split; [apply list_elem_of_In, HIn | exact HA]).
    rewrite Hnil in Hc. apply elem_of_nil in Hc as [].
  - apply Permutation_length, sortSections_perm.
Qed.

Lemma inputs_at_lookup (Inputs : list InputSection) (Offs : list Z) (Addr lo hi : Z) (j : nat) (IS : InputSection) (o : Z) :
  inputs_at Addr lo hi Offs Inputs → Inputs !! j = Some IS → Offs !! j = Some o → (ISAlignment IS | Addr + o).
Proof.
  revert Offs lo j. induction Inputs as [| IS' Inputs IH]; intros Offs lo j H HI HO; [discriminate |].
  destruct Offs as [| o' Offs]; [contradiction |]. destruct H as (_ & H1 & H2).
  destruct j as [| j]; [injection HI as <-; injection HO as <-; exact H1 | exact (IH Offs _ j H2 HI HO)].
Qed.

Lemma layout_placed (Secs : list OutputSection) (Phdrs : list PhdrEntry) (n : nat) (Off : Z) (L : Layout) (i : nat) (Sec : OutputSection) :
  layout_ok Secs Phdrs n Off L → Secs !! i = Some Sec → placed_ok Sec (sec (LaySections L) (2 + i)) ∧ (2 + i < length (LaySections L))%nat.
Proof.
  intros HLo Hi. pose proof (lookup_lt_Some _ _ _ Hi) as Hlt. pose proof (lo_length _ _ _ _ _ HLo) as Hl. split; [| lia].
  apply (Forall2_lookup_lr _ _ _ _ _ _ (lo_placed _ _ _ _ _ HLo) Hi). rewrite lookup_drop. apply sec_lookup. lia.
Qed.

Lemma inputVA_placed (Secs : list OutputSection) (Phdrs : list PhdrEntry) (n : nat) (Off : Z) (L : Layout) (i j : nat) (Sec : OutputSection) (a : Z) :
  layout_ok Secs Phdrs n Off L → Secs !! i = Some Sec → inputVA L i j = Some a →
  ∃ o, PlInOffs (sec (LaySections L) (2 + i)) !! j = Some o ∧ a = addr (LaySections L) (2 + i) + o.
Proof.
  intros HLo Hi Ha. destruct (layout_placed _ _ _ _ _ _ _ HLo Hi) as [_ Hl]. unfold inputVA in Ha. rewrite (sec_lookup (LaySections L) _ Hl) in Ha. cbn in Ha.
  destruct (PlInOffs _ !! j) as [o |] eqn:Eo; [| discriminate]. injection Ha as <-. exists o. split; reflexivity.
Qed.

(** A layout without messages, written: every store is inside the file, and a loader
    finds each byte of the memory image where the layout put it. *)
Lemma layout_loads (C : Config) (Secs : list OutputSection) (Phdrs : list PhdrEntry) (n : nat) (Off : Z) (L : Layout) (Entry : Z)
    (Contents : list (list (list Z))) :
  Forall section_ok Secs → Z.of_nat (length Secs) < 2 ^ 14 → layout_ok Secs Phdrs n Off L → Forall2 contents_ok Secs Contents → layout_fits L →
  ∃ file, writeFile C Secs L Entry Contents = Ret file ∧ Z.of_nat (length file) = LayFileSize L ∧
    readable file ∧ e_entry (headerOf file) = u32 Entry ∧
    (∀ i j Sec Cs a B k b, Secs !! i = Some Sec → isAlloc Sec = true → OSType Sec ≠ SHT_NOBITS → Contents !! i = Some Cs →
       inputVA L i j = Some a → Cs !! j = Some B → B !! k = Some b → memoryByte file (segmentsOf file) (a + Z.of_nat k) = Some b) ∧
    (∀ i Sec Pl d, Secs !! i = Some Sec → isAlloc Sec = true → OSType Sec = SHT_NOBITS → LaySections L !! (2 + i)%nat = Some Pl →
       0 ≤ d < PlSize Pl → memoryByte file (segmentsOf file) (PlAddr Pl + d) = if trimmed (LayPhdrs L) (PlAddr Pl + d) then None else Some 0).
Proof.
  intros HS HLen HLo HC HFit.
  destruct (writeFile_spec _ _ _ _ _ HLo C Entry Contents HS HC) as (file & rest & HW & HSz & Ht & Hd & Hin & Hz).
  exists file. split; [exact HW |]. split; [exact HSz |].
  assert (HPn : Z.of_nat (length (LayPhdrs L)) < 2 ^ 16).
  { rewrite (lo_segments _ _ _ _ _ HLo), length_map. pose proof (lo_phnum _ _ _ _ _ HLo).
    eapply Z.le_lt_trans; [apply inj_le, filter_length_le |]. lia. }
  destruct (file_readable C L file rest Entry _ HPn Ht Hd) as (HRd & HEn & HSeg).
  split; [exact HRd |]. split; [exact HEn |]. rewrite HSeg. split.
  - intros i j Sec Cs a B k b Hi HAl HT HCs Ha HB Hk. destruct (layout_placed _ _ _ _ _ i Sec HLo Hi) as [HP Hl].
    destruct (inputVA_placed _ _ _ _ _ i j Sec a HLo Hi Ha) as (o & Ho & ->).
    destruct (Hin i Sec Cs j o B k b Hi HT HCs Ho HB Hk) as (H0 & H1 & H2).
    apply (lo_alloc _ _ _ _ _ HLo i Sec Hi) in HAl. rewrite <- Z.add_assoc.
    rewrite (loaded_section _ _ _ _ _ HLo file (2 + i) (o + Z.of_nat k) HFit ltac:(lia) ltac:(lia) HSz Hz).
    assert (nobits (LaySections L) (2 + i) = false) as -> by (unfold nobits; rewrite (placed_type _ _ HP); apply Z.eqb_neq, HT).
    pose proof (lo_laid _ _ _ _ _ HLo) as HLd. pose proof (All_Offs _ _ _ _ _ HLo) as HLO.
    destruct (laid_below _ _ _ _ _ _ HLd (2 + i)%nat ltac:(lia)) as [Hb _].
    replace (Z.to_nat (ofs (LayOffsets L) (2 + i) + (o + Z.of_nat k))) with (Z.to_nat (ofs (LayOffsets L) (2 + i) + o) + k)%nat by lia.
    rewrite H2. reflexivity.
  - intros i Sec Pl d Hi HAl HT HPl Hd'. destruct (layout_placed _ _ _ _ _ i Sec HLo Hi) as [HP Hl]. rewrite (sec_lookup (LaySections L) _ Hl) in HPl.
    assert (Pl = sec (LaySections L) (2 + i)) as -> by congruence. apply (lo_alloc _ _ _ _ _ HLo i Sec Hi) in HAl.
    pose proof (loaded_section _ _ _ _ _ HLo file (2 + i) d HFit ltac:(lia) Hd' HSz Hz) as H.
    unfold addr in H. rewrite H.
    assert (nobits (LaySections L) (2 + i) = true) as -> by (unfold nobits; rewrite (placed_type _ _ HP), HT; reflexivity). reflexivity.
Qed.

(** C2. The linker's file, loaded.  The output sections are sorted, laid out and written.
    The layout ends; when it has no message, every store is inside the file, the file is
    an executable for this machine with the entry it was given, and each byte of each
    input section of the memory image is in the memory of a load segment, at the address
    of the section, which is a multiple of its alignment.  The bytes of a section without
    contents are memory too, and zero, but for those that [writeTrapInstr] takes from the
    last segment ([trimmed]: behind the contents of an executable last segment, rounded to
    a page), which are in no segment at all; these are only in sections that are marked
    executable. *)
Theorem linked_file_loads (C : Config) (Secs : list OutputSection) (Entry : Z) (Contents : list (list (list Z))) :
  Forall section_ok Secs → Exists (λ Sec, isAlloc Sec = true) Secs → Z.of_nat (length Secs) < 2 ^ 14 →
  Forall2 contents_ok (sortSections Secs) Contents →
  ∃ L Errs, layoutFile (sortSections Secs) = Ret (L, Errs) ∧
    (∀ i j Sec IS a, sortSections Secs !! i = Some Sec → OSInputs Sec !! j = Some IS → inputVA L i j = Some a → (ISAlignment IS | a)) ∧
    (Errs = [] → ∃ file, writeFile C (sortSections Secs) L Entry Contents = Ret file ∧ Z.of_nat (length file) = LayFileSize L ∧
      readable file ∧ e_entry (headerOf file) = u32 Entry ∧
      (∀ i j Sec Cs a B k b, sortSections Secs !! i = Some Sec → isAlloc Sec = true → OSType Sec ≠ SHT_NOBITS → Contents !! i = Some Cs →
         inputVA L i j = Some a → Cs !! j = Some B → B !! k = Some b → memoryByte file (segmentsOf file) (a + Z.of_nat k) = Some b) ∧
      (∀ i Sec Pl d, sortSections Secs !! i = Some Sec → isAlloc Sec = true → OSType Sec = SHT_NOBITS → LaySections L !! (2 + i)%nat = Some Pl →
         0 ≤ d < PlSize Pl →
         memoryByte file (segmentsOf file) (PlAddr Pl + d) = (if trimmed (LayPhdrs L) (PlAddr Pl + d) then None else Some 0) ∧
         (trimmed (LayPhdrs L) (PlAddr Pl + d) = true → has_flag (OSFlags Sec) SHF_EXECINSTR = true))).
Proof.
  intros HS HE HLen HC. destruct (sorted_sections Secs HS HE) as (Alloc & Rest & Es & HS' & HA & HR & HN & HLn). rewrite Es in *. rewrite <- HLn in HLen.
  destruct (layoutFile_spec Alloc Rest HS' HA HR HN HLen) as (Off & L & Errs & HLay & HLo & HFit).
  exists L, Errs. split; [exact HLay |]. split.
  - intros i j Sec IS a Hi HI Ha. destruct (layout_placed _ _ _ _ _ i Sec HLo Hi) as [HP _].
    destruct (inputVA_placed _ _ _ _ _ i j Sec a HLo Hi Ha) as (o & Ho & ->).
    exact (inputs_at_lookup _ _ _ _ _ _ _ _ (placed_inputs _ _ HP) HI Ho).
  - intros HErr. destruct (layout_loads C _ _ _ _ _ Entry Contents HS' HLen HLo HC (HFit HErr)) as (file & H1 & H2 & H3 & H4 & H5 & H6).
    exists file. do 5 (split; [assumption |]). intros i Sec Pl d Hi HAl HT HPl Hd. split; [exact (H6 i Sec Pl d Hi HAl HT HPl Hd) |].
    destruct (layout_placed _ _ _ _ _ i Sec HLo Hi) as [_ Hl]. rewrite (sec_lookup (LaySections L) _ Hl) in HPl. injection HPl as <-. intros Ht.
    apply (lo_alloc _ _ _ _ _ HLo i Sec Hi) in HAl.
    destruct (trimmed_section _ _ _ _ _ HLo (2 + i) d (HFit HErr) ltac:(lia) Hd Ht) as (P & HP & HX & Hin).
    exact (createPhdrs_exec _ P i Sec HP HX Hin Hi).
Qed.

(** Five sections, given in another order than that of the file. *)
Definition demo_data : OutputSection := mkOutputSection ".data" 1 (SHF_ALLOC + SHF_WRITE) 4 false [mkInputSection 0 4 4] (1, 0, 0, 0).
Definition demo_bss : OutputSection := mkOutputSection ".bss" SHT_NOBITS (SHF_ALLOC + SHF_WRITE) 64 false [mkInputSection 1 100 64] (2, 0, 0, 0).
Definition demo_symtab : OutputSection := mkOutputSection ".symtab" 2 0 4 false [mkInputSection 2 32 4] (3, 0, 0, 0).
Definition demo_rodata : OutputSection := mkOutputSection ".rodata" 1 SHF_ALLOC 8 false [mkInputSection 3 6 4; mkInputSection 4 3 8] (5, 0, 0, 0).
Definition demo_text : OutputSection :=
  mkOutputSection ".text" 1 (SHF_ALLOC + SHF_EXECINSTR) 16 false [mkInputSection 5 8 4; mkInputSection 6 4 16] (4, 0, 0, 0).

Definition demo_sections : list OutputSection := [demo_data; demo_bss; demo_symtab; demo_text; demo_rodata].

Definition demo_contents : list (list (list Z)) :=
  [[[1; 2; 3; 4; 5; 6]; [7; 8; 9]]; [[10; 11; 12; 13; 14; 15; 16; 17]; [20; 21; 22; 23]]; [[30; 31; 32; 33]]; [[]]; [replicate 32 9]].

Definition demo_layout : Layout :=
  match layoutFile (sortSections demo_sections) with Ret (L, _) => L | _ => mkLayout [] [] [] 0 0 end.

Lemma demo_sorted : sortSections demo_sections = [demo_rodata; demo_text; demo_data; demo_bss; demo_symtab].
Proof. reflexivity. Qed.

Lemma input_ok_pow (i : nat) (s k : Z) : 0 ≤ s → 0 ≤ k ≤ 31 → input_ok (mkInputSection i s (2 ^ k)).
Proof. intros Hs Hk. split; [exact Hs | exists k; auto]. Qed.

Lemma pow2_pow (k : Z) : 0 ≤ k ≤ 31 → pow2 (2 ^ k).
Proof. intros Hk. exists k. auto. Qed.

Lemma demo_sections_ok : Forall section_ok demo_sections.
Proof.
  apply Forall_forall. intros Sec H. repeat (apply elem_of_cons in H as [-> | H]); [.. | apply elem_of_nil in H as []]; split;
    try reflexivity; try discriminate; cbn [OSInputs OSAlignment demo_data demo_bss demo_text demo_symtab demo_rodata];
    repeat (apply Forall_cons; split); try apply Forall_nil_2;
    first [apply (input_ok_pow _ _ 2); lia | apply (input_ok_pow _ _ 3); lia | apply (input_ok_pow _ _ 4); lia | apply (input_ok_pow _ _ 6); lia |
      apply (pow2_pow 2); lia | apply (pow2_pow 3); lia | apply (pow2_pow 4); lia | apply (pow2_pow 6); lia].
Qed.

Lemma outcome_Ret_pair {A B : Type} (a a' : A) (b b' : B) : Ret (a, b) = Ret (a', b') → a = a' ∧ b = b'.
Proof. intros H. injection H as <- <-. auto. Qed.

Example linked_file_loads_witness :
  ∃ file, writeFile (mkConfig 0 0 6) (sortSections demo_sections) demo_layout 0x1000 demo_contents = Ret file ∧ readable file ∧
    memoryByte file (segmentsOf file) 0x1012 = Some 22 ∧ memoryByte file (segmentsOf file) 0x2003 = Some 33 ∧
    memoryByte file (segmentsOf file) 0x2045 = Some 0.
Proof.
  assert (HL : layoutFile (sortSections demo_sections) = Ret (demo_layout, [])) by (vm_compute; reflexivity).
  destruct (linked_file_loads (mkConfig 0 0 6) demo_sections 0x1000 demo_contents) as (L & Errs & HLay & _ & H).
  - exact demo_sections_ok.
  - apply Exists_cons_hd. reflexivity.
  - cbn. lia.
  - rewrite demo_sorted. repeat (apply Forall2_cons; split; [intros HT |]); try apply Forall2_nil_2;
      [.. | destruct (HT eq_refl) |]; repeat (apply Forall2_cons; split; [reflexivity |]); apply Forall2_nil_2.
  - rewrite HL in HLay. apply outcome_Ret_pair in HLay as [<- <-]. destruct (H eq_refl) as (file & HW & _ & HR & _ & HB & HZ).
    exists file. split; [exact HW |]. split; [exact HR |]. split; [| split].
    + assert (HA : inputVA demo_layout 1 1 = Some 0x1010) by (vm_compute; reflexivity).
      exact (HB 1%nat 1%nat demo_text _ 0x1010 _ 2%nat 22 ltac:(vm_compute; reflexivity) eq_refl ltac:(discriminate) eq_refl HA eq_refl eq_refl).
    + assert (HA : inputVA demo_layout 2 0 = Some 0x2000) by (vm_compute; reflexivity).
      exact (HB 2%nat 0%nat demo_data _ 0x2000 _ 3%nat 33 ltac:(vm_compute; reflexivity) eq_refl ltac:(discriminate) eq_refl HA eq_refl eq_refl).
    + exact (proj1 (HZ 3%nat demo_bss (mkPlaced SHT_NOBITS 64 0x2040 100 [0]) 5 ltac:(vm_compute; reflexivity) eq_refl eq_refl ltac:(vm_compute; reflexivity) ltac:(cbn; lia))).
Defined.

(** A section without contents of two pages, writable and executable: its second page is
    not in the memory of the program. *)
Definition demo_trimmed : list OutputSection :=
  [mkOutputSection ".text" 1 (SHF_ALLOC + SHF_WRITE + SHF_EXECINSTR) 4 false [mkInputSection 0 8 4] (1, 0, 0, 0);
   mkOutputSection ".bss" SHT_NOBITS (SHF_ALLOC + SHF_WRITE + SHF_EXECINSTR) 4 false [mkInputSection 1 0x2000 4] (2, 0, 0, 0)].

Example trimmed_memory :
  match layoutFile (sortSections demo_trimmed) with
  | Ret (L, Errs) =>
      Errs = [] ∧ inputVA L 1 0 = Some 0x1008 ∧
      match writeFile (mkConfig 0 0 0) (sortSections demo_trimmed) L 0x1000 [[[1; 2; 3; 4; 5; 6; 7; 8]]; [[]]] with
      | Ret file => memoryByte file (segmentsOf file) 0x1FFF = Some 0 ∧ memoryByte file (segmentsOf file) 0x2000 = None
      | _ => False
      end
  | _ => False
  end.
Proof. vm_compute. repeat split. Qed.
