(* ===== verification/LldSections.v ===== *)
(** * LldSections: input sections become output sections

    tools/lld/ELF: the input section made of a section header (InputSection.cpp), the
    name of the output section it goes to (getOutputSectionName of Writer.cpp), and the
    grouping of all input sections by that name (addOrphanSections, addInputSec of
    LinkerScript.cpp, addSection of OutputSections.cpp), without a linker script.
    Relocation sections, section groups and exception frames are not among the input
    sections: a static link of this target has none in its output. *)
From Stdlib Require Import Strings.Ascii.
From S2P Require Import Prelude MathExtras NyuziTarget NyuziFixups NyuziLinker WordPatches MCExpressions MCAssembler LldLink Elf2Hex LldLayout.

(** ** Input sections *)
Definition SHT_PROGBITS : Z := 1.
Definition SHF_INFO_LINK : Z := 0x40.
Definition SHF_LINK_ORDER : Z := 0x80.
Definition SHF_GROUP : Z := 0x200.

(** [InputSectionBase]; [InFile] is the name of its file, [InIsGot] says whether it is [InX::Got], [InEmpty] whether it is
    a [SyntheticSection] that turned out to be [empty]. *)
Record Input : Type := mkInput {
  InFile : string;
  InName : string;
  InType : Z;
  InFlags : Z;
  InEntsize : Z;
  InIsGot : bool;
  InEmpty : bool;
  InSection : InputSection
}.

(** [isPowerOf2_64] of MathExtras.h *)
Definition isPowerOf2_64 (Value : Z) : bool := negb (Value =? 0) && (Z.land Value (u64 (Value - 1)) =? 0).

(** [getFlags]: the flags that mean nothing in an executable go. *)
Definition getFlags (Flags : Z) : Z := Z.ldiff (Z.ldiff Flags SHF_INFO_LINK) SHF_GROUP.

(** [getType] *)
Definition getType (Type_ : Z) (Name : string) : Z :=
  if (Type_ =? SHT_PROGBITS) && String.prefix ".init_array." Name then SHT_INIT_ARRAY
  else if (Type_ =? SHT_PROGBITS) && String.prefix ".fini_array." Name then SHT_FINI_ARRAY
  else Type_.

(** The constructor of [InputSectionBase] from the header of section [i]. *)
Definition InputSectionBase (i : nat) (File Name : string) (sh_type sh_flags sh_entsize sh_addralign Size : Z) : outcome Input :=
  let V := Z.max (u32 sh_addralign) 1 in
  if negb (isPowerOf2_64 V) then FatalError "section sh_addralign is not a power of 2"
  else Ret (mkInput File Name (getType sh_type Name) (getFlags sh_flags) sh_entsize false false (mkInputSection i Size V)).

(** ** Output sections *)

(** [getOutputSectionName] *)
Definition OutputPrefixes : list string :=
  [".text."; ".rodata."; ".data.rel.ro."; ".data."; ".bss.rel.ro."; ".bss."; ".init_array."; ".fini_array."; ".ctors.";
   ".dtors."; ".tbss."; ".gcc_except_table."; ".tdata."; ".ARM.exidx."; ".ARM.extab."]%string.

Fixpoint prefixOf (Prefixes : list string) (Name : string) : option string :=
  match Prefixes with
  | [] => None
  | V :: Prefixes =>
      let Prefix := String.substring 0 (String.length V - 1) V in
      if String.prefix V Name || String.eqb Name Prefix then Some Prefix else prefixOf Prefixes Name
  end.

Definition getOutputSectionName (S : Input) : string :=
  match prefixOf OutputPrefixes (InName S) with
  | Some Prefix => Prefix
  | None => if String.eqb (InName S) "COMMON" then ".bss" else InName S
  end.

(** [canMergeToProgbits] *)
Definition canMergeToProgbits (Type_ : Z) : bool :=
  (Type_ =? SHT_NOBITS) || (Type_ =? SHT_PROGBITS) || (Type_ =? SHT_INIT_ARRAY) || (Type_ =? SHT_PREINIT_ARRAY) ||
  (Type_ =? SHT_FINI_ARRAY) || (Type_ =? SHT_NOTE).

Definition AgreeMask : Z := Z.lor (Z.lor SHF_ALLOC SHF_TLS) SHF_LINK_ORDER.

(** [OutputSection::addSection] of a section that has one already, with the messages. *)
Definition addSection (Sec : OutputSection) (IS : Input) : OutputSection * list string :=
  let Errs := if Z.land (OSFlags Sec) AgreeMask =? Z.land (InFlags IS) AgreeMask then [] else ["incompatible section flags"%string] in
  let '(Type_, Errs') :=
    if OSType Sec =? InType IS then (OSType Sec, [])
    else (SHT_PROGBITS, if canMergeToProgbits (OSType Sec) && canMergeToProgbits (InType IS) then [] else ["section type mismatch"%string]) in
  let '(ShName, Link, Info, Entsize) := OSHeader Sec in
  (mkOutputSection (OSName Sec) Type_ (Z.lor (OSFlags Sec) (InFlags IS)) (Z.max (OSAlignment Sec) (ISAlignment (InSection IS)))
     (OSIsGot Sec || InIsGot IS) (OSInputs Sec ++ [InSection IS])
     (ShName, Link, Info, if Entsize =? InEntsize IS then Entsize else 0), Errs ++ Errs').

(** [createSection], which adds the first one. *)
Definition createSection (IS : Input) (OutsecName : string) : OutputSection :=
  mkOutputSection OutsecName (InType IS) (InFlags IS) (Z.max 1 (ISAlignment (InSection IS))) (InIsGot IS) [InSection IS] (0, 0, 0, InEntsize IS).

(** [addInputSec]; the map from names to sections is the list of the sections. *)
Fixpoint addInputSec (V : list OutputSection) (IS : Input) (OutsecName : string) : list OutputSection * list string :=
  match V with
  | [] => ([createSection IS OutsecName], [])
  | Sec :: V =>
      if String.eqb (OSName Sec) OutsecName then let '(Sec, Errs) := addSection Sec IS in (Sec :: V, Errs)
      else let '(V, Errs) := addInputSec V IS OutsecName in (Sec :: V, Errs)
  end.

(** [addOrphanSections] *)
Fixpoint addOrphans (V : list OutputSection) (InputSections : list Input) : list OutputSection * list string :=
  match InputSections with
  | [] => (V, [])
  | IS :: InputSections =>
      let '(V, Errs) := addInputSec V IS (getOutputSectionName IS) in
      let '(V, Errs') := addOrphans V InputSections in
      (V, Errs ++ Errs')
  end.

Definition addOrphanSections (InputSections : list Input) : list OutputSection * list string := addOrphans [] InputSections.

(** [removeUnusedSyntheticSections]: an empty section made by the linker leaves its
    output section, which keeps the flags, the type and the alignment it
    got from it. *)
Definition removeInputs (Unused : nat → bool) (Sec : OutputSection) : OutputSection :=
  mkOutputSection (OSName Sec) (OSType Sec) (OSFlags Sec) (OSAlignment Sec) (OSIsGot Sec)
    (List.filter (λ IS, negb (Unused (ISIndex IS))) (OSInputs Sec)) (OSHeader Sec).

Definition removeUnusedSyntheticSections (InputSections : list Input) (V : list OutputSection) : list OutputSection :=
  map (removeInputs (λ k, match InputSections !! k with Some IS => InEmpty IS | None => false end)) V.

(** [adjustSectionsBeforeSorting], where every empty section [isDiscardable] *)
Definition adjustSectionsBeforeSorting (V : list OutputSection) : list OutputSection :=
  List.filter (λ Sec, match OSInputs Sec with [] => false | _ => true end) V.

(** ** The order of the members: sortInputSections *)
Definition endswith (S Suffix : string) : bool :=
  (String.length Suffix <=? String.length S)%nat &&
  String.eqb (String.substring (String.length S - String.length Suffix) (String.length Suffix) S) Suffix.

Definition drop_back (N : nat) (S : string) : string := String.substring 0 (String.length S - N) S.

(** [isCrtBeginEnd] *)
Definition isCrtBeginEnd (S Filename : string) : bool :=
  if negb (endswith S ".o") then false
  else
    let S := drop_back 2 S in
    if endswith S Filename then true else negb (String.eqb S "") && endswith (drop_back 1 S) Filename.

(** [compCtors] *)
Definition compCtors (A B : Input) : bool :=
  let BeginA := isCrtBeginEnd (InFile A) "crtbegin" in
  let BeginB := isCrtBeginEnd (InFile B) "crtbegin" in
  if negb (Bool.eqb BeginA BeginB) then BeginA
  else
    let EndA := isCrtBeginEnd (InFile A) "crtend" in
    let EndB := isCrtBeginEnd (InFile B) "crtend" in
    if negb (Bool.eqb EndA EndB) then EndB
    else String.ltb (String.substring 6 (String.length (InName A)) (InName A)) (String.substring 6 (String.length (InName B)) (InName B)).

(** [to_integer(S, V, 10)] of an [int], which wants the whole string *)
Fixpoint digits (Str : string) (Result : Z) : option Z :=
  match Str with
  | EmptyString => Some Result
  | String c Str => let d := Z.of_nat (Ascii.nat_of_ascii c) - 48 in if (0 <=? d) && (d <=? 9) then digits Str (Result * 10 + d) else None
  end.

Definition to_integer (Str : string) : option Z :=
  let '(Neg, Str) := match Str with String "-"%char Rest => (true, Rest) | _ => (false, Str) end in
  match Str with
  | EmptyString => None
  | _ => V ← digits Str 0; let V : Z := if Neg then - V else V in if (- 2 ^ 31 <=? V) && (V <? 2 ^ 31) then Some V else None
  end.

(** [getPriority]: the number behind the last dot. *)
Fixpoint lastPart (Str : string) : option string :=
  match Str with
  | EmptyString => None
  | String c Str => match lastPart Str with Some T => Some T | None => if Ascii.eqb c "."%char then Some Str else None end
  end.

Definition getPriority (S : string) : Z := default 65536 (lastPart S ≫= to_integer).

(** [sortInitFini], [sortCtorsDtors] and [sortSection] without an ordering file *)
Definition sortMembers (lt : Input → Input → bool) (InputSections : list Input) (l : list InputSection) : list InputSection :=
  map snd (stable_sort (λ A B, match A.1, B.1 with Some A, Some B => lt A B | _, _ => false end)
             (map (λ IS, (InputSections !! ISIndex IS, IS)) l)).

Definition sortSection (InputSections : list Input) (Sec : OutputSection) : OutputSection :=
  let Inputs :=
    if String.eqb (OSName Sec) ".init_array" || String.eqb (OSName Sec) ".fini_array"
    then sortMembers (λ A B, getPriority (InName A) <? getPriority (InName B)) InputSections (OSInputs Sec)
    else if String.eqb (OSName Sec) ".ctors" || String.eqb (OSName Sec) ".dtors" then sortMembers compCtors InputSections (OSInputs Sec)
    else OSInputs Sec in
  mkOutputSection (OSName Sec) (OSType Sec) (OSFlags Sec) (OSAlignment Sec) (OSIsGot Sec) Inputs (OSHeader Sec).

(** ** Specification: the inputs of a name, in order, make its section *)
Definition named (n : string) (Inputs : list Input) : list Input := List.filter (λ IS, String.eqb (getOutputSectionName IS) n) Inputs.

(** Flags that agree on what is loaded, and types that are one or can become [SHT_PROGBITS]. *)
Definition flags_agree (Members : list Input) : Prop :=
  ∀ a b, a ∈ Members → b ∈ Members → Z.land (InFlags a) AgreeMask = Z.land (InFlags b) AgreeMask.

Definition types_agree (Members : list Input) : Prop :=
  (∀ a b, a ∈ Members → b ∈ Members → InType a = InType b) ∨ (∀ a, a ∈ Members → canMergeToProgbits (InType a) = true).

(** The type of a section with these members. *)
Definition merged_type (Members : list Input) : Z :=
  match Members with
  | [] => SHT_PROGBITS
  | IS :: Rest => if forallb (λ IS', InType IS' =? InType IS) Rest then InType IS else SHT_PROGBITS
  end.

Record merged (Sec : OutputSection) (Members : list Input) : Prop := {
  merged_members : Members ≠ [];
  merged_inputs : OSInputs Sec = map InSection Members;
  merged_types : OSType Sec = merged_type Members;
  merged_flags : OSFlags Sec = foldr Z.lor 0 (map InFlags Members);
  merged_alignment : OSAlignment Sec = foldr Z.max 1 (map (λ IS, ISAlignment (InSection IS)) Members);
  merged_got : OSIsGot Sec = existsb InIsGot Members
}.

(** The names in the order they come up. *)
Fixpoint first_names (seen : list string) (l : list string) : list string :=
  match l with
  | [] => []
  | n :: l => if decide (n ∈ seen) then first_names seen l else n :: first_names (n :: seen) l
  end.

Record grouped (Inputs : list Input) (V : list OutputSection) : Prop := {
  grouped_names : map OSName V = first_names [] (map getOutputSectionName Inputs);
  grouped_merged : ∀ Sec, Sec ∈ V → merged Sec (named (OSName Sec) Inputs)
}.

Definition inputs_agree (Inputs : list Input) : Prop := ∀ n, flags_agree (named n Inputs) ∧ types_agree (named n Inputs).

Lemma named_snoc (n : string) (Inputs : list Input) (IS : Input) :
  named n (Inputs ++ [IS]) = named n Inputs ++ (if String.eqb (getOutputSectionName IS) n then [IS] else []).
Proof. unfold named. rewrite List.filter_app. cbn. destruct (String.eqb _ _); reflexivity. Qed.

Lemma lor_flags (Members : list Input) (f : Z) : foldr Z.lor 0 (map InFlags Members ++ [f]) = Z.lor (foldr Z.lor 0 (map InFlags Members)) f.
Proof. induction Members as [| a l IH]; cbn; [rewrite Z.lor_0_r; reflexivity |]. rewrite IH, Z.lor_assoc. reflexivity. Qed.

Lemma max_alignments (l : list Z) (a : Z) : foldr Z.max 1 (l ++ [a]) = Z.max (foldr Z.max 1 l) a.
Proof. induction l as [| b l IH]; cbn [foldr app]; [apply Z.max_comm |]. rewrite IH, Z.max_assoc. reflexivity. Qed.

Lemma merged_type_snoc (Members : list Input) (IS : Input) :
  Members ≠ [] → merged_type (Members ++ [IS]) = if merged_type Members =? InType IS then InType IS else SHT_PROGBITS.
Proof.
  destruct Members as [| a l]; [contradiction |]. intros _. cbn [app merged_type]. rewrite forallb_app. cbn [forallb]. rewrite andb_true_r.
  destruct (forallb (λ IS', InType IS' =? InType a) l) eqn:E; cbn [andb].
  - rewrite (Z.eqb_sym (InType IS)). destruct (Z.eqb_spec (InType a) (InType IS)) as [-> |]; reflexivity.
  - destruct (Z.eqb_spec SHT_PROGBITS (InType IS)) as [<- |]; reflexivity.
Qed.

Lemma addSection_merged (Sec : OutputSection) (Members : list Input) (IS : Input) :
  merged Sec Members → merged (addSection Sec IS).1 (Members ++ [IS]) ∧ OSName (addSection Sec IS).1 = OSName Sec.
Proof.
  intros [H1 H2 H3 H4 H6 H5]. unfold addSection. destruct (OSHeader Sec) as [[[ShName Link] Info] Entsize].
  destruct (OSType Sec =? InType IS) eqn:E; cbn [fst]; (split; [split; cbn [OSInputs OSType OSFlags OSAlignment OSIsGot] | reflexivity]).
  all: try (destruct Members; discriminate).
  all: try (rewrite H2, map_app; reflexivity).
  all: try (rewrite H4, map_app; cbn [map]; rewrite lor_flags; reflexivity).
  all: try (rewrite H6, map_app; cbn [map]; rewrite max_alignments; reflexivity).
  all: try (rewrite H5, existsb_app; cbn [existsb]; rewrite orb_false_r; reflexivity).
  all: rewrite merged_type_snoc by exact H1; rewrite <- H3, E; first [apply Z.eqb_eq, E | reflexivity].
Qed.

Lemma flags_land (Members : list Input) (a : Input) :
  flags_agree Members → a ∈ Members → Z.land (foldr Z.lor 0 (map InFlags Members)) AgreeMask = Z.land (InFlags a) AgreeMask.
Proof.
  intros H Ha. assert (HF : Forall (λ b, Z.land (InFlags b) AgreeMask = Z.land (InFlags a) AgreeMask) Members)
    by (apply Forall_forall; intros b Hb; exact (H b a Hb Ha)).
  clear H. destruct Members as [| c l]; [apply elem_of_nil in Ha as [] |]. clear Ha. revert c HF.
  induction l as [| d l IH]; intros c HF; apply Forall_cons in HF as [Hc HF]; cbn [map foldr].
  - rewrite Z.lor_0_r. exact Hc.
  - rewrite Z.land_lor_distr_l. cbn [map foldr] in IH. rewrite (IH d HF), Hc. apply Z.lor_diag.
Qed.

Lemma merged_type_cases (Members : list Input) :
  Members ≠ [] → (∀ a, a ∈ Members → InType a = merged_type Members) ∨
    (merged_type Members = SHT_PROGBITS ∧ ∃ a b, a ∈ Members ∧ b ∈ Members ∧ InType a ≠ InType b).
Proof.
  destruct Members as [| c l]; [contradiction |]. intros _. cbn [merged_type].
  destruct (forallb (λ IS', InType IS' =? InType c) l) eqn:E.
  - left. intros a Ha. apply elem_of_cons in Ha as [-> | Ha]; [reflexivity |]. rewrite forallb_forall in E.
    apply list_elem_of_In in Ha. specialize (E a Ha). apply Z.eqb_eq, E.
  - right. split; [reflexivity |]. assert (H : ∃ b, b ∈ l ∧ InType b ≠ InType c).
    { clear -E. induction l as [| b l IH]; [discriminate |]. cbn in E. destruct (Z.eqb_spec (InType b) (InType c)) as [Hb | Hb].
      - destruct (IH E) as (b' & Hb' & Hne). exists b'. split; [right; exact Hb' | exact Hne].
      - exists b. split; [left | exact Hb]. }
    destruct H as (b & Hb & Hne). exists b, c. split; [right; exact Hb |]. split; [left | exact Hne].
Qed.

(** A section is added without a message exactly when it agrees with those before. *)
Lemma addSection_clean (Sec : OutputSection) (Members : list Input) (IS : Input) :
  merged Sec Members → flags_agree Members → types_agree Members →
  (addSection Sec IS).2 = [] ↔ flags_agree (Members ++ [IS]) ∧ types_agree (Members ++ [IS]).
Proof.
  intros [H1 H2 H3 H4 _ H5] HF HT. assert (∃ c, c ∈ Members) as (c & Hin) by (destruct Members as [| c l]; [contradiction | exists c; left]).
  unfold addSection. destruct (OSHeader Sec) as [[[ShName Link] Info] Entsize]. rewrite H4, (flags_land Members c HF Hin), H3.
  assert (HFiff : flags_agree (Members ++ [IS]) ↔ Z.land (InFlags c) AgreeMask = Z.land (InFlags IS) AgreeMask).
  { split; [intros H; apply H; apply elem_of_app; [left; exact Hin | right; left] |]. intros E a b Ha Hb.
    apply elem_of_app in Ha as [Ha | Ha], Hb as [Hb | Hb]; try apply list_elem_of_singleton in Ha as ->; try apply list_elem_of_singleton in Hb as ->.
    - exact (HF a b Ha Hb).
    - rewrite (HF a c Ha Hin). exact E.
    - rewrite (HF b c Hb Hin). symmetry. exact E.
    - reflexivity. }
  rewrite HFiff.
  assert (HTiff : types_agree (Members ++ [IS]) ↔
    merged_type Members = InType IS ∨ (canMergeToProgbits (merged_type Members) = true ∧ canMergeToProgbits (InType IS) = true)).
  { destruct (merged_type_cases Members H1) as [Hall | (HP & a & b & Ha & Hb & Hab)].
    - split.
      + intros [HE | HM].
        * left. rewrite <- (Hall c Hin). apply HE; apply elem_of_app; [left; exact Hin | right; left].
        * right. rewrite <- (Hall c Hin). split; apply HM; apply elem_of_app; [left; exact Hin | right; left].
      + intros [HE | [HM1 HM2]].
        * left. assert (Hx : ∀ x, x ∈ Members ++ [IS] → InType x = InType IS).
          { intros x Hx. apply elem_of_app in Hx as [Hx | Hx]; [rewrite (Hall x Hx); exact HE | apply list_elem_of_singleton in Hx as ->; reflexivity]. }
          intros x y Hx1 Hy1. rewrite (Hx x Hx1), (Hx y Hy1). reflexivity.
        * right. intros x Hx. apply elem_of_app in Hx as [Hx | Hx]; [rewrite (Hall x Hx); exact HM1 | apply list_elem_of_singleton in Hx as ->; exact HM2].
    - assert (HM : ∀ x, x ∈ Members → canMergeToProgbits (InType x) = true).
      { destruct HT as [HT | HT]; [contradiction (Hab (HT a b Ha Hb)) | exact HT]. }
      rewrite HP. split.
      + intros [HE | HE]; [contradiction Hab; apply HE; apply elem_of_app; left; assumption |].
        right. split; [reflexivity | apply HE; apply elem_of_app; right; left].
      + intros HE. right. intros x Hx. apply elem_of_app in Hx as [Hx | Hx]; [exact (HM x Hx) | apply list_elem_of_singleton in Hx as ->].
        destruct HE as [<- | [_ HE]]; [reflexivity | exact HE]. }
  rewrite HTiff. destruct (Z.eqb_spec (Z.land (InFlags c) AgreeMask) (Z.land (InFlags IS) AgreeMask)) as [Ef | Ef];
    destruct (Z.eqb_spec (merged_type Members) (InType IS)) as [Et | Et]; cbn [snd app].
  - tauto.
  - destruct (canMergeToProgbits (merged_type Members)), (canMergeToProgbits (InType IS)); cbn [andb]; intuition (discriminate || congruence).
  - split; [discriminate | tauto].
  - split; [discriminate | tauto].
Qed.

Lemma elem_of_first_names (seen l : list string) (n : string) : n ∈ first_names seen l ↔ n ∈ l ∧ n ∉ seen.
Proof.
  revert seen. induction l as [| m l IH]; intros seen; cbn [first_names]; [split; [intros H; apply elem_of_nil in H as [] | intros [H _]; apply elem_of_nil in H as []] |].
  destruct (decide (m ∈ seen)) as [Hm | Hm]; rewrite ?elem_of_cons, IH, ?elem_of_cons; [split; [tauto |]; intros [[-> | H1] H2]; [contradiction | tauto] |].
  destruct (decide (n = m)) as [-> | Hne]; tauto.
Qed.

Lemma first_names_NoDup (seen l : list string) : NoDup (first_names seen l).
Proof.
  revert seen. induction l as [| m l IH]; intros seen; cbn [first_names]; [constructor |]. destruct (decide (m ∈ seen)); [apply IH |].
  constructor; [| apply IH]. rewrite elem_of_first_names, elem_of_cons. tauto.
Qed.

Lemma first_names_snoc (seen l : list string) (n : string) :
  first_names seen (l ++ [n]) = first_names seen l ++ (if decide (n ∈ seen ∨ n ∈ l) then [] else [n]).
Proof.
  revert seen. induction l as [| m l IH]; intros seen; cbn [app first_names].
  - destruct (decide (n ∈ seen)) as [H | H]; [rewrite decide_True by (left; exact H); reflexivity |].
    rewrite decide_False; [reflexivity |]. intros [Hc | Hc]; [contradiction | apply elem_of_nil in Hc as []].
  - destruct (decide (m ∈ seen)) as [Hm | Hm]; rewrite IH.
    + f_equal. apply decide_ext. rewrite elem_of_cons. split; [tauto |]. intros [H | [-> | H]]; tauto.
    + cbn [app]. do 2 f_equal. apply decide_ext. rewrite !elem_of_cons. tauto.
Qed.

Lemma addInputSec_cases (V : list OutputSection) (IS : Input) (n : string) :
  (∃ V1 Sec V2, V = V1 ++ Sec :: V2 ∧ OSName Sec = n ∧ n ∉ map OSName V1 ∧
     addInputSec V IS n = (V1 ++ (addSection Sec IS).1 :: V2, (addSection Sec IS).2)) ∨
  (n ∉ map OSName V ∧ addInputSec V IS n = (V ++ [createSection IS n], [])).
Proof.
  induction V as [| Sec V IH]; [right; split; [apply not_elem_of_nil | reflexivity] |]. cbn [addInputSec].
  destruct (String.eqb_spec (OSName Sec) n) as [E | E].
  - left. exists [], Sec, V. split; [reflexivity |]. split; [exact E |]. split; [apply not_elem_of_nil |].
    destruct (addSection Sec IS); reflexivity.
  - destruct IH as [(V1 & S' & V2 & -> & HN & Hn & ->) | [Hn ->]].
    + left. exists (Sec :: V1), S', V2. split; [reflexivity |]. split; [exact HN |]. split; [| reflexivity]. cbn [map]. rewrite elem_of_cons. intuition.
    + right. split; [cbn [map]; rewrite elem_of_cons; intuition | reflexivity].
Qed.

Lemma named_other (n : string) (Inputs : list Input) (IS : Input) : getOutputSectionName IS ≠ n → named n (Inputs ++ [IS]) = named n Inputs.
Proof. intros H. rewrite named_snoc. destruct (String.eqb_spec (getOutputSectionName IS) n); [contradiction | apply app_nil_r]. Qed.

Lemma named_this (Inputs : list Input) (IS : Input) :
  named (getOutputSectionName IS) (Inputs ++ [IS]) = named (getOutputSectionName IS) Inputs ++ [IS].
Proof. rewrite named_snoc, String.eqb_refl. reflexivity. Qed.

Lemma inputs_agree_snoc (Inputs : list Input) (IS : Input) :
  inputs_agree (Inputs ++ [IS]) ↔ inputs_agree Inputs ∧ flags_agree (named (getOutputSectionName IS) Inputs ++ [IS]) ∧
    types_agree (named (getOutputSectionName IS) Inputs ++ [IS]).
Proof.
  split.
  - intros H. split; [| rewrite <- named_this; apply H]. intros n. destruct (H n) as [HF HT].
    destruct (decide (getOutputSectionName IS = n)) as [<- | Hne]; [| rewrite named_other in HF, HT by exact Hne; auto].
    rewrite named_this in HF, HT. split.
    + intros a b Ha Hb. apply HF; apply elem_of_app; left; assumption.
    + destruct HT as [HT | HT]; [left; intros a b Ha Hb; apply HT; apply elem_of_app; left; assumption | right; intros a Ha; apply HT, elem_of_app; left; exact Ha].
  - intros (H & HF & HT) n. destruct (decide (getOutputSectionName IS = n)) as [<- | Hne]; [rewrite named_this; auto |].
    rewrite named_other by exact Hne. apply H.
Qed.

(** One more input section. *)
Lemma addInputSec_grouped (Inputs : list Input) (V : list OutputSection) (IS : Input) :
  grouped Inputs V →
  grouped (Inputs ++ [IS]) (addInputSec V IS (getOutputSectionName IS)).1 ∧
  (inputs_agree Inputs → (addInputSec V IS (getOutputSectionName IS)).2 = [] ↔ inputs_agree (Inputs ++ [IS])).
Proof.
  intros [HN HM]. set (n := getOutputSectionName IS). assert (Hin : ∀ m, m ∈ map OSName V ↔ m ∈ map getOutputSectionName Inputs).
  { intros m. rewrite HN, elem_of_first_names. split; [tauto |]. intros H. split; [exact H | apply not_elem_of_nil]. }
  destruct (addInputSec_cases V IS n) as [(V1 & Sec & V2 & -> & HS & Hn & ->) | [Hn ->]]; cbn [fst snd].
  - assert (HMS : merged Sec (named n Inputs)) by (rewrite <- HS; apply HM; apply elem_of_app; right; left).
    destruct (addSection_merged Sec _ IS HMS) as [HMS' HNm].
    assert (ND : NoDup (map OSName (V1 ++ Sec :: V2))) by (rewrite HN; apply first_names_NoDup).
    rewrite map_app in ND. cbn [map] in ND. apply NoDup_app in ND as (_ & _ & ND). apply NoDup_cons in ND as [ND _].
    split; [split |].
    + rewrite (map_app getOutputSectionName Inputs [IS]). cbn [map]. rewrite first_names_snoc, decide_True.
      * rewrite app_nil_r, <- HN, !map_app. cbn [map]. rewrite HNm. reflexivity.
      * right. apply Hin. rewrite map_app. apply elem_of_app. right. cbn [map]. rewrite HS. left.
    + intros S' HS'. apply elem_of_app in HS' as [HS' | HS']; [| apply elem_of_cons in HS' as [-> | HS']].
      * rewrite named_other; [apply HM, elem_of_app; left; exact HS' |]. fold n. intros E. apply Hn. rewrite E. apply list_elem_of_fmap. exists S'. auto.
      * rewrite HNm, HS. unfold n. rewrite named_this. exact HMS'.
      * rewrite named_other; [apply HM, elem_of_app; right; right; exact HS' |]. fold n. intros E. apply ND. rewrite HS, E. apply list_elem_of_fmap. exists S'. auto.
    + intros HA. rewrite inputs_agree_snoc. fold n. rewrite (addSection_clean Sec (named n Inputs) IS HMS (proj1 (HA n)) (proj2 (HA n))). tauto.
  - assert (Hnil : named n Inputs = []).
    { destruct (named n Inputs) as [| a l] eqn:E; [reflexivity |]. exfalso. apply Hn, Hin. apply list_elem_of_fmap. exists a.
      assert (Ha : a ∈ named n Inputs) by (rewrite E; left). apply list_elem_of_In, List.filter_In in Ha as [Ha1 Ha2].
      apply String.eqb_eq in Ha2. split; [symmetry; exact Ha2 | apply list_elem_of_In, Ha1]. }
    split; [split |].
    + rewrite !map_app. cbn [map]. rewrite first_names_snoc, decide_False, HN; [reflexivity |]. intros [Hc | Hc]; [apply elem_of_nil in Hc as [] |]. apply Hn, Hin, Hc.
    + intros S' HS'. apply elem_of_app in HS' as [HS' | HS'].
      * rewrite named_other; [apply HM, HS' |]. fold n. intros E. apply Hn. rewrite E. apply list_elem_of_fmap. exists S'. auto.
      * apply list_elem_of_singleton in HS' as ->. cbn [createSection OSName]. unfold n in *. rewrite named_this, Hnil. cbn [app].
        split; cbn; [discriminate | reflexivity | reflexivity | rewrite Z.lor_0_r; reflexivity | apply Z.max_comm | rewrite orb_false_r; reflexivity].
    + intros HA. rewrite inputs_agree_snoc. fold n. rewrite Hnil. cbn [app]. split; [intros _ | reflexivity]. split; [exact HA |]. split.
      * intros a b Ha Hb. apply list_elem_of_singleton in Ha as ->, Hb as ->. reflexivity.
      * left. intros a b Ha Hb. apply list_elem_of_singleton in Ha as ->, Hb as ->. reflexivity.
Qed.

Lemma inputs_agree_app (Inputs Rest : list Input) : inputs_agree (Inputs ++ Rest) → inputs_agree Inputs.
Proof.
  revert Inputs. induction Rest as [| IS Rest IH]; intros Inputs H; [rewrite app_nil_r in H; exact H |].
  change (IS :: Rest) with ([IS] ++ Rest) in H. rewrite app_assoc in H. apply IH, inputs_agree_snoc in H. apply H.
Qed.

Lemma addOrphans_grouped (Rest Inputs : list Input) (V : list OutputSection) :
  grouped Inputs V →
  grouped (Inputs ++ Rest) (addOrphans V Rest).1 ∧ (inputs_agree Inputs → (addOrphans V Rest).2 = [] ↔ inputs_agree (Inputs ++ Rest)).
Proof.
  revert Inputs V. induction Rest as [| IS Rest IH]; intros Inputs V HG; cbn [addOrphans]; [rewrite app_nil_r; split; [exact HG | cbn; tauto] |].
  destruct (addInputSec_grouped Inputs V IS HG) as [HG' HE]. destruct (addInputSec V IS (getOutputSectionName IS)) as [V' Errs]. cbn [fst snd] in *.
  destruct (IH _ _ HG') as [HG2 HE2]. destruct (addOrphans V' Rest) as [V2 Errs2]. cbn [fst snd] in *. rewrite <- app_assoc in HG2, HE2. cbn [app] in HG2, HE2.
  split; [exact HG2 |]. intros HA. specialize (HE HA). split.
  - intros H. apply app_eq_nil in H as [H1 H2]. apply HE2; [apply HE, H1 | exact H2].
  - intros H. assert (H' : inputs_agree (Inputs ++ [IS])) by (apply (inputs_agree_app _ Rest); rewrite <- app_assoc; exact H).
    rewrite (proj2 HE H'). apply (HE2 H'), H.
Qed.

Lemma sortMembers_perm (lt : Input → Input → bool) (InputSections : list Input) (l : list InputSection) : sortMembers lt InputSections l ≡ₚ l.
Proof. unfold sortMembers. rewrite stable_sort_perm, map_map, map_id. reflexivity. Qed.

Lemma sortSection_perm (InputSections : list Input) (Sec : OutputSection) : OSInputs (sortSection InputSections Sec) ≡ₚ OSInputs Sec.
Proof. unfold sortSection. cbn [OSInputs]. destruct (_ || _); [apply sortMembers_perm |]. destruct (_ || _); [apply sortMembers_perm | reflexivity]. Qed.

Lemma grouped_nil : grouped [] [].
Proof. split; [reflexivity |]. intros Sec H. apply elem_of_nil in H as []. Qed.

Lemma orphans_grouped (InputSections : list Input) : grouped InputSections (addOrphanSections InputSections).1.
Proof. exact (proj1 (addOrphans_grouped InputSections [] [] grouped_nil)). Qed.

(** C3. Input sections become output sections.  There is one section for each name, in
    the order the names come up; its members are the input sections of that name in
    their order, its flags are theirs put together, its alignment is the largest of
    theirs, its type is theirs, or [SHT_PROGBITS] when they differ; and there is no message exactly when the sections
    of a name agree on whether they are loaded and their types are equal or can be
    merged. *)
Theorem sections_grouped (InputSections : list Input) :
  grouped InputSections (addOrphanSections InputSections).1 ∧
  ((addOrphanSections InputSections).2 = [] ↔ inputs_agree InputSections).
Proof.
  split; [apply orphans_grouped |]. apply (proj2 (addOrphans_grouped InputSections [] [] grouped_nil)).
  intros n. split; [intros a b Ha; apply elem_of_nil in Ha as [] | left; intros a b Ha; apply elem_of_nil in Ha as []].
Qed.
