(* ===== verification/NyuziObject.v ===== *)
(** * NyuziObject: from the operations of the streamer to the image

    The object streamer, the assembler and the linker together, with the emitter
    and the disassembler at the ends: what a symbolic instruction has become in
    the linked image, whether the assembler resolved its fixup or the linker
    relocated it. *)
From S2P Require Import Prelude MathExtras NyuziTarget NyuziFormats NyuziEmitter NyuziFixups NyuziLinker WordPatches.
From S2P Require Import NyuziDisassembler NyuziCodec NyuziAsmParser NyuziPipeline MCExpressions MCAssembler MCStreamer LldLink.

(** ** Addresses *)

(** The streamer after the operations of a file. *)
Definition emitted (ops : list StreamerOp) : outcome Streamer :=
  emitAll formatBinaryCode ops initStreamer ≫= flushToNewFragment.

Lemma assembleObject_emitted (ops : list StreamerOp) :
  assembleObject formatBinaryCode ops =
  emitted ops ≫= λ st, Finish (StSymbols st) (StSections st) ≫= λ '(obj, Errs), Ret (obj, StErrors st ++ Errs).
Proof. unfold assembleObject, emitted. destruct (emitAll _ _ _); reflexivity. Qed.

(** Where the file of state [st] puts a label: the section and the offset in it. *)
Definition label_place (st : Streamer) (n : string) : option (nat * Z) :=
  match layoutSections (StSections st), getFragment (sym (StSymbols st) n) with
  | Ret Offsets, Some F =>
      match getSymbolOffset (layoutOf Offsets) (sym (StSymbols st) n) with Ret o => Some (F.1, o) | _ => None end
  | _, _ => None
  end.

Section Address.
Context (files : list Object) (SectionVA : SectionId → Z).

Definition symbol_table : SymMap := (addFiles 0 files ∅).1.

(** The address of a symbol in file [f]: of the resolved symbol when the symbol table
    of the file has it as a global one, else where the file puts the label. *)
Definition symbol_address (f : nat) (st : Streamer) (n : string) : Z :=
  let own := match label_place st n with Some (s, o) => SectionVA (f, s) + o | None => 0 end in
  match files !! f ≫= findSymbol n with
  | Some o => if bool_decide (st_binding o = STB_LOCAL) then own else getVA files symbol_table SectionVA (GlobalSym n) 0
  | None => own
  end.
End Address.

(** ** The symbol table of an object *)

Lemma computeSymbolTable_entries (Layout : MCAsmLayout) (Sections : list MCSection) (Used : list string)
    (l : list (string * MCSymbol)) (out : list (string * ObjSymbol)) :
  computeSymbolTable Layout Sections Used l = Ret (out, []) →
  ∀ n o, (n, o) ∈ out → ∃ Sy, (n, Sy) ∈ l ∧ writeSymbol Layout Sy = Ret o.
Proof.
  revert out. induction l as [| [Name Sy] l IH]; cbn [computeSymbolTable]; intros out H n o Ho.
  - injection H as <-. apply elem_of_nil in Ho as [].
  - apply outcome_bind_Ret_inv in H as ([rest Errs] & HR & H). destruct (negb _).
    { injection H as <- ->. destruct (IH _ HR n o Ho) as (Sy' & Hin & HW). exists Sy'. split; [right; exact Hin | exact HW]. }
    destruct (_ && _); [discriminate H |]. apply cassert_bind_inv in H as [_ H].
    apply outcome_bind_Ret_inv in H as (o' & HW & H). injection H as <- ->.
    apply elem_of_cons in Ho as [[= -> ->] | Ho]; [exists Sy; split; [left | exact HW] |].
    destruct (IH _ HR n o Ho) as (Sy' & Hin & HW'). exists Sy'. split; [right; exact Hin | exact HW'].
Qed.

Lemma findSymbol_elem (n : string) (Obj : Object) (o : ObjSymbol) : findSymbol n Obj = Some o → (n, o) ∈ ObjSymbols Obj.
Proof.
  unfold findSymbol. intros H. apply fmap_Some in H as ([m o'] & Hf & ->). apply find_some in Hf as [Hin Hn].
  apply bool_decide_eq_true in Hn. subst m. apply list_elem_of_In. exact Hin.
Qed.

(** The binding and the place of an entry are those of the symbol. *)
Lemma writeSymbol_inv (Layout : MCAsmLayout) (Sy : MCSymbol) (o : ObjSymbol) :
  writeSymbol Layout Sy = Ret o → st_binding o = getBinding Sy ∧
  match getFragment Sy with
  | None => st_shndx o = None ∧ st_value o = 0
  | Some F => ∃ v, getSymbolOffset Layout Sy = Ret v ∧ st_shndx o = Some F.1 ∧ st_value o = u32 v
  end.
Proof.
  unfold writeSymbol, isUndefined, getSection. destruct (getFragment Sy) as [F |] eqn:HF.
  - rewrite bool_decide_false by discriminate. intros H. apply outcome_bind_Ret_inv in H as (v & HO & H). injection H as <-. cbn.
    split; [reflexivity |]. exists v. auto.
  - rewrite bool_decide_true by reflexivity. intros [= <-]. cbn. auto.
Qed.

(** A strong definition among the entries of a name is what the name resolves to. *)
Lemma resolve_unique (l : list LSymbol) (Sy : LSymbol) :
  (length (List.filter is_strong_definition l) ≤ 1)%nat → Sy ∈ l → is_strong_definition Sy = true → resolve l = Some Sy.
Proof.
  intros Hl Hin Hs. unfold resolve.
  assert (Hi : List.In Sy (List.filter is_strong_definition l)) by (apply filter_In; split; [apply list_elem_of_In; exact Hin | exact Hs]).
  destruct (List.filter is_strong_definition l) as [| d [| d' ds]]; [destruct Hi | destruct Hi as [-> | []]; reflexivity | cbn in Hl; lia].
Qed.

Lemma all_entries_elem (f0 f : nat) (files : list Object) (Obj : Object) (n : string) (o : ObjSymbol) :
  files !! f = Some Obj → (n, o) ∈ ObjSymbols Obj → st_binding o ≠ STB_LOCAL →
  mkLSymbol (match st_shndx o with Some s => DefinedKind ((f0 + f)%nat, s) (st_value o) | None => UndefinedKind end) (st_binding o)
    ∈ of_name n (all_entries f0 files).
Proof.
  intros Hf Ho Hb. unfold of_name. apply list_elem_of_omap.
  exists (n, mkLSymbol (match st_shndx o with Some s => DefinedKind ((f0 + f)%nat, s) (st_value o) | None => UndefinedKind end) (st_binding o)).
  split; [| rewrite decide_True by reflexivity; reflexivity].
  revert f0 f Hf. induction files as [| Obj0 files IH]; intros f0 f Hf; [discriminate Hf |]. cbn [all_entries].
  apply elem_of_app. destruct f as [| f].
  - injection Hf as ->. left. rewrite Nat.add_0_r. unfold file_entries. apply list_elem_of_omap. exists (n, o). split; [exact Ho |].
    destruct (st_binding o); [destruct Hb; reflexivity | reflexivity ..].
  - right. rewrite <- Nat.add_succ_comm. exact (IH (S f0) f Hf).
Qed.

(** ** Addresses modulo [2^32] *)

Lemma u32_u64 (a : Z) : u32 (u64 a) = u32 a.
Proof. apply uint_uint_le. lia. Qed.

Lemma u32_add (a a' b b' : Z) : u32 a = u32 a' → u32 b = u32 b' → u32 (a + b) = u32 (a' + b').
Proof. intros Ha Hb. rewrite <- uint_add_l, <- uint_add_r, Ha, Hb, uint_add_r, uint_add_l. reflexivity. Qed.

Lemma u32_sub (a a' b b' : Z) : u32 a = u32 a' → u32 b = u32 b' → u32 (a - b) = u32 (a' - b').
Proof. intros Ha Hb. rewrite <- uint_sub_l, <- uint_sub_r, Ha, Hb, uint_sub_r, uint_sub_l. reflexivity. Qed.

Lemma eqm64_u32 (a b : Z) : eqm64 a b → u32 a = u32 b.
Proof. unfold eqm64. intros H. rewrite <- (u32_u64 a), <- (u32_u64 b), H. reflexivity. Qed.

(** What the linker makes of a value. *)
Lemma target_u32 (v : Z) : u64 (i32 v) = u64 (i32 (u32 v)).
Proof. rewrite sint_uint. reflexivity. Qed.

(** The relocations relative to the place. *)
Definition pcrel (Type_ : Z) : bool := (Type_ =? R_NYUZI_BRANCH20) || (Type_ =? R_NYUZI_BRANCH25).

Lemma pcrel_flag (Type_ : Z) : known_reloc Type_ = true →
  ∃ Info, getFixupKindInfo (kind_of_reloc Type_) = Ret Info ∧ IsPCRelFlag Info = pcrel Type_ ∧
    getRelocType (kind_of_reloc Type_) (pcrel Type_) = Ret Type_.
Proof. intros Hk. reloc_cases Hk; eexists; (split; [reflexivity | split; reflexivity]). Qed.

(** A value the assembler accepted, seen as the sign-extended 32-bit value the linker
    computes with. *)
Lemma reloc_word_target (Type_ FV X w : Z) :
  known_reloc Type_ = true → Type_ ≠ R_NYUZI_GOT → reloc_errors Type_ FV = [] → u32 FV = u32 X →
  reloc_word Type_ FV w = reloc_word Type_ (u64 (i32 X)) w ∧ reloc_errors Type_ (u64 (i32 X)) = [].
Proof.
  intros Hk Hg HE HX.
  assert (HV : u32 FV = u32 (u64 (i32 X))) by (rewrite u32_u64, uint_sint; exact HX).
  assert (Hsmall : i64 (u64 (i32 X)) = i32 X).
  { rewrite sint_uint. apply sint_small; [lia |]. pose proof (sint_range 32 X ltac:(lia)). lia. }
  assert (HB : Type_ = R_NYUZI_BRANCH20 ∨ Type_ = R_NYUZI_BRANCH25 → i64 FV = i64 (u64 (i32 X))).
  { intros HT. rewrite Hsmall, <- (uint_eq_sint 32 _ _ HX).
    assert (HN : ∃ N, checkInt (Z.quot (i64 FV) 4) N = [] ∧ 1 ≤ N ≤ 25).
    { destruct HT as [-> | ->]; unfold reloc_errors in HE; revert HE; reloc_simpl; intros HE; eexists; (split; [exact HE | lia]). }
    destruct HN as (N & HN & HNr). apply checkInt_nil in HN; [| lia].
    pose proof (Z.pow_le_mono_r 2 (N - 1) 24 ltac:(lia) ltac:(lia)) as Hp.
    assert (Hr : - 2 ^ 27 ≤ i64 FV < 2 ^ 27).
    { set (y := i64 FV) in *. clearbody y. set (m := 2 ^ (N - 1)) in *. clearbody m. change (2 ^ 24) with 16777216 in Hp.
      change (2 ^ 27) with 134217728. Z.to_euclidean_division_equations; lia. }
    transitivity (i32 (i64 FV)); [symmetry; apply sint_small; [lia |]; lia | apply uint_eq_sint; apply uint_sint_le; lia]. }
  split; [exact (reloc_word_32 _ _ _ _ Hk HV HB) |].
  revert HE. reloc_cases Hk; unfold reloc_errors; reloc_simpl; try reflexivity; try (rewrite HB by auto; auto).
  intros _. destruct Hg; reflexivity.
Qed.

(** ** One file of a link *)
Section OneFile.
Context (files : list Object) (SectionVA : SectionId → Z) (GotVA : Z) (img : Image).
Context (f : nat) (st : Streamer) (obj : Object) (Offsets : list (list Z)).
Hypothesis Hobj : files !! f = Some obj.
Hypothesis Hlink : link SectionVA GotVA files = Ret (Some img, []).
Hypothesis Hok : streamer_ok st.
Hypothesis Hpend : PendingLabels st = [].
Hypothesis Hlay : layoutSections (StSections st) = Ret Offsets.
Hypothesis Hsyms : computeSymbolTable (layoutOf Offsets) (StSections st) (usedNames (ObjSections obj)) (map_to_list (StSymbols st))
                   = Ret (ObjSymbols obj, []).
Hypothesis Hsecs : ∀ s Sec, StSections st !! s = Some Sec → ∃ Obj, ObjSections obj !! s = Some Obj ∧
  (Z.of_nat (length (ObjData Obj)) < 2 ^ 64 → ∃ evs : list Event,
     spaced 0 (Z.of_nat (length (ObjData Obj))) (map fst evs) ∧ ObjRelocs Obj = concat (map snd evs) ∧ Forall event_ok evs ∧
     (∀ i F, FragmentList Sec !! i = Some F → ∃ oj, layoutOf Offsets (s, Some i) = Ret oj ∧ 0 ≤ oj ≤ Z.of_nat (length (ObjData Obj))) ∧
     ∀ i C F, FragmentList Sec !! i = Some (MCDataFragment C F) → ∃ oj, layoutOf Offsets (s, Some i) = Ret oj ∧
       fragment_written (StSymbols st) (layoutOf Offsets) (StSections st) (s, Some i) (ObjData Obj) 0 oj evs C F).
Hypothesis Hsize : Forall (λ Obj, Z.of_nat (length (ObjData Obj)) < 2 ^ 32) (ObjSections obj).

Let Syms := StSymbols st.
Let Layout := layoutOf Offsets.
Let Symtab := symbol_table files.
Let VA (k : nat) : Z := SectionVA (f, k).
Let σ := symbol_address files SectionVA f st.

Lemma symbol_offset_small (n : string) (k i : nat) (v : Z) :
  getFragment (sym Syms n) = Some (k, Some i) → getSymbolOffset Layout (sym Syms n) = Ret v → 0 ≤ v < 2 ^ 32 ∧
  ∃ o, Layout (k, Some i) = Ret o ∧ v = o + getOffset (sym Syms n).
Proof.
  intros HF Hv. destruct Hok as (_ & _ & HP). destruct (HP n k i HF) as (Sec & F & HS & Hi & Ho).
  destruct (Hsecs k Sec HS) as (Obj & HO & HW). pose proof (Forall_lookup_1 _ _ _ _ Hsize HO) as Hsz. cbn in Hsz.
  destruct (HW ltac:(lia)) as (evs & _ & _ & _ & Hb & Hd). destruct (Hb i F Hi) as (oj & HL & Hoj).
  unfold getSymbolOffset in Hv. rewrite HF in Hv. change Layout with (layoutOf Offsets) in Hv |- *. rewrite HL, outcome_bind_ret in Hv.
  injection Hv as <-. assert (Hle : oj + getOffset (sym Syms n) ≤ Z.of_nat (length (ObjData Obj))).
  { destruct F as [C Fx | |]; [| cbn in Ho; fold Syms in Ho; lia ..].
    destruct (Hd i C Fx Hi) as (oj' & HL' & _ & Hle & _). rewrite HL in HL'. injection HL' as <-. cbn in Ho. fold Syms in Ho. lia. }
  fold Syms in Ho. rewrite uint_small by lia. split; [lia |]. exists oj. auto.
Qed.

(** The entry of a name in the symbol table of the file. *)
Lemma symbol_entry (n : string) (o : ObjSymbol) :
  findSymbol n obj = Some o → st_binding o = getBinding (sym Syms n) ∧
  match getFragment (sym Syms n) with
  | None => st_shndx o = None
  | Some F => ∃ v, getSymbolOffset Layout (sym Syms n) = Ret v ∧ st_shndx o = Some F.1 ∧ st_value o = v ∧ 0 ≤ v < 2 ^ 32
  end.
Proof.
  intros Hf. apply findSymbol_elem in Hf. destruct (computeSymbolTable_entries _ _ _ _ _ Hsyms n o Hf) as (Sy & Hin & HW).
  assert (HSy : sym Syms n = Sy).
  { apply elem_of_map_to_list in Hin. unfold sym, getOrCreateSymbol, Syms. change SymbolTable with (gmap string MCSymbol) in *.
    rewrite Hin. reflexivity. }
  destruct (writeSymbol_inv _ _ _ HW) as [Hb HV]. rewrite HSy. split; [exact Hb |].
  destruct (getFragment Sy) as [[k [i |]] |] eqn:HF; [| | tauto]; destruct HV as (v & Hv & Hk & Hval); exists v.
  - subst Sy. destruct (symbol_offset_small n k i v HF Hv) as [Hr _]. rewrite uint_small in Hval by exact Hr. auto.
  - unfold getSymbolOffset in Hv. rewrite HF in Hv. discriminate Hv.
Qed.

Lemma label_place_offset (n : string) (F : FragRef) (v : Z) :
  getFragment (sym Syms n) = Some F → getSymbolOffset Layout (sym Syms n) = Ret v → label_place st n = Some (F.1, v).
Proof. unfold label_place. rewrite Hlay. fold Syms. intros -> HV. fold Layout. rewrite HV. reflexivity. Qed.

(** A strong definition resolves to itself. *)
Lemma strong_resolves (n : string) (o : ObjSymbol) (s : nat) :
  findSymbol n obj = Some o → st_binding o = STB_GLOBAL → st_shndx o = Some s →
  Symtab !! n = Some (mkLSymbol (DefinedKind (f, s) (st_value o)) STB_GLOBAL).
Proof.
  intros Hf Hb Hs. destruct (link_inv _ _ _ _ Hlink) as (T & HA & _). unfold Symtab, symbol_table. rewrite HA. cbn [fst].
  rewrite addFiles_entries in HA. destruct (add_entries_resolve _ (all_entries_binding 0 files)) as [HR HE]. rewrite HA in HR, HE.
  cbn [fst snd] in HR, HE. rewrite HR. apply resolve_unique; [apply HE; reflexivity | | reflexivity].
  pose proof (all_entries_elem 0 f files obj n o Hobj (findSymbol_elem _ _ _ Hf)) as Hin. rewrite Hb, Hs in Hin. apply Hin. discriminate.
Qed.

Lemma no_dummy (n : string) (F : FragRef) : getFragment (sym Syms n) = Some F → ∃ k i, F = (k, Some i).
Proof.
  destruct F as [k [i |]]; [eauto |]. intros HF. destruct Hok as (_ & HN & _).
  assert (Hi : n ∈ PendingLabels st) by (apply HN; eauto). rewrite Hpend in Hi. apply elem_of_nil in Hi as [].
Qed.

(** Every label has a place, inside its section. *)
Lemma defined_place (n : string) (k i : nat) :
  getFragment (sym Syms n) = Some (k, Some i) → ∃ v o, getSymbolOffset Layout (sym Syms n) = Ret v ∧ 0 ≤ v < 2 ^ 32 ∧
    Layout (k, Some i) = Ret o ∧ v = o + getOffset (sym Syms n) ∧ label_place st n = Some (k, v).
Proof.
  intros HF. destruct Hok as (_ & _ & HP). destruct (HP n k i HF) as (Sec & F & HS & Hi & _).
  destruct (Hsecs k Sec HS) as (Obj & HO & HW). pose proof (Forall_lookup_1 _ _ _ _ Hsize HO) as Hsz. cbn in Hsz.
  destruct (HW ltac:(lia)) as (evs & _ & _ & _ & Hb & _). destruct (Hb i F Hi) as (oj & HL & _).
  assert (HV : getSymbolOffset Layout (sym Syms n) = Ret (u64 (oj + getOffset (sym Syms n)))).
  { unfold getSymbolOffset. rewrite HF. change Layout with (layoutOf Offsets). rewrite HL. reflexivity. }
  destruct (symbol_offset_small n k i _ HF HV) as (Hr & o & HL' & Hv). exists (u64 (oj + getOffset (sym Syms n))), o.
  split; [exact HV |]. split; [exact Hr |]. split; [exact HL' |]. split; [exact Hv |]. exact (label_place_offset _ _ _ HF HV).
Qed.

Lemma strong_placed_here : strong_placed Syms Layout VA σ.
Proof.
  intros a F Hw HF. destruct (no_dummy a F HF) as (k & i & ->). destruct (defined_place a k i HF) as (v & o & HV & Hr & HL & Hv & Hplace).
  assert (Hfr : fragment_address Layout VA (k, Some i) + getOffset (sym Syms a) = SectionVA (f, k) + v)
    by (unfold fragment_address, VA; rewrite HL; cbn [fst]; lia).
  rewrite Hfr. unfold σ, symbol_address. rewrite Hobj, Hplace. cbn [mbind option_bind].
  destruct (findSymbol a obj) as [os |] eqn:Hf; [| reflexivity]. case_bool_decide as Hb; [reflexivity |].
  destruct (symbol_entry a os Hf) as [Hbd HE]. rewrite HF in HE. destruct HE as (v' & HV' & Hs & Hval & _).
  rewrite HV in HV'. injection HV' as <-.
  assert (Hg : st_binding os = STB_GLOBAL).
  { unfold isWeak in Hw. apply bool_decide_eq_false in Hw. rewrite <- Hbd in Hw. destruct (st_binding os); congruence. }
  pose proof (strong_resolves a os k Hf Hg Hs) as HT. unfold Symtab in HT.
  unfold getVA, lookupRef. rewrite HT, Hval. cbn [default from_option id Kind]. rewrite !eqm64_uint, Z.add_0_r. reflexivity.
Qed.

(** The symbol and addend of a relocation, as the linker adds them up. *)
Lemma relocation_address (Got : GotEntries) (r : ELFRelocationEntry) (R : Relocation) :
  scanned files f Got r R →
  u32 (getVA files Symtab SectionVA (LldLink.Sym R) (Addend R)) = u32 (rel_address VA σ (r_symbol r) + r_addend r).
Proof.
  intros (Ref & E & HT & _ & -> & _). cbn [LldLink.Sym Addend].
  assert (HA : u32 (i32 (u32 (r_addend r))) = u32 (r_addend r)) by (rewrite uint_sint; apply uint_uint).
  destruct (r_symbol r) as [| k | n]; cbn [getRelocTargetSym rel_address] in HT |- *.
  - injection HT as <-. cbn. rewrite u32_u64. exact HA.
  - injection HT as <-. unfold getVA. cbn [lookupRef Kind]. rewrite u32_u64. apply u32_add; [reflexivity |].
    rewrite u32_u64, Z.add_0_l. exact HA.
  - rewrite Hobj in HT. cbn [mbind option_bind] in HT. destruct (findSymbol n obj) as [os |] eqn:Hf; [| discriminate HT].
    destruct (symbol_entry n os Hf) as [Hb HE]. unfold σ, symbol_address. rewrite Hobj. cbn [mbind option_bind]. rewrite Hf.
    assert (Hglob : u32 (getVA files Symtab SectionVA (GlobalSym n) (i32 (u32 (r_addend r))))
                    = u32 (getVA files Symtab SectionVA (GlobalSym n) 0 + r_addend r)).
    { unfold getVA. destruct (Kind (lookupRef files Symtab (GlobalSym n))) as [sec v |]; rewrite u32_u64.
      - apply u32_add; [rewrite !u32_u64, Z.add_0_r; apply eq_sym, u32_u64 | exact HA].
      - rewrite HA. reflexivity. }
    destruct (st_binding os) eqn:Hbd; injection HT as <-; [| rewrite bool_decide_false by discriminate; exact Hglob ..].
    rewrite bool_decide_true by reflexivity. unfold getVA. cbn [lookupRef]. rewrite Hobj. cbn [mbind option_bind]. rewrite Hf. cbn [Kind].
    destruct (getFragment (sym Syms n)) as [F |] eqn:HF.
    + destruct (no_dummy n F HF) as (k & i & ->). destruct HE as (v & HV & -> & -> & _).
      rewrite (label_place_offset n (k, Some i) v HF HV). cbn [fst]. rewrite u32_u64. apply u32_add; [apply u32_u64 | exact HA].
    + rewrite HE. unfold label_place. rewrite Hlay. fold Syms. rewrite HF. rewrite u32_u64, Z.add_0_l. exact HA.
Qed.

(** ** The word of a fixup in the image *)

(** A section whose bytes a loader puts into memory. *)
Definition in_memory (s : nat) : Prop := ∀ Obj, ObjSections obj !! s = Some Obj → sectionAlloc Obj = true.

(** The section of the file, in the object and in the image. *)
Lemma section_linked (s : nat) (Sec : MCSection) :
  StSections st !! s = Some Sec → in_memory s → ∃ Obj evs Rs bufs buf, ObjSections obj !! s = Some Obj ∧
    spaced 0 (Z.of_nat (length (ObjData Obj))) (map fst evs) ∧ Forall event_ok evs ∧ Z.of_nat (length (ObjData Obj)) < 2 ^ 32 ∧
    Forall2 (scanned files f (GotSlots img)) (concat (map snd evs)) Rs ∧
    ImageSections img !! f = Some bufs ∧ bufs !! s = Some buf ∧
    relocateAlloc files Symtab SectionVA (GotSlots img) (VA s) Rs (ObjData Obj) = Ret (buf, []) ∧
    ∀ i C F, FragmentList Sec !! i = Some (MCDataFragment C F) → ∃ oj, Layout (s, Some i) = Ret oj ∧
      fragment_written Syms Layout (StSections st) (s, Some i) (ObjData Obj) 0 oj evs C F.
Proof.
  intros HS HM. destruct (Hsecs s Sec HS) as (Obj & HO & HW). pose proof (Forall_lookup_1 _ _ _ _ Hsize HO) as Hsz. cbn in Hsz.
  destruct (HW ltac:(lia)) as (evs & Hsp & Hrel & Hev & _ & Hd).
  destruct (link_inv _ _ _ _ Hlink) as (T & HA & HL & _).
  destruct (HL f obj s Obj Hobj HO) as (Rs & bufs & buf & Hb1 & Hb2 & _ & HX). destruct (HX (HM Obj HO)) as [HF HR].
  assert (HT : T = Symtab) by (unfold Symtab, symbol_table; rewrite HA; reflexivity). subst T. rewrite Hrel in HF.
  exists Obj, evs, Rs, bufs, buf. split; [exact HO |]. split; [exact Hsp |]. split; [exact Hev |]. split; [exact Hsz |].
  split; [exact HF |]. split; [exact Hb1 |]. split; [exact Hb2 |]. split; [exact HR | exact Hd].
Qed.

(** A fragment of the section is inside its bytes in the image. *)
Lemma fragment_inside (s i : nat) (Sec : MCSection) (C : list Z) (F : list MCFixup) (oj : Z) (bufs : list (list Z)) (buf : list Z) :
  StSections st !! s = Some Sec → in_memory s → FragmentList Sec !! i = Some (MCDataFragment C F) → Layout (s, Some i) = Ret oj →
  ImageSections img !! f = Some bufs → bufs !! s = Some buf → oj + Z.of_nat (length C) ≤ Z.of_nat (length buf).
Proof.
  intros HS HM HF HL Hb1 Hb2. destruct (section_linked s Sec HS HM) as (Obj & evs & Rs & bufs' & buf' & _ & _ & _ & _ & _ & Hb1' & Hb2' & HR & Hd).
  assert (buf' = buf) as -> by congruence. rewrite (relocateAlloc_length _ _ _ _ _ _ _ _ _ HR).
  destruct (Hd i C F HF) as (oj' & HL' & _ & Hend & _). rewrite HL in HL'. injection HL' as <-. lia.
Qed.

(** The slots of the GOT are inside it. *)
Lemma got_inside : length (ImageGot img) = (4 * length (GotSlots img))%nat.
Proof.
  destruct (link_inv _ _ _ _ Hlink) as (T & _ & _ & HGot). rewrite (relocateAlloc_length _ _ _ _ _ _ _ _ _ HGot). apply length_replicate.
Qed.

(** A fixup that is not for the GOT: resolved by the assembler or relocated by the
    linker, the word of the image has the value of the expression. *)
Lemma fixup_linked (s i : nat) (Sec : MCSection) (C : list Z) (F : list MCFixup) (fx : MCFixup) (Type_ : Z) :
  StSections st !! s = Some Sec → in_memory s → FragmentList Sec !! i = Some (MCDataFragment C F) → fx ∈ F →
  fixup_kind fx = kind_of_reloc Type_ → known_reloc Type_ = true → Type_ ≠ R_NYUZI_GOT →
  expr_ok (fixup_value fx) = true → one_or_strong Syms (fixup_value fx) →
  (fixup_kind fx = FK_Data_4 → ∀ T, evaluateAsRelocatable Syms (Some Layout) (fixup_value fx) = Ret (Some T) → SymB T = None) →
  Forall (λ '(b, n), getfield b n (word_at C (Z.to_nat (fixup_offset fx))) = 0) (reloc_fields Type_) →
  ∃ oj bufs buf, Layout (s, Some i) = Ret oj ∧ ImageSections img !! f = Some bufs ∧ bufs !! s = Some buf ∧
    0 ≤ oj ∧ 0 ≤ fixup_offset fx ∧ fixup_offset fx + 4 ≤ Z.of_nat (length C) ∧
    let V := u64 (i32 (meaning σ (fixup_value fx) - if pcrel Type_ then VA s + (oj + fixup_offset fx) else 0)) in
    word_at buf (Z.to_nat (oj + fixup_offset fx)) = u32 (reloc_word Type_ V (word_at C (Z.to_nat (fixup_offset fx)))) ∧
    reloc_errors Type_ V = [].
Proof.
  intros HS HM HF Hin HK Hk Hg Hexp H1 HD Hz.
  destruct (section_linked s Sec HS HM) as (Obj & evs & Rs & bufs & buf & HO & Hsp & Hev & Hsz & Hscan & Hb1 & Hb2 & HR & Hd).
  destruct (Hd i C F HF) as (oj & HL & Hoj & Hend & Hfx & _). destruct (Hfx fx Hin) as (FV & rs & [Hh [v Hadj]] & He & H0 & H4 & Hw).
  exists oj, bufs, buf. split; [exact HL |]. split; [exact Hb1 |]. split; [exact Hb2 |]. split; [exact Hoj |]. split; [exact H0 |].
  split; [exact H4 |]. replace (oj - 0 + fixup_offset fx) with (oj + fixup_offset fx) in Hw by lia.
  destruct (pcrel_flag Type_ Hk) as (Info & HI & HP & HT). rewrite <- HK in HI, HT.
  set (w0 := word_at C (Z.to_nat (fixup_offset fx))) in *.
  assert (Hw0 : 0 ≤ w0 < 2 ^ 32) by (apply word_at_range; lia).
  destruct (handleFixup_worth Syms Layout (StSections st) VA σ strong_placed_here (s, Some i) fx FV oj rs Info Hh HI Hexp H1 HD HL ltac:(lia))
    as [(-> & HFV & Hm) | (r & -> & -> & Hr & Hty & Hm)].
  - (* resolved by the assembler *)
    rewrite (linked_resolved _ _ _ _ _ _ _ _ _ _ Hscan HR Hev Hsp Hsz _ He), Hw. cbn [fst] in Hm. rewrite HP in Hm.
    rewrite HK in Hadj |- *. rewrite (fixup_word_reloc Type_ FV v w0 Hk Hadj Hw0 Hz), uint_uint.
    assert (HE : reloc_errors Type_ FV = []).
    { destruct (adjust_reloc Type_ FV Hk) as (v' & E & HA & _ & HE). rewrite Hadj in HA. injection HA as <- <-.
      destruct HE as [HE _]. destruct (HE eq_refl) as [HE' | HE']; [contradiction | exact HE']. }
    destruct (reloc_word_target Type_ FV _ w0 Hk Hg HE (eqm64_u32 _ _ Hm)) as [Hrw HE']. split; [rewrite Hrw; reflexivity | exact HE'].
  - (* relocated by the linker *)
    destruct (linked_word _ _ _ _ _ _ _ _ _ _ Hscan HR Hev Hsp Hsz _ r He Hr) as (R & HRs & Hlw & _ & HE).
    rewrite fixup_word_zero in Hw. rewrite (uint_small 32 w0) in Hw by exact Hw0. rewrite Hw in Hlw.
    assert (Htype : r_type r = Type_) by (rewrite HP in Hty; congruence). rewrite Htype in Hlw, HE.
    assert (HV : target_value files Symtab SectionVA (GotSlots img) (VA s + (oj + fixup_offset fx)) R
                 = u64 (i32 (meaning σ (fixup_value fx) - if pcrel Type_ then VA s + (oj + fixup_offset fx) else 0))).
    { pose proof (relocation_address _ _ _ HRs) as HA. rewrite (eqm64_u32 _ _ Hm) in HA.
      destruct HRs as (Ref & E & _ & HEx & -> & _). cbn [LldLink.Sym Addend] in HA. unfold target_value. apply f_equal, uint_eq_sint.
      cbn [Addend LldLink.Sym Expr]. rewrite Htype in HEx. unfold pcrel. clear - HA HEx Hk Hg.
      reloc_cases Hk; injection HEx as <-; cbn [getRelocTargetVA]; reloc_simpl; try (rewrite Z.sub_0_r; exact HA);
        try (destruct Hg; reflexivity); rewrite u32_u64; apply u32_sub; first [exact HA | apply u32_u64]. }
    rewrite HV in Hlw, HE. split; [exact Hlw | exact HE].
Qed.

(** The fixup of a GOT operand is always left to the linker, with the symbol. *)
Lemma got_recorded (DF : FragRef) (fx : MCFixup) (n : string) (FV : Z) (rs : list ELFRelocationEntry) :
  handleFixup Syms Layout (StSections st) DF fx = Ret (FV, rs, []) →
  fixup_kind fx = Nyuzi.fixup_Nyuzi_GOT → fixup_value fx = MCSymbolRefExpr n →
  FV = 0 ∧ ∃ P, rs = [mkRela P (RelNamed n) R_NYUZI_GOT 0].
Proof.
  assert (HI : getFixupKindInfo Nyuzi.fixup_Nyuzi_GOT = Ret (mkInfo "fixup_Nyuzi_GOT" 10 15 false)) by reflexivity.
  intros H HK HV. unfold handleFixup in H. apply outcome_bind_Ret_inv in H as ([[[res T] V] E1] & HE & H).
  unfold evaluateFixup in HE. rewrite HK, HV in HE.
  change (evaluateAsRelocatable Syms (Some Layout) (MCSymbolRefExpr n)) with (Ret (Some (MCValue_get (Some n) None 0))) in HE.
  rewrite outcome_bind_ret, HI, outcome_bind_ret in HE. apply outcome_bind_Ret_inv in HE as (oa & _ & HE). injection HE as <- <- <- <-.
  cbn iota in H. change (isAbsolute (MCValue_get (Some n) None 0)) with false in H. cbn iota in H.
  apply outcome_bind_Ret_inv in H as ([[Rec FV'] E2] & HR & H). injection H as <- <- _.
  unfold recordRelocation in HR. rewrite HK, HI, outcome_bind_ret in HR. apply outcome_bind_Ret_inv in HR as (o & _ & HR).
  cbn [SymB MCValue_get Constant SymA IsPCRelFlag] in HR. rewrite outcome_bind_ret in HR.
  change (getRelocType Nyuzi.fixup_Nyuzi_GOT false) with (Ret R_NYUZI_GOT) in HR. rewrite outcome_bind_ret in HR.
  assert (Hs : shouldRelocateWithSymbol Syms (StSections st) (Some n) (u64 0) R_NYUZI_GOT = true).
  { unfold shouldRelocateWithSymbol. destruct (isUndefined _); [reflexivity |]. destruct (getBinding _); try reflexivity.
    destruct (_ && _); [reflexivity |]. destruct (has_flag _ _); reflexivity. }
  rewrite Hs, outcome_bind_ret in HR. injection HR as <- <- _. split; [reflexivity |]. eexists. reflexivity.
Qed.

Lemma got_linked (s i : nat) (Sec : MCSection) (C : list Z) (F : list MCFixup) (fx : MCFixup) (n : string) :
  StSections st !! s = Some Sec → in_memory s → FragmentList Sec !! i = Some (MCDataFragment C F) → fx ∈ F →
  fixup_kind fx = Nyuzi.fixup_Nyuzi_GOT → fixup_value fx = MCSymbolRefExpr n →
  ∃ oj bufs buf k, Layout (s, Some i) = Ret oj ∧ ImageSections img !! f = Some bufs ∧ bufs !! s = Some buf ∧
    0 ≤ oj ∧ 0 ≤ fixup_offset fx ∧ fixup_offset fx + 4 ≤ Z.of_nat (length C) ∧
    let V := u64 (i32 (4 * Z.of_nat k)) in
    word_at buf (Z.to_nat (oj + fixup_offset fx)) = u32 (reloc_word R_NYUZI_GOT V (word_at C (Z.to_nat (fixup_offset fx)))) ∧
    reloc_errors R_NYUZI_GOT V = [] ∧ (4 * k + 4 ≤ length (ImageGot img))%nat ∧ word_at (ImageGot img) (4 * k) = u32 (σ n).
Proof.
  intros HS HM HF Hin HK HV.
  destruct (section_linked s Sec HS HM) as (Obj & evs & Rs & bufs & buf & HO & Hsp & Hev & Hsz & Hscan & Hb1 & Hb2 & HR & Hd).
  destruct (Hd i C F HF) as (oj & HL & Hoj & Hend & Hfx & _). destruct (Hfx fx Hin) as (FV & rs & [Hh [v Hadj]] & He & H0 & H4 & Hw).
  replace (oj - 0 + fixup_offset fx) with (oj + fixup_offset fx) in Hw by lia.
  destruct (got_recorded _ _ _ _ _ Hh HK HV) as [-> (P & ->)].
  assert (HP : P = oj + fixup_offset fx).
  { destruct (Forall_forall event_ok evs) as [HE _]. destruct (HE Hev _ He) as [HE' | (r & HE' & Hr)]; [discriminate HE' |].
    cbn in HE', Hr. injection HE' as <-. exact Hr. }
  subst P. destruct (linked_word _ _ _ _ _ _ _ _ _ _ Hscan HR Hev Hsp Hsz _ _ He eq_refl) as (R & HRs & Hlw & _ & HE).
  assert (Hw0 : 0 ≤ word_at C (Z.to_nat (fixup_offset fx)) < 2 ^ 32) by (apply word_at_range; lia).
  rewrite fixup_word_zero, uint_small in Hw by exact Hw0. rewrite Hw in Hlw. cbn [r_type] in Hlw, HE.
  pose proof (relocation_address _ _ _ HRs) as HA. cbn [r_symbol r_addend rel_address] in HA. rewrite Z.add_0_r in HA.
  destruct HRs as (Ref & E & _ & HEx & -> & HG). injection HEx as <-. cbn [LldLink.Sym Addend r_addend] in HA. change (i32 (u32 0)) with 0 in HA.
  destruct (gotIndex_elem Ref (GotSlots img) (HG eq_refl)) as (k & Hk & Hslot).
  assert (HT : target_value files Symtab SectionVA (GotSlots img) (VA s + (oj + fixup_offset fx))
                 (mkRelocation R_GOT_OFF R_NYUZI_GOT (u32 (oj + fixup_offset fx)) (i32 (u32 0)) Ref) = u64 (i32 (4 * Z.of_nat k))).
  { unfold target_value. apply f_equal, uint_eq_sint. cbn [Addend LldLink.Sym Expr getRelocTargetVA]. unfold getGotOffset. rewrite Hk.
    cbn [from_option]. change (i32 (u32 0)) with 0. change (GotEntrySize Nyuzi_TargetInfo) with 4.
    rewrite u32_u64, Z.add_0_r, uint_uint. apply f_equal. lia. }
  cbn [r_offset r_addend r_type] in Hlw, HE. rewrite HT in Hlw, HE. exists oj, bufs, buf, k.
  split; [exact HL |]. split; [exact Hb1 |]. split; [exact Hb2 |]. split; [exact Hoj |]. split; [exact H0 |]. split; [exact H4 |].
  split; [exact Hlw |]. split; [exact HE |]. split; [rewrite got_inside; apply lookup_lt_Some in Hslot; lia |].
  destruct (link_inv _ _ _ _ Hlink) as (T & HAdd & _ & HGot).
  assert (HTs : T = Symtab) by (unfold Symtab, symbol_table; rewrite HAdd; reflexivity). subst T.
  rewrite (got_word _ _ _ _ _ _ k Ref HGot Hslot). exact HA.
Qed.

(** A word without a fixup is as it was emitted. *)
Lemma plain_linked (s i : nat) (Sec : MCSection) (C : list Z) (F : list MCFixup) (p : nat) :
  StSections st !! s = Some Sec → in_memory s → FragmentList Sec !! i = Some (MCDataFragment C F) →
  (p + 4 ≤ length C)%nat → Forall (λ fx, gap p (Z.to_nat (fixup_offset fx))) F →
  ∃ oj bufs buf, Layout (s, Some i) = Ret oj ∧ 0 ≤ oj ∧ ImageSections img !! f = Some bufs ∧ bufs !! s = Some buf ∧
    word_at buf (Z.to_nat oj + p) = word_at C p.
Proof.
  intros HS HM HF Hp Hgap.
  destruct (section_linked s Sec HS HM) as (Obj & evs & Rs & bufs & buf & HO & Hsp & Hev & Hsz & Hscan & Hb1 & Hb2 & HR & Hd).
  destruct (Hd i C F HF) as (oj & HL & Hoj & Hend & _ & Hpl). destruct (Hpl p Hp Hgap) as [Hw HE].
  rewrite Z.sub_0_r in Hw. exists oj, bufs, buf. split; [exact HL |]. split; [exact Hoj |]. split; [exact Hb1 |]. split; [exact Hb2 |].
  rewrite (linked_other _ _ _ _ _ _ _ _ _ _ Hscan HR Hev Hsp Hsz _ HE). exact Hw.
Qed.
End OneFile.

(** ** Symbolic instructions *)

(** The instructions with a symbolic operand: a direct branch or call; the two
    instructions of an address; a load from the GOT. *)
Inductive SymbolicInst : Type :=
  | SymBranch (opc : Nyuzi.opcode) (r : Nyuzi.reg) (e : MCExpr)
  | SymHi (r : Nyuzi.reg) (e : MCExpr)
  | SymLo (r : Nyuzi.reg) (e : MCExpr)
  | SymGot (r b : Nyuzi.reg) (n : string).

Definition sym_inst (F : SymbolicInst) : MCInst :=
  match F with
  | SymBranch opc r e => branch_inst opc r (kExpr e)
  | SymHi r e => mkMCInst Nyuzi.MOVEHI [kRegister r; kExpr (NyuziMCExpr Nyuzi.VK_Nyuzi_ABS_HI e)]
  | SymLo r e => mkMCInst Nyuzi.ORSSI [kRegister r; kRegister r; kExpr (NyuziMCExpr Nyuzi.VK_Nyuzi_ABS_LO e)]
  | SymGot r b n => mkMCInst Nyuzi.LW [kRegister r; kRegister b; kExpr (NyuziMCExpr Nyuzi.VK_Nyuzi_GOT (MCSymbolRefExpr n))]
  end.

(** The value of the fixup, and its type. *)
Definition sym_value (F : SymbolicInst) : MCExpr :=
  match F with
  | SymBranch _ _ e => e
  | SymHi _ e => NyuziMCExpr Nyuzi.VK_Nyuzi_ABS_HI e
  | SymLo _ e => NyuziMCExpr Nyuzi.VK_Nyuzi_ABS_LO e
  | SymGot _ _ n => MCSymbolRefExpr n
  end.

Definition sym_type (F : SymbolicInst) : Z :=
  match F with
  | SymBranch opc _ _ => match opc with Nyuzi.BZ | Nyuzi.BNZ => R_NYUZI_BRANCH20 | _ => R_NYUZI_BRANCH25 end
  | SymHi _ _ => R_NYUZI_HI19
  | SymLo _ _ => R_NYUZI_IMM_LO13
  | SymGot _ _ _ => R_NYUZI_GOT
  end.

Definition sym_ok (F : SymbolicInst) : bool :=
  match F with
  | SymBranch opc r _ => is_direct_branch opc && Nyuzi.contains Nyuzi.GPR32RegClass r
  | SymHi r _ | SymLo r _ => Nyuzi.contains Nyuzi.GPR32RegClass r
  | SymGot r b _ => Nyuzi.contains Nyuzi.GPR32RegClass r && Nyuzi.contains Nyuzi.GPR32RegClass b
  end.

(** The instruction with its operand resolved to the value [V], as the disassembler
    shows it: a branch by its distance in bytes, the others by the bits they take. *)
Definition sym_linked (F : SymbolicInst) (V : Z) : MCInst :=
  match F with
  | SymBranch opc r _ => branch_inst opc r (kImmediate (4 * Z.quot (i64 V) 4))
  | SymHi r _ => mkMCInst Nyuzi.MOVEHI [kRegister r; kImmediate (uint 19 (Z.shiftr V 13))]
  | SymLo r _ => mkMCInst Nyuzi.ORSSI [kRegister r; kRegister r; kImmediate (uint 13 V)]
  | SymGot r b _ => mkMCInst Nyuzi.LW [kRegister r; kRegister b; kImmediate (i64 V)]
  end.

Lemma formatBinaryCode_lw (r b : Nyuzi.reg) :
  Nyuzi.contains Nyuzi.GPR32RegClass r = true → Nyuzi.contains Nyuzi.GPR32RegClass b = true → ∃ W, 0 ≤ W < 2 ^ 32 ∧
    (∀ v F, in_sint 15 v = true → formatBinaryCode (mkMCInst Nyuzi.LW [kRegister r; kRegister b; kImmediate v]) F
            = Ret (setfield 10 15 v W, F)) ∧
    (∀ n F, formatBinaryCode (sym_inst (SymGot r b n)) F
            = Ret (setfield 10 15 0 W, F ++ [mkMCFixup 0 (MCSymbolRefExpr n) Nyuzi.fixup_Nyuzi_GOT])) ∧
    (∀ v, in_sint 15 v = true → inst_valid (mkMCInst Nyuzi.LW [kRegister r; kRegister b; kImmediate v]) = true).
Proof.
  intros Hr Hb. destruct (reg_bits _ _ Hr) as (n & Hn & _ & He). destruct (reg_bits _ _ Hb) as (m & Hm & _ & He').
  exists (insertOperand F_addr (Z.of_nat m) (insertOperand F_dest (Z.of_nat n) (fixedBits (FormatMInst FmtM_Word 1)))).
  assert (HW : ∀ v W, 0 ≤ W < 2 ^ 32 →  - 2 ^ 14 ≤ v < 2 ^ 14 →
             insertOperand F_addr (Z.lor (Z.of_nat m) (u32 (Z.shiftl (i16 v) 5))) W
             = setfield 10 15 v (insertOperand F_addr (Z.of_nat m) W)).
  { intros v W HW Hv. rewrite (sint_small 16 v) by lia. assert (Hm' : Z.of_nat m = uint 5 (Z.of_nat m)) by (symmetry; apply uint_small; lia).
    rewrite Hm'. unfold insertOperand. cbn [foldl F_addr Base Width NyuziFormats.Offset]. unfold setfield. bitwise. }
  assert (HR : 0 ≤ insertOperand F_dest (Z.of_nat n) (fixedBits (FormatMInst FmtM_Word 1)) < 2 ^ 32)
    by (apply insertOperand_range; [repeat constructor; cbn; lia | apply fixedBits_range; repeat constructor; lia]).
  split; [apply insertOperand_range; [repeat constructor; cbn; lia | exact HR] |]. split; [| split].
  - intros v F Hv. apply in_sint_spec in Hv. rewrite <- HW by (exact HR || lia).
    unfold formatBinaryCode. cbn [Opcode InstrFormats FormatMUnmaskedInst OperandList Fixed]. unfold GPR.
    erewrite encodeOperands_reg; [| reflexivity | exact He].
    cbn [encodeOperands NyuziFormats.Kind encodeOperand operandSize Fields]. unfold encodeMemoryOpValue. rewrite decide_False by discriminate.
    cbn -[uint sint insertOperand fixedBits Nyuzi.getEncodingValue Z.shiftl Z.to_nat].
    change (Z.to_nat 1) with 1%nat. change (Z.to_nat 2) with 2%nat.
    cbn -[uint sint insertOperand fixedBits Nyuzi.getEncodingValue Z.shiftl]. rewrite He'. reflexivity.
  - intros s F. rewrite <- (HW 0) by (exact HR || lia).
    unfold formatBinaryCode. cbn [sym_inst Opcode InstrFormats FormatMUnmaskedInst OperandList Fixed]. unfold GPR.
    erewrite encodeOperands_reg; [| reflexivity | exact He].
    change (u32 (Z.shiftl (i16 0) 5)) with 0. rewrite Z.lor_0_r.
    cbn [encodeOperands NyuziFormats.Kind encodeOperand operandSize Fields]. unfold encodeMemoryOpValue. rewrite decide_False by discriminate.
    cbn -[uint sint insertOperand fixedBits Nyuzi.getEncodingValue Z.shiftl Z.to_nat].
    change (Z.to_nat 1) with 1%nat. change (Z.to_nat 2) with 2%nat.
    cbn -[uint sint insertOperand fixedBits Nyuzi.getEncodingValue Z.shiftl]. rewrite He'. reflexivity.
  - intros v Hv. unfold inst_valid. cbn. change (Z.to_nat 1) with 1%nat. change (Z.to_nat 2) with 2%nat. cbn. rewrite Hr, Hb. cbn.
    change (op_width F_addr) with 15. rewrite Hv. reflexivity.
Qed.

(** The code of a symbolic instruction has an empty field and one fixup; with a value
    relocated into it, it is the code of the instruction with that operand. *)
Definition encodes (F : SymbolicInst) : Prop := ∃ w0, 0 ≤ w0 < 2 ^ 32 ∧
  encodeInstruction formatBinaryCode (sym_inst F) [] []
  = Ret (le_bytes 4 w0, [mkMCFixup 0 (sym_value F) (kind_of_reloc (sym_type F))]) ∧
  Forall (λ '(b, s), getfield b s w0 = 0) (reloc_fields (sym_type F)) ∧
  ∀ V, reloc_errors (sym_type F) V = [] → 0 ≤ V < 2 ^ 64 → ∃ MI, inst_valid MI = true ∧ Opcode MI = Opcode (sym_inst F) ∧
    formatBinaryCode MI [] = Ret (u32 (reloc_word (sym_type F) V w0), []) ∧ inst_seen MI = sym_linked F V.

Lemma branch_encodes (opc : Nyuzi.opcode) (r : Nyuzi.reg) (e : MCExpr) : sym_ok (SymBranch opc r e) = true → encodes (SymBranch opc r e).
Proof.
  unfold encodes. cbn [sym_value]. intros Hok.
  apply andb_prop in Hok as [Hb Hr]. destruct (formatBinaryCode_branch opc r Hb Hr) as (W & HW & HI & HE).
  set (base := branch_base opc) in *. set (bits := branch_bits opc) in *.
  assert (Hs : 0 ≤ base ∧ 0 < bits ∧ base + bits ≤ 32) by (destruct opc; try discriminate Hb; cbn; lia).
  assert (HT : known_reloc (sym_type (SymBranch opc r e)) = true ∧ kind_of_reloc (sym_type (SymBranch opc r e)) = branch_fixup opc ∧
               reloc_fields (sym_type (SymBranch opc r e)) = [(base, bits)] ∧
               (∀ V w, reloc_word (sym_type (SymBranch opc r e)) V w = setfield base bits (Z.quot (i64 V) 4) w) ∧
               (∀ V, reloc_errors (sym_type (SymBranch opc r e)) V = checkInt (Z.quot (i64 V) 4) bits))
    by (destruct opc; try discriminate Hb; repeat (split; [reflexivity |]); reflexivity).
  destruct HT as (_ & -> & -> & Hword & Herr).
  exists (setfield base bits 0 W). assert (Hr0 : 0 ≤ setfield base bits 0 W < 2 ^ 32) by (apply setfield_range; lia).
  split; [exact Hr0 |]. split; [rewrite (encodeInstruction_bytes _ _ _ _ _ _ (HE e [])), uint_small by exact Hr0; reflexivity |].
  split; [constructor; [rewrite getfield_setfield by lia; reflexivity | constructor] |].
  intros V HEr HV. rewrite Herr in HEr. apply checkInt_nil in HEr; [| lia].
  exists (branch_inst opc r (kImmediate (Z.quot (i64 V) 4))).
  destruct (branch_inst_valid opc r (Z.quot (i64 V) 4) Hb Hr) as [H1 H2]; [apply in_sint_spec; exact HEr |].
  split; [exact H1 |]. split; [destruct opc; try discriminate Hb; reflexivity |]. split; [| exact H2].
  rewrite HI, Hword, setfield_setfield by lia. do 2 f_equal.
  rewrite (uint_small 32 (setfield base bits (Z.quot (i64 V) 4) W)) by (apply setfield_range; lia).
  unfold setfield. bitwise.
Qed.

Lemma hi_encodes (r : Nyuzi.reg) (e : MCExpr) : sym_ok (SymHi r e) = true → encodes (SymHi r e).
Proof.
  unfold encodes. cbn [sym_value]. intros Hok.
  destruct (formatBinaryCode_movehi r Hok) as (W & HW & HI & HE).
  assert (Hf : Forall field_ok F_imm19) by (repeat constructor; cbn; lia).
  exists (insertOperand F_imm19 0 W). pose proof (insertOperand_range F_imm19 0 W Hf HW) as Hr0. split; [exact Hr0 |].
  split; [rewrite (encodeInstruction_bytes _ _ _ _ _ _ (HE e [])), uint_small by exact Hr0; reflexivity |].
  split; [repeat constructor; unfold getfield, insertOperand, setfield; cbn [foldl F_imm19 Base Width NyuziFormats.Offset]; bitwise |].
  intros V _ HV. pose proof (uint_range 19 (Z.shiftr V 13) ltac:(lia)) as Hv.
  exists (mkMCInst Nyuzi.MOVEHI [kRegister r; kImmediate (uint 19 (Z.shiftr V 13))]).
  assert (Hvalid := valid_movehi r (uint 19 (Z.shiftr V 13)) Hok ltac:(apply in_uint_spec; lia)).
  split; [exact Hvalid |]. split; [reflexivity |]. split; [| apply inst_seen_plain; [reflexivity | exact Hvalid]].
  rewrite HI. do 2 f_equal. cbn [sym_type]. unfold reloc_word. reloc_simpl.
  rewrite (uint_small 32 (setfield 10 14 _ _)) by (do 2 (apply setfield_range; [lia | lia | lia |]); exact Hr0).
  unfold insertOperand, setfield. cbn [foldl F_imm19 Base Width NyuziFormats.Offset]. bitwise.
Qed.

Lemma lo_encodes (r : Nyuzi.reg) (e : MCExpr) : sym_ok (SymLo r e) = true → encodes (SymLo r e).
Proof.
  unfold encodes. cbn [sym_value]. intros Hok.
  destruct (formatBinaryCode_orssi r Hok) as (W & HW & HI & HE).
  assert (Hf : Forall field_ok F_imm14) by (repeat constructor; cbn; lia).
  exists (insertOperand F_imm14 0 W). pose proof (insertOperand_range F_imm14 0 W Hf HW) as Hr0. split; [exact Hr0 |].
  split; [rewrite (encodeInstruction_bytes _ _ _ _ _ _ (HE e [])), uint_small by exact Hr0; reflexivity |].
  split; [repeat constructor; unfold getfield, insertOperand, setfield; cbn [foldl F_imm14 Base Width NyuziFormats.Offset]; bitwise |].
  intros V _ HV. pose proof (uint_range 13 V ltac:(lia)) as Hv.
  exists (mkMCInst Nyuzi.ORSSI [kRegister r; kRegister r; kImmediate (uint 13 V)]).
  assert (Hvalid := valid_orssi r (uint 13 V) Hok ltac:(apply in_sint_spec; lia)).
  split; [exact Hvalid |]. split; [reflexivity |]. split; [| apply inst_seen_plain; [reflexivity | exact Hvalid]].
  rewrite HI. do 2 f_equal. cbn [sym_type]. unfold reloc_word. reloc_simpl.
  rewrite (uint_small 32 (setfield 10 13 _ _)) by (apply setfield_range; [lia | lia | lia | exact Hr0]).
  unfold insertOperand, setfield. cbn [foldl F_imm14 Base Width NyuziFormats.Offset]. bitwise.
Qed.

Lemma got_encodes (r b : Nyuzi.reg) (n : string) : sym_ok (SymGot r b n) = true → encodes (SymGot r b n).
Proof.
  unfold encodes. cbn [sym_value]. intros Hok.
  apply andb_prop in Hok as [Hr Hb]. destruct (formatBinaryCode_lw r b Hr Hb) as (W & HW & HI & HE & Hval).
  exists (setfield 10 15 0 W). assert (Hr0 : 0 ≤ setfield 10 15 0 W < 2 ^ 32) by (apply setfield_range; lia). split; [exact Hr0 |].
  split; [rewrite (encodeInstruction_bytes _ _ _ _ _ _ (HE n [])), uint_small by exact Hr0; reflexivity |].
  split; [constructor; [rewrite getfield_setfield by lia; reflexivity | constructor] |].
  intros V HEr HV. cbn [sym_type] in HEr |- *. unfold reloc_errors in HEr. revert HEr. reloc_simpl. intros HEr.
  apply checkInt_nil in HEr; [| lia].
  assert (Hin : in_sint 15 (i64 V) = true) by (apply in_sint_spec; exact HEr).
  exists (mkMCInst Nyuzi.LW [kRegister r; kRegister b; kImmediate (i64 V)]). split; [exact (Hval _ Hin) |]. split; [reflexivity |].
  split; [| apply inst_seen_plain; [reflexivity | exact (Hval _ Hin)]].
  rewrite HI by exact Hin. do 2 f_equal. unfold reloc_word. reloc_simpl. rewrite setfield_setfield by lia.
  rewrite (uint_small 32 (setfield 10 15 _ W)) by (apply setfield_range; lia). unfold setfield. bitwise.
Qed.

Lemma sym_encode (F : SymbolicInst) : sym_ok F = true → encodes F.
Proof. destruct F; auto using branch_encodes, hi_encodes, lo_encodes, got_encodes. Qed.

(** ** The operations of a file *)

Lemma flush_errors_steps (st0 st : Streamer) : flushToNewFragment st0 = Ret st →
  steps st0 st ∧ StErrors st = StErrors st0 ∧ PendingLabels st = [].
Proof.
  intros H. split; [exact (flushToNewFragment_steps _ _ H) |].
  split; [exact (flushToNewFragment_errors _ _ H) | exact (flushToNewFragment_pending _ _ H)].
Qed.

Lemma emitted_ok (ops : list StreamerOp) (st : Streamer) :
  emitted ops = Ret st → StErrors st = [] → Forall (op_ok formatBinaryCode) ops → streamer_ok st ∧ PendingLabels st = [].
Proof.
  unfold emitted. intros H HN Hops. apply outcome_bind_Ret_inv in H as (st0 & H0 & HF).
  destruct (flush_errors_steps _ _ HF) as (HS & HE & HP). split; [| exact HP].
  apply HS. apply (emitAll_steps _ _ _ _ H0); [congruence | exact Hops | exact initStreamer_ok].
Qed.

(** Labels one after another are all here. *)
Lemma labels_here (Ls : list string) (st st' : Streamer) :
  emitAll formatBinaryCode (map OpLabel Ls) st = Ret st' → StErrors st' = [] →
  (∀ L, L ∈ Ls → label_here st' L) ∧ ∀ L, label_here st L → label_here st' L.
Proof.
  revert st. induction Ls as [| L0 Ls IH]; cbn; intros st H HN.
  - injection H as <-. split; [intros L HL; apply elem_of_nil in HL as [] | auto].
  - apply outcome_bind_Ret_inv in H as (st1 & H1 & H). destruct (emitAll_errors _ _ _ _ H) as [l HE]. rewrite HN in HE.
    symmetry in HE. apply app_eq_nil in HE as [HE _]. destruct (EmitLabel_inv _ _ _ H1) as [_ HL].
    destruct (HL HE) as (_ & _ & Hhere & Hkeep). destruct (IH _ H HN) as [I1 I2]. split; [| auto].
    intros L HLs. apply elem_of_cons in HLs as [-> | HLs]; [exact (I2 _ Hhere) | exact (I1 L HLs)].
Qed.

(** Where an instruction of the file ends up: in a data fragment, its code at the place
    of the labels before it, its fixups shifted there and away from all others. *)
Lemma instruction_place (pre post : list StreamerOp) (Ls : list string) (MI : MCInst) (st : Streamer) :
  emitted (pre ++ map OpLabel Ls ++ OpInstruction MI :: post) = Ret st → StErrors st = [] →
  Forall (op_ok formatBinaryCode) (pre ++ map OpLabel Ls ++ OpInstruction MI :: post) →
  ∃ Code Fx s Sec i C F c fx, encodeInstruction formatBinaryCode MI [] [] = Ret (Code, Fx) ∧
    StSections st !! s = Some Sec ∧
    FragmentList Sec !! i = Some (MCDataFragment ((C ++ Code) ++ c) ((F ++ map (shiftFixup (length C)) Fx) ++ fx)) ∧
    fixups_ok C F ∧ spaced (Z.of_nat (length (C ++ Code))) (Z.of_nat (length ((C ++ Code) ++ c))) (map fixup_offset fx) ∧
    ∀ L, L ∈ Ls → getFragment (sym (StSymbols st) L) = Some (s, Some i) ∧ getOffset (sym (StSymbols st) L) = Z.of_nat (length C).
Proof.
  unfold emitted. intros H HN Hops. apply outcome_bind_Ret_inv in H as (st0 & H0 & HF).
  destruct (flush_errors_steps _ _ HF) as (HSf & HEf & _). rewrite HN in HEf. symmetry in HEf.
  apply emitAll_app in H0 as (st1 & H1 & H0). apply emitAll_app in H0 as (st2 & H2 & H0). cbn [emitAll emit] in H0.
  apply outcome_bind_Ret_inv in H0 as (st3 & H3 & H4).
  apply Forall_app in Hops as [Hops1 Hops]. apply Forall_app in Hops as [Hops2 Hops]. apply Forall_cons in Hops as [Hop Hops3].
  destruct (emitAll_errors _ _ _ _ H4) as [l4 E4]. rewrite HEf in E4. symmetry in E4. apply app_eq_nil in E4 as [E3 _].
  destruct (EmitInstruction_inv _ _ _ _ H3) as (E2 & Code & Fx & s & Sec & i & C & F & HC & HS & HFr & Hst & Hfx & HL).
  rewrite E3 in E2. symmetry in E2. destruct (emitAll_errors _ _ _ _ H2) as [l2 E1]. rewrite E2 in E1.
  symmetry in E1. apply app_eq_nil in E1 as [E1 _].
  assert (Hok2 : streamer_ok st2).
  { apply (emitAll_steps _ _ _ _ H2 E2 Hops2). apply (emitAll_steps _ _ _ _ H1 E1 Hops1). exact initStreamer_ok. }
  destruct (Hst Hop Hok2) as [Hok3 _]. destruct ((transitivity (emitAll_steps _ _ _ _ H4 HEf Hops3) HSf) Hok3) as [_ [HX HY]].
  destruct (HX s Sec HS) as (Sec' & HS' & _ & _ & HSe). destruct (HSe i _ HFr) as (F' & HF' & c & fx & -> & Hsp).
  exists Code, Fx, s, Sec', i, C, F, c, fx. split; [exact HC |]. split; [exact HS' |]. split; [exact HF' |].
  split; [exact (Hfx Hop Hok2) |]. split; [exact Hsp |]. intros L HLs. destruct (labels_here _ _ _ H2 E2) as [Hhere _].
  destruct (HL L (Hhere L HLs)) as [HA HB]. destruct (HY L s i HA) as [HA' HB']. split; [exact HA' | congruence].
Qed.

(** The files of a link, one of them looked at: [ops] are its operations. *)
Record linked_file (SectionVA : SectionId → Z) (GotVA : Z) (objs : list Object) (img : Image) (f : nat) (ops : list StreamerOp)
    (st : Streamer) (obj : Object) : Prop := {
  lf_link : link SectionVA GotVA objs = Ret (Some img, []);
  lf_object : objs !! f = Some obj;
  lf_assembled : assembleObject formatBinaryCode ops = Ret (obj, []);
  lf_emitted : emitted ops = Ret st;
  lf_ops : Forall (op_ok formatBinaryCode) ops;
  lf_size : Forall (λ Obj, Z.of_nat (length (ObjData Obj)) < 2 ^ 32) (ObjSections obj)
}.

Lemma linked_file_facts (SectionVA : SectionId → Z) (GotVA : Z) (objs : list Object) (img : Image) (f : nat) (ops : list StreamerOp)
    (st : Streamer) (obj : Object) :
  linked_file SectionVA GotVA objs img f ops st obj →
  StErrors st = [] ∧ streamer_ok st ∧ PendingLabels st = [] ∧ Finish (StSymbols st) (StSections st) = Ret (obj, []).
Proof.
  intros [_ _ HA HE Hops _]. rewrite assembleObject_emitted, HE, outcome_bind_ret in HA.
  apply outcome_bind_Ret_inv in HA as ([obj' Errs] & HF & HA). injection HA as -> HN. apply app_eq_nil in HN as [HN ->].
  destruct (emitted_ok _ _ HE HN Hops) as [H1 H2]. auto.
Qed.

(** The code of an instruction at the end of its fragment's older contents. *)
Lemma word_at_code (C c : list Z) (w : Z) : word_at ((C ++ le_bytes 4 w) ++ c) (length C) = u32 w.
Proof.
  rewrite <- app_assoc. rewrite <- (Nat.add_0_r (length C)), word_at_app_mid by (cbn; lia).
  change (word_at (le_bytes 4 w) 0) with (le_combine (le_bytes 4 w)). apply (le_combine_bytes 4).
Qed.

(** ** Properties *)

(** What the operand of a symbolic instruction at address [P] stands for: the value of
    its expression, relative to the place in a branch; for a load from the GOT the
    offset of a slot that holds the address of the symbol. *)
Definition operand_value (img : Image) (σ : string → Z) (P : Z) (F : SymbolicInst) (V : Z) : Prop :=
  match F with
  | SymGot _ _ n => ∃ k : nat, V = 4 * Z.of_nat k ∧ (4 * k + 4 ≤ length (ImageGot img))%nat ∧ word_at (ImageGot img) (4 * k) = u32 (σ n)
  | _ => V = meaning σ (sym_value F) - if pcrel (sym_type F) then P else 0
  end.

(** The word of a symbolic instruction in the image. *)
Lemma symbolic_word (SectionVA : SectionId → Z) (GotVA : Z) (objs : list Object) (img : Image) (f : nat) (st : Streamer) (obj : Object)
    (pre post : list StreamerOp) (Ls : list string) (F : SymbolicInst) (w0 : Z) :
  linked_file SectionVA GotVA objs img f (pre ++ map OpLabel Ls ++ OpInstruction (sym_inst F) :: post) st obj →
  0 ≤ w0 < 2 ^ 32 → known_reloc (sym_type F) = true →
  encodeInstruction formatBinaryCode (sym_inst F) [] []
  = Ret (le_bytes 4 w0, [mkMCFixup 0 (sym_value F) (kind_of_reloc (sym_type F))]) →
  Forall (λ '(b, s), getfield b s w0 = 0) (reloc_fields (sym_type F)) →
  expr_ok (sym_value F) = true → one_or_strong (StSymbols st) (sym_value F) →
  ∃ s off, is_Some (ObjSections obj !! s) ∧
    (∀ L, L ∈ Ls → isWeak (sym (StSymbols st) L) = false →
       u64 (symbol_address objs SectionVA f st L) = u64 (SectionVA (f, s) + Z.of_nat off)) ∧
    (in_memory obj s → ∃ bufs buf V, ImageSections img !! f = Some bufs ∧ bufs !! s = Some buf ∧ (off + 4 ≤ length buf)%nat ∧
       operand_value img (symbol_address objs SectionVA f st) (SectionVA (f, s) + Z.of_nat off) F V ∧
       word_at buf off = u32 (reloc_word (sym_type F) (u64 (i32 V)) w0) ∧ reloc_errors (sym_type F) (u64 (i32 V)) = []).
Proof.
  intros HF Hw0 Hk Henc Hz Hexp H1. destruct (linked_file_facts _ _ _ _ _ _ _ _ HF) as (HN & Hok & Hpend & HFin).
  destruct HF as [HL Hobj _ HE Hops Hsz].
  destruct (Finish_written _ _ _ HFin (proj1 Hok)) as (Offsets & Hlay & Hsyms & Hsecs).
  destruct (instruction_place _ _ _ _ _ HE HN Hops) as (Code & Fx & s & Sec & i & C & Fs & c & fx & HC & HS & HFr & _ & _ & HLs).
  rewrite Henc in HC. injection HC as <- <-. set (fx0 := shiftFixup (length C) (mkMCFixup 0 (sym_value F) (kind_of_reloc (sym_type F)))) in *.
  assert (Hin : fx0 ∈ (Fs ++ map (shiftFixup (length C)) [mkMCFixup 0 (sym_value F) (kind_of_reloc (sym_type F))]) ++ fx)
    by (apply elem_of_app; left; apply elem_of_app; right; left).
  assert (Hoff : fixup_offset fx0 = Z.of_nat (length C)) by (cbn; lia).
  assert (Hword : word_at ((C ++ le_bytes 4 w0) ++ c) (Z.to_nat (fixup_offset fx0)) = w0)
    by (rewrite Hoff, Nat2Z.id, word_at_code; apply uint_small; exact Hw0).
  destruct (Hsecs s Sec HS) as (Obj & HO & HWr). pose proof (Forall_lookup_1 _ _ _ _ Hsz HO) as HszO. cbn in HszO.
  destruct (HWr ltac:(lia)) as (_ & _ & _ & _ & Hb & _). destruct (Hb i _ HFr) as (oj & HLo & Hoj & _).
  exists s, (Z.to_nat (oj + fixup_offset fx0)). split; [eauto |]. split.
  { intros L HLi HW. destruct (HLs L HLi) as [HA HB].
    pose proof (strong_placed_here objs SectionVA GotVA img f st obj Offsets Hobj HL Hok Hpend Hlay Hsyms Hsecs Hsz L _ HW HA) as HP.
    unfold eqm64 in HP. rewrite HP. unfold fragment_address. rewrite HLo, HB, Hoff. cbn [fst]. f_equal. lia. }
  intros HM.
  assert (HIns : ∀ bufs buf, ImageSections img !! f = Some bufs → bufs !! s = Some buf → (Z.to_nat (oj + fixup_offset fx0) + 4 ≤ length buf)%nat).
  { intros bufs buf Hb1 Hb2. pose proof (fragment_inside objs SectionVA GotVA img f st obj Offsets Hobj HL Hsecs Hsz
      s i Sec _ _ oj bufs buf HS HM HFr HLo Hb1 Hb2) as Hend. rewrite !length_app in Hend. cbn [length] in Hend. lia. }
  assert (HG : sym_type F ≠ R_NYUZI_GOT ∨ ∃ r b n, F = SymGot r b n)
    by (destruct F as [[] ? ? | | |]; cbn; first [left; discriminate | right; eauto]).
  destruct HG as [HG | (r & b & n & ->)].
  - destruct (fixup_linked objs SectionVA GotVA img f st obj Offsets Hobj HL Hok Hpend Hlay Hsyms Hsecs Hsz
      s i Sec _ _ fx0 (sym_type F) HS HM HFr Hin eq_refl Hk HG Hexp H1) as (oj' & bufs & buf & HLo' & Hb1 & Hb2 & _ & _ & _ & Hw & HErr).
    { intros HK. exfalso. destruct F as [[] ? ? | | |]; discriminate HK. }
    { change (Forall (λ '(b, n), getfield b n (word_at ((C ++ le_bytes 4 w0) ++ c) (Z.to_nat (fixup_offset fx0))) = 0) (reloc_fields (sym_type F))).
      rewrite Hword. exact Hz. }
    rewrite HLo in HLo'. injection HLo' as <-.
    exists bufs, buf, (meaning (symbol_address objs SectionVA f st) (sym_value F) - if pcrel (sym_type F) then SectionVA (f, s) + (oj + fixup_offset fx0) else 0).
    split; [exact Hb1 |]. split; [exact Hb2 |]. split; [exact (HIns bufs buf Hb1 Hb2) |].
    split; [| split; [etransitivity; [exact Hw | apply f_equal, f_equal; exact Hword] | exact HErr]].
    rewrite Z2Nat.id by lia. destruct F; [reflexivity .. | destruct HG; reflexivity].
  - destruct (got_linked objs SectionVA GotVA img f st obj Offsets Hobj HL Hok Hpend Hlay Hsyms Hsecs Hsz
      s i Sec _ _ fx0 n HS HM HFr Hin eq_refl eq_refl) as (oj' & bufs & buf & k & HLo' & Hb1 & Hb2 & _ & _ & _ & Hw & HErr & Hslot).
    rewrite HLo in HLo'. injection HLo' as <-. exists bufs, buf, (4 * Z.of_nat k).
    split; [exact Hb1 |]. split; [exact Hb2 |]. split; [exact (HIns bufs buf Hb1 Hb2) |].
    split; [| split; [etransitivity; [exact Hw | apply f_equal, f_equal; exact Hword] | exact HErr]].
    exists k. split; [reflexivity | exact Hslot].
Qed.

(** A symbolic instruction in the linked image.  Several files are assembled
    and linked without a message, at any addresses.  The word of an instruction with
    a symbolic operand - a branch, a half of an address, a load from the GOT -
    in a section that is loaded disassembles to the instruction whose operand is the
    value of the expression
    with every symbol at its address, relative to the place of the instruction in a
    branch, or, in a load, the offset of a slot of the GOT that holds the address;
    whether the assembler resolved the operand inside its section or left it to the
    linker.  The labels written before the instruction have its address. *)
Lemma linked_instruction (SectionVA : SectionId → Z) (GotVA : Z) (objs : list Object) (img : Image) (f : nat) (st : Streamer)
    (obj : Object) (pre post : list StreamerOp) (Ls : list string) (F : SymbolicInst) :
  linked_file SectionVA GotVA objs img f (pre ++ map OpLabel Ls ++ OpInstruction (sym_inst F) :: post) st obj →
  sym_ok F = true → expr_ok (sym_value F) = true → one_or_strong (StSymbols st) (sym_value F) →
  ∃ s off, is_Some (ObjSections obj !! s) ∧
    (∀ L, L ∈ Ls → isWeak (sym (StSymbols st) L) = false →
       u64 (symbol_address objs SectionVA f st L) = u64 (SectionVA (f, s) + Z.of_nat off)) ∧
    (in_memory obj s → ∃ bufs buf V, ImageSections img !! f = Some bufs ∧ bufs !! s = Some buf ∧ (off + 4 ≤ length buf)%nat ∧
       operand_value img (symbol_address objs SectionVA f st) (SectionVA (f, s) + Z.of_nat off) F V ∧
       ∀ selectOpcode instr Size Address, selectOpcode (word_at buf off) = Some (Opcode (sym_inst F)) →
         getInstruction selectOpcode None instr Size (le_bytes 4 (word_at buf off)) Address
         = Ret (Success, 4, sym_linked F (u64 (i32 V)))).
Proof.
  intros HF Hsym Hexp H1. destruct (sym_encode F Hsym) as (w0 & Hw0 & Henc & Hz & Hdec).
  assert (Hk : known_reloc (sym_type F) = true) by (destruct F as [[] ? ? | | |]; reflexivity).
  destruct (symbolic_word _ _ _ _ _ _ _ _ _ _ _ w0 HF Hw0 Hk Henc Hz Hexp H1) as (s & off & HObj & HL & HX).
  exists s, off. split; [exact HObj |]. split; [exact HL |]. intros HM. destruct (HX HM) as (bufs & buf & V & Hb1 & Hb2 & Hin & HV & Hw & HE).
  exists bufs, buf, V. split; [exact Hb1 |]. split; [exact Hb2 |]. split; [exact Hin |]. split; [exact HV |].
  intros sel instr Size Address Hsel. destruct (Hdec _ HE (uint_range 64 _ ltac:(lia))) as (MI & Hvalid & Hopc & HB & Hseen).
  rewrite <- Hw in HB. rewrite <- Hopc in Hsel. rewrite <- Hseen. exact (getInstruction_word MI _ Size Address sel instr Hvalid HB Hsel).
Qed.

(** Two files: the first calls [f] of the second, which takes the address of [x] and
    loads it from the GOT; a branch back is resolved in its section. *)
Definition demo_main : list StreamerOp :=
  [OpSection ".text" (SHF_ALLOC + SHF_EXECINSTR); OpAttribute "_start" STB_GLOBAL; OpLabel "_start"; OpLabel ".Lloop";
   OpInstruction (sym_inst (SymBranch Nyuzi.CALLSYM (Nyuzi.S 0) (MCSymbolRefExpr "f")));
   OpInstruction (sym_inst (SymBranch Nyuzi.B (Nyuzi.S 0) (MCSymbolRefExpr ".Lloop")));
   OpSection ".data" (SHF_ALLOC + SHF_WRITE); OpAttribute "x" STB_GLOBAL; OpAlign 4 0 1 0 false; OpLabel "x";
   OpValue (MCBinaryExpr MCBinary.Add (MCSymbolRefExpr "f") (MCConstantExpr 4)) 4].

Definition demo_lib_head : list StreamerOp :=
  [OpSection ".text" (SHF_ALLOC + SHF_EXECINSTR); OpAttribute "f" STB_GLOBAL].

Definition demo_lib_tail : list StreamerOp :=
  [OpInstruction (sym_inst (SymLo (Nyuzi.S 1) (MCSymbolRefExpr "x")));
   OpInstruction (sym_inst (SymGot (Nyuzi.S 2) (Nyuzi.S 26) "x"))].

Definition demo_hi : SymbolicInst := SymHi (Nyuzi.S 1) (MCBinaryExpr MCBinary.Add (MCSymbolRefExpr "x") (MCConstantExpr 4)).

Definition demo_lib : list StreamerOp := demo_lib_head ++ map OpLabel ["f"] ++ OpInstruction (sym_inst demo_hi) :: demo_lib_tail.

Definition object_of (ops : list StreamerOp) : Object :=
  match assembleObject formatBinaryCode ops with Ret (obj, _) => obj | _ => mkObject [] [] end.

Definition state_of (ops : list StreamerOp) : Streamer := match emitted ops with Ret st => st | _ => initStreamer end.

Definition demo_VA (s : SectionId) : Z := 0x100000 * (1 + Z.of_nat s.1) + 0x1000 * Z.of_nat s.2.

Definition demo_image : Image :=
  match link demo_VA 0x8000 [object_of demo_main; object_of demo_lib] with Ret (Some img, _) => img | _ => mkImage [] [] [] end.

Lemma assembled_clean (ops : list StreamerOp) :
  match assembleObject formatBinaryCode ops with Ret (_, []) => true | _ => false end = true →
  assembleObject formatBinaryCode ops = Ret (object_of ops, []) ∧ emitted ops = Ret (state_of ops).
Proof.
  unfold object_of, state_of. rewrite assembleObject_emitted. destruct (emitted ops); try discriminate.
  rewrite outcome_bind_ret. destruct (Finish _ _ ≫= _) as [[obj [|]] | | | |]; try discriminate. auto.
Qed.

Lemma demo_linked : linked_file demo_VA 0x8000 [object_of demo_main; object_of demo_lib] demo_image 1 demo_lib (state_of demo_lib) (object_of demo_lib).
Proof.
  destruct (assembled_clean demo_lib ltac:(vm_compute; reflexivity)) as [HA HE]. split.
  - vm_compute. reflexivity.
  - reflexivity.
  - exact HA.
  - exact HE.
  - repeat constructor; unfold op_ok; (vm_compute; intuition discriminate).
  - apply (bool_decide_unpack _). vm_compute. exact I.
Qed.

Example demo_instruction :
  symbol_address [object_of demo_main; object_of demo_lib] demo_VA 1 (state_of demo_lib) "x" = 0x101000 ∧
  ∃ w, getInstruction (λ _, Some Nyuzi.MOVEHI) None (mkMCInst Nyuzi.B []) 0 (le_bytes 4 w) 0
       = Ret (Success, 4, mkMCInst Nyuzi.MOVEHI [kRegister (Nyuzi.S 1); kImmediate (Z.shiftr 0x101004 13)]).
Proof.
  split; [vm_compute; reflexivity |].
  destruct (linked_instruction _ _ _ _ _ _ _ demo_lib_head demo_lib_tail ["f"%string] demo_hi demo_linked
    ltac:(vm_compute; reflexivity) ltac:(vm_compute; reflexivity))
    as (s & off & [Obj HO] & _ & HX).
  - left. exists "x"%string. intros n Hn. cbn in Hn. apply list_elem_of_singleton in Hn. exact Hn.
  - destruct HX as (bufs & buf & V & _ & _ & _ & HV & Hd).
    { assert (HAl : Forall (λ Obj, sectionAlloc Obj = true) (ObjSections (object_of demo_lib))) by (apply (bool_decide_unpack _); vm_compute; exact I).
      intros Obj'. exact (Forall_lookup_1 _ _ _ _ HAl). }
    exists (word_at buf off). rewrite (Hd _ _ _ _ eq_refl). cbn [operand_value demo_hi] in HV. rewrite HV. vm_compute. reflexivity.
Defined.
