(* ===== verification/NyuziExecutable.v ===== *)
(** * NyuziExecutable: from object files to the program in memory

    The linker as a whole (Driver.cpp, run of Writer.cpp): symbols and relocations are
    scanned, input sections become output sections, those are sorted and laid out, the
    sections are relocated for the addresses of the layout, and the file is written.
    A symbolic instruction of an assembly file is then looked for where a loader puts
    it.  Sections the linker makes itself other than the GOT (symbol and string tables,
    comments) are given with their contents. *)
From S2P Require Import Prelude MathExtras NyuziTarget NyuziFormats NyuziEmitter NyuziFixups NyuziLinker WordPatches.
From S2P Require Import NyuziDisassembler NyuziCodec NyuziPipeline MCExpressions MCAssembler MCStreamer LldLink NyuziObject Elf2Hex LldLayout LldWriter LldSections.

(** ** Input sections *)

(** A section the linker makes itself; [SynEmpty] is the answer of [empty]. *)
Record Synthetic : Type := mkSynthetic {
  SynName : string;
  SynType : Z;
  SynFlags : Z;
  SynEntsize : Z;
  SynAlignment : Z;
  SynData : list Z;
  SynEmpty : bool
}.

(** Those before and after the GOT. *)
Record Synthetics : Type := mkSynthetics { BeforeGot : list Synthetic; AfterGot : list Synthetic }.

(** The sections of all files, in order; [Names] has the names of the files. *)
Definition fileSections (objs : list Object) : list (SectionId * ObjSection) :=
  concat (imap (λ f obj, imap (λ s Sec, ((f, s), Sec)) (ObjSections obj)) objs).

(** [createInputSection] makes an ordinary section of each section but those with one
    of these names, which it leaves out or treats specially. *)
Definition ordinary (Name : string) : bool :=
  negb (bool_decide (Name ∈ [".note.GNU-stack"; ".note.GNU-split-stack"; ".eh_frame"]%string) || String.prefix ".gnu.linkonce." Name).

(** The sections of the object files of MCAssembler.v hold bytes and have no entry
    size: [SHT_PROGBITS], which [shouldMerge] never merges.  Files with sections
    without contents, or with entries to merge, are not represented. *)
Fixpoint makeInputs (Names : nat → string) (i : nat) (l : list (SectionId * ObjSection)) : outcome (list Input) :=
  match l with
  | [] => Ret []
  | ((f, _), Sec) :: l =>
      InputSectionBase i (Names f) (ObjName Sec) SHT_PROGBITS (ObjFlags Sec) 0 (ObjAlignment Sec) (Z.of_nat (length (ObjData Sec))) ≫= λ IS,
      makeInputs Names (S i) l ≫= λ rest,
      Ret (IS :: rest)
  end.

(** [GotSection]: the constructor, [finalizeContents] and [empty]; no file of the link
    refers to [_GLOBAL_OFFSET_TABLE_]. *)
Definition GotSection (i : nat) (Got : GotEntries) : Input :=
  mkInput "" ".got" SHT_PROGBITS (Z.lor SHF_ALLOC SHF_WRITE) 0 true (match Got with [] => true | _ => false end)
    (mkInputSection i (Z.of_nat (length Got) * GotEntrySize Nyuzi_TargetInfo) (GotEntrySize Nyuzi_TargetInfo)).

Definition synthInputs (i : nat) (Synth : list Synthetic) : list Input :=
  imap (λ k S, mkInput "" (SynName S) (SynType S) (SynFlags S) (SynEntsize S) false (SynEmpty S)
                 (mkInputSection (i + k) (Z.of_nat (length (SynData S))) (SynAlignment S))) Synth.

(** [InputSections]: those of the files ([LinkerDriver::link]), then those made by the
    linker ([createSyntheticSections]). *)
Definition allInputs (Ins : list Input) (Got : GotEntries) (Synth : Synthetics) : list Input :=
  let Ins := Ins ++ synthInputs (length Ins) (BeforeGot Synth) in
  let Ins := Ins ++ [GotSection (length Ins) Got] in
  Ins ++ synthInputs (length Ins) (AfterGot Synth).

(** The bytes of the input sections, relocated. *)
Definition fileContents (objs : list Object) (img : Image) : list (list Z) :=
  map (λ '((f, s), _), default [] (ImageSections img !! f ≫= λ bufs, bufs !! s)) (fileSections objs).

Definition inputContents (objs : list Object) (img : Image) (Synth : Synthetics) : list (list Z) :=
  fileContents objs img ++ map SynData (BeforeGot Synth) ++ [ImageGot img] ++ map SynData (AfterGot Synth).

(** ** The link *)

(** What is known before the sections are relocated. *)
Record Plan : Type := mkPlan {
  PlanScan : Scan;
  PlanInputs : list Input;
  PlanSections : list OutputSection;
  PlanLayout : Layout
}.

(** The name, link and info of a section header, which the tables decide. *)
Definition setHeader (Headers : string → Z * Z * Z) (Sec : OutputSection) : OutputSection :=
  let '(ShName, Link, Info) := Headers (OSName Sec) in
  let '(_, _, _, Entsize) := OSHeader Sec in
  mkOutputSection (OSName Sec) (OSType Sec) (OSFlags Sec) (OSAlignment Sec) (OSIsGot Sec) (OSInputs Sec) (ShName, Link, Info, Entsize).

(** [Writer::run] up to the opening of the file; the messages of the first part that
    has some. *)
Definition planLink (Names : nat → string) (objs : list Object) (Synth : Synthetics) (Headers : string → Z * Z * Z) : outcome (option Plan * list string) :=
  makeInputs Names 0 (fileSections objs) ≫= λ Ins,
  scanLink objs ≫= λ '(Sc, Errs),
  match Sc with
  | None => Ret (None, Errs)
  | Some Sc =>
      let Inputs := allInputs Ins (ScanGot Sc) Synth in
      let '(V, Errs) := addOrphanSections Inputs in
      match Errs with
      | _ :: _ => Ret (None, Errs)
      | [] =>
          let V := adjustSectionsBeforeSorting (removeUnusedSyntheticSections Inputs V) in
          let Outs := sortSections (map (λ Sec, setHeader Headers (sortSection Inputs Sec)) V) in
          layoutFile Outs ≫= λ '(L, Errs),
          Ret (match Errs with _ :: _ => None | [] => Some (mkPlan Sc Inputs Outs L) end, Errs)
      end
  end.

(** [SectionBase::getVA] of input section [k]: found by its output section. *)
Definition inputAddress (Outs : list OutputSection) (L : Layout) (k : nat) : option Z :=
  '(i, Sec) ← list_find (λ Sec, k ∈ map ISIndex (OSInputs Sec)) Outs;
  '(j, _) ← list_find (λ IS, ISIndex IS = k) (OSInputs Sec);
  inputVA L i j.

Definition planVA (objs : list Object) (P : Plan) (s : SectionId) : Z :=
  default 0 (list_find (λ x, x.1 = s) (fileSections objs) ≫= λ '(k, _), inputAddress (PlanSections P) (PlanLayout P) k).

Definition planGotVA (objs : list Object) (Synth : Synthetics) (P : Plan) : Z :=
  default 0 (inputAddress (PlanSections P) (PlanLayout P) (length (fileSections objs) + length (BeforeGot Synth))).

(** [getEntryAddr] for the entry symbol [_start], which is not a number. *)
Definition getEntryAddr (objs : list Object) (P : Plan) : Z :=
  match ScanSymtab (PlanScan P) !! "_start"%string with
  | Some _ => LldLink.getVA objs (ScanSymtab (PlanScan P)) (planVA objs P) (GlobalSym "_start") 0
  | None =>
      match list_find (λ Sec, OSName Sec = ".text"%string) (PlanSections P) with
      | Some (i, _) => default 0 (PlAddr <$> LaySections (PlanLayout P) !! (2 + i)%nat)
      | None => 0
      end
  end.

(** The contents of the output sections. *)
Definition outputContents (objs : list Object) (Synth : Synthetics) (P : Plan) (img : Image) : list (list (list Z)) :=
  map (λ Sec, map (λ IS, default [] (inputContents objs img Synth !! ISIndex IS)) (OSInputs Sec)) (PlanSections P).

(** The rest of [Writer::run]; [relocateAlloc] reports while sections are written, and
    the file is not kept then. *)
Definition finishLink (C : Config) (objs : list Object) (Synth : Synthetics) (P : Plan) : outcome (option (list Z) * list string) :=
  applyLink (planVA objs P) (planGotVA objs Synth P) objs (PlanScan P) ≫= λ '(img, Errs),
  writeFile C (PlanSections P) (PlanLayout P) (getEntryAddr objs P) (outputContents objs Synth P img) ≫= λ file,
  Ret (match Errs with _ :: _ => None | [] => Some file end, Errs).

(** [LinkerDriver::link] and [Writer::run] *)
Definition linkProgram (C : Config) (Names : nat → string) (objs : list Object) (Synth : Synthetics) (Headers : string → Z * Z * Z)
    : outcome (option (list Z) * list string) :=
  planLink Names objs Synth Headers ≫= λ '(P, Errs),
  match P with None => Ret (None, Errs) | Some P => finishLink C objs Synth P end.


(** ** The place of an input section *)
Lemma elem_of_fileSections (objs : list Object) (f s : nat) (Sec : ObjSection) :
  ((f, s), Sec) ∈ fileSections objs ↔ ∃ obj, objs !! f = Some obj ∧ ObjSections obj !! s = Some Sec.
Proof.
  unfold fileSections. rewrite list_elem_of_In, in_concat. split.
  - intros (l & Hl & Hin). apply list_elem_of_In, elem_of_lookup_imap in Hl as (f' & obj & -> & Ho).
    apply list_elem_of_In, elem_of_lookup_imap in Hin as (s' & Sec' & E & HS). injection E as <- <- <-. eauto.
  - intros (obj & Ho & HS). exists (imap (λ s Sec, ((f, s), Sec)) (ObjSections obj)). split.
    + apply list_elem_of_In, elem_of_lookup_imap. eauto.
    + apply list_elem_of_In, elem_of_lookup_imap. eauto.
Qed.

Lemma fileSections_find (objs : list Object) (f s : nat) (obj : Object) (Sec : ObjSection) :
  objs !! f = Some obj → ObjSections obj !! s = Some Sec →
  ∃ k, list_find (λ x : SectionId * ObjSection, x.1 = (f, s)) (fileSections objs) = Some (k, ((f, s), Sec)) ∧ fileSections objs !! k = Some ((f, s), Sec).
Proof.
  intros Ho HS. assert (Hin : ((f, s), Sec) ∈ fileSections objs) by (apply elem_of_fileSections; eauto).
  destruct (list_find_elem_of (λ x : SectionId * ObjSection, x.1 = (f, s)) _ _ Hin eq_refl) as ([k [id Sec']] & Hf).
  pose proof Hf as Hf'. apply list_find_Some in Hf' as (Hk & E & _). cbn in E. subst id.
  assert (Sec' = Sec) as ->.
  { apply list_elem_of_lookup_2, elem_of_fileSections in Hk as (obj' & Ho' & HS'). congruence. }
  exists k. auto.
Qed.

(** Input sections know their place, and the sizes are those of the contents. *)
Definition indexed (Inputs : list Input) : Prop := ∀ k IS, Inputs !! k = Some IS → ISIndex (InSection IS) = k.

Lemma makeInputs_spec (Names : nat → string) (l : list (SectionId * ObjSection)) (i : nat) (Ins : list Input) :
  makeInputs Names i l = Ret Ins → length Ins = length l ∧
  ∀ k IS, Ins !! k = Some IS → ∃ id Sec, l !! k = Some (id, Sec) ∧ ISIndex (InSection IS) = (i + k)%nat ∧
    ISSize (InSection IS) = Z.of_nat (length (ObjData Sec)) ∧ InFlags IS = getFlags (ObjFlags Sec) ∧ InType IS = getType SHT_PROGBITS (ObjName Sec) ∧
    InEmpty IS = false ∧ InName IS = ObjName Sec ∧ isPowerOf2_64 (ISAlignment (InSection IS)) = true ∧ 0 ≤ ISAlignment (InSection IS) < 2 ^ 32.
Proof.
  revert i Ins. induction l as [| [[f s] Sec] l IH]; intros i Ins H; cbn [makeInputs] in H; [injection H as <-; split; [reflexivity | discriminate] |].
  apply outcome_bind_Ret_inv in H as (IS & HI & H). apply outcome_bind_Ret_inv in H as (rest & HR & H). injection H as <-.
  destruct (IH _ _ HR) as [HL HK]. split; [cbn; f_equal; exact HL |]. intros [| k] IS' Hk.
  - injection Hk as <-. exists (f, s), Sec. split; [reflexivity |]. unfold InputSectionBase in HI. cbv zeta in HI.
    destruct (isPowerOf2_64 (Z.max (u32 (ObjAlignment Sec)) 1)) eqn:EP; cbn [negb] in HI; [| discriminate HI]. injection HI as <-.
    cbn [InSection ISIndex ISSize InFlags InType InName InEmpty ISAlignment]. rewrite Nat.add_0_r. repeat split; try exact EP; [lia |].
    pose proof (uint_range 32 (ObjAlignment Sec) ltac:(lia)). lia.
  - destruct (HK k IS' Hk) as (id' & Sec' & H1 & H2 & H3). exists id', Sec'. split; [exact H1 |]. rewrite H2, <- Nat.add_succ_comm. auto.
Qed.

Lemma synthInputs_indexed (i k : nat) (Synth : list Synthetic) (IS : Input) : synthInputs i Synth !! k = Some IS → ISIndex (InSection IS) = (i + k)%nat.
Proof. unfold synthInputs. rewrite list_lookup_imap. intros H. destruct (Synth !! _); [| discriminate]. injection H as <-. reflexivity. Qed.

Lemma allInputs_indexed (Names : nat → string) (l : list (SectionId * ObjSection)) (Ins : list Input) (Got : GotEntries) (Synth : Synthetics) :
  makeInputs Names 0 l = Ret Ins → indexed (allInputs Ins Got Synth).
Proof.
  intros H k IS Hk. destruct (makeInputs_spec _ _ _ _ H) as [HL HK]. unfold allInputs in Hk. cbv zeta in Hk.
  apply lookup_app_Some in Hk as [Hk | [Hge Hk]]; [| apply synthInputs_indexed in Hk; lia].
  apply lookup_app_Some in Hk as [Hk | [Hge Hk]]; [| apply list_lookup_singleton_Some in Hk as [Hk <-]; cbn [GotSection InSection ISIndex]; lia].
  apply lookup_app_Some in Hk as [Hk | [Hge Hk]]; [| apply synthInputs_indexed in Hk; lia].
  destruct (HK k IS Hk) as (_ & _ & _ & H1 & _). exact H1.
Qed.

Lemma elem_of_named (n : string) (Inputs : list Input) (IS : Input) : IS ∈ named n Inputs ↔ IS ∈ Inputs ∧ getOutputSectionName IS = n.
Proof. unfold named. rewrite !list_elem_of_In, List.filter_In, String.eqb_eq. reflexivity. Qed.

(** ** Output sections of the plan *)

(** The members that stay. *)
Definition used (Members : list Input) : list Input := List.filter (λ IS, negb (InEmpty IS)) Members.

Lemma elem_of_used (Members : list Input) (IS : Input) : IS ∈ used Members ↔ IS ∈ Members ∧ InEmpty IS = false.
Proof. unfold used. rewrite !list_elem_of_In, List.filter_In, negb_true_iff. reflexivity. Qed.

(** What the output sections are to the input sections. *)
Record output_of (Inputs : list Input) (Sec : OutputSection) : Prop := {
  output_members : named (OSName Sec) Inputs ≠ [];
  output_inputs : OSInputs Sec ≡ₚ map InSection (used (named (OSName Sec) Inputs));
  output_type : OSType Sec = merged_type (named (OSName Sec) Inputs);
  output_flags : OSFlags Sec = foldr Z.lor 0 (map InFlags (named (OSName Sec) Inputs));
  output_alignment : OSAlignment Sec = foldr Z.max 1 (map (λ IS, ISAlignment (InSection IS)) (named (OSName Sec) Inputs))
}.

Record collected (Inputs : list Input) (Outs : list OutputSection) : Prop := {
  collected_outputs : ∀ Sec, Sec ∈ Outs → output_of Inputs Sec;
  collected_all : ∀ IS, IS ∈ Inputs → InEmpty IS = false → ∃ Sec, Sec ∈ Outs ∧ OSName Sec = getOutputSectionName IS
}.

(** An output section on its way to the layout. *)
Definition finished (H : string → Z * Z * Z) (Inputs : list Input) (Sec : OutputSection) : OutputSection := setHeader H (sortSection Inputs Sec).

Lemma finished_fields (H : string → Z * Z * Z) (Inputs : list Input) (Sec : OutputSection) :
  OSName (finished H Inputs Sec) = OSName Sec ∧ OSType (finished H Inputs Sec) = OSType Sec ∧ OSFlags (finished H Inputs Sec) = OSFlags Sec ∧
  OSAlignment (finished H Inputs Sec) = OSAlignment Sec ∧ OSInputs (finished H Inputs Sec) ≡ₚ OSInputs Sec.
Proof.
  unfold finished, setHeader. destruct (H _) as [[? ?] ?], (OSHeader _) as [[[? ?] ?] ?]. cbn [OSName OSType OSFlags OSAlignment OSInputs].
  do 4 (split; [reflexivity |]). apply sortSection_perm.
Qed.

Definition unused (Inputs : list Input) (k : nat) : bool := match Inputs !! k with Some IS => InEmpty IS | None => false end.

Lemma remove_used (Inputs Members : list Input) :
  indexed Inputs → (∀ IS, IS ∈ Members → IS ∈ Inputs) →
  List.filter (λ IS, negb (unused Inputs (ISIndex IS))) (map InSection Members) = map InSection (used Members).
Proof.
  intros HI. induction Members as [| IS l IH]; intros HM; [reflexivity |]. cbn [map List.filter used].
  rewrite IH by (intros X HX; apply HM, elem_of_cons; auto).
  assert (E : unused Inputs (ISIndex (InSection IS)) = InEmpty IS).
  { destruct (proj1 (list_elem_of_lookup _ _) (HM IS ltac:(left))) as [k Hk]. unfold unused. rewrite (HI k IS Hk), Hk. reflexivity. }
  rewrite E. destruct (InEmpty IS); reflexivity.
Qed.

Lemma grouped_output (Inputs : list Input) (V : list OutputSection) (H : string → Z * Z * Z) (Sec : OutputSection) :
  grouped Inputs V → indexed Inputs → Sec ∈ V → output_of Inputs (finished H Inputs (removeInputs (unused Inputs) Sec)).
Proof.
  intros [_ HM] HI HSec. destruct (HM Sec HSec) as [M1 M2 M3 M4 M5 _].
  destruct (finished_fields H Inputs (removeInputs (unused Inputs) Sec)) as (E1 & E2 & E3 & E4 & E5). cbn [removeInputs OSName OSType OSFlags OSAlignment OSInputs] in *.
  split; rewrite ?E1, ?E2, ?E3, ?E4, ?E5; [exact M1 | | exact M3 | exact M4 | exact M5].
  rewrite M2, remove_used; [reflexivity | exact HI |]. intros IS HIS. apply elem_of_named in HIS. apply HIS.
Qed.

Lemma sections_collected (Inputs : list Input) (V : list OutputSection) (H : string → Z * Z * Z) :
  grouped Inputs V → indexed Inputs →
  collected Inputs (sortSections (map (finished H Inputs) (adjustSectionsBeforeSorting (removeUnusedSyntheticSections Inputs V)))).
Proof.
  intros HG HI. assert (Hin : ∀ Sec, Sec ∈ sortSections (map (finished H Inputs) (adjustSectionsBeforeSorting (removeUnusedSyntheticSections Inputs V))) ↔
    ∃ Sec0, Sec0 ∈ V ∧ Sec = finished H Inputs (removeInputs (unused Inputs) Sec0) ∧ OSInputs (removeInputs (unused Inputs) Sec0) ≠ []).
  { intros Sec. rewrite sortSections_perm, list_elem_of_fmap. unfold adjustSectionsBeforeSorting, removeUnusedSyntheticSections.
    change (λ k : nat, match Inputs !! k with Some IS => InEmpty IS | None => false end) with (unused Inputs). split.
    - intros (S1 & -> & H1). apply list_elem_of_In, List.filter_In in H1 as [H1 H2]. apply list_elem_of_In, list_elem_of_fmap in H1 as (Sec0 & -> & H0).
      exists Sec0. split; [exact H0 |]. split; [reflexivity |]. intros E. rewrite E in H2. discriminate H2.
    - intros (Sec0 & H0 & -> & HN). exists (removeInputs (unused Inputs) Sec0). split; [reflexivity |].
      apply list_elem_of_In, List.filter_In. split; [apply list_elem_of_In, list_elem_of_fmap; eauto |]. destruct (OSInputs _); [contradiction | reflexivity]. }
  split.
  - intros Sec HSec. apply Hin in HSec as (Sec0 & H0 & -> & _). exact (grouped_output _ _ _ _ HG HI H0).
  - intros IS HIS HE. assert (Hn : getOutputSectionName IS ∈ map OSName V).
    { rewrite (grouped_names _ _ HG), elem_of_first_names. split; [apply list_elem_of_fmap; eauto | apply not_elem_of_nil]. }
    apply list_elem_of_fmap in Hn as (Sec0 & E & H0). exists (finished H Inputs (removeInputs (unused Inputs) Sec0)).
    pose proof (grouped_output _ _ H _ HG HI H0) as HO. destruct (finished_fields H Inputs (removeInputs (unused Inputs) Sec0)) as (E1 & _ & _ & _ & E5).
    split; [| rewrite E1; symmetry; exact E]. apply Hin. exists Sec0. split; [exact H0 |]. split; [reflexivity |]. intros E0.
    rewrite E0, (output_inputs _ _ HO), E1 in E5. cbn [removeInputs OSName] in E5. apply Permutation_nil_r, map_eq_nil in E5.
    assert (Hc : IS ∈ used (named (OSName Sec0) Inputs)) by (apply elem_of_used; split; [apply elem_of_named; split; [exact HIS | exact E] | exact HE]).
    rewrite E5 in Hc. apply elem_of_nil in Hc as [].
Qed.

Lemma flags_none (l : list Z) (b : Z) : Forall (λ x, has_flag x b = false) l → has_flag (foldr Z.lor 0 l) b = false.
Proof.
  unfold has_flag. induction 1 as [| x l Hx H IH]; cbn [foldr]; [reflexivity |]. apply negb_false_iff, Z.eqb_eq in Hx, IH.
  apply negb_false_iff, Z.eqb_eq. rewrite Z.land_lor_distr_l, Hx, IH. reflexivity.
Qed.

Lemma flags_some (l : list Z) (x b : Z) : x ∈ l → has_flag x b = true → has_flag (foldr Z.lor 0 l) b = true.
Proof.
  unfold has_flag. intros Hin Hx. apply negb_true_iff, Z.eqb_neq in Hx. apply negb_true_iff, Z.eqb_neq.
  induction l as [| y l IH]; [apply elem_of_nil in Hin as [] |]. cbn [foldr]. rewrite Z.land_lor_distr_l. intros E.
  apply Z.lor_eq_0_iff in E as [E1 E2]. apply elem_of_cons in Hin as [-> | Hin]; [exact (Hx E1) | exact (IH Hin E2)].
Qed.

(** An input section is found at a place of an output section, which is loaded and in the
    file when the input section is. *)
Lemma inputAddress_found (Inputs : list Input) (Outs : list OutputSection) (L : Layout) (k : nat) (IS : Input) (Phdrs : list PhdrEntry) (n : nat) (Off : Z) :
  collected Inputs Outs → indexed Inputs → Inputs !! k = Some IS → InEmpty IS = false → layout_ok Outs Phdrs n Off L →
  ∃ i j Sec a, inputAddress Outs L k = Some a ∧ Outs !! i = Some Sec ∧ OSInputs Sec !! j = Some (InSection IS) ∧ inputVA L i j = Some a ∧
    (has_flag (InFlags IS) SHF_ALLOC = true → isAlloc Sec = true) ∧ (InType IS ≠ SHT_NOBITS → OSType Sec ≠ SHT_NOBITS).
Proof.
  intros [HM HC] HI Hk HEm HLo. assert (HIn : IS ∈ Inputs) by (eapply list_elem_of_lookup_2, Hk).
  destruct (HC IS HIn HEm) as (S0 & HS0 & HN0). assert (HP0 : k ∈ map ISIndex (OSInputs S0)).
  { rewrite (output_inputs _ _ (HM S0 HS0)), <- list_fmap_compose. apply list_elem_of_fmap. exists IS. split; [symmetry; exact (HI k IS Hk) |].
    apply elem_of_used. split; [apply elem_of_named; split; [exact HIn | symmetry; exact HN0] | exact HEm]. }
  destruct (list_find_elem_of (λ Sec, k ∈ map ISIndex (OSInputs Sec)) Outs S0 HS0 HP0) as ([i Sec] & Hf).
  pose proof Hf as Hf'. apply list_find_Some in Hf' as (Hi & Hkin & _).
  apply list_elem_of_fmap in Hkin as (IS1 & E1 & HIS1). symmetry in E1.
  destruct (list_find_elem_of (λ IS, ISIndex IS = k) (OSInputs Sec) IS1 HIS1 E1) as ([j IS2] & Hg).
  pose proof Hg as Hg'. apply list_find_Some in Hg' as (Hj & E2 & _).
  pose proof (HM Sec ltac:(eapply list_elem_of_lookup_2, Hi)) as HMS.
  assert (HX : ∃ X, X ∈ named (OSName Sec) Inputs ∧ IS2 = InSection X).
  { apply list_elem_of_lookup_2 in Hj. rewrite (output_inputs _ _ HMS) in Hj. apply list_elem_of_fmap in Hj as (X & -> & HX).
    apply elem_of_used in HX as [HX _]. eauto. }
  destruct HX as (X & HX & ->). pose proof HX as HX'. apply elem_of_named in HX' as [HXI _]. apply list_elem_of_lookup in HXI as (p & Hp).
  assert (X = IS) as -> by (pose proof (HI p X Hp); congruence).
  destruct (layout_placed _ _ _ _ _ i Sec HLo Hi) as [HPl Hlt].
  assert (HO : ∃ o, PlInOffs (sec (LaySections L) (2 + i)) !! j = Some o).
  { pose proof (placed_inputs _ _ HPl) as HPi. clear -HPi Hj. revert j Hj HPi. generalize 0 at 1 as lo. generalize (PlInOffs (sec (LaySections L) (2 + i))) as Offs.
    induction (OSInputs Sec) as [| I l IH]; intros [| o Offs] lo [| j] Hj HPi; try discriminate; try contradiction; [cbn; eauto |].
    destruct HPi as (_ & _ & HPi). exact (IH Offs _ j Hj HPi). }
  destruct HO as (o & HO). assert (Ha : inputVA L i j = Some (PlAddr (sec (LaySections L) (2 + i)) + o)).
  { unfold inputVA. rewrite (sec_lookup (LaySections L) _ Hlt). cbn. cbn in HO. rewrite HO. reflexivity. }
  exists i, j, Sec, (PlAddr (sec (LaySections L) (2 + i)) + o). split; [| split; [exact Hi | split; [exact Hj | split; [exact Ha | split]]]].
  - unfold inputAddress. rewrite Hf. cbn [mbind option_bind]. rewrite Hg. exact Ha.
  - intros HF. unfold isAlloc. rewrite (output_flags _ _ HMS). exact (flags_some _ _ _ (list_elem_of_fmap_2 InFlags _ _ HX) HF).
  - intros HT. rewrite (output_type _ _ HMS). destruct (merged_type_cases _ (output_members _ _ HMS)) as [Hall | [-> _]]; [| discriminate].
    rewrite <- (Hall _ HX). exact HT.
Qed.

(** ** Sections of the plan are as a linker gets them *)
Lemma isPowerOf2_64_pow2 (V : Z) : 0 ≤ V < 2 ^ 32 → isPowerOf2_64 V = true → pow2 V.
Proof.
  intros HV H. unfold isPowerOf2_64 in H. apply andb_true_iff in H as [H1 H2]. apply negb_true_iff, Z.eqb_neq in H1. apply Z.eqb_eq in H2.
  rewrite uint_small in H2 by lia. pose proof (Z.log2_spec V ltac:(lia)) as HL. pose proof (Z.log2_nonneg V).
  assert (Hk : Z.log2 V < 32) by (apply Z.log2_lt_pow2; lia). exists (Z.log2 V). split; [lia |].
  destruct (Z.eq_dec V (2 ^ Z.log2 V)) as [E | E]; [exact E | exfalso].
  assert (Hl : Z.log2 (V - 1) = Z.log2 V) by (apply Z.log2_unique; lia).
  assert (Hb : Z.testbit (Z.land V (V - 1)) (Z.log2 V) = true).
  { rewrite Z.land_spec, Z.bit_log2 by lia. rewrite <- Hl at 1. apply Z.bit_log2. assert (0 < 2 ^ Z.log2 V) by (apply Z.pow_pos_nonneg; lia). lia. }
  rewrite H2, Z.bits_0 in Hb. discriminate Hb.
Qed.

(** What is asked of the sections: ordinary names, no thread-local data, no interpreter,
    sizes and alignments that add up to less than the address space, and something to
    load. *)
Record plan_fits (objs : list Object) (Synth : Synthetics) (P : Plan) : Prop := {
  fits_ordinary : Forall (λ x, ordinary (ObjName x.2) = true) (fileSections objs);
  fits_synthetic : Forall (λ S, pow2 (SynAlignment S)) (BeforeGot Synth ++ AfterGot Synth);
  fits_weight : weight (map InSection (PlanInputs P)) < 2 ^ 32;
  fits_no_tls : Forall (λ IS, has_flag (InFlags IS) SHF_TLS = false) (PlanInputs P);
  fits_name : Forall (λ IS, InName IS ≠ ".interp"%string) (PlanInputs P);
  fits_loaded : Exists (λ Sec, isAlloc Sec = true) (PlanSections P);
  fits_sections : Z.of_nat (length (PlanSections P)) < 2 ^ 14
}.

Lemma synthInputs_ok (i : nat) (Synth : list Synthetic) :
  Forall (λ S, pow2 (SynAlignment S)) Synth → Forall (λ IS, input_ok (InSection IS)) (synthInputs i Synth).
Proof.
  intros HS. unfold synthInputs. apply Forall_lookup_2. intros k IS Hk. rewrite list_lookup_imap in Hk. destruct (Synth !! k) as [S |] eqn:ES; [| discriminate].
  injection Hk as <-. split; [cbn; lia | exact (Forall_lookup_1 _ _ _ _ HS ES)].
Qed.

Lemma allInputs_ok (Names : nat → string) (objs : list Object) (Ins : list Input) (Got : GotEntries) (Synth : Synthetics) :
  makeInputs Names 0 (fileSections objs) = Ret Ins → Forall (λ S, pow2 (SynAlignment S)) (BeforeGot Synth ++ AfterGot Synth) →
  Forall input_ok (map InSection (allInputs Ins Got Synth)).
Proof.
  intros HI HS. apply Forall_app in HS as [HSB HSA]. destruct (makeInputs_spec _ _ _ _ HI) as [_ HK]. apply Forall_map. unfold allInputs. cbv zeta.
  apply Forall_app. split; [apply Forall_app; split; [apply Forall_app; split |] |].
  - apply Forall_lookup_2. intros k IS Hk. destruct (HK k IS Hk) as (id & Sec & _ & _ & HSz & _ & _ & _ & _ & HP & HR).
    split; [lia | exact (isPowerOf2_64_pow2 _ HR HP)].
  - apply synthInputs_ok, HSB.
  - apply Forall_singleton. split; cbn [GotSection InSection ISSize ISAlignment].
    + change (GotEntrySize Nyuzi_TargetInfo) with 4. lia.
    + change (GotEntrySize Nyuzi_TargetInfo) with (2 ^ 2). exists 2. lia.
  - apply synthInputs_ok, HSA.
Qed.

Lemma weight_filter (p : Input → bool) (l : list Input) :
  Forall input_ok (map InSection l) → weight (map InSection (List.filter p l)) ≤ weight (map InSection l).
Proof.
  induction l as [| IS l IH]; intros H; [reflexivity |]. cbn [map] in H. apply Forall_cons in H as [[H1 H2] H]. apply pow2_bounds in H2. specialize (IH H).
  change (weight (map InSection (IS :: l))) with (ISSize (InSection IS) + ISAlignment (InSection IS) + weight (map InSection l)).
  cbn [List.filter]. destruct (p IS); [| lia].
  change (weight (map InSection (IS :: List.filter p l))) with (ISSize (InSection IS) + ISAlignment (InSection IS) + weight (map InSection (List.filter p l))). lia.
Qed.

Lemma weight_perm (l l' : list InputSection) : l ≡ₚ l' → weight l = weight l'.
Proof.
  induction 1 as [| IS l l' H IH | IS IS' l | l l' l'' H1 IH1 H2 IH2]; unfold weight in *; cbn [foldr]; [reflexivity | rewrite IH; reflexivity | lia | congruence].
Qed.

Lemma input_size_bound (l : list Input) (IS : Input) :
  Forall input_ok (map InSection l) → IS ∈ l → ISSize (InSection IS) < weight (map InSection l).
Proof.
  intros H. induction l as [| I l IH]; intros HI; [apply elem_of_nil in HI as [] |]. cbn [map] in H. apply Forall_cons in H as [[H1 H2] H].
  pose proof (weight_nonneg _ H). apply pow2_bounds in H2.
  change (weight (map InSection (I :: l))) with (ISSize (InSection I) + ISAlignment (InSection I) + weight (map InSection l)).
  apply elem_of_cons in HI as [-> | HI]; [lia |]. specialize (IH H HI). lia.
Qed.

Lemma prefixOf_elem (Prefixes : list string) (n p : string) :
  prefixOf Prefixes n = Some p → p ∈ map (λ V, String.substring 0 (String.length V - 1) V) Prefixes.
Proof.
  induction Prefixes as [| V l IH]; [discriminate |]. cbn [prefixOf map]. destruct (_ || _); intros H; [injection H as <-; apply elem_of_cons; auto |].
  apply elem_of_cons. right. exact (IH H).
Qed.

Lemma output_not_interp (IS : Input) : InName IS ≠ ".interp"%string → getOutputSectionName IS ≠ ".interp"%string.
Proof.
  intros H. unfold getOutputSectionName. destruct (prefixOf OutputPrefixes (InName IS)) as [p |] eqn:E.
  - apply prefixOf_elem in E. intros ->. revert E. apply (bool_decide_unpack _). vm_compute. exact I.
  - destruct (String.eqb _ _); [discriminate | exact H].
Qed.

Lemma collected_ok (Inputs : list Input) (Outs : list OutputSection) :
  collected Inputs Outs → Forall input_ok (map InSection Inputs) → weight (map InSection Inputs) < 2 ^ 40 →
  Forall (λ IS, has_flag (InFlags IS) SHF_TLS = false) Inputs → Forall (λ IS, InName IS ≠ ".interp"%string) Inputs → Forall section_ok Outs.
Proof.
  intros [HM _] HI HW HT HN. apply Forall_forall. intros Sec HSec. pose proof (HM Sec HSec) as H.
  assert (HF : ∀ Q : Input → Prop, Forall Q Inputs → Forall Q (named (OSName Sec) Inputs)).
  { intros Q HQ. apply Forall_forall. intros IS HIn. apply elem_of_named in HIn as [HIn _]. exact (proj1 (Forall_forall _ _) HQ IS HIn). }
  assert (HFI : Forall input_ok (map InSection (named (OSName Sec) Inputs))) by (apply Forall_map, HF, Forall_map; exact HI).
  split.
  - rewrite (output_inputs _ _ H). apply Forall_map, Forall_forall. intros IS HIS. apply elem_of_used in HIS as [HIS _].
    apply (proj1 (Forall_map _ _ _)) in HFI. exact (proj1 (Forall_forall _ _) HFI IS HIS).
  - rewrite (output_alignment _ _ H). apply pow2_foldr; [exact pow2_1 |]. apply Forall_map. apply (proj1 (Forall_map _ _ _)) in HFI.
    eapply Forall_impl; [exact HFI |]. intros IS [_ HA]. exact HA.
  - rewrite (weight_perm _ _ (output_inputs _ _ H)). unfold used. pose proof (weight_filter (λ IS, negb (InEmpty IS)) _ HFI).
    pose proof (weight_filter (λ IS, String.eqb (getOutputSectionName IS) (OSName Sec)) Inputs HI). fold (named (OSName Sec) Inputs) in *. lia.
  - rewrite (output_flags _ _ H). apply flags_none, Forall_map, HF, HT.
  - destruct (named (OSName Sec) Inputs) as [| IS l] eqn:E; [destruct (output_members _ _ H); exact E |].
    assert (HIn : IS ∈ named (OSName Sec) Inputs) by (rewrite E; left). pose proof HIn as HIn'. apply elem_of_named in HIn' as [HIn' <-].
    apply output_not_interp. exact (proj1 (Forall_forall _ _) HN IS HIn').
Qed.

(** ** The plan *)

Record planned (Names : nat → string) (objs : list Object) (Synth : Synthetics) (P : Plan) (Ins : list Input) : Prop := {
  planned_inputs : makeInputs Names 0 (fileSections objs) = Ret Ins;
  planned_scan : scanLink objs = Ret (Some (PlanScan P), []);
  planned_all : PlanInputs P = allInputs Ins (ScanGot (PlanScan P)) Synth;
  planned_collected : collected (PlanInputs P) (PlanSections P);
  planned_sorted : ∃ Secs, PlanSections P = sortSections Secs;
  planned_layout : layoutFile (PlanSections P) = Ret (PlanLayout P, [])
}.

Lemma scanLink_clean (objs : list Object) (Sc : Scan) (Errs : list string) : scanLink objs = Ret (Some Sc, Errs) → Errs = [].
Proof.
  unfold scanLink. destruct (addFiles 0 objs ∅) as [T [|]]; [| discriminate]. intros H. apply outcome_bind_Ret_inv in H as ([[R G] Es] & _ & H).
  destruct Es; [injection H as _ <-; reflexivity | discriminate H].
Qed.

Lemma planLink_inv (Names : nat → string) (objs : list Object) (Synth : Synthetics) (Headers : string → Z * Z * Z) (P : Plan) :
  planLink Names objs Synth Headers = Ret (Some P, []) → ∃ Ins, planned Names objs Synth P Ins.
Proof.
  unfold planLink. intros H. apply outcome_bind_Ret_inv in H as (Ins & HI & H). apply outcome_bind_Ret_inv in H as ([[Sc |] Es] & HS & H); [| discriminate H].
  pose proof (scanLink_clean _ _ _ HS) as ->. cbv zeta in H.
  destruct (addOrphanSections (allInputs Ins (ScanGot Sc) Synth)) as [V [|]] eqn:EV; [| discriminate H].
  apply outcome_bind_Ret_inv in H as ([L Es] & HL & H). destruct Es; [| discriminate H]. injection H as <-. exists Ins.
  split; cbn [PlanScan PlanInputs PlanSections PlanLayout]; [exact HI | exact HS | reflexivity | | eauto | exact HL].
  pose proof (orphans_grouped (allInputs Ins (ScanGot Sc) Synth)) as HG. rewrite EV in HG.
  exact (sections_collected _ _ _ HG (allInputs_indexed _ _ _ _ _ HI)).
Qed.

(** Relocation keeps the number of bytes. *)
Definition sizes_match (objs : list Object) (img : Image) : Prop :=
  (∀ f s obj Sec, objs !! f = Some obj → ObjSections obj !! s = Some Sec → ∃ bufs buf, ImageSections img !! f = Some bufs ∧
     bufs !! s = Some buf ∧ length buf = length (ObjData Sec)) ∧
  length (ImageGot img) = (4 * length (GotSlots img))%nat.

Lemma link_sizes (SectionVA : SectionId → Z) (GotVA : Z) (objs : list Object) (img : Image) :
  link SectionVA GotVA objs = Ret (Some img, []) → sizes_match objs img.
Proof.
  intros H. split; [| exact (got_inside _ _ _ _ H)]. intros f s obj Sec Ho HS.
  destruct (link_inv _ _ _ _ H) as (T & _ & HF & _). destruct (HF f obj s Sec Ho HS) as (Rs & bufs & buf & H1 & H2 & H3 & _).
  exists bufs, buf. auto.
Qed.

Lemma apply_link (SectionVA : SectionId → Z) (GotVA : Z) (objs : list Object) (Sc : Scan) (img : Image) :
  scanLink objs = Ret (Some Sc, []) → applyLink SectionVA GotVA objs Sc = Ret (img, []) →
  link SectionVA GotVA objs = Ret (Some img, []) ∧ GotSlots img = ScanGot Sc.
Proof.
  intros HS HA. split; [unfold link; rewrite HS, outcome_bind_ret, HA; reflexivity |].
  unfold applyLink in HA. apply outcome_bind_Ret_inv in HA as ([imgs E1] & _ & HA). apply outcome_bind_Ret_inv in HA as ([got E2] & _ & HA).
  injection HA as <- _. reflexivity.
Qed.

(** Contents that have the sizes of input sections. *)
Definition contents_fit (Inputs : list Input) (Contents : list (list Z)) : Prop :=
  Forall2 (λ IS B, Z.of_nat (length B) = ISSize (InSection IS)) Inputs Contents.

Lemma synthInputs_fit (i : nat) (Synth : list Synthetic) : contents_fit (synthInputs i Synth) (map SynData Synth).
Proof.
  unfold contents_fit, synthInputs. apply Forall2_same_length_lookup_2; [rewrite length_imap, length_map; reflexivity |].
  intros k IS B Hk HB. rewrite list_lookup_imap in Hk. change (map SynData Synth) with (SynData <$> Synth) in HB. rewrite list_lookup_fmap in HB.
  destruct (Synth !! k); [| discriminate]. injection Hk as <-. injection HB as <-. reflexivity.
Qed.

Lemma fileInputs_fit (Names : nat → string) (objs : list Object) (img : Image) (Ins : list Input) :
  makeInputs Names 0 (fileSections objs) = Ret Ins → sizes_match objs img → contents_fit Ins (fileContents objs img).
Proof.
  intros HI [HSz _]. destruct (makeInputs_spec _ _ _ _ HI) as [HL HK]. unfold contents_fit, fileContents.
  apply Forall2_same_length_lookup_2; [rewrite length_map; exact HL |]. intros k IS B Hk HB. destruct (HK k IS Hk) as ([f s] & Sec & Hf & _ & -> & _).
  pose proof (list_elem_of_lookup_2 _ _ _ Hf) as Hin. apply elem_of_fileSections in Hin as (obj & Ho & HS).
  destruct (HSz f s obj Sec Ho HS) as (bufs & buf & H1 & H2 & HLb). rewrite <- HLb.
  rewrite list_lookup_fmap in HB. pose proof (eq_trans (eq_sym (f_equal (fmap _) Hf)) HB) as E. cbn [fmap option_fmap option_map] in E.
  injection E as <-. rewrite H1. cbn [mbind option_bind]. rewrite H2. reflexivity.
Qed.

(** The bytes of all input sections are of their sizes. *)
Lemma inputContents_fit (Names : nat → string) (objs : list Object) (img : Image) (Synth : Synthetics) (P : Plan) (Ins : list Input) :
  planned Names objs Synth P Ins → sizes_match objs img → GotSlots img = ScanGot (PlanScan P) →
  contents_fit (PlanInputs P) (inputContents objs img Synth).
Proof.
  intros HP HSz HG. rewrite (planned_all _ _ _ _ _ HP). unfold allInputs, inputContents, contents_fit. cbv zeta. rewrite !app_assoc.
  apply Forall2_app; [apply Forall2_app; [apply Forall2_app |] |].
  - exact (fileInputs_fit _ _ _ _ (planned_inputs _ _ _ _ _ HP) HSz).
  - apply synthInputs_fit.
  - apply Forall2_cons. split; [| apply Forall2_nil_2]. cbn [GotSection InSection ISSize]. rewrite (proj2 HSz), HG.
    change (GotEntrySize Nyuzi_TargetInfo) with 4. lia.
  - apply synthInputs_fit.
Qed.

Lemma outputContents_ok (Names : nat → string) (objs : list Object) (Synth : Synthetics) (P : Plan) (Ins : list Input) (img : Image) :
  planned Names objs Synth P Ins → sizes_match objs img → GotSlots img = ScanGot (PlanScan P) →
  Forall2 contents_ok (PlanSections P) (outputContents objs Synth P img).
Proof.
  intros HP HSz HG. unfold outputContents. apply Forall2_fmap_r, Forall_Forall2_diag, Forall_forall. intros Sec HSec _.
  apply Forall2_fmap_r, Forall_Forall2_diag, Forall_forall. intros I HI.
  rewrite (output_inputs _ _ (collected_outputs _ _ (planned_collected _ _ _ _ _ HP) Sec HSec)) in HI.
  apply list_elem_of_fmap in HI as (IS & -> & HIS). apply elem_of_used in HIS as [HIS _]. apply elem_of_named in HIS as [HIS _]. apply list_elem_of_lookup in HIS as (k & Hk).
  destruct (Forall2_lookup_l _ _ _ _ _ (inputContents_fit _ _ _ _ _ _ HP HSz HG) Hk) as (B & HB & HL).
  pose proof Hk as Hi. rewrite (planned_all _ _ _ _ _ HP) in Hi. pose proof (allInputs_indexed _ _ _ _ _ (planned_inputs _ _ _ _ _ HP) _ _ Hi) as HX.
  rewrite <- HX in HB. rewrite <- HL. do 2 f_equal. exact (f_equal (default []) HB).
Qed.

(** ** The file, loaded *)

(** Four bytes of the memory of the load segments. *)
Definition loadedWord (file : list Z) (a : Z) : option Z :=
  le_combine <$> mapM (λ k, memoryByte file (segmentsOf file) (a + k)) [0; 1; 2; 3].

(** The bytes [B] are in memory at [a]. *)
Definition loaded_at (file : list Z) (a : Z) (B : list Z) : Prop :=
  ∀ k b, B !! k = Some b → memoryByte file (segmentsOf file) (a + Z.of_nat k) = Some b.

Lemma loadedWord_at (file : list Z) (a : Z) (B : list Z) (off : nat) :
  loaded_at file a B → (off + 4 ≤ length B)%nat → loadedWord file (a + Z.of_nat off) = Some (word_at B off).
Proof.
  intros H Hl. destruct (split_word B off Hl) as (pre & b0 & b1 & b2 & b3 & post & -> & <-). unfold loadedWord, word_at.
  rewrite drop_app_length. cbn [take app map].
  assert (HB : ∀ k b, [b0; b1; b2; b3] !! k = Some b → memoryByte file (segmentsOf file) (a + Z.of_nat (length pre) + Z.of_nat k) = Some b).
  { intros k b Hk. rewrite <- Z.add_assoc, <- Nat2Z.inj_add. apply H. rewrite lookup_app_r by lia. rewrite Nat.add_comm, Nat.add_sub.
    apply lookup_app_l_Some, Hk. }
  pose proof (HB 0%nat b0 eq_refl) as H0. pose proof (HB 1%nat b1 eq_refl) as H1. pose proof (HB 2%nat b2 eq_refl) as H2.
  pose proof (HB 3%nat b3 eq_refl) as H3. change (Z.of_nat 0) with 0 in H0. change (Z.of_nat 1) with 1 in H1. change (Z.of_nat 2) with 2 in H2.
  change (Z.of_nat 3) with 3 in H3. cbn [mapM mbind option_bind]. rewrite H0, H1, H2, H3. reflexivity.
Qed.

(** What the operand stands for, in memory: as in the image, but the slot of the GOT is
    read from memory. *)
Definition loaded_operand (file : list Z) (GotVA : Z) (σ : string → Z) (A : Z) (F : SymbolicInst) (V : Z) : Prop :=
  match F with
  | SymGot _ _ n => loadedWord file (GotVA + V) = Some (u32 (σ n))
  | _ => V = meaning σ (sym_value F) - if pcrel (sym_type F) then A else 0
  end.

(** Symbols of a file that are not local are in the symbol table. *)
Lemma resolve_nonempty (l : list LSymbol) (S : LSymbol) : S ∈ l → ∃ S', resolve l = Some S'.
Proof.
  unfold resolve. intros H. destruct (List.filter is_strong_definition l); [| eauto].
  destruct (List.filter isDefinedSymbol l); [| eauto]. destruct l; [apply elem_of_nil in H as [] | eauto].
Qed.

Lemma scan_symtab (objs : list Object) (Sc : Scan) : scanLink objs = Ret (Some Sc, []) → addFiles 0 objs ∅ = (ScanSymtab Sc, []).
Proof.
  unfold scanLink. destruct (addFiles 0 objs ∅) as [T [|]]; [| discriminate]. intros H. apply outcome_bind_Ret_inv in H as ([[R G] Es] & _ & H).
  destruct Es; [injection H as <-; reflexivity | discriminate H].
Qed.

Lemma entry_symbol (objs : list Object) (P : Plan) (f : nat) (st : Streamer) (obj : Object) (o : ObjSymbol) :
  scanLink objs = Ret (Some (PlanScan P), []) → objs !! f = Some obj → findSymbol "_start" obj = Some o → st_binding o ≠ STB_LOCAL →
  getEntryAddr objs P = symbol_address objs (planVA objs P) f st "_start".
Proof.
  intros HS Ho Hf Hb. apply scan_symtab in HS. unfold getEntryAddr, symbol_address, symbol_table. rewrite HS, Ho. cbn [mbind option_bind fst].
  rewrite Hf, bool_decide_false by exact Hb. rewrite addFiles_entries in HS.
  destruct (add_entries_resolve _ (all_entries_binding 0 objs)) as [HR _]. rewrite HS in HR. cbn [fst] in HR.
  destruct (resolve_nonempty _ _ (all_entries_elem 0 f objs obj _ o Ho (findSymbol_elem _ _ _ Hf) Hb)) as [S HE].
  rewrite HR, HE. reflexivity.
Qed.

Lemma getFlags_alloc (Flags : Z) : has_flag (getFlags Flags) SHF_ALLOC = has_flag Flags SHF_ALLOC.
Proof.
  unfold has_flag, getFlags. rewrite !Z.ldiff_land, <- !Z.land_assoc. reflexivity.
Qed.

Lemma getType_contents (Name : string) : getType SHT_PROGBITS Name ≠ SHT_NOBITS.
Proof. unfold getType. destruct (_ && _); [discriminate |]. destruct (_ && _); discriminate. Qed.

(** An input section in memory, given that the file loads its output sections. *)
Section Loaded.
Context (Names : nat → string) (objs : list Object) (Synth : Synthetics) (P : Plan) (Ins : list Input) (img : Image) (file : list Z).
Context (Phdrs : list PhdrEntry) (n : nat) (Off : Z).
Hypothesis HP : planned Names objs Synth P Ins.
Hypothesis HSz : sizes_match objs img.
Hypothesis HGot : GotSlots img = ScanGot (PlanScan P).
Hypothesis HLo : layout_ok (PlanSections P) Phdrs n Off (PlanLayout P).
Hypothesis HLd : ∀ i j Sec Cs a B k b, PlanSections P !! i = Some Sec → isAlloc Sec = true → OSType Sec ≠ SHT_NOBITS →
  outputContents objs Synth P img !! i = Some Cs → inputVA (PlanLayout P) i j = Some a → Cs !! j = Some B → B !! k = Some b →
  memoryByte file (segmentsOf file) (a + Z.of_nat k) = Some b.

Lemma input_loaded (k : nat) (IS : Input) (B : list Z) :
  PlanInputs P !! k = Some IS → InEmpty IS = false → has_flag (InFlags IS) SHF_ALLOC = true → InType IS ≠ SHT_NOBITS → inputContents objs img Synth !! k = Some B →
  ∃ a, inputAddress (PlanSections P) (PlanLayout P) k = Some a ∧ loaded_at file a B.
Proof.
  intros Hk HE HA HT HB. assert (HI : indexed (PlanInputs P)) by (rewrite (planned_all _ _ _ _ _ HP); apply (allInputs_indexed Names (fileSections objs)), (planned_inputs _ _ _ _ _ HP)).
  destruct (inputAddress_found _ _ _ k IS _ _ _ (planned_collected _ _ _ _ _ HP) HI Hk HE HLo) as (i & j & Sec & a & Ha & Hi & Hj & HV & HAl & HNb).
  exists a. split; [exact Ha |]. intros d b Hb.
  assert (HCs : outputContents objs Synth P img !! i = Some (map (λ IS, default [] (inputContents objs img Synth !! ISIndex IS)) (OSInputs Sec))).
  { unfold outputContents. rewrite list_lookup_fmap, Hi. reflexivity. }
  apply (HLd i j Sec _ a B d b Hi (HAl HA) (HNb HT) HCs HV); [| exact Hb].
  rewrite list_lookup_fmap, Hj. cbn [fmap option_fmap option_map]. rewrite <- (HI k IS Hk) in HB.
  exact (f_equal (λ x, Some (default [] x)) HB).
Qed.

Lemma file_section_loaded (f s : nat) (obj : Object) (Sec : ObjSection) (bufs : list (list Z)) (buf : list Z) :
  objs !! f = Some obj → ObjSections obj !! s = Some Sec → sectionAlloc Sec = true →
  ImageSections img !! f = Some bufs → bufs !! s = Some buf → loaded_at file (planVA objs P (f, s)) buf.
Proof.
  intros Ho HS HA Hb1 Hb2. destruct (fileSections_find objs f s obj Sec Ho HS) as (k & Hf & Hk).
  destruct (makeInputs_spec _ _ _ _ (planned_inputs _ _ _ _ _ HP)) as [HL HK].
  assert (Hkl : (k < length Ins)%nat) by (rewrite HL; exact (lookup_lt_Some _ _ _ Hk)). destruct (lookup_lt_is_Some_2 _ _ Hkl) as [IS HIS].
  destruct (HK k IS HIS) as (id & Sec' & Hk' & _ & _ & HFl & HTy & HEm & _).
  assert (Sec' = Sec) as -> by (pose proof (eq_trans (eq_sym Hk) Hk') as E; injection E as _ <-; reflexivity).
  destruct (input_loaded k IS buf) as (a & Ha & HLa).
  - rewrite (planned_all _ _ _ _ _ HP). unfold allInputs. cbv zeta. do 3 apply lookup_app_l_Some. exact HIS.
  - exact HEm.
  - rewrite HFl, getFlags_alloc. exact HA.
  - rewrite HTy. apply getType_contents.
  - unfold inputContents. apply lookup_app_l_Some. unfold fileContents. rewrite list_lookup_fmap. refine (eq_trans (f_equal (fmap _) Hk) _).
    cbn [fmap option_fmap option_map]. rewrite Hb1. cbn [mbind option_bind]. rewrite Hb2. reflexivity.
  - unfold planVA. replace (list_find _ (fileSections objs)) with (Some (k, ((f, s), Sec))) by (symmetry; exact Hf). cbn [mbind option_bind].
    rewrite Ha. exact HLa.
Qed.

Lemma got_loaded : GotSlots img ≠ [] → loaded_at file (planGotVA objs Synth P) (ImageGot img).
Proof.
  intros HN. destruct (makeInputs_spec _ _ _ _ (planned_inputs _ _ _ _ _ HP)) as [HL _].
  set (k := (length (fileSections objs) + length (BeforeGot Synth))%nat).
  assert (HIn : PlanInputs P !! k = Some (GotSection k (GotSlots img))).
  { rewrite (planned_all _ _ _ _ _ HP), HGot. unfold allInputs, k. cbv zeta. rewrite !length_app. unfold synthInputs at 1 2 3. rewrite !length_imap, HL.
    apply lookup_app_l_Some. rewrite lookup_app_r by (rewrite length_app, length_imap; lia). rewrite length_app, length_imap, HL, Nat.sub_diag. reflexivity. }
  destruct (input_loaded k _ (ImageGot img) HIn) as (a & Ha & HLa); [cbn; destruct (GotSlots img); [contradiction | reflexivity] | reflexivity | discriminate | |].
  - unfold inputContents. rewrite app_assoc. assert (HF : length (fileContents objs img) = length (fileSections objs)) by apply length_map.
    rewrite lookup_app_r by (rewrite length_app, length_map; unfold k; lia). rewrite length_app, length_map, HF. unfold k. rewrite Nat.sub_diag. reflexivity.
  - unfold planGotVA. fold k. rewrite Ha. exact HLa.
Qed.
End Loaded.

(** A link without messages ends with a file whose sections are in memory where the
    layout put them. *)
Lemma program_loaded (C : Config) (Names : nat → string) (objs : list Object) (Synth : Synthetics) (Headers : string → Z * Z * Z) (P : Plan) (img : Image) :
  planLink Names objs Synth Headers = Ret (Some P, []) → plan_fits objs Synth P →
  applyLink (planVA objs P) (planGotVA objs Synth P) objs (PlanScan P) = Ret (img, []) →
  ∃ file, linkProgram C Names objs Synth Headers = Ret (Some file, []) ∧ readable file ∧ e_entry (headerOf file) = u32 (getEntryAddr objs P) ∧
    (∀ f s obj Sec bufs buf, objs !! f = Some obj → ObjSections obj !! s = Some Sec → sectionAlloc Sec = true →
       ImageSections img !! f = Some bufs → bufs !! s = Some buf → loaded_at file (planVA objs P (f, s)) buf) ∧
    (GotSlots img ≠ [] → loaded_at file (planGotVA objs Synth P) (ImageGot img)).
Proof.
  intros HPl HF HA. destruct (planLink_inv _ _ _ _ _ HPl) as (Ins & HP). destruct (apply_link _ _ _ _ _ (planned_scan _ _ _ _ _ HP) HA) as [HL HG].
  pose proof (link_sizes _ _ _ _ HL) as HSz.
  assert (HI : Forall input_ok (map InSection (PlanInputs P))).
  { rewrite (planned_all _ _ _ _ _ HP). exact (allInputs_ok _ _ _ _ _ (planned_inputs _ _ _ _ _ HP) (fits_synthetic _ _ _ HF)). }
  pose proof (fits_weight _ _ _ HF) as HW.
  pose proof (collected_ok _ _ (planned_collected _ _ _ _ _ HP) HI ltac:(lia) (fits_no_tls _ _ _ HF) (fits_name _ _ _ HF)) as HS.
  destruct (planned_sorted _ _ _ _ _ HP) as [Secs ES].
  assert (HS0 : Forall section_ok Secs) by (rewrite ES, sortSections_perm in HS; exact HS).
  pose proof (fits_loaded _ _ _ HF) as HE. rewrite ES, sortSections_perm in HE.
  destruct (sorted_sections Secs HS0 HE) as (Alloc & Rest & Es & HS' & HAl & HRe & HN & HLn).
  pose proof (fits_sections _ _ _ HF) as HLen. pose proof (planned_layout _ _ _ _ _ HP) as HLay. rewrite <- ES in Es. rewrite Es in HLen, HLay.
  destruct (layoutFile_spec Alloc Rest HS' HAl HRe HN HLen) as (Off & L & Errs & HLay' & HLo & HFit). rewrite HLay in HLay'. injection HLay' as <- <-.
  rewrite <- Es in HLen, HLo, HS'.
  destruct (layout_loads C _ _ _ _ _ (getEntryAddr objs P) _ HS' HLen HLo (outputContents_ok _ _ _ _ _ _ HP HSz HG) (HFit eq_refl))
    as (file & HWr & _ & HR & HEn & HB & _).
  exists file. split; [unfold linkProgram, finishLink; rewrite HPl, outcome_bind_ret, HA, outcome_bind_ret, HWr; reflexivity |].
  split; [exact HR |]. split; [exact HEn |]. split.
  - intros f s obj Sec bufs buf. exact (file_section_loaded _ _ _ _ _ _ _ _ _ _ HP HLo HB f s obj Sec bufs buf).
  - exact (got_loaded _ _ _ _ _ _ _ _ _ _ HP HG HLo HB).
Qed.

Lemma object_sizes (Names : nat → string) (objs : list Object) (Synth : Synthetics) (P : Plan) (Ins : list Input) (f : nat) (obj : Object) :
  planned Names objs Synth P Ins → plan_fits objs Synth P → objs !! f = Some obj → Forall (λ Sec, Z.of_nat (length (ObjData Sec)) < 2 ^ 32) (ObjSections obj).
Proof.
  intros HP HF Ho. apply Forall_lookup_2. intros s Sec HS. destruct (fileSections_find objs f s obj Sec Ho HS) as (k & _ & Hk).
  destruct (makeInputs_spec _ _ _ _ (planned_inputs _ _ _ _ _ HP)) as [HL HK].
  destruct (lookup_lt_is_Some_2 Ins k) as [IS HIS]; [rewrite HL; exact (lookup_lt_Some _ _ _ Hk) |].
  destruct (HK k IS HIS) as (id & Sec' & Hk' & _ & HSz & _).
  assert (Sec' = Sec) as -> by (pose proof (eq_trans (eq_sym Hk) Hk') as E; injection E as _ <-; reflexivity).
  rewrite <- HSz. pose proof (fits_weight _ _ _ HF). etransitivity; [| exact (fits_weight _ _ _ HF)]. apply input_size_bound.
  - rewrite (planned_all _ _ _ _ _ HP). exact (allInputs_ok _ _ _ _ _ (planned_inputs _ _ _ _ _ HP) (fits_synthetic _ _ _ HF)).
  - rewrite (planned_all _ _ _ _ _ HP). unfold allInputs. cbv zeta. do 3 (apply elem_of_app; left). eapply list_elem_of_lookup_2, HIS.
Qed.

(** ** Property *)

(** C1. A symbolic instruction in memory.  Files are linked: planned and relocated
    without a message, with sections that fit.  Then the linker writes a file, without
    an error and inside its buffer, that is an executable for this machine; and for an
    instruction with a symbolic operand - a branch, a half of an address, a load from
    the GOT - in a loaded section of any of the files, assembled without a message, the
    word a loader puts at the address of the instruction disassembles to the
    instruction whose operand is the value of the expression with every symbol at its
    address, relative to the place of the instruction in a branch; or, in a load, the
    offset from the GOT of a word of memory that holds the address of the symbol.  The
    labels written before the instruction have its address, and the program starts there
    when [_start] is one.  The expressions are those of [one_or_strong]: one symbol at
    most, or symbols that are not weak.  The opcode is the one the decoder's table gives
    for the word; that table is generated and its choice is a hypothesis. *)
Theorem executable_instruction (C : Config) (Names : nat → string) (objs : list Object) (Synth : Synthetics) (Headers : string → Z * Z * Z) (P : Plan) (img : Image)
    (f : nat) (st : Streamer) (obj : Object) (pre post : list StreamerOp) (Ls : list string) (F : SymbolicInst) :
  planLink Names objs Synth Headers = Ret (Some P, []) → plan_fits objs Synth P →
  applyLink (planVA objs P) (planGotVA objs Synth P) objs (PlanScan P) = Ret (img, []) → objs !! f = Some obj →
  let ops := pre ++ map OpLabel Ls ++ OpInstruction (sym_inst F) :: post in
  assembleObject formatBinaryCode ops = Ret (obj, []) → emitted ops = Ret st → Forall (op_ok formatBinaryCode) ops →
  sym_ok F = true → expr_ok (sym_value F) = true → one_or_strong (StSymbols st) (sym_value F) →
  let σ := symbol_address objs (planVA objs P) f st in
  ∃ file s Sec off, linkProgram C Names objs Synth Headers = Ret (Some file, []) ∧ readable file ∧ ObjSections obj !! s = Some Sec ∧
    let A := planVA objs P (f, s) + Z.of_nat off in
    (∀ L, L ∈ Ls → isWeak (sym (StSymbols st) L) = false → u64 (σ L) = u64 A) ∧
    ("_start"%string ∈ Ls → (∃ o, findSymbol "_start" obj = Some o ∧ st_binding o = STB_GLOBAL) → isWeak (sym (StSymbols st) "_start") = false →
       e_entry (headerOf file) = u32 A) ∧
    (sectionAlloc Sec = true →
       ∃ w V, loadedWord file A = Some w ∧ loaded_operand file (planGotVA objs Synth P) σ A F V ∧
       ∀ selectOpcode instr Size Address, selectOpcode w = Some (Opcode (sym_inst F)) →
         getInstruction selectOpcode None instr Size (le_bytes 4 w) Address = Ret (Success, 4, sym_linked F (u64 (i32 V)))).
Proof.
  intros HPl HF HA Ho ops Hasm Hem Hops Hsym Hexp H1 σ. destruct (planLink_inv _ _ _ _ _ HPl) as (Ins & HP).
  destruct (apply_link _ _ _ _ _ (planned_scan _ _ _ _ _ HP) HA) as [HL HG].
  assert (HLF : linked_file (planVA objs P) (planGotVA objs Synth P) objs img f ops st obj)
    by (split; [exact HL | exact Ho | exact Hasm | exact Hem | exact Hops | exact (object_sizes _ _ _ _ _ _ _ HP HF Ho)]).
  destruct (linked_instruction _ _ _ _ _ _ _ _ _ _ _ HLF Hsym Hexp H1) as (s & off & [Sec HS] & HLs & HX).
  destruct (program_loaded C _ _ _ _ _ _ HPl HF HA) as (file & HW & HR & HEn & HSl & HGl).
  exists file, s, Sec, off. split; [exact HW |]. split; [exact HR |]. split; [exact HS |]. split; [exact HLs |]. split.
  - intros Hst (o & Hf & Hb) Hweak. rewrite HEn. rewrite (entry_symbol objs P f st obj o (planned_scan _ _ _ _ _ HP) Ho Hf ltac:(rewrite Hb; discriminate)).
    rewrite <- (u32_u64 (symbol_address _ _ _ _ _)), (HLs _ Hst Hweak). apply u32_u64.
  - intros HAl. destruct (HX ltac:(intros Sec' HS'; rewrite HS in HS'; injection HS' as <-; exact HAl)) as (bufs & buf & V & Hb1 & Hb2 & Hin & HV & Hd).
    pose proof (HSl f s obj Sec bufs buf Ho HS HAl Hb1 Hb2) as HB. eexists _, V. split; [exact (loadedWord_at _ _ _ _ HB Hin) |]. split; [| exact Hd].
    destruct F as [| | | r b n]; cbn [loaded_operand operand_value] in *; try exact HV. destruct HV as (k & -> & Hk & Hs).
    replace (4 * Z.of_nat k) with (Z.of_nat (4 * k)) by lia. rewrite (loadedWord_at _ _ (ImageGot img)); [f_equal; exact Hs | apply HGl | exact Hk].
    intros HN. rewrite (proj2 (link_sizes _ _ _ _ HL)), HN in Hk. cbn in Hk. lia.
Qed.

(** The program of two files of NyuziObject.v, with a string table.  The call at its
    start goes to the other file. *)
Definition demo_objs : list Object := [object_of demo_main; object_of demo_lib].

Definition demo_synth : Synthetics :=
  mkSynthetics [mkSynthetic ".bss" SHT_NOBITS (SHF_ALLOC + SHF_WRITE) 0 1 [] true] [mkSynthetic ".shstrtab" 3 0 0 1 [0; 1; 2] false].

Definition demo_names (f : nat) : string := match f with O => "main.o" | _ => "lib.o" end.

Definition demo_headers (_ : string) : Z * Z * Z := (0, 0, 0).

Definition demo_plan : Plan :=
  match planLink demo_names demo_objs demo_synth demo_headers with Ret (Some P, _) => P | _ => mkPlan (mkScan ∅ [] []) [] [] (mkLayout [] [] [] 0 0) end.

Definition demo_relocated : Image :=
  match applyLink (planVA demo_objs demo_plan) (planGotVA demo_objs demo_synth demo_plan) demo_objs (PlanScan demo_plan) with Ret (img, _) => img | _ => mkImage [] [] [] end.

Lemma demo_planned : planLink demo_names demo_objs demo_synth demo_headers = Ret (Some demo_plan, []).
Proof. vm_compute. reflexivity. Qed.

Lemma demo_applied : applyLink (planVA demo_objs demo_plan) (planGotVA demo_objs demo_synth demo_plan) demo_objs (PlanScan demo_plan) = Ret (demo_relocated, []).
Proof. vm_compute. reflexivity. Qed.

Lemma demo_fits : plan_fits demo_objs demo_synth demo_plan.
Proof.
  split.
  - apply (bool_decide_unpack _). vm_compute. exact I.
  - repeat (apply Forall_cons; split; [exact pow2_1 |]). apply Forall_nil_2.
  - vm_compute. reflexivity.
  - apply (bool_decide_unpack _). vm_compute. exact I.
  - apply (bool_decide_unpack _). vm_compute. exact I.
  - apply (bool_decide_unpack _). vm_compute. exact I.
  - vm_compute. reflexivity.
Qed.

Definition demo_call : SymbolicInst := SymBranch Nyuzi.CALLSYM (Nyuzi.S 0) (MCSymbolRefExpr "f").

Lemma demo_start : ∃ o, findSymbol "_start" (object_of demo_main) = Some o ∧ st_binding o = STB_GLOBAL.
Proof.
  assert (H : match findSymbol "_start" (object_of demo_main) with Some o => st_binding o = STB_GLOBAL | None => False end) by (vm_compute; reflexivity).
  destruct (findSymbol "_start" (object_of demo_main)) as [o |]; [exists o; split; [reflexivity | exact H] | destruct H].
Qed.

Example executable_instruction_witness :
  ∃ file A, linkProgram (mkConfig 0 0 3) demo_names demo_objs demo_synth demo_headers = Ret (Some file, []) ∧ readable file ∧ u64 A = 0x1000 ∧
    e_entry (headerOf file) = 0x1000 ∧
    ∃ w, loadedWord file A = Some w ∧ getInstruction (λ _, Some Nyuzi.CALLSYM) None (mkMCInst Nyuzi.B []) 0 (le_bytes 4 w) 0
    = Ret (Success, 4, sym_linked demo_call 8).
Proof.
  destruct (assembled_clean demo_main ltac:(vm_compute; reflexivity)) as [HA HE].
  assert (HAl : Forall (λ Sec, sectionAlloc Sec = true) (ObjSections (object_of demo_main))) by (apply (bool_decide_unpack _); vm_compute; exact I).
  assert (Hs : symbol_address demo_objs (planVA demo_objs demo_plan) 0 (state_of demo_main) "_start" = 0x1000) by (vm_compute; reflexivity).
  assert (Hf : symbol_address demo_objs (planVA demo_objs demo_plan) 0 (state_of demo_main) "f" = 0x1008) by (vm_compute; reflexivity).
  destruct (executable_instruction (mkConfig 0 0 3) demo_names demo_objs demo_synth demo_headers demo_plan demo_relocated 0 (state_of demo_main) (object_of demo_main)
    (take 2 demo_main) (drop 5 demo_main) ["_start"; ".Lloop"]%string demo_call demo_planned demo_fits demo_applied eq_refl HA HE)
    as (file & s & Sec & off & HW & HR & HS & HL & HEn & HI).
  - repeat constructor; unfold op_ok; (vm_compute; intuition discriminate).
  - reflexivity.
  - reflexivity.
  - left. exists "f"%string. intros n Hn. cbn in Hn. apply list_elem_of_singleton in Hn. exact Hn.
  - exists file, (planVA demo_objs demo_plan (0%nat, s) + Z.of_nat off). split; [exact HW |]. split; [exact HR |].
    assert (HA' : u64 (planVA demo_objs demo_plan (0%nat, s) + Z.of_nat off) = 0x1000).
    { rewrite <- (HL "_start"%string); [rewrite Hs; reflexivity | left | vm_compute; reflexivity]. }
    split; [exact HA' |]. split.
    + rewrite HEn; [rewrite <- u32_u64, HA'; reflexivity | left | | vm_compute; reflexivity].
      exact demo_start.
    + destruct (HI (Forall_lookup_1 _ _ _ _ HAl HS)) as (w & V & Hw & HV & Hd). exists w. split; [exact Hw |].
      rewrite (Hd _ _ _ _ eq_refl). cbn [loaded_operand demo_call] in HV.
      rewrite HV, target_u32. do 4 f_equal. change (pcrel (sym_type demo_call)) with true. cbv iota.
      change (meaning ?σ (sym_value demo_call)) with (σ "f"%string). rewrite Hf.
      rewrite <- uint_sub_r, <- (u32_u64 (planVA _ _ _ + _)), HA'. reflexivity.
Defined.
